(* ===== verification/_CoqProject ===== *)
-Q . S2P
Prelude.v
Sql.v
Async.v
ControlPlane.v
Errors.v
States.v
Api.v
Ticket.v
Filesystem.v
TargetedStore.v
Access.v
Invitation.v
Inbox.v
SecureSecret.v
SecretStores.v
WindowsStore.v
AndroidStore.v
Relationship.v
Pairing.v
Devices.v
DevicesSpec.v
Core.v
Approval.v
Authorization.v
TargetedModule.v
TargetedModuleSpec.v
TargetedRuntime.v
Share.v
TargetedCreate.v
TargetedRuntimeSpec.v
TargetedCreateSpec.v
IdentityRecovery.v
Startup.v
EventHub.v
LinuxState.v
LinuxSession.v
LinuxPreferences.v
ReconciliationSpec.v
TargetedReceiveSpec.v
SavedDevices.v
Provider.v
OutputFile.v
TargetedPreparation.v
ShareSpec.v
ShareTasks.v
Receive.v
ReceiveSpec.v
ReceiveTasks.v
DeliverySpec.v
