(* ===== verification/Prelude.v ===== *)
(** * VniDrop: a verification library of its core and of its Linux shell

    VniDrop sends files between devices over authenticated peer-to-peer connections. The
    Rust crate [src/crates/vnidrop] is its core: everything that decides who may send what
    to whom, and what survives a crash. User interfaces call it, most of them through generated
    bindings; the one for Linux, [src/linux], is a Rust program whose state is modelled too.
    [iroh] carries the bytes and is not part of this library.

    ** How the program is put together

    Transfers come in two kinds. An _invitation transfer_ starts from a ticket; its history
    is kept by [invitation/] and what a connected peer may read is decided by
    [access_policy.rs]. A _targeted transfer_ goes to a _saved device_: the offer waits in
    the receiver's [targeted_transfer/inbox.rs] until the user decides, and both sides
    record it in [targeted_transfer/store.rs] with the authorizations, receipts and releases
    still owed to the peer ([store_outbox.rs]).
    Two installations become saved devices of each other in [device_relationship/]: a
    completed transfer leaves a single-use capability at both ends ([pairing_eligibility/]),
    with which one side asks; after mutual consent each holds a grant of the other and later
    proves it. Grants, capabilities and the endpoint identity are secrets in custody
    ([secure_secret.rs]), split between the credential store of the platform
    ([secure_secret/]) and a table; an identity that is lost can be given up
    ([identity_recovery.rs]). Blocked identities are refused throughout ([blocked_devices.rs]);
    misbehaving ones cool down, and what leaves in events or error texts is redacted
    ([control_plane.rs], [error.rs], [event_hub.rs]).

    The runtime ties these together. A share is prepared, published and withdrawn by
    [runtime/share.rs]; an invitation is a ticket ([ticket.rs]) and a receiver is approved in
    [approval.rs]; [runtime/receive.rs] receives and [delivery.rs] tells the sender how it ended.
    A targeted transfer is prepared through an object of the user interface
    ([runtime/targeted_preparation.rs]), created by [runtime/targeted_create.rs], driven on the
    wire by [targeted_transfer/module.rs] and by the runtime around it ([runtime/targeted*.rs]);
    its capabilities are minted in [targeted_transfer/auth.rs]. Every blob request passes
    [runtime/provider.rs]; received files are published by [filesystem.rs]. A start of the core
    settles what was cut short and offers again what can still be served ([runtime/mod.rs]).

    ** Files and sources (under [src/crates/vnidrop/src])

    Foundations:
    - [Prelude.v]: notation, list, string and option lemmas, the hint databases.
    - [Sql.v]: the effect of an [async fn] on tables ([M]), its weakest preconditions ([wp])
      and invariants ([within]); statements, transactions, the clock, failing statements.
    - [Async.v]: futures that are interleaved and dropped ([Async], [Pool], [race]), with a
      rely-guarantee logic for them ([rg], [pool_safe]).
    - [ControlPlane.v]: [control_plane.rs]; Modules [Cooldown] and [Redaction].
    - [Errors.v]: [error.rs], with [anyhow] error chains.
    - [States.v]: [transfer_state.rs], [targeted_transfer/state.rs] and the other state enums.
    - [Api.v]: the records of [api.rs] and [CoreLimits::validate].
    - [Ticket.v]: [ticket.rs], relay profiles and the network configuration of [api.rs].
    - [Filesystem.v]: [filesystem.rs]: names, paths, file URLs, selected sources.

    What is stored:
    - [TargetedStore.v]: [targeted_transfer/store.rs], [store_outbox.rs] and [schema.rs].
    - [Access.v]: [access_policy.rs] and [blocked_devices.rs].
    - [Invitation.v]: [invitation/mod.rs].
    - [Inbox.v]: [targeted_transfer/inbox.rs], as tasks that advance one critical section at
      a time.
    - [SecureSecret.v]: [secure_secret.rs]; [SecretStores.v]: [secure_secret/platform.rs] and the
      laws of a store; [WindowsStore.v] and [AndroidStore.v]: [windows.rs] and [android.rs].
    - [Relationship.v]: [device_relationship/store.rs].
    - [Pairing.v]: [pairing_eligibility/mod.rs] and [store.rs].

    What is decided:
    - [Devices.v]: [grant.rs] and [device_relationship/] ([service.rs], [lifecycle.rs],
      [crypto.rs], the messages of [protocol.rs]); [DevicesSpec.v]: its specifications.
    - [Core.v]: the state of [CoreInner] ([runtime/mod.rs]) that the components share.
    - [Approval.v]: [approval.rs] and [handshake.rs].
    - [Authorization.v]: [targeted_transfer/auth.rs] and [authorization_custody.rs].
    - [TargetedModule.v]: [targeted_transfer/module.rs] and [protocol.rs];
      [TargetedModuleSpec.v]: its handlers specified.

    The runtime:
    - [TargetedRuntime.v]: [runtime/targeted.rs], [targeted_receive.rs],
      [targeted_reconciliation.rs]; [TargetedRuntimeSpec.v], [ReconciliationSpec.v] and
      [TargetedReceiveSpec.v]: the refinement of the store, the background ticks, receives.
    - [Share.v]: [runtime/share.rs] and [lifecycle.rs]; [ShareSpec.v] and [ShareTasks.v]: what the
      calls on a share guarantee each other, and the calls.
    - [TargetedCreate.v]: [runtime/targeted_create.rs]; [TargetedCreateSpec.v]: its guarantees.
    - [IdentityRecovery.v]: [identity_recovery.rs] and [runtime/identity_recovery.rs].
    - [Startup.v]: [CoreInner::start] of [runtime/mod.rs]. [EventHub.v]: [event_hub.rs].
    - [SavedDevices.v]: [runtime/saved_devices.rs].
    - [Provider.v]: [runtime/provider.rs].
    - [OutputFile.v]: [AtomicOutputFile] of [filesystem.rs], the exports of [runtime/receive.rs].
    - [TargetedPreparation.v]: [runtime/targeted_preparation.rs].
    - [Receive.v]: [runtime/receive.rs], [delivery.rs], [targeted_payload.rs]; [ReceiveSpec.v],
      [ReceiveTasks.v] and [DeliverySpec.v]: a receive under interference, receipts, payloads.

    The Linux application ([src/linux/src]):
    - [LinuxState.v]: [composer.rs], [draft.rs], [events.rs], [devices.rs], [targeted.rs].
    - [LinuxSession.v]: [session.rs], [targeted.rs], [draft.rs], [reconfiguration.rs].
    - [LinuxPreferences.v]: [preferences.rs].

    A definition has the name of the function, type or constant it models; where two files
    of the crate use one name it gets a suffix or prefix that tells them apart ([find_row] of
    the store is [find_relationship_row], [reconcile] of the devices [reconcile_devices]).

    ** How the code is modelled

    A table is a finite map from its primary key to its other columns, with what SQLite
    holds: enums as their storage text and unsigned integers as the signed ones that [as]
    produces ([as_i64], [as_u64], [as_u16] wrap). A statement is a function on the tables;
    uniqueness and foreign keys make it fail. [M S E A] threads the tables and a position in
    the environment [Env], which chooses the clock, fresh identifiers and which statements
    fail. A store that the operating system implements is a class with its laws
    ([SecureSecretStore], [SecureSecretStoreLaws]); clients are proved against the laws, the
    reference store of the crate is an instance, and the stores of Windows and Android are
    shown to keep the laws for the handles they can name ([StoreLawsFor]).

    What is computed outside the program is a class parameter: keys, hexadecimal decoding, files
    and the tasks that run meanwhile ([Host]), hashes ([Blake3], [Blake3Bytes]), peers and random
    bytes ([Network], [Remote], [OfferRemote]), other tasks of the core ([Neighbours]), the blob
    store ([Blobs], [BlobPresence], [Importer], [Downloads], [Exports]), file systems ([Files],
    [Volume], [FileHost]), credential services ([WindowsDpapiApi] over [Crypt],
    [AndroidKeystore]), and the texts of libraries ([ForeignText]).

    A theorem quantifies over all environments, so over every failing statement, clock,
    answer of a peer and outcome of the credential store. Operations of a component are also
    data ([StoreOp], [HistoryOp], [CustodyOp], [DeviceOp], …), so that invariants are stated
    for every sequence of them.

    Concurrency is modelled in one of two ways. Where the code takes locks one after another, a
    component is a step relation over interleaved tasks: the inbox, the approvals, the
    preparation, the hub of events, the sessions of the Linux application. Where a call is a
    long [async fn] that others may overtake or drop, it is a future of [Async.v]: sections between
    await points, run in any order with the sections of other tasks, possibly dropped at an
    await. What a task assumes of the others and promises them is proved for each task alone
    and composed for any number of them: shares, receives, receipts and payloads.

    ** What the theorems show

    - Targeted transfers: every sequence of store operations keeps the tables well formed
      and moves each row along the state machine; consent is consumed in the transaction that
      creates the receiver's row; completion is exactly once; revoking a peer cancels what
      is unfinished; byte counts are monotone and bounded; restart settles what was in flight.
    - The module and the runtime around it: offers, capabilities and completions are taken only
      from the saved device they belong to; every handler answers; the runtime moves the
      tables by store operations only; what is served after a restart is served to a trusted
      device and nobody else; background ticks send every report that is due, keep
      what is owed and starve nobody; a transfer is received by one task.
    - Creating a targeted transfer: nobody reads a payload while it is prepared, and an offer ends
      with access granted and the capability owed, or with the payload withdrawn.
    - The preparation object: under every interleaving each call returns, and stops agree.
    - The inbox: under every interleaving it is bounded, and no offer is accepted without
      the user's consent; one race is exhibited.
    - Invitations: statuses follow their state machine, receiver requests settle once,
      completion and its receipt are atomic, event history is bounded, crash recovery; tickets
      survive being pasted; approvals refine a ledger and need consent.
    - Shares: however calls on a share interleave and wherever they are dropped, what was
      withdrawn stays withdrawn, what failed is not served, and every call returns.
    - Receiving: however a receive ends or is dropped, its row, its files and the receipt it owes
      are settled; receipts reach every sender that can be reached; a payload is complete before
      its transfer is; one receive that can report failure after completing is exhibited, and
      one that another start strands.
    - Serving and publishing: a blob is read only with access to a share that holds it; a received
      file appears whole or not at all, inside the chosen directory, and replaces nothing; sinks
      are called back in sessions; sources become checked names and no descriptor leaks.
    - Access: decisions fail closed, the deny list is faithful.
    - Custody: reconciliation after any crash, round trip, removal is final, and the endpoint
      identity survives restarts and is never handed out unprotected; giving an identity up
      revokes all that was bound to it and keeps the finished history.
    - Credential stores: the stores of Windows and Android, scoped to a profile, keep the laws
      custody relies on whatever fails below; envelopes, payloads and records round-trip; a
      secret is replaced as a whole or not at all.
    - Pairing and devices: capabilities are single-use and agree at both ends; a saved peer is
      authenticated only by proof of possession of its active grant, and an honest one always
      is; revocation is final; forgetting and blocking are complete; the MAC binds its fields.
    - Start and events: a start offers again exactly what can be served under the network it
      runs with; events reach the application in order and the history as they were emitted,
      and flushing or closing the hub returns.
    - Redaction and errors: what is scrubbed, and exactly when text is left alone.
    - The Linux application: a draft submits what is selected; a device is acted upon as it is
      now; a cancelled import is withdrawn; a session closes when nobody is inside; changing the
      network saves only what the core runs with; old preferences are taken over as they were.

    ** Bounds and fuel

    The scanners of [ControlPlane.v] recurse on fuel that is the length of the text, and each
    step consumes a byte ([redact_tickets_enough], [collapse_loop_enough]). [wait_for_active_endpoint_identity]
    polls at most [polls n] times: the timeout of one second, whose number of turns the
    environment chooses. [inbox_submit] and [inbox_respond] run a task of the inbox for as many
    steps as the environment makes it wait plus those of its longest path ([patience] + 10,
    [waits] + 12). With [n] calls and [w] spurious wake-ups a preparation takes at most
    (3n + 10) n + 3w steps. [find_ids] looks for an identifier of a targeted transfer
    that is free, for one turn more than there are transfers: enough when the identifiers drawn
    are different ([find_ids_enough]). The readers of old preferences have
    the length of the input as fuel ([import_total]); a varint has at most ten bytes. The key
    stream of [WindowsStore.v] takes blocks while bytes are left, at most as many as there are
    bytes. Loops over query results are structural recursion on lists.

    ** What is not modelled

    Outside the code: the database engine below a statement, [iroh] connections and the blob
    store, the Apple keychain, the Secret Service of Linux and the JNI calls of
    [android_native.rs] (each a call of the operating system with nothing decided between), and
    generated bindings. In the core: [runtime/facade.rs], whose methods only pass a call on to
    the runtime and block on it; logging; the framing of messages on a stream; opening the database
    with its migrations; test hooks. A handler of [Devices.v] runs from its entry to its end
    except while it waits for a peer; peer locks are not modelled. Of the Linux
    application: widgets and translations, desktop notices, the display of progress, the sweep of
    old temporary files and the report of diagnostics (an HTTP request). The applications in other
    languages. *)

From Stdlib Require Export Ascii.
From stdpp Require Export base numbers list gmap strings sorting.
From Stdlib Require Export ZArith Lia.

#[global] Open Scope Z_scope.
#[global] Set Default Goal Selector "!".

Declare Scope vnidrop_scope.
Delimit Scope vnidrop_scope with vnidrop.

(** ** Rust [Result] *)

(** [std::result::Result], with the value type first as Rust writes it. *)
Inductive result (A E : Type) : Type :=
| Ok (a : A)
| Err (e : E).
Arguments Ok {A E} a.
Arguments Err {A E} e.

Definition result_map_err {A E F : Type} (h : E → F) (r : result A E) : result A F :=
  match r with Ok a => Ok a | Err e => Err (h e) end.

Definition result_map {A B E : Type} (f : A → B) (r : result A E) : result B E :=
  match r with Ok a => Ok (f a) | Err e => Err e end.

(** The [?] operator on pure code. *)
Definition result_bind {A B E : Type} (f : A → result B E) (r : result A E) : result B E :=
  match r with Ok a => f a | Err e => Err e end.

Notation "'let?' x ':=' r 'in' k" := (result_bind (λ x, k) r)
  (at level 10, x name, r at level 100, k at level 200) : vnidrop_scope.
Notation "'let?' ' p ':=' r 'in' k" := (result_bind (λ p, k) r)
  (at level 10, p strict pattern, r at level 100, k at level 200) : vnidrop_scope.
#[global] Open Scope vnidrop_scope.

Definition is_ok {A E : Type} (r : result A E) : bool :=
  match r with Ok _ => true | Err _ => false end.

(** [iter().map(f).collect::<Result<Vec<_>, _>>()]: the first error wins. *)
Fixpoint collect_results {A B E : Type} (f : A → result B E) (l : list A) : result (list B) E :=
  match l with
  | [] => Ok []
  | x :: l' => let? y := f x in let? ys := collect_results f l' in Ok (y :: ys)
  end.

(** [Option::map(f).transpose()]. *)
Definition option_transpose {A B E : Type} (f : A → result B E) (o : option A) :
    result (option B) E :=
  match o with
  | None => Ok None
  | Some x => let? y := f x in Ok (Some y)
  end.

(** ** Machine integers: values are [Z]; casts wrap as Rust's [as] does. *)

Definition U64_MOD : Z := 2 ^ 64.
Definition I64_MAX : Z := 2 ^ 63 - 1.
Definition U64_MAX : Z := 2 ^ 64 - 1.
Definition U32_MAX : Z := 2 ^ 32 - 1.

Definition is_u64 (z : Z) : Prop := 0 ≤ z ≤ U64_MAX.
Definition is_i64 (z : Z) : Prop := - 2 ^ 63 ≤ z ≤ I64_MAX.

(** [x as u64] from a signed 64-bit value. *)
Definition as_u64 (z : Z) : Z := z mod U64_MOD.

(** [x as i64] from an unsigned 64-bit value. *)
Definition as_i64 (z : Z) : Z :=
  let m := z mod U64_MOD in if m <=? I64_MAX then m else m - U64_MOD.

(** [x as u16] and [x as u32]. *)
Definition as_u16 (z : Z) : Z := z mod 2 ^ 16.
Definition as_u32 (z : Z) : Z := z mod 2 ^ 32.

(** [u64::saturating_add] and [u32::saturating_add]. *)
Definition u64_saturating_add (a b : Z) : Z := Z.min (a + b) U64_MAX.
Definition u32_saturating_add (a b : Z) : Z := Z.min (a + b) U32_MAX.

(** ** Rust strings: UTF-8 byte strings *)

(** [str::len] counts bytes. *)
Definition str_len (s : string) : Z := Z.of_nat (String.length s).

Definition str_is_empty (s : string) : bool :=
  match s with EmptyString => true | _ => false end.

(** [str::strip_prefix]. *)
Fixpoint strip_prefix (p s : string) : option string :=
  match p, s with
  | EmptyString, _ => Some s
  | String a p', String b s' => if Ascii.eqb a b then strip_prefix p' s' else None
  | String _ _, EmptyString => None
  end.

Definition starts_with (p s : string) : bool :=
  match strip_prefix p s with Some _ => true | None => false end.

(** [s.contains(p)]. *)
Fixpoint str_contains (p s : string) : bool :=
  starts_with p s ||
  match s with EmptyString => false | String _ s' => str_contains p s' end.

(** [Option<String>::as_deref() == Some(x)] and SQL [column = ?] (a [NULL]
    column is never equal to a bound value). *)
Definition opt_eqb (o : option string) (x : string) : bool := bool_decide (o = Some x).

Definition str_eqb (x y : string) : bool := bool_decide (x = y).

Definition str_in (x : string) (l : list string) : bool := existsb (str_eqb x) l.
#[global] Arguments str_in _ _ : simpl never.

(** Length in bytes of the Unicode [White_Space] character that starts [s], as
    [char::is_whitespace] decides it on the UTF-8 decoding; [0] if [s] does not
    start with one. *)
Definition ws_len (s : string) : nat :=
  let c := map (λ a, Z.of_N (Ascii.N_of_ascii a)) (String.list_ascii_of_string s) in
  match c with
  | b0 :: c1 =>
      if ((9 <=? b0) && (b0 <=? 13)) || (b0 =? 32) then 1%nat
      else match c1 with
           | b1 :: c2 =>
               if (b0 =? 0xC2) && ((b1 =? 0x85) || (b1 =? 0xA0)) then 2%nat
               else match c2 with
                    | b2 :: _ =>
                        if ((b0 =? 0xE1) && (b1 =? 0x9A) && (b2 =? 0x80))
                           || ((b0 =? 0xE2) && (b1 =? 0x80)
                               && (((0x80 <=? b2) && (b2 <=? 0x8A))
                                   || (b2 =? 0xA8) || (b2 =? 0xA9) || (b2 =? 0xAF)))
                           || ((b0 =? 0xE2) && (b1 =? 0x81) && (b2 =? 0x9F))
                           || ((b0 =? 0xE3) && (b1 =? 0x80) && (b2 =? 0x80))
                        then 3%nat else 0%nat
                    | [] => 0%nat
                    end
           | [] => 0%nat
           end
  | [] => 0%nat
  end.

(** [str::trim_start]: [skip] counts the bytes left of the character being dropped. *)
Fixpoint trim_start_skip (skip : nat) (s : string) : string :=
  match s with
  | EmptyString => EmptyString
  | String _ s' =>
      match skip with
      | S k => trim_start_skip k s'
      | O => match ws_len s with O => s | S k => trim_start_skip k s' end
      end
  end.
Definition trim_start (s : string) : string := trim_start_skip 0 s.

(** [str::trim_end] and [str::trim]; no continuation byte of UTF-8 starts a character. *)
Fixpoint trim_end (s : string) : string :=
  if str_is_empty (trim_start s) then EmptyString
  else match s with
       | EmptyString => EmptyString
       | String a s' => String a (trim_end s')
       end.
Definition trim (s : string) : string := trim_end (trim_start s).

(** ** Lemmas on integers *)

Lemma as_i64_range z : is_i64 (as_i64 z).
Proof.
  unfold is_i64, as_i64, U64_MOD, I64_MAX.
  pose proof (Z.mod_pos_bound z (2 ^ 64) ltac:(lia)).
  destruct (Z.leb_spec (z mod 2 ^ 64) (2 ^ 63 - 1)); lia.
Qed.

Lemma as_i64_small z : 0 ≤ z ≤ I64_MAX → as_i64 z = z.
Proof.
  unfold as_i64, U64_MOD, I64_MAX. intros Hz.
  rewrite Z.mod_small by lia. destruct (Z.leb_spec z (2 ^ 63 - 1)); lia.
Qed.

(** Storing a [u64] in a signed SQLite column and reading it back is lossless. *)
Lemma as_u64_as_i64 z : is_u64 z → as_u64 (as_i64 z) = z.
Proof.
  unfold is_u64, as_u64, as_i64, U64_MAX, U64_MOD, I64_MAX. intros Hz.
  rewrite (Z.mod_small z) by lia.
  destruct (Z.leb_spec z (2 ^ 63 - 1)).
  - apply Z.mod_small. lia.
  - rewrite <- (Z_mod_plus_full _ 1). rewrite Z.mod_small; lia.
Qed.

Lemma as_u64_range z : is_u64 (as_u64 z).
Proof.
  unfold is_u64, as_u64, U64_MAX, U64_MOD.
  pose proof (Z.mod_pos_bound z (2 ^ 64)). lia.
Qed.

Lemma as_i64_inj a b : is_u64 a → is_u64 b → as_i64 a = as_i64 b → a = b.
Proof. intros Ha Hb E. rewrite <- (as_u64_as_i64 a), <- (as_u64_as_i64 b), E; done. Qed.

(** ** Lemmas on strings *)

Lemma str_eqb_eq x y : str_eqb x y = true ↔ x = y.
Proof. apply bool_decide_eq_true. Qed.

Lemma str_eqb_refl x : str_eqb x x = true.
Proof. by apply str_eqb_eq. Qed.

Lemma opt_eqb_eq o x : opt_eqb o x = true ↔ o = Some x.
Proof. apply bool_decide_eq_true. Qed.

Lemma str_in_elem x l : str_in x l = true ↔ x ∈ l.
Proof.
  unfold str_in. rewrite existsb_exists. split.
  - intros (y & Hy & E). apply str_eqb_eq in E as ->. by apply list_elem_of_In.
  - intros Hx. exists x. split; [by apply list_elem_of_In | apply str_eqb_refl].
Qed.

Lemma strip_prefix_app p s : strip_prefix p (p +:+ s) = Some s.
Proof.
  induction p as [|a p IH]; [done|].
  change (strip_prefix (String a p) (String a (p +:+ s)) = Some s).
  simpl. by rewrite Ascii.eqb_refl.
Qed.

Lemma strip_prefix_Some p s t : strip_prefix p s = Some t → s = p +:+ t.
Proof.
  revert s. induction p as [|a p IH]; intros [|b s] E; simplify_eq/=; [done..|].
  destruct (Ascii.eqb_spec a b) as [->|]; [|done].
  change (String b s = String b (p +:+ t)). f_equal. by apply IH.
Qed.

Lemma str_app_cons a s t : String a s +:+ t = String a (s +:+ t).
Proof. done. Qed.

Lemma str_app_assoc s t u : (s +:+ t) +:+ u = s +:+ (t +:+ u).
Proof. induction s as [|a s IH]; [done|]. by rewrite !str_app_cons, IH. Qed.

Lemma str_app_empty_r s : s +:+ EmptyString = s.
Proof. induction s as [|a s IH]; [done|]. by rewrite str_app_cons, IH. Qed.

Lemma str_length_app s t : String.length (s +:+ t) = (String.length s + String.length t)%nat.
Proof. induction s as [|a s IH]; [done|]. rewrite str_app_cons. simpl. by rewrite IH. Qed.

(** Texts of equal length in front of equal texts are equal. *)
Lemma str_app_inj_len a b x y :
  String.length a = String.length b → a +:+ x = b +:+ y → a = b ∧ x = y.
Proof.
  revert b. induction a as [|c a IH]; intros [|c' b]; intros Hlen E; [done..|].
  injection E as -> E. injection Hlen as Hlen. by destruct (IH b Hlen E) as [-> ->].
Qed.

Lemma starts_with_app p s : starts_with p (p +:+ s) = true.
Proof. unfold starts_with. by rewrite strip_prefix_app. Qed.

Lemma str_len_nonneg s : 0 ≤ str_len s.
Proof. unfold str_len. lia. Qed.

(** SQLite's byte order on text is a total order. *)
Lemma str_leb_cons a s b t :
  String.leb (String a s) (String b t) = true ↔
  (N_of_ascii a < N_of_ascii b)%N ∨ (a = b ∧ String.leb s t = true).
Proof.
  unfold String.leb. simpl. unfold Ascii.compare.
  destruct (N.compare_spec (N_of_ascii a) (N_of_ascii b)) as [E|E|E].
  - apply (f_equal ascii_of_N) in E. rewrite !ascii_N_embedding in E. subst.
    split; [by right | intros [?|[_ ?]]; [lia|done]].
  - split; [by left | done].
  - split; [done | intros [?|[-> _]]; lia].
Qed.

#[global] Instance str_leb_trans : Transitive (λ x y, String.leb x y = true).
Proof.
  intros x. induction x as [|a x IH]; intros y z; [by destruct z|].
  destruct y as [|b y]; [done|]. destruct z as [|c z]; [done|].
  rewrite !str_leb_cons. intros [H1|[-> H1]] [H2|[-> H2]]; [left; lia|by left|by left|].
  right. split; [done|]. by eapply IH.
Qed.

(** ** Lemmas on [result] *)

Lemma collect_results_Ok {A B E} (f : A → result B E) l ys :
  collect_results f l = Ok ys ↔ Forall2 (λ x y, f x = Ok y) l ys.
Proof.
  revert ys. induction l as [|x l IH]; intros ys; simpl.
  - split; [by intros [= <-] | by inversion 1].
  - split.
    + destruct (f x) as [y|e] eqn:Ef; [|done]. simpl.
      destruct (collect_results f l) as [zs|e] eqn:El; [|done]. simpl.
      intros [= <-]. constructor; [done|]. by apply IH.
    + intros H. apply Forall2_cons_inv_l in H as (y & zs & Hy & Hzs & ->).
      apply IH in Hzs. by rewrite Hy, Hzs.
Qed.

Lemma collect_results_total {A B E} (f : A → result B E) l :
  Forall (λ x, is_ok (f x) = true) l → is_ok (collect_results f l) = true.
Proof.
  induction 1 as [|x l Hx _ IH]; [done|]. simpl.
  destruct (f x); [|done]. simpl. by destruct (collect_results f l).
Qed.

(** ** Tactics shared by the development *)

(** Split conjunctions, disjunctions of booleans and equalities in hypotheses. *)
Ltac bool_simpl :=
  repeat match goal with
  | H : _ && _ = true |- _ => apply andb_prop in H as [? ?]
  | H : _ || _ = true |- _ => apply orb_prop in H as [?|?]
  | H : _ || _ = false |- _ => apply orb_false_elim in H as [? ?]
  | H : negb _ = true |- _ => apply negb_true_iff in H
  | H : negb _ = false |- _ => apply negb_false_iff in H
  | H : str_eqb _ _ = true |- _ => apply str_eqb_eq in H
  | H : opt_eqb _ _ = true |- _ => apply opt_eqb_eq in H
  | H : bool_decide _ = true |- _ => apply bool_decide_eq_true in H
  | H : bool_decide _ = false |- _ => apply bool_decide_eq_false in H
  | H : (_ <=? _) = true |- _ => apply Z.leb_le in H
  | H : (_ <=? _) = false |- _ => apply Z.leb_gt in H
  | H : (_ <? _) = true |- _ => apply Z.ltb_lt in H
  | H : (_ <? _) = false |- _ => apply Z.ltb_ge in H
  | H : (_ =? _)%Z = true |- _ => apply Z.eqb_eq in H
  | H : (_ =? _)%Z = false |- _ => apply Z.eqb_neq in H
  end.

(** Case analysis on every [match] and [if] of the goal, with simplification. *)
Ltac split_cases := repeat (case_match; simplify_eq/=; bool_simpl; try done).
