(* ===== verification/Sql.v ===== *)
(** * Effects: the SQLite pool, the clock and random identifiers

    The stores of the crate run SQL statements over one SQLite connection
    ([persistence.rs] opens the pool with [max_connections(1)], so statements and
    transactions are serialised). A table is a [gmap] from its primary key to the
    remaining columns; a statement is a function on the tables that yields its
    result (rows, [rows_affected]) or a constraint violation.

    [M S E A] is the effect of an [async fn] of a store: it threads the state [S]
    and a counter that indexes the environment [Env], from which the clock
    ([util::now_ms]), [Uuid::new_v4] and the outcome of every statement are read.
    A statement may fail with an I/O error at any point the environment chooses;
    theorems quantify over all environments, hence over all failure schedules.

    The second half of the file is the reasoning library: a weakest-precondition
    predicate, and [within R m] (every run of [m] relates its initial and final
    state by the preorder [R], whether it succeeds or fails). *)

From S2P Require Import Prelude.

(** ** Environment *)

Inductive SqlxError : Type :=
| SqlxIo (message : string)
| SqlxUnique
| SqlxForeignKey
| SqlxRowNotFound.

Class Env : Type := {
  clock : nat → Z;                 (* what [now_ms()] returns at that point *)
  io_fault : nat → option string;  (* [Some m]: this statement fails with an I/O error *)
  new_uuid : nat → string          (* [Uuid::new_v4().to_string()] *)
}.

(** A fault-free environment with a constant clock, for concrete runs. *)
Definition quiet_env (now : Z) (uuid : nat → string) : Env :=
  {| clock := λ _, now; io_fault := λ _, None; new_uuid := uuid |}.

(** ** The effect *)

Definition M (S E A : Type) : Type := S → nat → result A E * S * nat.

Definition ret {S E A} (a : A) : M S E A := λ s n, (Ok a, s, n).
Definition fail {S E A} (e : E) : M S E A := λ s n, (Err e, s, n).

#[global] Instance M_bind {S E} : MBind (M S E) := λ A B f m s n,
  match m s n with
  | (Ok a, s', n') => f a s' n'
  | (Err e, s', n') => (Err e, s', n')
  end.

Definition get {S E} : M S E S := λ s n, (Ok s, s, n).
Definition modify {S E} (f : S → S) : M S E unit := λ s n, (Ok tt, f s, n).

(** [result.map_err(h)] on the outcome of an effect. *)
Definition map_err {S E F A} (h : E → F) (m : M S E A) : M S F A := λ s n,
  match m s n with (r, s', n') => (result_map_err h r, s', n') end.

(** The outcome as a value: [match m.await { Ok(..) => .., Err(..) => .. }]. *)
Definition try {S E F A} (m : M S E A) : M S F (result A E) := λ s n,
  match m s n with (r, s', n') => (Ok r, s', n') end.

Definition of_result {S E A} (r : result A E) : M S E A := λ s n, (r, s, n).

(** Run an effect of a component on its part of a larger state. *)
Definition zoom {T S E A} (proj : T → S) (inj : S → T → T) (m : M S E A) : M T E A := λ t n,
  match m (proj t) n with (r, s', n') => (r, inj s' t, n') end.

(** [for x in l { f(x).await?; }]. *)
Fixpoint for_each {S E A} (l : list A) (f : A → M S E unit) : M S E unit :=
  match l with
  | [] => ret tt
  | x :: l' => f x ≫= λ _, for_each l' f
  end.

(** The same loop with an accumulator: [let mut acc = b; for x in l { .. }]. *)
Fixpoint fold_each {S E A B} (f : B → A → M S E B) (l : list A) (b : B) : M S E B :=
  match l with
  | [] => ret b
  | x :: l' => f b x ≫= fold_each f l'
  end.

Definition when {S E} (b : bool) (m : M S E unit) : M S E unit := if b then m else ret tt.

Section Effects.
Context `{Env}.

Definition now_ms {S E} : M S E Z := λ s n, (Ok (clock n), s, Datatypes.S n).
Definition uuid_v4 {S E} : M S E string := λ s n, (Ok (new_uuid n), s, Datatypes.S n).

(** One SQL statement: it may fail before it has any effect, or violate a
    constraint, in which case SQLite leaves the tables unchanged. *)
Definition stmt {S A} (f : S → result (A * S) SqlxError) : M S SqlxError A := λ s n,
  match io_fault n with
  | Some m => (Err (SqlxIo m), s, Datatypes.S n)
  | None => match f s with
            | Ok (a, s') => (Ok a, s', Datatypes.S n)
            | Err e => (Err e, s, Datatypes.S n)
            end
  end.

(** [pool.begin()] … [transaction.commit()]: any error in between, or a commit
    that fails, rolls every statement of the body back. *)
Definition transaction {S E A} (of_sqlx : SqlxError → E) (body : M S E A) : M S E A := λ s n,
  match io_fault n with
  | Some m => (Err (of_sqlx (SqlxIo m)), s, Datatypes.S n)
  | None =>
      match body s (Datatypes.S n) with
      | (Err e, _, n') => (Err e, s, n')
      | (Ok a, s', n') =>
          match io_fault n' with
          | Some m => (Err (of_sqlx (SqlxIo m)), s, Datatypes.S n')
          | None => (Ok a, s', Datatypes.S n')
          end
      end
  end.
End Effects.

(** ** Tables *)

Section Tables.
Context {K : Type} `{Countable K} {R : Type}.
Implicit Types (P : K → R → bool) (t : gmap K R).

Definition rows_where P t : gmap K R := filter (λ kr, P kr.1 kr.2 = true) t.

(** [SELECT … WHERE P] without an [ORDER BY]. *)
Definition select_where P t : list (K * R) := map_to_list (rows_where P t).

Definition count_where P t : nat := size (rows_where P t).

Definition exists_where P t : bool := negb (Nat.eqb (count_where P t) 0).

(** [DELETE FROM t WHERE P]. *)
Definition delete_where P t : gmap K R := filter (λ kr, P kr.1 kr.2 = false) t.

(** [UPDATE t SET f WHERE P]; the number of changed rows is [count_where P t]. *)
Definition update_where P (f : K → R → R) t : gmap K R :=
  map_imap (λ k r, Some (if P k r then f k r else r)) t.

(** [INSERT INTO t]: a duplicate primary key violates the constraint. *)
Definition insert_row (k : K) (r : R) t : result (gmap K R) SqlxError :=
  match t !! k with Some _ => Err SqlxUnique | None => Ok (<[k := r]> t) end.

(** [INSERT OR IGNORE INTO t]. *)
Definition insert_or_ignore (k : K) (r : R) t : gmap K R :=
  match t !! k with Some _ => t | None => <[k := r]> t end.

(** [INSERT … ON CONFLICT(pk) DO UPDATE SET f WHERE P]: rows changed, table. *)
Definition upsert_where (k : K) (new : R) P (f : R → R) t : nat * gmap K R :=
  match t !! k with
  | None => (1%nat, <[k := new]> t)
  | Some old => if P k old then (1%nat, <[k := f old]> t) else (0%nat, t)
  end.
End Tables.

(** [ORDER BY]: a stable merge sort on a decidable total preorder. *)
Definition order_by {A} (le : A → A → Prop) `{!RelDecision le} (l : list A) : list A :=
  merge_sort le l.

(** ** Table lemmas *)

Section TableLemmas.
Context {K : Type} `{Countable K} {R : Type}.
Implicit Types (P : K → R → bool) (t : gmap K R).

Lemma lookup_rows_where P t k r :
  rows_where P t !! k = Some r ↔ t !! k = Some r ∧ P k r = true.
Proof. unfold rows_where. apply map_lookup_filter_Some. Qed.

Lemma elem_of_select_where P t k r :
  (k, r) ∈ select_where P t ↔ t !! k = Some r ∧ P k r = true.
Proof. unfold select_where. rewrite elem_of_map_to_list. apply lookup_rows_where. Qed.

Lemma lookup_delete_where P t k r :
  delete_where P t !! k = Some r ↔ t !! k = Some r ∧ P k r = false.
Proof. unfold delete_where. apply map_lookup_filter_Some. Qed.

Lemma lookup_update_where P f t k :
  update_where P f t !! k = (λ r, if P k r then f k r else r) <$> t !! k.
Proof. unfold update_where. rewrite map_lookup_imap. by destruct (t !! k). Qed.

Lemma dom_update_where P f t : dom (update_where P f t) = dom t.
Proof.
  apply set_eq. intros k. rewrite !elem_of_dom, lookup_update_where.
  by rewrite fmap_is_Some.
Qed.

Lemma count_where_zero P t :
  count_where P t = 0%nat ↔ ∀ k r, t !! k = Some r → P k r = false.
Proof.
  unfold count_where. rewrite map_size_empty_iff. split.
  - intros E k r Hk. destruct (P k r) eqn:HP; [|done].
    assert (rows_where P t !! k = Some r) as Hr by (by apply lookup_rows_where).
    by rewrite E, lookup_empty in Hr.
  - intros Hall. apply map_empty. intros k.
    destruct (rows_where P t !! k) as [r|] eqn:E; [|done].
    apply lookup_rows_where in E as [E HP]. by rewrite (Hall k r E) in HP.
Qed.

Lemma exists_where_true P t :
  exists_where P t = true ↔ ∃ k r, t !! k = Some r ∧ P k r = true.
Proof.
  unfold exists_where. rewrite negb_true_iff, Nat.eqb_neq. split.
  - intros Hne. destruct (map_choose (rows_where P t)) as (k & r & Hk).
    { intros E. apply Hne. unfold count_where. by rewrite E. }
    exists k, r. by apply lookup_rows_where.
  - intros (k & r & Hk & HP) E.
    rewrite count_where_zero in E. by rewrite (E k r Hk) in HP.
Qed.

(** A statement whose [WHERE] fixes the primary key touches at most that row. *)
Lemma count_where_key P t k :
  (∀ k' r, P k' r = true → k' = k) →
  count_where P t = match t !! k with
                    | Some r => if P k r then 1%nat else 0%nat
                    | None => 0%nat
                    end.
Proof.
  intros HP. destruct (t !! k) as [r|] eqn:Hk.
  - destruct (P k r) eqn:Hp.
    + replace 1%nat with (size ({[k := r]} : gmap K R)) by apply map_size_singleton.
      unfold count_where. f_equal. apply map_eq. intros k'.
      destruct (decide (k' = k)) as [->|Hne].
      * rewrite lookup_singleton_eq. by apply lookup_rows_where.
      * rewrite lookup_singleton_ne by done.
        destruct (rows_where P t !! k') as [r'|] eqn:E; [|done].
        apply lookup_rows_where in E as [_ E]. by apply HP in E.
    + apply count_where_zero. intros k' r' Hk'.
      destruct (P k' r') eqn:E; [|done]. pose proof (HP _ _ E). congruence.
  - apply count_where_zero. intros k' r' Hk'.
    destruct (P k' r') eqn:E; [|done]. pose proof (HP _ _ E). congruence.
Qed.

Lemma update_where_zero P f t : count_where P t = 0%nat → update_where P f t = t.
Proof.
  rewrite count_where_zero. intros E. apply map_eq. intros k.
  rewrite lookup_update_where. destruct (t !! k) as [r|] eqn:Hk; [|done]. simpl.
  by rewrite (E k r Hk).
Qed.

Lemma update_where_key P (f : K → R → R) t k :
  (∀ k' r, P k' r = true → k' = k) →
  update_where P f t = match t !! k with
                       | Some r => if P k r then <[k := f k r]> t else t
                       | None => t
                       end.
Proof.
  intros HP. apply map_eq. intros k'. rewrite lookup_update_where.
  destruct (decide (k' = k)) as [->|Hne].
  - destruct (t !! k) as [r|] eqn:Hk; simpl; [|by rewrite Hk].
    destruct (P k r); [by rewrite lookup_insert_eq | by rewrite Hk].
  - assert ((λ r, if P k' r then f k' r else r) <$> t !! k' = t !! k') as ->.
    { destruct (t !! k') as [r|]; simpl; [|done].
      destruct (P k' r) eqn:E; [by apply HP in E | done]. }
    destruct (t !! k) as [r|]; [|done]. destruct (P k r); [|done].
    by rewrite lookup_insert_ne.
Qed.

(** A keyed predicate on an indexed table reads one row. *)
Lemma exists_where_key P t k :
  (∀ k' r, P k' r = true → k' = k) →
  exists_where P t = match t !! k with Some r => P k r | None => false end.
Proof.
  intros HP. unfold exists_where. rewrite (count_where_key P t k HP).
  destruct (t !! k) as [r|]; [|done]. by destruct (P k r).
Qed.

Lemma delete_where_key P t k :
  (∀ k' r, P k' r = true → k' = k) →
  delete_where P t = match t !! k with
                     | Some r => if P k r then delete k t else t
                     | None => t
                     end.
Proof.
  intros HP. apply map_eq. intros k'.
  assert (delete_where P t !! k' = t !! k' ≫= λ r, if P k' r then None else Some r) as ->.
  { destruct (t !! k') as [r|] eqn:Hk; simpl.
    - destruct (P k' r) eqn:E.
      + destruct (delete_where P t !! k') eqn:D; [|done].
        apply lookup_delete_where in D as [D1 D2]. congruence.
      + by apply lookup_delete_where.
    - destruct (delete_where P t !! k') eqn:D; [|done].
      apply lookup_delete_where in D as [D _]. congruence. }
  destruct (decide (k' = k)) as [->|Hne].
  - destruct (t !! k) as [r|] eqn:Hk; simpl; [|done].
    destruct (P k r); [by rewrite lookup_delete_eq | done].
  - assert ((t !! k' ≫= λ r, if P k' r then None else Some r) = t !! k') as ->.
    { destruct (t !! k') as [r|]; simpl; [|done].
      destruct (P k' r) eqn:E; [by apply HP in E | done]. }
    destruct (t !! k) as [r|]; [|done]. destruct (P k r); [|done].
    by rewrite lookup_delete_ne.
Qed.

(** The shape of an insertion statement that may hit a constraint. *)
Lemma insert_row_bind {S A} k r t (F : gmap K R → A * S) (x : A * S) :
  (let? rows := insert_row k r t in Ok (F rows)) = Ok (E:=SqlxError) x →
  x = F (<[k := r]> t) ∧ t !! k = None.
Proof. unfold insert_row. destruct (t !! k); simpl; [done|]. by intros [= <-]. Qed.

Lemma order_by_permutation {A} (le : A → A → Prop) `{!RelDecision le} (l : list A) :
  order_by le l ≡ₚ l.
Proof. apply merge_sort_Permutation. Qed.

Lemma elem_of_order_by {A} (le : A → A → Prop) `{!RelDecision le} (l : list A) x :
  x ∈ order_by le l ↔ x ∈ l.
Proof. by rewrite order_by_permutation. Qed.

Lemma order_by_sorted {A} (le : A → A → Prop) `{!RelDecision le} `{!Total le} (l : list A) :
  Sorted le (order_by le l).
Proof. apply Sorted_merge_sort; apply _. Qed.
End TableLemmas.

(** [DELETE .. WHERE pk = ?] on a table keyed by text. *)
Lemma delete_where_str {R} (t : gmap string R) k :
  delete_where (λ k' _, str_eqb k' k) t = delete k t.
Proof.
  rewrite (delete_where_key _ _ k) by (by intros k' r ?%str_eqb_eq).
  destruct (t !! k) as [r|] eqn:E; [by rewrite str_eqb_refl|]. by rewrite delete_id.
Qed.

(** *** Tables in which no row disappears *)

(** Every row survives, and moves along [Q]. *)
Definition map_lift {K : Type} `{Countable K} {R : Type} (Q : R → R → Prop) (t t' : gmap K R) : Prop :=
  ∀ k r, t !! k = Some r → ∃ r', t' !! k = Some r' ∧ Q r r'.

Section MapLift.
Context {K : Type} `{Countable K} {R : Type} (Q : R → R → Prop) `{!PreOrder Q}.
Implicit Types (t : gmap K R).

#[global] Instance map_lift_preorder : PreOrder (map_lift (K:=K) Q).
Proof.
  split.
  - intros t k r Hr. exists r. split; [done | reflexivity].
  - intros t t' t'' H1 H2 k r Hr. destruct (H1 k r Hr) as (r' & Hr' & HQ).
    destruct (H2 k r' Hr') as (r'' & Hr'' & HQ'). exists r''. split; [done | by etrans].
Qed.

Lemma map_lift_update P (f : K → R → R) t :
  (∀ k r, P k r = true → Q r (f k r)) → map_lift Q t (update_where P f t).
Proof.
  intros Hf k r Hr. rewrite lookup_update_where, Hr. simpl.
  destruct (P k r) eqn:E; eexists; (split; [done|]); [by apply Hf | reflexivity].
Qed.

Lemma map_lift_insert k r t :
  (∀ old, t !! k = Some old → Q old r) → map_lift Q t (<[k := r]> t).
Proof.
  intros Hk k' r' Hr'. destruct (decide (k' = k)) as [->|Hne].
  - rewrite lookup_insert_eq. eauto.
  - rewrite lookup_insert_ne by done. exists r'. split; [done | reflexivity].
Qed.

End MapLift.

(** ** Reasoning about effects *)

Definition wp {S E A} (m : M S E A) (s : S) (n : nat)
    (Q : result A E → S → nat → Prop) : Prop :=
  match m s n with (r, s', n') => Q r s' n' end.

(** Every run of [m], whatever its outcome, relates the state before to the state
    after by [R]. *)
Definition within {S E A} (R : S → S → Prop) (m : M S E A) : Prop :=
  ∀ s n, wp m s n (λ _ s' _, R s s').

Section WpLemmas.
Context `{Env}.

Lemma wp_ret {S E A} (a : A) (s : S) n (Q : result A E → S → nat → Prop) :
  Q (Ok a) s n → wp (ret a) s n Q.
Proof. done. Qed.

Lemma wp_fail {S E A} (e : E) (s : S) n (Q : result A E → S → nat → Prop) :
  Q (Err e) s n → wp (fail e) s n Q.
Proof. done. Qed.

Lemma wp_bind {S E A B} (m : M S E A) (f : A → M S E B) s n Q :
  wp m s n (λ r s' n', match r with
                       | Ok a => wp (f a) s' n' Q
                       | Err e => Q (Err e) s' n'
                       end) →
  wp (m ≫= f) s n Q.
Proof.
  unfold wp, mbind, M_bind. destruct (m s n) as [[r s'] n'].
  destruct r as [a|e]; [|done]. by destruct (f a s' n') as [[??]?].
Qed.

Lemma wp_mono {S E A} (m : M S E A) s n (Q Q' : result A E → S → nat → Prop) :
  wp m s n Q → (∀ r s' n', Q r s' n' → Q' r s' n') → wp m s n Q'.
Proof. unfold wp. destruct (m s n) as [[??]?]. auto. Qed.

(** Whatever it does. *)
Lemma wp_any {S E A} (m : M S E A) s n (Q : result A E → S → nat → Prop) :
  (∀ r s' n', Q r s' n') → wp m s n Q.
Proof. intros HQ. unfold wp. destruct (m s n) as [[r s'] n']. apply HQ. Qed.

Lemma wp_get {S E} (s : S) n (Q : result S E → S → nat → Prop) :
  Q (Ok s) s n → wp get s n Q.
Proof. done. Qed.

Lemma wp_modify {S E} (f : S → S) s n (Q : result unit E → S → nat → Prop) :
  Q (Ok tt) (f s) n → wp (modify f) s n Q.
Proof. done. Qed.

Lemma wp_now_ms {S E} (s : S) n (Q : result Z E → S → nat → Prop) :
  Q (Ok (clock n)) s (Datatypes.S n) → wp now_ms s n Q.
Proof. done. Qed.

Lemma wp_uuid_v4 {S E} (s : S) n (Q : result string E → S → nat → Prop) :
  Q (Ok (new_uuid n)) s (Datatypes.S n) → wp uuid_v4 s n Q.
Proof. done. Qed.

Lemma wp_map_err {S E F A} (h : E → F) (m : M S E A) s n Q :
  wp m s n (λ r s' n', Q (result_map_err h r) s' n') → wp (map_err h m) s n Q.
Proof. unfold wp, map_err. by destruct (m s n) as [[??]?]. Qed.

Lemma wp_try {S E F A} (m : M S E A) s n (Q : result (result A E) F → S → nat → Prop) :
  wp m s n (λ r s' n', Q (Ok r) s' n') → wp (try m) s n Q.
Proof. unfold wp, try. by destruct (m s n) as [[??]?]. Qed.

Lemma wp_of_result {S E A} (r : result A E) (s : S) n Q :
  Q r s n → wp (of_result r) s n Q.
Proof. done. Qed.

Lemma wp_zoom {T S E A} (proj : T → S) (inj : S → T → T) (m : M S E A) t n Q :
  wp m (proj t) n (λ r s' n', Q r (inj s' t) n') → wp (zoom proj inj m) t n Q.
Proof. unfold wp, zoom. by destruct (m (proj t) n) as [[??]?]. Qed.

Lemma wp_stmt {S A} (f : S → result (A * S) SqlxError) s n Q :
  (∀ m, io_fault n = Some m → Q (Err (SqlxIo m)) s (Datatypes.S n)) →
  (io_fault n = None →
   match f s with
   | Ok (a, s') => Q (Ok a) s' (Datatypes.S n)
   | Err e => Q (Err e) s (Datatypes.S n)
   end) →
  wp (stmt f) s n Q.
Proof.
  unfold wp, stmt. intros H1 H2. destruct (io_fault n) as [m|]; [by apply H1|].
  specialize (H2 eq_refl). by destruct (f s) as [[??]|].
Qed.

(** Loops, by an invariant of the accumulator, the elements left and the state. *)
Lemma wp_fold_each {S E A B} (I : B → list A → S → Prop) (f : B → A → M S E B) l b s n Q :
  I b l s →
  (∀ b x l s n, I b (x :: l) s →
     wp (f b x) s n (λ r s' n', match r with Ok b' => I b' l s' | Err e => Q (Err e) s' n' end)) →
  (∀ b s n, I b [] s → Q (Ok b) s n) →
  wp (fold_each f l b) s n Q.
Proof.
  intros HI Hf HQ. revert b s n HI. induction l as [|x l IH]; intros b s n HI; simpl.
  - apply wp_ret. by apply HQ.
  - apply wp_bind. eapply wp_mono; [by apply Hf|].
    intros [b'|e] s' n' Hr; simpl in Hr; [by apply IH | done].
Qed.

Lemma wp_for_each {S E A} (I : list A → S → Prop) (f : A → M S E unit) l s n Q :
  I l s →
  (∀ x l s n, I (x :: l) s →
     wp (f x) s n (λ r s' n', match r with Ok _ => I l s' | Err e => Q (Err e) s' n' end)) →
  (∀ s n, I [] s → Q (Ok tt) s n) →
  wp (for_each l f) s n Q.
Proof.
  intros HI Hf HQ. revert s n HI. induction l as [|x l IH]; intros s n HI; simpl.
  - apply wp_ret. by apply HQ.
  - apply wp_bind. eapply wp_mono; [by apply Hf|].
    intros [[]|e] s' n' Hr; simpl in Hr; [by apply IH | done].
Qed.

Lemma wp_transaction {S E A} (of_sqlx : SqlxError → E) (body : M S E A) s n Q :
  (∀ e n', Q (Err e) s n') →
  wp body s (Datatypes.S n) (λ r s' n',
    match r with Ok a => Q (Ok a) s' (Datatypes.S n') | Err _ => True end) →
  wp (transaction of_sqlx body) s n Q.
Proof.
  unfold wp, transaction. intros Hroll Hbody.
  destruct (io_fault n); [apply Hroll|].
  destruct (body s (Datatypes.S n)) as [[[a|e] s'] n']; [|apply Hroll].
  destruct (io_fault n'); [apply Hroll | done].
Qed.
End WpLemmas.

Section WithinLemmas.
Context `{Env} {S : Type} (R : S → S → Prop) `{!PreOrder R}.

Lemma within_ret {E A} (a : A) : within (E:=E) R (ret a).
Proof. intros s n. apply wp_ret. reflexivity. Qed.

Lemma within_fail {E A} (e : E) : within (A:=A) R (fail e).
Proof. intros s n. apply wp_fail. reflexivity. Qed.

Lemma within_of_result {E A} (r : result A E) : within R (of_result r).
Proof. intros s n. apply wp_of_result. reflexivity. Qed.

Lemma within_get {E} : within (E:=E) R get.
Proof. intros s n. apply wp_get. reflexivity. Qed.

Lemma within_now_ms {E} : within (E:=E) R now_ms.
Proof. intros s n. apply wp_now_ms. reflexivity. Qed.

Lemma within_uuid_v4 {E} : within (E:=E) R uuid_v4.
Proof. intros s n. apply wp_uuid_v4. reflexivity. Qed.

Lemma within_modify {E} f : (∀ s, R s (f s)) → within (E:=E) R (modify f).
Proof. intros Hf s n. apply wp_modify. apply Hf. Qed.

Lemma within_bind {E A B} (m : M S E A) (f : A → M S E B) :
  within R m → (∀ a, within R (f a)) → within R (m ≫= f).
Proof.
  intros Hm Hf s n. apply wp_bind. eapply wp_mono; [apply Hm|].
  intros [a|e] s' n' HR; [|done].
  eapply wp_mono; [apply Hf|]. intros r s'' n'' HR'. simpl in HR'. by transitivity s'.
Qed.

(** A check on pure data, then the rest. *)
Lemma within_check {E A B} (r : result A E) (f : A → M S E B) :
  (∀ a, r = Ok a → within R (f a)) → within R (of_result r ≫= f).
Proof.
  intros Hf s n. apply wp_bind, wp_of_result. destruct r as [a|e]; [by apply Hf | reflexivity].
Qed.

Lemma within_map_err {E F A} (h : E → F) (m : M S E A) :
  within R m → within R (map_err h m).
Proof. intros Hm s n. apply wp_map_err, Hm. Qed.

Lemma within_try {E F A} (m : M S E A) : within R m → within (E:=F) R (try m).
Proof. intros Hm s n. apply wp_try, Hm. Qed.

Lemma within_stmt {A} (f : S → result (A * S) SqlxError) :
  (∀ s a s', f s = Ok (a, s') → R s s') → within R (stmt f).
Proof.
  intros Hf s n. apply wp_stmt; [intros; reflexivity|]. intros _.
  destruct (f s) as [[a s']|e] eqn:E; [by eapply Hf | reflexivity].
Qed.

Lemma within_transaction {E A} (of_sqlx : SqlxError → E) (m : M S E A) :
  within R m → within R (transaction of_sqlx m).
Proof.
  intros Hm s n. apply wp_transaction; [intros; reflexivity|].
  eapply wp_mono; [apply Hm|]. by intros [a|e] s' n' HR.
Qed.

Lemma within_when {E} b (m : M S E unit) : within R m → within R (when b m).
Proof. intros Hm. destruct b; [done | apply within_ret]. Qed.

Lemma within_for_each {E A} (l : list A) (f : A → M S E unit) :
  (∀ x, within R (f x)) → within R (for_each l f).
Proof.
  intros Hf. induction l as [|x l IH]; simpl; [apply within_ret|].
  apply within_bind; [apply Hf | intros _; apply IH].
Qed.

Lemma within_fold_each {E A B} (f : B → A → M S E B) (l : list A) (b : B) :
  (∀ b x, within R (f b x)) → within R (fold_each f l b).
Proof.
  intros Hf. revert b. induction l as [|x l IH]; intros b; simpl; [apply within_ret|].
  apply within_bind; [apply Hf | intros b'; apply IH].
Qed.
End WithinLemmas.

Lemma within_weaken {S E A} (R R' : S → S → Prop) (m : M S E A) :
  (∀ s s', R s s' → R' s s') → within R m → within R' m.
Proof. intros HR Hm s n. eapply wp_mono; [apply Hm|]. intros r s' n'. apply HR. Qed.

Lemma within_zoom {T S E A} (proj : T → S) (inj : S → T → T) (RS : S → S → Prop)
    (RT : T → T → Prop) (m : M S E A) :
  (∀ t s', RS (proj t) s' → RT t (inj s' t)) →
  within RS m → within RT (zoom proj inj m).
Proof.
  intros HR Hm t n. apply wp_zoom. eapply wp_mono; [apply Hm|].
  intros r s' n'. apply HR.
Qed.

(** Concrete runs: the outcome and the final state. *)
Definition run {S E A} (m : M S E A) (s : S) : result A E * S :=
  match m s 0%nat with (r, s', _) => (r, s') end.

Lemma run_wp {S E A} (m : M S E A) (s : S) (φ : result A E → S → Prop) :
  wp m s 0 (λ r s' _, φ r s') → φ (run m s).1 (run m s).2.
Proof. unfold wp, run. by destruct (m s 0%nat) as [[??]?]. Qed.

Lemma wp_final {S E A} (m : M S E A) (s : S) n (φ : S → Prop) :
  wp m s n (λ _ s' _, φ s') → φ (m s n).1.2.
Proof. unfold wp. by destruct (m s n) as [[??]?]. Qed.

(** The lemmas that build a [within] derivation compositionally. *)
Create HintDb within discriminated.
#[export] Hint Resolve within_ret within_fail within_of_result within_get within_now_ms
  within_uuid_v4 within_modify within_bind within_map_err within_try within_stmt
  within_transaction within_when within_for_each within_fold_each : within.
#[export] Hint Extern 5 (within _ (match ?x with _ => _ end)) => destruct x : within.

(** Decompose a [within] goal down to its statements. *)
Ltac within_step :=
  first
    [ progress intros
    | apply within_ret; [apply _]
    | apply within_fail; [apply _]
    | apply within_of_result; [apply _]
    | apply within_get; [apply _]
    | apply within_now_ms; [apply _]
    | apply within_uuid_v4; [apply _]
    | apply within_bind; [apply _| |]
    | apply within_map_err
    | apply within_try
    | apply within_transaction; [apply _|]
    | apply within_when; [apply _|]
    | apply within_for_each; [apply _|]
    | apply within_fold_each; [apply _|]
    | apply within_stmt; [apply _|]
    | apply within_modify; [apply _|]
    | match goal with |- within _ (match ?x with _ => _ end) => destruct x eqn:? end ].

Ltac within_steps := repeat within_step.

(** Symbolic execution of an effect in a [wp] goal. *)
Ltac wp_steps :=
  repeat first
    [ progress intros
    | apply wp_bind
    | apply wp_ret
    | apply wp_fail
    | apply wp_get
    | apply wp_modify
    | apply wp_now_ms
    | apply wp_uuid_v4
    | apply wp_map_err
    | apply wp_try
    | apply wp_of_result
    | apply wp_stmt
    | progress simpl ].
