(* ===== verification/Async.v ===== *)
(** * Futures that are interleaved and dropped

    An [async fn] runs in sections from one [.await] to the next. [Async] is such a future: a
    section, which may have to wait until it is ready, and what follows its outcome. Tasks in a
    [Pool] take turns; [race] is the macro [tokio::select!] of a future and a one-shot signal,
    which drops the future at an await point. [rg] is a rely-guarantee logic for one task: what
    it assumes of the others, what it promises them, and what a drop at any await point leaves
    behind; [pool_safe] composes the proofs of any number of tasks. *)

From stdpp Require Import relations well_founded.
From S2P Require Import Prelude Sql.

Inductive Async (S A : Type) : Type :=
| Return (a : A)
| Await {E X : Type} (ready : S → bool) (m : M S E X) (k : result X E → Async S A).
Arguments Return {S A} a.
Arguments Await {S A E X} ready m k.

Section Combinators.
Context {S : Type}.

Fixpoint abind {A B} (p : Async S A) (f : A → Async S B) : Async S B :=
  match p with
  | Return a => f a
  | Await ready m k => Await ready m (λ r, abind (k r) f)
  end.

(** Futures of a [Result], and the [?] operator. *)
Definition Fut (E A : Type) : Type := Async S (result A E).

Definition fbind {E A B} (p : Fut E A) (f : A → Fut E B) : Fut E B :=
  abind p (λ r, match r with Ok a => f a | Err e => Return (Err e) end).

Definition fmap_err {E F A} (h : E → F) (p : Fut E A) : Fut F A :=
  abind p (λ r, Return (result_map_err h r)).

(** The outcome of a future, whichever it is. *)
Definition outcome {E F A} (p : Fut E A) : Fut F (result A E) := abind p (λ r, Return (Ok r)).

(** A future over a part of the state. *)
Fixpoint azoom {T A} (part : S → T) (put : T → S → S) (p : Async T A) : Async S A :=
  match p with
  | Return a => Return a
  | Await ready m k => Await (λ s, ready (part s)) (zoom part put m) (λ r, azoom part put (k r))
  end.

(** A section that is always ready, and one that waits. *)
Definition section {E A} (m : M S E A) : Fut E A := Await (λ _, true) m Return.
Definition waiting {E A} (ready : S → bool) (m : M S E A) : Fut E A := Await ready m Return.
End Combinators.
Arguments Fut S E A : clear implicits.

Notation "'let!' x ':=' p 'in' k" := (fbind p (λ x, k))
  (at level 10, x name, p at level 100, k at level 200) : vnidrop_scope.

(** When several branches of [select!] can go on it polls them in a random order. *)
Class Polling : Type := { cancel_first : nat → bool }.

Section Race.
Context {S : Type} `{Polling}.
Variable signalled : S → bool.
(** The destructors of what the future held. *)
Variable on_drop : S → S.

Definition raced {E X} (ready : S → bool) (m : M S E X) : M S Empty_set (option (result X E)) := λ s n,
  if signalled s && (cancel_first n || negb (ready s))
  then (Ok None, on_drop s, Datatypes.S n)
  else match m s (Datatypes.S n) with (r, s', n') => (Ok (Some r), s', n') end.

(** [None] if the signal won. *)
Fixpoint race {A} (p : Async S A) : Async S (option A) :=
  match p with
  | Return a => Return (Some a)
  | Await ready m k =>
      Await (λ s, ready s || signalled s) (raced ready m) (λ r,
        match r with Ok (Some r) => race (k r) | _ => Return None end)
  end.
End Race.

(** Every section of a future stays within [R]. *)
Fixpoint awithin {S A} (R : S → S → Prop) (p : Async S A) : Prop :=
  match p with
  | Return _ => True
  | Await _ m k => within R m ∧ ∀ r, awithin R (k r)
  end.

Lemma awithin_abind {S A B} R (p : Async S A) (f : A → Async S B) :
  awithin R p → (∀ a, awithin R (f a)) → awithin R (abind p f).
Proof. intros Hp Hf. induction p as [a|E X ready m k IH]; [apply Hf|]. destruct Hp as [Hm Hk]. split; auto. Qed.

Lemma awithin_fbind {S E A B} R (p : Fut S E A) (f : A → Fut S E B) :
  awithin R p → (∀ a, awithin R (f a)) → awithin R (fbind p f).
Proof. intros Hp Hf. apply awithin_abind; [done|]. by intros [a|e]. Qed.

(** Every value a future can end with satisfies [P]. *)
Fixpoint areturns {S A} (P : A → Prop) (p : Async S A) : Prop :=
  match p with
  | Return a => P a
  | Await _ _ k => ∀ r, areturns P (k r)
  end.

Lemma areturns_abind {S A B} (P : B → Prop) (p : Async S A) (f : A → Async S B) :
  (∀ a, areturns P (f a)) → areturns P (abind p f).
Proof. intros Hf. induction p as [a|E X ready m k IH]; simpl; auto. Qed.

Lemma areturns_fbind {S E A B} (P : result B E → Prop) (p : Fut S E A) (f : A → Fut S E B) :
  (∀ e, P (Err e)) → (∀ a, areturns P (f a)) → areturns P (fbind p f).
Proof. intros He Hf. apply areturns_abind. intros [a|e]; [apply Hf|apply He]. Qed.

Lemma awithin_mono {S A} (R R' : S → S → Prop) (p : Async S A) :
  (∀ s s', R s s' → R' s s') → awithin R p → awithin R' p.
Proof.
  intros HR. induction p as [a|E X ready m k IH]; simpl; [done|]. intros [Hm Hk]. split; [|auto].
  intros s n. eapply wp_mono; [apply Hm|auto].
Qed.

Lemma awithin_section {S E A} R (m : M S E A) : within R m → awithin R (section m).
Proof. by split. Qed.

(** ** Pools of tasks *)

(** The next section of a future, if it can run. *)
Definition resume {S A} (p : Async S A) (s : S) (n : nat) : option (Async S A * S * nat) :=
  match p with
  | Return _ => None
  | Await ready m k => if ready s then match m s n with (r, s', n') => Some (k r, s', n') end else None
  end.

Definition is_done {S A} (p : Async S A) : bool := match p with Return _ => true | _ => false end.

Record Pool (S A : Type) : Type := {
  pool_tasks : list (Async S A);
  pool_state : S
}.
Arguments pool_tasks {S A} _.
Arguments pool_state {S A} _.
Arguments Build_Pool {S A} _ _.

(** A task runs a section, from any position of the environment. *)
Inductive task_step {S A} (w : Pool S A) : Pool S A → Prop :=
| task_runs i p n p' s' n' :
    pool_tasks w !! i = Some p → resume p (pool_state w) n = Some (p', s', n') →
    task_step w (Build_Pool (<[i := p']> (pool_tasks w)) s').

(** Or a call comes in, or what is outside of the pool moves. *)
Inductive pool_step {S A} (entry : nat → Async S A → Prop) (outside : S → S → Prop)
    (w : Pool S A) : Pool S A → Prop :=
| pool_runs w' : task_step w w' → pool_step entry outside w w'
| pool_enters p :
    entry (length (pool_tasks w)) p →
    pool_step entry outside w (Build_Pool (pool_tasks w ++ [p]) (pool_state w))
| pool_outside s' :
    outside (pool_state w) s' → pool_step entry outside w (Build_Pool (pool_tasks w) s').

(** A schedule, played from a position of the environment: each entry names the task whose turn
    it is; [None] if that task cannot go on. *)
Fixpoint take_turns {S A} (turns : list nat) (ps : list (Async S A)) (s : S) (n : nat) :
    option (list (Async S A) * S) :=
  match turns with
  | [] => Some (ps, s)
  | i :: turns =>
      match ps !! i ≫= λ p, resume p s n with
      | Some (p', s', n') => take_turns turns (<[i := p']> ps) s' n'
      | None => None
      end
  end.

Lemma turns_steps {S A} entry outside turns : ∀ (ps : list (Async S A)) s n ps' s',
  take_turns turns ps s n = Some (ps', s') →
  rtc (pool_step entry outside) (Build_Pool ps s) (Build_Pool ps' s').
Proof.
  induction turns as [|i turns IH]; intros ps s n ps' s' Hplay; simplify_eq/=; [done|].
  destruct (ps !! i) as [p|] eqn:Hi; simpl in Hplay; [|done].
  destruct (resume p s n) as [[[p' s1] n1]|] eqn:Hr; [|done].
  eapply rtc_l; [|by eapply IH]. apply pool_runs. by eapply (task_runs (Build_Pool ps s)).
Qed.

(** *** Every future ends *)

Section Ending.
Context {S A : Type}.

Definition smaller (p' p : Async S A) : Prop :=
  match p with Return _ => False | Await _ _ k => ∃ r, p' = k r end.

Definition shrinks (ps' ps : list (Async S A)) : Prop :=
  ∃ i p p', ps !! i = Some p ∧ smaller p' p ∧ ps' = <[i := p']> ps.

Lemma resume_smaller p s n p' s' n' : resume p s n = Some (p', s', n') → smaller p' p.
Proof.
  destruct p as [a|E X ready m k]; simpl; [done|]. destruct (ready s); [|done].
  destruct (m s n) as [[r s1] n1]. intros [= <- _ _]. by exists r.
Qed.

Lemma shrinks_acc ps : Acc shrinks ps.
Proof.
  induction ps as [|p ps IH].
  { constructor. intros ps' (i & p & p' & Hi & _). done. }
  revert ps IH. induction p as [a|E X ready m k IHk]; intros ps IH.
  - induction IH as [ps _ IH]. constructor. intros ps' ([|i] & p & p' & Hi & Hp & ->); simplify_eq/=; [done|].
    apply IH. by exists i, p, p'.
  - induction IH as [ps Hacc IH]. constructor.
    intros ps' ([|i] & p & p' & Hi & Hp & ->); simplify_eq/=.
    + destruct Hp as [r ->]. apply IHk. by constructor.
    + apply IH. by exists i, p, p'.
Qed.

(** No schedule goes on for ever. *)
Lemma task_step_acc (w : Pool S A) : Acc (λ w2 w1, task_step w1 w2) w.
Proof.
  destruct w as [ps s]. revert s. induction (shrinks_acc ps) as [ps _ IH]. intros s.
  constructor. intros w' [i p n p' s' n' Hi Hr]. apply IH. exists i, p, p'.
  split_and!; [done|by eapply resume_smaller|done].
Qed.
End Ending.

(** ** Rely and guarantee *)

Section Logic.
Context {S : Type}.
(** What holds between any two sections; what task [i] does to the state in a section; what is
    outside; and the task that holds the lock, if any. *)
Variable inv : S → Prop.
Variable guar : nat → S → S → Prop.
Variable outside : S → S → Prop.
Variable holder : S → option nat.

Definition rely (i : nat) (s s' : S) : Prop :=
  inv s' ∧ (outside s s' ∨ ∃ j, j ≠ i ∧ guar j s s').

(** Task [i] at future [p] in state [s]: at every await point [D] holds, the task waits only for
    the lock, and its next section keeps the promise; it ends with [Q], not holding the lock. *)
Fixpoint rg (i : nat) (D : S → Prop) {A} (p : Async S A) (Q : A → S → Prop) (s : S) : Prop :=
  match p with
  | Return a => ∀ s1, rtc (rely i) s s1 → inv s1 → Q a s1
  | Await ready m k => ∀ s1, rtc (rely i) s s1 → inv s1 →
      D s1 ∧ (holder s1 = Some i ∨ holder s1 = None → ready s1 = true) ∧
      (ready s1 = true → ∀ n, wp m s1 n (λ r s2 _, guar i s1 s2 ∧ inv s2 ∧ rg i D (k r) Q s2))
  end.

Lemma rg_rely i D {A} (p : Async S A) Q s s' :
  rg i D p Q s → rtc (rely i) s s' → rg i D p Q s'.
Proof. destruct p; simpl; intros Hp Hs s1 Hs1; apply Hp; by etrans. Qed.

Lemma rg_mono i (D D' : S → Prop) {A} (p : Async S A) (Q Q' : A → S → Prop) s :
  rg i D p Q s → (∀ s, D s → D' s) → (∀ a s, inv s → Q a s → Q' a s) → rg i D' p Q' s.
Proof.
  revert s. induction p as [a|E X ready m k IH]; simpl; intros s Hp HD HQ s1 Hs1 Hi.
  - by apply HQ, Hp.
  - destruct (Hp s1 Hs1 Hi) as (H1 & H2 & H3). split_and!; [by apply HD|done|].
    intros Hready n. eapply wp_mono; [by apply H3|]. intros r s2 n2 (Hg & Hi2 & Hk).
    split_and!; [done|done|]. by apply IH.
Qed.

Lemma rg_bind i D {A B} (p : Async S A) (f : A → Async S B) Q s :
  rg i D p (λ a s, rg i D (f a) Q s) s → rg i D (abind p f) Q s.
Proof.
  revert s. induction p as [a|E X ready m k IH]; simpl; intros s Hp.
  - destruct (f a) as [b|E X ready m k] eqn:Ef; simpl; intros s1 Hs1 Hi;
      specialize (Hp s1 Hs1 Hi); [by apply (Hp s1)|by apply (Hp s1)].
  - intros s1 Hs1 Hi. destruct (Hp s1 Hs1 Hi) as (H1 & H2 & H3). split_and!; [done|done|].
    intros Hready n. eapply wp_mono; [by apply H3|]. intros r s2 n2 (Hg & Hi2 & Hk).
    split_and!; [done|done|]. by apply IH.
Qed.

Lemma rg_fbind i D {E A B} (p : Fut S E A) (f : A → Fut S E B) Q s :
  rg i D p (λ r s, match r with Ok a => rg i D (f a) Q s | Err e => rg i D (Return (Err e)) Q s end) s →
  rg i D (fbind p f) Q s.
Proof. intros Hp. apply rg_bind. eapply rg_mono; [done|done|]. by intros [a|e] s1 Hi Hs1. Qed.

Lemma rg_done i D {A} (a : A) (Q : A → S → Prop) s :
  (∀ s1, rtc (rely i) s s1 → inv s1 → Q a s1) → rg i D (Return a) Q s.
Proof. done. Qed.

Lemma rg_map_err i D {E F A} (h : E → F) (p : Fut S E A) Q s :
  rg i D p (λ r s, rg i D (Return (result_map_err h r)) Q s) s → rg i D (fmap_err h p) Q s.
Proof. apply rg_bind. Qed.

Lemma rg_outcome i D {E F A} (p : Fut S E A) (Q : result (result A E) F → S → Prop) s :
  rg i D p (λ r s, rg i D (Return (Ok r)) Q s) s → rg i D (outcome p) Q s.
Proof. apply rg_bind. Qed.

Lemma rg_await i D {A E X} ready (m : M S E X) (k : result X E → Async S A) Q s :
  (∀ s1, rtc (rely i) s s1 → inv s1 →
      D s1 ∧ (holder s1 = Some i ∨ holder s1 = None → ready s1 = true) ∧
      (ready s1 = true → ∀ n, wp m s1 n (λ r s2 _, guar i s1 s2 ∧ inv s2 ∧ rg i D (k r) Q s2))) →
  rg i D (Await ready m k) Q s.
Proof. done. Qed.

(** The signal may win at any await point; the destructors are a section as well. *)
Lemma rg_race `{Polling} i D D' signalled on_drop {A} (p : Async S A) (Q : option A → S → Prop) s :
  rg i D p (λ a s, Q (Some a) s) s →
  (∀ s1, inv s1 → D s1 → D' s1 ∧ (signalled s1 = true →
     guar i s1 (on_drop s1) ∧ inv (on_drop s1) ∧ rg i D' (Return None) Q (on_drop s1))) →
  rg i D' (race signalled on_drop p) Q s.
Proof.
  intros Hp HD. revert s Hp. induction p as [a|E X ready m k IH]; simpl; intros s Hp.
  - done.
  - intros s1 Hs1 Hi. destruct (Hp s1 Hs1 Hi) as (H1 & H2 & H3).
    destruct (HD s1 Hi H1) as [HD' Hdrop]. split_and!; [done|intros Hh; by rewrite H2|].
    intros Hready n. unfold wp, raced.
    destruct (signalled s1 && (cancel_first n || negb (ready s1))) eqn:Hc; simpl.
    { apply andb_true_iff in Hc as [Hsig _]. by apply Hdrop. }
    assert (ready s1 = true) as Hready'.
    { destruct (ready s1), (signalled s1), (cancel_first n); done. }
    specialize (H3 Hready' (Datatypes.S n)). unfold wp in H3.
    destruct (m s1 (Datatypes.S n)) as [[r s2] n2]. destruct H3 as (Hg & Hi2 & Hk).
    split_and!; [done|done|]. by apply IH.
Qed.

(** *** Triples

    From every state with [P], task [i] runs [p] and ends with [Q]. *)
Definition stable (i : nat) (P : S → Prop) : Prop := ∀ s s', inv s → P s → rely i s s' → P s'.

Definition triple (i : nat) (D P : S → Prop) {A} (p : Async S A) (Q : A → S → Prop) : Prop :=
  ∀ s, inv s → P s → rg i D p Q s.

Lemma stable_rtc i P s s' : stable i P → inv s → P s → rtc (rely i) s s' → P s'.
Proof.
  intros HP Hi Hs Hr. induction Hr as [|s s1 s2 Hr _ IH]; [done|]. apply IH; [apply Hr|by eapply HP].
Qed.

Lemma stable_and i P P' : stable i P → stable i P' → stable i (λ s, P s ∧ P' s).
Proof. intros H1 H2 s s' Hi [Hs Hs'] Hr. split; [by eapply H1|by eapply H2]. Qed.
Lemma stable_or i P P' : stable i P → stable i P' → stable i (λ s, P s ∨ P' s).
Proof. intros H1 H2 s s' Hi [Hs|Hs] Hr; [left; by eapply H1|right; by eapply H2]. Qed.
Lemma stable_pure i (φ : Prop) : stable i (λ _, φ).
Proof. by intros s s' _. Qed.
Lemma stable_impl i (φ : Prop) P : stable i P → stable i (λ s, φ → P s).
Proof. intros HP s s' Hi Hs Hr Hφ. eapply HP; eauto. Qed.
Lemma stable_case i {E A} (r : result A E) (P : A → S → Prop) (P' : E → S → Prop) :
  (∀ a, stable i (P a)) → (∀ e, stable i (P' e)) →
  stable i (λ s, match r with Ok a => P a s | Err e => P' e s end).
Proof. intros H1 H2. by destruct r. Qed.

Lemma triple_return i D P {A} (a : A) (Q : A → S → Prop) :
  stable i (Q a) → (∀ s, inv s → P s → Q a s) → triple i D P (Return a) Q.
Proof. intros HQ Ha s Hi Hs s1 Hs1 _. eapply (stable_rtc i (Q a) s); [done|done| |done]. by apply Ha. Qed.

Lemma triple_waiting i D P {E A} ready (m : M S E A) (Q : result A E → S → Prop) :
  stable i P → (∀ r, stable i (Q r)) → (∀ s, inv s → P s → D s) →
  (∀ s, inv s → P s → holder s = Some i ∨ holder s = None → ready s = true) →
  (∀ s n, inv s → P s → ready s = true → wp m s n (λ r s' _, guar i s s' ∧ inv s' ∧ Q r s')) →
  triple i D P (waiting ready m) Q.
Proof.
  intros HP HQ HD Hready Hm s Hi Hs s1 Hs1 Hi1.
  assert (P s1) as Hp1 by (by eapply (stable_rtc i P s)). split_and!; [by apply HD|by apply Hready|].
  intros Hr n. eapply wp_mono; [by apply Hm|]. intros r s2 n2 (Hg & Hi2 & Hq).
  split_and!; [done|done|]. intros s3 Hs3 _. by eapply (stable_rtc i (Q r) s2).
Qed.

Lemma triple_section i D P {E A} (m : M S E A) (Q : result A E → S → Prop) :
  stable i P → (∀ r, stable i (Q r)) → (∀ s, inv s → P s → D s) →
  (∀ s n, inv s → P s → wp m s n (λ r s' _, guar i s s' ∧ inv s' ∧ Q r s')) →
  triple i D P (section m) Q.
Proof. intros HP HQ HD Hm. apply triple_waiting; auto. Qed.

Lemma triple_bind i D P {A B} (p : Async S A) (f : A → Async S B) (R : A → S → Prop) Q :
  triple i D P p R → (∀ a, triple i D (R a) (f a) Q) → triple i D P (abind p f) Q.
Proof.
  intros Hp Hf s Hi Hs. apply rg_bind. eapply rg_mono; [by apply Hp|done|]. intros a s1 Hi1 Ha. by apply Hf.
Qed.

Lemma triple_fbind i D P {E A B} (p : Fut S E A) (f : A → Fut S E B) (R : result A E → S → Prop) Q :
  triple i D P p R → (∀ a, triple i D (R (Ok a)) (f a) Q) →
  (∀ e, stable i (Q (Err e)) ∧ ∀ s, inv s → R (Err e) s → Q (Err e) s) →
  triple i D P (fbind p f) Q.
Proof.
  intros Hp Hf He. eapply triple_bind; [exact Hp|]. intros [a|e]; [done|]. by apply triple_return; apply He.
Qed.

Lemma triple_mono i (D D' P P' : S → Prop) {A} (p : Async S A) (Q Q' : A → S → Prop) :
  triple i D P p Q → (∀ s, inv s → P' s → P s) → (∀ s, D s → D' s) → (∀ a s, inv s → Q a s → Q' a s) →
  triple i D' P' p Q'.
Proof. intros Hp HP HD HQ s Hi Hs. eapply rg_mono; [apply Hp; auto|done|done]. Qed.

(** One step of a sequence, whose precondition follows from what is known. *)
Lemma triple_step i D P P' {E A B} (p : Fut S E A) (f : A → Fut S E B) (R : result A E → S → Prop) Q :
  triple i D P' p R → (∀ s, inv s → P s → P' s) →
  (∀ e, stable i (Q (Err e)) ∧ ∀ s, inv s → R (Err e) s → Q (Err e) s) →
  (∀ a, triple i D (R (Ok a)) (f a) Q) → triple i D P (fbind p f) Q.
Proof.
  intros Hp HP He Hf. eapply triple_fbind; [|exact Hf|exact He]. by eapply triple_mono.
Qed.

Lemma triple_map_err i D P {E F A} (h : E → F) (p : Fut S E A) Q :
  triple i D P p (λ r, Q (result_map_err h r)) → (∀ r, stable i (Q r)) →
  triple i D P (fmap_err h p) Q.
Proof. intros Hp HQ. eapply triple_bind; [exact Hp|]. intros r. by apply triple_return. Qed.

Lemma triple_outcome i D P {E F A} (p : Fut S E A) (Q : result (result A E) F → S → Prop) :
  triple i D P p (λ r, Q (Ok r)) → (∀ r, stable i (Q r)) → triple i D P (outcome p) Q.
Proof. intros Hp HQ. eapply triple_bind; [exact Hp|]. intros r. by apply triple_return. Qed.

Lemma triple_race `{Polling} i D D' P signalled on_drop {A} (p : Async S A) (Q : option A → S → Prop) :
  triple i D P p (λ a, Q (Some a)) → stable i (Q None) →
  (∀ s, inv s → D s → D' s ∧ (signalled s = true →
     guar i s (on_drop s) ∧ inv (on_drop s) ∧ Q None (on_drop s))) →
  triple i D' P (race signalled on_drop p) Q.
Proof.
  intros Hp HQ HD s Hi Hs. eapply rg_race; [by apply Hp|]. intros s1 Hi1 HD1.
  destruct (HD s1 Hi1 HD1) as [HD' Hdrop]. split; [done|]. intros Hsig.
  destruct (Hdrop Hsig) as (Hg & Hi2 & Hq). split_and!; [done|done|].
  intros s2 Hs2 _. by eapply (stable_rtc i (Q None) (on_drop s1)).
Qed.

(** *** Composition *)

Section Pool.
Context {A : Type}.
Variable Q : nat → A → S → Prop.

Definition pool_ok (w : Pool S A) : Prop :=
  inv (pool_state w) ∧
  (∀ i p, pool_tasks w !! i = Some p → rg i (λ _, True) p (Q i) (pool_state w)) ∧
  (∀ i, holder (pool_state w) = Some i → ∃ p, pool_tasks w !! i = Some p ∧ is_done p = false).

(** The lock passes only through the hands of the task that runs, which has returned it when it
    ends. *)
Hypothesis guar_holder : ∀ i s s', guar i s s' →
  holder s' = holder s ∨ holder s' = None ∨ holder s' = Some i.
Hypothesis outside_holder : ∀ s s', outside s s' → holder s' = holder s.
Hypothesis outside_inv : ∀ s s', inv s → outside s s' → inv s'.
Hypothesis Q_returned : ∀ i a s, Q i a s → holder s ≠ Some i.

Lemma resume_ok i p s n p' s' n' :
  rg i (λ _, True) p (Q i) s → inv s → resume p s n = Some (p', s', n') →
  guar i s s' ∧ inv s' ∧ rg i (λ _, True) p' (Q i) s'.
Proof.
  destruct p as [a|E X ready m k]; simpl; [done|]. intros Hp Hi.
  destruct (ready s) eqn:Hready; [|done]. destruct (Hp s) as (_ & _ & H3); [done|done|].
  specialize (H3 Hready n). unfold wp in H3. destruct (m s n) as [[r s1] n1].
  by intros [= <- <- <-].
Qed.

Lemma rg_is_done i p s : rg i (λ _, True) p (Q i) s → inv s → is_done p = true → holder s ≠ Some i.
Proof. destruct p; simpl; [|done]. intros Hp Hi _. by eapply Q_returned, (Hp s). Qed.

Lemma task_step_ok w w' : pool_ok w → task_step w w' → pool_ok w'.
Proof.
  destruct w as [ps s]. intros (Hi & Hps & Hh) [i p n p' s' n' Hp Hr]; simpl in *.
  destruct (resume_ok i p s n p' s' n') as (Hg & Hi' & Hp'); [by apply Hps|done|done|].
  pose proof (lookup_lt_Some _ _ _ Hp) as Hlt. split_and!; simpl; [done| |].
  - intros j q Hj. destruct (decide (j = i)) as [->|Hne].
    { rewrite list_lookup_insert_eq in Hj by done. by simplify_eq. }
    rewrite list_lookup_insert_ne in Hj by done.
    eapply rg_rely; [by apply Hps|]. apply rtc_once. split; [done|]. right. by exists i.
  - assert (holder s' = Some i → is_done p' = false) as Hmine.
    { intros Hs'. destruct (is_done p') eqn:Hd; [|done]. by edestruct (rg_is_done i p' s'). }
    intros j Hj. destruct (decide (j = i)) as [->|Hne].
    { rewrite list_lookup_insert_eq by done. eauto. }
    rewrite list_lookup_insert_ne by done. apply Hh.
    destruct (guar_holder i s s' Hg) as [E|[E|E]]; congruence.
Qed.

Lemma pool_safe entry' w w' :
  (∀ i p s, entry' i p → inv s → holder s ≠ Some i → rg i (λ _, True) p (Q i) s) →
  pool_ok w → rtc (pool_step entry' outside) w w' → pool_ok w'.
Proof.
  intros Hentry Hw. induction 1 as [w|w w1 w2 Hstep _ IH]; [done|]. apply IH. clear IH w2.
  destruct Hstep as [w1 Hstep|p Hp|s' Hs']; [by eapply task_step_ok| |].
  all: destruct w as [ps s], Hw as (Hi & Hps & Hh); simpl in *; split_and!; simpl.
  - done.
  - intros j q [Hj|[Hj Hq]]%lookup_app_Some; [by apply Hps|].
    apply list_lookup_singleton_Some in Hq as [Hj0 <-].
    assert (j = length ps) as -> by lia. apply Hentry; [done|done|].
    intros E. apply Hh in E as (q & Hq & _). apply lookup_lt_Some in Hq. lia.
  - intros j Hj. destruct (Hh j Hj) as (q & Hq & Hd). exists q. split; [|done].
    by apply lookup_app_l_Some.
  - by eapply outside_inv.
  - intros j q Hj. eapply rg_rely; [by apply Hps|]. apply rtc_once. split; [by eapply outside_inv|by left].
  - intros j Hj. apply Hh. by rewrite <-(outside_holder s s').
Qed.

(** While a call has not returned, some task can go on. *)
Lemma pool_progress w i p :
  pool_ok w → pool_tasks w !! i = Some p → is_done p = false → ∃ w', task_step w w'.
Proof.
  destruct w as [ps s]. intros (Hi & Hps & Hh) Hp Hd; simpl in *.
  assert (∃ j q, ps !! j = Some q ∧ is_done q = false ∧ (holder s = Some j ∨ holder s = None))
    as (j & q & Hq & Hdq & Hcan).
  { destruct (holder s) as [j|] eqn:Ej; [|by exists i, p; auto].
    destruct (Hh j eq_refl) as (q & Hq & Hdq). exists j, q. auto. }
  destruct q as [a|E X ready m k]; [done|]. destruct (Hps j _ Hq s) as (_ & Hready & _); [done|done|].
  destruct (m s 0%nat) as [[r s'] n'] eqn:Em.
  eexists. eapply (task_runs (Build_Pool ps s) j _ 0%nat); [exact Hq|].
  simpl. rewrite Hready by done. by rewrite Em.
Qed.
End Pool.
End Logic.
