(* ===== verification/ControlPlane.v ===== *)
(** * [control_plane.rs]: identity cool-down and redaction

    [Cooldown] models [IdentityCooldown]: per-identity quiet periods after a
    decline or after [strike_limit] malformed messages. [Redaction] models the
    scrubbing of event payloads ([redact_json]) and of free text ([redact_text]),
    byte by byte on the UTF-8 text. *)

From S2P Require Import Prelude Sql.

(** ** Identity cool-down *)

Module Cooldown.

Record CooldownInner : Type := {
  until : gmap string Z;
  strikes : gmap string Z
}.

Definition CooldownInner_default : CooldownInner := {| until := ∅; strikes := ∅ |}.

(** The immutable configuration of an [IdentityCooldown]. *)
Record Config : Type := {
  cooldown_ms : Z;
  strike_limit : Z
}.

Definition new (cooldown_ms strike_limit : Z) : Config :=
  {| cooldown_ms := as_i64 cooldown_ms; strike_limit := as_u32 strike_limit |}.

Section Operations.
Context `{Env} (cfg : Config).

Definition is_cooling {E} (identity : string) : M CooldownInner E bool :=
  now ← now_ms;
  modify (λ s, {| until := filter (λ kv, now < kv.2) (until s); strikes := strikes s |});;
  s ← get;
  ret (bool_decide (is_Some (until s !! identity))).

Definition record_decline {E} (identity : string) : M CooldownInner E unit :=
  now ← now_ms;
  modify (λ s, {| until := <[identity := now + cooldown_ms cfg]> (until s);
                  strikes := delete identity (strikes s) |}).

Definition record_malformed {E} (identity : string) : M CooldownInner E bool :=
  cooling ← is_cooling identity;
  if cooling : bool then ret true
  else
    s ← get;
    let count := u32_saturating_add (default 0 (strikes s !! identity)) 1 in
    modify (λ s, {| until := until s; strikes := <[identity := count]> (strikes s) |});;
    if strike_limit cfg <=? count then
      now ← now_ms;
      modify (λ s, {| until := <[identity := now + cooldown_ms cfg]> (until s);
                      strikes := delete identity (strikes s) |});;
      ret true
    else ret false.

Definition clear_strikes {E} (identity : string) : M CooldownInner E unit :=
  modify (λ s, {| until := until s; strikes := delete identity (strikes s) |}).
End Operations.

(** [k] malformed messages in a row; the answers, in order. *)
Fixpoint malformed_burst `{Env} {E} (cfg : Config) (identity : string) (k : nat) :
    M CooldownInner E (list bool) :=
  match k with
  | O => ret []
  | Datatypes.S k' =>
      b ← record_malformed cfg identity;
      bs ← malformed_burst cfg identity k';
      ret (b :: bs)
  end.

(** An identity that is being throttled at time [now]. *)
Definition throttled (s : CooldownInner) (identity : string) (now : Z) : Prop :=
  ∃ t, until s !! identity = Some t ∧ now < t.

Section Facts.
Context `{Env} (cfg : Config).

Lemma lookup_retain (m : gmap string Z) now i t :
  filter (λ kv, now < kv.2) m !! i = Some t ↔ m !! i = Some t ∧ now < t.
Proof. apply map_lookup_filter_Some. Qed.

Lemma is_cooling_spec {E} identity s n :
  wp (E:=E) (is_cooling identity) s n (λ r s' n',
    n' = Datatypes.S n ∧ strikes s' = strikes s ∧
    (∀ i t, until s' !! i = Some t ↔ until s !! i = Some t ∧ clock n < t) ∧
    ∃ b, r = Ok b ∧ (b = true ↔ throttled s identity (clock n))).
Proof.
  unfold is_cooling. wp_steps. split; [done|]. split; [done|]. split.
  { intros i t. apply lookup_retain. }
  eexists. split; [done|]. rewrite bool_decide_eq_true. unfold throttled.
  split.
  - intros [t Ht]. apply lookup_retain in Ht. eauto.
  - intros (t & Ht). exists t. by apply lookup_retain.
Qed.

(** One malformed message from an identity that is not cooling. *)
Lemma record_malformed_spec {E} identity s n :
  until s !! identity = None →
  let count := u32_saturating_add (default 0 (strikes s !! identity)) 1 in
  wp (E:=E) (record_malformed cfg identity) s n (λ r s' n',
    if strike_limit cfg <=? count then
      r = Ok true ∧ n' = Datatypes.S (Datatypes.S n) ∧
      until s' !! identity = Some (clock (Datatypes.S n) + cooldown_ms cfg) ∧
      strikes s' !! identity = None
    else
      r = Ok false ∧ n' = Datatypes.S n ∧ until s' !! identity = None ∧
      strikes s' !! identity = Some count).
Proof.
  intros Hnone count. unfold record_malformed. apply wp_bind.
  eapply wp_mono; [apply is_cooling_spec|]. intros r s1 n1 (-> & Hst & Hun & b & -> & Hb).
  assert (b = false) as ->.
  { destruct b; [|done]. destruct (proj1 Hb eq_refl) as (t & Ht & _). congruence. }
  assert (until s1 !! identity = None) as Hnone1.
  { destruct (until s1 !! identity) as [t|] eqn:E1; [|done].
    apply Hun in E1 as [E1 _]. congruence. }
  wp_steps. rewrite Hst. fold count.
  destruct (strike_limit cfg <=? count) eqn:Hlim; wp_steps.
  - rewrite lookup_insert_eq, lookup_delete_eq. done.
  - rewrite lookup_insert_eq. done.
Qed.
End Facts.

End Cooldown.

(** ** Redaction *)

Module Redaction.

Definition REDACTED : string := "[redacted]".

Definition sensitive_keys : list string :=
  [ "endpoint_id"; "peer_endpoint_id"; "sender_endpoint_id"; "receiver_endpoint_id";
    "from_endpoint_id"; "remote_endpoint_id"; "local_endpoint_id"; "ticket"; "blob_ticket";
    "authorization"; "capability"; "secret"; "grant"; "grant_id"; "proof"; "mac"; "filename";
    "file_name"; "path"; "display_name"; "transfer_name"; "sender_display_name";
    "remote_display_name"; "address"; "addrs"; "relay_url"; "relay_urls" ].

Definition is_sensitive_key (key : string) : bool := str_in key sensitive_keys.

(** [serde_json::Value]; a number is kept as its literal, an object as its
    entries in iteration order. *)
#[warnings="-register-all"]
Inductive Value : Type :=
| VNull
| VBool (b : bool)
| VNumber (literal : string)
| VString (s : string)
| VArray (items : list Value)
| VObject (entries : list (string * Value)).

Section Json.
(** [HEXLOWER.encode(blake3::hash(bytes))] of the crates [blake3] and
    [data_encoding]. *)
Context (blake3_hex : string → string).

Definition fingerprint (value : string) : string :=
  "<redacted:" +:+ String.substring 0 8 (blake3_hex value) +:+ ">".

Definition redact_value (value : Value) : Value :=
  match value with
  | VString raw => if str_is_empty raw then VString REDACTED else VString (fingerprint raw)
  | VNull => VNull
  | _ => VString REDACTED
  end.

Fixpoint redact_json (value : Value) : Value :=
  match value with
  | VObject entries =>
      VObject (map (λ kv, let '(key, v) := kv in
                 if is_sensitive_key key then (key, redact_value v)
                 else (key, redact_json v)) entries)
  | VArray items => VArray (map redact_json items)
  | other => other
  end.

(** What may stand under a sensitive key of a published payload. *)
Definition opaque (v : Value) : Prop :=
  v = VNull ∨ v = VString REDACTED ∨ ∃ raw, v = VString (fingerprint raw).

(** No sensitive key, at any depth, holds a value that is not [opaque]. *)
Fixpoint scrubbed (v : Value) : Prop :=
  match v with
  | VArray items => fold_right (λ x acc, scrubbed x ∧ acc) True items
  | VObject entries =>
      fold_right (λ kv acc, (if is_sensitive_key kv.1 then opaque kv.2 else scrubbed kv.2) ∧ acc)
        True entries
  | _ => True
  end.
End Json.

(** [str::find(pattern)], as the text before the first match and after it. *)
Fixpoint find_split (p s : string) : option (string * string) :=
  match strip_prefix p s with
  | Some rest => Some (EmptyString, rest)
  | None =>
      match s with
      | EmptyString => None
      | String a s' =>
          match find_split p s' with
          | Some (before, rest) => Some (String a before, rest)
          | None => None
          end
      end
  end.

(** Skip to the first whitespace, double quote (34) or single quote (39). *)
Fixpoint skip_token (s : string) : string :=
  match s with
  | EmptyString => EmptyString
  | String a s' =>
      if negb (Nat.eqb (ws_len s) 0) || Ascii.eqb a (Ascii.ascii_of_nat 34)
         || Ascii.eqb a (Ascii.ascii_of_nat 39)
      then s else skip_token s'
  end.

(** The loop of [redact_text]; every round consumes a match, so the length of the
    text is enough fuel ([redact_tickets_enough]). *)
Fixpoint redact_tickets (fuel : nat) (rest : string) : string :=
  match fuel with
  | O => rest
  | Datatypes.S fuel' =>
      match find_split "vnd1:" rest with
      | Some (before, after) => before +:+ REDACTED +:+ redact_tickets fuel' (skip_token after)
      | None => rest
      end
  end.

Definition byte_val (a : Ascii.ascii) : Z := Z.of_N (Ascii.N_of_ascii a).
Definition byte_of (z : Z) : Ascii.ascii := Ascii.ascii_of_N (Z.to_N z).

(** [u8::is_ascii_hexdigit]. *)
Definition is_ascii_hexdigit (a : Ascii.ascii) : bool :=
  let b := byte_val a in
  ((48 <=? b) && (b <=? 57)) || ((65 <=? b) && (b <=? 70)) || ((97 <=? b) && (b <=? 102)).

(** [out.push(byte as char)]: the code point equal to the byte, in UTF-8. *)
Definition push_char (a : Ascii.ascii) : string :=
  let b := byte_val a in
  if b <? 128 then String a EmptyString
  else String (byte_of (192 + b / 64)) (String (byte_of (128 + b mod 64)) EmptyString).

(** The maximal run of hexadecimal digits at the head, and the rest. *)
Fixpoint span_hex (s : string) : string * string :=
  match s with
  | EmptyString => (EmptyString, EmptyString)
  | String a s' =>
      if is_ascii_hexdigit a then let '(r, rest) := span_hex s' in (String a r, rest)
      else (EmptyString, s)
  end.

Fixpoint collapse_loop (fuel : nat) (s : string) : string :=
  match fuel, s with
  | Datatypes.S fuel', String a s' =>
      if is_ascii_hexdigit a then
        let '(r, rest) := span_hex s in
        (if 32 <=? str_len r then REDACTED else r) +:+ collapse_loop fuel' rest
      else push_char a +:+ collapse_loop fuel' s'
  | _, _ => EmptyString
  end.

Definition collapse_long_hex (input : string) : string :=
  collapse_loop (String.length input) input.

Definition redact_text (input : string) : string :=
  collapse_long_hex (redact_tickets (String.length input) input).

(** Length of the longest run of hexadecimal digits. *)
Fixpoint max_hex_run (s : string) : Z :=
  match s with
  | EmptyString => 0
  | String _ s' => Z.max (str_len (span_hex s).1) (max_hex_run s')
  end.

Definition is_ascii (s : string) : bool :=
  forallb (λ a, byte_val a <? 128) (String.list_ascii_of_string s).

End Redaction.

(** ** Facts about the cool-down *)

Module CooldownFacts.
Import Cooldown.
Section Facts.
Context `{Env} (cfg : Config).

(** The [j]-th message of a burst that stays below the limit is answered [false];
    the message that reaches the limit trips the cool-down. *)
Lemma malformed_burst_spec {E} identity (c : Z) (k : nat) s n :
  until s !! identity = None →
  default 0 (strikes s !! identity) = c → 0 ≤ c →
  strike_limit cfg = c + Z.of_nat (Datatypes.S k) →
  strike_limit cfg ≤ U32_MAX →
  wp (E:=E) (malformed_burst cfg identity (Datatypes.S k)) s n (λ r s' _,
    r = Ok (replicate k false ++ [true]) ∧
    (∃ now, until s' !! identity = Some (now + cooldown_ms cfg)) ∧
    strikes s' !! identity = None).
Proof.
  revert c s n. induction k as [|k IH]; intros c s n Hun Hst Hc Hlim Hmax.
  - cbn [malformed_burst]. apply wp_bind. eapply wp_mono.
    { by apply (record_malformed_spec cfg identity s n). }
    intros r s' n'. cbn beta zeta. rewrite Hst.
    unfold u32_saturating_add. rewrite Z.min_l by lia.
    destruct (strike_limit cfg <=? c + 1) eqn:E1; [|apply Z.leb_gt in E1; lia].
    intros (-> & -> & Hu & Hs). wp_steps. eauto.
  - remember (Datatypes.S k) as k1 eqn:Hk1. cbn [malformed_burst]. apply wp_bind.
    eapply wp_mono.
    { by apply (record_malformed_spec cfg identity s n). }
    intros r s' n'. cbn beta zeta. rewrite Hst.
    unfold u32_saturating_add. rewrite Z.min_l by lia.
    destruct (strike_limit cfg <=? c + 1) eqn:E1; [apply Z.leb_le in E1; lia|].
    intros (-> & -> & Hu & Hs). apply wp_bind. subst k1.
    eapply wp_mono.
    { apply (IH (c + 1)); try done; [by rewrite Hs | lia | lia]. }
    intros r s2 n2 (-> & Hrest). wp_steps. done.
Qed.

(** Messages about one identity never change how another one is treated. *)
Definition frame (identity : string) (t0 : Z) (s s' : CooldownInner) : Prop :=
  ∀ other, other ≠ identity →
    strikes s' !! other = strikes s !! other ∧
    ∀ t, t0 ≤ t → (throttled s' other t ↔ throttled s other t).

#[global] Instance frame_preorder identity t0 : PreOrder (frame identity t0).
Proof.
  split.
  - intros s other _. split; [done|]. done.
  - intros s1 s2 s3 H12 H23 other Hne.
    destruct (H12 other Hne) as [E1 T1], (H23 other Hne) as [E2 T2].
    split; [congruence|]. intros t Ht. by rewrite (T2 t Ht), (T1 t Ht).
Qed.

Lemma is_cooling_frame {E} identity t0 s n :
  clock n ≤ t0 →
  wp (E:=E) (is_cooling identity) s n (λ _ s' n', frame identity t0 s s' ∧ n' = Datatypes.S n).
Proof.
  intros Hn. eapply wp_mono; [apply is_cooling_spec|].
  intros r s' n' (-> & Hst & Hun & _). split; [|done].
  intros other _. split; [by rewrite Hst|]. intros t Ht. unfold throttled.
  split.
  - intros (u & Hu & Hlt). apply Hun in Hu as [Hu _]. eauto.
  - intros (u & Hu & Hlt). exists u. split; [|done]. apply Hun. split; [done | lia].
Qed.

Lemma frame_insert identity t0 v s :
  frame identity t0 s
    {| until := <[identity := v]> (until s); strikes := delete identity (strikes s) |}.
Proof.
  intros other Hne. unfold throttled; simpl. rewrite lookup_delete_ne by done.
  split; [done|]. intros t _. by rewrite lookup_insert_ne by done.
Qed.
End Facts.
End CooldownFacts.

(** ** Facts about redaction *)

Module RedactionFacts.
Import Redaction.

Section Json.
Context (blake3_hex : string → string).

Lemma redact_value_opaque v : opaque blake3_hex (redact_value blake3_hex v).
Proof.
  unfold opaque. destruct v as [| | |s| |]; simpl; auto.
  destruct (str_is_empty s); eauto.
Qed.

(** Induction on JSON values that reaches inside arrays and objects. *)
Fixpoint Value_nested_ind (P : Value → Prop)
    (Hn : P VNull) (Hb : ∀ b, P (VBool b)) (Hnum : ∀ l, P (VNumber l))
    (Hs : ∀ s, P (VString s)) (Ha : ∀ l, Forall P l → P (VArray l))
    (Ho : ∀ l, Forall (λ kv, P kv.2) l → P (VObject l)) (v : Value) : P v :=
  match v with
  | VNull => Hn
  | VBool b => Hb b
  | VNumber l => Hnum l
  | VString s => Hs s
  | VArray l =>
      Ha l ((fix go (l : list Value) : Forall P l :=
        match l with
        | [] => Forall_nil_2 _
        | x :: l' => Forall_cons_2 _ x l'
            (Value_nested_ind P Hn Hb Hnum Hs Ha Ho x) (go l')
        end) l)
  | VObject l =>
      Ho l ((fix go (l : list (string * Value)) : Forall (λ kv, P kv.2) l :=
        match l with
        | [] => Forall_nil_2 _
        | x :: l' => Forall_cons_2 (λ kv, P kv.2) x l'
            (Value_nested_ind P Hn Hb Hnum Hs Ha Ho x.2) (go l')
        end) l)
  end.

Lemma redact_json_keys l :
  (λ v, match v with VObject e => map fst e | _ => [] end)
    (redact_json blake3_hex (VObject l)) = map fst l.
Proof.
  simpl. rewrite map_map. apply map_ext. intros [k v]. simpl.
  by destruct (is_sensitive_key k).
Qed.
End Json.

(** *** Splitting at the first occurrence *)

Lemma find_split_Some p s before rest :
  find_split p s = Some (before, rest) → s = before +:+ (p +:+ rest).
Proof.
  revert before. induction s as [|a s IH]; intros before; simpl.
  - destruct (strip_prefix p EmptyString) as [r|] eqn:E; [|done].
    intros [= <- <-]. by apply strip_prefix_Some in E.
  - destruct (strip_prefix p (String a s)) as [r|] eqn:E.
    + intros [= <- <-]. by apply strip_prefix_Some in E.
    + destruct (find_split p s) as [[b r]|] eqn:Ef; [|done].
      intros [= <- <-]. rewrite str_app_cons. f_equal. by apply IH.
Qed.

Lemma find_split_None p s : find_split p s = None ↔ str_contains p s = false.
Proof.
  induction s as [|a s IH]; simpl; unfold starts_with.
  - by destruct (strip_prefix p EmptyString).
  - destruct (strip_prefix p (String a s)) eqn:E; simpl; [done|].
    rewrite <- IH. destruct (find_split p s) as [[b r]|]; by split.
Qed.

Lemma skip_token_length s : (String.length (skip_token s) ≤ String.length s)%nat.
Proof. induction s as [|a s IH]; simpl; [lia|]. destruct (_ || _); simpl; lia. Qed.

(** The length of the text is enough fuel: more changes nothing. *)
Lemma redact_tickets_enough fuel s :
  (String.length s ≤ fuel)%nat → redact_tickets fuel s = redact_tickets (String.length s) s.
Proof.
  enough (∀ k fuel s, (String.length s ≤ k)%nat → (String.length s ≤ fuel)%nat →
    redact_tickets fuel s = redact_tickets k s) as Hk by (intros; by apply Hk).
  clear. intros k. induction k as [|k IH]; intros [|fuel] s Hk Hf; simpl; try done.
  - by destruct s; simpl in *; [|lia].
  - by destruct s; simpl in *; [|lia].
  - destruct (find_split "vnd1:" s) as [[before after]|] eqn:Ef; [|done]. do 2 f_equal.
    apply find_split_Some in Ef as ->. rewrite !str_length_app in Hk, Hf. simpl in Hk, Hf.
    pose proof (skip_token_length after). apply IH; lia.
Qed.

(** Characters that no occurrence of a pattern may use. *)
Definition avoids (c : Ascii.ascii) (p : string) : Prop :=
  c ∉ String.list_ascii_of_string p.

Lemma starts_with_app_sep c p b x :
  avoids c p → starts_with p (b +:+ String c x) = true → starts_with p b = true.
Proof.
  unfold starts_with, avoids. revert p. induction b as [|a b IH]; intros [|d p] Hc; try done.
  - simpl. destruct (Ascii.eqb_spec d c) as [->|]; [|done].
    exfalso. apply Hc. simpl. left.
  - rewrite str_app_cons. simpl. destruct (Ascii.eqb d a); [|done].
    apply IH. intros Hin. apply Hc. simpl. by right.
Qed.

Lemma contains_app_sep c p b x :
  avoids c p → str_contains p (b +:+ String c x) = true → p ≠ EmptyString →
  str_contains p b = true ∨ str_contains p x = true.
Proof.
  intros Hc HX Hp. induction b as [|a b IH].
  - right. simpl in HX. apply orb_prop in HX as [HX|HX]; [|done]. exfalso.
    apply (starts_with_app_sep c p EmptyString x Hc) in HX.
    unfold starts_with in HX. by destruct p.
  - rewrite str_app_cons in HX. simpl in HX. apply orb_prop in HX as [HX|HX].
    + left. simpl. apply orb_true_iff. left.
      by apply (starts_with_app_sep c p (String a b) x).
    + destruct (IH HX) as [Hb|Hx]; [|by right].
      left. simpl. apply orb_true_iff. by right.
Qed.

Lemma contains_skip_head p c x d p' :
  p = String d p' → c ≠ d →
  str_contains p (String c x) = true → str_contains p x = true.
Proof.
  intros -> Hcd. simpl. unfold starts_with. simpl.
  destruct (Ascii.eqb_spec d c) as [->|]; [done|]. by simpl.
Qed.

(** The text of [REDACTED] never starts or contains part of a ticket. *)
Lemma contains_redacted b x :
  str_contains "vnd1:" (b +:+ (REDACTED +:+ x)) = true →
  str_contains "vnd1:" b = true ∨ str_contains "vnd1:" x = true.
Proof.
  intros HX.
  change (REDACTED +:+ x) with (String "["%char ("redacted]" +:+ x)) in HX.
  apply contains_app_sep in HX as [Hb|HX]; [by left| | |done].
  - right. unfold "+:+" in HX.
    change ("redacted]" +:+ x) with
      (String "r"%char (String "e"%char (String "d"%char (String "a"%char (String "c"%char
        (String "t"%char (String "e"%char (String "d"%char (String "]"%char x))))))))) in HX.
    do 9 (apply (contains_skip_head "vnd1:" _ _ "v"%char "nd1:") in HX; [|done|done]).
    done.
  - unfold avoids. simpl. intros Hin.
    repeat (apply elem_of_cons in Hin as [Hin|Hin]; [done|]). by apply elem_of_nil in Hin.
Qed.

Lemma find_split_before p s before rest :
  find_split p s = Some (before, rest) → p ≠ EmptyString →
  ∀ c, avoids c p → str_contains p before = true → False.
Proof.
  revert before. induction s as [|a s IH]; intros before; simpl.
  - destruct (strip_prefix p EmptyString) eqn:E; [|done].
    intros [= <- <-] Hp c _. by destruct p.
  - destruct (strip_prefix p (String a s)) eqn:E.
    + intros [= <- <-] Hp c _. by destruct p.
    + destruct (find_split p s) as [[b r]|] eqn:Ef; [|done].
      intros [= <- <-] Hp c Hc Hin. simpl in Hin. apply orb_prop in Hin as [Hin|Hin].
      * apply find_split_Some in Ef as ->. unfold starts_with in Hin.
        destruct (strip_prefix p (String a b)) as [t|] eqn:Et; [|done].
        apply strip_prefix_Some in Et. rewrite <- str_app_cons, Et, str_app_assoc in E.
        by rewrite strip_prefix_app in E.
      * by eapply IH.
Qed.

Lemma redact_tickets_clean fuel s :
  (String.length s ≤ fuel)%nat → str_contains "vnd1:" (redact_tickets fuel s) = false.
Proof.
  revert s. induction fuel as [|fuel IH]; intros s Hlen; simpl.
  - by destruct s; simpl in *; [|lia].
  - destruct (find_split "vnd1:" s) as [[before after]|] eqn:Ef.
    + destruct (str_contains _ _) eqn:Hc; [|done]. exfalso.
      apply contains_redacted in Hc as [Hc|Hc].
      * refine (find_split_before "vnd1:" s before after Ef _ "["%char _ Hc); [done|].
        unfold avoids. simpl. intros Hin.
        repeat (apply elem_of_cons in Hin as [Hin|Hin]; [done|]).
        by apply elem_of_nil in Hin.
      * rewrite IH in Hc; [done|]. apply find_split_Some in Ef as ->.
        rewrite !str_length_app in Hlen. pose proof (skip_token_length after).
        simpl in Hlen. lia.
    + by apply find_split_None.
Qed.

(** *** Collapsing long hexadecimal runs *)

Definition all_chars (Q : Ascii.ascii → Prop) (s : string) : Prop :=
  Forall Q (String.list_ascii_of_string s).

(** Bytes that the collapse can only copy, never produce. *)
Definition plain (a : Ascii.ascii) : Prop := byte_val a < 128 ∧ a ≠ "["%char.

Lemma byte_val_range a : 0 ≤ byte_val a < 256.
Proof. unfold byte_val. pose proof (Ascii.N_ascii_bounded a). lia. Qed.

Lemma byte_val_of z : 0 ≤ z < 256 → byte_val (byte_of z) = z.
Proof.
  intros Hz. unfold byte_val, byte_of. rewrite Ascii.N_ascii_embedding by lia.
  rewrite Z2N.id; lia.
Qed.

Lemma byte_of_val a : byte_of (byte_val a) = a.
Proof. unfold byte_val, byte_of. by rewrite N2Z.id, Ascii.ascii_N_embedding. Qed.

Lemma hexdigit_ascii a : is_ascii_hexdigit a = true → byte_val a < 128.
Proof. unfold is_ascii_hexdigit. intros. bool_simpl; lia. Qed.

(** What one non-hexadecimal byte becomes. *)
Lemma push_char_cases a :
  (byte_val a < 128 ∧ push_char a = String a EmptyString) ∨
  (128 ≤ byte_val a ∧ ∃ x y, push_char a = String x (String y EmptyString) ∧
     128 ≤ byte_val x ∧ 128 ≤ byte_val y).
Proof.
  unfold push_char. pose proof (byte_val_range a) as Ha.
  destruct (byte_val a <? 128) eqn:E; bool_simpl; [by left|]. right. split; [done|].
  pose proof (Z.div_le_mono 128 (byte_val a) 64 ltac:(lia) ltac:(lia)).
  pose proof (Z.div_le_mono (byte_val a) 255 64 ltac:(lia) ltac:(lia)).
  pose proof (Z.mod_pos_bound (byte_val a) 64 ltac:(lia)).
  change (128 / 64) with 2 in *. change (255 / 64) with 3 in *.
  eexists _, _. split; [done|].
  split; rewrite byte_val_of; lia.
Qed.

Lemma span_hex_spec s r rest :
  span_hex s = (r, rest) →
  s = r +:+ rest ∧ all_chars (λ a, is_ascii_hexdigit a = true) r ∧
  (span_hex rest).1 = EmptyString ∧ (String.length rest ≤ String.length s)%nat.
Proof.
  revert r rest. induction s as [|a s IH]; intros r rest; simpl.
  - intros [= <- <-]. repeat split; [by constructor | simpl; lia].
  - destruct (is_ascii_hexdigit a) eqn:Ha.
    + destruct (span_hex s) as [r' rest'] eqn:Es. intros [= <- <-].
      destruct (IH _ _ eq_refl) as (-> & Hall & Hrest & Hlen).
      repeat split; [by constructor | done | simpl; lia].
    + intros [= <- <-]. repeat split; [by constructor | simpl; by rewrite Ha | simpl; lia].
Qed.

Lemma collapse_loop_enough fuel s :
  (String.length s ≤ fuel)%nat → collapse_loop fuel s = collapse_loop (String.length s) s.
Proof.
  enough (∀ k fuel s, (String.length s ≤ k)%nat → (String.length s ≤ fuel)%nat →
    collapse_loop fuel s = collapse_loop k s) as Hk by (intros; by apply Hk).
  clear. intros k. induction k as [|k IH]; intros [|fuel] [|a s] Hk Hf; simpl in *; try done; try lia.
  destruct (is_ascii_hexdigit a); [|rewrite (IH fuel s) by lia; done].
  destruct (span_hex s) as [r rest] eqn:Es. apply span_hex_spec in Es as (_ & _ & _ & Hl).
  by rewrite (IH fuel rest) by lia.
Qed.

Lemma starts_with_app_split p r t :
  starts_with p (r +:+ t) = true →
  starts_with p r = true ∨ ∃ p', p = r +:+ p' ∧ starts_with p' t = true.
Proof.
  revert p. induction r as [|a r IH]; intros p Hp.
  - right. by exists p.
  - destruct p as [|d p]; [by left|]. rewrite str_app_cons in Hp.
    unfold starts_with in *. simpl in *. destruct (Ascii.eqb_spec d a) as [->|]; [|done].
    destruct (IH p) as [Hl|(p' & -> & Hp')]; [exact Hp| |].
    + by left.
    + right. exists p'. split; [done | exact Hp'].
Qed.

Lemma starts_with_app_l p r t : starts_with p r = true → starts_with p (r +:+ t) = true.
Proof.
  unfold starts_with. destruct (strip_prefix p r) as [u|] eqn:E; [|done]. intros _.
  apply strip_prefix_Some in E as ->. by rewrite str_app_assoc, strip_prefix_app.
Qed.

Lemma contains_app_r p r t : str_contains p t = true → str_contains p (r +:+ t) = true.
Proof.
  intros Ht. induction r as [|a r IH]; [done|]. rewrite str_app_cons. simpl.
  rewrite IH. apply orb_true_r.
Qed.

Lemma list_ascii_app (r t : string) :
  String.list_ascii_of_string (r +:+ t) =
  String.list_ascii_of_string r ++ String.list_ascii_of_string t.
Proof. induction r as [|a r IH]; [done|]. rewrite str_app_cons. simpl. by rewrite IH. Qed.

Lemma collapse_starts_with fuel p s :
  all_chars plain p →
  starts_with p (collapse_loop fuel s) = true → starts_with p s = true.
Proof.
  revert p s. induction fuel as [|fuel IH]; intros p s Hp Hs.
  { by destruct p. }
  destruct s as [|a s]; [done|]. cbn [collapse_loop] in Hs.
  destruct (is_ascii_hexdigit a) eqn:Ha.
  - destruct (span_hex (String a s)) as [r rest] eqn:Es.
    apply span_hex_spec in Es as (Es & _). rewrite Es.
    destruct (32 <=? str_len r).
    + destruct p as [|d p]; [done|]. apply Forall_cons in Hp as [[_ Hd] _].
      unfold starts_with in Hs. simpl in Hs.
      by destruct (Ascii.eqb_spec d "["%char).
    + apply starts_with_app_split in Hs as [Hs|(p' & -> & Hs)].
      * by apply starts_with_app_l.
      * unfold all_chars in Hp. rewrite list_ascii_app, Forall_app in Hp.
        destruct Hp as [_ Hp]. apply (IH p' rest Hp) in Hs.
        unfold starts_with in Hs |- *. destruct (strip_prefix p' rest) as [u|] eqn:E; [|done].
        apply strip_prefix_Some in E as ->. by rewrite <- str_app_assoc, strip_prefix_app.
  - destruct p as [|d p]; [done|]. apply Forall_cons in Hp as [[Hd _] Hp].
    destruct (push_char_cases a) as [(_ & E)|(_ & x & y & E & Hx & _)]; rewrite E in Hs.
    + unfold starts_with in *. simpl in *. destruct (Ascii.eqb d a); [|done].
      by apply (IH p s Hp).
    + unfold starts_with in Hs. simpl in Hs.
      destruct (Ascii.eqb_spec d x) as [->|]; [lia|done].
Qed.

Lemma contains_skip_chars c p' r x :
  all_chars (λ a, a ≠ c) r →
  str_contains (String c p') (r +:+ x) = true → str_contains (String c p') x = true.
Proof.
  induction r as [|a r IH]; intros Hr Hx; [done|].
  apply Forall_cons in Hr as [Ha Hr]. rewrite str_app_cons in Hx.
  apply IH; [done|]. by eapply contains_skip_head.
Qed.

(** The collapse cannot create an occurrence of a plain pattern. *)
Lemma collapse_contains fuel c p' s :
  all_chars plain (String c p') → is_ascii_hexdigit c = false →
  all_chars (λ a, a ≠ c) REDACTED →
  str_contains (String c p') (collapse_loop fuel s) = true →
  str_contains (String c p') s = true.
Proof.
  intros Hp Hc Hred. revert s. induction fuel as [|fuel IH]; intros s Hs; [done|].
  destruct s as [|a s]; [done|]. cbn [collapse_loop] in Hs.
  pose proof Hp as [[Hc128 _] Hp']%Forall_cons.
  destruct (is_ascii_hexdigit a) eqn:Ha.
  - destruct (span_hex (String a s)) as [r rest] eqn:Es.
    apply span_hex_spec in Es as (Es & Hr & _). rewrite Es.
    apply contains_app_r, IH. destruct (32 <=? str_len r).
    + by eapply contains_skip_chars.
    + eapply contains_skip_chars; [|exact Hs].
      eapply Forall_impl; [exact Hr|]. intros d Hd ->. congruence.
  - destruct (push_char_cases a) as [(_ & E)|(_ & x & y & E & Hx & Hy)]; rewrite E in Hs.
    + change (String a EmptyString +:+ collapse_loop fuel s)
        with (String a (collapse_loop fuel s)) in Hs.
      cbn [str_contains] in Hs |- *. apply orb_true_iff in Hs as [Hs|Hs]; apply orb_true_iff.
      * left. unfold starts_with in *. simpl in *. destruct (Ascii.eqb c a); [|done].
        by apply (collapse_starts_with fuel p' s).
      * right. by apply IH.
    + cbn [str_contains]. apply orb_true_iff. right. apply IH.
      eapply (contains_skip_chars c p' (String x (String y EmptyString))); [|exact Hs].
      constructor; [intros ->; lia|]. constructor; [intros ->; lia|]. constructor.
Qed.

(** *** Runs in the output *)

Lemma span_hex_app_sep l c x :
  is_ascii_hexdigit c = false → (span_hex (l +:+ String c x)).1 = (span_hex l).1.
Proof.
  intros Hc. induction l as [|a l IH].
  - unfold "+:+". simpl. by rewrite Hc.
  - rewrite str_app_cons. simpl. destruct (is_ascii_hexdigit a); [|done].
    destruct (span_hex (l +:+ String c x)), (span_hex l). simpl in *. by rewrite IH.
Qed.

Lemma max_hex_run_app_sep l c x :
  is_ascii_hexdigit c = false →
  max_hex_run (l +:+ String c x) = Z.max (max_hex_run l) (max_hex_run x).
Proof.
  intros Hc.
  assert (∀ y, 0 ≤ max_hex_run y) as Hnn.
  { intros y. induction y; simpl; [lia|]. pose proof (str_len_nonneg (span_hex (String a y)).1).
    simpl in *. lia. }
  induction l as [|a l IH].
  - unfold "+:+". cbn [max_hex_run span_hex]. rewrite Hc. simpl.
    pose proof (Hnn x). unfold str_len. simpl. lia.
  - rewrite str_app_cons. cbn [max_hex_run]. rewrite IH.
    rewrite <- str_app_cons, span_hex_app_sep by done. lia.
Qed.

Lemma max_hex_run_app r x :
  all_chars (λ a, is_ascii_hexdigit a = true) r → (span_hex x).1 = EmptyString →
  max_hex_run (r +:+ x) = Z.max (str_len r) (max_hex_run x).
Proof.
  intros Hr Hx. induction r as [|a r IH].
  - unfold "+:+". unfold str_len. simpl.
    assert (0 ≤ max_hex_run x); [|lia].
    clear. induction x; simpl; [lia|]. pose proof (str_len_nonneg (span_hex (String a x)).1).
    simpl in *. lia.
  - apply Forall_cons in Hr as [Ha Hr]. rewrite str_app_cons. cbn [max_hex_run].
    rewrite (IH Hr).
    assert ((span_hex (String a (r +:+ x))).1 = String a r) as ->.
    { clear -Ha Hr Hx. simpl. rewrite Ha.
      assert ((span_hex (r +:+ x)).1 = r) as E.
      { induction r as [|b r IH]; [exact Hx|]. apply Forall_cons in Hr as [Hb Hr].
        rewrite str_app_cons. simpl. rewrite Hb.
        specialize (IH Hr). destruct (span_hex (r +:+ x)). simpl in *. by rewrite IH. }
      destruct (span_hex (r +:+ x)). simpl in *. by rewrite E. }
    unfold str_len. simpl String.length. lia.
Qed.

Lemma collapse_head_nonhex fuel s :
  (span_hex s).1 = EmptyString → (span_hex (collapse_loop fuel s)).1 = EmptyString.
Proof.
  intros Hs. destruct fuel as [|fuel]; [done|]. destruct s as [|a s]; [done|].
  cbn [collapse_loop]. destruct (is_ascii_hexdigit a) eqn:Ha.
  - simpl in Hs. rewrite Ha in Hs. by destruct (span_hex s).
  - destruct (push_char_cases a) as [(_ & ->)|(_ & x & y & -> & Hx & _)]; simpl.
    + by rewrite Ha.
    + destruct (is_ascii_hexdigit x) eqn:Ex; [|done]. apply hexdigit_ascii in Ex. lia.
Qed.

Lemma collapse_max_hex_run fuel s : max_hex_run (collapse_loop fuel s) < 32.
Proof.
  revert s. induction fuel as [|fuel IH]; intros s; [done|].
  destruct s as [|a s]; [done|]. cbn [collapse_loop].
  destruct (is_ascii_hexdigit a) eqn:Ha.
  - destruct (span_hex (String a s)) as [r rest] eqn:Es.
    apply span_hex_spec in Es as (_ & Hr & Hrest & _).
    destruct (32 <=? str_len r) eqn:Hlen; bool_simpl.
    + change (REDACTED +:+ collapse_loop fuel rest)
        with ("[redacted" +:+ String "]"%char (collapse_loop fuel rest)).
      rewrite max_hex_run_app_sep by done. pose proof (IH rest).
      change (max_hex_run "[redacted") with 4. lia.
    + rewrite max_hex_run_app; [pose proof (IH rest); lia | done |].
      by apply collapse_head_nonhex.
  - destruct (push_char_cases a) as [(_ & ->)|(_ & x & y & -> & Hx & Hy)].
    + change (String a EmptyString +:+ collapse_loop fuel s)
        with (EmptyString +:+ String a (collapse_loop fuel s)).
      rewrite max_hex_run_app_sep by done. pose proof (IH s).
      change (max_hex_run EmptyString) with 0. lia.
    + assert (∀ z, 128 ≤ byte_val z → is_ascii_hexdigit z = false) as Hz.
      { intros z Hz. destruct (is_ascii_hexdigit z) eqn:E; [|done].
        apply hexdigit_ascii in E. lia. }
      change (String x (String y EmptyString) +:+ collapse_loop fuel s)
        with (EmptyString +:+ String x (EmptyString +:+ String y (collapse_loop fuel s))).
      rewrite !max_hex_run_app_sep by auto. pose proof (IH s).
      change (max_hex_run EmptyString) with 0. lia.
Qed.

(** *** The part of the text that is kept *)

Definition non_ascii_bytes (s : string) : nat :=
  length (filter (λ a, (byte_val a <? 128) = false) (String.list_ascii_of_string s)).

Lemma max_hex_run_suffix r s : max_hex_run s ≤ max_hex_run (r +:+ s).
Proof.
  induction r as [|a r IH]; [done|]. rewrite str_app_cons. cbn [max_hex_run]. lia.
Qed.

Lemma span_le_max s : str_len (span_hex s).1 ≤ max_hex_run s.
Proof. destruct s as [|a s]; [done|]. cbn [max_hex_run]. lia. Qed.

Lemma collapse_ascii fuel s :
  (String.length s ≤ fuel)%nat → max_hex_run s < 32 → is_ascii s = true →
  collapse_loop fuel s = s.
Proof.
  revert s. induction fuel as [|fuel IH]; intros s Hlen Hrun Has.
  { by destruct s; simpl in *; [|lia]. }
  destruct s as [|a s]; [done|]. cbn [collapse_loop].
  pose proof (span_le_max (String a s)) as Hspan.
  unfold is_ascii in *. apply andb_prop in Has as [Ha128 Has].
  change ((byte_val a <? 128) = true) in Ha128.
  destruct (is_ascii_hexdigit a) eqn:Ha.
  - destruct (span_hex (String a s)) as [r rest] eqn:Es.
    assert (String.length rest ≤ String.length s)%nat as Hl.
    { simpl in Es. rewrite Ha in Es. destruct (span_hex s) as [r1 rest1] eqn:Es1.
      injection Es as <- <-. by apply span_hex_spec in Es1 as (_ & _ & _ & Hl). }
    assert (String.list_ascii_of_string (String a s) =
            String.list_ascii_of_string r ++ String.list_ascii_of_string rest) as Hl2.
    { apply span_hex_spec in Es as (-> & _). apply list_ascii_app. }
    apply span_hex_spec in Es as (Es & _). cbn [fst] in Hspan.
    destruct (32 <=? str_len r) eqn:E32; bool_simpl; [lia|].
    rewrite IH; [by rewrite Es | simpl in Hlen; lia | |].
    + rewrite Es in Hrun. pose proof (max_hex_run_suffix r rest). lia.
    + assert (forallb (λ a, byte_val a <? 128) (String.list_ascii_of_string (String a s)) = true)
        as Hall by (apply andb_true_intro; split; [by apply Z.ltb_lt | exact Has]).
      rewrite Hl2, forallb_app in Hall. apply andb_prop in Hall as [_ Hall]. exact Hall.
  - unfold push_char. rewrite Ha128. rewrite str_app_cons. f_equal.
    change (EmptyString +:+ collapse_loop fuel s) with (collapse_loop fuel s).
    apply IH; [simpl in Hlen; lia | | done].
    pose proof (max_hex_run_suffix (String a EmptyString) s) as Hs.
    change (String a EmptyString +:+ s) with (String a s) in Hs. lia.
Qed.

Lemma collapse_length fuel s :
  (String.length s ≤ fuel)%nat → max_hex_run s < 32 →
  String.length (collapse_loop fuel s) = (String.length s + non_ascii_bytes s)%nat.
Proof.
  revert s. induction fuel as [|fuel IH]; intros s Hlen Hrun.
  { by destruct s; simpl in *; [|lia]. }
  destruct s as [|a s]; [done|]. cbn [collapse_loop].
  pose proof (span_le_max (String a s)) as Hspan.
  destruct (is_ascii_hexdigit a) eqn:Ha.
  - destruct (span_hex (String a s)) as [r rest] eqn:Es.
    assert (String.length rest ≤ String.length s)%nat as Hl.
    { simpl in Es. rewrite Ha in Es. destruct (span_hex s) as [r1 rest1] eqn:Es1.
      injection Es as <- <-. by apply span_hex_spec in Es1 as (_ & _ & _ & Hl). }
    assert (String.length rest ≤ fuel)%nat as Hfuel by (simpl in Hlen; lia).
    apply span_hex_spec in Es as (Es & Hr & _). cbn [fst] in Hspan. rewrite Es in *.
    destruct (32 <=? str_len r) eqn:E32; bool_simpl; [lia|].
    unfold non_ascii_bytes in *. rewrite list_ascii_app, filter_app, length_app.
    rewrite !str_length_app, IH; [| exact Hfuel |].
    + assert (filter (λ a, (byte_val a <? 128) = false) (String.list_ascii_of_string r) = [])
        as ->; [|simpl; lia].
      clear -Hr. induction r as [|b r IHr]; [done|]. apply Forall_cons in Hr as [Hb Hr].
      cbn [String.list_ascii_of_string]. rewrite filter_cons_False; [by apply IHr|].
      apply hexdigit_ascii in Hb. intros E. bool_simpl. lia.
    + pose proof (max_hex_run_suffix r rest). lia.
  - rewrite str_length_app, IH; [| simpl in Hlen; lia |].
    + unfold non_ascii_bytes, push_char. cbn [String.list_ascii_of_string]. rewrite filter_cons.
      destruct (byte_val a <? 128); case_decide; try done; simpl; lia.
    + pose proof (max_hex_run_suffix (String a EmptyString) s) as Hs.
      change (String a EmptyString +:+ s) with (String a s) in Hs. lia.
Qed.

Lemma non_ascii_bytes_zero s : non_ascii_bytes s = 0%nat → is_ascii s = true.
Proof.
  unfold non_ascii_bytes, is_ascii. induction (String.list_ascii_of_string s) as [|a l IH];
    [done|]. rewrite filter_cons. simpl. case_decide as Hd; simpl; [lia|].
  intros E. destruct (byte_val a <? 128); [simpl; by apply IH | done].
Qed.

Lemma redact_text_no_ticket s : str_contains "vnd1:" (redact_text s) = false.
Proof.
  destruct (str_contains "vnd1:" (redact_text s)) eqn:E; [|done].
  unfold redact_text, collapse_long_hex in E. apply collapse_contains in E.
  - rewrite redact_tickets_clean in E; done.
  - repeat constructor; done.
  - done.
  - repeat constructor; done.
Qed.
End RedactionFacts.

(** ** Properties *)

Section Properties.
Context `{Env}.
Import Cooldown Redaction CooldownFacts RedactionFacts.

(** From a clean slate, the first [strike_limit - 1] malformed
    messages of an identity are tolerated, and exactly the [strike_limit]-th
    starts a quiet period and resets the counter, whatever the clock does. *)
Theorem malformed_burst_trips (cfg : Config) identity k s n :
  until s !! identity = None → strikes s !! identity = None →
  strike_limit cfg = Z.of_nat (S k) → strike_limit cfg ≤ U32_MAX →
  wp (E:=string) (malformed_burst cfg identity (S k)) s n (λ r s' _,
    r = Ok (replicate k false ++ [true]) ∧
    (∃ now, until s' !! identity = Some (now + cooldown_ms cfg)) ∧
    strikes s' !! identity = None).
Proof.
  intros Hun Hst Hlim Hmax. apply (malformed_burst_spec cfg identity 0 k s n); try done.
  by rewrite Hst.
Qed.

(** Declining or striking one identity never changes whether
    another identity is throttled, nor its strike count. *)
Theorem record_malformed_isolated (cfg : Config) identity other s n :
  other ≠ identity → (∀ i j, (i ≤ j)%nat → clock i ≤ clock j) →
  wp (E:=string) (record_malformed cfg identity) s n (λ _ s' n',
    strikes s' !! other = strikes s !! other ∧
    ∀ t, clock n' ≤ t → (throttled s' other t ↔ throttled s other t)).
Proof.
  intros Hne Hmono.
  assert (wp (E:=string) (record_malformed cfg identity) s n
            (λ _ s' n', frame identity (clock n) s s' ∧ (n ≤ n')%nat)) as Hw.
  { unfold record_malformed. apply wp_bind.
    eapply wp_mono; [apply (is_cooling_frame identity (clock n)); done|].
    intros r s1 n1 [Hf ->]. destruct r as [[]|]; wp_steps; [split; [done|lia]| |split; [done|lia]].
    assert (frame identity (clock n) s1 {| until := until s1; strikes :=
      <[identity := u32_saturating_add (default 0 (strikes s1 !! identity)) 1]> (strikes s1) |})
      as Hf1.
    { intros o Ho. unfold throttled. simpl. by rewrite lookup_insert_ne. }
    destruct (strike_limit cfg <=? _); wp_steps; (split; [|lia]).
    - etransitivity; [exact Hf|]. etransitivity; [exact Hf1|].
      match goal with |- frame _ _ ?a _ => apply (frame_insert identity (clock n) _ a) end.
    - by etransitivity. }
  eapply wp_mono; [exact Hw|]. intros r s' n' [Hf Hn]. destruct (Hf other Hne) as [E T].
  split; [done|]. intros t Ht. apply T. pose proof (Hmono n n' Hn). lia.
Qed.
End Properties.

Section RedactionProperties.
Import Redaction RedactionFacts.

(** On text with nothing to redact, [redact_text] is the identity
    exactly when the text is ASCII; every other text is altered. *)
Theorem redact_text_identity_iff_ascii (s : string) :
  str_contains "vnd1:" s = false → max_hex_run s < 32 →
  (redact_text s = s ↔ is_ascii s = true).
Proof.
  intros Hno Hrun. unfold redact_text, collapse_long_hex.
  assert (∀ f, redact_tickets f s = s) as ->.
  { intros [|f]; [done|]. simpl. apply find_split_None in Hno. by rewrite Hno. }
  split; intros Hs.
  - apply non_ascii_bytes_zero. pose proof (collapse_length (String.length s) s) as Hl.
    rewrite Hs in Hl. lia.
  - by apply collapse_ascii.
Qed.

(** Whatever the text, the result contains no ticket prefix [vnd1:] and no run of 32 or
    more hexadecimal digits; and ASCII text in which there is neither is left as it is. *)
Theorem redact_text_scrubs (s : string) :
  str_contains "vnd1:" (redact_text s) = false ∧ max_hex_run (redact_text s) < 32 ∧
  (str_contains "vnd1:" s = false ∧ max_hex_run s < 32 ∧ is_ascii s = true → redact_text s = s).
Proof.
  split_and!; [apply redact_text_no_ticket|apply collapse_max_hex_run|].
  intros (Hno & Hrun & Hs). by apply redact_text_identity_iff_ascii.
Qed.

(** In a redacted payload no sensitive key, at any nesting depth,
    keeps its raw value: it holds [null], the placeholder or a fingerprint. *)
Theorem redact_json_scrubbed (blake3_hex : string → string) (v : Value) :
  scrubbed blake3_hex (redact_json blake3_hex v).
Proof.
  induction v as [| | | |l IH|l IH] using Value_nested_ind; try done; simpl.
  - induction IH as [|x l Hx _ IHl]; simpl; [done|]. by split.
  - induction IH as [|[k x] l Hx _ IHl]; simpl; [done|]. split; [|done].
    destruct (is_sensitive_key k) eqn:Ek; simpl; rewrite Ek;
      [apply redact_value_opaque | done].
Qed.
End RedactionProperties.

(** ** Witnesses *)

Section Witnesses.
Import Cooldown Redaction.
#[local] Instance demo_env : Env := quiet_env 1000 (λ _, EmptyString).

Lemma malformed_burst_trips_witness :
  wp (E:=string) (malformed_burst (new 60000 3) "a" 3) CooldownInner_default 0%nat
    (λ r s' _, r = Ok [false; false; true] ∧
      (∃ now, until s' !! "a"%string = Some (now + 60000)) ∧ strikes s' !! "a"%string = None).
Proof. apply (malformed_burst_trips (new 60000 3) "a" 2); done. Defined.

Lemma record_malformed_isolated_witness :
  wp (E:=string) (record_malformed (new 60000 1) "a") CooldownInner_default 0%nat
    (λ _ s' n', strikes s' !! "b"%string = None ∧
      ∀ t, clock n' ≤ t → (throttled s' "b" t ↔ throttled CooldownInner_default "b" t)).
Proof.
  apply (record_malformed_isolated (new 60000 1) "a" "b" CooldownInner_default 0%nat);
    [done | intros i j _; simpl; lia].
Defined.

(** "caf" followed by U+00E9 (bytes C3 A9). *)
Definition accented : string :=
  "caf" +:+ String (byte_of 195) (String (byte_of 169) EmptyString).

Lemma redact_text_identity_iff_ascii_witness :
  (redact_text accented = accented ↔ is_ascii accented = true) ∧ is_ascii accented = false.
Proof. split; [apply (redact_text_identity_iff_ascii accented) |]; vm_compute; done. Defined.
End Witnesses.
