(* ===== verification/Errors.v ===== *)
(** * [error.rs]: the error surface of the core

    [VnidropError] is what crosses the foreign-function boundary. The [anyhow]
    crate's error is modelled as its chain of causes, outermost first, each with
    the text it displays; [classify] and [from_error] walk that chain exactly as
    the code does. *)

From S2P Require Import Prelude Sql ControlPlane.

Inductive VnidropError : Type :=
| Initialization (reason : string)
| Ticket (reason : string)
| Filesystem (reason : string)
| FilesystemPermission (reason : string)
| DestinationExists (reason : string)
| StorageFull (reason : string)
| Network (reason : string)
| DeviceUnavailable (reason : string)
| OfferTimeout (reason : string)
| RelayPolicyIncompatible (reason : string)
| ProtocolIncompatible (reason : string)
| Transfer (reason : string)
| Permission (reason : string)
| Repository (reason : string)
| Cancelled (reason : string)
| InvalidInput (reason : string)
| InvalidTransition (reason : string)
| SecureStorageLocked (reason : string)
| SecureStorageMissing (reason : string)
| SecureStorageCorrupted (reason : string)
| SecureStorageUnavailable (reason : string)
| Internal (reason : string).

#[global] Instance VnidropError_eq_dec : EqDecision VnidropError.
Proof. solve_decision. Defined.

(** The kinds of [std::io::Error] the code tells apart. *)
Inductive IoErrorKind : Type := AlreadyExists | PermissionDenied | IoStorageFull | NotFound | IoOther.

(** One link of an [anyhow] chain. *)
Inductive Cause : Type :=
| CVnidrop (e : VnidropError)
| CIo (kind : IoErrorKind) (message : string)
| CSqlx (e : SqlxError)
| CMessage (message : string).

(** An [anyhow::Error]: the outermost cause and the rest of the chain. *)
Record AnyhowError : Type := { head_cause : Cause; source_chain : list Cause }.

Definition chain (error : AnyhowError) : list Cause := head_cause error :: source_chain error.

Definition code (e : VnidropError) : string :=
  match e with
  | Initialization _ => "initialization"
  | Ticket _ => "invalid_ticket"
  | Filesystem _ => "filesystem"
  | FilesystemPermission _ => "filesystem_permission_denied"
  | DestinationExists _ => "destination_exists"
  | StorageFull _ => "storage_full"
  | Network _ => "network"
  | DeviceUnavailable _ => "device_unavailable"
  | OfferTimeout _ => "offer_timeout"
  | RelayPolicyIncompatible _ => "relay_policy_incompatible"
  | ProtocolIncompatible _ => "protocol_incompatible"
  | Transfer _ => "transfer"
  | Permission _ => "permission_denied"
  | Repository _ => "repository"
  | Cancelled _ => "cancelled"
  | InvalidInput _ => "invalid_input"
  | InvalidTransition _ => "invalid_transition"
  | SecureStorageLocked _ => "secure_storage_locked"
  | SecureStorageMissing _ => "secure_storage_missing"
  | SecureStorageCorrupted _ => "secure_storage_corrupted"
  | SecureStorageUnavailable _ => "secure_storage_unavailable"
  | Internal _ => "internal"
  end.

Definition reason (e : VnidropError) : string :=
  match e with
  | Initialization r | Ticket r | Filesystem r | FilesystemPermission r | DestinationExists r
  | StorageFull r | Network r | DeviceUnavailable r | OfferTimeout r | RelayPolicyIncompatible r
  | ProtocolIncompatible r | Transfer r | Permission r | Repository r | Cancelled r
  | InvalidInput r | InvalidTransition r | SecureStorageLocked r | SecureStorageMissing r
  | SecureStorageCorrupted r | SecureStorageUnavailable r | Internal r => r
  end.

Definition with_reason (e : VnidropError) (r : string) : VnidropError :=
  match e with
  | Initialization _ => Initialization r
  | Ticket _ => Ticket r
  | Filesystem _ => Filesystem r
  | FilesystemPermission _ => FilesystemPermission r
  | DestinationExists _ => DestinationExists r
  | StorageFull _ => StorageFull r
  | Network _ => Network r
  | DeviceUnavailable _ => DeviceUnavailable r
  | OfferTimeout _ => OfferTimeout r
  | RelayPolicyIncompatible _ => RelayPolicyIncompatible r
  | ProtocolIncompatible _ => ProtocolIncompatible r
  | Transfer _ => Transfer r
  | Permission _ => Permission r
  | Repository _ => Repository r
  | Cancelled _ => Cancelled r
  | InvalidInput _ => InvalidInput r
  | InvalidTransition _ => InvalidTransition r
  | SecureStorageLocked _ => SecureStorageLocked r
  | SecureStorageMissing _ => SecureStorageMissing r
  | SecureStorageCorrupted _ => SecureStorageCorrupted r
  | SecureStorageUnavailable _ => SecureStorageUnavailable r
  | Internal _ => Internal r
  end.

(** [thiserror]'s [Display] of a [VnidropError]. *)
Definition display_prefix (e : VnidropError) : string :=
  match e with
  | Initialization _ => "initialization failed"
  | Ticket _ => "ticket error"
  | Filesystem _ => "filesystem error"
  | FilesystemPermission _ => "filesystem permission denied"
  | DestinationExists _ => "destination already exists"
  | StorageFull _ => "storage is full"
  | Network _ => "network error"
  | DeviceUnavailable _ => "device unavailable"
  | OfferTimeout _ => "offer timed out"
  | RelayPolicyIncompatible _ => "relay policy incompatible"
  | ProtocolIncompatible _ => "protocol incompatible"
  | Transfer _ => "transfer error"
  | Permission _ => "permission error"
  | Repository _ => "repository error"
  | Cancelled _ => "operation cancelled"
  | InvalidInput _ => "invalid input"
  | InvalidTransition _ => "invalid targeted transfer transition"
  | SecureStorageLocked _ => "secure storage is locked"
  | SecureStorageMissing _ => "secure storage item is missing"
  | SecureStorageCorrupted _ => "secure storage item is corrupted"
  | SecureStorageUnavailable _ => "secure storage is unavailable"
  | Internal _ => "internal error"
  end.

(** The text of errors raised by the crates [sqlx] and [std::io]. *)
Class ForeignText : Type := { sqlx_text : SqlxError → string }.

Section Classification.
Context `{ForeignText}.

Definition cause_text (c : Cause) : string :=
  match c with
  | CVnidrop e => display_prefix e +:+ ": " +:+ reason e
  | CIo _ m => m
  | CSqlx e => sqlx_text e
  | CMessage m => m
  end.

(** [error.to_string()] displays the outermost cause only. *)
Definition error_text (error : AnyhowError) : string := cause_text (head_cause error).

Definition find_vnidrop (l : list Cause) : option VnidropError :=
  head (omap (λ c, match c with CVnidrop e => Some e | _ => None end) l).

Definition find_io (l : list Cause) : option IoErrorKind :=
  head (omap (λ c, match c with CIo k _ => Some k | _ => None end) l).

Definition has_sqlx (l : list Cause) : bool :=
  existsb (λ c, match c with CSqlx _ => true | _ => false end) l.

Definition classify (error : AnyhowError) (fallback : string → VnidropError) : VnidropError :=
  let reason := Redaction.redact_text (error_text error) in
  match find_vnidrop (chain error) with
  | Some existing => with_reason existing reason
  | None =>
      match find_io (chain error) with
      | Some AlreadyExists => DestinationExists reason
      | Some PermissionDenied => FilesystemPermission reason
      | Some IoStorageFull => StorageFull reason
      | Some _ => Filesystem reason
      | None => if has_sqlx (chain error) then Repository reason else fallback reason
      end
  end.

Definition from_error (error : AnyhowError) (fallback : string → VnidropError) : VnidropError :=
  let reason := Redaction.redact_text (error_text error) in
  match find_vnidrop (chain error) with
  | Some existing => with_reason existing reason
  | None => fallback reason
  end.

(** [anyhow::anyhow!(..)], [bail!(..)] and the conversion of a foreign error. *)
Definition anyhow_msg (m : string) : AnyhowError :=
  {| head_cause := CMessage m; source_chain := [] |}.
Definition anyhow_sqlx (e : SqlxError) : AnyhowError :=
  {| head_cause := CSqlx e; source_chain := [] |}.
Definition anyhow_vnidrop (e : VnidropError) : AnyhowError :=
  {| head_cause := CVnidrop e; source_chain := [] |}.
(** [.context(m)]. *)
Definition with_context (m : string) (error : AnyhowError) : AnyhowError :=
  {| head_cause := CMessage m; source_chain := chain error |}.

Definition initialization (error : AnyhowError) := from_error error Initialization.
Definition ticket (error : AnyhowError) : VnidropError :=
  Ticket (Redaction.redact_text (error_text error)).
Definition filesystem (error : AnyhowError) := classify error Filesystem.
Definition network (error : AnyhowError) := from_error error Network.
Definition device_unavailable (error : AnyhowError) := from_error error DeviceUnavailable.
Definition offer_timeout (error : AnyhowError) := from_error error OfferTimeout.
Definition relay_policy_incompatible (error : AnyhowError) :=
  from_error error RelayPolicyIncompatible.
Definition protocol_incompatible (error : AnyhowError) := from_error error ProtocolIncompatible.
Definition transfer (error : AnyhowError) := classify error Transfer.
Definition permission (error : AnyhowError) := classify error Permission.
Definition repository (error : AnyhowError) := from_error error Repository.
Definition invalid_input (error : AnyhowError) := from_error error InvalidInput.
Definition internal (error : AnyhowError) := from_error error Internal.

(** [impl From<anyhow::Error> for VnidropError]. *)
Definition vnidrop_of_anyhow (error : AnyhowError) := classify error Internal.

(** [.map_err(VnidropError::repository)] on an [sqlx] error. *)
Definition repository_sqlx (e : SqlxError) : VnidropError := repository (anyhow_sqlx e).

(** A store statement of a [VnidropError] domain. *)
Definition sql `{Env} {S A} (f : S → result (A * S) SqlxError) : M S VnidropError A :=
  map_err repository_sqlx (stmt f).

(** A store transaction of a [VnidropError] domain. *)
Definition sql_tx `{Env} {S A} (body : M S VnidropError A) : M S VnidropError A :=
  transaction repository_sqlx body.

(** The same two for stores whose functions return [anyhow::Result]. *)
Definition asql `{Env} {S A} (f : S → result (A * S) SqlxError) : M S AnyhowError A :=
  map_err anyhow_sqlx (stmt f).
Definition asql_tx `{Env} {S A} (body : M S AnyhowError A) : M S AnyhowError A :=
  transaction anyhow_sqlx body.
End Classification.

(** A concrete text for foreign errors, for concrete runs. *)
Definition demo_text : ForeignText := {| sqlx_text := λ _, "database error" |}.

Section Lemmas.
Context `{Env} `{ForeignText} {S : Type} (R : S → S → Prop) `{!PreOrder R}.

Lemma within_sql {A} (f : S → result (A * S) SqlxError) :
  (∀ s a s', f s = Ok (a, s') → R s s') → within R (sql f).
Proof. intros Hf. by apply within_map_err, within_stmt. Qed.

Lemma within_asql {A} (f : S → result (A * S) SqlxError) :
  (∀ s a s', f s = Ok (a, s') → R s s') → within R (asql f).
Proof. intros Hf. by apply within_map_err, within_stmt. Qed.

Lemma within_sql_tx {A} (m : M S VnidropError A) : within R m → within R (sql_tx m).
Proof. by apply within_transaction. Qed.

Lemma within_asql_tx {A} (m : M S AnyhowError A) : within R m → within R (asql_tx m).
Proof. by apply within_transaction. Qed.
End Lemmas.

#[export] Hint Resolve within_sql within_asql within_sql_tx within_asql_tx : within.

Section WpSql.
Context `{Env} `{ForeignText}.

(** A statement of a store either fails with a repository error and changes
    nothing, or has its effect. *)
Lemma wp_sql {S A} (f : S → result (A * S) SqlxError) s n Q :
  (∀ e, Q (Err (repository_sqlx e)) s (Datatypes.S n)) →
  (io_fault n = None → ∀ a s', f s = Ok (a, s') → Q (Ok a) s' (Datatypes.S n)) →
  wp (sql f) s n Q.
Proof.
  intros He Ho. apply wp_map_err, wp_stmt; [intros m _; apply He|].
  intros Hn. destruct (f s) as [[a s']|e] eqn:E; [by apply Ho | apply He].
Qed.

Lemma wp_asql {S A} (f : S → result (A * S) SqlxError) s n Q :
  (∀ e, Q (Err (anyhow_sqlx e)) s (Datatypes.S n)) →
  (io_fault n = None → ∀ a s', f s = Ok (a, s') → Q (Ok a) s' (Datatypes.S n)) →
  wp (asql f) s n Q.
Proof.
  intros He Ho. apply wp_map_err, wp_stmt; [intros m _; apply He|].
  intros Hn. destruct (f s) as [[a s']|e] eqn:E; [by apply Ho | apply He].
Qed.

(** A statement in a fault-free environment. *)
Lemma wp_sql_quiet {S A} (f : S → result (A * S) SqlxError) s n Q a s' :
  io_fault n = None → f s = Ok (a, s') → Q (Ok a) s' (Datatypes.S n) → wp (sql f) s n Q.
Proof. intros Hn Hf HQ. apply wp_map_err, wp_stmt; [congruence|]. by rewrite Hf. Qed.

Lemma wp_sql_tx_quiet {S A} (m : M S VnidropError A) s n Q :
  (∀ k, io_fault k = None) →
  wp m s (Datatypes.S n) (λ r s' n', match r with
                                    | Ok a => Q (Ok a) s' (Datatypes.S n')
                                    | Err e => Q (Err e) s n'
                                    end) →
  wp (sql_tx m) s n Q.
Proof.
  intros Hio. unfold sql_tx, transaction, wp. rewrite Hio.
  destruct (m s (Datatypes.S n)) as [[[a|e] s'] n']; [by rewrite Hio | done].
Qed.

Lemma wp_sql_tx {S A} (m : M S VnidropError A) s n Q :
  (∀ e n', Q (Err e) s n') →
  wp m s (Datatypes.S n) (λ r s' n',
    match r with Ok a => Q (Ok a) s' (Datatypes.S n') | Err _ => True end) →
  wp (sql_tx m) s n Q.
Proof. apply wp_transaction. Qed.

Lemma wp_asql_tx {S A} (m : M S AnyhowError A) s n Q :
  (∀ e n', Q (Err e) s n') →
  wp m s (Datatypes.S n) (λ r s' n',
    match r with Ok a => Q (Ok a) s' (Datatypes.S n') | Err _ => True end) →
  wp (asql_tx m) s n Q.
Proof. apply wp_transaction. Qed.
End WpSql.

(** Decompose a [within] goal of a store down to its statements. *)
Ltac store_step :=
  first
    [ apply within_sql; [apply _|]
    | apply within_asql; [apply _|]
    | apply within_sql_tx; [apply _|]
    | apply within_asql_tx; [apply _|]
    | within_step ].

Ltac store_steps := repeat store_step.

(** Symbolic execution of a store operation. *)
Ltac store_wp := repeat first [ apply wp_sql | apply wp_asql | apply wp_sql_tx | apply wp_asql_tx
  | progress wp_steps ].

(** ** Properties *)

Section Properties.
Context `{ForeignText}.

Lemma code_with_reason e r : code (with_reason e r) = code e.
Proof. by destruct e. Qed.

Lemma reason_with_reason e r : reason (with_reason e r) = r.
Proof. by destruct e. Qed.

Lemma find_vnidrop_none_app l l' :
  find_vnidrop l = None → find_vnidrop (l ++ l') = find_vnidrop l'.
Proof.
  unfold find_vnidrop. rewrite omap_app.
  by destruct (omap _ l) as [|x xs]; simpl.
Qed.

Lemma find_vnidrop_contexts contexts e :
  find_vnidrop (chain (fold_right with_context (anyhow_vnidrop e) contexts)) = Some e.
Proof. induction contexts as [|m l IH]; [done|]. exact IH. Qed.

(** Wrapping a [VnidropError] in any number of context messages
    never changes the error code the caller sees, on either conversion path. *)
Theorem conversion_preserves_code contexts e fallback :
  let error := fold_right with_context (anyhow_vnidrop e) contexts in
  code (classify error fallback) = code e ∧ code (from_error error fallback) = code e.
Proof.
  intros error. unfold classify, from_error, error. rewrite find_vnidrop_contexts.
  by rewrite !code_with_reason.
Qed.

(** The reason text of every converted error is redacted: no ticket
    and no long hexadecimal identifier reaches the caller, whatever the cause. *)
Theorem conversion_redacts_reason (error : AnyhowError) (fallback : string → VnidropError) :
  (∀ r, reason (fallback r) = r) →
  str_contains "vnd1:" (reason (classify error fallback)) = false ∧
  Redaction.max_hex_run (reason (classify error fallback)) < 32 ∧
  reason (from_error error fallback) = reason (classify error fallback).
Proof.
  intros Hf. set (text := Redaction.redact_text (error_text error)).
  assert (reason (classify error fallback) = text) as ->.
  { unfold classify. fold text. destruct (find_vnidrop _); [apply reason_with_reason|].
    destruct (find_io _) as [[]|]; try done. destruct (has_sqlx _); [done | apply Hf]. }
  split; [apply RedactionFacts.redact_text_no_ticket|].
  split; [apply RedactionFacts.collapse_max_hex_run|].
  unfold from_error. fold text. destruct (find_vnidrop _); [apply reason_with_reason | apply Hf].
Qed.
End Properties.

Section Witnesses.
#[local] Existing Instance demo_text.

Lemma conversion_redacts_reason_witness :
  reason (classify (anyhow_msg "bad vnd1:abc") Internal) = "bad [redacted]" ∧
  str_contains "vnd1:" (reason (classify (anyhow_msg "bad vnd1:abc") Internal)) = false.
Proof.
  split; [vm_compute; reflexivity|].
  apply (conversion_redacts_reason (anyhow_msg "bad vnd1:abc") Internal).
  reflexivity.
Defined.
End Witnesses.
