(* ===== verification/States.v ===== *)
(** * Lifecycles: [transfer_state.rs], [targeted_transfer/state.rs] and the state
    enums of [api.rs]

    Every enum has its storage text ([as_str]) and its parser ([try_from],
    [parse_*]); the transition tables are decision procedures. *)

From S2P Require Import Prelude Sql ControlPlane Errors.

(** ** Invitation transfers *)

Inductive TransferDirection : Type := Send | Receive.

Inductive TransferStatus : Type :=
| Importing | Sharing | Receiving | Done | Failed | StatusCancelled | Stopped.

Inductive ReceiverRequestStatus : Type :=
| Requested | Accepted | Refused | Expired | RequestCompleted | RequestFailed.

#[global] Instance TransferDirection_eq_dec : EqDecision TransferDirection.
Proof. solve_decision. Defined.
#[global] Instance TransferStatus_eq_dec : EqDecision TransferStatus.
Proof. solve_decision. Defined.
#[global] Instance ReceiverRequestStatus_eq_dec : EqDecision ReceiverRequestStatus.
Proof. solve_decision. Defined.

Definition direction_as_str (d : TransferDirection) : string :=
  match d with Send => "send" | Receive => "receive" end.

Definition direction_try_from (value : string) : result TransferDirection AnyhowError :=
  match value with
  | "send" => Ok Send
  | "receive" => Ok Receive
  | _ => Err (anyhow_msg ("unknown transfer direction: " +:+ value))
  end%string.

Definition status_as_str (s : TransferStatus) : string :=
  match s with
  | Importing => "importing"
  | Sharing => "sharing"
  | Receiving => "receiving"
  | Done => "done"
  | Failed => "failed"
  | StatusCancelled => "cancelled"
  | Stopped => "stopped"
  end.

Definition can_transition_to (self next : TransferStatus) : bool :=
  match self, next with
  | Importing, (Sharing | Failed | StatusCancelled) => true
  | Sharing, (Stopped | Failed) => true
  | Receiving, (Done | Failed | StatusCancelled) => true
  | _, _ => false
  end.

Definition status_try_from (value : string) : result TransferStatus AnyhowError :=
  match value with
  | "importing" => Ok Importing
  | "sharing" => Ok Sharing
  | "receiving" => Ok Receiving
  | "done" => Ok Done
  | "failed" => Ok Failed
  | "cancelled" => Ok StatusCancelled
  | "stopped" => Ok Stopped
  | _ => Err (anyhow_msg ("unknown transfer status: " +:+ value))
  end%string.

Definition request_status_as_str (s : ReceiverRequestStatus) : string :=
  match s with
  | Requested => "requested"
  | Accepted => "accepted"
  | Refused => "refused"
  | Expired => "expired"
  | RequestCompleted => "completed"
  | RequestFailed => "failed"
  end.

Definition request_status_try_from (value : string) : result ReceiverRequestStatus AnyhowError :=
  match value with
  | "requested" => Ok Requested
  | "accepted" => Ok Accepted
  | "refused" => Ok Refused
  | "expired" => Ok Expired
  | "completed" => Ok RequestCompleted
  | "failed" => Ok RequestFailed
  | _ => Err (anyhow_msg ("unknown receiver request status: " +:+ value))
  end%string.

(** ** Targeted transfers *)

Inductive TargetedTransferState : Type :=
| Preparing | Offering | AwaitingApproval | Approved | Connecting | Transferring
| Interrupted | Completed | Declined | Cancelled | TFailed | Deleted.

Inductive TargetedTransferRole : Type := Sender | Receiver.

#[global] Instance TargetedTransferState_eq_dec : EqDecision TargetedTransferState.
Proof. solve_decision. Defined.
#[global] Instance TargetedTransferRole_eq_dec : EqDecision TargetedTransferRole.
Proof. solve_decision. Defined.

Definition targeted_as_str (s : TargetedTransferState) : string :=
  match s with
  | Preparing => "preparing"
  | Offering => "offering"
  | AwaitingApproval => "awaiting_approval"
  | Approved => "approved"
  | Connecting => "connecting"
  | Transferring => "transferring"
  | Interrupted => "interrupted"
  | Completed => "completed"
  | Declined => "declined"
  | Cancelled => "cancelled"
  | TFailed => "failed"
  | Deleted => "deleted"
  end.

(** The two [matches!] of [validate_transition_to]. *)
Definition transition_allowed (self next : TargetedTransferState) : bool :=
  (match next with Deleted => negb (bool_decide (self = Deleted)) | _ => false end) ||
  match self, next with
  | Preparing, (Offering | Cancelled | TFailed) => true
  | Offering, (AwaitingApproval | Cancelled | TFailed) => true
  | AwaitingApproval, (Approved | Declined | Cancelled | TFailed) => true
  | Approved, (Connecting | Cancelled | TFailed) => true
  | Connecting, (Transferring | Interrupted | Cancelled | TFailed) => true
  | Transferring, (Completed | Interrupted | Cancelled | TFailed) => true
  | Interrupted, (Connecting | Cancelled | TFailed) => true
  | _, _ => false
  end.

Definition transition_text (self next : TargetedTransferState) : string :=
  targeted_as_str self +:+ " -> " +:+ targeted_as_str next.

Definition validate_transition_to (self next : TargetedTransferState) :
    result unit VnidropError :=
  if transition_allowed self next then Ok tt
  else Err (InvalidTransition (transition_text self next)).

Definition role_as_str (r : TargetedTransferRole) : string :=
  match r with Sender => "sender" | Receiver => "receiver" end.

Section Parsers.
Context `{ForeignText}.

Definition parse_role (value : string) : result TargetedTransferRole VnidropError :=
  if str_eqb value "sender" then Ok Sender
  else if str_eqb value "receiver" then Ok Receiver
  else Err (repository (anyhow_msg ("unknown targeted transfer role: " +:+ value))).

Definition parse_targeted_state (value : string) : result TargetedTransferState VnidropError :=
  if str_eqb value "preparing" then Ok Preparing
  else if str_eqb value "offering" then Ok Offering
  else if str_eqb value "awaiting_approval" then Ok AwaitingApproval
  else if str_eqb value "approved" then Ok Approved
  else if str_eqb value "connecting" then Ok Connecting
  else if str_eqb value "transferring" then Ok Transferring
  else if str_eqb value "interrupted" then Ok Interrupted
  else if str_eqb value "completed" then Ok Completed
  else if str_eqb value "declined" then Ok Declined
  else if str_eqb value "cancelled" then Ok Cancelled
  else if str_eqb value "failed" then Ok TFailed
  else if str_eqb value "deleted" then Ok Deleted
  else Err (repository (anyhow_msg ("unknown targeted transfer state: " +:+ value)%string)).
End Parsers.

(** States a transfer leaves only by deletion. *)
Definition terminal (s : TargetedTransferState) : bool :=
  match s with Completed | Declined | Cancelled | TFailed | Deleted => true | _ => false end.

(** The order in which a targeted transfer advances; an interruption falls back to
    the point from which the connection is retried. *)
Definition progress_rank (s : TargetedTransferState) : nat :=
  match s with
  | Preparing => 0 | Offering => 1 | AwaitingApproval => 2 | Approved => 3
  | Interrupted => 4 | Connecting => 5 | Transferring => 6
  | Completed | Declined | Cancelled | TFailed => 7 | Deleted => 8
  end.

(** ** Device relationships *)

Inductive DeviceRelationshipState : Type :=
| PendingOutgoing | PendingIncoming | Saved | Revoked | Blocked.

#[global] Instance DeviceRelationshipState_eq_dec : EqDecision DeviceRelationshipState.
Proof. solve_decision. Defined.

Definition relationship_state_as_str (s : DeviceRelationshipState) : string :=
  match s with
  | PendingOutgoing => "pending_outgoing"
  | PendingIncoming => "pending_incoming"
  | Saved => "saved"
  | Revoked => "revoked"
  | Blocked => "blocked"
  end.

Definition parse_relationship_state (value : string) : result DeviceRelationshipState VnidropError :=
  if str_eqb value "pending_outgoing" then Ok PendingOutgoing
  else if str_eqb value "pending_incoming" then Ok PendingIncoming
  else if str_eqb value "saved" then Ok Saved
  else if str_eqb value "revoked" then Ok Revoked
  else if str_eqb value "blocked" then Ok Blocked
  else Err (Internal "unknown device relationship state").

(** ** Storage text is faithful *)

Lemma status_roundtrip s : status_try_from (status_as_str s) = Ok s.
Proof. by destruct s. Qed.

Lemma direction_roundtrip d : direction_try_from (direction_as_str d) = Ok d.
Proof. by destruct d. Qed.

Lemma request_status_roundtrip s : request_status_try_from (request_status_as_str s) = Ok s.
Proof. by destruct s. Qed.

Lemma role_roundtrip `{ForeignText} r : parse_role (role_as_str r) = Ok r.
Proof. by destruct r. Qed.

Lemma parse_role_Ok `{ForeignText} value r : parse_role value = Ok r → value = role_as_str r.
Proof.
  unfold parse_role. destruct (str_eqb value "sender") eqn:E1; [apply str_eqb_eq in E1; by intros [= <-]|].
  destruct (str_eqb value "receiver") eqn:E2; [apply str_eqb_eq in E2; by intros [= <-]|done].
Qed.

Lemma targeted_state_roundtrip `{ForeignText} s : parse_targeted_state (targeted_as_str s) = Ok s.
Proof. by destruct s. Qed.

Lemma parse_targeted_state_Ok `{ForeignText} value s :
  parse_targeted_state value = Ok s → value = targeted_as_str s.
Proof.
  unfold parse_targeted_state. intros E.
  repeat match type of E with
  | (if str_eqb value ?t then _ else _) = _ => destruct (str_eqb value t) eqn:Et; [apply str_eqb_eq in Et; by simplify_eq/=|clear Et]
  end.
  discriminate E.
Qed.

Lemma relationship_state_roundtrip s :
  parse_relationship_state (relationship_state_as_str s) = Ok s.
Proof. by destruct s. Qed.

Lemma parse_relationship_state_Ok value s :
  parse_relationship_state value = Ok s ↔ value = relationship_state_as_str s.
Proof.
  split; [|intros ->; apply relationship_state_roundtrip].
  unfold parse_relationship_state. repeat case_match; intros [= <-]; by apply str_eqb_eq.
Qed.

(** A parser that inverts the storage text makes the text injective. *)
Lemma injective_by_parse {A E} (show : A → string) (parse : string → result A E) :
  (∀ a, parse (show a) = Ok a) → ∀ a b, show a = show b → a = b.
Proof. intros Hp a b E1. pose proof (Hp a) as Ha. rewrite E1, Hp in Ha. by simplify_eq. Qed.

Lemma status_as_str_inj s t : status_as_str s = status_as_str t → s = t.
Proof. apply (injective_by_parse _ _ status_roundtrip). Qed.

Lemma targeted_as_str_inj s t : targeted_as_str s = targeted_as_str t → s = t.
Proof. apply (injective_by_parse _ _ (@targeted_state_roundtrip demo_text)). Qed.

#[export] Hint Rewrite status_roundtrip direction_roundtrip request_status_roundtrip
  @role_roundtrip @targeted_state_roundtrip relationship_state_roundtrip : storage_text.

(** ** Properties of the transition tables *)

Lemma transition_allowed_deleted s : transition_allowed s Deleted = negb (bool_decide (s = Deleted)).
Proof. by destruct s. Qed.

Lemma terminal_only_deleted s t :
  terminal s = true → transition_allowed s t = true → t = Deleted ∧ s ≠ Deleted.
Proof. destruct s, t; done. Qed.

Lemma transition_irreflexive s : transition_allowed s s = false.
Proof. by destruct s. Qed.

(** The targeted state machine, as a graph: a terminal state admits
    no successor but deletion, [Deleted] is absorbing, every other state can be
    cancelled, failed and deleted, and the only way back is an interruption. *)
Theorem targeted_transition_graph (s t : TargetedTransferState) :
  (validate_transition_to s t = Ok tt ↔ transition_allowed s t = true) ∧
  (terminal s = true → transition_allowed s t = true → t = Deleted ∧ s ≠ Deleted) ∧
  (terminal s = false → Forall (λ u, transition_allowed s u = true) [Cancelled; TFailed; Deleted]) ∧
  (transition_allowed s t = true → (progress_rank s < progress_rank t)%nat ∨
     (t = Interrupted ∧ (s = Connecting ∨ s = Transferring))).
Proof.
  split.
  { unfold validate_transition_to. by destruct (transition_allowed s t). }
  split; [apply terminal_only_deleted|]. split.
  - intros Ht. repeat constructor; destruct s; done.
  - destruct s, t; simpl; intros; try done; try (left; lia); right; auto.
Qed.

(** Reachability in the targeted state machine. *)
Definition targeted_reaches : relation TargetedTransferState :=
  rtc (λ s t, transition_allowed s t = true).

Lemma terminal_reaches s t :
  terminal s = true → targeted_reaches s t → t = s ∨ t = Deleted.
Proof.
  intros Hs Hr. revert Hs. induction Hr as [s|s u t Hsu Hut IH]; intros Hs; [by left|].
  apply terminal_only_deleted in Hsu as [-> _]; [|done].
  right. destruct IH as [->| ->]; done.
Qed.

(** No path of the targeted state machine reaches [Connecting],
    [Transferring] or [Completed] from a state before approval without passing
    through [Approved]. *)
Theorem targeted_needs_approval (s t : TargetedTransferState) :
  s ∈ [Preparing; Offering; AwaitingApproval] →
  t ∈ [Connecting; Transferring; Interrupted; Completed] →
  ∀ path, (∀ a b, (a, b) ∈ zip (s :: path) (path ++ [t]) → transition_allowed a b = true) →
  Approved ∈ path.
Proof.
  intros Hs Ht path. revert s Hs.
  assert (∀ s, s ∈ [Preparing; Offering; AwaitingApproval] →
          ∀ u, transition_allowed s u = true →
          u = Approved ∨ u ∈ [Preparing; Offering; AwaitingApproval] ∨ terminal u = true ∧ u ≠ Completed)
    as Hstep.
  { intros s Hs u Hu. set_unfold in Hs. destruct Hs as [->|[->|[->|[]]]];
      destruct u; try done; set_solver. }
  assert (∀ p s, terminal s = true → s ≠ Completed →
          (∀ a b, (a, b) ∈ zip (s :: p) (p ++ [t]) → transition_allowed a b = true) → False) as Hdead.
  { induction p as [|u p IH]; intros s Hs Hne Hall.
    - assert (transition_allowed s t = true) as Hst by (apply Hall; simpl; set_solver).
      apply terminal_only_deleted in Hst as [-> _]; [|done]. set_solver.
    - assert (transition_allowed s u = true) as Hsu by (apply Hall; simpl; set_solver).
      apply terminal_only_deleted in Hsu as [-> _]; [|done].
      apply (IH Deleted); [done|done|]. intros a b Hab. apply Hall. simpl. by right. }
  induction path as [|u path IH]; intros s Hs Hall.
  - assert (transition_allowed s t = true) as Hst by (apply Hall; simpl; set_solver).
    apply Hstep in Hst as [->|[Hin|[Htm Hne]]]; [|..|done]; exfalso; set_unfold in Ht;
      set_unfold; destruct_or?; simplify_eq; done.
  - assert (transition_allowed s u = true) as Hsu by (apply Hall; simpl; set_solver).
    assert (∀ a b, (a, b) ∈ zip (u :: path) (path ++ [t]) → transition_allowed a b = true) as Hall'.
    { intros a b Hab. apply Hall. simpl. by right. }
    apply Hstep in Hsu as [->|[Hin|[Htm Hne]]]; [|..|done].
    + left.
    + right. by apply (IH u).
    + exfalso. by apply (Hdead path u).
Qed.

Lemma targeted_needs_approval_witness :
  Approved ∈ [Offering; AwaitingApproval; Approved; Connecting].
Proof.
  apply (targeted_needs_approval Preparing Transferring); [set_solver | set_solver |].
  intros a b Hab. simpl in Hab.
  repeat (apply elem_of_cons in Hab as [[= -> ->]|Hab]; [vm_compute; reflexivity|]).
  by apply elem_of_nil in Hab.
Defined.

(** For invitation transfers, the terminal statuses have no
    successor and no status is its own successor; storage text round-trips. *)
Theorem invitation_transition_graph (s t : TransferStatus) :
  (s ∈ [Done; Failed; StatusCancelled; Stopped] → can_transition_to s t = false) ∧
  can_transition_to s s = false ∧
  (can_transition_to s t = true → t ∈ [Sharing; Done; Failed; StatusCancelled; Stopped]) ∧
  status_try_from (status_as_str s) = Ok s.
Proof.
  repeat split; [| by destruct s | | apply status_roundtrip].
  - intros Hs. set_unfold in Hs. destruct_or! Hs; subst; done.
  - destruct s, t; simpl; try done; intros _; set_solver.
Qed.
