(* ===== verification/Api.v ===== *)
(** * [api.rs]: the records of the public seam and the configured limits

    The records that cross components ([PendingTargetedOffer], [TargetedTransfer],
    [TargetedAuthorization], …) and [CoreLimits] with its validation. *)

From S2P Require Import Prelude Sql ControlPlane Errors States.
From stdpp Require Import pretty.
#[local] Open Scope Z_scope.

(** ** Versions *)

Record SavedDeviceCapabilities : Type := {
  domain_contract_version : Z;
  relationship_protocol_version : Z;
  targeted_transfer_protocol_version : Z
}.

Definition saved_device_capabilities : SavedDeviceCapabilities := {|
  domain_contract_version := 2;
  relationship_protocol_version := 2;
  targeted_transfer_protocol_version := 3
|}.

(** ** Targeted transfers *)

(** [TargetedTransfer], the public projection of a row. *)
Record TargetedTransfer : Type := {
  tt_id : string;
  tt_role : TargetedTransferRole;
  tt_sender_endpoint_id : string;
  tt_receiver_endpoint_id : string;
  tt_manifest_id : string;
  tt_transfer_name : string;
  tt_file_count : Z;
  tt_total_size : Z;
  tt_verified_bytes : Z;
  tt_state : TargetedTransferState;
  tt_created_at : Z;
  tt_updated_at : Z
}.

(** [PendingTargetedOffer]: the pre-approval summary, without any ticket. *)
Record PendingTargetedOffer : Type := {
  po_transfer_id : string;
  po_sender_endpoint_id : string;
  po_receiver_endpoint_id : string;
  po_manifest_id : string;
  po_content_hash : string;
  po_transfer_name : string;
  po_file_count : Z;
  po_total_size : Z;
  po_protocol_version : Z;
  po_received_at : Z
}.

(** [targeted_transfer::TargetedAuthorization]: the capability that the sender
    issues after approval. *)
Record TargetedAuthorization : Type := {
  au_transfer_id : string;
  au_protocol_transfer_id : Z;
  au_sender_endpoint_id : string;
  au_receiver_endpoint_id : string;
  au_manifest_id : string;
  au_content_hash : string;
  au_file_count : Z;
  au_total_size : Z;
  au_protocol_version : Z;
  au_transfer_name : string;
  au_blob_ticket : string;
  au_auth_secret : string;
  au_mac : string
}.

#[global] Instance PendingTargetedOffer_eq_dec : EqDecision PendingTargetedOffer.
Proof. solve_decision. Defined.
#[global] Instance TargetedAuthorization_eq_dec : EqDecision TargetedAuthorization.
Proof. solve_decision. Defined.

(** ** Limits *)

Record CoreLimits : Type := {
  max_sources : Z;
  max_collection_files : Z;
  max_total_bytes : Z;
  max_path_bytes : Z;
  max_ticket_bytes : Z;
  max_metadata_bytes : Z;
  max_events : Z;
  max_pending_approvals : Z;
  max_pending_offers : Z;
  max_concurrent_transfers : Z;
  event_queue_capacity : Z;
  max_saved_devices : Z;
  identity_cooldown_ms : Z;
  malformed_strike_limit : Z;
  pairing_timeout_ms : Z;
  offer_timeout_ms : Z;
  connection_timeout_ms : Z
}.

Definition default_core_limits : CoreLimits := {|
  max_sources := 128;
  max_collection_files := 10000;
  max_total_bytes := 256 * 1024 * 1024 * 1024;
  max_path_bytes := 4096;
  max_ticket_bytes := 256 * 1024;
  max_metadata_bytes := 16 * 1024;
  max_events := 500;
  max_pending_approvals := 64;
  max_pending_offers := 16;
  max_concurrent_transfers := 8;
  event_queue_capacity := 1024;
  max_saved_devices := 256;
  identity_cooldown_ms := 60000;
  malformed_strike_limit := 5;
  pairing_timeout_ms := 15000;
  offer_timeout_ms := 120000;
  connection_timeout_ms := 30000
|}.

Section Limits.
(** [usize::MAX] of the platform. *)
Variable USIZE_MAX : Z.

(** The array [positive] of [validate]. *)
Definition positive (l : CoreLimits) : list (string * Z) :=
  [ ("max_sources", max_sources l);
    ("max_collection_files", max_collection_files l);
    ("max_total_bytes", max_total_bytes l);
    ("max_path_bytes", max_path_bytes l);
    ("max_ticket_bytes", max_ticket_bytes l);
    ("max_metadata_bytes", max_metadata_bytes l);
    ("max_events", max_events l);
    ("max_pending_approvals", max_pending_approvals l);
    ("max_pending_offers", max_pending_offers l);
    ("max_concurrent_transfers", max_concurrent_transfers l);
    ("event_queue_capacity", event_queue_capacity l);
    ("max_saved_devices", max_saved_devices l);
    ("identity_cooldown_ms", identity_cooldown_ms l);
    ("malformed_strike_limit", malformed_strike_limit l);
    ("pairing_timeout_ms", pairing_timeout_ms l);
    ("offer_timeout_ms", offer_timeout_ms l);
    ("connection_timeout_ms", connection_timeout_ms l) ]%string.

(** The limits that become a [usize]. *)
Definition in_memory (l : CoreLimits) : list (string * Z) :=
  [ ("max_pending_approvals", max_pending_approvals l);
    ("max_pending_offers", max_pending_offers l);
    ("max_concurrent_transfers", max_concurrent_transfers l);
    ("event_queue_capacity", event_queue_capacity l);
    ("max_saved_devices", max_saved_devices l);
    ("malformed_strike_limit", malformed_strike_limit l) ]%string.

(** A loop that checks each entry and leaves with the first error. *)
Fixpoint check_each (check : string → Z → result unit AnyhowError) (l : list (string * Z)) :
    result unit AnyhowError :=
  match l with
  | [] => Ok tt
  | (name, value) :: l' => let? _ := check name value in check_each check l'
  end.

Definition check_positive (name : string) (value : Z) : result unit AnyhowError :=
  if value =? 0
  then Err (anyhow_msg ("core limit " +:+ name +:+ " must be greater than zero"))
  else Ok tt.

(** [usize::try_from(value).with_context(..)?]. *)
Definition check_usize (name : string) (value : Z) : result unit AnyhowError :=
  if value <=? USIZE_MAX then Ok tt
  else Err (with_context ("core limit " +:+ name +:+ " exceeds platform capacity")
              (anyhow_msg "out of range integral type conversion attempted")).

Definition validate (l : CoreLimits) : result unit AnyhowError :=
  let? _ := check_each check_positive (positive l) in
  let? _ := check_each check_usize (in_memory l) in
  if (I64_MAX <? max_total_bytes l) || (I64_MAX <? max_events l)
  then Err (anyhow_msg "SQLite-backed limits must fit in a signed 64-bit integer")
  else Ok tt.

Definition validate_metadata_text (l : CoreLimits) (field : string) (value : option string) :
    result unit AnyhowError :=
  match value with
  | Some v =>
      if max_metadata_bytes l <? str_len v
      then Err (anyhow_msg (field +:+ " is " +:+ pretty (str_len v) +:+ " bytes, limit is "
                            +:+ pretty (max_metadata_bytes l)))
      else Ok tt
  | None => Ok tt
  end.

Lemma check_each_ok check l :
  check_each check l = Ok tt ↔ Forall (λ nv, check nv.1 nv.2 = Ok tt) l.
Proof.
  induction l as [|[name value] l IH]; simpl; [done|].
  destruct (check name value) as [[]|e] eqn:E; simpl.
  - rewrite IH. split; [by constructor | by inversion 1].
  - split; [done|]. inversion 1; simplify_eq/=. congruence.
Qed.

(** The error, if any, is the one of the first offending entry. *)
Lemma check_each_first_error check pre name value post e :
  Forall (λ nv, check nv.1 nv.2 = Ok tt) pre → check name value = Err e →
  check_each check (pre ++ (name, value) :: post) = Err e.
Proof.
  induction 1 as [|[n v] pre Hc _ IH]; intros He; simpl in *; [by rewrite He|].
  rewrite Hc. by apply IH.
Qed.

(** [CoreLimits::validate] accepts exactly the configurations in which every
    limit is positive, the in-memory capacities fit the platform's [usize] and the
    two SQLite-backed limits survive the cast to a signed column unchanged. *)
Theorem validate_accepts_iff (l : CoreLimits) :
  validate l = Ok tt ↔
  Forall (λ nv : string * Z, nv.2 ≠ 0) (positive l) ∧
  Forall (λ nv : string * Z, nv.2 ≤ USIZE_MAX) (in_memory l) ∧
  max_total_bytes l ≤ I64_MAX ∧ max_events l ≤ I64_MAX.
Proof.
  assert (check_each check_positive (positive l) = Ok tt ↔
          Forall (λ nv : string * Z, nv.2 ≠ 0) (positive l)) as Hpos.
  { rewrite check_each_ok. apply Forall_iff. intros [n v]. unfold check_positive. simpl.
    destruct (Z.eqb_spec v 0); split; done. }
  assert (check_each check_usize (in_memory l) = Ok tt ↔
          Forall (λ nv : string * Z, nv.2 ≤ USIZE_MAX) (in_memory l)) as Hmem.
  { rewrite check_each_ok. apply Forall_iff. intros [n v]. unfold check_usize. simpl.
    destruct (Z.leb_spec v USIZE_MAX); split; try done; lia. }
  rewrite <- Hpos, <- Hmem. unfold validate. clear Hpos Hmem.
  generalize (check_each check_positive (positive l)) (check_each check_usize (in_memory l)).
  intros [[]|e1] [[]|e2]; simpl; try (split; [done|]; by intros (? & ? & _)).
  destruct (Z.ltb_spec I64_MAX (max_total_bytes l)), (Z.ltb_spec I64_MAX (max_events l));
    simpl; split; try done; intros (_ & _ & ? & ?); lia.
Qed.
End Limits.

(** The default configuration is valid on a 64-bit platform, and on a 32-bit one. *)
Example default_limits_valid :
  validate U64_MAX default_core_limits = Ok tt ∧ validate U32_MAX default_core_limits = Ok tt.
Proof. split; vm_compute; reflexivity. Qed.
