(* ===== verification/Ticket.v ===== *)
(** * [ticket.rs] and the network profile of [api.rs]: tickets, relays and addresses

    An invitation ticket carries the address of the sender's content and what the transfer
    is. A device has a network profile: which relays it uses. The file models the checks on
    custom relay URLs, the encoding and parsing of tickets, when two profiles can meet, and
    the filter that keeps a peer's relays out of a restricted profile. *)

From stdpp Require Import pretty.
From S2P Require Import Prelude Sql ControlPlane Errors States Api.
#[local] Open Scope Z_scope.

(** ** Parsing IP addresses, as [std::net] does *)

Module Ip.

Definition digit_value (a : ascii) : option Z :=
  let c := Z.of_N (Ascii.N_of_ascii a) in
  if (48 <=? c) && (c <=? 57) then Some (c - 48)
  else if (97 <=? c) && (c <=? 102) then Some (c - 87)
  else if (65 <=? c) && (c <=? 70) then Some (c - 55)
  else None.

(** The digits that [s] starts with, and the rest. *)
Fixpoint read_digits (radix : Z) (s : string) : list Z * string :=
  match s with
  | String a s' =>
      match digit_value a with
      | Some d => if d <? radix then let '(ds, rest) := read_digits radix s' in (d :: ds, rest)
                  else ([], s)
      | None => ([], s)
      end
  | EmptyString => ([], s)
  end.

Definition read_number (radix : Z) (max_digits : nat) (bound : Z) (allow_zero_prefix : bool)
    (s : string) : option (Z * string) :=
  let '(ds, rest) := read_digits radix s in
  let value := fold_left (λ acc d, acc * radix + d) ds 0 in
  match ds with
  | [] => None
  | d :: more =>
      if (Nat.ltb max_digits (length ds)) || (bound <? value) ||
         (negb allow_zero_prefix && (d =? 0) && negb (Nat.eqb (length more) 0))
      then None else Some (value, rest)
  end.

Definition read_char (a : ascii) (s : string) : option string :=
  match s with String b s' => if Ascii.eqb a b then Some s' else None | EmptyString => None end.

(** [read_separator]: the separator comes before every element but the first. *)
Definition read_separator {A} (a : ascii) (index : nat) (read : string → option (A * string))
    (s : string) : option (A * string) :=
  match index with
  | O => read s
  | _ => read_char a s ≫= read
  end.

Fixpoint read_octets (count index : nat) (s : string) : option (list Z * string) :=
  match count with
  | O => Some ([], s)
  | S count =>
      '(octet, s) ← read_separator "."%char index (read_number 10 3 255 false) s;
      '(octets, s) ← read_octets count (S index) s;
      Some (octet :: octets, s)
  end.
Definition read_ipv4_addr (s : string) : option (list Z * string) := read_octets 4 0 s.

(** The groups of half an IPv6 address; [true] when an IPv4 address ended it. *)
Fixpoint read_groups (left index : nat) (s : string) : list Z * bool * string :=
  match left with
  | O => ([], false, s)
  | S left' =>
      match (if Nat.leb 2 left then read_separator ":"%char index read_ipv4_addr s else None) with
      | Some (octets, s) =>
          match octets with
          | [a; b; c; d] => ([a * 256 + b; c * 256 + d], true, s)
          | _ => ([], true, s)
          end
      | None =>
          match read_separator ":"%char index (read_number 16 4 65535 true) s with
          | Some (group, s) => let '(groups, ipv4, s) := read_groups left' (S index) s in
                               (group :: groups, ipv4, s)
          | None => ([], false, s)
          end
      end
  end.

Definition read_ipv6_addr (s : string) : option (list Z * string) :=
  let '(head, head_ipv4, s) := read_groups 8 0 s in
  if Nat.eqb (length head) 8 then Some (head, s)
  else if head_ipv4 : bool then None
  else
    s ← read_char ":"%char s;
    s ← read_char ":"%char s;
    let '(tail, _, s) := read_groups (8 - (length head + 1)) 0 s in
    Some (head ++ replicate (8 - length head - length tail) 0 ++ tail, s).

(** [value.parse::<IpAddr>().is_ok_and(|address| address.is_loopback())]. *)
Definition is_loopback (value : string) : bool :=
  match read_ipv4_addr value with
  | Some (octets, rest) =>
      str_is_empty rest && bool_decide (head octets = Some 127)
  | None =>
      match read_ipv6_addr value with
      | Some (groups, rest) => str_is_empty rest && bool_decide (groups = [0;0;0;0;0;0;0;1])
      | None => false
      end
  end.

Example loopbacks :
  (is_loopback "127.0.0.1" && is_loopback "127.255.3.4" && is_loopback "::1" &&
   is_loopback "0:0:0:0:0:0:0.0.0.1" &&
   negb (is_loopback "127.0.0.1.example.org") && negb (is_loopback "127.0.01.1") &&
   negb (is_loopback "::2") && negb (is_loopback "localhost"))%string = true.
Proof. by vm_compute. Qed.
End Ip.

(** ** The network profile ([api.rs]) *)

Definition MAX_CUSTOM_RELAYS : Z := 8.
Definition MAX_RELAY_URL_BYTES : Z := 2048.

Inductive CoreRelayMode : Type := Automatic | StrictCustom | CustomWithDirectFallback | LocalOnly.
#[global] Instance CoreRelayMode_eq_dec : EqDecision CoreRelayMode.
Proof. solve_decision. Defined.

Record CoreNetworkConfig : Type := { nc_mode : CoreRelayMode; nc_relay_urls : list string }.

Definition default_core_network_config : CoreNetworkConfig :=
  {| nc_mode := Automatic; nc_relay_urls := [] |}.

(** A parsed URL, by its normal form: URLs are compared and ordered by it. *)
Abbreviation RelayUrl := string.

(** The crates [url] and [iroh]: the parser, and the parts of a parsed URL. *)
Class Urls : Type := {
  parse_relay_url : string → result RelayUrl AnyhowError;
  url_scheme : RelayUrl → string;
  url_host_str : RelayUrl → option string;
  url_port : RelayUrl → option Z;
  url_username : RelayUrl → string;
  url_password : RelayUrl → option string;
  url_query : RelayUrl → option string;
  url_fragment : RelayUrl → option string;
  url_path : RelayUrl → string
}.

(** [character.is_control()] at the start of [s]: the C0 and C1 controls and DEL. *)
Definition starts_with_control (s : string) : bool :=
  match map (λ a, Z.of_N (Ascii.N_of_ascii a)) (String.list_ascii_of_string s) with
  | b0 :: rest =>
      (b0 <=? 31) || (b0 =? 127) ||
      match rest with b1 :: _ => (b0 =? 0xC2) && (0x80 <=? b1) && (b1 <=? 0x9F) | [] => false end
  | [] => false
  end.

(** [value.chars().any(|c| c.is_whitespace() || c.is_control())]. A continuation byte starts
    neither, so every byte offset may be tried. *)
Fixpoint has_blank_or_control (s : string) : bool :=
  negb (Nat.eqb (ws_len s) 0) || starts_with_control s ||
  match s with String _ s' => has_blank_or_control s' | EmptyString => false end.

Definition ascii_lower (a : ascii) : ascii :=
  let n := Ascii.N_of_ascii a in
  if (65 <=? Z.of_N n) && (Z.of_N n <=? 90) then Ascii.ascii_of_N (n + 32)%N else a.
Fixpoint to_ascii_lowercase (s : string) : string :=
  match s with String a s' => String (ascii_lower a) (to_ascii_lowercase s') | EmptyString => s end.
Definition eq_ignore_ascii_case (x y : string) : bool :=
  str_eqb (to_ascii_lowercase x) (to_ascii_lowercase y).

(** [trim_start_matches(c)] and [trim_end_matches(c)]. *)
Fixpoint trim_start_matches (c : ascii) (s : string) : string :=
  match s with
  | String a s' => if Ascii.eqb a c then trim_start_matches c s' else s
  | EmptyString => s
  end.
Fixpoint trim_end_matches (c : ascii) (s : string) : string :=
  match s with
  | String a s' =>
      let t := trim_end_matches c s' in
      if Ascii.eqb a c && str_is_empty t then EmptyString else String a t
  | EmptyString => s
  end.

Section Profile.
Context `{Urls}.

Definition bail {A} (m : string) : result A AnyhowError := Err (anyhow_msg m).
Definition ensure (b : bool) (m : string) : result unit AnyhowError := if b then Ok tt else bail m.

Definition loopback_http (url : RelayUrl) : bool :=
  str_eqb (url_scheme url) "http" &&
  match url_host_str url with
  | Some host => eq_ignore_ascii_case host "localhost" ||
                 Ip.is_loopback (trim_end_matches "]" (trim_start_matches "[" host))
  | None => false
  end.

(** The checks of one URL, up to the test for duplicates. *)
Definition validate_relay_url (index : Z) (value : string) : result RelayUrl AnyhowError :=
  let? _ := ensure (negb (str_is_empty value || has_blank_or_control value))
    "relay URL must be non-empty and contain no whitespace or control characters" in
  let? _ := ensure (str_len value <=? MAX_RELAY_URL_BYTES)
    ("relay URL is " +:+ pretty (str_len value) +:+ " bytes, limit is " +:+ pretty MAX_RELAY_URL_BYTES) in
  let? url := result_map_err (with_context ("invalid relay URL at position " +:+ pretty (index + 1)))
    (parse_relay_url value) in
  let? _ := ensure (str_eqb (url_scheme url) "https" || loopback_http url)
    "relay URL must use HTTPS; HTTP is allowed only for loopback development relays" in
  let? _ := ensure (bool_decide (url_host_str url ≠ None)) "relay URL must include a host" in
  let? _ := ensure (bool_decide (url_port url ≠ Some 0)) "relay URL port must be between 1 and 65535" in
  let? _ := ensure (negb (str_contains "@" value || negb (str_is_empty (url_username url)) ||
                          bool_decide (url_password url ≠ None)))
    "relay URL must not contain credentials" in
  let? _ := ensure (bool_decide (url_query url = None) && bool_decide (url_fragment url = None))
    "relay URL must not contain a query or fragment" in
  let? _ := ensure (str_eqb (url_path url) "/") "relay URL must not contain a path" in
  Ok url.

Fixpoint validate_urls (index : Z) (seen : gset RelayUrl) (values : list string) :
    result (list RelayUrl) AnyhowError :=
  match values with
  | [] => Ok []
  | value :: values =>
      let? url := validate_relay_url index value in
      let? _ := ensure (negb (bool_decide (url ∈ seen))) "custom relay URLs must not contain duplicates" in
      let? validated := validate_urls (index + 1) ({[url]} ∪ seen) values in
      Ok (url :: validated)
  end.

Definition validated_relay_urls (config : CoreNetworkConfig) : result (list RelayUrl) AnyhowError :=
  let empty := match nc_relay_urls config with [] => true | _ => false end in
  match nc_mode config with
  | Automatic => let? _ := ensure empty "automatic relay mode must not include custom relay URLs" in Ok []
  | LocalOnly => let? _ := ensure empty "local-only relay mode must not include custom relay URLs" in Ok []
  | StrictCustom | CustomWithDirectFallback =>
      let? _ := ensure (negb empty) "custom relay mode requires at least one relay URL" in
      let? _ := ensure (Z.of_nat (length (nc_relay_urls config)) <=? MAX_CUSTOM_RELAYS)
        ("custom relay mode supports at most " +:+ pretty MAX_CUSTOM_RELAYS +:+ " relay URLs") in
      validate_urls 0 ∅ (nc_relay_urls config)
  end.
End Profile.

(** ** Tickets *)

Definition VNIDROP_TICKET_PREFIX : string := "vnd1:".
Definition VNIDROP_TICKET_VERSION : Z := 1.
Definition PERSISTED_SENDER_ADDRESS_PREFIX : string := "vndaddr1:".

Record TransferMetadata : Type := {
  md_version : Z;
  md_transfer_id : Z;
  md_transfer_name : string;
  md_sender_name : option string;
  md_created_at : Z;
  md_content_hash : string;
  md_file_count : Z;
  md_total_size : Z
}.

(** [util.rs]. *)
Definition non_empty (value : string) : option string :=
  let trimmed := trim value in if str_is_empty trimmed then None else Some trimmed.

Definition metadata_new `{Env} {S F} (transfer_id : Z) (transfer_name : string)
    (sender_name : option string) (content_hash : string) (file_count total_size : Z) :
    M S F TransferMetadata :=
  now ← now_ms;
  ret {| md_version := 1; md_transfer_id := transfer_id; md_transfer_name := transfer_name;
         md_sender_name := sender_name ≫= non_empty; md_created_at := now;
         md_content_hash := content_hash; md_file_count := file_count; md_total_size := total_size |}.

Record VnidropTicket : Type := {
  vt_version : Z;
  vt_blob_ticket : string;
  vt_relay_urls : list string;
  vt_metadata : TransferMetadata
}.

(** The crate [iroh]: the address of an endpoint, which holds its identity and the relays and
    IP addresses where it may be reached. *)
Class Addressing : Type := {
  EndpointAddr : Type;
  addr_new : string → EndpointAddr;
  addr_id : EndpointAddr → string;
  with_relay_url : EndpointAddr → RelayUrl → EndpointAddr;
  with_ip_addr : EndpointAddr → string → EndpointAddr;
  relay_urls : EndpointAddr → list RelayUrl;
  ip_addrs : EndpointAddr → list string;
  addr_is_empty : EndpointAddr → bool
}.

Class AddressingLaws `{Addressing} : Prop := {
  addr_new_id id : addr_id (addr_new id) = id;
  addr_new_relays id : relay_urls (addr_new id) = [];
  addr_new_ips id : ip_addrs (addr_new id) = [];
  with_relay_id a u : addr_id (with_relay_url a u) = addr_id a;
  with_relay_relays a u v : v ∈ relay_urls (with_relay_url a u) ↔ v = u ∨ v ∈ relay_urls a;
  with_relay_ips a u : ip_addrs (with_relay_url a u) = ip_addrs a;
  with_ip_id a u : addr_id (with_ip_addr a u) = addr_id a;
  with_ip_relays a u : relay_urls (with_ip_addr a u) = relay_urls a;
  with_ip_ips a u v : v ∈ ip_addrs (with_ip_addr a u) ↔ v = u ∨ v ∈ ip_addrs a;
  addr_is_empty_spec a : addr_is_empty a = true ↔ relay_urls a = [] ∧ ip_addrs a = []
}.

(** The crate [data_encoding]: unpadded URL-safe base64, whose alphabet has no white space. *)
Class Base64 : Type := {
  base64url_encode : string → string;
  base64url_decode : string → option string
}.

(** The crates [serde_json] and [iroh_blobs]: the JSON text of a ticket and of an address, and
    the ticket of the blob store. *)
Class TicketCodec `{Addressing} : Type := {
  ticket_to_json : VnidropTicket → result string AnyhowError;
  ticket_of_json : string → result VnidropTicket AnyhowError;
  address_to_json : EndpointAddr → result string AnyhowError;
  address_of_json : string → result EndpointAddr AnyhowError;
  base64_error : string → AnyhowError;
  BlobTicket : Type;
  blob_ticket_from_str : string → result BlobTicket AnyhowError;
  blob_ticket_text : BlobTicket → string;
  blob_ticket_hash : BlobTicket → string;
  blob_ticket_addr : BlobTicket → EndpointAddr;
  blob_ticket_with_addr : EndpointAddr → BlobTicket → BlobTicket
}.

Record ParsedTransferTicket `{TicketCodec} : Type := {
  pt_blob_ticket : BlobTicket;
  pt_metadata : TransferMetadata;
  pt_advertised_custom_relay_urls : list RelayUrl
}.

(** [value.chars().filter(|char| !char.is_whitespace()).collect()]; [skip] counts the bytes
    left of the white-space character being dropped. *)
Fixpoint strip_whitespace (skip : nat) (s : string) : string :=
  match s with
  | EmptyString => EmptyString
  | String a s' =>
      match skip with
      | S skip => strip_whitespace skip s'
      | O => match ws_len s with
             | O => String a (strip_whitespace 0 s')
             | S skip => strip_whitespace skip s'
             end
      end
  end.
Definition normalize_ticket_input (value : string) : string := strip_whitespace 0 value.

Section Tickets.
Context `{Urls} `{Base64} `{TicketCodec}.

Definition new_with_relay_urls (blob_ticket : BlobTicket) (metadata : TransferMetadata)
    (relay_urls : list RelayUrl) : VnidropTicket :=
  {| vt_version := VNIDROP_TICKET_VERSION; vt_blob_ticket := blob_ticket_text blob_ticket;
     vt_relay_urls := relay_urls; vt_metadata := metadata |}.

Definition encode_ticket (ticket : VnidropTicket) : result string AnyhowError :=
  let? bytes := ticket_to_json ticket in
  Ok (VNIDROP_TICKET_PREFIX +:+ base64url_encode bytes).

(** [.decode(..).context(what)]. *)
Definition decode_base64 (what encoded : string) : result string AnyhowError :=
  match base64url_decode encoded with
  | Some bytes => Ok bytes
  | None => Err (with_context what (base64_error encoded))
  end.

Definition decode_ticket (value : string) : result VnidropTicket AnyhowError :=
  match strip_prefix VNIDROP_TICKET_PREFIX (normalize_ticket_input value) with
  | None => Err (anyhow_msg "not a VniDrop ticket")
  | Some encoded =>
      let? bytes := decode_base64 "invalid VniDrop ticket encoding" encoded in
      result_map_err (with_context "invalid VniDrop ticket payload") (ticket_of_json bytes)
  end.

Definition encode_persisted_sender_address (addr : EndpointAddr) : result string AnyhowError :=
  let? bytes := address_to_json addr in
  Ok (PERSISTED_SENDER_ADDRESS_PREFIX +:+ base64url_encode bytes).

Definition parse_persisted_sender_address (value : string) : result EndpointAddr AnyhowError :=
  match strip_prefix PERSISTED_SENDER_ADDRESS_PREFIX value with
  | Some encoded =>
      let? bytes := decode_base64 "invalid persisted sender address encoding" encoded in
      result_map_err (with_context "invalid persisted sender address payload") (address_of_json bytes)
  | None =>
      let? legacy := result_map_err (with_context "invalid legacy sender BlobTicket")
        (blob_ticket_from_str value) in
      Ok (blob_ticket_addr legacy)
  end.

Definition advertised_urls (urls : list string) : result (list RelayUrl) AnyhowError :=
  match urls with
  | [] => Ok []
  | _ => result_map_err (with_context "invalid relay URLs inside VniDrop ticket")
           (validated_relay_urls {| nc_mode := StrictCustom; nc_relay_urls := urls |})
  end.

Definition parse_transfer_ticket_with_limits (value : string) (limits : CoreLimits) :
    result ParsedTransferTicket AnyhowError :=
  let? _ := ensure (str_len value <=? max_ticket_bytes limits)
    ("ticket is " +:+ pretty (str_len value) +:+ " bytes, limit is " +:+ pretty (max_ticket_bytes limits)) in
  let normalized := normalize_ticket_input value in
  let? _ := ensure (starts_with VNIDROP_TICKET_PREFIX normalized)
    "not a VniDrop ticket; expected a vnd1: invitation" in
  let? ticket := decode_ticket normalized in
  let? _ := ensure (vt_version ticket =? VNIDROP_TICKET_VERSION)
    ("unsupported VniDrop ticket version " +:+ pretty (vt_version ticket)) in
  let metadata := vt_metadata ticket in
  let? _ := ensure (md_version metadata =? VNIDROP_TICKET_VERSION)
    ("unsupported VniDrop metadata version " +:+ pretty (md_version metadata)) in
  let? _ := ensure (negb (md_transfer_id metadata =? 0))
    "VniDrop ticket metadata is missing a valid transfer id" in
  let? _ := ensure (negb (str_is_empty (trim (md_transfer_name metadata))))
    "VniDrop ticket metadata is missing a transfer name" in
  let? _ := validate_metadata_text limits "transfer name" (Some (md_transfer_name metadata)) in
  let? _ := validate_metadata_text limits "sender name" (md_sender_name metadata) in
  let? blob_ticket := result_map_err (with_context "invalid BlobTicket inside VniDrop ticket")
    (blob_ticket_from_str (vt_blob_ticket ticket)) in
  let? _ := ensure (str_eqb (md_content_hash metadata) (blob_ticket_hash blob_ticket))
    "VniDrop ticket metadata hash does not match BlobTicket hash" in
  let? advertised := advertised_urls (vt_relay_urls ticket) in
  Ok {| pt_blob_ticket :=
          match advertised with
          | [] => blob_ticket
          | _ => blob_ticket_with_addr (fold_left with_relay_url advertised (blob_ticket_addr blob_ticket))
                   blob_ticket
          end;
        pt_metadata := metadata;
        pt_advertised_custom_relay_urls := advertised |}.

Definition no_urls {A} (l : list A) : bool := match l with [] => true | _ => false end.

(** Two sequences of URLs, collected into [BTreeSet]s, are equal. *)
Definition same_urls (xs ys : list RelayUrl) : bool :=
  bool_decide (list_to_set (C:=gset string) xs = list_to_set ys).

Definition ticket_matches_relay_profile (value : string) (limits : CoreLimits)
    (relay_mode : CoreRelayMode) (custom_relay_urls : list RelayUrl) : result bool AnyhowError :=
  let? parsed := parse_transfer_ticket_with_limits value limits in
  let advertised := pt_advertised_custom_relay_urls parsed in
  Ok (match relay_mode with
      | Automatic => no_urls advertised
      | StrictCustom | CustomWithDirectFallback => same_urls advertised custom_relay_urls
      | LocalOnly => no_urls advertised &&
                     no_urls (relay_urls (blob_ticket_addr (pt_blob_ticket parsed)))
      end).
End Tickets.

Definition custom_relays (mode : CoreRelayMode) : bool :=
  match mode with StrictCustom | CustomWithDirectFallback => true | _ => false end.

Definition relay_profiles_compatible (local_mode : CoreRelayMode) (local_urls : list RelayUrl)
    (remote_mode : CoreRelayMode) (remote_urls : list RelayUrl) : bool :=
  match local_mode, remote_mode with
  | Automatic, Automatic => no_urls local_urls && no_urls remote_urls
  | LocalOnly, LocalOnly | LocalOnly, Automatic | Automatic, LocalOnly =>
      no_urls local_urls && no_urls remote_urls
  | (StrictCustom | CustomWithDirectFallback), (StrictCustom | CustomWithDirectFallback) =>
      negb (bool_decide (list_to_set (C:=gset string) local_urls = ∅)) &&
      same_urls local_urls remote_urls
  | _, _ => false
  end.

Section Filter.
Context `{Addressing}.

Definition filter_peer_addr_for_relay_mode (addr : EndpointAddr) (relay_mode : CoreRelayMode)
    (custom_relay_urls : list RelayUrl) : result EndpointAddr AnyhowError :=
  let direct := fold_left with_ip_addr (ip_addrs addr) (addr_new (addr_id addr)) in
  match relay_mode with
  | Automatic => Ok addr
  | StrictCustom | CustomWithDirectFallback =>
      let filtered := fold_left with_relay_url
        (List.filter (λ relay_url, str_in relay_url custom_relay_urls) (relay_urls addr)) direct in
      if addr_is_empty filtered
      then bail "invitation has no direct address or relay allowed by strict custom relay mode"
      else Ok filtered
  | LocalOnly =>
      if addr_is_empty direct then bail "invitation has no direct address allowed by local-only mode"
      else Ok direct
  end.
End Filter.

(** ** Properties *)

Definition is_base64url (a : ascii) : bool :=
  let n := Z.of_N (Ascii.N_of_ascii a) in
  ((65 <=? n) && (n <=? 90)) || ((97 <=? n) && (n <=? 122)) || ((48 <=? n) && (n <=? 57)) ||
  (n =? 45) || (n =? 95).

Class Base64Laws `{Base64} : Prop := {
  base64url_roundtrip bytes : base64url_decode (base64url_encode bytes) = Some bytes;
  base64url_alphabet bytes :
    Forall (λ a, is_base64url a = true) (String.list_ascii_of_string (base64url_encode bytes))
}.

(** The text of a [BlobTicket] keeps at least the hash and the endpoint. *)
Class TicketCodecLaws `{TicketCodec} : Prop := {
  ticket_json_roundtrip ticket text : ticket_to_json ticket = Ok text → ticket_of_json text = Ok ticket;
  blob_ticket_roundtrip b : ∃ b', blob_ticket_from_str (blob_ticket_text b) = Ok b' ∧
    blob_ticket_hash b' = blob_ticket_hash b ∧
    addr_id (blob_ticket_addr b') = addr_id (blob_ticket_addr b);
  with_addr_hash a b : blob_ticket_hash (blob_ticket_with_addr a b) = blob_ticket_hash b;
  with_addr_addr a b : blob_ticket_addr (blob_ticket_with_addr a b) = a
}.

(** *** Relays *)

Lemma ensure_Ok b m : ensure b m = Ok tt ↔ b = true.
Proof. by destruct b. Qed.

Lemma ensure_bind {A} b m (k : result A AnyhowError) x :
  (let? _ := ensure b m in k) = Ok x ↔ b = true ∧ k = Ok x.
Proof. unfold ensure, result_bind, bail. destruct b; naive_solver. Qed.

Section RelayProperties.
Context `{Urls}.

(** What a relay URL must be. *)
Record relay_url_ok (url : RelayUrl) : Prop := {
  ok_secure : url_scheme url = "https"%string ∨ loopback_http url = true;
  ok_host : url_host_str url ≠ None;
  ok_port : url_port url ≠ Some 0;
  ok_username : url_username url = EmptyString;
  ok_password : url_password url = None;
  ok_query : url_query url = None;
  ok_fragment : url_fragment url = None;
  ok_path : url_path url = "/"%string
}.

Lemma str_is_empty_true s : str_is_empty s = true ↔ s = EmptyString.
Proof. by destruct s. Qed.

Lemma validate_relay_url_Ok index value url :
  validate_relay_url index value = Ok url →
  parse_relay_url value = Ok url ∧ relay_url_ok url ∧ str_len value ≤ MAX_RELAY_URL_BYTES.
Proof.
  unfold validate_relay_url. rewrite !ensure_bind. intros (_ & Hlen & E).
  destruct (parse_relay_url value) as [u|e]; [|done]. cbn [result_map_err result_bind] in E.
  rewrite !ensure_bind in E. destruct E as (H1 & H2 & H3 & H4 & H5 & H6 & [= <-]).
  split; [done|]. split; [|by apply Z.leb_le].
  apply negb_true_iff, orb_false_iff in H4 as [[_ Hu]%orb_false_iff Hp].
  apply negb_false_iff, str_is_empty_true in Hu. apply bool_decide_eq_false in Hp.
  assert (url_password u = None) as Hpw by (by destruct (url_password u); [destruct Hp|]).
  apply andb_true_iff in H5 as [Hq Hf]. apply orb_true_iff in H1 as [Es|Es]; bool_simpl; split; auto.
Qed.

Lemma validate_urls_Ok values index seen urls :
  validate_urls index seen values = Ok urls →
  Forall2 (λ value url, parse_relay_url value = Ok url ∧ relay_url_ok url) values urls ∧
  NoDup urls ∧ ∀ url, url ∈ urls → url ∉ seen.
Proof.
  revert index seen urls. induction values as [|value values IH]; intros index seen urls E; cbn [validate_urls] in E.
  { injection E as <-. split; [done|]. split; [constructor|]. set_solver. }
  destruct (validate_relay_url index value) as [url|] eqn:Ev; [|done]. cbn [result_bind] in E.
  rewrite ensure_bind in E. destruct E as [Hs E].
  destruct (validate_urls _ _ values) as [rest|] eqn:Er; [|done]. injection E as <-.
  apply validate_relay_url_Ok in Ev as (Hp & Hok & _). apply IH in Er as (H2 & Hnd & Hseen).
  bool_simpl. split; [by constructor|]. split; [constructor; [|done]|].
  - intros Hin. apply Hseen in Hin. set_solver.
  - intros u [->|Hin]%elem_of_cons; [done|]. apply Hseen in Hin. set_solver.
Qed.

(** A network profile that passes the checks is safe to use. Without a custom
    mode it names no relay at all; with one it names between one and eight distinct relays,
    in the order given, each reached over HTTPS or on the loopback interface, with a host and
    without credentials, path, query or fragment. *)
Theorem validated_relay_urls_sound config urls :
  validated_relay_urls config = Ok urls →
  (custom_relays (nc_mode config) = false → nc_relay_urls config = [] ∧ urls = []) ∧
  (custom_relays (nc_mode config) = true →
    (1 ≤ length urls ≤ 8)%nat ∧ NoDup urls ∧
    Forall2 (λ value url, parse_relay_url value = Ok url ∧ relay_url_ok url) (nc_relay_urls config) urls).
Proof.
  assert (∀ b m, (let? _ := ensure b m in Ok []) = Ok (E:=AnyhowError) urls → b = true ∧ urls = []) as Hnone.
  { intros b m E. apply ensure_bind in E as [-> [= <-]]. done. }
  assert ((let? _ := ensure (negb match nc_relay_urls config with [] => true | _ => false end)
             "custom relay mode requires at least one relay URL" in
           let? _ := ensure (Z.of_nat (length (nc_relay_urls config)) <=? MAX_CUSTOM_RELAYS)
             ("custom relay mode supports at most " +:+ pretty MAX_CUSTOM_RELAYS +:+ " relay URLs") in
           validate_urls 0 ∅ (nc_relay_urls config)) = Ok urls →
          (1 ≤ length urls ≤ 8)%nat ∧ NoDup urls ∧
          Forall2 (λ value url, parse_relay_url value = Ok url ∧ relay_url_ok url) (nc_relay_urls config) urls)
    as Hcustom.
  { rewrite !ensure_bind. intros (Hne & Hmax & E). apply validate_urls_Ok in E as (H2 & Hnd & _).
    split; [|done]. rewrite <- (Forall2_length _ _ _ H2). unfold MAX_CUSTOM_RELAYS in Hmax.
    destruct (nc_relay_urls config); [done|]. bool_simpl. simpl in *. lia. }
  unfold validated_relay_urls. destruct config as [mode values]. destruct mode; simpl in *; intros E;
    (split; intros Hm; try discriminate Hm); try (by apply Hcustom);
    apply Hnone in E as [Hv ->]; by destruct values.
Qed.
End RelayProperties.

(** C37: two profiles can meet exactly if neither uses custom relays and neither names
    any, or both do and name the same non-empty set. The order and repetition of relays do
    not matter, and both sides come to the same answer. *)
Theorem relay_profiles_compatible_spec local_mode local_urls remote_mode remote_urls :
  (relay_profiles_compatible local_mode local_urls remote_mode remote_urls = true ↔
    custom_relays local_mode = custom_relays remote_mode ∧
    (∀ url, url ∈ local_urls ↔ url ∈ remote_urls) ∧
    (custom_relays local_mode = true ↔ local_urls ≠ [])) ∧
  relay_profiles_compatible local_mode local_urls remote_mode remote_urls =
  relay_profiles_compatible remote_mode remote_urls local_mode local_urls.
Proof.
  assert (∀ lm lu rm ru, relay_profiles_compatible lm lu rm ru = true ↔
    custom_relays lm = custom_relays rm ∧ (∀ url, url ∈ lu ↔ url ∈ ru) ∧
    (custom_relays lm = true ↔ lu ≠ [])) as Hspec.
  { intros lm lu rm ru.
    assert (no_urls lu && no_urls ru = true ↔ (∀ url, url ∈ lu ↔ url ∈ ru) ∧ lu = []) as Hnone.
    { destruct lu as [|u lu], ru as [|v ru]; simpl; split; try done.
      - intros [Hu _]. specialize (Hu v). set_solver.
      - by intros [_ ?]. - by intros [_ ?]. }
    assert (negb (bool_decide (list_to_set (C:=gset string) lu = ∅)) && same_urls lu ru = true ↔
            (∀ url, url ∈ lu ↔ url ∈ ru) ∧ lu ≠ []) as Hsame.
    { unfold same_urls. rewrite andb_true_iff, negb_true_iff, bool_decide_eq_true, bool_decide_eq_false.
      assert (list_to_set (C:=gset string) lu = ∅ ↔ lu = []) as ->.
      { destruct lu as [|u lu]; [done|]. split; [|done]. intros E. set_solver. }
      rewrite set_eq. setoid_rewrite elem_of_list_to_set. tauto. }
    destruct lm, rm; cbn [relay_profiles_compatible custom_relays]; rewrite ?Hnone, ?Hsame;
      clear; generalize (∀ url, url ∈ lu ↔ url ∈ ru); intros P; destruct lu; intuition congruence. }
  split; [apply Hspec|]. apply eq_true_iff_eq. rewrite !Hspec. split; intros (E & Hu & Hc).
  - split; [done|]. split; [by symmetry|]. rewrite <- E, Hc. destruct local_urls as [|u l], remote_urls as [|v r]; try done.
    + specialize (Hu v). set_solver.
    + specialize (Hu u). set_solver.
  - split; [done|]. split; [by symmetry|]. rewrite <- E, Hc. destruct local_urls as [|u l], remote_urls as [|v r]; try done.
    + specialize (Hu v). set_solver.
    + specialize (Hu u). set_solver.
Qed.

(** *** Tickets *)

Section TicketProperties.
Context `{Urls} `{!Base64} `{!Base64Laws} `{Addressing} `{!AddressingLaws} `{!TicketCodec} `{!TicketCodecLaws}.

Lemma ascii_no_space a s :
  33 ≤ Z.of_N (Ascii.N_of_ascii a) < 128 → ws_len (String a s) = 0%nat.
Proof.
  unfold ws_len. cbn [map String.list_ascii_of_string].
  generalize (Z.of_N (Ascii.N_of_ascii a)). intros n Hn.
  assert ((9 <=? n) && (n <=? 13) || (n =? 32) = false) as -> by lia.
  assert ((n =? 0xC2) = false) as -> by lia. assert ((n =? 0xE1) = false) as -> by lia.
  assert ((n =? 0xE2) = false) as -> by lia. assert ((n =? 0xE3) = false) as -> by lia.
  simpl. by repeat (case_match; try done).
Qed.

Lemma normalize_plain s :
  Forall (λ a, 33 ≤ Z.of_N (Ascii.N_of_ascii a) < 128) (String.list_ascii_of_string s) →
  normalize_ticket_input s = s.
Proof.
  induction s as [|a s IH]; [done|]. cbn [String.list_ascii_of_string]. rewrite Forall_cons. intros [Ha Hs].
  unfold normalize_ticket_input in *. cbn [strip_whitespace]. rewrite ascii_no_space by done. by rewrite IH.
Qed.

(** The code points with the property White_Space of Unicode, and the UTF-8 encoding of a
    character of the basic plane. *)
Definition white_space : list Z :=
  [0x9; 0xA; 0xB; 0xC; 0xD; 0x20; 0x85; 0xA0; 0x1680; 0x2000; 0x2001; 0x2002; 0x2003; 0x2004; 0x2005; 0x2006; 0x2007;
   0x2008; 0x2009; 0x200A; 0x2028; 0x2029; 0x202F; 0x205F; 0x3000].
Definition utf8 (c : Z) : string :=
  let byte z := Ascii.ascii_of_N (Z.to_N z) in
  String.string_of_list_ascii
    (if c <? 0x80 then [byte c]
     else if c <? 0x800 then [byte (0xC0 + c / 0x40); byte (0x80 + c mod 0x40)]
     else [byte (0xE0 + c / 0x1000); byte (0x80 + c / 0x40 mod 0x40); byte (0x80 + c mod 0x40)]).

(** [value] is [text] with white space put in anywhere. *)
Inductive spaced : string → string → Prop :=
| spaced_end : spaced EmptyString EmptyString
| spaced_char a text value : spaced text value → spaced (String a text) (String a value)
| spaced_space c text value : c ∈ white_space → spaced text value → spaced text (utf8 c +:+ value).

Lemma normalize_space c value : c ∈ white_space → normalize_ticket_input (utf8 c +:+ value) = normalize_ticket_input value.
Proof.
  unfold white_space. rewrite !elem_of_cons, elem_of_nil. intros Hc.
  repeat (destruct Hc as [->|Hc]; [reflexivity|]). done.
Qed.

Lemma normalize_spaced text value :
  Forall (λ a, 33 ≤ Z.of_N (Ascii.N_of_ascii a) < 128) (String.list_ascii_of_string text) →
  spaced text value → normalize_ticket_input value = text.
Proof.
  intros Ht Hs. induction Hs as [|a text value _ IH|c text value Hc _ IH]; [done| |].
  - cbn [String.list_ascii_of_string] in Ht. apply Forall_cons in Ht as [Ha Ht].
    unfold normalize_ticket_input in *. cbn [strip_whitespace]. rewrite ascii_no_space by done. by rewrite IH.
  - rewrite normalize_space by done. by apply IH.
Qed.

Lemma encoded_plain bytes :
  Forall (λ a, 33 ≤ Z.of_N (Ascii.N_of_ascii a) < 128)
    (String.list_ascii_of_string (VNIDROP_TICKET_PREFIX +:+ base64url_encode bytes)).
Proof.
  do 5 (constructor; [split; vm_compute; congruence|]).
  eapply Forall_impl; [apply base64url_alphabet|]. intros a. unfold is_base64url. simpl. lia.
Qed.

Lemma normalize_encoded bytes :
  normalize_ticket_input (VNIDROP_TICKET_PREFIX +:+ base64url_encode bytes) =
  VNIDROP_TICKET_PREFIX +:+ base64url_encode bytes.
Proof. apply normalize_plain, encoded_plain. Qed.

Lemma ticket_plain ticket text :
  encode_ticket ticket = Ok text → Forall (λ a, 33 ≤ Z.of_N (Ascii.N_of_ascii a) < 128) (String.list_ascii_of_string text).
Proof. unfold encode_ticket. destruct (ticket_to_json ticket) as [bytes|]; [|done]. intros [= <-]. apply encoded_plain. Qed.

Lemma decode_encoded_ticket ticket text :
  encode_ticket ticket = Ok text →
  normalize_ticket_input text = text ∧ starts_with VNIDROP_TICKET_PREFIX text = true ∧
  decode_ticket text = Ok ticket.
Proof.
  unfold encode_ticket. destruct (ticket_to_json ticket) as [bytes|] eqn:Ej; [|done]. intros [= <-].
  split; [apply normalize_encoded|]. split; [unfold starts_with; by rewrite strip_prefix_app|].
  unfold decode_ticket. rewrite normalize_encoded, strip_prefix_app. unfold decode_base64.
  rewrite base64url_roundtrip. cbn [result_bind]. by rewrite (ticket_json_roundtrip ticket bytes).
Qed.

Lemma with_relay_urls_addr urls a :
  addr_id (fold_left with_relay_url urls a) = addr_id a ∧
  ip_addrs (fold_left with_relay_url urls a) = ip_addrs a ∧
  ∀ u, u ∈ relay_urls (fold_left with_relay_url urls a) ↔ u ∈ urls ∨ u ∈ relay_urls a.
Proof.
  revert a. induction urls as [|v urls IH]; intros a; simpl.
  - split; [done|]. split; [done|]. set_solver.
  - destruct (IH (with_relay_url a v)) as (-> & -> & Hu). rewrite with_relay_id, with_relay_ips.
    split; [done|]. split; [done|]. intros u. rewrite Hu, with_relay_relays. set_solver.
Qed.

Lemma with_ip_addrs_addr ips a :
  addr_id (fold_left with_ip_addr ips a) = addr_id a ∧
  relay_urls (fold_left with_ip_addr ips a) = relay_urls a ∧
  ∀ u, u ∈ ip_addrs (fold_left with_ip_addr ips a) ↔ u ∈ ips ∨ u ∈ ip_addrs a.
Proof.
  revert a. induction ips as [|v ips IH]; intros a; simpl.
  - split; [done|]. split; [done|]. set_solver.
  - destruct (IH (with_ip_addr a v)) as (-> & -> & Hu). rewrite with_ip_id, with_ip_relays.
    split; [done|]. split; [done|]. intros u. rewrite Hu, with_ip_ips. set_solver.
Qed.

(** The metadata that a ticket may carry, for content with this hash. *)
Record metadata_ok (limits : CoreLimits) (content_hash : string) (metadata : TransferMetadata) : Prop := {
  mo_version : md_version metadata = VNIDROP_TICKET_VERSION;
  mo_transfer_id : md_transfer_id metadata ≠ 0;
  mo_transfer_name : trim (md_transfer_name metadata) ≠ EmptyString;
  mo_name_length : str_len (md_transfer_name metadata) ≤ max_metadata_bytes limits;
  mo_sender_length name : md_sender_name metadata = Some name → str_len name ≤ max_metadata_bytes limits;
  mo_content_hash : md_content_hash metadata = content_hash
}.

(** C36: a ticket survives being copied around. Whatever white space of Unicode a chat or a text
    view has put anywhere into it, a ticket within the length limit is parsed back to the sender's metadata,
    the relays it advertised and the content it names, and the address to dial has every
    advertised relay. *)
Theorem ticket_roundtrip blob_ticket metadata urls text value limits
  (Htext : encode_ticket (new_with_relay_urls blob_ticket metadata urls) = Ok text)
  (Hvalue : spaced text value)
  (Hlen : str_len value ≤ max_ticket_bytes limits)
  (Hmeta : metadata_ok limits (blob_ticket_hash blob_ticket) metadata)
  (Hurls : advertised_urls urls = Ok urls) :
  ∃ parsed, parse_transfer_ticket_with_limits value limits = Ok parsed ∧
    pt_metadata parsed = metadata ∧ pt_advertised_custom_relay_urls parsed = urls ∧
    blob_ticket_hash (pt_blob_ticket parsed) = blob_ticket_hash blob_ticket ∧
    addr_id (blob_ticket_addr (pt_blob_ticket parsed)) = addr_id (blob_ticket_addr blob_ticket) ∧
    ∀ u, u ∈ urls → u ∈ relay_urls (blob_ticket_addr (pt_blob_ticket parsed)).
Proof.
  destruct (decode_encoded_ticket _ _ Htext) as (_ & Hstart & Hdecode).
  apply normalize_spaced in Hvalue; [|by eapply ticket_plain].
  destruct (blob_ticket_roundtrip blob_ticket) as (b' & Hb & Hhash & Hid). destruct Hmeta as [M1 M2 M3 M4 M5 M6].
  unfold parse_transfer_ticket_with_limits. rewrite Hvalue, Hstart, Hdecode.
  unfold new_with_relay_urls. cbn [vt_version vt_metadata vt_blob_ticket vt_relay_urls ensure result_bind].
  assert ((str_len value <=? max_ticket_bytes limits) = true) as -> by by apply Z.leb_le.
  rewrite Z.eqb_refl, M1, Z.eqb_refl. apply Z.eqb_neq in M2. rewrite M2.
  assert (str_is_empty (trim (md_transfer_name metadata)) = false) as -> by by destruct (trim _).
  assert (validate_metadata_text limits "transfer name" (Some (md_transfer_name metadata)) = Ok tt) as ->.
  { simpl. destruct (Z.ltb_spec (max_metadata_bytes limits) (str_len (md_transfer_name metadata))); [lia | done]. }
  assert (validate_metadata_text limits "sender name" (md_sender_name metadata) = Ok tt) as ->.
  { destruct (md_sender_name metadata) as [name|]; [|done]. simpl. specialize (M5 name eq_refl).
    destruct (Z.ltb_spec (max_metadata_bytes limits) (str_len name)); [lia | done]. }
  cbn [ensure result_bind negb]. rewrite Hb. cbn [result_map_err result_bind].
  rewrite M6, Hhash, str_eqb_refl. cbn [ensure result_bind]. rewrite Hurls. cbn [result_bind].
  eexists. split; [reflexivity|]. cbn. split; [done|]. split; [done|].
  destruct urls as [|u urls].
  - split; [done|]. split; [done|]. set_solver.
  - rewrite with_addr_hash, with_addr_addr.
    destruct (with_relay_urls_addr (u :: urls) (blob_ticket_addr b')) as (-> & _ & Hu).
    split; [done|]. split; [done|]. intros v Hv. apply Hu. by left.
Qed.

(** A restricted profile never dials a relay it does not allow. The filtered
    address keeps the endpoint and every direct address, has no relay outside the profile,
    and is never empty: if nothing of the address is allowed, the filter says so. *)
Theorem filter_peer_addr_sound addr relay_mode custom_relay_urls :
  match filter_peer_addr_for_relay_mode addr relay_mode custom_relay_urls with
  | Ok filtered =>
      addr_id filtered = addr_id addr ∧ (∀ ip, ip ∈ ip_addrs filtered ↔ ip ∈ ip_addrs addr) ∧
      (∀ u, u ∈ relay_urls filtered ↔ u ∈ relay_urls addr ∧
         match relay_mode with
         | Automatic => True
         | StrictCustom | CustomWithDirectFallback => u ∈ custom_relay_urls
         | LocalOnly => False
         end) ∧
      (relay_mode ≠ Automatic → relay_urls filtered ≠ [] ∨ ip_addrs filtered ≠ [])
  | Err _ => ip_addrs addr = [] ∧
      ∀ u, u ∈ relay_urls addr → u ∉ custom_relay_urls ∨ relay_mode = LocalOnly
  end.
Proof.
  destruct (with_ip_addrs_addr (ip_addrs addr) (addr_new (addr_id addr))) as (Hid & Hr & Hip).
  rewrite addr_new_id in Hid. rewrite addr_new_relays in Hr.
  set (direct := fold_left with_ip_addr (ip_addrs addr) (addr_new (addr_id addr))) in *.
  set (allowed := List.filter (λ u, str_in u custom_relay_urls) (relay_urls addr)).
  assert (∀ ip, ip ∈ ip_addrs direct ↔ ip ∈ ip_addrs addr) as Hip'.
  { intros ip. rewrite Hip, addr_new_ips. set_solver. }
  assert (∀ u, u ∈ allowed ↔ u ∈ relay_urls addr ∧ u ∈ custom_relay_urls) as Hallowed.
  { intros u. unfold allowed. by rewrite list_elem_of_In, filter_In, <- list_elem_of_In, str_in_elem. }
  destruct (with_relay_urls_addr allowed direct) as (Hid2 & Hip2 & Hr2).
  assert (∀ a, addr_is_empty a = true → ip_addrs a = ip_addrs direct → ip_addrs addr = []) as Hnoip.
  { intros a [_ E]%addr_is_empty_spec Ea. apply elem_of_nil_inv. intros ip Hin%Hip'. rewrite <- Ea, E in Hin.
    by apply not_elem_of_nil in Hin. }
  assert (∀ a, addr_is_empty a = false → relay_urls a ≠ [] ∨ ip_addrs a ≠ []) as Hne.
  { intros a E. destruct (relay_urls a) as [|? ?] eqn:E1; [|by left]. destruct (ip_addrs a) eqn:E2; [|by right].
    assert (addr_is_empty a = true) by (by apply addr_is_empty_spec). congruence. }
  unfold filter_peer_addr_for_relay_mode. fold direct allowed.
  destruct relay_mode; [split_and!; try done; tauto| | |].
  3: { destruct (addr_is_empty direct) eqn:E; simpl.
       - split; [by eapply Hnoip|]. by right.
       - split_and!; [done|done| |by intros _; apply Hne]. rewrite Hr. set_solver. }
  all: destruct (addr_is_empty (fold_left _ allowed direct)) eqn:E; simpl;
    [split; [by eapply Hnoip|]; intros u Hu; left; intros Hc;
       apply addr_is_empty_spec in E as [E _]; apply (not_elem_of_nil u); rewrite <- E;
       apply Hr2; left; by apply Hallowed
    |split_and!; [congruence | by rewrite Hip2 | | by intros _; apply Hne];
       intros u; rewrite Hr2, Hallowed, Hr; set_solver].
Qed.
End TicketProperties.

(** ** Witnesses *)

Section Witnesses.
Record DemoAddr : Type := { da_id : string; da_relays : list string; da_ips : list string }.
#[local] Instance demo_addressing : Addressing := {|
  EndpointAddr := DemoAddr;
  addr_new id := {| da_id := id; da_relays := []; da_ips := [] |};
  addr_id := da_id;
  with_relay_url a u := {| da_id := da_id a; da_relays := u :: da_relays a; da_ips := da_ips a |};
  with_ip_addr a u := {| da_id := da_id a; da_relays := da_relays a; da_ips := u :: da_ips a |};
  relay_urls := da_relays; ip_addrs := da_ips;
  addr_is_empty a := no_urls (da_relays a) && no_urls (da_ips a) |}.
#[local] Instance demo_addressing_laws : AddressingLaws.
Proof.
  split; try done; try (intros; simpl; apply elem_of_cons).
  intros [i [|] [|]]; simpl; naive_solver.
Qed.

(** Two letters for every byte. *)
Definition letter (n : N) : ascii := Ascii.ascii_of_N (97 + n)%N.
Definition letter_value (a : ascii) : N := (Ascii.N_of_ascii a - 97)%N.
Fixpoint demo_encode (s : string) : string :=
  match s with
  | EmptyString => EmptyString
  | String a s => let n := Ascii.N_of_ascii a in
                  String (letter (n / 16)%N) (String (letter (n mod 16)%N) (demo_encode s))
  end.
Fixpoint demo_decode (s : string) : string :=
  match s with
  | String a (String b s) =>
      String (Ascii.ascii_of_N (letter_value a * 16 + letter_value b)%N) (demo_decode s)
  | _ => EmptyString
  end.
#[local] Instance demo_base64 : Base64 :=
  {| base64url_encode := demo_encode; base64url_decode s := Some (demo_decode s) |}.
#[local] Instance demo_base64_laws : Base64Laws.
Proof.
  split; intros s; simpl.
  - f_equal. induction s as [|a s IH]; [done|]. simpl. rewrite IH. f_equal.
    by destruct a as [[] [] [] [] [] [] [] []].
  - induction s as [|a s IH]; [constructor|]. simpl.
    constructor; [|constructor; [|done]]; by destruct a as [[] [] [] [] [] [] [] []].
Qed.

#[local] Instance demo_urls : Urls := {|
  parse_relay_url s := Ok s; url_scheme _ := "https"%string; url_host_str _ := Some "relay.example"%string;
  url_port _ := None; url_username _ := EmptyString; url_password _ := None; url_query _ := None;
  url_fragment _ := None; url_path _ := "/"%string |}.

Definition demo_metadata : TransferMetadata := {|
  md_version := 1; md_transfer_id := 7; md_transfer_name := "photos"; md_sender_name := Some "Ann"%string;
  md_created_at := 1000; md_content_hash := "hash"; md_file_count := 2; md_total_size := 30 |}.
Definition demo_relay : string := "https://relay.example/".
Definition demo_ticket : VnidropTicket := {|
  vt_version := 1; vt_blob_ticket := "ann"; vt_relay_urls := [demo_relay]; vt_metadata := demo_metadata |}.

#[local] Instance TransferMetadata_eq_dec : EqDecision TransferMetadata.
Proof. solve_decision. Defined.
#[local] Instance VnidropTicket_eq_dec : EqDecision VnidropTicket.
Proof. solve_decision. Defined.

(** A blob ticket is an address and a hash; its text is the endpoint alone. *)
#[local] Instance demo_ticket_codec : TicketCodec := {|
  ticket_to_json t := if decide (t = demo_ticket) then Ok "t"%string else bail "json";
  ticket_of_json s := if str_eqb s "t" then Ok demo_ticket else bail "json";
  address_to_json _ := bail "json"; address_of_json _ := bail "json";
  base64_error s := anyhow_msg s;
  BlobTicket := DemoAddr;
  blob_ticket_from_str s := Ok {| da_id := s; da_relays := []; da_ips := [] |};
  blob_ticket_text := da_id; blob_ticket_hash _ := "hash"%string;
  blob_ticket_addr b := b; blob_ticket_with_addr a _ := a |}.
#[local] Instance demo_ticket_codec_laws : TicketCodecLaws.
Proof.
  split; try done.
  - intros t text. simpl. case_decide as E; [|done]. subst. by intros [= <-].
  - intros b. by eexists.
Qed.

(** A space, a line break and an ideographic space. *)
Definition demo_wrapped : string := ("vnd1:" +:+ " h" +:+ String "010"%char (utf8 0x3000 +:+ "e"))%string.

Definition demo_blob : BlobTicket := {| da_id := "ann"; da_relays := []; da_ips := [] |}.
Definition demo_addr : EndpointAddr :=
  {| da_id := "ann"; da_relays := [demo_relay; "https://other.example/"%string]; da_ips := [] |}.
Definition demo_allowed : EndpointAddr := {| da_id := "ann"; da_relays := [demo_relay]; da_ips := [] |}.

Lemma ticket_roundtrip_witness :
  ∃ parsed, parse_transfer_ticket_with_limits demo_wrapped default_core_limits = Ok parsed ∧
    pt_metadata parsed = demo_metadata ∧ pt_advertised_custom_relay_urls parsed = [demo_relay] ∧
    blob_ticket_hash (pt_blob_ticket parsed) = "hash"%string ∧
    addr_id (blob_ticket_addr (pt_blob_ticket parsed)) = "ann"%string ∧
    ∀ u, u ∈ [demo_relay] → u ∈ relay_urls (blob_ticket_addr (pt_blob_ticket parsed)).
Proof.
  apply (ticket_roundtrip demo_blob)
    with (text := "vnd1:he"%string).
  - vm_compute. reflexivity.
  - do 5 apply spaced_char. apply (spaced_space 0x20); [by do 5 right; left|]. apply spaced_char.
    apply (spaced_space 0xA); [by right; left|]. apply (spaced_space 0x3000); [by do 24 right; left|].
    apply spaced_char, spaced_end.
  - vm_compute. congruence.
  - split; try (vm_compute; congruence). intros name [= <-]. vm_compute. congruence.
  - vm_compute. reflexivity.
Defined.

Lemma validated_relay_urls_sound_witness :
  validated_relay_urls {| nc_mode := StrictCustom; nc_relay_urls := [demo_relay] |} = Ok [demo_relay] ∧
  (1 ≤ length [demo_relay] ≤ 8)%nat ∧ NoDup [demo_relay].
Proof.
  assert (validated_relay_urls {| nc_mode := StrictCustom; nc_relay_urls := [demo_relay] |} = Ok [demo_relay])
    as E by by vm_compute.
  destruct (validated_relay_urls_sound _ _ E) as [_ Hc]. destruct (Hc eq_refl) as (H1 & H2 & _).
  split; [exact E|]. split; [exact H1 | exact H2].
Defined.

Lemma filter_peer_addr_sound_witness :
  filter_peer_addr_for_relay_mode demo_addr StrictCustom [demo_relay] = Ok demo_allowed ∧
  (∀ u, u ∈ relay_urls demo_allowed ↔ u ∈ relay_urls demo_addr ∧ u ∈ [demo_relay]).
Proof.
  pose proof (filter_peer_addr_sound demo_addr StrictCustom [demo_relay]) as Hs.
  assert (filter_peer_addr_for_relay_mode demo_addr StrictCustom [demo_relay] = Ok demo_allowed) as E
    by by vm_compute.
  rewrite E in Hs. destruct Hs as (_ & _ & Hr & _). split; [exact E | exact Hr].
Defined.
End Witnesses.
