(* ===== verification/Filesystem.v ===== *)
(** * [filesystem.rs]: paths, sources and published files

    What crosses between a transfer and the file system: the names a collection may contain,
    the files that selected sources stand for, and the publication of received bytes under a
    name that was free. Paths are those of Unix; the file system and the descriptors of the
    process are the environment's, their operations as POSIX documents them. *)

From stdpp Require Import pretty.
From S2P Require Import Prelude Sql Errors Api Ticket.
#[local] Open Scope Z_scope.

(** ** Paths ([std::path]) *)

Inductive Component : Type :=
| RootDir
| CurDir
| ParentDir
| Normal (name : string).

#[global] Instance Component_eq_dec : EqDecision Component.
Proof. solve_decision. Defined.

(** [str::split(c)]: at least one piece. *)
Fixpoint split_on (c : ascii) (s : string) : list string :=
  match s with
  | EmptyString => [EmptyString]
  | String a s =>
      if Ascii.eqb a c then EmptyString :: split_on c s
      else match split_on c s with
           | piece :: pieces => String a piece :: pieces
           | [] => [String a EmptyString]
           end
  end.

(** [<[String]>::join(sep)]. *)
Fixpoint join (sep : string) (parts : list string) : string :=
  match parts with
  | [] => EmptyString
  | [part] => part
  | part :: parts => part +:+ sep +:+ join sep parts
  end.

Definition slash : ascii := "/".
Definition backslash : ascii := ascii_of_N 92.

(** One piece between separators; repeated separators and inner dots vanish. *)
Definition component_of (piece : string) : list Component :=
  if str_is_empty piece || str_eqb piece "." then []
  else if str_eqb piece ".." then [ParentDir]
  else [Normal piece].

(** [Path::components]. *)
Definition components (path : string) : list Component :=
  let pieces := split_on slash path in
  (if starts_with "/" path then [RootDir]
   else if bool_decide (head pieces = Some "."%string) then [CurDir] else [])
  ++ (pieces ≫= component_of).

(** [Path::join] of a relative path; [PathBuf::push] replaces the path by an absolute one. *)
Definition path_join (base path : string) : string :=
  if starts_with "/" path then path
  else if str_is_empty base || bool_decide (last (String.list_ascii_of_string base) = Some slash)
  then base +:+ path
  else base +:+ "/" +:+ path.

(** [str::from_utf8] accepts the byte string: well-formed UTF-8 by the table of the Unicode
    standard (no overlong forms, no surrogates, at most [U+10FFFF]). *)
Definition byte_in (lo hi : Z) (a : ascii) : bool :=
  let b := Z.of_N (N_of_ascii a) in (lo <=? b) && (b <=? hi).

Fixpoint utf8 (s : string) : bool :=
  match s with
  | EmptyString => true
  | String a s =>
      if byte_in 0 0x7F a then utf8 s
      else match s with
      | String b s =>
          if byte_in 0xC2 0xDF a then byte_in 0x80 0xBF b && utf8 s
          else match s with
          | String c s =>
              if byte_in 0xE0 0xE0 a then byte_in 0xA0 0xBF b && byte_in 0x80 0xBF c && utf8 s
              else if byte_in 0xED 0xED a then byte_in 0x80 0x9F b && byte_in 0x80 0xBF c && utf8 s
              else if byte_in 0xE1 0xEF a then byte_in 0x80 0xBF b && byte_in 0x80 0xBF c && utf8 s
              else match s with
              | String d s =>
                  (if byte_in 0xF0 0xF0 a then byte_in 0x90 0xBF b
                   else if byte_in 0xF1 0xF3 a then byte_in 0x80 0xBF b
                   else byte_in 0xF4 0xF4 a && byte_in 0x80 0x8F b) &&
                  byte_in 0x80 0xBF c && byte_in 0x80 0xBF d && utf8 s
              | EmptyString => false
              end
          | EmptyString => false
          end
      | EmptyString => false
      end
  end.

(** [component:?] of a component that is not a name. *)
Definition debug_component (c : Component) : string :=
  match c with
  | RootDir => "RootDir" | CurDir => "CurDir" | ParentDir => "ParentDir"
  | Normal name => "Normal(" +:+ name +:+ ")"
  end.

Definition contains_char (c : ascii) (s : string) : bool := bool_decide (c ∈ String.list_ascii_of_string s).

(** The closure of [filter_map]: what it adds to [path_str], and the part it keeps. *)
Definition path_part (must_be_relative : bool) (c : Component) :
    result (string * option string) AnyhowError :=
  match c with
  | Normal x =>
      if negb (utf8 x) then Err (anyhow_msg "invalid character in path")
      else if negb (contains_char slash x) && negb (contains_char backslash x)
      then Ok (EmptyString, Some x)
      else Err (anyhow_msg ("invalid path component " +:+ x))
  | RootDir =>
      if must_be_relative then Err (anyhow_msg "invalid root path component")
      else Ok ("/"%string, None)
  | other => Err (anyhow_msg ("invalid path component " +:+ debug_component other))
  end.

Definition path_to_string (path : string) (must_be_relative : bool) : result string AnyhowError :=
  let? parts := collect_results (path_part must_be_relative) (components path) in
  Ok (String.concat "" parts.*1 +:+ join "/" (omap snd parts)).

Definition validated_relative_string (name : string) : result string AnyhowError :=
  let? value := path_to_string name true in
  if str_is_empty (trim value) then Err (anyhow_msg "relative path must not be empty") else Ok value.

Definition safe_output_path (output_dir relative_path : string) : result string AnyhowError :=
  let? _ := path_to_string relative_path true in Ok (path_join output_dir relative_path).

(** ** File URLs *)

Definition bad_escape : string := "invalid percent escape in file URL".

(** [u8::from_str_radix(hex, 16)] on two bytes: a leading plus sign is accepted. *)
Definition u8_from_hex (a b : ascii) : option Z :=
  if Ascii.eqb a "+" then Ip.digit_value b
  else match Ip.digit_value a, Ip.digit_value b with
       | Some x, Some y => Some (16 * x + y)
       | _, _ => None
       end.

(** The loop of [percent_decode_file_url_path]: the bytes decoded. Two bytes that are not UTF-8
    are reported as such, others that are not digits with their context. *)
Fixpoint percent_bytes (s : string) : result string AnyhowError :=
  match s with
  | EmptyString => Ok EmptyString
  | String "%" (String a (String b rest)) =>
      if negb (utf8 (String a (String b EmptyString)))
      then Err (anyhow_msg "invalid utf-8 sequence")
      else match u8_from_hex a b with
           | Some v => let? out := percent_bytes rest in Ok (String (ascii_of_N (Z.to_N v)) out)
           | None => Err (with_context bad_escape (anyhow_msg "invalid digit found in string"))
           end
  | String "%" _ => Err (anyhow_msg bad_escape)
  | String a rest => let? out := percent_bytes rest in Ok (String a out)
  end.

Definition percent_decode_file_url_path (value : string) : result string AnyhowError :=
  let? output := percent_bytes value in
  if utf8 output then Ok output else Err (anyhow_msg "invalid utf-8 sequence").

Definition platform_path (value : string) : result string AnyhowError :=
  if str_is_empty (trim value) then Err (anyhow_msg "path must not be empty")
  else match strip_prefix "file://" value with
       | Some without_scheme => percent_decode_file_url_path without_scheme
       | None => Ok value
       end.

(** ** Sources and the files they stand for *)

Inductive SourceKind : Type := SourcePath | FileDescriptor | AndroidContentUri | IosSecurityScopedUrl.

Record ShareSource : Type := {
  ss_kind : SourceKind;
  ss_value : string;
  ss_display_name : option string;
  ss_is_directory : bool
}.

Inductive ImportSource : Type :=
| FromPath (path : string)
| FromDescriptor (fd : Z).

Record ImportSourceFile : Type := { if_source : ImportSource; if_collection_name : string }.

(** What the system answers: whether a path is a directory, the entries below it with their
    path relative to it ([walkdir], links not followed) and whether they are regular files, the
    length of a file, and the results of [dup] and [fstat]. *)
Class Files : Type := {
  fs_is_dir : nat → string → bool;
  fs_walk : nat → string → list (result (string * bool) AnyhowError);
  fs_len : nat → string → result Z AnyhowError;
  fd_dup : nat → gset Z → Z → result Z AnyhowError;
  fd_mode : nat → Z → result Z AnyhowError
}.

(** [dup] yields a descriptor that was not open. *)
Class FilesLaws `{Files} : Prop := {
  dup_fresh n opened fd d : fd_dup n opened fd = Ok d → d ∉ opened
}.

(** The descriptors open in the process, and the vector of files being built. *)
Record Importing : Type := { im_open : gset Z; im_files : list ImportSourceFile }.

Definition S_IFMT : Z := 0xF000.
Definition S_IFREG : Z := 0x8000.

(** [str::parse::<i32>]: a sign, then decimal digits; out of range is an error. *)
Fixpoint decimal (acc : Z) (s : string) : option Z :=
  match s with
  | EmptyString => Some acc
  | String a s => if byte_in 48 57 a then decimal (10 * acc + (Z.of_N (N_of_ascii a) - 48)) s else None
  end.
Definition parse_i32 (s : string) : option Z :=
  let in_range v := if (- 2 ^ 31 <=? v) && (v <=? 2 ^ 31 - 1) then Some v else None in
  match s with
  | EmptyString => None
  | String a rest =>
      if Ascii.eqb a "+" then if str_is_empty rest then None else decimal 0 rest ≫= in_range
      else if Ascii.eqb a "-" then if str_is_empty rest then None else decimal 0 rest ≫= λ v, in_range (- v)
      else decimal 0 s ≫= in_range
  end.

(** [Path::file_name]. *)
Definition file_name (path : string) : option string :=
  match last (components path) with Some (Normal x) => Some x | _ => None end.

Section SelectedSources.
Context `{Files}.

Abbreviation IM := (M Importing AnyhowError).

Definition look {A} (f : nat → A) : IM A := λ st n, (Ok (f n), st, Datatypes.S n).
Definition open_fd (fd : Z) : IM unit :=
  modify (λ st, {| im_open := {[fd]} ∪ im_open st; im_files := im_files st |}).
Definition close_fd (fd : Z) : IM unit :=
  modify (λ st, {| im_open := im_open st ∖ {[fd]}; im_files := im_files st |}).
Definition push_file (file : ImportSourceFile) : IM unit :=
  modify (λ st, {| im_open := im_open st; im_files := im_files st ++ [file] |}).

Definition source_path (source : ShareSource) : result string AnyhowError :=
  if str_is_empty (trim (ss_value source)) then Err (anyhow_msg "source path must not be empty")
  else platform_path (ss_value source).

Definition duplicate_file_descriptor (value : string) : IM Z :=
  match parse_i32 value with
  | None => fail (with_context "file descriptor source value must be an integer fd" (anyhow_msg "invalid digit"))
  | Some fd =>
      if fd <? 0 then fail (anyhow_msg "file descriptor must be non-negative")
      else
        st ← Sql.get;
        duplicated ← look (λ n, fd_dup n (im_open st) fd);
        duplicated ← of_result (result_map_err (with_context "failed to duplicate file descriptor") duplicated);
        open_fd duplicated;;
        mode ← look (λ n, fd_mode n duplicated);
        match mode with
        | Err error => close_fd duplicated;; fail (with_context "failed to fstat file descriptor" error)
        | Ok mode =>
            if negb (Z.land mode S_IFMT =? S_IFREG)
            then close_fd duplicated;; fail (anyhow_msg "file descriptor must refer to a regular file")
            else ret duplicated
        end
  end.

(** One entry of the walk. *)
Definition collect_entry (root display_name : string) (entry : result (string * bool) AnyhowError) : IM unit :=
  entry ← of_result entry;
  let '(relative, is_file) := entry in
  if negb is_file then ret tt
  else
    collection_name ← of_result (path_to_string (path_join display_name relative) true);
    push_file {| if_source := FromPath (path_join root relative); if_collection_name := collection_name |}.

Definition collect_dir_files (root display_name : string) : IM unit :=
  entries ← look (λ n, fs_walk n root);
  for_each entries (collect_entry root display_name).

(** The name shown for a path: the one given, that of the file, or a default. *)
Definition path_display_name (source : ShareSource) (path : string) : string :=
  match ss_display_name source ≫= non_empty with
  | Some name => name
  | None => match file_name path with
            | Some name => if utf8 name then name else "transfer"
            | None => "transfer"
            end
  end%string.

(** One turn of the loop over the sources. A descriptor whose name is refused is closed when
    the value under construction is dropped. *)
Definition collect_source (source : ShareSource) : IM unit :=
  match ss_kind source with
  | SourcePath | IosSecurityScopedUrl =>
      path ← of_result (source_path source);
      let display_name := path_display_name source path in
      is_dir ← look (λ n, fs_is_dir n path);
      if ss_is_directory source || is_dir then collect_dir_files path display_name
      else
        collection_name ← of_result (validated_relative_string display_name);
        push_file {| if_source := FromPath path; if_collection_name := collection_name |}
  | FileDescriptor =>
      if ss_is_directory source
      then fail (anyhow_msg "file descriptor sources cannot represent directories yet")
      else
        let display_name := default "transfer"%string (ss_display_name source ≫= non_empty) in
        fd ← duplicate_file_descriptor (ss_value source);
        match validated_relative_string display_name with
        | Ok collection_name =>
            push_file {| if_source := FromDescriptor fd; if_collection_name := collection_name |}
        | Err error => close_fd fd;; fail error
        end
  | AndroidContentUri =>
      fail (anyhow_msg "Android content URIs are not filesystem paths; open a ParcelFileDescriptor in Kotlin and pass its fd as SourceKind.FileDescriptor")
  end.

(** One turn of the loop that adds up what is known of the sizes. *)
Definition check_file (limits : CoreLimits) (known_total : Z) (file : ImportSourceFile) : IM Z :=
  if max_path_bytes limits <? str_len (if_collection_name file)
  then fail (anyhow_msg ("collection path exceeds " +:+ pretty (max_path_bytes limits) +:+ " bytes: " +:+ if_collection_name file))
  else
    match if_source file with
    | FromDescriptor _ => ret known_total
    | FromPath path =>
        len ← look (λ n, fs_len n path);
        len ← of_result len;
        if U64_MAX <? known_total + len then fail (anyhow_msg "collection size overflow")
        else if max_total_bytes limits <? known_total + len
        then fail (anyhow_msg ("collection size " +:+ pretty (known_total + len) +:+ " exceeds limit " +:+ pretty (max_total_bytes limits)))
        else ret (known_total + len)
    end.

Definition collect_body (sources : list ShareSource) (limits : CoreLimits) : IM unit :=
  for_each sources collect_source;;
  st ← Sql.get;
  let files := im_files st in
  if bool_decide (files = []) then fail (anyhow_msg "no files found in selected sources")
  else if max_collection_files limits <? Z.of_nat (length files)
  then fail (anyhow_msg ("collection file count " +:+ pretty (length files) +:+ " exceeds limit " +:+ pretty (max_collection_files limits)))
  else fold_each (check_file limits) files 0;; ret tt.

(** An error drops the files gathered so far, and with them their descriptors. *)
Definition drop_file (file : ImportSourceFile) : IM unit :=
  match if_source file with FromDescriptor fd => close_fd fd | FromPath _ => ret tt end.

Definition take_files : IM (list ImportSourceFile) := λ st n,
  (Ok (im_files st), {| im_open := im_open st; im_files := [] |}, n).

Definition collect_import_files_with_limits (sources : list ShareSource) (limits : CoreLimits) :
    IM (list ImportSourceFile) :=
  if max_sources limits <? Z.of_nat (length sources)
  then fail (anyhow_msg ("source count " +:+ pretty (length sources) +:+ " exceeds limit " +:+ pretty (max_sources limits)))
  else
    take_files;;
    collected ← try (E:=AnyhowError) (collect_body sources limits);
    files ← take_files;
    match collected with
    | Ok _ => ret files
    | Err error => for_each files drop_file;; fail error
    end.

Definition default_collection_name (files : list ImportSourceFile) : string :=
  match files with
  | file :: _ =>
      match split_on slash (if_collection_name file) with
      | name :: _ => if str_is_empty name then "transfer" else name
      | [] => "transfer"
      end
  | [] => "transfer"
  end%string.
End SelectedSources.

(** ** What names and paths are *)

Section PathLemmas.

Lemma split_on_nonempty c s : split_on c s ≠ [].
Proof. destruct s as [|a s]; simpl; [done|]. destruct (Ascii.eqb a c); [done|]. by destruct (split_on c s). Qed.

Lemma split_on_app c s t : split_on c (s +:+ String c t) = split_on c s ++ split_on c t.
Proof.
  induction s as [|a s IH].
  - change (EmptyString +:+ String c t) with (String c t). simpl. by rewrite Ascii.eqb_refl.
  - rewrite str_app_cons. simpl. destruct (Ascii.eqb a c); rewrite IH; [done|].
    pose proof (split_on_nonempty c s). by destruct (split_on c s).
Qed.

Lemma split_on_plain c s : c ∉ String.list_ascii_of_string s → split_on c s = [s].
Proof.
  induction s as [|a s IH]; simpl; [done|]. intros [Hne Hs]%not_elem_of_cons.
  destruct (Ascii.eqb_spec a c) as [->|_]; [done|]. by rewrite IH.
Qed.

Lemma split_on_free c s piece : piece ∈ split_on c s → c ∉ String.list_ascii_of_string piece.
Proof.
  revert piece. induction s as [|a s IH]; intros piece; simpl.
  - intros ->%list_elem_of_singleton. by apply not_elem_of_nil.
  - destruct (Ascii.eqb_spec a c) as [->|Hne].
    + intros [->|Hp]%elem_of_cons; [by apply not_elem_of_nil | by apply IH].
    + destruct (split_on c s) as [|q qs] eqn:E; [by apply split_on_nonempty in E|].
      intros [->|Hp]%elem_of_cons; [|by apply IH; right].
      simpl. apply not_elem_of_cons. split; [done|]. apply IH. by left.
Qed.

Lemma split_on_join parts :
  parts ≠ [] → Forall (λ x, slash ∉ String.list_ascii_of_string x) parts →
  split_on slash (join "/" parts) = parts.
Proof.
  induction parts as [|x parts IH]; [done|]. intros _ Hall. inversion Hall as [|? ? Hx Hall']; subst.
  destruct parts as [|y parts]; [by apply split_on_plain|].
  change (split_on slash (x +:+ String slash (join "/" (y :: parts))) = x :: y :: parts).
  rewrite split_on_app, split_on_plain by done. simpl. f_equal. by apply IH.
Qed.

(** The first byte decides whether a path is absolute. *)
Lemma absolute_app s t : s ≠ EmptyString → starts_with "/" (s +:+ t) = starts_with "/" s.
Proof.
  destruct s as [|a s]; [done|]. intros _. rewrite str_app_cons. unfold starts_with. cbn -[Ascii.eqb].
  by destruct (Ascii.eqb _ _).
Qed.

Definition unseparated (x : string) : Prop :=
  (slash ∉ String.list_ascii_of_string x) ∧ (backslash ∉ String.list_ascii_of_string x).

(** A name that a file or directory can have, and that no separator of any platform splits. *)
Definition plain (x : string) : Prop :=
  x ≠ EmptyString ∧ x ≠ "."%string ∧ x ≠ ".."%string ∧ utf8 x = true ∧
  unseparated x.

Lemma component_of_name piece x :
  Normal x ∈ component_of piece → piece = x ∧ x ≠ EmptyString ∧ x ≠ "."%string ∧ x ≠ ".."%string.
Proof.
  unfold component_of. destruct piece as [|a piece]; [by intros ?%not_elem_of_nil|]. simpl.
  destruct (str_eqb _ ".") eqn:E1; [by intros ?%not_elem_of_nil|].
  destruct (str_eqb _ "..") eqn:E2; [by intros ?%list_elem_of_singleton|].
  intros [= ->]%list_elem_of_singleton. apply bool_decide_eq_false in E1, E2. done.
Qed.

Lemma component_of_plain x : plain x → component_of x = [Normal x].
Proof.
  intros (H1 & H2 & H3 & _). unfold component_of. destruct x as [|a x]; [done|]. simpl.
  unfold str_eqb. by rewrite !bool_decide_eq_false_2.
Qed.

Lemma path_part_relative c y :
  path_part true c = Ok y ↔
  ∃ x, c = Normal x ∧ y = (EmptyString, Some x) ∧ utf8 x = true ∧
    unseparated x.
Proof.
  destruct c as [| | |x]; simpl; [split; [done|by intros (? & ? & _)]..|].
  unfold contains_char, unseparated. destruct (utf8 x) eqn:Eu; simpl; [|split; [done|intros (? & [= <-] & _ & ? & _); congruence]].
  destruct (bool_decide_reflect (slash ∈ String.list_ascii_of_string x)); simpl;
    [split; [done|by intros (? & [= <-] & _ & _ & ? & _)]|].
  destruct (bool_decide_reflect (backslash ∈ String.list_ascii_of_string x)); simpl;
    [split; [done|by intros (? & [= <-] & _ & _ & _ & ?)]|].
  split; [by intros [= <-]; exists x | by intros (? & [= <-] & -> & _)].
Qed.

(** What a relative path of a collection is: plain names, and nothing else. *)
Lemma path_to_string_relative path s :
  path_to_string path true = Ok s ↔
  ∃ parts, components path = Normal <$> parts ∧ Forall plain parts ∧ s = join "/" parts.
Proof.
  assert (∀ xs : list string, String.concat "" ((λ x, (EmptyString, Some x)) <$> xs).*1 +:+
    join "/" (omap snd ((λ x, (EmptyString, Some x)) <$> xs)) = join "/" xs) as Hshape.
  { intros xs. match goal with |- ?a +:+ join _ ?b = _ => assert (a = EmptyString ∧ b = xs) as [-> ->] end; [|done].
    split.
    - induction xs as [|x [|y xs] IH]; [done..|]. exact IH.
    - induction xs as [|x xs IH]; [done|]. cbn in *. by rewrite IH. }
  unfold path_to_string. split.
  - destruct (collect_results _ _) as [parts|e] eqn:E; [|done]. simpl. intros [= <-].
    apply collect_results_Ok in E.
    assert (∃ xs, components path = Normal <$> xs ∧ parts = (λ x, (EmptyString, Some x)) <$> xs ∧
      Forall (λ x, utf8 x = true ∧ unseparated x) xs) as (xs & Ec & -> & Hxs).
    { induction E as [|c y cs parts Hy _ (xs & -> & -> & Hxs)]; [by exists []|].
      apply path_part_relative in Hy as (x & -> & -> & Hx). exists (x :: xs). split_and!; [done..|]. by constructor. }
    exists xs. split_and!; [done| |apply Hshape]. rewrite Forall_forall in Hxs |- *. intros x Hx.
    destruct (Hxs x Hx) as (? & ?).
    assert (Normal x ∈ components path) as Hc by (rewrite Ec; by apply list_elem_of_fmap_2).
    unfold components in Hc. apply elem_of_app in Hc as [Hc|Hc].
    { repeat case_match; by (apply list_elem_of_singleton in Hc || apply not_elem_of_nil in Hc). }
    apply list_elem_of_bind in Hc as (piece & Hin & _). by apply component_of_name in Hin as (_ & ? & ? & ?).
  - intros (xs & -> & Hxs & ->).
    assert (collect_results (path_part true) (Normal <$> xs) = Ok ((λ x, (EmptyString, Some x)) <$> xs)) as ->.
    { apply collect_results_Ok. induction Hxs as [|x xs (_ & _ & _ & Hu & Hs) _ IH]; [by constructor|].
      simpl. constructor; [|done]. apply path_part_relative. by exists x. }
    simpl. by rewrite Hshape.
Qed.

Lemma components_of_parts parts :
  Forall plain parts → parts ≫= component_of = Normal <$> parts.
Proof. induction 1 as [|x parts Hx _ IH]; [done|]. cbn. by rewrite component_of_plain, IH. Qed.

Lemma components_join parts :
  Forall plain parts → components (join "/" parts) = Normal <$> parts.
Proof.
  intros Hall. destruct parts as [|x parts]; [done|].
  assert (split_on slash (join "/" (x :: parts)) = x :: parts) as Hsplit.
  { apply split_on_join; [done|]. eapply Forall_impl; [exact Hall|]. by intros y (_ & _ & _ & _ & ? & _). }
  unfold components. rewrite Hsplit, components_of_parts by done. inversion Hall as [|? ? Hx _]; subst.
  destruct Hx as (Hne & Hdot & _ & _ & [Hslash _]).
  assert (starts_with "/" (join "/" (x :: parts)) = false) as ->.
  { destruct x as [|a x]; [done|]. simpl in Hslash. apply not_elem_of_cons in Hslash as [Hslash _].
    assert (∃ y, join "/" (String a x :: parts) = String a x +:+ y) as [y ->].
    { destruct parts; [by exists EmptyString; rewrite str_app_empty_r | by eexists]. }
    rewrite str_app_cons. unfold starts_with. cbn -[Ascii.eqb].
    destruct (Ascii.eqb_spec "/" a); [by subst | done]. }
  cbn [head]. by rewrite bool_decide_eq_false_2 by congruence.
Qed.

(** A path appended to a directory adds its components. *)
Lemma components_path_join base path parts :
  components path = Normal <$> parts →
  components (path_join base path) = components base ++ (Normal <$> parts).
Proof.
  intros Hpath. unfold components in Hpath.
  assert (starts_with "/" path = false) as Hrel by (destruct (starts_with "/" path); [by destruct parts|done]).
  rewrite Hrel in Hpath.
  assert (split_on slash path ≫= component_of = Normal <$> parts) as Hpieces.
  { clear -Hpath. destruct (bool_decide _); [by destruct parts|done]. }
  assert (∀ dir, components (dir +:+ String slash path) = components (dir +:+ String slash EmptyString) ++ (Normal <$> parts)) as Hdir.
  { intros dir. unfold components. rewrite !split_on_app, !bind_app, Hpieces. cbn [split_on].
    replace (mbind component_of [EmptyString]) with (@nil Component) by done. rewrite app_nil_r.
    assert (∀ t, starts_with "/" (dir +:+ String slash t) = starts_with "/" (dir +:+ "/")) as Hst.
    { intros t. destruct dir as [|b dir]; [done|]. by rewrite !absolute_app. }
    rewrite (Hst path), (Hst EmptyString), app_assoc.
    assert (∀ l, head (split_on slash dir ++ l) = head (split_on slash dir)) as Hhead.
    { intros l. pose proof (split_on_nonempty slash dir). by destruct (split_on slash dir). }
    by rewrite !Hhead. }
  unfold path_join. rewrite Hrel. destruct base as [|a base].
  { cbn [str_is_empty orb]. change (EmptyString +:+ path) with path.
    unfold components at 1. by rewrite Hrel, Hpath. }
  cbn [str_is_empty orb]. destruct (bool_decide_reflect (last (String.list_ascii_of_string (String a base)) = Some slash)) as [Hlast|_].
  - assert (∃ dir, String a base = dir +:+ String slash EmptyString) as [dir ->].
    { clear -Hlast. revert a Hlast. induction base as [|b base IH]; intros a Hlast.
      - exists EmptyString. cbn in Hlast.  by injection Hlast as ->.
      - destruct (IH b) as [dir Hd]; [exact Hlast|]. exists (String a dir). by rewrite str_app_cons, <- Hd. }
    rewrite str_app_assoc. apply Hdir.
  - change (String a base +:+ "/" +:+ path) with (String a base +:+ String slash path). rewrite Hdir. f_equal.
    assert (String a base ≠ EmptyString) as Hne by done. revert Hne. generalize (String a base). intros b Hne.
    unfold components. rewrite split_on_app, bind_app. cbn [split_on].
    replace (mbind component_of [EmptyString]) with (@nil Component) by done. rewrite app_nil_r, absolute_app by done.
    pose proof (split_on_nonempty slash b). by destruct (split_on slash b).
Qed.
End PathLemmas.

(** ** What the checks on names guarantee *)

(** C25: a file of a collection is written inside the directory that was chosen, whatever its
    name: an accepted path is the directory followed by plain names, so no component leads back,
    to the root or elsewhere. The name in its normal form denotes the same file. *)
Theorem output_path_confined output_dir relative_path path :
  safe_output_path output_dir relative_path = Ok path →
  ∃ parts, Forall plain parts ∧ components path = components output_dir ++ (Normal <$> parts) ∧
    path_to_string relative_path true = Ok (join "/" parts) ∧
    components (join "/" parts) = components relative_path.
Proof.
  unfold safe_output_path. destruct (path_to_string _ _) as [s|e] eqn:E; [|done]. simpl. intros [= <-].
  apply path_to_string_relative in E as (parts & Ec & Hp & ->). exists parts.
  split_and!; [done| by apply components_path_join | done | by rewrite components_join].
Qed.

(** A name that was checked passes every later check unchanged, in either form. *)
Lemma checked_name_passes name s :
  path_to_string name true = Ok s → path_to_string s true = Ok s ∧ ∀ dir, is_ok (safe_output_path dir s) = true.
Proof.
  intros (parts & Ec & Hp & ->)%path_to_string_relative.
  assert (path_to_string (join "/" parts) true = Ok (join "/" parts)) as Hs.
  { apply path_to_string_relative. exists parts. by rewrite components_join. }
  split; [done|]. intros dir. unfold safe_output_path. by rewrite Hs.
Qed.

(** ** Importing sources *)

(** The descriptors that files own. *)
Definition fds (files : list ImportSourceFile) : gset Z :=
  list_to_set (omap (λ f, match if_source f with FromDescriptor fd => Some fd | FromPath _ => None end) files).

(** A name that was checked: plain parts, at least one of them. *)
Definition checked_name (name : string) : Prop :=
  ∃ parts, parts ≠ [] ∧ Forall plain parts ∧ name = join "/" parts.

(** Files are added to the vector, each with a checked name; the descriptors opened meanwhile
    are the ones they own. *)
Definition gathers (st st' : Importing) : Prop :=
  ∃ files, im_files st' = im_files st ++ files ∧ Forall (λ f, checked_name (if_collection_name f)) files ∧
    im_open st' = im_open st ∪ fds files ∧ fds files ## im_open st.

Lemma fds_app files files' : fds (files ++ files') = fds files ∪ fds files'.
Proof. unfold fds. by rewrite omap_app, list_to_set_app_L. Qed.

#[global] Instance gathers_preorder : PreOrder gathers.
Proof.
  split.
  - intros st. exists []. rewrite app_nil_r. split_and!; [done|constructor|set_solver|set_solver].
  - intros st1 st2 st3 (fs & F1 & N1 & O1 & D1) (gs & F2 & N2 & O2 & D2). exists (fs ++ gs).
    rewrite fds_app. split_and!.
    + by rewrite F2, F1, app_assoc.
    + by apply Forall_app.
    + rewrite O2, O1. set_solver.
    + rewrite O1 in D2. set_solver.
Qed.

Lemma components_nil path : components path = [] → path = EmptyString.
Proof.
  destruct path as [|a path]; [done|]. unfold components. cbn -[Ascii.eqb starts_with].
  destruct (starts_with "/" (String a path)) eqn:Es; [done|].
  destruct (Ascii.eqb_spec a slash) as [->|Hne]; [done|].
  destruct (split_on slash path) as [|piece pieces]; cbn [head].
  - case_bool_decide as Hd; [done|]. unfold component_of at 1. cbn [str_is_empty orb mbind list_bind].
    unfold str_eqb. rewrite (bool_decide_eq_false_2 (_ = "."%string)) by congruence. by case_bool_decide.
  - case_bool_decide as Hd; [done|]. cbn [mbind list_bind]. unfold component_of at 1. cbn [str_is_empty orb].
    unfold str_eqb. rewrite (bool_decide_eq_false_2 (_ = "."%string)) by congruence. by case_bool_decide.
Qed.

Lemma path_to_string_checked name s :
  name ≠ EmptyString → path_to_string name true = Ok s → checked_name s.
Proof.
  intros Hne (parts & Ec & Hp & ->)%path_to_string_relative. exists parts. split_and!; [|done..].
  intros ->. by apply components_nil in Ec.
Qed.

Lemma validated_checked name s : validated_relative_string name = Ok s → checked_name s.
Proof.
  unfold validated_relative_string. destruct (path_to_string _ _) as [v|] eqn:E; [|done]. simpl.
  destruct (str_is_empty (trim v)) eqn:Ev; [done|]. intros [= <-].
  eapply path_to_string_checked; [|exact E]. intros ->. cbn in E. by injection E as <-.
Qed.

Lemma path_join_nonempty base path : base ≠ EmptyString → path_join base path ≠ EmptyString.
Proof.
  intros Hb. unfold path_join. destruct (starts_with "/" path) eqn:Es; [by intros ->|].
  destruct base as [|a base]; [done|]. destruct (_ || _); by rewrite str_app_cons.
Qed.

Lemma non_empty_Some value name : non_empty value = Some name → name ≠ EmptyString.
Proof.
  unfold non_empty. destruct (str_is_empty (trim value)) eqn:E; [done|]. intros [= <-] Hn. by rewrite Hn in E.
Qed.

Lemma path_display_name_nonempty source path : path_display_name source path ≠ EmptyString.
Proof.
  unfold path_display_name. destruct (ss_display_name source ≫= non_empty) as [name|] eqn:E.
  { destruct (ss_display_name source) as [value|]; [|done]. by apply non_empty_Some in E. }
  unfold file_name. destruct (last (components path)) as [[| | |x]|] eqn:El; try done.
  destruct (utf8 x); [|done]. apply last_Some_elem_of in El. unfold components in El.
  apply elem_of_app in El as [Hc|Hc].
  { repeat case_match; by (apply list_elem_of_singleton in Hc || apply not_elem_of_nil in Hc). }
  apply list_elem_of_bind in Hc as (piece & Hin & _). by apply component_of_name in Hin as (_ & ? & _).
Qed.

Section ImportSpec.
Context `{FilesLaws}.

Lemma within_look {A} (f : nat → A) : within gathers (look f).
Proof. intros st n. unfold wp, look. reflexivity. Qed.

Lemma within_push source name :
  (∀ fd, source ≠ FromDescriptor fd) → checked_name name →
  within gathers (push_file {| if_source := source; if_collection_name := name |}).
Proof.
  intros Hs Hn. apply within_modify. intros st. exists [{| if_source := source; if_collection_name := name |}].
  unfold fds. destruct source as [path|fd]; [|by destruct (Hs fd)]. simpl.
  split_and!; [done| by constructor; [|constructor] | set_solver | set_solver].
Qed.

Lemma within_collect_dir root display_name :
  display_name ≠ EmptyString → within gathers (collect_dir_files root display_name).
Proof.
  intros Hne. apply within_bind; [apply _|apply within_look|]. intros entries.
  apply within_for_each; [apply _|]. intros entry. apply within_bind; [apply _|apply within_of_result, _|].
  intros [relative []]; simpl; [|apply within_ret, _]. apply within_check; [apply _|]. intros name Hname.
  apply within_push; [done|]. eapply path_to_string_checked; [|exact Hname]. by apply path_join_nonempty.
Qed.

(** A duplicate is new; nothing stays open when it is refused. *)
Lemma wp_duplicate value st n (Q : result Z AnyhowError → Importing → nat → Prop) :
  (∀ e n', Q (Err e) st n') →
  (∀ d n', d ∉ im_open st → Q (Ok d) {| im_open := {[d]} ∪ im_open st; im_files := im_files st |} n') →
  wp (duplicate_file_descriptor value) st n Q.
Proof.
  intros He Ho. unfold duplicate_file_descriptor. destruct (parse_i32 value) as [fd|]; [|by apply wp_fail].
  destruct (fd <? 0); [by apply wp_fail|]. apply wp_bind, wp_get, wp_bind. unfold wp at 1, look.
  apply wp_bind, wp_of_result. destruct (fd_dup n (im_open st) fd) as [d|e] eqn:Ed; [|apply He].
  pose proof (dup_fresh _ _ _ _ Ed) as Hfresh. simpl. apply wp_bind, wp_modify, wp_bind. unfold wp at 1, look.
  assert (∀ e n', Q (Err e) {| im_open := ({[d]} ∪ im_open st) ∖ {[d]}; im_files := im_files st |} n') as Hclosed.
  { intros e n'. replace (({[d]} ∪ im_open st) ∖ {[d]}) with (im_open st) by set_solver. destruct st. apply He. }
  destruct (fd_mode _ d) as [mode|e]; simpl; [|by apply wp_bind, wp_modify, wp_fail].
  destruct (negb _); [by apply wp_bind, wp_modify, wp_fail|]. by apply wp_ret, Ho.
Qed.

Lemma within_collect_source source : within gathers (collect_source source).
Proof.
  unfold collect_source.
  assert (within gathers (path ← of_result (source_path source);
    is_dir ← look (λ n, fs_is_dir n path);
    (if ss_is_directory source || is_dir then collect_dir_files path (path_display_name source path)
     else collection_name ← of_result (validated_relative_string (path_display_name source path));
          push_file {| if_source := FromPath path; if_collection_name := collection_name |}))) as Hpath.
  { apply within_bind; [apply _|apply within_of_result, _|]. intros path.
    apply within_bind; [apply _|apply within_look|]. intros is_dir. destruct (_ || _).
    - apply within_collect_dir, path_display_name_nonempty.
    - apply within_check; [apply _|]. intros name Hname. apply within_push; [done|]. by eapply validated_checked. }
  destruct (ss_kind source); [exact Hpath| |apply within_fail, _|exact Hpath].
  destruct (ss_is_directory source); [apply within_fail, _|]. intros st n.
  apply wp_bind, wp_duplicate; [intros; reflexivity|]. intros d n' Hd.
  destruct (validated_relative_string _) as [name|e] eqn:En.
  - apply wp_modify. exists [{| if_source := FromDescriptor d; if_collection_name := name |}]. simpl.
    split_and!; [done | constructor; [by eapply validated_checked | constructor] | |]; unfold fds; simpl; set_solver.
  - apply wp_bind, wp_modify, wp_fail. simpl. replace (({[d]} ∪ im_open st) ∖ {[d]}) with (im_open st) by set_solver.
    destruct st. reflexivity.
Qed.

Lemma wp_check_files limits files total st n (Q : result Z AnyhowError → Importing → nat → Prop) :
  (∀ e n', Q (Err e) st n') →
  (∀ total' n', Forall (λ f, str_len (if_collection_name f) ≤ max_path_bytes limits) files →
     (total ≤ max_total_bytes limits → total' ≤ max_total_bytes limits) → Q (Ok total') st n') →
  wp (fold_each (check_file limits) files total) st n Q.
Proof.
  revert total n. induction files as [|f files IH]; intros total n He Ho; simpl; [by apply wp_ret, Ho|].
  apply wp_bind. unfold check_file. destruct (Z.ltb_spec (max_path_bytes limits) (str_len (if_collection_name f)));
    [by apply wp_fail|].
  assert (∀ total1 n1, (total ≤ max_total_bytes limits → total1 ≤ max_total_bytes limits) →
    wp (fold_each (check_file limits) files total1) st n1 Q) as Hrest.
  { intros total1 n1 Hle1. apply IH; [done|]. intros total2 n2 Hf Hle2. apply Ho; [by constructor|auto]. }
  destruct (if_source f) as [path|fd]; [|by apply wp_ret, Hrest].
  apply wp_bind. unfold wp at 1, look. apply wp_bind, wp_of_result. destruct (fs_len n path) as [len|]; [|apply He].
  simpl. destruct (_ <? _); [by apply wp_fail|].
  destruct (Z.ltb_spec (max_total_bytes limits) (total + len)); [by apply wp_fail|]. by apply wp_ret, Hrest.
Qed.

Lemma wp_drop_files files st n :
  wp (for_each files drop_file) st n (λ r st' _, r = Ok tt ∧ im_open st' = im_open st ∖ fds files).
Proof.
  revert st n. induction files as [|f files IH]; intros st n; simpl; [apply wp_ret; set_solver|].
  apply wp_bind. unfold drop_file. destruct (if_source f) as [path|fd] eqn:Ef.
  - apply wp_ret. eapply wp_mono; [apply IH|]. intros r st' _ [-> Ho]. split; [done|]. rewrite Ho.
    unfold fds. simpl. by rewrite Ef.
  - apply wp_modify. eapply wp_mono; [apply IH|]. intros r st' _ [-> Ho]. split; [done|]. rewrite Ho.
    unfold fds. simpl. rewrite Ef. simpl. set_solver.
Qed.

Lemma wp_take_files st n (Q : result (list ImportSourceFile) AnyhowError → Importing → nat → Prop) :
  Q (Ok (im_files st)) {| im_open := im_open st; im_files := [] |} n → wp take_files st n Q.
Proof. done. Qed.

(** C26: the files that sources stand for are at least one and at most the limit, each
    under a checked relative name within the length limit, so that a receiver accepts it; and the
    descriptors open afterwards are those from before and the ones these files own. If anything
    is refused, no descriptor stays open. *)
Theorem import_files_checked sources limits st n :
  wp (collect_import_files_with_limits sources limits) st n (λ r st' _,
    match r with
    | Ok files =>
        files ≠ [] ∧ Z.of_nat (length files) ≤ max_collection_files limits ∧
        Forall (λ f, checked_name (if_collection_name f) ∧
                     str_len (if_collection_name f) ≤ max_path_bytes limits ∧
                     ∀ dir, is_ok (safe_output_path dir (if_collection_name f)) = true) files ∧
        im_open st' = im_open st ∪ fds files ∧ fds files ## im_open st
    | Err _ => im_open st' = im_open st
    end).
Proof.
  unfold collect_import_files_with_limits. destruct (_ <? _); [by apply wp_fail|].
  apply wp_bind, wp_take_files. set (st0 := {| im_open := im_open st; im_files := [] |}).
  apply wp_bind, wp_try.
  assert (∀ (r : result unit AnyhowError) st' n', gathers st0 st' →
    (r = Ok tt → im_files st' ≠ [] ∧ Z.of_nat (length (im_files st')) ≤ max_collection_files limits ∧
       Forall (λ f, str_len (if_collection_name f) ≤ max_path_bytes limits) (im_files st')) →
    wp (files ← take_files; match r with Ok _ => ret files | Err error => for_each files drop_file;; fail error end)
      st' n' (λ r st' _, match r with
        | Ok files => files ≠ [] ∧ Z.of_nat (length files) ≤ max_collection_files limits ∧
            Forall (λ f, checked_name (if_collection_name f) ∧
                     str_len (if_collection_name f) ≤ max_path_bytes limits ∧
                     ∀ dir, is_ok (safe_output_path dir (if_collection_name f)) = true) files ∧
            im_open st' = im_open st ∪ fds files ∧ fds files ## im_open st
        | Err _ => im_open st' = im_open st
        end)) as Hend.
  { intros r st' n' (files & Ef & Hnames & Eo & Hd) Hok. simpl in *. apply wp_bind, wp_take_files.
    rewrite Ef in *. destruct r as [[]|e].
    - apply wp_ret. destruct (Hok eq_refl) as (Hne & Hlen & Hlens). split_and!; [done..| |done|done].
      rewrite Forall_forall in Hnames, Hlens |- *. intros f Hf. split_and!; [by apply Hnames|by apply Hlens|].
      destruct (Hnames f Hf) as (parts & _ & Hp & ->). intros dir. eapply checked_name_passes.
      apply path_to_string_relative. exists parts. by rewrite components_join.
    - apply wp_bind. eapply wp_mono; [apply wp_drop_files|]. intros r s1 n1 [-> Ho]. apply wp_fail. simpl in Ho.
      rewrite Ho, Eo. set_solver. }
  apply wp_bind. eapply wp_mono; [apply (within_for_each gathers), within_collect_source|].
  intros [[]|e] st1 n1 Hg; [|by apply (Hend (Err _))].
  apply wp_bind, wp_get. cbv zeta. destruct (bool_decide_reflect (im_files st1 = [])) as [Hne|Hne]; [by apply wp_fail, (Hend (Err _))|].
  destruct (Z.ltb_spec (max_collection_files limits) (Z.of_nat (length (im_files st1)))); [by apply wp_fail, (Hend (Err _))|].
  apply wp_bind, wp_check_files; [intros; by apply (Hend (Err _))|]. intros total n2 Hlens _. apply wp_ret, (Hend (Ok tt)); [done|]. intros _. by split_and!.
Qed.
End ImportSpec.

(** ** File URLs *)

(** The reference encoding: unreserved characters and slashes stand for themselves. *)
Definition unreserved (a : ascii) : bool :=
  byte_in 48 57 a || byte_in 65 90 a || byte_in 97 122 a ||
  bool_decide (a ∈ String.list_ascii_of_string "-._~/").
Definition hex_char (v : Z) : ascii := ascii_of_N (Z.to_N (if v <? 10 then v + 48 else v + 55)).
Fixpoint percent_encode (s : string) : string :=
  match s with
  | EmptyString => EmptyString
  | String a s =>
      if unreserved a then String a (percent_encode s)
      else let b := Z.of_N (N_of_ascii a) in
           String "%" (String (hex_char (Z.shiftr b 4)) (String (hex_char (Z.land b 15)) (percent_encode s)))
  end.

Lemma percent_bytes_plain a s :
  a ≠ "%"%char → percent_bytes (String a s) = let? out := percent_bytes s in Ok (String a out).
Proof. intros Ha. destruct a as [[] [] [] [] [] [] [] []]; try reflexivity. by destruct Ha. Qed.

Lemma unreserved_plain a : unreserved a = true → a ≠ "%"%char.
Proof. by intros Hu ->. Qed.

Lemma percent_bytes_escape a s :
  percent_bytes (String "%" (String (hex_char (Z.shiftr (Z.of_N (N_of_ascii a)) 4))
    (String (hex_char (Z.land (Z.of_N (N_of_ascii a)) 15)) s))) =
  let? out := percent_bytes s in Ok (String a out).
Proof. destruct a as [[] [] [] [] [] [] [] []]; reflexivity. Qed.

(** Decoding inverts the percent encoding of file URLs on every text. *)
Theorem percent_decode_encode s :
  utf8 s = true → percent_decode_file_url_path (percent_encode s) = Ok s.
Proof.
  intros Hs. assert (percent_bytes (percent_encode s) = Ok s) as E.
  { clear Hs. induction s as [|a s IH]; [done|]. cbn [percent_encode].
    destruct (unreserved a) eqn:Hu.
    - rewrite percent_bytes_plain by by apply unreserved_plain. by rewrite IH.
    - cbv zeta. by rewrite percent_bytes_escape, IH. }
  unfold percent_decode_file_url_path. rewrite E. simpl. by rewrite Hs.
Qed.

(** ** Concrete runs *)

Lemma output_path_confined_witness :
  safe_output_path "/in/" "docs//./a.txt" = Ok "/in/docs//./a.txt"%string ∧
  ∃ parts, Forall plain parts ∧ components "/in/docs//./a.txt" = components "/in/" ++ (Normal <$> parts) ∧
    path_to_string "docs//./a.txt" true = Ok (join "/" parts) ∧
    components (join "/" parts) = components "docs//./a.txt".
Proof.
  split; [by vm_compute|]. apply (output_path_confined "/in/" "docs//./a.txt" "/in/docs//./a.txt"). by vm_compute.
Defined.

Lemma percent_decode_encode_witness :
  percent_encode "a b%" = "a%20b%25"%string ∧ percent_decode_file_url_path "a%20b%25" = Ok "a b%"%string.
Proof. split; [by vm_compute|]. apply (percent_decode_encode "a b%"). by vm_compute. Defined.

Section Witnesses.
(** A directory with two files, and descriptors of regular files. *)
#[local] Instance small_files : Files := {|
  fs_is_dir := λ _ path, str_eqb path "/home/docs";
  fs_walk := λ _ _, [Ok (EmptyString, false); Ok ("a.txt", true); Ok ("sub/b.txt", true)];
  fs_len := λ _ _, Ok 10;
  fd_dup := λ _ opened _, Ok (fresh opened);
  fd_mode := λ _ _, Ok S_IFREG
|}%string.
#[local] Instance small_files_laws : FilesLaws.
Proof. split. intros n opened fd d [= <-]. apply is_fresh. Qed.

Example some_sources : list ShareSource :=
  [{| ss_kind := SourcePath; ss_value := "/home/docs"; ss_display_name := None; ss_is_directory := false |};
   {| ss_kind := FileDescriptor; ss_value := "4"; ss_display_name := Some "c.txt"; ss_is_directory := false |}]%string.

Example some_files : list ImportSourceFile :=
  [{| if_source := FromPath "/home/docs/a.txt"; if_collection_name := "docs/a.txt" |};
   {| if_source := FromPath "/home/docs/sub/b.txt"; if_collection_name := "docs/sub/b.txt" |};
   {| if_source := FromDescriptor (fresh ({[4]} : gset Z)); if_collection_name := "c.txt" |}]%string.

Lemma import_files_checked_witness :
  (run (collect_import_files_with_limits some_sources default_core_limits)
      {| im_open := {[4]}; im_files := [] |}).1 = Ok some_files ∧
  im_open (run (collect_import_files_with_limits some_sources default_core_limits)
      {| im_open := {[4]}; im_files := [] |}).2 = {[4]} ∪ fds some_files.
Proof.
  assert ((run (collect_import_files_with_limits some_sources default_core_limits)
      {| im_open := {[4]}; im_files := [] |}).1 = Ok some_files) as E by by vm_compute.
  split; [exact E|].
  pose proof (run_wp _ {| im_open := {[4]}; im_files := [] |} (λ r st', match r with
    | Ok files => files ≠ [] ∧ Z.of_nat (length files) ≤ max_collection_files default_core_limits ∧
        Forall (λ f, checked_name (if_collection_name f) ∧
                     str_len (if_collection_name f) ≤ max_path_bytes default_core_limits ∧
                     ∀ dir, is_ok (safe_output_path dir (if_collection_name f)) = true) files ∧
        im_open st' = {[4]} ∪ fds files ∧ fds files ## {[4]}
    | Err _ => im_open st' = {[4]}
    end) (import_files_checked some_sources default_core_limits _ 0)) as Hrun.
  cbv beta in Hrun. rewrite E in Hrun. by destruct Hrun as (_ & _ & _ & Hopen & _).
Defined.
End Witnesses.
