(* ===== verification/TargetedStore.v ===== *)
(** * [targeted_transfer/store.rs], [store_outbox.rs] and [schema.rs]

    The durable rows of targeted transfers: six SQLite tables, and one definition per
    store method. Columns hold what SQLite holds: state and role as text, unsigned
    counters as the signed value [as i64] produces. *)

From S2P Require Import Prelude Sql ControlPlane Errors States Api.

(** ** Tables *)

(** [targeted_transfers], without its primary key [id]. *)
Record TransferColumns : Type := {
  c_protocol_transfer_id : Z;
  c_sender_endpoint_id : string;
  c_receiver_endpoint_id : string;
  c_manifest_id : string;
  c_content_hash : string;
  c_transfer_name : string;
  c_file_count : Z;
  c_total_size : Z;
  c_verified_bytes : Z;
  c_blob_ticket : option string;
  c_authorization_secret_handle : option string;
  c_role : string;
  c_state : string;
  c_created_at : Z;
  c_updated_at : Z
}.

(** [targeted_accepted_offer_intents], without its primary key [transfer_id]. *)
Record IntentColumns : Type := {
  i_sender_endpoint_id : string;
  i_receiver_endpoint_id : string;
  i_manifest_id : string;
  i_content_hash : string;
  i_transfer_name : string;
  i_file_count : Z;
  i_total_size : Z;
  i_protocol_version : Z;
  i_accepted_at : Z
}.

(** The two delivery outboxes. *)
Record OutboxColumns : Type := { o_created_at : Z; o_next_attempt_at : Z }.

Record Tables : Type := {
  targeted_transfers : gmap string TransferColumns;
  accepted_offer_intents : gmap string IntentColumns;
  authorization_delivery_outbox : gmap string OutboxColumns;
  completion_outbox : gmap string OutboxColumns;
  payload_release_outbox : gmap string Z;        (* created_at *)
  schema_migrations : gmap string Z              (* applied_at *)
}.

Definition on_transfers (f : gmap string TransferColumns → gmap string TransferColumns)
    (t : Tables) : Tables :=
  {| targeted_transfers := f (targeted_transfers t);
     accepted_offer_intents := accepted_offer_intents t;
     authorization_delivery_outbox := authorization_delivery_outbox t;
     completion_outbox := completion_outbox t;
     payload_release_outbox := payload_release_outbox t;
     schema_migrations := schema_migrations t |}.

Definition on_intents (f : gmap string IntentColumns → gmap string IntentColumns)
    (t : Tables) : Tables :=
  {| targeted_transfers := targeted_transfers t;
     accepted_offer_intents := f (accepted_offer_intents t);
     authorization_delivery_outbox := authorization_delivery_outbox t;
     completion_outbox := completion_outbox t;
     payload_release_outbox := payload_release_outbox t;
     schema_migrations := schema_migrations t |}.

Definition on_deliveries (f : gmap string OutboxColumns → gmap string OutboxColumns)
    (t : Tables) : Tables :=
  {| targeted_transfers := targeted_transfers t;
     accepted_offer_intents := accepted_offer_intents t;
     authorization_delivery_outbox := f (authorization_delivery_outbox t);
     completion_outbox := completion_outbox t;
     payload_release_outbox := payload_release_outbox t;
     schema_migrations := schema_migrations t |}.

Definition on_completions (f : gmap string OutboxColumns → gmap string OutboxColumns)
    (t : Tables) : Tables :=
  {| targeted_transfers := targeted_transfers t;
     accepted_offer_intents := accepted_offer_intents t;
     authorization_delivery_outbox := authorization_delivery_outbox t;
     completion_outbox := f (completion_outbox t);
     payload_release_outbox := payload_release_outbox t;
     schema_migrations := schema_migrations t |}.

Definition on_releases (f : gmap string Z → gmap string Z) (t : Tables) : Tables :=
  {| targeted_transfers := targeted_transfers t;
     accepted_offer_intents := accepted_offer_intents t;
     authorization_delivery_outbox := authorization_delivery_outbox t;
     completion_outbox := completion_outbox t;
     payload_release_outbox := f (payload_release_outbox t);
     schema_migrations := schema_migrations t |}.

Definition on_migrations (f : gmap string Z → gmap string Z) (t : Tables) : Tables :=
  {| targeted_transfers := targeted_transfers t;
     accepted_offer_intents := accepted_offer_intents t;
     authorization_delivery_outbox := authorization_delivery_outbox t;
     completion_outbox := completion_outbox t;
     payload_release_outbox := payload_release_outbox t;
     schema_migrations := f (schema_migrations t) |}.

(** The columns that an [UPDATE] of [targeted_transfers] may set. *)
Definition set_columns (state : string) (verified_bytes : Z) (blob_ticket handle : option string)
    (updated_at : Z) (r : TransferColumns) : TransferColumns :=
  {| c_protocol_transfer_id := c_protocol_transfer_id r;
     c_sender_endpoint_id := c_sender_endpoint_id r;
     c_receiver_endpoint_id := c_receiver_endpoint_id r;
     c_manifest_id := c_manifest_id r;
     c_content_hash := c_content_hash r;
     c_transfer_name := c_transfer_name r;
     c_file_count := c_file_count r;
     c_total_size := c_total_size r;
     c_verified_bytes := verified_bytes;
     c_blob_ticket := blob_ticket;
     c_authorization_secret_handle := handle;
     c_role := c_role r;
     c_state := state;
     c_created_at := c_created_at r;
     c_updated_at := updated_at |}.

(** [SET state = ?, updated_at = ?]. *)
Definition set_state_columns (state : string) (now : Z) (r : TransferColumns) : TransferColumns :=
  set_columns state (c_verified_bytes r) (c_blob_ticket r) (c_authorization_secret_handle r) now r.

(** ** Rows as the code reads them *)

(** [TargetedTransferRow]. *)
Record TargetedTransferRow : Type := {
  tr_id : string;
  tr_protocol_transfer_id : Z;
  tr_sender_endpoint_id : string;
  tr_receiver_endpoint_id : string;
  tr_manifest_id : string;
  tr_content_hash : string;
  tr_transfer_name : string;
  tr_file_count : Z;
  tr_total_size : Z;
  tr_verified_bytes : Z;
  tr_blob_ticket : option string;
  tr_authorization_secret_handle : option string;
  tr_role : TargetedTransferRole;
  tr_state : TargetedTransferState;
  tr_created_at : Z;
  tr_updated_at : Z
}.

(** Text lists of the [IN (..)] and [NOT IN (..)] clauses. *)
Definition preapproval_texts : list string := ["preparing"; "offering"; "awaiting_approval"]%string.
Definition resumable_texts : list string :=
  ["approved"; "connecting"; "transferring"; "interrupted"]%string.
Definition terminal_texts : list string :=
  ["completed"; "declined"; "cancelled"; "failed"; "deleted"]%string.

Definition in_flight_texts : list string := ["connecting"; "transferring"]%string.

Section Store.
Context `{Env} `{ForeignText}.

Abbreviation DB := (M Tables VnidropError).

(** *** Statement shapes *)

(** [UPDATE targeted_transfers SET f WHERE P]: rows affected. *)
Definition update_transfers (P : string → TransferColumns → bool)
    (f : TransferColumns → TransferColumns) : DB nat :=
  sql (λ t, Ok (count_where P (targeted_transfers t),
                on_transfers (update_where P (λ _, f)) t)).

(** [… RETURNING id]. *)
Definition update_transfers_returning (P : string → TransferColumns → bool)
    (f : TransferColumns → TransferColumns) : DB (list string) :=
  sql (λ t, Ok ((select_where P (targeted_transfers t)).*1,
                on_transfers (update_where P (λ _, f)) t)).

(** [DELETE FROM targeted_transfers WHERE P]; the outboxes cascade. *)
Definition delete_transfers (P : string → TransferColumns → bool) : DB nat :=
  sql (λ t,
    let kept := delete_where P (targeted_transfers t) in
    let orphan {A} (k : string) (_ : A) :=
      bool_decide (is_Some (targeted_transfers t !! k)) && bool_decide (kept !! k = None) in
    Ok (count_where P (targeted_transfers t),
        on_releases (delete_where orphan) (on_completions (delete_where orphan)
          (on_deliveries (delete_where orphan) (on_transfers (λ _, kept) t))))).

Definition delete_intents (P : string → IntentColumns → bool) : DB unit :=
  sql (λ t, Ok (tt, on_intents (delete_where P) t)).
Definition delete_deliveries (P : string → bool) : DB unit :=
  sql (λ t, Ok (tt, on_deliveries (delete_where (λ k _, P k)) t)).
Definition delete_completions (P : string → bool) : DB unit :=
  sql (λ t, Ok (tt, on_completions (delete_where (λ k _, P k)) t)).
Definition delete_releases (P : string → bool) : DB unit :=
  sql (λ t, Ok (tt, on_releases (delete_where (λ k _, P k)) t)).

Definition query {A} (f : Tables → A) : DB A := sql (λ t, Ok (f t, t)).

(** [INSERT INTO targeted_transfers]: the primary key and [protocol_transfer_id]
    are unique. *)
Definition insert_transfer_row (id : string) (r : TransferColumns) : DB unit :=
  sql (λ t,
    if exists_where (λ _ r', c_protocol_transfer_id r' =? c_protocol_transfer_id r)
         (targeted_transfers t)
    then Err SqlxUnique
    else let? transfers := insert_row id r (targeted_transfers t) in
         Ok (tt, on_transfers (λ _, transfers) t)).

(** The foreign key of the outboxes. *)
Definition references_transfer (id : string) (t : Tables) (t' : Tables) :
    result (unit * Tables) SqlxError :=
  match targeted_transfers t !! id with Some _ => Ok (tt, t') | None => Err SqlxForeignKey end.

(** *** Row conversions *)

Definition row_to_transfer (kr : string * TransferColumns) : result TargetedTransfer VnidropError :=
  let (id, r) := kr in
  let? role := parse_role (c_role r) in
  let? state := parse_targeted_state (c_state r) in
  Ok {| tt_id := id; tt_role := role;
        tt_sender_endpoint_id := c_sender_endpoint_id r;
        tt_receiver_endpoint_id := c_receiver_endpoint_id r;
        tt_manifest_id := c_manifest_id r;
        tt_transfer_name := c_transfer_name r;
        tt_file_count := as_u64 (c_file_count r);
        tt_total_size := as_u64 (c_total_size r);
        tt_verified_bytes := as_u64 (c_verified_bytes r);
        tt_state := state;
        tt_created_at := c_created_at r;
        tt_updated_at := c_updated_at r |}.

Definition row_to_full (kr : string * TransferColumns) : result TargetedTransferRow VnidropError :=
  let (id, r) := kr in
  let? role := parse_role (c_role r) in
  let? state := parse_targeted_state (c_state r) in
  Ok {| tr_id := id;
        tr_protocol_transfer_id := as_u64 (c_protocol_transfer_id r);
        tr_sender_endpoint_id := c_sender_endpoint_id r;
        tr_receiver_endpoint_id := c_receiver_endpoint_id r;
        tr_manifest_id := c_manifest_id r;
        tr_content_hash := c_content_hash r;
        tr_transfer_name := c_transfer_name r;
        tr_file_count := as_u64 (c_file_count r);
        tr_total_size := as_u64 (c_total_size r);
        tr_verified_bytes := as_u64 (c_verified_bytes r);
        tr_blob_ticket := c_blob_ticket r;
        tr_authorization_secret_handle := c_authorization_secret_handle r;
        tr_role := role;
        tr_state := state;
        tr_created_at := c_created_at r;
        tr_updated_at := c_updated_at r |}.

(** The bindings of [insert]. *)
Definition row_columns (row : TargetedTransferRow) : TransferColumns :=
  {| c_protocol_transfer_id := as_i64 (tr_protocol_transfer_id row);
     c_sender_endpoint_id := tr_sender_endpoint_id row;
     c_receiver_endpoint_id := tr_receiver_endpoint_id row;
     c_manifest_id := tr_manifest_id row;
     c_content_hash := tr_content_hash row;
     c_transfer_name := tr_transfer_name row;
     c_file_count := as_i64 (tr_file_count row);
     c_total_size := as_i64 (tr_total_size row);
     c_verified_bytes := as_i64 (tr_verified_bytes row);
     c_blob_ticket := tr_blob_ticket row;
     c_authorization_secret_handle := tr_authorization_secret_handle row;
     c_role := role_as_str (tr_role row);
     c_state := targeted_as_str (tr_state row);
     c_created_at := tr_created_at row;
     c_updated_at := tr_updated_at row |}.

Definition offer_intent (offer : PendingTargetedOffer) (now : Z) : IntentColumns :=
  {| i_sender_endpoint_id := po_sender_endpoint_id offer;
     i_receiver_endpoint_id := po_receiver_endpoint_id offer;
     i_manifest_id := po_manifest_id offer;
     i_content_hash := po_content_hash offer;
     i_transfer_name := po_transfer_name offer;
     i_file_count := as_i64 (po_file_count offer);
     i_total_size := as_i64 (po_total_size offer);
     i_protocol_version := po_protocol_version offer;
     i_accepted_at := now |}.

(** The [WHERE] clause of the upsert: every column but [accepted_at] agrees. *)
Definition same_consent (x y : IntentColumns) : bool :=
  str_eqb (i_sender_endpoint_id x) (i_sender_endpoint_id y) &&
  str_eqb (i_receiver_endpoint_id x) (i_receiver_endpoint_id y) &&
  str_eqb (i_manifest_id x) (i_manifest_id y) &&
  str_eqb (i_content_hash x) (i_content_hash y) &&
  str_eqb (i_transfer_name x) (i_transfer_name y) &&
  (i_file_count x =? i_file_count y) &&
  (i_total_size x =? i_total_size y) &&
  (i_protocol_version x =? i_protocol_version y).

(** *** [store.rs] *)

Definition persist_accepted_offer_intent (offer : PendingTargetedOffer) : DB unit :=
  now ← now_ms;
  let new := offer_intent offer now in
  rows_affected ← sql (λ t,
    let '(n, intents) :=
      upsert_where (po_transfer_id offer) new (λ _ old, same_consent old new)
        (λ old, {| i_sender_endpoint_id := i_sender_endpoint_id old;
                   i_receiver_endpoint_id := i_receiver_endpoint_id old;
                   i_manifest_id := i_manifest_id old;
                   i_content_hash := i_content_hash old;
                   i_transfer_name := i_transfer_name old;
                   i_file_count := i_file_count old;
                   i_total_size := i_total_size old;
                   i_protocol_version := i_protocol_version old;
                   i_accepted_at := i_accepted_at new |})
        (accepted_offer_intents t) in
    Ok (n, on_intents (λ _, intents) t));
  if Nat.eqb rows_affected 0
  then fail (invalid_input (anyhow_msg "accepted targeted offer conflicts with durable consent"))
  else ret tt.

Definition clear_accepted_offer_intent (id : string) : DB unit :=
  delete_intents (λ k _, str_eqb k id).

Definition clear_accepted_intent_if_sender (id sender_endpoint_id : string) : DB unit :=
  delete_intents (λ k r, str_eqb k id && str_eqb (i_sender_endpoint_id r) sender_endpoint_id).

Definition list_accepted_intent_senders : DB (list (string * string)) :=
  query (λ t, (λ kr : string * IntentColumns, (kr.1, i_sender_endpoint_id kr.2)) <$>
              map_to_list (accepted_offer_intents t)).

Definition contains_protocol_id (protocol_transfer_id : Z) : DB bool :=
  query (λ t, exists_where (λ _ r, c_protocol_transfer_id r =? as_i64 protocol_transfer_id)
                (targeted_transfers t)).

Definition count_sender_provider_obligations : DB Z :=
  query (λ t, Z.of_nat (count_where (λ _ r, str_eqb (c_role r) "sender" &&
    str_in (c_state r) (preapproval_texts ++ resumable_texts)) (targeted_transfers t))).

Definition count_receiver_runtime_obligations : DB Z :=
  query (λ t, Z.of_nat (count_where (λ _ r, str_eqb (c_role r) "receiver" &&
    str_in (c_state r) ["approved"; "connecting"; "transferring"]%string) (targeted_transfers t))).

Definition abandon_sender_preapproval (id : string) : DB bool :=
  n ← delete_transfers (λ k r, str_eqb k id && str_eqb (c_role r) "sender" &&
                               str_in (c_state r) preapproval_texts);
  ret (Nat.eqb n 1).

Definition insert (row : TargetedTransferRow) : DB unit :=
  insert_transfer_row (tr_id row) (row_columns row).

(** The compare-and-set [UPDATE … WHERE id = ? AND state = ?] and its check. *)
Definition compare_and_set (id : string) (from to : TargetedTransferState) : DB unit :=
  now ← now_ms;
  n ← update_transfers (λ k r, str_eqb k id && str_eqb (c_state r) (targeted_as_str from))
        (set_state_columns (targeted_as_str to) now);
  if Nat.eqb n 0 then fail (InvalidTransition (transition_text from to)) else ret tt.

Definition set_state (id : string) (from to : TargetedTransferState) : DB unit :=
  of_result (validate_transition_to from to);;
  compare_and_set id from to.

Definition get (id : string) : DB (option TargetedTransfer) :=
  row ← query (λ t, (λ r, (id, r)) <$> targeted_transfers t !! id);
  of_result (option_transpose row_to_transfer row).

Definition get_row (id : string) : DB (option TargetedTransferRow) :=
  row ← query (λ t, (λ r, (id, r)) <$> targeted_transfers t !! id);
  of_result (option_transpose row_to_full row).

Definition set_state_from_any (id : string) (to : TargetedTransferState) : DB unit :=
  row ← get_row id;
  match row with
  | None => fail (invalid_input (anyhow_msg "unknown targeted transfer"))
  | Some row =>
      if bool_decide (tr_state row = to) then ret tt
      else of_result (validate_transition_to (tr_state row) to);;
           compare_and_set id (tr_state row) to
  end.

(** The transaction commits on every path; the outcome is decided inside it. *)
Definition mark_sender_completed (id : string) : DB bool :=
  outcome ← sql_tx (
    now ← now_ms;
    n ← update_transfers
          (λ k r, str_eqb k id && str_eqb (c_role r) "sender" && str_in (c_state r) resumable_texts)
          (λ r, set_columns "completed" (c_total_size r) (c_blob_ticket r)
                  (c_authorization_secret_handle r) now r);
    if Nat.eqb n 0 then
      completed ← query (λ t, exists_where (λ k r, str_eqb k id && str_eqb (c_role r) "sender" &&
                                 str_eqb (c_state r) "completed") (targeted_transfers t));
      when completed (delete_deliveries (λ k, str_eqb k id));;
      ret (if completed : bool then Ok false
           else Err (InvalidTransition "sender transfer cannot be completed"))
    else
      delete_deliveries (λ k, str_eqb k id);;
      created ← now_ms;
      sql (λ t, references_transfer id t (on_releases (insert_or_ignore id created) t));;
      ret (Ok true));
  of_result outcome.

Definition finalize_sender_authorization_and_enqueue
    (id blob_ticket authorization_secret_handle : string) : DB unit :=
  sql_tx (
    now ← now_ms;
    n ← update_transfers
          (λ k r, str_eqb k id && str_eqb (c_role r) "sender" &&
                  str_eqb (c_state r) "awaiting_approval")
          (λ r, set_columns "approved" (c_verified_bytes r) (Some blob_ticket)
                  (Some authorization_secret_handle) now r);
    if Nat.eqb n 0 then fail (InvalidTransition "sender transfer cannot be approved")
    else sql (λ t, references_transfer id t
           (on_deliveries <[id := {| o_created_at := now; o_next_attempt_at := now |}]> t))).

Definition authorized_intent (auth : TargetedAuthorization) : IntentColumns :=
  {| i_sender_endpoint_id := au_sender_endpoint_id auth;
     i_receiver_endpoint_id := au_receiver_endpoint_id auth;
     i_manifest_id := au_manifest_id auth;
     i_content_hash := au_content_hash auth;
     i_transfer_name := au_transfer_name auth;
     i_file_count := as_i64 (au_file_count auth);
     i_total_size := as_i64 (au_total_size auth);
     i_protocol_version := au_protocol_version auth;
     i_accepted_at := 0 |}.

Definition receiver_columns (auth : TargetedAuthorization) (handle : string) (now : Z) :
    TransferColumns :=
  {| c_protocol_transfer_id := as_i64 (au_protocol_transfer_id auth);
     c_sender_endpoint_id := au_sender_endpoint_id auth;
     c_receiver_endpoint_id := au_receiver_endpoint_id auth;
     c_manifest_id := au_manifest_id auth;
     c_content_hash := au_content_hash auth;
     c_transfer_name := au_transfer_name auth;
     c_file_count := as_i64 (au_file_count auth);
     c_total_size := as_i64 (au_total_size auth);
     c_verified_bytes := 0;
     c_blob_ticket := Some (au_blob_ticket auth);
     c_authorization_secret_handle := Some handle;
     c_role := "receiver";
     c_state := "approved";
     c_created_at := now;
     c_updated_at := now |}.

Definition persist_receiver_authorization_and_consume_intent
    (auth : TargetedAuthorization) (authorization_secret_handle : string) : DB bool :=
  sql_tx (
    matches ← query (λ t, exists_where (λ k r, str_eqb k (au_transfer_id auth) &&
                             same_consent r (authorized_intent auth)) (accepted_offer_intents t));
    if negb matches then
      fail (permission (anyhow_msg "authorization does not match durable receiver consent"))
    else
      now ← now_ms;
      insert_transfer_row (au_transfer_id auth)
        (receiver_columns auth authorization_secret_handle now);;
      delete_intents (λ k _, str_eqb k (au_transfer_id auth));;
      ret true).

Definition fail_resumable_and_clear_delivery (id : string) : DB bool :=
  sql_tx (
    now ← now_ms;
    n ← update_transfers (λ k r, str_eqb k id && str_in (c_state r) resumable_texts)
          (set_state_columns "failed" now);
    when (Nat.eqb n 1) (delete_deliveries (λ k, str_eqb k id));;
    ret (Nat.eqb n 1)).

Definition newest_first (x y : string * TransferColumns) : Prop :=
  c_updated_at y.2 ≤ c_updated_at x.2.
#[global] Instance newest_first_dec : RelDecision newest_first.
Proof. intros x y. unfold newest_first. apply _. Defined.
#[global] Instance newest_first_total : Total newest_first.
Proof. intros x y. unfold newest_first. lia. Qed.

(** SQLite compares text byte by byte. *)
Definition oldest_first (x y : string * TransferColumns) : Prop :=
  c_created_at x.2 < c_created_at y.2 ∨
  (c_created_at x.2 = c_created_at y.2 ∧ String.leb x.1 y.1 = true).
#[global] Instance oldest_first_dec : RelDecision oldest_first.
Proof. intros x y. unfold oldest_first. apply _. Defined.

Definition list_transfers : DB (list TargetedTransfer) :=
  rows ← query (λ t, order_by newest_first (map_to_list (targeted_transfers t)));
  of_result (collect_results row_to_transfer rows).

Definition select_rows (P : string → TransferColumns → bool) (t : Tables) :
    list (string * TransferColumns) := select_where P (targeted_transfers t).

Definition list_resumable_sender_rows : DB (list TargetedTransferRow) :=
  rows ← query (λ t, order_by oldest_first (select_rows (λ _ r,
           str_eqb (c_role r) "sender" && str_in (c_state r) resumable_texts) t));
  of_result (collect_results row_to_full rows).

Definition list_resumable_rows : DB (list TargetedTransferRow) :=
  rows ← query (λ t, order_by oldest_first (select_rows (λ _ r,
           str_in (c_state r) resumable_texts) t));
  of_result (collect_results row_to_full rows).

Definition involves_peer (peer : string) (r : TransferColumns) : bool :=
  str_eqb (c_sender_endpoint_id r) peer || str_eqb (c_receiver_endpoint_id r) peer.

Definition cancel_by_peer (peer_endpoint_id : string) : DB (list string) :=
  now ← now_ms;
  sql_tx (
    delete_intents (λ _ r, str_eqb (i_sender_endpoint_id r) peer_endpoint_id ||
                           str_eqb (i_receiver_endpoint_id r) peer_endpoint_id);;
    sql (λ t, Ok (tt, on_deliveries (delete_where (λ k _,
           exists_where (λ k' r, str_eqb k' k && involves_peer peer_endpoint_id r)
             (targeted_transfers t))) t));;
    update_transfers_returning
      (λ _ r, involves_peer peer_endpoint_id r && negb (str_in (c_state r) terminal_texts))
      (λ r, set_columns "cancelled" (c_verified_bytes r) None None now r)).

Definition ids_for_peer (peer_endpoint_id : string) : DB (list string) :=
  query (λ t, (select_rows (λ _ r, involves_peer peer_endpoint_id r) t).*1).

Definition authorization_rows : DB (list TargetedTransferRow) :=
  rows ← query (select_rows (λ _ r,
           bool_decide (c_authorization_secret_handle r ≠ None)));
  of_result (collect_results row_to_full rows).

Definition mark_interrupted_in_flight : DB (list string) :=
  now ← now_ms;
  update_transfers_returning (λ _ r, str_in (c_state r) in_flight_texts)
    (set_state_columns "interrupted" now).

Definition sender_preapproval (_ : string) (r : TransferColumns) : bool :=
  str_eqb (c_role r) "sender" && str_in (c_state r) preapproval_texts.

Definition fail_sender_preapproval_on_restart : DB (list TargetedTransferRow) :=
  selected ← query (select_rows sender_preapproval);
  rows ← of_result (collect_results row_to_full selected);
  match rows with
  | [] => ret rows
  | _ :: _ =>
      now ← now_ms;
      update_transfers sender_preapproval (set_state_columns "failed" now);;
      ret rows
  end.

(** *** [store_outbox.rs] *)

Definition join_outbox {O} (t : gmap string TransferColumns) (outbox : gmap string O) :
    list (string * TransferColumns * O) :=
  map_to_list (map_zip t outbox) ≫= λ kro, [(kro.1, kro.2.1, kro.2.2)].

Definition due_first (x y : string * TransferColumns * OutboxColumns) : Prop :=
  o_next_attempt_at x.2 < o_next_attempt_at y.2 ∨
  (o_next_attempt_at x.2 = o_next_attempt_at y.2 ∧ o_created_at x.2 ≤ o_created_at y.2).
#[global] Instance due_first_dec : RelDecision due_first.
Proof. intros x y. unfold due_first. apply _. Defined.

Definition due_rows (role state : string) (now : Z) (outbox : Tables → gmap string OutboxColumns)
    (t : Tables) : list (string * TransferColumns) :=
  (order_by due_first (filter (λ kro : string * TransferColumns * OutboxColumns,
     str_eqb (c_role kro.1.2) role && str_eqb (c_state kro.1.2) state &&
     (o_next_attempt_at kro.2 <=? now) = true) (join_outbox (targeted_transfers t) (outbox t)))).*1.

Definition list_pending_authorization_deliveries : DB (list TargetedTransferRow) :=
  now ← now_ms;
  rows ← query (due_rows "sender" "approved" now authorization_delivery_outbox);
  of_result (collect_results row_to_full rows).

Definition clear_pending_authorization_delivery (id : string) : DB unit :=
  delete_deliveries (λ k, str_eqb k id).

Definition defer (id : string) (next_attempt_at : Z) :
    gmap string OutboxColumns → gmap string OutboxColumns :=
  update_where (λ k _, str_eqb k id)
    (λ _ o, {| o_created_at := o_created_at o; o_next_attempt_at := next_attempt_at |}).

Definition defer_pending_authorization_delivery (id : string) (next_attempt_at : Z) : DB unit :=
  sql (λ t, Ok (tt, on_deliveries (defer id next_attempt_at) t)).

Definition receiver_transferring (id : string) (k : string) (r : TransferColumns) : bool :=
  str_eqb k id && str_eqb (c_role r) "receiver" && str_eqb (c_state r) "transferring".

Definition complete_receiver_and_enqueue (id : string) (verified_bytes : Z) : DB unit :=
  sql_tx (
    now ← now_ms;
    n ← update_transfers (receiver_transferring id)
          (λ r, set_columns "completed" (as_i64 verified_bytes) (c_blob_ticket r)
                  (c_authorization_secret_handle r) now r);
    if Nat.eqb n 0 then fail (InvalidTransition "receiver transfer cannot be completed")
    else
      created ← now_ms;
      sql (λ t, references_transfer id t (on_completions (insert_or_ignore id
             {| o_created_at := created; o_next_attempt_at := created |}) t))).

Definition advance_verified_bytes (id : string) (verified_bytes : Z) : DB bool :=
  now ← now_ms;
  n ← update_transfers
        (λ k r, receiver_transferring id k r && (c_verified_bytes r <? as_i64 verified_bytes))
        (λ r, set_columns (c_state r)
                (Z.min (c_total_size r) (Z.max (c_verified_bytes r) (as_i64 verified_bytes)))
                (c_blob_ticket r) (c_authorization_secret_handle r) now r);
  ret (Nat.eqb n 1).

Definition list_pending_completions : DB (list TargetedTransferRow) :=
  now ← now_ms;
  rows ← query (due_rows "receiver" "completed" now completion_outbox);
  of_result (collect_results row_to_full rows).

Definition clear_pending_completion (id : string) : DB unit :=
  delete_completions (λ k, str_eqb k id).

Definition defer_pending_completion (id : string) (next_attempt_at : Z) : DB unit :=
  sql (λ t, Ok (tt, on_completions (defer id next_attempt_at) t)).

Definition list_completed_sender_rows : DB (list TargetedTransferRow) :=
  rows ← query (λ t, (filter (λ kro : string * TransferColumns * Z,
           str_eqb (c_role kro.1.2) "sender" && str_eqb (c_state kro.1.2) "completed" = true)
           (join_outbox (targeted_transfers t) (payload_release_outbox t))).*1);
  of_result (collect_results row_to_full rows).

Definition clear_pending_payload_release (id : string) : DB unit :=
  delete_releases (λ k, str_eqb k id).

Definition authorization_secret_handles : DB (gset string) :=
  query (λ t, list_to_set (omap (λ kr : string * TransferColumns,
                c_authorization_secret_handle kr.2) (map_to_list (targeted_transfers t)))).

Definition clear_authorization (id : string) : DB unit :=
  sql_tx (
    delete_deliveries (λ k, str_eqb k id);;
    delete_completions (λ k, str_eqb k id);;
    delete_releases (λ k, str_eqb k id);;
    update_transfers (λ k _, str_eqb k id)
      (λ r, set_columns (c_state r) (c_verified_bytes r) None None (c_updated_at r) r);;
    ret tt).

Definition terminal_state_text (state : TargetedTransferState) : result string VnidropError :=
  match state with
  | Cancelled => Ok "cancelled"
  | Deleted => Ok "deleted"
  | _ => Err (invalid_input (anyhow_msg "terminal transition requires cancelled or deleted"))
  end%string.

(** The [WHERE] clause of [transition_terminal], [?2] being [state]. *)
Definition terminal_applies (id state : string) (k : string) (r : TransferColumns) : bool :=
  str_eqb k id && negb (str_eqb (c_state r) state) &&
  ((str_eqb state "deleted" && negb (str_eqb (c_state r) "deleted")) ||
   (str_eqb state "cancelled" && negb (str_in (c_state r) terminal_texts))).

Definition transition_terminal (id : string) (state : TargetedTransferState)
    (clear_authorization : bool) : DB bool :=
  state ← of_result (terminal_state_text state);
  sql_tx (
    delete_intents (λ k _, str_eqb k id);;
    delete_deliveries (λ k, str_eqb k id);;
    when clear_authorization (
      delete_completions (λ k, str_eqb k id);;
      delete_releases (λ k, str_eqb k id));;
    now ← now_ms;
    n ← update_transfers (terminal_applies id state)
          (λ r, set_columns state (c_verified_bytes r)
                  (if clear_authorization then None else c_blob_ticket r)
                  (if clear_authorization then None else c_authorization_secret_handle r) now r);
    ret (Nat.eqb n 1)).

(** *** [schema.rs]: the one-time migration of [ensure_schema] *)

Definition outbox_migration : string := "authorization-delivery-outbox-v1".

(** The rows of [INSERT OR IGNORE … SELECT]. *)
Definition backfill_deliveries (t : Tables) : gmap string OutboxColumns :=
  authorization_delivery_outbox t ∪
  ((λ r, {| o_created_at := c_updated_at r; o_next_attempt_at := 0 |}) <$>
     rows_where (λ _ r, str_eqb (c_role r) "sender" && str_eqb (c_state r) "approved" &&
                        bool_decide (c_blob_ticket r ≠ None) &&
                        bool_decide (c_authorization_secret_handle r ≠ None))
       (targeted_transfers t)).

Definition migrate_authorization_outbox : M Tables AnyhowError unit :=
  asql_tx (
    applied ← asql (λ t, Ok (exists_where (λ k _, str_eqb k outbox_migration)
                               (schema_migrations t), t));
    when (negb applied) (
      asql (λ t, Ok (tt, on_deliveries (λ _, backfill_deliveries t) t));;
      now ← now_ms;
      asql (λ t, let? migrations := insert_row outbox_migration now (schema_migrations t) in
                 Ok (tt, on_migrations (λ _, migrations) t)))).
End Store.

(** ** The write operations, as data *)

Inductive StoreOp : Type :=
| OpPersistIntent (offer : PendingTargetedOffer)
| OpClearIntent (id : string)
| OpClearIntentIfSender (id sender : string)
| OpAbandon (id : string)
| OpInsert (row : TargetedTransferRow)
| OpSetState (id : string) (from to : TargetedTransferState)
| OpSetStateFromAny (id : string) (to : TargetedTransferState)
| OpMarkSenderCompleted (id : string)
| OpFinalize (id blob_ticket handle : string)
| OpPersistReceiver (auth : TargetedAuthorization) (handle : string)
| OpFailResumable (id : string)
| OpCancelByPeer (peer : string)
| OpMarkInterrupted
| OpFailPreapproval
| OpClearDelivery (id : string)
| OpDeferDelivery (id : string) (at_ : Z)
| OpCompleteReceiver (id : string) (verified_bytes : Z)
| OpAdvanceBytes (id : string) (verified_bytes : Z)
| OpClearCompletion (id : string)
| OpDeferCompletion (id : string) (at_ : Z)
| OpClearRelease (id : string)
| OpClearAuthorization (id : string)
| OpTransitionTerminal (id : string) (state : TargetedTransferState) (clear : bool).

Definition discard {S E A} (m : M S E A) : M S E unit := m;; ret tt.

Definition exec `{Env} `{ForeignText} (op : StoreOp) : M Tables VnidropError unit :=
  match op with
  | OpPersistIntent offer => persist_accepted_offer_intent offer
  | OpClearIntent id => clear_accepted_offer_intent id
  | OpClearIntentIfSender id sender => clear_accepted_intent_if_sender id sender
  | OpAbandon id => discard (abandon_sender_preapproval id)
  | OpInsert row => insert row
  | OpSetState id from to => set_state id from to
  | OpSetStateFromAny id to => set_state_from_any id to
  | OpMarkSenderCompleted id => discard (mark_sender_completed id)
  | OpFinalize id ticket handle => finalize_sender_authorization_and_enqueue id ticket handle
  | OpPersistReceiver auth handle =>
      discard (persist_receiver_authorization_and_consume_intent auth handle)
  | OpFailResumable id => discard (fail_resumable_and_clear_delivery id)
  | OpCancelByPeer peer => discard (cancel_by_peer peer)
  | OpMarkInterrupted => discard mark_interrupted_in_flight
  | OpFailPreapproval => discard fail_sender_preapproval_on_restart
  | OpClearDelivery id => clear_pending_authorization_delivery id
  | OpDeferDelivery id at_ => defer_pending_authorization_delivery id at_
  | OpCompleteReceiver id n => complete_receiver_and_enqueue id n
  | OpAdvanceBytes id n => discard (advance_verified_bytes id n)
  | OpClearCompletion id => clear_pending_completion id
  | OpDeferCompletion id at_ => defer_pending_completion id at_
  | OpClearRelease id => clear_pending_payload_release id
  | OpClearAuthorization id => clear_authorization id
  | OpTransitionTerminal id state clear => discard (transition_terminal id state clear)
  end.

(** ** Specifications *)

(** The columns no statement may change. *)
Definition immutable_columns (r : TransferColumns) :=
  (c_protocol_transfer_id r, c_sender_endpoint_id r, c_receiver_endpoint_id r, c_manifest_id r,
   c_content_hash r, c_transfer_name r, c_file_count r, c_total_size r, c_role r, c_created_at r).

(** A stored state only moves along the lifecycle graph. *)
Definition state_evolves (x y : string) : Prop :=
  ∀ s, x = targeted_as_str s → ∃ s', y = targeted_as_str s' ∧ targeted_reaches s s'.

Definition row_evolves (r r' : TransferColumns) : Prop :=
  immutable_columns r' = immutable_columns r ∧ state_evolves (c_state r) (c_state r').

(** Every row survives, and moves along [Q]. *)
Definition rows_lift (Q : TransferColumns → TransferColumns → Prop) (t t' : Tables) : Prop :=
  map_lift Q (targeted_transfers t) (targeted_transfers t').

(** The progress counter: bounded by the size, and it never decreases. *)
Definition bytes_evolve (r r' : TransferColumns) : Prop :=
  c_total_size r' = c_total_size r ∧
  (c_verified_bytes r ≤ c_total_size r →
   c_verified_bytes r ≤ c_verified_bytes r' ≤ c_total_size r').

Definition row_typed (r : TransferColumns) : Prop :=
  (∃ s, c_state r = targeted_as_str s) ∧ (∃ ro, c_role r = role_as_str ro) ∧
  is_i64 (c_protocol_transfer_id r) ∧ is_i64 (c_file_count r) ∧
  is_i64 (c_total_size r) ∧ is_i64 (c_verified_bytes r).

(** What a queued obligation says about its transfer. *)
Definition approved_sender (r : TransferColumns) : Prop :=
  c_role r = "sender" ∧
  ∃ s, c_state r = targeted_as_str s ∧ s ∉ [Preparing; Offering; AwaitingApproval].
Definition finished (role : string) (r : TransferColumns) : Prop :=
  c_role r = role ∧ ∃ s, c_state r = targeted_as_str s ∧ s ∈ [Completed; Deleted].

Definition outbox_ok {O} (Φ : TransferColumns → Prop) (outbox : gmap string O)
    (t : gmap string TransferColumns) : Prop :=
  ∀ id, is_Some (outbox !! id) → ∃ r, t !! id = Some r ∧ Φ r.

Definition unique_protocol_ids (t : gmap string TransferColumns) : Prop :=
  ∀ id id' r r', t !! id = Some r → t !! id' = Some r' →
    c_protocol_transfer_id r = c_protocol_transfer_id r' → id = id'.

(** The invariant of the database. *)
Record tables_ok (t : Tables) : Prop := {
  ok_typed : ∀ id r, targeted_transfers t !! id = Some r → row_typed r;
  ok_unique : unique_protocol_ids (targeted_transfers t);
  ok_deliveries : outbox_ok approved_sender (authorization_delivery_outbox t) (targeted_transfers t);
  ok_completions : outbox_ok (finished "receiver") (completion_outbox t) (targeted_transfers t);
  ok_releases : outbox_ok (finished "sender") (payload_release_outbox t) (targeted_transfers t)
}.

(** ** Lemmas *)

#[global] Instance state_evolves_preorder : PreOrder state_evolves.
Proof.
  split.
  - intros x s ->. exists s. split; [done | apply rtc_refl].
  - intros x y z Hxy Hyz s ->. destruct (Hxy s eq_refl) as (s' & -> & H1).
    destruct (Hyz s' eq_refl) as (s'' & -> & H2). exists s''. split; [done | by etrans].
Qed.

#[global] Instance row_evolves_preorder : PreOrder row_evolves.
Proof.
  split.
  - intros r. split; [done | reflexivity].
  - intros r r' r'' [H1 H2] [H3 H4]. split; [congruence | by etrans].
Qed.

#[global] Instance bytes_evolve_preorder : PreOrder bytes_evolve.
Proof.
  split.
  - intros r. split; [done | lia].
  - intros r r' r'' [H1 H2] [H3 H4]. split; [congruence|]. intros H5.
    specialize (H2 H5). rewrite H1 in H2, H4. lia.
Qed.

#[global] Instance rows_lift_preorder Q `{!PreOrder Q} : PreOrder (rows_lift Q).
Proof. unfold rows_lift. split; [intros t | intros t t' t'']; [reflexivity | apply transitivity]. Qed.

Lemma rows_lift_update Q `{!PreOrder Q} P f t :
  (∀ k r, P k r = true → Q r (f r)) →
  rows_lift Q t (on_transfers (update_where P (λ _, f)) t).
Proof. intros Hf. by apply map_lift_update. Qed.

Lemma rows_lift_same Q `{!PreOrder Q} t t' :
  targeted_transfers t' = targeted_transfers t → rows_lift Q t t'.
Proof. unfold rows_lift. by intros ->. Qed.

Lemma rows_lift_insert Q `{!PreOrder Q} id r t :
  targeted_transfers t !! id = None → rows_lift Q t (on_transfers (λ _, <[id := r]> (targeted_transfers t)) t).
Proof. intros Hn. apply map_lift_insert; [done|]. intros old Hold. congruence. Qed.

(** From any of the texts [l], the state [to] is reachable. *)
Definition texts_reach (l : list string) (to : TargetedTransferState) : Prop :=
  ∀ s, str_in (targeted_as_str s) l = true → targeted_reaches s to.

Lemma reaches_once s t : transition_allowed s t = true → targeted_reaches s t.
Proof. intros Hst. by apply rtc_once. Qed.

Lemma reaches_interrupt s :
  str_in (targeted_as_str s) in_flight_texts = true →
  targeted_reaches s Interrupted.
Proof. intros Hs. apply reaches_once. by destruct s. Qed.

Lemma reaches_fail s :
  str_in (targeted_as_str s) (preapproval_texts ++ resumable_texts) = true →
  targeted_reaches s TFailed.
Proof. intros Hs. apply reaches_once. by destruct s. Qed.

Lemma reaches_cancel s :
  str_in (targeted_as_str s) terminal_texts = false → targeted_reaches s Cancelled.
Proof. intros Hs. apply reaches_once. by destruct s. Qed.

(** The sender learns of completion from the receiver, so it may have missed the
    connection: completion is reached through the states in between. *)
Lemma reaches_completed s :
  str_in (targeted_as_str s) resumable_texts = true → targeted_reaches s Completed.
Proof.
  intros Hs.
  assert (targeted_reaches Transferring Completed) as H3 by by apply reaches_once.
  assert (targeted_reaches Connecting Completed) as H2.
  { by eapply rtc_l; [|exact H3]. }
  destruct s; try done; by eapply rtc_l; [|exact H2].
Qed.

Lemma reaches_deleted s : targeted_reaches s Deleted.
Proof. destruct s; try (by apply reaches_once). apply rtc_refl. Qed.

Lemma row_evolves_set r state v b h now :
  state_evolves (c_state r) state → row_evolves r (set_columns state v b h now r).
Proof. intros Hs. by split. Qed.

Lemma state_evolves_to x to :
  (∀ s, x = targeted_as_str s → targeted_reaches s to) → state_evolves x (targeted_as_str to).
Proof. intros Hs s ->. exists to. split; [done | by apply Hs]. Qed.

Lemma bytes_evolve_keep r state b h now :
  bytes_evolve r (set_columns state (c_verified_bytes r) b h now r).
Proof. split; simpl; [done | lia]. Qed.

(** *** Statements that keep every row *)

Section KeepsRows.
Context `{Env} `{ForeignText} (Q : TransferColumns → TransferColumns → Prop) `{!PreOrder Q}.

Lemma within_update_transfers P f :
  (∀ k r, P k r = true → Q r (f r)) → within (rows_lift Q) (update_transfers P f).
Proof. intros Hf. apply within_sql; [apply _|]. intros t a t' [= <- <-]. by apply rows_lift_update. Qed.

Lemma within_update_transfers_returning P f :
  (∀ k r, P k r = true → Q r (f r)) → within (rows_lift Q) (update_transfers_returning P f).
Proof. intros Hf. apply within_sql; [apply _|]. intros t a t' [= <- <-]. by apply rows_lift_update. Qed.

(** A statement on another table. *)
Lemma within_other {A} (f : Tables → result (A * Tables) SqlxError) :
  (∀ t a t', f t = Ok (a, t') → targeted_transfers t' = targeted_transfers t) →
  within (rows_lift Q) (sql f).
Proof. intros Hf. apply within_sql; [apply _|]. intros. by eapply rows_lift_same, Hf. Qed.

Lemma within_aother {A} (f : Tables → result (A * Tables) SqlxError) :
  (∀ t a t', f t = Ok (a, t') → targeted_transfers t' = targeted_transfers t) →
  within (rows_lift Q) (asql f).
Proof. intros Hf. apply within_asql; [apply _|]. intros. by eapply rows_lift_same, Hf. Qed.

Lemma within_insert_transfer_row id r : within (rows_lift Q) (insert_transfer_row id r).
Proof.
  apply within_sql; [apply _|]. intros t a t' Ht. unfold insert_row in Ht.
  case_match; [done|]. destruct (targeted_transfers t !! id) eqn:E; simplify_eq/=.
  by apply rows_lift_insert.
Qed.
End KeepsRows.

Lemma references_transfer_transfers id t t0 a t' :
  references_transfer id t t0 = Ok (a, t') → t' = t0 ∧ is_Some (targeted_transfers t !! id).
Proof. unfold references_transfer. case_match; intros; simplify_eq; eauto. Qed.

(** Reduce a goal on an operation to obligations on the rows it updates. *)
Ltac ts_unfold := unfold discard, exec, persist_accepted_offer_intent, clear_accepted_offer_intent,
  clear_accepted_intent_if_sender, insert, set_state, set_state_from_any, compare_and_set, get_row,
  mark_sender_completed, finalize_sender_authorization_and_enqueue,
  persist_receiver_authorization_and_consume_intent, fail_resumable_and_clear_delivery,
  cancel_by_peer, mark_interrupted_in_flight, fail_sender_preapproval_on_restart,
  clear_pending_authorization_delivery, defer_pending_authorization_delivery,
  complete_receiver_and_enqueue, advance_verified_bytes, clear_pending_completion,
  defer_pending_completion, clear_pending_payload_release, clear_authorization,
  transition_terminal, delete_intents, delete_deliveries, delete_completions, delete_releases,
  query, migrate_authorization_outbox.

(** The side conditions of statements on other tables. *)
Ltac ts_other := intros; repeat case_match; simplify_eq/=;
  repeat match goal with
  | H : references_transfer _ _ _ = _ |- _ => apply references_transfer_transfers in H as [-> _]
  | H : result_bind _ (insert_row _ _ _) = _ |- _ => unfold insert_row in H; case_match; simplify_eq/=
  end; try done.

Ltac ts_step :=
  intros; lazymatch goal with
  | |- within _ (update_transfers _ _) => apply within_update_transfers; [try apply _ .. |]
  | |- within _ (update_transfers_returning _ _) =>
      apply within_update_transfers_returning; [try apply _ .. |]
  | |- within _ (insert_transfer_row _ _) => apply within_insert_transfer_row; try apply _
  | |- within _ (sql _) => apply within_other; [try apply _ .. |by ts_other]
  | |- within _ (asql _) => apply within_aother; [try apply _ .. |by ts_other]
  | |- within _ (if ?b then _ else _) => destruct b eqn:?
  | |- within _ _ => store_step
  end.

Ltac ts_steps := ts_unfold; repeat ts_step; intros.

(** *** The lifecycle of rows *)

Section Lifecycle.
Context `{Env} `{ForeignText}.

(** The updates of one row, by target state. *)
Lemma row_set_to target r v b h now :
  (∀ s, c_state r = targeted_as_str s → targeted_reaches s target) →
  row_evolves r (set_columns (targeted_as_str target) v b h now r).
Proof. intros Hs. by apply row_evolves_set, state_evolves_to. Qed.

Lemma row_set_approved r v b h now :
  c_state r = "awaiting_approval"%string → row_evolves r (set_columns "approved" v b h now r).
Proof.
  intros E. apply (row_set_to Approved). intros s Hs. apply reaches_once.
  replace s with AwaitingApproval; [done|]. apply targeted_as_str_inj. simpl. congruence.
Qed.

Lemma row_set_completed r v b h now :
  str_in (c_state r) resumable_texts = true → row_evolves r (set_columns "completed" v b h now r).
Proof. intros Hr. apply (row_set_to Completed). intros s Hs. apply reaches_completed. by rewrite <- Hs. Qed.

Lemma row_set_cancelled r v b h now :
  str_in (c_state r) terminal_texts = false → row_evolves r (set_columns "cancelled" v b h now r).
Proof. intros Hr. apply (row_set_to Cancelled). intros s Hs. apply reaches_cancel. by rewrite <- Hs. Qed.

Lemma row_set_interrupted r v b h now :
  str_in (c_state r) in_flight_texts = true →
  row_evolves r (set_columns "interrupted" v b h now r).
Proof. intros Hr. apply (row_set_to Interrupted). intros s Hs. apply reaches_interrupt. by rewrite <- Hs. Qed.

Lemma row_set_failed l r v b h now :
  str_in (c_state r) l = true → incl l (preapproval_texts ++ resumable_texts) →
  row_evolves r (set_columns "failed" v b h now r).
Proof.
  intros Hr Hl. apply (row_set_to TFailed). intros s Hs. apply reaches_fail. rewrite <- Hs.
  apply str_in_elem, list_elem_of_In, Hl, list_elem_of_In. by apply str_in_elem.
Qed.

Lemma row_set_terminal id state text r v b h now k :
  terminal_state_text state = Ok text → terminal_applies id text k r = true →
  row_evolves r (set_columns text v b h now r).
Proof.
  intros Ht Hr. unfold terminal_applies in Hr. destruct state; simplify_eq/=.
  - apply row_set_cancelled. by bool_simpl.
  - apply (row_set_to Deleted). intros s _. apply reaches_deleted.
Qed.

Lemma incl_resumable : incl resumable_texts (preapproval_texts ++ resumable_texts).
Proof. apply incl_appr, incl_refl. Qed.
Lemma incl_preapproval : incl preapproval_texts (preapproval_texts ++ resumable_texts).
Proof. apply incl_appl, incl_refl. Qed.

Lemma receiver_transferring_resumable id k r :
  receiver_transferring id k r = true → str_in (c_state r) resumable_texts = true.
Proof.
  unfold receiver_transferring. intros Hr. bool_simpl.
  match goal with H : c_state r = _ |- _ => rewrite H end. by vm_compute.
Qed.

Lemma row_compare_and_set from to r v b h now :
  transition_allowed from to = true → c_state r = targeted_as_str from →
  row_evolves r (set_columns (targeted_as_str to) v b h now r).
Proof.
  intros Hft E. apply (row_set_to to). intros s Hs. apply reaches_once.
  replace s with from; [done|]. apply targeted_as_str_inj. congruence.
Qed.

Lemma validate_ok from to u :
  validate_transition_to from to = Ok u → transition_allowed from to = true.
Proof. unfold validate_transition_to. by case_match. Qed.
End Lifecycle.

(** Discharge the obligation that an update moves its row lawfully. *)
Ltac row_lawful :=
  unfold sender_preapproval in *;
  first
    [ by eapply row_set_terminal
    | match goal with Hr : receiver_transferring _ _ _ = true |- _ =>
        apply receiver_transferring_resumable in Hr end; by apply row_set_completed
    | bool_simpl; first
        [ by apply row_set_approved
        | by apply row_set_completed
        | by apply row_set_cancelled
        | by apply row_set_interrupted
        | by eapply row_set_failed; [eassumption|apply incl_resumable]
        | by eapply row_set_failed; [eassumption|apply incl_preapproval]
        | by eapply row_compare_and_set
        | by apply row_evolves_set ] ].

Section LifecycleOps.
Context `{Env} `{ForeignText}.

Lemma discard_within {A} R `{!PreOrder R} (m : M Tables VnidropError A) :
  within R m → within R (discard m).
Proof. intros Hm. apply within_bind; [apply _|done|]. intros _. apply within_ret; apply _. Qed.

(** [set_state] and [set_state_from_any] validate before they write. *)
Lemma validated_set_evolves id from to :
  within (rows_lift row_evolves)
    (of_result (validate_transition_to from to);; compare_and_set id from to).
Proof.
  apply within_check; [apply _|]. intros u Hu. apply validate_ok in Hu. ts_steps. row_lawful.
Qed.

Lemma set_state_from_any_evolves id to : within (rows_lift row_evolves) (set_state_from_any id to).
Proof.
  unfold set_state_from_any. apply within_bind; [apply _|ts_steps|].
  intros [row|]; [|apply within_fail; apply _].
  case_bool_decide; [apply within_ret; apply _ | apply validated_set_evolves].
Qed.

Lemma exec_evolves op :
  (∀ id, op ≠ OpAbandon id) → within (rows_lift row_evolves) (exec op).
Proof.
  intros Hop. destruct op; try (by edestruct Hop); cbn [exec];
    lazymatch goal with |- within _ (discard _) => apply discard_within; [apply _|] | _ => idtac end.
  all: lazymatch goal with
    | |- within _ (set_state _ _ _) => apply validated_set_evolves
    | |- within _ (set_state_from_any _ _) => apply set_state_from_any_evolves
    | |- within _ (transition_terminal _ _ _) => apply within_check; [apply _|]; intros
    | |- _ => idtac
    end.
  all: ts_steps; row_lawful.
Qed.
End LifecycleOps.

(** *** Progress counters *)

Section Bytes.
Context `{Env} `{ForeignText}.

Lemma exec_bytes_evolve op :
  (∀ id, op ≠ OpAbandon id) → (∀ id n, op ≠ OpCompleteReceiver id n) →
  within (rows_lift bytes_evolve) (exec op).
Proof.
  intros Ha Hc. destruct op; try (by edestruct Ha); try (by edestruct Hc); cbn [exec];
    lazymatch goal with |- within _ (discard _) => apply discard_within; [apply _|] | _ => idtac end.
  all: try match goal with |- within _ (transition_terminal _ _ _) =>
    apply within_check; [apply _|]; intros end.
  all: ts_steps; try apply bytes_evolve_keep.
  - split; simpl; [done | lia].
  - bool_simpl. split; simpl; [done | lia].
Qed.
End Bytes.

(** *** Preservation of the database invariant *)

#[global] Instance implies_preorder {T} (P : T → Prop) : PreOrder (λ t t', P t → P t').
Proof. split; [by intros t | intros t t' t''; auto]. Qed.

Definition keeps (t t' : Tables) : Prop := tables_ok t → tables_ok t'.
#[global] Instance keeps_preorder : PreOrder keeps.
Proof. apply implies_preorder. Qed.

Lemma approved_sender_evolves r r' : row_evolves r r' → approved_sender r → approved_sender r'.
Proof.
  intros [Hi Hs] (Hr & s & Hst & Hn). split; [unfold immutable_columns in Hi; congruence|].
  destruct (Hs s Hst) as (s' & Hst' & Hreach). exists s'. split; [done|].
  clear -Hn Hreach. induction Hreach as [s|s u v Hsu _ IH]; [done|]. apply IH.
  clear IH. intros Hu. apply Hn. clear Hn.
  repeat (apply elem_of_cons in Hu as [->|Hu]); [| | |by apply elem_of_nil in Hu];
    destruct s; try done; set_solver.
Qed.

Lemma finished_evolves role r r' : row_evolves r r' → finished role r → finished role r'.
Proof.
  intros [Hi Hs] (Hr & s & Hst & Hin). split; [unfold immutable_columns in Hi; congruence|].
  destruct (Hs s Hst) as (s' & Hst' & Hreach). exists s'. split; [done|].
  apply terminal_reaches in Hreach as [->| ->]; [done|set_solver|].
  apply elem_of_cons in Hin as [->|Hin]; [done|]. by apply list_elem_of_singleton in Hin as ->.
Qed.

Lemma row_typed_evolves r r' :
  row_evolves r r' → is_i64 (c_verified_bytes r') → row_typed r → row_typed r'.
Proof.
  intros [Hi Hs] Hv ([s Hst] & [ro Hro] & H1 & H2 & H3 & H4). unfold immutable_columns in Hi.
  destruct (Hs s Hst) as (s' & Hst' & _). simplify_eq.
  split; [by exists s'|]. split; [exists ro; congruence|].
  unfold is_i64 in *. repeat split; lia.
Qed.

Lemma outbox_ok_evolves {O} Φ (outbox : gmap string O) t t' :
  (∀ r r', row_evolves r r' → Φ r → Φ r') →
  (∀ id r, t !! id = Some r → ∃ r', t' !! id = Some r' ∧ row_evolves r r') →
  outbox_ok Φ outbox t → outbox_ok Φ outbox t'.
Proof.
  intros HΦ Hl Ho id Hid. destruct (Ho id Hid) as (r & Hr & HP).
  destruct (Hl id r Hr) as (r' & Hr' & He). exists r'. eauto.
Qed.

Lemma outbox_ok_subset {O} Φ (outbox outbox' : gmap string O) t :
  (∀ id, is_Some (outbox' !! id) → is_Some (outbox !! id)) →
  outbox_ok Φ outbox t → outbox_ok Φ outbox' t.
Proof. intros Hs Ho id Hid. by apply Ho, Hs. Qed.

Lemma delete_where_subset {K} `{Countable K} {R} (P : K → R → bool) (t : gmap K R) k :
  is_Some (delete_where P t !! k) → is_Some (t !! k).
Proof. intros [r Hr]. apply lookup_delete_where in Hr as [Hr _]. by exists r. Qed.

Lemma outbox_ok_insert {O} Φ (outbox : gmap string O) t id o r :
  t !! id = Some r → Φ r → outbox_ok Φ outbox t → outbox_ok Φ (<[id := o]> outbox) t.
Proof.
  intros Hr HP Ho id' Hid. destruct (decide (id' = id)) as [->|Hne]; [by exists r|].
  apply Ho. by rewrite lookup_insert_ne in Hid.
Qed.

Lemma insert_or_ignore_is_Some {K} `{Countable K} {R} (k : K) (r : R) (t : gmap K R) k' :
  is_Some (insert_or_ignore k r t !! k') → is_Some (<[k := r]> t !! k').
Proof.
  unfold insert_or_ignore. destruct (t !! k) eqn:E; [|done]. intros Hs.
  destruct (decide (k' = k)) as [->|]; [by rewrite lookup_insert_eq | by rewrite lookup_insert_ne].
Qed.

(** Updating rows lawfully keeps the invariant. *)
Lemma tables_ok_rows t t' :
  authorization_delivery_outbox t' = authorization_delivery_outbox t →
  completion_outbox t' = completion_outbox t →
  payload_release_outbox t' = payload_release_outbox t →
  rows_lift row_evolves t t' →
  (∀ id r', targeted_transfers t' !! id = Some r' →
     ∃ r, targeted_transfers t !! id = Some r ∧ row_evolves r r' ∧
          (row_typed r → is_i64 (c_verified_bytes r'))) →
  tables_ok t → tables_ok t'.
Proof.
  intros E1 E2 E3 Hl Hb [H1 H2 H3 H4 H5]. split.
  - intros id r' Hr'. destruct (Hb id r' Hr') as (r & Hr & He & Hv).
    eapply row_typed_evolves; eauto.
  - intros id id' r r' Hr Hr' Heq.
    destruct (Hb id r Hr) as (r0 & Hr0 & [Hi _] & _).
    destruct (Hb id' r' Hr') as (r0' & Hr0' & [Hi' _] & _).
    apply (H2 id id' r0 r0'); [done|done|]. unfold immutable_columns in *. congruence.
  - rewrite E1. eapply outbox_ok_evolves; eauto using approved_sender_evolves.
  - rewrite E2. eapply outbox_ok_evolves; eauto using finished_evolves.
  - rewrite E3. eapply outbox_ok_evolves; eauto using finished_evolves.
Qed.

Lemma keeps_update P f t :
  (∀ k r, P k r = true → row_evolves r (f r) ∧ (row_typed r → is_i64 (c_verified_bytes (f r)))) →
  keeps t (on_transfers (update_where P (λ _, f)) t).
Proof.
  intros Hf Hok. revert Hok. apply tables_ok_rows; [done..| |].
  - apply rows_lift_update; [apply _|]. intros k r HP. by apply (Hf k).
  - intros id r'. simpl. rewrite lookup_update_where.
    destruct (targeted_transfers t !! id) as [r|]; simpl; [|done]. intros [= <-]. exists r.
    split; [done|]. destruct (P id r) eqn:E; [by eapply Hf|].
    split; [reflexivity|]. by intros (_ & _ & _ & _ & _ & ?).
Qed.

Lemma keeps_insert id r t :
  row_typed r → targeted_transfers t !! id = None →
  exists_where (λ _ r', c_protocol_transfer_id r' =? c_protocol_transfer_id r)
    (targeted_transfers t) = false →
  keeps t (on_transfers (λ _, <[id := r]> (targeted_transfers t)) t).
Proof.
  intros Hty Hn Hu [H1 H2 H3 H4 H5].
  assert (∀ id' r', targeted_transfers t !! id' = Some r' →
            c_protocol_transfer_id r' ≠ c_protocol_transfer_id r) as Hfresh.
  { intros id' r' Hr' Heq. apply not_true_iff_false in Hu. apply Hu, exists_where_true.
    exists id', r'. split; [done|]. by apply Z.eqb_eq. }
  split; simpl.
  - intros id' r' Hr'. apply lookup_insert_Some in Hr' as [[<- <-]|[_ Hr']]; [done | by eapply H1].
  - intros i j ri rj Hi Hj Heq.
    apply lookup_insert_Some in Hi as [[<- <-]|[_ Hi]];
      apply lookup_insert_Some in Hj as [[<- <-]|[_ Hj]]; [done| | |by eapply H2].
    + by edestruct Hfresh.
    + by edestruct Hfresh.
  - intros id' Hs. destruct (H3 id' Hs) as (r' & Hr' & ?). exists r'.
    rewrite lookup_insert_ne by congruence. done.
  - intros id' Hs. destruct (H4 id' Hs) as (r' & Hr' & ?). exists r'.
    rewrite lookup_insert_ne by congruence. done.
  - intros id' Hs. destruct (H5 id' Hs) as (r' & Hr' & ?). exists r'.
    rewrite lookup_insert_ne by congruence. done.
Qed.

(** *** Statements that keep the invariant *)

Section KeepsInvariant.
Context `{Env} `{ForeignText}.

Definition lawful_update (P : string → TransferColumns → bool)
    (f : TransferColumns → TransferColumns) : Prop :=
  ∀ k r, P k r = true → row_evolves r (f r) ∧ (row_typed r → is_i64 (c_verified_bytes (f r))).

Lemma keeps_update_transfers P f : lawful_update P f → within keeps (update_transfers P f).
Proof. intros Hf. apply within_sql; [apply _|]. intros t a t' [= <- <-]. by apply keeps_update. Qed.

Lemma keeps_update_transfers_returning P f :
  lawful_update P f → within keeps (update_transfers_returning P f).
Proof. intros Hf. apply within_sql; [apply _|]. intros t a t' [= <- <-]. by apply keeps_update. Qed.

Lemma keeps_insert_transfer_row id r : row_typed r → within keeps (insert_transfer_row id r).
Proof.
  intros Hr. apply within_sql; [apply _|]. intros t a t' Ht. unfold insert_row in Ht.
  case_match eqn:Hu; [done|]. destruct (targeted_transfers t !! id) eqn:E; simplify_eq/=.
  by apply keeps_insert.
Qed.

(** Statements that only remove obligations, or that touch the other tables. *)
Definition sheds (t t' : Tables) : Prop :=
  targeted_transfers t' = targeted_transfers t ∧
  (∀ id, is_Some (authorization_delivery_outbox t' !! id) → is_Some (authorization_delivery_outbox t !! id)) ∧
  (∀ id, is_Some (completion_outbox t' !! id) → is_Some (completion_outbox t !! id)) ∧
  (∀ id, is_Some (payload_release_outbox t' !! id) → is_Some (payload_release_outbox t !! id)).

Lemma sheds_keeps t t' : sheds t t' → keeps t t'.
Proof.
  intros (E & H1 & H2 & H3) [O1 O2 O3 O4 O5].
  split; rewrite E; try done; by eapply outbox_ok_subset.
Qed.

Lemma keeps_sheds {A} (f : Tables → result (A * Tables) SqlxError) :
  (∀ t a t', f t = Ok (a, t') → sheds t t') → within keeps (sql f).
Proof. intros Hf. apply within_sql; [apply _|]. intros. by eapply sheds_keeps, Hf. Qed.

Lemma keeps_delete_transfers P : within keeps (delete_transfers P).
Proof.
  apply within_sql; [apply _|]. intros t a t' [= _ <-] [O1 O2 O3 O4 O5].
  assert (∀ {O} Φ (outbox : gmap string O), outbox_ok Φ outbox (targeted_transfers t) →
    outbox_ok Φ (delete_where (λ k _, bool_decide (is_Some (targeted_transfers t !! k)) &&
        bool_decide (delete_where P (targeted_transfers t) !! k = None)) outbox)
      (delete_where P (targeted_transfers t))) as Hout.
  { intros O Φ outbox Ho id [o Hid]. apply lookup_delete_where in Hid as [Hid Hn].
    destruct (Ho id) as (r & Hr & HP); [by exists o|]. exists r. split; [|done].
    apply andb_false_iff in Hn as [Hn|Hn]; bool_simpl; [by destruct Hn; exists r|].
    destruct (delete_where P (targeted_transfers t) !! id) as [r'|] eqn:E; [|done].
    apply lookup_delete_where in E as [E _]. congruence. }
  split; simpl.
  - intros id r Hr. apply lookup_delete_where in Hr as [Hr _]. by eapply O1.
  - intros i j ri rj Hi Hj. apply lookup_delete_where in Hi as [Hi _], Hj as [Hj _].
    by eapply O2.
  - by apply Hout.
  - by apply Hout.
  - by apply Hout.
Qed.

(** A keyed update affects no row, or exactly the row of that key. *)
Lemma wp_update_key id P f t n Q :
  (∀ k r, P k r = true → k = id) →
  (∀ e, Q (Err (repository_sqlx e)) t (Datatypes.S n)) →
  ((∀ r, targeted_transfers t !! id = Some r → P id r = false) → Q (Ok 0%nat) t (Datatypes.S n)) →
  (∀ r, targeted_transfers t !! id = Some r → P id r = true →
     Q (Ok 1%nat) (on_transfers (λ _, <[id := f r]> (targeted_transfers t)) t) (Datatypes.S n)) →
  wp (update_transfers P f) t n Q.
Proof.
  intros HP Herr Hno Hyes. apply wp_sql; [done|]. intros _ a t' [= <- <-].
  rewrite (count_where_key P _ id HP).
  assert (∀ m, m = targeted_transfers t → on_transfers (λ _, m) t = t) as Hsame
    by (intros m ->; by destruct t).
  unfold on_transfers at 1. rewrite (update_where_key P (λ _, f) (targeted_transfers t) id HP).
  destruct (targeted_transfers t !! id) as [r|] eqn:Hr.
  - destruct (P id r) eqn:Hp; [by apply Hyes|]. destruct t; apply Hno. by intros ? [= <-].
  - destruct t; by apply Hno.
Qed.

Lemma tables_ok_enqueue_delivery t id o r :
  targeted_transfers t !! id = Some r → approved_sender r →
  keeps t (on_deliveries <[id := o]> t).
Proof.
  intros Hr HΦ [O1 O2 O3 O4 O5]. split; try done. simpl. by eapply outbox_ok_insert.
Qed.

Lemma tables_ok_enqueue_completion t id o r :
  targeted_transfers t !! id = Some r → finished "receiver" r →
  keeps t (on_completions (insert_or_ignore id o) t).
Proof.
  intros Hr HΦ [O1 O2 O3 O4 O5]. split; try done. simpl.
  eapply outbox_ok_subset; [intros ?; apply insert_or_ignore_is_Some|]. by eapply outbox_ok_insert.
Qed.

Lemma tables_ok_enqueue_release t id o r :
  targeted_transfers t !! id = Some r → finished "sender" r →
  keeps t (on_releases (insert_or_ignore id o) t).
Proof.
  intros Hr HΦ [O1 O2 O3 O4 O5]. split; try done. simpl.
  eapply outbox_ok_subset; [intros ?; apply insert_or_ignore_is_Some|]. by eapply outbox_ok_insert.
Qed.

(** The update of one row to a state that its old state reaches. *)
Lemma keeps_row id r f t :
  targeted_transfers t !! id = Some r → row_evolves r (f r) →
  (row_typed r → is_i64 (c_verified_bytes (f r))) →
  keeps t (on_transfers (λ _, <[id := f r]> (targeted_transfers t)) t).
Proof.
  intros Hr He Hv.
  assert (<[id := f r]> (targeted_transfers t) =
          update_where (λ k _, str_eqb k id) (λ _ _, f r) (targeted_transfers t)) as E.
  { rewrite (update_where_key _ _ _ id).
    - by rewrite Hr, str_eqb_refl.
    - intros. by apply str_eqb_eq. }
  intros Hok. apply (tables_ok_rows t); try done; simpl.
  - intros id' r' Hr'. destruct (decide (id' = id)) as [->|Hne]; simpl.
    + rewrite lookup_insert_eq. exists (f r). split; [done|]. by simplify_eq.
    + rewrite lookup_insert_ne by done. exists r'. split; [done | reflexivity].
  - intros id' r' Hr'. apply lookup_insert_Some in Hr' as [[<- <-]|[Hne Hr']]; [by eauto|].
    exists r'. split; [done|]. split; [reflexivity|]. by intros (_ & _ & _ & _ & _ & ?).
Qed.
End KeepsInvariant.

(** The side conditions of statements that shed obligations. *)
Ltac ts_sheds := intros ? ? ? ?; repeat case_match; simplify_eq/=;
  split_and!; simpl; try done; intros ?; apply delete_where_subset.

Ltac ks_step :=
  intros; lazymatch goal with
  | |- within _ (update_transfers _ _) => apply keeps_update_transfers; intros ? ? ?
  | |- within _ (update_transfers_returning _ _) =>
      apply keeps_update_transfers_returning; intros ? ? ?
  | |- within _ (insert_transfer_row _ _) => apply keeps_insert_transfer_row
  | |- within _ (delete_transfers _) => apply keeps_delete_transfers
  | |- within _ (sql _) => apply keeps_sheds; solve [ts_sheds]
  | |- within _ (if ?b then _ else _) => destruct b eqn:?
  | |- within _ _ => store_step
  end.

Ltac ks_steps := ts_unfold; repeat ks_step; intros.

Section Invariant.
Context `{Env} `{ForeignText}.

Lemma row_columns_typed row : row_typed (row_columns row).
Proof.
  split; [by eexists|]. split; [by eexists|].
  split_and!; apply as_i64_range.
Qed.

Lemma receiver_columns_typed auth handle now : row_typed (receiver_columns auth handle now).
Proof.
  split; [by exists Approved|]. split; [by exists Receiver|].
  split_and!; try apply as_i64_range. simpl. unfold is_i64, I64_MAX. lia.
Qed.

Lemma defer_is_Some id at_ outbox k :
  is_Some (defer id at_ outbox !! k) → is_Some (outbox !! k).
Proof. unfold defer. by rewrite lookup_update_where, fmap_is_Some. Qed.

Lemma keeps_defer id at_ :
  within keeps (sql (λ t, Ok (tt, on_deliveries (defer id at_) t))) ∧
  within keeps (sql (λ t, Ok (tt, on_completions (defer id at_) t))).
Proof.
  split; apply keeps_sheds; intros t a t' [= _ <-]; split_and!; simpl; try done;
    intros k; apply defer_is_Some.
Qed.

(** An update that leaves the progress counter alone. *)
Lemma lawful_keep r state b h now :
  row_evolves r (set_columns state (c_verified_bytes r) b h now r) →
  row_evolves r (set_columns state (c_verified_bytes r) b h now r) ∧
  (row_typed r → is_i64 (c_verified_bytes (set_columns state (c_verified_bytes r) b h now r))).
Proof. intros He. split; [done|]. by intros (_ & _ & _ & _ & _ & ?). Qed.

Lemma validated_set_keeps id from to :
  within keeps (of_result (validate_transition_to from to);; compare_and_set id from to).
Proof.
  apply within_check; [apply _|]. intros u Hu. apply validate_ok in Hu. ks_steps.
  apply lawful_keep. row_lawful.
Qed.

Lemma set_state_from_any_keeps id to : within keeps (set_state_from_any id to).
Proof.
  unfold set_state_from_any. apply within_bind; [apply _|ks_steps|].
  intros [row|]; [|apply within_fail; apply _].
  case_bool_decide; [apply within_ret; apply _ | apply validated_set_keeps].
Qed.

(** The three operations that queue an obligation about the row they update. *)
Lemma finalize_keeps id ticket handle :
  within keeps (finalize_sender_authorization_and_enqueue id ticket handle).
Proof.
  intros t n. apply wp_sql_tx; [by intros|]. apply wp_bind, wp_now_ms, wp_bind.
  apply (wp_update_key id); [by intros; bool_simpl | done | done |].
  intros r Hr HP. simpl. apply wp_sql; [done|]. intros _ [] t' Ht Hok.
  apply references_transfer_transfers in Ht as [-> _]. bool_simpl.
  eapply tables_ok_enqueue_delivery.
  - simpl. by rewrite lookup_insert_eq.
  - split; [done|]. exists Approved. split; [done|]. set_solver.
  - apply (keeps_row id r (set_columns _ _ _ _ _)); [done| |by intros (_&_&_&_&_&?)|done].
    by apply row_set_approved.
Qed.

Lemma complete_receiver_keeps id bytes : within keeps (complete_receiver_and_enqueue id bytes).
Proof.
  intros t n. apply wp_sql_tx; [by intros|]. apply wp_bind, wp_now_ms, wp_bind.
  apply (wp_update_key id); [by unfold receiver_transferring; intros; bool_simpl | done | done |].
  intros r Hr HP. simpl. apply wp_bind, wp_now_ms, wp_sql; [done|]. intros _ [] t' Ht Hok.
  apply references_transfer_transfers in Ht as [-> _].
  pose proof (receiver_transferring_resumable _ _ _ HP).
  unfold receiver_transferring in HP. bool_simpl.
  eapply tables_ok_enqueue_completion.
  - simpl. by rewrite lookup_insert_eq.
  - split; [done|]. exists Completed. split; [done|]. set_solver.
  - apply (keeps_row id r (set_columns _ _ _ _ _)); [done| |intros _; apply as_i64_range|done].
    by apply row_set_completed.
Qed.

Lemma delete_deliveries_wp P t n (Q : result unit VnidropError → Tables → nat → Prop) :
  (∀ e, Q (Err e) t (Datatypes.S n)) →
  Q (Ok tt) (on_deliveries (delete_where (λ k _, P k)) t) (Datatypes.S n) →
  wp (delete_deliveries P) t n Q.
Proof. intros He HQ. apply wp_sql; [by intros|]. by intros _ a t' [= <- <-]. Qed.

Lemma mark_sender_completed_keeps id : within keeps (mark_sender_completed id).
Proof.
  intros t n. apply wp_bind, wp_sql_tx; [by intros|]. apply wp_bind, wp_now_ms, wp_bind.
  apply (wp_update_key id); [by intros; bool_simpl | done | |].
  - intros _. simpl. eapply wp_mono.
    + assert (within keeps (completed ← query (λ t0 : Tables,
          exists_where (λ k r, str_eqb k id && str_eqb (c_role r) "sender" &&
             str_eqb (c_state r) "completed") (targeted_transfers t0));
        when completed (delete_deliveries (λ k, str_eqb k id));;
        ret (if completed : bool then Ok false
           else Err (InvalidTransition "sender transfer cannot be completed")))) as Hw.
      { ks_steps. }
      apply (Hw t).
    + by intros [[b|e]|e] t' n' Hk.
  - intros r Hr HP. simpl. apply wp_bind, delete_deliveries_wp; [done|].
    apply wp_bind, wp_now_ms, wp_bind, wp_sql; [done|]. intros _ [] t' Ht.
    apply references_transfer_transfers in Ht as [-> _]. apply wp_ret, wp_of_result. bool_simpl.
    intros Hok. eapply tables_ok_enqueue_release.
    + simpl. by rewrite lookup_insert_eq.
    + split; [done|]. exists Completed. split; [done|]. set_solver.
    + eapply (sheds_keeps (on_transfers (λ _, <[id := _]> (targeted_transfers t)) t)).
      { split_and!; simpl; try done. intros ?. apply delete_where_subset. }
      eapply (keeps_row id r (set_columns _ _ _ _ _)); [done|by apply row_set_completed| |done].
      by intros (_ & _ & _ & _ & ? & _).
Qed.

Lemma exec_keeps op : within keeps (exec op).
Proof.
  destruct op; cbn [exec];
    lazymatch goal with |- within _ (discard _) => apply discard_within; [apply _|] | _ => idtac end.
  all: lazymatch goal with
    | |- within _ (set_state _ _ _) => apply validated_set_keeps
    | |- within _ (set_state_from_any _ _) => apply set_state_from_any_keeps
    | |- within _ (mark_sender_completed _) => apply mark_sender_completed_keeps
    | |- within _ (finalize_sender_authorization_and_enqueue _ _ _) => apply finalize_keeps
    | |- within _ (complete_receiver_and_enqueue _ _) => apply complete_receiver_keeps
    | |- within _ (transition_terminal _ _ _) => apply within_check; [apply _|]; intros text Ht
    | |- _ => idtac
    end.
  all: unfold abandon_sender_preapproval; ks_steps.
  all: lazymatch goal with
    | |- row_typed (row_columns _) => apply row_columns_typed
    | |- row_typed (receiver_columns _ _ _) => apply receiver_columns_typed
    | |- within _ _ => by apply keeps_defer
    | |- context [Z.min _ _] => idtac
    | |- _ => apply lawful_keep; row_lawful
    end.
  split; [row_lawful|]. intros (_ & _ & _ & _ & Ht & Hv). simpl.
  match goal with |- context [as_i64 ?n] => pose proof (as_i64_range n) end.
  unfold is_i64 in *. lia.
Qed.
End Invariant.

(** ** Properties *)

Definition empty_tables : Tables := {|
  targeted_transfers := ∅; accepted_offer_intents := ∅; authorization_delivery_outbox := ∅;
  completion_outbox := ∅; payload_release_outbox := ∅; schema_migrations := ∅ |}.

(** One operation, at any point of any environment (any faults, any clock). *)
Definition store_step `{ForeignText} (t t' : Tables) : Prop :=
  ∃ (env : Env) (op : StoreOp) (n : nat), t' = (@exec env _ op t n).1.2.

Lemma empty_tables_ok : tables_ok empty_tables.
Proof.
  split; intros ? *; simpl; try (by rewrite lookup_empty); intros [? Hs]; by rewrite lookup_empty in Hs.
Qed.

Lemma store_step_keeps `{ForeignText} t t' : store_step t t' → tables_ok t → tables_ok t'.
Proof.
  intros (env & op & n & ->). pose proof (exec_keeps op t n) as Hk. unfold wp in Hk.
  by destruct (exec op t n) as [[??]?].
Qed.

(** C23: after any sequence of store operations from an empty database,
    with any statement failing at any time, every stored state and role parses, every
    integer fits its column, protocol ids are unique, and every queued obligation is
    about a transfer in the matching state: a delivery about an approved sender row, a
    completion about a finished receiver row, a payload release about a finished
    sender row. *)
Theorem reachable_tables_ok `{ForeignText} (t : Tables) :
  rtc store_step empty_tables t → tables_ok t.
Proof.
  intros Hr. assert (∀ t0, rtc store_step t0 t → tables_ok t0 → tables_ok t) as Hgen.
  { clear Hr. intros t0. induction 1 as [|t0 t1 t2 Hs _ IH]; [done|].
    intros Hok. apply IH. by eapply store_step_keeps. }
  apply (Hgen _ Hr), empty_tables_ok.
Qed.

Section Properties.
Context `{Env} `{ForeignText}.

(** C17: no operation but the abandonment of an unapproved offer removes
    a row; every other operation, whether it succeeds or fails, keeps each row's
    identity, parties, manifest and sizes and moves its state only along the
    targeted state machine. *)
Theorem rows_follow_lifecycle (op : StoreOp) (t : Tables) (n : nat) :
  (∀ id, op ≠ OpAbandon id) →
  wp (exec op) t n (λ _ t' _, ∀ id r, targeted_transfers t !! id = Some r →
    ∃ r', targeted_transfers t' !! id = Some r' ∧
      immutable_columns r' = immutable_columns r ∧
      ∀ s, c_state r = targeted_as_str s →
        ∃ s', c_state r' = targeted_as_str s' ∧ targeted_reaches s s').
Proof. intros Hop. apply (exec_evolves op Hop t n). Qed.

(** The verified byte count of a transfer never decreases and never
    exceeds the transfer's size, under every operation but the receiver's final
    completion, which stores the count it is given. *)
Theorem verified_bytes_monotone_bounded (op : StoreOp) (t : Tables) (n : nat) :
  (∀ id, op ≠ OpAbandon id) → (∀ id b, op ≠ OpCompleteReceiver id b) →
  wp (exec op) t n (λ _ t' _, ∀ id r, targeted_transfers t !! id = Some r →
    ∃ r', targeted_transfers t' !! id = Some r' ∧ c_total_size r' = c_total_size r ∧
      (c_verified_bytes r ≤ c_total_size r →
       c_verified_bytes r ≤ c_verified_bytes r' ≤ c_total_size r')).
Proof. intros H1 H2. apply (exec_bytes_evolve op H1 H2 t n). Qed.

(** [set_state] is a validated compare-and-set. It succeeds only for an
    allowed transition of a row that is in state [from], and then changes that row's
    state and nothing else; it fails without any effect otherwise, with
    [InvalidTransition] unless the database itself failed. *)
Theorem set_state_compare_and_set (id : string) (from to : TargetedTransferState) t n :
  wp (set_state id from to) t n (λ res t' _,
    match res with
    | Ok _ => transition_allowed from to = true ∧
        ∃ r now, targeted_transfers t !! id = Some r ∧ c_state r = targeted_as_str from ∧
          t' = on_transfers <[id := set_state_columns (targeted_as_str to) now r]> t
    | Err e => t' = t ∧
        (e = InvalidTransition (transition_text from to) ∧
           (transition_allowed from to = false ∨
            ∀ r, targeted_transfers t !! id = Some r → c_state r ≠ targeted_as_str from)
         ∨ ∃ x, e = repository_sqlx x)
    end).
Proof.
  unfold set_state. apply wp_bind, wp_of_result.
  unfold validate_transition_to. destruct (transition_allowed from to) eqn:Ha; [|by auto].
  apply wp_bind, wp_now_ms, wp_bind.
  apply (wp_update_key id); [by intros; bool_simpl | by eauto | |].
  - intros Hno. simpl. apply wp_fail. split; [done|]. left. split; [done|]. right.
    intros r Hr Hs. specialize (Hno r Hr). by rewrite str_eqb_refl, Hs, str_eqb_refl in Hno.
  - intros r Hr HP. simpl. apply wp_ret. bool_simpl. split; [done|]. by exists r, (clock n).
Qed.
End Properties.

(** *** Consent, completion and revocation *)

Lemma same_consent_true x y :
  same_consent x y = true ↔
  i_sender_endpoint_id x = i_sender_endpoint_id y ∧
  i_receiver_endpoint_id x = i_receiver_endpoint_id y ∧
  i_manifest_id x = i_manifest_id y ∧ i_content_hash x = i_content_hash y ∧
  i_transfer_name x = i_transfer_name y ∧ i_file_count x = i_file_count y ∧
  i_total_size x = i_total_size y ∧ i_protocol_version x = i_protocol_version y.
Proof.
  unfold same_consent. rewrite !andb_true_iff, !str_eqb_eq, !Z.eqb_eq. tauto.
Qed.

Section OperationSpecs.
Context `{Env} `{ForeignText}.

Lemma wp_query {A} (f : Tables → A) t n (Q : result A VnidropError → Tables → nat → Prop) :
  (∀ e, Q (Err (repository_sqlx e)) t (Datatypes.S n)) →
  Q (Ok (f t)) t (Datatypes.S n) → wp (query f) t n Q.
Proof. intros He HQ. apply wp_sql; [done|]. by intros _ a t' [= <- <-]. Qed.

Lemma wp_insert_transfer_row id r t n (Q : result unit VnidropError → Tables → nat → Prop) :
  (∀ e, Q (Err (repository_sqlx e)) t (Datatypes.S n)) →
  (targeted_transfers t !! id = None →
   Q (Ok tt) (on_transfers <[id := r]> t) (Datatypes.S n)) →
  wp (insert_transfer_row id r) t n Q.
Proof.
  intros He HQ. apply wp_sql; [done|]. intros _ [] t' Ht. unfold insert_row in Ht.
  case_match; [done|]. destruct (targeted_transfers t !! id) eqn:E; simplify_eq/=.
  by apply HQ.
Qed.

(** A keyed deletion. *)
Lemma delete_key {R} (m : gmap string R) id :
  delete_where (λ k _, str_eqb k id) m = delete id m.
Proof.
  rewrite (delete_where_key _ _ id).
  - destruct (m !! id) eqn:E; [by rewrite str_eqb_refl | by rewrite delete_id].
  - intros. by apply str_eqb_eq.
Qed.

Lemma wp_persist_receiver_row (auth : TargetedAuthorization) (handle : string) t n Q :
  let id := au_transfer_id auth in
  (∀ e n', Q (Err e) t n') →
  (∀ consent now n', targeted_transfers t !! id = None →
     accepted_offer_intents t !! id = Some consent →
     same_consent consent (authorized_intent auth) = true →
     Q (Ok true) (on_intents (delete id)
                    (on_transfers <[id := receiver_columns auth handle now]> t)) n') →
  wp (persist_receiver_authorization_and_consume_intent auth handle) t n Q.
Proof.
  intros id He Ho. apply wp_sql_tx; [auto|]. apply wp_bind, wp_query; [done|].
  rewrite (exists_where_key _ _ id) by (intros; by bool_simpl).
  destruct (accepted_offer_intents t !! id) as [consent|] eqn:Ei; [|by apply wp_fail].
  unfold id. rewrite str_eqb_refl. simpl.
  destruct (same_consent consent _) eqn:Ec; simpl; [|by apply wp_fail].
  apply wp_bind, wp_now_ms, wp_bind, wp_insert_transfer_row; [done|]. intros Hn.
  apply wp_bind, wp_sql; [done|]. intros _ [] t' [= <-]. apply wp_ret.
  unfold on_intents at 1. simpl. rewrite delete_key. by eapply Ho.
Qed.

Lemma wp_finalize_sender (id ticket handle : string) t n Q :
  (∀ e n', Q (Err e) t n') →
  (∀ r now n', targeted_transfers t !! id = Some r → c_role r = "sender"%string →
     c_state r = "awaiting_approval"%string →
     Q (Ok tt) (on_deliveries <[id := {| o_created_at := now; o_next_attempt_at := now |}]>
       (on_transfers (λ _, <[id := set_columns "approved" (c_verified_bytes r) (Some ticket)
                                   (Some handle) now r]> (targeted_transfers t)) t)) n') →
  wp (finalize_sender_authorization_and_enqueue id ticket handle) t n Q.
Proof.
  intros He Ho. apply wp_sql_tx; [auto|]. apply wp_bind, wp_now_ms, wp_bind.
  apply (wp_update_key id); [by intros; bool_simpl | done | intros _; by apply wp_fail|].
  intros r Hr HP. bool_simpl. apply wp_sql; [done|]. intros _ [] t' Ht.
  apply references_transfer_transfers in Ht as [-> _]. by apply Ho.
Qed.

(** A receiver row is created only from a durable consent of the
    local user that agrees with the authorization in every bound field; the consent
    is consumed in the same transaction, and any failure leaves both untouched. *)
Theorem receiver_row_consumes_consent (auth : TargetedAuthorization) (handle : string) t n :
  let id := au_transfer_id auth in
  wp (persist_receiver_authorization_and_consume_intent auth handle) t n (λ res t' _,
    match res with
    | Ok created => created = true ∧ targeted_transfers t !! id = None ∧
        (∃ consent, accepted_offer_intents t !! id = Some consent ∧
           i_sender_endpoint_id consent = au_sender_endpoint_id auth ∧
           i_receiver_endpoint_id consent = au_receiver_endpoint_id auth ∧
           i_manifest_id consent = au_manifest_id auth ∧
           i_content_hash consent = au_content_hash auth ∧
           i_transfer_name consent = au_transfer_name auth ∧
           i_file_count consent = as_i64 (au_file_count auth) ∧
           i_total_size consent = as_i64 (au_total_size auth) ∧
           i_protocol_version consent = au_protocol_version auth) ∧
        ∃ now, t' = on_intents (delete id)
                      (on_transfers <[id := receiver_columns auth handle now]> t)
    | Err _ => t' = t
    end).
Proof.
  intros id. apply wp_persist_receiver_row; [done|]. intros consent now n' Hn Hi Hc.
  split; [done|]. split; [done|]. split; [|by eexists].
  exists consent. split; [done|]. by apply same_consent_true in Hc.
Qed.

Definition completed_sender (now : Z) (r : TransferColumns) : TransferColumns :=
  set_columns "completed" (c_total_size r) (c_blob_ticket r) (c_authorization_secret_handle r) now r.

Lemma wp_mark_sender_completed (id : string) t n Q :
  (∀ e n', Q (Err e) t n') →
  (∀ r now created n', targeted_transfers t !! id = Some r → c_role r = "sender"%string →
     c_state r ∈ resumable_texts →
     Q (Ok true) (on_releases (insert_or_ignore id created) (on_deliveries (delete id)
          (on_transfers <[id := completed_sender now r]> t))) n') →
  (∀ r n', targeted_transfers t !! id = Some r → c_role r = "sender"%string →
     c_state r = "completed"%string → Q (Ok false) (on_deliveries (delete id) t) n') →
  wp (mark_sender_completed id) t n Q.
Proof.
  intros He Ht Hf. apply wp_bind, wp_sql_tx; [auto|]. apply wp_bind, wp_now_ms, wp_bind.
  apply (wp_update_key id); [by intros; bool_simpl | done | |].
  - intros Hno. simpl. apply wp_bind, wp_query; [done|].
    rewrite (exists_where_key _ _ id) by (intros; by bool_simpl).
    destruct (targeted_transfers t !! id) as [r|] eqn:Hr.
    2: { by apply wp_bind, wp_ret, wp_ret, wp_of_result. }
    destruct (_ && _) eqn:Ec; [|by apply wp_bind, wp_ret, wp_ret, wp_of_result]. bool_simpl.
    apply wp_bind, delete_deliveries_wp; [done|]. apply wp_ret, wp_of_result.
    unfold on_deliveries. rewrite delete_key. by eapply Hf.
  - intros r Hr HP. simpl. apply wp_bind, delete_deliveries_wp; [done|].
    apply wp_bind, wp_now_ms, wp_bind, wp_sql; [done|]. intros _ [] t' Hq.
    apply references_transfer_transfers in Hq as [-> _]. apply wp_ret, wp_of_result. bool_simpl.
    unfold on_deliveries. simpl. rewrite delete_key.
    refine (Ht r _ _ _ _ _ _); try done. by apply str_in_elem.
Qed.

(** Completing a sender transfer is exactly-once. The first call
    moves the row to completed with all bytes accounted for, drops the pending
    delivery and queues the payload release; a repeated call reports [false] and only
    drops a pending delivery; any failure changes nothing. *)
Theorem mark_sender_completed_exactly_once (id : string) t n :
  wp (mark_sender_completed id) t n (λ res t' _,
    match res with
    | Ok true => ∃ r now created, targeted_transfers t !! id = Some r ∧ c_role r = "sender" ∧
        c_state r ∈ resumable_texts ∧
        t' = on_releases (insert_or_ignore id created) (on_deliveries (delete id)
               (on_transfers <[id := set_columns "completed" (c_total_size r) (c_blob_ticket r)
                  (c_authorization_secret_handle r) now r]> t))
    | Ok false => (∃ r, targeted_transfers t !! id = Some r ∧ c_role r = "sender" ∧
        c_state r = "completed") ∧ t' = on_deliveries (delete id) t
    | Err _ => t' = t
    end)%string.
Proof.
  apply wp_mark_sender_completed; [done| |].
  - intros r now created n' Hr Hro Hs. by exists r, now, created.
  - intros r n' Hr Hro Hs. split; [by exists r | done].
Qed.

(** The tables after [clear_authorization] and after [transition_terminal]. *)
Definition clear_row (r : TransferColumns) : TransferColumns :=
  set_columns (c_state r) (c_verified_bytes r) None None (c_updated_at r) r.
Definition without_deliveries (id : string) (t : Tables) : Tables := on_deliveries (delete id) t.
Definition without_obligations (id : string) (t : Tables) : Tables :=
  on_releases (delete id) (on_completions (delete id) (on_deliveries (delete id) t)).
Definition cleared_tables (id : string) (t : Tables) : Tables :=
  on_transfers (alter clear_row id) (without_obligations id t).

Lemma delete_completions_wp id t n (Q : result unit VnidropError → Tables → nat → Prop) :
  (∀ e, Q (Err e) t (S n)) → Q (Ok tt) (on_completions (delete id) t) (S n) →
  wp (delete_completions (λ k, str_eqb k id)) t n Q.
Proof.
  intros He HQ. apply wp_sql; [by intros|]. intros _ a t' [= <- <-].
  unfold on_completions at 1. rewrite delete_key. exact HQ.
Qed.

Lemma delete_releases_wp id t n (Q : result unit VnidropError → Tables → nat → Prop) :
  (∀ e, Q (Err e) t (S n)) → Q (Ok tt) (on_releases (delete id) t) (S n) →
  wp (delete_releases (λ k, str_eqb k id)) t n Q.
Proof.
  intros He HQ. apply wp_sql; [by intros|]. intros _ a t' [= <- <-].
  unfold on_releases at 1. rewrite delete_key. exact HQ.
Qed.

Lemma delete_delivery_wp id t n (Q : result unit VnidropError → Tables → nat → Prop) :
  (∀ e, Q (Err e) t (S n)) → Q (Ok tt) (without_deliveries id t) (S n) →
  wp (delete_deliveries (λ k, str_eqb k id)) t n Q.
Proof.
  intros He HQ. apply delete_deliveries_wp; [done|]. unfold on_deliveries. rewrite delete_key. exact HQ.
Qed.

Lemma delete_intent_wp id t n (Q : result unit VnidropError → Tables → nat → Prop) :
  (∀ e, Q (Err e) t (S n)) → Q (Ok tt) (on_intents (delete id) t) (S n) →
  wp (delete_intents (λ k _, str_eqb k id)) t n Q.
Proof.
  intros He HQ. apply wp_sql; [by intros|]. intros _ a t' [= <- <-].
  unfold on_intents at 1. rewrite delete_key. exact HQ.
Qed.

Lemma wp_clear_authorization (id : string) t n Q :
  (∀ e n', Q (Err e) t n') → (∀ n', Q (Ok tt) (cleared_tables id t) n') →
  wp (clear_authorization id) t n Q.
Proof.
  intros He Ho. apply wp_sql_tx; [auto|]. apply wp_bind, delete_delivery_wp; [done|].
  apply wp_bind, delete_completions_wp; [done|]. apply wp_bind, delete_releases_wp; [done|].
  assert (∀ m, m = alter clear_row id (targeted_transfers t) → ∀ n',
    Q (Ok tt) (on_transfers (λ _, m) (without_obligations id t)) n') as Ho'.
  { intros m -> n'. apply Ho. }
  apply wp_bind, (wp_update_key id); [by intros k r ?%str_eqb_eq | done| |].
  - intros Hno. apply wp_ret. simpl in Hno.
    assert (targeted_transfers t !! id = None) as Hr.
    { destruct (targeted_transfers t !! id) as [r|] eqn:E; [|done]. specialize (Hno r eq_refl).
      by rewrite str_eqb_refl in Hno. }
    apply (Ho' (targeted_transfers t)). apply map_eq. intros k.
    destruct (decide (k = id)) as [->|Hne]; [by rewrite lookup_alter_eq, Hr | by rewrite lookup_alter_ne].
  - intros r Hr _. apply wp_ret. simpl in Hr. apply (Ho' (<[id := clear_row r]> (targeted_transfers t))).
    apply map_eq. intros k. destruct (decide (k = id)) as [->|Hne].
    + by rewrite lookup_insert_eq, lookup_alter_eq, Hr.
    + by rewrite lookup_insert_ne, lookup_alter_ne.
Qed.

Definition ended_row (state : string) (clear : bool) (now : Z) (r : TransferColumns) : TransferColumns :=
  set_columns state (c_verified_bytes r) (if clear then None else c_blob_ticket r)
    (if clear then None else c_authorization_secret_handle r) now r.
Definition ended_obligations (id : string) (clear : bool) (t : Tables) : Tables :=
  let t := on_intents (delete id) t in
  if clear then without_obligations id t else without_deliveries id t.

(** The obligations go whether the row changes or not. *)
Lemma wp_transition_terminal (id : string) (state : TargetedTransferState) (clear : bool) text t n Q :
  terminal_state_text state = Ok text →
  (∀ e n', Q (Err e) t n') →
  (∀ n', (∀ r, targeted_transfers t !! id = Some r → terminal_applies id text id r = false) →
     Q (Ok false) (ended_obligations id clear t) n') →
  (∀ r now n', targeted_transfers t !! id = Some r → terminal_applies id text id r = true →
     Q (Ok true) (on_transfers <[id := ended_row text clear now r]> (ended_obligations id clear t)) n') →
  wp (transition_terminal id state clear) t n Q.
Proof.
  intros Htext He Hno Hyes. unfold transition_terminal. rewrite Htext.
  apply wp_bind, wp_of_result, wp_sql_tx; [auto|].
  apply wp_bind, delete_intent_wp; [done|]. apply wp_bind, delete_delivery_wp; [done|].
  assert (∀ t1 n1, t1 = ended_obligations id clear t →
    wp (now ← now_ms;
        n ← update_transfers (terminal_applies id text)
              (λ r, set_columns text (c_verified_bytes r)
                      (if clear then None else c_blob_ticket r)
                      (if clear then None else c_authorization_secret_handle r) now r);
        ret (Nat.eqb n 1)) t1 n1
      (λ r s' n', match r with Ok a => Q (Ok a) s' (S n') | Err _ => True end)) as Hrest.
  { intros t1 n1 ->.
    assert (targeted_transfers (ended_obligations id clear t) = targeted_transfers t) as Et by by destruct clear.
    apply wp_bind, wp_now_ms, wp_bind, (wp_update_key id).
    - intros k r Hk. unfold terminal_applies in Hk. by apply andb_prop in Hk as [[?%str_eqb_eq _]%andb_prop _].
    - done.
    - intros Hn. apply wp_ret, Hno. by rewrite <- Et.
    - intros r Hr Hp. apply wp_ret. rewrite Et in Hr.
      eapply (eq_rect _ (λ t2, Q (Ok true) t2 _)); [by apply (Hyes r (clock n1))|].
      unfold on_transfers. by rewrite Et. }
  apply wp_bind. destruct clear.
  - apply wp_bind, delete_completions_wp; [done|]. apply delete_releases_wp; [done|]. by apply Hrest.
  - apply wp_ret. by apply Hrest.
Qed.

(** The tables after the revocation of a peer. *)
Definition unfinished_with (peer : string) (_ : string) (r : TransferColumns) : bool :=
  involves_peer peer r && negb (str_in (c_state r) terminal_texts).
Definition revoked_tables (peer : string) (now : Z) (t : Tables) : Tables := {|
  targeted_transfers := update_where (unfinished_with peer)
    (λ _ r, set_columns "cancelled" (c_verified_bytes r) None None now r) (targeted_transfers t);
  accepted_offer_intents := delete_where (λ _ r, str_eqb (i_sender_endpoint_id r) peer ||
    str_eqb (i_receiver_endpoint_id r) peer) (accepted_offer_intents t);
  authorization_delivery_outbox := delete_where (λ k _,
    exists_where (λ k' r, str_eqb k' k && involves_peer peer r) (targeted_transfers t))
    (authorization_delivery_outbox t);
  completion_outbox := completion_outbox t;
  payload_release_outbox := payload_release_outbox t;
  schema_migrations := schema_migrations t |}.

Lemma wp_cancel_by_peer (peer : string) t n Q :
  (∀ e n', Q (Err e) t n') →
  (∀ now n', Q (Ok (select_where (unfinished_with peer) (targeted_transfers t)).*1)
               (revoked_tables peer now t) n') →
  wp (cancel_by_peer peer) t n Q.
Proof.
  intros He Ho. apply wp_bind, wp_now_ms, wp_sql_tx; [auto|].
  apply wp_bind, wp_sql; [done|]. intros _ [] t1 [= <-].
  apply wp_bind, wp_sql; [done|]. intros _ [] t2 [= <-].
  apply wp_sql; [done|]. intros _ ids t' [= <- <-]. apply Ho.
Qed.

Lemma unfinished_with_true peer id r :
  unfinished_with peer id r = true ↔ involves_peer peer r = true ∧ c_state r ∉ terminal_texts.
Proof. unfold unfinished_with. by rewrite andb_true_iff, negb_true_iff, <- not_true_iff_false, str_in_elem. Qed.

(** A row of the other parties is untouched, one of the peer's is cancelled or had ended. *)
Lemma revoked_row peer now t id r :
  targeted_transfers (revoked_tables peer now t) !! id = Some r →
  ∃ r0, targeted_transfers t !! id = Some r0 ∧
    r = if unfinished_with peer id r0
        then set_columns "cancelled" (c_verified_bytes r0) None None now r0 else r0.
Proof.
  simpl. rewrite lookup_update_where. destruct (targeted_transfers t !! id) as [r0|]; [|done].
  intros [= <-]. by exists r0.
Qed.

Lemma revoked_delivery peer now t id r :
  targeted_transfers t !! id = Some r → involves_peer peer r = true →
  authorization_delivery_outbox (revoked_tables peer now t) !! id = None.
Proof.
  intros Hr Hp. destruct (authorization_delivery_outbox (revoked_tables peer now t) !! id) as [o|] eqn:E; [|done].
  apply lookup_delete_where in E as [_ E].
  assert (exists_where (λ k' r, str_eqb k' id && involves_peer peer r) (targeted_transfers t)
          = true) as Hex; [|congruence].
  apply exists_where_true. exists id, r. by rewrite str_eqb_refl.
Qed.

Lemma revoked_intent peer now t id i :
  accepted_offer_intents (revoked_tables peer now t) !! id = Some i →
  i_sender_endpoint_id i ≠ peer ∧ i_receiver_endpoint_id i ≠ peer.
Proof.
  intros Hi. apply lookup_delete_where in Hi as [_ Hi]. apply orb_false_iff in Hi as [H1 H2].
  split; intros E; rewrite E, str_eqb_refl in *; done.
Qed.

(** Revoking a peer cancels every unfinished transfer with it and
    destroys its capability; it forgets every consent and pending delivery of the
    peer, reports exactly the cancelled ids, and leaves other peers' rows alone. *)
Theorem cancel_by_peer_revokes (peer : string) t n :
  wp (cancel_by_peer peer) t n (λ res t' _,
    match res with
    | Err _ => t' = t
    | Ok ids =>
        (∀ id, id ∈ ids ↔ ∃ r, targeted_transfers t !! id = Some r ∧
           involves_peer peer r = true ∧ c_state r ∉ terminal_texts) ∧
        (∀ id r, targeted_transfers t !! id = Some r →
           ∃ r', targeted_transfers t' !! id = Some r' ∧
             (id ∉ ids → r' = r) ∧
             (id ∈ ids → c_state r' = "cancelled" ∧ c_blob_ticket r' = None ∧
                c_authorization_secret_handle r' = None ∧
                immutable_columns r' = immutable_columns r)) ∧
        (∀ id r, targeted_transfers t !! id = Some r → involves_peer peer r = true →
           authorization_delivery_outbox t' !! id = None) ∧
        (∀ id i, accepted_offer_intents t' !! id = Some i →
           i_sender_endpoint_id i ≠ peer ∧ i_receiver_endpoint_id i ≠ peer)
    end)%string.
Proof.
  apply wp_cancel_by_peer; [done|]. intros now _.
  assert (∀ id, id ∈ (select_where (unfinished_with peer) (targeted_transfers t)).*1 ↔
            ∃ r, targeted_transfers t !! id = Some r ∧ unfinished_with peer id r = true) as Hids.
  { intros id. rewrite list_elem_of_fmap. split.
    - intros ([id' r] & -> & Hin). apply elem_of_select_where in Hin. by exists r.
    - intros (r & Hr). exists (id, r). split; [done|]. by apply elem_of_select_where. }
  split_and!; [| |by intros; eapply revoked_delivery | by intros; eapply revoked_intent].
  - intros id. rewrite Hids. by setoid_rewrite unfinished_with_true.
  - intros id r Hr. simpl. rewrite lookup_update_where, Hr. simpl. eexists. split; [done|].
    destruct (unfinished_with peer id r) eqn:HP; (split; [intros Hn|intros Hin]); try done.
    + destruct Hn. apply Hids. by exists r.
    + apply Hids in Hin as (r' & Hr' & HP'). congruence.
Qed.
End OperationSpecs.

(** *** Restart, round trips and the migration *)

Section StoreSpecs.
Context `{Env} `{ForeignText}.

(** What the two restart steps leave behind. If both succeed, no transfer is
    in flight, and no sender offer awaits an approval that can no longer arrive;
    every other row is exactly as it was. *)
Theorem restart_settles_in_flight t n :
  wp (mark_interrupted_in_flight;; fail_sender_preapproval_on_restart) t n (λ res t' _,
    match res with
    | Err _ => True
    | Ok _ => ∀ id r', targeted_transfers t' !! id = Some r' →
        (c_state r' ∉ in_flight_texts) ∧
        (c_role r' = "sender"%string → c_state r' ∉ preapproval_texts) ∧
        (∃ r, targeted_transfers t !! id = Some r ∧
          (r' = r ∨ (∃ now, r' = set_state_columns "interrupted" now r ∨
                            r' = set_state_columns "failed" now r)))
    end).
Proof.
  apply wp_bind, wp_bind, wp_now_ms, wp_sql; [done|]. intros _ ids t1 [= _ <-].
  apply wp_bind, wp_query; [done|]. apply wp_bind, wp_of_result.
  destruct (collect_results _ _) as [rows|e] eqn:Erows; [|done].
  set (f1 := λ (_ : string), set_state_columns "interrupted" (clock n)).
  set (P1 := λ (_ : string) r, str_in (c_state r) in_flight_texts).
  assert (∀ id r1, update_where P1 f1 (targeted_transfers t) !! id = Some r1 →
            (c_state r1 ∉ in_flight_texts) ∧
            (∃ r, targeted_transfers t !! id = Some r ∧
                 (r1 = r ∨ r1 = f1 id r ∧ str_in (c_state r1) preapproval_texts = false))) as H1.
  { intros id r1. rewrite lookup_update_where.
    destruct (targeted_transfers t !! id) as [r|] eqn:Hr; [|done]. simpl. intros [= <-].
    destruct (P1 id r) eqn:HP.
    - split; [simpl; set_solver|]. exists r. split; [done|]. right. by vm_compute.
    - split; [|by eauto]. rewrite <- str_in_elem. unfold P1 in HP. congruence. }
  apply collect_results_Ok in Erows. destruct rows as [|row rows].
  - apply wp_ret. apply Forall2_nil_inv_r in Erows. simpl. intros id r1 Hr1.
    destruct (H1 id r1 Hr1) as (Hc & r & Hr & Hcase). split; [done|]. split.
    + intros Hrole Hin. apply (not_elem_of_nil (id, r1)). rewrite <- Erows.
      apply elem_of_select_where. split; [done|]. unfold sender_preapproval.
      rewrite Hrole, str_eqb_refl. by apply str_in_elem.
    + exists r. split; [done|]. destruct Hcase as [->|[-> _]]; eauto.
  - apply wp_bind, wp_now_ms, wp_bind, wp_sql; [done|]. intros _ cnt t2 [= _ <-]. apply wp_ret. simpl.
    intros id r2. rewrite lookup_update_where.
    destruct (update_where _ _ (targeted_transfers t) !! id) as [r1|] eqn:Hr1; [|done]. simpl.
    intros [= <-]. destruct (H1 id r1 Hr1) as (Hc & r & Hr & Hcase).
    destruct (sender_preapproval id r1) eqn:HP.
    + split; [simpl; set_solver|]. split; [simpl; set_solver|]. exists r. split; [done|]. right.
      unfold sender_preapproval in HP. bool_simpl.
      destruct Hcase as [->|[_ Hn]]; [by eauto | congruence].
    + split; [done|]. split.
      * intros Hrole Hin. unfold sender_preapproval in HP.
        apply str_in_elem in Hin. by rewrite Hrole, str_eqb_refl, Hin in HP.
      * exists r. split; [done|]. destruct Hcase as [->|[-> _]]; eauto.
Qed.

(** A row written by [insert] is read back exactly, for every 64-bit
    counter value, although the columns are signed. *)
Theorem insert_get_row_roundtrip (row : TargetedTransferRow) t :
  (∀ n, io_fault n = None) →
  is_u64 (tr_protocol_transfer_id row) → is_u64 (tr_file_count row) →
  is_u64 (tr_total_size row) → is_u64 (tr_verified_bytes row) →
  targeted_transfers t !! tr_id row = None →
  (∀ id r, targeted_transfers t !! id = Some r →
     c_protocol_transfer_id r ≠ as_i64 (tr_protocol_transfer_id row)) →
  (run (insert row;; get_row (tr_id row)) t).1 = Ok (Some row).
Proof.
  intros Hio Hp Hf Ht Hv Hn Hu.
  apply (run_wp _ t (λ res _, res = Ok (Some row))).
  assert (exists_where (λ _ r', c_protocol_transfer_id r' =?
            c_protocol_transfer_id (row_columns row)) (targeted_transfers t) = false) as Hfresh.
  { apply not_true_iff_false. rewrite exists_where_true. intros (id & r & Hr & E).
    bool_simpl. by destruct (Hu id r). }
  apply wp_bind. eapply wp_sql_quiet; [done| |].
  { rewrite Hfresh. unfold insert_row. by rewrite Hn. }
  apply wp_bind. eapply wp_sql_quiet; [done|done|]. apply wp_of_result. simpl.
  rewrite lookup_insert_eq. simpl. rewrite role_roundtrip. simpl.
  rewrite targeted_state_roundtrip. simpl. rewrite !as_u64_as_i64 by done.
  by destruct row.
Qed.

(** A durable consent is never rewritten: recording an offer again
    only refreshes its timestamp, and an offer that differs in any bound field is
    refused with the stored consent untouched. *)
Theorem accepted_consent_immutable (offer : PendingTargetedOffer) t n :
  let id := po_transfer_id offer in
  wp (persist_accepted_offer_intent offer) t n (λ res t' _,
    match res with
    | Ok _ => ∃ now consent, t' = on_intents <[id := consent]> t ∧
        same_consent consent (offer_intent offer now) = true ∧ i_accepted_at consent = now ∧
        (∀ old, accepted_offer_intents t !! id = Some old → same_consent old consent = true)
    | Err e => t' = t ∧
        ((∃ x, e = repository_sqlx x) ∨
         ∃ old now, accepted_offer_intents t !! id = Some old ∧
                    same_consent old (offer_intent offer now) = false)
    end).
Proof.
  intros id. apply wp_bind, wp_now_ms, wp_bind, wp_sql; [by eauto|].
  intros _ cnt t' Ht. unfold upsert_where in Ht. fold id in Ht.
  destruct (accepted_offer_intents t !! id) as [old|] eqn:Eo.
  - destruct (same_consent old _) eqn:Es; simplify_eq/=.
    + eexists (clock n), _. split; [reflexivity|].
      apply same_consent_true in Es. split; [by apply same_consent_true|]. split; [done|].
      intros ? [= <-]. by apply same_consent_true.
    + split; [by destruct t|]. right. exists old. by eauto.
  - simplify_eq/=. eexists (clock n), _. split; [reflexivity|].
    split; [by apply same_consent_true|]. split; [done|]. done.
Qed.

(** Abandoning an offer deletes a row only if it is a sender row that was
    never approved; the foreign keys take every queued obligation of it along and no
    other row is touched. *)
Theorem abandon_only_unapproved (id : string) t n :
  wp (abandon_sender_preapproval id) t n (λ res t' _,
    match res with
    | Ok true => (∃ r, targeted_transfers t !! id = Some r ∧ sender_preapproval id r = true) ∧
        targeted_transfers t' = delete id (targeted_transfers t) ∧
        authorization_delivery_outbox t' !! id = None ∧ completion_outbox t' !! id = None ∧
        payload_release_outbox t' !! id = None ∧
        (∀ id', id' ≠ id →
           authorization_delivery_outbox t' !! id' = authorization_delivery_outbox t !! id' ∧
           completion_outbox t' !! id' = completion_outbox t !! id' ∧
           payload_release_outbox t' !! id' = payload_release_outbox t !! id')
    | Ok false => targeted_transfers t' = targeted_transfers t
    | Err _ => t' = t
    end).
Proof.
  apply wp_bind, wp_sql; [done|]. intros _ cnt t' [= <- <-]. apply wp_ret.
  set (P := λ k r, str_eqb k id && str_eqb (c_role r) "sender" && str_in (c_state r) preapproval_texts).
  assert (∀ k r, P k r = true → k = id) as HP by (unfold P; intros; by bool_simpl).
  rewrite (count_where_key P _ id HP). simpl. rewrite (delete_where_key P _ id HP).
  destruct (targeted_transfers t !! id) as [r|] eqn:Hr; [|done].
  destruct (P id r) eqn:HPr; [|done]. simpl.
  set (orphan := λ k, bool_decide (is_Some (targeted_transfers t !! k)) &&
                      bool_decide (delete id (targeted_transfers t) !! k = None)).
  assert (∀ {O} (outbox : gmap string O), delete_where (λ k _, orphan k) outbox = delete id outbox) as Ho.
  { intros O outbox. rewrite (delete_where_key _ _ id).
    - destruct (outbox !! id) eqn:E; [|by rewrite delete_id].
      unfold orphan. rewrite lookup_delete_eq, !bool_decide_true; [done|done|by exists r].
    - unfold orphan. intros k _ Hk. apply andb_prop in Hk as [Hs Hd]. bool_simpl.
      apply lookup_delete_None in Hd as [->|E]; [done|]. destruct Hs as [? Hs]. congruence. }
  split.
  { exists r. split; [done|]. unfold P in HPr. by rewrite <- andb_assoc, str_eqb_refl in HPr. }
  rewrite !Ho, !lookup_delete_eq. split_and!; try done.
  intros id' Hne. by rewrite !lookup_delete_ne.
Qed.
End StoreSpecs.

Section Migration.
Context `{Env} `{ForeignText}.

Lemma backfill_lookup t id :
  backfill_deliveries t !! id =
  match authorization_delivery_outbox t !! id with
  | Some o => Some o
  | None => (λ r, {| o_created_at := c_updated_at r; o_next_attempt_at := 0 |}) <$>
      rows_where (λ _ r, str_eqb (c_role r) "sender" && str_eqb (c_state r) "approved" &&
                         bool_decide (c_blob_ticket r ≠ None) &&
                         bool_decide (c_authorization_secret_handle r ≠ None))
        (targeted_transfers t) !! id
  end.
Proof.
  unfold backfill_deliveries. destruct (authorization_delivery_outbox t !! id) eqn:E.
  - by apply lookup_union_Some_l.
  - rewrite lookup_union_r by done. apply lookup_fmap.
Qed.

Lemma backfill_keeps t : keeps t (on_deliveries (λ _, backfill_deliveries t) t).
Proof.
  intros [O1 O2 O3 O4 O5]. split; try done. simpl. intros id [o Ho]. rewrite backfill_lookup in Ho.
  destruct (authorization_delivery_outbox t !! id) eqn:E; [by apply O3; rewrite E|].
  apply fmap_Some in Ho as (r & Hr & _). apply lookup_rows_where in Hr as [Hr HP]. bool_simpl.
  exists r. split; [done|]. split; [done|]. exists Approved. split; [done|]. set_solver.
Qed.

(** The one-time outbox migration is idempotent and consent-free: it never
    changes a transfer, keeps every delivery already queued, adds one immediately due
    delivery for exactly the approved sender rows that hold both capabilities, runs
    at most once, and preserves the database invariant. *)
Theorem migration_once t n :
  wp migrate_authorization_outbox t n (λ res t' _,
    targeted_transfers t' = targeted_transfers t ∧ keeps t t' ∧
    match res with
    | Err _ => t' = t
    | Ok _ => is_Some (schema_migrations t' !! outbox_migration) ∧
        (is_Some (schema_migrations t !! outbox_migration) → t' = t) ∧
        (schema_migrations t !! outbox_migration = None → ∀ id,
           (∀ o, authorization_delivery_outbox t !! id = Some o →
              authorization_delivery_outbox t' !! id = Some o) ∧
           (authorization_delivery_outbox t !! id = None →
            ∀ o, authorization_delivery_outbox t' !! id = Some o ↔
              ∃ r, targeted_transfers t !! id = Some r ∧ c_role r = "sender" ∧
                c_state r = "approved" ∧ c_blob_ticket r ≠ None ∧
                c_authorization_secret_handle r ≠ None ∧
                o = {| o_created_at := c_updated_at r; o_next_attempt_at := 0 |}))
    end)%string.
Proof.
  apply wp_asql_tx; [by intros|]. apply wp_bind, wp_asql; [done|].
  intros _ applied t' [= <- <-].
  rewrite (exists_where_key _ _ outbox_migration) by (intros; by apply str_eqb_eq).
  destruct (schema_migrations t !! outbox_migration) as [at_|] eqn:Em.
  - rewrite str_eqb_refl. simpl. apply wp_ret. split; [done|]. split; [done|]. rewrite Em.
    split; [by eexists|]. by split.
  - simpl. apply wp_bind, wp_asql; [done|]. intros _ [] t1 [= <-].
    apply wp_bind, wp_now_ms, wp_asql; [done|]. intros _ [] t2 Ht. unfold insert_row in Ht.
    simpl in Ht. rewrite Em in Ht. simplify_eq/=. split; [done|]. split.
    { intros Hok. destruct (backfill_keeps t Hok) as [O1 O2 O3 O4 O5]. by split. }
    split; [rewrite lookup_insert_eq; by eexists|]. split; [by intros [? ?]|].
    intros _ id. rewrite backfill_lookup. split.
    + by intros o ->.
    + intros ->. intros o. rewrite fmap_Some. split.
      * intros (r & Hr & ->). apply lookup_rows_where in Hr as [Hr HP]. bool_simpl. by exists r.
      * intros (r & Hr & Hro & Hst & Hb & Ha & ->). exists r. split; [|done].
        apply lookup_rows_where. split; [done|].
        by rewrite Hro, Hst, !str_eqb_refl, !bool_decide_true.
Qed.
End Migration.

(** ** Concrete runs *)

Section Witnesses.
#[local] Existing Instance demo_text.

Definition demo_env : Env := quiet_env 1000 (λ _, "uuid"%string).
#[local] Existing Instance demo_env.

Definition demo_row : TargetedTransferRow := {|
  tr_id := "t1"; tr_protocol_transfer_id := U64_MAX; tr_sender_endpoint_id := "alice";
  tr_receiver_endpoint_id := "bob"; tr_manifest_id := "m"; tr_content_hash := "h";
  tr_transfer_name := "photos"; tr_file_count := 3; tr_total_size := 4096;
  tr_verified_bytes := 0; tr_blob_ticket := None; tr_authorization_secret_handle := None;
  tr_role := Sender; tr_state := AwaitingApproval; tr_created_at := 1; tr_updated_at := 1 |}.

Definition demo_tables (ops : list StoreOp) : Tables :=
  fold_left (λ t op, (exec op t 0%nat).1.2) ops empty_tables.

Definition demo_ops : list StoreOp :=
  [OpInsert demo_row; OpFinalize "t1" "ticket" "handle"; OpSetState "t1" Approved Connecting;
   OpMarkSenderCompleted "t1"].

Lemma demo_reachable ops t :
  rtc store_step t (fold_left (λ t op, (exec op t 0%nat).1.2) ops t).
Proof.
  revert t. induction ops as [|op ops IH]; intros t; [apply rtc_refl|]. simpl.
  eapply rtc_l; [|apply IH]. by exists demo_env, op, 0%nat.
Qed.

Lemma reachable_tables_ok_witness :
  (c_state <$> targeted_transfers (demo_tables demo_ops) !! "t1"%string) = Some "completed"%string ∧
  tables_ok (demo_tables demo_ops).
Proof.
  split; [vm_compute; reflexivity|].
  apply (reachable_tables_ok (demo_tables demo_ops)), demo_reachable.
Defined.

(** A delivered approval, followed on its row. *)
Definition demo_inserted : Tables := demo_tables [OpInsert demo_row].
Definition demo_finalize : StoreOp := OpFinalize "t1" "ticket" "handle".

Lemma rows_follow_lifecycle_witness :
  targeted_transfers demo_inserted !! "t1"%string = Some (row_columns demo_row) ∧
  ∃ r', targeted_transfers (exec demo_finalize demo_inserted 0%nat).1.2 !! "t1"%string = Some r' ∧
    immutable_columns r' = immutable_columns (row_columns demo_row) ∧
    ∀ s, "awaiting_approval"%string = targeted_as_str s →
      ∃ s', c_state r' = targeted_as_str s' ∧ targeted_reaches s s'.
Proof.
  assert (targeted_transfers demo_inserted !! "t1"%string = Some (row_columns demo_row)) as Hr
    by (vm_compute; reflexivity).
  split; [exact Hr|].
  exact (wp_final _ _ _ _ (rows_follow_lifecycle demo_finalize demo_inserted 0%nat
    ltac:(discriminate)) _ _ Hr).
Defined.

Definition demo_receiving : Tables :=
  on_transfers <["t2"%string := receiver_columns {|
    au_transfer_id := "t2"; au_protocol_transfer_id := 7; au_sender_endpoint_id := "alice";
    au_receiver_endpoint_id := "bob"; au_manifest_id := "m"; au_content_hash := "h";
    au_file_count := 1; au_total_size := 100; au_protocol_version := 3;
    au_transfer_name := "n"; au_blob_ticket := "ticket"; au_auth_secret := "s"; au_mac := "m" |}
    "handle" 1]> empty_tables.

Definition demo_transferring : Tables := fold_left (λ t op, (exec op t 0%nat).1.2)
  [OpSetState "t2" Approved Connecting; OpSetState "t2" Connecting Transferring] demo_receiving.

Lemma verified_bytes_monotone_bounded_witness :
  (c_verified_bytes <$> targeted_transfers
     (exec (OpAdvanceBytes "t2" 250) demo_transferring 0%nat).1.2 !! "t2"%string) = Some 100 ∧
  ∀ r, targeted_transfers demo_transferring !! "t2"%string = Some r →
  ∃ r', targeted_transfers (exec (OpAdvanceBytes "t2" 250) demo_transferring 0%nat).1.2
          !! "t2"%string = Some r' ∧ c_total_size r' = c_total_size r ∧
    (c_verified_bytes r ≤ c_total_size r →
     c_verified_bytes r ≤ c_verified_bytes r' ≤ c_total_size r').
Proof.
  split; [vm_compute; reflexivity|].
  exact (wp_final _ _ _ _ (verified_bytes_monotone_bounded (OpAdvanceBytes "t2" 250)
    demo_transferring 0%nat ltac:(discriminate) ltac:(discriminate)) _).
Defined.

Lemma insert_get_row_roundtrip_witness :
  (run (insert demo_row;; get_row "t1") empty_tables).1 = Ok (Some demo_row).
Proof.
  apply (insert_get_row_roundtrip demo_row empty_tables);
    [intros n; reflexivity | vm_compute; split; discriminate .. | reflexivity |].
  intros id r Hr. discriminate.
Defined.
End Witnesses.
