(* ===== verification/Access.v ===== *)
(** * [access_policy.rs] and [blocked_devices.rs]

    The in-memory policy that decides whether a connected endpoint may read the blobs
    of a shared transfer, and the durable identity deny list. *)

From S2P Require Import Prelude Sql ControlPlane Errors.

(** ** [access_policy.rs] *)

Definition APPROVAL_SESSION_TTL_MS : Z := 10 * 60 * 1000.

Inductive TransferAccessMode : Type := Public | ApprovalRequired.

Inductive AccessDecision : Type :=
| Allow
| Deny (reason : string).

#[global] Instance TransferAccessMode_eq_dec : EqDecision TransferAccessMode.
Proof. solve_decision. Defined.
#[global] Instance AccessDecision_eq_dec : EqDecision AccessDecision.
Proof. solve_decision. Defined.

Record ApprovalSession : Type := { expires_at : option Z }.

Definition is_valid (session : ApprovalSession) (now : Z) : bool :=
  match expires_at session with Some e => now <=? e | None => true end.

(** Both maps sit behind their own lock; [decide] keeps the read guard of [modes]
    until it returns, so it never sees a transfer half removed. *)
Record AccessPolicy : Type := {
  modes : gmap Z TransferAccessMode;
  approved_sessions : gmap (Z * string) ApprovalSession
}.

Definition access_policy_new : AccessPolicy := {| modes := ∅; approved_sessions := ∅ |}.

Definition mode_from_storage (value : string) : TransferAccessMode :=
  if str_eqb value "public" then Public else ApprovalRequired.

Definition mode_to_storage (mode : TransferAccessMode) : string :=
  match mode with Public => "public" | ApprovalRequired => "approval_required" end.

Section Policy.
Context `{Env} {E : Type}.

Definition set_mode (transfer_id : Z) (mode : TransferAccessMode) : M AccessPolicy E unit :=
  modify (λ p, {| modes := <[transfer_id := mode]> (modes p);
                  approved_sessions := approved_sessions p |}).

Definition remove_transfer (transfer_id : Z) : M AccessPolicy E unit :=
  modify (λ p, {| modes := delete transfer_id (modes p);
                  approved_sessions := approved_sessions p |});;
  modify (λ p, {| modes := modes p;
                  approved_sessions :=
                    filter (λ kv : Z * string * ApprovalSession, kv.1.1 ≠ transfer_id)
                      (approved_sessions p) |}).

Definition approve_endpoint_until (transfer_id : Z) (endpoint_id : string)
    (expires_at : option Z) : M AccessPolicy E unit :=
  modify (λ p, {| modes := modes p;
                  approved_sessions := <[(transfer_id, endpoint_id) :=
                    {| expires_at := expires_at |}]> (approved_sessions p) |}).

Definition approve_endpoint (transfer_id : Z) (endpoint_id : string) : M AccessPolicy E unit :=
  now ← now_ms;
  approve_endpoint_until transfer_id endpoint_id (Some (now + APPROVAL_SESSION_TTL_MS)).

Definition decide_access (transfer_id : Z) (endpoint_id : option string) :
    M AccessPolicy E AccessDecision :=
  p ← get;
  match modes p !! transfer_id with
  | None => ret (Deny "unknown-transfer")
  | Some Public => ret Allow
  | Some ApprovalRequired =>
      match endpoint_id with
      | None => ret (Deny "missing-endpoint-id")
      | Some endpoint_id =>
          let key := (transfer_id, endpoint_id) in
          match approved_sessions p !! key with
          | Some session =>
              now ← now_ms;
              if is_valid session now then ret Allow
              else
                modify (λ p, {| modes := modes p;
                                approved_sessions := delete key (approved_sessions p) |});;
                ret (Deny "approval-expired")
          | None => ret (Deny "approval-required")
          end
      end
  end.
End Policy.

(** ** [blocked_devices.rs] *)

Abbreviation Blocked := (gmap string Z).

Section BlockStore.
Context `{Env}.

(** [ON CONFLICT(endpoint_id) DO NOTHING]. *)
Definition block_endpoint (endpoint_id : string) (now_ms : Z) : M Blocked AnyhowError unit :=
  asql (λ t, Ok (tt, insert_or_ignore endpoint_id now_ms t)).

Definition unblock_endpoint (endpoint_id : string) : M Blocked AnyhowError unit :=
  asql (λ t, Ok (tt, delete_where (λ k _, str_eqb k endpoint_id) t)).

Definition is_blocked (endpoint_id : string) : M Blocked AnyhowError bool :=
  asql (λ t, Ok (exists_where (λ k _, str_eqb k endpoint_id) t, t)).

Definition recently_blocked (x y : string * Z) : Prop := y.2 ≤ x.2.
#[global] Instance recently_blocked_dec : RelDecision recently_blocked.
Proof. intros x y. unfold recently_blocked. apply _. Defined.

Definition list_blocked : M Blocked AnyhowError (list string) :=
  asql (λ t, Ok ((order_by recently_blocked (map_to_list t)).*1, t)).
End BlockStore.

(** ** Properties *)

Lemma mode_storage_roundtrip mode : mode_from_storage (mode_to_storage mode) = mode.
Proof. by destruct mode. Qed.

Section Properties.
Context `{Env}.

(** The policy lets the endpoint read the transfer at time [now]. *)
Definition grants (p : AccessPolicy) (id : Z) (endpoint : option string) (now : Z) : Prop :=
  modes p !! id = Some Public ∨
  (modes p !! id = Some ApprovalRequired ∧ ∃ e session, endpoint = Some e ∧
     approved_sessions p !! (id, e) = Some session ∧ is_valid session now = true).

Lemma wp_decide_access {E} id endpoint p n (Q : result AccessDecision E → AccessPolicy → nat → Prop) :
  (∀ n', grants p id endpoint (clock n) → Q (Ok Allow) p n') →
  (∀ reason n', modes p !! id ≠ Some Public →
     (∀ e session, endpoint = Some e → modes p !! id = Some ApprovalRequired →
        approved_sessions p !! (id, e) = Some session → False) → Q (Ok (Deny reason)) p n') →
  (∀ reason e session n', endpoint = Some e → modes p !! id = Some ApprovalRequired →
     approved_sessions p !! (id, e) = Some session → is_valid session (clock n) = false →
     Q (Ok (Deny reason)) {| modes := modes p; approved_sessions := delete (id, e) (approved_sessions p) |} n') →
  wp (decide_access id endpoint) p n Q.
Proof.
  intros Hallow Hdeny Hexpired. unfold decide_access. apply wp_bind, wp_get.
  destruct (modes p !! id) as [[]|] eqn:Em.
  - apply wp_ret, Hallow. by left.
  - destruct endpoint as [e|]; [|by apply wp_ret, Hdeny].
    destruct (approved_sessions p !! (id, e)) as [session|] eqn:Es.
    + apply wp_bind, wp_now_ms. destruct (is_valid session (clock n)) eqn:Ev.
      * apply wp_ret, Hallow. right. eauto 6.
      * by eapply wp_bind, wp_modify, wp_ret, Hexpired.
    + apply wp_ret, Hdeny; [done|]. congruence.
  - apply wp_ret, Hdeny; [done|]. congruence.
Qed.

(** The policy fails closed. Access is granted only to a transfer with
    a known mode, and for an approval-gated transfer only to an identified endpoint
    with a session that has not expired; an expired session is removed, and no
    decision changes anything else. *)
Theorem decide_fails_closed (id : Z) (endpoint : option string) (p : AccessPolicy) n :
  wp (E:=string) (decide_access id endpoint) p n (λ res p' _,
    modes p' = modes p ∧
    match res with
    | Err _ => False
    | Ok Allow => p' = p ∧
        grants p id endpoint (clock n)
    | Ok (Deny _) => modes p !! id ≠ Some Public ∧
        match endpoint with
        | Some e =>
            modes p !! id = Some ApprovalRequired →
            (∀ session, approved_sessions p !! (id, e) = Some session →
               is_valid session (clock n) = false) ∧
            approved_sessions p' = delete (id, e) (approved_sessions p)
        | None => p' = p
        end
    end).
Proof.
  apply wp_decide_access; [done| |].
  - intros reason n' Hm Hs. do 2 (split; [done|]). destruct endpoint as [e|]; [|done]. intros Hap.
    split; [by intros session ?%Hs|]. rewrite delete_id; [done|].
    destruct (approved_sessions p !! (id, e)) as [session|] eqn:Es; [by destruct (Hs e session)|done].
  - intros reason e session n' -> Hm Hs Hv. split; [done|]. split; [congruence|]. intros _.
    split; [congruence|done].
Qed.

(** Removing a transfer forgets its approvals. If the same transfer id
    is shared again behind approval, every endpoint must be approved anew, and the
    decisions about all other transfers are unaffected. *)
Theorem removed_transfer_forgets (id : Z) (endpoint : option string) (p : AccessPolicy) n :
  wp (E:=string) (remove_transfer id;; set_mode id ApprovalRequired;; decide_access id endpoint) p n
    (λ res p' _,
      res = Ok (Deny (match endpoint with Some _ => "approval-required"
                                        | None => "missing-endpoint-id" end)) ∧
      ∀ other e, other ≠ id → modes p' !! other = modes p !! other ∧
        approved_sessions p' !! (other, e) = approved_sessions p !! (other, e)).
Proof.
  apply wp_bind, wp_bind, wp_modify, wp_modify, wp_bind, wp_modify. simpl.
  assert (∀ other e, other ≠ id →
    filter (λ kv : Z * string * ApprovalSession, kv.1.1 ≠ id) (approved_sessions p) !! (other, e) =
    approved_sessions p !! (other, e)) as Hother.
  { intros other e Hne. destruct (approved_sessions p !! (other, e)) as [s|] eqn:E.
    - by apply map_lookup_filter_Some.
    - apply map_lookup_filter_None. by left. }
  assert (∀ e, filter (λ kv : Z * string * ApprovalSession, kv.1.1 ≠ id) (approved_sessions p)
                 !! (id, e) = None) as Hid.
  { intros e. apply map_lookup_filter_None. right. intros s _ Hne. by apply Hne. }
  unfold decide_access. apply wp_bind, wp_get. simpl. rewrite lookup_insert_eq.
  destruct endpoint as [e|]; [rewrite Hid|]; apply wp_ret; (split; [done|]);
    intros other e' Hne; simpl; by rewrite lookup_insert_ne, lookup_delete_ne, Hother.
Qed.

(** An approval never outlives its time to live: an endpoint approved
    now is allowed exactly while the clock has not passed now plus ten minutes. *)
Theorem approval_expires (id : Z) (e : string) (p : AccessPolicy) n :
  modes p !! id = Some ApprovalRequired →
  wp (E:=string) (approve_endpoint id e;; decide_access id (Some e)) p n (λ res _ _,
    res = Ok (if clock (S n) <=? clock n + APPROVAL_SESSION_TTL_MS then Allow
              else Deny "approval-expired")).
Proof.
  intros Hm. apply wp_bind, wp_bind, wp_now_ms, wp_modify.
  unfold decide_access. apply wp_bind, wp_get. simpl. rewrite Hm, lookup_insert_eq.
  apply wp_bind, wp_now_ms. unfold is_valid. simpl.
  destruct (clock (S n) <=? _); [by apply wp_ret|]. by apply wp_bind, wp_modify, wp_ret.
Qed.

(** The deny list answers faithfully: after blocking an endpoint it is
    blocked until it is unblocked, blocking again keeps the original record, and
    neither operation changes the answer for another endpoint. *)
Theorem block_list_faithful (e : string) (now : Z) (t : Blocked) n :
  wp (block_endpoint e now) t n (λ res t' _,
    (is_ok res = true → is_Some (t' !! e) ∧ (is_Some (t !! e) → t' = t)) ∧
    (is_ok res = false → t' = t) ∧ (∀ o, o ≠ e → t' !! o = t !! o)) ∧
  wp (unblock_endpoint e) t n (λ res t' _,
    (is_ok res = true → t' !! e = None) ∧
    (is_ok res = false → t' = t) ∧ (∀ o, o ≠ e → t' !! o = t !! o)) ∧
  wp (is_blocked e) t n (λ res t' _, t' = t ∧
    (∀ b, res = Ok b → (b = true ↔ is_Some (t !! e)))).
Proof.
  split_and!.
  - apply wp_asql; [by intros|]. intros _ [] t' [= <-]. unfold insert_or_ignore.
    destruct (t !! e) as [r|] eqn:E; simpl.
    + split; [|done]. intros _. split; [by exists r|done].
    + split; [|split; [done|]].
      * intros _. rewrite lookup_insert_eq. split; [by eexists|]. by intros [? ?].
      * intros o Ho. by rewrite lookup_insert_ne.
  - apply wp_asql; [by intros|]. intros _ [] t' [= <-].
    assert (delete_where (λ k _, str_eqb k e) t = delete e t) as ->.
    { rewrite (delete_where_key _ _ e) by (intros; by apply str_eqb_eq).
      destruct (t !! e) eqn:E; [by rewrite str_eqb_refl | by rewrite delete_id]. }
    split; [intros _; apply lookup_delete_eq|]. split; [done|].
    intros o Ho. by rewrite lookup_delete_ne.
  - apply wp_asql; [by intros|]. intros _ b t' [= <- <-]. split; [done|]. intros b [= <-].
    rewrite (exists_where_key _ _ e) by (intros; by apply str_eqb_eq).
    destruct (t !! e); [rewrite str_eqb_refl|]; split; try done; by intros [? ?].
Qed.
End Properties.

Section Witnesses.
#[local] Existing Instance demo_text.
Definition demo_clock : Env :=
  {| clock := λ n, 1000 + 700000 * Z.of_nat n; io_fault := λ _, None; new_uuid := λ _, "u"%string |}.
#[local] Existing Instance demo_clock.

Lemma approval_expires_witness :
  wp (E:=string) (approve_endpoint 7 "bob";; decide_access 7 (Some "bob"%string))
    {| modes := {[7 := ApprovalRequired]}; approved_sessions := ∅ |} 0%nat
    (λ res _ _, res = Ok (Deny "approval-expired")).
Proof.
  exact (approval_expires 7 "bob" {| modes := {[7 := ApprovalRequired]}; approved_sessions := ∅ |}
           0%nat (lookup_singleton_eq 7 ApprovalRequired)).
Defined.
End Witnesses.
