(* ===== verification/Invitation.v ===== *)
(** * [invitation/mod.rs]: the store of invitation transfers

    Five SQLite tables (history, received artifacts, events, receiver requests and
    pending delivery receipts) and one definition per method of [Repository]. Its
    methods return [anyhow::Result]. *)

From S2P Require Import Prelude Sql ControlPlane Errors States Api Access.
From stdpp Require Import pretty.
#[local] Open Scope Z_scope.

(** ** Tables *)

(** [transfers], without its primary key [transfer_id]. *)
Record TransferRow : Type := {
  t_local_id : string;
  t_protocol_transfer_id : Z;
  t_peer_id : option string;
  t_direction : string;
  t_status : string;
  t_transfer_name : option string;
  t_sender_name : option string;
  t_content_hash : option string;
  t_ticket : option string;
  t_file_count : Z;
  t_total_size : Z;
  t_access_mode : string;
  t_created_at : Z;
  t_updated_at : Z
}.

(** [received_artifacts], keyed by its unique pair [(transfer_local_id, relative_path)];
    the primary key [id] is a column. *)
Record ArtifactRow : Type := {
  a_id : string;
  a_protocol_transfer_id : Z;
  a_locator_kind : string;
  a_locator : string;
  a_logical_size : Z;
  a_published_at : Z
}.

(** [transfer_events], without its primary key [id]. *)
Record EventRow : Type := {
  e_revision : Z;
  e_timestamp : Z;
  e_scope : string;
  e_transfer_id : option Z;
  e_direction : option string;
  e_phase : string;
  e_kind : string;
  e_data_json : string
}.

(** [receiver_requests], without its primary key [id]. *)
Record RequestRow : Type := {
  q_transfer_id : Z;
  q_remote_endpoint_id : string;
  q_transfer_name : string;
  q_receiver_name : option string;
  q_receiver_device_name : option string;
  q_app_version : string;
  q_status : string;
  q_reason : option string;
  q_requested_at : Z;
  q_responded_at : option Z;
  q_receipt_token_hash : option string;
  q_completed_at : option Z
}.

(** [pending_delivery_receipts], without its primary key [request_id]. *)
Record ReceiptRow : Type := {
  p_local_transfer_id : Z;
  p_sender_blob_ticket : string;
  p_sender_transfer_id : Z;
  p_token : string;
  p_failure_reason : option string;
  p_created_at : Z
}.

Record History : Type := {
  transfers : gmap Z TransferRow;
  received_artifacts : gmap (string * string) ArtifactRow;
  transfer_events : gmap string EventRow;
  receiver_requests : gmap string RequestRow;
  pending_delivery_receipts : gmap string ReceiptRow
}.

Definition on_history (f : gmap Z TransferRow → gmap Z TransferRow) (h : History) : History :=
  {| transfers := f (transfers h); received_artifacts := received_artifacts h;
     transfer_events := transfer_events h; receiver_requests := receiver_requests h;
     pending_delivery_receipts := pending_delivery_receipts h |}.
Definition on_artifacts (f : gmap (string * string) ArtifactRow → gmap (string * string) ArtifactRow)
    (h : History) : History :=
  {| transfers := transfers h; received_artifacts := f (received_artifacts h);
     transfer_events := transfer_events h; receiver_requests := receiver_requests h;
     pending_delivery_receipts := pending_delivery_receipts h |}.
Definition on_events (f : gmap string EventRow → gmap string EventRow) (h : History) : History :=
  {| transfers := transfers h; received_artifacts := received_artifacts h;
     transfer_events := f (transfer_events h); receiver_requests := receiver_requests h;
     pending_delivery_receipts := pending_delivery_receipts h |}.
Definition on_requests (f : gmap string RequestRow → gmap string RequestRow) (h : History) : History :=
  {| transfers := transfers h; received_artifacts := received_artifacts h;
     transfer_events := transfer_events h; receiver_requests := f (receiver_requests h);
     pending_delivery_receipts := pending_delivery_receipts h |}.
Definition on_receipts (f : gmap string ReceiptRow → gmap string ReceiptRow) (h : History) : History :=
  {| transfers := transfers h; received_artifacts := received_artifacts h;
     transfer_events := transfer_events h; receiver_requests := receiver_requests h;
     pending_delivery_receipts := f (pending_delivery_receipts h) |}.

(** [SET status = ?, updated_at = ?]. *)
Definition set_status (status : string) (now : Z) (r : TransferRow) : TransferRow :=
  {| t_local_id := t_local_id r; t_protocol_transfer_id := t_protocol_transfer_id r;
     t_peer_id := t_peer_id r; t_direction := t_direction r; t_status := status;
     t_transfer_name := t_transfer_name r; t_sender_name := t_sender_name r;
     t_content_hash := t_content_hash r; t_ticket := t_ticket r;
     t_file_count := t_file_count r; t_total_size := t_total_size r;
     t_access_mode := t_access_mode r; t_created_at := t_created_at r; t_updated_at := now |}.

(** [SET status = ?, reason = ?, responded_at = ?, receipt_token_hash = ?, completed_at = ?]
    on a receiver request; every update sets some of these columns. *)
Definition set_request (status : string) (reason : option string) (responded_at : option Z)
    (token_hash : option string) (completed_at : option Z) (q : RequestRow) : RequestRow :=
  {| q_transfer_id := q_transfer_id q; q_remote_endpoint_id := q_remote_endpoint_id q;
     q_transfer_name := q_transfer_name q; q_receiver_name := q_receiver_name q;
     q_receiver_device_name := q_receiver_device_name q; q_app_version := q_app_version q;
     q_status := status; q_reason := reason; q_requested_at := q_requested_at q;
     q_responded_at := responded_at; q_receipt_token_hash := token_hash;
     q_completed_at := completed_at |}.

(** ** Arguments and results *)

Record TransferUpsert : Type := {
  u_transfer_id : Z;
  u_peer_id : option string;
  u_direction : TransferDirection;
  u_status : TransferStatus;
  u_transfer_name : option string;
  u_sender_name : option string;
  u_content_hash : option string;
  u_ticket : option string;
  u_file_count : Z;
  u_total_size : Z;
  u_access_mode : string
}.

Record PersistedShare : Type := {
  ps_transfer_id : Z;
  ps_local_id : string;
  ps_content_hash : string;
  ps_ticket : option string;
  ps_access_mode : string
}.

Record RecoveredTransfer : Type := {
  rt_transfer_id : Z;
  rt_direction : TransferDirection;
  rt_previous_status : TransferStatus
}.

Inductive ReceivedLocatorKind : Type := FilesystemPath | AndroidMediaStore | AndroidDocument.

Record ReceivedArtifactInsert : Type := {
  ai_transfer_local_id : string;
  ai_protocol_transfer_id : Z;
  ai_relative_path : string;
  ai_locator_kind : ReceivedLocatorKind;
  ai_locator : string;
  ai_logical_size : Z
}.

Record ReceivedArtifact : Type := {
  ra_id : string;
  ra_transfer_local_id : string;
  ra_protocol_transfer_id : Z;
  ra_relative_path : string;
  ra_locator_kind : ReceivedLocatorKind;
  ra_locator : string;
  ra_logical_size : Z;
  ra_published_at : Z
}.

Record ReceiverRequestInsert : Type := {
  ri_id : string;
  ri_transfer_id : Z;
  ri_remote_endpoint_id : string;
  ri_transfer_name : string;
  ri_receiver_name : option string;
  ri_receiver_device_name : option string;
  ri_app_version : string
}.

(** [PendingDeliveryReceipt] and its borrowed twin [PendingDeliveryReceiptInsert]. *)
Record PendingDeliveryReceipt : Type := {
  pd_local_transfer_id : Z;
  pd_sender_blob_ticket : string;
  pd_request_id : string;
  pd_sender_transfer_id : Z;
  pd_token : string;
  pd_failure_reason : option string
}.

Record CoreEvent : Type := {
  ce_id : string;
  ce_revision : Z;
  ce_timestamp : Z;
  ce_scope : string;
  ce_transfer_id : option Z;
  ce_direction : option string;
  ce_phase : string;
  ce_kind : string;
  ce_data_json : string
}.

Record StoredTransfer : Type := {
  st_local_id : string;
  st_transfer_id : Z;
  st_peer_id : option string;
  st_direction : string;
  st_status : string;
  st_transfer_name : option string;
  st_content_hash : option string;
  st_ticket : option string;
  st_file_count : Z;
  st_total_size : Z;
  st_access_mode : TransferAccessMode;
  st_created_at : Z;
  st_updated_at : Z
}.

Record ReceiverRequest : Type := {
  rr_id : string;
  rr_transfer_id : Z;
  rr_remote_endpoint_id : string;
  rr_transfer_name : string;
  rr_receiver_name : option string;
  rr_receiver_device_name : option string;
  rr_app_version : string;
  rr_status : string;
  rr_reason : option string;
  rr_requested_at : Z;
  rr_responded_at : option Z;
  rr_completed_at : option Z
}.

(** ** Conversions *)

Definition require_one_changed (rows_affected : nat) (operation : string) : result unit AnyhowError :=
  if Nat.eqb rows_affected 1 then Ok tt
  else Err (anyhow_msg (operation +:+ " expected one matching transfer, changed "
                        +:+ pretty rows_affected)).

(** [i64::try_from(value).context(..)]. *)
Definition to_db_id (value : Z) : result Z AnyhowError :=
  if value <=? I64_MAX then Ok value
  else Err (with_context "transfer id exceeds SQLite signed integer range"
              (anyhow_msg "out of range integral type conversion attempted")).

Definition locator_kind_to_storage (kind : ReceivedLocatorKind) : string :=
  match kind with
  | FilesystemPath => "filesystem_path"
  | AndroidMediaStore => "android_media_store"
  | AndroidDocument => "android_document"
  end.

Definition locator_kind_from_storage (value : string) : result ReceivedLocatorKind AnyhowError :=
  if str_eqb value "filesystem_path" then Ok FilesystemPath
  else if str_eqb value "android_media_store" then Ok AndroidMediaStore
  else if str_eqb value "android_document" then Ok AndroidDocument
  else Err (anyhow_msg ("unknown received artifact locator kind: " +:+ value)).

Definition row_to_stored (kr : Z * TransferRow) : result StoredTransfer AnyhowError :=
  let (id, r) := kr in
  let? direction := direction_try_from (t_direction r) in
  let? status := status_try_from (t_status r) in
  Ok {| st_local_id := t_local_id r; st_transfer_id := as_u64 id; st_peer_id := t_peer_id r;
        st_direction := direction_as_str direction; st_status := status_as_str status;
        st_transfer_name := t_transfer_name r; st_content_hash := t_content_hash r;
        st_ticket := t_ticket r; st_file_count := as_u64 (t_file_count r);
        st_total_size := as_u64 (t_total_size r);
        st_access_mode := mode_from_storage (t_access_mode r);
        st_created_at := t_created_at r; st_updated_at := t_updated_at r |}.

Definition row_to_event (kr : string * EventRow) : CoreEvent :=
  let (id, r) := kr in
  {| ce_id := id; ce_revision := as_u64 (e_revision r); ce_timestamp := e_timestamp r;
     ce_scope := e_scope r; ce_transfer_id := as_u64 <$> e_transfer_id r;
     ce_direction := e_direction r; ce_phase := e_phase r; ce_kind := e_kind r;
     ce_data_json := e_data_json r |}.

Definition row_to_receiver_request (kr : string * RequestRow) : ReceiverRequest :=
  let (id, q) := kr in
  {| rr_id := id; rr_transfer_id := as_u64 (q_transfer_id q);
     rr_remote_endpoint_id := q_remote_endpoint_id q; rr_transfer_name := q_transfer_name q;
     rr_receiver_name := q_receiver_name q; rr_receiver_device_name := q_receiver_device_name q;
     rr_app_version := q_app_version q;
     rr_status := match request_status_try_from (q_status q) with
                  | Ok status => request_status_as_str status
                  | Err _ => "unknown"
                  end;
     rr_reason := q_reason q; rr_requested_at := q_requested_at q;
     rr_responded_at := q_responded_at q; rr_completed_at := q_completed_at q |}.

(** ** Operations *)

Section Repository.
Context `{Env}.

Abbreviation DB := (M History AnyhowError).

Definition select {A} (f : History → A) : DB A := asql (λ h, Ok (f h, h)).

Definition update_history (P : Z → TransferRow → bool) (f : TransferRow → TransferRow) : DB nat :=
  asql (λ h, Ok (count_where P (transfers h), on_history (update_where P (λ _, f)) h)).

Definition update_requests (P : string → RequestRow → bool) (f : RequestRow → RequestRow) : DB nat :=
  asql (λ h, Ok (count_where P (receiver_requests h), on_requests (update_where P (λ _, f)) h)).

(** [UNIQUE(local_id)]. *)
Definition local_id_taken (local_id : string) (h : History) : bool :=
  exists_where (λ _ r, str_eqb (t_local_id r) local_id) (transfers h).

(** The row of [INSERT INTO transfers]: [sender_name] is not among its columns. *)
Definition new_transfer_row (t : TransferUpsert) (direction status local_id : string)
    (now : Z) : TransferRow :=
  {| t_local_id := local_id; t_protocol_transfer_id := u_transfer_id t;
     t_peer_id := u_peer_id t; t_direction := direction; t_status := status;
     t_transfer_name := u_transfer_name t; t_sender_name := None;
     t_content_hash := u_content_hash t; t_ticket := u_ticket t;
     t_file_count := u_file_count t; t_total_size := u_total_size t;
     t_access_mode := u_access_mode t; t_created_at := now; t_updated_at := now |}.

Definition insert_transfer (t : TransferUpsert) : DB unit :=
  now ← now_ms;
  transfer_id ← of_result (to_db_id (u_transfer_id t));
  local_id ← uuid_v4;
  of_result (to_db_id (u_file_count t));;
  of_result (to_db_id (u_total_size t));;
  asql (λ h,
    if local_id_taken local_id h then Err SqlxUnique
    else let? rows := insert_row transfer_id
           (new_transfer_row t (direction_as_str (u_direction t)) (status_as_str (u_status t))
              local_id now) (transfers h) in
         Ok (tt, on_history (λ _, rows) h)).

(** The [WHERE] of the upsert: a finished receive may be started again. *)
Definition restartable (r : TransferRow) : bool :=
  str_eqb (t_direction r) "receive" && str_in (t_status r) ["done"; "failed"; "cancelled"]%string.

(** [DO UPDATE SET ..]. *)
Definition restart_receive (new old : TransferRow) : TransferRow :=
  {| t_local_id := t_local_id old; t_protocol_transfer_id := t_protocol_transfer_id old;
     t_peer_id := t_peer_id new; t_direction := t_direction old; t_status := "receiving";
     t_transfer_name := t_transfer_name new; t_sender_name := t_sender_name old;
     t_content_hash := t_content_hash new; t_ticket := t_ticket new;
     t_file_count := t_file_count new; t_total_size := t_total_size new;
     t_access_mode := t_access_mode new; t_created_at := t_created_at old;
     t_updated_at := t_updated_at new |}.

Definition start_receive (t : TransferUpsert) : DB unit :=
  if negb (bool_decide (u_direction t = Receive)) || negb (bool_decide (u_status t = Receiving))
  then fail (anyhow_msg "receive must start in the receiving state")
  else
    now ← now_ms;
    transfer_id ← of_result (to_db_id (u_transfer_id t));
    local_id ← uuid_v4;
    of_result (to_db_id (u_file_count t));;
    of_result (to_db_id (u_total_size t));;
    rows_affected ← asql (λ h,
      let new := new_transfer_row t "receive" "receiving" local_id now in
      match transfers h !! transfer_id with
      | None => if local_id_taken local_id h then Err SqlxUnique
                else Ok (1%nat, on_history <[transfer_id := new]> h)
      | Some _ =>
          let '(n, rows) := upsert_where transfer_id new (λ _, restartable) (restart_receive new)
                              (transfers h) in
          Ok (n, on_history (λ _, rows) h)
      end);
    of_result (require_one_changed rows_affected "start receive").

Definition transfer_local_id (transfer_id : Z) : DB string :=
  id ← of_result (to_db_id transfer_id);
  asql (λ h, match transfers h !! id with
             | Some r => Ok (t_local_id r, h)
             | None => Err SqlxRowNotFound
             end).

Definition record_received_artifact (artifact : ReceivedArtifactInsert) : DB unit :=
  id ← uuid_v4;
  protocol_transfer_id ← of_result (to_db_id (ai_protocol_transfer_id artifact));
  logical_size ← of_result (to_db_id (ai_logical_size artifact));
  now ← now_ms;
  let key := (ai_transfer_local_id artifact, ai_relative_path artifact) in
  asql (λ h,
    match received_artifacts h !! key with
    | None =>
        if exists_where (λ _ a, str_eqb (a_id a) id) (received_artifacts h) then Err SqlxUnique
        else Ok (tt, on_artifacts <[key :=
          {| a_id := id; a_protocol_transfer_id := protocol_transfer_id;
             a_locator_kind := locator_kind_to_storage (ai_locator_kind artifact);
             a_locator := ai_locator artifact; a_logical_size := logical_size;
             a_published_at := now |}]> h)
    | Some old =>
        Ok (tt, on_artifacts <[key :=
          {| a_id := a_id old; a_protocol_transfer_id := a_protocol_transfer_id old;
             a_locator_kind := locator_kind_to_storage (ai_locator_kind artifact);
             a_locator := ai_locator artifact; a_logical_size := logical_size;
             a_published_at := now |}]> h)
    end).

Definition latest_published (x y : string * string * ArtifactRow) : Prop :=
  a_published_at y.2 ≤ a_published_at x.2.
#[global] Instance latest_published_dec : RelDecision latest_published.
Proof. intros x y. unfold latest_published. apply _. Defined.

Definition artifact_of_row (kr : string * string * ArtifactRow) : result ReceivedArtifact AnyhowError :=
  let '(local_id, path, a) := kr in
  let? kind := locator_kind_from_storage (a_locator_kind a) in
  Ok {| ra_id := a_id a; ra_transfer_local_id := local_id;
        ra_protocol_transfer_id := as_u64 (a_protocol_transfer_id a); ra_relative_path := path;
        ra_locator_kind := kind; ra_locator := a_locator a;
        ra_logical_size := as_u64 (a_logical_size a); ra_published_at := a_published_at a |}.

Definition list_received_artifacts : DB (list ReceivedArtifact) :=
  rows ← select (λ h, order_by latest_published (map_to_list (received_artifacts h)));
  of_result (collect_results artifact_of_row rows).

Definition complete_share_import (t : TransferUpsert) : DB unit :=
  if negb (bool_decide (u_direction t = Send)) || negb (bool_decide (u_status t = Sharing))
  then fail (anyhow_msg "share import must complete in the sharing state")
  else
    of_result (to_db_id (u_file_count t));;
    of_result (to_db_id (u_total_size t));;
    now ← now_ms;
    transfer_id ← of_result (to_db_id (u_transfer_id t));
    n ← update_history
          (λ k r, (k =? transfer_id) && str_eqb (t_direction r) "send" &&
                  str_eqb (t_status r) "importing")
          (λ r, {| t_local_id := t_local_id r; t_protocol_transfer_id := t_protocol_transfer_id r;
                   t_peer_id := t_peer_id r; t_direction := t_direction r;
                   t_status := status_as_str (u_status t);
                   t_transfer_name := u_transfer_name t; t_sender_name := u_sender_name t;
                   t_content_hash := u_content_hash t; t_ticket := u_ticket t;
                   t_file_count := u_file_count t; t_total_size := u_total_size t;
                   t_access_mode := u_access_mode t; t_created_at := t_created_at r;
                   t_updated_at := now |});
    of_result (require_one_changed n "complete share import").

Definition cancel_share_preparation (transfer_id : Z) : DB unit :=
  now ← now_ms;
  id ← of_result (to_db_id transfer_id);
  n ← update_history
        (λ k r, (k =? id) && str_eqb (t_direction r) "send" &&
                str_in (t_status r) ["importing"; "sharing"]%string)
        (λ r, set_status (if str_eqb (t_status r) "sharing" then "stopped" else "cancelled") now r);
  if Nat.eqb n 0 then
    id ← of_result (to_db_id transfer_id);
    status ← select (λ h, match transfers h !! id with
                          | Some r => if str_eqb (t_direction r) "send"
                                      then Some (t_status r) else None
                          | None => None
                          end);
    if match status with
       | Some s => str_in s ["cancelled"; "stopped"; "failed"]%string
       | None => false
       end
    then ret tt
    else fail (anyhow_msg "share preparation was not found")
  else ret tt.

Definition transition_transfer_status (transfer_id : Z) (expected next : TransferStatus) : DB unit :=
  if negb (can_transition_to expected next)
  then fail (anyhow_msg ("illegal transfer status transition: " +:+ status_as_str expected
                         +:+ " -> " +:+ status_as_str next))
  else
    now ← now_ms;
    id ← of_result (to_db_id transfer_id);
    n ← update_history (λ k r, (k =? id) && str_eqb (t_status r) (status_as_str expected))
          (set_status (status_as_str next) now);
    settled ← (if Nat.eqb n 0 then
                 current ← select (λ h, t_status <$> transfers h !! id);
                 ret (opt_eqb current (status_as_str next))
               else ret false);
    if settled : bool then ret tt
    else of_result (require_one_changed n "transition transfer status").

(** [INSERT INTO pending_delivery_receipts .. ON CONFLICT(request_id) DO UPDATE]. *)
Definition upsert_receipt (receipt : PendingDeliveryReceipt) : DB unit :=
  local_transfer_id ← of_result (to_db_id (pd_local_transfer_id receipt));
  sender_transfer_id ← of_result (to_db_id (pd_sender_transfer_id receipt));
  now ← now_ms;
  asql (λ h, Ok (tt, on_receipts (λ rows, <[pd_request_id receipt :=
    {| p_local_transfer_id := local_transfer_id;
       p_sender_blob_ticket := pd_sender_blob_ticket receipt;
       p_sender_transfer_id := sender_transfer_id;
       p_token := pd_token receipt;
       p_failure_reason := pd_failure_reason receipt;
       p_created_at := match rows !! pd_request_id receipt with
                       | Some old => p_created_at old
                       | None => now
                       end |}]> rows) h)).

Definition complete_receive_with_pending_receipt (receipt : PendingDeliveryReceipt) : DB unit :=
  asql_tx (
    now ← now_ms;
    id ← of_result (to_db_id (pd_local_transfer_id receipt));
    n ← update_history
          (λ k r, (k =? id) && str_eqb (t_direction r) "receive" && str_eqb (t_status r) "receiving")
          (set_status "done" now);
    of_result (require_one_changed n "complete receive");;
    upsert_receipt receipt).

Definition queue_failed_delivery_receipt (receipt : PendingDeliveryReceipt) : DB unit :=
  match pd_failure_reason receipt with
  | None => fail (anyhow_msg "failed delivery receipt requires a reason")
  | Some _ => upsert_receipt receipt
  end.

Definition first_created (x y : string * ReceiptRow) : Prop := p_created_at x.2 ≤ p_created_at y.2.
#[global] Instance first_created_dec : RelDecision first_created.
Proof. intros x y. unfold first_created. apply _. Defined.

Definition list_pending_delivery_receipts : DB (list PendingDeliveryReceipt) :=
  select (λ h, (λ kr : string * ReceiptRow,
    {| pd_local_transfer_id := as_u64 (p_local_transfer_id kr.2);
       pd_sender_blob_ticket := p_sender_blob_ticket kr.2; pd_request_id := kr.1;
       pd_sender_transfer_id := as_u64 (p_sender_transfer_id kr.2); pd_token := p_token kr.2;
       pd_failure_reason := p_failure_reason kr.2 |}) <$>
    order_by first_created (map_to_list (pending_delivery_receipts h))).

Definition delete_pending_delivery_receipt (request_id : string) : DB unit :=
  asql (λ h, Ok (tt, on_receipts (delete_where (λ k _, str_eqb k request_id)) h)).

Definition update_active_share_access_mode (transfer_id : Z) (access_mode : string) : DB unit :=
  now ← now_ms;
  id ← of_result (to_db_id transfer_id);
  n ← update_history
        (λ k r, (k =? id) && str_eqb (t_direction r) "send" && str_eqb (t_status r) "sharing")
        (λ r, {| t_local_id := t_local_id r; t_protocol_transfer_id := t_protocol_transfer_id r;
                 t_peer_id := t_peer_id r; t_direction := t_direction r; t_status := t_status r;
                 t_transfer_name := t_transfer_name r; t_sender_name := t_sender_name r;
                 t_content_hash := t_content_hash r; t_ticket := t_ticket r;
                 t_file_count := t_file_count r; t_total_size := t_total_size r;
                 t_access_mode := access_mode; t_created_at := t_created_at r;
                 t_updated_at := now |});
  of_result (require_one_changed n "update active share access mode").

Definition oldest_created (x y : Z * TransferRow) : Prop := t_created_at x.2 ≤ t_created_at y.2.
#[global] Instance oldest_created_dec : RelDecision oldest_created.
Proof. intros x y. unfold oldest_created. apply _. Defined.

Definition interrupted (_ : Z) (r : TransferRow) : bool :=
  str_in (t_status r) ["importing"; "receiving"]%string.

Definition recovered_of_row (kr : Z * TransferRow) : result RecoveredTransfer AnyhowError :=
  let? direction := direction_try_from (t_direction kr.2) in
  let? status := status_try_from (t_status kr.2) in
  Ok {| rt_transfer_id := as_u64 kr.1; rt_direction := direction; rt_previous_status := status |}.

Definition recover_interrupted_transfers : DB (list RecoveredTransfer) :=
  asql_tx (
    rows ← select (λ h, order_by oldest_created (select_where interrupted (transfers h)));
    recovered ← of_result (collect_results recovered_of_row rows);
    match recovered with
    | [] => ret recovered
    | _ :: _ =>
        now ← now_ms;
        update_history interrupted (set_status "failed" now);;
        ret recovered
    end).

Definition list_active_shares : DB (list PersistedShare) :=
  select (λ h, omap (λ kr : Z * TransferRow,
    match t_content_hash kr.2 with
    | Some content_hash =>
        Some {| ps_transfer_id := as_u64 kr.1; ps_local_id := t_local_id kr.2;
                ps_content_hash := content_hash; ps_ticket := t_ticket kr.2;
                ps_access_mode := t_access_mode kr.2 |}
    | None => None
    end)
    (select_where (λ _ r, str_eqb (t_direction r) "send" && str_eqb (t_status r) "sharing" &&
                          bool_decide (t_content_hash r ≠ None)) (transfers h))).

(** [ORDER BY timestamp DESC, id DESC]. *)
Definition newest_event (x y : string * EventRow) : Prop :=
  e_timestamp y.2 < e_timestamp x.2 ∨
  (e_timestamp y.2 = e_timestamp x.2 ∧ String.leb y.1 x.1 = true).
#[global] Instance newest_event_dec : RelDecision newest_event.
Proof. intros x y. unfold newest_event. apply _. Defined.

(** [SELECT id FROM transfer_events ORDER BY .. LIMIT n]. *)
Definition retained_ids (events : gmap string EventRow) (limit : Z) : list string :=
  (take (Z.to_nat limit) (order_by newest_event (map_to_list events))).*1.

Definition insert_event (event : CoreEvent) (max_history : Z) : DB unit :=
  asql_tx (
    revision ← of_result (to_db_id (ce_revision event));
    transfer_id ← of_result (option_transpose to_db_id (ce_transfer_id event));
    asql (λ h, Ok (tt, on_events <[ce_id event :=
      {| e_revision := revision; e_timestamp := ce_timestamp event; e_scope := ce_scope event;
         e_transfer_id := transfer_id; e_direction := ce_direction event;
         e_phase := ce_phase event; e_kind := ce_kind event;
         e_data_json := ce_data_json event |}]> h));;
    limit ← of_result (to_db_id max_history);
    asql (λ h, Ok (tt, on_events (delete_where (λ k _,
      negb (str_in k (retained_ids (transfer_events h) limit)))) h))).

Definition insert_receiver_request (request : ReceiverRequestInsert) : DB unit :=
  transfer_id ← of_result (to_db_id (ri_transfer_id request));
  now ← now_ms;
  asql (λ h,
    let? rows := insert_row (ri_id request)
      {| q_transfer_id := transfer_id; q_remote_endpoint_id := ri_remote_endpoint_id request;
         q_transfer_name := ri_transfer_name request; q_receiver_name := ri_receiver_name request;
         q_receiver_device_name := ri_receiver_device_name request;
         q_app_version := ri_app_version request; q_status := "requested"; q_reason := None;
         q_requested_at := now; q_responded_at := None; q_receipt_token_hash := None;
         q_completed_at := None |} (receiver_requests h) in
    Ok (tt, on_requests (λ _, rows) h)).

Definition update_receiver_request_status (id : string) (status : ReceiverRequestStatus)
    (reason : option string) : DB unit :=
  now ← now_ms;
  n ← update_requests (λ k q, str_eqb k id && str_eqb (q_status q) "requested")
        (λ q, set_request (request_status_as_str status) reason (Some now)
                (q_receipt_token_hash q) (q_completed_at q) q);
  if Nat.eqb n 0 then fail (anyhow_msg "receiver request not found or already handled")
  else ret tt.

Definition set_receiver_receipt_token (id token_hash : string) : DB unit :=
  n ← update_requests (λ k q, str_eqb k id && str_eqb (q_status q) "accepted")
        (λ q, set_request (q_status q) (q_reason q) (q_responded_at q) (Some token_hash)
                (q_completed_at q) q);
  of_result (require_one_changed n "attach receiver receipt token").

(** The [WHERE] clause that authenticates a delivery receipt. *)
Definition receipt_matches (id : string) (transfer_id : Z) (remote_endpoint_id token_hash status : string)
    (k : string) (q : RequestRow) : bool :=
  str_eqb k id && (q_transfer_id q =? transfer_id) &&
  str_eqb (q_remote_endpoint_id q) remote_endpoint_id &&
  opt_eqb (q_receipt_token_hash q) token_hash && str_eqb (q_status q) status.

Definition complete_receiver_delivery (id : string) (transfer_id : Z)
    (remote_endpoint_id token_hash : string) : DB (option string) :=
  now ← now_ms;
  db_id ← of_result (to_db_id transfer_id);
  n ← update_requests (receipt_matches id db_id remote_endpoint_id token_hash "accepted")
        (λ q, set_request "completed" (q_reason q) (q_responded_at q) (q_receipt_token_hash q)
                (Some now) q);
  (if Nat.eqb n 1 then ret tt
   else
     already_recorded ← select (λ h,
       exists_where (receipt_matches id db_id remote_endpoint_id token_hash "completed")
         (receiver_requests h));
     if already_recorded : bool then ret tt
     else fail (anyhow_msg "delivery receipt did not match an accepted receiver request"));;
  asql (λ h,
    match receiver_requests h !! id with
    | Some q =>
        if receipt_matches id db_id remote_endpoint_id token_hash "completed" id q
        then Ok (match q_receiver_device_name q with
                 | Some name => Some name
                 | None => q_receiver_name q
                 end, h)
        else Err SqlxRowNotFound
    | None => Err SqlxRowNotFound
    end).

Definition fail_receiver_delivery (id : string) (transfer_id : Z)
    (remote_endpoint_id token_hash reason : string) : DB unit :=
  db_id ← of_result (to_db_id transfer_id);
  n ← update_requests (receipt_matches id db_id remote_endpoint_id token_hash "accepted")
        (λ q, set_request "failed" (Some reason) (q_responded_at q) (q_receipt_token_hash q)
                (q_completed_at q) q);
  if Nat.eqb n 1 then ret tt
  else
    already_recorded ← select (λ h,
      exists_where (receipt_matches id db_id remote_endpoint_id token_hash "failed")
        (receiver_requests h));
    if already_recorded : bool then ret tt
    else fail (anyhow_msg "delivery failure did not match an accepted receiver request").

Definition expire_pending_receiver_requests (reason : string) : DB Z :=
  now ← now_ms;
  n ← update_requests (λ _ q, str_eqb (q_status q) "requested")
        (λ q, set_request "expired" (Some reason) (Some now) (q_receipt_token_hash q)
                (q_completed_at q) q);
  ret (Z.of_nat n).

Definition latest_requested (x y : string * RequestRow) : Prop :=
  q_requested_at y.2 ≤ q_requested_at x.2.
#[global] Instance latest_requested_dec : RelDecision latest_requested.
Proof. intros x y. unfold latest_requested. apply _. Defined.

Definition list_receiver_requests (transfer_id : Z) : DB (list ReceiverRequest) :=
  id ← of_result (to_db_id transfer_id);
  select (λ h, row_to_receiver_request <$> order_by latest_requested
    (select_where (λ _ q, q_transfer_id q =? id) (receiver_requests h))).

(** The row of an active share with this content. *)
Definition sharing_content (id : Z) (content_hash : string) (k : Z) (r : TransferRow) : bool :=
  (k =? id) && opt_eqb (t_content_hash r) content_hash && str_eqb (t_direction r) "send" &&
  str_eqb (t_status r) "sharing".

Definition send_exists (transfer_id : Z) (content_hash : string) : DB bool :=
  id ← of_result (to_db_id transfer_id);
  select (λ h, exists_where (sharing_content id content_hash) (transfers h)).

Definition send_sender_name (transfer_id : Z) (content_hash : string) : DB (option string) :=
  id ← of_result (to_db_id transfer_id);
  select (λ h, match transfers h !! id with
               | Some r => if sharing_content id content_hash id r then t_sender_name r else None
               | None => None
               end).

Definition latest_updated (x y : Z * TransferRow) : Prop := t_updated_at y.2 ≤ t_updated_at x.2.
#[global] Instance latest_updated_dec : RelDecision latest_updated.
Proof. intros x y. unfold latest_updated. apply _. Defined.

Definition list_stored_transfers : DB (list StoredTransfer) :=
  rows ← select (λ h, order_by latest_updated (map_to_list (transfers h)));
  of_result (collect_results row_to_stored rows).

Definition delete_transfer (transfer_id : Z) : DB unit :=
  id ← of_result (to_db_id transfer_id);
  asql_tx (
    asql (λ h, Ok (tt, on_requests (delete_where (λ _ q, q_transfer_id q =? id)) h));;
    asql (λ h, Ok (tt, on_events (delete_where (λ _ e, bool_decide (e_transfer_id e = Some id))) h));;
    n ← asql (λ h, Ok (count_where (λ k _, k =? id) (transfers h),
                       on_history (delete_where (λ k _, k =? id)) h));
    of_result (require_one_changed n "delete transfer")).

(** [SELECT transfer_id FROM transfers WHERE direction = 'receive' AND status IN (..)]. *)
Definition finished_receive (h : History) (id : Z) : bool :=
  match transfers h !! id with Some r => restartable r | None => false end.

Definition delete_receive_history : DB Z :=
  asql_tx (
    asql (λ h, Ok (tt, on_requests (delete_where (λ _ q, finished_receive h (q_transfer_id q))) h));;
    asql (λ h, Ok (tt, on_events (delete_where (λ _ e,
            match e_transfer_id e with Some id => finished_receive h id | None => false end)) h));;
    n ← asql (λ h, Ok (count_where (λ _, restartable) (transfers h),
                       on_history (delete_where (λ _, restartable)) h));
    ret (Z.of_nat n)).

(** [ORDER BY timestamp ASC, revision ASC] and its reverse. *)
Definition event_order (x y : string * EventRow) : Prop :=
  e_timestamp x.2 < e_timestamp y.2 ∨
  (e_timestamp x.2 = e_timestamp y.2 ∧ e_revision x.2 ≤ e_revision y.2).
#[global] Instance event_order_dec : RelDecision event_order.
Proof. intros x y. unfold event_order. apply _. Defined.
Definition event_order_desc (x y : string * EventRow) : Prop := event_order y x.
#[global] Instance event_order_desc_dec : RelDecision event_order_desc.
Proof. intros x y. unfold event_order_desc. apply _. Defined.

Definition list_events (transfer_id : option Z) (limit : Z) : DB (list CoreEvent) :=
  rows ← match transfer_id with
         | Some transfer_id =>
             id ← of_result (to_db_id transfer_id);
             limit ← of_result (to_db_id limit);
             select (λ h, take (Z.to_nat limit) (order_by event_order
               (select_where (λ _ e, bool_decide (e_transfer_id e = Some id)) (transfer_events h))))
         | None =>
             limit ← of_result (to_db_id limit);
             select (λ h, take (Z.to_nat limit) (order_by event_order_desc
               (map_to_list (transfer_events h))))
         end;
  ret (row_to_event <$> rows).
End Repository.

(** ** The write operations, as data *)

Inductive HistoryOp : Type :=
| OpInsertTransfer (t : TransferUpsert)
| OpStartReceive (t : TransferUpsert)
| OpRecordArtifact (a : ReceivedArtifactInsert)
| OpCompleteShareImport (t : TransferUpsert)
| OpCancelSharePreparation (id : Z)
| OpTransitionStatus (id : Z) (expected next : TransferStatus)
| OpCompleteReceive (receipt : PendingDeliveryReceipt)
| OpQueueFailedReceipt (receipt : PendingDeliveryReceipt)
| OpDeleteReceipt (request_id : string)
| OpUpdateAccessMode (id : Z) (mode : string)
| OpRecoverInterrupted
| OpInsertEvent (event : CoreEvent) (max_history : Z)
| OpInsertRequest (request : ReceiverRequestInsert)
| OpUpdateRequest (id : string) (status : ReceiverRequestStatus) (reason : option string)
| OpSetReceiptToken (id token_hash : string)
| OpCompleteDelivery (id : string) (transfer_id : Z) (remote token_hash : string)
| OpFailDelivery (id : string) (transfer_id : Z) (remote token_hash reason : string)
| OpExpireRequests (reason : string)
| OpDeleteTransfer (id : Z)
| OpDeleteReceiveHistory.

Definition discarded {S E A} (m : M S E A) : M S E unit := m;; ret tt.

Definition exec_history `{Env} (op : HistoryOp) : M History AnyhowError unit :=
  match op with
  | OpInsertTransfer t => insert_transfer t
  | OpStartReceive t => start_receive t
  | OpRecordArtifact a => record_received_artifact a
  | OpCompleteShareImport t => complete_share_import t
  | OpCancelSharePreparation id => cancel_share_preparation id
  | OpTransitionStatus id expected next => transition_transfer_status id expected next
  | OpCompleteReceive receipt => complete_receive_with_pending_receipt receipt
  | OpQueueFailedReceipt receipt => queue_failed_delivery_receipt receipt
  | OpDeleteReceipt request_id => delete_pending_delivery_receipt request_id
  | OpUpdateAccessMode id mode => update_active_share_access_mode id mode
  | OpRecoverInterrupted => discarded recover_interrupted_transfers
  | OpInsertEvent event max_history => insert_event event max_history
  | OpInsertRequest request => insert_receiver_request request
  | OpUpdateRequest id status reason => update_receiver_request_status id status reason
  | OpSetReceiptToken id token_hash => set_receiver_receipt_token id token_hash
  | OpCompleteDelivery id t remote token_hash =>
      discarded (complete_receiver_delivery id t remote token_hash)
  | OpFailDelivery id t remote token_hash reason =>
      fail_receiver_delivery id t remote token_hash reason
  | OpExpireRequests reason => discarded (expire_pending_receiver_requests reason)
  | OpDeleteTransfer id => delete_transfer id
  | OpDeleteReceiveHistory => discarded delete_receive_history
  end.

(** ** Specifications *)

(** The columns of a transfer no statement may change. *)
Definition transfer_identity (r : TransferRow) :=
  (t_local_id r, t_protocol_transfer_id r, t_direction r, t_created_at r).

(** One lawful change of a stored status: a transition of the lifecycle, or, where a restart may
    happen, that of a finished receive. *)
Definition status_step (may_restart : bool) (direction : string) (s s' : TransferStatus) : Prop :=
  can_transition_to s s' = true ∨
  (may_restart = true ∧ direction = "receive"%string ∧ s ∈ [Done; Failed; StatusCancelled] ∧ s' = Receiving).

Definition transfer_evolves (may_restart : bool) (r r' : TransferRow) : Prop :=
  transfer_identity r' = transfer_identity r ∧
  ∀ s, t_status r = status_as_str s →
    ∃ s', t_status r' = status_as_str s' ∧ rtc (status_step may_restart (t_direction r)) s s'.

(** Who asked for what and when. *)
Definition request_identity (q : RequestRow) :=
  (q_transfer_id q, q_remote_endpoint_id q, q_transfer_name q, q_receiver_name q,
   q_receiver_device_name q, q_app_version q, q_requested_at q).

(** An accepted request can only be delivered or fail; any other decision is final. *)
Definition request_evolves (q q' : RequestRow) : Prop :=
  request_identity q' = request_identity q ∧
  (q_status q = "accepted" → q_status q' ∈ ["accepted"; "completed"; "failed"])%string ∧
  ((q_status q ∉ ["requested"; "accepted"]%string) → q' = q).

Definition history_evolves (may_restart : bool) (h h' : History) : Prop :=
  map_lift (transfer_evolves may_restart) (transfers h) (transfers h') ∧
  map_lift request_evolves (receiver_requests h) (receiver_requests h').

(** ** Lemmas *)

#[global] Instance transfer_evolves_preorder b : PreOrder (transfer_evolves b).
Proof.
  split.
  - intros r. split; [done|]. intros s Hs. exists s. split; [done | apply rtc_refl].
  - intros r r' r'' [H1 H2] [H3 H4]. split; [congruence|]. intros s Hs.
    destruct (H2 s Hs) as (s' & Hs' & R1). destruct (H4 s' Hs') as (s'' & Hs'' & R2).
    exists s''. split; [done|]. replace (t_direction r') with (t_direction r) in R2; [by etrans|].
    unfold transfer_identity in H1. congruence.
Qed.

#[global] Instance request_evolves_preorder : PreOrder request_evolves.
Proof.
  split.
  - intros q. split; [done|]. split; [|done]. intros ->. set_solver.
  - intros q q' q'' (H1 & H2 & H3) (H4 & H5 & H6). split; [congruence|]. split.
    + intros Hq. specialize (H2 Hq).
      destruct (decide (q_status q' = "accepted"%string)) as [Ha|Hn]; [by apply H5|].
      rewrite H6; [done|]. rewrite <- str_in_elem in H2 |- *.
      destruct (str_in _ ["requested"; "accepted"]%string) eqn:Hin; [|done]. exfalso.
      apply str_in_elem, elem_of_cons in Hin as [Hin|Hin]; [by rewrite Hin in H2|].
      by apply list_elem_of_singleton in Hin.
    + intros Hn. rewrite H6; [by apply H3|]. by rewrite (H3 Hn).
Qed.

#[global] Instance history_evolves_preorder b : PreOrder (history_evolves b).
Proof.
  split.
  - intros h. split; reflexivity.
  - intros h h' h'' [H1 H2] [H3 H4]. split; etrans; eauto.
Qed.

Section Statements.
Context `{Env} (b : bool).

Lemma within_update_history P f :
  (∀ k r, P k r = true → transfer_evolves b r (f r)) → within (history_evolves b) (update_history P f).
Proof.
  intros Hf. apply within_asql; [apply _|]. intros h a h' [= <- <-].
  split; [by apply map_lift_update; [apply _|] | reflexivity].
Qed.

Lemma within_update_requests P f :
  (∀ k q, P k q = true → request_evolves q (f q)) → within (history_evolves b) (update_requests P f).
Proof.
  intros Hf. apply within_asql; [apply _|]. intros h a h' [= <- <-].
  split; [reflexivity | by apply map_lift_update; [apply _|]].
Qed.

Lemma within_insert_history {A} (f : History → result (A * History) SqlxError) :
  (∀ h a h', f h = Ok (a, h') →
     map_lift (transfer_evolves b) (transfers h) (transfers h') ∧
     map_lift request_evolves (receiver_requests h) (receiver_requests h')) →
  within (history_evolves b) (asql f).
Proof. intros Hf. apply within_asql; [apply _|]. intros h a h' Hh. by apply (Hf h a h'). Qed.
End Statements.

(** The operations, down to their statements. *)
Ltac inv_unfold := unfold discarded, insert_transfer, start_receive, record_received_artifact,
  complete_share_import, cancel_share_preparation, transition_transfer_status, upsert_receipt,
  complete_receive_with_pending_receipt, queue_failed_delivery_receipt,
  delete_pending_delivery_receipt, update_active_share_access_mode, recover_interrupted_transfers,
  insert_event, insert_receiver_request, update_receiver_request_status, set_receiver_receipt_token,
  complete_receiver_delivery, fail_receiver_delivery, expire_pending_receiver_requests, select.

Ltac inv_step :=
  intros; lazymatch goal with
  | |- within _ (update_history _ _) => apply within_update_history
  | |- within _ (update_requests _ _) => apply within_update_requests
  | |- within _ (asql _) => apply within_insert_history
  | |- within _ (if ?b then _ else _) => destruct b eqn:?
  | |- within _ _ => store_step
  end.

Ltac inv_steps := inv_unfold; repeat inv_step; intros.

Section Evolution.
Context `{Env} (b : bool).

Lemma set_status_evolves r status now s0 s1 :
  t_status r = status_as_str s0 → status = status_as_str s1 → can_transition_to s0 s1 = true →
  transfer_evolves b r (set_status status now r).
Proof.
  intros H0 -> Hc. split; [done|]. intros s Hs. exists s1. split; [done|].
  apply rtc_once. left. replace s with s0; [done|]. apply status_as_str_inj. congruence.
Qed.

(** Updates of a transfer that keep its status. *)
Lemma same_status_evolves r r' :
  transfer_identity r' = transfer_identity r → t_status r' = t_status r → transfer_evolves b r r'.
Proof. intros Hi Hs. split; [done|]. intros s E. exists s. split; [congruence | apply rtc_refl]. Qed.

Lemma interrupted_fails r now :
  interrupted 0 r = true → transfer_evolves b r (set_status "failed" now r).
Proof.
  unfold interrupted. intros Hi. apply str_in_elem in Hi.
  apply elem_of_cons in Hi as [Hi|Hi]; [|apply list_elem_of_singleton in Hi].
  - by eapply (set_status_evolves _ _ _ Importing Failed).
  - by eapply (set_status_evolves _ _ _ Receiving Failed).
Qed.

Lemma cancel_preparation_evolves r now :
  str_in (t_status r) ["importing"; "sharing"]%string = true →
  transfer_evolves b r
    (set_status (if str_eqb (t_status r) "sharing" then "stopped" else "cancelled")%string now r).
Proof.
  intros Hi. apply str_in_elem in Hi.
  apply elem_of_cons in Hi as [Hi|Hi]; [|apply list_elem_of_singleton in Hi]; rewrite Hi; simpl.
  - by eapply (set_status_evolves _ _ _ Importing StatusCancelled).
  - by eapply (set_status_evolves _ _ _ Sharing Stopped).
Qed.

Lemma restart_evolves new old : restartable old = true → transfer_evolves true old (restart_receive new old).
Proof.
  unfold restartable. intros Hr. apply andb_prop in Hr as [Hd Hst]. apply str_eqb_eq in Hd.
  split; [done|]. intros s Hs. exists Receiving.
  split; [done|]. apply rtc_once. right. split_and!; [done|done| |done].
  rewrite Hs in Hst. destruct s; vm_compute in Hst; try done; set_solver.
Qed.

(** A pending request may take any decision. *)
Lemma requested_evolves q status reason at_ token completed :
  q_status q = "requested"%string →
  request_evolves q (set_request status reason at_ token completed q).
Proof.
  intros E. split; [done|]. split; [intros; congruence|]. rewrite E. intros Hn. exfalso. set_solver.
Qed.

Lemma accepted_evolves q status reason at_ token completed :
  q_status q = "accepted"%string → status ∈ ["accepted"; "completed"; "failed"]%string →
  request_evolves q (set_request status reason at_ token completed q).
Proof.
  intros E Hs. split; [done|]. split; [done|]. rewrite E. intros Hn. exfalso. set_solver.
Qed.

Lemma restart_lift (h : History) k new n rows :
  upsert_where k new (λ _, restartable) (restart_receive new) (transfers h) = (n, rows) →
  map_lift (transfer_evolves true) (transfers h) rows.
Proof.
  unfold upsert_where. destruct (transfers h !! k) as [old|] eqn:E; [|intros [= _ <-]].
  - destruct (restartable old) eqn:Er; intros [= _ <-]; [|reflexivity].
    apply map_lift_insert; [apply _|]. intros old' ?. simplify_eq. by apply restart_evolves.
  - apply map_lift_insert; [apply _|]. congruence.
Qed.

Lemma share_import_evolves r r' s0 :
  transfer_identity r' = transfer_identity r → t_status r = "importing"%string →
  s0 = Sharing → t_status r' = status_as_str s0 → transfer_evolves b r r'.
Proof.
  intros Hi E -> E'. split; [done|]. intros s Hs. exists Sharing. split; [done|].
  apply rtc_once. left. replace s with Importing; [done|]. apply status_as_str_inj. simpl. congruence.
Qed.
End Evolution.

(** Discharge what an operation does to the two lifecycles. *)
Ltac inv_lawful :=
  lazymatch goal with
  | |- map_lift _ _ _ ∧ map_lift _ _ _ =>
      repeat first
        [ match goal with H : result_bind _ (insert_row _ _ _) = Ok _ |- _ =>
            apply insert_row_bind in H as [H ?] end
        | case_match
        | progress simplify_eq/= ];
      (split; first [ reflexivity
                    | by eapply restart_lift
                    | apply map_lift_insert; [apply _|]; congruence ])
  | |- transfer_evolves _ _ (set_status (if _ then _ else _) _ _) =>
      apply cancel_preparation_evolves; by bool_simpl
  | |- transfer_evolves _ _ (set_status "failed" _ _) => by apply interrupted_fails
  | |- transfer_evolves _ _ (set_status "done" _ _) =>
      bool_simpl; by eapply (set_status_evolves _ _ _ _ Receiving Done)
  | |- transfer_evolves _ _ (set_status (status_as_str _) _ _) =>
      bool_simpl; eapply set_status_evolves; [eassumption|reflexivity|by bool_simpl]
  | |- transfer_evolves _ _ _ =>
      bool_simpl; first [ by apply same_status_evolves
                        | by eapply share_import_evolves ]
  | |- request_evolves _ _ =>
      unfold receipt_matches in *; bool_simpl;
      first [ by apply requested_evolves
            | apply accepted_evolves; [done|]; apply str_in_elem;
              repeat match goal with H : q_status _ = _ |- _ => rewrite H end; by vm_compute ]
  end.

(** Starting a receive is the only operation that may restart one. *)
Definition restarts (op : HistoryOp) : bool := match op with OpStartReceive _ => true | _ => false end.

Lemma exec_history_evolves `{Env} op :
  (∀ id, op ≠ OpDeleteTransfer id) → op ≠ OpDeleteReceiveHistory →
  within (history_evolves (restarts op)) (exec_history op).
Proof.
  intros H1 H2. destruct op; try done; try (by edestruct H1); cbn [exec_history restarts].
  all: inv_steps.
  all: inv_lawful.
Qed.

(** ** Properties *)

Section LifecycleProperties.
Context `{Env}.

(** C40: outside the two explicit deletions, no operation loses a transfer; its identity,
    direction and creation time are fixed, and its status moves only along the transition table,
    with one exception: starting a receive may put a receive that was done, failed or cancelled
    back to receiving, which the table itself does not allow. No other operation restarts
    anything. This holds for failing operations too. *)
Theorem transfers_follow_lifecycle (op : HistoryOp) (h : History) (n : nat) :
  (∀ id, op ≠ OpDeleteTransfer id) → op ≠ OpDeleteReceiveHistory →
  wp (exec_history op) h n (λ _ h' _, ∀ id r, transfers h !! id = Some r →
    ∃ r', transfers h' !! id = Some r' ∧ transfer_identity r' = transfer_identity r ∧
      ∀ s, t_status r = status_as_str s →
        ∃ s', t_status r' = status_as_str s' ∧ rtc (status_step (restarts op) (t_direction r)) s s').
Proof.
  intros H1 H2. eapply wp_mono; [apply (exec_history_evolves op H1 H2)|].
  intros res h' n' [Ht _]. exact Ht.
Qed.

(** A receiver request is decided once. An accepted request can only
    be delivered or fail, any other decision is final, and nothing about the asker ever
    changes. *)
Theorem receiver_requests_settle_once (op : HistoryOp) (h : History) (n : nat) :
  (∀ id, op ≠ OpDeleteTransfer id) → op ≠ OpDeleteReceiveHistory →
  wp (exec_history op) h n (λ _ h' _, ∀ id q, receiver_requests h !! id = Some q →
    ∃ q', receiver_requests h' !! id = Some q' ∧ request_identity q' = request_identity q ∧
      (q_status q = "accepted" → q_status q' ∈ ["accepted"; "completed"; "failed"])%string ∧
      ((q_status q ∉ ["requested"; "accepted"]%string) → q' = q)).
Proof.
  intros H1 H2. eapply wp_mono; [apply (exec_history_evolves op H1 H2)|].
  intros res h' n' [_ Hq]. exact Hq.
Qed.
End LifecycleProperties.

Section OperationSpecs.
Context `{Env}.

(** A keyed update of a table, statement by statement. *)
Lemma wp_update_history_key id P f h n Q :
  (∀ k r, P k r = true → k = id) →
  (∀ e, Q (Err (anyhow_sqlx e)) h (Datatypes.S n)) →
  ((∀ r, transfers h !! id = Some r → P id r = false) → Q (Ok 0%nat) h (Datatypes.S n)) →
  (∀ r, transfers h !! id = Some r → P id r = true →
     Q (Ok 1%nat) (on_history <[id := f r]> h) (Datatypes.S n)) →
  wp (update_history P f) h n Q.
Proof.
  intros HP Herr Hno Hyes. apply wp_asql; [done|]. intros _ a h' [= <- <-].
  rewrite (count_where_key P _ id HP). unfold on_history at 1.
  rewrite (update_where_key P (λ _, f) (transfers h) id HP).
  destruct (transfers h !! id) as [r|] eqn:Hr.
  - destruct (P id r) eqn:Hp; [by apply Hyes|]. destruct h; apply Hno. by intros ? [= <-].
  - destruct h; by apply Hno.
Qed.

Lemma wp_update_request_key id P f h n Q :
  (∀ k q, P k q = true → k = id) →
  (∀ e, Q (Err (anyhow_sqlx e)) h (Datatypes.S n)) →
  ((∀ q, receiver_requests h !! id = Some q → P id q = false) → Q (Ok 0%nat) h (Datatypes.S n)) →
  (∀ q, receiver_requests h !! id = Some q → P id q = true →
     Q (Ok 1%nat) (on_requests <[id := f q]> h) (Datatypes.S n)) →
  wp (update_requests P f) h n Q.
Proof.
  intros HP Herr Hno Hyes. apply wp_asql; [done|]. intros _ a h' [= <- <-].
  rewrite (count_where_key P _ id HP). unfold on_requests at 1.
  rewrite (update_where_key P (λ _, f) (receiver_requests h) id HP).
  destruct (receiver_requests h !! id) as [q|] eqn:Hr.
  - destruct (P id q) eqn:Hp; [by apply Hyes|]. destruct h; apply Hno. by intros ? [= <-].
  - destruct h; by apply Hno.
Qed.

Lemma wp_select {A} (f : History → A) h n (Q : result A AnyhowError → History → nat → Prop) :
  (∀ e, Q (Err (anyhow_sqlx e)) h (Datatypes.S n)) →
  Q (Ok (f h)) h (Datatypes.S n) → wp (select f) h n Q.
Proof. intros He HQ. apply wp_asql; [done|]. by intros _ a h' [= <- <-]. Qed.

Lemma wp_to_db_id v h n (Q : result Z AnyhowError → History → nat → Prop) :
  (∀ e, Q (Err e) h n) → (v ≤ I64_MAX → Q (Ok v) h n) → wp (of_result (to_db_id v)) h n Q.
Proof.
  intros He HQ. apply wp_of_result. unfold to_db_id. destruct (Z.leb_spec v I64_MAX); auto.
Qed.

Lemma wp_upsert_receipt receipt h n (Q : result unit AnyhowError → History → nat → Prop) :
  (∀ e n', Q (Err e) h n') →
  (∀ row n', p_local_transfer_id row = pd_local_transfer_id receipt →
     p_sender_transfer_id row = pd_sender_transfer_id receipt →
     p_sender_blob_ticket row = pd_sender_blob_ticket receipt →
     p_token row = pd_token receipt → p_failure_reason row = pd_failure_reason receipt →
     Q (Ok tt) (on_receipts <[pd_request_id receipt := row]> h) n') →
  wp (upsert_receipt receipt) h n Q.
Proof.
  intros He HQ. apply wp_bind, wp_to_db_id; [done|]. intros _.
  apply wp_bind, wp_to_db_id; [done|]. intros _. apply wp_bind, wp_now_ms, wp_asql; [done|].
  intros _ [] h' [= <-]. by apply HQ.
Qed.

(** Completing a receive and queueing its delivery receipt is one
    atomic step: on success the transfer was receiving and is done, and the receipt is
    stored under its request id with exactly the given fields; on any failure nothing
    has changed. *)
Theorem complete_receive_atomic (receipt : PendingDeliveryReceipt) h n :
  wp (complete_receive_with_pending_receipt receipt) h n (λ res h' _,
    match res with
    | Err _ => h' = h
    | Ok _ => let id := pd_local_transfer_id receipt in
        ∃ r now row, transfers h !! id = Some r ∧ t_direction r = "receive"%string ∧
          t_status r = "receiving"%string ∧
          h' = on_receipts <[pd_request_id receipt := row]>
                 (on_history <[id := set_status "done" now r]> h) ∧
          p_local_transfer_id row = id ∧ p_sender_transfer_id row = pd_sender_transfer_id receipt ∧
          p_token row = pd_token receipt ∧ p_failure_reason row = pd_failure_reason receipt
    end).
Proof.
  apply wp_asql_tx; [done|]. apply wp_bind, wp_now_ms, wp_bind, wp_to_db_id; [done|]. intros Hid.
  apply wp_bind, (wp_update_history_key (pd_local_transfer_id receipt));
    [by intros; bool_simpl | done | by intros; apply wp_bind, wp_of_result |].
  intros r Hr HP. apply wp_bind, wp_of_result. simpl. apply wp_upsert_receipt; [done|].
  intros row n' H1 H2 _ H3 H4. bool_simpl. exists r, (clock (S n)), row. done.
Qed.

Lemma wp_complete_receiver_delivery id transfer_id remote token h n :
  wp (complete_receiver_delivery id transfer_id remote token) h n (λ res h' _,
    (is_ok res = true → ∃ q, receiver_requests h !! id = Some q ∧
       q_transfer_id q = transfer_id ∧ q_remote_endpoint_id q = remote ∧
       q_receipt_token_hash q = Some token ∧ q_status q ∈ ["accepted"; "completed"]%string ∧
       (q_status q = "completed"%string → h' = h)) ∧
    (h' = h ∨ ∃ q now, receiver_requests h !! id = Some q ∧
       receipt_matches id transfer_id remote token "accepted" id q = true ∧
       h' = on_requests <[id := set_request "completed" (q_reason q) (q_responded_at q)
              (q_receipt_token_hash q) (Some now) q]> h)).
Proof.
  apply wp_bind, wp_now_ms, wp_bind, wp_to_db_id; [by intros; split; [|left]|]. intros _.
  apply wp_bind, (wp_update_request_key id);
    [by unfold receipt_matches; intros; bool_simpl | by intros; split; [|left] | |].
  - intros Hno. simpl. apply wp_bind, wp_bind, wp_select; [by intros; split; [|left]|].
    rewrite (exists_where_key _ _ id) by (unfold receipt_matches; intros; by bool_simpl).
    destruct (receiver_requests h !! id) as [q|] eqn:Hq;
      [|apply wp_fail; split; [done|by left]].
    destruct (receipt_matches _ _ _ _ "completed" _ _) eqn:Em; [|apply wp_fail; split; [done|by left]].
    apply wp_ret, wp_asql; [by intros; split; [|left]|]. intros _ name h'. rewrite Hq, Em.
    intros [= _ <-]. split; [|by left]. intros _. exists q. split; [done|].
    unfold receipt_matches in Em. bool_simpl. repeat split; try done. set_solver.
  - intros q Hq Hm. simpl. apply wp_bind, wp_ret. apply wp_asql.
    + intros e. split; [done|]. right. by exists q, (clock n).
    + intros _ name h' Hrow. simpl in Hrow. rewrite lookup_insert_eq in Hrow. case_match; [|done].
      simplify_eq/=. split; [|right; by exists q, (clock n)]. intros _. exists q. split; [done|].
      unfold receipt_matches in Hm. bool_simpl. repeat split; try done; [set_solver|congruence].
Qed.

Lemma wp_fail_receiver_delivery id transfer_id remote token reason h n :
  wp (fail_receiver_delivery id transfer_id remote token reason) h n (λ res h' _,
    (is_ok res = true → ∃ q, receiver_requests h !! id = Some q ∧
       q_transfer_id q = transfer_id ∧ q_remote_endpoint_id q = remote ∧
       q_receipt_token_hash q = Some token ∧ q_status q ∈ ["accepted"; "failed"]%string) ∧
    (h' = h ∨ ∃ q, receiver_requests h !! id = Some q ∧
       receipt_matches id transfer_id remote token "accepted" id q = true ∧
       h' = on_requests <[id := set_request "failed" (Some reason) (q_responded_at q)
              (q_receipt_token_hash q) (q_completed_at q) q]> h)).
Proof.
  apply wp_bind, wp_to_db_id; [by intros; split; [|left]|]. intros _.
  apply wp_bind, (wp_update_request_key id);
    [by unfold receipt_matches; intros; bool_simpl | by intros; split; [|left] | |].
  - intros Hno. simpl. apply wp_bind, wp_select; [by intros; split; [|left]|].
    rewrite (exists_where_key _ _ id) by (unfold receipt_matches; intros; by bool_simpl).
    destruct (receiver_requests h !! id) as [q|] eqn:Hq;
      [|apply wp_fail; split; [done|by left]].
    destruct (receipt_matches _ _ _ _ "failed" _ _) eqn:Em; [|apply wp_fail; split; [done|by left]].
    apply wp_ret. split; [|by left]. intros _. exists q. split; [done|].
    unfold receipt_matches in Em. bool_simpl. repeat split; try done. set_solver.
  - intros q Hq Hm. simpl. apply wp_ret. split; [|right; by exists q]. intros _. exists q. split; [done|].
    unfold receipt_matches in Hm. bool_simpl. repeat split; try done. set_solver.
Qed.

(** A delivery receipt is honoured only for the accepted request of
    that very endpoint and transfer carrying the token hash; it completes that request
    and no other, repeating it changes nothing, and a mismatch is refused without
    effect. *)
Theorem delivery_receipt_authenticated id transfer_id remote token h n :
  wp (complete_receiver_delivery id transfer_id remote token) h n (λ res h' _,
    (is_ok res = true → ∃ q, receiver_requests h !! id = Some q ∧
       q_transfer_id q = transfer_id ∧ q_remote_endpoint_id q = remote ∧
       q_receipt_token_hash q = Some token ∧ q_status q ∈ ["accepted"; "completed"]%string ∧
       (q_status q = "completed"%string → h' = h)) ∧
    (h' = h ∨ ∃ q now, receiver_requests h !! id = Some q ∧
       receipt_matches id transfer_id remote token "accepted" id q = true ∧
       h' = on_requests <[id := set_request "completed" (q_reason q) (q_responded_at q)
              (q_receipt_token_hash q) (Some now) q]> h)).
Proof. apply wp_complete_receiver_delivery. Qed.
End OperationSpecs.

(** *** Bounded event history *)

#[global] Instance newest_event_total : Total newest_event.
Proof.
  intros x y. unfold newest_event.
  destruct (Z.lt_trichotomy (e_timestamp x.2) (e_timestamp y.2)) as [?|[E|?]]; [by right; left| |by left; left].
  destruct (String.leb_total x.1 y.1); [right | left]; right; by split.
Qed.

#[global] Instance newest_event_trans : Transitive newest_event.
Proof.
  intros x y z. unfold newest_event.
  intros [?|[E1 H1]] [?|[E2 H2]]; [left; lia|left; lia|left; lia|].
  right. split; [lia|]. by eapply str_leb_trans.
Qed.

Section EventHistory.
Context `{Env}.

(** The rows that [DELETE .. WHERE id NOT IN (..LIMIT n)] leaves. *)
Definition retained (events : gmap string EventRow) (limit : Z) : gmap string EventRow :=
  delete_where (λ k _, negb (str_in k (retained_ids events limit))) events.

Lemma elem_of_take_rows (events : gmap string EventRow) n k e :
  (k, e) ∈ take n (order_by newest_event (map_to_list events)) → events !! k = Some e.
Proof.
  intros Hin. apply elem_of_map_to_list. eapply elem_of_order_by.
  rewrite <- (take_drop n (order_by newest_event (map_to_list events))). apply elem_of_app. by left.
Qed.

Lemma retained_lookup events limit k e :
  retained events limit !! k = Some e ↔
  (k, e) ∈ take (Z.to_nat limit) (order_by newest_event (map_to_list events)).
Proof.
  unfold retained. rewrite lookup_delete_where, negb_false_iff, str_in_elem.
  unfold retained_ids. rewrite list_elem_of_fmap. split.
  - intros [Hk ([k' e'] & -> & Hin)]. simpl in *.
    replace e with e'; [done|]. assert (events !! k' = Some e') as Hk'; [|congruence].
    by eapply elem_of_take_rows.
  - intros Hin. split; [by eapply elem_of_take_rows | by exists (k, e)].
Qed.

Lemma retained_size events limit : 0 ≤ limit → Z.of_nat (size (retained events limit)) ≤ limit.
Proof.
  intros Hl.
  assert (map_to_list (retained events limit) ⊆+ take (Z.to_nat limit)
            (order_by newest_event (map_to_list events))) as Hsub.
  { apply NoDup_submseteq; [apply NoDup_map_to_list|]. intros [k e] Hin.
    apply elem_of_map_to_list in Hin. by apply retained_lookup. }
  apply submseteq_length in Hsub. rewrite length_take in Hsub.
  rewrite <- length_map_to_list. lia.
Qed.

Lemma retained_newest events limit k e k' e' :
  retained events limit !! k = Some e → events !! k' = Some e' →
  retained events limit !! k' = None → newest_event (k, e) (k', e').
Proof.
  intros Hk Hk' Hn. apply retained_lookup in Hk.
  set (l := order_by newest_event (map_to_list events)) in *.
  assert (StronglySorted newest_event l) as Hs by (apply StronglySorted_merge_sort; apply _).
  rewrite <- (take_drop (Z.to_nat limit) l) in Hs.
  eapply StronglySorted_app_1_elem_of; [exact Hs|done|].
  assert ((k', e') ∈ l) as Hin by (by apply elem_of_order_by, elem_of_map_to_list).
  rewrite <- (take_drop (Z.to_nat limit) l) in Hin. apply elem_of_app in Hin as [Hin|Hin]; [|done].
  apply retained_lookup in Hin. congruence.
Qed.

Lemma retained_all events limit :
  Z.of_nat (size events) ≤ limit → retained events limit = events.
Proof.
  intros Hle. apply map_eq. intros k. destruct (events !! k) as [e|] eqn:E.
  - apply retained_lookup. rewrite take_ge; [by apply elem_of_order_by, elem_of_map_to_list|].
    rewrite (Permutation_length (order_by_permutation newest_event _)), length_map_to_list. lia.
  - destruct (retained events limit !! k) as [e|] eqn:Er; [|done].
    apply lookup_delete_where in Er as [Er _]. congruence.
Qed.

(** Recording an event keeps the history bounded: after success at
    most [max_history] events remain, each retained event is newer than each dropped one,
    nothing is dropped while there is room, and no other table is touched; a failure
    leaves the history as it was. *)
Theorem event_history_bounded (event : CoreEvent) (max_history : Z) h n :
  0 ≤ max_history →
  wp (insert_event event max_history) h n (λ res h' _,
    match res with
    | Err _ => h' = h
    | Ok _ => ∃ row all, all = <[ce_id event := row]> (transfer_events h) ∧
        h' = on_events (λ _, retained all max_history) h ∧
        Z.of_nat (size (transfer_events h')) ≤ max_history ∧
        (Z.of_nat (size all) ≤ max_history → transfer_events h' = all) ∧
        (∀ k e k' e', transfer_events h' !! k = Some e → all !! k' = Some e' →
           transfer_events h' !! k' = None → newest_event (k, e) (k', e'))
    end).
Proof.
  intros Hmax. apply wp_asql_tx; [done|].
  apply wp_bind, wp_to_db_id; [done|]. intros _. apply wp_bind, wp_of_result.
  destruct (option_transpose _ _) as [tid|e]; [|done].
  apply wp_bind, wp_asql; [done|]. intros _ [] h1 [= <-].
  apply wp_bind, wp_to_db_id; [done|]. intros _. apply wp_asql; [done|]. intros _ [] h2 [= <-].
  eexists _, _. split; [reflexivity|]. split; [reflexivity|]. simpl.
  split; [by apply retained_size|]. split; [apply retained_all|]. intros *. apply retained_newest.
Qed.

(** After a crash every interrupted import or receive is failed and reported
    with the status it was interrupted in; no other transfer changes, and the step is
    all or nothing. *)
Theorem recover_fails_interrupted h n :
  wp recover_interrupted_transfers h n (λ res h' _,
    match res with
    | Err _ => h' = h
    | Ok recovered =>
        (∀ id r', transfers h' !! id = Some r' → interrupted id r' = false) ∧
        (∀ id r, transfers h !! id = Some r → interrupted id r = false →
           transfers h' !! id = Some r) ∧
        (∀ id r, transfers h !! id = Some r → interrupted id r = true →
           ∃ now rec, transfers h' !! id = Some (set_status "failed" now r) ∧ rec ∈ recovered ∧
             rt_transfer_id rec = as_u64 id ∧
             status_try_from (t_status r) = Ok (rt_previous_status rec) ∧
             direction_try_from (t_direction r) = Ok (rt_direction rec))
    end).
Proof.
  apply wp_asql_tx; [done|]. apply wp_bind, wp_select; [done|]. apply wp_bind, wp_of_result.
  destruct (collect_results _ _) as [recovered|e] eqn:Er; [|done].
  apply collect_results_Ok in Er.
  assert (∀ id r, transfers h !! id = Some r → interrupted id r = true →
            ∃ rec, rec ∈ recovered ∧ recovered_of_row (id, r) = Ok rec) as Hrec.
  { intros id r Hr Hi.
    assert ((id, r) ∈ order_by oldest_created (select_where interrupted (transfers h))) as Hin
      by by apply elem_of_order_by, elem_of_select_where.
    apply list_elem_of_lookup_1 in Hin as [i Hi'].
    destruct (Forall2_lookup_l _ _ _ _ _ Er Hi') as (rec & Hl & Hrec).
    exists rec. split; [by eapply list_elem_of_lookup_2|done]. }
  assert (∀ id r rec, recovered_of_row (id, r) = Ok rec → rt_transfer_id rec = as_u64 id ∧
            status_try_from (t_status r) = Ok (rt_previous_status rec) ∧
            direction_try_from (t_direction r) = Ok (rt_direction rec)) as Hfields.
  { intros id r rec. unfold recovered_of_row. simpl.
    destruct (direction_try_from _); [|done]. simpl. by destruct (status_try_from _); simpl; intros; simplify_eq. }
  destruct recovered as [|rec0 recovered].
  - apply wp_ret. split_and!; [|done|].
    + intros id r Hr. destruct (interrupted id r) eqn:Ei; [|done].
      destruct (Hrec id r Hr Ei) as (rec & Hin & _). by apply elem_of_nil in Hin.
    + intros id r Hr Hi. destruct (Hrec id r Hr Hi) as (rec & Hin & _). by apply elem_of_nil in Hin.
  - apply wp_bind, wp_now_ms, wp_bind, wp_asql; [done|]. intros _ cnt h' [= _ <-]. apply wp_ret. simpl.
    split_and!.
    + intros id r'. rewrite lookup_update_where. destruct (transfers h !! id) as [r|]; [|done]. simpl.
      intros [= <-]. by destruct (interrupted id r) eqn:Ei.
    + intros id r Hr Hi. by rewrite lookup_update_where, Hr; simpl; rewrite Hi.
    + intros id r Hr Hi. destruct (Hrec id r Hr Hi) as (rec & Hin & Hro). eexists _, rec.
      rewrite lookup_update_where, Hr. simpl. rewrite Hi. split; [done|]. split; [done|]. by apply Hfields.
Qed.

(** Clearing the receive history removes exactly the finished receives
    with their requests and events; every send, every active receive and everything
    that refers to them stay, and a failure removes nothing. *)
Theorem delete_receive_history_exact h n :
  wp delete_receive_history h n (λ res h' _,
    match res with
    | Err _ => h' = h
    | Ok deleted =>
        deleted = Z.of_nat (count_where (λ _, restartable) (transfers h)) ∧
        (∀ id r, transfers h' !! id = Some r ↔ transfers h !! id = Some r ∧ restartable r = false) ∧
        (∀ k q, receiver_requests h' !! k = Some q ↔
           receiver_requests h !! k = Some q ∧ finished_receive h (q_transfer_id q) = false) ∧
        (∀ k e, transfer_events h' !! k = Some e ↔ transfer_events h !! k = Some e ∧
           (∀ id, e_transfer_id e = Some id → finished_receive h id = false)) ∧
        received_artifacts h' = received_artifacts h ∧
        pending_delivery_receipts h' = pending_delivery_receipts h
    end).
Proof.
  apply wp_asql_tx; [done|]. apply wp_bind, wp_asql; [done|]. intros _ [] h1 [= <-].
  apply wp_bind, wp_asql; [done|]. intros _ [] h2 [= <-].
  apply wp_bind, wp_asql; [done|]. intros _ cnt h3 [= <- <-]. apply wp_ret. simpl.
  split; [done|]. split; [intros; by rewrite lookup_delete_where|].
  split; [intros; by rewrite lookup_delete_where|]. split; [|done].
  intros k e. rewrite lookup_delete_where. apply and_iff_compat_l.
  destruct (e_transfer_id e) as [id|].
  - split; [by intros Hf id' [= <-] | intros Hf; by apply Hf].
  - done.
Qed.
End EventHistory.

(** ** Concrete runs *)

Section Witnesses.
#[local] Existing Instance demo_text.
Definition demo_env_history : Env := quiet_env 1000 (λ n, pretty n).
#[local] Existing Instance demo_env_history.

Definition empty_history : History := {|
  transfers := ∅; received_artifacts := ∅; transfer_events := ∅; receiver_requests := ∅;
  pending_delivery_receipts := ∅ |}.

Definition demo_upsert : TransferUpsert := {|
  u_transfer_id := 5; u_peer_id := Some "alice"; u_direction := Receive; u_status := Receiving;
  u_transfer_name := Some "photos"; u_sender_name := None; u_content_hash := Some "h";
  u_ticket := None; u_file_count := 2; u_total_size := 10; u_access_mode := "public" |}%string.

Definition demo_request : ReceiverRequestInsert := {|
  ri_id := "r"; ri_transfer_id := 5; ri_remote_endpoint_id := "bob"; ri_transfer_name := "photos";
  ri_receiver_name := None; ri_receiver_device_name := Some "phone"; ri_app_version := "1" |}%string.

Definition demo_history (ops : list HistoryOp) : History :=
  fold_left (λ h op, (exec_history op h 0%nat).1.2) ops empty_history.

Definition demo_received : History :=
  demo_history [OpStartReceive demo_upsert; OpTransitionStatus 5 Receiving StatusCancelled].

Lemma transfers_follow_lifecycle_witness :
  (t_status <$> transfers demo_received !! 5) = Some "cancelled"%string ∧
  (t_status <$> transfers (exec_history (OpStartReceive demo_upsert) demo_received 0%nat).1.2 !! 5)
    = Some "receiving"%string ∧
  ∀ r, transfers demo_received !! 5 = Some r →
  ∃ r', transfers (exec_history (OpStartReceive demo_upsert) demo_received 0%nat).1.2 !! 5 = Some r' ∧
    transfer_identity r' = transfer_identity r ∧
    ∀ s, t_status r = status_as_str s →
      ∃ s', t_status r' = status_as_str s' ∧ rtc (status_step true (t_direction r)) s s'.
Proof.
  split; [vm_compute; reflexivity|]. split; [vm_compute; reflexivity|].
  exact (wp_final _ _ _ _ (transfers_follow_lifecycle (OpStartReceive demo_upsert) demo_received 0%nat
    ltac:(discriminate) ltac:(discriminate)) 5).
Defined.

Definition demo_accepted : History :=
  demo_history [OpInsertRequest demo_request; OpUpdateRequest "r" Accepted None].

Lemma receiver_requests_settle_once_witness :
  (q_status <$> receiver_requests demo_accepted !! "r"%string) = Some "accepted"%string ∧
  ∀ q, receiver_requests demo_accepted !! "r"%string = Some q →
  ∃ q', receiver_requests (exec_history (OpExpireRequests "late") demo_accepted 0%nat).1.2
          !! "r"%string = Some q' ∧
    request_identity q' = request_identity q ∧
    (q_status q = "accepted" → q_status q' ∈ ["accepted"; "completed"; "failed"])%string ∧
    ((q_status q ∉ ["requested"; "accepted"]%string) → q' = q).
Proof.
  split; [vm_compute; reflexivity|].
  exact (wp_final _ _ _ _ (receiver_requests_settle_once (OpExpireRequests "late") demo_accepted 0%nat
    ltac:(discriminate) ltac:(discriminate)) "r"%string).
Defined.

Definition demo_event (id : string) (at_ : Z) : CoreEvent := {|
  ce_id := id; ce_revision := 1; ce_timestamp := at_; ce_scope := "transfer"; ce_transfer_id := Some 5;
  ce_direction := None; ce_phase := "p"; ce_kind := "k"; ce_data_json := "{}" |}%string.

Definition demo_events : History := demo_history [OpInsertEvent (demo_event "a" 10) 2; OpInsertEvent (demo_event "b" 30) 2].

Lemma event_history_bounded_witness :
  (map_to_list (transfer_events (exec_history (OpInsertEvent (demo_event "c" 20) 2) demo_events 0%nat).1.2)).*1
    = ["c"; "b"]%string ∧
  wp (insert_event (demo_event "c" 20) 2) demo_events 0%nat (λ res h' _,
    match res with
    | Err _ => h' = demo_events
    | Ok _ => ∃ row all, all = <["c"%string := row]> (transfer_events demo_events) ∧
        h' = on_events (λ _, retained all 2) demo_events ∧
        Z.of_nat (size (transfer_events h')) ≤ 2 ∧
        (Z.of_nat (size all) ≤ 2 → transfer_events h' = all) ∧
        (∀ k e k' e', transfer_events h' !! k = Some e → all !! k' = Some e' →
           transfer_events h' !! k' = None → newest_event (k, e) (k', e'))
    end).
Proof.
  split; [vm_compute; reflexivity|].
  exact (event_history_bounded (demo_event "c" 20) 2 demo_events 0%nat ltac:(lia)).
Defined.
End Witnesses.
