(* ===== verification/Inbox.v ===== *)
(** * [targeted_transfer/inbox.rs]: the live inbox of unapproved offers

    Every map of the inbox has its own asynchronous lock, and other tasks run between
    two locks. A call is therefore a [Task] that advances one critical section at a time
    ([step_task]); a [World] is the inbox with the tasks in flight, and [wstep] lets any
    task advance, any new call arrive, and any call be dropped at an await point. The
    event hub is not modelled. *)

From S2P Require Import Prelude Sql ControlPlane Errors States Api.

(** ** Data *)

Inductive SettledOfferResult : Type :=
| SettledAccepted (authorization : option string)
| SettledDeclined (reason : string).

Inductive TargetedOfferDecision : Type :=
| OfferAccepted
| OfferDeclined (reason : string)
| OfferRefused (reason : string).

Inductive RespondError : Type := Unknown | SenderGone | AuthorizationTimeout.

#[global] Instance SettledOfferResult_eq_dec : EqDecision SettledOfferResult.
Proof. solve_decision. Defined.
#[global] Instance TargetedOfferDecision_eq_dec : EqDecision TargetedOfferDecision.
Proof. solve_decision. Defined.

(** A [watch] channel: the transfer it was made for and its current value. *)
Record Channel (A : Type) : Type := { chan_for : string; chan_value : option A }.
Arguments chan_for {A}.
Arguments chan_value {A}.

(** [decisions] and [auths] hold the sending ends, as channel numbers. *)
Record TargetedOfferInbox : Type := {
  pending : gmap string PendingTargetedOffer;
  decisions : gmap string nat;
  auths : gmap string nat;
  settled : gmap string SettledOfferResult;
  cooldown : Cooldown.CooldownInner;
  decision_chans : gmap nat (Channel bool);
  auth_chans : gmap nat (Channel string);
  next_chan : nat
}.

Definition inbox_new : TargetedOfferInbox := {|
  pending := ∅; decisions := ∅; auths := ∅; settled := ∅;
  cooldown := Cooldown.CooldownInner_default;
  decision_chans := ∅; auth_chans := ∅; next_chan := 0 |}.

Definition on_pending f (i : TargetedOfferInbox) : TargetedOfferInbox :=
  {| pending := f (pending i); decisions := decisions i; auths := auths i; settled := settled i;
     cooldown := cooldown i; decision_chans := decision_chans i; auth_chans := auth_chans i;
     next_chan := next_chan i |}.
Definition on_decisions f (i : TargetedOfferInbox) : TargetedOfferInbox :=
  {| pending := pending i; decisions := f (decisions i); auths := auths i; settled := settled i;
     cooldown := cooldown i; decision_chans := decision_chans i; auth_chans := auth_chans i;
     next_chan := next_chan i |}.
Definition on_auths f (i : TargetedOfferInbox) : TargetedOfferInbox :=
  {| pending := pending i; decisions := decisions i; auths := f (auths i); settled := settled i;
     cooldown := cooldown i; decision_chans := decision_chans i; auth_chans := auth_chans i;
     next_chan := next_chan i |}.
Definition on_settled f (i : TargetedOfferInbox) : TargetedOfferInbox :=
  {| pending := pending i; decisions := decisions i; auths := auths i; settled := f (settled i);
     cooldown := cooldown i; decision_chans := decision_chans i; auth_chans := auth_chans i;
     next_chan := next_chan i |}.
Definition on_decision_chans f (i : TargetedOfferInbox) : TargetedOfferInbox :=
  {| pending := pending i; decisions := decisions i; auths := auths i; settled := settled i;
     cooldown := cooldown i; decision_chans := f (decision_chans i); auth_chans := auth_chans i;
     next_chan := next_chan i |}.
Definition on_auth_chans f (i : TargetedOfferInbox) : TargetedOfferInbox :=
  {| pending := pending i; decisions := decisions i; auths := auths i; settled := settled i;
     cooldown := cooldown i; decision_chans := decision_chans i; auth_chans := f (auth_chans i);
     next_chan := next_chan i |}.
Definition set_cooldown c (i : TargetedOfferInbox) : TargetedOfferInbox :=
  {| pending := pending i; decisions := decisions i; auths := auths i; settled := settled i;
     cooldown := c; decision_chans := decision_chans i; auth_chans := auth_chans i;
     next_chan := next_chan i |}.
Definition bump_chan (i : TargetedOfferInbox) : TargetedOfferInbox :=
  {| pending := pending i; decisions := decisions i; auths := auths i; settled := settled i;
     cooldown := cooldown i; decision_chans := decision_chans i; auth_chans := auth_chans i;
     next_chan := S (next_chan i) |}.

Definition offers_equivalent (left right : PendingTargetedOffer) : bool :=
  str_eqb (po_transfer_id left) (po_transfer_id right) &&
  str_eqb (po_sender_endpoint_id left) (po_sender_endpoint_id right) &&
  str_eqb (po_receiver_endpoint_id left) (po_receiver_endpoint_id right) &&
  str_eqb (po_manifest_id left) (po_manifest_id right) &&
  str_eqb (po_content_hash left) (po_content_hash right) &&
  str_eqb (po_transfer_name left) (po_transfer_name right) &&
  (po_file_count left =? po_file_count right) &&
  (po_total_size left =? po_total_size right) &&
  (po_protocol_version left =? po_protocol_version right).

Definition settled_to_decision (s : SettledOfferResult) : TargetedOfferDecision :=
  match s with
  | SettledAccepted _ => OfferAccepted
  | SettledDeclined reason => OfferDeclined reason
  end.

(** ** Tasks: the program points between two locks *)

(** [discard]: the three maps in turn. *)
Inductive DiscardStage : Type := DropPending | DropDecision | DropAuth.

Inductive Task : Type :=
(* [submit]: the channel a task created keeps its first receiver alive ([own]) *)
| SubmitCooldown (offer : PendingTargetedOffer)
| SubmitSettled (offer : PendingTargetedOffer)
| SubmitProbe (offer : PendingTargetedOffer)
| SubmitInsert (offer : PendingTargetedOffer)
| SubmitWaiter (offer : PendingTargetedOffer) (own : nat)
(* [wait_existing_decision] *)
| WaitLookup (id : string) (own : option nat)
| Waiting (id : string) (own : option nat) (chan : nat)
| WaitDiscard (id : string) (own : option nat) (stage : DiscardStage) (reason : string)
| Submitted (id : string) (decision : TargetedOfferDecision)
(* [respond], declining *)
| RespondSettled (id : string) (accepted : bool)
| RespondPending (id : string) (accepted : bool)
| DeclineLookup (id sender : string)
| DeclineSend (id sender : string) (chan : nat)
| DeclineDiscard (id sender : string) (chan : nat) (stage : DiscardStage)
| DeclineRecord (id sender : string) (chan : nat)
| DeclineSettle (id : string) (chan : nat)
(* [accept_live]; [then_wait] tells whether [respond] goes on to wait *)
| AcceptLookup (id : string) (then_wait : bool)
| AcceptAuths (id : string) (chan : nat) (then_wait : bool)
| AcceptSend (id : string) (chan auth_chan : nat) (then_wait : bool)
| AcceptRollback (id : string) (chan : nat)
| AcceptedLive (id : string)
(* [wait_for_authorization] *)
| AuthSettled (id : string)
| AuthSubscribe (id : string)
| AuthWaiting (id : string) (auth_chan : nat)
| AuthDropPending (id auth : string)
| AuthDropWaiter (id auth : string)
| AuthSettle (id auth : string)
| AuthAbort (id : string)
| Responded (id : string) (outcome : result (option string) RespondError)
(* [deliver_authorization] *)
| DeliverSettled (id auth : string)
| DeliverSend (id auth : string)
| Delivered (id : string) (ok : bool)
(* [discard_from] and [discard] *)
| DiscardFrom (endpoint_id : string)
| Discarding (ids : list string) (stage : DiscardStage)
| Discarded.

(** The receivers of a decision channel that a task keeps alive. *)
Definition holds_decision_receiver (chan : nat) (task : Task) : bool :=
  match task with
  | SubmitWaiter _ own => Nat.eqb own chan
  | WaitLookup _ own | WaitDiscard _ own _ _ =>
      match own with Some c => Nat.eqb c chan | None => false end
  | Waiting _ own c =>
      Nat.eqb c chan || match own with Some c' => Nat.eqb c' chan | None => false end
  | _ => false
  end.

(** The clones of a decision sender that a task keeps alive. *)
Definition holds_decision_sender (chan : nat) (task : Task) : bool :=
  match task with
  | SubmitWaiter _ own => Nat.eqb own chan
  | DeclineSend _ _ c | DeclineDiscard _ _ c _ | DeclineRecord _ _ c | DeclineSettle _ c
  | AcceptAuths _ c _ | AcceptSend _ c _ _ | AcceptRollback _ c => Nat.eqb c chan
  | _ => false
  end.

Definition holds_auth_receiver (chan : nat) (task : Task) : bool :=
  match task with
  | AuthWaiting _ c => Nat.eqb c chan
  | AcceptSend _ _ c _ => Nat.eqb c chan
  | _ => false
  end.

Definition map_values_contain (chan : nat) (m : gmap string nat) : bool :=
  exists_where (λ _ c, Nat.eqb c chan) m.

(** ** One critical section *)

Section Step.
Context `{Env} (cfg : Cooldown.Config) (max_pending : Z).

Abbreviation IO := (M TargetedOfferInbox string).

Definition in_cooldown {A} (m : M Cooldown.CooldownInner string A) : IO A :=
  zoom cooldown set_cooldown m.

(** [HashMap::remove] and [HashMap::insert] on the maps behind the locks. *)
Definition remove_pending (id : string) : IO unit := modify (on_pending (delete id)).
Definition remove_auth (id : string) : IO unit := modify (on_auths (delete id)).
Definition settle (id : string) (s : SettledOfferResult) : IO unit :=
  modify (on_settled <[id := s]>).

(** [sender.send(Some(value))]: the value is stored unless every receiver is gone. *)
Definition send_decision (tasks : list Task) (chan : nat) (value : bool) : IO bool :=
  i ← get;
  match decision_chans i !! chan with
  | Some c =>
      if existsb (holds_decision_receiver chan) tasks then
        modify (on_decision_chans
                  <[chan := {| chan_for := chan_for c; chan_value := Some value |}]>);;
        ret true
      else ret false
  | None => ret false
  end.

Definition send_auth (tasks : list Task) (chan : nat) (value : string) : IO bool :=
  i ← get;
  match auth_chans i !! chan with
  | Some c =>
      if existsb (holds_auth_receiver chan) tasks then
        modify (on_auth_chans
                  <[chan := {| chan_for := chan_for c; chan_value := Some value |}]>);;
        ret true
      else ret false
  | None => ret false
  end.

(** One stage of [discard]; [None] when the three maps are done. *)
Definition discard_stage (tasks : list Task) (id : string) (stage : DiscardStage) :
    IO (option DiscardStage) :=
  match stage with
  | DropPending => remove_pending id;; ret (Some DropDecision)
  | DropDecision =>
      i ← get;
      match decisions i !! id with
      | Some chan =>
          modify (on_decisions (delete id));;
          send_decision tasks chan false;;
          ret (Some DropAuth)
      | None => ret (Some DropAuth)
      end
  | DropAuth => remove_auth id;; ret None
  end.

(** The checks under the [pending] lock, before and after the channel is made. *)
Definition refusal (i : TargetedOfferInbox) (offer : PendingTargetedOffer) :
    option TargetedOfferDecision :=
  if exists_where (λ _ entry, str_eqb (po_sender_endpoint_id entry) (po_sender_endpoint_id offer))
       (pending i)
  then Some (OfferRefused "offer-already-pending")
  else if max_pending <=? Z.of_nat (size (pending i))
  then Some (OfferRefused "too-many-pending-offers")
  else None.

(** The critical sections of each function. [tasks] are all tasks in flight, [timeout] whether
    the timer of this task has fired; [None] means that the task is blocked, or not this
    function's. *)

(** [submit]. *)
Definition step_submit (task : Task) : IO (option Task) :=
  match task with
  | SubmitCooldown offer =>
      cooling ← in_cooldown (Cooldown.is_cooling (po_sender_endpoint_id offer));
      ret (Some (if cooling : bool
                 then Submitted (po_transfer_id offer) (OfferRefused "identity-cooldown")
                 else SubmitSettled offer))
  | SubmitSettled offer =>
      i ← get;
      ret (Some (match settled i !! po_transfer_id offer with
                 | Some s => Submitted (po_transfer_id offer) (settled_to_decision s)
                 | None => SubmitProbe offer
                 end))
  | SubmitProbe offer =>
      i ← get;
      ret (Some (match pending i !! po_transfer_id offer with
                 | Some existing =>
                     if offers_equivalent existing offer
                     then WaitLookup (po_transfer_id offer) None
                     else Submitted (po_transfer_id offer) (OfferRefused "immutable-transfer-mismatch")
                 | None => match refusal i offer with
                           | Some d => Submitted (po_transfer_id offer) d
                           | None => SubmitInsert offer
                           end
                 end))
  | SubmitInsert offer =>
      i ← get;
      match pending i !! po_transfer_id offer with
      | Some _ => ret (Some (WaitLookup (po_transfer_id offer) None))
      | None =>
          match refusal i offer with
          | Some d => ret (Some (Submitted (po_transfer_id offer) d))
          | None =>
              modify (on_decision_chans <[next_chan i :=
                {| chan_for := po_transfer_id offer; chan_value := None |}]>);;
              modify bump_chan;;
              modify (on_pending <[po_transfer_id offer := offer]>);;
              ret (Some (SubmitWaiter offer (next_chan i)))
          end
      end
  | SubmitWaiter offer own =>
      modify (on_decisions <[po_transfer_id offer := own]>);;
      in_cooldown (Cooldown.clear_strikes (po_sender_endpoint_id offer));;
      ret (Some (WaitLookup (po_transfer_id offer) (Some own)))
  | _ => ret None
  end.

(** [wait_existing_decision]. *)
Definition step_wait (tasks : list Task) (timeout : bool) (task : Task) : IO (option Task) :=
  match task with
  | WaitLookup id own =>
      i ← get;
      ret (Some (match decisions i !! id with
                 | Some chan => Waiting id own chan
                 | None => match settled i !! id with
                           | Some s => Submitted id (settled_to_decision s)
                           | None => Submitted id (OfferDeclined "no-response")
                           end
                 end))
  | Waiting id own chan =>
      i ← get;
      match decision_chans i !! chan ≫= chan_value with
      | Some true => ret (Some (Submitted id OfferAccepted))
      | Some false => ret (Some (WaitDiscard id own DropPending "receiver-declined"))
      | None =>
          if negb (map_values_contain chan (decisions i)) &&
             negb (existsb (holds_decision_sender chan) tasks)
          then ret (Some (WaitDiscard id own DropPending "receiver-declined"))
          else if timeout then ret (Some (WaitDiscard id own DropPending "no-response"))
          else ret None
      end
  | WaitDiscard id own stage reason =>
      next ← discard_stage tasks id stage;
      ret (Some (match next with
                 | Some stage => WaitDiscard id own stage reason
                 | None => Submitted id (OfferDeclined reason)
                 end))
  | _ => ret None
  end.

(** [respond]. *)
Definition step_respond (tasks : list Task) (task : Task) : IO (option Task) :=
  match task with
  | RespondSettled id accepted =>
      i ← get;
      ret (Some (match settled i !! id with
                 | Some (SettledAccepted (Some auth)) => Responded id (Ok (Some auth))
                 | _ => RespondPending id accepted
                 end))
  | RespondPending id accepted =>
      i ← get;
      ret (Some (match pending i !! id with
                 | None => Responded id (Err Unknown)
                 | Some entry => if accepted then AcceptLookup id true
                                 else DeclineLookup id (po_sender_endpoint_id entry)
                 end))
  | DeclineLookup id sender =>
      i ← get;
      ret (Some (match decisions i !! id with
                 | Some chan => DeclineSend id sender chan
                 | None => Responded id (Err Unknown)
                 end))
  | DeclineSend id sender chan =>
      send_decision tasks chan false;;
      ret (Some (DeclineDiscard id sender chan DropPending))
  | DeclineDiscard id sender chan stage =>
      next ← discard_stage tasks id stage;
      ret (Some (match next with
                 | Some stage => DeclineDiscard id sender chan stage
                 | None => DeclineRecord id sender chan
                 end))
  | DeclineRecord id sender chan =>
      in_cooldown (Cooldown.record_decline cfg sender);;
      ret (Some (DeclineSettle id chan))
  | DeclineSettle id _ =>
      settle id (SettledDeclined "receiver-declined");;
      ret (Some (Responded id (Ok None)))
  | _ => ret None
  end.

(** [accept_live]. *)
Definition step_accept (tasks : list Task) (task : Task) : IO (option Task) :=
  match task with
  | AcceptLookup id then_wait =>
      i ← get;
      ret (Some (match decisions i !! id with
                 | Some chan => AcceptAuths id chan then_wait
                 | None => Responded id (Err Unknown)
                 end))
  | AcceptAuths id chan then_wait =>
      i ← get;
      modify (on_auth_chans <[next_chan i := {| chan_for := id; chan_value := None |}]>);;
      modify bump_chan;;
      modify (on_auths <[id := next_chan i]>);;
      ret (Some (AcceptSend id chan (next_chan i) then_wait))
  | AcceptSend id chan _ then_wait =>
      sent ← send_decision tasks chan true;
      ret (Some (if sent : bool then (if then_wait then AuthSettled id else AcceptedLive id)
                 else AcceptRollback id chan))
  | AcceptRollback id _ =>
      remove_auth id;;
      ret (Some (Responded id (Err SenderGone)))
  | _ => ret None
  end.

(** [wait_for_authorization]. *)
Definition step_authorization (timeout : bool) (task : Task) : IO (option Task) :=
  match task with
  | AuthSettled id =>
      i ← get;
      ret (Some (match settled i !! id with
                 | Some (SettledAccepted (Some auth)) => Responded id (Ok (Some auth))
                 | _ => AuthSubscribe id
                 end))
  | AuthSubscribe id =>
      i ← get;
      ret (Some (match auths i !! id with
                 | Some chan => AuthWaiting id chan
                 | None => Responded id (Err Unknown)
                 end))
  | AuthWaiting id chan =>
      i ← get;
      match auth_chans i !! chan ≫= chan_value with
      | Some auth => ret (Some (AuthDropPending id auth))
      | None =>
          if negb (map_values_contain chan (auths i)) then ret (Some (AuthAbort id))
          else if timeout then ret (Some (AuthAbort id))
          else ret None
      end
  | AuthDropPending id auth => remove_pending id;; ret (Some (AuthDropWaiter id auth))
  | AuthDropWaiter id auth => remove_auth id;; ret (Some (AuthSettle id auth))
  | AuthSettle id auth =>
      settle id (SettledAccepted (Some auth));;
      ret (Some (Responded id (Ok (Some auth))))
  | AuthAbort id =>
      remove_auth id;;
      ret (Some (Responded id (Err AuthorizationTimeout)))
  | _ => ret None
  end.

(** [deliver_authorization]. *)
Definition step_deliver (tasks : list Task) (task : Task) : IO (option Task) :=
  match task with
  | DeliverSettled id auth =>
      i ← get;
      ret (Some (match settled i !! id with
                 | Some (SettledAccepted (Some existing)) => Delivered id (str_eqb existing auth)
                 | _ => DeliverSend id auth
                 end))
  | DeliverSend id auth =>
      i ← get;
      match auths i !! id with
      | Some chan => sent ← send_auth tasks chan auth; ret (Some (Delivered id sent))
      | None => ret (Some (Delivered id false))
      end
  | _ => ret None
  end.

(** The pending offers of one sender. *)
Definition pending_from (endpoint_id : string) (i : TargetedOfferInbox) : list string :=
  (λ kr : string * PendingTargetedOffer, po_transfer_id kr.2) <$>
    select_where (λ _ entry, str_eqb (po_sender_endpoint_id entry) endpoint_id) (pending i).

(** [discard_from] and [discard]. *)
Definition step_discard (tasks : list Task) (task : Task) : IO (option Task) :=
  match task with
  | DiscardFrom endpoint_id =>
      i ← get;
      ret (Some (Discarding (pending_from endpoint_id i) DropPending))
  | Discarding [] _ => ret (Some Discarded)
  | Discarding (id :: ids) stage =>
      next ← discard_stage tasks id stage;
      ret (Some (match next with
                 | Some stage => Discarding (id :: ids) stage
                 | None => Discarding ids DropPending
                 end))
  | _ => ret None
  end.

(** One section of any task. *)
Definition step_task (tasks : list Task) (timeout : bool) (task : Task) : IO (option Task) :=
  match task with
  | SubmitCooldown _ | SubmitSettled _ | SubmitProbe _ | SubmitInsert _
  | SubmitWaiter _ _ => step_submit task
  | WaitLookup _ _ | Waiting _ _ _ | WaitDiscard _ _ _ _ => step_wait tasks timeout task
  | RespondSettled _ _ | RespondPending _ _ | DeclineLookup _ _ | DeclineSend _ _ _
  | DeclineDiscard _ _ _ _ | DeclineRecord _ _ _ | DeclineSettle _ _ => step_respond tasks task
  | AcceptLookup _ _ | AcceptAuths _ _ _ | AcceptSend _ _ _ _ | AcceptRollback _ _ => step_accept tasks task
  | AuthSettled _ | AuthSubscribe _ | AuthWaiting _ _ | AuthDropPending _ _
  | AuthDropWaiter _ _ | AuthSettle _ _ | AuthAbort _ => step_authorization timeout task
  | DeliverSettled _ _ | DeliverSend _ _ => step_deliver tasks task
  | DiscardFrom _ | Discarding _ _ => step_discard tasks task
  | Submitted _ _ | Responded _ _ | Delivered _ _ | AcceptedLive _ | Discarded => ret None
  end.

(** [list] and [get_pending]. *)
Definition list_pending : IO (list PendingTargetedOffer) :=
  i ← get; ret ((map_to_list (pending i)).*2).
Definition get_pending (id : string) : IO (option PendingTargetedOffer) :=
  i ← get; ret (pending i !! id).
Definition is_settled (id : string) : IO bool :=
  i ← get; ret (bool_decide (is_Some (settled i !! id))).
Definition settled_authorization (id : string) : IO (option string) :=
  i ← get; ret (match settled i !! id with
                | Some (SettledAccepted (Some auth)) => Some auth
                | _ => None
                end).
End Step.

(** ** Interleavings *)

Record World : Type := {
  inbox : TargetedOfferInbox;
  running : gmap nat Task;
  ticks : nat;                         (* position in the environment *)
  user_accepts : gset string           (* transfers the local user has accepted *)
}.

Definition world_new : World :=
  {| inbox := inbox_new; running := ∅; ticks := 0; user_accepts := ∅ |}.

(** The calls that enter the inbox. *)
Definition entry_point (task : Task) : bool :=
  match task with
  | SubmitCooldown _ | RespondSettled _ _ | AcceptLookup _ false | AuthSettled _
  | DeliverSettled _ _ | DiscardFrom _ | Discarding _ DropPending => true
  | _ => false
  end.

(** The transfer that a call accepts on the user's behalf. *)
Definition accepting (task : Task) : option string :=
  match task with
  | RespondSettled id true | AcceptLookup id _ => Some id
  | _ => None
  end.

Definition tasks_of (w : World) : list Task := (map_to_list (running w)).*2.

Definition advance `{Env} (cfg : Cooldown.Config) (max_pending : Z) (timeout : bool) (tid : nat)
    (task : Task) (w : World) : World :=
  match step_task cfg max_pending (tasks_of w) timeout task (inbox w) (ticks w) with
  | (Ok (Some task'), i, n) =>
      {| inbox := i; running := <[tid := task']> (running w); ticks := n;
         user_accepts := user_accepts w |}
  | (_, i, n) => {| inbox := i; running := running w; ticks := n; user_accepts := user_accepts w |}
  end.

Inductive wstep `{Env} (cfg : Cooldown.Config) (max_pending : Z) : World → World → Prop :=
| wstep_call w tid task :
    running w !! tid = None → entry_point task = true →
    wstep cfg max_pending w
      {| inbox := inbox w; running := <[tid := task]> (running w); ticks := ticks w;
         user_accepts := match accepting task with
                         | Some id => {[id]} ∪ user_accepts w
                         | None => user_accepts w
                         end |}
| wstep_run w tid task timeout :
    running w !! tid = Some task →
    wstep cfg max_pending w (advance cfg max_pending timeout tid task w)
| wstep_drop w tid :
    wstep cfg max_pending w
      {| inbox := inbox w; running := delete tid (running w); ticks := ticks w;
         user_accepts := user_accepts w |}.

(** ** Specifications *)

(** The pending map: keyed by transfer, one offer per sender, bounded. *)
Record pending_ok (max_pending : Z) (p : gmap string PendingTargetedOffer) : Prop := {
  pending_keyed : ∀ id o, p !! id = Some o → po_transfer_id o = id;
  pending_one_per_sender : ∀ id id' o o', p !! id = Some o → p !! id' = Some o' →
    po_sender_endpoint_id o = po_sender_endpoint_id o' → id = id';
  pending_bounded : Z.of_nat (size p) ≤ Z.max 0 max_pending
}.

Definition chan_is (i : TargetedOfferInbox) (chan : nat) (id : string) : Prop :=
  ∃ ch, decision_chans i !! chan = Some ch ∧ chan_for ch = id.

(** Channels never change hands. *)
Definition chans_kept (i i' : TargetedOfferInbox) : Prop :=
  map_lift (λ ch ch', chan_for ch' = chan_for ch) (decision_chans i) (decision_chans i').

(** Every trace of an acceptance goes back to a transfer the user accepted. *)
Record consent_ok (accepts : gset string) (i : TargetedOfferInbox) : Prop := {
  consent_decisions : ∀ id c, decisions i !! id = Some c → chan_is i c id;
  consent_values : ∀ c ch, decision_chans i !! c = Some ch → chan_value ch = Some true →
    chan_for ch ∈ accepts;
  consent_auths : ∀ id c, auths i !! id = Some c → id ∈ accepts;
  consent_settled : ∀ id a, settled i !! id = Some (SettledAccepted a) → id ∈ accepts;
  consent_fresh : ∀ c, (next_chan i ≤ c)%nat → decision_chans i !! c = None
}.

Definition task_ok (accepts : gset string) (i : TargetedOfferInbox) (task : Task) : Prop :=
  match task with
  | SubmitWaiter offer own => chan_is i own (po_transfer_id offer)
  | Waiting id _ chan => chan_is i chan id
  | Submitted id OfferAccepted => id ∈ accepts
  | RespondSettled id true | RespondPending id true | AcceptLookup id _ => id ∈ accepts
  | AcceptAuths id chan _ | AcceptSend id chan _ _ => id ∈ accepts ∧ chan_is i chan id
  | AuthWaiting id _ | AuthDropPending id _ | AuthDropWaiter id _ | AuthSettle id _ => id ∈ accepts
  | _ => True
  end.

Definition world_ok (max_pending : Z) (w : World) : Prop :=
  pending_ok max_pending (pending (inbox w)) ∧
  consent_ok (user_accepts w) (inbox w) ∧
  ∀ tid task, running w !! tid = Some task → task_ok (user_accepts w) (inbox w) task.

(** ** Lemmas *)

#[global] Instance chan_for_preorder {A} :
  PreOrder (λ ch ch' : Channel A, chan_for ch' = chan_for ch).
Proof. split; [by intros ch | intros x y z; congruence]. Qed.

#[global] Instance chans_kept_preorder : PreOrder chans_kept.
Proof. unfold chans_kept. split; [intros i | intros i i' i'']; [reflexivity | apply transitivity]. Qed.

Lemma chans_kept_same i i' : decision_chans i' = decision_chans i → chans_kept i i'.
Proof. unfold chans_kept. by intros ->. Qed.

Lemma chan_is_kept i i' c id : chans_kept i i' → chan_is i c id → chan_is i' c id.
Proof. intros Hk (ch & Hc & <-). destruct (Hk c ch Hc) as (ch' & Hc' & <-). by exists ch'. Qed.

Lemma task_ok_kept accepts accepts' i i' task :
  chans_kept i i' → accepts ⊆ accepts' → task_ok accepts i task → task_ok accepts' i' task.
Proof.
  intros Hk Hs. destruct task; simpl; try done;
    try (repeat case_match; try done; by intros; apply Hs);
    try (by apply chan_is_kept); intros [? ?]; (split; [by apply Hs | by eapply chan_is_kept]).
Qed.

Lemma pending_ok_delete cap p id : pending_ok cap p → pending_ok cap (delete id p).
Proof.
  intros [H1 H2 H3]. split.
  - intros k o Hk. apply lookup_delete_Some in Hk as [_ Hk]. by apply H1.
  - intros k k' o o' Hk Hk'. apply lookup_delete_Some in Hk as [_ Hk], Hk' as [_ Hk'].
    by apply H2.
  - assert (delete id p ⊆ p) as Hsub by apply delete_subseteq.
    apply map_subseteq_size in Hsub. lia.
Qed.

Lemma pending_ok_insert cap p offer :
  exists_where (λ _ entry, str_eqb (po_sender_endpoint_id entry) (po_sender_endpoint_id offer)) p = false →
  Z.of_nat (size p) < cap → p !! po_transfer_id offer = None →
  pending_ok cap p → pending_ok cap (<[po_transfer_id offer := offer]> p).
Proof.
  intros Hs Hsz Hn [H1 H2 H3].
  assert (∀ k o, p !! k = Some o → po_sender_endpoint_id o ≠ po_sender_endpoint_id offer) as Hne.
  { intros k o Hk E. apply not_true_iff_false in Hs. apply Hs, exists_where_true.
    exists k, o. split; [done|]. by apply str_eqb_eq. }
  split.
  - intros k o Hk. apply lookup_insert_Some in Hk as [[<- <-]|[_ Hk]]; [done | by apply H1].
  - intros k k' o o' Hk Hk' E.
    apply lookup_insert_Some in Hk as [[<- <-]|[_ Hk]];
      apply lookup_insert_Some in Hk' as [[<- <-]|[_ Hk']]; [done| | |by eapply H2].
    + by destruct (Hne k' o' Hk').
    + by destruct (Hne k o Hk).
  - rewrite map_size_insert_None by done. lia.
Qed.

Section StepLemmas.
Context `{Env} (cfg : Cooldown.Config) (max_pending : Z).

Lemma wp_in_cooldown {A} (m : M Cooldown.CooldownInner string A) i n Q :
  (∀ r c n', Q r (set_cooldown c i) n') → wp (in_cooldown m) i n Q.
Proof. intros HQ. apply wp_zoom. unfold wp. by destruct (m (cooldown i) n) as [[??]?]. Qed.

Lemma wp_send_decision tasks chan value i n (Q : result bool string → TargetedOfferInbox → nat → Prop) :
  Q (Ok false) i n →
  (∀ ch, decision_chans i !! chan = Some ch →
     Q (Ok true) (on_decision_chans
        <[chan := {| chan_for := chan_for ch; chan_value := Some value |}]> i) n) →
  wp (send_decision tasks chan value) i n Q.
Proof.
  intros H1 H2. apply wp_bind, wp_get. destruct (decision_chans i !! chan) as [ch|] eqn:E; [|by apply wp_ret].
  case_match; [|by apply wp_ret]. apply wp_bind, wp_modify, wp_ret. by apply H2.
Qed.

Lemma wp_send_auth tasks chan value i n (Q : result bool string → TargetedOfferInbox → nat → Prop) :
  (∀ ok f, Q (Ok ok) (on_auth_chans f i) n) → wp (send_auth tasks chan value) i n Q.
Proof.
  assert (on_auth_chans (λ m, m) i = i) as Hid by by destruct i.
  intros HQ. apply wp_bind, wp_get. destruct (auth_chans i !! chan) as [ch|];
    [case_match|]; try (by apply wp_ret; rewrite <- Hid).
  apply wp_bind, wp_modify, wp_ret. apply HQ.
Qed.

Lemma consent_send accepts i chan ch value :
  decision_chans i !! chan = Some ch → (value = true → chan_for ch ∈ accepts) →
  consent_ok accepts i →
  let i' := on_decision_chans <[chan := {| chan_for := chan_for ch; chan_value := Some value |}]> i in
  consent_ok accepts i' ∧ chans_kept i i'.
Proof.
  intros Hc Hv [H1 H2 H3 H4 H5] i'.
  assert (chans_kept i i') as Hk.
  { apply map_lift_insert; [apply _|]. intros old Hold. by simplify_eq. }
  split; [|done]. split; simpl; try done.
  - intros id c Hd. eapply chan_is_kept; [exact Hk|]. by apply H1.
  - intros c ch' Hc' Hval. apply lookup_insert_Some in Hc' as [[<- <-]|[_ Hc']]; [|by eapply H2].
    simpl in *. apply Hv. congruence.
  - intros c Hle. rewrite lookup_insert_ne; [by apply H5|]. intros ->. by rewrite H5 in Hc.
Qed.

(** The three stages of [discard] keep both invariants. *)
Lemma wp_discard_stage accepts cap tasks id stage i n
    (Q : result (option DiscardStage) string → TargetedOfferInbox → nat → Prop) :
  consent_ok accepts i → pending_ok cap (pending i) →
  (∀ next i' n', consent_ok accepts i' → pending_ok cap (pending i') → chans_kept i i' →
     Q (Ok next) i' n') →
  wp (discard_stage tasks id stage) i n Q.
Proof.
  intros Hc Hp HQ. destruct stage; simpl.
  - apply wp_bind, wp_modify, wp_ret, HQ; [by destruct Hc| by apply pending_ok_delete | by apply chans_kept_same].
  - apply wp_bind, wp_get. destruct (decisions i !! id) as [chan|] eqn:E;
      [|by apply wp_ret, HQ; [..|apply chans_kept_same]].
    assert (consent_ok accepts (on_decisions (delete id) i)) as Hc'.
    { destruct Hc as [H1 H2 H3 H4 H5]. split; try done. simpl. intros k c Hk.
      apply lookup_delete_Some in Hk as [_ Hk]. by apply H1. }
    apply wp_bind, wp_modify, wp_bind, wp_send_decision;
      [by apply wp_ret, HQ; [..|apply chans_kept_same]|].
    intros ch Hch. apply wp_ret.
    destruct (consent_send accepts (on_decisions (delete id) i) chan ch false) as [H1 H2];
      [done|done|done|]. by apply HQ.
  - apply wp_bind, wp_modify, wp_ret, HQ; [|done|by apply chans_kept_same].
    destruct Hc as [H1 H2 H3 H4 H5]. split; try done. simpl. intros k c Hk.
    apply lookup_delete_Some in Hk as [_ Hk]. by eapply H3.
Qed.

(** The refusals leave room for one more offer of a new sender. *)
Lemma refusal_None i offer :
  refusal max_pending i offer = None →
  exists_where (λ _ entry, str_eqb (po_sender_endpoint_id entry) (po_sender_endpoint_id offer))
    (pending i) = false ∧ Z.of_nat (size (pending i)) < max_pending.
Proof. unfold refusal. case_match; [done|]. destruct (Z.leb_spec max_pending (Z.of_nat (size (pending i)))); done. Qed.
End StepLemmas.

(** *** Every critical section keeps the invariants *)

Section StepInvariant.
Context `{Env} (cfg : Cooldown.Config) (max_pending : Z).

(** What a task may assume and must establish. *)
Definition step_post (accepts : gset string) (i : TargetedOfferInbox)
    (r : result (option Task) string) (i' : TargetedOfferInbox) (_ : nat) : Prop :=
  consent_ok accepts i' ∧ pending_ok max_pending (pending i') ∧ chans_kept i i' ∧
  ∀ task', r = Ok (Some task') → task_ok accepts i' task'.

Lemma step_post_same accepts i task n :
  consent_ok accepts i → pending_ok max_pending (pending i) →
  (∀ task', task = Some task' → task_ok accepts i task') →
  step_post accepts i (Ok task) i n.
Proof. intros Hc Hp Ht. split; [done|]. split; [done|]. split; [by apply chans_kept_same|]. intros ? [= ->]. by apply Ht. Qed.

(** A section that leaves the decision channels alone. *)
Lemma step_post_other accepts i i' task n :
  decision_chans i' = decision_chans i →
  consent_ok accepts i' → pending_ok max_pending (pending i') →
  task_ok accepts i' task → step_post accepts i (Ok (Some task)) i' n.
Proof.
  intros E Hc Hp Ht. split; [done|]. split; [done|]. split; [by apply chans_kept_same|]. by intros ? [= <-].
Qed.

(** The invariant does not depend on the cool-down or on the pending map. *)
Lemma consent_ok_cooldown accepts i c : consent_ok accepts i → consent_ok accepts (set_cooldown c i).
Proof. by intros [H1 H2 H3 H4 H5]. Qed.
Lemma consent_ok_pending accepts i f : consent_ok accepts i → consent_ok accepts (on_pending f i).
Proof. by intros [H1 H2 H3 H4 H5]. Qed.
Lemma consent_ok_auth_chans accepts i f : consent_ok accepts i → consent_ok accepts (on_auth_chans f i).
Proof. by intros [H1 H2 H3 H4 H5]. Qed.

Lemma consent_ok_delete_auth accepts i id :
  consent_ok accepts i → consent_ok accepts (on_auths (delete id) i).
Proof.
  intros [H1 H2 H3 H4 H5]. split; try done. simpl. intros k c Hk.
  apply lookup_delete_Some in Hk as [_ Hk]. by eapply H3.
Qed.

Lemma consent_ok_settle accepts i id s :
  (∀ a, s = SettledAccepted a → id ∈ accepts) →
  consent_ok accepts i → consent_ok accepts (on_settled <[id := s]> i).
Proof.
  intros Hs [H1 H2 H3 H4 H5]. split; try done. simpl. intros k a Hk.
  apply lookup_insert_Some in Hk as [[<- Ha]|[_ Hk]]; [by eapply Hs | by eapply H4].
Qed.

(** A new decision channel has no value. *)
Lemma consent_ok_new_chan accepts i id :
  consent_ok accepts i →
  let i' := bump_chan (on_decision_chans <[next_chan i := {| chan_for := id; chan_value := None |}]> i) in
  consent_ok accepts i' ∧ chans_kept i i' ∧ chan_is i' (next_chan i) id.
Proof.
  intros [H1 H2 H3 H4 H5] i'.
  assert (chans_kept i i') as Hk.
  { apply map_lift_insert; [apply _|]. intros old Hold. by rewrite H5 in Hold. }
  split; [|split; [done|]].
  - split; simpl; try done.
    + intros k c Hd. eapply chan_is_kept; [exact Hk|]. by apply H1.
    + intros c ch Hc Hv. apply lookup_insert_Some in Hc as [[<- <-]|[_ Hc]]; [done | by eapply H2].
    + intros c Hle. rewrite lookup_insert_ne by lia. apply H5. lia.
  - eexists. simpl. rewrite lookup_insert_eq. done.
Qed.

(** The acceptance path makes an authorization channel instead. *)
Lemma consent_ok_accept accepts i id :
  id ∈ accepts → consent_ok accepts i →
  let i' := on_auths <[id := next_chan i]>
    (bump_chan (on_auth_chans <[next_chan i := {| chan_for := id; chan_value := None |}]> i)) in
  consent_ok accepts i'.
Proof.
  intros Hid [H1 H2 H3 H4 H5] i'. split; simpl; try done.
  - intros k c Hk. apply lookup_insert_Some in Hk as [[<- _]|[_ Hk]]; [done | by eapply H3].
  - intros c Hle. apply H5. lia.
Qed.

(** Tasks that only read the maps. *)
Ltac step_reads :=
  intros ? [= <-]; simpl; repeat case_match; simplify_eq/=; try done; eauto; try (split; by eauto).

Lemma step_submit_insert accepts tasks timeout offer i n :
  consent_ok accepts i → pending_ok max_pending (pending i) →
  wp (step_task cfg max_pending tasks timeout (SubmitInsert offer)) i n (step_post accepts i).
Proof.
  intros Hc Hp. apply wp_bind, wp_get.
  destruct (pending i !! po_transfer_id offer) eqn:Epend; [apply wp_ret, step_post_same; [done..|by intros ? [= <-]]|].
  destruct (refusal max_pending i offer) as [d|] eqn:Er.
  { apply wp_ret, step_post_same; [done..|]. intros ? [= <-]. unfold refusal in Er.
    repeat case_match; by simplify_eq. }
  apply refusal_None in Er as [Hs Hsz].
  destruct (consent_ok_new_chan accepts i (po_transfer_id offer) Hc) as (Hc' & Hk & Hch).
  apply wp_bind, wp_modify, wp_bind, wp_modify, wp_bind, wp_modify, wp_ret.
  split; [by apply consent_ok_pending|]. split; [by apply pending_ok_insert|].
  split; [done|]. by intros ? [= <-].
Qed.

Lemma step_accept_auths accepts tasks timeout id chan then_wait i n :
  consent_ok accepts i → pending_ok max_pending (pending i) → id ∈ accepts → chan_is i chan id →
  wp (step_task cfg max_pending tasks timeout (AcceptAuths id chan then_wait)) i n (step_post accepts i).
Proof.
  intros Hc Hp Hid Hch. apply wp_bind, wp_get, wp_bind, wp_modify, wp_bind, wp_modify, wp_bind, wp_modify, wp_ret.
  apply step_post_other; [done | by apply consent_ok_accept | done | by split].
Qed.

Lemma step_accept_send accepts tasks timeout id chan auth_chan then_wait i n :
  consent_ok accepts i → pending_ok max_pending (pending i) → id ∈ accepts → chan_is i chan id →
  wp (step_task cfg max_pending tasks timeout (AcceptSend id chan auth_chan then_wait)) i n
    (step_post accepts i).
Proof.
  intros Hc Hp Hid (ch & Hch & Hfor). apply wp_bind, wp_send_decision.
  - apply wp_ret, step_post_same; [done..|]. by intros ? [= <-].
  - intros ch' Hch'. assert (ch' = ch) as -> by congruence. apply wp_ret.
    destruct (consent_send accepts i chan ch true) as [Hc' Hk]; [done|by rewrite Hfor|done|].
    split; [done|]. split; [done|]. split; [done|]. intros ? [= <-]. by destruct then_wait.
Qed.

(** The tasks that work through the stages of [discard]. *)
Lemma step_discarding accepts tasks id stage (k : option DiscardStage → Task) i n :
  consent_ok accepts i → pending_ok max_pending (pending i) →
  (∀ next i', task_ok accepts i' (k next)) →
  wp (next ← discard_stage tasks id stage; ret (Some (k next))) i n (step_post accepts i).
Proof.
  intros Hc Hp Hk. apply wp_bind. eapply wp_discard_stage; [done|done|].
  intros next i' n' Hc' Hp' Hkept. apply wp_ret. split; [done|]. split; [done|]. split; [done|].
  intros ? [= <-]. apply Hk.
Qed.

(** The tasks that make one change outside the decision channels. *)
Ltac step_one_change := apply wp_bind, wp_modify, wp_ret, step_post_other; [done| | |done];
  first [ done | by apply consent_ok_pending | by apply consent_ok_delete_auth
        | by apply pending_ok_delete | by apply consent_ok_settle ].

(** The tasks of another function are not touched. *)
Ltac step_easy := cbn [step_submit step_wait step_respond step_accept step_authorization step_deliver step_discard];
  try (by apply wp_ret, step_post_same);
  try (apply wp_bind, wp_get, wp_ret, step_post_same; [done..|]; by step_reads);
  try step_one_change.

Lemma step_submit_keeps accepts task i n :
  consent_ok accepts i → pending_ok max_pending (pending i) → task_ok accepts i task →
  wp (step_submit max_pending task) i n (step_post accepts i).
Proof.
  intros Hc Hp Ht. pose proof Hc as [C1 _ _ C4 _].
  destruct task; try (by apply (step_submit_insert accepts [] false)); step_easy.
  - (* SubmitCooldown *)
    apply wp_bind, wp_in_cooldown. intros [cooling|e] c n'.
    + apply wp_ret, step_post_other; [done|by apply consent_ok_cooldown|done|by destruct cooling].
    + split; [by apply consent_ok_cooldown|]. split; [done|]. split; [by apply chans_kept_same|done].
  - (* SubmitSettled *)
    apply wp_bind, wp_get, wp_ret, step_post_same; [done..|]. intros ? [= <-].
    destruct (settled i !! po_transfer_id offer) as [[a|reason]|] eqn:Es; simpl; [by eapply C4|done..].
  - (* SubmitProbe *)
    apply wp_bind, wp_get, wp_ret, step_post_same; [done..|]. intros ? [= <-].
    destruct (pending i !! _); [by case_match|]. unfold refusal.
    destruct (exists_where _ _); [done|]. by destruct (_ <=? _).
  - (* SubmitWaiter *)
    apply wp_bind, wp_modify, wp_bind, wp_in_cooldown. intros r c n'.
    assert (consent_ok accepts (set_cooldown c (on_decisions <[po_transfer_id offer := own]> i))) as Hc'.
    { split; simpl; try apply Hc. intros k ch Hk.
      apply lookup_insert_Some in Hk as [[<- <-]|[_ Hk]]; [exact Ht | by apply C1]. }
    destruct r as [u|e]; [apply wp_ret, step_post_other; [reflexivity|exact Hc'|exact Hp|done]|].
    split; [done|]. split; [done|]. split; [by apply chans_kept_same | done].
Qed.

Lemma step_wait_keeps accepts tasks timeout task i n :
  consent_ok accepts i → pending_ok max_pending (pending i) → task_ok accepts i task →
  wp (step_wait tasks timeout task) i n (step_post accepts i).
Proof.
  intros Hc Hp Ht. pose proof Hc as [C1 C2 _ C4 _]. destruct task; step_easy.
  - (* WaitLookup *)
    apply wp_bind, wp_get, wp_ret, step_post_same; [done..|]. intros ? [= <-].
    destruct (decisions i !! id) as [chan|] eqn:Ed; [by apply C1|].
    destruct (settled i !! id) as [[a|reason]|] eqn:Es; simpl; [by eapply C4|done..].
  - (* Waiting *)
    apply wp_bind, wp_get. destruct Ht as (ch & Hch & <-). rewrite Hch. simpl.
    destruct (chan_value ch) as [[]|] eqn:Ev; repeat case_match; apply wp_ret, step_post_same;
      try done; intros ? [= <-]; simpl; try done. by eapply C2.
  - (* WaitDiscard *)
    apply (step_discarding accepts tasks id stage (λ next, match next with
      | Some stage => WaitDiscard id own stage reason
      | None => Submitted id (OfferDeclined reason) end)); [done|done|by intros []].
Qed.

Lemma step_respond_keeps accepts tasks task i n :
  consent_ok accepts i → pending_ok max_pending (pending i) → task_ok accepts i task →
  wp (step_respond cfg tasks task) i n (step_post accepts i).
Proof.
  intros Hc Hp Ht. pose proof Hc as [C1 _ _ C4 _]. destruct task; step_easy.
  - (* DeclineSend *)
    apply wp_bind, wp_send_decision; [by apply wp_ret, step_post_same; [..|intros ? [= <-]]|].
    intros ch Hch. apply wp_ret. destruct (consent_send accepts i chan ch false) as [Hc' Hk]; [done..|].
    split; [done|]. split; [done|]. split; [done|]. by intros ? [= <-].
  - (* DeclineDiscard *)
    apply (step_discarding accepts tasks id stage (λ next, match next with
      | Some stage => DeclineDiscard id sender chan stage
      | None => DeclineRecord id sender chan end)); [done|done|by intros []].
  - (* DeclineRecord *)
    apply wp_bind, wp_in_cooldown. intros [u|e] c n'.
    + by apply wp_ret, step_post_other; [|apply consent_ok_cooldown|..].
    + split; [by apply consent_ok_cooldown|]. split; [done|]. split; [by apply chans_kept_same|done].
Qed.

Lemma step_accept_keeps accepts tasks task i n :
  consent_ok accepts i → pending_ok max_pending (pending i) → task_ok accepts i task →
  wp (step_accept tasks task) i n (step_post accepts i).
Proof.
  intros Hc Hp Ht. pose proof Hc as [C1 _ _ _ _].
  destruct task; try (destruct Ht; by apply (step_accept_auths accepts tasks false));
    try (destruct Ht; by apply (step_accept_send accepts tasks false)); step_easy.
Qed.

Lemma step_authorization_keeps accepts timeout task i n :
  consent_ok accepts i → pending_ok max_pending (pending i) → task_ok accepts i task →
  wp (step_authorization timeout task) i n (step_post accepts i).
Proof.
  intros Hc Hp Ht. pose proof Hc as [_ _ C3 C4 _]. destruct task; step_easy.
  (* AuthWaiting *)
  apply wp_bind, wp_get. repeat case_match; apply wp_ret, step_post_same; try done;
    by intros ? [= <-].
Qed.

Lemma step_deliver_keeps accepts tasks task i n :
  consent_ok accepts i → pending_ok max_pending (pending i) → task_ok accepts i task →
  wp (step_deliver tasks task) i n (step_post accepts i).
Proof.
  intros Hc Hp Ht. destruct task; step_easy.
  (* DeliverSend *)
  apply wp_bind, wp_get. case_match; [|by apply wp_ret, step_post_same; [..|intros ? [= <-]]].
  apply wp_bind, wp_send_auth. intros ok f.
  apply wp_ret, step_post_other; [done|by apply consent_ok_auth_chans|done|done].
Qed.

Lemma step_discard_keeps accepts tasks task i n :
  consent_ok accepts i → pending_ok max_pending (pending i) → task_ok accepts i task →
  wp (step_discard tasks task) i n (step_post accepts i).
Proof.
  intros Hc Hp Ht. destruct task; step_easy.
  destruct ids as [|id ids]; [by apply wp_ret, step_post_same; [..|intros ? [= <-]]|].
  apply (step_discarding accepts tasks id stage (λ next, match next with
    | Some stage => Discarding (id :: ids) stage
    | None => Discarding ids DropPending end)); [done|done|by intros []].
Qed.

Lemma step_task_keeps accepts tasks timeout task i n :
  consent_ok accepts i → pending_ok max_pending (pending i) → task_ok accepts i task →
  wp (step_task cfg max_pending tasks timeout task) i n (step_post accepts i).
Proof.
  intros Hc Hp Ht. unfold step_task.
  destruct task; first [ by apply step_submit_keeps | by apply step_wait_keeps
    | by apply step_respond_keeps | by apply step_accept_keeps | by apply step_authorization_keeps
    | by apply step_deliver_keeps | by apply step_discard_keeps | by apply wp_ret, step_post_same ].
Qed.
End StepInvariant.

(** *** Every interleaving keeps the invariants *)

Section WorldInvariant.
Context `{Env} (cfg : Cooldown.Config) (max_pending : Z).

Lemma consent_ok_mono accepts accepts' i :
  accepts ⊆ accepts' → consent_ok accepts i → consent_ok accepts' i.
Proof.
  intros Hs [H1 H2 H3 H4 H5]. split; try done; intros.
  - apply Hs. by eapply H2.
  - apply Hs. by eapply H3.
  - apply Hs. by eapply H4.
Qed.

Lemma entry_task_ok accepts i task :
  entry_point task = true → (∀ id, accepting task = Some id → id ∈ accepts) → task_ok accepts i task.
Proof.
  destruct task; try done; simpl.
  - intros _ Ha. destruct accepted; [by apply Ha | done].
  - intros _ Ha. by apply Ha.
Qed.

Lemma advance_keeps timeout tid task w :
  running w !! tid = Some task → world_ok max_pending w →
  world_ok max_pending (advance cfg max_pending timeout tid task w).
Proof.
  intros Htid (Hp & Hc & Ht).
  pose proof (step_task_keeps cfg max_pending (user_accepts w) (tasks_of w) timeout task (inbox w)
    (ticks w) Hc Hp (Ht tid task Htid)) as Hstep.
  unfold wp in Hstep. unfold advance.
  destruct (step_task _ _ _ _ _ _ _) as [[r i'] n']. destruct Hstep as (Hc' & Hp' & Hk & Hnew).
  assert (∀ tid0 t0, running w !! tid0 = Some t0 → task_ok (user_accepts w) i' t0) as Hold.
  { intros tid0 t0 H0. eapply task_ok_kept; [exact Hk|done|by eapply Ht]. }
  destruct r as [[task'|]|e]; (split; [done|]); (split; [done|]); simpl; try done.
  intros tid0 t0 H0. apply lookup_insert_Some in H0 as [[<- <-]|[_ H0]]; [by apply Hnew | by eapply Hold].
Qed.

Lemma wstep_keeps w w' : wstep cfg max_pending w w' → world_ok max_pending w → world_ok max_pending w'.
Proof.
  intros Hs Hok. destruct Hs as [w tid task Hn He|w tid task timeout Htid|w tid].
  - destruct Hok as (Hp & Hc & Ht).
    set (accepts' := match accepting task with Some id => {[id]} ∪ user_accepts w
                                             | None => user_accepts w end).
    assert (user_accepts w ⊆ accepts') as Hsub by (unfold accepts'; destruct (accepting task); set_solver).
    split; [done|]. split; [by eapply consent_ok_mono|]. simpl. intros tid0 t0 H0.
    apply lookup_insert_Some in H0 as [[<- <-]|[_ H0]].
    + apply entry_task_ok; [done|]. unfold accepts'. intros id ->. set_solver.
    + eapply task_ok_kept; [by apply chans_kept_same|exact Hsub|by eapply Ht].
  - by apply advance_keeps.
  - destruct Hok as (Hp & Hc & Ht). split; [done|]. split; [done|]. simpl. intros tid0 t0 H0.
    apply lookup_delete_Some in H0 as [_ H0]. by eapply Ht.
Qed.

Lemma world_new_ok : world_ok max_pending world_new.
Proof.
  split_and!; [split|split|]; simpl; intros *; try by rewrite lookup_empty.
  rewrite map_size_empty. lia.
Qed.

Lemma reachable_world_ok w : rtc (wstep cfg max_pending) world_new w → world_ok max_pending w.
Proof.
  intros Hr. assert (∀ w0, rtc (wstep cfg max_pending) w0 w → world_ok max_pending w0 →
                          world_ok max_pending w) as Hgen.
  { clear Hr. intros w0. induction 1 as [|w0 w1 w2 Hs _ IH]; [done|].
    intros Hok. apply IH. by eapply wstep_keeps. }
  apply (Hgen _ Hr), world_new_ok.
Qed.

(** Under every interleaving of calls, responses, timeouts and dropped
    connections, the inbox holds at most [max_pending] offers and at most one per
    sender, each under its own transfer id. *)
Theorem inbox_bounded (w : World) :
  rtc (wstep cfg max_pending) world_new w →
  Z.of_nat (size (pending (inbox w))) ≤ Z.max 0 max_pending ∧
  (∀ id o, pending (inbox w) !! id = Some o → po_transfer_id o = id) ∧
  (∀ id id' o o', pending (inbox w) !! id = Some o → pending (inbox w) !! id' = Some o' →
     po_sender_endpoint_id o = po_sender_endpoint_id o' → id = id').
Proof. intros Hr. apply reachable_world_ok in Hr as ([H1 H2 H3] & _). done. Qed.

(** C39: no interleaving accepts an offer the user has not accepted: a
    submission answers [Accepted], an authorization waits for delivery, and an accepted
    result is cached only for transfers for which an accepting call has arrived. *)
Theorem inbox_accepts_need_consent (w : World) (id : string) :
  rtc (wstep cfg max_pending) world_new w →
  ((∃ tid, running w !! tid = Some (Submitted id OfferAccepted)) ∨
   is_Some (auths (inbox w) !! id) ∨
   (∃ a, settled (inbox w) !! id = Some (SettledAccepted a))) →
  id ∈ user_accepts w.
Proof.
  intros Hr. apply reachable_world_ok in Hr as (_ & [_ _ H3 H4 _] & Ht).
  intros [[tid Htid]|[[c Hc]|[a Ha]]]; [by apply (Ht tid _ Htid) | by eapply H3 | by eapply H4].
Qed.
End WorldInvariant.

(** ** Concrete runs *)

Inductive Move : Type :=
| MCall (tid : nat) (task : Task)
| MRun (tid : nat) (timeout : bool).

Definition play `{Env} (cfg : Cooldown.Config) (max_pending : Z) (w : World) (m : Move) : World :=
  match m with
  | MCall tid task =>
      match running w !! tid with
      | Some _ => w
      | None =>
          if entry_point task then
            {| inbox := inbox w; running := <[tid := task]> (running w); ticks := ticks w;
               user_accepts := match accepting task with
                               | Some id => {[id]} ∪ user_accepts w
                               | None => user_accepts w
                               end |}
          else w
      end
  | MRun tid timeout =>
      match running w !! tid with
      | Some task => advance cfg max_pending timeout tid task w
      | None => w
      end
  end.

Lemma play_steps `{Env} cfg max_pending w moves :
  rtc (wstep cfg max_pending) w (fold_left (play cfg max_pending) moves w).
Proof.
  revert w. induction moves as [|m moves IH]; intros w; [apply rtc_refl|]. simpl.
  assert (rtc (wstep cfg max_pending) w (play cfg max_pending w m)) as Hm.
  { destruct m as [tid task|tid timeout]; simpl.
    - destruct (running w !! tid) eqn:E; [apply rtc_refl|].
      destruct (entry_point task) eqn:Ee; [|apply rtc_refl].
      apply rtc_once. by apply wstep_call.
    - destruct (running w !! tid) as [task|] eqn:E; [|apply rtc_refl].
      apply rtc_once. by apply wstep_run. }
  etrans; [exact Hm | apply IH].
Qed.

Section Scenarios.
#[local] Existing Instance demo_text.
Definition inbox_env : Env := quiet_env 1000 (λ _, "u"%string).
#[local] Existing Instance inbox_env.

Definition demo_cfg : Cooldown.Config := Cooldown.new 60000 5.

Definition demo_offer : PendingTargetedOffer := {|
  po_transfer_id := "t1"; po_sender_endpoint_id := "alice"; po_receiver_endpoint_id := "bob";
  po_manifest_id := "m"; po_content_hash := "h"; po_transfer_name := "photos"; po_file_count := 1;
  po_total_size := 10; po_protocol_version := 3; po_received_at := 1000 |}%string.

Definition runs (tid k : nat) : list Move := replicate k (MRun tid false).

(** An offer is submitted, the user accepts, the sender delivers the authorization. *)
Definition accept_scenario : World :=
  fold_left (play demo_cfg 16)
    ([MCall 1 (SubmitCooldown demo_offer)] ++ runs 1 6 ++
     [MCall 2 (RespondSettled "t1" true)] ++ runs 2 7 ++ runs 1 2 ++
     [MCall 3 (DeliverSettled "t1" "auth")] ++ runs 3 2 ++ runs 2 4) world_new.

Lemma accept_scenario_outcome :
  running accept_scenario !! 1%nat = Some (Submitted "t1" OfferAccepted) ∧
  running accept_scenario !! 2%nat = Some (Responded "t1" (Ok (Some "auth"%string))) ∧
  pending (inbox accept_scenario) = ∅ ∧
  settled (inbox accept_scenario) !! "t1"%string = Some (SettledAccepted (Some "auth"%string)).
Proof. split_and!; vm_compute; reflexivity. Qed.

Lemma inbox_bounded_witness :
  Z.of_nat (size (pending (inbox (fold_left (play demo_cfg 16)
    ([MCall 1 (SubmitCooldown demo_offer)] ++ runs 1 6) world_new)))) ≤ Z.max 0 16.
Proof. apply (inbox_bounded demo_cfg 16 _ (play_steps demo_cfg 16 world_new _)). Defined.

Lemma inbox_accepts_need_consent_witness :
  running accept_scenario !! 1%nat = Some (Submitted "t1" OfferAccepted) ∧
  ("t1"%string ∈ user_accepts accept_scenario).
Proof.
  assert (running accept_scenario !! 1%nat = Some (Submitted "t1" OfferAccepted)) as Hrun
    by (vm_compute; reflexivity).
  split; [exact Hrun|].
  apply (inbox_accepts_need_consent demo_cfg 16 accept_scenario "t1"); [apply play_steps|].
  left. exists 1%nat. exact Hrun.
Defined.

(** A replay that arrives between the insertion of the offer and the registration of its
    decision channel. *)
Definition replay_race : World :=
  fold_left (play demo_cfg 16)
    ([MCall 1 (SubmitCooldown demo_offer)] ++ runs 1 4 ++
     [MCall 2 (SubmitCooldown demo_offer)] ++ runs 2 4 ++ runs 1 2) world_new.

(** A replay of a pending offer does not always join its wait. In a
    reachable world the offer is pending and undecided, its first submission still
    waits, the user has answered nothing, and yet the replay of the very same offer has
    been told that it was declined. *)
Theorem replay_can_be_declined_while_pending :
  ∃ w, rtc (wstep demo_cfg 16) world_new w ∧
    pending (inbox w) !! po_transfer_id demo_offer = Some demo_offer ∧
    user_accepts w = ∅ ∧ settled (inbox w) = ∅ ∧
    (∃ chan, running w !! 1%nat = Some (Waiting (po_transfer_id demo_offer) (Some chan) chan) ∧
       (decision_chans (inbox w) !! chan ≫= chan_value) = None) ∧
    running w !! 2%nat = Some (Submitted (po_transfer_id demo_offer) (OfferDeclined "no-response")).
Proof.
  exists replay_race. split; [apply play_steps|].
  split; [vm_compute; reflexivity|]. split; [vm_compute; reflexivity|].
  split; [vm_compute; reflexivity|]. split; [exists 0%nat; split; vm_compute; reflexivity|].
  vm_compute; reflexivity.
Qed.
End Scenarios.
