(* ===== verification/SecureSecret.v ===== *)
(** * [secure_secret.rs]: custody of protected secrets

    A protected secret is material in the platform's credential store and a row of
    [protected_secret_refs] that says what it is and whether it may be used. The two
    cannot be written atomically, so [SecretCustody] orders its writes and
    [reconcile] repairs at start-up what a crash left behind.

    The credential store is the trait [SecureSecretStore], here a class over the
    state [V] of the store; [SecureSecretStoreLaws] is what custody relies on, and
    the reference store of the crate is an instance. *)

From stdpp Require Import pretty.
From S2P Require Import Prelude Sql Errors.

(** ** Data *)

Definition SECRET_BYTES : nat := 32.
Definition HANDLE_NAMESPACE : string := "vnidrop".
Definition HANDLE_VERSION : string := "v1".

(** [SecretMaterial(Vec<u8>)]: a byte string. *)
Record SecretMaterial : Type := { material_bytes : string }.

#[global] Instance SecretMaterial_eq_dec : EqDecision SecretMaterial.
Proof. solve_decision. Defined.

Fixpoint all_zero (s : string) : bool :=
  match s with
  | EmptyString => true
  | String a s' => Ascii.eqb a Ascii.zero && all_zero s'
  end.

Definition secret_material_new (bytes : string) : result SecretMaterial VnidropError :=
  if negb (Nat.eqb (String.length bytes) SECRET_BYTES) || all_zero bytes
  then Err (SecureStorageCorrupted "protected secret has invalid key material")
  else Ok {| material_bytes := bytes |}.

(** [SecretHandle(String)]. *)
Abbreviation SecretHandle := string.

Inductive SecretKind : Type :=
| EndpointIdentity
| RelationshipGrant
| PairingEligibility
| TargetedAuthorizationSecret.

#[global] Instance SecretKind_eq_dec : EqDecision SecretKind.
Proof. solve_decision. Defined.

Definition kind_as_str (kind : SecretKind) : string :=
  match kind with
  | EndpointIdentity => "endpoint-identity"
  | RelationshipGrant => "relationship-grant"
  | PairingEligibility => "pairing-eligibility"
  | TargetedAuthorizationSecret => "targeted-authorization"
  end.

Definition kind_parse (value : string) : result SecretKind VnidropError :=
  if str_eqb value "endpoint-identity" then Ok EndpointIdentity
  else if str_eqb value "relationship-grant" then Ok RelationshipGrant
  else if str_eqb value "pairing-eligibility" then Ok PairingEligibility
  else if str_eqb value "targeted-authorization" then Ok TargetedAuthorizationSecret
  else Err (SecureStorageCorrupted "protected secret has an unknown kind").

Inductive SecureSecretStoreError : Type := Locked | Missing | Corrupted | Unavailable.

Definition store_error_text (error : SecureSecretStoreError) : string :=
  match error with
  | Locked => "credential store is locked"
  | Missing => "credential is missing"
  | Corrupted => "credential is corrupted"
  | Unavailable => "credential store is unavailable"
  end.

Definition map_store_error (error : SecureSecretStoreError) : VnidropError :=
  let reason := store_error_text error in
  match error with
  | Locked => SecureStorageLocked reason
  | Missing => SecureStorageMissing reason
  | Corrupted => SecureStorageCorrupted reason
  | Unavailable => SecureStorageUnavailable reason
  end.

Inductive SecretMetadataState : Type := Staged | Active | Disabled.

#[global] Instance SecretMetadataState_eq_dec : EqDecision SecretMetadataState.
Proof. solve_decision. Defined.

Definition metadata_state_as_str (state : SecretMetadataState) : string :=
  match state with Staged => "staged" | Active => "active" | Disabled => "disabled" end.

Definition metadata_state_parse (value : string) : result SecretMetadataState VnidropError :=
  if str_eqb value "staged" then Ok Staged
  else if str_eqb value "active" then Ok Active
  else if str_eqb value "disabled" then Ok Disabled
  else Err (SecureStorageCorrupted "protected secret has an unknown metadata state").

Record SecretMetadata : Type := {
  sm_handle : SecretHandle;
  sm_kind : SecretKind;
  sm_state : SecretMetadataState;
  sm_expected_identity : option string
}.

Record ReconciliationSummary : Type := {
  orphans_deleted : Z;
  staged_activated : Z;
  disabled : Z
}.

Definition summary_default : ReconciliationSummary :=
  {| orphans_deleted := 0; staged_activated := 0; disabled := 0 |}.

(** A row of [protected_secret_refs]; the table is keyed by [handle]. *)
Record RefRow : Type := {
  rf_kind : string;
  rf_state : string;
  rf_expected_identity : option string;
  rf_created_at : Z;
  rf_updated_at : Z
}.

Definition row_to_metadata (kr : string * RefRow) : result SecretMetadata VnidropError :=
  let? kind := kind_parse (rf_kind kr.2) in
  let? state := metadata_state_parse (rf_state kr.2) in
  Ok {| sm_handle := kr.1; sm_kind := kind; sm_state := state;
        sm_expected_identity := rf_expected_identity kr.2 |}.

(** ** The credential store *)

(** The outcome of a call on a blocking thread: what the store returned, or the failure
    of the thread ([JoinError]). *)
Inductive blocking (A : Type) : Type :=
| Returned (r : result A SecureSecretStoreError)
| Panicked (message : string).
Arguments Returned {A} r.
Arguments Panicked {A} message.

Class SecureSecretStore (V : Type) : Type := {
  put : SecretHandle → SecretMaterial → V → blocking unit * V;
  get_secret : SecretHandle → V → blocking SecretMaterial * V;
  delete_secret : SecretHandle → V → blocking unit * V;
  list_handles : V → blocking (list SecretHandle) * V
}.

(** [contents v] is the material that the store holds under each handle. A call that fails
    may have happened or not. *)
Class SecureSecretStoreLaws (V : Type) `{SecureSecretStore V} : Type := {
  contents : V → gmap SecretHandle SecretMaterial;
  put_other h m v h' : h' ≠ h → contents (put h m v).2 !! h' = contents v !! h';
  put_ok h m v : (put h m v).1 = Returned (Ok tt) → contents (put h m v).2 !! h = Some m;
  get_keeps h v : contents (get_secret h v).2 = contents v;
  get_ok h m v : (get_secret h v).1 = Returned (Ok m) → contents v !! h = Some m;
  delete_other h v h' : h' ≠ h → contents (delete_secret h v).2 !! h' = contents v !! h';
  delete_ok h v :
    (delete_secret h v).1 = Returned (Ok tt) ∨ (delete_secret h v).1 = Returned (Err Missing) →
    contents (delete_secret h v).2 !! h = None;
  delete_only h v m :
    contents (delete_secret h v).2 !! h = Some m → contents v !! h = Some m;
  list_keeps v : contents (list_handles v).2 = contents v;
  list_ok l v : (list_handles v).1 = Returned (Ok l) → ∀ h, h ∈ l ↔ is_Some (contents v !! h)
}.

(** ** State and environment *)

(** What custody works on: the table, the credential store and the key file that releases
    before the credential store left in the application data ([None]: there is none). *)
Record Vault (V : Type) : Type := {
  secret_refs : gmap SecretHandle RefRow;
  secret_store : V;
  legacy_identity : option string
}.
Arguments secret_refs {V} _.
Arguments secret_store {V} _.
Arguments legacy_identity {V} _.

Definition on_refs {V} (f : gmap SecretHandle RefRow → gmap SecretHandle RefRow) (w : Vault V) : Vault V :=
  {| secret_refs := f (secret_refs w); secret_store := secret_store w;
     legacy_identity := legacy_identity w |}.
Definition set_store {V} (v : V) (w : Vault V) : Vault V :=
  {| secret_refs := secret_refs w; secret_store := v; legacy_identity := legacy_identity w |}.
Definition set_legacy {V} (file : option string) (w : Vault V) : Vault V :=
  {| secret_refs := secret_refs w; secret_store := secret_store w; legacy_identity := file |}.

(** The crates [iroh] and [data_encoding], the file system, and what tasks that start at the
    same time do to the table while this one sleeps. *)
Class Host : Type := {
  public_id : string → string;             (* [SecretKey::from_bytes(b).public().to_string()] *)
  fresh_key : nat → string;                (* [SecretKey::generate().to_bytes()] *)
  hexlower_decode : string → option string;
  fs_fault : nat → option (IoErrorKind * string);
  polls : nat → nat;                       (* polls before a one-second timeout fires *)
  others : nat → gmap SecretHandle RefRow → gmap SecretHandle RefRow
}.

Section Custody.
Context `{Env} `{ForeignText} `{Host} {V : Type} `{SecureSecretStore V}.

Abbreviation IO := (M (Vault V) VnidropError).

Definition endpoint_id (material : SecretMaterial) : string := public_id (material_bytes material).

Definition validate_material (kind : SecretKind) (material : SecretMaterial)
    (expected_identity : option string) : result unit VnidropError :=
  match kind with
  | EndpointIdentity =>
      match expected_identity with
      | None => Err (SecureStorageCorrupted
                       "endpoint identity metadata lacks its expected endpoint id")
      | Some expected_identity =>
          if str_eqb (endpoint_id material) expected_identity then Ok tt
          else Err (SecureStorageCorrupted
                      "protected endpoint identity does not match its endpoint id")
      end
  | _ => Ok tt
  end.

(** *** Metadata *)

(** The rows of the partial unique index on [kind]. *)
Definition live_endpoint (_ : SecretHandle) (r : RefRow) : bool :=
  str_eqb (rf_kind r) "endpoint-identity" && negb (str_eqb (rf_state r) "disabled").

(** A write to the table; a second live endpoint identity violates the unique index. *)
Definition write_refs (f : gmap SecretHandle RefRow → result (gmap SecretHandle RefRow) SqlxError) :
    IO unit :=
  sql (λ w, let? rows := f (secret_refs w) in
            if Nat.leb (count_where live_endpoint rows) 1 then Ok (tt, on_refs (λ _, rows) w)
            else Err SqlxUnique).

Definition select_refs {A} (f : gmap SecretHandle RefRow → A) : IO A :=
  sql (λ w, Ok (f (secret_refs w), w)).

Definition set_ref_state (state : SecretMetadataState) (now : Z) (r : RefRow) : RefRow :=
  {| rf_kind := rf_kind r; rf_state := metadata_state_as_str state;
     rf_expected_identity := rf_expected_identity r; rf_created_at := rf_created_at r;
     rf_updated_at := now |}.

Definition stage (handle : SecretHandle) (kind : SecretKind) (expected_identity : option string) :
    IO unit :=
  now ← now_ms;
  write_refs (insert_row handle
    {| rf_kind := kind_as_str kind; rf_state := "staged";
       rf_expected_identity := expected_identity; rf_created_at := now; rf_updated_at := now |}).

Definition set_metadata_state (handle : SecretHandle) (state : SecretMetadataState) : IO unit :=
  now ← now_ms;
  write_refs (λ rows, Ok (update_where (λ k _, str_eqb k handle) (λ _, set_ref_state state now) rows)).

Definition activate (handle : SecretHandle) : IO unit := set_metadata_state handle Active.
Definition disable (handle : SecretHandle) : IO unit := set_metadata_state handle Disabled.

Definition find_metadata (handle : SecretHandle) : IO (option SecretMetadata) :=
  row ← select_refs (λ rows, pair handle <$> rows !! handle);
  of_result (option_transpose row_to_metadata row).

(** [ORDER BY handle] and [ORDER BY created_at ASC]. *)
Definition by_handle (x y : SecretHandle * RefRow) : Prop := String.leb x.1 y.1 = true.
#[global] Instance by_handle_dec : RelDecision by_handle.
Proof. intros x y. unfold by_handle. apply _. Defined.
Definition oldest_ref (x y : SecretHandle * RefRow) : Prop := rf_created_at x.2 ≤ rf_created_at y.2.
#[global] Instance oldest_ref_dec : RelDecision oldest_ref.
Proof. intros x y. unfold oldest_ref. apply _. Defined.

Definition list_metadata : IO (list SecretMetadata) :=
  rows ← select_refs (λ rows, order_by by_handle (map_to_list rows));
  of_result (collect_results row_to_metadata rows).

Definition active_of_kind (kind : SecretKind) (_ : SecretHandle) (r : RefRow) : bool :=
  str_eqb (rf_kind r) (kind_as_str kind) && str_eqb (rf_state r) "active".

Definition find_active_kind (kind : SecretKind) : IO (option SecretMetadata) :=
  row ← select_refs (λ rows, head (order_by oldest_ref (select_where (active_of_kind kind) rows)));
  of_result (option_transpose row_to_metadata row).

Definition contains_kind (kind : SecretKind) : IO bool :=
  select_refs (exists_where (λ _ r, str_eqb (rf_kind r) (kind_as_str kind))).

(** *** Calls of the credential store, each on a blocking thread *)

Definition spawn_blocking {A} (call : V → blocking A * V) : IO (result A SecureSecretStoreError) :=
  λ w n, match call (secret_store w) with
         | (Returned r, v) => (Ok r, set_store v w, n)
         | (Panicked message, v) => (Err (internal (anyhow_msg message)), set_store v w, n)
         end.

Definition store_get_raw (handle : SecretHandle) : IO (result SecretMaterial SecureSecretStoreError) :=
  spawn_blocking (get_secret handle).
Definition store_delete_raw (handle : SecretHandle) : IO (result unit SecureSecretStoreError) :=
  spawn_blocking (delete_secret handle).

Definition store_put (handle : SecretHandle) (material : SecretMaterial) : IO unit :=
  r ← spawn_blocking (put handle material); of_result (result_map_err map_store_error r).
Definition store_get (handle : SecretHandle) : IO SecretMaterial :=
  r ← store_get_raw handle; of_result (result_map_err map_store_error r).
Definition store_delete (handle : SecretHandle) : IO unit :=
  r ← store_delete_raw handle; of_result (result_map_err map_store_error r).
Definition store_list_handles : IO (list SecretHandle) :=
  r ← spawn_blocking list_handles; of_result (result_map_err map_store_error r).

Definition delete_if_present (handle : SecretHandle) : IO unit :=
  r ← store_delete_raw handle;
  match r with
  | Ok _ | Err Missing => ret tt
  | Err error => fail (map_store_error error)
  end.

(** *** Operations *)

Definition generate_handle (kind : SecretKind) : IO SecretHandle :=
  uuid ← uuid_v4;
  ret (HANDLE_NAMESPACE +:+ "/" +:+ HANDLE_VERSION +:+ "/" +:+ kind_as_str kind +:+ "/" +:+ uuid).

Definition protect (kind : SecretKind) (material : SecretMaterial)
    (expected_identity : option string) : IO SecretHandle :=
  of_result (validate_material kind material expected_identity);;
  handle ← generate_handle kind;
  store_put handle material;;
  stored ← store_get handle;
  if bool_decide (stored = material) then
    of_result (validate_material kind stored expected_identity);;
    staged ← try (stage handle kind expected_identity);
    match staged with
    | Err error => delete_if_present handle;; fail error
    | Ok _ => activate handle;; ret handle
    end
  else fail (SecureStorageCorrupted "credential store did not preserve protected material").

Definition load (handle : SecretHandle) : IO SecretMaterial :=
  found ← find_metadata handle;
  match found with
  | None => fail (SecureStorageMissing "protected secret metadata is missing")
  | Some metadata =>
      if decide (sm_state metadata = Active) then
        material ← store_get handle;
        of_result (validate_material (sm_kind metadata) material (sm_expected_identity metadata));;
        ret material
      else fail (SecureStorageUnavailable "protected secret is not active")
  end.

Definition remove (handle : SecretHandle) : IO unit :=
  found ← find_metadata handle;
  (match found with Some _ => disable handle | None => ret tt end);;
  delete_if_present handle.

Definition list_active_handles (kind : SecretKind) : IO (list SecretHandle) :=
  entries ← list_metadata;
  ret (sm_handle <$> filter (λ entry, sm_kind entry = kind ∧ sm_state entry = Active) entries).

Definition delete_reset_handles (handles : list SecretHandle) : IO unit :=
  for_each handles delete_if_present.

(** One entry of [reconcile]: what the metadata says against what the store holds. *)
Definition reconcile_entry (summary : ReconciliationSummary) (entry : SecretMetadata) :
    IO ReconciliationSummary :=
  let drop :=
    disable (sm_handle entry);;
    delete_if_present (sm_handle entry);;
    ret {| orphans_deleted := orphans_deleted summary;
           staged_activated := staged_activated summary; disabled := disabled summary + 1 |} in
  if decide (sm_state entry = Disabled) then delete_if_present (sm_handle entry);; ret summary
  else
    r ← store_get_raw (sm_handle entry);
    match r with
    | Ok material =>
        if is_ok (validate_material (sm_kind entry) material (sm_expected_identity entry)) then
          if decide (sm_state entry = Staged) then
            activate (sm_handle entry);;
            ret {| orphans_deleted := orphans_deleted summary;
                   staged_activated := staged_activated summary + 1;
                   disabled := disabled summary |}
          else ret summary
        else if decide (sm_kind entry = EndpointIdentity)
        then fail (SecureStorageCorrupted "protected endpoint identity is corrupted")
        else drop
    | Err error =>
        match error with
        | Missing | Corrupted =>
            if decide (sm_kind entry = EndpointIdentity) then fail (map_store_error error) else drop
        | _ => fail (map_store_error error)
        end
    end.

Definition delete_orphan (known : list SecretHandle) (summary : ReconciliationSummary)
    (handle : SecretHandle) : IO ReconciliationSummary :=
  if str_in handle known then ret summary
  else
    store_delete handle;;
    ret {| orphans_deleted := orphans_deleted summary + 1;
           staged_activated := staged_activated summary; disabled := disabled summary |}.

Definition reconcile : IO ReconciliationSummary :=
  metadata ← list_metadata;
  stored_handles ← store_list_handles;
  summary ← fold_each reconcile_entry metadata summary_default;
  fold_each (delete_orphan (sm_handle <$> metadata)) stored_handles summary.

(** [referenced_handles] is a [HashSet]. *)
Definition remove_orphaned_targeted_authorizations (referenced_handles : gset SecretHandle) : IO Z :=
  entries ← list_metadata;
  fold_each (λ removed entry,
    if bool_decide (sm_kind entry = TargetedAuthorizationSecret ∧ sm_state entry = Active ∧
                    sm_handle entry ∉ referenced_handles)
    then remove (sm_handle entry);; ret (removed + 1)
    else ret removed) entries 0.

Definition require_unrecoverable_endpoint_identity : IO unit :=
  entries ← list_metadata;
  for_each (filter (λ entry, sm_kind entry = EndpointIdentity ∧ sm_state entry ≠ Disabled) entries)
    (λ endpoint,
      r ← store_get_raw (sm_handle endpoint);
      match r with
      | Ok material =>
          if is_ok (validate_material EndpointIdentity material (sm_expected_identity endpoint))
          then fail (InvalidInput "protected endpoint identity is still available")
          else ret tt
      | Err (Missing | Corrupted) => ret tt
      | Err error => fail (map_store_error error)
      end).

(** *** The endpoint identity *)

(** A file-system call. *)
Definition fs_call {A} (f : Vault V → A * Vault V) : M (Vault V) (IoErrorKind * string) A := λ w n,
  match fs_fault n with
  | Some error => (Err error, w, S n)
  | None => match f w with (a, w') => (Ok a, w', S n) end
  end.

Definition filesystem_io (error : IoErrorKind * string) : VnidropError :=
  filesystem {| head_cause := CIo error.1 error.2; source_chain := [] |}.

Definition read_legacy_endpoint_identity : IO SecretMaterial :=
  let missing := SecureStorageMissing "no protected or legacy endpoint identity exists" in
  r ← try (fs_call (λ w, (legacy_identity w, w)));
  match r with
  | Ok (Some encoded) =>
      match hexlower_decode (trim encoded) with
      | Some bytes => of_result (secret_material_new bytes)
      | None => fail (SecureStorageCorrupted "legacy endpoint key encoding is invalid")
      end
  | Ok None | Err (NotFound, _) => fail missing
  | Err error => fail (filesystem_io error)
  end.

(** [std::fs::remove_file], then [sync_all] on the parent directory. *)
Definition remove_legacy_identity_durably : IO unit :=
  r ← try (fs_call (λ w, (legacy_identity w, set_legacy None w)));
  match r with
  | Ok (Some _) => map_err filesystem_io (fs_call (λ w, (tt, w)))
  | Ok None | Err (NotFound, _) => ret tt
  | Err error => fail (filesystem_io error)
  end.

Definition migrate_legacy_endpoint_identity : IO SecretHandle :=
  active ← find_active_kind EndpointIdentity;
  match active with
  | Some active =>
      protected ← load (sm_handle active);
      legacy ← try read_legacy_endpoint_identity;
      match legacy with
      | Ok legacy =>
          if str_eqb (endpoint_id legacy) (endpoint_id protected) then remove_legacy_identity_durably
          else fail (SecureStorageCorrupted "legacy endpoint key does not match protected identity")
      | Err (SecureStorageMissing _) => ret tt
      | Err error => fail error
      end;;
      ret (sm_handle active)
  | None =>
      legacy ← read_legacy_endpoint_identity;
      handle ← protect EndpointIdentity legacy (Some (endpoint_id legacy));
      remove_legacy_identity_durably;;
      ret handle
  end.

(** [tokio::time::sleep]: other tasks run. *)
Definition sleep : IO unit := λ w n, (Ok tt, on_refs (others n) w, S n).

(** [SecretKey::generate()]. *)
Definition generate_key : IO string := λ w n, (Ok (fresh_key n), w, S n).

(** The polling loop under its timeout: [remaining] polls are left. *)
Fixpoint poll_active_endpoint_identity (remaining : nat) : IO SecretHandle :=
  match remaining with
  | O => fail (SecureStorageUnavailable "timed out waiting for protected endpoint identity")
  | S remaining =>
      active ← find_active_kind EndpointIdentity;
      match active with
      | Some active => ret (sm_handle active)
      | None =>
          sleep;;
          poll_active_endpoint_identity remaining
      end
  end.

Definition wait_for_active_endpoint_identity : IO SecretHandle := λ w n,
  poll_active_endpoint_identity (polls n) w (S n).

Definition initialize_endpoint_identity : IO SecretMaterial :=
  active ← find_active_kind EndpointIdentity;
  match active with
  | Some _ => handle ← migrate_legacy_endpoint_identity; load handle
  | None =>
      known ← contains_kind EndpointIdentity;
      if known : bool then
        waited ← try wait_for_active_endpoint_identity;
        match waited with
        | Ok handle => load handle
        | Err _ => fail (SecureStorageUnavailable "protected endpoint identity is disabled")
        end
      else
        exists_ ← map_err filesystem_io (fs_call (λ w, (bool_decide (legacy_identity w ≠ None), w)));
        if exists_ : bool then handle ← migrate_legacy_endpoint_identity; load handle
        else
          bytes ← generate_key;
          material ← of_result (secret_material_new bytes);
          protected ← try (protect EndpointIdentity material (Some (endpoint_id material)));
          match protected with
          | Ok handle => load handle
          | Err error =>
              waited ← try wait_for_active_endpoint_identity;
              match waited with
              | Ok handle => load handle
              | Err _ => fail error
              end
          end
  end.

(** [SecretCustody::start] and [start_endpoint_identity]. *)
Definition start_endpoint_identity : IO SecretMaterial :=
  reconcile;; initialize_endpoint_identity.
End Custody.

(** ** Specifications *)

(** How a row may change: what it protects is fixed, a disabled secret stays disabled and an
    active one is never staged again. *)
Definition ref_evolves (r r' : RefRow) : Prop :=
  rf_kind r' = rf_kind r ∧ rf_expected_identity r' = rf_expected_identity r ∧
  rf_created_at r' = rf_created_at r ∧
  (rf_state r = "disabled"%string → rf_state r' = "disabled"%string) ∧
  (rf_state r = "active"%string → rf_state r' = "active"%string ∨ rf_state r' = "disabled"%string).

#[global] Instance ref_evolves_preorder : PreOrder ref_evolves.
Proof.
  split; [by intros r; repeat split; auto|].
  intros r1 r2 r3 (K1 & E1 & C1 & D1 & A1) (K2 & E2 & C2 & D2 & A2).
  repeat split; [congruence..|auto|]. intros Ha. destruct (A1 Ha); auto.
Qed.

Definition refs_evolve {V} (w w' : Vault V) : Prop :=
  map_lift ref_evolves (secret_refs w) (secret_refs w').

#[global] Instance refs_evolve_preorder {V} : PreOrder (refs_evolve (V:=V)).
Proof.
  split; [by intros w; unfold refs_evolve|].
  intros w1 w2 w3 H1 H2. unfold refs_evolve in *. by etrans.
Qed.

(** The row that metadata describes. *)
Definition describes {V} (w : Vault V) (entry : SecretMetadata) : Prop :=
  ∃ r, secret_refs w !! sm_handle entry = Some r ∧ row_to_metadata (sm_handle entry, r) = Ok entry.

Definition set_row_state (handle : SecretHandle) (state : SecretMetadataState) (now : Z)
    (rows : gmap SecretHandle RefRow) : gmap SecretHandle RefRow :=
  match rows !! handle with
  | Some r => <[handle := set_ref_state state now r]> rows
  | None => rows
  end.

Lemma metadata_state_roundtrip state : metadata_state_parse (metadata_state_as_str state) = Ok state.
Proof. by destruct state. Qed.

Lemma kind_roundtrip kind : kind_parse (kind_as_str kind) = Ok kind.
Proof. by destruct kind. Qed.

Lemma kind_as_str_inj kind kind' : kind_as_str kind = kind_as_str kind' → kind = kind'.
Proof. by destruct kind, kind'. Qed.

Lemma metadata_state_as_str_inj state state' :
  metadata_state_as_str state = metadata_state_as_str state' → state = state'.
Proof. by destruct state, state'. Qed.

Lemma metadata_state_parse_Ok text state :
  metadata_state_parse text = Ok state ↔ text = metadata_state_as_str state.
Proof.
  split; [|intros ->; apply metadata_state_roundtrip].
  unfold metadata_state_parse. repeat case_match; intros [= <-]; by apply str_eqb_eq.
Qed.

Lemma kind_parse_Ok text kind : kind_parse text = Ok kind ↔ text = kind_as_str kind.
Proof.
  split; [|intros ->; apply kind_roundtrip].
  unfold kind_parse. repeat case_match; intros [= <-]; by apply str_eqb_eq.
Qed.

Lemma row_to_metadata_Ok h r entry :
  row_to_metadata (h, r) = Ok entry ↔
  sm_handle entry = h ∧ rf_kind r = kind_as_str (sm_kind entry) ∧
  rf_state r = metadata_state_as_str (sm_state entry) ∧
  rf_expected_identity r = sm_expected_identity entry.
Proof.
  unfold row_to_metadata. simpl. split.
  - destruct (kind_parse (rf_kind r)) as [kind|] eqn:Ek; [|done].
    destruct (metadata_state_parse (rf_state r)) as [state|] eqn:Es; [|done].
    intros [= <-]. apply kind_parse_Ok in Ek. by apply metadata_state_parse_Ok in Es.
  - intros (<- & Ek & Es & Ei). apply kind_parse_Ok in Ek as ->.
    apply metadata_state_parse_Ok in Es as ->. simpl. rewrite Ei. by destruct entry.
Qed.

Lemma describes_Ok {V} (w : Vault V) entry :
  describes w entry ↔ ∃ r, secret_refs w !! sm_handle entry = Some r ∧
    rf_kind r = kind_as_str (sm_kind entry) ∧ rf_state r = metadata_state_as_str (sm_state entry) ∧
    rf_expected_identity r = sm_expected_identity entry.
Proof.
  unfold describes. split; intros (r & Hr & E); exists r.
  - apply row_to_metadata_Ok in E. by destruct E as (_ & E).
  - by rewrite row_to_metadata_Ok.
Qed.

Lemma collect_metadata_list (rows : gmap SecretHandle RefRow) l entries :
  Forall (λ kr, rows !! kr.1 = Some kr.2) l →
  collect_results row_to_metadata l = Ok entries →
  sm_handle <$> entries = l.*1 ∧
  Forall (λ entry, ∃ r, rows !! sm_handle entry = Some r ∧
                        row_to_metadata (sm_handle entry, r) = Ok entry) entries.
Proof.
  intros Hl. revert entries. induction Hl as [|[h r] l Hr Hl IH]; intros entries; simpl.
  - by intros [= <-].
  - destruct (row_to_metadata (h, r)) as [entry|] eqn:Er; [|done]. simpl.
    destruct (collect_results row_to_metadata l) as [es|]; [|done].
    intros [= <-]. destruct (IH es eq_refl) as [Hes Hd].
    pose proof Er as (<- & _)%row_to_metadata_Ok. csimpl. rewrite Hes.
    split; [done|]. constructor; [by exists r | done].
Qed.

(** [list_metadata] returns every row, once. *)
Lemma collect_metadata rows entries :
  collect_results row_to_metadata (order_by by_handle (map_to_list rows)) = Ok entries →
  NoDup (sm_handle <$> entries) ∧
  (∀ h, h ∈ sm_handle <$> entries ↔ is_Some (rows !! h)) ∧
  (∀ entry, entry ∈ entries → ∃ r, rows !! sm_handle entry = Some r ∧
                                   row_to_metadata (sm_handle entry, r) = Ok entry).
Proof.
  intros E. apply (collect_metadata_list rows) in E as [Eh Hd].
  - rewrite Eh. rewrite (order_by_permutation by_handle (map_to_list rows)).
    split; [apply NoDup_fst_map_to_list|]. split; [|by apply Forall_forall].
    intros h. rewrite list_elem_of_fmap. split.
    + intros ([h' r] & -> & Hin%elem_of_order_by%elem_of_map_to_list). by exists r.
    + intros [r Hr]. exists (h, r). split; [done|]. by apply elem_of_order_by, elem_of_map_to_list.
  - apply Forall_forall. intros [h r] Hin%elem_of_order_by%elem_of_map_to_list. done.
Qed.

(** ** What each step does *)

Section StepLemmas.
Context `{Env} `{ForeignText} `{Host} {V : Type} `{!SecureSecretStore V}.
Implicit Types (w : Vault V) (h : SecretHandle).

Lemma wp_write_refs f w n Q :
  (∀ e n', Q (Err e) w n') →
  (∀ rows n', f (secret_refs w) = Ok rows → Q (Ok tt) (on_refs (λ _, rows) w) n') →
  wp (write_refs f) w n Q.
Proof.
  intros He Ho. apply wp_sql; [auto|]. intros _ [] w'.
  destruct (f (secret_refs w)) as [rows|]; [simpl|done]. destruct (Nat.leb _ _); [|done].
  intros [= <-]. by apply Ho.
Qed.

Lemma wp_select_refs {A} (f : gmap SecretHandle RefRow → A) w n Q :
  (∀ e n', Q (Err e) w n') → (∀ n', Q (Ok (f (secret_refs w))) w n') →
  wp (select_refs f) w n Q.
Proof. intros He Ho. apply wp_sql; [auto|]. intros _ a w' [= <- <-]. apply Ho. Qed.

Lemma update_set_row_state h state now rows :
  update_where (λ k _, str_eqb k h) (λ _, set_ref_state state now) rows =
  set_row_state h state now rows.
Proof.
  rewrite (update_where_key _ _ _ h) by (by intros k' r ?%str_eqb_eq).
  unfold set_row_state. destruct (rows !! h); [|done]. by rewrite str_eqb_refl.
Qed.

Lemma wp_set_metadata_state h state w n Q :
  (∀ e n', Q (Err e) w n') →
  (∀ now n', Q (Ok tt) (on_refs (set_row_state h state now) w) n') →
  wp (set_metadata_state h state) w n Q.
Proof.
  intros He Ho. apply wp_bind, wp_now_ms, wp_write_refs; [done|].
  intros rows n' [= <-]. rewrite update_set_row_state. apply Ho.
Qed.

Lemma wp_find_metadata h w n Q :
  (∀ e n', Q (Err e) w n') →
  (∀ n', secret_refs w !! h = None → Q (Ok None) w n') →
  (∀ entry n', sm_handle entry = h → describes w entry → Q (Ok (Some entry)) w n') →
  wp (find_metadata h) w n Q.
Proof.
  intros He Hn Hs. apply wp_bind, wp_select_refs; [auto|]. intros n'. apply wp_of_result.
  destruct (secret_refs w !! h) as [r|] eqn:Hr; simpl; [|by apply Hn].
  destruct (row_to_metadata (h, r)) as [entry|] eqn:Er; simpl; [|done].
  pose proof Er as (Hh & _)%row_to_metadata_Ok. apply Hs; [done|]. exists r. by rewrite Hh.
Qed.

Lemma wp_list_metadata w n Q :
  (∀ e n', Q (Err e) w n') →
  (∀ entries n', NoDup (sm_handle <$> entries) →
     (∀ h, h ∈ sm_handle <$> entries ↔ is_Some (secret_refs w !! h)) →
     (∀ entry, entry ∈ entries → describes w entry) → Q (Ok entries) w n') →
  wp list_metadata w n Q.
Proof.
  intros He Ho. apply wp_bind, wp_select_refs; [auto|]. intros n'. apply wp_of_result.
  destruct (collect_results _ _) as [entries|] eqn:E; [|done].
  apply collect_metadata in E as (Hnd & Hdom & Hd). by apply Ho.
Qed.

Lemma wp_find_active_kind kind w n Q :
  (∀ e n', Q (Err e) w n') →
  (∀ n', (∀ h r, secret_refs w !! h = Some r → active_of_kind kind h r = false) → Q (Ok None) w n') →
  (∀ entry n', sm_kind entry = kind → sm_state entry = Active → describes w entry →
     Q (Ok (Some entry)) w n') →
  wp (find_active_kind kind) w n Q.
Proof.
  intros He Hn Hs. apply wp_bind, wp_select_refs; [auto|]. intros n'. apply wp_of_result.
  destruct (head _) as [[h r]|] eqn:Eh; simpl.
  2: { apply Hn. intros h r Hr. destruct (active_of_kind kind h r) eqn:Ha; [|done].
       assert ((h, r) ∈ order_by oldest_ref (select_where (active_of_kind kind) (secret_refs w))) as Hin
         by (by apply elem_of_order_by, elem_of_select_where).
       destruct (order_by _ _); [by apply elem_of_nil in Hin | done]. }
  destruct (row_to_metadata (h, r)) as [entry|] eqn:Er; simpl; [|done].
  assert ((h, r) ∈ order_by oldest_ref (select_where (active_of_kind kind) (secret_refs w))) as Hin.
  { destruct (order_by _ _); simplify_eq/=. apply list_elem_of_here. }
  apply elem_of_order_by, elem_of_select_where in Hin as [Hr Ha].
  pose proof Er as (Hh & Ek & Es & _)%row_to_metadata_Ok.
  apply andb_prop in Ha as [Hk%str_eqb_eq Hst%str_eqb_eq].
  apply Hs; [apply kind_as_str_inj; congruence | apply metadata_state_as_str_inj; simpl; congruence|].
  exists r. by rewrite Hh.
Qed.

Lemma wp_spawn_blocking_full {A} (call : V → blocking A * V) w n Q :
  (∀ r, (call (secret_store w)).1 = Returned r →
        Q (Ok r) (set_store (call (secret_store w)).2 w) n) →
  (∀ e, (∀ r, (call (secret_store w)).1 ≠ Returned r) →
        Q (Err e) (set_store (call (secret_store w)).2 w) n) →
  wp (spawn_blocking call) w n Q.
Proof.
  intros Hr He. unfold wp, spawn_blocking.
  destruct (call (secret_store w)) as [[r|m] v]; [by apply Hr | by apply He].
Qed.

Lemma wp_spawn_blocking {A} (call : V → blocking A * V) w n Q :
  (∀ r, (call (secret_store w)).1 = Returned r →
        Q (Ok r) (set_store (call (secret_store w)).2 w) n) →
  (∀ e, Q (Err e) (set_store (call (secret_store w)).2 w) n) →
  wp (spawn_blocking call) w n Q.
Proof.
  intros Hr He. by apply wp_spawn_blocking_full.
Qed.

Lemma within_spawn_blocking {A} (call : V → blocking A * V) (R : Vault V → Vault V → Prop) :
  (∀ w v, R w (set_store v w)) → within R (spawn_blocking call).
Proof. intros HR w n. apply wp_spawn_blocking; intros; apply HR. Qed.

Lemma set_row_state_evolves h state now rows :
  (∀ r, rows !! h = Some r → ref_evolves r (set_ref_state state now r)) →
  map_lift ref_evolves rows (set_row_state h state now rows).
Proof.
  intros Hr. unfold set_row_state. destruct (rows !! h) as [r|] eqn:E; [|done].
  apply map_lift_insert; [apply _|]. intros old Hold. rewrite Hold in E. simplify_eq. by apply Hr.
Qed.

Lemma disable_evolves now r : ref_evolves r (set_ref_state Disabled now r).
Proof. repeat split; simpl; auto. Qed.

Lemma activate_evolves now r :
  rf_state r = "staged"%string → ref_evolves r (set_ref_state Active now r).
Proof. intros E. repeat split; simpl; intros ?; [congruence | by left]. Qed.

Lemma lookup_set_row_state_ne h state now rows h' :
  h' ≠ h → set_row_state h state now rows !! h' = rows !! h'.
Proof.
  intros Hne. unfold set_row_state. destruct (rows !! h); [by apply lookup_insert_ne | done].
Qed.

Lemma lookup_set_row_state h state now rows r :
  rows !! h = Some r → set_row_state h state now rows !! h = Some (set_ref_state state now r).
Proof. intros Hr. unfold set_row_state. rewrite Hr. apply lookup_insert_eq. Qed.

Lemma describes_ne w w' entry :
  secret_refs w' !! sm_handle entry = secret_refs w !! sm_handle entry →
  describes w entry → describes w' entry.
Proof. intros E (r & Hr & Hd). exists r. by rewrite E. Qed.
End StepLemmas.

(** ** No operation brings a disabled secret back *)

Section Evolution.
Context `{Env} `{ForeignText} `{Host} {V : Type} `{!SecureSecretStore V}.
Implicit Types (w : Vault V) (h : SecretHandle).

Abbreviation evolves := (within (refs_evolve (V:=V))).

Lemma within_call {A} (call : V → blocking A * V) : evolves (spawn_blocking call).
Proof. apply within_spawn_blocking. intros w v. unfold refs_evolve. reflexivity. Qed.

Lemma within_select_refs {A} (f : gmap SecretHandle RefRow → A) : evolves (select_refs f).
Proof. apply within_sql; [apply _|]. intros w a w' [= _ <-]. reflexivity. Qed.

Lemma within_fs_call {A} (f : Vault V → A * Vault V) :
  (∀ w, secret_refs (f w).2 = secret_refs w) → evolves (fs_call f).
Proof.
  intros Hf w n. unfold wp, fs_call. destruct (fs_fault n); [reflexivity|].
  specialize (Hf w). destruct (f w) as [a w']. simpl in Hf. unfold refs_evolve. by rewrite Hf.
Qed.

(** The leaves of an operation that leave the table alone. *)
Ltac custody_steps := repeat first
  [ apply within_call | apply within_select_refs | by apply within_fs_call | store_step ].

Lemma within_find_metadata h : evolves (find_metadata h).
Proof. unfold find_metadata. custody_steps. Qed.
Lemma within_list_metadata : evolves list_metadata.
Proof. unfold list_metadata. custody_steps. Qed.
Lemma within_find_active_kind kind : evolves (find_active_kind kind).
Proof. unfold find_active_kind. custody_steps. Qed.

Lemma within_delete_if_present h : evolves (delete_if_present h).
Proof. unfold delete_if_present, store_delete_raw. custody_steps. Qed.

Lemma within_disable h : evolves (disable h).
Proof.
  intros w n. apply wp_set_metadata_state; [intros; reflexivity|]. intros now _.
  apply set_row_state_evolves. intros r _. apply disable_evolves.
Qed.

Lemma within_load h : evolves (load h).
Proof.
  unfold load, store_get, store_get_raw.
  apply within_bind; [apply _|apply within_find_metadata|]. intros [metadata|]; custody_steps.
Qed.

Lemma within_remove h : evolves (remove h).
Proof.
  unfold remove. apply within_bind; [apply _|apply within_find_metadata|]. intros found.
  apply within_bind; [apply _| |intros _; apply within_delete_if_present].
  destruct found; [apply within_disable | custody_steps].
Qed.

(** A new row is staged and activated; no other row is touched. *)
Lemma within_protect kind material expected : evolves (protect kind material expected).
Proof.
  unfold protect. apply within_bind; [apply _|custody_steps|]. intros _.
  apply within_bind; [apply _|unfold generate_handle; custody_steps|]. intros h.
  apply within_bind; [apply _|unfold store_put; custody_steps|]. intros _.
  apply within_bind; [apply _|unfold store_get, store_get_raw; custody_steps|]. intros stored.
  case_bool_decide; [|custody_steps]. apply within_bind; [apply _|custody_steps|]. intros _ w n.
  apply wp_bind, wp_try, wp_bind, wp_now_ms, wp_write_refs.
  - intros e n'. apply within_bind; [apply _|apply within_delete_if_present|]. intros; custody_steps.
  - intros rows n'. unfold insert_row. destruct (secret_refs w !! h) eqn:Eh; [done|].
    intros [= <-]. apply wp_bind.
    assert (∀ r, map_lift ref_evolves (secret_refs w) (<[h := r]> (secret_refs w))) as Hnew.
    { intros r. apply map_lift_insert; [apply _|]. congruence. }
    apply wp_set_metadata_state; [intros; apply Hnew|]. intros now n''. apply wp_ret.
    unfold refs_evolve, set_row_state. simpl. rewrite lookup_insert_eq, insert_insert_eq. apply Hnew.
Qed.

Lemma within_read_legacy : evolves read_legacy_endpoint_identity.
Proof.
  unfold read_legacy_endpoint_identity. apply within_bind; [apply _|custody_steps|].
  intros [[encoded|]|[[] m]]; custody_steps.
Qed.

Lemma within_remove_legacy : evolves remove_legacy_identity_durably.
Proof.
  unfold remove_legacy_identity_durably. apply within_bind; [apply _|custody_steps|].
  intros [[encoded|]|[[] m]]; custody_steps.
Qed.

Lemma within_migrate : evolves migrate_legacy_endpoint_identity.
Proof.
  unfold migrate_legacy_endpoint_identity.
  apply within_bind; [apply _|apply within_find_active_kind|]. intros [active|].
  - apply within_bind; [apply _|apply within_load|]. intros protected.
    apply within_bind; [apply _|apply within_try, within_read_legacy|]. intros legacy.
    apply within_bind; [apply _| |custody_steps].
    destruct legacy as [legacy|[]]; repeat case_match; first [apply within_remove_legacy | custody_steps].
  - apply within_bind; [apply _|apply within_read_legacy|]. intros legacy.
    apply within_bind; [apply _|apply within_protect|]. intros h.
    apply within_bind; [apply _|apply within_remove_legacy|custody_steps].
Qed.

(** *** [reconcile] *)

(** [reconcile] moves rows forward and never gives up the endpoint identity. *)
Definition ref_reconciled (r r' : RefRow) : Prop :=
  ref_evolves r r' ∧
  (rf_kind r = "endpoint-identity"%string → rf_state r ≠ "disabled"%string →
   rf_state r' ≠ "disabled"%string).

#[global] Instance ref_reconciled_preorder : PreOrder ref_reconciled.
Proof.
  split; [split; [reflexivity | done]|].
  intros r1 r2 r3 [E1 K1] [E2 K2]. split; [by etrans|]. intros Hk Hd.
  apply K2; [destruct E1; congruence | by apply K1].
Qed.

(** The loop has still [entries] to do: they are as they were listed, so that what is
    activated is staged. *)
Definition ahead w0 (entries : list SecretMetadata) w : Prop :=
  map_lift ref_reconciled (secret_refs w0) (secret_refs w) ∧
  NoDup (sm_handle <$> entries) ∧ ∀ entry, entry ∈ entries → describes w entry.

Lemma ahead_next w0 entry entries w : ahead w0 (entry :: entries) w → ahead w0 entries w.
Proof.
  intros (He & [_ Hnd]%NoDup_cons & Hd). split; [done|]. split; [done|].
  intros e Hin. apply Hd. by apply list_elem_of_further.
Qed.

Lemma ahead_set_state w0 entry entries w state now :
  ahead w0 (entry :: entries) w →
  (state = Disabled ∧ sm_kind entry ≠ EndpointIdentity) ∨ (state = Active ∧ sm_state entry = Staged) →
  ahead w0 entries (on_refs (set_row_state (sm_handle entry) state now) w).
Proof.
  intros Ha Hstate. pose proof Ha as (He & [Hnot Hnd]%NoDup_cons & Hd).
  split; [|split; [done|]].
  - etrans; [exact He|]. unfold set_row_state; simpl.
    destruct (secret_refs w !! sm_handle entry) as [r|] eqn:Hr; [|done].
    apply map_lift_insert; [apply _|]. intros r' Hr'. assert (r' = r) as -> by congruence.
    destruct (Hd entry (list_elem_of_here _ _)) as (r' & Hr'' & Hm).
    assert (r' = r) as -> by congruence. apply row_to_metadata_Ok in Hm as (_ & Hk & Hs & _).
    destruct Hstate as [[-> Hne]|[-> E]]; split; [apply disable_evolves| | |done].
    + intros E. exfalso. apply Hne, kind_as_str_inj. by rewrite <- Hk.
    + apply activate_evolves. by rewrite Hs, E.
  - intros e Hin. eapply describes_ne; [|apply Hd; by apply list_elem_of_further].
    apply lookup_set_row_state_ne. intros E. apply Hnot. rewrite <- E. by apply list_elem_of_fmap_2.
Qed.
End Evolution.

Section Reconcile.
Context `{Env} `{ForeignText} `{Host} {V : Type} `{!SecureSecretStore V} `{!SecureSecretStoreLaws V}.
Implicit Types (w : Vault V) (h : SecretHandle).

Abbreviation stored w := (contents (secret_store w)).

Lemma wp_delete_if_present h w n Q :
  (∀ v, (∀ h', h' ≠ h → contents v !! h' = stored w !! h') →
        (∀ m, contents v !! h = Some m → stored w !! h = Some m) →
        (∀ e, Q (Err e) (set_store v w) n) ∧
        (contents v !! h = None → Q (Ok tt) (set_store v w) n)) →
  wp (delete_if_present h) w n Q.
Proof.
  intros HQ. destruct (HQ (delete_secret h (secret_store w)).2) as [He Ho];
    [intros; by apply delete_other | intros m; apply delete_only|].
  apply wp_bind, wp_spawn_blocking; [|apply He].
  intros [[]|[]] Hr; [apply wp_ret, Ho, delete_ok; by left | apply wp_fail, He
    | apply wp_ret, Ho, delete_ok; by right | apply wp_fail, He | apply wp_fail, He].
Qed.

Lemma wp_store_get_raw h w n Q :
  (∀ v, contents v = stored w →
    (∀ e, Q (Err e) (set_store v w) n) ∧ (∀ e, Q (Ok (Err e)) (set_store v w) n) ∧
    (∀ m, stored w !! h = Some m → Q (Ok (Ok m)) (set_store v w) n)) →
  wp (store_get_raw h) w n Q.
Proof.
  intros HQ. destruct (HQ (get_secret h (secret_store w)).2) as (He & Hn & Hs); [apply get_keeps|].
  apply wp_spawn_blocking; [|apply He]. intros [m|e] Hr; [apply Hs; by apply get_ok in Hr | apply Hn].
Qed.

(** What holds of a row that [reconcile] has dealt with. *)
Definition settled w h : Prop :=
  ∀ r, secret_refs w !! h = Some r →
    (rf_state r = "active"%string ∧
     ∃ kind m, rf_kind r = kind_as_str kind ∧ stored w !! h = Some m ∧
               validate_material kind m (rf_expected_identity r) = Ok tt) ∨
    (rf_state r = "disabled"%string ∧ stored w !! h = None).

Record recon w0 (entries : list SecretMetadata) w : Prop := {
  rc_ahead : ahead w0 entries w;
  rc_settled h : h ∉ sm_handle <$> entries → settled w h;
  rc_dom : dom (secret_refs w) = dom (secret_refs w0);
  rc_store h m : stored w !! h = Some m → stored w0 !! h = Some m
}.

(** One entry done: only its row and its material may have changed. *)
Lemma recon_next w0 entry entries w w' :
  recon w0 (entry :: entries) w → ahead w0 entries w' →
  dom (secret_refs w') = dom (secret_refs w) →
  (∀ h, h ≠ sm_handle entry → secret_refs w' !! h = secret_refs w !! h ∧ stored w' !! h = stored w !! h) →
  (∀ m, stored w' !! sm_handle entry = Some m → stored w !! sm_handle entry = Some m) →
  settled w' (sm_handle entry) → recon w0 entries w'.
Proof.
  intros [Ha Hs Hdom Hst] Ha' Hdom' Hother Hsame Hset. split; [done| |congruence|].
  - intros h Hh. destruct (decide (h = sm_handle entry)) as [->|Hne]; [done|].
    destruct (Hother h Hne) as [Er Es]. intros r Hr. rewrite Er in Hr. rewrite Es.
    apply Hs; [|done]. by apply not_elem_of_cons.
  - intros h m Hm. apply Hst. destruct (decide (h = sm_handle entry)) as [->|Hne]; [by apply Hsame|].
    by rewrite <- (proj2 (Hother h Hne)).
Qed.

Lemma dom_set_row_state h state now (rows : gmap SecretHandle RefRow) :
  dom (set_row_state h state now rows) = dom rows.
Proof.
  unfold set_row_state. destruct (rows !! h) eqn:E; [|done]. rewrite dom_insert_L.
  apply elem_of_dom_2 in E. set_solver.
Qed.

Lemma recon_set_store w0 entries w v :
  contents v = stored w → recon w0 entries w → recon w0 entries (set_store v w).
Proof.
  intros E [Ha Hs Hdom Hst]. split; [done| |done|].
  - intros h Hh r Hr. specialize (Hs h Hh r Hr). simpl. by rewrite E.
  - simpl. rewrite E. exact Hst.
Qed.

(** A secret that is given up: disabled first, its material deleted next. *)
Lemma reconcile_drop w0 entry entries w n (summary : ReconciliationSummary) :
  recon w0 (entry :: entries) w → sm_kind entry ≠ EndpointIdentity →
  wp (disable (sm_handle entry);; delete_if_present (sm_handle entry);; ret summary) w n
    (λ r w' _, match r with
               | Ok _ => recon w0 entries w'
               | Err _ => map_lift ref_reconciled (secret_refs w0) (secret_refs w')
               end).
Proof.
  intros Hr Hkind. pose proof (rc_ahead _ _ _ Hr) as Ha.
  apply wp_bind, wp_set_metadata_state; [intros; apply Ha|]. intros now n'.
  pose proof (ahead_set_state w0 entry entries w Disabled now Ha (or_introl (conj eq_refl Hkind))) as Ha'.
  apply wp_bind, wp_delete_if_present. intros v Hother Hsame. split; [intros; apply Ha'|].
  intros Hnone. apply wp_ret. eapply recon_next; [exact Hr|exact Ha'|..]; simpl.
  - apply dom_set_row_state.
  - intros h Hne. split; [by apply lookup_set_row_state_ne | by apply Hother].
  - exact Hsame.
  - intros r Hrow. right. split; [|done]. simpl in Hrow. unfold set_row_state in Hrow.
    destruct (secret_refs w !! sm_handle entry) as [old|] eqn:E; [|congruence].
    rewrite lookup_insert_eq in Hrow. by simplify_eq/=.
Qed.

Lemma reconcile_entry_step w0 entry entries w n summary :
  recon w0 (entry :: entries) w →
  wp (reconcile_entry summary entry) w n
    (λ r w' _, match r with
               | Ok _ => recon w0 entries w'
               | Err _ => map_lift ref_reconciled (secret_refs w0) (secret_refs w')
               end).
Proof.
  intros Hr. pose proof (rc_ahead _ _ _ Hr) as Ha. unfold reconcile_entry.
  destruct (proj2 (proj2 Ha) entry (list_elem_of_here _ _)) as (r & Hrow & Hm).
  apply row_to_metadata_Ok in Hm as (_ & Hk & Hs & Hi).
  destruct (decide (sm_state entry = Disabled)) as [Ed|Ed].
  { (* disabled: only the material goes *)
    apply wp_bind, wp_delete_if_present. intros v Hother Hsame. split; [intros; apply Ha|].
    intros Hnone. apply wp_ret. eapply recon_next; [exact Hr|by eapply ahead_next|done| |exact Hsame|].
    - intros h Hne. split; [done | by apply Hother].
    - intros r' Hr'. right. simpl in Hr'. simplify_eq. by rewrite Hs, Ed. }
  apply wp_bind, wp_store_get_raw. intros v Hv.
  pose proof (recon_set_store w0 _ w v Hv Hr) as Hr'.
  split; [intros; apply Ha|]. split.
  { (* the material cannot be read *)
    intros [| | |]; try (apply wp_fail, Ha); (case_decide; [apply wp_fail, Ha | by apply reconcile_drop]). }
  intros material Hmat.
  destruct (validate_material (sm_kind entry) material (sm_expected_identity entry)) as [[]|e] eqn:Ev; simpl;
    [|case_decide; [apply wp_fail, Ha | by apply reconcile_drop]].
  destruct (decide (sm_state entry = Staged)) as [Es|Es].
  - (* staged and readable: activated *)
    apply wp_bind, wp_set_metadata_state; [intros; apply Ha|]. intros now n'. apply wp_ret.
    eapply recon_next; [exact Hr'|by apply ahead_set_state; [apply Hr'|auto]|..]; simpl.
    + apply dom_set_row_state.
    + intros h Hne. split; [by apply lookup_set_row_state_ne | done].
    + done.
    + intros r' Hr''. simpl in Hr''. rewrite (lookup_set_row_state _ _ _ _ r) in Hr'' by done.
      simplify_eq/=. left. split; [done|]. exists (sm_kind entry), material. rewrite Hv, Hi. done.
  - (* active and readable *)
    apply wp_ret. eapply recon_next; [exact Hr'|by eapply ahead_next, Hr'|done|done|done|].
    intros r' Hr''. simpl in Hr''. simplify_eq. left. split.
    + rewrite Hs. by destruct (sm_state entry).
    + exists (sm_kind entry), material. simpl. rewrite Hv, Hi. done.
Qed.

(** What the loop over the stored handles leaves: every one of them is known. *)
Definition known_or_listed (known todo : list SecretHandle) w : Prop :=
  ∀ h, is_Some (stored w !! h) → h ∈ known ∨ h ∈ todo.

Lemma delete_orphan_step known h todo w n summary :
  known_or_listed known (h :: todo) w →
  wp (delete_orphan known summary h) w n
    (λ r w' _, secret_refs w' = secret_refs w ∧
      (∀ k, k ∈ known → stored w' !! k = stored w !! k) ∧
      (∀ k m, stored w' !! k = Some m → stored w !! k = Some m) ∧
      ∀ s, r = Ok s → known_or_listed known todo w').
Proof.
  intros Hk. unfold delete_orphan. destruct (str_in h known) eqn:E.
  { apply wp_ret. do 3 (split; [done|]). intros _ _ k Hs. apply str_in_elem in E.
    destruct (Hk k Hs) as [|[->|]%elem_of_cons]; auto. }
  assert (h ∉ known) as Hnot by (intros Hin; apply str_in_elem in Hin; congruence).
  set (v := (delete_secret h (secret_store w)).2).
  assert (∀ k, k ∈ known → contents v !! k = stored w !! k) as Hsame.
  { intros k Hin. apply delete_other. by intros ->. }
  assert (∀ k m, contents v !! k = Some m → stored w !! k = Some m) as Honly.
  { intros k m. destruct (decide (k = h)) as [->|Hne]; [apply delete_only|]. unfold v. by rewrite delete_other. }
  apply wp_bind, wp_bind, wp_spawn_blocking; [|by intros; repeat split].
  intros [[]|e] Hr; apply wp_of_result; [|by repeat split].
  apply wp_ret. do 3 (split; [done|]). intros _ _ k [m Hm]. simpl in Hm.
  assert (contents v !! h = None) as Hnone by (apply delete_ok; by left).
  destruct (Hk k (ex_intro _ m (Honly _ _ Hm))) as [|[->|]%elem_of_cons]; [by left|unfold v in Hnone; congruence|by right].
Qed.

Lemma recon_start w entries v :
  contents v = stored w → NoDup (sm_handle <$> entries) →
  (∀ h, h ∈ sm_handle <$> entries ↔ is_Some (secret_refs w !! h)) →
  (∀ entry, entry ∈ entries → describes w entry) → recon w entries (set_store v w).
Proof.
  intros Hv Hnd Hdom Hd. split; [|..].
  - split; [reflexivity | by split].
  - intros h Hh r Hr. exfalso. apply Hh, Hdom. by exists r.
  - done.
  - simpl. by rewrite Hv.
Qed.

Lemma settled_ext w w' h :
  secret_refs w' = secret_refs w → stored w' !! h = stored w !! h → settled w h → settled w' h.
Proof. intros E1 E2 Hs r Hr. rewrite E2. apply Hs. by rewrite <- E1. Qed.

(** What the second loop keeps of the first one's work. *)
Lemma delete_orphans w0 w known todo n summary :
  recon w0 [] w → known_or_listed known todo w →
  (∀ h, h ∈ known ↔ is_Some (secret_refs w0 !! h)) →
  wp (fold_each (delete_orphan known) todo summary) w n (λ res w' _,
    map_lift ref_reconciled (secret_refs w0) (secret_refs w') ∧
    (∀ s, res = Ok s → recon w0 [] w' ∧ known_or_listed known [] w')).
Proof.
  intros Hr Hk Hknown.
  apply (wp_fold_each (λ _ todo w', recon w0 [] w' ∧ known_or_listed known todo w')); [done| |].
  - intros b h todo' w1 n1 [Hr1 Hk1]. eapply wp_mono; [by eapply delete_orphan_step|].
    intros r w2 n2 (Erefs & Hsame & Honly & Hk2).
    destruct Hr1 as [(Hl & Hnd & Hd) Hset Hdom Hst].
    assert (recon w0 [] w2) as Hr2.
    { split; [split; [by rewrite Erefs|split; [done|]]| |congruence|eauto].
      - by intros entry []%elem_of_nil.
      - intros k Hkin r' Hrow. apply (settled_ext w1 w2); [done| |by apply Hset|done].
        apply Hsame, Hknown, elem_of_dom. rewrite <- Hdom, <- Erefs. by apply elem_of_dom_2 in Hrow. }
    destruct r as [s|e]; simpl; [split; [done | by eapply Hk2] | split; [apply Hr2 | done]].
  - intros s w1 n1 [Hr1 Hk1]. split; [apply Hr1|]. by intros s' [= <-].
Qed.

Lemma wp_reconcile w n :
  wp reconcile w n (λ res w' _,
    map_lift ref_reconciled (secret_refs w) (secret_refs w') ∧
    (∀ summary, res = Ok summary →
      dom (secret_refs w') = dom (secret_refs w) ∧
      (∀ h, settled w' h) ∧
      (∀ h, is_Some (stored w' !! h) → is_Some (secret_refs w' !! h)) ∧
      (∀ h m, stored w' !! h = Some m → stored w !! h = Some m))).
Proof.
  apply wp_bind, wp_list_metadata; [intros; by split|]. intros entries n' Hnd Hdom Hd.
  apply wp_bind, wp_bind, wp_spawn_blocking; [|by split].
  intros [handles|e] Hlist; apply wp_of_result; [|by split].
  set (v := (list_handles (secret_store w)).2).
  assert (contents v = stored w) as Hv by apply list_keeps.
  apply wp_bind. apply (wp_fold_each (λ _ entries w', recon w entries w'));
    [by apply recon_start| |].
  { intros b entry todo w1 n1 Hr. eapply wp_mono; [by apply reconcile_entry_step|].
    intros [s|e] w2 n2 H2; [done | by split]. }
  intros summary w1 n1 Hr1. eapply wp_mono; [apply (delete_orphans w w1); [done| |done]|].
  { intros h [m Hm]. right. eapply list_ok; [exact Hlist|]. exists m. by apply (rc_store _ _ _ Hr1). }
  intros res w2 n2 (Hl & H2). split; [done|]. intros s ->. destruct (H2 s eq_refl) as [Hr2 Hk2].
  split; [apply Hr2|]. assert (∀ h, settled w2 h) as Hset.
  { intros h. apply (rc_settled _ _ _ Hr2). by intros []%elem_of_nil. }
  split; [done|]. split; [|apply (rc_store _ _ _ Hr2)]. intros h Hs.
  destruct (Hk2 h Hs) as [Hin|[]%elem_of_nil]. apply Hdom, elem_of_dom in Hin.
  rewrite <- (rc_dom _ _ _ Hr2) in Hin. by apply elem_of_dom in Hin.
Qed.

(** C27: start-up reconciliation makes the credential store and the table
    agree. Whatever a crash left behind, when [reconcile] succeeds no secret is staged any
    more, every active one has valid material in the store, every disabled one has none, and
    the store holds nothing else; no material is invented. Whatever the outcome, no row
    disappears, no disabled secret becomes usable and the endpoint identity is never given
    up. *)
Theorem reconcile_exact w n :
  wp reconcile w n (λ res w' _,
    map_lift ref_reconciled (secret_refs w) (secret_refs w') ∧
    (∀ summary, res = Ok summary →
      dom (secret_refs w') = dom (secret_refs w) ∧
      (∀ h, settled w' h) ∧
      (∀ h, is_Some (stored w' !! h) ↔
            ∃ r, secret_refs w' !! h = Some r ∧ rf_state r = "active"%string) ∧
      (∀ h m, stored w' !! h = Some m → stored w !! h = Some m))).
Proof.
  eapply wp_mono; [apply wp_reconcile|]. intros res w' n' [Hl Hok]. split; [done|].
  intros summary E. destruct (Hok summary E) as (Hdom & Hset & Hrow & Hstore).
  split; [done|]. split; [done|]. split; [|done]. intros h. split.
  - intros Hs. destruct (Hrow h Hs) as [r Hr]. exists r. split; [done|].
    destruct (Hset h r Hr) as [[? _]|[_ Hnone]]; [done|]. destruct Hs as [m Hm]. congruence.
  - intros (r & Hr & Ha). destruct (Hset h r Hr) as [[_ (k & m & _ & Hm & _)]|[Hd _]]; [by exists m|].
    congruence.
Qed.

Lemma wp_store_get h w n Q :
  (∀ v, contents v = stored w →
    (∀ e, Q (Err e) (set_store v w) n) ∧
    (∀ m, stored w !! h = Some m → Q (Ok m) (set_store v w) n)) →
  wp (store_get h) w n Q.
Proof.
  intros HQ. apply wp_bind, wp_store_get_raw. intros v Hv. destruct (HQ v Hv) as [He Ho].
  split; [apply He|]. split; [|intros m Hm; by apply wp_of_result, Ho].
  intros e. apply wp_of_result, He.
Qed.

(** Material is handed out only for an active secret, unchanged, and only if it is what the
    metadata says. *)
Lemma wp_load h w n Q :
  (∀ e v n', contents v = stored w → Q (Err e) (set_store v w) n') →
  (∀ entry material v n', contents v = stored w → sm_handle entry = h → describes w entry →
     sm_state entry = Active → stored w !! h = Some material →
     validate_material (sm_kind entry) material (sm_expected_identity entry) = Ok tt →
     Q (Ok material) (set_store v w) n') →
  wp (load h) w n Q.
Proof.
  intros He Ho. assert (∀ e n', Q (Err e) w n') as He'.
  { intros e n'. specialize (He e (secret_store w) n' eq_refl). by destruct w. }
  apply wp_bind, wp_find_metadata; [done|intros; by apply wp_fail|].
  intros entry n' Hh Hd. case_decide as Hst; [|by apply wp_fail].
  apply wp_bind, wp_store_get. intros v Hv. split; [intros; by apply He|]. intros m Hm.
  apply wp_bind, wp_of_result.
  destruct (validate_material _ m _) as [[]|e] eqn:Ev; [|by apply He].
  apply wp_ret. by eapply Ho.
Qed.

Lemma set_state_of_new h r state now w :
  on_refs (set_row_state h state now) (on_refs (λ _, <[h := r]> (secret_refs w)) w) =
  on_refs <[h := set_ref_state state now r]> w.
Proof.
  unfold on_refs, set_row_state. simpl. by rewrite lookup_insert_eq, insert_insert_eq.
Qed.

(** [protect] either leaves no usable trace or adds exactly one active row, backed by the
    material. *)
Lemma wp_protect kind material expected w n Q :
  (∀ e v rows n',
     (∀ h r, rows !! h = Some r → rf_state r ≠ "staged"%string → secret_refs w !! h = Some r) →
     dom (secret_refs w) ⊆ dom rows →
     Q (Err e) (on_refs (λ _, rows) (set_store v w)) n') →
  (∀ h v created now n',
     secret_refs w !! h = None → contents v !! h = Some material →
     (∀ h', h' ≠ h → contents v !! h' = stored w !! h') →
     validate_material kind material expected = Ok tt →
     Q (Ok h) (on_refs <[h := {| rf_kind := kind_as_str kind; rf_state := "active";
                                 rf_expected_identity := expected; rf_created_at := created;
                                 rf_updated_at := now |}]> (set_store v w)) n') →
  wp (protect kind material expected) w n Q.
Proof.
  intros He Ho. assert (∀ e v n', Q (Err e) (set_store v w) n') as He'.
  { intros e v n'. specialize (He e v (secret_refs w) n'). by apply He. }
  apply wp_bind, wp_of_result. destruct (validate_material kind material expected) as [[]|e] eqn:Ev;
    [|specialize (He' e (secret_store w) n); by destruct w].
  apply wp_bind, wp_bind, wp_uuid_v4, wp_ret. set (h := (_ +:+ _)).
  set (v1 := (put h material (secret_store w)).2).
  apply wp_bind, wp_bind, wp_spawn_blocking; [|intros; apply He'].
  intros r1 Hr1. apply wp_of_result. destruct r1 as [[]|e]; [simpl|apply He'].
  apply wp_bind, wp_store_get. intros v2 Hv2. split; [intros; apply He'|]. intros stored1 Hst.
  case_bool_decide as Heq; [subst stored1|apply wp_fail, He'].
  apply wp_bind, wp_of_result. rewrite Ev. apply wp_bind, wp_try, wp_bind, wp_now_ms, wp_write_refs.
  { intros e n1. apply wp_bind, wp_delete_if_present. intros v3 _ _.
    split; [intros; apply He'|]. intros _. apply wp_fail, He'. }
  intros rows n1. unfold insert_row. simpl. destruct (secret_refs w !! h) as [r|] eqn:Eh; [done|].
  intros [= <-]. apply wp_bind, wp_set_metadata_state.
  - intros e n2. apply (He e v2); [|rewrite dom_insert_L; set_solver]. intros h' r Hr Hs.
    apply lookup_insert_Some in Hr as [[_ <-]|[_ Hr]]; done.
  - intros now n2. apply wp_ret.
    change (secret_refs w) with (secret_refs (set_store v2 w)). rewrite set_state_of_new.
    apply (Ho h v2); [done|by rewrite Hv2| |done].
    intros h' Hne. rewrite Hv2. simpl. by apply put_other.
Qed.

(** What is protected is what is loaded. After [protect] returned a
    handle, the secret is active under a handle that was new, every other secret is as it
    was, and loading the handle yields exactly the protected material (it does whenever the
    database and the credential store answer). A failed [protect] leaves no new usable
    secret. *)
Theorem protect_load_roundtrip kind material expected w n :
  wp (protect kind material expected) w n (λ res w' n', match res with
    | Ok h =>
        secret_refs w !! h = None ∧
        (∀ h', h' ≠ h → secret_refs w' !! h' = secret_refs w !! h' ∧
                        stored w' !! h' = stored w !! h') ∧
        wp (load h) w' n' (λ res' _ _,
          match res' with
          | Ok material' => material' = material
          | Err _ => io_fault n' ≠ None ∨
                     ∀ m, (get_secret h (secret_store w')).1 ≠ Returned (Ok m)
          end)
    | Err _ =>
        ∀ h r, secret_refs w' !! h = Some r → rf_state r = "active"%string →
               secret_refs w !! h = Some r
    end).
Proof.
  apply wp_protect.
  - intros e v rows n' Hrows _ h r Hr Ha. apply (Hrows h r Hr). by rewrite Ha.
  - intros h v created now n' Hnew Hm Hother Hv. split; [done|]. split.
    { intros h' Hne. split; [by apply lookup_insert_ne | by apply Hother]. }
    unfold load, find_metadata, select_refs, sql, store_get, store_get_raw.
    apply wp_bind, wp_bind, wp_map_err, wp_stmt; [intros m Hio; left; by rewrite Hio|].
    intros Hio. apply wp_of_result. simpl. rewrite lookup_insert_eq. simpl.
    unfold row_to_metadata. simpl. rewrite kind_roundtrip. simpl.
    apply wp_bind, wp_bind, wp_spawn_blocking_full; simpl.
    + intros [m|e] Hg; apply wp_of_result; simpl.
      * apply wp_bind, wp_of_result. apply get_ok in Hg as Hm'.
        assert (m = material) as -> by congruence. by rewrite Hv.
      * right. intros m Hm'. congruence.
    + intros e Hnever. right. intros m. apply Hnever.
Qed.

(** *** The endpoint identity *)

(** [material] is protected as the endpoint identity: active, readable and matching the
    endpoint id on record. *)
Definition live_identity w (material : SecretMaterial) : Prop :=
  ∃ h r, secret_refs w !! h = Some r ∧ rf_kind r = "endpoint-identity"%string ∧
         rf_state r = "active"%string ∧
         rf_expected_identity r = Some (endpoint_id material) ∧ stored w !! h = Some material.

Definition identity_handle w h : Prop :=
  ∀ r, secret_refs w !! h = Some r → rf_kind r = "endpoint-identity"%string.

(** The legacy key file is kept, or its key is in custody. *)
Definition legacy_migrated w w' : Prop :=
  legacy_identity w' = legacy_identity w ∨
  ∃ text bytes material,
    legacy_identity w' = None ∧ legacy_identity w = Some text ∧
    hexlower_decode (trim text) = Some bytes ∧
    live_identity w' material ∧ endpoint_id material = public_id bytes.

Lemma live_identity_ext w w' material :
  secret_refs w' = secret_refs w → stored w' = stored w →
  live_identity w material → live_identity w' material.
Proof. intros E1 E2 (h & r & Hr & K & A & I & S). exists h, r. by rewrite E1, E2. Qed.

Lemma legacy_migrated_ext w w' w'' :
  legacy_identity w'' = legacy_identity w' → secret_refs w'' = secret_refs w' →
  stored w'' = stored w' → legacy_migrated w w' → legacy_migrated w w''.
Proof.
  intros E1 E2 E3 [E|(text & bytes & m & El & Et & Eh & Hlive & Em)]; [left; congruence|].
  right. exists text, bytes, m. split; [congruence|]. do 2 (split; [done|]).
  split; [by eapply live_identity_ext | done].
Qed.

Lemma wp_load_identity h w n Q :
  identity_handle w h →
  (∀ e v n', contents v = stored w → Q (Err e) (set_store v w) n') →
  (∀ material v n', contents v = stored w → live_identity (set_store v w) material →
     Q (Ok material) (set_store v w) n') →
  wp (load h) w n Q.
Proof.
  intros Hid He Ho. apply wp_load; [done|].
  intros entry material v n' Hv <- Hd%describes_Ok Hst Hm Hval. apply Ho; [done|].
  destruct Hd as (r & Hr & Hk & Hs & Hi). pose proof (Hid r Hr) as Hkind.
  assert (sm_kind entry = EndpointIdentity) as Ek by (apply kind_as_str_inj; simpl; congruence).
  rewrite Ek in Hval. simpl in Hval. destruct (sm_expected_identity entry) as [expected|]; [|done].
  destruct (str_eqb _ expected) eqn:E; [|done]. apply str_eqb_eq in E as <-.
  exists (sm_handle entry), r. rewrite Hst in Hs. simpl in *. by rewrite Hv.
Qed.

Lemma wp_fs_call {A} (f : Vault V → A * Vault V) w n (Q : result A (IoErrorKind * string) → _) :
  (∀ e n', Q (Err e) w n') → (∀ n', Q (Ok (f w).1) (f w).2 n') → wp (fs_call f) w n Q.
Proof.
  intros He Ho. unfold wp, fs_call. destruct (fs_fault n); [apply He|].
  specialize (Ho (S n)). by destruct (f w).
Qed.

Lemma wp_read_legacy w n Q :
  (∀ e n', Q (Err e) w n') →
  (∀ text bytes n', legacy_identity w = Some text → hexlower_decode (trim text) = Some bytes →
     Q (Ok {| material_bytes := bytes |}) w n') →
  wp read_legacy_endpoint_identity w n Q.
Proof.
  intros He Ho. apply wp_bind, wp_try, wp_fs_call.
  - intros [[] m] n'; apply wp_fail, He.
  - intros n'. simpl. destruct (legacy_identity w) as [text|] eqn:El; [|apply wp_fail, He].
    destruct (hexlower_decode (trim text)) as [bytes|] eqn:Eh; [|apply wp_fail, He].
    apply wp_of_result. unfold secret_material_new. destruct (_ || _); [apply He | by eapply Ho].
Qed.

Lemma wp_remove_legacy w n Q :
  (∀ r n', Q r w n') → (∀ r n', Q r (set_legacy None w) n') →
  wp remove_legacy_identity_durably w n Q.
Proof.
  intros Hkeep Hgone. apply wp_bind, wp_try, wp_fs_call; [intros [[] m] n'; apply Hkeep|].
  intros n'. simpl. destruct (legacy_identity w) as [text|]; [|apply Hgone].
  apply wp_map_err, wp_fs_call; [intros; apply Hgone | intros; apply Hgone].
Qed.

(** Once [material] is in custody, removing a legacy file that names the same endpoint is
    a migration. *)
Lemma wp_remove_migrated w0 w n text bytes material Q :
  legacy_identity w0 = Some text → hexlower_decode (trim text) = Some bytes →
  legacy_identity w = Some text → live_identity w material → endpoint_id material = public_id bytes →
  (∀ r w' n', legacy_migrated w0 w' → secret_refs w' = secret_refs w → Q r w' n') →
  wp remove_legacy_identity_durably w n Q.
Proof.
  intros Ht Hb Hw Hlive Hid HQ. apply wp_remove_legacy; intros r n'; apply HQ; try done.
  - left. congruence.
  - right. by exists text, bytes, material.
Qed.

Lemma identity_of_entry w entry :
  sm_kind entry = EndpointIdentity → describes w entry → identity_handle w (sm_handle entry).
Proof. intros Ek (r & Hr & Hk & _)%describes_Ok r' Hr'. simplify_eq. by rewrite Hk, Ek. Qed.

(** With an active identity on record the table is only read. *)
Definition unmoved w w' : Prop :=
  (∃ h r, secret_refs w !! h = Some r ∧ active_of_kind EndpointIdentity h r = true) →
  secret_refs w' = secret_refs w.

Lemma wp_migrate w n Q :
  (∀ e w' n', legacy_migrated w w' → unmoved w w' → Q (Err e) w' n') →
  (∀ h w' n', legacy_migrated w w' → unmoved w w' → identity_handle w' h → Q (Ok h) w' n') →
  wp migrate_legacy_endpoint_identity w n Q.
Proof.
  intros He Ho. assert (∀ e v n', Q (Err e) (set_store v w) n') as He' by (intros; apply He; [by left|done]).
  assert (∀ e n', Q (Err e) w n') as He'' by (intros; apply He; [by left|done]).
  apply wp_bind, wp_find_active_kind; [done|..].
  - intros n1 Hnone. assert (∀ w', unmoved w w') as Hun.
    { intros w' (h & r & Hr & Ha). by rewrite (Hnone h r Hr) in Ha. }
    apply wp_bind, wp_read_legacy; [done|].
    intros text bytes n2 Ht Hb. apply wp_bind, wp_protect.
    { intros e v rows n3 _ _. apply He; [by left | done]. }
    intros h v created now n3 Hnew Hm Hother Hval. apply wp_bind.
    set (r := Build_RefRow _ _ _ _ _).
    assert (∀ w', secret_refs w' = <[h := r]> (secret_refs w) → identity_handle w' h) as Hid.
    { intros w' E r' Hr'. rewrite E, lookup_insert_eq in Hr'. by simplify_eq/=. }
    apply (wp_remove_migrated w _ _ text bytes {| material_bytes := bytes |}); [done|done|done| |done|].
    + exists h, r. simpl. rewrite lookup_insert_eq. do 4 (split; [done|]). exact Hm.
    + intros [[]|e] w' n4 Hmig Hrefs; [|by apply He].
      apply wp_ret, Ho; [done|done|by apply Hid].
  - intros entry n1 Ek Es Hd. pose proof (identity_of_entry w entry Ek Hd) as Hid.
    apply wp_bind, wp_load_identity; [done|done|].
    intros protected v n2 Hv Hlive. apply wp_bind, wp_try, wp_read_legacy.
    { intros e n3. apply wp_bind.
      destruct e; first [apply wp_fail, He' | apply wp_ret, wp_ret, Ho; [by left|done|exact Hid]]. }
    intros text bytes n3 Ht Hb. apply wp_bind. destruct (str_eqb _ _) eqn:E; [|apply wp_fail, He'].
    apply str_eqb_eq in E.
    apply (wp_remove_migrated w _ _ text bytes protected); [done..|by rewrite <- E|].
    intros [[]|e] w' n4 Hmig Hrefs; [|apply He; [done|by intros _]].
    apply wp_ret, Ho; [done|by intros _|]. intros r Hr. rewrite Hrefs in Hr. by apply Hid.
Qed.

Lemma wp_sleep w n (Q : result unit VnidropError → _) :
  Q (Ok tt) (on_refs (others n) w) (S n) → wp sleep w n Q.
Proof. done. Qed.

Lemma wp_generate_key w n (Q : result string VnidropError → Vault V → _) :
  Q (Ok (fresh_key n)) w (S n) → wp generate_key w n Q.
Proof. done. Qed.

Lemma wp_poll k w n Q :
  (∀ e rows n', Q (Err e) (on_refs (λ _, rows) w) n') →
  (∀ h rows n', identity_handle (on_refs (λ _, rows) w) h → Q (Ok h) (on_refs (λ _, rows) w) n') →
  wp (poll_active_endpoint_identity k) w n Q.
Proof.
  intros He Ho. revert w n He Ho. induction k as [|k IH]; intros w n He Ho; simpl.
  - apply wp_fail. specialize (He (SecureStorageUnavailable "timed out waiting for protected endpoint identity") (secret_refs w) n).
    by destruct w.
  - apply wp_bind, wp_find_active_kind.
    + intros e n'. specialize (He e (secret_refs w) n'). by destruct w.
    + intros n' _. apply wp_bind, wp_sleep.
      apply IH; [intros e rows n''; apply (He e rows) | intros h rows n''; apply (Ho h rows)].
    + intros entry n' Ek Es Hd. apply wp_ret. pose proof (identity_of_entry w entry Ek Hd) as Hid.
      specialize (Ho (sm_handle entry) (secret_refs w) n'). by destruct w; apply Ho.
Qed.

Lemma wp_wait w n Q :
  (∀ e rows n', Q (Err e) (on_refs (λ _, rows) w) n') →
  (∀ h rows n', identity_handle (on_refs (λ _, rows) w) h → Q (Ok h) (on_refs (λ _, rows) w) n') →
  wp wait_for_active_endpoint_identity w n Q.
Proof. intros He Ho. by apply (wp_poll (polls n) w (S n)). Qed.

(** The outcome of a start: an identity that custody can vouch for. *)
Definition identity_outcome w0 (res : result SecretMaterial VnidropError) w' : Prop :=
  (∀ m, res = Ok m → live_identity w' m) ∧ legacy_migrated w0 w'.

Lemma load_outcome w0 h w n :
  identity_handle w h → legacy_migrated w0 w →
  wp (load h) w n (λ res w' _, identity_outcome w0 res w').
Proof.
  intros Hid Hmig. apply wp_load_identity; [done| |].
  - intros e v n' Hv. split; [done|]. by eapply legacy_migrated_ext; [..|exact Hmig].
  - intros m v n' Hv Hlive. split; [by intros ? [= <-]|]. by eapply legacy_migrated_ext; [..|exact Hmig].
Qed.

(** C38: an endpoint identity is only ever handed out from custody, and the
    key file of an old release is deleted only when custody holds its key. Whatever path
    initialization takes (identity on record, migration of the key file, first start,
    waiting for another start), the key it returns is protected: its row is active, names
    its endpoint id, and the credential store holds exactly that key. *)
Theorem initialize_identity w n :
  wp initialize_endpoint_identity w n (λ res w' _, identity_outcome w res w').
Proof.
  assert (legacy_migrated w w) as Hrefl by by left.
  assert (∀ rows, legacy_migrated w (on_refs (λ _, rows) w)) as Hrows by by left.
  apply wp_bind, wp_find_active_kind; [by intros; split| |].
  2: { intros entry n1 _ _ _. apply wp_bind, wp_migrate; [by intros; split|].
       intros h w1 n2 Hmig _ Hid. by apply load_outcome. }
  intros n1 _. apply wp_bind, wp_select_refs; [by intros; split|]. intros n2.
  destruct (exists_where _ _).
  { apply wp_bind, wp_try, wp_wait; [intros; apply wp_fail; by split|].
    intros h rows n3 Hid. by apply load_outcome. }
  apply wp_bind, wp_map_err, wp_fs_call; [by intros; split|]. intros n3. simpl. case_bool_decide.
  { apply wp_bind, wp_migrate; [by intros; split|].
    intros h w1 n4 Hmig _ Hid. by apply load_outcome. }
  apply wp_bind, wp_generate_key, wp_bind, wp_of_result.
  destruct (secret_material_new _) as [material|e]; [|by split].
  apply wp_bind, wp_try, wp_protect.
  - intros e v rows n4 _ _. apply wp_bind, wp_try, wp_wait; [intros; apply wp_fail; split; [done|by left]|].
    intros h rows' n5 Hid. apply load_outcome; [done|by left].
  - intros h v created now n4 _ Hm _ _. apply load_outcome; [|by left].
    intros r Hr. simpl in Hr. rewrite lookup_insert_eq in Hr. by simplify_eq/=.
Qed.

Lemma live_endpoint_true h r :
  live_endpoint h r = true ↔ rf_kind r = "endpoint-identity"%string ∧ rf_state r ≠ "disabled"%string.
Proof.
  unfold live_endpoint. rewrite andb_true_iff, negb_true_iff, str_eqb_eq.
  rewrite <- not_true_iff_false, str_eqb_eq. done.
Qed.

(** Reconciliation creates no live endpoint identity. *)
Lemma reconciled_live_back w w' h r' :
  map_lift ref_reconciled (secret_refs w) (secret_refs w') →
  dom (secret_refs w') = dom (secret_refs w) →
  secret_refs w' !! h = Some r' → live_endpoint h r' = true →
  ∃ r, secret_refs w !! h = Some r ∧ live_endpoint h r = true.
Proof.
  intros Hl Hdom Hr' [Hk Hd]%live_endpoint_true. pose proof Hr' as Hin%elem_of_dom_2.
  rewrite Hdom in Hin. apply elem_of_dom in Hin as [r Hr]. exists r. split; [done|].
  destruct (Hl h r Hr) as (r1 & Hr1 & (Hk1 & _ & _ & Hd1 & _) & _). simplify_eq.
  apply live_endpoint_true. split; [congruence|]. intros E. by apply Hd, Hd1.
Qed.

(** A restart never changes the endpoint identity. If the table has an
    endpoint identity in use, active or left staged by a crash, then starting custody
    either fails or hands out a key with the endpoint id on record, whatever happened to
    the credential store, the key file and other tasks in the meantime; and in both cases
    that identity stays on record and in use. *)
Theorem identity_survives_restart h r id w n
  (Hrow : secret_refs w !! h = Some r) (Hlive : live_endpoint h r = true)
  (Hid : rf_expected_identity r = Some id)
  (Hone : ∀ h' r', secret_refs w !! h' = Some r' → live_endpoint h' r' = true → h' = h) :
  wp start_endpoint_identity w n (λ res w' _,
    (∀ m, res = Ok m → endpoint_id m = id) ∧
    ∃ r', secret_refs w' !! h = Some r' ∧ live_endpoint h r' = true ∧
          rf_expected_identity r' = Some id).
Proof.
  apply live_endpoint_true in Hlive as [Hk Hnd]. apply wp_bind.
  eapply wp_mono; [apply wp_reconcile|]. intros res w1 n1 [Hl Hok].
  destruct (Hl h r Hrow) as (r1 & Hr1 & (Hk1 & Hi1 & _) & Hnd1).
  assert (∀ w2, secret_refs w2 = secret_refs w1 → ∃ r', secret_refs w2 !! h = Some r' ∧
    live_endpoint h r' = true ∧ rf_expected_identity r' = Some id) as Hkept.
  { intros w2 E. exists r1. rewrite E. split; [done|]. split; [|congruence].
    apply live_endpoint_true. split; [congruence | by apply Hnd1]. }
  destruct res as [summary|e]; simpl; [|split; [done | by apply Hkept]].
  destruct (Hok summary eq_refl) as (Hdom & Hset & _ & _).
  assert (rf_state r1 = "active"%string) as Ha.
  { destruct (Hset h r1 Hr1) as [[? _]|[Hd _]]; [done|]. by destruct (Hnd1 Hk Hnd). }
  assert (active_of_kind EndpointIdentity h r1 = true) as Hact.
  { unfold active_of_kind. apply andb_true_iff. rewrite !str_eqb_eq. split; [simpl; congruence | done]. }
  apply wp_bind, wp_find_active_kind; [intros; split; [done | by apply Hkept]|..].
  { intros n2 Hnone. by rewrite (Hnone h r1 Hr1) in Hact. }
  intros entry n2 _ _ _. apply wp_bind, wp_migrate.
  { intros e w2 n3 _ Hun. split; [done|]. apply Hkept, Hun. by exists h, r1. }
  intros h2 w2 n3 _ Hun Hh2. assert (secret_refs w2 = secret_refs w1) as E by (apply Hun; by exists h, r1).
  apply wp_load_identity; [done|intros; split; [done | by apply Hkept]|].
  intros m v n4 _ (h3 & r3 & Hr3 & Hk3 & Ha3 & Hi3 & _). split; [|by apply Hkept].
  intros m' [= <-]. simpl in Hr3. rewrite E in Hr3.
  assert (h3 = h) as ->.
  { destruct (reconciled_live_back w w1 h3 r3 Hl Hdom Hr3) as (r0 & Hr0 & Hlive0); [|by eapply Hone].
    apply live_endpoint_true. split; [done|]. by rewrite Ha3. }
  congruence.
Qed.

(** Operations that only take secrets away. *)
Definition vault_shrinks w w' : Prop :=
  refs_evolve w w' ∧ ∀ h m, stored w' !! h = Some m → stored w !! h = Some m.

#[global] Instance vault_shrinks_preorder : PreOrder vault_shrinks.
Proof.
  split; [split; [reflexivity | done]|].
  intros w1 w2 w3 [E1 S1] [E2 S2]. split; [by etrans | auto].
Qed.

Lemma vault_shrinks_store w v :
  contents v = stored w → vault_shrinks w (set_store v w).
Proof. intros E. split; [by unfold refs_evolve|]. simpl. by rewrite E. Qed.

Lemma within_delete_if_present_shrinks h : within vault_shrinks (delete_if_present h).
Proof.
  intros w n. apply wp_delete_if_present. intros v Hother Hsame.
  assert (vault_shrinks w (set_store v w)) as Hs; [|by split; intros].
  split; [by unfold refs_evolve|]. intros h' m. simpl.
  destruct (decide (h' = h)) as [->|Hne]; [apply Hsame|]. by rewrite Hother.
Qed.

Lemma within_remove_shrinks h : within vault_shrinks (remove h).
Proof.
  unfold remove. apply within_bind; [apply _| |].
  - intros w n. apply wp_find_metadata; intros; reflexivity.
  - intros found. apply within_bind; [apply _| |intros _; apply within_delete_if_present_shrinks].
    destruct found; [|by apply within_ret, _]. intros w n.
    apply wp_set_metadata_state; [intros; reflexivity|]. intros now n'. split; [|done].
    apply set_row_state_evolves. intros r _. apply disable_evolves.
Qed.

Lemma within_load_shrinks h : within vault_shrinks (load h).
Proof. intros w n. apply wp_load; intros; by apply vault_shrinks_store. Qed.

(** *** Removal is final *)

Lemma within_reconcile : within (refs_evolve (V:=V)) reconcile.
Proof.
  intros w n. eapply wp_mono; [apply wp_reconcile|]. intros res w' n' [Hl _] h r Hr.
  destruct (Hl h r Hr) as (r' & Hr' & He & _). by exists r'.
Qed.

Lemma within_remove_orphaned referenced :
  within (refs_evolve (V:=V)) (remove_orphaned_targeted_authorizations referenced).
Proof.
  unfold remove_orphaned_targeted_authorizations.
  apply within_bind; [apply _|apply within_list_metadata|]. intros entries.
  apply within_fold_each; [apply _|]. intros removed entry. case_bool_decide; [|by apply within_ret, _].
  apply within_bind; [apply _|apply within_remove|]. intros _. by apply within_ret, _.
Qed.

Lemma within_delete_reset_handles handles : within (refs_evolve (V:=V)) (delete_reset_handles handles).
Proof. apply within_for_each; [apply _|]. apply within_delete_if_present. Qed.

Section Rely.
Hypothesis others_evolve : ∀ n rows, map_lift ref_evolves rows (others n rows).

Lemma within_sleep : within (refs_evolve (V:=V)) sleep.
Proof. intros w n. apply wp_sleep, others_evolve. Qed.

Lemma within_poll k : within (refs_evolve (V:=V)) (poll_active_endpoint_identity k).
Proof.
  induction k as [|k IH]; simpl; [by apply within_fail, _|].
  apply within_bind; [apply _|apply within_find_active_kind|].
  intros [active|]; [by apply within_ret, _|]. apply within_bind; [apply _|apply within_sleep | done].
Qed.

Lemma within_wait : within (refs_evolve (V:=V)) wait_for_active_endpoint_identity.
Proof. intros w n. apply (within_poll (polls n) w (S n)). Qed.

Lemma within_generate_key : within (refs_evolve (V:=V)) generate_key.
Proof. intros w n. apply wp_generate_key. reflexivity. Qed.

Lemma within_initialize : within (refs_evolve (V:=V)) initialize_endpoint_identity.
Proof.
  unfold initialize_endpoint_identity.
  repeat first [ apply within_find_active_kind | apply within_load | apply within_migrate
    | apply within_wait | apply within_protect | apply within_select_refs | apply within_generate_key
    | by apply within_fs_call | apply within_try | store_step ].
Qed.
End Rely.

(** The operations of custody, as data. *)
Inductive CustodyOp : Type :=
| OpProtect (kind : SecretKind) (material : SecretMaterial) (expected_identity : option string)
| OpLoad (handle : SecretHandle)
| OpRemove (handle : SecretHandle)
| OpDeleteResetHandles (handles : list SecretHandle)
| OpRemoveOrphaned (referenced_handles : gset SecretHandle)
| OpRequireUnrecoverable
| OpReconcile
| OpInitialize.

Definition exec_custody (op : CustodyOp) : M (Vault V) VnidropError unit :=
  match op with
  | OpProtect kind material expected => protect kind material expected;; ret tt
  | OpLoad handle => load handle;; ret tt
  | OpRemove handle => remove handle
  | OpDeleteResetHandles handles => delete_reset_handles handles
  | OpRemoveOrphaned referenced => remove_orphaned_targeted_authorizations referenced;; ret tt
  | OpRequireUnrecoverable => require_unrecoverable_endpoint_identity
  | OpReconcile => reconcile;; ret tt
  | OpInitialize => initialize_endpoint_identity;; ret tt
  end.

(** A sequence of operations, whatever each of them returns. *)
Definition run_custody (ops : list CustodyOp) : M (Vault V) VnidropError unit :=
  for_each ops (λ op, try (E:=VnidropError) (exec_custody op);; ret tt).

Lemma within_require_unrecoverable :
  within (refs_evolve (V:=V)) require_unrecoverable_endpoint_identity.
Proof.
  unfold require_unrecoverable_endpoint_identity, store_get_raw.
  apply within_bind; [apply _|apply within_list_metadata|]. intros entries.
  apply within_for_each; [apply _|]. intros entry. apply within_bind; [apply _|apply within_call|].
  intros [m|[]]; try case_match; first [by apply within_ret, _ | by apply within_fail, _].
Qed.

Lemma within_run_custody ops :
  (∀ n rows, map_lift ref_evolves rows (others n rows)) →
  within (refs_evolve (V:=V)) (run_custody ops).
Proof.
  intros Hothers. apply within_for_each; [apply _|]. intros op.
  apply within_bind; [apply _| |intros _; by apply within_ret, _]. apply within_try.
  destruct op; simpl; try (apply within_bind; [apply _| |intros _; by apply within_ret, _]);
    first [ apply within_protect | apply within_load | apply within_remove
          | apply within_delete_reset_handles | apply within_remove_orphaned
          | apply within_require_unrecoverable | apply within_reconcile
          | by apply within_initialize ].
Qed.

Lemma wp_remove_row h r w n :
  secret_refs w !! h = Some r →
  wp (remove h) w n (λ res w' _, res = Ok tt →
    ∃ r', secret_refs w' !! h = Some r' ∧ rf_state r' = "disabled"%string).
Proof.
  intros Hr. apply wp_bind, wp_find_metadata; [done|congruence|]. intros entry n1 _ _.
  apply wp_bind, wp_set_metadata_state; [done|]. intros now n2.
  apply wp_delete_if_present. intros v _ _. split; [done|]. intros _ _.
  eexists. split; [simpl; by apply lookup_set_row_state | done].
Qed.

Lemma load_disabled h r w n :
  secret_refs w !! h = Some r → rf_state r = "disabled"%string →
  wp (load h) w n (λ res _ _, ∀ m, res ≠ Ok m).
Proof.
  intros Hr Hd. apply wp_load; [done|]. intros entry m v n' _ <- (r' & Hr' & _ & Hs & _)%describes_Ok Ha.
  exfalso. rewrite Ha in Hs. simpl in Hs. congruence.
Qed.

(** Removing a secret is final. Once [remove] has succeeded, no sequence
    of custody operations, restarts and failures makes its handle load again. *)
Theorem removed_never_loads h r ops w n
  (Hothers : ∀ n rows, map_lift ref_evolves rows (others n rows))
  (Hrow : secret_refs w !! h = Some r) :
  wp (remove h) w n (λ res w1 n1, res = Ok tt →
    wp (run_custody ops) w1 n1 (λ _ w2 n2,
      wp (load h) w2 n2 (λ res' _ _, ∀ m, res' ≠ Ok m))).
Proof.
  eapply wp_mono; [by eapply wp_remove_row|]. intros res w1 n1 Hrem Hok.
  destruct (Hrem Hok) as (r1 & Hr1 & Hd1).
  eapply wp_mono; [by apply within_run_custody|]. intros res' w2 n2 Hev.
  destruct (Hev h r1 Hr1) as (r2 & Hr2 & _ & _ & _ & Hd2 & _).
  by eapply load_disabled, Hd2.
Qed.
End Reconcile.

(** ** The reference store *)

Inductive ReferenceStoreFailure : Type := FailLocked | FailUnavailable.

(** [FaultInjectingSecretStore]. *)
Record FaultInjectingSecretStore : Type := {
  fs_values : gmap SecretHandle SecretMaterial;
  fs_failure : option ReferenceStoreFailure;
  fs_corrupted : list SecretHandle
}.

Definition check_available (s : FaultInjectingSecretStore) : result unit SecureSecretStoreError :=
  match fs_failure s with
  | Some FailLocked => Err Locked
  | Some FailUnavailable => Err Unavailable
  | None => Ok tt
  end.

Definition on_values (f : gmap SecretHandle SecretMaterial → gmap SecretHandle SecretMaterial)
    (s : FaultInjectingSecretStore) : FaultInjectingSecretStore :=
  {| fs_values := f (fs_values s); fs_failure := fs_failure s; fs_corrupted := fs_corrupted s |}.

(** A call that first checks that the store is available. *)
Definition when_available {A} (f : FaultInjectingSecretStore → result A SecureSecretStoreError * FaultInjectingSecretStore)
    (s : FaultInjectingSecretStore) : blocking A * FaultInjectingSecretStore :=
  match check_available s with
  | Err e => (Returned (Err e), s)
  | Ok _ => match f s with (r, s') => (Returned r, s') end
  end.

#[global] Instance reference_store : SecureSecretStore FaultInjectingSecretStore := {|
  put h m := when_available (λ s, (Ok tt, on_values <[h := m]> s));
  get_secret h := when_available (λ s,
    (if str_in h (fs_corrupted s) then Err Corrupted
     else match fs_values s !! h with Some m => Ok m | None => Err Missing end, s));
  delete_secret h := when_available (λ s, (Ok tt, on_values (delete h) s));
  list_handles := when_available (λ s, (Ok (map_to_list (fs_values s)).*1, s))
|}.

#[global] Instance reference_store_laws : SecureSecretStoreLaws FaultInjectingSecretStore.
Proof.
  refine {| contents := fs_values |}; unfold when_available, check_available; simpl.
  - intros h m [vs f c] h' Hne. destruct f as [[]|]; simpl; [done..|]. by rewrite lookup_insert_ne.
  - intros h m [vs f c]. destruct f as [[]|]; simpl; [done..|]. by rewrite lookup_insert_eq.
  - intros h [vs f c]. by destruct f as [[]|].
  - intros h m [vs f c]. destruct f as [[]|]; simpl; [done..|].
    destruct (str_in h c); [done|]. by destruct (vs !! h) as [m'|]; intros [= <-].
  - intros h [vs f c] h' Hne. destruct f as [[]|]; simpl; [done..|]. by rewrite lookup_delete_ne.
  - intros h [vs f c]. destruct f as [[]|]; simpl; [by intros []..|]. intros _. apply lookup_delete_eq.
  - intros h [vs f c] m. destruct f as [[]|]; simpl; [done..|]. intros [_ Hm]%lookup_delete_Some. done.
  - intros [vs f c]. by destruct f as [[]|].
  - intros l [vs f c]. destruct f as [[]|]; simpl; [done..|]. intros [= <-] h.
    rewrite list_elem_of_fmap. split.
    + intros ([h' m] & -> & Hin%elem_of_map_to_list). by exists m.
    + intros [m Hm]. exists (h, m). split; [done|]. by apply elem_of_map_to_list.
Defined.

(** ** Concrete runs *)

Section Witnesses.
#[local] Instance vault_env : Env := quiet_env 1000 (λ n, pretty n).
#[local] Instance vault_text : ForeignText := demo_text.
#[local] Instance vault_host : Host := {|
  public_id := λ b, ("id-" +:+ b)%string;
  fresh_key := λ _, "0123456789abcdef0123456789abcdef"%string;
  hexlower_decode := λ _, None;
  fs_fault := λ _, None;
  polls := λ _, 3%nat;
  others := λ _ rows, rows
|}.

Definition demo_material : SecretMaterial :=
  {| material_bytes := "0123456789abcdef0123456789abcdef" |}.

Definition demo_ref (state : string) : RefRow := {|
  rf_kind := "endpoint-identity"; rf_state := state;
  rf_expected_identity := Some "id-0123456789abcdef0123456789abcdef"%string;
  rf_created_at := 1; rf_updated_at := 1 |}.

Definition empty_store : FaultInjectingSecretStore :=
  {| fs_values := ∅; fs_failure := None; fs_corrupted := [] |}.

(** A crash between staging and activating the identity, with an orphan in the store. *)
Definition crashed_vault : Vault FaultInjectingSecretStore := {|
  secret_refs := {[ "h"%string := demo_ref "staged" ]};
  secret_store := on_values (λ _, <["orphan"%string := demo_material]> {[ "h"%string := demo_material ]})
                    empty_store;
  legacy_identity := None
|}.

(** The first start generates an identity, the next one finds it. *)
Example first_start :
  let '(first, w1) := run start_endpoint_identity
    {| secret_refs := (∅ : gmap SecretHandle RefRow); secret_store := empty_store; legacy_identity := None |} in
  first = Ok demo_material ∧ (run start_endpoint_identity w1).1 = Ok demo_material.
Proof. by vm_compute. Qed.

Example crashed_start :
  let '(res, w') := run start_endpoint_identity crashed_vault in
  res = Ok demo_material ∧ (rf_state <$> secret_refs w' !! "h"%string) = Some "active"%string ∧
  fs_values (secret_store w') !! "orphan"%string = None.
Proof. by vm_compute. Qed.

Lemma identity_survives_restart_witness :
  wp start_endpoint_identity crashed_vault 0%nat (λ res w' _,
    (∀ m, res = Ok m → endpoint_id m = "id-0123456789abcdef0123456789abcdef"%string) ∧
    ∃ r', secret_refs w' !! "h"%string = Some r' ∧ live_endpoint "h" r' = true ∧
          rf_expected_identity r' = Some "id-0123456789abcdef0123456789abcdef"%string).
Proof.
  apply (identity_survives_restart "h" (demo_ref "staged") _ crashed_vault 0).
  - apply lookup_singleton_eq.
  - reflexivity.
  - reflexivity.
  - intros h' r' Hr' _. simpl in Hr'. by apply lookup_singleton_Some in Hr' as [-> _].
Defined.

Lemma removed_never_loads_witness :
  wp (remove "h") crashed_vault 0%nat (λ res w1 n1, res = Ok tt →
    wp (run_custody [OpReconcile; OpInitialize; OpProtect PairingEligibility demo_material None]) w1 n1
      (λ _ w2 n2, wp (load "h") w2 n2 (λ res' _ _, ∀ m, res' ≠ Ok m))).
Proof.
  apply (removed_never_loads "h" (demo_ref "staged")).
  - intros n rows. reflexivity.
  - apply lookup_singleton_eq.
Defined.
End Witnesses.
