(* ===== verification/SecretStores.v ===== *)
(** * [secure_secret/platform.rs]: credential stores of the platforms

    [SecureSecret.v] is proved against [SecureSecretStoreLaws]; the stores of the platforms are
    proved to obey them here, in [WindowsStore.v] and in [AndroidStore.v]. Their laws hold for
    the handles that the store can name and in the states it reaches ([StoreLawsFor]).
    [ScopedSecretStore] puts the secrets of each profile of a user under handles of its own. *)

From S2P Require Import Prelude Sql Errors SecureSecret.

(** ** The laws, for some handles and states *)

Record StoreLawsFor {V : Type} `{SecureSecretStore V} (P : SecretHandle → Prop) (I : V → Prop)
    (held : V → gmap SecretHandle SecretMaterial) : Prop := {
  put_stays h m v : I v → P h → I (put h m v).2;
  get_stays h v : I v → P h → I (get_secret h v).2;
  delete_stays h v : I v → P h → I (delete_secret h v).2;
  list_stays v : I v → I (list_handles v).2;
  put_others h m v h' : I v → P h → P h' → h' ≠ h → held (put h m v).2 !! h' = held v !! h';
  put_holds h m v : I v → P h → (put h m v).1 = Returned (Ok tt) → held (put h m v).2 !! h = Some m;
  get_holds h v h' : I v → P h → P h' → held (get_secret h v).2 !! h' = held v !! h';
  get_finds h m v : I v → P h → (get_secret h v).1 = Returned (Ok m) → held v !! h = Some m;
  delete_others h v h' : I v → P h → P h' → h' ≠ h → held (delete_secret h v).2 !! h' = held v !! h';
  delete_drops h v : I v → P h →
    (delete_secret h v).1 = Returned (Ok tt) ∨ (delete_secret h v).1 = Returned (Err Missing) →
    held (delete_secret h v).2 !! h = None;
  delete_adds_none h v m : I v → P h → held (delete_secret h v).2 !! h = Some m → held v !! h = Some m;
  list_holds v h : I v → P h → held (list_handles v).2 !! h = held v !! h;
  list_finds l v h : I v → P h → (list_handles v).1 = Returned (Ok l) → h ∈ l ↔ is_Some (held v !! h)
}.

(** A store that obeys them for all handles and states is one that custody can be built on. *)
Definition laws_for_all {V : Type} `{SecureSecretStore V} (held : V → gmap SecretHandle SecretMaterial)
    (L : StoreLawsFor (λ _, True) (λ _, True) held) : SecureSecretStoreLaws V.
Proof.
  refine {| contents := held |}.
  - intros. by apply (put_others _ _ _ L).
  - intros. by apply (put_holds _ _ _ L).
  - intros. apply map_eq. intros. by apply (get_holds _ _ _ L).
  - intros. by apply (get_finds _ _ _ L).
  - intros. by apply (delete_others _ _ _ L).
  - intros. by apply (delete_drops _ _ _ L).
  - intros. by apply (delete_adds_none _ _ _ L h).
  - intros. apply map_eq. intros. by apply (list_holds _ _ _ L).
  - intros. by apply (list_finds _ _ _ L).
Defined.

Lemma laws_for_some {V : Type} `{SecureSecretStoreLaws V} (P : SecretHandle → Prop) :
  StoreLawsFor P (λ _, True) contents.
Proof.
  split; intros; try done.
  - by apply put_other.
  - by apply put_ok.
  - by rewrite get_keeps.
  - by eapply get_ok.
  - by apply delete_other.
  - by apply delete_ok.
  - by apply (delete_only h).
  - by rewrite list_keeps.
  - by apply list_ok.
Qed.

(** ** Maps under other keys *)

Definition rekey {A B : Type} (f : string → A → option (string * B)) (t : gmap string A) : gmap string B :=
  list_to_map (omap (λ kv, f kv.1 kv.2) (map_to_list t)).

Lemma lookup_rekey {A B : Type} (f : string → A → option (string * B)) t h b :
  (∀ k k' a a' h b b', f k a = Some (h, b) → f k' a' = Some (h, b') → k = k') →
  rekey f t !! h = Some b ↔ ∃ k a, t !! k = Some a ∧ f k a = Some (h, b).
Proof.
  intros Hf. unfold rekey. split.
  - intros ([k a] & Hin%elem_of_map_to_list & E)%elem_of_list_to_map_2%list_elem_of_omap. by exists k, a.
  - intros (k & a & Ha & E). apply elem_of_list_to_map_1'.
    + intros b' ([k' a'] & Ha'%elem_of_map_to_list & E')%list_elem_of_omap. simpl in *.
      pose proof (Hf _ _ _ _ _ _ _ E E') as <-. congruence.
    + apply list_elem_of_omap. exists (k, a). split; [by apply elem_of_map_to_list|done].
Qed.

(** ** Bytes *)

Abbreviation Bytes := (list ascii).
Definition bytes_of (s : string) : Bytes := String.list_ascii_of_string s.
Definition text_of (b : Bytes) : string := String.string_of_list_ascii b.

Definition byte (z : Z) : ascii := Ascii.ascii_of_N (Z.to_N (z mod 256)).
Definition byte_value (a : ascii) : Z := Z.of_N (Ascii.N_of_ascii a).

(** [to_le_bytes] of [n] bytes and [from_le_bytes]. *)
Fixpoint to_le (n : nat) (z : Z) : Bytes :=
  match n with O => [] | S n => byte z :: to_le n (z / 256) end.
Fixpoint from_le (b : Bytes) : Z :=
  match b with [] => 0 | a :: b => byte_value a + 256 * from_le b end.

Definition slice (from count : nat) (b : Bytes) : Bytes := take count (drop from b).

Lemma byte_value_byte z : byte_value (byte z) = z mod 256.
Proof.
  unfold byte_value, byte. pose proof (Z.mod_pos_bound z 256). rewrite Ascii.N_ascii_embedding by lia. lia.
Qed.

Lemma byte_value_range a : 0 ≤ byte_value a < 256.
Proof. unfold byte_value. pose proof (Ascii.N_ascii_bounded a). lia. Qed.

Lemma byte_byte_value a : byte (byte_value a) = a.
Proof.
  unfold byte. rewrite Z.mod_small by apply byte_value_range. unfold byte_value.
  by rewrite N2Z.id, Ascii.ascii_N_embedding.
Qed.

Lemma from_to_le n z : 0 ≤ z < 256 ^ Z.of_nat n → from_le (to_le n z) = z.
Proof.
  revert z. induction n as [|n IH]; intros z Hz; cbn [to_le from_le]; [cbn in Hz; lia|].
  rewrite byte_value_byte, IH; [pose proof (Z.div_mod z 256); lia|].
  rewrite Nat2Z.inj_succ, Z.pow_succ_r in Hz by lia.
  split; [apply Z.div_pos; lia|]. apply Z.div_lt_upper_bound; lia.
Qed.

Lemma from_le_range b : 0 ≤ from_le b < 256 ^ Z.of_nat (length b).
Proof.
  induction b as [|a b IH]; [cbn; lia|]. cbn [from_le length]. rewrite Nat2Z.inj_succ, Z.pow_succ_r by lia.
  pose proof (byte_value_range a). lia.
Qed.

Lemma to_from_le b : to_le (length b) (from_le b) = b.
Proof.
  induction b as [|a b IH]; [done|]. cbn [from_le length to_le]. pose proof (byte_value_range a) as Ha.
  f_equal.
  - unfold byte. rewrite (Z.mul_comm 256), Z_mod_plus_full. apply byte_byte_value.
  - rewrite (Z.mul_comm 256), Z.div_add by lia. rewrite (Z.div_small (byte_value a)) by lia. exact IH.
Qed.

Lemma length_to_le n z : length (to_le n z) = n.
Proof. revert z. induction n as [|n IH]; intros z; [done|]. cbn. by rewrite IH. Qed.

Lemma text_bytes s : text_of (bytes_of s) = s.
Proof. apply String.string_of_list_ascii_of_string. Qed.
Lemma bytes_text b : bytes_of (text_of b) = b.
Proof. apply String.list_ascii_of_string_of_list_ascii. Qed.

(** ** Stores that are directories of files *)

(** What a failing call of the file system reports, a file that is not there apart. *)
Inductive IoFault : Type := FaultDenied | FaultInvalidData | FaultExists | FaultOther.
Inductive IoError : Type := IoMissing | IoFault_ (fault : IoFault).

(** [sort_by] on the text of the handles, in the listings of both stores. *)
Definition handle_order (a b : SecretHandle) : Prop := String.leb a b = true.
#[global] Instance handle_order_dec : RelDecision handle_order.
Proof. intros a b. unfold handle_order. apply _. Defined.

(** The file system and the crates [blake3], [data_encoding] and [uuid]. *)
Class FileHost : Type := {
  is_utf8 : string → bool;
  handle_hash : string → string;           (* [HEXLOWER.encode(blake3::hash(handle).as_bytes())] *)
  file_fault : nat → option IoFault;       (* the call at this point fails *)
  written : nat → nat;                     (* and has written this much before *)
  tmp_uuid : nat → string
}.

Definition strip_suffix (p : string) : string → option string :=
  fix go s := if str_eqb s p then Some EmptyString
              else match s with EmptyString => None | String a s => String a <$> go s end.

(** [path.extension() == Some(extension)]; a file name has an extension only after a stem. *)
Definition has_extension (extension name : string) : bool :=
  match strip_suffix ("." +:+ extension) name with Some stem => negb (str_is_empty stem) | None => false end.

Lemma strip_suffix_app p s : strip_suffix p (s +:+ p) = Some s.
Proof.
  induction s as [|a s IH].
  - assert (strip_suffix p p = Some EmptyString) as E; [|exact E]. destruct p; cbn -[str_eqb]; by rewrite str_eqb_refl.
  - rewrite str_app_cons. cbn -[str_eqb]. destruct (str_eqb (String a (s +:+ p)) p) eqn:E; [|by rewrite IH].
    apply str_eqb_eq in E. exfalso. apply (f_equal String.length) in E. cbn in E. rewrite str_length_app in E. lia.
Qed.

(** The directory: the names in it and what the files hold. *)
Abbreviation Directory := (gmap string Bytes).

(** Names of hexadecimal digits and dashes. *)
Definition no_dot (s : string) : Prop := ∀ x y, s ≠ x +:+ String "." y.

Class FileHostLaws `{FileHost} : Prop := {
  hash_no_dot h : no_dot (handle_hash h);
  hash_nonempty h : handle_hash h ≠ EmptyString;
  uuid_no_dot n : no_dot (tmp_uuid n)
}.

(** What follows the last dot. *)
Lemma last_dot_inj a b : no_dot a → no_dot b → ∀ s t, s +:+ String "." a = t +:+ String "." b → s = t ∧ a = b.
Proof.
  intros Ha Hb. induction s as [|c s IH]; intros [|d t] E.
  - by injection E as ->.
  - injection E as <- E. by destruct (Ha t b).
  - injection E as -> E. by destruct (Hb s a).
  - injection E as -> E. by destruct (IH t E) as [-> ->].
Qed.

Lemma strip_suffix_Some p s t : strip_suffix p s = Some t → s = t +:+ p.
Proof.
  revert t. induction s as [|a s IH]; intros t; cbn -[str_eqb].
  - destruct (str_eqb EmptyString p) eqn:E; [|done]. apply str_eqb_eq in E as <-. by intros [= <-].
  - destruct (str_eqb (String a s) p) eqn:E; [apply str_eqb_eq in E as <-; by intros [= <-]|].
    intros (t' & Ht & ->)%fmap_Some. by rewrite (IH _ Ht).
Qed.

Lemma has_extension_iff extension stem name :
  no_dot extension → no_dot name → stem ≠ EmptyString →
  has_extension extension (stem +:+ String "." name) = true ↔ name = extension.
Proof.
  intros He Hn Hs. unfold has_extension. split.
  - destruct (strip_suffix _ _) as [t|] eqn:E; [|done]. apply strip_suffix_Some in E. intros _.
    by destruct (last_dot_inj name extension Hn He stem t E).
  - intros ->. change ("." +:+ extension) with (String "." extension). rewrite strip_suffix_app. by destruct stem.
Qed.

Section Files.
Context `{FileHost}.
Abbreviation FS A := (M Directory IoError A).

(** A call that fails before it does anything. *)
Definition fs_step {A} (f : Directory → result A IoError * Directory) : FS A := λ s n,
  match file_fault n with
  | Some fault => (Err (IoFault_ fault), s, S n)
  | None => match f s with (r, s') => (r, s', S n) end
  end.

(** A file that is not there is reported as such whatever else would fail. *)
Definition existing {A} (name : string) (f : Directory → result A IoError * Directory) : FS A := λ s n,
  match s !! name with
  | None => (Err IoMissing, s, S n)
  | Some _ => fs_step f s n
  end.

Definition read_file (name : string) : FS (list ascii) :=
  existing name (λ s, (match s !! name with Some b => Ok b | None => Err IoMissing end, s)).

Definition remove_file (name : string) : FS unit := existing name (λ s, (Ok tt, delete name s)).

(** [OpenOptions::new().write(true).create_new(true)] and [.create(true).truncate(true)]. *)
Definition create_new_file (name : string) : FS unit :=
  fs_step (λ s, match s !! name with Some _ => (Err (IoFault_ FaultExists), s) | None => (Ok tt, <[name := []]> s) end).
Definition create_file (name : string) : FS unit := fs_step (λ s, (Ok tt, <[name := []]> s)).

(** A write that fails leaves a part of the bytes. *)
Definition write_all (name : string) (content : list ascii) : FS unit := λ s n,
  match file_fault n with
  | Some fault => (Err (IoFault_ fault), <[name := take (written n) content]> s, S n)
  | None => (Ok tt, <[name := content]> s, S n)
  end.

Definition sync_file : FS unit := fs_step (λ s, (Ok tt, s)).

Definition rename_file (source destination : string) : FS unit :=
  existing source (λ s, match s !! source with
                        | Some content => (Ok tt, <[destination := content]> (delete source s))
                        | None => (Err IoMissing, s)
                        end).

Definition file_names : FS (list string) := fs_step (λ s, (Ok (map_to_list s).*1, s)).

(** *** What the calls do *)

Lemma wp_fs_step {A} f s n (Q : result A IoError → Directory → nat → Prop) :
  (∀ fault, Q (Err (IoFault_ fault)) s (S n)) → Q (f s).1 (f s).2 (S n) → wp (fs_step f) s n Q.
Proof. unfold wp, fs_step. intros He Ho. destruct (file_fault n); [done|]. by destruct (f s). Qed.

Lemma wp_existing {A} name f s n (Q : result A IoError → Directory → nat → Prop) :
  (s !! name = None → Q (Err IoMissing) s (S n)) →
  (∀ b, s !! name = Some b → (∀ fault, Q (Err (IoFault_ fault)) s (S n)) ∧ Q (f s).1 (f s).2 (S n)) →
  wp (existing name f) s n Q.
Proof.
  unfold wp, existing. intros Hn Hs. destruct (s !! name) as [b|]; [|by apply Hn].
  destruct (Hs b eq_refl). by apply wp_fs_step.
Qed.

Lemma wp_read_file name s n (Q : result (list ascii) IoError → Directory → nat → Prop) :
  (s !! name = None → Q (Err IoMissing) s (S n)) →
  (∀ b, s !! name = Some b → Q (Ok b) s (S n)) → (∀ fault, Q (Err (IoFault_ fault)) s (S n)) →
  wp (read_file name) s n Q.
Proof. intros Hn Hs Hf. apply wp_existing; [done|]. intros b Hb. split; [done|]. cbn. rewrite Hb. by apply Hs. Qed.

Lemma wp_remove_file name s n (Q : result unit IoError → Directory → nat → Prop) :
  (s !! name = None → Q (Err IoMissing) s (S n)) →
  Q (Ok tt) (delete name s) (S n) → (∀ fault, Q (Err (IoFault_ fault)) s (S n)) →
  wp (remove_file name) s n Q.
Proof. intros Hn Hs Hf. by apply wp_existing. Qed.
End Files.

(** *** Secrets in files

    A file counts for the handle it names, if it has the name of that handle. *)

Section Held.
Variables (path : SecretHandle → string) (secret_in : Bytes → option (SecretHandle * SecretMaterial)).

Definition file_secret (name : string) (b : Bytes) : option (SecretHandle * SecretMaterial) :=
  match secret_in b with
  | Some (h, m) => if str_eqb (path h) name then Some (h, m) else None
  | None => None
  end.
Definition files_held (s : Directory) : gmap SecretHandle SecretMaterial := rekey file_secret s.

Lemma file_secret_Some name b h m : file_secret name b = Some (h, m) ↔ name = path h ∧ secret_in b = Some (h, m).
Proof.
  unfold file_secret. destruct (secret_in b) as [[h' m']|]; [|naive_solver].
  destruct (str_eqb (path h') name) eqn:E.
  - apply str_eqb_eq in E. naive_solver.
  - split; [done|]. intros [-> [= -> ->]]. by rewrite str_eqb_refl in E.
Qed.

Lemma lookup_files_held s h m : files_held s !! h = Some m ↔ ∃ b, s !! path h = Some b ∧ secret_in b = Some (h, m).
Proof.
  unfold files_held. rewrite lookup_rekey.
  - setoid_rewrite file_secret_Some. naive_solver.
  - intros k k' a a' h0 b b' [-> _]%file_secret_Some [-> _]%file_secret_Some. done.
Qed.

Lemma files_held_same s s' h : s' !! path h = s !! path h → files_held s' !! h = files_held s !! h.
Proof. intros E. apply option_eq. intros m. rewrite !lookup_files_held. by rewrite E. Qed.

(** The files of the secrets are untouched. *)
Definition same_at (s s' : Directory) : Prop := ∀ h, s' !! path h = s !! path h.

(** At most the file of [h] has changed, and then [new] holds. *)
Definition only_put (new : Directory → Prop) (h : SecretHandle) (s s' : Directory) : Prop :=
  (∀ h', path h' ≠ path h → s' !! path h' = s !! path h') ∧ (s' !! path h = s !! path h ∨ new s').

Lemma same_only new h s s' : same_at s s' → only_put new h s s'.
Proof. split; auto. Qed.

Lemma same_trans s1 s2 s3 : same_at s1 s2 → same_at s2 s3 → same_at s1 s3.
Proof. intros E1 E2 h. by rewrite E2. Qed.

Lemma only_trans new h s1 s2 s3 : same_at s1 s2 → only_put new h s2 s3 → only_put new h s1 s3.
Proof. intros E1 [E2 E3]. split; [intros h' Hne; by rewrite E2|rewrite <- E1; exact E3]. Qed.
End Held.

(** ** [ScopedSecretStore] *)

Definition logical_prefix : string := HANDLE_NAMESPACE +:+ "/" +:+ HANDLE_VERSION +:+ "/".

(** The profile is the hexadecimal hash of the directory of the application data. *)
Definition physical_prefix (profile : string) : string := logical_prefix +:+ "scope-" +:+ profile +:+ "/".

Definition physical_handle (profile : string) (handle : SecretHandle) : result SecretHandle SecureSecretStoreError :=
  match strip_prefix logical_prefix handle with
  | None => Err Corrupted
  | Some suffix => Ok (physical_prefix profile +:+ suffix)
  end.

Definition logical_handle (profile : string) (handle : SecretHandle) : option SecretHandle :=
  (λ suffix, logical_prefix +:+ suffix) <$> strip_prefix (physical_prefix profile) handle.

Record ScopedSecretStore (V : Type) : Type := { inner : V }.
Arguments inner {V} _.

Section Scoped.
Context {V : Type} `{SecureSecretStore V} (profile : string).

(** A call on the physical handle. *)
Definition on_physical {A} (call : SecretHandle → V → blocking A * V) (handle : SecretHandle)
    (s : ScopedSecretStore V) : blocking A * ScopedSecretStore V :=
  match physical_handle profile handle with
  | Err e => (Returned (Err e), s)
  | Ok physical => match call physical (inner s) with (r, v) => (r, {| inner := v |}) end
  end.

Definition list_logical (s : ScopedSecretStore V) : blocking (list SecretHandle) * ScopedSecretStore V :=
  match list_handles (inner s) with
  | (Returned (Ok handles), v) => (Returned (Ok (omap (logical_handle profile) handles)), {| inner := v |})
  | (r, v) => (r, {| inner := v |})
  end.

#[local] Instance scoped_store : SecureSecretStore (ScopedSecretStore V) := {|
  put h m := on_physical (λ h v, put h m v) h;
  get_secret := on_physical get_secret;
  delete_secret := on_physical delete_secret;
  list_handles := list_logical
|}.

Variables (P : SecretHandle → Prop) (I : V → Prop) (held : V → gmap SecretHandle SecretMaterial).
Hypothesis L : StoreLawsFor P I held.

Definition scoped_held (s : ScopedSecretStore V) : gmap SecretHandle SecretMaterial :=
  rekey (λ k m, (λ h, (h, m)) <$> logical_handle profile k) (held (inner s)).

(** The handles whose physical handles the inner store can name. *)
Definition scoped_handle (h : SecretHandle) : Prop := ∀ physical, physical_handle profile h = Ok physical → P physical.

Lemma logical_physical k h : logical_handle profile k = Some h ↔ physical_handle profile h = Ok k.
Proof.
  unfold logical_handle, physical_handle. split.
  - intros (suffix & E%strip_prefix_Some & ->)%fmap_Some. by rewrite strip_prefix_app, E.
  - destruct (strip_prefix logical_prefix h) as [suffix|] eqn:E; [|done]. apply strip_prefix_Some in E as ->.
    intros [= <-]. by rewrite strip_prefix_app.
Qed.

Lemma lookup_scoped s h :
  scoped_held s !! h = match physical_handle profile h with Ok k => held (inner s) !! k | Err _ => None end.
Proof.
  apply option_eq. intros m. unfold scoped_held. rewrite lookup_rekey.
  - split.
    + intros (k & a & Ha & (h' & E%logical_physical & [= -> ->])%fmap_Some). by rewrite E.
    + destruct (physical_handle profile h) as [k|] eqn:E; [|done]. intros Hm. exists k, m. split; [done|].
      apply logical_physical in E. by rewrite E.
  - intros k k' a a' h0 b b' (h1 & E1%logical_physical & [= -> ->])%fmap_Some (h2 & E2%logical_physical & [= -> ->])%fmap_Some.
    congruence.
Qed.

Lemma physical_inj h h' k : physical_handle profile h = Ok k → physical_handle profile h' = Ok k → h = h'.
Proof. rewrite <- !logical_physical. congruence. Qed.

Lemma on_physical_spec {A} (call : SecretHandle → V → blocking A * V) h s :
  match physical_handle profile h with
  | Ok k => (on_physical call h s).1 = (call k (inner s)).1 ∧ inner (on_physical call h s).2 = (call k (inner s)).2
  | Err e => e = Corrupted ∧ on_physical call h s = (Returned (Err e), s)
  end.
Proof.
  unfold on_physical. destruct (physical_handle profile h) as [k|e] eqn:E.
  - by destruct (call k (inner s)).
  - split; [|done]. unfold physical_handle in E. destruct (strip_prefix _ _); congruence.
Qed.

Lemma list_logical_spec s :
  inner (list_logical s).2 = (list_handles (inner s)).2 ∧
  ∀ l, (list_logical s).1 = Returned (Ok l) →
    ∃ handles, (list_handles (inner s)).1 = Returned (Ok handles) ∧ l = omap (logical_handle profile) handles.
Proof.
  unfold list_logical. destruct (list_handles (inner s)) as [[[handles|e]|text] v]; simpl; split; try done.
  intros l [= <-]. eauto.
Qed.

(** Opens a call on the handle [h] into the call of the inner store. *)
Ltac on_inner call h s :=
  let S := fresh in
  pose proof (on_physical_spec call h s) as S; rewrite ?lookup_scoped in *;
  destruct (physical_handle profile h) as [?k|?e] eqn:?Ek;
  [let Sr := fresh "Sr" in let Si := fresh "Si" in destruct S as [Sr Si]; rewrite ?Sr, ?Si in * |
   let Se := fresh "Se" in destruct S as [-> Se]; rewrite ?Se in *].

(** The secrets of a profile obey the laws if the store underneath does for the handles of that
    profile: a handle of another form is refused and changes nothing. *)
Lemma scoped_store_laws : StoreLawsFor scoped_handle (λ s, I (inner s)) scoped_held.
Proof.
  split; simpl.
  - intros h m s Hi Hp. on_inner (λ h (v : V), put h m v) h s; [|done]. by apply (put_stays _ _ _ L); [|apply Hp].
  - intros h s Hi Hp. on_inner (@get_secret V H) h s; [|done]. by apply (get_stays _ _ _ L); [|apply Hp].
  - intros h s Hi Hp. on_inner (@delete_secret V H) h s; [|done]. by apply (delete_stays _ _ _ L); [|apply Hp].
  - intros s Hi. destruct (list_logical_spec s) as [-> _]. by apply (list_stays _ _ _ L).
  - intros h m s h' Hi Hp Hp' Hne. on_inner (λ h (v : V), put h m v) h s; [|done].
    destruct (physical_handle profile h') as [k'|] eqn:Ek'; [|done].
    apply (put_others _ _ _ L); [done|by apply Hp|by apply Hp'|]. intros ->. apply Hne. by eapply physical_inj.
  - intros h m s Hi Hp. on_inner (λ h (v : V), put h m v) h s; [|done]. apply (put_holds _ _ _ L); [done|by apply Hp].
  - intros h s h' Hi Hp Hp'. on_inner (@get_secret V H) h s; [|done].
    destruct (physical_handle profile h') as [k'|] eqn:Ek'; [|done].
    apply (get_holds _ _ _ L); [done|by apply Hp|by apply Hp'].
  - intros h m s Hi Hp. on_inner (@get_secret V H) h s; [|done]. apply (get_finds _ _ _ L); [done|by apply Hp].
  - intros h s h' Hi Hp Hp' Hne. on_inner (@delete_secret V H) h s; [|done].
    destruct (physical_handle profile h') as [k'|] eqn:Ek'; [|done].
    apply (delete_others _ _ _ L); [done|by apply Hp|by apply Hp'|]. intros ->. apply Hne. by eapply physical_inj.
  - intros h s Hi Hp. on_inner (@delete_secret V H) h s; [|by intros []].
    apply (delete_drops _ _ _ L); [done|by apply Hp].
  - intros h s m Hi Hp. on_inner (@delete_secret V H) h s; [|done]. apply (delete_adds_none _ _ _ L); [done|by apply Hp].
  - intros s h Hi Hp. rewrite !lookup_scoped. destruct (list_logical_spec s) as [-> _].
    destruct (physical_handle profile h) as [k|] eqn:Ek; [|done]. apply (list_holds _ _ _ L); [done|by apply Hp].
  - intros l s h Hi Hp (handles & Hl & ->)%list_logical_spec. rewrite lookup_scoped, list_elem_of_omap.
    setoid_rewrite logical_physical. destruct (physical_handle profile h) as [k|] eqn:Ek.
    + rewrite <- (list_finds _ _ _ L handles (inner s) k); [|done|by apply Hp|done].
      split; [intros (? & ? & [= ->]); done|eauto].
    + split; [by intros (? & ? & ?)|by intros []].
Qed.
End Scoped.
