(* ===== verification/WindowsStore.v ===== *)
(** * [secure_secret/windows.rs]: protected secrets as files of the current user

    Each secret is a file: an envelope that names its handle around a blob that DPAPI protects,
    around a payload with its own digest. Files are published by a rename. The file system and
    the cryptographic calls fail at will; the stand-in of the crate for DPAPI is an instance, and
    the store obeys the laws that [SecureSecret.v] is proved against. *)

From S2P Require Import Prelude Sql Errors SecureSecret SecretStores.

(** ** Envelopes *)

Definition ENVELOPE_MAGIC : Bytes := bytes_of "VNIDPAPI".
Definition ENVELOPE_VERSION : ascii := byte 1.
Definition FILE_EXTENSION : string := "dpapi".
Definition MAX_ENVELOPE_BYTES : Z := 64 * 1024.
Definition HEADER_BYTES : nat := 15.

Definition encode_envelope (handle : SecretHandle) (ciphertext : Bytes) : result Bytes SecureSecretStoreError :=
  let handle_bytes := bytes_of handle in
  let handle_len := Z.of_nat (length handle_bytes) in
  let ciphertext_len := Z.of_nat (length ciphertext) in
  if 65535 <? handle_len then Err Unavailable
  else if 4294967295 <? ciphertext_len then Err Unavailable
  else if MAX_ENVELOPE_BYTES <? Z.of_nat HEADER_BYTES + handle_len + ciphertext_len then Err Unavailable
  else Ok (ENVELOPE_MAGIC ++ [ENVELOPE_VERSION] ++ to_le 2 handle_len ++ to_le 4 ciphertext_len ++ handle_bytes ++ ciphertext).

Section Envelope.
Variable utf8 : string → bool.

Definition decode_envelope_parts (envelope : Bytes) : result (SecretHandle * Bytes) SecureSecretStoreError :=
  if (length envelope <? HEADER_BYTES)%nat || (MAX_ENVELOPE_BYTES <? Z.of_nat (length envelope)) ||
     negb (bool_decide (take 8 envelope = ENVELOPE_MAGIC)) || negb (bool_decide (envelope !! 8%nat = Some ENVELOPE_VERSION))
  then Err Corrupted
  else
    let handle_len := Z.to_nat (from_le (slice 9 2 envelope)) in
    let ciphertext_len := Z.to_nat (from_le (slice 11 4 envelope)) in
    let handle_end := (HEADER_BYTES + handle_len)%nat in
    let envelope_end := (handle_end + ciphertext_len)%nat in
    if (handle_len =? 0)%nat || (ciphertext_len =? 0)%nat || negb (envelope_end =? length envelope)%nat
    then Err Corrupted
    else
      let handle := text_of (slice HEADER_BYTES handle_len envelope) in
      if utf8 handle then Ok (handle, slice handle_end ciphertext_len envelope) else Err Corrupted.

Definition decode_envelope (envelope : Bytes) (expected_handle : SecretHandle) : result Bytes SecureSecretStoreError :=
  let? '(handle, ciphertext) := decode_envelope_parts envelope in
  if str_eqb handle expected_handle then Ok ciphertext else Err Corrupted.

(** Decoding is the inverse of encoding: an envelope that is accepted is byte for byte the one
    that is written for its handle and its blob. *)
Lemma envelope_roundtrip handle ciphertext envelope :
  decode_envelope_parts envelope = Ok (handle, ciphertext) ↔
  encode_envelope handle ciphertext = Ok envelope ∧ utf8 handle = true ∧ handle ≠ EmptyString ∧ ciphertext ≠ [].
Proof.
  split.
  - unfold decode_envelope_parts. destruct (_ || _) eqn:Eh; [done|].
    apply orb_false_iff in Eh as [Eh Ever]. apply orb_false_iff in Eh as [Eh Emagic]. apply orb_false_iff in Eh as [Elen Emax].
    apply negb_false_iff, bool_decide_eq_true in Ever, Emagic. apply Nat.ltb_ge in Elen. apply Z.ltb_ge in Emax.
    unfold HEADER_BYTES in Elen. 
    destruct envelope as [|m0 [|m1 [|m2 [|m3 [|m4 [|m5 [|m6 [|m7 [|v [|h0 [|h1 [|c0 [|c1 [|c2 [|c3 envelope]]]]]]]]]]]]]]];
      try (cbn in Elen; lia). clear Elen.
    cbn in Ever, Emagic. injection Ever as ->. injection Emagic as -> -> -> -> -> -> -> ->.
    unfold HEADER_BYTES, slice. cbn [drop take Nat.add]. rewrite drop_0. set (hl := Z.to_nat _). set (cl := Z.to_nat _).
    destruct ((hl =? 0)%nat || _ || _) eqn:El; [done|].
    apply orb_false_iff in El as [El Eend]. apply orb_false_iff in El as [Ehl Ecl].
    apply Nat.eqb_neq in Ehl, Ecl. apply negb_false_iff, Nat.eqb_eq in Eend. cbn [length] in Eend, Emax.
    destruct (utf8 _) eqn:Eu; [|done]. intros [= <- <-].
    assert (length envelope = hl + cl)%nat as Hlen by lia.
    assert (take cl (drop hl envelope) = drop hl envelope) as Htake by (apply take_ge; rewrite length_drop; lia).
    assert (length (take hl envelope) = hl ∧ length (drop hl envelope) = cl) as [Hl1 Hl2].
    { rewrite length_take, length_drop. lia. }
    rewrite Htake. split_and!; [|done| |].
    + unfold encode_envelope. cbv zeta. rewrite bytes_text, Hl1, Hl2.
      assert (Z.of_nat hl = from_le [h0; h1]) as Hh by (apply Z2Nat.id, from_le_range).
      assert (Z.of_nat cl = from_le [c0; c1; c2; c3]) as Hc by (apply Z2Nat.id, from_le_range).
      rewrite Hh, Hc. pose proof (from_le_range [h0; h1]) as R1. pose proof (from_le_range [c0; c1; c2; c3]) as R2.
      change (256 ^ Z.of_nat (length [h0; h1])) with 65536 in R1.
      change (256 ^ Z.of_nat (length [c0; c1; c2; c3])) with 4294967296 in R2. rewrite !(proj2 (Z.ltb_ge _ _)); [|unfold HEADER_BYTES, MAX_ENVELOPE_BYTES in *; lia..].
      rewrite (to_from_le [h0; h1] : to_le 2 _ = _), (to_from_le [c0; c1; c2; c3] : to_le 4 _ = _), take_drop.
      reflexivity.
    + intros E. rewrite <- Hl1 in Ehl. apply Ehl. rewrite <- (bytes_text (take hl envelope)), E. done.
    + intros E. rewrite E in Hl2. cbn in Hl2. lia.
  - intros (He & Hu & Hh & Hc). unfold encode_envelope in He. cbv zeta in He.
    destruct (65535 <? _) eqn:E1; [done|]. destruct (4294967295 <? _) eqn:E2; [done|]. destruct (MAX_ENVELOPE_BYTES <? _) eqn:E3; [done|].
    apply Z.ltb_ge in E1, E2, E3. set (hb := bytes_of handle) in *.
    match type of He with Ok ?x = _ => set (b := x) in He end. assert (envelope = b) as -> by congruence. clear He.
    assert (hb ≠ []) as Hhb by (intros E; apply Hh; rewrite <- (text_bytes handle); fold hb; by rewrite E).
    assert (0 < length hb ∧ 0 < length ciphertext)%nat as [Hl1 Hl2] by (split; [destruct hb|destruct ciphertext]; cbn; done || lia).
    assert (length b = 15 + length hb + length ciphertext)%nat as Hb.
    { unfold b. rewrite !length_app, !length_to_le. cbn. lia. }
    unfold decode_envelope_parts. rewrite Hb.
    assert (slice 9 2 b = to_le 2 (Z.of_nat (length hb))) as -> by reflexivity.
    assert (slice 11 4 b = to_le 4 (Z.of_nat (length ciphertext))) as -> by reflexivity.
    rewrite !from_to_le, !Nat2Z.id; [|change (256 ^ Z.of_nat 4) with 4294967296; lia|change (256 ^ Z.of_nat 2) with 65536; lia].
    assert (take 8 b = ENVELOPE_MAGIC ∧ b !! 8%nat = Some ENVELOPE_VERSION ∧ drop 15 b = hb ++ ciphertext) as (B1 & B2 & B3) by done.
    rewrite B1, B2, !bool_decide_true by done. unfold slice, HEADER_BYTES in *. rewrite <- drop_drop, B3.
    rewrite take_app_length, drop_app_length, take_ge by lia.
    rewrite (proj2 (Nat.ltb_ge _ _)), (proj2 (Z.ltb_ge _ _)) by lia. cbn [orb negb].
    rewrite !(proj2 (Nat.eqb_neq _ _)) by lia. rewrite Nat.eqb_refl. cbn [orb negb].
    unfold hb. by rewrite text_bytes, Hu.
Qed.

Lemma decode_encoded handle ciphertext envelope :
  encode_envelope handle ciphertext = Ok envelope → utf8 handle = true → handle ≠ EmptyString → ciphertext ≠ [] →
  decode_envelope envelope handle = Ok ciphertext.
Proof.
  intros He Hu Hh Hc. unfold decode_envelope.
  rewrite (proj2 (envelope_roundtrip handle ciphertext envelope)) by done. cbn. by rewrite str_eqb_refl.
Qed.

Lemma decode_envelope_Ok envelope handle ciphertext :
  decode_envelope envelope handle = Ok ciphertext ↔ decode_envelope_parts envelope = Ok (handle, ciphertext).
Proof.
  unfold decode_envelope. destruct (decode_envelope_parts envelope) as [[h c]|]; cbn; [|by split].
  destruct (str_eqb h handle) eqn:E.
  - apply str_eqb_eq in E as ->. split; congruence.
  - split; [done|]. intros [= -> ->]. by rewrite str_eqb_refl in E.
Qed.
End Envelope.

(** ** Protected payloads *)

Class Blake3Bytes : Type := { blake3_bytes : Bytes → Bytes }.

Definition PROTECTED_PAYLOAD_MAGIC : Bytes := bytes_of "VNIDROP-SECRET-V1".
Definition PAYLOAD_HEADER : nat := 21.

Section Payload.
Context `{Blake3Bytes}.

Definition encode_protected_payload (plaintext : Bytes) : result Bytes SecureSecretStoreError :=
  let length := Z.of_nat (length plaintext) in
  if 4294967295 <? length then Err Unavailable
  else
    let payload := PROTECTED_PAYLOAD_MAGIC ++ to_le 4 length ++ plaintext in
    Ok (payload ++ blake3_bytes payload).

Definition decode_protected_payload (payload : Bytes) : result Bytes SecureSecretStoreError :=
  if (length payload <? PAYLOAD_HEADER + 32)%nat || negb (bool_decide (take 17 payload = PROTECTED_PAYLOAD_MAGIC))
  then Err Corrupted
  else
    let length' := Z.to_nat (from_le (slice 17 4 payload)) in
    let material_end := (PAYLOAD_HEADER + length')%nat in
    if negb (material_end + 32 =? length payload)%nat then Err Corrupted
    else if negb (bool_decide (blake3_bytes (take material_end payload) = drop material_end payload)) then Err Corrupted
    else Ok (slice PAYLOAD_HEADER length' payload).

Hypothesis digest_length : ∀ b, length (blake3_bytes b) = 32%nat.

(** A payload is accepted if and only if it is the one written for what is read from it: any
    other change of it would have to keep the digest of what it changes. *)
Lemma payload_roundtrip payload plaintext :
  decode_protected_payload payload = Ok plaintext ↔ encode_protected_payload plaintext = Ok payload.
Proof.
  split.
  - unfold decode_protected_payload. destruct (_ || _) eqn:Eh; [done|]. apply orb_false_iff in Eh as [Elen Emagic].
    apply Nat.ltb_ge in Elen. apply negb_false_iff, bool_decide_eq_true in Emagic. unfold PAYLOAD_HEADER in *.
    set (l := Z.to_nat _). destruct (negb (_ =? _)%nat) eqn:Eend; [done|]. apply negb_false_iff, Nat.eqb_eq in Eend.
    destruct (negb _) eqn:Ed; [done|]. apply negb_false_iff, bool_decide_eq_true in Ed. intros [= <-].
    set (len := slice 17 4 payload) in *. set (m := slice 21 l payload).
    assert (length len = 4%nat ∧ length m = l) as [Hlen Hm].
    { unfold len, m, slice. rewrite !length_take, !length_drop. lia. }
    assert (take (21 + l) payload = PROTECTED_PAYLOAD_MAGIC ++ len ++ m) as Ht.
    { rewrite <- Emagic. unfold len, m, slice. rewrite <- (take_drop 17 payload) at 1.
      rewrite take_app_ge by (rewrite length_take; lia). f_equal. rewrite length_take, Nat.min_l by lia.
      replace (21 + l - 17)%nat with (4 + l)%nat by lia. rewrite <- (take_drop 4 (drop 17 payload)) at 1.
      rewrite take_app_ge by (rewrite length_take, length_drop; lia). f_equal.
      rewrite length_take, length_drop, Nat.min_l by lia. rewrite drop_drop. f_equal. lia. }
    assert (Z.of_nat l = from_le len) as Hl by (apply Z2Nat.id, from_le_range).
    unfold encode_protected_payload. cbv zeta. rewrite Hm, Hl. pose proof (from_le_range len) as R. rewrite Hlen in R.
    change (256 ^ Z.of_nat 4) with 4294967296 in R. rewrite (proj2 (Z.ltb_ge _ _)) by lia.
    assert (to_le 4 (from_le len) = len) as -> by (rewrite <- Hlen; apply to_from_le).
    rewrite <- Ht, Ed. by rewrite take_drop.
  - unfold encode_protected_payload. cbv zeta. destruct (_ <? _) eqn:El; [done|]. apply Z.ltb_ge in El.
    set (body := PROTECTED_PAYLOAD_MAGIC ++ _). intros E. assert (payload = body ++ blake3_bytes body) as -> by congruence. clear E.
    assert (length body = 21 + length plaintext)%nat as Hb.
    { unfold body. rewrite !length_app, length_to_le. cbn. lia. }
    unfold decode_protected_payload. rewrite length_app, digest_length, Hb. unfold PAYLOAD_HEADER.
    assert (slice 17 4 (body ++ blake3_bytes body) = to_le 4 (Z.of_nat (length plaintext))) as -> by reflexivity.
    rewrite from_to_le by (change (256 ^ Z.of_nat 4) with 4294967296; lia). rewrite Nat2Z.id.
    rewrite (proj2 (Nat.ltb_ge _ _)) by lia. rewrite bool_decide_true by reflexivity. cbn [negb orb].
    rewrite Nat.eqb_refl. cbn [negb]. rewrite <- Hb, take_app_length, drop_app_length, bool_decide_true by done. cbn [negb].
    f_equal. unfold slice. rewrite drop_app_le by lia.
    assert (drop 21 body = plaintext) as -> by reflexivity. by rewrite take_app_length.
Qed.

(** ** DPAPI *)

Definition dpapi_entropy (context : Bytes) (handle : SecretHandle) : Bytes :=
  blake3_bytes (context ++ [byte 0] ++ bytes_of handle).

(** [GetLastError]. *)
Definition map_dpapi_error (unprotecting : bool) (code : Z) : SecureSecretStoreError :=
  if (code =? 5) || (code =? 1325) then Locked                     (* access denied, password restriction *)
  else if (code =? 50) || (code =? 120) then Unavailable           (* not supported, not implemented *)
  else if unprotecting then Corrupted else Unavailable.

Definition blob (b : Bytes) : result unit SecureSecretStoreError :=
  if 4294967295 <? Z.of_nat (length b) then Err Unavailable else Ok tt.
Definition copy_and_free (output : Bytes) : result Bytes SecureSecretStoreError :=
  if (length output =? 0)%nat then Err Corrupted else Ok output.
End Payload.

(** The trait [WindowsDpapiApi] and what the store relies on: [opened] is what a ciphertext holds
    for a handle. *)
Class WindowsDpapiApi : Type := {
  dpapi_protect : nat → SecretHandle → Bytes → result Bytes SecureSecretStoreError;
  dpapi_unprotect : nat → SecretHandle → Bytes → result Bytes SecureSecretStoreError
}.
Class WindowsDpapiLaws `{WindowsDpapiApi} : Type := {
  opened : SecretHandle → Bytes → option Bytes;
  protect_opened n h p c : dpapi_protect n h p = Ok c → opened h c = Some p ∧ c ≠ [];
  unprotect_opened n h c p : dpapi_unprotect n h c = Ok p → opened h c = Some p;
  unprotect_not_missing n h c : dpapi_unprotect n h c ≠ Err Missing
}.

(** [CryptProtectData] and [CryptUnprotectData] for the current user, with their entropy. *)
Class Crypt : Type := {
  crypt_protect : nat → Bytes → Bytes → result Bytes Z;
  crypt_unprotect : nat → Bytes → Bytes → result Bytes Z
}.
Class CryptLaws `{Crypt} : Type := {
  decrypts : Bytes → Bytes → option Bytes;
  protect_decrypts n e p c : crypt_protect n e p = Ok c → decrypts e c = Some p;
  unprotect_decrypts n e c p : crypt_unprotect n e c = Ok p → decrypts e c = Some p
}.

Section System.
Context `{Blake3Bytes} `{Crypt} (context : Bytes).

Definition system_protect (n : nat) (handle : SecretHandle) (plaintext : Bytes) : result Bytes SecureSecretStoreError :=
  let? payload := encode_protected_payload plaintext in
  let? _ := blob payload in
  let entropy := dpapi_entropy context handle in
  let? _ := blob entropy in
  match crypt_protect n entropy payload with
  | Err code => Err (map_dpapi_error false code)
  | Ok output => copy_and_free output
  end.

Definition system_unprotect (n : nat) (handle : SecretHandle) (ciphertext : Bytes) : result Bytes SecureSecretStoreError :=
  let? _ := blob ciphertext in
  let entropy := dpapi_entropy context handle in
  let? _ := blob entropy in
  match crypt_unprotect n entropy ciphertext with
  | Err code => Err (map_dpapi_error true code)
  | Ok output => let? payload := copy_and_free output in decode_protected_payload payload
  end.

#[local] Instance system_dpapi : WindowsDpapiApi :=
  {| dpapi_protect := system_protect; dpapi_unprotect := system_unprotect |}.

Definition payload_opened (payload : Bytes) : option Bytes :=
  match decode_protected_payload payload with Ok p => Some p | Err _ => None end.

Lemma decode_payload_error payload e : decode_protected_payload payload = Err e → e = Corrupted.
Proof. unfold decode_protected_payload. repeat case_match; congruence. Qed.

Definition system_dpapi_laws `{!CryptLaws} (digest_length : ∀ b, length (blake3_bytes b) = 32%nat) : WindowsDpapiLaws.
Proof.
  refine {| opened := λ h c, decrypts (dpapi_entropy context h) c ≫= payload_opened |}; cbn;
    unfold system_protect, system_unprotect, blob, copy_and_free.
  - intros n h p c. destruct (encode_protected_payload p) as [payload|] eqn:Ep; cbn; [|done].
    apply (payload_roundtrip digest_length) in Ep. repeat (case_match; cbn; try done). intros [= <-].
    match goal with E : crypt_protect _ _ _ = Ok _ |- _ => rewrite (protect_decrypts _ _ _ _ E) end. cbn. unfold payload_opened. rewrite Ep.
    split; [done|]. intros ->. done.
  - intros n h c p. repeat (case_match; cbn; try done). intros E.
    match goal with E : crypt_unprotect _ _ _ = Ok _ |- _ => rewrite (unprotect_decrypts _ _ _ _ E) end. cbn. unfold payload_opened. by rewrite E.
  - intros n h c. repeat (case_match; cbn; try done); intros [= E]; unfold map_dpapi_error in E; repeat case_match; try done.
    by apply decode_payload_error in E.
Defined.
End System.

(** ** [FakeWindowsDpapiApi] *)

Definition xor_byte (a b : ascii) : ascii :=
  match a, b with
  | Ascii a0 a1 a2 a3 a4 a5 a6 a7, Ascii b0 b1 b2 b3 b4 b5 b6 b7 =>
      Ascii (xorb a0 b0) (xorb a1 b1) (xorb a2 b2) (xorb a3 b3) (xorb a4 b4) (xorb a5 b5) (xorb a6 b6) (xorb a7 b7)
  end.

Section Fake.
Context `{Blake3Bytes}.

(** One block of the key stream after the other; [fuel] is at least the number of blocks. *)
Fixpoint xor_blocks (fuel : nat) (key : Bytes) (counter : Z) (bytes : Bytes) : Bytes :=
  match fuel, bytes with
  | O, _ | _, [] => []
  | S fuel, _ =>
      let block := blake3_bytes (key ++ to_le 8 counter) in
      zip_with xor_byte (take 32 bytes) block ++ xor_blocks fuel key ((counter + 1) mod U64_MOD) (drop 32 bytes)
  end.
Definition xor_keystream (key bytes : Bytes) : Bytes := xor_blocks (length bytes) key 0 bytes.

Definition seal (context : Bytes) (handle : SecretHandle) (plaintext : Bytes) : result Bytes SecureSecretStoreError :=
  let? payload := encode_protected_payload plaintext in Ok (xor_keystream (dpapi_entropy context handle) payload).
Definition open (context : Bytes) (handle : SecretHandle) (ciphertext : Bytes) : result Bytes SecureSecretStoreError :=
  decode_protected_payload (xor_keystream (dpapi_entropy context handle) ciphertext).

(** [check]: the injected failure, then the handles that are unavailable. *)
Definition check (failure : option SecureSecretStoreError) (needles : list string) (handle : SecretHandle) :
    result unit SecureSecretStoreError :=
  match failure with
  | Some e => Err e
  | None => if existsb (λ needle, str_contains needle handle) needles then Err Unavailable else Ok tt
  end.

Hypothesis digest_length : ∀ b, length (blake3_bytes b) = 32%nat.

Lemma xor_byte_involutive a b : xor_byte (xor_byte a b) b = a.
Proof. destruct a as [a0 a1 a2 a3 a4 a5 a6 a7], b as [[] [] [] [] [] [] [] []], a0, a1, a2, a3, a4, a5, a6, a7; reflexivity. Qed.

Lemma zip_xor_involutive x block : (length x ≤ length block)%nat → zip_with xor_byte (zip_with xor_byte x block) block = x.
Proof.
  revert block. induction x as [|a x IH]; intros [|b block] Hl; cbn in *; [done|done|lia|].
  rewrite xor_byte_involutive, IH; [done|lia].
Qed.

Lemma length_xor_blocks fuel : ∀ key counter bytes, (length bytes ≤ fuel)%nat → length (xor_blocks fuel key counter bytes) = length bytes.
Proof.
  induction fuel as [|fuel IH]; intros key counter [|a bytes] Hl; cbn [xor_blocks]; try done; [cbn in Hl; lia|].
  cbn [length] in Hl. rewrite length_app, length_zip_with, length_take, digest_length, IH; rewrite length_drop; cbn [length]; lia.
Qed.

Lemma xor_blocks_involutive fuel : ∀ key counter bytes,
  (length bytes ≤ fuel)%nat → xor_blocks fuel key counter (xor_blocks fuel key counter bytes) = bytes.
Proof.
  induction fuel as [|fuel IH]; intros key counter bytes Hl; [by destruct bytes; cbn in Hl; [|lia]|].
  destruct bytes as [|a bytes]; [done|]. set (b := a :: bytes) in *.
  assert (∀ x, x ≠ [] → xor_blocks (S fuel) key counter x =
    zip_with xor_byte (take 32 x) (blake3_bytes (key ++ to_le 8 counter)) ++
    xor_blocks fuel key ((counter + 1) mod U64_MOD) (drop 32 x)) as Hs by (by intros []).
  set (block := blake3_bytes (key ++ to_le 8 counter)) in *.
  assert (length block = 32)%nat as Hblock by apply digest_length.
  rewrite (Hs b) by done. set (z := zip_with xor_byte (take 32 b) block).
  set (rest := xor_blocks fuel key _ (drop 32 b)).
  assert (length z = Nat.min 32 (length b)) as Hz.
  { unfold z. rewrite length_zip_with, length_take. lia. }
  assert (drop 32 b = [] ∨ length z = 32%nat) as Hcase.
  { destruct (Nat.le_gt_cases (length b) 32); [left; by apply drop_ge|right; lia]. }
  rewrite Hs by (intros E; apply (f_equal length) in E; rewrite length_app, Hz in E; cbn in E; lia).
  assert (take 32 (z ++ rest) = z ∧ drop 32 (z ++ rest) = rest) as [-> ->].
  { destruct Hcase as [E|E].
    - assert (rest = []) as -> by (unfold rest; rewrite E; by destruct fuel).
      rewrite app_nil_r. split; [apply take_ge|apply drop_ge]; lia.
    - by rewrite <- E, take_app_length, drop_app_length. }
  unfold z, rest. rewrite zip_xor_involutive by (rewrite length_take; lia).
  rewrite IH by (rewrite length_drop; unfold b in *; cbn [length] in *; lia). apply take_drop.
Qed.

Lemma xor_keystream_involutive key bytes : xor_keystream key (xor_keystream key bytes) = bytes.
Proof.
  unfold xor_keystream. rewrite length_xor_blocks by done. by apply xor_blocks_involutive.
Qed.

(** What was sealed opens in the same context for the same handle, and only what decodes opens. *)
Lemma open_sealed context handle plaintext ciphertext :
  seal context handle plaintext = Ok ciphertext → open context handle ciphertext = Ok plaintext.
Proof.
  unfold seal, open. destruct (encode_protected_payload plaintext) as [payload|] eqn:E; cbn; [|done]. intros [= <-].
  rewrite xor_keystream_involutive. by apply payload_roundtrip.
Qed.

Section Instances.
Context (context : Bytes) (failure : nat → option SecureSecretStoreError) (needles : list string).

#[local] Instance fake_dpapi : WindowsDpapiApi := {|
  dpapi_protect n h p := let? _ := check (failure n) needles h in seal context h p;
  dpapi_unprotect n h c := let? _ := check (failure n) needles h in open context h c
|}.

Definition fake_dpapi_laws (never_missing : ∀ n, failure n ≠ Some Missing) : WindowsDpapiLaws.
Proof.
  refine {| opened := λ h c, payload_opened (xor_keystream (dpapi_entropy context h) c) |}; cbn.
  - intros n h p c. destruct (check _ _ _); cbn; [|done]. intros Hs. split.
    + apply open_sealed in Hs. unfold open in Hs. unfold payload_opened. by rewrite Hs.
    + intros ->. apply open_sealed in Hs. done.
  - intros n h c p. destruct (check _ _ _); cbn; [|done]. unfold open, payload_opened. by intros ->.
  - intros n h c. destruct (check _ _ _) as [|e] eqn:E; cbn; [by intros E'%decode_payload_error|].
    intros [= ->]. unfold check in E. specialize (never_missing n). destruct (failure n); [congruence|]. by case_match.
Defined.
End Instances.
End Fake.

(** ** [WindowsDpapiSecretStore] *)

Definition map_io_error (error : IoError) : SecureSecretStoreError :=
  match error with
  | IoMissing => Missing
  | IoFault_ FaultDenied => Locked
  | IoFault_ FaultInvalidData => Corrupted
  | IoFault_ FaultExists | IoFault_ FaultOther => Unavailable
  end.

Section Store.
Context `{FileHost} `{WindowsDpapiApi}.
Abbreviation IO := (M Directory SecureSecretStoreError).

Definition path_for (handle : SecretHandle) : string := handle_hash handle +:+ String "." FILE_EXTENSION.
Definition temporary_for (handle : SecretHandle) (uuid : string) : string :=
  handle_hash handle +:+ String "." ("tmp-" +:+ uuid).

Definition io {A} (m : M Directory IoError A) : IO A := map_err map_io_error m.

Definition get_file (handle : SecretHandle) : IO SecretMaterial :=
  envelope ← io (read_file (path_for handle));
  ciphertext ← of_result (decode_envelope is_utf8 envelope handle);
  plaintext ← (λ s n, (dpapi_unprotect n handle ciphertext, s, S n) : result Bytes SecureSecretStoreError * Directory * nat);
  of_result (result_map_err (λ _, Corrupted) (secret_material_new (text_of plaintext))).

Definition move_write_through (source destination : string) (replace_existing : bool) : M Directory IoError unit := λ s n,
  match s !! destination, replace_existing with
  | Some _, false => (Err (IoFault_ FaultExists), s, S n)
  | _, _ => rename_file source destination s n
  end.

(** [TemporaryFile]: unless the body disarms it, the file goes when the scope ends. *)
Definition guarded (temporary : string) (body : IO bool) : IO unit := λ s n,
  let '(r, s, n) := body s n in
  let armed := match r with Ok armed => armed | Err _ => true end in
  let '(_, s, n) := if armed then remove_file temporary s n else (Ok tt, s, n) in
  (match r with Ok _ => Ok tt | Err e => Err e end, s, n).

Definition publish (handle : SecretHandle) (material : SecretMaterial) (replace_existing : bool) : IO unit :=
  ciphertext ← (λ s n, (dpapi_protect n handle (bytes_of (material_bytes material)), s, S n)
                  : result Bytes SecureSecretStoreError * Directory * nat);
  envelope ← of_result (encode_envelope handle ciphertext);
  uuid ← (λ s n, (Ok (tmp_uuid n), s, S n) : result string SecureSecretStoreError * Directory * nat);
  let destination := path_for handle in
  let temporary := temporary_for handle uuid in
  guarded temporary (
    io (create_new_file temporary);;
    io (write_all temporary envelope);;
    io sync_file;;
    moved ← try (move_write_through temporary destination replace_existing);
    match moved with
    | Ok _ => ret false
    | Err (IoFault_ FaultExists) =>
        existing ← try (E:=SecureSecretStoreError) (get_file handle);
        match existing with
        | Ok existing =>
            if bool_decide (existing = material) then ret true
            else io (move_write_through temporary destination true);; ret false
        | Err error => fail error
        end
    | Err error => fail (map_io_error error)
    end).

Definition put_file (handle : SecretHandle) (material : SecretMaterial) : IO unit :=
  existing ← try (E:=SecureSecretStoreError) (get_file handle);
  match existing with
  | Ok existing => if bool_decide (existing = material) then ret tt else publish handle material true
  | Err Missing => publish handle material false
  | Err error => fail error
  end.

Definition delete_file (handle : SecretHandle) : IO unit := io (remove_file (path_for handle)).

(** One entry of the directory. *)
Definition list_entry (handles : list SecretHandle) (name : string) : IO (list SecretHandle) :=
  io sync_file;;
  if negb (has_extension FILE_EXTENSION name) then ret handles
  else
    envelope ← io (read_file name);
    parts ← of_result (decode_envelope_parts is_utf8 envelope);
    let handle := parts.1 in
    if negb (str_eqb (path_for handle) name) || str_in handle handles then fail Corrupted
    else ret (handles ++ [handle]).

Definition list_files : IO (list SecretHandle) :=
  names ← io file_names;
  handles ← fold_each list_entry names [];
  ret (order_by handle_order handles).

(** [cleanup_interrupted_writes], on opening the store. *)
Definition cleanup_temporary (name : string) : IO unit :=
  io sync_file;;
  if str_contains ".tmp-" name then io (remove_file name) else ret tt.
Definition cleanup_interrupted_writes : IO unit :=
  names ← io file_names; for_each names cleanup_temporary.
Definition with_api : IO unit := io sync_file;; cleanup_interrupted_writes.

(** The store: its directory, and how far the environment has come. *)
Record WindowsDpapiSecretStore : Type := { directory : Directory; turn : nat }.

Definition on_directory {A} (m : IO A) (v : WindowsDpapiSecretStore) : blocking A * WindowsDpapiSecretStore :=
  match m (directory v) (turn v) with (r, s, n) => (Returned r, {| directory := s; turn := n |}) end.

#[local] Instance windows_store : SecureSecretStore WindowsDpapiSecretStore := {|
  put h m := on_directory (put_file h m);
  get_secret h := on_directory (get_file h);
  delete_secret h := on_directory (delete_file h);
  list_handles := on_directory list_files
|}.

(** *** What the files hold *)

Context `{!FileHostLaws} `{!WindowsDpapiLaws}.

Definition material_in (h : SecretHandle) (ciphertext : Bytes) : SecretMaterial :=
  {| material_bytes := match opened h ciphertext with Some p => text_of p | None => EmptyString end |}.

Definition windows_secret (envelope : Bytes) : option (SecretHandle * SecretMaterial) :=
  match decode_envelope_parts is_utf8 envelope with
  | Ok (h, ciphertext) => Some (h, material_in h ciphertext)
  | Err _ => None
  end.
Definition dir_held : Directory → gmap SecretHandle SecretMaterial := files_held path_for windows_secret.
Definition windows_held (v : WindowsDpapiSecretStore) : gmap SecretHandle SecretMaterial := dir_held (directory v).

Lemma lookup_dir_held s h m :
  dir_held s !! h = Some m ↔
  ∃ b c, s !! path_for h = Some b ∧ decode_envelope_parts is_utf8 b = Ok (h, c) ∧ m = material_in h c.
Proof.
  unfold dir_held. rewrite lookup_files_held. unfold windows_secret. split.
  - intros (b & Hb & E). exists b. destruct (decode_envelope_parts is_utf8 b) as [[h' c]|]; simplify_eq. eauto.
  - intros (b & c & Hb & E & ->). exists b. by rewrite E.
Qed.

Lemma dir_held_same s s' h : s' !! path_for h = s !! path_for h → dir_held s' !! h = dir_held s !! h.
Proof. apply files_held_same. Qed.

Lemma path_for_extension h : has_extension FILE_EXTENSION (path_for h) = true.
Proof.
  apply has_extension_iff; [..|done]; [|intros [|? [|? [|? [|? [|? []]]]]] y; discriminate| apply hash_nonempty].
  intros [|? [|? [|? [|? [|? []]]]]] y; discriminate.
Qed.

Lemma temporary_other h h' n : temporary_for h (tmp_uuid n) ≠ path_for h'.
Proof.
  intros E. apply last_dot_inj in E as [_ E]; [discriminate| |].
  - intros [|a [|b [|c [|d x]]]] y E'; try discriminate. injection E' as <- <- <- <- E'. by apply (uuid_no_dot n x y).
  - intros [|? [|? [|? [|? [|? []]]]]] y; discriminate.
Qed.

Abbreviation same_files := (same_at path_for).
Definition only_published (h : SecretHandle) (m : SecretMaterial) : Directory → Directory → Prop :=
  only_put path_for (λ s, dir_held s !! h = Some m) h.

Lemma same_insert_temporary h n b s : same_files s (<[temporary_for h (tmp_uuid n) := b]> s).
Proof. intros h'. apply lookup_insert_ne, temporary_other. Qed.

Lemma same_delete_temporary h n s : same_files s (delete (temporary_for h (tmp_uuid n)) s).
Proof. intros h'. apply lookup_delete_ne, temporary_other. Qed.

Lemma wp_get_file h s n (Q : result SecretMaterial SecureSecretStoreError → Directory → nat → Prop) :
  (∀ m n', dir_held s !! h = Some m → Q (Ok m) s n') →
  (∀ e n', (e = Missing → s !! path_for h = None) → Q (Err e) s n') →
  wp (get_file h) s n Q.
Proof.
  intros Ho He. unfold get_file. apply wp_bind, wp_map_err, wp_read_file; cbn.
  - intros Hn. by apply He.
  - intros b Hb. apply wp_bind. unfold wp at 1, of_result.
    destruct (decode_envelope is_utf8 b h) as [c|e] eqn:Ed; cbn.
    2:{ apply He. intros ->. unfold decode_envelope, decode_envelope_parts in Ed. repeat (case_match; cbn in *; try done). }
    apply decode_envelope_Ok in Ed. apply wp_bind. unfold wp at 1.
    destruct (dpapi_unprotect _ h c) as [p|e] eqn:Eu; cbn.
    2:{ apply He. intros ->. by apply unprotect_not_missing in Eu. }
    unfold wp, of_result. unfold secret_material_new. destruct (_ || _); cbn; [by apply He|]. apply Ho.
    apply lookup_dir_held. exists b, c. split_and!; [done|done|]. unfold material_in.
    by rewrite (unprotect_opened _ _ _ _ Eu).
  - intros fault. apply He. by destruct fault.
Qed.

Lemma wp_guarded temporary body s n (Q : result unit SecureSecretStoreError → Directory → nat → Prop) :
  wp body s n (λ r s1 n1, ∀ s2 n2, s2 = s1 ∨ s2 = delete temporary s1 →
    Q (match r with Ok _ => Ok tt | Err e => Err e end) s2 n2) →
  wp (guarded temporary body) s n Q.
Proof.
  unfold wp, guarded. destruct (body s n) as [[r s1] n1]. intros HQ.
  destruct (match r with Ok armed => armed | Err _ => true end); [|by apply HQ; left].
  destruct (remove_file temporary s1 n1) as [[r2 s2] n2] eqn:E. apply HQ.
  revert E. unfold remove_file, existing, fs_step. repeat case_match; intros; simplify_eq/=; auto.
Qed.

Lemma wp_move source destination replace s n (Q : result unit IoError → Directory → nat → Prop) :
  (∀ e, Q (Err e) s (S n)) →
  (∀ b, s !! source = Some b → Q (Ok tt) (<[destination := b]> (delete source s)) (S n)) →
  wp (move_write_through source destination replace) s n Q.
Proof.
  intros He Ho. assert (wp (rename_file source destination) s n Q) as Hr.
  { apply wp_existing; [auto|]. intros b Hb. split; [auto|]. cbn. rewrite Hb. by apply Ho. }
  unfold move_write_through, wp in *. destruct (s !! destination), replace; auto.
Qed.

(** The blob at the temporary name takes the place of the secret. *)
Lemma moved_published h m n b c s :
  decode_envelope_parts is_utf8 b = Ok (h, c) → material_in h c = m →
  let s' := <[path_for h := b]> (delete (temporary_for h (tmp_uuid n)) s) in
  only_published h m s s' ∧ dir_held s' !! h = Some m.
Proof.
  intros Hb Hm s'. assert (dir_held s' !! h = Some m) as Hh.
  { apply lookup_dir_held. exists b, c. unfold s'. by rewrite lookup_insert_eq. }
  split; [|done]. split; [|by right]. intros h' Hne. unfold s'. rewrite lookup_insert_ne by done.
  by apply same_delete_temporary.
Qed.

Lemma wp_publish_secret h m replace s n :
  is_utf8 h = true → h ≠ EmptyString →
  wp (publish h m replace) s n (λ r s' _, only_published h m s s' ∧ (r = Ok tt → dir_held s' !! h = Some m)).
Proof.
  intros Hu Hh. unfold publish. apply wp_bind. unfold wp at 1.
  destruct (dpapi_protect n h _) as [c|e] eqn:Ep; [|split; [by apply same_only|done]].
  apply protect_opened in Ep as [Hc Hne]. apply wp_bind. unfold wp at 1, of_result.
  destruct (encode_envelope h c) as [b|e] eqn:Ee; [|split; [by apply same_only|done]].
  assert (decode_envelope_parts is_utf8 b = Ok (h, c)) as Hd by by apply envelope_roundtrip.
  assert (material_in h c = m) as Hm by (unfold material_in; rewrite Hc, text_bytes; by destruct m).
  apply wp_bind. unfold wp at 1. generalize (S n) as k. intros k. set (T := temporary_for h (tmp_uuid k)).
  assert (∀ r s1, same_files s s1 → (r ≠ Ok tt ∨ dir_held s1 !! h = Some m) → ∀ s2 (n2 : nat), s2 = s1 ∨ s2 = delete T s1 →
    only_published h m s s2 ∧ (r = Ok (E:=SecureSecretStoreError) tt → dir_held s2 !! h = Some m)) as Hsame.
  { intros r s1 Hs Hr s2 _ Hs2. assert (same_files s1 s2) as H12 by (destruct Hs2 as [->| ->]; [done|apply same_delete_temporary]).
    split; [by apply same_only, (same_trans path_for _ s1)|]. intros ->. destruct Hr as [|Hr]; [done|].
    by rewrite (dir_held_same s1 s2) by apply H12. }
  assert (∀ s1, same_files s s1 → ∀ s2 (n2 : nat), s2 = <[path_for h := b]> (delete T s1) ∨ s2 = delete T (<[path_for h := b]> (delete T s1)) →
    only_published h m s s2 ∧ (Ok (A:=unit) (E:=SecureSecretStoreError) tt = Ok tt → dir_held s2 !! h = Some m)) as Hmoved.
  { intros s1 Hs s2 _ Hs2. destruct (moved_published h m k b c s1 Hd Hm) as [M1 M2].
    assert (s2 = <[path_for h := b]> (delete T s1)) as ->.
    { destruct Hs2 as [|E]; [done|]. rewrite E. apply delete_id. rewrite lookup_insert_ne by (symmetry; apply temporary_other).
      apply lookup_delete_eq. }
    split; [by apply (only_trans path_for _ h s s1)|done]. }
  apply wp_guarded. apply wp_bind, wp_map_err, wp_fs_step; cbn; [intros fault; apply Hsame; [done|by left]|].
  destruct (s !! T) eqn:ET; cbn; [apply Hsame; [done|by left]|].
  apply wp_bind, wp_map_err. unfold wp at 1, write_all. destruct (file_fault _); cbn.
  { apply Hsame; [|by left]. eapply same_trans; apply same_insert_temporary. }
  set (s1 := <[T := b]> (<[T := []]> s)).
  assert (same_files s s1) as Hs1 by (eapply same_trans; apply same_insert_temporary).
  assert (s1 !! T = Some b) as HT by apply lookup_insert_eq.
  apply wp_bind, wp_map_err, wp_fs_step; cbn; [intros fault; apply Hsame; [done|by left]|].
  apply wp_bind, wp_try, wp_move; cbn.
  2:{ intros b' Hb'. assert (b' = b) as -> by congruence. by apply Hmoved. }
  intros [|[]]; try (apply wp_fail; apply Hsame; [done|by left]).
  apply wp_bind, wp_try, wp_get_file; [|intros e n' _; apply wp_fail, (Hsame (Err e) s1); [done|by left]].
  intros m' n' Hm'. case_bool_decide; [subst m'; apply wp_ret, (Hsame (Ok tt) s1); [done|by right]|].
  apply wp_bind, wp_map_err, wp_move; cbn; [intros e; apply Hsame; [done|by left]|].
  intros b' Hb'. assert (b' = b) as -> by congruence. by apply Hmoved.
Qed.

(** Putting a secret publishes it as a whole or leaves what was there, and touches no other. *)
Lemma wp_put_file h m s n :
  is_utf8 h = true → h ≠ EmptyString →
  wp (put_file h m) s n (λ r s' _, only_published h m s s' ∧ (r = Ok tt → dir_held s' !! h = Some m)).
Proof.
  intros Hu Hh. unfold put_file. apply wp_bind, wp_try, wp_get_file; cbn.
  - intros m' n' Hm. case_bool_decide as E; [|by apply wp_publish_secret]. subst m'. apply wp_ret. by split; [apply same_only|].
  - intros e n' _. destruct e; try (apply wp_fail; by split; [apply same_only|]). by apply wp_publish_secret.
Qed.

Lemma wp_delete_file h s n :
  wp (delete_file h) s n (λ r s' _,
    (s' = s ∧ r ≠ Ok tt ∧ (r = Err Missing → s !! path_for h = None)) ∨ (s' = delete (path_for h) s ∧ r = Ok tt)).
Proof.
  apply wp_map_err, wp_remove_file; cbn; [left; by split_and!|by right|]. intros []; left; by split_and!.
Qed.

(** A handle that the file of its name holds. *)
Definition listed (s : Directory) (h : SecretHandle) : Prop := is_Some (dir_held s !! h).

Lemma wp_list_entry handles name s n :
  is_Some (s !! name) →
  wp (list_entry handles name) s n (λ r s' _, s' = s ∧
    ∀ l, r = Ok l → ∀ h, h ∈ l ↔ h ∈ handles ∨ path_for h = name ∧ listed s h).
Proof.
  intros [b Hb]. unfold list_entry. apply wp_bind, wp_map_err, wp_fs_step; [by intros fault|]. cbn.
  destruct (has_extension FILE_EXTENSION name) eqn:Ex; cbn.
  2:{ split; [done|]. intros l [= <-] h. split; [by left|]. intros [|[E _]]; [done|].
      by rewrite <- E, path_for_extension in Ex. }
  apply wp_bind, wp_map_err, wp_read_file; cbn; [congruence| |by intros []].
  intros b' Hb'. apply wp_bind. unfold wp at 1, of_result.
  destruct (decode_envelope_parts is_utf8 b') as [[h c]|e] eqn:Ed; [|done]. cbn [fst].
  destruct (str_eqb (path_for h) name) eqn:Ep; [|done].
  destruct (str_in h handles); [done|]. apply str_eqb_eq in Ep. split; [done|].
  intros l [= <-] h'. rewrite elem_of_app, list_elem_of_singleton. split.
  - intros [| ->]; [by left|right]. split; [done|]. exists (material_in h c). apply lookup_dir_held. exists b', c. by rewrite Ep.
  - intros [|[E [m (b2 & c2 & Hb2 & Hd2 & _)%lookup_dir_held]]]; [by left|right]. rewrite E in Hb2. congruence.
Qed.

Lemma wp_list_entries names : ∀ handles s n,
  (∀ name, name ∈ names → is_Some (s !! name)) →
  wp (fold_each list_entry names handles) s n (λ r s' _, s' = s ∧
    ∀ l, r = Ok l → ∀ h, h ∈ l ↔ h ∈ handles ∨ path_for h ∈ names ∧ listed s h).
Proof.
  induction names as [|name names IH]; intros handles s n Hn; cbn [fold_each].
  - apply wp_ret. split; [done|]. intros l [= <-] h. split; [by left|]. intros [|[[]%elem_of_nil _]]; done.
  - apply wp_bind. eapply wp_mono; [apply wp_list_entry, Hn; by left|]. intros [l1|e] s' n' [-> Hl1]; [|done].
    eapply wp_mono; [apply IH; intros name' Hin; apply Hn; by right|]. intros r s' n2 [-> Hl]. split; [done|].
    intros l Hr h. rewrite (Hl l Hr), (Hl1 _ eq_refl), elem_of_cons. tauto.
Qed.

Lemma wp_list_files s n :
  wp list_files s n (λ r s' _, s' = s ∧ ∀ l, r = Ok l → ∀ h, h ∈ l ↔ listed s h).
Proof.
  apply wp_bind, wp_map_err, wp_fs_step; [done|]. apply wp_bind. eapply wp_mono.
  - apply (wp_list_entries _ []). intros name ([k b] & -> & Hin%elem_of_map_to_list)%list_elem_of_fmap. by exists b.
  - intros [l|e] s' n' [-> Hl]; [|done]. apply wp_ret. split; [done|]. intros l' [= <-] h.
    rewrite elem_of_order_by, (Hl l eq_refl). split; [|intros Hh; right; split; [|done]].
    + by intros [[]%elem_of_nil|[_ Hh]].
    + destruct Hh as [m (b & c & Hb & _)%lookup_dir_held]. apply list_elem_of_fmap. exists (path_for h, b).
      split; [done|]. by apply elem_of_map_to_list.
Qed.

(** *** Opening *)

Lemma contains_split p s : str_contains p s = true → ∃ x y, s = x +:+ p +:+ y.
Proof.
  induction s as [|a s IH]; cbn [str_contains]; intros Hc.
  - unfold starts_with in Hc. destruct (strip_prefix p EmptyString) as [y|] eqn:E; [|by destruct p].
    apply strip_prefix_Some in E. by exists EmptyString, y.
  - unfold starts_with in Hc. destruct (strip_prefix p (String a s)) as [y|] eqn:E.
    + apply strip_prefix_Some in E. by exists EmptyString, y.
    + destruct (IH Hc) as (x & y & ->). by exists (String a x), y.
Qed.

Lemma secret_not_temporary h : str_contains ".tmp-" (path_for h) = false.
Proof.
  destruct (str_contains ".tmp-" (path_for h)) eqn:E; [|done]. apply contains_split in E as (x & y & E). exfalso.
  unfold path_for in E. pose proof (hash_no_dot h) as Hh. revert x E.
  induction (handle_hash h) as [|a s IH]; intros [|b x] E.
  - discriminate.
  - injection E as <- E. destruct x as [|? [|? [|? [|? [|? []]]]]]; discriminate.
  - injection E as -> E. by destruct (Hh EmptyString s).
  - injection E as -> E. apply (IH (λ u v Ev, Hh (String b u) v (f_equal (String b) Ev)) x E).
Qed.

Lemma wp_cleanup_entries names : ∀ s n,
  wp (for_each names cleanup_temporary) s n (λ r s' _, same_files s s' ∧ s' ⊆ s ∧
    (r = Ok tt → ∀ name, name ∈ names → str_contains ".tmp-" name = true → s' !! name = None)).
Proof.
  induction names as [|name names IH]; intros s n; cbn [for_each].
  { apply wp_ret. split_and!; [done..|]. by intros _ name ?%elem_of_nil. }
  apply wp_bind. unfold cleanup_temporary at 1. apply wp_bind, wp_map_err, wp_fs_step; [by intros fault|]. cbn [fst snd result_map_err].
  destruct (str_contains ".tmp-" name) eqn:Et.
  2:{ apply wp_ret. eapply wp_mono; [apply IH|]. intros r s' n' (H1' & H2' & H3'). split_and!; [done..|].
      intros Hr name' [->|Hin]%elem_of_cons Hc; [congruence|auto]. }
  apply wp_map_err, wp_remove_file; [done| |by intros fault]. cbn [result_map_err].
  eapply wp_mono; [apply IH|]. intros r s' n' (H1' & H2' & H3'). split_and!.
  - intros h. rewrite H1'. apply lookup_delete_ne. intros E. by rewrite E, secret_not_temporary in Et.
  - etrans; [exact H2'|]. apply delete_subseteq.
  - intros Hr name' [->|Hin]%elem_of_cons Hc; [|auto]. eapply lookup_weaken_None; [|exact H2']. apply lookup_delete_eq.
Qed.

(** Opening the store takes away what an interrupted write left, and no secret. *)
Lemma wp_with_api s n :
  wp with_api s n (λ r s' _, same_files s s' ∧ (r = Ok tt → ∀ name, str_contains ".tmp-" name = true → s' !! name = None)).
Proof.
  apply wp_bind, wp_map_err, wp_fs_step; [by intros fault|]. cbn [fst snd result_map_err].
  apply wp_bind, wp_map_err, wp_fs_step; [by intros fault|]. cbn [fst snd result_map_err].
  eapply wp_mono; [apply wp_cleanup_entries|]. intros r s' n' (Hs & Hsub & Hr). split; [done|]. intros Ho name Hc.
  destruct (s !! name) as [b|] eqn:E; [|by eapply lookup_weaken_None].
  apply Hr; [done| |done]. apply list_elem_of_fmap. exists (name, b). split; [done|]. by apply elem_of_map_to_list.
Qed.

Lemma on_directory_wp {A} (m : IO A) v (Q : result A SecureSecretStoreError → Directory → nat → Prop) :
  wp m (directory v) (turn v) Q →
  ∃ r s n, on_directory m v = (Returned r, {| directory := s; turn := n |}) ∧ Q r s n.
Proof. unfold wp, on_directory. destruct (m _ _) as [[r s] n]. intros HQ. by exists r, s, n. Qed.

(** Names a call on the directory, with what its specification says of it. *)
Ltac run_on m v W :=
  let r := fresh "r" in let s := fresh "s" in let n := fresh "n" in let E := fresh "E" in let HQ := fresh "HQ" in
  destruct (on_directory_wp m v _ W) as (r & s & n & E & HQ); rewrite ?E in *; cbn [fst snd] in *;
  unfold windows_held; cbn [directory].

Variable in_use : SecretHandle → Prop.
Hypothesis in_use_named : ∀ h, in_use h → is_utf8 h = true ∧ h ≠ EmptyString.
Hypothesis in_use_apart : ∀ h h', in_use h → in_use h' → path_for h = path_for h' → h = h'.

Lemma windows_laws : StoreLawsFor in_use (λ _, True) windows_held.
Proof.
  split; try done; cbn.
  - intros h m v h' _ Hp Hp' Hne. destruct (in_use_named h Hp). run_on (put_file h m) v (wp_put_file h m (directory v) (turn v) ltac:(done) ltac:(done)).
    apply dir_held_same, HQ. intros E'. apply Hne. by apply in_use_apart.
  - intros h m v _ Hp. destruct (in_use_named h Hp). run_on (put_file h m) v (wp_put_file h m (directory v) (turn v) ltac:(done) ltac:(done)).
    intros [= ->]. by apply HQ.
  - intros h v h' _ _ _. run_on (get_file h) v (wp_get_file h (directory v) (turn v) (λ _ s _, s = directory v) ltac:(done) ltac:(done)).
    by subst.
  - intros h m v _ _. run_on (get_file h) v (wp_get_file h (directory v) (turn v)
      (λ r s _, ∀ m, r = Ok m → dir_held (directory v) !! h = Some m) ltac:(intros ? ? ? ? [= <-]; done) ltac:(done)).
    intros [= ->]. by apply HQ.
  - intros h v h' _ Hp Hp' Hne. run_on (delete_file h) v (wp_delete_file h (directory v) (turn v)).
    destruct HQ as [[-> _]|[-> _]]; [done|]. apply dir_held_same, lookup_delete_ne. intros E'. apply Hne. by apply in_use_apart.
  - intros h v _ _. run_on (delete_file h) v (wp_delete_file h (directory v) (turn v)). intros Hr.
    destruct (dir_held s !! h) as [m|] eqn:Eh; [exfalso|done]. apply lookup_dir_held in Eh as (b & c & Hb & _).
    destruct HQ as [(-> & Hne & Hm)|[-> _]]; [|by rewrite lookup_delete_eq in Hb].
    destruct Hr as [[= ->]|[= ->]]; [done|]. by rewrite Hm in Hb.
  - intros h v m _ _. run_on (delete_file h) v (wp_delete_file h (directory v) (turn v)).
    destruct HQ as [[-> _]|[-> _]]; [done|]. intros (b & c & Hb & _)%lookup_dir_held. by rewrite lookup_delete_eq in Hb.
  - intros v h _ _. run_on list_files v (wp_list_files (directory v) (turn v)). by destruct HQ as [-> _].
  - intros l v h _ _. run_on list_files v (wp_list_files (directory v) (turn v)). intros [= ->]. by apply HQ.
Qed.

(** C29: with the files of Windows underneath, the store of a profile is one that the
    custody of secrets can rely on: whatever the file system and DPAPI refuse, what is put is
    held until it is put again or deleted, what is read or listed is held, what a deletion
    reports as gone is gone, and no call touches the secret of another handle. Two handles must
    not have files of the same name, and handles are never empty. *)
Theorem windows_store_keeps_secrets profile :
  @StoreLawsFor _ (@scoped_store _ windows_store profile) (scoped_handle profile in_use) (λ _, True)
    (scoped_held profile windows_held).
Proof. exact (scoped_store_laws (H:=windows_store) profile in_use (λ _, True) windows_held windows_laws). Qed.

(** C30: a secret is replaced as a whole. However a put ends, once the store has been opened
    again its handle has the old secret or the new one, the new one if the put succeeded, every
    other handle has what it had, and if opening succeeded no half-written file is left. *)
Theorem secrets_are_published_whole h m s n (Hh : in_use h) :
  wp (put_file h m) s n (λ r s1 n1,
    wp with_api s1 n1 (λ opened_again s2 _,
      (∀ h', in_use h' → h' ≠ h → dir_held s2 !! h' = dir_held s !! h') ∧
      (dir_held s2 !! h = dir_held s !! h ∨ dir_held s2 !! h = Some m) ∧
      (r = Ok tt → dir_held s2 !! h = Some m) ∧
      (opened_again = Ok tt → ∀ name, str_contains ".tmp-" name = true → s2 !! name = None))).
Proof.
  destruct (in_use_named h Hh). eapply wp_mono; [by apply wp_put_file|]. intros r s1 n1 [[Ho Hs] Hr].
  eapply wp_mono; [apply wp_with_api|]. intros r' s2 n2 [Hsame Hclean].
  assert (∀ h', dir_held s2 !! h' = dir_held s1 !! h') as E by (intros h'; apply dir_held_same, Hsame).
  split_and!; [| | |done].
  - intros h' Hp' Hne. rewrite E. apply dir_held_same, Ho. intros E'. apply Hne. by apply in_use_apart.
  - rewrite E. destruct Hs as [Hs|Hs]; [left; by apply dir_held_same|by right].
  - intros Hok. rewrite E. by apply Hr.
Qed.
End Store.

(** ** Concrete runs *)

Section Witnesses.
Definition demo_digest (b : Bytes) : Bytes := take 32 (b ++ replicate 32 Ascii.zero).
#[local] Instance demo_blake3 : Blake3Bytes := {| blake3_bytes := demo_digest |}.

Lemma demo_digest_length b : length (blake3_bytes b) = 32%nat.
Proof. cbn. unfold demo_digest. rewrite length_take, length_app, length_replicate. lia. Qed.

(** The write of the first [put] fails half-way, and so does the removal of what it wrote. *)
#[local] Instance demo_host : FileHost := {|
  is_utf8 _ := true; handle_hash h := if str_eqb h "vnidrop/v1/scope-p/x" then "aa" else "bb";
  file_fault n := if (n =? 4)%nat || (n =? 5)%nat then Some FaultOther else None; written _ := 7%nat; tmp_uuid _ := "u" |}.

#[local] Instance demo_host_laws : FileHostLaws.
Proof.
  split; cbn; [|intros h; by destruct (str_eqb _ _)|].
  - intros h. destruct (str_eqb _ _); intros [|? [|? [|? []]]] y; discriminate.
  - intros n [|? [|? []]] y; discriminate.
Qed.

Definition demo_dpapi : WindowsDpapiApi := fake_dpapi (bytes_of "context") (λ _, None) [].
#[local] Existing Instance demo_dpapi.
#[local] Instance demo_dpapi_laws : WindowsDpapiLaws :=
  fake_dpapi_laws demo_digest_length (bytes_of "context") (λ _, None) [] ltac:(intros n E; discriminate E).

Definition demo_handle : SecretHandle := "vnidrop/v1/scope-p/x".
Definition demo_in_use (h : SecretHandle) : Prop := h = demo_handle ∨ h = "vnidrop/v1/scope-p/y"%string.
Definition demo_secret : SecretMaterial := {| material_bytes := "0123456789abcdef0123456789abcdef" |}.

Lemma windows_demo_named h : demo_in_use h → is_utf8 h = true ∧ h ≠ EmptyString.
Proof. by intros [-> | ->]. Qed.
Lemma windows_demo_apart h h' : demo_in_use h → demo_in_use h' → path_for h = path_for h' → h = h'.
Proof. by intros [-> | ->] [-> | ->]. Qed.

Lemma windows_store_keeps_secrets_witness :
  @StoreLawsFor _ (@scoped_store _ windows_store "p") (scoped_handle "p" demo_in_use) (λ _, True)
    (scoped_held "p" windows_held) ∧
  scoped_handle "p" demo_in_use "vnidrop/v1/x".
Proof.
  split; [apply (windows_store_keeps_secrets demo_in_use windows_demo_named windows_demo_apart "p")|].
  intros physical [= <-]. left. reflexivity.
Defined.

(** The put fails and leaves its temporary file; opening takes it away, and the next put works. *)
Lemma secrets_are_published_whole_witness :
  wp (put_file demo_handle demo_secret) ∅ 0 (λ r s1 n1,
    wp with_api s1 n1 (λ opened_again s2 _,
      (∀ h', demo_in_use h' → h' ≠ demo_handle → dir_held s2 !! h' = dir_held ∅ !! h') ∧
      (dir_held s2 !! demo_handle = dir_held ∅ !! demo_handle ∨ dir_held s2 !! demo_handle = Some demo_secret) ∧
      (r = Ok tt → dir_held s2 !! demo_handle = Some demo_secret) ∧
      (opened_again = Ok tt → ∀ name, str_contains ".tmp-" name = true → s2 !! name = None))) ∧
  (let '(r, s1, n1) := put_file demo_handle demo_secret ∅ 0%nat in
   let '(r', s2, n2) := with_api s1 n1 in
   let '(r'', s3, _) := put_file demo_handle demo_secret s2 n2 in
   r = Err Unavailable ∧ size s1 = 1%nat ∧ r' = Ok tt ∧ size s2 = 0%nat ∧ r'' = Ok tt ∧
   dir_held s3 !! demo_handle = Some demo_secret).
Proof.
  split; [apply (secrets_are_published_whole demo_in_use windows_demo_named windows_demo_apart); left; reflexivity|].
  vm_compute. repeat split.
Defined.
End Witnesses.
