(* ===== verification/AndroidStore.v ===== *)
(** * [secure_secret/android.rs]: protected secrets as records sealed by the Keystore

    Each secret is a record file that names its handle and holds a ciphertext; the key, one for
    each handle, never leaves the Android Keystore. A record is staged before its key exists.
    The Keystore and the file system fail at will. The JNI calls of [android_native.rs] are the
    implementation of the Keystore on a device and not modelled; the lock that serialises
    mutations is what makes each call one step of the store. *)

From S2P Require Import Prelude Sql Errors SecureSecret SecretStores.

(** ** Records *)

(** [to_be_bytes] and [from_be_bytes]. *)
Definition to_be (n : nat) (z : Z) : Bytes := reverse (to_le n z).
Definition from_be (b : Bytes) : Z := from_le (reverse b).

Lemma from_to_be n z : 0 ≤ z < 256 ^ Z.of_nat n → from_be (to_be n z) = z.
Proof. unfold from_be, to_be. rewrite reverse_involutive. apply from_to_le. Qed.
Lemma length_to_be n z : length (to_be n z) = n.
Proof. unfold to_be. by rewrite length_reverse, length_to_le. Qed.

Definition RECORD_MAGIC : Bytes := bytes_of "VNDASK01".
Inductive RecordState : Type := RECORD_STAGED | RECORD_SEALED.
#[global] Instance RecordState_eq_dec : EqDecision RecordState.
Proof. solve_decision. Defined.
Definition state_byte (state : RecordState) : ascii := match state with RECORD_STAGED => byte 0 | RECORD_SEALED => byte 1 end.

Definition RECORD_EXTENSION : string := "vns".
Definition KEY_ALIAS_PREFIX : string := "vnidrop.secret.v1.".
Definition HEADER_LEN : nat := 17.

Record AndroidSealedValue : Type := { nonce : Bytes; ciphertext : Bytes }.

(** The limits of the lengths; a state fits what is sealed. *)
Definition encode_record (handle : SecretHandle) (state : RecordState) (sealed : option AndroidSealedValue) :
    result Bytes SecureSecretStoreError :=
  let handle_bytes := bytes_of handle in
  if 65535 <? Z.of_nat (length handle_bytes) then Err Corrupted
  else
    match
      match state, sealed with
      | RECORD_STAGED, None => Some ([], [])
      | RECORD_SEALED, Some value => Some (nonce value, ciphertext value)
      | _, _ => None
      end
    with
    | None => Err Corrupted
    | Some (nonce, ciphertext) =>
        if 65535 <? Z.of_nat (length nonce) then Err Corrupted
        else if 4294967295 <? Z.of_nat (length ciphertext) then Err Corrupted
        else Ok (RECORD_MAGIC ++ [state_byte state] ++ to_be 2 (Z.of_nat (length handle_bytes)) ++
                 to_be 2 (Z.of_nat (length nonce)) ++ to_be 4 (Z.of_nat (length ciphertext)) ++
                 handle_bytes ++ nonce ++ ciphertext)
    end.

Record ParsedRecord : Type := { pr_handle : SecretHandle; pr_state : RecordState; pr_nonce : Bytes; pr_ciphertext : Bytes }.

Definition parse_state (b : option ascii) : option RecordState :=
  match b with
  | Some a => if Ascii.eqb a (byte 0) then Some RECORD_STAGED else if Ascii.eqb a (byte 1) then Some RECORD_SEALED else None
  | None => None
  end.

Section Parse.
Variable utf8 : string → bool.

Definition parse_record (bytes : Bytes) : result ParsedRecord SecureSecretStoreError :=
  if (length bytes <? HEADER_LEN)%nat || negb (bool_decide (take 8 bytes = RECORD_MAGIC)) then Err Corrupted
  else
    match parse_state (bytes !! 8%nat) with
    | None => Err Corrupted
    | Some state =>
        let handle_len := Z.to_nat (from_be (slice 9 2 bytes)) in
        let nonce_len := Z.to_nat (from_be (slice 11 2 bytes)) in
        let ciphertext_len := Z.to_nat (from_be (slice 13 4 bytes)) in
        if negb (length bytes =? HEADER_LEN + handle_len + nonce_len + ciphertext_len)%nat then Err Corrupted
        else
          let handle_end := (HEADER_LEN + handle_len)%nat in
          let handle := text_of (slice HEADER_LEN handle_len bytes) in
          if utf8 handle
          then Ok {| pr_handle := handle; pr_state := state; pr_nonce := slice handle_end nonce_len bytes;
                     pr_ciphertext := drop (handle_end + nonce_len) bytes |}
          else Err Corrupted
    end.

Definition is_nil {A} (l : list A) : bool := match l with [] => true | _ => false end.

Definition decode_record (bytes : Bytes) (expected_handle : SecretHandle) : result AndroidSealedValue SecureSecretStoreError :=
  let? r := parse_record bytes in
  if negb (str_eqb (pr_handle r) expected_handle) || negb (bool_decide (pr_state r = RECORD_SEALED)) then Err Corrupted
  else if is_nil (pr_nonce r) || is_nil (pr_ciphertext r) then Err Corrupted
  else Ok {| nonce := pr_nonce r; ciphertext := pr_ciphertext r |}.

Definition decode_handle_from_record (bytes : Bytes) : result SecretHandle SecureSecretStoreError :=
  let? r := parse_record bytes in Ok (pr_handle r).

(** What is written for a handle is read back. *)
Lemma record_roundtrip handle state sealed bytes :
  encode_record handle state sealed = Ok bytes → utf8 handle = true →
  parse_record bytes = Ok {| pr_handle := handle; pr_state := state;
                             pr_nonce := default [] (nonce <$> sealed); pr_ciphertext := default [] (ciphertext <$> sealed) |}.
Proof.
  unfold encode_record. cbv zeta. destruct (65535 <? _) eqn:E1; [done|].
  destruct (match state, sealed with RECORD_STAGED, None => _ | _, _ => _ end) as [[n c]|] eqn:Ek; [|done].
  assert (default [] (nonce <$> sealed) = n ∧ default [] (ciphertext <$> sealed) = c) as [-> ->].
  { destruct state, sealed; by simplify_eq/=. }
  destruct (65535 <? _) eqn:E2 in |- *; [done|]. destruct (4294967295 <? _) eqn:E3; [done|].
  apply Z.ltb_ge in E1, E2, E3. set (hb := bytes_of handle) in *. intros E Hu.
  match type of E with Ok ?x = _ => set (b := x) in E end. assert (bytes = b) as -> by congruence. clear E.
  assert (length b = 17 + length hb + length n + length c)%nat as Hb.
  { unfold b. rewrite !length_app, !length_to_be. cbn. lia. }
  unfold parse_record. rewrite Hb.
  assert (parse_state (b !! 8%nat) = Some state) as -> by by destruct state.
  assert (take 8 b = RECORD_MAGIC) as -> by done. rewrite bool_decide_true by done.
  assert (slice 9 2 b = to_be 2 (Z.of_nat (length hb))) as -> by reflexivity.
  assert (slice 11 2 b = to_be 2 (Z.of_nat (length n))) as -> by reflexivity.
  assert (slice 13 4 b = to_be 4 (Z.of_nat (length c))) as -> by reflexivity.
  rewrite !from_to_be, !Nat2Z.id; [|change (256 ^ Z.of_nat 4) with 4294967296; lia|change (256 ^ Z.of_nat 2) with 65536; lia..].
  assert (drop 17 b = hb ++ n ++ c) as B by done.
  rewrite (proj2 (Nat.ltb_ge _ _)) by (unfold HEADER_LEN; lia). cbn [orb negb].
  rewrite (proj2 (Nat.eqb_eq _ _)) by (unfold HEADER_LEN; lia). cbn [negb].
  unfold slice, HEADER_LEN. rewrite <- !drop_drop, B. rewrite take_app_length, drop_app_length, take_app_length, drop_app_length.
  unfold hb. by rewrite text_bytes, Hu.
Qed.

Lemma decode_record_error bytes h e : decode_record bytes h = Err e → e = Corrupted.
Proof. unfold decode_record, parse_record. repeat (case_match; cbn in *; try congruence). Qed.

Lemma decode_record_Ok bytes h v :
  decode_record bytes h = Ok v ↔
  parse_record bytes = Ok {| pr_handle := h; pr_state := RECORD_SEALED; pr_nonce := nonce v; pr_ciphertext := ciphertext v |} ∧
  nonce v ≠ [] ∧ ciphertext v ≠ [].
Proof.
  unfold decode_record. destruct (parse_record bytes) as [[h' st n c]|]; cbn; [|naive_solver].
  destruct (str_eqb h' h) eqn:E; cbn.
  - apply str_eqb_eq in E as ->. case_bool_decide as Est; cbn; [subst st|naive_solver].
    destruct n as [|a n], c as [|a' c]; cbn; (split; [intros [= <-]; cbn; done|]); destruct v; naive_solver.
  - split; [done|]. intros [[= -> _ _ _] _]. by rewrite str_eqb_refl in E.
Qed.
End Parse.

(** ** [AndroidSecureSecretStore] *)

(** The trait [AndroidKeystore]; [sealed_in] is what a sealed value holds under an alias. *)
Class AndroidKeystore : Type := {
  keystore_seal : nat → string → Bytes → result AndroidSealedValue SecureSecretStoreError;
  keystore_open : nat → string → AndroidSealedValue → result Bytes SecureSecretStoreError;
  keystore_delete : nat → string → result unit SecureSecretStoreError
}.
Class AndroidKeystoreLaws `{AndroidKeystore} : Type := {
  sealed_in : string → AndroidSealedValue → option Bytes;
  seal_sealed n a p v : keystore_seal n a p = Ok v → sealed_in a v = Some p;
  open_sealed_in n a v p : keystore_open n a v = Ok p → sealed_in a v = Some p
}.

Definition map_record_error (error : IoError) : SecureSecretStoreError :=
  match error with
  | IoMissing => Missing
  | IoFault_ FaultInvalidData => Corrupted
  | IoFault_ _ => Unavailable
  end.

Section Store.
Context `{FileHost} `{AndroidKeystore}.
Abbreviation IO := (M Directory SecureSecretStoreError).

Definition record_path (handle : SecretHandle) : string := handle_hash handle +:+ String "." RECORD_EXTENSION.
Definition alias (handle : SecretHandle) : string := KEY_ALIAS_PREFIX +:+ handle_hash handle.
(** [path.with_extension("vns.tmp")]. *)
Definition temporary_path (handle : SecretHandle) : string := (handle_hash handle +:+ ".vns") +:+ String "." "tmp".

Definition io {A} (m : M Directory IoError A) : IO A := map_err map_record_error m.
(** A call of the Keystore. *)
Definition keystore {A} (call : nat → result A SecureSecretStoreError) : IO A := λ s n, (call n, s, S n).

Definition write_record (handle : SecretHandle) (state : RecordState) (sealed : option AndroidSealedValue) : IO unit :=
  bytes ← of_result (encode_record handle state sealed);
  let temporary := temporary_path handle in
  io (create_file temporary);;
  io sync_file;;                              (* set_private_file_permissions *)
  io (write_all temporary bytes);;
  io sync_file;;
  io (rename_file temporary (record_path handle));;
  io sync_file.                               (* sync_directory *)

Definition read_record (handle : SecretHandle) : IO AndroidSealedValue :=
  bytes ← io (read_file (record_path handle));
  of_result (decode_record is_utf8 bytes handle).

(** [fs::metadata]. *)
Definition record_exists (handle : SecretHandle) : IO bool :=
  found ← try (existing (record_path handle) (λ s, (Ok tt, s)));
  match found with
  | Ok _ => ret true
  | Err IoMissing => ret false
  | Err error => fail (map_record_error error)
  end.

Definition put_record (handle : SecretHandle) (material : SecretMaterial) : IO unit :=
  exists_already ← record_exists handle;
  (if (exists_already : bool) then ret tt else write_record handle RECORD_STAGED None);;
  sealed ← keystore (λ n, keystore_seal n (alias handle) (bytes_of (material_bytes material)));
  if is_nil (nonce sealed) || is_nil (ciphertext sealed) then fail Corrupted
  else write_record handle RECORD_SEALED (Some sealed).

Definition get_record (handle : SecretHandle) : IO SecretMaterial :=
  sealed ← read_record handle;
  plaintext ← keystore (λ n, keystore_open n (alias handle) sealed);
  of_result (result_map_err (λ _, Corrupted) (secret_material_new (text_of plaintext))).

Definition delete_record (handle : SecretHandle) : IO unit :=
  deleted ← try (E:=SecureSecretStoreError) (keystore (λ n, keystore_delete n (alias handle)));
  match deleted with
  | Ok _ | Err Missing =>
      removed ← try (remove_file (record_path handle));
      match removed with
      | Ok _ => io sync_file
      | Err IoMissing => ret tt
      | Err error => fail (map_record_error error)
      end
  | Err error => fail error
  end.

Definition list_record (handles : list SecretHandle) (name : string) : IO (list SecretHandle) :=
  io sync_file;;
  if negb (has_extension RECORD_EXTENSION name) then ret handles
  else
    bytes ← io (read_file name);
    handle ← of_result (decode_handle_from_record is_utf8 bytes);
    ret (handles ++ [handle]).

Definition list_record_files : IO (list SecretHandle) :=
  names ← io file_names;
  handles ← fold_each list_record names [];
  ret (order_by handle_order handles).

Record AndroidSecureSecretStore : Type := { records_dir : Directory; turn : nat }.

Definition on_records {A} (m : IO A) (v : AndroidSecureSecretStore) : blocking A * AndroidSecureSecretStore :=
  match m (records_dir v) (turn v) with (r, s, n) => (Returned r, {| records_dir := s; turn := n |}) end.

#[local] Instance android_store : SecureSecretStore AndroidSecureSecretStore := {|
  put h m := on_records (put_record h m);
  get_secret h := on_records (get_record h);
  delete_secret h := on_records (delete_record h);
  list_handles := on_records list_record_files
|}.

(** *** What the records hold *)

Context `{!FileHostLaws} `{!AndroidKeystoreLaws}.

(** Nothing has been sealed in a staged record. *)
Definition material_of (h : SecretHandle) (b : Bytes) : SecretMaterial :=
  {| material_bytes := match decode_record is_utf8 b h with
                       | Ok v => match sealed_in (alias h) v with Some p => text_of p | None => EmptyString end
                       | Err _ => EmptyString
                       end |}.
Definition android_secret (b : Bytes) : option (SecretHandle * SecretMaterial) :=
  match parse_record is_utf8 b with Ok r => Some (pr_handle r, material_of (pr_handle r) b) | Err _ => None end.
Definition records_held : Directory → gmap SecretHandle SecretMaterial := files_held record_path android_secret.
Definition android_held (v : AndroidSecureSecretStore) : gmap SecretHandle SecretMaterial := records_held (records_dir v).

(** A record has the name of its handle. *)
Definition well_named (s : Directory) : Prop :=
  ∀ name b r, s !! name = Some b → has_extension RECORD_EXTENSION name = true → parse_record is_utf8 b = Ok r →
    name = record_path (pr_handle r).

Lemma no_dot_vns : no_dot RECORD_EXTENSION.
Proof. intros [|? [|? [|? [|? []]]]] y; discriminate. Qed.
Lemma no_dot_tmp : no_dot "tmp".
Proof. intros [|? [|? [|? [|? []]]]] y; discriminate. Qed.

Lemma record_path_extension h : has_extension RECORD_EXTENSION (record_path h) = true.
Proof. apply has_extension_iff; [apply no_dot_vns..|apply hash_nonempty|done]. Qed.

Lemma temporary_extension h : has_extension RECORD_EXTENSION (temporary_path h) = false.
Proof.
  apply not_true_iff_false. unfold temporary_path. rewrite has_extension_iff; [done|apply no_dot_vns|apply no_dot_tmp|].
  intros E. apply (f_equal String.length) in E. rewrite str_length_app in E. cbn in E. lia.
Qed.

Lemma record_temporary_other h h' : temporary_path h ≠ record_path h'.
Proof. intros E. pose proof (temporary_extension h) as Ht. by rewrite E, record_path_extension in Ht. Qed.

Lemma well_named_temporary h b s : well_named s → well_named (<[temporary_path h := b]> s).
Proof.
  intros Hs name b' r. destruct (decide (name = temporary_path h)) as [->|Hne]; [by rewrite temporary_extension|].
  rewrite lookup_insert_ne by done. apply Hs.
Qed.

Lemma well_named_sub s s' : s' ⊆ s → well_named s → well_named s'.
Proof. intros Hsub Hs name b r Hb. apply Hs. by eapply lookup_weaken. Qed.

Lemma same_temporary h b s : same_at record_path s (<[temporary_path h := b]> s).
Proof. intros h'. apply lookup_insert_ne, record_temporary_other. Qed.

(** What a call may do: keep the names right and touch only the record of [h], which then is what
    [new] says. *)
Definition record_change (new : Directory → Prop) (h : SecretHandle) (s s' : Directory) : Prop :=
  (well_named s → well_named s') ∧ only_put record_path new h s s'.

Lemma change_none new h s : record_change new h s s.
Proof. split; [done|]. by apply same_only. Qed.

Lemma change_temporary new h b s s' : record_change new h (<[temporary_path h := b]> s) s' → record_change new h s s'.
Proof.
  intros [E1 E2]. split; [intros Hs; by apply E1, well_named_temporary|]. eapply only_trans; [apply same_temporary|exact E2].
Qed.

Lemma lookup_records_held s h m :
  records_held s !! h = Some m ↔ ∃ b r, s !! record_path h = Some b ∧ parse_record is_utf8 b = Ok r ∧ pr_handle r = h ∧ m = material_of h b.
Proof.
  unfold records_held. rewrite lookup_files_held. unfold android_secret. split.
  - intros (b & Hb & E). destruct (parse_record is_utf8 b) as [r|] eqn:Er; simplify_eq. by exists b, r.
  - intros (b & r & Hb & Er & <- & ->). exists b. by rewrite Er.
Qed.

(** The bytes at the temporary path become the record. *)
Lemma renamed_change h b r s :
  parse_record is_utf8 b = Ok r → pr_handle r = h → s !! temporary_path h = Some b →
  let s' := <[record_path h := b]> (delete (temporary_path h) s) in
  record_change (λ s, records_held s !! h = Some (material_of h b)) h s s' ∧ records_held s' !! h = Some (material_of h b).
Proof.
  intros Hr Eh _ s'. assert (records_held s' !! h = Some (material_of h b)) as Hh.
  { apply lookup_records_held. exists b, r. unfold s'. by rewrite lookup_insert_eq. }
  split; [split|done].
  - intros Hs name b' r'. unfold s'. destruct (decide (name = record_path h)) as [->|Hne].
    + rewrite lookup_insert_eq. intros [= <-] _ E. congruence.
    + rewrite lookup_insert_ne by done. exact (well_named_sub s _ (delete_subseteq s (temporary_path h)) Hs name b' r').
  - split; [|by right]. intros h' Hne. unfold s'. rewrite lookup_insert_ne by done.
    apply lookup_delete_ne, record_temporary_other.
Qed.

Lemma wp_write_record h state sealed s n :
  is_utf8 h = true →
  wp (write_record h state sealed) s n (λ r s' _, ∃ b,
    (encode_record h state sealed = Ok b ∨ s' = s) ∧
    record_change (λ s, records_held s !! h = Some (material_of h b)) h s s' ∧
    (r = Ok tt → encode_record h state sealed = Ok b ∧ records_held s' !! h = Some (material_of h b))).
Proof.
  intros Hu. unfold write_record. apply wp_bind. unfold wp at 1, of_result.
  destruct (encode_record h state sealed) as [b|e] eqn:Ee.
  2:{ exists []. split_and!; [by right|apply change_none|done]. }
  pose proof (record_roundtrip is_utf8 _ _ _ _ Ee Hu) as Hr.
  set (T := temporary_path h).
  assert (∀ (r : result unit SecureSecretStoreError) s', record_change (λ s, records_held s !! h = Some (material_of h b)) h s s' →
    (r ≠ Ok tt ∨ records_held s' !! h = Some (material_of h b)) →
    ∃ b0, (Ok (E:=SecureSecretStoreError) b = Ok b0 ∨ s' = s) ∧ record_change (λ s, records_held s !! h = Some (material_of h b0)) h s s' ∧
      (r = Ok tt → Ok (E:=SecureSecretStoreError) b = Ok b0 ∧ records_held s' !! h = Some (material_of h b0))) as Hend.
  { intros r s' Hc Hh. exists b. split_and!; [by left|done|]. intros ->. split; [done|]. by destruct Hh. }
  apply wp_bind, wp_map_err, wp_fs_step; cbn [fst snd result_map_err]; [intros; apply Hend; [apply change_none|by left]|].
  fold T. set (s1 := <[T := []]> s).
  assert (∀ s', record_change (λ s, records_held s !! h = Some (material_of h b)) h s1 s' →
    record_change (λ s, records_held s !! h = Some (material_of h b)) h s s') as C1 by (intros s'; apply change_temporary).
  apply wp_bind, wp_map_err, wp_fs_step; cbn [fst snd result_map_err]; [intros; apply Hend; [apply C1, change_none|by left]|].
  apply wp_bind, wp_map_err. unfold wp at 1, write_all. destruct (file_fault _); cbn [result_map_err].
  { apply Hend; [|by left]. eapply C1, change_temporary, change_none. }
  set (s2 := <[T := b]> s1). assert (s2 !! T = Some b) as HT by apply lookup_insert_eq.
  assert (∀ s', record_change (λ s, records_held s !! h = Some (material_of h b)) h s2 s' →
    record_change (λ s, records_held s !! h = Some (material_of h b)) h s s') as C2 by (intros s' Hc; eapply C1, change_temporary, Hc).
  apply wp_bind, wp_map_err, wp_fs_step; cbn [fst snd result_map_err]; [intros; apply Hend; [apply C2, change_none|by left]|].
  apply wp_bind, wp_map_err, wp_existing; [intros; apply Hend; [apply C2, change_none|by left]|].
  intros b' Hb'. split; [intros; apply Hend; [apply C2, change_none|by left]|]. rewrite HT. cbn [fst snd result_map_err].
  destruct (renamed_change h b _ s2 Hr eq_refl HT) as [Hc Hh].
  apply wp_map_err, wp_fs_step; cbn [fst snd result_map_err]; [intros; apply Hend; [by apply C2|by left]|].
  apply Hend; [by apply C2|by right].
Qed.

Lemma sealed_material h m v b :
  is_utf8 h = true → encode_record h RECORD_SEALED (Some v) = Ok b → nonce v ≠ [] → ciphertext v ≠ [] →
  sealed_in (alias h) v = Some (bytes_of (material_bytes m)) → material_of h b = m.
Proof.
  intros Hu He Hn Hc Hs. unfold material_of. rewrite (proj2 (decode_record_Ok is_utf8 b h v)).
  - rewrite Hs, text_bytes. by destruct m.
  - split; [|done]. by rewrite (record_roundtrip is_utf8 _ _ _ _ He Hu).
Qed.

Lemma wp_record_exists h s n (Q : result bool SecureSecretStoreError → Directory → nat → Prop) :
  (s !! record_path h = None → Q (Ok false) s (S n)) → (is_Some (s !! record_path h) → Q (Ok true) s (S n)) →
  (∀ e, Q (Err e) s (S n)) → wp (record_exists h) s n Q.
Proof.
  intros Hn Hs He. apply wp_bind, wp_try, wp_existing; [by intros; apply wp_ret, Hn|].
  intros b Hb. split; [intros fault; by apply wp_fail|]. apply wp_ret, Hs. by exists b.
Qed.

(** What [put] leaves: the names right, every other record as it was, and a record that was there
    before as it was or with the new secret. *)
Lemma wp_put_record h m s n :
  is_utf8 h = true →
  wp (put_record h m) s n (λ r s' _,
    (well_named s → well_named s') ∧ (∀ h', record_path h' ≠ record_path h → s' !! record_path h' = s !! record_path h') ∧
    (is_Some (s !! record_path h) → s' !! record_path h = s !! record_path h ∨ records_held s' !! h = Some m) ∧
    (r = Ok tt → records_held s' !! h = Some m)).
Proof.
  intros Hu. unfold put_record.
  assert (∀ s0 k, (well_named s → well_named s0) → (∀ h', record_path h' ≠ record_path h → s0 !! record_path h' = s !! record_path h') →
    (is_Some (s !! record_path h) → s0 !! record_path h = s !! record_path h) →
    wp (sealed ← keystore (λ n, keystore_seal n (alias h) (bytes_of (material_bytes m)));
        if is_nil (nonce sealed) || is_nil (ciphertext sealed) then fail Corrupted
        else write_record h RECORD_SEALED (Some sealed)) s0 k (λ r s' _,
      (well_named s → well_named s') ∧ (∀ h', record_path h' ≠ record_path h → s' !! record_path h' = s !! record_path h') ∧
      (is_Some (s !! record_path h) → s' !! record_path h = s !! record_path h ∨ records_held s' !! h = Some m) ∧
      (r = Ok tt → records_held s' !! h = Some m))) as Hseal.
  { intros s0 k E1 E2 E3. apply wp_bind. unfold wp at 1, keystore.
    destruct (keystore_seal k (alias h) _) as [v|e] eqn:Es; [|split_and!; auto; done].
    apply seal_sealed in Es. destruct (is_nil (nonce v)) eqn:En; [apply wp_fail; split_and!; auto; done|].
    destruct (is_nil (ciphertext v)) eqn:Ec; [apply wp_fail; split_and!; auto; done|]. cbn [orb].
    eapply wp_mono; [by apply wp_write_record|]. intros r s' _ (b & He & [Hw [Ho Hs]] & Hr).
    assert (∀ b', encode_record h RECORD_SEALED (Some v) = Ok b' → material_of h b' = m) as Hm.
    { intros b' Hb'. eapply sealed_material; [done|exact Hb'|by intros E; rewrite E in En|by intros E; rewrite E in Ec|done]. }
    split_and!; [auto| | |].
    - intros h' Hne. by rewrite Ho, E2.
    - intros Hsome. destruct He as [He| ->]; [|left; auto]. rewrite <- (Hm b He). destruct Hs as [Hs|]; [left|by right].
      rewrite Hs. by apply E3.
    - intros Hok. destruct (Hr Hok) as [Hb Hh]. by rewrite <- (Hm b Hb). }
  apply wp_bind, wp_record_exists; [|intros [b Hb]|by intros; split_and!; auto].
  - intros Hn. apply wp_bind. eapply wp_mono; [by apply wp_write_record|].
    intros [[]|e] s' k (b & _ & [Hw [Ho _]] & _).
    + apply Hseal; [done|done|]. rewrite Hn. by intros [].
    + split_and!; [done|done| |done]. rewrite Hn. by intros [].
  - apply wp_bind, wp_ret. by apply Hseal.
Qed.

Lemma wp_get_record h s n (Q : result SecretMaterial SecureSecretStoreError → Directory → nat → Prop) :
  (∀ m n', records_held s !! h = Some m → Q (Ok m) s n') → (∀ e n', Q (Err e) s n') → wp (get_record h) s n Q.
Proof.
  intros Ho He. apply wp_bind, wp_bind, wp_map_err, wp_read_file; cbn [result_map_err]; [auto| |auto].
  intros b Hb. unfold wp at 1, of_result. destruct (decode_record is_utf8 b h) as [v|e] eqn:Ed; [|auto].
  apply wp_bind. unfold wp at 1, keystore. destruct (keystore_open _ _ v) as [p|e] eqn:Eo; [|auto].
  unfold wp, of_result, secret_material_new. destruct (_ || _); cbn; [auto|]. apply Ho.
  apply lookup_records_held. pose proof Ed as Ed'. apply decode_record_Ok in Ed as [Er _].
  eexists b, _. split_and!; [done|exact Er|done|]. unfold material_of. by rewrite Ed', (open_sealed_in _ _ _ _ Eo).
Qed.

Lemma wp_delete_record h s n :
  wp (delete_record h) s n (λ r s' _,
    (s' = s ∨ s' = delete (record_path h) s) ∧ r ≠ Err Missing ∧ (r = Ok tt → s' !! record_path h = None)).
Proof.
  apply wp_bind, wp_try. unfold wp at 1, keystore.
  assert (∀ k, wp (removed ← try (remove_file (record_path h));
      match removed with Ok _ => io sync_file | Err IoMissing => ret tt | Err error => fail (map_record_error error) end) s k
    (λ r s' _, (s' = s ∨ s' = delete (record_path h) s) ∧ r ≠ Err Missing ∧ (r = Ok tt → s' !! record_path h = None))) as Hremove.
  { intros k. apply wp_bind, wp_try, wp_remove_file; [by intros; apply wp_ret; split_and!; [left| |]| |].
    - apply wp_map_err, wp_fs_step; cbn [fst snd result_map_err].
      + intros []; split_and!; try done; by right.
      + split_and!; [by right|done|]. intros _. apply lookup_delete_eq.
    - intros []; apply wp_fail; split_and!; try done; by left. }
  destruct (keystore_delete n (alias h)) as [|[]]; try apply Hremove; apply wp_fail; split_and!; try done; by left.
Qed.

(** A handle that some record names. *)
Lemma wp_list_record handles name s n :
  is_Some (s !! name) →
  wp (list_record handles name) s n (λ r s' _, s' = s ∧ (well_named s →
    ∀ l, r = Ok l → ∀ h, h ∈ l ↔ h ∈ handles ∨ record_path h = name ∧ is_Some (records_held s !! h))).
Proof.
  intros [b Hb]. unfold list_record. apply wp_bind, wp_map_err, wp_fs_step; [by intros fault|]. cbn [fst snd result_map_err].
  destruct (has_extension RECORD_EXTENSION name) eqn:Ex; cbn [negb].
  2:{ apply wp_ret. split; [done|]. intros _ l [= <-] h. split; [by left|]. intros [|[E _]]; [done|].
      by rewrite <- E, record_path_extension in Ex. }
  apply wp_bind, wp_map_err, wp_read_file; cbn [result_map_err]; [congruence| |by intros []].
  intros b' Hb'. apply wp_bind. unfold wp at 1, of_result, decode_handle_from_record.
  destruct (parse_record is_utf8 b') as [r|e] eqn:Er; cbn [result_bind]; [|done]. apply wp_ret. split; [done|].
  intros Hw l [= <-] h. pose proof (Hw _ _ _ Hb' Ex Er) as En. rewrite elem_of_app, list_elem_of_singleton. split.
  - intros [| ->]; [by left|right]. split; [done|]. exists (material_of (pr_handle r) b'). apply lookup_records_held.
    exists b', r. by rewrite <- En.
  - intros [|[E [m (b2 & r2 & Hb2 & Hr2 & <- & _)%lookup_records_held]]]; [by left|right]. rewrite E in Hb2. congruence.
Qed.

Lemma wp_list_each names : ∀ handles s n,
  (∀ name, name ∈ names → is_Some (s !! name)) →
  wp (fold_each list_record names handles) s n (λ r s' _, s' = s ∧ (well_named s →
    ∀ l, r = Ok l → ∀ h, h ∈ l ↔ h ∈ handles ∨ record_path h ∈ names ∧ is_Some (records_held s !! h))).
Proof.
  induction names as [|name names IH]; intros handles s n Hn; cbn [fold_each].
  - apply wp_ret. split; [done|]. intros _ l [= <-] h. split; [by left|]. intros [|[[]%elem_of_nil _]]; done.
  - apply wp_bind. eapply wp_mono; [apply wp_list_record, Hn; by left|]. intros [l1|e] s' n' [-> Hl1]; [|done].
    eapply wp_mono; [apply IH; intros name' Hin; apply Hn; by right|]. intros r s' n2 [-> Hl]. split; [done|].
    intros Hw l Hr h. rewrite (Hl Hw l Hr), (Hl1 Hw _ eq_refl), elem_of_cons. tauto.
Qed.

Lemma wp_list_records s n :
  wp list_record_files s n (λ r s' _, s' = s ∧ (well_named s → ∀ l, r = Ok l → ∀ h, h ∈ l ↔ is_Some (records_held s !! h))).
Proof.
  apply wp_bind, wp_map_err, wp_fs_step; [done|]. apply wp_bind. eapply wp_mono.
  - apply (wp_list_each _ []). intros name ([k b] & -> & Hin%elem_of_map_to_list)%list_elem_of_fmap. by exists b.
  - intros [l|e] s' n' [-> Hl]; [|done]. apply wp_ret. split; [done|]. intros Hw l' [= <-] h.
    rewrite elem_of_order_by, (Hl Hw l eq_refl). split; [|intros Hh; right; split; [|done]].
    + by intros [[]%elem_of_nil|[_ Hh]].
    + destruct Hh as [m (b & r & Hb & _)%lookup_records_held]. apply list_elem_of_fmap. exists (record_path h, b).
      split; [done|]. by apply elem_of_map_to_list.
Qed.

Lemma on_records_wp {A} (m : IO A) v (Q : result A SecureSecretStoreError → Directory → nat → Prop) :
  wp m (records_dir v) (turn v) Q →
  ∃ r s n, on_records m v = (Returned r, {| records_dir := s; turn := n |}) ∧ Q r s n.
Proof. unfold wp, on_records. destruct (m _ _) as [[r s] n]. intros HQ. by exists r, s, n. Qed.

Ltac run_on m v W :=
  let r := fresh "r" in let s := fresh "s" in let n := fresh "n" in let E := fresh "E" in let HQ := fresh "HQ" in
  destruct (on_records_wp m v _ W) as (r & s & n & E & HQ); rewrite ?E in *; cbn [fst snd] in *;
  unfold android_held; cbn [records_dir].

Variable in_use : SecretHandle → Prop.
Hypothesis in_use_named : ∀ h, in_use h → is_utf8 h = true.
Hypothesis in_use_apart : ∀ h h', in_use h → in_use h' → record_path h = record_path h' → h = h'.

Lemma android_laws : StoreLawsFor in_use (λ v, well_named (records_dir v)) android_held.
Proof.
  assert (∀ h v, wp (get_record h) (records_dir v) (turn v) (λ r s _, s = records_dir v ∧
    ∀ m, r = Ok m → records_held (records_dir v) !! h = Some m)) as Hget.
  { intros h v. apply wp_get_record; [|done]. by intros m n' Hm; split; [|intros ? [= <-]]. }
  assert (∀ h (s s' : Directory), s' = s ∨ s' = delete (record_path h) s → s' ⊆ s) as Hsub.
  { intros h s s' [->| ->]; [done|apply delete_subseteq]. }
  split; cbn.
  - intros h m v Hi Hp. run_on (put_record h m) v (wp_put_record h m (records_dir v) (turn v) (in_use_named h Hp)). by apply HQ.
  - intros h v Hi Hp. run_on (get_record h) v (Hget h v). by destruct HQ as [-> _].
  - intros h v Hi Hp. run_on (delete_record h) v (wp_delete_record h (records_dir v) (turn v)).
    eapply well_named_sub; [by apply (Hsub h), HQ|done].
  - intros v Hi. run_on list_record_files v (wp_list_records (records_dir v) (turn v)). by destruct HQ as [-> _].
  - intros h m v h' Hi Hp Hp' Hne. run_on (put_record h m) v (wp_put_record h m (records_dir v) (turn v) (in_use_named h Hp)).
    apply files_held_same, HQ. intros E'. apply Hne. by apply in_use_apart.
  - intros h m v Hi Hp. run_on (put_record h m) v (wp_put_record h m (records_dir v) (turn v) (in_use_named h Hp)).
    intros [= ->]. by apply HQ.
  - intros h v h' Hi Hp Hp'. run_on (get_record h) v (Hget h v). by destruct HQ as [-> _].
  - intros h m v Hi Hp. run_on (get_record h) v (Hget h v). intros [= ->]. by apply HQ.
  - intros h v h' Hi Hp Hp' Hne. run_on (delete_record h) v (wp_delete_record h (records_dir v) (turn v)).
    destruct HQ as [[-> | ->] _]; [done|]. apply files_held_same, lookup_delete_ne. intros E'. apply Hne. by apply in_use_apart.
  - intros h v Hi Hp. run_on (delete_record h) v (wp_delete_record h (records_dir v) (turn v)). intros Hr.
    destruct (records_held s !! h) as [m|] eqn:Eh; [exfalso|done]. apply lookup_records_held in Eh as (b & r0 & Hb & _).
    destruct HQ as (_ & Hne & Hm). destruct Hr as [[= ->]|[= ->]]; [by rewrite Hm in Hb|done].
  - intros h v m Hi Hp. run_on (delete_record h) v (wp_delete_record h (records_dir v) (turn v)).
    rewrite !lookup_records_held. intros (b & r0 & Hb & Hrest). exists b, r0. split; [|done].
    eapply lookup_weaken; [exact Hb|]. by apply (Hsub h), HQ.
  - intros v h Hi Hp. run_on list_record_files v (wp_list_records (records_dir v) (turn v)). by destruct HQ as [-> _].
  - intros l v h Hi Hp. run_on list_record_files v (wp_list_records (records_dir v) (turn v)). intros [= ->]. by apply HQ.
Qed.

(** C31: with the sealed records of Android underneath, the store of a profile is one that
    the custody of secrets can rely on: whatever the file system and the Keystore refuse, what is
    put is held until it is put again or deleted, what is read or listed is held, what a deletion
    reports as gone is gone, and no call touches the secret of another handle. Two handles must
    not have records of the same name. *)
Theorem android_store_keeps_secrets profile :
  @StoreLawsFor _ (@scoped_store _ android_store profile) (scoped_handle profile in_use)
    (λ v, well_named (records_dir (inner v))) (scoped_held profile android_held).
Proof.
  exact (scoped_store_laws (H:=android_store) profile in_use (λ v, well_named (records_dir v)) android_held android_laws).
Qed.
End Store.

(** ** A device where the properties hold: a Keystore that keeps one key for all, and a
    write that fails half-way *)
Section Witnesses.
#[local] Instance demo_host : FileHost := {|
  is_utf8 _ := true; handle_hash h := if str_eqb h "vnidrop/v1/scope-p/x" then "aa" else "bb";
  file_fault n := if (n =? 20)%nat then Some FaultOther else None; written _ := 7%nat; tmp_uuid _ := "u" |}.

#[local] Instance demo_host_laws : FileHostLaws.
Proof.
  split; cbn; [|intros h; by destruct (str_eqb _ _)|].
  - intros h. destruct (str_eqb _ _); intros [|? [|? [|? []]]] y; discriminate.
  - intros n [|? [|? []]] y; discriminate.
Qed.

#[local] Instance demo_keystore : AndroidKeystore := {|
  keystore_seal _ _ p := Ok {| nonce := [byte 7]; ciphertext := byte 9 :: reverse p |};
  keystore_open _ _ v := match ciphertext v with _ :: c => Ok (reverse c) | [] => Err Corrupted end;
  keystore_delete _ _ := Err Missing |}.
#[local] Instance demo_keystore_laws : AndroidKeystoreLaws.
Proof.
  refine {| sealed_in _ v := match ciphertext v with _ :: c => Some (reverse c) | [] => None end |}; cbn.
  - intros n a p v [= <-]. cbn. by rewrite reverse_involutive.
  - intros n a [k [|b c]] p; cbn; [done|]. by intros [= <-].
Defined.

Definition demo_handle : SecretHandle := "vnidrop/v1/scope-p/x".
Definition demo_in_use (h : SecretHandle) : Prop := h = demo_handle ∨ h = "vnidrop/v1/scope-p/y"%string.
Definition demo_secret : SecretMaterial := {| material_bytes := "0123456789abcdef0123456789abcdef" |}.

Lemma android_demo_named h : demo_in_use h → is_utf8 h = true.
Proof. done. Qed.
Lemma android_demo_apart h h' : demo_in_use h → demo_in_use h' → record_path h = record_path h' → h = h'.
Proof. by intros [-> | ->] [-> | ->]. Qed.

(** A put and a read work; the write of the next put fails and leaves the secret that was there
    beside its temporary file; a deletion takes the secret away although the Keystore has no key. *)
Lemma android_store_keeps_secrets_witness :
  @StoreLawsFor _ (@scoped_store _ android_store "p") (scoped_handle "p" demo_in_use)
    (λ v, well_named (records_dir (inner v))) (scoped_held "p" android_held) ∧
  scoped_handle "p" demo_in_use "vnidrop/v1/x" ∧
  (let '(r, s, n) := put_record demo_handle demo_secret ∅ 0%nat in
   let '(found, s1, n1) := get_record demo_handle s n in
   let '(r2, s2, n2) := put_record demo_handle {| material_bytes := "another" |} s1 n1 in
   let '(r3, s3, _) := delete_record demo_handle s2 n2 in
   r = Ok tt ∧ found = Ok demo_secret ∧ r2 = Err Unavailable ∧ records_held s2 !! demo_handle = Some demo_secret ∧
   r3 = Ok tt ∧ s3 !! record_path demo_handle = None ∧ size s3 = 1%nat).
Proof.
  split_and!.
  - apply (android_store_keeps_secrets demo_in_use android_demo_named android_demo_apart "p").
  - intros physical [= <-]. left. reflexivity.
  - vm_compute. repeat split.
Defined.
End Witnesses.
