(* ===== verification/Relationship.v ===== *)
(** * [device_relationship/store.rs]: saved devices and revoked generations

    A relationship with a peer installation is a row of [device_relationships]; what is
    revoked leaves a row of [relationship_generation_tombstones], keyed by the peer and the
    generation. The store is modelled statement by statement; the service that uses it is
    in [Devices.v]. *)

From S2P Require Import Prelude Sql ControlPlane Errors States.

(** ** Tables and records *)

(** A row of [device_relationships]; the table is keyed by [remote_endpoint_id]. *)
Record RelationshipColumns : Type := {
  d_state : string;
  d_generation : Z;
  d_minimum_protocol_version : Z;
  d_session_id : option string;
  d_remote_display_name : option string;
  d_last_authenticated_at : option Z;
  d_issued_grant_handle : option string;
  d_held_grant_handle : option string;
  d_issued_grant_id : option string;
  d_held_grant_id : option string;
  d_peer_ack : Z;
  d_local_ack : Z;
  d_local_label : option string;
  d_created_at : Z;
  d_updated_at : Z
}.

(** A row of [relationship_generation_tombstones], keyed by peer and generation. *)
Record TombstoneColumns : Type := {
  ts_issued_grant_id : option string;
  ts_held_grant_id : option string;
  ts_revoked_at : Z
}.

Record DeviceTables : Type := {
  relationships : gmap string RelationshipColumns;
  tombstones : gmap (string * Z) TombstoneColumns
}.

Definition on_relationships (f : gmap string RelationshipColumns → gmap string RelationshipColumns)
    (d : DeviceTables) : DeviceTables :=
  {| relationships := f (relationships d); tombstones := tombstones d |}.
Definition on_tombstones (f : gmap (string * Z) TombstoneColumns → gmap (string * Z) TombstoneColumns)
    (d : DeviceTables) : DeviceTables :=
  {| relationships := relationships d; tombstones := f (tombstones d) |}.

Record GenerationTombstone : Type := {
  gt_remote_endpoint_id : string;
  gt_generation : Z;
  gt_issued_grant_id : option string;
  gt_held_grant_id : option string;
  gt_revoked_at : Z
}.

Record RelationshipRow : Type := {
  rr_state : DeviceRelationshipState;
  rr_generation : Z;
  rr_minimum_protocol_version : Z;
  rr_session_id : option string;
  rr_issued_grant_handle : option string;
  rr_held_grant_handle : option string;
  rr_issued_grant_id : option string;
  rr_held_grant_id : option string;
  rr_created_at : Z
}.

Record ReconcileRow : Type := {
  rc_remote_endpoint_id : string;
  rc_state : DeviceRelationshipState;
  rc_issued_grant_handle : option string;
  rc_held_grant_handle : option string
}.

Record RelationshipUpsert : Type := {
  ru_remote_endpoint_id : string;
  ru_state : DeviceRelationshipState;
  ru_generation : Z;
  ru_minimum_protocol_version : Z;
  ru_session_id : option string;
  ru_remote_display_name : option string;
  ru_last_authenticated_at : option Z;
  ru_issued_grant_handle : option string;
  ru_held_grant_handle : option string;
  ru_issued_grant_id : option string;
  ru_held_grant_id : option string;
  ru_peer_ack : bool;
  ru_local_ack : bool;
  ru_created_at : Z;
  ru_updated_at : Z
}.

(** [api.rs]. *)
Record SavedDevice : Type := {
  sd_endpoint_id : string;
  sd_local_label : option string;
  sd_remote_display_name : option string;
  sd_created_at : Z;
  sd_last_authenticated_at : option Z
}.

Record DeviceRelationship : Type := {
  dr_remote_endpoint_id : string;
  dr_state : DeviceRelationshipState;
  dr_generation : Z;
  dr_minimum_protocol_version : Z;
  dr_created_at : Z;
  dr_updated_at : Z
}.

(** SQL's [COALESCE] and a Boolean column. *)
Definition coalesce {A} (x y : option A) : option A := match x with Some _ => x | None => y end.
Definition sql_bool (b : bool) : Z := if b then 1 else 0.

(** ** Columns and structs *)

Definition row_to_relationship (kr : string * RelationshipColumns) :
    result DeviceRelationship VnidropError :=
  let? state := parse_relationship_state (d_state kr.2) in
  Ok {| dr_remote_endpoint_id := kr.1; dr_state := state;
        dr_generation := as_u64 (d_generation kr.2);
        dr_minimum_protocol_version := as_u16 (d_minimum_protocol_version kr.2);
        dr_created_at := d_created_at kr.2; dr_updated_at := d_updated_at kr.2 |}.

Definition relationship_row_from_sql (r : RelationshipColumns) : result RelationshipRow VnidropError :=
  let? state := parse_relationship_state (d_state r) in
  Ok {| rr_state := state; rr_generation := as_u64 (d_generation r);
        rr_minimum_protocol_version := as_u16 (d_minimum_protocol_version r);
        rr_session_id := d_session_id r;
        rr_issued_grant_handle := d_issued_grant_handle r;
        rr_held_grant_handle := d_held_grant_handle r;
        rr_issued_grant_id := d_issued_grant_id r; rr_held_grant_id := d_held_grant_id r;
        rr_created_at := d_created_at r |}.

Definition row_to_reconcile (kr : string * RelationshipColumns) : result ReconcileRow VnidropError :=
  let? state := parse_relationship_state (d_state kr.2) in
  Ok {| rc_remote_endpoint_id := kr.1; rc_state := state;
        rc_issued_grant_handle := d_issued_grant_handle kr.2;
        rc_held_grant_handle := d_held_grant_handle kr.2 |}.

Definition saved_device_of_row (kr : string * RelationshipColumns) : SavedDevice := {|
  sd_endpoint_id := kr.1; sd_local_label := d_local_label kr.2;
  sd_remote_display_name := d_remote_display_name kr.2; sd_created_at := d_created_at kr.2;
  sd_last_authenticated_at := d_last_authenticated_at kr.2 |}.

(** [WHERE state IN ('saved', 'pending_outgoing', 'pending_incoming')]. *)
Definition active_slot (_ : string) (r : RelationshipColumns) : bool :=
  str_in (d_state r) ["saved"; "pending_outgoing"; "pending_incoming"]%string.
Definition pending (r : RelationshipColumns) : bool :=
  str_in (d_state r) ["pending_outgoing"; "pending_incoming"]%string.

Definition latest_changed (x y : string * RelationshipColumns) : Prop :=
  d_updated_at y.2 ≤ d_updated_at x.2.
#[global] Instance latest_changed_dec : RelDecision latest_changed.
Proof. intros x y. unfold latest_changed. apply _. Defined.

(** ** Operations *)

Section Store.
Context `{Env} `{ForeignText}.

Abbreviation DB := (M DeviceTables VnidropError).

Definition select_devices {A} (f : DeviceTables → A) : DB A := sql (λ d, Ok (f d, d)).

Definition update_relationships (P : string → RelationshipColumns → bool)
    (f : RelationshipColumns → RelationshipColumns) : DB nat :=
  sql (λ d, Ok (count_where P (relationships d), on_relationships (update_where P (λ _, f)) d)).

Definition is_peer (peer : string) (k : string) (_ : RelationshipColumns) : bool := str_eqb k peer.
Definition is_saved_peer (peer : string) (k : string) (r : RelationshipColumns) : bool :=
  str_eqb k peer && str_eqb (d_state r) "saved".

Definition count_active_slots : DB Z :=
  select_devices (λ d, as_u64 (Z.of_nat (count_where active_slot (relationships d)))).

Definition list_reconcile_rows : DB (list ReconcileRow) :=
  rows ← select_devices (λ d, map_to_list (relationships d));
  of_result (collect_results row_to_reconcile rows).

Definition list_relationships : DB (list DeviceRelationship) :=
  rows ← select_devices (λ d, order_by latest_changed (map_to_list (relationships d)));
  of_result (collect_results row_to_relationship rows).

Definition list_saved_devices : DB (list SavedDevice) :=
  select_devices (λ d, saved_device_of_row <$> order_by latest_changed
    (select_where (λ _ r, str_eqb (d_state r) "saved") (relationships d))).

Definition refresh_authenticated_peer (peer : string) (remote_display_name : option string)
    (authenticated_at : Z) : DB bool :=
  n ← update_relationships (is_saved_peer peer) (λ r,
    {| d_state := d_state r; d_generation := d_generation r;
       d_minimum_protocol_version := d_minimum_protocol_version r; d_session_id := d_session_id r;
       d_remote_display_name := coalesce remote_display_name (d_remote_display_name r);
       d_last_authenticated_at := Some authenticated_at;
       d_issued_grant_handle := d_issued_grant_handle r; d_held_grant_handle := d_held_grant_handle r;
       d_issued_grant_id := d_issued_grant_id r; d_held_grant_id := d_held_grant_id r;
       d_peer_ack := d_peer_ack r; d_local_ack := d_local_ack r; d_local_label := d_local_label r;
       d_created_at := d_created_at r; d_updated_at := authenticated_at |});
  ret (negb (Nat.eqb n 0)).

Definition set_saved_device_label_row (peer : string) (label : option string) : DB bool :=
  now ← now_ms;
  n ← update_relationships (is_saved_peer peer) (λ r,
    {| d_state := d_state r; d_generation := d_generation r;
       d_minimum_protocol_version := d_minimum_protocol_version r; d_session_id := d_session_id r;
       d_remote_display_name := d_remote_display_name r;
       d_last_authenticated_at := d_last_authenticated_at r;
       d_issued_grant_handle := d_issued_grant_handle r; d_held_grant_handle := d_held_grant_handle r;
       d_issued_grant_id := d_issued_grant_id r; d_held_grant_id := d_held_grant_id r;
       d_peer_ack := d_peer_ack r; d_local_ack := d_local_ack r; d_local_label := label;
       d_created_at := d_created_at r; d_updated_at := now |});
  ret (negb (Nat.eqb n 0)).

(** The grant columns and the time of change. *)
Definition with_grants (generation : Z) (issued_handle held_handle issued_id held_id : option string)
    (peer_ack local_ack now : Z) (r : RelationshipColumns) : RelationshipColumns := {|
  d_state := d_state r; d_generation := generation;
  d_minimum_protocol_version := d_minimum_protocol_version r; d_session_id := d_session_id r;
  d_remote_display_name := d_remote_display_name r;
  d_last_authenticated_at := d_last_authenticated_at r;
  d_issued_grant_handle := issued_handle; d_held_grant_handle := held_handle;
  d_issued_grant_id := issued_id; d_held_grant_id := held_id;
  d_peer_ack := peer_ack; d_local_ack := local_ack; d_local_label := d_local_label r;
  d_created_at := d_created_at r; d_updated_at := now |}.

Definition set_issued_grant (peer handle grant_id : string) : DB unit :=
  now ← now_ms;
  update_relationships (is_peer peer) (λ r,
    with_grants (d_generation r) (Some handle) (d_held_grant_handle r) (Some grant_id)
      (d_held_grant_id r) (d_peer_ack r) (d_local_ack r) now r);;
  ret tt.

Definition set_held_grant (peer handle grant_id : string) : DB unit :=
  now ← now_ms;
  update_relationships (is_peer peer) (λ r,
    with_grants (d_generation r) (d_issued_grant_handle r) (Some handle) (d_issued_grant_id r)
      (Some grant_id) (d_peer_ack r) (d_local_ack r) now r);;
  ret tt.

Definition set_acks_row (peer : string) (local_ack peer_ack : bool) : DB unit :=
  now ← now_ms;
  update_relationships (is_peer peer) (λ r,
    with_grants (d_generation r) (d_issued_grant_handle r) (d_held_grant_handle r)
      (d_issued_grant_id r) (d_held_grant_id r) (sql_bool peer_ack) (sql_bool local_ack) now r);;
  ret tt.

Definition set_relationship_state (peer : string) (state : DeviceRelationshipState) : DB unit :=
  now ← now_ms;
  update_relationships (is_peer peer) (λ r,
    {| d_state := relationship_state_as_str state; d_generation := d_generation r;
       d_minimum_protocol_version := d_minimum_protocol_version r; d_session_id := d_session_id r;
       d_remote_display_name := d_remote_display_name r;
       d_last_authenticated_at := d_last_authenticated_at r;
       d_issued_grant_handle := d_issued_grant_handle r; d_held_grant_handle := d_held_grant_handle r;
       d_issued_grant_id := d_issued_grant_id r; d_held_grant_id := d_held_grant_id r;
       d_peer_ack := d_peer_ack r; d_local_ack := d_local_ack r; d_local_label := d_local_label r;
       d_created_at := d_created_at r; d_updated_at := now |});;
  ret tt.

Definition list_expired_pending_peers (cutoff_ms : Z) : DB (list string) :=
  select_devices (λ d, (select_where (λ _ r, pending r && (d_updated_at r <? cutoff_ms))
                          (relationships d)).*1).

Definition delete_relationship_row (peer : string) : DB unit :=
  sql (λ d, Ok (tt, on_relationships (delete_where (is_peer peer)) d)).

Definition find_relationship_row (peer : string) : DB (option RelationshipRow) :=
  row ← select_devices (λ d, relationships d !! peer);
  of_result (option_transpose relationship_row_from_sql row).

(** [SELECT MAX(generation)] over the row and the tombstones of a peer; [NULL] is 0. *)
Definition max_generation (peer : string) (d : DeviceTables) : option Z :=
  let generations :=
    match relationships d !! peer with Some r => [d_generation r] | None => [] end ++
    ((λ kr : string * Z * TombstoneColumns, kr.1.2) <$>
       select_where (λ k _, str_eqb k.1 peer) (tombstones d)) in
  match generations with
  | [] => None
  | g :: gs => Some (foldr Z.max g gs)
  end.

Definition generation_floor (peer : string) : DB Z :=
  select_devices (λ d, as_u64 (default 0 (max_generation peer d))).

Definition set_pending_generation (peer session_id : string) (generation : Z) : DB bool :=
  now ← now_ms;
  n ← update_relationships
        (λ k r, str_eqb k peer && opt_eqb (d_session_id r) session_id && pending r)
        (λ r, if d_generation r =? as_i64 generation
              then with_grants (as_i64 generation) (d_issued_grant_handle r) (d_held_grant_handle r)
                     (d_issued_grant_id r) (d_held_grant_id r) (d_peer_ack r) (d_local_ack r) now r
              else with_grants (as_i64 generation) None None None None 0 0 now r);
  ret (Nat.eqb n 1).

(** A grant column of the upsert: kept within a generation, replaced across generations. *)
Definition upsert_grant (same : bool) (new old : option string) : option string :=
  if same then coalesce new old else new.

Definition upsert_columns (e : RelationshipUpsert) (old : RelationshipColumns) : RelationshipColumns :=
  let same := as_i64 (ru_generation e) =? d_generation old in
  {| d_state := relationship_state_as_str (ru_state e); d_generation := as_i64 (ru_generation e);
     d_minimum_protocol_version := ru_minimum_protocol_version e; d_session_id := ru_session_id e;
     d_remote_display_name := coalesce (ru_remote_display_name e) (d_remote_display_name old);
     d_last_authenticated_at := coalesce (ru_last_authenticated_at e) (d_last_authenticated_at old);
     d_issued_grant_handle := upsert_grant same (ru_issued_grant_handle e) (d_issued_grant_handle old);
     d_held_grant_handle := upsert_grant same (ru_held_grant_handle e) (d_held_grant_handle old);
     d_issued_grant_id := upsert_grant same (ru_issued_grant_id e) (d_issued_grant_id old);
     d_held_grant_id := upsert_grant same (ru_held_grant_id e) (d_held_grant_id old);
     d_peer_ack := sql_bool (ru_peer_ack e); d_local_ack := sql_bool (ru_local_ack e);
     d_local_label := d_local_label old; d_created_at := d_created_at old;
     d_updated_at := ru_updated_at e |}.

Definition inserted_columns (e : RelationshipUpsert) : RelationshipColumns := {|
  d_state := relationship_state_as_str (ru_state e); d_generation := as_i64 (ru_generation e);
  d_minimum_protocol_version := ru_minimum_protocol_version e; d_session_id := ru_session_id e;
  d_remote_display_name := ru_remote_display_name e;
  d_last_authenticated_at := ru_last_authenticated_at e;
  d_issued_grant_handle := ru_issued_grant_handle e; d_held_grant_handle := ru_held_grant_handle e;
  d_issued_grant_id := ru_issued_grant_id e; d_held_grant_id := ru_held_grant_id e;
  d_peer_ack := sql_bool (ru_peer_ack e); d_local_ack := sql_bool (ru_local_ack e);
  d_local_label := None; d_created_at := ru_created_at e; d_updated_at := ru_updated_at e |}.

Definition upsert (e : RelationshipUpsert) : DB unit :=
  sql (λ d, Ok (tt, on_relationships
    (λ rows, (upsert_where (ru_remote_endpoint_id e) (inserted_columns e) (λ _ _, true)
                (upsert_columns e) rows).2) d)).

Definition begin_grant_rotation (peer : string) (new_generation : Z) : DB unit :=
  now ← now_ms;
  update_relationships (is_peer peer) (λ r,
    with_grants (as_i64 new_generation) None None None None (d_peer_ack r) (d_local_ack r) now r);;
  ret tt.

Definition insert_tombstone (peer : string) (row : RelationshipRow) : DB unit :=
  now ← now_ms;
  sql (λ d, Ok (tt, on_tombstones
    (λ rows, (upsert_where (peer, as_i64 (rr_generation row))
       {| ts_issued_grant_id := rr_issued_grant_id row; ts_held_grant_id := rr_held_grant_id row;
          ts_revoked_at := now |} (λ _ _, true)
       (λ old, {| ts_issued_grant_id := coalesce (rr_issued_grant_id row) (ts_issued_grant_id old);
                  ts_held_grant_id := coalesce (rr_held_grant_id row) (ts_held_grant_id old);
                  ts_revoked_at := now |}) rows).2) d)).

Definition tombstone_of_row (kr : string * Z * TombstoneColumns) : GenerationTombstone := {|
  gt_remote_endpoint_id := kr.1.1; gt_generation := as_u64 kr.1.2;
  gt_issued_grant_id := ts_issued_grant_id kr.2; gt_held_grant_id := ts_held_grant_id kr.2;
  gt_revoked_at := ts_revoked_at kr.2 |}.

Definition find_tombstone (peer : string) (generation : Z) : DB (option GenerationTombstone) :=
  select_devices (λ d, (λ r, tombstone_of_row (peer, as_i64 generation, r)) <$>
                         tombstones d !! (peer, as_i64 generation)).
End Store.
