(* ===== verification/Pairing.v ===== *)
(** * [pairing_eligibility/]: who may ask to be saved

    A completed authenticated transfer leaves a capability, derived from the approval token
    that both sides hold, which entitles the peer to ask once for mutual saving. The record
    is a row of [pairing_eligibilities]; the capability itself is in custody. The file
    models the store ([store.rs]) and the service ([mod.rs]) over the tables of the saved
    devices and the vault; events are left out. *)

From S2P Require Import Prelude Sql ControlPlane Errors States Api Access SecureSecret Relationship.

Definition ELIGIBILITY_TTL_MS : Z := 24 * 60 * 60 * 1000.
Definition CAPABILITY_CONTEXT : string := "vnidrop-pairing-eligibility-v1".

(** A row of [pairing_eligibilities], keyed by [session_id]. *)
Record EligibilityColumns : Type := {
  g_peer_endpoint_id : string;
  g_remote_display_name : option string;
  g_protocol_version : Z;
  g_secret_handle : string;
  g_created_at : Z;
  g_expires_at : Z
}.

Record PairingEligibilityInsert : Type := {
  pi_peer_endpoint_id : string;
  pi_remote_display_name : option string;
  pi_session_id : string;
  pi_protocol_version : Z;
  pi_secret_handle : string;
  pi_created_at : Z;
  pi_expires_at : Z
}.

Record PairingEligibilityRecord : Type := {
  pe_peer_endpoint_id : string;
  pe_remote_display_name : option string;
  pe_session_id : string;
  pe_protocol_version : Z;
  pe_secret_handle : string;
  pe_created_at : Z;
  pe_expires_at : Z
}.

Record PairingEligibilitySummary : Type := {
  pv_peer_endpoint_id : string;
  pv_remote_display_name : option string;
  pv_session_id : string;
  pv_protocol_version : Z;
  pv_created_at : Z;
  pv_expires_at : Z
}.

Record TakenEligibility : Type := {
  te_session_id : string;
  te_protocol_version : Z;
  te_remote_display_name : option string;
  te_authenticated_at : Z;
  te_capability : SecretMaterial
}.

(** The part of the application data that pairing works on. *)
Record Domain (V : Type) : Type := {
  devices : DeviceTables;
  eligibilities : gmap string EligibilityColumns;
  blocked : Blocked;
  vault : Vault V
}.
Arguments devices {V} _.
Arguments eligibilities {V} _.
Arguments blocked {V} _.
Arguments vault {V} _.

Definition set_devices {V} (x : DeviceTables) (d : Domain V) : Domain V :=
  {| devices := x; eligibilities := eligibilities d; blocked := blocked d; vault := vault d |}.
Definition on_eligibilities {V} (f : gmap string EligibilityColumns → gmap string EligibilityColumns)
    (d : Domain V) : Domain V :=
  {| devices := devices d; eligibilities := f (eligibilities d); blocked := blocked d; vault := vault d |}.
Definition set_blocked {V} (x : Blocked) (d : Domain V) : Domain V :=
  {| devices := devices d; eligibilities := eligibilities d; blocked := x; vault := vault d |}.
Definition set_vault {V} (x : Vault V) (d : Domain V) : Domain V :=
  {| devices := devices d; eligibilities := eligibilities d; blocked := blocked d; vault := x |}.

Definition row_to_record (kr : string * EligibilityColumns) : PairingEligibilityRecord := {|
  pe_peer_endpoint_id := g_peer_endpoint_id kr.2; pe_remote_display_name := g_remote_display_name kr.2;
  pe_session_id := kr.1; pe_protocol_version := as_u16 (g_protocol_version kr.2);
  pe_secret_handle := g_secret_handle kr.2; pe_created_at := g_created_at kr.2;
  pe_expires_at := g_expires_at kr.2 |}.

Definition summary_of_row (kr : string * EligibilityColumns) : PairingEligibilitySummary := {|
  pv_peer_endpoint_id := g_peer_endpoint_id kr.2; pv_remote_display_name := g_remote_display_name kr.2;
  pv_session_id := kr.1; pv_protocol_version := as_u16 (g_protocol_version kr.2);
  pv_created_at := g_created_at kr.2; pv_expires_at := g_expires_at kr.2 |}.

Definition latest_eligible (x y : string * EligibilityColumns) : Prop :=
  g_created_at y.2 ≤ g_created_at x.2.
#[global] Instance latest_eligible_dec : RelDecision latest_eligible.
Proof. intros x y. unfold latest_eligible. apply _. Defined.

(** [u16::to_le_bytes], [u64::to_le_bytes] and a zero byte. *)
Definition byte_string (z : Z) : string := String (Ascii.ascii_of_N (Z.to_N (z mod 256))) EmptyString.
Definition u16_le (z : Z) : string := byte_string z +:+ byte_string (z / 256).
Fixpoint le_bytes (n : nat) (z : Z) : string :=
  match n with
  | O => EmptyString
  | S n => byte_string z +:+ le_bytes n (z / 256)
  end.
Definition u64_le (z : Z) : string := le_bytes 8 z.
Definition NUL : string := byte_string 0.

(** The crate [blake3]: [new_derive_key(context)] and [new_keyed(key)], each over the
    concatenation of the updates. *)
Class Blake3 : Type := {
  derive_key : string → string → string;
  keyed_hash : string → string → string
}.

Section Service.
Context `{Env} `{ForeignText} `{Host} `{Blake3} {V : Type} `{SecureSecretStore V}.
(** [custody.is_some()] and the identity of this installation. *)
Variable protected : bool.
Variable local_endpoint_id : string.

Abbreviation IO := (M (Domain V) VnidropError).

Definition in_devices {A} (m : M DeviceTables VnidropError A) : IO A := zoom devices set_devices m.
Definition in_vault {A} (m : M (Vault V) VnidropError A) : IO A := zoom vault set_vault m.

(** *** The store *)

Definition select_eligible {A} (f : gmap string EligibilityColumns → A) : IO A :=
  sql (λ d, Ok (f (eligibilities d), d)).

Definition insert_eligibility (e : PairingEligibilityInsert) : IO unit :=
  sql (λ d,
    if exists_where (λ _ r, str_eqb (g_secret_handle r) (pi_secret_handle e)) (eligibilities d)
    then Err SqlxUnique
    else
      let? rows := insert_row (pi_session_id e)
        {| g_peer_endpoint_id := pi_peer_endpoint_id e;
           g_remote_display_name := pi_remote_display_name e;
           g_protocol_version := pi_protocol_version e; g_secret_handle := pi_secret_handle e;
           g_created_at := pi_created_at e; g_expires_at := pi_expires_at e |} (eligibilities d) in
      Ok (tt, on_eligibilities (λ _, rows) d)).

Definition list_summaries : IO (list PairingEligibilitySummary) :=
  select_eligible (λ t, summary_of_row <$> order_by latest_eligible (map_to_list t)).
Definition list_records : IO (list PairingEligibilityRecord) :=
  select_eligible (λ t, row_to_record <$> map_to_list t).
Definition list_for_peer (peer : string) : IO (list PairingEligibilityRecord) :=
  select_eligible (λ t, row_to_record <$> select_where (λ _ r, str_eqb (g_peer_endpoint_id r) peer) t).
Definition list_expired (now : Z) : IO (list PairingEligibilityRecord) :=
  select_eligible (λ t, row_to_record <$> select_where (λ _ r, g_expires_at r <=? now) t).
Definition find_by_session (session_id : string) : IO (option PairingEligibilityRecord) :=
  select_eligible (λ t, (λ r, row_to_record (session_id, r)) <$> t !! session_id).
Definition delete_eligibility (session_id : string) : IO unit :=
  sql (λ d, Ok (tt, on_eligibilities (delete_where (λ k _, str_eqb k session_id)) d)).

(** *** The service *)

(** [let _ = custody.remove(&handle).await]. *)
Definition try_remove_secret (handle : SecretHandle) : IO unit :=
  try (E:=VnidropError) (in_vault (remove handle));; ret tt.

Definition delete_entry_silent (entry : PairingEligibilityRecord) : IO unit :=
  (if protected then try_remove_secret (pe_secret_handle entry) else ret tt);;
  delete_eligibility (pe_session_id entry).

(** With the event emitted. *)
Definition delete_entry (entry : PairingEligibilityRecord) : IO unit := delete_entry_silent entry.

(** The events differ, not the deletions. *)
Definition expire_due (emit_events : bool) : IO unit :=
  now ← now_ms;
  expired ← list_expired now;
  for_each expired (λ entry, if emit_events then delete_entry entry else delete_entry_silent entry).

Definition reconcile_eligibilities : IO unit :=
  records ← list_records;
  for_each records (λ entry,
    if protected then
      loaded ← try (in_vault (load (pe_secret_handle entry)));
      if is_ok loaded then ret tt else delete_entry_silent entry
    else ret tt);;
  (if protected then
     handles ← in_vault (list_active_handles PairingEligibility);
     for_each handles (λ handle,
       if str_in handle (pe_secret_handle <$> records) then ret tt else try_remove_secret handle)
   else ret tt);;
  expire_due true.

Definition list_eligibilities : IO (list PairingEligibilitySummary) := expire_due true;; list_summaries.

Definition remove_for_peer (peer : string) : IO unit :=
  entries ← list_for_peer peer; for_each entries delete_entry.

Definition decline_eligibility (peer : string) : IO unit := remove_for_peer peer.

(** [endpoints.sort_unstable()] and the updates of the hasher. *)
Definition capability_input (approval_token peer session_id : string) (protocol_version : Z) : string :=
  let '(first, second) := if String.leb local_endpoint_id peer then (local_endpoint_id, peer)
                          else (peer, local_endpoint_id) in
  approval_token +:+ NUL +:+ first +:+ NUL +:+ second +:+ NUL +:+ session_id +:+ NUL +:+
  u16_le protocol_version.

Definition derive_capability (approval_token peer session_id : string) (protocol_version : Z) :
    result SecretMaterial VnidropError :=
  secret_material_new
    (derive_key CAPABILITY_CONTEXT (capability_input approval_token peer session_id protocol_version)).

Definition activate_after_completed_transfer (peer : string) (remote_display_name : option string)
    (session_id approval_token : string) : IO unit :=
  if negb protected then ret tt
  else if str_is_empty peer || str_is_empty session_id || str_is_empty approval_token then ret tt
  else
    let remote_display_name :=
      match trim <$> remote_display_name with
      | Some name => if str_is_empty name then None else Some name
      | None => None
      end in
    authenticated_at ← now_ms;
    refreshed ← in_devices (refresh_authenticated_peer peer remote_display_name authenticated_at);
    if refreshed : bool then remove_for_peer peer
    else
      existing ← find_by_session session_id;
      match existing with
      | Some _ => ret tt
      | None =>
          let protocol_version := relationship_protocol_version saved_device_capabilities in
          capability ← of_result (derive_capability approval_token peer session_id protocol_version);
          handle ← in_vault (protect PairingEligibility capability None);
          inserted ← try (insert_eligibility
            {| pi_peer_endpoint_id := peer; pi_remote_display_name := remote_display_name;
               pi_session_id := session_id; pi_protocol_version := protocol_version;
               pi_secret_handle := handle; pi_created_at := authenticated_at;
               pi_expires_at := authenticated_at + ELIGIBILITY_TTL_MS |});
          match inserted with
          | Ok _ => ret tt
          | Err error => try_remove_secret handle;; fail error
          end
      end.

Definition take_eligibility (peer : string) : IO (option TakenEligibility) :=
  expire_due true;;
  entries ← list_for_peer peer;
  match entries with
  | [] => ret None
  | entry :: _ =>
      now ← now_ms;
      if pe_expires_at entry <=? now then delete_entry_silent entry;; ret None
      else if negb protected then delete_entry_silent entry;; ret None
      else
        loaded ← try (in_vault (load (pe_secret_handle entry)));
        match loaded with
        | Err _ => delete_entry_silent entry;; ret None
        | Ok capability =>
            delete_entry entry;;
            ret (Some {| te_session_id := pe_session_id entry;
                         te_protocol_version := pe_protocol_version entry;
                         te_remote_display_name := pe_remote_display_name entry;
                         te_authenticated_at := pe_created_at entry;
                         te_capability := capability |})
        end
  end.

Definition request_eligibility (peer : string) : IO bool :=
  taken ← take_eligibility peer; ret (bool_decide (is_Some taken)).

Definition validate_presented_capability (peer session_id : string) (capability : SecretMaterial) :
    IO (option PairingEligibilityRecord) :=
  expire_due false;;
  if negb protected then ret None
  else
    found ← find_by_session session_id;
    match found with
    | None => ret None
    | Some entry =>
        now ← now_ms;
        if negb (str_eqb (pe_peer_endpoint_id entry) peer) || (pe_expires_at entry <=? now) then ret None
        else
          loaded ← try (in_vault (load (pe_secret_handle entry)));
          match loaded with
          | Err _ => ret None
          | Ok stored => ret (if bool_decide (stored = capability) then Some entry else None)
          end
    end.

Definition accept_presented_eligibility (peer session_id : string) (capability : SecretMaterial) :
    IO bool :=
  found ← validate_presented_capability peer session_id capability;
  match found with
  | None => ret false
  | Some entry => delete_entry entry;; ret true
  end.

Definition consume_session (peer session_id : string) : IO unit :=
  found ← find_by_session session_id;
  match found with
  | Some entry => if str_eqb (pe_peer_endpoint_id entry) peer then delete_entry entry else ret tt
  | None => ret tt
  end.
End Service.

(** ** What the steps do *)

Section Steps.
Context `{Env} `{ForeignText} `{Host} `{Blake3} {V : Type} `{SecureSecretStore V} `{!SecureSecretStoreLaws V}.
Variable protected : bool.
Implicit Types (d : Domain V).

Lemma set_devices_id d : set_devices (devices d) d = d.
Proof. by destruct d. Qed.
Lemma set_vault_id d : set_vault (vault d) d = d.
Proof. by destruct d. Qed.
Lemma on_eligibilities_id d : on_eligibilities (λ _, eligibilities d) d = d.
Proof. by destruct d. Qed.

(** An effect on the vault or on the device tables leaves the rest alone. *)
Lemma wp_in_vault {A} (m : M (Vault V) VnidropError A) d n Q :
  wp m (vault d) n (λ r w n', Q r (set_vault w d) n') → wp (in_vault m) d n Q.
Proof. apply wp_zoom. Qed.

Lemma wp_in_vault_any {A} (m : M (Vault V) VnidropError A) d n Q :
  (∀ r w n', Q r (set_vault w d) n') → wp (in_vault m) d n Q.
Proof. intros HQ. apply wp_in_vault. unfold wp. destruct (m (vault d) n) as [[r w] n']. apply HQ. Qed.

Lemma wp_in_devices {A} (m : M DeviceTables VnidropError A) d n Q :
  wp m (devices d) n (λ r x n', Q r (set_devices x d) n') → wp (in_devices m) d n Q.
Proof. apply wp_zoom. Qed.

Lemma wp_try_remove_secret h d n Q :
  (∀ w n', vault_shrinks (vault d) w → Q (Ok tt) (set_vault w d) n') → wp (try_remove_secret h) d n Q.
Proof.
  intros HQ. apply wp_bind, wp_try, wp_in_vault. eapply wp_mono; [apply within_remove_shrinks|].
  intros r w n' Hw. by apply wp_ret, HQ.
Qed.

Lemma wp_select_eligible {A} (f : gmap string EligibilityColumns → A) d n Q :
  (∀ e n', Q (Err e) d n') → (∀ n', Q (Ok (f (eligibilities d))) d n') →
  wp (select_eligible f) d n Q.
Proof. intros He Ho. apply wp_sql; [auto|]. intros _ a d' [= <- <-]. apply Ho. Qed.

(** The tables of [d'] are those of [d] but for the eligibilities, of which [keep] remain. *)
Definition pruned (keep : string → Prop) d d' : Prop :=
  devices d' = devices d ∧ blocked d' = blocked d ∧ vault_shrinks (vault d) (vault d') ∧
  ∀ k r, eligibilities d' !! k = Some r ↔ eligibilities d !! k = Some r ∧ keep k.

(** Some eligibilities and some secrets may be gone. *)
Definition shrunk d d' : Prop :=
  devices d' = devices d ∧ blocked d' = blocked d ∧ vault_shrinks (vault d) (vault d') ∧
  eligibilities d' ⊆ eligibilities d.

#[global] Instance shrunk_preorder : PreOrder shrunk.
Proof.
  split; [by intros d|]. intros d1 d2 d3 (E1 & B1 & V1 & S1) (E2 & B2 & V2 & S2).
  split; [congruence|]. split; [congruence|]. by split; etrans.
Qed.

Lemma pruned_shrunk keep d d' : pruned keep d d' → shrunk d d'.
Proof.
  intros (E & B & Hv & Hk). do 3 (split; [done|]). apply map_subseteq_spec.
  intros k r Hr. by apply Hk.
Qed.

Lemma pruned_vault keep d d' w :
  vault_shrinks (vault d') w → pruned keep d d' → pruned keep d (set_vault w d').
Proof. intros Hw (E & B & Hv & Hk). do 2 (split; [done|]). split; [by etrans | done]. Qed.

Lemma shrunk_vault d w : vault_shrinks (vault d) w → shrunk d (set_vault w d).
Proof. done. Qed.

Lemma wp_delete_entry_silent entry d n Q :
  (∀ e w n', vault_shrinks (vault d) w → Q (Err e) (set_vault w d) n') →
  (∀ w n', vault_shrinks (vault d) w →
     Q (Ok tt) (on_eligibilities (delete (pe_session_id entry)) (set_vault w d)) n') →
  wp (delete_entry_silent protected entry) d n Q.
Proof.
  intros He Ho. assert (∀ w n', vault_shrinks (vault d) w →
    wp (delete_eligibility (pe_session_id entry)) (set_vault w d) n' Q) as Hd.
  { intros w n' Hw. apply wp_sql; [auto|]. intros _ [] d' [= <-].
    unfold on_eligibilities. rewrite delete_where_str. by apply Ho. }
  apply wp_bind. destruct protected; [by apply wp_try_remove_secret; intros; apply Hd|].
  apply wp_ret. rewrite <- (set_vault_id d). by apply Hd.
Qed.

(** Deleting a list of entries, one by one. *)
Lemma wp_delete_entries (entries : list PairingEligibilityRecord) d n Q :
  (∀ e d' n', shrunk d d' → Q (Err e) d' n') →
  (∀ d' n', pruned (λ k, k ∉ pe_session_id <$> entries) d d' → Q (Ok tt) d' n') →
  wp (for_each entries (delete_entry_silent protected)) d n Q.
Proof.
  intros He Ho. eapply (wp_for_each (λ todo d', ∃ done, entries = done ++ todo ∧
    pruned (λ k, k ∉ pe_session_id <$> done) d d')).
  - exists []. do 3 (split; [done|]). split; [reflexivity|]. intros k r. split; [|by intros [? _]].
    intros Hr. split; [done|]. by intros []%elem_of_nil.
  - intros entry todo d1 n1 (done & -> & Hp). apply wp_delete_entry_silent.
    + intros e w n2 Hw. apply He. by eapply pruned_shrunk, pruned_vault.
    + intros w n2 Hw. exists (done ++ [entry]). split; [by rewrite <- app_assoc|].
      destruct Hp as (E & B & Hv & Hk). do 2 (split; [done|]). split; [by etrans|]. intros k r. simpl.
      rewrite lookup_delete_Some, Hk, fmap_app, elem_of_app. csimpl. rewrite list_elem_of_singleton.
      naive_solver.
  - intros d1 n1 (done & -> & Hp). apply Ho. by rewrite app_nil_r.
Qed.

(** The sessions of the rows that a query selects. *)
Lemma sessions_of_rows P (t : gmap string EligibilityColumns) k :
  k ∈ pe_session_id <$> (row_to_record <$> select_where P t) ↔ ∃ r, t !! k = Some r ∧ P k r = true.
Proof.
  rewrite <- list_fmap_compose, list_elem_of_fmap. split.
  - intros ([k' r] & -> & [Hr HP]%elem_of_select_where). by exists r.
  - intros (r & Hr & HP). exists (k, r). split; [done|]. by apply elem_of_select_where.
Qed.

(** Deleting what a query selects keeps exactly the other rows. *)
Lemma wp_delete_selected P d n Q :
  (∀ e d' n', shrunk d d' → Q (Err e) d' n') →
  (∀ d' n', shrunk d d' →
     eligibilities d' = delete_where P (eligibilities d) → Q (Ok tt) d' n') →
  wp (for_each (row_to_record <$> select_where P (eligibilities d)) (delete_entry_silent protected)) d n Q.
Proof.
  intros He Ho. apply wp_delete_entries; [done|]. intros d' n' Hp. apply Ho; [by eapply pruned_shrunk|].
  destruct Hp as (_ & _ & _ & Hk).
  apply map_eq. intros k. apply option_eq. intros r. rewrite Hk, lookup_delete_where, sessions_of_rows.
  split; [|by intros [Hr HP]; split; [|intros (r' & Hr' & HP'); congruence]].
  intros [Hr Hn]. split; [done|]. apply not_true_iff_false. intros HP. apply Hn. by exists r.
Qed.

Lemma wp_remove_for_peer peer d n Q :
  (∀ e d' n', shrunk d d' → Q (Err e) d' n') →
  (∀ d' n', shrunk d d' →
     eligibilities d' = delete_where (λ _ r, str_eqb (g_peer_endpoint_id r) peer) (eligibilities d) →
     Q (Ok tt) d' n') →
  wp (remove_for_peer protected peer) d n Q.
Proof.
  intros He Ho. apply wp_bind, wp_select_eligible; [intros; apply He; reflexivity|]. intros n'.
  by apply wp_delete_selected.
Qed.

(** After expiry every record left expires later than the clock reading used. *)
Lemma wp_expire_due emit d n Q :
  (∀ e d' n', shrunk d d' → Q (Err e) d' n') →
  (∀ d' n', shrunk d d' →
     eligibilities d' = delete_where (λ _ r, g_expires_at r <=? clock n) (eligibilities d) →
     Q (Ok tt) d' n') →
  wp (expire_due protected emit) d n Q.
Proof.
  intros He Ho. apply wp_bind, wp_now_ms, wp_bind, wp_select_eligible; [intros; apply He; reflexivity|].
  intros n'. destruct emit; by apply wp_delete_selected.
Qed.
End Steps.

(** ** Properties *)

Section Properties.
Context `{Env} `{ForeignText} `{Host} `{Blake3} {V : Type} `{SecureSecretStore V} `{!SecureSecretStoreLaws V}.
Variable protected : bool.
Implicit Types (d : Domain V).

Lemma wp_find_by_session s d n Q :
  (∀ e n', Q (Err e) d n') → (∀ n', eligibilities d !! s = None → Q (Ok None) d n') →
  (∀ r n', eligibilities d !! s = Some r → Q (Ok (Some (row_to_record (s, r)))) d n') →
  wp (find_by_session s) d n Q.
Proof.
  intros He Hn Hs. apply wp_select_eligible; [done|]. intros n'.
  destruct (eligibilities d !! s) eqn:E; simpl; [by apply Hs | by apply Hn].
Qed.

(** The capability behind a record, if custody hands it out. *)
Lemma wp_load_capability h d n Q :
  (∀ e w n', vault_shrinks (vault d) w → Q (Ok (Err e)) (set_vault w d) n') →
  (∀ m w n', vault_shrinks (vault d) w → contents (secret_store (vault d)) !! h = Some m →
     Q (Ok (Ok m)) (set_vault w d) n') →
  wp (try (E:=VnidropError) (F:=VnidropError) (in_vault (load h))) d n Q.
Proof.
  intros He Ho. apply wp_try, wp_in_vault, wp_load.
  - intros e v n' Hv. apply He. by apply vault_shrinks_store.
  - intros entry m v n' Hv _ _ _ Hm _. apply Ho; [by apply vault_shrinks_store | done].
Qed.

Lemma shrunk_lookup d d' s r :
  shrunk d d' → eligibilities d' !! s = Some r → eligibilities d !! s = Some r.
Proof. intros (_ & _ & _ & Hs) Hr. by eapply lookup_weaken. Qed.

Lemma shrunk_deleted d d' s w :
  shrunk d d' → vault_shrinks (vault d') w →
  shrunk d (on_eligibilities (delete s) (set_vault w d')).
Proof.
  intros (E & B & Hv & Hs) Hw. do 2 (split; [done|]). split; [by etrans|].
  simpl. etrans; [apply delete_subseteq | done].
Qed.

Lemma shrunk_then_vault d d' w :
  shrunk d d' → vault_shrinks (vault d') w → shrunk d (set_vault w d').
Proof. intros (E & B & Hv & Hs) Hw. do 2 (split; [done|]). split; [by etrans | done]. Qed.

Lemma wp_take_eligibility peer d n :
  wp (take_eligibility protected peer) d n (λ res d' _,
    shrunk d d' ∧
    ∀ taken, res = Ok (Some taken) →
      eligibilities d' !! te_session_id taken = None ∧
      ∃ r, eligibilities d !! te_session_id taken = Some r ∧
           g_peer_endpoint_id r = peer ∧ clock n < g_expires_at r ∧
           contents (secret_store (vault d)) !! g_secret_handle r = Some (te_capability taken)).
Proof.
  apply wp_bind, wp_expire_due; [by intros; split|]. intros d1 n1 Hs1 Hexp.
  apply wp_bind, wp_select_eligible; [by intros; split|]. intros n2.
  destruct (row_to_record <$> _) as [|entry entries] eqn:Erows; [by apply wp_ret; split|].
  assert (∃ s r, entry = row_to_record (s, r) ∧ eligibilities d1 !! s = Some r ∧
                 g_peer_endpoint_id r = peer) as (s & r & -> & Hr & Hpeer).
  { assert (entry ∈ row_to_record <$> select_where (λ _ r, str_eqb (g_peer_endpoint_id r) peer)
              (eligibilities d1)) as Hin by (rewrite Erows; apply list_elem_of_here).
    apply list_elem_of_fmap in Hin as ([s r] & -> & [Hr Hp%str_eqb_eq]%elem_of_select_where). by exists s, r. }
  assert (∀ d2 n3, shrunk d d2 → wp (delete_entry_silent protected (row_to_record (s, r));; ret None) d2 n3
    (λ (res : result (option TakenEligibility) VnidropError) d' _, shrunk d d' ∧
       ∀ taken, res = Ok (Some taken) →
         eligibilities d' !! te_session_id taken = None ∧
         ∃ r, eligibilities d !! te_session_id taken = Some r ∧
           g_peer_endpoint_id r = peer ∧ clock n < g_expires_at r ∧
           contents (secret_store (vault d)) !! g_secret_handle r = Some (te_capability taken))) as Hdrop.
  { intros d2 n3 Hs2. apply wp_bind, wp_delete_entry_silent.
    - intros e w n4 Hw. split; [by apply shrunk_then_vault | done].
    - intros w n4 Hw. apply wp_ret. split; [by apply shrunk_deleted | done]. }
  apply wp_bind, wp_now_ms. destruct (Z.leb_spec (pe_expires_at (row_to_record (s, r))) (clock n2)) as [|Hfresh];
    [by apply Hdrop|].
  destruct protected; simpl; [|by apply Hdrop].
  apply wp_bind, wp_load_capability; [intros e w n3 Hw; by apply Hdrop, shrunk_then_vault|].
  intros m w n3 Hw Hm. apply wp_bind, wp_delete_entry_silent.
  - intros e w' n4 Hw'. split; [|done]. apply (shrunk_then_vault d d1); [done|]. simpl in Hw'. by etrans.
  - intros w' n4 Hw'. apply wp_ret. simpl in Hw'. split.
    + apply (shrunk_deleted d d1); [done|]. by etrans.
    + intros taken [= <-]. simpl. split; [apply lookup_delete_eq|]. exists r.
      split; [by eapply shrunk_lookup|]. split; [done|].
      rewrite Hexp in Hr. apply lookup_delete_where in Hr as [_ Hr%Z.leb_gt]. split; [done|].
      by apply Hs1.
Qed.

(** Eligibility is single-use, peer-bound and expires. What
    [take_eligibility] hands out belonged to this peer, had not expired, is the capability
    that custody held for it, and is consumed: the record is gone afterwards. Whatever
    happens, nothing is added: no record, no saved device, no secret. *)
Theorem take_eligibility_single_use peer d n :
  wp (take_eligibility protected peer) d n (λ res d' _,
    shrunk d d' ∧
    ∀ taken, res = Ok (Some taken) →
      eligibilities d' !! te_session_id taken = None ∧
      ∃ r, eligibilities d !! te_session_id taken = Some r ∧
           g_peer_endpoint_id r = peer ∧ clock n < g_expires_at r ∧
           contents (secret_store (vault d)) !! g_secret_handle r = Some (te_capability taken)).
Proof. apply wp_take_eligibility. Qed.

(** What a validated presentation means; the record is not consumed yet. *)
Definition presented peer session_id capability n d d' (r : EligibilityColumns) : Prop :=
  shrunk d d' ∧ eligibilities d' !! session_id = Some r ∧
  g_peer_endpoint_id r = peer ∧ clock n < g_expires_at r ∧
  contents (secret_store (vault d)) !! g_secret_handle r = Some capability.

Lemma wp_validate_presented peer session_id capability d n Q :
  (∀ e d' n', shrunk d d' → Q (Err e) d' n') →
  (∀ d' n', shrunk d d' → Q (Ok None) d' n') →
  (∀ r d' n', presented peer session_id capability n d d' r →
     Q (Ok (Some (row_to_record (session_id, r)))) d' n') →
  wp (validate_presented_capability protected peer session_id capability) d n Q.
Proof.
  intros He Hn Hs. apply wp_bind, wp_expire_due; [done|]. intros d1 n1 Hs1 Hexp.
  destruct protected; simpl; [|by apply wp_ret, Hn].
  apply wp_bind, wp_find_by_session; [by intros; apply He|by intros; apply wp_ret, Hn|].
  intros r n2 Hr. apply wp_bind, wp_now_ms. destruct (negb _ || _) eqn:Echeck; [by apply wp_ret, Hn|].
  apply orb_false_iff in Echeck as [Hpeer%negb_false_iff%str_eqb_eq _].
  apply wp_bind, wp_load_capability.
  { intros e w n3 Hw. by apply wp_ret, Hn, (shrunk_then_vault d d1). }
  intros m w n3 Hw Hm. apply wp_ret. case_bool_decide as Heq.
  - subst m. apply Hs. split; [by apply (shrunk_then_vault d d1)|]. split; [done|]. split; [done|].
    split; [|by apply Hs1]. rewrite Hexp in Hr. apply lookup_delete_where in Hr as [_ Hr].
    by apply Z.leb_gt in Hr.
  - by apply Hn, (shrunk_then_vault d d1).
Qed.

(** A presented capability is accepted only if the record of that
    session belongs to the presenting peer, has not expired, and custody holds exactly the
    presented bytes for it; acceptance consumes the record. *)
Theorem presented_capability_checked peer session_id capability d n :
  wp (accept_presented_eligibility protected peer session_id capability) d n (λ res d' _,
    shrunk d d' ∧
    (res = Ok true →
      eligibilities d' !! session_id = None ∧
      ∃ r, eligibilities d !! session_id = Some r ∧ g_peer_endpoint_id r = peer ∧
           clock n < g_expires_at r ∧
           contents (secret_store (vault d)) !! g_secret_handle r = Some capability)).
Proof.
  apply wp_bind, wp_validate_presented; [by intros; split|by intros; apply wp_ret; split|].
  intros r d1 n1 (Hs & Hr & Hpeer & Hexp & Hm). apply wp_bind, wp_delete_entry_silent.
  - intros e w n2 Hw. split; [by apply (shrunk_then_vault d d1) | done].
  - intros w n2 Hw. apply wp_ret. split; [by apply (shrunk_deleted d d1)|]. intros _.
    split; [apply lookup_delete_eq|]. exists r. split; [by eapply shrunk_lookup | done].
Qed.
End Properties.

(** *** The derived capability *)

Fixpoint nul_free (s : string) : bool :=
  match s with
  | EmptyString => true
  | String a s' => negb (Ascii.eqb a Ascii.zero) && nul_free s'
  end.

Lemma split_at_nul a b x y :
  nul_free a = true → nul_free b = true → a +:+ NUL +:+ x = b +:+ NUL +:+ y → a = b ∧ x = y.
Proof.
  revert b. induction a as [|c a IH]; intros [|c' b] Ha Hb E.
  - by injection E.
  - injection E as E1 _. subst c'. discriminate Hb.
  - injection E as E1 _. subst c. discriminate Ha.
  - injection E as -> E. apply andb_prop in Ha as [_ Ha]. apply andb_prop in Hb as [_ Hb].
    destruct (IH b Ha Hb E) as [-> ->]. done.
Qed.

Lemma byte_string_inj a b x y : byte_string a +:+ x = byte_string b +:+ y → a mod 256 = b mod 256 ∧ x = y.
Proof.
  intros E. injection E as E1 E2. split; [|exact E2].
  pose proof (Z.mod_pos_bound a 256). pose proof (Z.mod_pos_bound b 256).
  assert (Z.to_N (a mod 256) = Z.to_N (b mod 256)) as EN; [|lia].
  rewrite <- (Ascii.N_ascii_embedding (Z.to_N (a mod 256))) by lia.
  rewrite <- (Ascii.N_ascii_embedding (Z.to_N (b mod 256))) by lia. by rewrite E1.
Qed.

Lemma u16_le_inj a b : 0 ≤ a < 2 ^ 16 → 0 ≤ b < 2 ^ 16 → u16_le a = u16_le b → a = b.
Proof.
  intros Ha Hb E. apply byte_string_inj in E as [E1 E2].
  rewrite <- (str_app_empty_r (byte_string (a / 256))), <- (str_app_empty_r (byte_string (b / 256))) in E2.
  apply byte_string_inj in E2 as [E2 _].
  rewrite (Z.div_mod a 256), (Z.div_mod b 256), E1 by lia.
  rewrite !(Z.mod_small (_ / _)) in E2; [by rewrite E2|..];
    (split; [apply Z.div_pos; lia | apply Z.div_lt_upper_bound; lia]).
Qed.

Lemma le_bytes_length k z : String.length (le_bytes k z) = k.
Proof. revert z. induction k as [|k IH]; intros z; [done|]. simpl. rewrite str_length_app, IH. done. Qed.

Lemma le_bytes_inj k a b :
  0 ≤ a < 256 ^ Z.of_nat k → 0 ≤ b < 256 ^ Z.of_nat k → le_bytes k a = le_bytes k b → a = b.
Proof.
  revert a b. induction k as [|k IH]; intros a b Ha Hb E; [simpl in *; lia|].
  apply byte_string_inj in E as [E1 E2]. rewrite Nat2Z.inj_succ, Z.pow_succ_r in Ha, Hb by lia.
  apply IH in E2; [|split; [apply Z.div_pos; lia | apply Z.div_lt_upper_bound; lia]..].
  rewrite (Z.div_mod a 256), (Z.div_mod b 256) by lia. by rewrite E1, E2.
Qed.

Lemma u64_le_app_inj a b x y :
  is_u64 a → is_u64 b → u64_le a +:+ x = u64_le b +:+ y → a = b ∧ x = y.
Proof.
  unfold is_u64, U64_MAX. intros Ha Hb E. apply str_app_inj_len in E as [E ->].
  - split; [|done]. apply (le_bytes_inj 8); [simpl; lia..|done].
  - unfold u64_le. by rewrite !le_bytes_length.
Qed.

(** The two endpoints in the order of the hasher's updates. *)
Definition endpoint_pair (local peer : string) : string * string :=
  if String.leb local peer then (local, peer) else (peer, local).

Lemma endpoint_pair_comm a b : endpoint_pair a b = endpoint_pair b a.
Proof.
  unfold endpoint_pair. destruct (String.leb a b) eqn:E1, (String.leb b a) eqn:E2; try done.
  - by rewrite (String.leb_antisym a b).
  - destruct (String.leb_total a b); congruence.
Qed.

Lemma endpoint_pair_inj a b a' b' :
  endpoint_pair a b = endpoint_pair a' b' → (a = a' ∧ b = b') ∨ (a = b' ∧ b = a').
Proof. unfold endpoint_pair. repeat case_match; intros [= -> ->]; auto. Qed.

Lemma capability_input_pair local token peer session v :
  capability_input local token peer session v =
  token +:+ NUL +:+ (endpoint_pair local peer).1 +:+ NUL +:+ (endpoint_pair local peer).2 +:+ NUL +:+
  session +:+ NUL +:+ u16_le v.
Proof. unfold capability_input, endpoint_pair. by destruct (String.leb local peer). Qed.

(** Both sides derive the same capability, and only for the same
    pairing. The hashed input does not depend on which side computes it; and for
    identifiers without a zero byte, equal inputs mean the same approval token, the same two
    endpoints, the same session and the same protocol version. *)
Theorem capability_agreement token local peer session v
  (Ht : nul_free token = true) (Hl : nul_free local = true) (Hp : nul_free peer = true)
  (Hs : nul_free session = true) (Hv : 0 ≤ v < 2 ^ 16) :
  capability_input local token peer session v = capability_input peer token local session v ∧
  ∀ token' local' peer' session' v',
    nul_free token' = true → nul_free local' = true → nul_free peer' = true →
    nul_free session' = true → 0 ≤ v' < 2 ^ 16 →
    capability_input local token peer session v = capability_input local' token' peer' session' v' →
    token = token' ∧ session = session' ∧ v = v' ∧
    ((local = local' ∧ peer = peer') ∨ (local = peer' ∧ peer = local')).
Proof.
  split; [by rewrite !capability_input_pair, endpoint_pair_comm|].
  intros token' local' peer' session' v' Ht' Hl' Hp' Hs' Hv'. rewrite !capability_input_pair.
  assert (∀ a b, nul_free a = true → nul_free b = true →
    nul_free (endpoint_pair a b).1 = true ∧ nul_free (endpoint_pair a b).2 = true) as Hpair.
  { intros a b Ha Hb. unfold endpoint_pair. by destruct (String.leb a b). }
  destruct (Hpair local peer Hl Hp), (Hpair local' peer' Hl' Hp').
  intros E. apply split_at_nul in E as [-> E]; [|done..].
  apply split_at_nul in E as [E1 E]; [|done..].
  apply split_at_nul in E as [E2 E]; [|done..].
  apply split_at_nul in E as [-> E]; [|done..].
  apply u16_le_inj in E as ->; [|done..]. do 3 (split; [done|]).
  apply endpoint_pair_inj. by rewrite (surjective_pairing (endpoint_pair local peer)), E1, E2, <- surjective_pairing.
Qed.

Lemma capability_agreement_witness :
  capability_input "alice" "token" "bob" "session" 2 = capability_input "bob" "token" "alice" "session" 2.
Proof. apply (capability_agreement "token" "alice" "bob" "session" 2); first [reflexivity | lia]. Defined.
