(* ===== verification/Devices.v ===== *)
(** * [device_relationship/]: mutual consent, grants and revocation

    Two installations become saved devices of each other by exchanging grants: each issues a
    secret to the other, keeps it in custody, and later accepts the other's proof of
    possession. The file models the service ([service.rs]), revocation ([lifecycle.rs]), the
    proofs ([crypto.rs]) and the primitives of [grant.rs]. A handler runs from its entry to
    its end; while it waits for the network, other handlers may change the state
    ([meanwhile]). What the peer answers is the environment's choice. Events are left out. *)

From S2P Require Import Prelude Sql ControlPlane Errors States Api Access SecureSecret Relationship Pairing.

(** ** [grant.rs] *)

Definition GRANT_ID_LEN : nat := 16.
Definition GRANT_SECRET_LEN : nat := 32.
Definition CHALLENGE_LEN : nat := 32.
Definition PROOF_LEN : nat := 32.

Inductive GrantRejection : Type := RejectedUnknown | RejectedRevoked.

Definition rejection_as_str (r : GrantRejection) : string :=
  match r with RejectedUnknown => "unknown" | RejectedRevoked => "revoked" end.

(** ** Messages ([protocol.rs]) *)

Record WireGrant : Type := {
  wg_grant_id : string;
  wg_secret : string;
  wg_issuer_endpoint_id : string;
  wg_holder_endpoint_id : string;
  wg_generation : Z;
  wg_protocol_version : Z
}.

Record WireProof : Type := { wp_grant_id : string; wp_mac : string; wp_challenge : string }.

Record PairingRequest : Type := {
  pr_session_id : string;
  pr_capability : string;
  pr_protocol_version : Z;
  pr_generation : Z
}.

Inductive PairingRequestResponse : Type :=
| AwaitingConsent (generation : Z)
| Merged (generation : Z)
| RequestAlreadySaved
| RequestRejected.

Record PairingConsent : Type := {
  pc_accepted : bool;
  pc_grant : option WireGrant;
  pc_challenge : option string;
  pc_generation : Z;
  pc_protocol_version : Z
}.

Inductive PairingConsentResponse : Type :=
| Completed (grant : WireGrant) (possession_proof : WireProof) (ack_challenge : string)
| ConsentAlreadySaved
| ConsentRejected.

Record PairingAck : Type := {
  pa_possession_proof : WireProof;
  pa_challenge : string;
  pa_generation : Z;
  pa_protocol_version : Z
}.

Inductive PairingAckResponse : Type := Acknowledged | AckAlreadySaved | AckRejected.

Record ForgetOutcome : Type := {
  fo_had_relationship : bool;
  fo_generation : option Z;
  fo_issued_grant_id : option string
}.

(** ** [crypto.rs] *)

Definition RELATIONSHIP_GRANT_CONTEXT : string := "vnidrop-relationship-grant-v1".

(** The updates of the keyed hasher. *)
Definition mac_input (challenge issuer holder : string) (generation protocol_version : Z) : string :=
  RELATIONSHIP_GRANT_CONTEXT +:+ challenge +:+ u64_le (str_len issuer) +:+ issuer +:+
  u64_le (str_len holder) +:+ holder +:+ u64_le generation +:+ u16_le protocol_version.

Definition relationship_mac `{Blake3} (secret challenge issuer holder : string)
    (generation protocol_version : Z) : string :=
  keyed_hash secret (mac_input challenge issuer holder generation protocol_version).

Definition verify_relationship_grant `{Blake3} (secret mac challenge issuer holder : string)
    (generation protocol_version : Z) : result unit string :=
  if str_eqb (relationship_mac secret challenge issuer holder generation protocol_version) mac
  then Ok tt else Err "bad relationship grant proof"%string.

Definition encode_relationship_grant_secret (secret : string) : result SecretMaterial VnidropError :=
  secret_material_new secret.

Definition secret_from_material (material : SecretMaterial) : result string VnidropError :=
  if Nat.eqb (String.length (material_bytes material)) GRANT_SECRET_LEN
  then Ok (material_bytes material)
  else Err (SecureStorageCorrupted "relationship grant secret has invalid length").

(** ** The environment of the service *)

Class Network (V : Type) : Type := {
  random_bytes : nat → nat → string;           (* a position and a length *)
  hexlower_encode : string → string;
  decode_error : string → string;              (* what [data_encoding] says of bad input *)
  peer_addr_error : nat → string → option VnidropError;
  request_reply : nat → string → PairingRequest → option PairingRequestResponse;
  consent_reply : nat → string → PairingConsent → option PairingConsentResponse;
  ack_reply : nat → string → PairingAck → option PairingAckResponse;
  meanwhile : nat → Domain V → Domain V        (* other handlers, during a round trip *)
}.

Definition PENDING_TTL_MS : Z := 30 * 60 * 1000.

Section DeviceService.
Context `{Env} `{ForeignText} `{Host} `{Blake3} {V : Type} `{SecureSecretStore V} `{!Network V}.
Variable protected : bool.
Variable local_endpoint_id : string.
Variable max_saved_devices : Z.

Abbreviation IO := (M (Domain V) VnidropError).

(** [HEXLOWER.decode(..)] with the context and length check of [GrantId], [GrantSecret] and
    [Challenge]. *)
Definition decode_fixed (len : nat) (what value : string) : result string AnyhowError :=
  match hexlower_decode value with
  | None => Err (with_context ("invalid " +:+ what +:+ " encoding") (anyhow_msg (decode_error value)))
  | Some bytes => if Nat.eqb (String.length bytes) len then Ok bytes
                  else Err (anyhow_msg ("invalid " +:+ what +:+ " length"))
  end.
Definition decode_grant_id (value : string) := decode_fixed GRANT_ID_LEN "grant id" value.
Definition decode_grant_secret (value : string) := decode_fixed GRANT_SECRET_LEN "grant secret" value.
Definition decode_challenge (value : string) := decode_fixed CHALLENGE_LEN "challenge" value.

Definition random (len : nat) : IO string := λ d n, (Ok (random_bytes n len), d, S n).

(** [tokio::time::timeout(.., client.rpc(..))]: [None] for an error or a timeout. *)
Definition rpc {Q R} (reply : nat → string → Q → option R) (peer : string) (message : Q) :
    IO (option R) := λ d n, (Ok (reply n peer message), meanwhile n d, S n).

Definition peer_addr (peer : string) : IO unit := λ d n,
  match peer_addr_error n peer with Some e => (Err e, d, S n) | None => (Ok tt, d, S n) end.

Definition invalid (m : string) : VnidropError := invalid_input (anyhow_msg m).
Definition denied (m : string) : VnidropError := permission (anyhow_msg m).
Definition custody_required : VnidropError :=
  SecureStorageUnavailable "relationship grants require protected custody".

Definition find_row (peer : string) : IO (option RelationshipRow) :=
  in_devices (find_relationship_row peer).

(** [unwrap_or(true)]: a store error does not admit blocked traffic. *)
Definition is_blocked_or_unknown (peer : string) : IO bool :=
  r ← try (zoom blocked set_blocked (is_blocked peer));
  ret (match r with Ok b => b | Err _ => true end).

Definition relationship_slots_used : IO Z := in_devices count_active_slots.

Definition can_create_new_relationship (peer : string) : IO bool :=
  row ← find_row peer;
  match row with
  | Some _ => ret true
  | None => used ← relationship_slots_used; ret (used <? max_saved_devices)
  end.

Definition option_list {A} (o : option A) : list A := match o with Some x => [x] | None => [] end.

Definition delete_relationship (peer : string) : IO unit :=
  found ← try (E:=VnidropError) (find_row peer);
  (match found with
   | Ok (Some row) =>
       if protected then
         for_each (option_list (rr_issued_grant_handle row) ++ option_list (rr_held_grant_handle row))
           try_remove_secret
       else ret tt
   | _ => ret tt
   end);;
  in_devices (delete_relationship_row peer).

Definition next_generation (peer : string) : IO Z :=
  floor ← in_devices (generation_floor peer);
  if (floor + 1 <=? U64_MAX) && (floor + 1 <=? I64_MAX) then ret (floor + 1)
  else fail (invalid "relationship generation exhausted").

(** *** Grants *)

Definition mint_and_store_issued_grant (peer : string) (generation protocol_version : Z) :
    IO WireGrant :=
  if negb protected then fail custody_required
  else
    secret ← random GRANT_SECRET_LEN;
    grant_id ← random GRANT_ID_LEN;
    material ← of_result (encode_relationship_grant_secret secret);
    handle ← in_vault (protect RelationshipGrant material None);
    in_devices (set_issued_grant peer handle (hexlower_encode grant_id));;
    ret {| wg_grant_id := hexlower_encode grant_id; wg_secret := hexlower_encode secret;
           wg_issuer_endpoint_id := local_endpoint_id; wg_holder_endpoint_id := peer;
           wg_generation := generation; wg_protocol_version := protocol_version |}.

Definition store_held_grant (peer : string) (grant : WireGrant) : IO unit :=
  if negb (str_eqb (wg_holder_endpoint_id grant) local_endpoint_id) ||
     negb (str_eqb (wg_issuer_endpoint_id grant) peer)
  then fail (invalid "relationship grant endpoint binding mismatch")
  else if negb protected then fail custody_required
  else
    grant_id ← of_result (result_map_err invalid_input (decode_grant_id (wg_grant_id grant)));
    secret ← of_result (result_map_err invalid_input (decode_grant_secret (wg_secret grant)));
    material ← of_result (encode_relationship_grant_secret secret);
    handle ← in_vault (protect RelationshipGrant material None);
    in_devices (set_held_grant peer handle (hexlower_encode grant_id)).

(** [lifecycle.rs]: a tombstoned generation is revoked, any other but the active one unknown.
    A store error is unknown too. *)
Definition reject_replayed_generation (peer : string) (generation : Z) :
    M (Domain V) GrantRejection unit :=
  found ← map_err (λ _, RejectedUnknown) (in_devices (find_tombstone peer generation));
  match found with
  | Some _ => fail RejectedRevoked
  | None =>
      row ← map_err (λ _, RejectedUnknown) (find_row peer);
      match row with
      | None => fail RejectedUnknown
      | Some row =>
          match rr_state row with
          | PendingOutgoing | PendingIncoming | Saved =>
              if rr_generation row =? generation then ret tt else fail RejectedUnknown
          | Revoked | States.Blocked => fail RejectedUnknown
          end
      end
  end.

Definition verify_issued_possession (peer challenge : string) (proof : WireProof)
    (generation protocol_version : Z) : IO unit :=
  map_err (λ rejection, invalid ("relationship grant " +:+ rejection_as_str rejection))
    (reject_replayed_generation peer generation);;
  if negb protected then fail custody_required
  else
    row ← find_row peer;
    match row with
    | None => fail (invalid "missing relationship for verify")
    | Some row =>
        match rr_issued_grant_handle row with
        | None => fail (invalid "missing issued grant for verify")
        | Some handle =>
            match rr_issued_grant_id row with
            | None => fail (invalid "missing issued grant id")
            | Some expected_id =>
                if negb (str_eqb (wp_grant_id proof) expected_id)
                then fail (invalid "relationship grant id mismatch")
                else
                  material ← in_vault (load handle);
                  secret ← of_result (secret_from_material material);
                  grant_id ← of_result (result_map_err invalid_input (decode_grant_id (wp_grant_id proof)));
                  match hexlower_decode (wp_mac proof) with
                  | None => fail (invalid_input (with_context "invalid proof mac"
                                                   (anyhow_msg (decode_error (wp_mac proof)))))
                  | Some mac =>
                      if negb (Nat.eqb (String.length mac) PROOF_LEN)
                      then fail (invalid "invalid proof mac length")
                      else of_result (result_map_err invalid
                             (verify_relationship_grant secret mac challenge local_endpoint_id peer
                                generation protocol_version))
                  end
            end
        end
    end.

Definition prove_held_possession (peer challenge : string) (generation protocol_version : Z) :
    IO WireProof :=
  if negb protected then fail custody_required
  else
    row ← find_row peer;
    match row with
    | None => fail (invalid "missing relationship for proof")
    | Some row =>
        match rr_held_grant_handle row with
        | None => fail (invalid "missing held grant for proof")
        | Some handle =>
            match rr_held_grant_id row with
            | None => fail (invalid "missing held grant id")
            | Some held_id =>
                grant_id ← of_result (result_map_err invalid_input (decode_grant_id held_id));
                material ← in_vault (load handle);
                secret ← of_result (secret_from_material material);
                ret {| wp_grant_id := hexlower_encode grant_id;
                       wp_mac := hexlower_encode (relationship_mac secret challenge peer local_endpoint_id
                                                    generation protocol_version);
                       wp_challenge := hexlower_encode challenge |}
            end
        end
    end.

Definition saved_row (peer : string) : IO RelationshipRow :=
  row ← find_row peer;
  match row with
  | None => fail (denied "no saved relationship with peer")
  | Some row => match rr_state row with
                | Saved => ret row
                | _ => fail (denied "peer is not a saved device")
                end
  end.

Definition require_saved (peer : string) : IO unit := saved_row peer;; ret tt.

Definition prove_saved_possession (peer challenge : string) : IO (WireProof * Z * Z) :=
  row ← saved_row peer;
  proof ← prove_held_possession peer challenge (rr_generation row) (rr_minimum_protocol_version row);
  ret (proof, rr_generation row, rr_minimum_protocol_version row).

Definition verify_saved_possession (peer challenge : string) (proof : WireProof)
    (generation protocol_version : Z) : IO unit :=
  row ← saved_row peer;
  if negb (rr_generation row =? generation)
  then fail (denied "relationship generation mismatch")
  else if protocol_version <? rr_minimum_protocol_version row
  then fail (protocol_incompatible (anyhow_msg "relationship protocol downgrade is forbidden"))
  else verify_issued_possession peer challenge proof generation protocol_version.

Definition set_acks (peer : string) (local_ack peer_ack : bool) : IO unit :=
  in_devices (set_acks_row peer local_ack peer_ack).
Definition activate_saved (peer : string) : IO unit :=
  in_devices (set_relationship_state peer Saved).

(** *** Revocation ([lifecycle.rs]) *)

Definition tombstone_generation (peer : string) (row : RelationshipRow) : IO unit :=
  in_devices (insert_tombstone peer row).

Definition clear_grant_secrets (row : RelationshipRow) : IO unit :=
  if protected then
    for_each (option_list (rr_issued_grant_handle row) ++ option_list (rr_held_grant_handle row))
      try_remove_secret
  else ret tt.

Definition forget (peer : string) : IO ForgetOutcome :=
  found ← find_row peer;
  match found with
  | None =>
      remove_for_peer protected peer;;
      ret {| fo_had_relationship := false; fo_generation := None; fo_issued_grant_id := None |}
  | Some row =>
      tombstone_generation peer row;;
      delete_relationship peer;;
      remove_for_peer protected peer;;
      ret {| fo_had_relationship := true; fo_generation := Some (rr_generation row);
             fo_issued_grant_id := rr_issued_grant_id row |}
  end.

Definition revoke_for_block (peer : string) : IO ForgetOutcome :=
  found ← find_row peer;
  (match found with
   | Some row => tombstone_generation peer row;; delete_relationship peer
   | None => ret tt
   end);;
  remove_for_peer protected peer;;
  ret {| fo_had_relationship := bool_decide (is_Some found);
         fo_generation := rr_generation <$> found;
         fo_issued_grant_id := found ≫= rr_issued_grant_id |}.

Definition rotate_relationship_grant (peer : string) : IO Z :=
  found ← find_row peer;
  match found with
  | None => fail (invalid "no relationship to rotate")
  | Some row =>
      match rr_state row with
      | Saved =>
          tombstone_generation peer row;;
          clear_grant_secrets row;;
          let new_generation := u64_saturating_add (rr_generation row) 1 in
          in_devices (begin_grant_rotation peer new_generation);;
          mint_and_store_issued_grant peer new_generation (rr_minimum_protocol_version row);;
          ret new_generation
      | _ => fail (invalid "only saved relationships can rotate grants")
      end
  end.

Definition handle_remote_revoke (peer : string) (generation : Z) : IO bool :=
  found ← try (E:=VnidropError) (find_row peer);
  match found with
  | Ok (Some row) =>
      stale ← (if negb (rr_generation row =? generation) && negb (generation =? 0) then
                 t ← try (in_devices (find_tombstone peer generation));
                 ret (match t with Ok (Some _) => true | _ => false end)
               else ret false);
      if stale : bool then ret true
      else
        try (E:=VnidropError) (tombstone_generation peer row);;
        try (E:=VnidropError) (delete_relationship peer);;
        try (E:=VnidropError) (remove_for_peer protected peer);;
        ret true
  | _ => ret true
  end.

(** *** Start-up and listing *)

Definition expire_pending : IO unit :=
  now ← now_ms;
  peers ← in_devices (list_expired_pending_peers (now - PENDING_TTL_MS));
  for_each peers delete_relationship.

Definition list_devices : IO (list DeviceRelationship) :=
  expire_pending;; in_devices list_relationships.

Definition set_saved_device_label (peer : string) (label : option string) : IO unit :=
  changed ← in_devices (set_saved_device_label_row peer label);
  if changed : bool then ret tt else fail (invalid "peer is not a saved device").

(** One row of [reconcile]: load both grants; a saved peer without its issued grant goes. *)
Definition reconcile_device (live_handles : list string) (row : ReconcileRow) : IO (list string) :=
  issued_missing ← match rc_issued_grant_handle row with
                   | None => ret true
                   | Some handle =>
                       loaded ← try (E:=VnidropError) (in_vault (load handle)); ret (negb (is_ok loaded))
                   end;
  (match rc_held_grant_handle row with
   | None => ret tt
   | Some handle => try (E:=VnidropError) (in_vault (load handle));; ret tt
   end);;
  (if bool_decide (rc_state row = Saved) && issued_missing
   then delete_relationship (rc_remote_endpoint_id row) else ret tt);;
  ret (live_handles ++ option_list (rc_issued_grant_handle row) ++
       option_list (rc_held_grant_handle row)).

Definition reconcile_devices : IO unit :=
  if negb protected then ret tt
  else
    rows ← in_devices list_reconcile_rows;
    live_handles ← fold_each reconcile_device rows [];
    handles ← in_vault (list_active_handles RelationshipGrant);
    for_each handles (λ handle,
      if str_in handle live_handles then ret tt else try_remove_secret handle).

(** *** Pairing *)

(** What follows the peer's [Completed] in [respond_to_pairing] and
    [complete_simultaneous_merge]; the answer says whether the peer acknowledged. *)
Definition finish_consent (peer challenge : string) (peer_grant : WireGrant) (possession_proof : WireProof)
    (ack_challenge : string) (generation protocol_version : Z) : IO unit :=
  verify_issued_possession peer challenge possession_proof generation protocol_version;;
  store_held_grant peer peer_grant;;
  ack_challenge ← of_result (result_map_err invalid_input (decode_challenge ack_challenge));
  proof ← prove_held_possession peer ack_challenge (wg_generation peer_grant)
            (wg_protocol_version peer_grant);
  reply ← rpc ack_reply peer
    {| pa_possession_proof := proof; pa_challenge := hexlower_encode ack_challenge;
       pa_generation := generation; pa_protocol_version := protocol_version |};
  match reply with
  | Some (Acknowledged | AckAlreadySaved) => set_acks peer true true;; activate_saved peer
  | _ => ret tt
  end.

Definition complete_simultaneous_merge (peer : string) (generation protocol_version : Z) : IO unit :=
  found ← find_row peer;
  let settled := match found with
                 | Some row => bool_decide (rr_state row = Saved) ||
                               bool_decide (is_Some (rr_issued_grant_handle row))
                 | None => false
                 end in
  if settled then ret tt
  else if String.leb peer local_endpoint_id then ret tt
  else
    grant ← mint_and_store_issued_grant peer generation protocol_version;
    challenge ← random CHALLENGE_LEN;
    peer_addr peer;;
    reply ← rpc consent_reply peer
      {| pc_accepted := true; pc_grant := Some grant; pc_challenge := Some (hexlower_encode challenge);
         pc_generation := generation; pc_protocol_version := protocol_version |};
    match reply with
    | Some (Completed peer_grant possession_proof ack_challenge) =>
        finish_consent peer challenge peer_grant possession_proof ack_challenge generation
          protocol_version
    | Some ConsentAlreadySaved => activate_saved peer
    | Some ConsentRejected | None => ret tt
    end.

Definition pairing_mismatch : VnidropError :=
  invalid "pairing response did not match the pending relationship".

Definition adopt_pending_generation (peer session_id : string) (generation : Z) : IO unit :=
  if negb (generation <=? I64_MAX) then fail pairing_mismatch
  else
    adopted ← in_devices (set_pending_generation peer session_id generation);
    if adopted : bool then ret tt
    else
      found ← find_row peer;
      match found with
      | Some row => if bool_decide (rr_state row = Saved) && (rr_generation row =? generation)
                    then ret tt else fail pairing_mismatch
      | None => fail pairing_mismatch
      end.

(** The row that a local request writes. *)
Definition outgoing_upsert (peer : string) (taken : TakenEligibility) (generation created_at now : Z) :
    RelationshipUpsert := {|
  ru_remote_endpoint_id := peer; ru_state := PendingOutgoing; ru_generation := generation;
  ru_minimum_protocol_version := te_protocol_version taken;
  ru_session_id := Some (te_session_id taken);
  ru_remote_display_name := te_remote_display_name taken;
  ru_last_authenticated_at := Some (te_authenticated_at taken);
  ru_issued_grant_handle := None; ru_held_grant_handle := None;
  ru_issued_grant_id := None; ru_held_grant_id := None;
  ru_peer_ack := false; ru_local_ack := false; ru_created_at := created_at; ru_updated_at := now |}.

(** [matches!(found, Some(row) if row.state == state && row.session_id == Some(session))]. *)
Definition row_in_session (state : DeviceRelationshipState) (session_id : string)
    (row : RelationshipRow) : bool :=
  bool_decide (rr_state row = state) && opt_eqb (rr_session_id row) session_id.

(** [request_pairing] when the peer has not asked first. *)
Definition request_over_network (peer : string) (taken : TakenEligibility) (generation now : Z) :
    IO bool :=
  in_devices (upsert (outgoing_upsert peer taken generation now now));;
  peer_addr peer;;
  reply ← rpc request_reply peer
    {| pr_session_id := te_session_id taken; pr_capability := material_bytes (te_capability taken);
       pr_protocol_version := te_protocol_version taken; pr_generation := generation |};
  match reply with
  | Some (AwaitingConsent generation) =>
      adopt_pending_generation peer (te_session_id taken) generation;; ret true
  | Some (Merged generation) =>
      adopt_pending_generation peer (te_session_id taken) generation;;
      complete_simultaneous_merge peer generation (te_protocol_version taken);;
      ret true
  | Some RequestAlreadySaved => activate_saved peer;; ret true
  | Some RequestRejected | None => ret true
  end.

Definition request_pairing (peer : string) : IO bool :=
  barred ← is_blocked_or_unknown peer;
  if barred : bool then ret false
  else
    existing ← find_row peer;
    if bool_decide ((rr_state <$> existing) = Some Saved) then ret true
    else
      room ← can_create_new_relationship peer;
      if negb room then ret false
      else
        taken ← take_eligibility protected peer;
        match taken with
        | None => ret false
        | Some taken =>
            generation ← next_generation peer;
            now ← now_ms;
            found ← find_row peer;
            match found with
            | Some existing =>
                if row_in_session PendingIncoming (te_session_id taken) existing then
                  in_devices (upsert (outgoing_upsert peer taken generation (rr_created_at existing) now));;
                  complete_simultaneous_merge peer generation (te_protocol_version taken);;
                  ret true
                else
                  request_over_network peer taken generation now
            | None => request_over_network peer taken generation now
            end
        end.

(** [if let Some(session_id) = &row.session_id { let _ = consume_session(..) }]. *)
Definition consume_row_session (peer : string) (row : RelationshipRow) : IO unit :=
  match rr_session_id row with
  | Some session_id => try (E:=VnidropError) (consume_session protected peer session_id);; ret tt
  | None => ret tt
  end.

Definition respond_to_pairing (peer : string) (accepted : bool) : IO bool :=
  barred ← is_blocked_or_unknown peer;
  if barred : bool then ret false
  else
    found ← find_row peer;
    match found with
    | None => ret false
    | Some row =>
        if bool_decide (rr_state row = Saved) then ret true
        else if negb (bool_decide (rr_state row = PendingIncoming)) then ret false
        else
          consume_row_session peer row;;
          if negb accepted then
            delete_relationship peer;;
            peer_addr peer;;
            rpc consent_reply peer
              {| pc_accepted := false; pc_grant := None; pc_challenge := None;
                 pc_generation := rr_generation row;
                 pc_protocol_version := rr_minimum_protocol_version row |};;
            ret true
          else
            grant ← mint_and_store_issued_grant peer (rr_generation row) (rr_minimum_protocol_version row);
            challenge ← random CHALLENGE_LEN;
            peer_addr peer;;
            reply ← rpc consent_reply peer
              {| pc_accepted := true; pc_grant := Some grant;
                 pc_challenge := Some (hexlower_encode challenge);
                 pc_generation := rr_generation row;
                 pc_protocol_version := rr_minimum_protocol_version row |};
            match reply with
            | Some (Completed peer_grant possession_proof ack_challenge) =>
                finish_consent peer challenge peer_grant possession_proof ack_challenge
                  (rr_generation row) (rr_minimum_protocol_version row);;
                ret true
            | Some ConsentAlreadySaved => activate_saved peer;; ret true
            | Some ConsentRejected => ret false
            | None => ret true
            end
    end.

(** A handler step whose failure answers [rejected]. *)
Definition or_reject {A B} (m : IO A) (rejected : B) (k : A → IO B) : IO B :=
  r ← try (E:=VnidropError) m;
  match r with Ok a => k a | Err _ => ret rejected end.

(** A pending row that the same session asks for again: its generation moves up. *)
Definition raise_generation (peer : string) (row : RelationshipRow) (request : PairingRequest)
    (k : Z → IO PairingRequestResponse) : IO PairingRequestResponse :=
  let generation := Z.max (rr_generation row) (pr_generation request) in
  or_reject (in_devices (set_pending_generation peer (pr_session_id request) generation)) RequestRejected
    (λ raised, if raised : bool then k generation else ret RequestRejected).

(** The prompt for a peer that presents a valid capability. *)
Definition accept_request (peer : string) (request : PairingRequest) : IO PairingRequestResponse :=
  match secret_material_new (pr_capability request) with
  | Err _ => ret RequestRejected
  | Ok capability =>
      if negb (pr_protocol_version request =? relationship_protocol_version saved_device_capabilities)
      then ret RequestRejected
      else
        or_reject (validate_presented_capability protected peer (pr_session_id request) capability)
          RequestRejected (λ observation,
        match observation with
        | None => ret RequestRejected
        | Some entry =>
            or_reject (can_create_new_relationship peer) RequestRejected (λ room,
            if negb room then ret RequestRejected
            else or_reject (next_generation peer) RequestRejected (λ local_generation,
            let generation := Z.max (pr_generation request) local_generation in
            if negb (generation <=? I64_MAX) then ret RequestRejected
            else
              now ← now_ms;
              or_reject (in_devices (upsert
                {| ru_remote_endpoint_id := peer; ru_state := PendingIncoming;
                   ru_generation := generation;
                   ru_minimum_protocol_version := pr_protocol_version request;
                   ru_session_id := Some (pr_session_id request);
                   ru_remote_display_name := pe_remote_display_name entry;
                   ru_last_authenticated_at := Some now;
                   ru_issued_grant_handle := None; ru_held_grant_handle := None;
                   ru_issued_grant_id := None; ru_held_grant_id := None;
                   ru_peer_ack := false; ru_local_ack := false;
                   ru_created_at := now; ru_updated_at := now |}))
                RequestRejected (λ _, ret (AwaitingConsent generation))))
        end)
  end.

Definition handle_pairing_request (peer : string) (request : PairingRequest) :
    IO PairingRequestResponse :=
  barred ← is_blocked_or_unknown peer;
  if barred : bool then ret RequestRejected
  else if (pr_generation request =? 0) || negb (pr_generation request <=? I64_MAX)
  then ret RequestRejected
  else
    found ← try (E:=VnidropError) (find_row peer);
    match found with
    | Ok (Some existing) =>
        if bool_decide (rr_state existing = Saved) then ret RequestAlreadySaved
        else if row_in_session PendingIncoming (pr_session_id request) existing then
          raise_generation peer existing request (λ generation, ret (AwaitingConsent generation))
        else if row_in_session PendingOutgoing (pr_session_id request) existing then
          raise_generation peer existing request (λ generation,
            (if String.ltb local_endpoint_id peer then
               try (E:=VnidropError)
                 (complete_simultaneous_merge peer generation (rr_minimum_protocol_version existing));; ret tt
             else ret tt);;
            ret (Merged generation))
        else accept_request peer request
    | _ => accept_request peer request
    end.

Definition handle_pairing_consent (peer : string) (consent : PairingConsent) :
    IO PairingConsentResponse :=
  barred ← is_blocked_or_unknown peer;
  if barred : bool then ret ConsentRejected
  else
    or_reject (find_row peer) ConsentRejected (λ found,
    match found with
    | None => ret ConsentRejected
    | Some row =>
        if bool_decide (rr_state row = Saved) then ret ConsentAlreadySaved
        else if negb (bool_decide (rr_state row = PendingOutgoing)) then ret ConsentRejected
        else if (pc_protocol_version consent <? rr_minimum_protocol_version row) ||
                negb (pc_generation consent =? rr_generation row) then ret ConsentRejected
        else if negb (pc_accepted consent) then
          try (E:=VnidropError) (delete_relationship peer);; ret ConsentRejected
        else
          match pc_grant consent, pc_challenge consent with
          | Some peer_grant, Some challenge_hex =>
              match decode_challenge challenge_hex with
              | Err _ => ret ConsentRejected
              | Ok challenge =>
                  or_reject (store_held_grant peer peer_grant) ConsentRejected (λ _,
                  or_reject (mint_and_store_issued_grant peer (pc_generation consent)
                               (pc_protocol_version consent)) ConsentRejected (λ local_grant,
                  or_reject (prove_held_possession peer challenge (wg_generation peer_grant)
                               (wg_protocol_version peer_grant)) ConsentRejected (λ possession_proof,
                  ack_challenge ← random CHALLENGE_LEN;
                  or_reject (set_acks peer false false) ConsentRejected (λ _,
                  ret (Completed local_grant possession_proof (hexlower_encode ack_challenge))))))
              end
          | _, _ => ret ConsentRejected
          end
    end).

Definition handle_pairing_ack (peer : string) (ack : PairingAck) : IO PairingAckResponse :=
  barred ← is_blocked_or_unknown peer;
  if barred : bool then ret AckRejected
  else
    or_reject (find_row peer) AckRejected (λ found,
    match found with
    | None => ret AckRejected
    | Some row =>
        if bool_decide (rr_state row = Saved) then ret AckAlreadySaved
        else if negb (bool_decide (rr_state row = PendingOutgoing)) &&
                negb (bool_decide (rr_state row = PendingIncoming)) then ret AckRejected
        else
          match decode_challenge (pa_challenge ack) with
          | Err _ => ret AckRejected
          | Ok challenge =>
              or_reject (verify_issued_possession peer challenge (pa_possession_proof ack)
                           (pa_generation ack) (pa_protocol_version ack)) AckRejected (λ _,
              or_reject (set_acks peer true true) AckRejected (λ _,
              or_reject (activate_saved peer) AckRejected (λ _, ret Acknowledged)))
          end
    end).
End DeviceService.
