(* ===== verification/DevicesSpec.v ===== *)
(** * What pairing, proofs and revocation of saved devices guarantee

    Specifications of the steps of [Devices.v], the operations of the service as data, and
    the properties: who is authenticated and how, that revocation is final, and that
    honest sides accept each other. *)

From S2P Require Import Prelude Sql ControlPlane Errors States Api Access SecureSecret Relationship Pairing Devices.

(** ** What the steps do *)

Section Steps.
Context `{Env} `{ForeignText} `{Host} `{Blake3} {V : Type} `{SecureSecretStore V}
  `{!SecureSecretStoreLaws V} `{!Network V}.
Variable protected : bool.
Variable local_endpoint_id : string.
Variable max_saved_devices : Z.
Implicit Types (d : Domain V).

Lemma wp_select_devices {A} (f : DeviceTables → A) x n Q :
  (∀ e n', Q (Err e) x n') → (∀ n', Q (Ok (f x)) x n') → wp (select_devices f) x n Q.
Proof. intros He Ho. apply wp_sql; [auto|]. intros _ a x' [= <- <-]. apply Ho. Qed.

Lemma wp_update_relationships P f x n Q :
  (∀ e n', Q (Err e) x n') →
  (∀ n', Q (Ok (count_where P (relationships x)))
           (on_relationships (update_where P (λ _, f)) x) n') →
  wp (update_relationships P f) x n Q.
Proof. intros He Ho. apply wp_sql; [auto|]. intros _ a x' [= <- <-]. apply Ho. Qed.

Lemma wp_find_row peer d n Q :
  (∀ e n', Q (Err e) d n') →
  (∀ n', relationships (devices d) !! peer = None → Q (Ok None) d n') →
  (∀ r row n', relationships (devices d) !! peer = Some r →
     relationship_row_from_sql r = Ok row → Q (Ok (Some row)) d n') →
  wp (find_row peer) d n Q.
Proof.
  intros He Hn Hs. apply wp_in_devices, wp_bind, wp_select_devices; [intros; rewrite set_devices_id; auto|].
  intros n'. apply wp_of_result. rewrite set_devices_id.
  destruct (relationships (devices d) !! peer) as [r|] eqn:Er; simpl; [|by apply Hn].
  destruct (relationship_row_from_sql r) as [row|] eqn:Erow; simpl; [by eapply Hs | apply He].
Qed.

Lemma row_from_sql_Ok r row :
  relationship_row_from_sql r = Ok row →
  parse_relationship_state (d_state r) = Ok (rr_state row) ∧
  rr_generation row = as_u64 (d_generation r) ∧
  rr_minimum_protocol_version row = as_u16 (d_minimum_protocol_version r) ∧
  rr_session_id row = d_session_id r ∧
  rr_issued_grant_handle row = d_issued_grant_handle r ∧
  rr_held_grant_handle row = d_held_grant_handle r ∧
  rr_issued_grant_id row = d_issued_grant_id r ∧ rr_held_grant_id row = d_held_grant_id r.
Proof.
  unfold relationship_row_from_sql.
  destruct (parse_relationship_state (d_state r)) as [s|] eqn:E; [|done]. by intros [= <-].
Qed.

(** A generation passes only if it is the active one and was never revoked. *)
Lemma wp_reject_replayed peer generation d n Q :
  (∀ e n', Q (Err e) d n') →
  (∀ r row n', tombstones (devices d) !! (peer, as_i64 generation) = None →
     relationships (devices d) !! peer = Some r → relationship_row_from_sql r = Ok row →
     rr_generation row = generation → Q (Ok tt) d n') →
  wp (reject_replayed_generation peer generation) d n Q.
Proof.
  intros He Ho. apply wp_bind, wp_map_err, wp_in_devices, wp_select_devices;
    [intros; rewrite set_devices_id; apply He|].
  intros n1. rewrite set_devices_id. simpl.
  destruct (tombstones (devices d) !! (peer, as_i64 generation)) as [t|] eqn:Et; [apply wp_fail; auto|].
  apply wp_bind, wp_map_err, wp_find_row; [intros; apply He|intros; apply wp_fail; auto|].
  intros r row n2 Hr Hrow. simpl. destruct (rr_state row); try (apply wp_fail; by auto);
    (destruct (Z.eqb_spec (rr_generation row) generation); [by apply wp_ret; eapply Ho | apply wp_fail; by auto]).
Qed.

(** The peer has shown that it holds the secret of the grant issued to it in the active
    generation, which was never revoked: the MAC binds the challenge, both endpoints, the
    generation and the protocol version. *)
Definition possession_shown d (peer challenge : string) (proof : WireProof)
    (generation protocol_version : Z) : Prop :=
  tombstones (devices d) !! (peer, as_i64 generation) = None ∧
  ∃ r handle material,
    relationships (devices d) !! peer = Some r ∧ as_u64 (d_generation r) = generation ∧
    d_issued_grant_handle r = Some handle ∧ d_issued_grant_id r = Some (wp_grant_id proof) ∧
    contents (secret_store (vault d)) !! handle = Some material ∧
    hexlower_decode (wp_mac proof) =
      Some (relationship_mac (material_bytes material) challenge local_endpoint_id peer generation
              protocol_version).

Lemma wp_verify_issued peer challenge proof generation protocol_version d n Q :
  (∀ e w n', vault_shrinks (vault d) w → Q (Err e) (set_vault w d) n') →
  (∀ w n', vault_shrinks (vault d) w →
     possession_shown d peer challenge proof generation protocol_version →
     Q (Ok tt) (set_vault w d) n') →
  wp (verify_issued_possession protected local_endpoint_id peer challenge proof generation
        protocol_version) d n Q.
Proof.
  intros He Ho. assert (∀ e n', Q (Err e) d n') as He'.
  { intros e n'. rewrite <- (set_vault_id d). by apply He. }
  apply wp_bind, wp_map_err, wp_reject_replayed; [intros; apply He'|]. intros r row n1 Ht Hr Hrow Hgen.
  simpl. destruct protected; simpl; [|apply wp_fail; auto].
  apply wp_bind, wp_find_row; [done|intros; apply wp_fail; auto|].
  intros r' row' n2 Hr' Hrow'. assert (r' = r) as -> by congruence. assert (row' = row) as -> by congruence.
  apply row_from_sql_Ok in Hrow as (_ & Eg & _ & _ & Eh & _ & Ei & _).
  destruct (rr_issued_grant_handle row) as [handle|]; [|apply wp_fail; auto].
  destruct (rr_issued_grant_id row) as [expected|]; [|apply wp_fail; auto].
  destruct (str_eqb (wp_grant_id proof) expected) eqn:Eid; simpl; [|apply wp_fail; auto].
  apply str_eqb_eq in Eid as <-.
  apply wp_bind, wp_in_vault, wp_load; [intros; by apply He, vault_shrinks_store|].
  intros entry m v n3 Hv _ _ _ Hm _.
  assert (∀ e n', Q (Err e) (set_vault (set_store v (vault d)) d) n') as He''.
  { intros. by apply He, vault_shrinks_store. }
  apply wp_bind, wp_of_result. unfold secret_from_material.
  destruct (Nat.eqb _ GRANT_SECRET_LEN); [|apply He'']. apply wp_bind, wp_of_result.
  destruct (result_map_err _ _); [|apply He'']. destruct (hexlower_decode (wp_mac proof)) as [mac|] eqn:Emac;
    [|apply wp_fail; auto]. destruct (negb _); [apply wp_fail; auto|]. apply wp_of_result.
  unfold verify_relationship_grant. destruct (str_eqb _ mac) eqn:E; [|apply He''].
  apply str_eqb_eq in E as <-. apply Ho; [by apply vault_shrinks_store|].
  split; [done|]. exists r, handle, m. rewrite <- Eg. done.
Qed.

Lemma wp_saved_row peer d n Q :
  (∀ e n', Q (Err e) d n') →
  (∀ r row n', relationships (devices d) !! peer = Some r → relationship_row_from_sql r = Ok row →
     d_state r = "saved"%string → Q (Ok row) d n') →
  wp (saved_row peer) d n Q.
Proof.
  intros He Ho. apply wp_bind, wp_find_row; [done|intros; apply wp_fail; auto|].
  intros r row n1 Hr Hrow. pose proof Hrow as (Hs & _)%row_from_sql_Ok.
  destruct (rr_state row); try (apply wp_fail; by auto). apply wp_ret. eapply Ho; [done..|].
  by apply parse_relationship_state_Ok in Hs.
Qed.

Lemma wp_verify_saved peer challenge proof generation protocol_version d n Q :
  (∀ e w n', vault_shrinks (vault d) w → Q (Err e) (set_vault w d) n') →
  (∀ r w n', vault_shrinks (vault d) w →
     possession_shown d peer challenge proof generation protocol_version →
     relationships (devices d) !! peer = Some r → d_state r = "saved"%string →
     as_u16 (d_minimum_protocol_version r) ≤ protocol_version → Q (Ok tt) (set_vault w d) n') →
  wp (verify_saved_possession protected local_endpoint_id peer challenge proof generation
        protocol_version) d n Q.
Proof.
  intros He Ho. assert (∀ e n', Q (Err e) d n') as He'.
  { intros e n'. rewrite <- (set_vault_id d). by apply He. }
  apply wp_bind, wp_saved_row; [done|]. intros r row n1 Hr Hrow Hst.
  apply row_from_sql_Ok in Hrow as (_ & _ & Ev & _).
  destruct (negb _); [by apply wp_fail|].
  destruct (Z.ltb_spec protocol_version (rr_minimum_protocol_version row)); [by apply wp_fail|].
  apply wp_verify_issued; [done|]. intros w n2 Hw Hshown. apply (Ho r); try done. by rewrite <- Ev.
Qed.

(** C1: a saved peer is authenticated only by proof of possession. When
    [verify_saved_possession] succeeds, the peer is saved, the generation is its active one
    and was never revoked, the protocol is not below the recorded floor, and the proof names
    the issued grant and carries the MAC of exactly this challenge, pair of endpoints,
    generation and protocol version under the secret in custody. Verification changes
    nothing but the credential store's own state. *)
Theorem verify_saved_sound peer challenge proof generation protocol_version d n :
  wp (verify_saved_possession protected local_endpoint_id peer challenge proof generation
        protocol_version) d n (λ res d' _,
    (∃ w, vault_shrinks (vault d) w ∧ d' = set_vault w d) ∧
    (res = Ok tt →
      possession_shown d peer challenge proof generation protocol_version ∧
      ∃ r, relationships (devices d) !! peer = Some r ∧ d_state r = "saved"%string ∧
           as_u16 (d_minimum_protocol_version r) ≤ protocol_version)).
Proof.
  apply wp_verify_saved; [intros e w n' Hw; split; [by exists w | done]|].
  intros r w n' Hw Hshown Hr Hst Hv. split; [by exists w|]. intros _. split; [done|]. by exists r.
Qed.

(** *** Tombstones are for ever *)

Definition keeps_tombstones (x x' : DeviceTables) : Prop :=
  ∀ k, is_Some (tombstones x !! k) → is_Some (tombstones x' !! k).

#[global] Instance keeps_tombstones_preorder : PreOrder keeps_tombstones.
Proof. split; [by intros x k|]. intros x y z Hxy Hyz k Hk. by apply Hyz, Hxy. Qed.

Definition tombstones_kept d d' : Prop := keeps_tombstones (devices d) (devices d').

#[global] Instance tombstones_kept_preorder : PreOrder tombstones_kept.
Proof. split; [by intros d k|]. intros x y z Hxy Hyz k Hk. by apply Hyz, Hxy. Qed.

Abbreviation keeps := (within tombstones_kept).

Lemma keeps_devices {A} (m : M DeviceTables VnidropError A) :
  within keeps_tombstones m → keeps (in_devices m).
Proof. intros Hm. by apply (within_zoom devices set_devices keeps_tombstones). Qed.

Lemma keeps_vault {A} (m : M (Vault V) VnidropError A) : keeps (in_vault m).
Proof. intros d n. apply wp_in_vault_any. intros r w n'. by intros k. Qed.

Lemma keeps_shrunk {A} (m : M (Domain V) VnidropError A) :
  (∀ d n, wp m d n (λ _ d' _, shrunk d d')) → keeps m.
Proof. intros Hm d n. eapply wp_mono; [apply Hm|]. intros r d' n' (E & _) k. by rewrite E. Qed.

(** A write to the rows, and the two that write tombstones. *)
Lemma keeps_rows {A} (f : DeviceTables → result (A * DeviceTables) SqlxError) :
  (∀ x a x', f x = Ok (a, x') → keeps_tombstones x x') → within keeps_tombstones (sql f).
Proof. apply within_sql, _. Qed.

Ltac keeps_store :=
  apply keeps_devices;
  unfold count_active_slots, list_reconcile_rows, list_relationships, set_saved_device_label_row,
    set_issued_grant, set_held_grant, set_acks_row, set_relationship_state, list_expired_pending_peers,
    delete_relationship_row, find_relationship_row, generation_floor, set_pending_generation, upsert,
    begin_grant_rotation, find_tombstone, update_relationships, select_devices;
  repeat first [ apply keeps_rows; let x := fresh in let a := fresh in let x' := fresh in
                 let E := fresh in intros x a x' E; injection E as <- <-; by intros k
               | store_step ].

Lemma keeps_insert_tombstone peer row : keeps (in_devices (insert_tombstone peer row)).
Proof.
  apply keeps_devices. apply within_bind; [apply _|by apply within_now_ms, _|]. intros now.
  apply keeps_rows. intros x [] x' [= <-] k Hk. simpl. unfold upsert_where.
  destruct (tombstones x !! (peer, as_i64 (rr_generation row))) eqn:E; simpl;
    (destruct (decide ((peer, as_i64 (rr_generation row)) = k)) as [<-|Hne];
     [rewrite lookup_insert_eq; by eexists | by rewrite lookup_insert_ne]).
Qed.

Lemma keeps_find_row peer : keeps (find_row peer).
Proof. unfold find_row. keeps_store. Qed.

Lemma keeps_try_remove h : keeps (try_remove_secret h).
Proof.
  unfold try_remove_secret. apply within_bind; [apply _|apply within_try, keeps_vault|].
  intros _. by apply within_ret, _.
Qed.

Lemma keeps_remove_for_peer peer : keeps (remove_for_peer protected peer).
Proof.
  apply keeps_shrunk. intros d n. apply wp_remove_for_peer; [done|]. by intros d' n' Hs _.
Qed.

Lemma keeps_consume_session peer session_id : keeps (consume_session protected peer session_id).
Proof.
  apply keeps_shrunk. intros d n. apply wp_bind, wp_find_by_session; [by intros|by intros; apply wp_ret|].
  intros r n1 _. case_match; [|by apply wp_ret].
  apply wp_delete_entry_silent; [by intros|]. intros w n2 Hw.
  eapply (shrunk_deleted d d); [reflexivity | done].
Qed.

Lemma keeps_take_eligibility peer : keeps (take_eligibility protected peer).
Proof.
  apply keeps_shrunk. intros d n. eapply wp_mono; [apply wp_take_eligibility|]. by intros r d' n' [Hs _].
Qed.

Lemma keeps_validate_presented peer session_id capability :
  keeps (validate_presented_capability protected peer session_id capability).
Proof.
  apply keeps_shrunk. intros d n. apply wp_validate_presented; [done..|]. by intros r d' n' [Hs _].
Qed.

Lemma keeps_random len : keeps (random len).
Proof. intros d n. by intros k. Qed.

Lemma keeps_peer_addr peer : keeps (peer_addr peer).
Proof. intros d n. unfold wp, peer_addr. destruct (peer_addr_error n peer); by intros k. Qed.

Lemma keeps_is_blocked peer : keeps (is_blocked_or_unknown peer).
Proof.
  unfold is_blocked_or_unknown. apply within_bind; [apply _| |by intros r; apply within_ret, _].
  apply within_try. intros d n. apply wp_zoom. unfold wp. destruct (is_blocked peer (blocked d) n) as [[??]?]. by intros k.
Qed.

Hypothesis meanwhile_keeps : ∀ n d, tombstones_kept d (meanwhile n d).

Lemma keeps_rpc {Q R} (reply : nat → string → Q → option R) peer message : keeps (rpc reply peer message).
Proof. intros d n. apply meanwhile_keeps. Qed.

(** Decompose a handler down to its leaves. *)
Ltac keeps_steps := repeat first
  [ apply keeps_find_row | apply keeps_vault | apply keeps_insert_tombstone | apply keeps_try_remove
  | apply keeps_remove_for_peer | apply keeps_consume_session | apply keeps_take_eligibility
  | apply keeps_validate_presented | apply keeps_random | apply keeps_peer_addr | apply keeps_is_blocked
  | apply keeps_rpc | (keeps_store; fail) | within_step ].

Lemma keeps_delete_relationship peer : keeps (delete_relationship protected peer).
Proof. unfold delete_relationship. keeps_steps. Qed.

Lemma keeps_mint peer g v : keeps (mint_and_store_issued_grant protected local_endpoint_id peer g v).
Proof. unfold mint_and_store_issued_grant. keeps_steps. Qed.

Lemma keeps_store_held peer grant : keeps (store_held_grant protected local_endpoint_id peer grant).
Proof. unfold store_held_grant. keeps_steps. Qed.

Lemma keeps_reject_replayed peer g : within tombstones_kept (reject_replayed_generation peer g).
Proof.
  unfold reject_replayed_generation, find_tombstone, select_devices. keeps_steps.
Qed.

Lemma keeps_verify_issued peer challenge proof g v :
  keeps (verify_issued_possession protected local_endpoint_id peer challenge proof g v).
Proof.
  unfold verify_issued_possession.
  apply within_bind; [apply _|apply within_map_err, keeps_reject_replayed|]. intros _. keeps_steps.
Qed.

Lemma keeps_prove_held peer challenge g v :
  keeps (prove_held_possession protected local_endpoint_id peer challenge g v).
Proof. unfold prove_held_possession. keeps_steps. Qed.

Ltac keeps_more := repeat first
  [ apply keeps_delete_relationship | apply keeps_mint | apply keeps_store_held | apply keeps_verify_issued
  | apply keeps_prove_held
  | apply keeps_find_row | apply keeps_vault | apply keeps_insert_tombstone | apply keeps_try_remove
  | apply keeps_remove_for_peer | apply keeps_consume_session | apply keeps_take_eligibility
  | apply keeps_validate_presented | apply keeps_random | apply keeps_peer_addr | apply keeps_is_blocked
  | apply keeps_rpc | (keeps_store; fail) | within_step ].

Lemma keeps_finish_consent peer challenge grant proof ack g v :
  keeps (finish_consent protected local_endpoint_id peer challenge grant proof ack g v).
Proof. unfold finish_consent, set_acks, activate_saved. keeps_more. Qed.

Lemma keeps_merge peer g v :
  keeps (complete_simultaneous_merge protected local_endpoint_id peer g v).
Proof.
  unfold complete_simultaneous_merge, activate_saved.
  repeat first [ apply keeps_finish_consent | progress keeps_more ].
Qed.

(** The handlers and commands of the service, as data. *)
Inductive DeviceOp : Type :=
| OpForget (peer : string)
| OpRevokeForBlock (peer : string)
| OpRotate (peer : string)
| OpRemoteRevoke (peer : string) (generation : Z)
| OpRequestPairing (peer : string)
| OpRespond (peer : string) (accepted : bool)
| OpPairingRequest (peer : string) (request : PairingRequest)
| OpPairingConsent (peer : string) (consent : PairingConsent)
| OpPairingAck (peer : string) (ack : PairingAck)
| OpSetLabel (peer : string) (label : option string)
| OpListDevices
| OpReconcileDevices
| OpProve (peer challenge : string)
| OpVerify (peer challenge : string) (proof : WireProof) (generation protocol_version : Z).

Definition exec_device (op : DeviceOp) : M (Domain V) VnidropError unit :=
  match op with
  | OpForget peer => forget protected peer;; ret tt
  | OpRevokeForBlock peer => revoke_for_block protected peer;; ret tt
  | OpRotate peer => rotate_relationship_grant protected local_endpoint_id peer;; ret tt
  | OpRemoteRevoke peer g => handle_remote_revoke protected peer g;; ret tt
  | OpRequestPairing peer =>
      request_pairing protected local_endpoint_id max_saved_devices peer;; ret tt
  | OpRespond peer accepted => respond_to_pairing protected local_endpoint_id peer accepted;; ret tt
  | OpPairingRequest peer request =>
      handle_pairing_request protected local_endpoint_id max_saved_devices peer request;; ret tt
  | OpPairingConsent peer consent =>
      handle_pairing_consent protected local_endpoint_id peer consent;; ret tt
  | OpPairingAck peer ack => handle_pairing_ack protected local_endpoint_id peer ack;; ret tt
  | OpSetLabel peer label => set_saved_device_label peer label
  | OpListDevices => list_devices protected;; ret tt
  | OpReconcileDevices => reconcile_devices protected
  | OpProve peer challenge => prove_saved_possession protected local_endpoint_id peer challenge;; ret tt
  | OpVerify peer challenge proof g v =>
      verify_saved_possession protected local_endpoint_id peer challenge proof g v
  end.

Definition run_devices (ops : list DeviceOp) : M (Domain V) VnidropError unit :=
  for_each ops (λ op, try (E:=VnidropError) (exec_device op);; ret tt).

Ltac keeps_all := repeat first
  [ apply keeps_merge | apply keeps_finish_consent | apply keeps_delete_relationship | apply keeps_mint
  | apply keeps_store_held | apply keeps_verify_issued | apply keeps_prove_held
  | apply keeps_find_row | apply keeps_vault | apply keeps_insert_tombstone | apply keeps_try_remove
  | apply keeps_remove_for_peer | apply keeps_consume_session | apply keeps_take_eligibility
  | apply keeps_validate_presented | apply keeps_random | apply keeps_peer_addr | apply keeps_is_blocked
  | apply keeps_rpc | (keeps_store; fail)
  | match goal with |- within _ (let _ := _ in _) => cbv zeta end | within_step ].

Lemma keeps_exec_device op : keeps (exec_device op).
Proof.
  destruct op; simpl;
    unfold forget, revoke_for_block, rotate_relationship_grant, handle_remote_revoke, request_pairing,
      request_over_network, respond_to_pairing, handle_pairing_request, handle_pairing_consent,
      handle_pairing_ack, set_saved_device_label, list_devices, reconcile_devices,
      prove_saved_possession, verify_saved_possession, or_reject, raise_generation, accept_request,
      consume_row_session, clear_grant_secrets, tombstone_generation, expire_pending, saved_row,
      can_create_new_relationship, relationship_slots_used, next_generation, adopt_pending_generation,
      set_acks, activate_saved, reconcile_device.
  all: keeps_all.
Qed.

Lemma keeps_run_devices ops : keeps (run_devices ops).
Proof.
  apply within_for_each; [apply _|]. intros op.
  apply within_bind; [apply _|apply within_try, keeps_exec_device|]. intros _. by apply within_ret, _.
Qed.
(** *** Revocation *)

Lemma wp_insert_tombstone peer row d n Q :
  (∀ e n', Q (Err e) d n') →
  (∀ x n', relationships x = relationships (devices d) →
     is_Some (tombstones x !! (peer, as_i64 (rr_generation row))) →
     (∀ k, k ≠ (peer, as_i64 (rr_generation row)) → tombstones x !! k = tombstones (devices d) !! k) →
     Q (Ok tt) (set_devices x d) n') →
  wp (in_devices (insert_tombstone peer row)) d n Q.
Proof.
  intros He Ho. apply wp_in_devices, wp_bind, wp_now_ms, wp_sql;
    [intros; rewrite set_devices_id; apply He|].
  intros _ [] x' [= <-]. apply Ho; simpl; [done|..]; unfold upsert_where;
    destruct (tombstones (devices d) !! (peer, as_i64 (rr_generation row))); simpl;
    first [ by rewrite lookup_insert_eq; eexists | intros k Hk; by rewrite lookup_insert_ne ].
Qed.

Lemma wp_delete_relationship peer d n Q :
  (∀ e w n', vault_shrinks (vault d) w → Q (Err e) (set_vault w d) n') →
  (∀ w n', vault_shrinks (vault d) w →
     Q (Ok tt) (set_devices (on_relationships (delete peer) (devices d)) (set_vault w d)) n') →
  wp (delete_relationship protected peer) d n Q.
Proof.
  intros He Ho.
  assert (∀ w n', vault_shrinks (vault d) w →
    wp (in_devices (delete_relationship_row peer)) (set_vault w d) n' Q) as Hd.
  { intros w n' Hw. apply wp_in_devices, wp_sql; [intros e; rewrite set_devices_id; by apply He|].
    intros _ [] x' [= <-]. unfold on_relationships, is_peer. rewrite delete_where_str. by apply Ho. }
  assert (∀ n', wp (in_devices (delete_relationship_row peer)) d n' Q) as Hd0.
  { intros n'. rewrite <- (set_vault_id d) at 1. by apply Hd. }
  apply wp_bind, wp_try, wp_find_row; [by intros; apply wp_bind, wp_ret..|].
  intros r row n1 _ _. apply wp_bind. destruct protected; [|by apply wp_ret].
  apply (wp_for_each (λ _ d', ∃ w, d' = set_vault w d ∧ vault_shrinks (vault d) w)).
  - exists (vault d). by rewrite set_vault_id.
  - intros h todo d' n2 (w & -> & Hw). apply wp_try_remove_secret. intros w' n3 Hw'.
    exists w'. split; [done|]. simpl in Hw'. by etrans.
  - intros d' n2 (w & -> & Hw). by apply Hd.
Qed.

(** What [forget] reports and leaves. *)
Definition forgotten (peer : string) d (out : ForgetOutcome) d' : Prop :=
    relationships (devices d') = delete peer (relationships (devices d)) ∧
    eligibilities d' = delete_where (λ _ r, str_eqb (g_peer_endpoint_id r) peer) (eligibilities d) ∧
    blocked d' = blocked d ∧
    (∀ k, k.1 ≠ peer → tombstones (devices d') !! k = tombstones (devices d) !! k) ∧
    match relationships (devices d) !! peer with
    | None => fo_had_relationship out = false ∧ fo_generation out = None ∧ fo_issued_grant_id out = None
    | Some r =>
        fo_had_relationship out = true ∧ fo_generation out = Some (as_u64 (d_generation r)) ∧
        fo_issued_grant_id out = d_issued_grant_id r ∧
        is_Some (tombstones (devices d') !! (peer, as_i64 (as_u64 (d_generation r))))
    end.

Lemma wp_forget peer d n :
  wp (forget protected peer) d n (λ res d' _, ∀ out, res = Ok out → forgotten peer d out d').
Proof.
  unfold forgotten.
  apply wp_bind, wp_find_row; [done|..].
  - intros n1 Hr. apply wp_bind, wp_remove_for_peer; [done|]. intros d' n2 (E & B & _) Hel.
    apply wp_ret. intros out [= <-]. rewrite E, Hr. split; [by rewrite delete_id|]. done.
  - intros r row n1 Hr Hrow. apply row_from_sql_Ok in Hrow as (_ & Eg & _ & _ & _ & _ & Ei & _).
    apply wp_bind, wp_insert_tombstone; [done|]. intros x n2 Hrel Ht Hother.
    apply wp_bind, wp_delete_relationship; [done|]. intros w n3 Hw.
    apply wp_bind, wp_remove_for_peer; [done|]. intros d' n4 (E & B & _) Hel.
    apply wp_ret. intros out [= <-]. rewrite E, Hr. simpl in *. rewrite Hrel, Eg in *.
    split; [done|]. split; [done|]. split; [done|]. split; [|done].
    intros [p g] Hp. apply Hother. intros [= -> ->]. done.
Qed.

Lemma wp_revoke_for_block peer d n :
  wp (revoke_for_block protected peer) d n (λ res d' _, ∀ out, res = Ok out →
    relationships (devices d') = delete peer (relationships (devices d)) ∧ blocked d' = blocked d).
Proof.
  apply wp_bind, wp_find_row; [done|..].
  - intros n1 Hr. apply wp_bind, wp_ret, wp_bind, wp_remove_for_peer; [done|]. intros d' n2 (E & B & _) Hel.
    apply wp_ret. intros out _. rewrite E. by rewrite delete_id.
  - intros r row n1 Hr _. apply wp_bind, wp_bind, wp_insert_tombstone; [done|]. intros x n2 Hrel _ _.
    apply wp_delete_relationship; [done|]. intros w n3 _.
    apply wp_bind, wp_remove_for_peer; [done|]. intros d' n4 (E & B & _) Hel.
    apply wp_ret. intros out _. rewrite E. simpl in *. by rewrite Hrel.
Qed.

(** Forgetting a device is complete and local. When it succeeds there is no
    relationship with the peer and no eligibility of the peer left, the generation it had is
    tombstoned, no other peer's rows changed, and the outcome reports what was revoked. *)
Theorem forget_exact peer d n :
  wp (forget protected peer) d n (λ res d' _, ∀ out, res = Ok out →
    relationships (devices d') = delete peer (relationships (devices d)) ∧
    eligibilities d' = delete_where (λ _ r, str_eqb (g_peer_endpoint_id r) peer) (eligibilities d) ∧
    blocked d' = blocked d ∧
    (∀ k, k.1 ≠ peer → tombstones (devices d') !! k = tombstones (devices d) !! k) ∧
    match relationships (devices d) !! peer with
    | None => fo_had_relationship out = false ∧ fo_generation out = None ∧ fo_issued_grant_id out = None
    | Some r =>
        fo_had_relationship out = true ∧ fo_generation out = Some (as_u64 (d_generation r)) ∧
        fo_issued_grant_id out = d_issued_grant_id r ∧
        is_Some (tombstones (devices d') !! (peer, as_i64 (as_u64 (d_generation r))))
    end).
Proof. apply wp_forget. Qed.

Inductive Revocation : Type := ByForget | ByBlock | ByRotation.

Definition exec_revocation (how : Revocation) (peer : string) : M (Domain V) VnidropError unit :=
  match how with
  | ByForget => exec_device (OpForget peer)
  | ByBlock => exec_device (OpRevokeForBlock peer)
  | ByRotation => exec_device (OpRotate peer)
  end.

(** A tombstone written first survives whatever the rest of the operation does. *)
Lemma wp_tombstone_then {A} peer row (rest : M (Domain V) VnidropError A) d n :
  keeps rest →
  wp (tombstone_generation peer row;; rest) d n (λ res d' _, ∀ a, res = Ok a →
    is_Some (tombstones (devices d') !! (peer, as_i64 (rr_generation row)))).
Proof.
  intros Hk. apply wp_bind, wp_insert_tombstone; [done|]. intros x n1 _ Ht _.
  eapply wp_mono; [apply Hk|]. intros res d' n2 Hkept a _. by apply Hkept.
Qed.

Lemma wp_kept {A} (m : M (Domain V) VnidropError A) k d n :
  keeps m → is_Some (tombstones (devices d) !! k) →
  wp m d n (λ _ d' _, is_Some (tombstones (devices d') !! k)).
Proof. intros Hm Hk. eapply wp_mono; [apply Hm|]. intros res d' n' Hkept. by apply Hkept. Qed.

Lemma revocation_tombstones how peer r d n :
  relationships (devices d) !! peer = Some r →
  wp (exec_revocation how peer) d n (λ res d' _, res = Ok tt →
    is_Some (tombstones (devices d') !! (peer, as_i64 (as_u64 (d_generation r))))).
Proof.
  intros Hr. destruct how; apply wp_bind, wp_bind, wp_find_row; try done; try congruence;
    intros r' row n1 Hr' Hrow; (assert (r' = r) as -> by congruence);
    apply row_from_sql_Ok in Hrow as (_ & Eg & _); rewrite <- Eg.
  - eapply wp_mono; [apply wp_tombstone_then|].
    { keeps_all. }
    intros [out|e] d1 n2 Ht; [|done]. apply wp_ret. intros _. by eapply Ht.
  - apply wp_bind. eapply wp_mono; [apply wp_tombstone_then; keeps_all|].
    intros [[]|e] d1 n2 Ht; [|done]. eapply wp_mono; [apply wp_kept; [keeps_all|by eapply Ht]|].
    intros [out|e] d2 n3 Hk; [|done]. apply wp_ret. by intros _.
  - destruct (rr_state row); try done.
    eapply wp_mono; [apply wp_tombstone_then|].
    { unfold clear_grant_secrets. keeps_all. }
    intros [out|e] d1 n2 Ht; [|done]. apply wp_ret. intros _. by eapply Ht.
Qed.
End Steps.

Section Properties.
Context `{Env} `{ForeignText} `{Host} `{Blake3} {V : Type} `{SecureSecretStore V}
  `{!SecureSecretStoreLaws V} `{!Network V}.
Variable protected : bool.
Variable local_endpoint_id : string.
Variable max_saved_devices : Z.
Implicit Types (d : Domain V).

Abbreviation revoke how peer := (exec_revocation protected local_endpoint_id max_saved_devices how peer).
Abbreviation run ops := (run_devices protected local_endpoint_id max_saved_devices ops).
Abbreviation verify := (verify_saved_possession protected local_endpoint_id).

Lemma verify_revoked peer challenge proof generation protocol_version d n :
  is_Some (tombstones (devices d) !! (peer, as_i64 generation)) →
  wp (verify peer challenge proof generation protocol_version) d n (λ res _ _, res ≠ Ok tt).
Proof.
  intros [t Ht]. apply wp_bind, wp_saved_row; [done|]. intros r row n1 _ _ _.
  destruct (negb _); [done|]. case_match; [done|]. apply wp_verify_issued; [done|].
  intros w n2 _ [Hnone _]. congruence.
Qed.

Section Rely.
Hypothesis meanwhile_keeps : ∀ n d, tombstones_kept d (meanwhile n d).

(** C2: a revoked generation never authenticates again. After forgetting,
    blocking or rotating has succeeded, no sequence of pairing messages, local commands,
    restarts and failures makes a proof for the revoked generation verify, whatever the
    proof. *)
Theorem revocation_is_final how peer r ops challenge proof protocol_version d n
  (Hrow : relationships (devices d) !! peer = Some r) :
  wp (revoke how peer) d n (λ res d1 n1, res = Ok tt →
    wp (run ops) d1 n1 (λ _ d2 n2,
      wp (verify peer challenge proof (as_u64 (d_generation r)) protocol_version) d2 n2
        (λ res' _ _, res' ≠ Ok tt))).
Proof.
  eapply wp_mono; [by apply revocation_tombstones|]. intros res d1 n1 Ht Hok.
  eapply wp_mono; [by apply keeps_run_devices|]. intros res1 d2 n2 Hkept.
  by apply verify_revoked, Hkept, Ht.
Qed.
End Rely.

(** *** The last message of pairing *)

Lemma wp_is_blocked peer d n Q :
  (∀ n', Q (Ok true) d n') → (∀ n', blocked d !! peer = None → Q (Ok false) d n') →
  wp (is_blocked_or_unknown peer) d n Q.
Proof.
  intros Ht Hf. assert (∀ b n', (b = false → blocked d !! peer = None) → Q (Ok b) d n') as Hb.
  { intros [] n' Hn; [apply Ht | by apply Hf, Hn]. }
  assert (set_blocked (blocked d) d = d) as Eid by (by destruct d).
  apply wp_bind, wp_try, wp_zoom, wp_asql; [intros; rewrite Eid; by apply wp_ret, Hb|].
  intros _ b t [= <- <-]. rewrite Eid. apply wp_ret, Hb. intros E.
  destruct (blocked d !! peer) as [at_|] eqn:Eb; [|done].
  assert (exists_where (λ k (_ : Z), str_eqb k peer) (blocked d) = true) as Htrue; [|congruence].
  apply exists_where_true. exists peer, at_. split; [done | apply str_eqb_refl].
Qed.

Lemma wp_set_acks peer local_ack peer_ack d n Q :
  (∀ e n', Q (Err e) d n') →
  (∀ x n', (∀ p r', relationships x !! p = Some r' → ∃ r, relationships (devices d) !! p = Some r ∧
              d_state r' = d_state r ∧ (p ≠ peer → r' = r)) → Q (Ok tt) (set_devices x d) n') →
  wp (set_acks peer local_ack peer_ack) d n Q.
Proof.
  intros He Ho. apply wp_in_devices, wp_bind, wp_now_ms.
  apply wp_bind, wp_update_relationships; [intros; rewrite set_devices_id; auto|].
  intros n'. apply wp_ret, Ho. intros p r'. simpl. rewrite lookup_update_where.
  destruct (relationships (devices d) !! p) as [r|]; simpl; [|done]. intros [= <-]. exists r.
  split; [done|]. unfold is_peer. destruct (str_eqb p peer) eqn:E; [|done].
  apply str_eqb_eq in E. done.
Qed.

Lemma wp_activate_saved peer d n Q :
  (∀ e n', Q (Err e) d n') →
  (∀ x n', (∀ p r', relationships x !! p = Some r' → ∃ r, relationships (devices d) !! p = Some r ∧
              (p ≠ peer → r' = r) ∧ (p = peer → d_state r' = "saved"%string)) →
           Q (Ok tt) (set_devices x d) n') →
  wp (activate_saved peer) d n Q.
Proof.
  intros He Ho. apply wp_in_devices, wp_bind, wp_now_ms.
  apply wp_bind, wp_update_relationships; [intros; rewrite set_devices_id; auto|].
  intros n'. apply wp_ret, Ho. intros p r'. simpl. rewrite lookup_update_where.
  destruct (relationships (devices d) !! p) as [r|]; simpl; [|done]. intros [= <-]. exists r.
  split; [done|]. unfold is_peer. destruct (str_eqb p peer) eqn:E; [apply str_eqb_eq in E; done|].
  split; [done|]. intros ->. by rewrite str_eqb_refl in E.
Qed.

Definition saved_in d (peer : string) : Prop :=
  ∃ r, relationships (devices d) !! peer = Some r ∧ d_state r = "saved"%string.

(** An inbound acknowledgement saves a device only if the peer proves that it
    holds the grant it was issued. If a relationship is saved after [handle_pairing_ack] it
    was saved before, or it is this peer's, the peer is not blocked, and the acknowledgement
    carried a valid proof of possession in a generation that was never revoked. *)
Theorem pairing_ack_saves_only_proven peer ack d n :
  wp (handle_pairing_ack protected local_endpoint_id peer ack) d n (λ res d' _, ∀ p,
    saved_in d' p → saved_in d p ∨
      (p = peer ∧ blocked d !! peer = None ∧
       ∃ challenge, decode_challenge (pa_challenge ack) = Ok challenge ∧
         possession_shown local_endpoint_id d peer challenge (pa_possession_proof ack)
           (pa_generation ack) (pa_protocol_version ack))).
Proof.
  apply wp_bind, wp_is_blocked; [intros; apply wp_ret; by left|]. intros n1 Hblocked.
  apply wp_bind, wp_try, wp_find_row; [intros; apply wp_ret; by left..|].
  intros r row n2 Hr Hrow. case_bool_decide; [apply wp_ret; by left|].
  destruct (_ && _); [apply wp_ret; by left|].
  destruct (decode_challenge (pa_challenge ack)) as [challenge|] eqn:Ec; [|apply wp_ret; by left].
  apply wp_bind, wp_try, wp_verify_issued; [intros; apply wp_ret; by left|].
  intros w n3 Hw Hshown.
  assert (∀ d' p, saved_in d' p → (p ≠ peer → saved_in d p) → saved_in d p ∨
      (p = peer ∧ blocked d !! peer = None ∧
       ∃ challenge, decode_challenge (pa_challenge ack) = Ok challenge ∧
         possession_shown local_endpoint_id d peer challenge (pa_possession_proof ack)
           (pa_generation ack) (pa_protocol_version ack))) as Hgoal.
  { intros d' p _ Hp. destruct (decide (p = peer)) as [->|Hne]; [|by left; apply Hp].
    right. split; [done|]. split; [done|]. by exists challenge. }
  rewrite Ec in Hgoal.
  apply wp_bind, wp_try, wp_set_acks; [intros; apply wp_ret; by left|]. intros x n4 Hx.
  assert (∀ p, saved_in (set_devices x (set_vault w d)) p → saved_in d p) as Hacks.
  { intros p (r' & Hr' & Hs). destruct (Hx p r' Hr') as (r0 & Hr0 & Hst & _). exists r0. by rewrite <- Hst. }
  apply wp_bind, wp_try, wp_activate_saved; [intros; apply wp_ret; left; by apply Hacks|].
  intros x' n5 Hx'. apply wp_ret. intros p Hp. apply (Hgoal _ _ Hp). intros Hne.
  destruct Hp as (r' & Hr' & Hs). destruct (Hx' p r' Hr') as (r0 & Hr0 & Hsame & _).
  rewrite (Hsame Hne) in Hs. apply Hacks. by exists r0.
Qed.
End Properties.

(** *** The MAC binds every field *)

(** The MAC input is injective. For challenges of the fixed length, two
    inputs are equal only if challenge, issuer, holder, generation and protocol version are
    all equal, whatever bytes the endpoint ids contain. *)
Theorem mac_input_injective c i h g v c' i' h' g' v'
  (Hc : String.length c = CHALLENGE_LEN) (Hc' : String.length c' = CHALLENGE_LEN)
  (Hi : is_u64 (str_len i)) (Hi' : is_u64 (str_len i')) (Hh : is_u64 (str_len h)) (Hh' : is_u64 (str_len h'))
  (Hg : is_u64 g) (Hg' : is_u64 g') (Hv : 0 ≤ v < 2 ^ 16) (Hv' : 0 ≤ v' < 2 ^ 16)
  (E : mac_input c i h g v = mac_input c' i' h' g' v') :
  c = c' ∧ i = i' ∧ h = h' ∧ g = g' ∧ v = v'.
Proof.
  unfold mac_input in E. apply str_app_inj_len in E as [_ E]; [|done].
  apply str_app_inj_len in E as [-> E]; [|congruence].
  apply u64_le_app_inj in E as [Ei E]; [|done..].
  apply str_app_inj_len in E as [-> E]; [|unfold str_len in Ei; lia].
  apply u64_le_app_inj in E as [Eh E]; [|done..].
  apply str_app_inj_len in E as [-> E]; [|unfold str_len in Eh; lia].
  apply u64_le_app_inj in E as [-> E]; [|done..].
  by apply u16_le_inj in E as ->.
Qed.

(** ** Honest sides accept each other *)

Section Honest.
Context `{Env} `{ForeignText} `{Host} `{Blake3} {V : Type} `{SecureSecretStore V} `{!Network V}.
Implicit Types (d : Domain V).

(** An active secret of the right kind, under a store that answers. *)
Definition in_custody (w : Vault V) (handle secret : string) : Prop :=
  ∃ r, secret_refs w !! handle = Some r ∧ rf_kind r = kind_as_str RelationshipGrant ∧
       rf_state r = "active"%string ∧
       (get_secret handle (secret_store w)).1 = Returned (Ok {| material_bytes := secret |}).

(** What [mint_and_store_issued_grant] and [store_held_grant] leave at the two sides of a
    relationship in generation [g] once both have activated it. *)
Definition grant_issued d (holder : string) (g v : Z) (id secret : string) : Prop :=
  tombstones (devices d) !! (holder, as_i64 g) = None ∧
  ∃ r handle, relationships (devices d) !! holder = Some r ∧ d_state r = "saved"%string ∧
    as_u64 (d_generation r) = g ∧ as_u16 (d_minimum_protocol_version r) ≤ v ∧
    d_issued_grant_handle r = Some handle ∧ d_issued_grant_id r = Some (hexlower_encode id) ∧
    in_custody (vault d) handle secret.

Definition grant_held d (issuer : string) (g v : Z) (id secret : string) : Prop :=
  ∃ r handle, relationships (devices d) !! issuer = Some r ∧ d_state r = "saved"%string ∧
    as_u64 (d_generation r) = g ∧ as_u16 (d_minimum_protocol_version r) = v ∧
    d_held_grant_handle r = Some handle ∧ d_held_grant_id r = Some (hexlower_encode id) ∧
    in_custody (vault d) handle secret.

Section Faultless.
Hypothesis no_faults : ∀ n, io_fault n = None.
Hypothesis hex_roundtrip : ∀ b, hexlower_decode (hexlower_encode b) = Some b.
Hypothesis hash_length : ∀ k m, String.length (keyed_hash k m) = PROOF_LEN.

Lemma load_in_custody handle secret w n :
  in_custody w handle secret →
  ∃ v, load handle w n = (Ok {| material_bytes := secret |}, set_store v w, S n).
Proof.
  intros ([k s i c u] & Hr & Hk & Hs & Hget). simpl in Hk, Hs. subst k s. exists (get_secret handle (secret_store w)).2.
  unfold load, find_metadata, select_refs, sql, store_get, store_get_raw, spawn_blocking, stmt,
    mbind, M_bind, map_err, of_result. rewrite no_faults, Hr. simpl.
  destruct (get_secret handle (secret_store w)) as [b v]. simpl in *. by subst b.
Qed.

Lemma find_row_saved peer r d n :
  relationships (devices d) !! peer = Some r → d_state r = "saved"%string →
  ∃ row, relationship_row_from_sql r = Ok row ∧ rr_state row = Saved ∧
    find_row peer d n = (Ok (Some row), d, S n).
Proof.
  intros Hr Hs. unfold relationship_row_from_sql. rewrite Hs. simpl. eexists. split; [done|]. split; [done|].
  unfold find_row, in_devices, zoom, find_relationship_row, select_devices, sql, stmt, mbind, M_bind, map_err, of_result.
  rewrite no_faults, Hr. simpl. unfold relationship_row_from_sql. rewrite Hs. simpl. by rewrite set_devices_id.
Qed.

Lemma wp_prove_honest holder issuer g v id secret challenge d n :
  String.length id = GRANT_ID_LEN → String.length secret = GRANT_SECRET_LEN →
  grant_held d issuer g v id secret →
  wp (prove_saved_possession true holder issuer challenge) d n (λ res _ _, res =
    Ok ({| wp_grant_id := hexlower_encode id;
           wp_mac := hexlower_encode (relationship_mac secret challenge issuer holder g v);
           wp_challenge := hexlower_encode challenge |}, g, v)).
Proof.
  intros Hid Hsec (r & handle & Hr & Hs & Hg & Hv & Hh & Hi & Hc).
  destruct (find_row_saved issuer r d n Hr Hs) as (row & Hrow & Hst & Hf1).
  apply row_from_sql_Ok in Hrow as (_ & Eg & Ev & _ & _ & Eh & _ & Ei).
  apply wp_bind, wp_bind. unfold wp at 1. rewrite Hf1, Hst. apply wp_ret.
  apply wp_bind, wp_bind. unfold wp at 1.
  destruct (find_row_saved issuer r d (S n) Hr Hs) as (row' & Hrow' & _ & ->).
  apply row_from_sql_Ok in Hrow' as (_ & _ & _ & _ & _ & Eh' & _ & Ei'). rewrite Eh', Hh, Ei', Hi.
  apply wp_bind, wp_of_result. unfold decode_grant_id, decode_fixed. rewrite hex_roundtrip, Hid. simpl.
  apply wp_bind, wp_in_vault. unfold wp at 1.
  destruct (load_in_custody handle secret (vault d) (S (S n)) Hc) as (st & ->).
  apply wp_bind, wp_of_result. unfold secret_from_material. simpl. rewrite Hsec. simpl.
  apply wp_ret, wp_ret. by rewrite Eg, Ev, Hg, Hv.
Qed.

Lemma wp_verify_honest issuer holder g v id secret challenge sent d n :
  String.length id = GRANT_ID_LEN → String.length secret = GRANT_SECRET_LEN →
  grant_issued d holder g v id secret →
  wp (verify_saved_possession true issuer holder challenge
        {| wp_grant_id := hexlower_encode id;
           wp_mac := hexlower_encode (relationship_mac secret challenge issuer holder g v);
           wp_challenge := sent |} g v) d n (λ res _ _, res = Ok tt).
Proof.
  intros Hid Hsec (Ht & r & handle & Hr & Hs & Hg & Hv & Hh & Hi & Hc).
  destruct (find_row_saved holder r d n Hr Hs) as (row & Hrow & Hst & Hf1).
  apply row_from_sql_Ok in Hrow as (_ & Eg & Ev & _ & _ & Eh & _ & Ei).
  apply wp_bind, wp_bind. unfold wp at 1. rewrite Hf1, Hst. apply wp_ret.
  rewrite Eg, Hg, Z.eqb_refl, Ev. simpl. destruct (Z.ltb_spec v (as_u16 (d_minimum_protocol_version r))); [lia|].
  apply wp_bind, wp_map_err, wp_bind, wp_map_err, wp_in_devices. eapply wp_sql_quiet; [done|reflexivity|].
  rewrite Ht, set_devices_id. simpl. apply wp_bind, wp_map_err. unfold wp at 1.
  destruct (find_row_saved holder r d (S (S n)) Hr Hs) as (row2 & Hrow2 & Hst2 & ->). simpl. rewrite Hst2.
  apply row_from_sql_Ok in Hrow2 as (_ & -> & _). rewrite Hg, Z.eqb_refl. apply wp_ret.
  apply wp_bind. unfold wp at 1.
  destruct (find_row_saved holder r d (S (S (S n))) Hr Hs) as (row3 & Hrow3 & _ & ->).
  apply row_from_sql_Ok in Hrow3 as (_ & _ & _ & _ & -> & _ & -> & _). rewrite Hh, Hi. simpl.
  rewrite str_eqb_refl. simpl. apply wp_bind, wp_in_vault. unfold wp at 1.
  destruct (load_in_custody handle secret (vault d) (S (S (S (S n)))) Hc) as (st & ->).
  apply wp_bind, wp_of_result. unfold secret_from_material. simpl. rewrite Hsec. simpl.
  apply wp_bind, wp_of_result. unfold decode_grant_id, decode_fixed. rewrite !hex_roundtrip, Hid. simpl.
  unfold relationship_mac at 1. rewrite hash_length. apply wp_of_result.
  unfold verify_relationship_grant. by rewrite str_eqb_refl.
Qed.

(** An honest peer is never turned away. If a device holds the grant
    that this device issued to it, in the same generation and at a protocol version this
    device accepts, then its answer to any challenge is a proof that verification here
    accepts, in every database and credential store that answers. *)
Theorem honest_proof_accepted issuer holder g v id secret challenge dI dH nI nH
  (Hid : String.length id = GRANT_ID_LEN) (Hsecret : String.length secret = GRANT_SECRET_LEN)
  (Hissued : grant_issued dI holder g v id secret) (Hheld : grant_held dH issuer g v id secret) :
  wp (prove_saved_possession true holder issuer challenge) dH nH (λ res _ _, ∃ proof,
    res = Ok (proof, g, v) ∧
    wp (verify_saved_possession true issuer holder challenge proof g v) dI nI (λ res' _ _, res' = Ok tt)).
Proof.
  eapply wp_mono; [by apply wp_prove_honest|]. intros res d' n' ->. eexists. split; [done|].
  by apply wp_verify_honest.
Qed.
End Faultless.
End Honest.

(** ** Concrete runs *)

Section Witnesses.
#[local] Instance device_env : Env := quiet_env 1000 (λ _, "uuid"%string).
#[local] Instance device_text : ForeignText := demo_text.
#[local] Instance device_host : Host := {|
  public_id := λ b, ("id-" +:+ b)%string;
  fresh_key := λ _, "0123456789abcdef0123456789abcdef"%string;
  hexlower_decode := λ s, Some s;
  fs_fault := λ _, None;
  polls := λ _, 3%nat;
  others := λ _ rows, rows
|}.
#[local] Instance device_blake3 : Blake3 := {| derive_key := λ c s, c +:+ s; keyed_hash := λ _ _, "0123456789abcdef0123456789abcdef"%string |}.
#[local] Instance device_network : Network FaultInjectingSecretStore := {|
  random_bytes := λ _ len, String.concat EmptyString (replicate len "r"%string);
  hexlower_encode := λ s, s;
  decode_error := λ _, "bad hex"%string;
  peer_addr_error := λ _ _, None;
  request_reply := λ _ _ _, None;
  consent_reply := λ _ _ _, None;
  ack_reply := λ _ _ _, Some Acknowledged;
  meanwhile := λ _ d, d
|}.

Definition demo_relationship : RelationshipColumns := {|
  d_state := "saved"; d_generation := 3; d_minimum_protocol_version := 2;
  d_session_id := None; d_remote_display_name := Some "Bob"%string; d_local_label := None;
  d_last_authenticated_at := None;
  d_issued_grant_handle := Some "h"%string; d_held_grant_handle := None;
  d_issued_grant_id := Some "0123456789abcdef"%string; d_held_grant_id := None;
  d_peer_ack := 1; d_local_ack := 1; d_created_at := 1; d_updated_at := 1 |}.
Definition demo_devices : Domain FaultInjectingSecretStore := {|
  devices := {| relationships := {[ "bob"%string := demo_relationship ]}; tombstones := ∅ |};
  eligibilities := ∅; blocked := ∅;
  vault := {| secret_refs := ∅; secret_store := empty_store; legacy_identity := None |}
|}.

Definition demo_secret : string := "0123456789abcdef0123456789abcdef".

(** Forgetting a device, then a replayed request and a proof of its old generation. *)
Lemma revocation_is_final_witness :
  wp (exec_revocation true "alice" 4 ByForget "bob") demo_devices 0%nat (λ res d1 n1, res = Ok tt →
    wp (run_devices true "alice" 4 [OpReconcileDevices; OpListDevices]) d1 n1 (λ _ d2 n2,
      wp (verify_saved_possession true "alice" "bob" demo_secret
            {| wp_grant_id := "i"; wp_mac := "m"; wp_challenge := "c" |} 3 2) d2 n2
        (λ res' _ _, res' ≠ Ok tt))).
Proof.
  apply (revocation_is_final true "alice" 4) with (r := demo_relationship).
  - intros n d k. done.
  - apply lookup_singleton_eq.
Defined.

Lemma mac_input_injective_witness :
  demo_secret = demo_secret ∧ "alice"%string = "alice"%string ∧ "bob"%string = "bob"%string ∧ 3 = 3 ∧ 2 = 2.
Proof. apply mac_input_injective; vm_compute; first [done | by split]. Defined.

(** Both ends of one grant: alice issued it to bob, and bob's vault holds it. *)
Definition demo_grant_ref : RefRow := {|
  rf_kind := kind_as_str RelationshipGrant; rf_state := "active"; rf_expected_identity := None;
  rf_created_at := 1; rf_updated_at := 1 |}.

Definition demo_vault : Vault FaultInjectingSecretStore := {|
  secret_refs := {[ "h"%string := demo_grant_ref ]};
  secret_store := on_values (λ _, {[ "h"%string := {| material_bytes := demo_secret |} ]}) empty_store;
  legacy_identity := None |}.

Definition demo_end (peer : string) (r : RelationshipColumns) : Domain FaultInjectingSecretStore := {|
  devices := {| relationships := {[ peer := r ]}; tombstones := ∅ |};
  eligibilities := ∅; blocked := ∅; vault := demo_vault |}.

Definition demo_holding : RelationshipColumns := {|
  d_state := "saved"; d_generation := 3; d_minimum_protocol_version := 2; d_session_id := None;
  d_remote_display_name := None; d_last_authenticated_at := None;
  d_issued_grant_handle := None; d_held_grant_handle := Some "h"%string;
  d_issued_grant_id := None; d_held_grant_id := Some "0123456789abcdef"%string;
  d_peer_ack := 1; d_local_ack := 1; d_local_label := None; d_created_at := 1; d_updated_at := 1 |}.

Lemma honest_proof_accepted_witness :
  wp (prove_saved_possession true "bob" "alice" demo_secret) (demo_end "alice" demo_holding) 0%nat
    (λ res _ _, ∃ proof, res = Ok (proof, 3, 2) ∧
      wp (verify_saved_possession true "alice" "bob" demo_secret proof 3 2)
        (demo_end "bob" demo_relationship) 0%nat (λ res' _ _, res' = Ok tt)).
Proof.
  apply (honest_proof_accepted (V:=FaultInjectingSecretStore))
    with (id := "0123456789abcdef"%string) (secret := demo_secret); try done.
  - split; [apply lookup_empty|]. exists demo_relationship, "h"%string.
    do 3 (split; [reflexivity|]). split; [vm_compute; congruence|]. do 2 (split; [reflexivity|]).
    exists demo_grant_ref. do 3 (split; [reflexivity|]). reflexivity.
  - exists demo_holding, "h"%string. do 6 (split; [reflexivity|]). exists demo_grant_ref. do 3 (split; [reflexivity|]). reflexivity.
Defined.
(** A peer that answers a first request with [AlreadySaved] becomes a saved device at once:
    no grant was exchanged and nothing was proven. *)
Definition demo_eligibility : EligibilityColumns := {|
  g_peer_endpoint_id := "bob"; g_remote_display_name := None; g_protocol_version := 1;
  g_secret_handle := "cap"; g_created_at := 1; g_expires_at := 5000 |}.

Definition demo_eligible : Domain FaultInjectingSecretStore := {|
  devices := {| relationships := ∅; tombstones := ∅ |};
  eligibilities := {[ "s"%string := demo_eligibility ]}; blocked := ∅;
  vault := {| secret_refs := {[ "cap"%string := {| rf_kind := kind_as_str PairingEligibility;
                rf_state := "active"; rf_expected_identity := None; rf_created_at := 1; rf_updated_at := 1 |} ]};
              secret_store := on_values (λ _, {[ "cap"%string := {| material_bytes := demo_secret |} ]}) empty_store;
              legacy_identity := None |} |}.

#[local] Instance insisting_network : Network FaultInjectingSecretStore := {|
  random_bytes := λ _ len, String.concat EmptyString (replicate len "r"%string);
  hexlower_encode := λ s, s;
  decode_error := λ _, "bad hex"%string;
  peer_addr_error := λ _ _, None;
  request_reply := λ _ _ _, Some RequestAlreadySaved;
  consent_reply := λ _ _ _, None;
  ack_reply := λ _ _ _, None;
  meanwhile := λ _ d, d
|}.

Example already_saved_without_grants :
  let '(res, d') := Sql.run (request_pairing true "alice" 4 "bob") demo_eligible in
  res = Ok true ∧
  ((λ r, (d_state r, d_issued_grant_handle r, d_held_grant_handle r)) <$> relationships (devices d') !! "bob"%string) =
    Some ("saved"%string, None, None).
Proof. by vm_compute. Qed.
End Witnesses.
