(* ===== verification/Core.v ===== *)
(** * The state the targeted transfers work on

    [TargetedTransferModule] holds handles on most of the core: its own store, the
    repository of invitations, the relationships with custody, the offer inbox, and, through
    the clean-up closure of [runtime/mod.rs], the access policy and the content that the
    provider serves. [Core] puts those parts side by side; an operation of one component
    acts on its part. *)

From S2P Require Import Prelude Sql ControlPlane Errors States Api TargetedStore Access Invitation Inbox SecureSecret Relationship Pairing.

Record Core (V : Type) : Type := {
  k_domain : Domain V;                     (* relationships, eligibilities, block list, vault *)
  k_tables : Tables;                       (* targeted transfers *)
  k_history : History;                     (* invitation transfers *)
  k_inbox : TargetedOfferInbox;
  k_access : AccessPolicy;
  k_active : gset string;                  (* transfers streaming now, by id *)
  k_hashes : gmap string (gset Z);         (* served content and the transfers that own it *)
  k_tags : gset string                     (* blob-store tags that keep payloads *)
}.
Arguments k_domain {V} _.
Arguments k_tables {V} _.
Arguments k_history {V} _.
Arguments k_inbox {V} _.
Arguments k_access {V} _.
Arguments k_active {V} _.
Arguments k_hashes {V} _.
Arguments k_tags {V} _.

Section Setters.
Context {V : Type}.
Implicit Types (k : Core V).

Definition set_domain (x : Domain V) k : Core V :=
  {| k_domain := x; k_tables := k_tables k; k_history := k_history k; k_inbox := k_inbox k;
     k_access := k_access k; k_active := k_active k; k_hashes := k_hashes k; k_tags := k_tags k |}.
Definition set_tables (x : Tables) k : Core V :=
  {| k_domain := k_domain k; k_tables := x; k_history := k_history k; k_inbox := k_inbox k;
     k_access := k_access k; k_active := k_active k; k_hashes := k_hashes k; k_tags := k_tags k |}.
Definition set_history (x : History) k : Core V :=
  {| k_domain := k_domain k; k_tables := k_tables k; k_history := x; k_inbox := k_inbox k;
     k_access := k_access k; k_active := k_active k; k_hashes := k_hashes k; k_tags := k_tags k |}.
Definition set_inbox (x : TargetedOfferInbox) k : Core V :=
  {| k_domain := k_domain k; k_tables := k_tables k; k_history := k_history k; k_inbox := x;
     k_access := k_access k; k_active := k_active k; k_hashes := k_hashes k; k_tags := k_tags k |}.
Definition set_access (x : AccessPolicy) k : Core V :=
  {| k_domain := k_domain k; k_tables := k_tables k; k_history := k_history k; k_inbox := k_inbox k;
     k_access := x; k_active := k_active k; k_hashes := k_hashes k; k_tags := k_tags k |}.
Definition on_active (f : gset string → gset string) k : Core V :=
  {| k_domain := k_domain k; k_tables := k_tables k; k_history := k_history k; k_inbox := k_inbox k;
     k_access := k_access k; k_active := f (k_active k); k_hashes := k_hashes k; k_tags := k_tags k |}.
Definition on_hashes (f : gmap string (gset Z) → gmap string (gset Z)) k : Core V :=
  {| k_domain := k_domain k; k_tables := k_tables k; k_history := k_history k; k_inbox := k_inbox k;
     k_access := k_access k; k_active := k_active k; k_hashes := f (k_hashes k); k_tags := k_tags k |}.
Definition on_tags (f : gset string → gset string) k : Core V :=
  {| k_domain := k_domain k; k_tables := k_tables k; k_history := k_history k; k_inbox := k_inbox k;
     k_access := k_access k; k_active := k_active k; k_hashes := k_hashes k; k_tags := f (k_tags k) |}.

Lemma set_domain_id k : set_domain (k_domain k) k = k.
Proof. by destruct k. Qed.
Lemma set_tables_id k : set_tables (k_tables k) k = k.
Proof. by destruct k. Qed.
Lemma set_history_id k : set_history (k_history k) k = k.
Proof. by destruct k. Qed.
Lemma set_inbox_id k : set_inbox (k_inbox k) k = k.
Proof. by destruct k. Qed.

(** *** An operation of one part *)

Definition in_domain {A} (m : M (Domain V) VnidropError A) : M (Core V) VnidropError A :=
  zoom k_domain set_domain m.
Definition in_tables {A} (m : M Tables VnidropError A) : M (Core V) VnidropError A :=
  zoom k_tables set_tables m.
(** The inbox reports refusals as values; its operations never fail. *)
Definition in_inbox {A} (m : M TargetedOfferInbox string A) : M (Core V) VnidropError A :=
  map_err Internal (zoom k_inbox set_inbox m).
Definition in_access {A} (m : M AccessPolicy VnidropError A) : M (Core V) VnidropError A :=
  zoom k_access set_access m.

(** [.map_err(VnidropError::repository)] on an operation of the repository. *)
Definition in_repository `{ForeignText} {A} (m : M History AnyhowError A) : M (Core V) VnidropError A :=
  map_err repository (zoom k_history set_history m).

(** [custody.load] and the like. *)
Definition in_custody_of {A} (m : M (Vault V) VnidropError A) : M (Core V) VnidropError A :=
  in_domain (in_vault m).

(** *** What such an operation leaves *)

Lemma wp_in_domain {A} (m : M (Domain V) VnidropError A) k n Q :
  wp m (k_domain k) n (λ r d n', Q r (set_domain d k) n') → wp (in_domain m) k n Q.
Proof. apply wp_zoom. Qed.

Lemma wp_in_tables {A} (m : M Tables VnidropError A) k n Q :
  wp m (k_tables k) n (λ r t n', Q r (set_tables t k) n') → wp (in_tables m) k n Q.
Proof. apply wp_zoom. Qed.

Lemma wp_in_access {A} (m : M AccessPolicy VnidropError A) k n Q :
  wp m (k_access k) n (λ r p n', Q r (set_access p k) n') → wp (in_access m) k n Q.
Proof. apply wp_zoom. Qed.

(** Custody works on the vault alone. *)
Definition put_vault (w : Vault V) k : Core V := set_domain (set_vault w (k_domain k)) k.

Lemma put_vault_id k : put_vault (vault (k_domain k)) k = k.
Proof. unfold put_vault. by rewrite set_vault_id, set_domain_id. Qed.

Lemma put_vault_twice w w' k : put_vault w' (put_vault w k) = put_vault w' k.
Proof. done. Qed.

Lemma wp_in_custody_of {A} (m : M (Vault V) VnidropError A) k n Q :
  wp m (vault (k_domain k)) n (λ r w n', Q r (put_vault w k) n') → wp (in_custody_of m) k n Q.
Proof. intros Hm. apply wp_in_domain, wp_in_vault. exact Hm. Qed.

Lemma wp_in_custody_any {A} (m : M (Vault V) VnidropError A) k n Q :
  (∀ r w n', Q r (put_vault w k) n') → wp (in_custody_of m) k n Q.
Proof. intros HQ. apply wp_in_domain, wp_in_vault_any. intros. apply HQ. Qed.

(** A part of the tables that is only read. *)
Lemma wp_get_row `{Env} `{ForeignText} id k n Q :
  (∀ e n', Q (Err e) k n') →
  (∀ n', targeted_transfers (k_tables k) !! id = None → Q (Ok None) k n') →
  (∀ r row n', targeted_transfers (k_tables k) !! id = Some r → row_to_full (id, r) = Ok row →
     Q (Ok (Some row)) k n') →
  wp (in_tables (get_row id)) k n Q.
Proof.
  intros He Hn Hs. apply wp_in_tables, wp_bind, wp_query; [intros e; rewrite set_tables_id; apply He|].
  apply wp_of_result. rewrite set_tables_id.
  destruct (targeted_transfers (k_tables k) !! id) as [r|] eqn:Er; simpl; [|by apply Hn].
  destruct (parse_role (c_role r)) as [ro|e] eqn:Ero; simpl; [|apply He].
  destruct (parse_targeted_state (c_state r)) as [st|e] eqn:Est; simpl; [|apply He].
  eapply Hs; [done|]. simpl. by rewrite Ero, Est.
Qed.
End Setters.
