(* ===== verification/Approval.v ===== *)
(** * [approval.rs] and [handshake.rs]: who may read an invitation transfer

    A receiver asks over the handshake protocol; the local user is prompted unless the access
    policy admits the endpoint already. The handler waits for the answer on a channel while
    other handlers run, so a call is a [Job] that advances from one await point to the next
    ([step_job]), and [astep] interleaves any number of them with the rest of the core. The
    receipts that end a delivery do not wait and are plain effects. *)

From S2P Require Import Prelude Sql ControlPlane Errors States Api TargetedStore Access Invitation Inbox SecureSecret Relationship Pairing Core.

(** ** Messages ([handshake.rs]) *)

Record RequestTransfer : Type := {
  rt_transfer_id : Z;
  rt_transfer_hash : string;
  rt_transfer_name : string;
  rt_receiver_name : option string;
  rt_receiver_device_name : option string;
  rt_app_version : string
}.

Inductive HandshakeResponse : Type :=
| HandshakeApproved (request_id token : string) (expires_at : Z) (sender_name : option string)
| HandshakeDenied (reason : string).

Record DeliveryReceipt : Type := { dr_request_id : string; dr_transfer_id : Z; dr_token : string }.

Record DeliveryFailureReceipt : Type := {
  df_request_id : string;
  df_transfer_id : Z;
  df_token : string;
  df_reason : string
}.

Inductive DeliveryReceiptResponse : Type := ReceiptRecorded | ReceiptRejected (reason : string).

(** What [client.request_transfer] sends for a ticket. *)
Definition request_of_ticket (product_version : string) (transfer_id : Z)
    (transfer_hash transfer_name : string) (receiver_name : option string) : RequestTransfer := {|
  rt_transfer_id := transfer_id; rt_transfer_hash := transfer_hash;
  rt_transfer_name := transfer_name; rt_receiver_name := receiver_name;
  rt_receiver_device_name := None; rt_app_version := product_version |}.

(** ** Data ([approval.rs]) *)

Definition APPROVAL_TTL_MS : Z := APPROVAL_SESSION_TTL_MS.

Record ApprovalDecision : Type := {
  ad_request_id : string;
  ad_accepted : bool;
  ad_reason : option string
}.

(** [blake3::hash] and [to_hex] of the crate [blake3]. *)
Class Blake3Hash : Type := { blake3_hash : string → string; hash_to_hex : string → string }.

Definition receipt_token_hash `{Blake3Hash} (token : string) : string :=
  hash_to_hex (blake3_hash token).

(** The prompts in flight: [pending] holds the sending ends of one-shot channels, as channel
    numbers; a channel carries the request it was made for and the decision sent. *)
Record ApprovalService (V : Type) : Type := {
  as_core : Core V;
  as_pending : gmap string nat;
  as_chans : gmap nat (Channel ApprovalDecision);
  as_next : nat
}.
Arguments as_core {V} _.
Arguments as_pending {V} _.
Arguments as_chans {V} _.
Arguments as_next {V} _.

Section Setters.
Context {V : Type}.
Implicit Types (s : ApprovalService V).

Definition approval_new (k : Core V) : ApprovalService V :=
  {| as_core := k; as_pending := ∅; as_chans := ∅; as_next := 0 |}.
Definition set_core k s : ApprovalService V :=
  {| as_core := k; as_pending := as_pending s; as_chans := as_chans s; as_next := as_next s |}.
Definition on_as_pending f s : ApprovalService V :=
  {| as_core := as_core s; as_pending := f (as_pending s); as_chans := as_chans s; as_next := as_next s |}.
Definition on_as_chans f s : ApprovalService V :=
  {| as_core := as_core s; as_pending := as_pending s; as_chans := f (as_chans s); as_next := as_next s |}.
Definition bump_as_next s : ApprovalService V :=
  {| as_core := as_core s; as_pending := as_pending s; as_chans := as_chans s; as_next := S (as_next s) |}.
End Setters.

(** ** Jobs: the program points between two awaits *)

Inductive Job : Type :=
(* [request_transfer] *)
| RequestArrives (remote : string) (request : RequestTransfer)
| RequestLookup (remote : string) (request : RequestTransfer)
| RequestDecide (remote : string) (request : RequestTransfer)
(* [allow_without_sender_decision] *)
| AutoInsert (remote : string) (request : RequestTransfer)
| AutoAccept (remote : string) (request : RequestTransfer) (id : string)
| AutoToken (remote : string) (request : RequestTransfer) (id : string)
(* [wait_for_sender_decision] *)
| WaitRegister (remote : string) (request : RequestTransfer)
| WaitInsert (remote : string) (request : RequestTransfer) (id : string) (chan : nat)
| WaitWithdraw (remote : string) (request : RequestTransfer) (id : string)
| WaitDecision (remote : string) (request : RequestTransfer) (id : string) (chan : nat)
| WaitApprove (remote : string) (request : RequestTransfer) (id : string)
| WaitToken (remote : string) (request : RequestTransfer) (id token : string) (expires_at : Z)
| WaitTimeout (remote : string) (request : RequestTransfer) (id : string)
| WaitLapse (remote : string) (request : RequestTransfer) (id : string)
(* the answer *)
| AnswerApproved (remote : string) (request : RequestTransfer) (id token : string) (expires_at : Z)
| Answered (remote : string) (request : RequestTransfer) (response : HandshakeResponse)
(* [respond] *)
| RespondTake (id : string) (accepted : bool) (reason : option string)
| RespondRecord (id : string) (accepted : bool) (reason : option string) (sender : option nat)
| RespondDone (id : string) (accepted : bool) (outcome : result unit AnyhowError).

(** The job keeps the sending end of a channel alive. *)
Definition holds_sender (chan : nat) (job : Job) : bool :=
  match job with
  | RespondRecord _ _ _ (Some sender) => Nat.eqb sender chan
  | _ => false
  end.

Section Steps.
Context `{Env} `{ForeignText} `{Blake3Hash} {V : Type}.
Variable max_pending : Z.
Variable max_metadata_bytes : Z.

Abbreviation IO := (M (ApprovalService V) AnyhowError).

Definition in_core {A} (m : M (Core V) AnyhowError A) : IO A := zoom as_core set_core m.
(** [self.repository], [self.blocked] and [self.access_policy]. *)
Definition repo {A} (m : M History AnyhowError A) : IO A := in_core (zoom k_history set_history m).
Definition block_list {A} (m : M Blocked AnyhowError A) : IO A :=
  in_core (zoom k_domain set_domain (zoom blocked set_blocked m)).
Definition access {A} (m : M AccessPolicy AnyhowError A) : IO A :=
  in_core (zoom k_access set_access m).

(** The metadata a receiver presents. *)
Definition metadata_too_large (request : RequestTransfer) : bool :=
  existsb (λ value, max_metadata_bytes <? str_len value)
    [rt_transfer_hash request; rt_transfer_name request;
     default EmptyString (rt_receiver_name request);
     default EmptyString (rt_receiver_device_name request); rt_app_version request].

Definition deny (remote : string) (request : RequestTransfer) (reason : string) : Job :=
  Answered remote request (HandshakeDenied reason).

Definition insert_of (id remote : string) (request : RequestTransfer) : ReceiverRequestInsert := {|
  ri_id := id; ri_transfer_id := rt_transfer_id request; ri_remote_endpoint_id := remote;
  ri_transfer_name := rt_transfer_name request; ri_receiver_name := rt_receiver_name request;
  ri_receiver_device_name := rt_receiver_device_name request;
  ri_app_version := rt_app_version request |}.

(** A statement whose failure denies the request. *)
Definition or_deny {A} (m : IO A) (failed : Job) (next : A → Job) : IO (option Job) :=
  r ← try (E:=AnyhowError) m;
  ret (Some (match r with Ok a => next a | Err _ => failed end)).

(** [request_transfer], up to the decision whom to ask. *)
Definition step_request (job : Job) : IO (option Job) :=
  match job with
  | RequestArrives remote request =>
      barred ← try (E:=AnyhowError) (block_list (is_blocked remote));
      ret (Some (match barred with
                 | Ok false => if metadata_too_large request
                               then deny remote request "metadata-too-large"
                               else RequestLookup remote request
                 | _ => deny remote request "not-accepted"
                 end))
  | RequestLookup remote request =>
      or_deny (repo (send_exists (rt_transfer_id request) (rt_transfer_hash request)))
        (deny remote request "repository-error")
        (λ exists_, if exists_ : bool then RequestDecide remote request
                    else deny remote request "unknown-transfer")
  | RequestDecide remote request =>
      decision ← access (decide_access (rt_transfer_id request) (Some remote));
      ret (Some (if decide (decision = Allow) then AutoInsert remote request
                 else WaitRegister remote request))
  | _ => ret None
  end.

(** [allow_without_sender_decision]. *)
Definition step_auto (job : Job) : IO (option Job) :=
  match job with
  | AutoInsert remote request =>
      id ← uuid_v4;
      or_deny (repo (insert_receiver_request (insert_of id remote request)))
        (deny remote request "repository-error") (λ _, AutoAccept remote request id)
  | AutoAccept remote request id =>
      or_deny (repo (update_receiver_request_status id Accepted None))
        (deny remote request "repository-error") (λ _, AutoToken remote request id)
  | AutoToken remote request id =>
      token ← uuid_v4;
      stored ← try (E:=AnyhowError) (repo (set_receiver_receipt_token id (receipt_token_hash token)));
      match stored with
      | Err _ => ret (Some (deny remote request "repository-error"))
      | Ok _ => now ← now_ms;
                ret (Some (AnswerApproved remote request id token (now + APPROVAL_TTL_MS)))
      end
  | _ => ret None
  end.

(** [wait_for_sender_decision]. [timeout] tells whether the timer has fired; a channel whose
    sending end is gone ends the wait in the same way. *)
Definition step_prompt (jobs : list Job) (timeout : bool) (job : Job) : IO (option Job) :=
  match job with
  | WaitRegister remote request =>
      id ← uuid_v4;
      s ← Sql.get;
      if max_pending <=? Z.of_nat (size (as_pending s))
      then ret (Some (deny remote request "too-many-pending-approvals"))
      else
        modify (on_as_chans <[as_next s := {| chan_for := id; chan_value := None |}]>);;
        modify bump_as_next;;
        modify (on_as_pending <[id := as_next s]>);;
        ret (Some (WaitInsert remote request id (as_next s)))
  | WaitInsert remote request id chan =>
      or_deny (repo (insert_receiver_request (insert_of id remote request)))
        (WaitWithdraw remote request id) (λ _, WaitDecision remote request id chan)
  | WaitWithdraw remote request id =>
      modify (on_as_pending (delete id));;
      ret (Some (deny remote request "repository-error"))
  | WaitDecision remote request id chan =>
      s ← Sql.get;
      match as_chans s !! chan ≫= chan_value with
      | Some decision =>
          ret (Some (if ad_accepted decision then WaitApprove remote request (ad_request_id decision)
                     else deny remote request (default "sender-refused"%string (ad_reason decision))))
      | None =>
          if timeout || (negb (map_values_contain chan (as_pending s)) &&
                         negb (existsb (holds_sender chan) jobs))
          then ret (Some (WaitTimeout remote request id))
          else ret None
      end
  | WaitApprove remote request id =>
      token ← uuid_v4;
      now ← now_ms;
      access (approve_endpoint_until (rt_transfer_id request) remote (Some (now + APPROVAL_TTL_MS)));;
      ret (Some (WaitToken remote request id token (now + APPROVAL_TTL_MS)))
  | WaitToken remote request id token expires_at =>
      or_deny (repo (set_receiver_receipt_token id (receipt_token_hash token)))
        (deny remote request "repository-error")
        (λ _, AnswerApproved remote request id token expires_at)
  | WaitTimeout remote request id =>
      modify (on_as_pending (delete id));;
      ret (Some (WaitLapse remote request id))
  | WaitLapse remote request id =>
      try (E:=AnyhowError) (repo (update_receiver_request_status id Expired (Some "approval timed out"%string)));;
      ret (Some (deny remote request "approval-timeout"))
  | AnswerApproved remote request id token expires_at =>
      name ← try (E:=AnyhowError) (repo (send_sender_name (rt_transfer_id request) (rt_transfer_hash request)));
      ret (Some (Answered remote request (HandshakeApproved id token expires_at
        (match name with Ok name => name | Err _ => None end))))
  | _ => ret None
  end.

(** [respond]: the sender leaves the map first, and is dropped if the status cannot be written. *)
Definition step_response (job : Job) : IO (option Job) :=
  match job with
  | RespondTake id accepted reason =>
      s ← Sql.get;
      modify (on_as_pending (delete id));;
      ret (Some (RespondRecord id accepted reason (as_pending s !! id)))
  | RespondRecord id accepted reason sender =>
      recorded ← try (E:=AnyhowError) (repo (update_receiver_request_status id
        (if accepted then Accepted else Refused) reason));
      match recorded, sender with
      | Ok _, Some chan =>
          modify (on_as_chans (alter (λ ch, {| chan_for := chan_for ch; chan_value := Some
            {| ad_request_id := id; ad_accepted := accepted; ad_reason := reason |} |}) chan))
      | _, _ => ret tt
      end;;
      ret (Some (RespondDone id accepted recorded))
  | _ => ret None
  end.

(** One section of any job. *)
Definition step_job (jobs : list Job) (timeout : bool) (job : Job) : IO (option Job) :=
  match job with
  | RequestArrives _ _ | RequestLookup _ _ | RequestDecide _ _ => step_request job
  | AutoInsert _ _ | AutoAccept _ _ _ | AutoToken _ _ _ => step_auto job
  | RespondTake _ _ _ | RespondRecord _ _ _ _ => step_response job
  | Answered _ _ _ | RespondDone _ _ _ => ret None
  | _ => step_prompt jobs timeout job
  end.
End Steps.

(** ** Receipts *)

Section Receipts.
Context `{Env} `{ForeignText} `{Host} `{Blake3} `{Blake3Hash} {V : Type} `{SecureSecretStore V}.
Variable protected : bool.
Variable local_endpoint_id : string.
(** [pairing_eligibility.is_some()]. *)
Variable pairs : bool.

Abbreviation IO := (M (Core V) VnidropError).

Definition complete_delivery (remote : string) (receipt : DeliveryReceipt) : IO DeliveryReceiptResponse :=
  completed ← try (E:=VnidropError) (in_repository (complete_receiver_delivery (dr_request_id receipt)
    (dr_transfer_id receipt) remote (receipt_token_hash (dr_token receipt))));
  match completed with
  | Ok remote_display_name =>
      when pairs (try (E:=VnidropError) (in_domain (activate_after_completed_transfer protected
        local_endpoint_id remote remote_display_name (dr_request_id receipt) (dr_token receipt)));;
        ret tt);;
      ret ReceiptRecorded
  | Err _ => ret (ReceiptRejected "invalid-receipt")
  end.

Definition fail_delivery (remote : string) (receipt : DeliveryFailureReceipt) : IO DeliveryReceiptResponse :=
  failed ← try (E:=VnidropError) (in_repository (fail_receiver_delivery (df_request_id receipt)
    (df_transfer_id receipt) remote (receipt_token_hash (df_token receipt)) (df_reason receipt)));
  ret (match failed with Ok _ => ReceiptRecorded | Err _ => ReceiptRejected "invalid-receipt" end).
End Receipts.

(** ** Interleavings *)

Record Front (V : Type) : Type := {
  fr_service : ApprovalService V;
  fr_jobs : gmap nat Job;
  fr_ticks : nat;                       (* position in the environment *)
  fr_consents : gset string;            (* requests the local user has accepted *)
  fr_admitted : gset (Z * string)       (* transfers and endpoints the policy has admitted *)
}.
Arguments fr_service {V} _.
Arguments fr_jobs {V} _.
Arguments fr_ticks {V} _.
Arguments fr_consents {V} _.
Arguments fr_admitted {V} _.

Definition front_new {V} (k : Core V) : Front V :=
  {| fr_service := approval_new k; fr_jobs := ∅; fr_ticks := 0; fr_consents := ∅; fr_admitted := ∅ |}.

Definition jobs_of {V} (w : Front V) : list Job := (map_to_list (fr_jobs w)).*2.

(** The calls of peers and of the user. *)
Definition call_point (job : Job) : bool :=
  match job with RequestArrives _ _ | RespondTake _ _ _ => true | _ => false end.

(** The request that a call accepts on the user's behalf. *)
Definition consenting (job : Job) : gset string :=
  match job with RespondTake id true _ => {[id]} | _ => ∅ end.

(** *** The abstract register

    What the service promises about a request is an entry of a ledger: whose request it is and
    what became of it. *)

Abbreviation Ledger := (gmap string (Z * string * string)).

Definition ledger_of (h : History) : Ledger :=
  (λ q, (q_transfer_id q, q_remote_endpoint_id q, q_status q)) <$> receiver_requests h.

Definition ledger {V} (w : Front V) : Ledger := ledger_of (k_history (as_core (fr_service w))).

(** A granted request is used up or fails; at a restart an open one expires. *)
Definition entry_settles (e e' : option (Z * string * string)) : Prop :=
  match e, e' with
  | None, None => True
  | Some (t, p, v), Some (t', p', v') => t' = t ∧ p' = p ∧
      (v' = v ∨ v = "accepted" ∧ v' ∈ ["completed"; "failed"] ∨ v = "requested" ∧ v' = "expired")%string
  | _, _ => False
  end.

Inductive ledger_step : Ledger → Ledger → Prop :=
| ledger_stay l : ledger_step l l
| ledger_open l id t p :
    l !! id = None → ledger_step l (<[id := (t, p, "requested"%string)]> l)
| ledger_decide l id t p v :
    l !! id = Some (t, p, "requested"%string) → v ∈ ["accepted"; "refused"; "expired"]%string →
    ledger_step l (<[id := (t, p, v)]> l)
| ledger_settle l l' : (∀ id, entry_settles (l !! id) (l' !! id)) → ledger_step l l'.

Definition listed (l : Ledger) (id : string) (t : Z) (p : string) : Prop :=
  ∃ v, l !! id = Some (t, p, v).
Definition granted (l : Ledger) (id : string) (t : Z) (p : string) : Prop :=
  ∃ v, l !! id = Some (t, p, v) ∧ v ∈ ["accepted"; "completed"; "failed"]%string.

Section Interleaving.
Context `{Env} `{ForeignText} `{Blake3Hash} {V : Type}.
Variable max_pending : Z.
Variable max_metadata_bytes : Z.

(** What the policy says when a request asks it. *)
Definition admitting (job : Job) (k : Core V) (n : nat) : gset (Z * string) :=
  match job with
  | RequestDecide remote request =>
      match decide_access (E:=AnyhowError) (rt_transfer_id request) (Some remote) (k_access k) n with
      | (Ok Allow, _, _) => {[(rt_transfer_id request, remote)]}
      | _ => ∅
      end
  | _ => ∅
  end.

Definition aadvance (timeout : bool) (jid : nat) (job : Job) (w : Front V) : Front V :=
  match step_job max_pending max_metadata_bytes (jobs_of w) timeout job (fr_service w) (fr_ticks w) with
  | (r, s, n) =>
      {| fr_service := s;
         fr_jobs := match r with Ok (Some job') => <[jid := job']> (fr_jobs w) | _ => fr_jobs w end;
         fr_ticks := n; fr_consents := fr_consents w;
         fr_admitted := admitting job (as_core (fr_service w)) (fr_ticks w) ∪ fr_admitted w |}
  end.

Definition arrive (jid : nat) (job : Job) (w : Front V) : Front V :=
  {| fr_service := fr_service w; fr_jobs := <[jid := job]> (fr_jobs w); fr_ticks := fr_ticks w;
     fr_consents := consenting job ∪ fr_consents w; fr_admitted := fr_admitted w |}.

(** Any call may arrive, any job advance or be dropped, and the rest of the core may do
    anything that leaves requests listed: receipts, a restart, other tables. *)
Inductive astep : Front V → Front V → Prop :=
| astep_call w jid job :
    fr_jobs w !! jid = None → call_point job = true → astep w (arrive jid job w)
| astep_run w jid job timeout :
    fr_jobs w !! jid = Some job → astep w (aadvance timeout jid job w)
| astep_drop w jid :
    astep w {| fr_service := fr_service w; fr_jobs := delete jid (fr_jobs w); fr_ticks := fr_ticks w;
               fr_consents := fr_consents w; fr_admitted := fr_admitted w |}
| astep_rest w k :
    (∀ id, entry_settles (ledger w !! id) (ledger_of (k_history k) !! id)) →
    astep w {| fr_service := set_core k (fr_service w); fr_jobs := fr_jobs w; fr_ticks := fr_ticks w;
               fr_consents := fr_consents w; fr_admitted := fr_admitted w |}.
End Interleaving.

(** ** Specifications *)

Definition made_for (chans : gmap nat (Channel ApprovalDecision)) (chan : nat) (id : string) : Prop :=
  ∃ ch, chans !! chan = Some ch ∧ chan_for ch = id.

Definition vouched (consents : gset string) (admitted : gset (Z * string)) (l : Ledger)
    (remote : string) (request : RequestTransfer) (id : string) : Prop :=
  granted l id (rt_transfer_id request) remote ∧
  (id ∈ consents ∨ (rt_transfer_id request, remote) ∈ admitted).

Definition job_ok (consents : gset string) (admitted : gset (Z * string)) (l : Ledger)
    (chans : gmap nat (Channel ApprovalDecision)) (job : Job) : Prop :=
  match job with
  | AutoInsert remote request => (rt_transfer_id request, remote) ∈ admitted
  | AutoAccept remote request id =>
      (rt_transfer_id request, remote) ∈ admitted ∧ listed l id (rt_transfer_id request) remote
  | AutoToken remote request id =>
      (rt_transfer_id request, remote) ∈ admitted ∧ granted l id (rt_transfer_id request) remote
  | WaitInsert _ _ id chan => made_for chans chan id
  | WaitDecision remote request id chan =>
      made_for chans chan id ∧ listed l id (rt_transfer_id request) remote
  | WaitApprove remote request id => granted l id (rt_transfer_id request) remote ∧ id ∈ consents
  | WaitToken remote request id _ _
  | AnswerApproved remote request id _ _
  | Answered remote request (HandshakeApproved id _ _ _) => vouched consents admitted l remote request id
  | RespondTake id true _ => id ∈ consents
  | RespondRecord id accepted _ sender =>
      (accepted = true → id ∈ consents) ∧ ∀ chan, sender = Some chan → made_for chans chan id
  | _ => True
  end.

Record service_ok {V} (max_pending : Z) (consents : gset string) (s : ApprovalService V) : Prop := {
  so_pending : ∀ id chan, as_pending s !! id = Some chan → made_for (as_chans s) chan id;
  so_sent : ∀ chan ch d, as_chans s !! chan = Some ch → chan_value ch = Some d →
    ad_request_id d = chan_for ch ∧
    (ad_accepted d = true → chan_for ch ∈ consents ∧
       ∃ t p, granted (ledger_of (k_history (as_core s))) (chan_for ch) t p);
  so_fresh : ∀ chan, (as_next s ≤ chan)%nat → as_chans s !! chan = None;
  so_bounded : Z.of_nat (size (as_pending s)) ≤ Z.max 0 max_pending
}.

Definition front_ok {V} (max_pending : Z) (w : Front V) : Prop :=
  service_ok max_pending (fr_consents w) (fr_service w) ∧
  ∀ jid job, fr_jobs w !! jid = Some job →
    job_ok (fr_consents w) (fr_admitted w) (ledger w) (as_chans (fr_service w)) job.

(** ** The ledger *)

Lemma listed_step l l' id t p : ledger_step l l' → listed l id t p → listed l' id t p.
Proof.
  intros Hs [v Hv]. destruct Hs as [l|l id' t' p' Hn|l id' t' p' v' Hd _|l l' Hall].
  - by exists v.
  - exists v. rewrite lookup_insert_ne; congruence.
  - destruct (decide (id' = id)) as [->|Hne]; [|exists v; by rewrite lookup_insert_ne].
    exists v'. rewrite lookup_insert_eq. congruence.
  - specialize (Hall id). rewrite Hv in Hall. destruct (l' !! id) as [[[t' p'] v']|] eqn:E; [|done].
    destruct Hall as (-> & -> & _). by exists v'.
Qed.

Lemma granted_step l l' id t p : ledger_step l l' → granted l id t p → granted l' id t p.
Proof.
  intros Hs (v & Hv & Hg). destruct Hs as [l|l id' t' p' Hn|l id' t' p' v' Hd _|l l' Hall].
  - by exists v.
  - exists v. rewrite lookup_insert_ne; [done | congruence].
  - exists v. rewrite lookup_insert_ne; [done|]. intros ->. rewrite Hd in Hv. simplify_eq. set_solver.
  - specialize (Hall id). rewrite Hv in Hall. destruct (l' !! id) as [[[t' p'] v']|] eqn:E; [|done].
    destruct Hall as (-> & -> & [->|[[-> Hv']|[-> ->]]]); [by exists v| |set_solver].
    exists v'. split; [done|]. set_solver.
Qed.

Lemma granted_listed l id t p : granted l id t p → listed l id t p.
Proof. intros (v & Hv & _). by exists v. Qed.

(** Who asked is fixed, so a grant is a grant to the one listed. *)
Lemma granted_parties l id t p t' p' : listed l id t p → granted l id t' p' → granted l id t p.
Proof. intros [v Hv] (v' & Hv' & Hg). exists v'. split; [congruence|done]. Qed.

(** *** What a statement does to it *)

Section LedgerStatements.
Context `{Env}.

Lemma ledger_insert id q h : ledger_of (on_requests <[id := q]> h) =
  <[id := (q_transfer_id q, q_remote_endpoint_id q, q_status q)]> (ledger_of h).
Proof. unfold ledger_of. simpl. by rewrite fmap_insert. Qed.

Lemma ledger_lookup h id q : receiver_requests h !! id = Some q →
  ledger_of h !! id = Some (q_transfer_id q, q_remote_endpoint_id q, q_status q).
Proof. intros E. unfold ledger_of. by rewrite lookup_fmap, E. Qed.

Lemma wp_insert_request request h n (Q : result unit AnyhowError → History → nat → Prop) :
  (∀ e n', Q (Err e) h n') →
  (∀ h' n', ledger_of h !! ri_id request = None →
     ledger_of h' = <[ri_id request := (ri_transfer_id request, ri_remote_endpoint_id request,
                                        "requested"%string)]> (ledger_of h) →
     Q (Ok tt) h' n') →
  wp (insert_receiver_request request) h n Q.
Proof.
  intros He HQ. apply wp_bind, wp_to_db_id; [done|]. intros _. apply wp_bind, wp_now_ms, wp_asql; [done|].
  intros _ [] h' Hrows. unfold insert_row in Hrows.
  destruct (receiver_requests h !! ri_id request) eqn:En; simplify_eq/=.
  apply HQ; [by unfold ledger_of; rewrite lookup_fmap, En|].
  unfold ledger_of. simpl. by rewrite fmap_insert.
Qed.

Lemma wp_decide_request id status reason h n (Q : result unit AnyhowError → History → nat → Prop) :
  (∀ e n', Q (Err e) h n') →
  (∀ t p h' n', ledger_of h !! id = Some (t, p, "requested"%string) →
     ledger_of h' = <[id := (t, p, request_status_as_str status)]> (ledger_of h) → Q (Ok tt) h' n') →
  wp (update_receiver_request_status id status reason) h n Q.
Proof.
  intros He HQ. apply wp_bind, wp_now_ms, wp_bind, (wp_update_request_key id);
    [by intros; bool_simpl | done | by intros; apply wp_fail |].
  intros q Hq HP. bool_simpl. apply wp_ret. apply (HQ (q_transfer_id q) (q_remote_endpoint_id q)).
  - rewrite (ledger_lookup _ _ _ Hq). congruence.
  - by rewrite ledger_insert.
Qed.

Lemma wp_set_token id token h n (Q : result unit AnyhowError → History → nat → Prop) :
  (∀ e n', Q (Err e) h n') → (∀ h' n', ledger_of h' = ledger_of h → Q (Ok tt) h' n') →
  wp (set_receiver_receipt_token id token) h n Q.
Proof.
  intros He HQ. apply wp_bind, (wp_update_request_key id);
    [by intros; bool_simpl | done | intros; apply wp_of_result, He |].
  intros q Hq _. apply wp_of_result, HQ. rewrite ledger_insert. simpl.
  by apply insert_id, ledger_lookup.
Qed.

Lemma wp_send_exists t hash h n Q : (∀ r n', Q r h n') → wp (send_exists t hash) h n Q.
Proof. intros HQ. apply wp_bind, wp_to_db_id; [done|]. intros _. by apply wp_select. Qed.

Lemma wp_send_sender_name t hash h n Q : (∀ r n', Q r h n') → wp (send_sender_name t hash) h n Q.
Proof. intros HQ. apply wp_bind, wp_to_db_id; [done|]. intros _. by apply wp_select. Qed.
End LedgerStatements.

(** ** Every section keeps the invariant *)

Section StepInvariant.
Context `{Env} `{ForeignText} `{Blake3Hash} {V : Type}.
Variable max_pending : Z.
Variable max_metadata_bytes : Z.
Variable consents : gset string.
Variable admitted : gset (Z * string).
Implicit Types (s : ApprovalService V).

Abbreviation lg s := (ledger_of (k_history (as_core s))).
Abbreviation chans_grow := (map_lift (λ ch ch' : Channel ApprovalDecision, chan_for ch' = chan_for ch)).
Abbreviation put_history h s := (set_core (set_history h (as_core s)) s).

Lemma made_for_grow m m' chan id : chans_grow m m' → made_for m chan id → made_for m' chan id.
Proof. intros Hg (ch & Hch & <-). destruct (Hg _ _ Hch) as (ch' & ? & ?). by exists ch'. Qed.

Lemma job_ok_mono c c' a a' l l' m m' job :
  c ⊆ c' → a ⊆ a' → ledger_step l l' → chans_grow m m' →
  job_ok c a l m job → job_ok c' a' l' m' job.
Proof.
  intros Hc Ha Hl Hm. pose proof (λ chan id, made_for_grow m m' chan id Hm) as Hmade.
  assert (∀ remote request id, vouched c a l remote request id → vouched c' a' l' remote request id) as Hv.
  { intros remote request id [Hg Hor]. split; [by eapply granted_step|]. set_solver. }
  destruct job; simpl; try done; try (destruct response; [|done]); try apply Hv; try apply Hmade.
  - by apply Ha.
  - intros [? ?]. split; [by apply Ha | by eapply listed_step].
  - intros [? ?]. split; [by apply Ha | by eapply granted_step].
  - intros [? ?]. split; [by apply Hmade | by eapply listed_step].
  - intros [? ?]. split; [by eapply granted_step | by apply Hc].
  - destruct accepted; [|done]. set_solver.
  - intros [? ?]. split; [set_solver|]. naive_solver.
Qed.

(** What a section may assume and must establish. *)
Definition job_post s (r : result (option Job) AnyhowError) s' (_ : nat) : Prop :=
  service_ok max_pending consents s' ∧ ledger_step (lg s) (lg s') ∧
  chans_grow (as_chans s) (as_chans s') ∧
  ∀ job', r = Ok (Some job') → job_ok consents admitted (lg s') (as_chans s') job'.

Lemma service_ok_core k s :
  service_ok max_pending consents s → ledger_step (lg s) (ledger_of (k_history k)) →
  service_ok max_pending consents (set_core k s).
Proof.
  intros [P1 P2 P3 P4] Hl. split; try done. intros chan ch d Hch Hd.
  destruct (P2 chan ch d Hch Hd) as [E Ha]. split; [done|]. intros Hacc.
  destruct (Ha Hacc) as (Hc & t & p & Hg). split; [done|]. exists t, p. by eapply granted_step.
Qed.

(** A section that changes the core only. *)
Lemma post_core k s job n :
  service_ok max_pending consents s → ledger_step (lg s) (ledger_of (k_history k)) →
  (∀ job', job = Some job' → job_ok consents admitted (ledger_of (k_history k)) (as_chans s) job') →
  job_post s (Ok job) (set_core k s) n.
Proof.
  intros Hs Hl Hj. split; [by apply service_ok_core|]. split; [done|]. split; [reflexivity|].
  intros job' [= ->]. by apply Hj.
Qed.

Lemma set_core_id s : set_core (as_core s) s = s.
Proof. by destruct s. Qed.

(** A section that changes nothing. *)
Lemma post_same s job n :
  service_ok max_pending consents s →
  (∀ job', job = Some job' → job_ok consents admitted (lg s) (as_chans s) job') →
  job_post s (Ok job) s n.
Proof.
  intros Hs Hj. rewrite <- (set_core_id s) at 2. apply post_core; [done|constructor|done].
Qed.

Lemma wp_in_core {A} (m : M (Core V) AnyhowError A) s n Q :
  wp m (as_core s) n (λ r k n', Q r (set_core k s) n') → wp (in_core m) s n Q.
Proof. apply wp_zoom. Qed.

Lemma wp_repo {A} (m : M History AnyhowError A) s n Q :
  wp m (k_history (as_core s)) n (λ r h n', Q r (put_history h s) n') → wp (repo m) s n Q.
Proof. intros Hm. apply wp_in_core, wp_zoom. exact Hm. Qed.

Lemma wp_or_deny {A} (m : M (ApprovalService V) AnyhowError A) failed next s n Q :
  wp m s n (λ r s' n', Q (Ok (Some (match r with Ok a => next a | Err _ => failed end))) s' n') →
  wp (or_deny m failed next) s n Q.
Proof. intros Hm. apply wp_bind, wp_try. eapply wp_mono; [exact Hm|]. done. Qed.

(** A statement of the repository that fails leaves nothing behind. *)
Lemma put_history_same s : put_history (k_history (as_core s)) s = s.
Proof. by rewrite set_history_id, set_core_id. Qed.

Lemma service_ok_pending_delete id s :
  service_ok max_pending consents s → service_ok max_pending consents (on_as_pending (delete id) s).
Proof.
  intros [P1 P2 P3 P4]. split; try done.
  - intros id' chan Hd. simpl in Hd. apply lookup_delete_Some in Hd as [_ Hd]. by apply P1.
  - simpl. assert (delete id (as_pending s) ⊆ as_pending s) as Hsub by apply delete_subseteq.
    apply map_subseteq_size in Hsub. lia.
Qed.

Lemma post_pending id s job n :
  service_ok max_pending consents s →
  (∀ job', job = Some job' → job_ok consents admitted (lg s) (as_chans s) job') →
  job_post s (Ok job) (on_as_pending (delete id) s) n.
Proof.
  intros Hs Hj. split; [by apply service_ok_pending_delete|]. split; [constructor|].
  split; [reflexivity|]. intros job' [= ->]. by apply Hj.
Qed.
(** The steps, function by function. *)

Lemma step_request_ok job s n :
  service_ok max_pending consents s →
  admitting job (as_core s) n ⊆ admitted →
  wp (step_request max_metadata_bytes job) s n (job_post s).
Proof.
  intros Hs Ha. destruct job; try (by apply wp_ret, post_same).
  - (* RequestArrives *)
    apply wp_bind, wp_try, wp_in_core, wp_zoom, wp_zoom, wp_asql.
    + intros e. apply wp_ret, post_core; [done|constructor|]. by intros job' [= <-].
    + intros _ barred b [= <- <-]. apply wp_ret, post_core; [done|constructor|]. intros job' [= <-].
      destruct (exists_where _ _); [done|]. by destruct (metadata_too_large _ _).
  - (* RequestLookup *)
    apply wp_or_deny, wp_repo, wp_send_exists. intros r n'.
    apply post_core; [done|constructor|]. intros job' [= <-]. by destruct r as [[]|].
  - (* RequestDecide *)
    apply wp_bind, wp_in_core, wp_zoom. simpl in Ha. unfold wp.
    destruct (decide_access _ _ _ _) as [[[d|e] p] n'].
    + apply wp_ret, post_core; [done|constructor|]. intros job' [= <-].
      destruct (decide (d = Allow)) as [->|]; [|done]. simpl. set_solver.
    + split; [by apply service_ok_core; [|constructor]|]. split; [constructor|]. by split.
Qed.
(** A statement of the repository that keeps the ledger, and one that grants a listed request. *)
Lemma post_history_same h s job n :
  service_ok max_pending consents s → ledger_of h = lg s →
  (∀ job', job = Some job' → job_ok consents admitted (lg s) (as_chans s) job') →
  job_post s (Ok job) (put_history h s) n.
Proof.
  intros Hs E Hj. apply post_core; [done|simpl; rewrite E; constructor|]. simpl. by rewrite E.
Qed.

Lemma step_auto_ok job s n :
  service_ok max_pending consents s → job_ok consents admitted (lg s) (as_chans s) job →
  wp (step_auto job) s n (job_post s).
Proof.
  intros Hs Hj. destruct job; try (by apply wp_ret, post_same); simpl in Hj.
  - (* AutoInsert *)
    apply wp_bind, wp_uuid_v4, wp_or_deny, wp_repo, wp_insert_request.
    + intros e n'. apply post_history_same; [done..|]. by intros job' [= <-].
    + intros h n' Hn Hl. apply post_core; [done|simpl; rewrite Hl; by constructor|].
      intros job' [= <-]. simpl. rewrite Hl. split; [done|]. eexists. by rewrite lookup_insert_eq.
  - (* AutoAccept *)
    destruct Hj as [Ha [v Hv]]. apply wp_or_deny, wp_repo, wp_decide_request.
    + intros e n'. apply post_history_same; [done..|]. by intros job' [= <-].
    + intros t p h n' Ht Hl. rewrite Hv in Ht. simplify_eq.
      apply post_core; [done|simpl; rewrite Hl; eapply ledger_decide; [done|set_solver]|].
      intros job' [= <-]. simpl. rewrite Hl. split; [done|]. eexists. rewrite lookup_insert_eq.
      split; [done|]. set_solver.
  - (* AutoToken *)
    destruct Hj as [Ha Hg]. apply wp_bind, wp_uuid_v4, wp_bind, wp_try, wp_repo, wp_set_token.
    + intros e n'. apply wp_ret, post_history_same; [done..|]. by intros job' [= <-].
    + intros h n' Hl. apply wp_bind, wp_now_ms, wp_ret, post_history_same; [done..|].
      intros job' [= <-]. split; [done|by right].
Qed.

Lemma step_register_ok jobs timeout remote request s n :
  service_ok max_pending consents s →
  wp (step_prompt max_pending jobs timeout (WaitRegister remote request)) s n (job_post s).
Proof.
  intros Hs. apply wp_bind, wp_uuid_v4, wp_bind, wp_get. destruct (Z.leb_spec max_pending (Z.of_nat (size (as_pending s)))).
  { apply wp_ret, post_same; [done|]. by intros job' [= <-]. }
  apply wp_bind, wp_modify, wp_bind, wp_modify, wp_bind, wp_modify, wp_ret.
  destruct Hs as [P1 P2 P3 P4].
  assert (chans_grow (as_chans s) (<[as_next s := {| chan_for := new_uuid n; chan_value := None |}]> (as_chans s)))
    as Hgrow. { apply map_lift_insert; [apply _|]. intros old Hold. by rewrite P3 in Hold. }
  split; [split; simpl|split; [constructor|split; [done|]]].
  - intros id chan Hd. apply lookup_insert_Some in Hd as [[<- <-]|[_ Hd]].
    + eexists. rewrite lookup_insert_eq. done.
    + eapply made_for_grow; [done|by apply P1].
  - intros chan ch d Hch Hd. apply lookup_insert_Some in Hch as [[<- <-]|[_ Hch]]; [done|by eapply P2].
  - intros chan Hle. rewrite lookup_insert_ne by lia. apply P3. lia.
  - destruct (as_pending s !! new_uuid n) eqn:E.
    + rewrite map_size_insert_Some by eauto. lia.
    + rewrite map_size_insert_None by done. lia.
  - intros job' [= <-]. eexists. simpl. rewrite lookup_insert_eq. done.
Qed.

Lemma step_prompt_ok jobs timeout job s n :
  service_ok max_pending consents s → job_ok consents admitted (lg s) (as_chans s) job →
  wp (step_prompt max_pending jobs timeout job) s n (job_post s).
Proof.
  intros Hs Hj. destruct job; try (by apply wp_ret, post_same); simpl in Hj; try (by apply step_register_ok).
  - (* WaitInsert *)
    apply wp_or_deny, wp_repo, wp_insert_request.
    + intros e n'. apply post_history_same; [done..|]. by intros job' [= <-].
    + intros h n' Hn Hl. apply post_core; [done|simpl; rewrite Hl; by constructor|].
      intros job' [= <-]. simpl. rewrite Hl. split; [done|]. eexists. by rewrite lookup_insert_eq.
  - (* WaitWithdraw *)
    apply wp_bind, wp_modify, wp_ret, post_pending; [done|]. by intros job' [= <-].
  - (* WaitDecision *)
    apply wp_bind, wp_get. destruct Hj as [(ch & Hch & <-) Hlisted]. rewrite Hch. simpl.
    destruct (chan_value ch) as [d|] eqn:Ed.
    + apply wp_ret, post_same; [done|]. intros job' [= <-].
      destruct (so_sent _ _ _ Hs _ _ _ Hch Ed) as [-> Hacc]. destruct (ad_accepted d); [|done].
      destruct Hacc as (Hc & t & p & Hg); [done|]. split; [by eapply granted_parties|done].
    + destruct (_ || _); apply wp_ret, post_same; try done. by intros job' [= <-].
  - (* WaitApprove *)
    apply wp_bind, wp_uuid_v4, wp_bind, wp_now_ms, wp_bind, wp_in_core, wp_zoom, wp_modify, wp_ret, post_core;
      [done|constructor|]. intros job' [= <-]. destruct Hj. split; [done|by left].
  - (* WaitToken *)
    apply wp_or_deny, wp_repo, wp_set_token; intros; apply post_history_same; try done; by intros job' [= <-].
  - (* WaitTimeout *)
    apply wp_bind, wp_modify, wp_ret, post_pending; [done|]. by intros job' [= <-].
  - (* WaitLapse *)
    apply wp_bind, wp_try, wp_repo, wp_decide_request.
    + intros e n'. apply wp_ret, post_history_same; [done..|]. by intros job' [= <-].
    + intros t p h n' Ht Hl. apply wp_ret, post_core; [done|simpl; rewrite Hl; eapply ledger_decide; [done|set_solver]|].
      by intros job' [= <-].
  - (* AnswerApproved *)
    apply wp_bind, wp_try, wp_repo, wp_send_sender_name. intros r n'. apply wp_ret, post_core; [done|constructor|].
    by intros job' [= <-].
Qed.
(** The decision goes to the channel of its own request. *)
Lemma post_decision chan d s n k job :
  service_ok max_pending consents s → ledger_step (lg s) (ledger_of (k_history k)) →
  made_for (as_chans s) chan (ad_request_id d) →
  (ad_accepted d = true → ad_request_id d ∈ consents ∧
     ∃ t p, granted (ledger_of (k_history k)) (ad_request_id d) t p) →
  (∀ l m, job_ok consents admitted l m job) →
  job_post s (Ok (Some job)) (on_as_chans (alter (λ ch,
    {| chan_for := chan_for ch; chan_value := Some d |}) chan) (set_core k s)) n.
Proof.
  intros Hs Hl (ch & Hch & Hfor) Hacc Hjob. destruct (service_ok_core k s Hs Hl) as [P1 P2 P3 P4].
  set (m' := alter (λ ch, {| chan_for := chan_for ch; chan_value := Some d |}) chan (as_chans s)).
  assert (m' = <[chan := {| chan_for := chan_for ch; chan_value := Some d |}]> (as_chans s)) as Em.
  { apply map_eq. intros c. unfold m'. destruct (decide (c = chan)) as [->|Hne].
    - by rewrite lookup_alter_eq, lookup_insert_eq, Hch.
    - by rewrite lookup_alter_ne, lookup_insert_ne. }
  assert (chans_grow (as_chans s) m') as Hgrow.
  { rewrite Em. apply map_lift_insert; [apply _|]. intros old Hold. by simplify_eq. }
  split; [split; simpl; fold m'|split; [done|split; [done|]]].
  - intros id c Hc. eapply made_for_grow; [done|by apply P1].
  - intros c ch' d' Hc Hd. rewrite Em in Hc. apply lookup_insert_Some in Hc as [[<- <-]|[_ Hc]]; [|by eapply P2].
    simpl in *. simplify_eq. split; [congruence|]. intros Ha. rewrite Hfor. by apply Hacc.
  - intros c Hle. rewrite Em, lookup_insert_ne; [by apply P3|]. intros ->.
    simpl in P3. by rewrite P3 in Hch.
  - done.
  - intros job' [= <-]. apply Hjob.
Qed.

Lemma step_response_ok job s n :
  service_ok max_pending consents s → job_ok consents admitted (lg s) (as_chans s) job →
  wp (step_response job) s n (job_post s).
Proof.
  intros Hs Hj. destruct job; try (by apply wp_ret, post_same); simpl in Hj.
  - (* RespondTake *)
    apply wp_bind, wp_get, wp_bind, wp_modify, wp_ret, post_pending; [done|]. intros job' [= <-]. simpl.
    split; [by destruct accepted|]. intros chan Hchan. by eapply so_pending.
  - (* RespondRecord *)
    destruct Hj as [Hc Hsender]. apply wp_bind, wp_try, wp_repo, wp_decide_request.
    + intros e n'. apply wp_bind, wp_ret, wp_ret, post_history_same; [done..|]. by intros job' [= <-].
    + intros t p h n' Ht Hl.
      assert (ledger_step (lg s) (ledger_of h)) as Hstep.
      { rewrite Hl. eapply ledger_decide; [done|]. destruct accepted; set_solver. }
      destruct sender as [chan|]; apply wp_bind.
      * apply wp_modify, wp_ret, post_decision; [done|done|by apply Hsender| |done].
        simpl. intros ->. split; [by apply Hc|]. exists t, p. rewrite Hl. eexists.
        rewrite lookup_insert_eq. split; [done|]. set_solver.
      * apply wp_ret, wp_ret, post_core; [done|done|]. by intros job' [= <-].
Qed.

Lemma step_job_ok jobs timeout job s n :
  service_ok max_pending consents s → job_ok consents admitted (lg s) (as_chans s) job →
  admitting job (as_core s) n ⊆ admitted →
  wp (step_job max_pending max_metadata_bytes jobs timeout job) s n (job_post s).
Proof.
  intros Hs Hj Ha. destruct job; unfold step_job;
    first [ by apply step_request_ok | by apply step_auto_ok | by apply step_response_ok
          | by apply step_prompt_ok | by apply wp_ret, post_same ].
Qed.

(** *** The access policy

    A section leaves it alone, drops a session whose time is up, or opens one: for the endpoint
    and the transfer of a request that the user accepted and that is granted, and for a time. *)

Inductive policy_step (l : Ledger) (p p' : AccessPolicy) : Prop :=
| policy_kept : p' = p → policy_step l p p'
| policy_lapsed t remote session n :
    approved_sessions p !! (t, remote) = Some session → is_valid session (clock n) = false →
    p' = {| modes := modes p; approved_sessions := delete (t, remote) (approved_sessions p) |} →
    policy_step l p p'
| policy_opened t remote id n :
    granted l id t remote → id ∈ consents →
    p' = {| modes := modes p; approved_sessions :=
              <[(t, remote) := {| expires_at := Some (clock n + APPROVAL_TTL_MS) |}]> (approved_sessions p) |} →
    policy_step l p p'.

Abbreviation policy_of s := (k_access (as_core s)).

Lemma wp_policy_request job s n :
  wp (step_request max_metadata_bytes job) s n (λ _ s' _, policy_step (lg s') (policy_of s) (policy_of s')).
Proof.
  destruct job; try (by apply wp_ret, policy_kept).
  - apply wp_bind, wp_try, wp_in_core, wp_zoom, wp_zoom, wp_any. intros. by apply wp_ret, policy_kept.
  - apply wp_or_deny, wp_repo, wp_any. intros. by apply policy_kept.
  - apply wp_bind, wp_in_core, wp_zoom, wp_decide_access.
    + intros n' _. simpl. by apply wp_ret, policy_kept.
    + intros why n' _ _. simpl. by apply wp_ret, policy_kept.
    + intros why e session n' _ _ Hs Hv. simpl. by eapply wp_ret, policy_lapsed.
Qed.

Lemma wp_policy_auto job s n :
  wp (step_auto job) s n (λ _ s' _, policy_of s' = policy_of s).
Proof.
  destruct job; try (by apply wp_ret).
  - by apply wp_bind, wp_uuid_v4, wp_or_deny, wp_repo, wp_any.
  - by apply wp_or_deny, wp_repo, wp_any.
  - apply wp_bind, wp_uuid_v4, wp_bind, wp_try, wp_repo, wp_any. intros [[]|e] h n'; [|by apply wp_ret].
    by apply wp_bind, wp_now_ms, wp_ret.
Qed.

Lemma wp_policy_prompt jobs timeout job s n :
  job_ok consents admitted (lg s) (as_chans s) job →
  wp (step_prompt max_pending jobs timeout job) s n (λ _ s' n',
    policy_step (lg s') (policy_of s) (policy_of s') ∧
    ∀ remote request id, job = WaitApprove remote request id → ∃ i,
      approved_sessions (policy_of s') !! (rt_transfer_id request, remote) =
        Some {| expires_at := Some (clock i + APPROVAL_TTL_MS) |}).
Proof.
  intros Hj. destruct job; try (by apply wp_ret; split; [apply policy_kept|]).
  - apply wp_bind, wp_uuid_v4, wp_bind, wp_get.
    destruct (_ <=? _); [by apply wp_ret; split; [apply policy_kept|]|].
    by apply wp_bind, wp_modify, wp_bind, wp_modify, wp_bind, wp_modify, wp_ret; split; [apply policy_kept|].
  - apply wp_or_deny, wp_repo, wp_any. intros. by split; [apply policy_kept|].
  - apply wp_bind, wp_get.
    destruct (_ ≫= _); [|destruct (_ || _)]; apply wp_ret; by split; [apply policy_kept|].
  - apply wp_bind, wp_uuid_v4, wp_bind, wp_now_ms, wp_bind, wp_in_core, wp_zoom, wp_modify, wp_ret. simpl.
    destruct Hj as [Hg Hc]. split; [by eapply policy_opened|]. intros ? ? ? [= <- <- _].
    eexists. apply lookup_insert_eq.
  - apply wp_or_deny, wp_repo, wp_any. intros. by split; [apply policy_kept|].
  - apply wp_bind, wp_try, wp_repo, wp_any. intros. apply wp_ret. by split; [apply policy_kept|].
  - apply wp_bind, wp_try, wp_repo, wp_any. intros. apply wp_ret. by split; [apply policy_kept|].
Qed.

Lemma wp_policy_response job s n :
  wp (step_response job) s n (λ _ s' _, policy_of s' = policy_of s).
Proof.
  destruct job; try (by apply wp_ret). apply wp_bind, wp_try, wp_repo, wp_any. intros r h n'. apply wp_bind.
  destruct r as [[]|e], sender as [chan|]; simpl; [apply wp_modify|..]; by apply wp_ret.
Qed.

Lemma wp_policy_job jobs timeout job s n :
  job_ok consents admitted (lg s) (as_chans s) job →
  wp (step_job max_pending max_metadata_bytes jobs timeout job) s n (λ _ s' n',
    policy_step (lg s') (policy_of s) (policy_of s') ∧
    ∀ remote request id, job = WaitApprove remote request id → ∃ i,
      approved_sessions (policy_of s') !! (rt_transfer_id request, remote) =
        Some {| expires_at := Some (clock i + APPROVAL_TTL_MS) |}).
Proof.
  intros Hj. destruct job; unfold step_job; first
    [ by apply wp_policy_prompt
    | eapply wp_mono; [first [apply wp_policy_request|apply wp_policy_auto|apply wp_policy_response]|];
      intros r s' n' Hp; by split; [first [exact Hp | apply policy_kept; exact Hp]|]
    | by apply wp_ret; split; [apply policy_kept|] ].
Qed.
End StepInvariant.

(** ** Properties *)

Section Properties.
Context `{Env} `{ForeignText} `{Blake3Hash} {V : Type}.
Variable max_pending : Z.
Variable max_metadata_bytes : Z.
Implicit Types (w : Front V).

Abbreviation astep := (astep (V:=V) max_pending max_metadata_bytes).

Lemma service_ok_mono c c' (s : ApprovalService V) :
  c ⊆ c' → service_ok max_pending c s → service_ok max_pending c' s.
Proof.
  intros Hc [P1 P2 P3 P4]. split; try done. intros chan ch d Hch Hd.
  destruct (P2 chan ch d Hch Hd) as [E Ha]. split; [done|]. intros Hacc. destruct (Ha Hacc). split; [set_solver|done].
Qed.

Lemma front_new_ok (k : Core V) : front_ok max_pending (front_new k).
Proof. split; [split|]; simpl; intros *; try by rewrite lookup_empty. rewrite map_size_empty. lia. Qed.

(** The invariant holds and every step is a step of the ledger. *)
Lemma astep_ok w w' :
  astep w w' → front_ok max_pending w → front_ok max_pending w' ∧ ledger_step (ledger w) (ledger w').
Proof.
  intros Hs [Hok Hjobs].
  destruct Hs as [w jid job Hn Hcall|w jid job timeout Hjid|w jid|w k Hset].
  - split; [|constructor]. split; [eapply service_ok_mono; [|exact Hok]; simpl; set_solver|].
    simpl. intros jid' job' Hj. apply lookup_insert_Some in Hj as [[<- <-]|[_ Hj]].
    + destruct job; try done. simpl. destruct accepted; [|done]. set_solver.
    + eapply job_ok_mono; [..|by eapply Hjobs]; [set_solver|done|constructor|reflexivity].
  - unfold aadvance.
    pose proof (step_job_ok max_pending max_metadata_bytes (fr_consents w)
      (admitting job (as_core (fr_service w)) (fr_ticks w) ∪ fr_admitted w) (jobs_of w) timeout job
      (fr_service w) (fr_ticks w) Hok) as Hstep.
    unfold wp in Hstep. destruct (step_job _ _ _ _ _ _ _) as [[r s'] n'].
    destruct Hstep as (Hs' & Hl & Hgrow & Hnew); [|set_solver|].
    { eapply job_ok_mono; [..|by eapply Hjobs]; [done|set_solver|constructor|reflexivity]. }
    split; [|done]. split; [done|]. simpl. intros jid' job' Hj.
    assert (fr_jobs w !! jid' = Some job' ∨ r = Ok (Some job')) as [Hold|Hr].
    { destruct r as [[job0|]|e]; [|by left..]. apply lookup_insert_Some in Hj as [[<- <-]|[_ Hj]]; [by right|by left]. }
    + eapply job_ok_mono; [..|by eapply Hjobs]; [done|set_solver|exact Hl|exact Hgrow].
    + by apply Hnew.
  - split; [|constructor]. split; [done|]. simpl. intros jid' job' Hj.
    apply lookup_delete_Some in Hj as [_ Hj]. by eapply Hjobs.
  - assert (ledger_step (ledger w) (ledger_of (k_history k))) as Hl by by apply ledger_settle.
    split; [|done]. split; [by apply service_ok_core|]. simpl. intros jid' job' Hj.
    eapply job_ok_mono; [..|by eapply Hjobs]; [done|done|exact Hl|reflexivity].
Qed.

Lemma reachable_ok k w :
  rtc astep (front_new k) w → front_ok max_pending w ∧ rtc ledger_step (ledger (front_new k)) (ledger w).
Proof.
  intros Hr. pose proof (front_new_ok k) as Hok. revert Hr Hok. generalize (front_new k) as w0.
  induction 1 as [w0|w0 w1 w2 Hs _ IH]; intros Hok; [done|].
  destruct (astep_ok _ _ Hs Hok) as [Hok1 Hl]. destruct (IH Hok1) as [Hok2 Hl2].
  split; [done|]. by eapply rtc_l.
Qed.

Abbreviation policy w := (k_access (as_core (fr_service w))).

(** C9: the approval service implements the register of requests. Under every
    interleaving of prompts, answers, timeouts, dropped connections, failing statements and
    receipts, each step is a step of the ledger, in which an open request is decided once and
    only a granted one is used; and whoever is told that a request is approved is the endpoint
    for which this very request stands in the ledger as granted, for this very transfer. The
    service changes the access policy in two ways only: it drops a session whose time is up, and
    it opens one, for the lifetime of an approval, to the endpoint and the transfer of a request
    that is granted and that the local user accepted; a prompt whose request was accepted does
    open it. *)
Theorem approvals_refine_ledger k w w' :
  rtc astep (front_new k) w → astep w w' →
  ledger_step (ledger w) (ledger w') ∧
  (∀ jid remote request id token expires_at name,
     fr_jobs w' !! jid = Some (Answered remote request (HandshakeApproved id token expires_at name)) →
     granted (ledger w') id (rt_transfer_id request) remote) ∧
  (∀ jid job timeout, fr_jobs w !! jid = Some job →
     let w1 := aadvance max_pending max_metadata_bytes timeout jid job w in
     policy_step (fr_consents w1) (ledger w1) (policy w) (policy w1) ∧
     ∀ remote request id, job = WaitApprove remote request id → ∃ n,
       approved_sessions (policy w1) !! (rt_transfer_id request, remote) =
         Some {| expires_at := Some (clock n + APPROVAL_TTL_MS) |}).
Proof.
  intros Hr Hs. destruct (reachable_ok _ _ Hr) as [Hok _]. destruct (astep_ok _ _ Hs Hok) as [[_ Hjobs] Hl].
  split; [done|]. split; [intros * Hj; apply (Hjobs _ _ Hj)|]. intros jid job timeout Hj. unfold aadvance.
  destruct Hok as [_ Hjobs0].
  pose proof (wp_policy_job max_pending max_metadata_bytes (fr_consents w) (fr_admitted w) (jobs_of w) timeout job
    (fr_service w) (fr_ticks w) (Hjobs0 _ _ Hj)) as Hp. unfold wp in Hp.
  by destruct (step_job _ _ _ _ _ _ _) as [[r s'] n'].
Qed.

(** C10: nobody is approved behind the user's back. An approved answer goes
    only to a request that the local user has accepted, or to an endpoint that the access
    policy admitted to this transfer when it was asked; and prompts never exceed their limit. *)
Theorem approvals_need_consent k w :
  rtc astep (front_new k) w →
  Z.of_nat (size (as_pending (fr_service w))) ≤ Z.max 0 max_pending ∧
  (∀ jid remote request id token expires_at name,
     fr_jobs w !! jid = Some (Answered remote request (HandshakeApproved id token expires_at name)) →
     id ∈ fr_consents w ∨ (rt_transfer_id request, remote) ∈ fr_admitted w).
Proof.
  intros Hr. destruct (reachable_ok _ _ Hr) as [[[_ _ _ Hb] Hjobs] _]. split; [done|].
  intros * Hj. apply (Hjobs _ _ Hj).
Qed.
End Properties.

(** ** Receipts *)

Section ReceiptProperties.
Context `{Env} `{ForeignText} `{Host} `{Blake3} `{Blake3Hash} {V : Type} `{SecureSecretStore V}.
Implicit Types (k : Core V).

Lemma entry_settles_refl e : entry_settles e e.
Proof. destruct e as [[[t p] v]|]; [|done]. split; [done|]. split; [done|by left]. Qed.

(** One accepted request moves on. *)
Lemma settles_insert h id q status reason at_ token completed :
  receiver_requests h !! id = Some q → q_status q = "accepted"%string →
  status ∈ ["completed"; "failed"]%string → ∀ id',
  entry_settles (ledger_of h !! id')
    (ledger_of (on_requests <[id := set_request status reason at_ token completed q]> h) !! id').
Proof.
  intros Hq Ha Hs id'. rewrite ledger_insert. destruct (decide (id' = id)) as [->|Hne].
  - rewrite lookup_insert_eq, (ledger_lookup _ _ _ Hq). simpl. naive_solver.
  - rewrite lookup_insert_ne by done. apply entry_settles_refl.
Qed.

Lemma receipt_matches_ok id t remote token status q :
  receipt_matches id t remote token status id q = true →
  q_transfer_id q = t ∧ q_remote_endpoint_id q = remote ∧ q_receipt_token_hash q = Some token ∧
  q_status q = status.
Proof. unfold receipt_matches. intros E. by bool_simpl. Qed.

(** The request a receipt speaks for: granted to that endpoint, with that token. *)
Definition receipted k (id : string) (t : Z) (remote token : string) : Prop :=
  granted (ledger_of (k_history k)) id t remote ∧
  ∃ q, receiver_requests (k_history k) !! id = Some q ∧
    q_receipt_token_hash q = Some (receipt_token_hash token).

(** A receipt is recorded only from the endpoint to which the request was granted,
    for that transfer and with the token it was given. Whatever happens, the requests only
    settle as the ledger allows, so a receipt is one of the steps of the rest of the core; and
    a rejected receipt makes nobody eligible for pairing. *)
Theorem receipts_settle_requests protected local pairs remote receipt failure k n :
  let settled k' := ∀ id, entry_settles (ledger_of (k_history k) !! id) (ledger_of (k_history k') !! id) in
  wp (complete_delivery protected local pairs remote receipt) k n (λ res k' _, settled k' ∧
    match res with
    | Ok ReceiptRecorded =>
        receipted k (dr_request_id receipt) (dr_transfer_id receipt) remote (dr_token receipt)
    | _ => k_domain k' = k_domain k
    end) ∧
  wp (fail_delivery remote failure) k n (λ res k' _, settled k' ∧ k_domain k' = k_domain k ∧
    (res = Ok ReceiptRecorded →
     receipted k (df_request_id failure) (df_transfer_id failure) remote (df_token failure))).
Proof.
  intros settled.
  assert (settled k) as Hsame by by intros id; apply entry_settles_refl.
  split.
  - apply wp_bind, wp_try. apply wp_map_err, wp_zoom.
    eapply wp_mono; [apply wp_complete_receiver_delivery|]. intros r h n' [Hok Hh].
    assert (settled (set_history h k)) as Hset.
    { destruct Hh as [->|(q & now & Hq & Hm & ->)]; [done|].
      apply receipt_matches_ok in Hm as (_ & _ & _ & Hst). intros id'. simpl. apply settles_insert; [done|done|set_solver]. }
    destruct r as [name|e]; simpl; [|by apply wp_ret].
    assert (receipted k (dr_request_id receipt) (dr_transfer_id receipt) remote (dr_token receipt)) as Hr.
    { destruct Hok as (q & Hq & <- & <- & Ht & Hst & _); [done|]. split; [|by exists q].
      exists (q_status q). split; [by apply ledger_lookup|]. set_solver. }
    apply wp_bind. destruct pairs; [|by apply wp_ret, wp_ret].
    apply wp_bind, wp_try, wp_in_domain. unfold wp. destruct (activate_after_completed_transfer _ _ _ _ _ _ _ _) as [[??]?].
    done.
  - apply wp_bind, wp_try. apply wp_map_err, wp_zoom.
    eapply wp_mono; [apply wp_fail_receiver_delivery|]. intros r h n' [Hok Hh]. apply wp_ret.
    split; [|split; [done|]].
    + destruct Hh as [->|(q & Hq & Hm & ->)]; [done|].
      apply receipt_matches_ok in Hm as (_ & _ & _ & Hst). intros id'. simpl. apply settles_insert; [done|done|set_solver].
    + destruct r as [[]|e]; [|done]. intros _. destruct Hok as (q & Hq & <- & <- & Ht & Hst); [done|].
      split; [|by exists q]. exists (q_status q). split; [by apply ledger_lookup|]. set_solver.
Qed.
End ReceiptProperties.

(** ** Concrete runs *)

Inductive AMove : Type :=
| ACall (jid : nat) (job : Job)
| ARun (jid : nat) (timeout : bool).

Section Play.
Context `{Env} `{ForeignText} `{Blake3Hash} {V : Type}.
Variable max_pending : Z.
Variable max_metadata_bytes : Z.

Definition aplay (w : Front V) (m : AMove) : Front V :=
  match m with
  | ACall jid job =>
      match fr_jobs w !! jid with
      | Some _ => w
      | None => if call_point job then arrive jid job w else w
      end
  | ARun jid timeout =>
      match fr_jobs w !! jid with
      | Some job => aadvance max_pending max_metadata_bytes timeout jid job w
      | None => w
      end
  end.

Lemma aplay_steps w moves :
  rtc (astep max_pending max_metadata_bytes) w (fold_left aplay moves w).
Proof.
  revert w. induction moves as [|m moves IH]; intros w; [apply rtc_refl|]. simpl.
  etrans; [|apply IH]. destruct m as [jid job|jid timeout]; simpl.
  - destruct (fr_jobs w !! jid) eqn:E; [apply rtc_refl|].
    destruct (call_point job) eqn:Ec; [|apply rtc_refl]. by apply rtc_once, astep_call.
  - destruct (fr_jobs w !! jid) as [job|] eqn:E; [|apply rtc_refl]. by apply rtc_once, astep_run.
Qed.
End Play.

Section Scenarios.
#[local] Existing Instance demo_text.
#[local] Existing Instance demo_env_history.
#[local] Instance approval_hash : Blake3Hash := {| blake3_hash := λ s, s; hash_to_hex := λ s, s |}.

Definition demo_sharing : Core unit := {|
  k_domain := {| devices := {| relationships := ∅; tombstones := ∅ |}; eligibilities := ∅; blocked := ∅;
                 vault := {| secret_refs := ∅; secret_store := tt; legacy_identity := None |} |};
  k_tables := empty_tables;
  k_history := demo_history [OpInsertTransfer {|
    u_transfer_id := 5; u_peer_id := None; u_direction := Send; u_status := Sharing;
    u_transfer_name := Some "photos"; u_sender_name := Some "ann"; u_content_hash := Some "h";
    u_ticket := Some "ticket"; u_file_count := 2; u_total_size := 10;
    u_access_mode := "approval_required" |}%string];
  k_inbox := inbox_new;
  k_access := {| modes := {[5 := ApprovalRequired]}; approved_sessions := ∅ |};
  k_active := ∅; k_hashes := ∅; k_tags := ∅ |}.

Definition demo_asks : RequestTransfer := request_of_ticket "1" 5 "h" "photos" None.

Definition aruns (jid k : nat) : list AMove := replicate k (ARun jid false).

(** Bob asks and the user accepts. *)
Definition prompt_scenario : Front unit :=
  fold_left (aplay 16 1024)
    ([ACall 1 (RequestArrives "bob" demo_asks)] ++ aruns 1 5 ++
     [ACall 2 (RespondTake "2" true None)] ++ aruns 2 2 ++ aruns 1 4) (front_new demo_sharing).
Definition told (response : HandshakeResponse) : Job := Answered "bob" demo_asks response.

Lemma prompt_outcome :
  fr_jobs prompt_scenario !! 1%nat = Some (told (HandshakeApproved "2" "7" 601000 None)) ∧
  fr_jobs prompt_scenario !! 2%nat = Some (RespondDone "2" true (Ok tt)).
Proof. split; vm_compute; reflexivity. Qed.

Lemma approvals_need_consent_witness :
  fr_jobs prompt_scenario !! 1%nat = Some (told (HandshakeApproved "2" "7" 601000 None)) ∧
  ("2"%string ∈ fr_consents prompt_scenario ∨ (5, "bob"%string) ∈ fr_admitted prompt_scenario).
Proof.
  assert (fr_jobs prompt_scenario !! 1%nat = Some (told (HandshakeApproved "2" "7" 601000 None))) as E
    by (vm_compute; reflexivity).
  split; [exact E|].
  exact (proj2 (approvals_need_consent 16 1024 demo_sharing prompt_scenario (aplay_steps 16 1024 _ _))
           1%nat _ _ _ _ _ _ E).
Defined.

(** The request is granted; the next section of its handler opens the access. *)
Definition granted_scenario : Front unit :=
  fold_left (aplay 16 1024)
    ([ACall 1 (RequestArrives "bob" demo_asks)] ++ aruns 1 5 ++
     [ACall 2 (RespondTake "2" true None)] ++ aruns 2 2 ++ aruns 1 1) (front_new demo_sharing).

Lemma approvals_refine_ledger_witness :
  granted (ledger (aadvance 16 1024 false 1 (told (HandshakeApproved "2" "7" 601000 None)) prompt_scenario))
    "2" 5 "bob" ∧
  approved_sessions (k_access (as_core (fr_service granted_scenario))) = ∅ ∧
  ∃ n, approved_sessions (k_access (as_core (fr_service
         (aadvance 16 1024 false 1 (WaitApprove "bob" demo_asks "2") granted_scenario)))) !! (5, "bob"%string) =
    Some {| expires_at := Some (clock n + APPROVAL_TTL_MS) |}.
Proof.
  assert (fr_jobs prompt_scenario !! 1%nat = Some (told (HandshakeApproved "2" "7" 601000 None))) as E
    by (vm_compute; reflexivity).
  assert (fr_jobs granted_scenario !! 1%nat = Some (WaitApprove "bob" demo_asks "2")) as Eg
    by (vm_compute; reflexivity).
  split; [|split; [vm_compute; reflexivity|]].
  - refine (proj1 (proj2 (approvals_refine_ledger 16 1024 demo_sharing prompt_scenario _ (aplay_steps 16 1024 _ _)
           (astep_run 16 1024 prompt_scenario 1%nat _ false E))) 1%nat _ demo_asks _ "7"%string 601000 None _).
    vm_compute; reflexivity.
  - exact (proj2 (proj2 (proj2 (approvals_refine_ledger 16 1024 demo_sharing granted_scenario _ (aplay_steps 16 1024 _ _)
           (astep_run 16 1024 granted_scenario 1%nat _ false Eg))) 1%nat _ false Eg) "bob"%string demo_asks "2"%string eq_refl).
Defined.

(** The timer of a prompt fires while the user's acceptance is being written. *)
Definition late_scenario : Front unit :=
  fold_left (aplay 16 1024)
    ([ACall 1 (RequestArrives "bob" demo_asks)] ++ aruns 1 5 ++
     [ACall 2 (RespondTake "2" true None)] ++ aruns 2 1 ++ [ARun 1 true] ++ aruns 2 1 ++ aruns 1 2)
    (front_new demo_sharing).

(** An accepted request can be turned away. In a reachable world the user's
    acceptance has succeeded and stands in the history for good, and yet the receiver has been
    told that the approval timed out, and no session admits it. *)
Theorem accepted_request_can_be_denied :
  ∃ w, rtc (astep 16 1024) (front_new demo_sharing) w ∧
    fr_jobs w !! 2%nat = Some (RespondDone "2" true (Ok tt)) ∧
    fr_jobs w !! 1%nat = Some (told (HandshakeDenied "approval-timeout")) ∧
    ledger w !! "2"%string = Some (5, "bob", "accepted")%string ∧
    approved_sessions (k_access (as_core (fr_service w))) = ∅.
Proof. exists late_scenario. split; [apply aplay_steps|]. split_and!; vm_compute; reflexivity. Qed.
End Scenarios.
