(* ===== verification/Authorization.v ===== *)
(** * [targeted_transfer/auth.rs] and [authorization_custody.rs]: the capability of a transfer

    After the receiver has approved an offer, the sender issues an authorization: the
    facts of the transfer, a fresh secret and a MAC of the facts under that secret. Both
    sides keep the secret in custody and the facts in their row, and rebuild the
    authorization from them when it has to be presented again. *)

From S2P Require Import Prelude Sql ControlPlane Errors States Api Ticket TargetedStore Access Invitation Inbox SecureSecret Relationship Pairing Devices Core.

(** ** [auth.rs] *)

Definition AUTH_CONTEXT : string := "vnidrop-targeted-auth-v1".
Definition AUTH_PREFIX : string := "vndta1:".

Record TargetedAuthorizationDraft : Type := {
  td_transfer_id : string;
  td_protocol_transfer_id : Z;
  td_sender_endpoint_id : string;
  td_receiver_endpoint_id : string;
  td_manifest_id : string;
  td_content_hash : string;
  td_file_count : Z;
  td_total_size : Z;
  td_protocol_version : Z;
  td_transfer_name : string;
  td_blob_ticket : string
}.

(** The crate [serde_json]: the JSON text of an authorization and its parser. *)
Class Codec : Type := {
  auth_to_json : TargetedAuthorization → result string AnyhowError;
  auth_of_json : string → option TargetedAuthorization
}.

Class CodecLaws `{Codec} : Prop := {
  json_roundtrip auth text : auth_to_json auth = Ok text → auth_of_json text = Some auth
}.

Definition with_mac (mac : string) (auth : TargetedAuthorization) : TargetedAuthorization := {|
  au_transfer_id := au_transfer_id auth; au_protocol_transfer_id := au_protocol_transfer_id auth;
  au_sender_endpoint_id := au_sender_endpoint_id auth;
  au_receiver_endpoint_id := au_receiver_endpoint_id auth;
  au_manifest_id := au_manifest_id auth; au_content_hash := au_content_hash auth;
  au_file_count := au_file_count auth; au_total_size := au_total_size auth;
  au_protocol_version := au_protocol_version auth; au_transfer_name := au_transfer_name auth;
  au_blob_ticket := au_blob_ticket auth; au_auth_secret := au_auth_secret auth; au_mac := mac |}.

(** The struct literal of [issue] and [reconstruct_authorization], with an empty MAC. *)
Definition unsigned (draft : TargetedAuthorizationDraft) (auth_secret : string) :
    TargetedAuthorization := {|
  au_transfer_id := td_transfer_id draft; au_protocol_transfer_id := td_protocol_transfer_id draft;
  au_sender_endpoint_id := td_sender_endpoint_id draft;
  au_receiver_endpoint_id := td_receiver_endpoint_id draft;
  au_manifest_id := td_manifest_id draft; au_content_hash := td_content_hash draft;
  au_file_count := td_file_count draft; au_total_size := td_total_size draft;
  au_protocol_version := td_protocol_version draft; au_transfer_name := td_transfer_name draft;
  au_blob_ticket := td_blob_ticket draft; au_auth_secret := auth_secret; au_mac := EmptyString |}.

Definition bound_fields (auth : TargetedAuthorization) : list string :=
  [au_transfer_id auth; au_sender_endpoint_id auth; au_receiver_endpoint_id auth;
   au_manifest_id auth; au_content_hash auth; au_transfer_name auth; au_blob_ticket auth].

Definition length_prefixed (field : string) : string := u64_le (str_len field) +:+ field.

(** The updates of the keyed hasher. *)
Definition authorization_mac_input (auth : TargetedAuthorization) : string :=
  AUTH_CONTEXT +:+ foldr (λ field rest, length_prefixed field +:+ rest)
    (u64_le (au_protocol_transfer_id auth) +:+ u64_le (au_file_count auth) +:+
     u64_le (au_total_size auth) +:+ u16_le (au_protocol_version auth))
    (bound_fields auth).

Section Auth.
Context `{ForeignText} `{Host} `{Blake3} `{!Base64} `{Codec} {V : Type} `{!Network V}.

Definition denied_auth (m : string) : VnidropError := permission (anyhow_msg m).
Definition invalid_auth (m : string) : VnidropError := invalid_input (anyhow_msg m).

Definition secret_bytes (auth : TargetedAuthorization) : result string VnidropError :=
  match hexlower_decode (au_auth_secret auth) with
  | None => Err (invalid_auth "invalid authorization secret")
  | Some bytes => if Nat.eqb (String.length bytes) 32 then Ok bytes
                  else Err (invalid_auth "invalid authorization secret length")
  end.

Definition compute_mac (auth : TargetedAuthorization) : result string VnidropError :=
  let? key := secret_bytes auth in Ok (keyed_hash key (authorization_mac_input auth)).

Definition sign (auth : TargetedAuthorization) : result TargetedAuthorization VnidropError :=
  let? mac := compute_mac auth in Ok (with_mac (hexlower_encode mac) auth).

Definition verify_integrity (auth : TargetedAuthorization) : result unit VnidropError :=
  let? expected := compute_mac auth in
  match hexlower_decode (au_mac auth) with
  | None => Err (invalid_auth "invalid authorization mac")
  | Some presented => if str_eqb presented expected then Ok tt
                      else Err (denied_auth "targeted authorization mac mismatch")
  end.

Definition verify_for_receiver (auth : TargetedAuthorization) (local_endpoint_id : string) :
    result unit VnidropError :=
  let? _ := verify_integrity auth in
  if str_eqb (au_receiver_endpoint_id auth) local_endpoint_id then Ok tt
  else Err (denied_auth "targeted authorization is bound to a different receiver").

Definition encode_authorization (auth : TargetedAuthorization) : result string VnidropError :=
  let? bytes := result_map_err internal (auth_to_json auth) in
  Ok (AUTH_PREFIX +:+ base64url_encode bytes).

Definition decode_authorization (value : string) : result TargetedAuthorization VnidropError :=
  match strip_prefix AUTH_PREFIX value with
  | None => Err (invalid_auth "not a targeted authorization")
  | Some encoded =>
      match base64url_decode encoded with
      | None => Err (invalid_auth "invalid targeted authorization encoding")
      | Some bytes =>
          match auth_of_json bytes with
          | None => Err (invalid_auth "invalid targeted authorization payload")
          | Some auth => let? _ := verify_integrity auth in Ok auth
          end
      end
  end.

Definition auth_secret_material (auth : TargetedAuthorization) : result SecretMaterial VnidropError :=
  let? bytes := secret_bytes auth in secret_material_new bytes.

Definition reconstruct_authorization (draft : TargetedAuthorizationDraft)
    (secret_material : SecretMaterial) : result TargetedAuthorization VnidropError :=
  sign (unsigned draft (hexlower_encode (material_bytes secret_material))).

(** [TargetedAuthorization::issue]; the secret is [GrantSecret::generate().encode()]. *)
Definition issue (draft : TargetedAuthorizationDraft) : M (Core V) VnidropError TargetedAuthorization :=
  secret ← in_domain (random GRANT_SECRET_LEN);
  of_result (sign (unsigned draft (hexlower_encode secret))).
End Auth.

(** ** [authorization_custody.rs] *)

Section Custody.
Context `{Env} `{ForeignText} `{Host} `{Blake3} `{!Base64} `{Codec} {V : Type} `{SecureSecretStore V} `{!Network V}.
Variable protected : bool.

Abbreviation IO := (M (Core V) VnidropError).

Definition require_custody : IO unit :=
  if protected then ret tt
  else fail (SecureStorageUnavailable "targeted authorization requires protected custody").

(** The states in which a receiver row already carries an authorization. *)
Definition authorized_state (state : TargetedTransferState) : bool :=
  match state with
  | Approved | Connecting | Transferring | Interrupted | States.Completed => true
  | _ => false
  end.

(** [exact]: the row is the receiver side of the very transfer. *)
Definition exact_row (row : TargetedTransferRow) (authorization : TargetedAuthorization) : bool :=
  bool_decide (tr_role row = Receiver) && authorized_state (tr_state row) &&
  (tr_protocol_transfer_id row =? au_protocol_transfer_id authorization) &&
  str_eqb (tr_sender_endpoint_id row) (au_sender_endpoint_id authorization) &&
  str_eqb (tr_receiver_endpoint_id row) (au_receiver_endpoint_id authorization) &&
  str_eqb (tr_manifest_id row) (au_manifest_id authorization) &&
  str_eqb (tr_content_hash row) (au_content_hash authorization) &&
  str_eqb (tr_transfer_name row) (au_transfer_name authorization) &&
  (tr_file_count row =? au_file_count authorization) &&
  (tr_total_size row =? au_total_size authorization) &&
  opt_eqb (tr_blob_ticket row) (au_blob_ticket authorization).

(** The draft that is rebuilt from a row. *)
Definition draft_of_row (row : TargetedTransferRow) (protocol_version : Z) (blob_ticket : string) :
    TargetedAuthorizationDraft := {|
  td_transfer_id := tr_id row; td_protocol_transfer_id := tr_protocol_transfer_id row;
  td_sender_endpoint_id := tr_sender_endpoint_id row;
  td_receiver_endpoint_id := tr_receiver_endpoint_id row;
  td_manifest_id := tr_manifest_id row; td_content_hash := tr_content_hash row;
  td_file_count := tr_file_count row; td_total_size := tr_total_size row;
  td_protocol_version := protocol_version; td_transfer_name := tr_transfer_name row;
  td_blob_ticket := blob_ticket |}.

(** A delivery for a row that exists: it must be the delivery that made the row. An exact row
    has a ticket ([expect("checked blob ticket")]). *)
Definition replayed_delivery (row : TargetedTransferRow) (authorization : TargetedAuthorization) :
    IO bool :=
  match tr_authorization_secret_handle row with
  | None => fail (SecureStorageMissing "receiver authorization handle is missing")
  | Some handle =>
      if negb (exact_row row authorization)
      then fail (denied_auth "targeted authorization conflicts with receiver state")
      else
        material ← in_custody_of (load handle);
        rebuilt ← of_result (reconstruct_authorization
          (draft_of_row row (au_protocol_version authorization)
             (default EmptyString (tr_blob_ticket row))) material);
        left ← of_result (encode_authorization rebuilt);
        right ← of_result (encode_authorization authorization);
        if str_eqb left right then ret false
        else fail (denied_auth "protected receiver authorization does not match delivery")
  end.

(** [if let Err(cleanup_error) = custody.remove(&handle).await { warn }; return Err(error)]. *)
Definition roll_back {A} (handle : SecretHandle) (error : VnidropError) : IO A :=
  try (E:=VnidropError) (in_custody_of (remove handle));; fail error.

Definition persist_receiver (authorization : TargetedAuthorization) : IO bool :=
  require_custody;;
  found ← in_tables (get_row (au_transfer_id authorization));
  match found with
  | Some row => replayed_delivery row authorization
  | None =>
      invitations ← in_repository list_stored_transfers;
      if existsb (λ transfer, st_transfer_id transfer =? au_protocol_transfer_id authorization)
           invitations
      then fail (invalid_auth "targeted transfer protocol id collides with invitation work")
      else
        material ← of_result (auth_secret_material authorization);
        handle ← in_custody_of (protect TargetedAuthorizationSecret material None);
        created ← try (E:=VnidropError)
          (in_tables (persist_receiver_authorization_and_consume_intent authorization handle));
        match created with
        | Ok created => ret created
        | Err error => roll_back handle error
        end
  end.

Definition protect_sender (authorization : TargetedAuthorization) : IO unit :=
  require_custody;;
  material ← of_result (auth_secret_material authorization);
  handle ← in_custody_of (protect TargetedAuthorizationSecret material None);
  finalized ← try (E:=VnidropError) (in_tables (finalize_sender_authorization_and_enqueue
    (au_transfer_id authorization) (au_blob_ticket authorization) handle));
  match finalized with
  | Ok _ => ret tt
  | Err error => roll_back handle error
  end.

Definition load_authorization (row : TargetedTransferRow) : IO (option string) :=
  match tr_authorization_secret_handle row, tr_blob_ticket row with
  | Some handle, Some blob_ticket =>
      require_custody;;
      material ← in_custody_of (load handle);
      auth ← of_result (reconstruct_authorization
        (draft_of_row row (targeted_transfer_protocol_version saved_device_capabilities) blob_ticket)
        material);
      encoded ← of_result (encode_authorization auth);
      ret (Some encoded)
  | _, _ => ret None
  end.
End Custody.

(** ** What an authorization is worth *)

Section AuthLemmas.
Context `{ForeignText} `{Host} `{Blake3} `{!Base64} `{Codec} {V : Type} `{!Network V}.
Hypothesis hex_roundtrip : ∀ b, hexlower_decode (hexlower_encode b) = Some b.

Lemma compute_mac_with_mac mac auth : compute_mac (with_mac mac auth) = compute_mac auth.
Proof. done. Qed.

Lemma sign_Ok auth auth' :
  sign auth = Ok auth' → ∃ mac, compute_mac auth = Ok mac ∧ auth' = with_mac (hexlower_encode mac) auth.
Proof. unfold sign. destruct (compute_mac auth) as [mac|]; [|done]. intros [= <-]. by exists mac. Qed.

Lemma signed_verifies auth auth' : sign auth = Ok auth' → verify_integrity auth' = Ok tt.
Proof.
  intros (mac & Hmac & ->)%sign_Ok. unfold verify_integrity. rewrite compute_mac_with_mac, Hmac. simpl.
  rewrite hex_roundtrip. by rewrite str_eqb_refl.
Qed.

Lemma encode_Ok auth text :
  encode_authorization auth = Ok text →
  ∃ json, auth_to_json auth = Ok json ∧ text = AUTH_PREFIX +:+ base64url_encode json.
Proof.
  unfold encode_authorization. destruct (auth_to_json auth) as [json|]; [|done]. intros [= <-]. by exists json.
Qed.

Lemma decode_encode `{!Base64Laws} `{!CodecLaws} auth text :
  encode_authorization auth = Ok text → verify_integrity auth = Ok tt →
  decode_authorization text = Ok auth.
Proof.
  intros (json & Hj & ->)%encode_Ok Hv. unfold decode_authorization.
  rewrite strip_prefix_app, base64url_roundtrip, (json_roundtrip auth json) by done. by rewrite Hv.
Qed.

Lemma encode_inj `{!Base64Laws} `{!CodecLaws} auth auth' text :
  encode_authorization auth = Ok text → encode_authorization auth' = Ok text → auth = auth'.
Proof.
  intros (json & Hj & E)%encode_Ok (json' & Hj' & E')%encode_Ok. rewrite E in E'.
  apply str_app_inj_len in E' as [_ E']; [|done].
  pose proof (base64url_roundtrip json) as Hb. rewrite E', base64url_roundtrip in Hb. simplify_eq.
  apply json_roundtrip in Hj, Hj'. congruence.
Qed.

Lemma decode_Ok text auth : decode_authorization text = Ok auth → verify_integrity auth = Ok tt.
Proof.
  unfold decode_authorization. repeat (case_match; [|done]).
  destruct (verify_integrity _) as [[]|] eqn:E; simpl; [|done]. by intros [= <-].
Qed.

(** The MAC input determines every bound field. *)
Record field_bounds (auth : TargetedAuthorization) : Prop := {
  fb_lengths : Forall (λ f, is_u64 (str_len f)) (bound_fields auth);
  fb_protocol_transfer_id : is_u64 (au_protocol_transfer_id auth);
  fb_file_count : is_u64 (au_file_count auth);
  fb_total_size : is_u64 (au_total_size auth);
  fb_protocol_version : 0 ≤ au_protocol_version auth < 2 ^ 16
}.

Lemma length_prefixed_inj x y s t :
  is_u64 (str_len x) → is_u64 (str_len y) →
  length_prefixed x +:+ s = length_prefixed y +:+ t → x = y ∧ s = t.
Proof.
  unfold length_prefixed. intros Hx Hy E. rewrite !str_app_assoc in E.
  apply u64_le_app_inj in E as [El E]; [|done..]. apply str_app_inj_len in E; [done|].
  unfold str_len in El. lia.
Qed.

Lemma prefixed_list_inj xs ys s t :
  length xs = length ys →
  Forall (λ f, is_u64 (str_len f)) xs → Forall (λ f, is_u64 (str_len f)) ys →
  foldr (λ field rest, length_prefixed field +:+ rest) s xs =
  foldr (λ field rest, length_prefixed field +:+ rest) t ys → xs = ys ∧ s = t.
Proof.
  revert ys. induction xs as [|x xs IH]; intros [|y ys] Hl Hx Hy E; try done; cbn [foldr length] in *.
  injection Hl as Hl.
  apply Forall_cons in Hx as [Hx Hxs]. apply Forall_cons in Hy as [Hy Hys].
  apply length_prefixed_inj in E as [-> E]; [|done..].
  by destruct (IH ys Hl Hxs Hys E) as [-> ->].
Qed.

Lemma authorization_mac_input_inj auth auth' :
  field_bounds auth → field_bounds auth' →
  authorization_mac_input auth = authorization_mac_input auth' →
  with_mac (au_mac auth) auth' = with_mac (au_mac auth) auth ∨
  au_auth_secret auth ≠ au_auth_secret auth'.
Proof.
  intros [L1 P1 F1 T1 V1] [L2 P2 F2 T2 V2] E. unfold authorization_mac_input in E.
  apply str_app_inj_len in E as [_ E]; [|done].
  apply prefixed_list_inj in E as [Ef E]; [|done..].
  apply u64_le_app_inj in E as [Ep E]; [|done..]. apply u64_le_app_inj in E as [Ec E]; [|done..].
  apply u64_le_app_inj in E as [Et E]; [|done..]. apply u16_le_inj in E; [|done..].
  destruct (decide (au_auth_secret auth = au_auth_secret auth')) as [Es|]; [left|by right].
  destruct auth, auth'. unfold bound_fields, with_mac in *. simpl in *. by simplify_eq.
Qed.
End AuthLemmas.

(** *** Custody *)

Section CustodySpec.
Context `{Env} `{ForeignText} `{Host} `{Blake3} `{!Base64} `{Codec} {V : Type} `{SecureSecretStore V}
  `{!SecureSecretStoreLaws V} `{!Network V}.
Variable protected : bool.
Implicit Types (k : Core V).

Lemma wp_require_custody k n (Q : result unit VnidropError → Core V → nat → Prop) :
  (∀ e, Q (Err e) k n) → (protected = true → Q (Ok tt) k n) → wp (require_custody protected) k n Q.
Proof. unfold require_custody. destruct protected; intros He Ho; [by apply wp_ret, Ho | by apply wp_fail]. Qed.

Lemma wp_custody_load h k n Q :
  (∀ e w n', vault_shrinks (vault (k_domain k)) w → Q (Err e) (put_vault w k) n') →
  (∀ material w n', vault_shrinks (vault (k_domain k)) w →
     contents (secret_store (vault (k_domain k))) !! h = Some material →
     Q (Ok material) (put_vault w k) n') →
  wp (in_custody_of (load h)) k n Q.
Proof.
  intros He Ho. apply wp_in_custody_of, wp_load.
  - intros e v n' Hv. by apply He, vault_shrinks_store.
  - intros entry m v n' Hv _ _ _ Hm _. by apply Ho; [apply vault_shrinks_store|].
Qed.

(** [protect], for material that is not an identity: under the new handle the store holds
    the material. *)
Lemma wp_custody_protect kind material k n Q :
  (∀ e w n', Q (Err e) (put_vault w k) n') →
  (∀ h w n', secret_refs (vault (k_domain k)) !! h = None →
     contents (secret_store w) !! h = Some material →
     Q (Ok h) (put_vault w k) n') →
  wp (in_custody_of (protect kind material None)) k n Q.
Proof.
  intros He Ho. apply wp_in_custody_of, wp_protect; [intros; apply He|].
  intros h v created now n' Hn Hm _ _. by apply Ho.
Qed.

Lemma wp_roll_back {A} h error k n (Q : result A VnidropError → Core V → nat → Prop) :
  (∀ w n', Q (Err error) (put_vault w k) n') → wp (roll_back h error) k n Q.
Proof. intros HQ. apply wp_bind, wp_try, wp_in_custody_any. intros. by apply wp_fail. Qed.

Lemma wp_list_invitations k n (Q : result (list StoredTransfer) VnidropError → Core V → nat → Prop) :
  (∀ e n', Q (Err e) k n') →
  (∀ l n', (∀ id r, transfers (k_history k) !! id = Some r →
              ∃ st, st ∈ l ∧ st_transfer_id st = as_u64 id) → Q (Ok l) k n') →
  wp (in_repository list_stored_transfers) k n Q.
Proof.
  intros He Ho. assert (∀ e n', Q (result_map_err repository (Err e)) (set_history (k_history k) k) n') as He'.
  { intros. rewrite set_history_id. apply He. }
  apply wp_map_err, wp_zoom, wp_bind, wp_asql; [intros; apply He'|].
  intros _ rows h' [= <- <-]. apply wp_of_result.
  destruct (collect_results _ _) as [l|e] eqn:El; [|apply He']. rewrite set_history_id. apply Ho.
  intros id r Hr. apply collect_results_Ok in El.
  assert ((id, r) ∈ order_by latest_updated (map_to_list (transfers (k_history k)))) as Hin
    by (by apply elem_of_order_by, elem_of_map_to_list).
  apply list_elem_of_lookup in Hin as [i Hi]. destruct (Forall2_lookup_l _ _ _ _ _ El Hi) as (st & Hst & E).
  exists st. split; [by eapply list_elem_of_lookup_2|]. unfold row_to_stored in E.
  destruct (direction_try_from _); [|done]. simpl in E. destruct (status_try_from _); [|done]. by simplify_eq/=.
Qed.

(** The row of the very transfer, and the authorization its secret rebuilds. *)
Definition rebuilds (r : TransferColumns) (material : SecretMaterial) (auth : TargetedAuthorization) : Prop :=
  ∃ row, row_to_full (au_transfer_id auth, r) = Ok row ∧ exact_row row auth = true ∧
    reconstruct_authorization (draft_of_row row (au_protocol_version auth) (au_blob_ticket auth)) material
      = Ok auth.

(** The outcome of a delivery: [Ok true] for a new row, [Ok false] for a repetition. *)
Definition received (auth : TargetedAuthorization) k (res : result bool VnidropError) k' : Prop :=
  let id := au_transfer_id auth in
  match res with
  | Ok true => protected = true ∧
      targeted_transfers (k_tables k) !! id = None ∧
      (∀ tid, is_Some (transfers (k_history k) !! tid) → as_u64 tid ≠ au_protocol_transfer_id auth) ∧
      (∃ consent, accepted_offer_intents (k_tables k) !! id = Some consent ∧
         same_consent consent (authorized_intent auth) = true) ∧
      ∃ handle now bytes w, secret_bytes auth = Ok bytes ∧
        secret_refs (vault (k_domain k)) !! handle = None ∧
        contents (secret_store w) !! handle = Some {| material_bytes := bytes |} ∧
        k' = set_tables (on_intents (delete id)
               (on_transfers <[id := receiver_columns auth handle now]> (k_tables k))) (put_vault w k)
  | Ok false => (∃ w, k' = put_vault w k) ∧
      ∃ r handle material, targeted_transfers (k_tables k) !! id = Some r ∧
        c_authorization_secret_handle r = Some handle ∧
        contents (secret_store (vault (k_domain k))) !! handle = Some material ∧
        rebuilds r material auth
  | Err _ => ∃ w, k' = put_vault w k
  end.

Lemma wp_persist_receiver `{!Base64Laws} `{!CodecLaws} auth k n :
  wp (persist_receiver protected auth) k n (λ res k' _, received auth k res k').
Proof.
  set (id := au_transfer_id auth). unfold received. fold id.
  assert (∃ w, k = put_vault w k) as Hk by (exists (vault (k_domain k)); by rewrite put_vault_id).
  apply wp_bind, wp_require_custody; [done|]. intros Hp.
  apply wp_bind, wp_get_row; [done| |].
  - intros n1 Hn. apply wp_bind, wp_list_invitations; [done|]. intros l n2 Hl.
    destruct (existsb _ l) eqn:Ee; [by apply wp_fail|].
    apply wp_bind, wp_of_result. unfold auth_secret_material.
    destruct (secret_bytes auth) as [bytes|] eqn:Eb; simpl; [|done].
    unfold secret_material_new. destruct (negb _ || _); [done|].
    apply wp_bind, wp_custody_protect; [by eauto|]. intros h w n3 Hh Hm.
    apply wp_bind, wp_try, wp_in_tables, wp_persist_receiver_row.
    + intros e n4. rewrite set_tables_id. apply wp_roll_back. intros w' n5. exists w'. by rewrite put_vault_twice.
    + intros consent now n4 _ Hi Hc. apply wp_ret. split; [done|]. split; [done|]. split.
      * intros tid [r Hr] E. destruct (Hl tid r Hr) as (st & Hst & Est).
        assert (existsb (λ t, st_transfer_id t =? au_protocol_transfer_id auth) l = true); [|congruence].
        apply existsb_exists. exists st. split; [by apply list_elem_of_In|]. apply Z.eqb_eq. congruence.
      * split; [by exists consent|]. by exists h, now, bytes, w.
  - intros r row n1 Hr Hrow. unfold replayed_delivery.
    destruct (tr_authorization_secret_handle row) as [handle|] eqn:Eh; [|by apply wp_fail].
    destruct (exact_row row auth) eqn:Ex; simpl; [|by apply wp_fail].
    assert (tr_blob_ticket row = Some (au_blob_ticket auth)) as Et.
    { unfold exact_row in Ex. by bool_simpl. }
    rewrite Et. simpl. apply wp_bind, wp_custody_load; [by eauto|]. intros material w n2 _ Hm.
    apply wp_bind, wp_of_result. destruct (reconstruct_authorization _ material) as [rebuilt|] eqn:Er; [|by eauto].
    apply wp_bind, wp_of_result. destruct (encode_authorization rebuilt) as [left|] eqn:El; [|by eauto].
    apply wp_bind, wp_of_result. destruct (encode_authorization auth) as [right|] eqn:Er'; [|by eauto].
    destruct (str_eqb left right) eqn:E; [|by apply wp_fail; eauto]. apply str_eqb_eq in E as ->.
    assert (rebuilt = auth) as -> by by eapply encode_inj.
    apply wp_ret. split; [by eauto|]. exists r, handle, material. split; [done|]. split.
    + revert Hrow Eh. simpl. destruct (parse_role _), (parse_targeted_state _); try done. by intros [= <-].
    + split; [done|]. by exists row.
Qed.

(** C22: a delivered authorization is accepted exactly once, and only with consent.
    A first delivery creates the receiver's row only if no invitation transfer uses the same
    protocol id and a durable consent agrees with every bound field; the consent is consumed
    and the secret is in custody under a fresh handle. A repeated delivery changes nothing but
    the credential store and succeeds only if the row is that transfer's and the secret in
    custody rebuilds this very authorization. Every failure leaves all tables as they were. *)
Theorem persist_receiver_exact `{!Base64Laws} `{!CodecLaws} (auth : TargetedAuthorization) k n :
  wp (persist_receiver protected auth) k n (λ res k' _, received auth k res k').
Proof. apply wp_persist_receiver. Qed.
End CustodySpec.

(** The sender's row of a transfer that awaits approval, as [create] stored it. *)
Definition awaiting_row (r : TransferColumns) (draft : TargetedAuthorizationDraft) : Prop :=
  c_role r = "sender"%string ∧ c_state r = "awaiting_approval"%string ∧
  c_protocol_transfer_id r = as_i64 (td_protocol_transfer_id draft) ∧
  c_sender_endpoint_id r = td_sender_endpoint_id draft ∧
  c_receiver_endpoint_id r = td_receiver_endpoint_id draft ∧
  c_manifest_id r = td_manifest_id draft ∧ c_content_hash r = td_content_hash draft ∧
  c_transfer_name r = td_transfer_name draft ∧
  c_file_count r = as_i64 (td_file_count draft) ∧ c_total_size r = as_i64 (td_total_size draft).

(** What a sender does after approval, and a later request for the capability. *)
Definition issue_and_reload `{Env} `{ForeignText} `{Host} `{Blake3} `{!Base64} `{Codec} {V}
    `{SecureSecretStore V} `{!Network V} (protected : bool) (draft : TargetedAuthorizationDraft) :
    M (Core V) VnidropError (TargetedAuthorization * option string) :=
  auth ← issue draft;
  protect_sender protected auth;;
  found ← in_tables (get_row (au_transfer_id auth));
  match found with
  | Some row => text ← load_authorization protected row; ret (auth, text)
  | None => ret (auth, None)
  end.

Section Survives.
Context `{Env} `{ForeignText} `{Host} `{Blake3} `{!Base64} `{Codec} {V : Type} `{SecureSecretStore V}
  `{!SecureSecretStoreLaws V} `{!Network V} `{!Base64Laws} `{!CodecLaws}.
Implicit Types (k : Core V).

Lemma unsigned_of_row draft secret r ticket handle now row :
  is_u64 (td_protocol_transfer_id draft) → is_u64 (td_file_count draft) → is_u64 (td_total_size draft) →
  awaiting_row r draft →
  row_to_full (td_transfer_id draft, set_columns "approved" (c_verified_bytes r) (Some ticket)
                 (Some handle) now r) = Ok row →
  ticket = td_blob_ticket draft →
  unsigned (draft_of_row row (td_protocol_version draft) ticket) secret = unsigned draft secret ∧
  tr_authorization_secret_handle row = Some handle ∧ tr_blob_ticket row = Some ticket.
Proof.
  intros Hp Hf Ht (E1 & E2 & E3 & E4 & E5 & E6 & E7 & E8 & E9 & E10) Hrow ->.
  simpl in Hrow. rewrite E1 in Hrow. simpl in Hrow. simplify_eq/=. split; [|done].
  unfold unsigned, draft_of_row. simpl.
  rewrite E3, E4, E5, E6, E7, E8, E9, E10, !as_u64_as_i64 by done. done.
Qed.

(** The capability that a sender stores can be presented again. Whatever
    statements and credential calls fail, if issuing, protecting and reloading return, the
    text that comes back is the encoding of the authorization that was issued, it decodes to
    it, and it verifies at its receiver, although the counts went through signed columns and
    only the secret was kept. *)
Theorem authorization_survives_custody protected draft r k n
  (hex_roundtrip : ∀ b, hexlower_decode (hexlower_encode b) = Some b)
  (Hp : is_u64 (td_protocol_transfer_id draft)) (Hf : is_u64 (td_file_count draft))
  (Ht : is_u64 (td_total_size draft))
  (Hv : td_protocol_version draft = targeted_transfer_protocol_version saved_device_capabilities)
  (Hr : targeted_transfers (k_tables k) !! td_transfer_id draft = Some r)
  (Hrow : awaiting_row r draft) :
  wp (issue_and_reload protected draft) k n (λ res _ _, ∀ auth loaded, res = Ok (auth, loaded) →
    ∃ text, loaded = Some text ∧ encode_authorization auth = Ok text ∧
      decode_authorization text = Ok auth ∧
      verify_for_receiver auth (td_receiver_endpoint_id draft) = Ok tt).
Proof.
  set (secret := random_bytes n GRANT_SECRET_LEN).
  apply wp_bind, wp_bind. unfold wp, in_domain, zoom, random. rewrite set_domain_id. fold secret.
  apply wp_of_result. destruct (sign _) as [auth|] eqn:Hs; [|done].
  pose proof (signed_verifies hex_roundtrip _ _ Hs) as Hver.
  pose proof Hs as (mac & _ & Ea)%sign_Ok.
  assert (au_auth_secret auth = hexlower_encode secret) as Esec by by rewrite Ea.
  assert (au_transfer_id auth = td_transfer_id draft) as Eid by by rewrite Ea.
  assert (au_blob_ticket auth = td_blob_ticket draft) as Etick by by rewrite Ea.
  assert (au_receiver_endpoint_id auth = td_receiver_endpoint_id draft) as Erecv by by rewrite Ea.
  clear Ea mac.
  apply wp_bind, wp_bind, wp_require_custody; [done|]. intros Hprot.
  apply wp_bind, wp_of_result. unfold auth_secret_material, secret_bytes.
  rewrite Esec, hex_roundtrip. destruct (Nat.eqb _ 32); simpl; [|done].
  unfold secret_material_new. destruct (negb _ || _); [done|].
  apply wp_bind, wp_custody_protect; [done|]. intros h w n1 _ Hm.
  apply wp_bind, wp_try, wp_in_tables, wp_finalize_sender.
  { intros e n2. by apply wp_roll_back. }
  rewrite Eid, Etick. intros r' now n2 Hr' _ _. simpl in Hr'. assert (r' = r) as -> by congruence.
  apply wp_ret, wp_bind, wp_get_row; [done| |].
  { intros n3. simpl. by rewrite lookup_insert_eq. }
  intros r2 row n3 Hr2 Hfull. simpl in Hr2. rewrite lookup_insert_eq in Hr2. simplify_eq.
  destruct (unsigned_of_row draft (hexlower_encode secret) r _ h now row Hp Hf Ht Hrow Hfull eq_refl)
    as (Hu & Eh & Et).
  unfold load_authorization. rewrite Eh, Et. apply wp_bind, wp_bind, wp_require_custody; [done|]. intros _.
  apply wp_bind, wp_custody_load; [done|]. intros m w' n4 _ Hm'.
  assert (Some m = Some {| material_bytes := secret |}) as [= ->] by (etrans; [symmetry; exact Hm' | exact Hm]).
  apply wp_bind, wp_of_result. unfold reconstruct_authorization. cbn [material_bytes]. rewrite <- Hv, Hu, Hs.
  apply wp_bind, wp_of_result. destruct (encode_authorization _) as [text|] eqn:Etext; [|done].
  apply wp_ret, wp_ret. intros ? ? [= <- <-]. exists text. split; [done|]. split; [done|].
  split; [by apply decode_encode|]. unfold verify_for_receiver. rewrite Hver. simpl. by rewrite Erecv, str_eqb_refl.
Qed.
End Survives.

(** An issued capability cannot be altered. For a keyed hash without
    collisions, two authorizations with the same secret and MAC that both pass the integrity
    check agree in every field: transfer, parties, manifest, content, name, ticket, counts and
    protocol version. *)
Theorem authorization_tamper_evident `{ForeignText} `{Host} `{Blake3} auth auth'
  (collision_free : ∀ key m m', keyed_hash key m = keyed_hash key m' → m = m')
  (Hb : field_bounds auth) (Hb' : field_bounds auth')
  (Hsecret : au_auth_secret auth' = au_auth_secret auth) (Hmac : au_mac auth' = au_mac auth)
  (Hv : verify_integrity auth = Ok tt) (Hv' : verify_integrity auth' = Ok tt) :
  auth' = auth.
Proof.
  assert (∀ a, verify_integrity a = Ok tt → ∃ key, secret_bytes a = Ok key ∧
            hexlower_decode (au_mac a) = Some (keyed_hash key (authorization_mac_input a))) as Hof.
  { intros a. unfold verify_integrity, compute_mac. destruct (secret_bytes a) as [key|]; [|done]. simpl.
    destruct (hexlower_decode _); [|done]. destruct (str_eqb _ _) eqn:E; [|done].
    apply str_eqb_eq in E as ->. by exists key. }
  destruct (Hof _ Hv) as (key & Hk & Hd). destruct (Hof _ Hv') as (key' & Hk' & Hd').
  assert (key' = key) as ->. { unfold secret_bytes in *. rewrite Hsecret in Hk'. congruence. }
  rewrite Hmac, Hd in Hd'. injection Hd' as E%collision_free.
  destruct (authorization_mac_input_inj auth auth' Hb Hb' E) as [Ew|]; [|congruence].
  destruct auth, auth'. unfold with_mac in Ew. simpl in *. by simplify_eq.
Qed.

(** ** Witnesses *)

Section Witnesses.
#[local] Instance auth_env : Env := quiet_env 1000 (λ _, "uuid"%string).
#[local] Instance auth_text : ForeignText := demo_text.
#[local] Instance auth_host : Host := {|
  public_id := λ b, ("id-" +:+ b)%string;
  fresh_key := λ _, "0123456789abcdef0123456789abcdef"%string;
  hexlower_decode := λ s, Some s;
  fs_fault := λ _, None; polls := λ _, 3%nat; others := λ _ rows, rows |}.
#[local] Instance auth_blake3 : Blake3 := {| derive_key := λ c s, c +:+ s; keyed_hash := λ _ m, m |}.
#[local] Instance auth_network : Network FaultInjectingSecretStore := {|
  random_bytes := λ _ len, String.concat EmptyString (replicate len "r"%string);
  hexlower_encode := λ s, s; decode_error := λ _, "bad hex"%string; peer_addr_error := λ _ _, None;
  request_reply := λ _ _ _, None; consent_reply := λ _ _ _, None; ack_reply := λ _ _ _, None;
  meanwhile := λ _ d, d |}.

Definition demo_draft : TargetedAuthorizationDraft := {|
  td_transfer_id := "t1"; td_protocol_transfer_id := 2 ^ 63; td_sender_endpoint_id := "alice";
  td_receiver_endpoint_id := "bob"; td_manifest_id := "hash"; td_content_hash := "hash";
  td_file_count := 2; td_total_size := 30; td_protocol_version := 3; td_transfer_name := "photos";
  td_blob_ticket := "ticket" |}.

Definition demo_auth : TargetedAuthorization :=
  match sign (unsigned demo_draft "rrrrrrrrrrrrrrrrrrrrrrrrrrrrrrrr") with
  | Ok auth => auth
  | Err _ => unsigned demo_draft EmptyString
  end.

#[local] Existing Instance demo_base64.
#[local] Existing Instance demo_base64_laws.
#[local] Instance auth_codec : Codec := {|
  auth_to_json := λ auth, if decide (auth = demo_auth) then Ok "json"%string else Err (anyhow_msg "json");
  auth_of_json := λ text, if str_eqb text "json" then Some demo_auth else None |}.
#[local] Instance auth_codec_laws : CodecLaws.
Proof. split. intros auth text. simpl. case_decide as E; [|done]. by intros [= <-]; subst. Qed.

Definition demo_core (t : Tables) : Core FaultInjectingSecretStore := {|
  k_domain := {| devices := {| relationships := ∅; tombstones := ∅ |}; eligibilities := ∅; blocked := ∅;
                 vault := {| secret_refs := ∅; secret_store := empty_store; legacy_identity := None |} |};
  k_tables := t;
  k_history := {| transfers := ∅; received_artifacts := ∅; transfer_events := ∅; receiver_requests := ∅;
                  pending_delivery_receipts := ∅ |};
  k_inbox := inbox_new; k_access := access_policy_new; k_active := ∅; k_hashes := ∅; k_tags := ∅ |}.

Definition demo_awaiting : TransferColumns := {|
  c_protocol_transfer_id := as_i64 (2 ^ 63); c_sender_endpoint_id := "alice"; c_receiver_endpoint_id := "bob";
  c_manifest_id := "hash"; c_content_hash := "hash"; c_transfer_name := "photos"; c_file_count := 2; c_total_size := 30;
  c_verified_bytes := 0; c_blob_ticket := None; c_authorization_secret_handle := None; c_role := "sender";
  c_state := "awaiting_approval"; c_created_at := 1; c_updated_at := 1 |}.

Definition demo_approving : Core FaultInjectingSecretStore :=
  demo_core (on_transfers (λ _, {[ "t1"%string := demo_awaiting ]}) empty_tables).

(** The run succeeds, and the capability comes back. *)
Lemma authorization_survives_custody_witness :
  (Sql.run (issue_and_reload true demo_draft) demo_approving).1 = Ok (demo_auth, Some "vndta1:gkhdgpgo"%string) ∧
  ∃ text, Some "vndta1:gkhdgpgo"%string = Some text ∧ encode_authorization demo_auth = Ok text ∧
    decode_authorization text = Ok demo_auth ∧ verify_for_receiver demo_auth "bob" = Ok tt.
Proof.
  assert ((Sql.run (issue_and_reload true demo_draft) demo_approving).1
          = Ok (demo_auth, Some "vndta1:gkhdgpgo"%string)) as E by by vm_compute.
  split; [exact E|].
  refine (run_wp _ _ (λ res _, ∀ auth loaded, res = Ok (auth, loaded) → _)
    (authorization_survives_custody true demo_draft demo_awaiting demo_approving 0 _ _ _ _ _ _ _) _ _ E).
  - done.
  - split; vm_compute; discriminate.
  - split; vm_compute; discriminate.
  - split; vm_compute; discriminate.
  - reflexivity.
  - reflexivity.
  - unfold awaiting_row. split_and!; reflexivity.
Defined.

Lemma authorization_tamper_evident_witness : demo_auth = demo_auth.
Proof.
  assert (field_bounds demo_auth) as Hb.
  { split; [repeat constructor; vm_compute; discriminate | split; vm_compute; first [discriminate | reflexivity]..]. }
  apply authorization_tamper_evident; [by intros | exact Hb | exact Hb | reflexivity..].
Defined.

(** A first delivery, after the user consented. *)
Definition demo_consenting : Core FaultInjectingSecretStore :=
  demo_core (on_intents (λ _, {[ "t1"%string := authorized_intent demo_auth ]}) empty_tables).

Lemma persist_receiver_exact_witness :
  (Sql.run (persist_receiver true demo_auth) demo_consenting).1 = Ok true ∧
  targeted_transfers (k_tables demo_consenting) !! "t1"%string = None.
Proof.
  assert ((Sql.run (persist_receiver true demo_auth) demo_consenting).1 = Ok true) as E by by vm_compute.
  split; [exact E|].
  pose proof (run_wp _ _ (λ res k', _) (persist_receiver_exact true demo_auth demo_consenting 0)) as Hp.
  cbn beta in Hp. rewrite E in Hp. apply Hp.
Defined.
End Witnesses.
