(* ===== verification/TargetedModule.v ===== *)
(** * [targeted_transfer/module.rs] and [protocol.rs]: the life of a targeted transfer

    The module is the authority over targeted transfers: it answers the four requests a peer
    may send ([handle_offer], [handle_authorization], [handle_cancel], [handle_completion])
    and carries out what the local user and the restart ask for. It works on the whole core:
    its tables, custody, the relationships, the inbox, and, through the clean-up closure of
    [runtime/mod.rs], the access policy and the content served.

    A handler runs from its entry to its end except inside the inbox, whose calls go through
    several locks and wait for the user: there, between two critical sections, the other
    handlers may do anything ([Neighbours]). The lifecycle events are left out; the wrappers
    that only add an event to a store operation are that operation, on the tables. *)

From S2P Require Import Prelude Sql ControlPlane Errors States Api Ticket TargetedStore Access Invitation Inbox SecureSecret Relationship Pairing Devices Core Authorization.

(** ** Messages ([protocol.rs]) *)

Record SubmitTargetedOffer : Type := {
  so_proof : WireProof;
  so_generation : Z;
  so_relationship_protocol_version : Z;
  so_protocol_version : Z;
  so_transfer_id : string;
  so_sender_endpoint_id : string;
  so_receiver_endpoint_id : string;
  so_manifest_id : string;
  so_content_hash : string;
  so_transfer_name : string;
  so_file_count : Z;
  so_total_size : Z;
  so_relay_mode : CoreRelayMode;
  so_relay_urls : list string
}.

Inductive WireOfferResponse : Type :=
| WireAccepted
| WireDeclined (reason : string)
| WireRefused (reason : string).

Record DeliverTargetedAuthorization : Type := { da_transfer_id : string; da_authorization : string }.

Inductive DeliverAuthorizationResponse : Type := Stored | DeliveryRejected.

Record CancelTargetedOffer : Type := {
  co_transfer_id : string;
  co_terminal : option TargetedTransferState
}.

Inductive CancelWireOfferResponse : Type := WireCancelled | CancelRejected.

Record CompleteTargetedTransfer : Type := {
  cp_transfer_id : string;
  cp_verified_bytes : Z;
  cp_authorization : string
}.

Inductive CompletionResponse : Type := Recorded | CompletionRejected.

(** [parse_offer_relay_urls]; the error carries nothing. *)
Definition parse_offer_relay_urls `{Urls} (values : list string) : result (list RelayUrl) unit :=
  collect_results (λ value, result_map_err (λ _, tt) (parse_relay_url value)) values.

Definition map_offer_refuse_reason `{ForeignText} (reason : string) : VnidropError :=
  if str_eqb reason "relay-policy-incompatible" then
    relay_policy_incompatible (anyhow_msg "sender and receiver network profiles are incompatible")
  else if str_eqb reason "protocol-incompatible" then
    protocol_incompatible (anyhow_msg "targeted-transfer protocol is incompatible")
  else permission (anyhow_msg ("targeted offer refused: " +:+ reason)).

Inductive TargetedPreparationStopOutcome : Type :=
| PreparationStopped | TransferAbandoned | TransferCancelled | AlreadyTerminal.

(** [TargetedProtocolAuthority], with what the inbox and custody were configured with. *)
Record TargetedProtocolAuthority : Type := {
  ta_protected : bool;                        (* [custody.is_some()] *)
  ta_local_endpoint_id : string;
  ta_limits : CoreLimits;
  ta_relay_mode : CoreRelayMode;
  ta_custom_relay_urls : list RelayUrl;
  ta_cooldown : Cooldown.Config;
  ta_max_pending : Z
}.

(** The tasks inside the inbox at the same time, what other handlers do between two of its
    critical sections, how often a waiting call is woken before its timer fires, and whether
    deleting a tag of the blob store fails. *)
Class Neighbours (V : Type) : Type := {
  neighbour_tasks : nat → list Task;
  between : nat → Core V → Core V;
  patience : nat → nat;
  tag_fault : nat → option AnyhowError
}.

Definition targeted_tag_name (transfer_id : string) : string := "vnidrop/targeted/" +:+ transfer_id.

Section TargetedModule.
Context `{Env} `{ForeignText} `{Host} `{Blake3} `{!Base64} `{Codec} `{Urls} `{Addressing} `{!TicketCodec}
  {V : Type} `{SecureSecretStore V} `{!Network V} `{!Neighbours V}.
Variable authority : TargetedProtocolAuthority.

Abbreviation IO := (M (Core V) VnidropError).
Abbreviation protected := (ta_protected authority).
Abbreviation local_id := (ta_local_endpoint_id authority).

(** ** Calls into the inbox *)

Definition pause : IO unit := λ k n, (Ok tt, between n k, S n).

Definition neighbours : IO (list Task) := λ k n, (Ok (neighbour_tasks n), k, n).

(** One critical section; the task itself counts among those in flight. *)
Definition inbox_section (timeout : bool) (task : Task) : IO (option Task) :=
  pause;;
  others ← neighbours;
  in_inbox (step_task (ta_cooldown authority) (ta_max_pending authority) (task :: others) timeout task).

(** Run a call: a blocked task is woken [waits] times, then its timer fires. *)
Fixpoint inbox_call (fuel waits : nat) (task : Task) : IO Task :=
  match fuel with
  | O => ret task
  | S fuel =>
      next ← inbox_section (Nat.eqb waits 0) task;
      match next with
      | Some task => inbox_call fuel waits task
      | None => inbox_call fuel (pred waits) task
      end
  end.

Definition patient : IO nat := λ k n, (Ok (patience n), k, S n).
Definition unfinished : VnidropError := Internal "inbox call did not finish".

(** [inbox.submit(..)]: at most ten sections and [waits] wake-ups. *)
Definition inbox_submit (offer : PendingTargetedOffer) : IO TargetedOfferDecision :=
  waits ← patient;
  task ← inbox_call (waits + 10) waits (SubmitCooldown offer);
  match task with Submitted _ decision => ret decision | _ => fail unfinished end.

Definition inbox_deliver_authorization (transfer_id authorization : string) : IO bool :=
  task ← inbox_call 2 0 (DeliverSettled transfer_id authorization);
  match task with Delivered _ ok => ret ok | _ => fail unfinished end.

Definition inbox_discard_section (transfer_id : string) (stage : DiscardStage) : IO unit :=
  pause;;
  others ← neighbours;
  in_inbox (discard_stage others transfer_id stage);;
  ret tt.
Definition inbox_discard (transfer_id : string) : IO unit :=
  for_each [DropPending; DropDecision; DropAuth] (inbox_discard_section transfer_id).

Definition inbox_discard_from (endpoint_id : string) : IO unit :=
  pause;;
  i ← in_inbox Sql.get;
  for_each (pending_from endpoint_id i) inbox_discard.

(** [inbox.cooldown()]. *)
Definition cooling (identity : string) : IO bool :=
  in_inbox (in_cooldown (Cooldown.is_cooling identity)).
Definition malformed (identity : string) : IO unit :=
  in_inbox (in_cooldown (Cooldown.record_malformed (ta_cooldown authority) identity));; ret tt.

(** ** Clean-up (the closure of [runtime/mod.rs]) *)

Definition release_hashes (transfer_id : Z) (hashes : gmap string (gset Z)) : gmap string (gset Z) :=
  filter (λ kv, kv.2 ≠ ∅) ((λ owners, owners ∖ {[transfer_id]}) <$> hashes).

Definition delete_tag (tag : string) : IO unit := λ k n,
  match tag_fault n with
  | Some e => (Err (Errors.transfer e), k, S n)
  | None => (Ok tt, on_tags (λ tags, tags ∖ {[tag]}) k, S n)
  end.

Definition cleanup (row : TargetedTransferRow) : IO unit :=
  modify (on_active (λ ids, ids ∖ {[tr_id row]}));;
  modify (on_hashes (release_hashes (tr_protocol_transfer_id row)));;
  in_access (remove_transfer (tr_protocol_transfer_id row));;
  when (bool_decide (tr_role row = Sender)) (delete_tag (targeted_tag_name (tr_id row)));;
  match tr_authorization_secret_handle row with
  | Some handle =>
      when protected (in_custody_of (remove handle));;
      in_tables (clear_authorization (tr_id row))
  | None => ret tt
  end.

(** ** Offers ([handle_offer]) *)

(** The checks on the message alone; each failure but the last names a constant reason. *)
Definition offer_complaint (remote : string) (offer : SubmitTargetedOffer) : option string :=
  if negb (so_protocol_version offer =? targeted_transfer_protocol_version saved_device_capabilities)
  then Some "protocol-incompatible"
  else if negb (str_eqb (so_receiver_endpoint_id offer) local_id) then Some "receiver-mismatch"
  else if negb (str_eqb (so_sender_endpoint_id offer) remote) then Some "sender-mismatch"
  else if (so_file_count offer =? 0) || (max_collection_files (ta_limits authority) <? so_file_count offer) ||
          (so_total_size offer =? 0) || (max_total_bytes (ta_limits authority) <? so_total_size offer) ||
          str_is_empty (so_transfer_id offer) || str_is_empty (so_manifest_id offer) ||
          str_is_empty (so_content_hash offer)
  then Some "manifest-limits"
  else match validate_metadata_text (ta_limits authority) "transfer name" (Some (so_transfer_name offer)) with
       | Err error => Some (error_text error)
       | Ok _ => None
       end%string.

(** The row of the same transfer differs from the offer. *)
Definition immutable_mismatch (existing : TargetedTransferRow) (offer : SubmitTargetedOffer) : bool :=
  negb (str_eqb (tr_manifest_id existing) (so_manifest_id offer)) ||
  negb (str_eqb (tr_content_hash existing) (so_content_hash offer)) ||
  negb (tr_file_count existing =? so_file_count offer) ||
  negb (tr_total_size existing =? so_total_size offer) ||
  negb (str_eqb (tr_sender_endpoint_id existing) (so_sender_endpoint_id offer)) ||
  negb (str_eqb (tr_receiver_endpoint_id existing) (so_receiver_endpoint_id offer)).

(** The answer to the replay of an offer that has a row. *)
Definition replayed_offer (state : TargetedTransferState) : WireOfferResponse :=
  match state with
  | Approved | Connecting | Transferring | Interrupted | States.Completed => WireAccepted
  | States.Declined => WireDeclined "receiver-declined"
  | Cancelled => WireDeclined "cancelled"
  | TFailed | Deleted => WireRefused ("transfer-" +:+ targeted_as_str state)
  | Preparing | Offering | AwaitingApproval => WireAccepted
  end.

Definition pending_of_offer (remote : string) (offer : SubmitTargetedOffer) (now : Z) :
    PendingTargetedOffer := {|
  po_transfer_id := so_transfer_id offer; po_sender_endpoint_id := remote;
  po_receiver_endpoint_id := local_id; po_manifest_id := so_manifest_id offer;
  po_content_hash := so_content_hash offer; po_transfer_name := so_transfer_name offer;
  po_file_count := so_file_count offer; po_total_size := so_total_size offer;
  po_protocol_version := so_protocol_version offer; po_received_at := now |}.

(** An offer that has no row yet. *)
Definition new_offer (remote challenge : string) (offer : SubmitTargetedOffer) : IO WireOfferResponse :=
  match parse_offer_relay_urls (so_relay_urls offer) with
  | Err _ => ret (WireRefused "relay-policy-incompatible")
  | Ok remote_urls =>
      if negb (relay_profiles_compatible (ta_relay_mode authority) (ta_custom_relay_urls authority)
                 (so_relay_mode offer) remote_urls)
      then ret (WireRefused "relay-policy-incompatible")
      else
        verified ← try (E:=VnidropError) (in_domain (verify_saved_possession protected local_id remote
          challenge (so_proof offer) (so_generation offer) (so_relationship_protocol_version offer)));
        match verified with
        | Err error =>
            malformed remote;;
            ret (WireRefused (match error with
                              | ProtocolIncompatible _ => "protocol-incompatible"
                              | _ => "unauthenticated"
                              end))
        | Ok _ =>
            now ← now_ms;
            decision ← inbox_submit (pending_of_offer remote offer now);
            ret (match decision with
                 | OfferAccepted => WireAccepted
                 | OfferDeclined reason => WireDeclined reason
                 | OfferRefused reason => WireRefused reason
                 end)
        end
  end.

Definition handle_offer (remote challenge : string) (offer : SubmitTargetedOffer) :
    IO WireOfferResponse :=
  is_cooling ← cooling remote;
  if is_cooling : bool then ret (WireRefused "identity-cooldown")
  else
    match offer_complaint remote offer with
    | Some reason => malformed remote;; ret (WireRefused reason)
    | None =>
        found ← try (E:=VnidropError) (in_tables (get_row (so_transfer_id offer)));
        match found with
        | Ok (Some existing) =>
            ret (if immutable_mismatch existing offer then WireRefused "immutable-transfer-mismatch"
                 else replayed_offer (tr_state existing))
        | _ => new_offer remote challenge offer
        end
    end.

(** ** Authorizations ([handle_authorization]) *)

Definition persist_authorization (authorization : TargetedAuthorization) : IO bool :=
  persist_receiver protected authorization.

(** The guards on a delivery from [remote] after it decoded. *)
Definition delivery_bound (remote : string) (delivery : DeliverTargetedAuthorization)
    (auth : TargetedAuthorization) : bool :=
  str_eqb (au_sender_endpoint_id auth) remote &&
  str_eqb (au_receiver_endpoint_id auth) local_id &&
  str_eqb (au_transfer_id auth) (da_transfer_id delivery) &&
  (au_protocol_version auth =? targeted_transfer_protocol_version saved_device_capabilities) &&
  match blob_ticket_from_str (au_blob_ticket auth) with
  | Ok ticket => str_eqb (blob_ticket_hash ticket) (au_manifest_id auth) &&
                 str_eqb (au_manifest_id auth) (au_content_hash auth)
  | Err _ => false
  end.

Definition handle_authorization (remote : string) (delivery : DeliverTargetedAuthorization) :
    IO DeliverAuthorizationResponse :=
  saved ← try (E:=VnidropError) (in_domain (require_saved remote));
  match saved, decode_authorization (da_authorization delivery) with
  | Ok _, Ok auth =>
      if delivery_bound remote delivery auth then
        persisted ← try (E:=VnidropError) (persist_authorization auth);
        match persisted with
        | Err _ => ret DeliveryRejected
        | Ok _ =>
            try (E:=VnidropError)
              (inbox_deliver_authorization (da_transfer_id delivery) (da_authorization delivery));;
            ret Stored
        end
      else ret DeliveryRejected
  | _, _ => ret DeliveryRejected
  end.

(** ** Ending a transfer *)

Definition is_terminal (state : TargetedTransferState) : bool :=
  match state with
  | States.Completed | States.Declined | Cancelled | TFailed | Deleted => true
  | _ => false
  end.

Definition remote_is_peer (row : TargetedTransferRow) (remote : string) : bool :=
  match tr_role row with
  | Sender => str_eqb (tr_receiver_endpoint_id row) remote
  | Receiver => str_eqb (tr_sender_endpoint_id row) remote
  end.

Definition cancel_from_peer (remote transfer_id : string) : IO bool :=
  found ← in_tables (get_row transfer_id);
  match found with
  | None => in_tables (clear_accepted_intent_if_sender transfer_id remote);; ret true
  | Some row =>
      if negb (remote_is_peer row remote) then ret false
      else if decide (tr_state row = Cancelled) then cleanup row;; ret true
      else if is_terminal (tr_state row) then ret true
      else
        changed ← in_tables (transition_terminal transfer_id Cancelled false);
        when changed (cleanup row);;
        ret true
  end.

Definition handle_cancel (remote : string) (cancel : CancelTargetedOffer) : IO CancelWireOfferResponse :=
  pause;;
  found ← in_inbox (get_pending (co_transfer_id cancel));
  match found with
  | Some pending =>
      if negb (str_eqb (po_sender_endpoint_id pending) remote) then ret CancelRejected
      else
        inbox_discard (co_transfer_id cancel);;
        cleared ← try (E:=VnidropError) (in_tables (clear_accepted_offer_intent (co_transfer_id cancel)));
        ret (match cleared with Ok _ => WireCancelled | Err _ => CancelRejected end)
  | None =>
      match co_terminal cancel with
      | Some (Cancelled | Deleted) =>
          cancelled ← try (E:=VnidropError) (cancel_from_peer remote (co_transfer_id cancel));
          ret (match cancelled with Ok true => WireCancelled | _ => CancelRejected end)
      | _ => ret WireCancelled
      end
  end.

Definition terminate_local (id : string) (state : TargetedTransferState) :
    IO (option (TargetedTransferRow * bool)) :=
  found ← in_tables (get_row id);
  match found with
  | None =>
      inbox_discard id;;
      in_tables (clear_accepted_offer_intent id);;
      ret None
  | Some row =>
      let already_terminal := bool_decide (tr_state row = state) in
      if already_terminal && bool_decide (tr_authorization_secret_handle row = None) &&
         bool_decide (tr_blob_ticket row = None)
      then inbox_discard id;; ret (Some (row, false))
      else
        changed ← (if already_terminal then ret false
                   else in_tables (transition_terminal id state true));
        inbox_discard id;;
        cleanup row;;
        ret (Some (row, changed))
  end.

(** The loop that collects the rows of [ids]. *)
Definition collect_row (rows : list TargetedTransferRow) (id : string) : IO (list TargetedTransferRow) :=
  found ← in_tables (get_row id);
  ret (match found with Some row => rows ++ [row] | None => rows end).

Definition terminate_peer (peer : string) : IO Z :=
  inbox_discard_from peer;;
  ids ← in_tables (ids_for_peer peer);
  rows ← fold_each collect_row ids [];
  cancelled ← in_tables (cancel_by_peer peer);
  for_each rows cleanup;;
  ret (Z.of_nat (length cancelled)).

Definition recover_in_flight : IO (list string) :=
  rows ← in_tables fail_sender_preapproval_on_restart;
  for_each rows cleanup;;
  in_tables mark_interrupted_in_flight.

Definition stop_preparation (id : string) : IO TargetedPreparationStopOutcome :=
  found ← in_tables (get_row id);
  match found with
  | None => ret TransferAbandoned
  | Some row =>
      if is_terminal (tr_state row) then ret AlreadyTerminal
      else
        abandoned ← in_tables (abandon_sender_preapproval id);
        if abandoned : bool then cleanup row;; ret TransferAbandoned
        else
          found ← in_tables (get_row id);
          match found with
          | None => ret TransferAbandoned
          | Some current =>
              if is_terminal (tr_state current) then ret AlreadyTerminal
              else
                changed ← in_tables (transition_terminal id Cancelled true);
                cleanup current;;
                ret (if changed : bool then TransferCancelled else AlreadyTerminal)
          end
  end.

(** ** Progress *)

Definition register_sender (row : TargetedTransferRow) : IO unit :=
  in_tables (insert row);;
  in_tables (set_state (tr_id row) Preparing Offering).

Definition begin_receive (id : string) (from : TargetedTransferState) : IO unit :=
  in_tables (set_state id from Connecting);;
  in_tables (set_state id Connecting Transferring).

Definition complete_receiver (id : string) (verified_bytes : Z) : IO unit :=
  in_tables (complete_receiver_and_enqueue id verified_bytes).

Definition interrupt_receive (id : string) : IO unit :=
  in_tables (set_state_from_any id Interrupted).

(** ** Completion ([handle_completion]) *)

(** The capability presented is that of the sender's row, and all bytes were verified. *)
Definition completion_bound (remote : string) (completion : CompleteTargetedTransfer)
    (row : TargetedTransferRow) (auth : TargetedAuthorization) : bool :=
  bool_decide (tr_role row = Sender) &&
  str_eqb (tr_receiver_endpoint_id row) remote &&
  str_eqb (au_receiver_endpoint_id auth) remote &&
  str_eqb (au_sender_endpoint_id auth) local_id &&
  str_eqb (au_transfer_id auth) (tr_id row) &&
  (au_protocol_transfer_id auth =? tr_protocol_transfer_id row) &&
  str_eqb (au_manifest_id auth) (tr_manifest_id row) &&
  str_eqb (au_content_hash auth) (tr_content_hash row) &&
  str_eqb (au_transfer_name auth) (tr_transfer_name row) &&
  (au_file_count auth =? tr_file_count row) &&
  (au_total_size auth =? tr_total_size row) &&
  (au_total_size auth =? cp_verified_bytes completion) &&
  opt_eqb (tr_blob_ticket row) (au_blob_ticket auth) &&
  (au_protocol_version auth =? targeted_transfer_protocol_version saved_device_capabilities).

Definition handle_completion (remote : string) (completion : CompleteTargetedTransfer) :
    IO CompletionResponse :=
  saved ← try (E:=VnidropError) (in_domain (require_saved remote));
  match saved with
  | Err _ => ret CompletionRejected
  | Ok _ =>
      found ← try (E:=VnidropError) (in_tables (get_row (cp_transfer_id completion)));
      match found, decode_authorization (cp_authorization completion) with
      | Ok (Some row), Ok auth =>
          if negb (completion_bound remote completion row auth) then ret CompletionRejected
          else if decide (tr_state row = States.Completed) then ret Recorded
          else if is_terminal (tr_state row) then ret CompletionRejected
          else
            marked ← try (E:=VnidropError) (in_tables (mark_sender_completed (cp_transfer_id completion)));
            ret (match marked with Ok _ => Recorded | Err _ => CompletionRejected end)
      | _, _ => ret CompletionRejected
      end
  end.
End TargetedModule.
