(* ===== verification/TargetedModuleSpec.v ===== *)
(** * What the targeted-transfer module guarantees

    Properties of [TargetedModule.v]: every request of a peer is answered; who may offer,
    deliver, complete and cancel; what revoking a peer and cleaning up leave behind. *)

From S2P Require Import Prelude Sql ControlPlane Errors States Api Ticket TargetedStore Access Invitation Inbox SecureSecret Relationship Pairing Devices DevicesSpec Core Authorization TargetedModule.

(** ** Every request is answered *)

Section Answers.
Context `{Env} `{ForeignText} `{Host} `{Blake3} `{!Base64} `{Codec} `{Urls} `{Addressing} `{!TicketCodec}
  {V : Type} `{SecureSecretStore V} `{!Network V} `{!Neighbours V}.
Variable authority : TargetedProtocolAuthority.
Implicit Types (k : Core V).

Lemma wp_in_inbox {A} (m : M TargetedOfferInbox string A) k n Q :
  wp m (k_inbox k) n (λ r i n', Q (result_map_err Internal r) (set_inbox i k) n') → wp (in_inbox m) k n Q.
Proof. intros Hm. apply wp_map_err, wp_zoom. exact Hm. Qed.

(** An effect that always returns. *)
Definition returns {S E A} (m : M S E A) : Prop := ∀ s n, wp m s n (λ r _ _, is_ok r = true).

Lemma returns_ret {S E A} (a : A) : returns (ret (S:=S) (E:=E) a).
Proof. done. Qed.
Lemma returns_get {S E} : returns (Sql.get (S:=S) (E:=E)).
Proof. done. Qed.
Lemma returns_modify {S E} f : returns (modify (S:=S) (E:=E) f).
Proof. done. Qed.
Lemma returns_bind {S E A B} (m : M S E A) (f : A → M S E B) :
  returns m → (∀ a, returns (f a)) → returns (m ≫= f).
Proof.
  intros Hm Hf s n. apply wp_bind. eapply wp_mono; [apply Hm|].
  intros [a|e] s' n' Hr; [apply Hf | done].
Qed.
Lemma returns_try {S E F A} (m : M S E A) : returns (E:=F) (try m).
Proof. intros s n. apply wp_try. unfold wp. by destruct (m s n) as [[??]?]. Qed.
Lemma returns_when {S E} b (m : M S E unit) : returns m → returns (when b m).
Proof. intros Hm. by destruct b. Qed.
Lemma returns_for_each {S E A} (l : list A) (f : A → M S E unit) : (∀ x, returns (f x)) → returns (for_each l f).
Proof. intros Hf. induction l; [done|]. by apply returns_bind. Qed.
Lemma returns_zoom {T S E A} (proj : T → S) (inj : S → T → T) (m : M S E A) : returns m → returns (zoom proj inj m).
Proof. intros Hm t n. apply wp_zoom. eapply wp_mono; [apply Hm|]. done. Qed.
Lemma returns_in_inbox {A} (m : M TargetedOfferInbox string A) : returns m → returns (in_inbox (V:=V) m).
Proof. intros Hm k n. apply wp_in_inbox. eapply wp_mono; [apply Hm|]. by intros []. Qed.
Lemma returns_pause : returns (pause (V:=V)).
Proof. done. Qed.
Lemma returns_neighbours : returns (neighbours (V:=V)).
Proof. done. Qed.

Create HintDb returns discriminated.
#[local] Hint Resolve returns_ret returns_get returns_modify returns_bind returns_try returns_when
  returns_for_each returns_zoom returns_in_inbox returns_pause returns_neighbours : returns.
#[local] Hint Extern 5 (returns (match ?x with _ => _ end)) => destruct x : returns.

Lemma returns_is_cooling {E} id : returns (E:=E) (Cooldown.is_cooling id).
Proof. unfold Cooldown.is_cooling. repeat (apply returns_bind; [done|intros]). done. Qed.

Lemma returns_record_malformed {E} cfg id : returns (E:=E) (Cooldown.record_malformed cfg id).
Proof.
  unfold Cooldown.record_malformed. apply returns_bind; [apply returns_is_cooling|]. intros [].
  - done.
  - apply returns_bind; [done|]. intros s. apply returns_bind; [done|]. intros _. case_match; [|done].
    repeat (apply returns_bind; [done|intros]). done.
Qed.

Lemma returns_malformed identity : returns (malformed (V:=V) authority identity).
Proof. apply returns_bind; [|done]. apply returns_in_inbox, returns_zoom, returns_record_malformed. Qed.

Lemma returns_send_decision tasks chan value : returns (send_decision tasks chan value).
Proof. unfold send_decision. eauto 8 with returns. Qed.

Lemma returns_discard_stage tasks id stage : returns (discard_stage tasks id stage).
Proof. destruct stage; unfold discard_stage, remove_pending, remove_auth; eauto 8 using returns_send_decision with returns. Qed.

Lemma returns_inbox_discard id : returns (inbox_discard (V:=V) id).
Proof.
  apply returns_for_each. intros stage. unfold inbox_discard_section.
  eauto 8 using returns_discard_stage with returns.
Qed.

(** *** A submission ends *)

(** The sections a submission still has to go through. *)
Definition submit_rank (task : Task) : option nat :=
  match task with
  | SubmitCooldown _ => Some 10
  | SubmitSettled _ => Some 9
  | SubmitProbe _ => Some 8
  | SubmitInsert _ => Some 7
  | SubmitWaiter _ _ => Some 6
  | WaitLookup _ _ => Some 5
  | Waiting _ _ _ => Some 4
  | WaitDiscard _ _ DropPending _ => Some 3
  | WaitDiscard _ _ DropDecision _ => Some 2
  | WaitDiscard _ _ DropAuth _ => Some 1
  | Submitted _ _ => Some 0
  | _ => None
  end%nat.

(** The transfer of a submission. *)
Definition submit_id (task : Task) : string :=
  match task with
  | SubmitCooldown offer | SubmitSettled offer | SubmitProbe offer | SubmitInsert offer
  | SubmitWaiter offer _ => po_transfer_id offer
  | WaitLookup id _ | Waiting id _ _ | WaitDiscard id _ _ _ | Submitted id _ => id
  | _ => EmptyString
  end.

(** A section of rank [r] goes on with a smaller rank; only a wait whose timer runs blocks. *)
Definition submit_progress (id : string) (r : nat) (timeout : bool) (res : result (option Task) string) : Prop :=
  match res with
  | Ok (Some task') => submit_id task' = id ∧ ∃ r', submit_rank task' = Some r' ∧ (r' < r)%nat
  | Ok None => r = 0%nat ∨ timeout = false
  | Err _ => False
  end.

Lemma wp_discard_stage_next tasks id stage i n (Q : result (option DiscardStage) string → TargetedOfferInbox → nat → Prop) :
  (∀ i' n', Q (Ok (match stage with
                   | DropPending => Some DropDecision | DropDecision => Some DropAuth | DropAuth => None
                   end)) i' n') →
  wp (discard_stage tasks id stage) i n Q.
Proof.
  intros HQ. destruct stage; simpl.
  - apply wp_bind, wp_modify, wp_ret, HQ.
  - apply wp_bind, wp_get. destruct (decisions i !! id); [|apply wp_ret, HQ].
    apply wp_bind, wp_modify, wp_bind, wp_send_decision; intros; apply wp_ret, HQ.
  - apply wp_bind, wp_modify, wp_ret, HQ.
Qed.

Lemma wp_in_cooldown_ok {A} (m : M Cooldown.CooldownInner string A) i n Q :
  returns m → (∀ a c n', Q (Ok a) (set_cooldown c i) n') → wp (in_cooldown m) i n Q.
Proof.
  intros Hm HQ. apply wp_zoom. eapply wp_mono; [apply Hm|]. intros [a|e] c n' Hr; [apply HQ | done].
Qed.

Lemma submit_step cfg max_pending tasks timeout task r i n :
  submit_rank task = Some r →
  wp (step_task cfg max_pending tasks timeout task) i n (λ res _ _, submit_progress (submit_id task) r timeout res).
Proof.
  assert (∀ id r r' t, submit_rank t = Some r' → submit_id t = id ∧ (r' < r)%nat →
    submit_progress id r timeout (Ok (Some t))) as Hnext by (intros id r0 r' t Ht [? ?]; split; [done|]; by exists r').
  intros Hr; destruct task; try discriminate Hr; unfold step_task; simpl in *;
    try (injection Hr as <-).
  - apply wp_bind, wp_in_cooldown_ok; [apply returns_is_cooling|]. intros [] c n'; apply wp_ret;
      (eapply Hnext; [done|split; [done|lia]]).
  - apply wp_bind, wp_get, wp_ret. destruct (Inbox.settled i !! _); (eapply Hnext; [done|split; [done|lia]]).
  - apply wp_bind, wp_get, wp_ret. destruct (Inbox.pending i !! _); [case_match | case_match];
      (eapply Hnext; [done|split; [done|lia]]).
  - apply wp_bind, wp_get. destruct (Inbox.pending i !! _); [apply wp_ret; eapply Hnext; [done|split; [done|lia]]|].
    destruct (refusal _ _ _); [apply wp_ret; eapply Hnext; [done|split; [done|lia]]|].
    do 3 apply wp_bind, wp_modify. apply wp_ret. eapply Hnext; [done|split; [done|lia]].
  - apply wp_bind, wp_modify, wp_bind, wp_in_cooldown_ok; [done|]. intros a c n'. apply wp_ret.
    eapply Hnext; [done|split; [done|lia]].
  - apply wp_bind, wp_get, wp_ret. destruct (decisions i !! _); [|destruct (Inbox.settled i !! _)];
      (eapply Hnext; [done|split; [done|lia]]).
  - apply wp_bind, wp_get. destruct (_ ≫= _) as [[]|]; [apply wp_ret; eapply Hnext; [done|split; [done|lia]]..|].
    case_match; [apply wp_ret; eapply Hnext; [done|split; [done|lia]]|].
    destruct timeout; apply wp_ret; [eapply Hnext; [done|split; [done|lia]] | by right].
  - destruct stage; injection Hr as <-; apply wp_bind, wp_discard_stage_next; intros i' n'; apply wp_ret;
      (eapply Hnext; [done|split; [done|lia]]).
  - by left.
Qed.

Lemma wp_inbox_section timeout task k n Q :
  (∀ tasks k' n', wp (step_task (ta_cooldown authority) (ta_max_pending authority) tasks timeout task)
     (k_inbox k') n' (λ res i n'', Q (result_map_err Internal res) (set_inbox i k') n'')) →
  wp (inbox_section authority timeout task) k n Q.
Proof. intros HQ. apply wp_bind. unfold wp at 1, pause. apply wp_bind. unfold wp at 1, neighbours. apply wp_in_inbox, HQ. Qed.

Lemma inbox_call_submits fuel waits task r k n :
  submit_rank task = Some r → (waits + r ≤ fuel)%nat →
  wp (inbox_call authority fuel waits task) k n (λ res _ _, ∃ d, res = Ok (Submitted (submit_id task) d)).
Proof.
  revert waits task r k n. induction fuel as [|fuel IH]; intros waits task r k n Hr Hle; simpl.
  - assert (r = 0)%nat as -> by lia. destruct task; try done; [|apply wp_ret; by eauto]. by destruct stage.
  - apply wp_bind, wp_inbox_section. intros tasks k' n'.
    eapply wp_mono; [by apply submit_step|].
    intros [[task'|]|e] i n'' Hp; simpl in *; [| |done].
    + destruct Hp as (Eid & r' & Hr' & Hlt). rewrite <- Eid. eapply IH; [done|lia].
    + destruct Hp as [->|Hw%Nat.eqb_neq]; (eapply IH; [done|lia]).
Qed.

Lemma returns_inbox_submit offer : returns (inbox_submit (V:=V) authority offer).
Proof.
  intros k n. apply wp_bind. unfold wp at 1, patient. apply wp_bind.
  eapply wp_mono; [by eapply inbox_call_submits|]. by intros _ k' n' (d & ->).
Qed.

(** Every request of a peer is answered. Whatever the peer sends, whatever the other
    tasks in the inbox and the other handlers do meanwhile, and whichever statements and
    credential calls fail, each of the four handlers comes to an end with a response: an offer
    that nobody decides is answered when its timer fires, after at most ten sections of the
    inbox and the wake-ups before. *)
Theorem requests_are_answered remote challenge offer delivery cancel completion k n :
  wp (handle_offer authority remote challenge offer) k n (λ res _ _, is_ok res = true) ∧
  wp (handle_authorization authority remote delivery) k n (λ res _ _, is_ok res = true) ∧
  wp (handle_cancel authority remote cancel) k n (λ res _ _, is_ok res = true) ∧
  wp (handle_completion authority remote completion) k n (λ res _ _, is_ok res = true).
Proof.
  assert (∀ A B (m : M (Core V) VnidropError A) (f : result A VnidropError → M (Core V) VnidropError B),
            (∀ r, returns (f r)) → returns (try m ≫= f)) as Htry.
  { intros. apply returns_bind; [apply returns_try | done]. }
  split_and!.
  - revert k n. change (returns (handle_offer authority (V:=V) remote challenge offer)). unfold handle_offer, new_offer.
    apply returns_bind; [apply returns_in_inbox, returns_zoom, returns_is_cooling|]. intros [|]; [done|].
    destruct (offer_complaint _ _ _); [apply returns_bind; [apply returns_malformed | done]|].
    apply Htry. intros found.
    assert (∀ m, returns m → returns (match found with
      | Ok (Some existing) => ret (if immutable_mismatch existing offer
          then WireRefused "immutable-transfer-mismatch" else replayed_offer (tr_state existing))
      | _ => m end : M (Core V) VnidropError WireOfferResponse)) as Hfound
      by (intros m Hm; destruct found as [[]|]; first [apply returns_ret | exact Hm]).
    apply Hfound. destruct (parse_offer_relay_urls _); [|done]. destruct (negb _); [done|].
    apply Htry. intros [u|e].
    + apply returns_bind; [done|]. intros now. apply returns_bind; [apply returns_inbox_submit | done].
    + apply returns_bind; [apply returns_malformed | done].
  - revert k n. change (returns (handle_authorization authority (V:=V) remote delivery)). unfold handle_authorization.
    apply Htry. intros [u|e]; [|done]. destruct (decode_authorization _); [|done]. case_match; [|done].
    apply Htry. intros [p|e]; [|done]. by apply Htry.
  - revert k n. change (returns (handle_cancel authority (V:=V) remote cancel)). unfold handle_cancel.
    apply returns_bind; [done|]. intros _. apply returns_bind; [apply returns_in_inbox; done|]. intros [p|].
    + destruct (negb _); [done|]. apply returns_bind; [apply returns_inbox_discard|]. intros _. by apply Htry.
    + destruct (co_terminal cancel) as [[]|]; try done; by apply Htry.
  - revert k n. change (returns (handle_completion authority (V:=V) remote completion)). unfold handle_completion.
    apply Htry. intros [u|e]; [|done]. apply Htry. intros [[row|]|e]; try done.
    destruct (decode_authorization _); [|done]. destruct (negb _); [done|]. case_decide; [done|]. destruct (is_terminal _); [done|].
    by apply Htry.
Qed.
End Answers.

(** ** Who may do what *)

Section Authority.
Context `{Env} `{ForeignText} `{Host} `{Blake3} `{!Base64} `{Codec} `{Urls} `{Addressing} `{!TicketCodec}
  {V : Type} `{SecureSecretStore V} `{!SecureSecretStoreLaws V} `{!Network V} `{!Neighbours V}.
Variable authority : TargetedProtocolAuthority.
Implicit Types (k : Core V).

(** The rely on the other handlers: they keep the invariants of the inbox, [accepts] being the
    transfers the local user accepts. *)
Section Rely.
Variable accepts : gset string.

Definition inbox_ok k : Prop :=
  consent_ok accepts (k_inbox k) ∧ pending_ok (ta_max_pending authority) (Inbox.pending (k_inbox k)).

Definition neighbours_keep : Prop := ∀ n k, inbox_ok k →
  inbox_ok (between n k) ∧ chans_kept (k_inbox k) (k_inbox (between n k)).

Hypothesis Hrely : neighbours_keep.

Lemma inbox_section_keeps timeout task k n :
  inbox_ok k → task_ok accepts (k_inbox k) task →
  wp (inbox_section authority timeout task) k n (λ res k' _, inbox_ok k' ∧
    match res with
    | Ok (Some task') => task_ok accepts (k_inbox k') task'
    | _ => task_ok accepts (k_inbox k') task
    end).
Proof.
  intros Hk Ht. apply wp_bind. unfold wp at 1, pause. destruct (Hrely n k Hk) as [Hk1 Hc1].
  assert (task_ok accepts (k_inbox (between n k)) task) as Ht1 by (by eapply task_ok_kept).
  apply wp_bind. unfold wp at 1, neighbours. apply wp_in_inbox. destruct Hk1 as [Hc Hp].
  eapply wp_mono; [by apply step_task_keeps|]. intros [[task'|]|e] i n' (Hc' & Hp' & Hch & Hnext); simpl.
  - split; [done|]. by apply Hnext.
  - split; [done|]. by eapply task_ok_kept.
  - split; [done|]. by eapply task_ok_kept.
Qed.

Lemma inbox_call_keeps fuel waits task k n :
  inbox_ok k → task_ok accepts (k_inbox k) task →
  wp (inbox_call authority fuel waits task) k n (λ res k' _, inbox_ok k' ∧
    ∀ task', res = Ok task' → task_ok accepts (k_inbox k') task').
Proof.
  revert waits task k n. induction fuel as [|fuel IH]; intros waits task k n Hk Ht; simpl.
  - apply wp_ret. split; [done|]. by intros ? [= <-].
  - apply wp_bind. eapply wp_mono; [by apply inbox_section_keeps|].
    intros [[task'|]|e] k' n' [Hk' Ht']; [by apply IH..|]. split; [done|]. by intros.
Qed.

(** A submission is accepted only if the user accepts. *)
Lemma wp_inbox_submit offer k n Q :
  inbox_ok k →
  (∀ decision k' n', inbox_ok k' → (decision = OfferAccepted → po_transfer_id offer ∈ accepts) →
     Q (Ok decision) k' n') →
  wp (inbox_submit authority offer) k n Q.
Proof.
  intros Hk HQ. apply wp_bind. unfold wp at 1, patient. apply wp_bind.
  pose proof (inbox_call_submits authority (patience n + 10) (patience n) (SubmitCooldown offer) 10 k (S n)
    eq_refl ltac:(lia)) as Hs.
  pose proof (inbox_call_keeps (patience n + 10) (patience n) (SubmitCooldown offer) k (S n) Hk I) as Hi.
  unfold wp in Hs, Hi |- * at 1. destruct (inbox_call _ _ _ _ _ _) as [[r k'] n'].
  destruct Hs as (d & ->), Hi as [Hk' Ht]. apply wp_ret. apply HQ; [done|]. intros ->.
  by apply (Ht _ eq_refl).
Qed.

Lemma wp_in_cooldown_inbox {A} (m : M Cooldown.CooldownInner string A) k n Q :
  inbox_ok k →
  (∀ r i n', inbox_ok (set_inbox i k) → Q r (set_inbox i k) n') → wp (in_inbox (in_cooldown m)) k n Q.
Proof.
  intros [Hc Hp] HQ. apply wp_in_inbox, wp_in_cooldown. intros r c n'. apply HQ.
  split; [by apply consent_ok_cooldown | done].
Qed.

Lemma wp_malformed identity k n Q :
  inbox_ok k → (∀ r i n', inbox_ok (set_inbox i k) → Q r (set_inbox i k) n') →
  wp (malformed authority identity) k n Q.
Proof.
  intros Hk HQ. apply wp_bind, wp_in_cooldown_inbox; [done|]. intros [b|e] i n' Hi; [by apply wp_ret, HQ|by apply HQ].
Qed.

(** What makes an offer admissible before anyone is asked. *)
Definition offer_admissible k (remote challenge : string) (offer : SubmitTargetedOffer) : Prop :=
  (∃ urls, parse_offer_relay_urls (so_relay_urls offer) = Ok urls ∧
     relay_profiles_compatible (ta_relay_mode authority) (ta_custom_relay_urls authority)
       (so_relay_mode offer) urls = true) ∧
  possession_shown (ta_local_endpoint_id authority) (k_domain k) remote challenge (so_proof offer) (so_generation offer)
    (so_relationship_protocol_version offer) ∧
  (∃ r, relationships (devices (k_domain k)) !! remote = Some r ∧ d_state r = "saved"%string).

(** The row that an offer replays. *)
Definition offer_recorded k (offer : SubmitTargetedOffer) : Prop :=
  ∃ r row, targeted_transfers (k_tables k) !! so_transfer_id offer = Some r ∧
    row_to_full (so_transfer_id offer, r) = Ok row ∧ immutable_mismatch row offer = false ∧
    tr_state row ∉ [States.Declined; Cancelled; TFailed; Deleted].

Lemma new_offer_sound remote challenge offer i k n :
  inbox_ok (set_inbox i k) →
  wp (new_offer authority remote challenge offer) (set_inbox i k) n (λ res k' _, inbox_ok k' ∧
    (res = Ok WireAccepted → offer_admissible k remote challenge offer ∧ so_transfer_id offer ∈ accepts)).
Proof.
  intros Hi. unfold new_offer. destruct (parse_offer_relay_urls _) as [urls|] eqn:Eu; [|by apply wp_ret].
  destruct (relay_profiles_compatible _ _ _ _) eqn:Ec; simpl; [|by apply wp_ret].
  apply wp_bind, wp_try, wp_in_domain, wp_verify_saved.
  - intros e w n' _. apply wp_bind, wp_malformed; [done|]. intros [u|e'] i' n2 Hi'; [|done].
    apply wp_ret. done.
  - intros r w n' _ Hshown Hr Hst _. apply wp_bind, wp_now_ms, wp_bind, wp_inbox_submit; [done|].
    intros decision k' n2 Hk' Hacc. apply wp_ret. split; [done|].
    destruct decision; try done. intros _. split; [|by apply Hacc].
    split; [by exists urls|]. split; [exact Hshown|]. by exists r.
Qed.

(** C18: an offer is answered with acceptance only if its fields pass every check and
    either it replays a transfer on record with the same parties and content that has not
    ended otherwise, or the sender is a saved device that proved possession of its grant for
    this very challenge, the network profiles meet, and the local user accepted this
    transfer. Asking leaves the tables, the relationships and what is served alone, whatever
    other handlers change; and it keeps the inbox in order. *)
Theorem handle_offer_sound remote challenge offer k n :
  inbox_ok k →
  wp (handle_offer authority remote challenge offer) k n (λ res k' _, inbox_ok k' ∧
    (res = Ok WireAccepted →
      offer_complaint authority remote offer = None ∧
      (offer_recorded k offer ∨
       offer_admissible k remote challenge offer ∧ so_transfer_id offer ∈ accepts))).
Proof.
  intros Hk. apply wp_bind, wp_in_cooldown_inbox; [done|]. intros [[|]|e] i n1 Hi; [by apply wp_ret|..|done].
  destruct (offer_complaint _ _ _) eqn:Ecomp.
  { apply wp_bind, wp_malformed; [done|]. intros [u|e] i' n2 Hi'; [by apply wp_ret | done]. }
  pose proof (λ n2, new_offer_sound remote challenge offer i k n2 Hi) as Hnew.
  apply wp_bind, wp_try, wp_get_row; simpl.
  - intros e n2. eapply wp_mono; [apply Hnew|]. naive_solver.
  - intros n2 _. eapply wp_mono; [apply Hnew|]. naive_solver.
  - intros r row n2 Hr Hrow. apply wp_ret. split; [done|]. intros [= Eans]. split; [done|]. left.
    destruct (immutable_mismatch row offer) eqn:Em; [done|]. exists r, row. do 3 (split; [done|]).
    destruct (tr_state row); simpl in Eans; (discriminate Eans || set_solver).
Qed.
End Rely.
End Authority.

(** ** What clean-up leaves *)

Section Cleanup.
Context `{Env} `{ForeignText} `{Host} {V : Type} `{SecureSecretStore V}
  `{!SecureSecretStoreLaws V} `{!Network V} `{!Neighbours V}.
Variable authority : TargetedProtocolAuthority.
Implicit Types (k : Core V).

(** Clean-up takes things away, and only from the tables' capabilities and obligations. *)
Definition capability_cleared (r r' : TransferColumns) : Prop := r' = r ∨ r' = clear_row r.

Record core_sheds k k' : Prop := {
  cs_rows : map_lift capability_cleared (targeted_transfers (k_tables k)) (targeted_transfers (k_tables k'));
  cs_domain : dom (targeted_transfers (k_tables k')) = dom (targeted_transfers (k_tables k));
  cs_intents : accepted_offer_intents (k_tables k') = accepted_offer_intents (k_tables k);
  cs_deliveries : authorization_delivery_outbox (k_tables k') ⊆ authorization_delivery_outbox (k_tables k);
  cs_completions : completion_outbox (k_tables k') ⊆ completion_outbox (k_tables k);
  cs_active : k_active k' ⊆ k_active k;
  cs_modes : modes (k_access k') ⊆ modes (k_access k);
  cs_sessions : approved_sessions (k_access k') ⊆ approved_sessions (k_access k);
  cs_hashes h owners : k_hashes k' !! h = Some owners →
    ∃ owners0, k_hashes k !! h = Some owners0 ∧ owners ⊆ owners0;
  cs_inbox : k_inbox k' = k_inbox k;
  cs_history : k_history k' = k_history k
}.

#[global] Instance capability_cleared_preorder : PreOrder capability_cleared.
Proof.
  split; [by left|]. intros r r' r'' [->| ->] [->| ->]; first [by left | by right].
Qed.

#[global] Instance core_sheds_preorder : PreOrder core_sheds.
Proof.
  split.
  - intros k. split; try done. intros h owners Hh. by exists owners.
  - intros k1 k2 k3 [] []. split; try congruence; try (by etrans).
    intros h owners Hh. destruct (cs_hashes1 h owners Hh) as (o2 & Hh2 & Hs2).
    destruct (cs_hashes0 h o2 Hh2) as (o1 & Hh1 & Hs1). exists o1. split; [done | by etrans].
Qed.

(** Nothing of the transfer is served or running any more, and its capability is gone. *)
Record stopped (row : TargetedTransferRow) k : Prop := {
  rl_active : tr_id row ∉ k_active k;
  rl_mode : modes (k_access k) !! tr_protocol_transfer_id row = None;
  rl_sessions endpoint : approved_sessions (k_access k) !! (tr_protocol_transfer_id row, endpoint) = None;
  rl_hashes h owners : k_hashes k !! h = Some owners → tr_protocol_transfer_id row ∉ owners
}.
Definition disarmed (row : TargetedTransferRow) k : Prop := ∀ r,
  tr_authorization_secret_handle row ≠ None → targeted_transfers (k_tables k) !! tr_id row = Some r →
  c_authorization_secret_handle r = None ∧ c_blob_ticket r = None.

Lemma lookup_subseteq_None {K} `{Countable K} {A} (m m' : gmap K A) i :
  m' ⊆ m → m !! i = None → m' !! i = None.
Proof. intros Hs Hn. by eapply lookup_weaken_None. Qed.

Lemma stopped_sheds row k k' : core_sheds k k' → stopped row k → stopped row k'.
Proof.
  intros [] []. split.
  - set_solver.
  - by eapply lookup_subseteq_None.
  - intros endpoint. by eapply lookup_subseteq_None.
  - intros h owners Hh. destruct (cs_hashes0 h owners Hh) as (o & Ho & Hs). specialize (rl_hashes0 h o Ho). set_solver.
Qed.

Lemma disarmed_sheds row k k' : core_sheds k k' → disarmed row k → disarmed row k'.
Proof.
  intros [] Hd r Hh Hr. assert (tr_id row ∈ dom (targeted_transfers (k_tables k))) as [r0 Hr0]%elem_of_dom.
  { rewrite <- cs_domain0. by apply elem_of_dom. }
  destruct (cs_rows0 _ _ Hr0) as (r' & Hr' & Hc). simplify_eq.
  destruct (Hd r0 Hh Hr0). by destruct Hc as [->| ->].
Qed.

Lemma put_vault_sheds w k : core_sheds k (put_vault w k).
Proof. split; try done. intros h owners Hh. by exists owners. Qed.

Lemma cleared_sheds id k : core_sheds k (set_tables (cleared_tables id (k_tables k)) k).
Proof.
  split; try done; simpl.
  - intros id' r Hr. destruct (decide (id' = id)) as [->|Hne].
    + exists (clear_row r). rewrite lookup_alter_eq, Hr. split; [done | by right].
    + exists r. rewrite lookup_alter_ne by done. split; [done | by left].
  - by rewrite dom_alter_L.
  - apply delete_subseteq.
  - apply delete_subseteq.
  - intros h owners Hh. by exists owners.
Qed.

(** What stops serving the transfer: the first three steps. *)
Definition unserved (row : TargetedTransferRow) k : Core V :=
  let p := k_access k in
  set_access {| modes := delete (tr_protocol_transfer_id row) (modes p);
                approved_sessions := filter (λ kv : Z * string * ApprovalSession,
                  kv.1.1 ≠ tr_protocol_transfer_id row) (approved_sessions p) |}
    (on_hashes (release_hashes (tr_protocol_transfer_id row))
       (on_active (λ ids, ids ∖ {[tr_id row]}) k)).

Lemma release_hashes_lookup pid hashes h owners :
  release_hashes pid hashes !! h = Some owners →
  (pid ∉ owners) ∧ ∃ owners0, hashes !! h = Some owners0 ∧ owners ⊆ owners0.
Proof.
  unfold release_hashes. rewrite map_lookup_filter_Some, lookup_fmap.
  destruct (hashes !! h) as [o|]; [|by intros []]. simpl. intros [[= <-] _]. split; [set_solver|].
  exists o. set_solver.
Qed.

Lemma unserved_sheds row k : core_sheds k (unserved row k).
Proof.
  split; try done; simpl.
  - set_solver.
  - apply delete_subseteq.
  - apply map_filter_subseteq.
  - intros h owners Hh. by apply release_hashes_lookup in Hh as [_ ?].
Qed.

Lemma unserved_stopped row k : stopped row (unserved row k).
Proof.
  split; simpl.
  - set_solver.
  - apply lookup_delete_eq.
  - intros endpoint. apply map_lookup_filter_None. right. intros s _. simpl. tauto.
  - intros h owners Ho. by apply release_hashes_lookup in Ho as [? _].
Qed.

Lemma on_tags_sheds f k : core_sheds k (on_tags f k).
Proof. split; try done. intros h owners Hh. by exists owners. Qed.

Lemma wp_cleanup row k n Q :
  (∀ e k' n', core_sheds k k' → Q (Err e) k' n') →
  (∀ k' n', core_sheds k k' → stopped row k' → disarmed row k' → Q (Ok tt) k' n') →
  wp (cleanup authority row) k n Q.
Proof.
  intros He Ho. apply wp_bind, wp_modify, wp_bind, wp_modify, wp_bind, wp_in_access.
  apply wp_bind, wp_modify, wp_modify. cbn beta iota.
  match goal with |- wp _ ?s _ _ => change s with (unserved row k) end.
  pose proof (unserved_sheds row k) as Hs1. pose proof (unserved_stopped row k) as Hstop.
  assert (∀ k1 n1, core_sheds (unserved row k) k1 →
    wp (match tr_authorization_secret_handle row with
        | Some handle => when (ta_protected authority) (in_custody_of (remove handle));;
                         in_tables (clear_authorization (tr_id row))
        | None => ret tt
        end) k1 n1 Q) as Hrest.
  { intros k1 n1 Hs. destruct (tr_authorization_secret_handle row) as [handle|] eqn:Eh.
    2: { apply wp_ret, Ho; [by etrans | by eapply stopped_sheds | intros r Hr; congruence]. }
    assert (∀ w n2, wp (in_tables (clear_authorization (tr_id row))) (put_vault w k1) n2 Q) as Hclear.
    { intros w n2. assert (core_sheds (unserved row k) (put_vault w k1)) as Hs2 by (etrans; [done|apply put_vault_sheds]).
      apply wp_in_tables, wp_clear_authorization.
      - intros e n3. rewrite set_tables_id. apply He. by etrans.
      - intros n3. pose proof (cleared_sheds (tr_id row) (put_vault w k1)) as Hs3.
        apply Ho; [etrans; [exact Hs1|]; etrans; [exact Hs2 | exact Hs3]
                  |eapply stopped_sheds; [|exact Hstop]; etrans; [exact Hs2 | exact Hs3]|].
        intros r _ Hr. simpl in Hr. rewrite lookup_alter_eq in Hr.
        destruct (targeted_transfers (k_tables k1) !! tr_id row); [|done]. by injection Hr as <-. }
    apply wp_bind. destruct (ta_protected authority); simpl.
    - apply wp_in_custody_any. intros [u|e] w n2; [apply Hclear | apply He; etrans; [done|]].
      etrans; [done | apply put_vault_sheds].
    - apply wp_ret. rewrite <- (put_vault_id k1). apply Hclear. }
  apply wp_bind. destruct (bool_decide _); simpl; [|by apply wp_ret, Hrest].
  unfold wp, delete_tag. destruct (tag_fault _); [by apply He|].
  apply Hrest, on_tags_sheds.
Qed.

Lemma wp_cleanup_all rows k n Q :
  (∀ e k' n', core_sheds k k' → Q (Err e) k' n') →
  (∀ k' n', core_sheds k k' → (∀ row, row ∈ rows → stopped row k' ∧ disarmed row k') → Q (Ok tt) k' n') →
  wp (for_each rows (cleanup authority)) k n Q.
Proof.
  revert k n Q. induction rows as [|row rows IH]; intros k n Q He Ho; simpl.
  - apply wp_ret, Ho; [done|]. intros row Hin. by apply not_elem_of_nil in Hin.
  - apply wp_bind, wp_cleanup; [done|]. intros k1 n1 Hs Hst Hd. apply IH.
    + intros e k' n' Hs'. apply He. by etrans.
    + intros k' n' Hs' Hall. apply Ho; [by etrans|]. intros row' [->|Hin]%elem_of_cons; [|by apply Hall].
      split; [by eapply stopped_sheds | by eapply disarmed_sheds].
Qed.
End Cleanup.

(** ** Ending transfers *)

Section Endings.
Context `{Env} `{ForeignText} `{Host} `{Blake3} `{!Base64} `{Codec} `{Urls} `{Addressing} `{!TicketCodec}
  {V : Type} `{SecureSecretStore V} `{!SecureSecretStoreLaws V} `{!Network V} `{!Neighbours V}.
Variable authority : TargetedProtocolAuthority.
Implicit Types (k : Core V).

Lemma wp_collect_rows ids rows k n Q :
  (∀ e n', Q (Err e) k n') →
  (∀ rows' n', rows ⊆ rows' →
     (∀ id r, id ∈ ids → targeted_transfers (k_tables k) !! id = Some r →
        ∃ row, row ∈ rows' ∧ row_to_full (id, r) = Ok row) → Q (Ok rows') k n') →
  wp (fold_each collect_row ids rows) k n Q.
Proof.
  intros He. revert rows n Q He. induction ids as [|id ids IH]; intros rows n Q He Ho; simpl.
  - apply wp_ret, Ho; [done|]. intros id r Hin. by apply not_elem_of_nil in Hin.
  - apply wp_bind, wp_bind, wp_get_row; [done| |].
    + intros n1 Hn. apply wp_ret, IH; [done|]. intros rows' n2 Hs Hall. apply Ho; [done|].
      intros id' r [->|Hin]%elem_of_cons Hr; [congruence | by apply Hall].
    + intros r row n1 Hr Hrow. apply wp_ret, IH; [done|]. intros rows' n2 Hs Hall. apply Ho; [set_solver|].
      intros id' r' [->|Hin]%elem_of_cons Hr'; [|by apply Hall].
      exists row. simplify_eq. split; [|done]. apply Hs. set_solver.
Qed.

Lemma row_to_full_fields id r row :
  row_to_full (id, r) = Ok row →
  tr_id row = id ∧ tr_protocol_transfer_id row = as_u64 (c_protocol_transfer_id r) ∧
  tr_sender_endpoint_id row = c_sender_endpoint_id r ∧ tr_receiver_endpoint_id row = c_receiver_endpoint_id r ∧
  tr_authorization_secret_handle row = c_authorization_secret_handle r ∧
  parse_role (c_role r) = Ok (tr_role row) ∧ parse_targeted_state (c_state r) = Ok (tr_state row) ∧
  tr_blob_ticket row = c_blob_ticket r.
Proof.
  simpl. destruct (parse_role _) as [ro|] eqn:Ero; [|done]. destruct (parse_targeted_state _) as [st|] eqn:Est; [|done].
  intros [= <-]. done.
Qed.

(** What revoking a peer leaves of a transfer with it. *)
Definition peer_row_over (peer : string) k (id : string) (r : TransferColumns) : Prop :=
  c_state r ∈ terminal_texts ∧ c_authorization_secret_handle r = None ∧
  authorization_delivery_outbox (k_tables k) !! id = None ∧
  (id ∉ k_active k) ∧ modes (k_access k) !! as_u64 (c_protocol_transfer_id r) = None ∧
  (∀ endpoint, approved_sessions (k_access k) !! (as_u64 (c_protocol_transfer_id r), endpoint) = None) ∧
  ∀ h owners, k_hashes k !! h = Some owners → as_u64 (c_protocol_transfer_id r) ∉ owners.

Lemma revoked_peer_over peer now (rows : list TargetedTransferRow) k k' id r' :
  (∀ id r, id ∈ (select_rows (λ _ r, involves_peer peer r) (k_tables k)).*1 →
     targeted_transfers (k_tables k) !! id = Some r → ∃ row, row ∈ rows ∧ row_to_full (id, r) = Ok row) →
  core_sheds (set_tables (revoked_tables peer now (k_tables k)) k) k' →
  (∀ row, row ∈ rows → stopped row k' ∧ disarmed row k') →
  targeted_transfers (k_tables k') !! id = Some r' → involves_peer peer r' = true →
  peer_row_over peer k' id r'.
Proof.
  intros Hrows Hs Hall Hr' Hp'. pose proof Hs as [S1 S2 _ S4 _ _ _ _ _ _ _]. cbn [set_tables k_tables] in S1, S2, S4.
  assert (id ∈ dom (targeted_transfers (revoked_tables peer now (k_tables k)))) as [r1 Hr1]%elem_of_dom.
  { rewrite <- S2. apply elem_of_dom. by exists r'. }
  destruct (S1 id r1 Hr1) as (r2 & Hr2 & Hc). assert (r2 = r') as -> by (simpl in *; congruence).
  destruct (revoked_row _ _ _ _ _ Hr1) as (r0 & Hr0 & E1).
  assert (c_protocol_transfer_id r' = c_protocol_transfer_id r0 ∧ involves_peer peer r0 = true) as [Epid Hp0].
  { revert Hp'. destruct Hc as [->| ->]; rewrite E1; destruct (unfinished_with _ _ _); done. }
  destruct (Hrows id r0) as (row & Hin & Hrow); [|done|].
  { apply list_elem_of_fmap. exists (id, r0). split; [done|]. by apply elem_of_select_where. }
  destruct (row_to_full_fields id r0 row Hrow) as (Ei & Ep & _ & _ & Eh & _).
  destruct (Hall row Hin) as [[T1 T2 T3 T4] Hd]. unfold peer_row_over. rewrite Epid.
  rewrite Ei in T1. rewrite Ep in T2, T3, T4.
  split_and!; try done.
  - destruct (unfinished_with peer id r0) eqn:Eu.
    + assert (c_state r' = "cancelled"%string) as ->; [|set_solver]. destruct Hc as [->| ->]; by rewrite E1.
    + assert (c_state r' = c_state r0) as -> by (destruct Hc as [->| ->]; by rewrite E1).
      destruct (decide (c_state r0 ∈ terminal_texts)); [done|].
      assert (unfinished_with peer id r0 = true); [by apply unfinished_with_true | congruence].
  - destruct (c_authorization_secret_handle r0) as [h|] eqn:E0.
    + apply (Hd r'); [congruence | by rewrite Ei].
    + destruct Hc as [->| ->]; [|done]. rewrite E1. by destruct (unfinished_with _ _ _).
  - by eapply lookup_weaken_None, S4; eapply revoked_delivery.
Qed.

(** Nothing of the transfers with the peer goes on. *)
Definition peer_over (peer : string) k : Prop :=
    (∀ id r, targeted_transfers (k_tables k) !! id = Some r → involves_peer peer r = true →
       peer_row_over peer k id r) ∧
    (∀ id i, accepted_offer_intents (k_tables k) !! id = Some i →
       i_sender_endpoint_id i ≠ peer ∧ i_receiver_endpoint_id i ≠ peer).

Lemma wp_terminate_peer peer k n :
  wp (terminate_peer authority peer) k n (λ res k' _, is_ok res = true → peer_over peer k').
Proof.
  apply wp_bind. unfold wp at 1. destruct (inbox_discard_from peer k n) as [[[u|e] k1] n1]; [|done].
  apply wp_bind, wp_in_tables, wp_query; [done|]. rewrite set_tables_id.
  apply wp_bind, wp_collect_rows; [done|]. intros rows n2 _ Hrows.
  apply wp_bind, wp_in_tables, wp_cancel_by_peer; [done|]. intros now n3.
  apply wp_bind, wp_cleanup_all; [done|]. intros k' n4 Hs Hall. apply wp_ret. intros _. split.
  - intros id r Hr Hp. by eapply revoked_peer_over.
  - intros id i Hi. pose proof (cs_intents _ _ Hs) as E. simpl in E. rewrite E in Hi.
    by apply (revoked_intent peer now (k_tables k1) id i).
Qed.

(** C20: revoking a peer ends everything with it. When [terminate_peer] succeeds,
    every transfer with that peer has ended, its capability is gone from the row, no delivery
    is owed, nothing of it is running, served or approved any more, and no consent given to
    the peer is left. *)
Theorem terminate_peer_complete peer k n :
  wp (terminate_peer authority peer) k n (λ res k' _, is_ok res = true →
    (∀ id r, targeted_transfers (k_tables k') !! id = Some r → involves_peer peer r = true →
       peer_row_over peer k' id r) ∧
    (∀ id i, accepted_offer_intents (k_tables k') !! id = Some i →
       i_sender_endpoint_id i ≠ peer ∧ i_receiver_endpoint_id i ≠ peer)).
Proof. apply wp_terminate_peer. Qed.
End Endings.

(** ** Capabilities and completion *)

Section Deliveries.
Context `{Env} `{ForeignText} `{Host} `{Blake3} `{!Base64} `{!Base64Laws} `{Codec} `{!CodecLaws}
  `{Urls} `{Addressing} `{!TicketCodec}
  {V : Type} `{SecureSecretStore V} `{!SecureSecretStoreLaws V} `{!Network V} `{!Neighbours V}.
Variable authority : TargetedProtocolAuthority.
Implicit Types (k : Core V).

Definition saved_peer k (peer : string) : Prop :=
  ∃ r, relationships (devices (k_domain k)) !! peer = Some r ∧ d_state r = "saved"%string.

Lemma wp_require_saved peer k n Q :
  (∀ e n', Q (Err e) k n') → (∀ n', saved_peer k peer → Q (Ok tt) k n') →
  wp (in_domain (require_saved peer)) k n Q.
Proof.
  intros He Ho. apply wp_in_domain, wp_bind, wp_saved_row.
  - intros e n'. rewrite set_domain_id. apply He.
  - intros r row n' Hr _ Hs. apply wp_ret. rewrite set_domain_id. apply Ho. by exists r.
Qed.

(** C32: a capability is stored only if it comes from its own sender, a saved device; its
    integrity holds; it is bound to this device, this transfer and the content its ticket
    names; and it was received as [persist_receiver] promises: once, and with the user's
    consent. A rejected delivery changes no table. *)
Theorem handle_authorization_sound remote delivery k n :
  wp (handle_authorization authority remote delivery) k n (λ res k' _,
    match res with
    | Ok Stored => saved_peer k remote ∧ ∃ auth created k1,
        decode_authorization (da_authorization delivery) = Ok auth ∧
        verify_integrity auth = Ok tt ∧ au_sender_endpoint_id auth = remote ∧
        au_receiver_endpoint_id auth = ta_local_endpoint_id authority ∧
        au_transfer_id auth = da_transfer_id delivery ∧
        (∃ ticket, blob_ticket_from_str (au_blob_ticket auth) = Ok ticket ∧
           blob_ticket_hash ticket = au_content_hash auth) ∧
        received (ta_protected authority) auth k (Ok created) k1
    | Ok DeliveryRejected => ∃ w, k' = put_vault w k
    | Err _ => False
    end).
Proof.
  assert (∃ w, k = put_vault w k) as Hk by (exists (vault (k_domain k)); by rewrite put_vault_id).
  apply wp_bind, wp_try, wp_require_saved; [intros; by apply wp_ret|]. intros n1 Hsaved.
  destruct (decode_authorization _) as [auth|] eqn:Ed; [|by apply wp_ret].
  destruct (delivery_bound _ _ _ _) eqn:Eb; [|by apply wp_ret].
  apply wp_bind, wp_try. eapply wp_mono; [exact (wp_persist_receiver _ auth k n1)|].
  intros [created|e] k1 n2 Hrec; [|by apply wp_ret].
  apply wp_bind, wp_try. unfold wp at 1.
  destruct (inbox_deliver_authorization _ _ _ _ _) as [[r k2] n3]. apply wp_ret.
  split; [done|]. exists auth, created, k1. split; [done|]. split; [by eapply decode_Ok|].
  unfold delivery_bound in Eb. destruct (blob_ticket_from_str _) as [ticket|] eqn:Et; bool_simpl; [|done].
  do 3 (split; [done|]). split; [|done]. exists ticket. split; [done|congruence].
Qed.

(** The sender's row after completion. *)
Definition sender_completed (id : string) (r : TransferColumns) k k' : Prop := ∃ now created,
  k' = set_tables (on_releases (insert_or_ignore id created) (on_deliveries (delete id)
         (on_transfers <[id := completed_sender now r]> (k_tables k)))) k.

(** The capability [auth] that [remote] presents with [completion] is the one of the transfer
    of [row]: this device sends it, [remote] receives it, every field is that of the row, and all
    of its bytes are reported as verified. *)
Record proves_completion (remote : string) (completion : CompleteTargetedTransfer)
    (row : TargetedTransferRow) (auth : TargetedAuthorization) : Prop := {
  pc_role : tr_role row = Sender;
  pc_sender : au_sender_endpoint_id auth = ta_local_endpoint_id authority;
  pc_receiver : au_receiver_endpoint_id auth = remote ∧ tr_receiver_endpoint_id row = remote;
  pc_transfer : au_transfer_id auth = tr_id row ∧ au_protocol_transfer_id auth = tr_protocol_transfer_id row;
  pc_content : au_manifest_id auth = tr_manifest_id row ∧ au_content_hash auth = tr_content_hash row ∧
    tr_blob_ticket row = Some (au_blob_ticket auth);
  pc_files : au_transfer_name auth = tr_transfer_name row ∧ au_file_count auth = tr_file_count row;
  pc_size : au_total_size auth = tr_total_size row ∧ cp_verified_bytes completion = tr_total_size row;
  pc_version : au_protocol_version auth = targeted_transfer_protocol_version saved_device_capabilities
}.

Lemma completion_bound_true remote completion row auth :
  completion_bound authority remote completion row auth = true → proves_completion remote completion row auth.
Proof.
  unfold completion_bound, opt_eqb, str_eqb. intros Hb.
  repeat match type of Hb with
         | (_ && _)%bool = true => let H2 := fresh in apply andb_prop in Hb as [Hb H2]
         end.
  repeat match goal with
         | H : bool_decide _ = true |- _ => apply bool_decide_eq_true in H
         | H : (_ =? _) = true |- _ => apply Z.eqb_eq in H
         end.
  split; try split; try split; congruence.
Qed.

(** C19: completion is recorded only for the receiver itself. It must be a saved
    device, hold the capability of this very transfer with every bound field as in the
    sender's row, and report all bytes verified. Then the row, unless it is already completed,
    moves to completed exactly once; a rejected report changes nothing. *)
Theorem handle_completion_sound remote completion k n :
  let id := cp_transfer_id completion in
  wp (handle_completion authority remote completion) k n (λ res k' _,
    match res with
    | Ok Recorded => saved_peer k remote ∧ ∃ r row auth,
        targeted_transfers (k_tables k) !! id = Some r ∧ row_to_full (id, r) = Ok row ∧
        decode_authorization (cp_authorization completion) = Ok auth ∧ verify_integrity auth = Ok tt ∧
        proves_completion remote completion row auth ∧
        (c_state r = "completed"%string ∧ k' = k ∨
         c_state r ∈ resumable_texts ∧ sender_completed id r k k')
    | Ok CompletionRejected => k' = k
    | Err _ => False
    end).
Proof.
  intros id. apply wp_bind, wp_try, wp_require_saved; [intros; by apply wp_ret|]. intros n1 Hsaved.
  apply wp_bind, wp_try, wp_get_row; [intros; by apply wp_ret..|]. intros r row n2 Hr Hrow.
  destruct (decode_authorization _) as [auth|] eqn:Ed; [|by apply wp_ret].
  destruct (completion_bound _ _ _ _ _) eqn:Eb; simpl; [|by apply wp_ret].
  destruct (row_to_full_fields _ _ _ Hrow) as (_ & _ & _ & _ & _ & _ & Hst & _).
  assert (c_state r = targeted_as_str (tr_state row)) as Es by by apply parse_targeted_state_Ok.
  pose proof (decode_Ok _ _ Ed) as Hver. apply completion_bound_true in Eb.
  case_decide as Ec; [apply wp_ret; split; [done|]; exists r, row, auth; rewrite Ec in Es; by auto 10|].
  destruct (is_terminal (tr_state row)) eqn:Et; [by apply wp_ret|].
  apply wp_bind, wp_try, wp_in_tables, wp_mark_sender_completed; simpl.
  - intros e n3. apply wp_ret. by rewrite set_tables_id.
  - intros r' now created n3 Hr' Hro Hres. apply wp_ret. assert (r' = r) as -> by congruence.
    split; [done|]. exists r, row, auth. do 5 (split; [done|]). right. split; [done|]. by exists now, created.
  - intros r' n3 Hr' Hro Hcomp. assert (r' = r) as -> by congruence. rewrite Es in Hcomp.
    destruct (tr_state row); try discriminate Hcomp. by destruct Ec.
Qed.
End Deliveries.

(** ** Stops: the peer's and the user's *)

Section Stops.
Context `{Env} `{ForeignText} `{Host} `{Blake3} `{!Base64} `{Codec} `{Urls} `{Addressing} `{!TicketCodec}
  {V : Type} `{SecureSecretStore V} `{!SecureSecretStoreLaws V} `{!Network V} `{!Neighbours V}.
Variable authority : TargetedProtocolAuthority.
Implicit Types (k : Core V).

(** No row but that of [id] is touched. *)
Definition only_row (id : string) k k' : Prop :=
  delete id (targeted_transfers (k_tables k')) = delete id (targeted_transfers (k_tables k)).

#[global] Instance only_row_preorder id : PreOrder (only_row id).
Proof. split; [done|]. intros k1 k2 k3 E1 E2. unfold only_row in *. congruence. Qed.

Lemma only_row_tables id t k :
  targeted_transfers t = targeted_transfers (k_tables k) → only_row id k (set_tables t k).
Proof. unfold only_row. simpl. by intros ->. Qed.

Lemma within_cleanup_only row : within (only_row (tr_id row)) (cleanup authority (V:=V) row).
Proof.
  assert (∀ A (m : M (Vault V) VnidropError A), within (only_row (tr_id row)) (in_custody_of (V:=V) m)) as Hv.
  { intros A m k n. by apply wp_in_custody_any. }
  assert (within (only_row (tr_id row)) (in_tables (V:=V) (clear_authorization (tr_id row)))) as Hc.
  { intros k n. apply wp_in_tables, wp_clear_authorization.
    - intros. by rewrite set_tables_id.
    - intros n'. unfold only_row. simpl. apply map_eq. intros id.
      destruct (decide (id = tr_id row)) as [->|Hne]; [by rewrite !lookup_delete_eq|].
      by rewrite !lookup_delete_ne, lookup_alter_ne. }
  assert (∀ A (m : M AccessPolicy VnidropError A), within (only_row (tr_id row)) (in_access (V:=V) m)) as Ha.
  { intros A m k n. apply wp_in_access. unfold wp. by destruct (m (k_access k) n) as [[??]?]. }
  assert (∀ tag, within (only_row (tr_id row)) (delete_tag (V:=V) tag)) as Ht.
  { intros tag k n. unfold wp, delete_tag. by destruct (tag_fault n). }
  unfold cleanup. do 2 (apply within_bind; [apply _|apply within_modify; [done]|intros _]).
  apply within_bind; [apply _|apply Ha|intros _]. apply within_bind; [apply _|apply within_when; [apply _|apply Ht]|intros _].
  destruct (tr_authorization_secret_handle row); [|apply within_ret; apply _].
  apply within_bind; [apply _|apply within_when; [apply _|apply Hv]|intros _; apply Hc].
Qed.

(** A row whose state is terminal stays so under clean-up. *)
Lemma terminal_sheds k k' id r :
  core_sheds k k' → targeted_transfers (k_tables k) !! id = Some r → c_state r ∈ terminal_texts →
  ∀ r', targeted_transfers (k_tables k') !! id = Some r' → c_state r' ∈ terminal_texts.
Proof.
  intros [] Hr Ht r' Hr'. destruct (cs_rows0 id r Hr) as (r1 & Hr1 & Hc). simplify_eq.
  by destruct Hc as [->| ->].
Qed.

Lemma is_terminal_text s : is_terminal s = true ↔ targeted_as_str s ∈ terminal_texts.
Proof. destruct s; simpl; split; try done; set_solver. Qed.

(** A peer can stop only its own transfers, and a stop fails closed. If the
    requester is not the other party of the transfer on record, nothing changes. If the answer is
    positive, the transfer has ended here, and whatever happens to the clean-up, no other
    transfer is touched. *)
Theorem cancel_from_peer_fails_closed remote id k n :
  wp (cancel_from_peer authority remote id) k n (λ res k' _,
    only_row id k k' ∧
    (∀ r row, targeted_transfers (k_tables k) !! id = Some r → row_to_full (id, r) = Ok row →
       remote_is_peer row remote = false → k' = k ∧ res ≠ Ok true) ∧
    (res = Ok true → ∀ r', targeted_transfers (k_tables k') !! id = Some r' → c_state r' ∈ terminal_texts)).
Proof.
  apply wp_bind, wp_get_row; [intros; by split_and!|..].
  - intros n1 Hn. apply wp_bind, wp_in_tables, wp_sql; [intros; rewrite set_tables_id; by split_and!|].
    intros _ [] t' [= <-]. apply wp_ret. simpl. split_and!; [done| |].
    + intros r row Hr. congruence.
    + intros _ r'. simpl. congruence.
  - intros r row n1 Hr Hrow. destruct (row_to_full_fields _ _ _ Hrow) as (Ei & _ & _ & _ & _ & _ & Hst & _).
    apply parse_targeted_state_Ok in Hst.
    destruct (remote_is_peer row remote) eqn:Ep; simpl.
    2: { apply wp_ret. split_and!; [done|done|]. done. }
    assert (∀ P, (∀ r0 row0, targeted_transfers (k_tables k) !! id = Some r0 → row_to_full (id, r0) = Ok row0 →
              remote_is_peer row0 remote = false → P)) as Hpeer.
    { intros P r0 row0 Hr0 Hrow0 Hf. assert (r0 = r) as -> by congruence. congruence. }
    assert (∀ k1 n1, only_row id k k1 → (∃ r1, targeted_transfers (k_tables k1) !! id = Some r1 ∧ c_state r1 ∈ terminal_texts) →
      wp (cleanup authority row) k1 n1 (λ res k' n', only_row id k k' ∧
        ∀ r', targeted_transfers (k_tables k') !! id = Some r' → c_state r' ∈ terminal_texts)) as Hclean.
    { intros k1 n2 Ho (r1 & Hr1 & Ht1).
      pose proof (within_cleanup_only row k1 n2) as Hw.
      assert (wp (cleanup authority row) k1 n2 (λ _ k' _, core_sheds k1 k')) as Hs by by apply wp_cleanup.
      unfold wp in Hw, Hs |- *. destruct (cleanup authority row k1 n2) as [[r2 k2] n3].
      rewrite Ei in Hw. split; [by etrans|]. by eapply terminal_sheds. }
    case_decide as Ec; [|destruct (is_terminal (tr_state row)) eqn:Et].
    + apply wp_bind. eapply wp_mono.
      { apply Hclean; [done|]. exists r. split; [done|]. rewrite Hst, Ec. set_solver. }
      intros [u|e] k' n' [Ho Ht]; [apply wp_ret|]; (split_and!; [done|exact (Hpeer _)|done]).
    + apply wp_ret. split_and!; [done|exact (Hpeer _)|]. intros _ r' Hr'. simplify_eq. rewrite Hst. by apply is_terminal_text.
    + apply wp_bind, wp_in_tables, (wp_transition_terminal _ _ _ "cancelled"); [done|..].
      * intros e n'. rewrite set_tables_id. split_and!; [done|exact (Hpeer _)|done].
      * intros n' Hno. exfalso. specialize (Hno r Hr). unfold terminal_applies in Hno.
        rewrite str_eqb_refl, Hst in Hno. by destruct (tr_state row).
      * intros r0 now n' Hr0 Happ. apply wp_bind. simpl. eapply wp_mono.
        { apply Hclean.
          - unfold only_row. simpl. apply delete_insert_eq.
          - simpl. rewrite lookup_insert_eq. eexists. split; [done|]. simpl. set_solver. }
        intros [u|e] k' n'' [Ho Ht]; [apply wp_ret|]; (split_and!; [done|exact (Hpeer _)|done]).
Qed.

(** Cancelling a completed receive silently drops its report. The transfer stays
    completed here, but the completion still owed to the sender is deleted with its capability, so
    the sender is never told. (Nobody else is at work: [between] does nothing.) *)
Theorem cancel_completed_drops_report id r k n
  (Hquiet : ∀ n k, between n k = k)
  (Hr : targeted_transfers (k_tables k) !! id = Some r) (Hcompleted : c_state r = "completed"%string) :
  wp (terminate_local authority id Cancelled) k n (λ res k' _, ∀ row changed,
    res = Ok (Some (row, changed)) → changed = false ∧
    completion_outbox (k_tables k') !! id = None ∧
    ∃ r', targeted_transfers (k_tables k') !! id = Some r' ∧ c_state r' = "completed"%string).
Proof.
  apply wp_bind, wp_get_row; [done|congruence|]. intros r0 row n1 Hr0 Hrow. simplify_eq.
  destruct (row_to_full_fields _ _ _ Hrow) as (Ei & _ & _ & _ & _ & _ & Hst & _).
  apply parse_targeted_state_Ok in Hst.
  assert (tr_state row = States.Completed) as Est.
  { rewrite Hst in Hcompleted. by destruct (tr_state row). }
  rewrite Est. cbn [bool_decide andb].
  assert (bool_decide (States.Completed = Cancelled) = false) as -> by done. simpl.
  apply wp_bind, wp_in_tables, (wp_transition_terminal _ _ _ "cancelled"); [done|done| |].
  2: { intros r1 now n2 Hr1 Happ. exfalso. assert (r1 = r) as -> by congruence.
       unfold terminal_applies in Happ. by rewrite Hcompleted, andb_comm in Happ. }
  intros n2 _. set (k1 := set_tables _ k).
  assert (∀ l k2 n2, k_tables k2 = k_tables k1 →
    wp (for_each l (inbox_discard_section id)) k2 n2 (λ _ k3 _, k_tables k3 = k_tables k1)) as Hdiscard.
  { intros l. induction l as [|stage l IH]; intros k2 n3 E; simpl; [done|].
    apply wp_bind, wp_bind. unfold wp at 1, pause. rewrite Hquiet. apply wp_bind. unfold wp at 1, neighbours.
    apply wp_bind, wp_in_inbox. unfold wp at 1.
    destruct (discard_stage _ id stage _ _) as [[[o|e] i] n4]; [|done]. simpl. apply wp_ret. by apply IH. }
  apply wp_bind. eapply wp_mono; [by apply Hdiscard|]. intros [u|e] k3 n3 E3; [|done].
  apply wp_bind, wp_cleanup; [done|]. intros k4 n4 Hs _ _. apply wp_ret. intros row' changed [= <- <-].
  split; [done|]. destruct Hs. rewrite E3 in *. split.
  - eapply lookup_weaken_None; [|done]. simpl. apply lookup_delete_eq.
  - destruct (cs_rows0 id r) as (r' & Hr' & Hc); [done|]. exists r'. split; [done|]. by destruct Hc as [->| ->].
Qed.
End Stops.

(** ** Witnesses *)

Section Witnesses.
#[local] Existing Instances device_env device_text device_host device_blake3 device_network.
#[local] Existing Instances demo_base64 demo_base64_laws demo_urls demo_addressing demo_ticket_codec.
#[local] Existing Instances auth_codec auth_codec_laws.

(** Nobody else is at work. *)
#[local] Instance alone : Neighbours FaultInjectingSecretStore := {|
  neighbour_tasks _ := []; between _ k := k; patience _ := 2%nat; tag_fault _ := None |}.

Definition demo_authority (local : string) : TargetedProtocolAuthority := {|
  ta_protected := true; ta_local_endpoint_id := local; ta_limits := default_core_limits;
  ta_relay_mode := Automatic; ta_custom_relay_urls := []; ta_cooldown := Cooldown.new 60000 5;
  ta_max_pending := 3 |}.

Definition with_domain (d : Domain FaultInjectingSecretStore) (i : TargetedOfferInbox) (t : Tables) :
    Core FaultInjectingSecretStore := set_inbox i (set_domain d (demo_core t)).

(** The user has accepted the offer before; the sender asks again. *)
Definition accepted_inbox : TargetedOfferInbox :=
  on_settled <["t1"%string := SettledAccepted (Some "auth"%string)]> inbox_new.

Definition demo_submission : SubmitTargetedOffer := {|
  so_proof := {| wp_grant_id := "0123456789abcdef"; wp_mac := "0123456789abcdef0123456789abcdef";
                 wp_challenge := demo_secret |};
  so_generation := 3; so_relationship_protocol_version := 2; so_protocol_version := 3;
  so_transfer_id := "t1"; so_sender_endpoint_id := "bob"; so_receiver_endpoint_id := "alice";
  so_manifest_id := "hash"; so_content_hash := "hash"; so_transfer_name := "photos"; so_file_count := 2;
  so_total_size := 30; so_relay_mode := Automatic; so_relay_urls := [] |}.

Definition demo_receiver : Core FaultInjectingSecretStore :=
  with_domain (demo_end "bob" demo_relationship) accepted_inbox empty_tables.

Lemma handle_offer_sound_witness :
  (Sql.run (handle_offer (demo_authority "alice") "bob" demo_secret demo_submission) demo_receiver).1
    = Ok WireAccepted ∧
  (offer_recorded demo_receiver demo_submission ∨
   offer_admissible (demo_authority "alice") demo_receiver "bob" demo_secret demo_submission ∧
   "t1"%string ∈ ({["t1"%string]} : gset string)).
Proof.
  assert ((Sql.run (handle_offer (demo_authority "alice") "bob" demo_secret demo_submission) demo_receiver).1
    = Ok WireAccepted) as E by by vm_compute.
  split; [exact E|].
  assert (neighbours_keep (demo_authority "alice") {["t1"%string]}) as Hn.
  { intros n k Hk. split; [exact Hk|]. by apply chans_kept_same. }
  assert (inbox_ok (demo_authority "alice") {["t1"%string]} demo_receiver) as Hi.
  { split; [|split; [done|done|vm_compute; discriminate]].
    split; try done. intros id a Ha. simpl in Ha. apply lookup_insert_Some in Ha as [[<- _]|[_ Ha]]; [set_solver|done]. }
  pose proof (run_wp _ _ (λ res k', _)
    (handle_offer_sound (demo_authority "alice") {["t1"%string]} Hn "bob" demo_secret demo_submission
       demo_receiver 0 Hi)) as Hp.
  cbn beta in Hp. destruct Hp as [_ Hp]. exact (proj2 (Hp E)).
Defined.

(** The capability of Alice's transfer arrives at Bob, who saved her and consented. *)
Definition demo_delivery : DeliverTargetedAuthorization :=
  {| da_transfer_id := "t1"; da_authorization := "vndta1:gkhdgpgo" |}.
Definition demo_awaiting_delivery : Core FaultInjectingSecretStore :=
  with_domain (demo_end "alice" demo_relationship) inbox_new
    (on_intents (λ _, {[ "t1"%string := authorized_intent demo_auth ]}) empty_tables).

(** The keyed hash under which Alice's capability verifies. *)
#[local] Existing Instance auth_blake3.

Lemma handle_authorization_sound_witness :
  (Sql.run (handle_authorization (demo_authority "bob") "alice" demo_delivery) demo_awaiting_delivery).1
    = Ok Stored ∧ saved_peer demo_awaiting_delivery "alice".
Proof.
  assert ((Sql.run (handle_authorization (demo_authority "bob") "alice" demo_delivery)
             demo_awaiting_delivery).1 = Ok Stored) as E by by vm_compute.
  split; [exact E|].
  pose proof (run_wp _ _ (λ res k', _)
    (handle_authorization_sound (demo_authority "bob") "alice" demo_delivery demo_awaiting_delivery 0)) as Hp.
  cbn beta in Hp. rewrite E in Hp. exact (proj1 Hp).
Defined.

Definition demo_completed : TransferColumns :=
  set_columns "completed" 30 (Some "ticket"%string) (Some "h"%string) 5
    (receiver_columns demo_auth "h" 1).
Definition demo_reporting : Core FaultInjectingSecretStore :=
  with_domain (demo_end "alice" demo_relationship) inbox_new
    (on_completions (λ _, {[ "t1"%string := {| o_created_at := 5; o_next_attempt_at := 5 |} ]})
       (on_transfers (λ _, {[ "t1"%string := demo_completed ]}) empty_tables)).

(** Cancelling succeeds, with the report still owed. *)
Lemma cancel_completed_drops_report_witness :
  completion_outbox (k_tables demo_reporting) !! "t1"%string =
    Some {| o_created_at := 5; o_next_attempt_at := 5 |} ∧
  is_ok (Sql.run (terminate_local (demo_authority "bob") "t1" Cancelled) demo_reporting).1 = true ∧
  wp (terminate_local (demo_authority "bob") "t1" Cancelled) demo_reporting 0 (λ res k' _, ∀ row changed,
    res = Ok (Some (row, changed)) → changed = false ∧
    completion_outbox (k_tables k') !! "t1"%string = None ∧
    ∃ r', targeted_transfers (k_tables k') !! "t1"%string = Some r' ∧ c_state r' = "completed"%string).
Proof.
  split; [reflexivity|]. split; [by vm_compute|].
  apply (cancel_completed_drops_report (demo_authority "bob") "t1" demo_completed); reflexivity.
Defined.
End Witnesses.
