(* ===== verification/TargetedRuntime.v ===== *)
(** * [runtime/targeted.rs], [targeted_receive.rs], [targeted_reconciliation.rs]

    What the runtime does with targeted transfers around the module that owns them: restoring
    access after a restart, the user's commands, a receive from beginning to end, and the
    background task that works off what is still owed to peers. What peers answer and what the
    blob store holds is the environment's choice; while a peer is asked, or a payload is
    fetched, other handlers may change the core ([between]). *)

From S2P Require Import Prelude Sql ControlPlane Errors States Api Ticket TargetedStore Access Invitation Inbox SecureSecret Relationship Pairing Devices Core Authorization TargetedModule Approval.

(** ** The environment *)

(** A call to a peer under a timeout: [irpc::Error] is known by its text. *)
Inductive RpcOutcome (A : Type) : Type :=
| RpcTimedOut
| RpcFailed (rendered : string)
| RpcReplied (response : A).
Arguments RpcTimedOut {A}.
Arguments RpcFailed {A} rendered.
Arguments RpcReplied {A} response.

Class Remote : Type := {
  cancel_reply : nat → string → CancelTargetedOffer → RpcOutcome CancelWireOfferResponse;
  completion_reply : nat → string → CompleteTargetedTransfer → RpcOutcome CompletionResponse;
  delivery_reply : nat → string → DeliverTargetedAuthorization → RpcOutcome DeliverAuthorizationResponse
}.

(** [iroh_blobs]: the text form of hashes, the collections in the store, and whether an
    operation on tags fails; and how the download of a payload ends. *)
Class Blobs : Type := {
  hash_text_len : Z;
  parse_hash : string → result string AnyhowError;
  load_collection : nat → string → result (list string) AnyhowError;
  set_tag_fault : nat → option AnyhowError;
  list_tags_fault : nat → option AnyhowError;
  fetch_fault : nat → option AnyhowError
}.

Inductive TargetedOfferResponse : Type :=
| OfferApproved (transfer_id : string)
| OfferResponseDeclined
| OfferAlreadySettled (transfer_id : string).

(** [rendered.contains(..)]: negotiation failures are told apart from offline peers. *)
Definition map_connect_failure `{ForeignText} (rendered : string) : VnidropError :=
  if str_contains "ALPN" rendered || str_contains "alpn" rendered || str_contains "protocol" rendered ||
     str_contains "unsupported" rendered
  then protocol_incompatible (anyhow_msg "peer does not support saved-device targeted transfers")
  else device_unavailable (anyhow_msg ("device is not reachable: " +:+ rendered)).

(** [u64::from_le_bytes] of the first eight bytes of the hash, kept within [i64]. *)
Fixpoint of_le_bytes (n : nat) (s : string) : Z :=
  match n, s with
  | S n, String a s => Z.of_N (Ascii.N_of_ascii a) + 256 * of_le_bytes n s
  | _, _ => 0
  end.
Definition allocate_protocol_transfer_id `{Blake3Hash} (transfer_uuid : string) : Z :=
  let value := Z.land (of_le_bytes 8 (blake3_hash transfer_uuid)) I64_MAX in
  if value =? 0 then 1 else value.

Section TargetedRuntime.
Context `{Env} `{ForeignText} `{Host} `{Blake3} `{!Base64} `{Codec} `{Urls} `{Addressing} `{!TicketCodec}
  {V : Type} `{SecureSecretStore V} `{!Network V} `{!Neighbours V} `{Remote} `{Blobs}.
Variable authority : TargetedProtocolAuthority.

Abbreviation IO := (M (Core V) VnidropError).
Abbreviation protected := (ta_protected authority).
Abbreviation local_id := (ta_local_endpoint_id authority).

(** [tokio::time::timeout(.., client.call(message)).await]. *)
Definition call {A R} (reply : nat → string → A → RpcOutcome R) (peer : string) (message : A) :
    IO (RpcOutcome R) := λ k n, (Ok (reply n peer message), between n k, S n).

(** [if let Err(error) = .. { tracing::warn!(..) }]. *)
Definition logged {A} (m : IO A) : IO unit := try (E:=VnidropError) m;; ret tt.

(** ** Content that is served *)

Definition register_share_hashes (transfer_id : Z) (hashes : list string) : IO unit :=
  modify (on_hashes (λ served, fold_left (λ served hash,
    <[hash := {[transfer_id]} ∪ default ∅ (served !! hash)]> served) hashes served)).

Definition unregister_transfer_hashes (transfer_id : Z) : IO unit :=
  modify (on_hashes (release_hashes transfer_id)).

Definition try_teardown_targeted_payload (protocol_transfer_id : Z) (id : option string) : IO unit :=
  unregister_transfer_hashes protocol_transfer_id;;
  in_access (remove_transfer protocol_transfer_id);;
  match id with
  | Some id => delete_tag (targeted_tag_name id)
  | None => ret tt
  end.

Definition teardown_targeted_payload (protocol_transfer_id : Z) (id : option string) : IO unit :=
  logged (try_teardown_targeted_payload protocol_transfer_id id).

Definition set_tag (tag : string) : IO unit := λ k n,
  match set_tag_fault n with
  | Some e => (Err (Errors.transfer e), k, S n)
  | None => (Ok tt, on_tags (λ tags, {[tag]} ∪ tags) k, S n)
  end.

Definition collection_of (root_hash : string) : IO (list string) := λ k n,
  (result_map_err Errors.transfer (load_collection n root_hash), k, S n).

Definition list_tags (prefix : string) : IO (list string) := λ k n,
  match list_tags_fault n with
  | Some e => (Err (Errors.transfer e), k, S n)
  | None => (Ok (filter (λ tag, String.prefix prefix tag = true) (elements (k_tags k))), k, S n)
  end.

(** ** Restart ([restore_targeted_transfer_access]) *)

Definition is_blocked_peer (peer : string) : IO bool :=
  in_domain (map_err repository (zoom blocked set_blocked (is_blocked peer))).

(** [require_saved(..).await.is_ok()]. *)
Definition is_saved (peer : string) : IO bool :=
  saved ← try (E:=VnidropError) (in_domain (require_saved peer));
  ret (is_ok saved).

Definition peer_of (row : TargetedTransferRow) : string :=
  match tr_role row with
  | Sender => tr_receiver_endpoint_id row
  | Receiver => tr_sender_endpoint_id row
  end.

Definition cancel_targeted_transfers_for_peer (peer : string) : IO Z := terminate_peer authority peer.

(** Consents given to devices that are no longer saved. *)
Definition drop_lost_consent (consent : string * string) : IO unit :=
  saved ← is_saved consent.2;
  when (negb saved) (in_tables (clear_accepted_intent_if_sender consent.1 consent.2)).

(** Transfers with peers that are blocked or gone; each peer once. *)
Definition revoke_lost_peer (revoked : gset string) (row : TargetedTransferRow) : IO (gset string) :=
  let peer := peer_of row in
  barred ← is_blocked_peer peer;
  saved ← (if barred : bool then ret true else is_saved peer);
  if (barred || negb saved) && bool_decide (peer ∉ revoked)
  then cancel_targeted_transfers_for_peer peer;; ret ({[peer]} ∪ revoked)
  else ret revoked.

(** Capabilities that nothing can use any more. *)
Definition clear_dead_authorization (row : TargetedTransferRow) : IO unit :=
  barred ← is_blocked_peer (peer_of row);
  let terminal := match tr_state row with Cancelled | Deleted | TFailed => true | _ => false end in
  revoked_receiver ←
    (if bool_decide (tr_role row = Receiver) then
       if barred : bool then ret true
       else saved ← is_saved (tr_sender_endpoint_id row); ret (negb saved)
     else ret false);
  match tr_authorization_secret_handle row with
  | Some handle =>
      when (terminal || revoked_receiver) (
        when protected (in_custody_of (remove handle));;
        in_tables (clear_authorization (tr_id row)))
  | None => ret tt
  end.

(** The payload of a share: its root hash and what it contains, kept by a tag. *)
Definition restore_payload (row : TargetedTransferRow) : IO (string * list string) :=
  if negb (str_len (tr_content_hash row) =? hash_text_len)
  then fail (Errors.transfer (anyhow_msg "invalid targeted content hash"))
  else
    root_hash ← of_result (result_map_err Errors.transfer (parse_hash (tr_content_hash row)));
    collection ← collection_of root_hash;
    set_tag (targeted_tag_name (tr_id row));;
    ret (root_hash, collection).

Definition restore_row (active_tags : gset string) (row : TargetedTransferRow) : IO (gset string) :=
  let pid := tr_protocol_transfer_id row in
  barred ← is_blocked_peer (tr_receiver_endpoint_id row);
  saved ← is_saved (tr_receiver_endpoint_id row);
  if (barred : bool) || negb saved then
    in_tables (transition_terminal (tr_id row) Cancelled false);;
    teardown_targeted_payload pid (Some (tr_id row));;
    ret active_tags
  else
    restored ← try (E:=VnidropError) (restore_payload row);
    match restored with
    | Err _ =>
        logged (in_tables (fail_resumable_and_clear_delivery (tr_id row)));;
        teardown_targeted_payload pid (Some (tr_id row));;
        ret active_tags
    | Ok (root_hash, collection) =>
        register_share_hashes pid (root_hash :: collection);;
        in_access (set_mode pid ApprovalRequired);;
        in_access (approve_endpoint_until pid (tr_receiver_endpoint_id row) None);;
        ret ({[targeted_tag_name (tr_id row)]} ∪ active_tags)
    end.

Definition drop_stale_tag (active_tags : gset string) (tag : string) : IO unit :=
  when (bool_decide (tag ∉ active_tags)) (delete_tag tag).

(** What serves the payloads again, once consents and peers are settled. *)
Definition restore_shares : IO unit :=
  rows ← in_tables list_resumable_sender_rows;
  active_tags ← fold_each restore_row rows ∅;
  tags ← list_tags "vnidrop/targeted/";
  for_each tags (drop_stale_tag active_tags).

Definition restore_targeted_transfer_access : IO unit :=
  consents ← in_tables list_accepted_intent_senders;
  for_each consents drop_lost_consent;;
  rows ← in_tables list_resumable_rows;
  fold_each revoke_lost_peer rows ∅;;
  rows ← in_tables authorization_rows;
  for_each rows clear_dead_authorization;;
  restore_shares.

(** ** The user's commands *)

(** [if let Ok(addr) = peer_addr(peer) { let _ = timeout(client.cancel_offer(..)) }]. *)
Definition tell_peer (peer : string) (message : CancelTargetedOffer) : IO unit :=
  addr ← try (E:=VnidropError) (in_domain (peer_addr peer));
  match addr with
  | Ok _ => call cancel_reply peer message;; ret tt
  | Err _ => ret tt
  end.

Definition cancel_targeted_transfer (id : string) : IO unit :=
  found ← terminate_local authority id Cancelled;
  match found with
  | None => ret tt
  | Some (row, _) =>
      when (negb (bool_decide (tr_state row = Deleted)))
        (tell_peer (peer_of row) {| co_transfer_id := id; co_terminal := Some Cancelled |})
  end.

Definition delete_targeted_transfer (id : string) : IO unit :=
  found ← terminate_local authority id Deleted;
  match found with
  | None => ret tt
  | Some (row, changed) =>
      when changed (tell_peer (peer_of row) {| co_transfer_id := id; co_terminal := Some Deleted |})
  end.

Definition stop_targeted_preparation (id : string) : IO TargetedPreparationStopOutcome :=
  row ← in_tables (get_row id);
  outcome ← stop_preparation authority id;
  match outcome, row with
  | TransferAbandoned, Some row =>
      tell_peer (tr_receiver_endpoint_id row) {| co_transfer_id := id; co_terminal := None |}
  | TransferCancelled, Some row =>
      tell_peer (tr_receiver_endpoint_id row) {| co_transfer_id := id; co_terminal := Some Cancelled |}
  | _, _ => ret tt
  end;;
  ret outcome.

(** [inbox.respond(..)]: a waiting call, like a submission. *)
Definition inbox_respond (transfer_id : string) (accepted : bool) :
    IO (result (option string) RespondError) :=
  waits ← patient;
  task ← inbox_call authority (waits + 12) waits (RespondSettled transfer_id accepted);
  match task with
  | Responded _ outcome => ret outcome
  | _ => fail unfinished
  end.

Definition settled_state (state : TargetedTransferState) : bool :=
  match state with
  | Approved | Connecting | Transferring | Interrupted | States.Completed | States.Declined
  | Cancelled | TFailed | Deleted => true
  | Preparing | Offering | AwaitingApproval => false
  end.

Definition unknown_offer : VnidropError := invalid_input (anyhow_msg "unknown targeted offer").

(** What the answer of the inbox means: an acceptance counts once custody holds it. *)
Definition finish_response (transfer_id : string)
    (outcome : result (option string) RespondError) : IO TargetedOfferResponse :=
  match outcome with
  | Ok (Some _) =>
      found ← in_tables (get_row transfer_id);
      match found with
      | Some row =>
          if bool_decide (tr_role row = Receiver) && bool_decide (tr_state row = Approved) &&
             bool_decide (tr_authorization_secret_handle row ≠ None)
          then ret (OfferApproved transfer_id)
          else fail (internal (anyhow_msg "receiver acknowledged authorization without durable custody"))
      | None => fail (internal (anyhow_msg "receiver acknowledged authorization without durable custody"))
      end
  | Ok None =>
      in_tables (clear_accepted_offer_intent transfer_id);;
      ret OfferResponseDeclined
  | Err Unknown => fail unknown_offer
  | Err SenderGone => fail (device_unavailable (anyhow_msg "sender disconnected before approval completed"))
  | Err AuthorizationTimeout => fail (offer_timeout (anyhow_msg "authorization was not delivered in time"))
  end.

(** The consent is durable before the sender is told. *)
Definition record_consent (transfer_id : string) : IO unit :=
  pause;;
  offer ← in_inbox (get_pending transfer_id);
  match offer with
  | None => fail unknown_offer
  | Some offer => in_tables (persist_accepted_offer_intent offer)
  end.

Definition respond_to_targeted_offer (transfer_id : string) (accepted : bool) :
    IO TargetedOfferResponse :=
  pause;;
  settled ← in_inbox (is_settled transfer_id);
  if settled : bool then ret (OfferAlreadySettled transfer_id)
  else
    found ← try (E:=VnidropError) (in_tables (get_row transfer_id));
    known ← match found with
            | Ok (Some row) =>
                stored ← load_authorization protected row;
                ret (bool_decide (stored ≠ None) || settled_state (tr_state row))
            | _ => ret false
            end;
    if known : bool then ret (OfferAlreadySettled transfer_id)
    else
      when accepted (record_consent transfer_id);;
      outcome ← inbox_respond transfer_id accepted;
      finish_response transfer_id outcome.
(** ** A receive ([targeted_receive.rs]) *)

Definition unknown_transfer : VnidropError := invalid_input (anyhow_msg "unknown targeted transfer").

Definition load_receiver_authorization (transfer_id : string) : IO TargetedAuthorization :=
  found ← in_tables (get_row transfer_id);
  match found with
  | None => fail unknown_transfer
  | Some row =>
      stored ← load_authorization protected row;
      match stored with
      | None => fail (invalid_input (anyhow_msg "targeted transfer has no durable authorization"))
      | Some encoded =>
          auth ← of_result (decode_authorization encoded);
          of_result (verify_for_receiver auth local_id);;
          ret auth
      end
  end.

Definition acknowledge_targeted_completion (auth : TargetedAuthorization) : IO unit :=
  in_domain (peer_addr (au_sender_endpoint_id auth));;
  encoded ← of_result (encode_authorization auth);
  response ← call completion_reply (au_sender_endpoint_id auth)
    {| cp_transfer_id := au_transfer_id auth; cp_verified_bytes := au_total_size auth;
       cp_authorization := encoded |};
  match response with
  | RpcTimedOut => fail (device_unavailable (anyhow_msg "completion timed out"))
  | RpcFailed rendered => fail (network (anyhow_msg rendered))
  | RpcReplied Recorded => ret tt
  | RpcReplied CompletionRejected => fail (permission (anyhow_msg "sender rejected targeted completion"))
  end.

(** [receive_targeted_payload]: the download, during which anything may happen. *)
Definition receive_payload : IO (result unit AnyhowError) := λ k n,
  (Ok (match fetch_fault n with Some e => Err e | None => Ok tt end), between n k, S n).

(** After the payload arrived: completion is durable before it is reported. *)
Definition finish_receive (auth : TargetedAuthorization) : IO unit :=
  found ← in_tables (get_row (au_transfer_id auth));
  match found with
  | None => fail (internal (anyhow_msg "targeted transfer missing"))
  | Some row =>
      complete_receiver (au_transfer_id auth) (tr_total_size row);;
      acked ← try (E:=VnidropError) (acknowledge_targeted_completion auth);
      when (is_ok acked) (in_tables (clear_pending_completion (au_transfer_id auth)))
  end.

(** After it did not. *)
Definition abandon_receive (transfer_id : string) : IO unit :=
  found ← try (E:=VnidropError) (in_tables (get_row transfer_id));
  match found with
  | Ok (Some row) =>
      when (match tr_state row with Connecting | Transferring => true | _ => false end)
        (logged (interrupt_receive transfer_id))
  | _ => ret tt
  end.

Definition already_active : VnidropError := InvalidTransition "targeted receive is already active".

Definition run_registered_targeted_receive (auth : TargetedAuthorization) : IO unit :=
  found ← in_tables (get_row (au_transfer_id auth));
  match found with
  | Some row =>
      match tr_state row with
      | Approved | Interrupted => begin_receive (au_transfer_id auth) (tr_state row)
      | Connecting | Transferring => fail already_active
      | other => fail (InvalidTransition ("cannot receive from " +:+ targeted_as_str other))
      end
  | None => ret tt
  end;;
  of_result (result_map_err ticket (blob_ticket_from_str (au_blob_ticket auth)));;
  received ← receive_payload;
  match received with
  | Ok _ => finish_receive auth
  | Err error =>
      abandon_receive (au_transfer_id auth);;
      fail (Errors.transfer error)
  end.

(** One receive of a transfer at a time; it is unregistered however it ends. *)
Definition run_targeted_receive (auth : TargetedAuthorization) : IO unit :=
  k ← Sql.get;
  if bool_decide (au_transfer_id auth ∈ k_active k) then fail already_active
  else
    modify (on_active (λ ids, {[au_transfer_id auth]} ∪ ids));;
    result ← try (E:=VnidropError) (run_registered_targeted_receive auth);
    modify (on_active (λ ids, ids ∖ {[au_transfer_id auth]}));;
    of_result result.

Definition receive_targeted_to_target (transfer_id : string) : IO unit :=
  auth ← load_receiver_authorization transfer_id;
  run_targeted_receive auth.

Definition resume_targeted_to_target (id : string) : IO unit :=
  found ← in_tables (get_row id);
  match found with
  | None => fail unknown_transfer
  | Some row =>
      match tr_state row with
      | Approved | Connecting | Transferring | Interrupted =>
          auth ← load_receiver_authorization id;
          run_targeted_receive auth
      | other => fail (InvalidTransition ("cannot resume from " +:+ targeted_as_str other))
      end
  end.

(** ** The background task ([targeted_reconciliation.rs]) *)

Definition defer_targeted_completion_with_log (id : string) (delay : Z) : IO unit :=
  now ← now_ms;
  logged (in_tables (defer_pending_completion id (now + delay))).

Definition retry_completion (row : TargetedTransferRow) : IO unit :=
  loaded ← try (E:=VnidropError) (load_authorization protected row);
  match loaded with
  | Ok (Some encoded) =>
      match decode_authorization encoded with
      | Err _ => defer_targeted_completion_with_log (tr_id row) 30000
      | Ok auth =>
          acked ← try (E:=VnidropError) (acknowledge_targeted_completion auth);
          match acked with
          | Ok _ => logged (in_tables (clear_pending_completion (tr_id row)))
          | Err _ => defer_targeted_completion_with_log (tr_id row) 5000
          end
      end
  | _ => defer_targeted_completion_with_log (tr_id row) 30000
  end.

(** [for row in rows.into_iter().take(1)], or nothing if the list cannot be read. *)
Definition first_listed (listing : M Tables VnidropError (list TargetedTransferRow))
    (work : TargetedTransferRow → IO unit) : IO unit :=
  listed ← try (E:=VnidropError) (in_tables listing);
  match listed with
  | Ok rows => for_each (take 1 rows) work
  | Err _ => ret tt
  end.

Definition retry_targeted_completions : IO unit :=
  first_listed list_pending_completions retry_completion.

Definition deliver_stored_targeted_authorization (row : TargetedTransferRow) : IO bool :=
  stored ← load_authorization protected row;
  match stored with
  | None => fail (SecureStorageMissing "targeted authorization is missing")
  | Some encoded =>
      in_domain (peer_addr (tr_receiver_endpoint_id row));;
      response ← call delivery_reply (tr_receiver_endpoint_id row)
        {| da_transfer_id := tr_id row; da_authorization := encoded |};
      match response with
      | RpcTimedOut => fail (device_unavailable (anyhow_msg "targeted authorization delivery timed out"))
      | RpcFailed rendered => fail (map_connect_failure rendered)
      | RpcReplied Stored => ret true
      | RpcReplied DeliveryRejected => ret false
      end
  end.

Definition retry_delivery (row : TargetedTransferRow) : IO unit :=
  delivered ← try (E:=VnidropError) (deliver_stored_targeted_authorization row);
  match delivered with
  | Ok true => logged (in_tables (clear_pending_authorization_delivery (tr_id row)))
  | _ => now ← now_ms;
         logged (in_tables (defer_pending_authorization_delivery (tr_id row) (now + 5000)))
  end.

Definition retry_targeted_authorization_deliveries : IO unit :=
  first_listed list_pending_authorization_deliveries retry_delivery.

Definition release_payload (row : TargetedTransferRow) : IO unit :=
  released ← try (E:=VnidropError) (try_teardown_targeted_payload (tr_protocol_transfer_id row) (Some (tr_id row)));
  match released with
  | Ok _ => logged (in_tables (clear_pending_payload_release (tr_id row)))
  | Err _ => ret tt
  end.

Definition release_completed_targeted_payloads : IO unit :=
  listed ← try (E:=VnidropError) (in_tables list_completed_sender_rows);
  match listed with
  | Ok rows => for_each rows release_payload
  | Err _ => ret tt
  end.

(** One tick of [spawn_targeted_reconciliation_task]. *)
Definition reconciliation_tick : IO unit :=
  release_completed_targeted_payloads;;
  retry_targeted_authorization_deliveries;;
  retry_targeted_completions.
End TargetedRuntime.
