(* ===== verification/Share.v ===== *)
(** * [runtime/share.rs], [lifecycle.rs]: offering files, and withdrawing the offer

    Preparing a share imports files, publishes the row of the transfer and registers its content
    with the provider, while the user may cancel, delete or change it from other threads. The
    calls are futures ([Async.v]); publication and withdrawal exclude each other by the lock on
    [active_shares]. Events and the test gate are left out; the semaphore that bounds concurrent
    transfers is never closed and only delays a call. *)

From stdpp Require Import pretty.
From S2P Require Import Prelude Sql Async ControlPlane Errors States Api Ticket Filesystem TargetedStore Access Invitation Inbox SecureSecret Relationship Pairing Devices Core Approval Authorization TargetedModule TargetedRuntime.

(** ** Data *)

Record ShareMetadataInput : Type := {
  mi_transfer_id : Z;
  mi_transfer_name : option string;
  mi_sender_name : option string;
  mi_access_mode : TransferAccessMode
}.

Record ShareResult : Type := {
  sr_transfer_id : Z;
  sr_ticket : string;
  sr_hash : string;
  sr_transfer_name : string;
  sr_file_count : Z;
  sr_total_size : Z
}.

Record TransferImport : Type := {
  ti_root_hash : string;
  ti_member_hashes : list string;
  ti_total_size : Z;
  ti_file_count : Z;
  ti_default_name : string
}.

(** The items of [store.add_stream(..).stream()] that matter to the loop. *)
Inductive AddProgressItem : Type :=
| ASize (size : Z)
| AProgress
| ADone (hash : string)
| AError (rendered : string).

(** What importing meets: the descriptors that are open, files that cannot be opened, the items
    of an import, the order in which imports that run at once end, and the blob store's answers
    to a new collection. The ticket of the blob store carries the address of the endpoint. *)
Class Importer `{TicketCodec} : Type := {
  open_fds : nat → gset Z;
  open_fault : nat → ImportSource → option AnyhowError;
  add_items : nat → ImportSource → list AddProgressItem;
  arrive : ∀ {A : Type}, nat → list A → list A;
  store_collection : nat → list (string * string) → result string AnyhowError;
  blob_ticket_new : nat → string → BlobTicket
}.
Class ImporterLaws `{Importer} : Prop := {
  arrive_all {A} n (l : list A) : arrive n l ≡ₚ l
}.

(** [CoreInner], as far as shares go: the core, which the approval prompts hold as well; the
    transfers that can be cancelled, each with the task that waits for its signal; the signals
    given; and the shares with the task that holds their lock. [importers] is auxiliary: the
    call that inserted the row of a transfer. *)
Record Runtime (V : Type) : Type := {
  x_service : ApprovalService V;
  active_transfers : gmap Z (TransferDirection * nat);
  x_signals : gset nat;
  active_shares : gset Z;
  x_lock : option nat;
  importers : gmap Z nat
}.
Arguments x_service {V} _.
Arguments active_transfers {V} _.
Arguments x_signals {V} _.
Arguments active_shares {V} _.
Arguments x_lock {V} _.
Arguments importers {V} _.

Section Setters.
Context {V : Type}.
Implicit Types (x : Runtime V).

Definition x_core x : Core V := as_core (x_service x).

Definition set_service (s : ApprovalService V) x : Runtime V :=
  {| x_service := s; active_transfers := active_transfers x; x_signals := x_signals x;
     active_shares := active_shares x; x_lock := x_lock x; importers := importers x |}.
Definition set_x_core (k : Core V) x : Runtime V := set_service (set_core k (x_service x)) x.
Definition on_transfers f x : Runtime V :=
  {| x_service := x_service x; active_transfers := f (active_transfers x); x_signals := x_signals x;
     active_shares := active_shares x; x_lock := x_lock x; importers := importers x |}.
Definition on_signals f x : Runtime V :=
  {| x_service := x_service x; active_transfers := active_transfers x; x_signals := f (x_signals x);
     active_shares := active_shares x; x_lock := x_lock x; importers := importers x |}.
Definition on_shares f x : Runtime V :=
  {| x_service := x_service x; active_transfers := active_transfers x; x_signals := x_signals x;
     active_shares := f (active_shares x); x_lock := x_lock x; importers := importers x |}.
Definition set_lock (l : option nat) x : Runtime V :=
  {| x_service := x_service x; active_transfers := active_transfers x; x_signals := x_signals x;
     active_shares := active_shares x; x_lock := l; importers := importers x |}.
Definition on_importers f x : Runtime V :=
  {| x_service := x_service x; active_transfers := active_transfers x; x_signals := x_signals x;
     active_shares := active_shares x; x_lock := x_lock x; importers := f (importers x) |}.

Definition in_x_core {E A} (m : M (Core V) E A) : M (Runtime V) E A := zoom x_core set_x_core m.
Definition in_x_history {E A} (m : M History E A) : M (Runtime V) E A :=
  in_x_core (zoom k_history set_history m).

(** Synchronous code between two awaits. *)
Definition sync {E} (f : Runtime V → Runtime V) : Fut (Runtime V) E unit := section (modify f).

(** [self.repository.*(..).await]. *)
Definition repo {A} (m : M History AnyhowError A) : Fut (Runtime V) AnyhowError A :=
  section (in_x_history m).
(** [.map_err(VnidropError::repository)?] in a function of [anyhow]. *)
Definition repo_vnidrop `{ForeignText} {A} (m : M History AnyhowError A) : Fut (Runtime V) AnyhowError A :=
  fmap_err (λ e, anyhow_vnidrop (repository e)) (repo m).
End Setters.

Definition share_tag_name (local_id : string) : string := "vnidrop/share/" +:+ local_id.

Section Share.
Context `{Env} `{ForeignText} `{Host} `{Blake3} `{Blake3Hash} `{!Base64} `{Codec} `{Urls} `{Addressing}
  `{!TicketCodec} {V : Type} `{SecureSecretStore V} `{!Network V} `{!Neighbours V} `{Blobs} `{Files}
  `{!Importer} `{Polling}.
Variable limits : CoreLimits.
Variable custom_relay_urls : list RelayUrl.
(** The task that runs the call. *)
Variable me : nat.

Abbreviation X := (Runtime V).
Abbreviation FX := (Fut X AnyhowError).

(** ** Content and tags *)

Definition register_hashes (transfer_id : Z) (hashes : list string) : X → X := λ x,
  set_x_core (on_hashes (λ served, fold_left (λ served hash,
    <[hash := {[transfer_id]} ∪ default ∅ (served !! hash)]> served) hashes served) (x_core x)) x.

Definition unregister_hashes (transfer_id : Z) : X → X := λ x,
  set_x_core (on_hashes (release_hashes transfer_id) (x_core x)) x.

Definition in_policy (m : M AccessPolicy AnyhowError unit) : FX unit :=
  section (in_x_core (zoom k_access set_access m)).

Definition tags_set (tag : string) : FX unit := section (λ x n,
  match set_tag_fault n with
  | Some e => (Err e, x, S n)
  | None => (Ok tt, set_x_core (on_tags (λ tags, {[tag]} ∪ tags) (x_core x)) x, S n)
  end).
Definition tags_delete (tag : string) : FX unit := section (λ x n,
  match tag_fault n with
  | Some e => (Err e, x, S n)
  | None => (Ok tt, set_x_core (on_tags (λ tags, tags ∖ {[tag]}) (x_core x)) x, S n)
  end).

(** ** The lock on [active_shares] *)

Definition free (x : X) : bool := bool_decide (x_lock x = None).

(** The guard of the lock is dropped at the end of the scope, and when the scope is left early. *)
Definition with_lock {A} (p : FX A) : FX A :=
  let! _ := waiting free (modify (set_lock (Some me))) in
  let! r := outcome p in
  let! _ := sync (set_lock None) in
  Return r.

(** What dropping a future releases. *)
Definition release (x : X) : X :=
  if bool_decide (x_lock x = Some me) then set_lock None x else x.

(** ** Importing *)

(** The loop of [consume_add_progress]. *)
Fixpoint consume_add_progress (size : Z) (items : list AddProgressItem) : result (string * Z) AnyhowError :=
  match items with
  | [] => Err (anyhow_msg "import stream ended without a tag")
  | ASize item_size :: items =>
      if max_total_bytes limits <? item_size
      then Err (anyhow_msg ("file size " +:+ pretty item_size +:+ " exceeds transfer limit " +:+
                            pretty (max_total_bytes limits)))
      else consume_add_progress item_size items
  | AProgress :: items => consume_add_progress size items
  | ADone hash :: _ => Ok (hash, size)
  | AError rendered :: _ => Err (anyhow_msg ("import failed: " +:+ rendered))
  end.

(** The body of one import. *)
Definition import_file (n : nat) (file : ImportSourceFile) : result (string * string * Z) AnyhowError :=
  match open_fault n (if_source file) with
  | Some e => Err e
  | None =>
      let? added := consume_add_progress 0 (add_items n (if_source file)) in
      Ok (if_collection_name file, added.1, added.2)
  end.

Definition by_name (a b : string * string * Z) : Prop := String.leb a.1.1 b.1.1 = true.
#[local] Instance by_name_dec : RelDecision by_name.
Proof. intros a b. unfold by_name. apply _. Defined.

(** [try_fold(0u64, checked_add)]. *)
Fixpoint checked_sum (total : Z) (sizes : list Z) : option Z :=
  match sizes with
  | [] => Some total
  | size :: sizes => if U64_MAX <? total + size then None else checked_sum (total + size) sizes
  end.

(** Importing leaves the state alone, whichever it is. *)
Definition import_sources {S : Type} (sources : list ShareSource) : Fut S AnyhowError TransferImport :=
  let! files := section (λ x n,
    match collect_import_files_with_limits sources limits
            {| im_open := open_fds n; im_files := [] |} (Datatypes.S n) with (r, _, n') => (r, x, n') end) in
  let! imported := section (λ x n,
    (collect_results id (arrive n (imap (λ i file, import_file (n + i)%nat file) files)),
     x, (n + length files + 1)%nat)) in
  let names_and_tags := order_by by_name imported in
  match checked_sum 0 names_and_tags.*2 with
  | None => Return (Err (anyhow_msg "collection size overflow"))
  | Some total_size =>
      if max_total_bytes limits <? total_size
      then Return (Err (anyhow_msg ("collection size " +:+ pretty total_size +:+ " exceeds transfer limit " +:+
                                  pretty (max_total_bytes limits))))
      else
        let! root_hash := section (λ x n, (store_collection n names_and_tags.*1, x, Datatypes.S n)) in
        Return (Ok {| ti_root_hash := root_hash; ti_member_hashes := names_and_tags.*1.*2;
                    ti_total_size := total_size; ti_file_count := Z.of_nat (length names_and_tags);
                    ti_default_name := default_collection_name files |})
  end.

(** ** Preparing a share *)

Definition upsert_of (metadata : ShareMetadataInput) : TransferUpsert := {|
  u_transfer_id := mi_transfer_id metadata; u_peer_id := None; u_direction := Send;
  u_status := States.Importing; u_transfer_name := mi_transfer_name metadata;
  u_sender_name := mi_sender_name metadata; u_content_hash := None; u_ticket := None;
  u_file_count := 0; u_total_size := 0; u_access_mode := mode_to_storage (mi_access_mode metadata) |}.

Definition published_upsert (metadata : ShareMetadataInput) (transfer_name : string)
    (sender_name : option string) (ticket : string) (import : TransferImport) : TransferUpsert := {|
  u_transfer_id := mi_transfer_id metadata; u_peer_id := None; u_direction := Send;
  u_status := Sharing; u_transfer_name := Some transfer_name; u_sender_name := sender_name;
  u_content_hash := Some (ti_root_hash import); u_ticket := Some ticket;
  u_file_count := ti_file_count import; u_total_size := ti_total_size import;
  u_access_mode := mode_to_storage (mi_access_mode metadata) |}.

(** From the lock on [active_shares] to its release. *)
Definition publish_share (metadata : ShareMetadataInput) (transfer_name : string)
    (sender_name : option string) (ticket tag_name : string) (import : TransferImport) : FX unit :=
  let transfer_id := mi_transfer_id metadata in
  with_lock (
    let! published := outcome (repo (complete_share_import
      (published_upsert metadata transfer_name sender_name ticket import))) in
    match published with
    | Err error =>
        let! _ := outcome (F:=AnyhowError) (tags_delete tag_name) in
        Return (Err (anyhow_vnidrop (repository error)))
    | Ok _ =>
        let! _ := sync (register_hashes transfer_id (ti_root_hash import :: ti_member_hashes import)) in
        let! _ := in_policy (set_mode transfer_id (mi_access_mode metadata)) in
        sync (on_shares (λ shares, {[transfer_id]} ∪ shares))
    end).

Definition share_files_inner (sources : list ShareSource) (metadata : ShareMetadataInput) : FX ShareResult :=
  let! import := import_sources sources in
  let transfer_id := mi_transfer_id metadata in
  let transfer_name := default (ti_default_name import) (mi_transfer_name metadata ≫= non_empty) in
  let! blob_ticket := section (λ x n, (Ok (blob_ticket_new n (ti_root_hash import)), x, S n)) in
  let! ticket_metadata := section (metadata_new transfer_id transfer_name (mi_sender_name metadata)
    (ti_root_hash import) (ti_file_count import) (ti_total_size import)) in
  match encode_ticket (new_with_relay_urls blob_ticket ticket_metadata custom_relay_urls) with
  | Err error => Return (Err (with_context "failed to encode VniDrop transfer ticket" error))
  | Ok ticket =>
      let! local_id := repo_vnidrop (transfer_local_id transfer_id) in
      let tag_name := share_tag_name local_id in
      let! _ := tags_set tag_name in
      let! _ := publish_share metadata transfer_name (md_sender_name ticket_metadata) ticket tag_name import in
      Return (Ok {| sr_transfer_id := transfer_id; sr_ticket := ticket; sr_hash := ti_root_hash import;
                  sr_transfer_name := transfer_name; sr_file_count := ti_file_count import;
                  sr_total_size := ti_total_size import |})
  end.

(** [repository.insert_transfer]; the auxiliary [importers] changes with the row. *)
Definition insert_share (upsert : TransferUpsert) : M X AnyhowError unit := λ x n,
  match in_x_history (insert_transfer upsert) x n with
  | (Ok _, x', n') => (Ok tt, on_importers <[u_transfer_id upsert := me]> x', n')
  | (Err e, x', n') => (Err e, x', n')
  end.

(** Removing or replacing an entry of [active_transfers] drops its sender, which the task that
    waits for the signal sees as one. *)
Definition signal_owner (transfer_id : Z) (x : X) : X :=
  on_signals (λ signals, match active_transfers x !! transfer_id with
                         | Some (_, task) => {[task]} ∪ signals
                         | None => signals
                         end) x.
Definition register_active (transfer_id : Z) (direction : TransferDirection) (x : X) : X :=
  on_transfers <[transfer_id := (direction, me)]> (signal_owner transfer_id x).
Definition remove_active (transfer_id : Z) (x : X) : X :=
  on_transfers (delete transfer_id) (signal_owner transfer_id x).

Definition signalled (x : X) : bool := bool_decide (me ∈ x_signals x).

Definition core_cancel_share_preparation (transfer_id : Z) : FX unit :=
  with_lock (
    let! _ := repo (Invitation.cancel_share_preparation transfer_id) in
    let! _ := sync (on_shares (λ shares, shares ∖ {[transfer_id]})) in
    let! _ := sync (unregister_hashes transfer_id) in
    let! _ := in_policy (remove_transfer transfer_id) in
    let! local_id := repo (transfer_local_id transfer_id) in
    tags_delete (share_tag_name local_id)).

Definition invalid_share (message : string) : AnyhowError := anyhow_vnidrop (invalid_input (anyhow_msg message)).

(** The checks before a row is written. *)
Definition check_share (sources : list ShareSource) (metadata : ShareMetadataInput) : result unit AnyhowError :=
  if bool_decide (sources = []) then Err (invalid_share "at least one source is required")
  else if max_sources limits <? Z.of_nat (length sources)
  then Err (invalid_share ("source count " +:+ pretty (length sources) +:+ " exceeds limit " +:+
                     pretty (max_sources limits)))
  else
    let checked field value := result_map_err (λ e, anyhow_vnidrop (invalid_input e))
      (validate_metadata_text limits field value) in
    let? _ := checked "transfer name"%string (mi_transfer_name metadata) in
    checked "sender name"%string (mi_sender_name metadata).

(** The import with its signal, and what follows if it is cancelled or fails. *)
Definition import_or_cancel (sources : list ShareSource) (metadata : ShareMetadataInput) : FX ShareResult :=
  let transfer_id := mi_transfer_id metadata in
  let! _ := sync (register_active transfer_id Send) in
  abind (race signalled release (fmap_err Errors.transfer (share_files_inner sources metadata))) (λ raced,
  let! _ := sync (remove_active transfer_id) in
  match raced with
  | Some (Ok shared) => Return (Ok shared)
  | Some (Err error) =>
      let! _ := outcome (F:=AnyhowError) (repo (transition_transfer_status transfer_id States.Importing Failed)) in
      Return (Err (anyhow_vnidrop error))
  | None =>
      let! _ := fmap_err (λ e, anyhow_vnidrop (repository e)) (core_cancel_share_preparation transfer_id) in
      Return (Err (anyhow_vnidrop (Errors.Cancelled "transfer cancelled")))
  end).

Definition share_files (sources : list ShareSource) (metadata : ShareMetadataInput) : FX ShareResult :=
  match check_share sources metadata with
  | Err e => Return (Err e)
  | Ok _ =>
      let! reserved := fmap_err anyhow_vnidrop (section (in_x_core (in_tables
        (contains_protocol_id (mi_transfer_id metadata))))) in
      if reserved : bool then Return (Err (invalid_share "transfer id is already reserved by a targeted transfer"))
      else
        let! _ := fmap_err (λ e, anyhow_vnidrop (repository e)) (section (insert_share (upsert_of metadata))) in
        import_or_cancel sources metadata
  end.

(** ** Withdrawing *)

(** The lock is kept only if the share is live. *)
Definition lock_if_shared (transfer_id : Z) : FX bool :=
  waiting free (
    x ← Sql.get;
    if bool_decide (transfer_id ∈ active_shares x) then modify (set_lock (Some me));; ret true
    else ret false).

Definition cancel_idle_or_share (transfer_id : Z) : FX unit :=
  let! live := lock_if_shared transfer_id in
  if live : bool then
    let! r := outcome (
      let! local_id := repo (transfer_local_id transfer_id) in
      let! _ := repo (transition_transfer_status transfer_id Sharing States.Stopped) in
      let! _ := sync (on_shares (λ shares, shares ∖ {[transfer_id]})) in
      Return (Ok local_id)) in
    let! _ := sync (set_lock None) in
    match r with
    | Err e => Return (Err e)
    | Ok local_id =>
        let! _ := sync (unregister_hashes transfer_id) in
        let! _ := in_policy (remove_transfer transfer_id) in
        tags_delete (share_tag_name local_id)
    end
  else Return (Err (anyhow_msg "transfer not found")).

(** [take_active_transfer]: the entry is removed and its signal given. *)
Definition take_active_transfer (transfer_id : Z) : M X AnyhowError (option TransferDirection) :=
  x ← Sql.get;
  match active_transfers x !! transfer_id with
  | None => ret None
  | Some (direction, _) =>
      modify (remove_active transfer_id);;
      ret (Some direction)
  end.

(** [VniDropCore::cancel_transfer] ([runtime/facade.rs]) after the signal. *)
Definition cancel_taken (transfer_id : Z) (taken : option TransferDirection) : FX unit :=
  match taken with
  | Some Send => core_cancel_share_preparation transfer_id
  | Some Receive => repo (transition_transfer_status transfer_id Receiving StatusCancelled)
  | None => cancel_idle_or_share transfer_id
  end.
Definition cancel_transfer (transfer_id : Z) : Fut X VnidropError unit :=
  fmap_err Errors.transfer (
    let! taken := section (take_active_transfer transfer_id) in
    cancel_taken transfer_id taken).

(** ** Other commands on transfers *)

(** [list_receiver_requests] of the ones still open, each answered by the approval service. *)
Fixpoint refuse_requests (requests : list ReceiverRequest) : FX unit :=
  match requests with
  | [] => Return (Ok tt)
  | request :: requests =>
      if str_eqb (rr_status request) (request_status_as_str Requested) then
        let! next := section (zoom x_service set_service (step_response
          (RespondTake (rr_id request) false (Some "transfer deleted by sender"%string)))) in
        match next with
        | Some next =>
            let! _ := section (zoom x_service set_service (step_response next)) in
            refuse_requests requests
        | None => refuse_requests requests
        end
      else refuse_requests requests
  end.

Definition stored_transfer (transfer_id : Z) (stored : list StoredTransfer) : option StoredTransfer :=
  snd <$> list_find (λ t, st_transfer_id t = transfer_id) stored.

(** From the withdrawal to the row; the events were drained before. *)
Definition forget_transfer (transfer_id : Z) (transfer : StoredTransfer) : FX unit :=
  let! _ := waiting free (modify (on_shares (λ shares, shares ∖ {[transfer_id]}))) in
  let! _ := sync (unregister_hashes transfer_id) in
  let! _ := in_policy (remove_transfer transfer_id) in
  let! _ := (if str_eqb (st_direction transfer) (direction_as_str Send)
             then tags_delete (share_tag_name (st_local_id transfer)) else Return (Ok tt)) in
  repo (Invitation.delete_transfer transfer_id).

Definition core_delete_transfer (transfer_id : Z) : FX unit :=
  let! active := section (x ← Sql.get; ret (bool_decide (is_Some (active_transfers x !! transfer_id)))) in
  if active : bool then
    Return (Err (anyhow_msg "an active transfer must finish or be cancelled before deletion"))
  else
    let! stored := repo list_stored_transfers in
    match stored_transfer transfer_id stored with
    | None => Return (Err (anyhow_msg "transfer not found"))
    | Some transfer =>
        let! _ := (if str_eqb (st_status transfer) (status_as_str Sharing)
                   then repo (transition_transfer_status transfer_id Sharing Stopped) else Return (Ok tt)) in
        let! requests := repo (list_receiver_requests transfer_id) in
        let! _ := refuse_requests requests in
        forget_transfer transfer_id transfer
    end.

Definition core_delete_receive_history : FX Z := repo Invitation.delete_receive_history.

Definition set_transfer_access_mode (transfer_id : Z) (mode : TransferAccessMode) : FX unit :=
  let! _ := repo (update_active_share_access_mode transfer_id (mode_to_storage mode)) in
  in_policy (set_mode transfer_id mode).

Definition approve_endpoint_for_transfer (transfer_id : Z) (endpoint_id : string) : FX unit :=
  let endpoint_id := trim endpoint_id in
  if str_is_empty endpoint_id then Return (Err (anyhow_msg "endpoint id must not be empty"))
  else if max_metadata_bytes limits <? str_len endpoint_id
  then Return (Err (anyhow_msg ("endpoint id is " +:+ pretty (str_len endpoint_id) +:+ " bytes, limit is " +:+
                                pretty (max_metadata_bytes limits))))
  else
    let! live := waiting free (x ← Sql.get; ret (bool_decide (transfer_id ∈ active_shares x))) in
    if live : bool then in_policy (approve_endpoint transfer_id endpoint_id)
    else Return (Err (anyhow_msg "transfer is not an active share")).

(** [status] and [runtime_obligation_facts]: the counts that they report; the preparations are
    counted by [TargetedPreparation]. *)
Definition count_shares : FX Z :=
  waiting free (x ← Sql.get; ret (Z.of_nat (size (active_shares x)))).
Definition count_active_transfers : FX Z :=
  section (x ← Sql.get; ret (Z.of_nat (size (active_transfers x)))).
Definition status : FX (Z * Z) :=
  let! transfers := count_active_transfers in let! shares := count_shares in Return (Ok (transfers, shares)).

Record RuntimeObligationFacts : Type := {
  active_invitation_transfers : Z;
  invitation_provider_availability : Z;
  targeted_preparations : Z;
  active_targeted_transfers : Z;
  targeted_provider_availability : Z
}.
Definition runtime_obligation_facts (active_targeted_preparations : Z) : FX RuntimeObligationFacts :=
  let! transfers := count_active_transfers in
  let! shares := count_shares in
  let! receiving := fmap_err anyhow_vnidrop (section (in_x_core (in_tables count_receiver_runtime_obligations))) in
  let! serving := fmap_err anyhow_vnidrop (section (in_x_core (in_tables count_sender_provider_obligations))) in
  Return (Ok {| active_invitation_transfers := transfers; invitation_provider_availability := shares;
                targeted_preparations := active_targeted_preparations; active_targeted_transfers := receiving; targeted_provider_availability := serving |}).

(** ** Calls *)

Inductive ShareCall : Type :=
| CallShare (sources : list ShareSource) (metadata : ShareMetadataInput)
| CallCancel (transfer_id : Z)
| CallSetMode (transfer_id : Z) (mode : TransferAccessMode)
| CallApprove (transfer_id : Z) (endpoint_id : string)
| CallDelete (transfer_id : Z)
| CallFacts (active_targeted_preparations : Z).

(** How they return; a cancellation tells what it found. *)
Inductive ShareOutcome : Type :=
| ShareReturned (sources : list ShareSource) (metadata : ShareMetadataInput) (r : result ShareResult AnyhowError)
| CancelReturned (transfer_id : Z) (taken : option TransferDirection) (r : result unit AnyhowError)
| OtherReturned.

Definition call_program (call : ShareCall) : Async X ShareOutcome :=
  match call with
  | CallShare sources metadata =>
      abind (share_files sources metadata) (λ r, Return (ShareReturned sources metadata r))
  | CallCancel transfer_id =>
      abind (section (take_active_transfer transfer_id)) (λ taken,
        match taken with
        | Ok taken => abind (cancel_taken transfer_id taken) (λ r, Return (CancelReturned transfer_id taken r))
        | Err e => Return (CancelReturned transfer_id None (Err e))
        end)
  | CallSetMode transfer_id mode => abind (set_transfer_access_mode transfer_id mode) (λ _, Return OtherReturned)
  | CallApprove transfer_id endpoint_id =>
      abind (approve_endpoint_for_transfer transfer_id endpoint_id) (λ _, Return OtherReturned)
  | CallDelete transfer_id => abind (core_delete_transfer transfer_id) (λ _, Return OtherReturned)
  | CallFacts preparations => abind (runtime_obligation_facts preparations) (λ _, Return OtherReturned)
  end.
End Share.
