(* ===== verification/TargetedCreate.v ===== *)
(** * [runtime/targeted_create.rs]: offering files to a saved device

    A preparation imports the payload, keeps it and records the transfer; the offer is then
    made to the receiver and, once it has accepted, access is granted and the capability put
    into custody. Importing is the future of [Share.v], run here to its end: other handlers
    may change the core at each of its awaits, as they may while the receiver is asked. *)

From stdpp Require Import pretty.
From S2P Require Import Prelude Sql Async ControlPlane Errors States Api Ticket Filesystem TargetedStore Access Invitation Inbox SecureSecret Relationship Pairing Devices Core Approval Authorization TargetedModule TargetedRuntime Share.

Record PreparedTargetedTransfer `{TicketCodec} : Type := {
  pp_transfer_uuid : string;
  pp_protocol_transfer_id : Z;
  pp_sender_endpoint_id : string;
  pp_receiver_endpoint_id : string;
  pp_blob_ticket : BlobTicket;
  pp_payload_name : string;
  pp_file_count : Z;
  pp_total_size : Z
}.

(** What the receiver of an offer answers. *)
Class OfferRemote : Type := {
  challenge_reply : nat → string → unit → RpcOutcome string;
  offer_reply : nat → string → SubmitTargetedOffer → RpcOutcome WireOfferResponse
}.

Section TargetedCreate.
Context `{Env} `{ForeignText} `{Host} `{Blake3} `{Blake3Hash} `{!Base64} `{Codec} `{Urls} `{Addressing}
  `{!TicketCodec} {V : Type} `{SecureSecretStore V} `{!Network V} `{!Neighbours V} `{Remote} `{Blobs}
  `{Files} `{!Importer} `{OfferRemote}.
Variable authority : TargetedProtocolAuthority.

Abbreviation IO := (M (Core V) VnidropError).
Abbreviation protected := (ta_protected authority).
Abbreviation local_id := (ta_local_endpoint_id authority).

(** A future that waits for no condition, among the handlers that run meanwhile. *)
Fixpoint drive {E A} (h : E → VnidropError) (p : Fut (Core V) E A) : IO A :=
  match p with
  | Return r => of_result (result_map_err h r)
  | Await _ m k => λ s n, match m (between n s) (S n) with (r, s', n') => drive h (k r) s' n' end
  end.

(** ** Preparation *)

(** The loop that looks for an unused identifier; [None] if the fuel is not enough, which
    [find_ids_enough] excludes. *)
Fixpoint find_ids (fuel : nat) : IO (option (string * Z)) :=
  match fuel with
  | O => ret None
  | S fuel =>
      transfer_uuid ← uuid_v4;
      let protocol_transfer_id := allocate_protocol_transfer_id transfer_uuid in
      invitations ← in_repository list_stored_transfers;
      let collision := existsb (λ transfer, st_transfer_id transfer =? protocol_transfer_id) invitations in
      taken ← (if collision : bool then ret true
               else in_tables (contains_protocol_id protocol_transfer_id));
      if taken : bool then find_ids fuel else ret (Some (transfer_uuid, protocol_transfer_id))
  end.

Definition allocate_ids : IO (string * Z) :=
  k ← Sql.get;
  found ← find_ids (S (size (transfers (k_history k)) + size (targeted_transfers (k_tables k))));
  match found with Some ids => ret ids | None => fail unfinished end.

(** The checks on the request. *)
Definition check_sources (sources : list ShareSource) (transfer_name : option string) :
    result unit VnidropError :=
  let limits := ta_limits authority in
  if bool_decide (sources = [])
  then Err (invalid_input (anyhow_msg "at least one source is required"))
  else if max_sources limits <? Z.of_nat (length sources)
  then Err (invalid_input (anyhow_msg ("source count " +:+ pretty (length sources) +:+ " exceeds limit " +:+
                                       pretty (max_sources limits))))
  else result_map_err invalid_input (validate_metadata_text limits "transfer name" transfer_name).

Definition new_blob_ticket (root_hash : string) : IO BlobTicket := λ k n,
  (Ok (blob_ticket_new n root_hash), k, S n).

Definition sender_row (transfer_uuid : string) (protocol_transfer_id : Z) (receiver_endpoint_id : string)
    (blob_ticket : BlobTicket) (payload_name : string) (import : TransferImport) (now : Z) :
    TargetedTransferRow := {|
  tr_id := transfer_uuid; tr_protocol_transfer_id := protocol_transfer_id;
  tr_sender_endpoint_id := local_id; tr_receiver_endpoint_id := receiver_endpoint_id;
  tr_manifest_id := blob_ticket_hash blob_ticket; tr_content_hash := blob_ticket_hash blob_ticket;
  tr_transfer_name := payload_name; tr_file_count := ti_file_count import;
  tr_total_size := ti_total_size import; tr_verified_bytes := 0; tr_blob_ticket := None;
  tr_authorization_secret_handle := None; tr_role := Sender; tr_state := Preparing;
  tr_created_at := now; tr_updated_at := now |}.

(** The payload is kept and registered, for nobody yet. *)
Definition keep_payload (transfer_uuid : string) (protocol_transfer_id : Z) (import : TransferImport) :
    IO unit :=
  set_tag (targeted_tag_name transfer_uuid);;
  register_share_hashes protocol_transfer_id (ti_root_hash import :: ti_member_hashes import);;
  in_access (set_mode protocol_transfer_id ApprovalRequired).

Definition withdraw {A} (protocol_transfer_id : Z) (transfer_uuid : string) (error : VnidropError) : IO A :=
  teardown_targeted_payload protocol_transfer_id (Some transfer_uuid);;
  fail error.

(** The row is recorded and read back; [gate] is what [begin_registration] of the preparation
    object answers ([TargetedPreparation.v]), if there is one. *)
Definition register_prepared (gate : option bool) (row : TargetedTransferRow) : IO TargetedTransfer :=
  let id := tr_id row in
  let protocol_transfer_id := tr_protocol_transfer_id row in
  if bool_decide (gate = Some false)
  then withdraw protocol_transfer_id id (invalid_input (anyhow_msg "targeted preparation stopped"))
  else
    registered ← try (E:=VnidropError) (register_sender row);
    match registered with
    | Err error => withdraw protocol_transfer_id id error
    | Ok _ =>
        transfer ← in_tables (TargetedStore.get id);
        match transfer with
        | Some transfer => ret transfer
        | None => fail (internal (anyhow_msg "targeted transfer missing"))
        end
    end.

Definition prepare_targeted_transfer (receiver_endpoint_id : string) (sources : list ShareSource)
    (transfer_name : option string) (gate : option bool) :
    IO (TargetedTransfer * PreparedTargetedTransfer) :=
  in_domain (require_saved receiver_endpoint_id);;
  ids ← allocate_ids;
  let '(transfer_uuid, protocol_transfer_id) := ids in
  now ← now_ms;
  of_result (check_sources sources transfer_name);;
  import ← drive Errors.transfer (import_sources (ta_limits authority) sources);
  let payload_name := default (ti_default_name import) (transfer_name ≫= non_empty) in
  blob_ticket ← new_blob_ticket (ti_root_hash import);
  keep_payload transfer_uuid protocol_transfer_id import;;
  transfer ← register_prepared gate (sender_row transfer_uuid protocol_transfer_id receiver_endpoint_id
    blob_ticket payload_name import now);
  ret (transfer, {| pp_transfer_uuid := transfer_uuid; pp_protocol_transfer_id := protocol_transfer_id;
    pp_sender_endpoint_id := local_id; pp_receiver_endpoint_id := receiver_endpoint_id;
    pp_blob_ticket := blob_ticket; pp_payload_name := payload_name;
    pp_file_count := ti_file_count import; pp_total_size := ti_total_size import |}).

(** ** The offer *)

Section Offer.
Variable prepared : PreparedTargetedTransfer.
Abbreviation id := (pp_transfer_uuid prepared).
Abbreviation receiver := (pp_receiver_endpoint_id prepared).
Abbreviation pid := (pp_protocol_transfer_id prepared).

(** [let _ = store.transition(..)], the payload withdrawn, and the error returned. *)
Definition abandon_offer {A} (from to : TargetedTransferState) (error : VnidropError) : IO A :=
  try (E:=VnidropError) (in_tables (set_state id from to));;
  withdraw pid id error.

Definition offer_of (proof : WireProof) (generation relationship_protocol_version : Z) :
    SubmitTargetedOffer := {|
  so_proof := proof; so_generation := generation;
  so_relationship_protocol_version := relationship_protocol_version;
  so_protocol_version := targeted_transfer_protocol_version saved_device_capabilities;
  so_transfer_id := id; so_sender_endpoint_id := pp_sender_endpoint_id prepared;
  so_receiver_endpoint_id := receiver; so_manifest_id := blob_ticket_hash (pp_blob_ticket prepared);
  so_content_hash := blob_ticket_hash (pp_blob_ticket prepared);
  so_transfer_name := pp_payload_name prepared; so_file_count := pp_file_count prepared;
  so_total_size := pp_total_size prepared; so_relay_mode := ta_relay_mode authority;
  so_relay_urls := ta_custom_relay_urls authority |}.

Definition draft_of : TargetedAuthorizationDraft := {|
  td_transfer_id := id; td_protocol_transfer_id := pid;
  td_sender_endpoint_id := pp_sender_endpoint_id prepared; td_receiver_endpoint_id := receiver;
  td_manifest_id := blob_ticket_hash (pp_blob_ticket prepared);
  td_content_hash := blob_ticket_hash (pp_blob_ticket prepared);
  td_file_count := pp_file_count prepared; td_total_size := pp_total_size prepared;
  td_protocol_version := targeted_transfer_protocol_version saved_device_capabilities;
  td_transfer_name := pp_payload_name prepared;
  td_blob_ticket := blob_ticket_text (pp_blob_ticket prepared) |}.

(** The receiver's address, its challenge, and the proof that answers it. *)
Definition meet_receiver : IO (WireProof * Z * Z) :=
  addr ← try (E:=VnidropError) (in_domain (peer_addr receiver));
  match addr with
  | Err error => abandon_offer Offering TFailed error
  | Ok _ =>
      challenge ← call challenge_reply receiver tt;
      match challenge with
      | RpcFailed rendered => abandon_offer Offering TFailed (map_connect_failure rendered)
      | RpcTimedOut =>
          abandon_offer Offering TFailed (device_unavailable (anyhow_msg "device did not answer in time"))
      | RpcReplied challenge =>
          proof ← try (E:=VnidropError)
            (in_domain (prove_saved_possession protected local_id receiver challenge));
          match proof with
          | Ok proof => ret proof
          | Err error => abandon_offer Offering TFailed error
          end
      end
  end.

(** The offer is submitted; only an acceptance lets the sender go on. *)
Definition submit_offer (offer : SubmitTargetedOffer) : IO unit :=
  awaiting ← try (E:=VnidropError) (in_tables (set_state id Offering AwaitingApproval));
  match awaiting with
  | Err error => withdraw pid id error
  | Ok _ =>
      response ← call offer_reply receiver offer;
      match response with
      | RpcFailed rendered => abandon_offer AwaitingApproval TFailed (map_connect_failure rendered)
      | RpcTimedOut => abandon_offer AwaitingApproval TFailed (offer_timeout (anyhow_msg "offer timed out"))
      | RpcReplied WireAccepted => ret tt
      | RpcReplied (WireDeclined reason) =>
          abandon_offer AwaitingApproval States.Declined
            (permission (anyhow_msg ("targeted offer declined: " +:+ reason)))
      | RpcReplied (WireRefused reason) =>
          abandon_offer AwaitingApproval TFailed (map_offer_refuse_reason reason)
      end
  end.

(** Access is granted, and the capability minted and protected. *)
Definition authorize_receiver : IO unit :=
  in_access (approve_endpoint_until pid receiver None);;
  protected ← try (E:=VnidropError) (
    authorization ← issue draft_of;
    protect_sender protected authorization);
  match protected with
  | Ok _ => ret tt
  | Err error =>
      try (E:=VnidropError) (in_tables (set_state_from_any id TFailed));;
      withdraw pid id error
  end.

Definition continue_targeted_transfer : IO TargetedTransfer :=
  proof ← meet_receiver;
  let '(proof, generation, relationship_protocol_version) := proof in
  submit_offer (offer_of proof generation relationship_protocol_version);;
  authorize_receiver;;
  transfer ← in_tables (TargetedStore.get id);
  match transfer with
  | Some transfer => ret transfer
  | None => fail (internal (anyhow_msg "targeted transfer missing"))
  end.
End Offer.
End TargetedCreate.

(** ** Importing, and the search for an identifier *)

Section Facts.
Context `{Env} `{ForeignText} `{Host} `{Blake3} `{Blake3Hash} `{!Base64} `{Codec} `{Urls} `{Addressing}
  `{!TicketCodec} {V : Type} `{SecureSecretStore V} `{!Network V} `{!Neighbours V} `{Remote} `{Blobs}
  `{Files} `{!Importer} `{OfferRemote}.
Implicit Types (k : Core V).

Lemma within_drive (R : Core V → Core V → Prop) `{!PreOrder R} {E A} h (p : Fut (Core V) E A) :
  (∀ n k, R k (between n k)) → awithin R p → within R (drive h p).
Proof.
  intros Hb. induction p as [r|E' X ready m c IH]; simpl; [intros _ k n; unfold wp, of_result; reflexivity|].
  intros [Hm Hc] k n. unfold wp. simpl. specialize (Hm (between n k) (S n)). unfold wp in Hm.
  destruct (m (between n k) (S n)) as [[r k1] n1]. specialize (IH r (Hc r) k1 n1). unfold wp in IH.
  destruct (drive h (c r) k1 n1) as [[r2 k2] n2]. etrans; [apply Hb|]. by etrans.
Qed.

Lemma import_idle {S} limits sources : awithin (S:=S) eq (import_sources limits sources).
Proof.
  apply awithin_fbind; [apply awithin_section|intros files].
  { intros s n. unfold wp. by destruct (collect_import_files_with_limits _ _ _ _) as [[??]?]. }
  apply awithin_fbind; [by apply awithin_section|intros imported].
  cbv zeta. destruct (checked_sum 0 _) as [total|]; [|done]. destruct (max_total_bytes limits <? total); [done|].
  apply awithin_fbind; [by apply awithin_section|done].
Qed.

Lemma import_within (R : Core V → Core V → Prop) `{!PreOrder R} h limits sources :
  (∀ n k, R k (between n k)) → within R (drive h (import_sources limits sources)).
Proof.
  intros Hb. apply within_drive; [apply _|done|]. apply (awithin_mono eq); [|apply import_idle].
  by intros k k' <-.
Qed.

(** What an import that succeeds yields fits the limit. *)
Definition import_fits (limits : CoreLimits) (r : result TransferImport AnyhowError) : Prop :=
  match r with Ok import => ti_total_size import ≤ max_total_bytes limits | Err _ => True end.

Lemma import_bounded {S} limits sources :
  areturns (S:=S) (import_fits limits) (import_sources limits sources).
Proof.
  apply areturns_fbind; [done|intros files]. apply areturns_fbind; [done|intros imported].
  cbv zeta. destruct (checked_sum 0 _) as [total|]; [|done].
  destruct (Z.ltb_spec (max_total_bytes limits) total); [done|].
  apply areturns_fbind; [done|]. intros root. done.
Qed.

(** What holds whatever the others do holds after an import, together with its bound. *)
Lemma wp_import (I : Core V → Prop) h limits sources k n Q :
  (∀ n k, I k → I (between n k)) → I k →
  (∀ e k' n', I k' → Q (Err e) k' n') →
  (∀ import k' n', I k' → ti_total_size import ≤ max_total_bytes limits → Q (Ok import) k' n') →
  wp (drive h (import_sources limits sources)) k n Q.
Proof.
  intros Hb Hk He Ho. generalize (import_idle (S:=Core V) limits sources) (import_bounded (S:=Core V) limits sources).
  generalize (import_sources (S:=Core V) limits sources). intros p. revert k n Hk.
  induction p as [r|E X ready m c IH]; intros k n Hk Hidle Hret; cbn in *.
  - apply wp_of_result. destruct r as [import|e]; simpl; auto.
  - destruct Hidle as [Hm Hc]. unfold wp. cbn [drive]. specialize (Hm (between n k) (S n)). unfold wp in Hm.
    destruct (m (between n k) (S n)) as [[r k1] n1]. subst k1. apply IH; auto.
Qed.

Lemma allocate_bounds uuid : 1 ≤ allocate_protocol_transfer_id uuid ≤ I64_MAX.
Proof.
  unfold allocate_protocol_transfer_id. set (x := of_le_bytes _ _).
  assert (I64_MAX = Z.ones 63) as -> by done. rewrite Z.land_ones by done.
  pose proof (Z.mod_pos_bound x (2 ^ 63)) as Hb. change (Z.ones 63) with (2 ^ 63 - 1) in *.
  destruct (Z.eqb_spec (x mod 2 ^ 63) 0); lia.
Qed.

(** The numbers that invitations and targeted transfers have. *)
Definition taken_ids k : list Z :=
  ((λ kr : Z * TransferRow, as_u64 kr.1) <$> map_to_list (transfers (k_history k))) ++
  ((λ kr : string * TransferColumns, c_protocol_transfer_id kr.2) <$>
     map_to_list (targeted_transfers (k_tables k))).

Lemma wp_invitation_ids k n (Q : result (list StoredTransfer) VnidropError → Core V → nat → Prop) :
  (∀ e, Q (Err e) k (S n)) →
  (∀ l, (∀ p, p ∈ st_transfer_id <$> l ↔ p ∈ (λ kr : Z * TransferRow, as_u64 kr.1) <$>
           map_to_list (transfers (k_history k))) → Q (Ok l) k (S n)) →
  wp (in_repository list_stored_transfers) k n Q.
Proof.
  intros He Ho. assert (∀ e, Q (result_map_err repository (Err e)) (set_history (k_history k) k) (S n)) as He'.
  { intros. rewrite set_history_id. apply He. }
  apply wp_map_err, wp_zoom, wp_bind, wp_asql; [intros; apply He'|].
  intros _ rows h' [= <- <-]. apply wp_of_result.
  destruct (collect_results _ _) as [l|e] eqn:El; [|apply He']. rewrite set_history_id. apply Ho.
  intros p. apply collect_results_Ok in El.
  assert (st_transfer_id <$> l =
    (λ kr : Z * TransferRow, as_u64 kr.1) <$> order_by latest_updated (map_to_list (transfers (k_history k)))) as ->.
  { clear -El. induction El as [|[id r] st rows l Hrow _ IH]; [done|]. rewrite !fmap_cons, IH. f_equal.
    simpl in Hrow. destruct (direction_try_from _), (status_try_from _); by simplify_eq/=. }
  by rewrite (order_by_permutation latest_updated).
Qed.

Lemma wp_contains_id p k n (Q : result bool VnidropError → Core V → nat → Prop) :
  1 ≤ p ≤ I64_MAX → (∀ e, Q (Err e) k (S n)) →
  (∀ b, (b = true ↔ p ∈ (λ kr : string * TransferColumns, c_protocol_transfer_id kr.2) <$>
           map_to_list (targeted_transfers (k_tables k))) → Q (Ok b) k (S n)) →
  wp (in_tables (contains_protocol_id p)) k n Q.
Proof.
  intros Hp He Ho. apply wp_in_tables, wp_query; rewrite set_tables_id; [done|]. apply Ho.
  rewrite exists_where_true, list_elem_of_fmap, as_i64_small by lia. split.
  - intros (id & r & Hr & E%Z.eqb_eq). exists (id, r). by rewrite elem_of_map_to_list.
  - intros ([id r] & -> & Hr%elem_of_map_to_list). exists id, r. by rewrite Z.eqb_refl.
Qed.

(** The identifiers drawn between two positions have different numbers. *)
Definition distinct_numbers (n0 n1 : nat) : Prop := ∀ i j, (n0 ≤ i < n1)%nat → (n0 ≤ j < n1)%nat →
  allocate_protocol_transfer_id (new_uuid i) = allocate_protocol_transfer_id (new_uuid j) → i = j.

(** The search ends: an identifier that is rejected has a number that is taken, and each number
    is rejected once. *)
Lemma wp_find_ids n0 n1 fuel k : distinct_numbers n0 n1 →
  ∀ (seen : list Z) n, NoDup seen →
  (∀ p, p ∈ seen → p ∈ taken_ids k ∧ ∃ i, (n0 ≤ i < n)%nat ∧ p = allocate_protocol_transfer_id (new_uuid i)) →
  (length (taken_ids k) < fuel + length seen)%nat → (n0 ≤ n)%nat → (n + 3 * fuel ≤ n1)%nat →
  wp (find_ids fuel) k n (λ r k' _, k' = k ∧ r ≠ Ok None ∧
    ∀ uuid p, r = Ok (Some (uuid, p)) → p = allocate_protocol_transfer_id uuid ∧ p ∉ taken_ids k).
Proof.
  intros Hinj. induction fuel as [|fuel IH]; intros seen n Hnd Hseen Hlen Hn0 Hn1.
  { exfalso. assert (seen ⊆+ taken_ids k) as Hsub%submseteq_length.
    { apply NoDup_submseteq; [done|]. intros p Hp. by apply Hseen. } simpl in Hlen. lia. }
  apply wp_bind, wp_uuid_v4. set (p := allocate_protocol_transfer_id (new_uuid n)).
  assert (p ∉ seen) as Hnew.
  { intros (_ & i & Hi & E)%Hseen. apply Hinj in E; lia. }
  assert (∀ n', (n < n' ≤ n + 3)%nat → p ∈ taken_ids k → wp (find_ids fuel) k n' (λ r k' _, k' = k ∧ r ≠ Ok None ∧
    ∀ uuid p, r = Ok (Some (uuid, p)) → p = allocate_protocol_transfer_id uuid ∧ p ∉ taken_ids k)) as Hnext.
  { intros n' Hn Hp. apply (IH (p :: seen)); [by constructor| |simpl; lia..].
    intros q [->|Hq]%elem_of_cons; [split; [done|exists n]; split; [lia|done]|]. destruct (Hseen q Hq) as (Ht & i & Hi & ->).
    split; [done|]. exists i. split; [lia|done]. }
  apply wp_bind, wp_invitation_ids; [done|]. intros l Hl.
  destruct (existsb _ l) eqn:Ex.
  - apply wp_bind, wp_ret, Hnext; [lia|]. apply elem_of_app. left. apply Hl.
    apply existsb_exists in Ex as (st & Hst & E%Z.eqb_eq). rewrite <- E. apply list_elem_of_fmap_2.
    by apply list_elem_of_In.
  - apply wp_bind, wp_contains_id; [apply allocate_bounds|done|]. intros b Hb. destruct b.
    + apply Hnext; [lia|]. apply elem_of_app. right. by apply Hb.
    + apply wp_ret. split_and!; [done|done|]. intros uuid q [= <- <-]. split; [done|].
      intros [Hin|Hin]%elem_of_app; [|by apply Hb in Hin].
      apply Hl, list_elem_of_fmap in Hin as (st & E & Hst). apply not_true_iff_false in Ex. apply Ex.
      apply existsb_exists. exists st. split; [by apply list_elem_of_In|by apply Z.eqb_eq].
Qed.

Lemma length_taken_ids k :
  length (taken_ids k) = (size (transfers (k_history k)) + size (targeted_transfers (k_tables k)))%nat.
Proof. unfold taken_ids. by rewrite length_app, !length_fmap, !length_map_to_list. Qed.

Lemma wp_allocate_ids k n (Q : result (string * Z) VnidropError → Core V → nat → Prop) :
  (∀ e n', Q (Err e) k n') →
  (∀ uuid n', Q (Ok (uuid, allocate_protocol_transfer_id uuid)) k n') → wp allocate_ids k n Q.
Proof.
  intros He Ho. apply wp_bind, wp_get, wp_bind.
  generalize (S (size (transfers (k_history k)) + size (targeted_transfers (k_tables k)))). intros fuel.
  revert n. induction fuel as [|fuel IH]; intros n; [apply wp_ret, wp_fail, He|].
  apply wp_bind, wp_uuid_v4, wp_bind, wp_invitation_ids; [done|]. intros l _. apply wp_bind.
  destruct (existsb _ l); [apply wp_ret, IH|]. apply wp_contains_id; [apply allocate_bounds|done|].
  intros [] _; [apply IH|]. apply wp_ret, wp_ret, Ho.
Qed.

(** The search for an identifier ends, whatever the tables hold. If the next identifiers
    drawn, three for each transfer there is, have different numbers, then [allocate_ids] needs
    no more turns than there are transfers and one; it changes nothing, and the number it
    returns belongs to no invitation and to no targeted transfer. *)
Theorem find_ids_enough k n
  (Hinj : let turns := S (size (transfers (k_history k)) + size (targeted_transfers (k_tables k))) in
     distinct_numbers n (n + 3 * turns)) :
  wp (find_ids (S (size (transfers (k_history k)) + size (targeted_transfers (k_tables k))))) k n (λ r k' _,
    k' = k ∧ r ≠ Ok None ∧
    ∀ uuid p, r = Ok (Some (uuid, p)) → p = allocate_protocol_transfer_id uuid ∧ p ∉ taken_ids k).
Proof.
  apply (wp_find_ids n _ _ k Hinj []); [constructor|by intros p ?%elem_of_nil|..|lia|lia].
  rewrite length_taken_ids. simpl. lia.
Qed.
End Facts.
