(* ===== verification/TargetedRuntimeSpec.v ===== *)
(** * What the runtime guarantees about targeted transfers

    Properties of [TargetedRuntime.v]: after a restart exactly the transfers with saved devices
    are served again; an approved answer to the user is durable; a receive leaves its transfer
    in a state that can go on; and what is owed to a peer stays owed until the peer has it. *)

From S2P Require Import Share Prelude Sql Async ControlPlane Errors States Api Ticket Filesystem TargetedStore Access Invitation Inbox SecureSecret Relationship Pairing Devices DevicesSpec Core Approval Authorization TargetedModule TargetedModuleSpec TargetedRuntime TargetedCreate.

(** ** Restart *)

Section Restore.
Context `{Env} `{ForeignText} `{Host} `{Blake3} `{!Base64} `{Codec} `{Urls} `{Addressing} `{!TicketCodec}
  {V : Type} `{SecureSecretStore V} `{!SecureSecretStoreLaws V} `{!Network V} `{!Neighbours V} `{Remote} `{Blobs}.
Variable authority : TargetedProtocolAuthority.
Implicit Types (k : Core V).

(** A transfer this device still has to serve. *)
Definition share k (id : string) (r : TransferColumns) : Prop :=
  targeted_transfers (k_tables k) !! id = Some r ∧ c_role r = "sender"%string ∧
  c_state r ∈ resumable_texts.

Abbreviation pid r := (as_u64 (c_protocol_transfer_id r)).

Definition owns k (p : Z) (h : string) : Prop := ∃ owners, k_hashes k !! h = Some owners ∧ p ∈ owners.

(** Not served to anybody. *)
Record unserved k (p : Z) : Prop := {
  wh_mode : modes (k_access k) !! p = None;
  wh_sessions e : approved_sessions (k_access k) !! (p, e) = None;
  wh_hashes h : ¬ owns k p h
}.
Abbreviation withheld k r := (unserved k (pid r)).

Definition trusted k (peer : string) : Prop := saved_peer k peer ∧ blocked (k_domain k) !! peer = None.

(** A step of the restoration works on one transfer. *)
Record touches (id0 : string) (p0 : Z) k k' : Prop := {
  tc_domain : k_domain k' = k_domain k;
  tc_rows id : id ≠ id0 → targeted_transfers (k_tables k') !! id = targeted_transfers (k_tables k) !! id;
  tc_modes p : p ≠ p0 → modes (k_access k') !! p = modes (k_access k) !! p;
  tc_sessions p e : p ≠ p0 →
    approved_sessions (k_access k') !! (p, e) = approved_sessions (k_access k) !! (p, e);
  tc_owners p h : p ≠ p0 → owns k' p h ↔ owns k p h;
  tc_tags tag : tag ≠ targeted_tag_name id0 → tag ∈ k_tags k' ↔ tag ∈ k_tags k
}.

#[global] Instance touches_preorder id0 p0 : PreOrder (touches id0 p0).
Proof.
  split; [by intros k|]. intros k1 k2 k3 [A1 A2 A3 A4 A5 A6] [B1 B2 B3 B4 B5 B6]. split.
  - congruence.
  - intros id Hid. by rewrite B2, A2.
  - intros p Hp. by rewrite B3, A3.
  - intros p e Hp. by rewrite B4, A4.
  - intros p h Hp. by rewrite B5, A5.
  - intros tag Ht. by rewrite B6, A6.
Qed.

Lemma tag_name_inj id id' : targeted_tag_name id = targeted_tag_name id' → id = id'.
Proof.
  intros E%(f_equal (strip_prefix "vnidrop/targeted/")). unfold targeted_tag_name in E.
  rewrite !strip_prefix_app in E. congruence.
Qed.

Lemma withheld_touches id0 p0 p k k' :
  touches id0 p0 k k' → p ≠ p0 → unserved k p → unserved k' p.
Proof.
  intros [] Hp [S1 S2 S3]. split.
  - by rewrite tc_modes0.
  - intros e. by rewrite tc_sessions0.
  - intros h. by rewrite tc_owners0.
Qed.

Lemma owns_released p0 k p h :
  owns (on_hashes (release_hashes p0) k) p h ↔ p ≠ p0 ∧ owns k p h.
Proof.
  unfold owns. simpl. split.
  - intros (owners & Ho & Hp). apply release_hashes_lookup in Ho as [Hn (o & Ho & Hs)].
    split; [congruence|]. exists o. set_solver.
  - intros [Hne (o & Ho & Hp)]. exists (o ∖ {[p0]}). split; [|set_solver].
    unfold release_hashes. apply map_lookup_filter_Some. rewrite lookup_fmap, Ho. split; [done|].
    simpl. intros E. assert (p ∈ o ∖ {[p0]}) as Hin by set_solver. rewrite E in Hin. set_solver.
Qed.

Definition unshared (p0 : Z) k : Core V :=
  set_access {| modes := delete p0 (modes (k_access k));
                approved_sessions := filter (λ kv : Z * string * ApprovalSession, kv.1.1 ≠ p0)
                  (approved_sessions (k_access k)) |}
    (on_hashes (release_hashes p0) k).

Lemma unshared_touches id0 p0 k : touches id0 p0 k (unshared p0 k).
Proof.
  split; simpl; try done.
  - intros p Hp. by rewrite lookup_delete_ne.
  - intros p e Hp. rewrite map_lookup_filter. destruct (approved_sessions (k_access k) !! (p, e)); [|done].
    simpl. by rewrite option_guard_True.
  - intros p h Hp. pose proof (owns_released p0 k p h) as E. unfold owns in *. simpl in *. rewrite E. tauto.
Qed.

Lemma unshared_withheld p k : unserved (unshared p k) p.
Proof.
  split; simpl.
  - apply lookup_delete_eq.
  - intros e. apply map_lookup_filter_None. right. intros s _. simpl. tauto.
  - intros h Ho. by apply (owns_released p k) in Ho as [? _].
Qed.

Lemma tag_touches id0 p0 f k :
  (∀ tag tags, tag ≠ targeted_tag_name id0 → tag ∈ f tags ↔ tag ∈ tags) → touches id0 p0 k (on_tags f k).
Proof. intros Hf. split; simpl; try done. intros tag Ht. by apply Hf. Qed.

(** Tearing down a payload ends well for the others, whatever happens to its tag. *)
Lemma wp_teardown p0 id0 k n Q :
  (∀ k' n', touches id0 p0 k k' → k_tables k' = k_tables k →
     unserved k' p0 → Q (Ok tt) k' n') →
  wp (teardown_targeted_payload p0 (Some id0)) k n Q.
Proof.
  intros HQ. apply wp_bind, wp_try, wp_bind, wp_modify, wp_bind, wp_in_access.
  apply wp_bind, wp_modify, wp_modify. cbn beta iota.
  match goal with |- wp _ ?s _ _ => change s with (unshared p0 k) end.
  pose proof (unshared_touches id0 p0 k) as Hu.
  pose proof (unshared_withheld p0 k) as Hw.
  unfold wp at 1, delete_tag. destruct (tag_fault _); apply wp_ret, HQ; try done.
  - etrans; [exact Hu|]. apply tag_touches. set_solver.
  - by destruct Hw.
Qed.

(** What is blocked or saved is only read. *)
Lemma wp_is_blocked_peer peer k n Q :
  (∀ e n', Q (Err e) k n') →
  (∀ b n', (b = false → blocked (k_domain k) !! peer = None) → Q (Ok b) k n') →
  wp (is_blocked_peer peer) k n Q.
Proof.
  intros He Ho. assert (set_domain (set_blocked (blocked (k_domain k)) (k_domain k)) k = k) as Eid.
  { destruct k as [[] ? ? ? ? ? ? ?]. done. }
  apply wp_in_domain, wp_map_err, wp_zoom, wp_asql; [intros; simpl; rewrite Eid; apply He|].
  intros _ b t [= <- <-]. simpl. rewrite Eid. apply Ho. intros E.
  destruct (blocked (k_domain k) !! peer) as [at_|] eqn:Eb; [|done].
  assert (exists_where (λ name (_ : Z), str_eqb name peer) (blocked (k_domain k)) = true) as Htrue; [|congruence].
  apply exists_where_true. exists peer, at_. split; [done | apply str_eqb_refl].
Qed.

Lemma wp_is_saved peer k n Q :
  (∀ b n', (b = true → saved_peer k peer) → Q (Ok b) k n') → wp (is_saved peer) k n Q.
Proof. intros HQ. apply wp_bind, wp_try, wp_require_saved; intros; apply wp_ret, HQ; by intros. Qed.

(** One transfer is restored, withheld or no longer a share. *)
Lemma register_touches id0 p0 hashes k :
  touches id0 p0 k (on_hashes (λ served, fold_left (λ served hash,
    <[hash := {[p0]} ∪ default ∅ (served !! hash)]> served) hashes served) k) ∧
  ∀ h, h ∈ hashes → owns (on_hashes (λ served, fold_left (λ served hash,
    <[hash := {[p0]} ∪ default ∅ (served !! hash)]> served) hashes served) k) p0 h.
Proof.
  set (add := λ (served : gmap string (gset Z)) hash, <[hash := {[p0]} ∪ default ∅ (served !! hash)]> served).
  assert (∀ (m : gmap string (gset Z)) p h,
    (∃ owners, fold_left add hashes m !! h = Some owners ∧ p ∈ owners) ↔
    (∃ owners, m !! h = Some owners ∧ p ∈ owners) ∨ p = p0 ∧ h ∈ hashes) as Hfold.
  { intros m p h. revert m. induction hashes as [|h0 hashes IH]; intros m; simpl; [set_solver|].
    rewrite IH. unfold add at 1. rewrite elem_of_cons. destruct (decide (h = h0)) as [->|Hne].
    - rewrite lookup_insert_eq. destruct (m !! h0) as [o|] eqn:Em; simpl; split.
      + intros [(? & [= <-] & Hin)|[-> Hin]]; [|by right; split; [|right]].
        apply elem_of_union in Hin as [->%elem_of_singleton|Hin]; [by right; split; [|left] | by left; exists o].
      + intros [(? & [= <-] & Hin)|[-> [_|Hin]]]; [left; eexists; split; [done|set_solver]|left; eexists; split; [done|set_solver]|by right].
      + intros [(? & [= <-] & Hin)|[-> Hin]]; [|by right; split; [|right]].
        right. split; [set_solver | by left].
      + intros [(? & [=] & _)|[-> [_|Hin]]]; [left; eexists; split; [done|set_solver] | by right].
    - rewrite lookup_insert_ne by done. tauto. }
  split.
  - split; try done. intros p h Hp. unfold owns. simpl. rewrite Hfold. tauto.
  - intros h Hh. unfold owns. simpl. apply Hfold. by right.
Qed.

Lemma wp_fail_resumable id t n (Q : result bool VnidropError → Tables → nat → Prop) :
  (∀ e n', Q (Err e) t n') →
  (∀ b t' n', (∀ id', id' ≠ id → targeted_transfers t' !! id' = targeted_transfers t !! id') →
     (∀ r, targeted_transfers t' !! id = Some r → c_state r ∉ resumable_texts) → Q (Ok b) t' n') →
  wp (fail_resumable_and_clear_delivery id) t n Q.
Proof.
  intros He Ho. apply wp_sql_tx; [done|]. apply wp_bind, wp_now_ms, wp_bind.
  apply (wp_update_key id); [by intros; bool_simpl | done | |].
  - intros Hno. apply wp_bind, wp_ret, wp_ret, Ho; [done|]. intros r Hr Hin. specialize (Hno r Hr).
    rewrite str_eqb_refl in Hno. simpl in Hno. apply str_in_elem in Hin. congruence.
  - intros r Hr _. apply wp_bind. simpl. apply delete_delivery_wp; [done|]. apply wp_ret, Ho.
    + intros id' Hne. simpl. by rewrite lookup_insert_ne.
    + intros r' Hr'. simpl in Hr'. rewrite lookup_insert_eq in Hr'. injection Hr' as <-. simpl. set_solver.
Qed.

Lemma resumable_can_end id r :
  c_state r ∈ resumable_texts → terminal_applies id "cancelled" id r = true.
Proof.
  unfold terminal_applies. rewrite str_eqb_refl. intros Hr. unfold resumable_texts in Hr.
  repeat (apply elem_of_cons in Hr as [Hr|Hr]); try (by rewrite Hr); by apply elem_of_nil in Hr.
Qed.

(** The tables but for one transfer. *)
Lemma tables_touch id p t k :
  (∀ id', id' ≠ id → targeted_transfers t !! id' = targeted_transfers (k_tables k) !! id') →
  touches id p k (set_tables t k).
Proof. by split. Qed.

Lemma wp_restore_payload row k n Q :
  (∀ e n', Q (Err e) k n') →
  (∀ root collection n', parse_hash (tr_content_hash row) = Ok root →
     Q (Ok (root, collection)) (on_tags (λ tags, {[targeted_tag_name (tr_id row)]} ∪ tags) k) n') →
  wp (restore_payload row) k n Q.
Proof.
  intros He Ho. unfold restore_payload. destruct (negb _); [by apply wp_fail|].
  apply wp_bind, wp_of_result. destruct (parse_hash _) as [root|]; [|apply He]. simpl.
  apply wp_bind. unfold wp at 1, collection_of. destruct (load_collection _ _) as [collection|]; [|apply He].
  simpl. apply wp_bind. unfold wp at 1, set_tag. destruct (set_tag_fault _); [apply He|]. by apply wp_ret, Ho.
Qed.

(** The protocol ids under which only this part opens access. *)
Variable ours : Z → Prop.

(** Served to its receiver and to nobody else, its payload kept. *)
Record served k (id : string) (r : TransferColumns) : Prop := {
  sv_mode : modes (k_access k) !! pid r = Some ApprovalRequired;
  sv_session : approved_sessions (k_access k) !! (pid r, c_receiver_endpoint_id r) =
    Some {| expires_at := None |};
  sv_alone e : ours (pid r) → e ≠ c_receiver_endpoint_id r →
    approved_sessions (k_access k) !! (pid r, e) = None;
  sv_payload : ∃ root, parse_hash (c_content_hash r) = Ok root ∧ owns k (pid r) root;
  sv_tag : targeted_tag_name id ∈ k_tags k
}.

Lemma served_touches id0 p0 id r k k' :
  touches id0 p0 k k' → id ≠ id0 → pid r ≠ p0 → served k id r → served k' id r.
Proof.
  intros [] Hid Hp [S1 S2 S5 (root & Hroot & Ho) S4]. split.
  - by rewrite tc_modes0.
  - by rewrite tc_sessions0.
  - intros e. rewrite tc_sessions0 by done. apply S5.
  - exists root. split; [done|]. by apply tc_owners0.
  - apply tc_tags0; [|done]. by intros ?%tag_name_inj.
Qed.

Lemma wp_restore_row active row id r k n Q :
  share k id r → row_to_full (id, r) = Ok row →
  (ours (pid r) → ∀ e, approved_sessions (k_access k) !! (pid r, e) = None) →
  (∀ e k' n', Q (Err e) k' n') →
  (∀ k' n', touches id (pid r) k k' → (∀ r', ¬ share k' id r') → Q (Ok active) k' n') →
  (∀ k' n', touches id (pid r) k k' → k_tables k' = k_tables k → trusted k (c_receiver_endpoint_id r) →
     withheld k' r → Q (Ok active) k' n') →
  (∀ k' n', touches id (pid r) k k' → k_tables k' = k_tables k → trusted k (c_receiver_endpoint_id r) →
     served k' id r → Q (Ok ({[targeted_tag_name id]} ∪ active)) k' n') →
  wp (restore_row active row) k n Q.
Proof.
  intros (Hr & Hrole & Hst) Hrow Hclosed He Hgone Hheld Hserved.
  pose proof Hrow as (Ei & Ep & _ & Er & _ & _ & _ & _)%row_to_full_fields.
  assert (tr_content_hash row = c_content_hash r) as Ec.
  { revert Hrow. simpl. destruct (parse_role _), (parse_targeted_state _); try done. by intros [= <-]. }
  unfold restore_row. rewrite Ei, Ep, Er. apply wp_bind, wp_is_blocked_peer; [done|]. intros barred n1 Hb.
  apply wp_bind, wp_is_saved. intros saved n2 Hs.
  assert (wp (in_tables (transition_terminal id Cancelled false);;
    teardown_targeted_payload (pid r) (Some id);; ret active) k n2 Q) as Hcut.
  { apply wp_bind, wp_in_tables, (wp_transition_terminal _ _ _ "cancelled"); [done|intros; apply He|..].
    - intros n3 Hno. specialize (Hno r Hr). by rewrite (resumable_can_end id r Hst) in Hno.
    - intros r0 now n3 Hr0 _. apply wp_bind, wp_teardown. intros k' n4 Ht Et _. apply wp_ret, Hgone.
      + etrans; [apply tables_touch | exact Ht]. intros id' Hne. simpl. by rewrite lookup_insert_ne.
      + intros r' (Hr' & _ & Hst'). rewrite Et in Hr'. simpl in Hr'. rewrite lookup_insert_eq in Hr'.
        injection Hr' as <-. simpl in Hst'. set_solver. }
  destruct barred; [exact Hcut|]. destruct saved; [|exact Hcut]. simpl. clear Hcut.
  assert (trusted k (c_receiver_endpoint_id r)) as Htrust by (split; auto).
  apply wp_bind, wp_try, wp_restore_payload.
  - intros e n3. apply wp_bind, wp_bind, wp_try, wp_in_tables, wp_fail_resumable.
    + intros e' n4. rewrite set_tables_id. apply wp_ret, wp_bind, wp_teardown. intros k' n5 Ht Et Hw.
      by apply wp_ret, Hheld.
    + intros b t n4 Ho Hn. apply wp_ret, wp_bind, wp_teardown. intros k' n5 Ht Et Hw. apply wp_ret, Hgone.
      * etrans; [by apply tables_touch | exact Ht].
      * intros r' (Hr' & _ & Hst'). rewrite Et in Hr'. by apply (Hn r').
  - intros root collection n3 Hroot. rewrite Ei. set (k1 := on_tags _ k).
    assert (touches id (pid r) k k1) as H1k. { apply tag_touches. set_solver. }
    destruct (register_touches id (pid r) (root :: collection) k1) as [Hreg Hown].
    apply wp_bind, wp_modify. set (k2 := on_hashes _ k1) in *. 
    apply wp_bind, wp_in_access, wp_modify, wp_bind, wp_in_access, wp_modify, wp_ret, Hserved; [|done|done|].
    + etrans; [exact H1k|]. etrans; [exact Hreg|]. split; simpl; try done.
      * intros p Hp. by rewrite lookup_insert_ne.
      * intros p e Hp. rewrite lookup_insert_ne; [done|]. congruence.
    + split; simpl.
      * by rewrite lookup_insert_eq.
      * by rewrite lookup_insert_eq.
      * intros e Ho Hne. rewrite lookup_insert_ne by congruence. by apply Hclosed.
      * exists root. split; [congruence|]. apply Hown. by left.
      * set_solver.
Qed.

Lemma wp_list_shares k n (Q : result (list TargetedTransferRow) VnidropError → Core V → nat → Prop) :
  (∀ e n', Q (Err e) k n') →
  (∀ rows n', NoDup (tr_id <$> rows) →
     (∀ row, row ∈ rows → ∃ r, share k (tr_id row) r ∧ row_to_full (tr_id row, r) = Ok row) →
     (∀ id r, share k id r → id ∈ tr_id <$> rows) → Q (Ok rows) k n') →
  wp (in_tables list_resumable_sender_rows) k n Q.
Proof.
  intros He Ho. apply wp_in_tables, wp_bind, wp_query; [intros; rewrite set_tables_id; apply He|].
  apply wp_of_result. rewrite set_tables_id. destruct (collect_results _ _) as [rows|e] eqn:Er; [|apply He].
  apply collect_results_Ok in Er. set (P := λ (_ : string) (r : TransferColumns), _ : bool) in Er.
  set (l := order_by oldest_first _) in Er.
  assert (∀ id r, (id, r) ∈ l ↔ share k id r) as Hl.
  { intros id r. unfold l. rewrite elem_of_order_by. unfold select_rows. rewrite elem_of_select_where.
    unfold share, P. rewrite andb_true_iff, str_eqb_eq, str_in_elem. tauto. }
  assert (tr_id <$> rows = l.*1) as Eids.
  { clear -Er. induction Er as [|[id r] row l rows Hrow _ IH]; [done|].
    rewrite !fmap_cons, IH. by apply row_to_full_fields in Hrow as [-> _]. }
  apply Ho.
  - rewrite Eids. unfold l. rewrite (order_by_permutation oldest_first). apply NoDup_fst_map_to_list.
  - intros row Hin. apply list_elem_of_lookup in Hin as [i Hi].
    destruct (Forall2_lookup_r _ _ _ _ _ Er Hi) as ([id r] & Hx & Hrow).
    assert (tr_id row = id) as -> by (by apply row_to_full_fields in Hrow as [? _]).
    exists r. split; [|done]. apply Hl. by eapply list_elem_of_lookup_2.
  - intros id r Hs%Hl. rewrite Eids. apply list_elem_of_fmap. by exists (id, r).
Qed.

(** Two shares have different protocol identifiers. *)
Lemma share_pids k id id' r r' :
  tables_ok (k_tables k) → share k id r → share k id' r' → pid r = pid r' → id = id'.
Proof.
  intros Hok (Hr & _) (Hr' & _) E. destruct (ok_typed _ Hok id r Hr) as (_ & _ & [T _]).
  destruct (ok_typed _ Hok id' r' Hr') as (_ & _ & [T' _]).
  apply (ok_unique _ Hok id id' r r'); [done..|]. unfold is_i64, as_u64, U64_MOD, I64_MAX in *.
  pose proof (Z.div_mod (c_protocol_transfer_id r) (2 ^ 64)).
  pose proof (Z.div_mod (c_protocol_transfer_id r') (2 ^ 64)). lia.
Qed.

(** The loop over the shares of [k0]: [rows] are still to be visited. *)
Record restoring k0 (active : gset string) (rows : list TargetedTransferRow) k : Prop := {
  rs_domain : k_domain k = k_domain k0;
  rs_shares id r : share k id r → share k0 id r;
  rs_todo row : row ∈ rows → ∃ r, share k (tr_id row) r ∧ row_to_full (tr_id row, r) = Ok row;
  rs_fresh : NoDup (tr_id <$> rows);
  rs_closed id r : share k id r → id ∈ tr_id <$> rows → ours (pid r) →
    ∀ e, approved_sessions (k_access k) !! (pid r, e) = None;
  rs_done id r : share k id r → id ∉ tr_id <$> rows → trusted k (c_receiver_endpoint_id r) ∧
    (served k id r ∧ targeted_tag_name id ∈ active ∨ withheld k r);
  rs_active tag : tag ∈ active → ∃ id r, tag = targeted_tag_name id ∧ share k id r ∧
    served k id r ∧ id ∉ tr_id <$> rows
}.

Lemma restoring_step k0 active row rows k k' r active' :
  tables_ok (k_tables k0) →
  restoring k0 active (row :: rows) k → share k (tr_id row) r → touches (tr_id row) (pid r) k k' →
  (∀ r', share k' (tr_id row) r' → r' = r ∧ trusted k' (c_receiver_endpoint_id r) ∧
     (served k' (tr_id row) r ∧ targeted_tag_name (tr_id row) ∈ active' ∨ withheld k' r)) →
  active ⊆ active' →
  (∀ tag, tag ∈ active' → tag ∈ active ∨ tag = targeted_tag_name (tr_id row) ∧
     share k' (tr_id row) r ∧ served k' (tr_id row) r) →
  restoring k0 active' rows k'.
Proof.
  intros Hok [I1 I2 I3 I4 Ic I5 I6] Hs Ht Hrow Hsub Hact. apply NoDup_cons in I4 as [Hnew Hnd].
  assert (∀ id r', id ≠ tr_id row → share k' id r' ↔ share k id r') as Hother.
  { intros id r' Hne. unfold share. by rewrite (tc_rows _ _ _ _ Ht). }
  assert (∀ id r', id ≠ tr_id row → share k id r' → pid r' ≠ pid r) as Hpid.
  { intros id r' Hne Hs' E. apply Hne. by apply (share_pids k0 id (tr_id row) r' r); [done|apply I2..|]. }
  split.
  - by rewrite (tc_domain _ _ _ _ Ht).
  - intros id r' Hs'. apply I2. destruct (decide (id = tr_id row)) as [->|Hne]; [|by apply Hother].
    by destruct (Hrow r' Hs') as [-> _].
  - intros row' Hin. destruct (I3 row') as (r' & Hs' & Hf); [by right|]. exists r'. split; [|done].
    apply Hother; [|done]. intros E. apply Hnew. rewrite <- E. by apply list_elem_of_fmap_2.
  - done.
  - intros id r' Hs' Hin Ho e. assert (id ≠ tr_id row) as Hne by (by intros ->). apply Hother in Hs'; [|done].
    rewrite (tc_sessions _ _ _ _ Ht) by by apply Hpid with id. apply (Ic id); [done|by right|done].
  - intros id r' Hs' Hni. destruct (decide (id = tr_id row)) as [->|Hne].
    { by destruct (Hrow r' Hs') as [-> ?]. }
    apply Hother in Hs'; [|done]. destruct (I5 id r') as [Htr Hsw]; [done|by rewrite fmap_cons, not_elem_of_cons|].
    split; [unfold trusted, saved_peer in *; by rewrite (tc_domain _ _ _ _ Ht)|].
    destruct Hsw as [[Hsv Htag]|Hw]; [left; split; [|by apply Hsub]|right].
    + eapply served_touches; eauto.
    + eapply withheld_touches; eauto.
  - intros tag [Hin|(-> & Hs' & Hsv)]%Hact.
    + destruct (I6 tag Hin) as (id & r' & -> & Hs' & Hsv & Hni). rewrite fmap_cons in Hni.
      apply not_elem_of_cons in Hni as [Hne Hni]. exists id, r'. split_and!; [done|by apply Hother| |done].
      eapply served_touches; eauto.
    + by exists (tr_id row), r.
Qed.

Lemma wp_restore_rows k0 rows k n Q :
  tables_ok (k_tables k0) → restoring k0 ∅ rows k → (∀ e k' n', Q (Err e) k' n') →
  (∀ active k' n', restoring k0 active [] k' → Q (Ok active) k' n') →
  wp (fold_each restore_row rows ∅) k n Q.
Proof.
  intros Hok HI He Ho. apply (wp_fold_each (restoring k0)); [done| |by auto]. clear k n HI.
  intros active row rows' k n HI. destruct (rs_todo _ _ _ _ HI row) as (r & Hs & Hrow); [by left|].
  apply (wp_restore_row active row (tr_id row) r);
    [done|done|by apply (rs_closed _ _ _ _ HI (tr_id row)); [|left]|done|..].
  - intros k' n' Ht Hno. eapply restoring_step; [done|exact HI|exact Hs|exact Ht| |done|by left].
    intros r' Hs'. by destruct (Hno r').
  - intros k' n' Ht Et Htr Hw. eapply restoring_step; [done|exact HI|exact Hs|exact Ht| |done|by left].
    intros r' (Hr' & _). rewrite Et in Hr'. destruct Hs as (Hr & _). split; [congruence|].
    split; [unfold trusted, saved_peer in *; by rewrite (tc_domain _ _ _ _ Ht)|by right].
  - intros k' n' Ht Et Htr Hsv.
    assert (share k' (tr_id row) r) as Hs' by (unfold share; by rewrite Et).
    eapply restoring_step; [done|exact HI|exact Hs|exact Ht| |set_solver|].
    + intros r' (Hr' & _). rewrite Et in Hr'. destruct Hs as (Hr & _). split; [congruence|].
      split; [unfold trusted, saved_peer in *; by rewrite (tc_domain _ _ _ _ Ht)|].
      left. split; [done|set_solver].
    + intros tag [->%elem_of_singleton|Hin]%elem_of_union; [by right|by left].
Qed.

(** Only tags that no share uses go. *)
Record purging (active : gset string) k (todo : list string) k' : Prop := {
  pg_rest : k' = on_tags (λ _, k_tags k') k;
  pg_sub : k_tags k' ⊆ k_tags k;
  pg_active tag : tag ∈ active → tag ∈ k_tags k → tag ∈ k_tags k';
  pg_todo tag : String.prefix "vnidrop/targeted/" tag = true → tag ∈ k_tags k' → tag ∈ active ∨ tag ∈ todo
}.

Lemma wp_purge_tags (active : gset string) k n Q :
  (∀ e k' n', Q (Err e) k' n') →
  (∀ k' n', purging active k [] k' → Q (Ok tt) k' n') →
  wp (tags ← list_tags "vnidrop/targeted/"; for_each tags (drop_stale_tag active)) k n Q.
Proof.
  intros He Ho. apply wp_bind. unfold wp at 1, list_tags. destruct (list_tags_fault n); [apply He|].
  apply (wp_for_each (purging active k)); [| |by auto].
  - split; [by destruct k|done|done|]. intros tag Hp Hin. right. apply list_elem_of_filter.
    split; [done|by apply elem_of_elements].
  - clear n. intros tag todo k' n [I1 I2 I3 I4]. unfold drop_stale_tag, when.
    destruct (bool_decide _) eqn:Htag; bool_simpl.
    + unfold wp, delete_tag. destruct (tag_fault n); [apply He|]. split; simpl.
      * by rewrite I1.
      * set_solver.
      * intros tag' Ha Hin. apply elem_of_difference. split; [by apply I3|set_solver].
      * intros tag' Hp [Hin Hne]%elem_of_difference. specialize (I4 tag' Hp Hin). set_solver.
    + apply wp_ret. split; [done..|]. intros tag' Hp Hin. destruct (I4 tag' Hp Hin) as [|[->|]%elem_of_cons]; auto.
      left. by apply dec_stable.
Qed.

(** What is served once the restoration is over. *)
Definition access_restored k : Prop :=
  (∀ id c, share k id c → trusted k (c_receiver_endpoint_id c) ∧ (served k id c ∨ withheld k c)) ∧
  (∀ tag, String.prefix "vnidrop/targeted/" tag = true → tag ∈ k_tags k →
     ∃ id c, tag = targeted_tag_name id ∧ share k id c ∧ served k id c).

Definition closed k : Prop := ∀ p e, ours p → approved_sessions (k_access k) !! (p, e) = None.

Lemma wp_restore_shares k n (Hok : tables_ok (k_tables k)) (Hclosed : closed k) :
  wp restore_shares k n (λ r k' _, r = Ok tt → access_restored k').
Proof.
  apply wp_bind, wp_list_shares; [done|]. intros rows n1 Hnd Htodo Hall.
  apply wp_bind, (wp_restore_rows k); [done| |done|].
  { split; [done|done|done|done| | |done].
    - intros id r _ _ Ho e. by apply Hclosed.
    - intros id r Hs Hni. by destruct Hni; eapply Hall. }
  intros active k1 n2 [_ _ _ _ _ I5 I6]. apply wp_purge_tags; [done|]. intros k2 n3 [P1 P2 P3 P4] _.
  assert (∀ id c, served k1 id c → targeted_tag_name id ∈ active → served k2 id c) as Hkept.
  { intros id c [S1 S2 S5 S3 S4] Ha. pose proof (P3 _ Ha S4). by rewrite P1. }
  assert (∀ id c, share k2 id c ↔ share k1 id c) as Hshare by (intros; by rewrite P1).
  split.
  - intros id c Hs%Hshare. destruct (I5 id c Hs) as [Htr Hsw]; [apply not_elem_of_nil|].
    split; [by rewrite P1|]. destruct Hsw as [[Hsv Ha]|Hw]; [left; by apply Hkept|right].
    rewrite P1. by destruct Hw.
  - intros tag Hp Hin. destruct (P4 tag Hp Hin) as [Ha|[]%elem_of_nil].
    destruct (I6 tag Ha) as (id & c & -> & Hs & Hsv & _). exists id, c.
    split_and!; [done|by apply Hshare|by apply Hkept].
Qed.
End Restore.

(** ** The database under the whole runtime

    Every handler and command moves the tables by operations of the store, so what the store
    guarantees about any sequence of its operations holds of the whole runtime. *)

Inductive RuntimeOp `{TicketCodec} : Type :=
| PrepareTransfer (receiver : string) (sources : list ShareSource) (name : option string) (gate : option bool)
| ContinueTransfer (prepared : PreparedTargetedTransfer)
| OnOffer (remote challenge : string) (offer : SubmitTargetedOffer)
| OnAuthorization (remote : string) (delivery : DeliverTargetedAuthorization)
| OnCancel (remote : string) (cancel : CancelTargetedOffer)
| OnCompletion (remote : string) (completion : CompleteTargetedTransfer)
| RegisterSender (row : TargetedTransferRow)
| ProtectSender (authorization : TargetedAuthorization)
| CancelTransfer (id : string)
| DeleteTransfer (id : string)
| StopPreparation (id : string)
| CancelForPeer (peer : string)
| RespondToOffer (id : string) (accepted : bool)
| ReceiveTransfer (id : string)
| ResumeTransfer (id : string)
| RecoverInFlight
| RestoreAccess
| ReconciliationTick.

Section Database.
Context `{ForeignText} `{Host} `{Blake3} `{Blake3Hash} `{!Base64} `{Codec} `{Urls} `{Addressing} `{!TicketCodec}
  {V : Type} `{SecureSecretStore V} `{!Network V} `{!Neighbours V} `{Remote} `{Blobs} `{Files} `{!Importer}
  `{OfferRemote}.
Variable authority : TargetedProtocolAuthority.
Implicit Types (k : Core V).

Definition exec_runtime `{Env} (op : RuntimeOp) : M (Core V) VnidropError unit :=
  match op with
  | OnOffer remote challenge offer => discard (handle_offer authority remote challenge offer)
  | OnAuthorization remote delivery => discard (handle_authorization authority remote delivery)
  | OnCancel remote cancel => discard (handle_cancel authority remote cancel)
  | OnCompletion remote completion => discard (handle_completion authority remote completion)
  | PrepareTransfer receiver sources name gate =>
      discard (prepare_targeted_transfer authority receiver sources name gate)
  | ContinueTransfer prepared => discard (continue_targeted_transfer authority prepared)
  | RegisterSender row => register_sender row
  | ProtectSender authorization => protect_sender (ta_protected authority) authorization
  | CancelTransfer id => cancel_targeted_transfer authority id
  | DeleteTransfer id => delete_targeted_transfer authority id
  | StopPreparation id => discard (stop_targeted_preparation authority id)
  | CancelForPeer peer => discard (cancel_targeted_transfers_for_peer authority peer)
  | RespondToOffer id accepted => discard (respond_to_targeted_offer authority id accepted)
  | ReceiveTransfer id => receive_targeted_to_target authority id
  | ResumeTransfer id => resume_targeted_to_target authority id
  | RecoverInFlight => discard (recover_in_flight authority)
  | RestoreAccess => restore_targeted_transfer_access authority
  | ReconciliationTick => reconciliation_tick authority
  end.

Definition runtime_step k k' : Prop := ∃ (env : Env) (op : RuntimeOp) (n : nat), k' = (exec_runtime op k n).1.2.

Definition store_run k k' : Prop := rtc store_step (k_tables k) (k_tables k').

#[local] Instance store_run_preorder : PreOrder store_run.
Proof. split; [intros k; apply rtc_refl|]. intros k1 k2 k3. unfold store_run. by etrans. Qed.

(** What other handlers do meanwhile are such operations too. *)
Hypothesis between_runs : ∀ n k, store_run k (between n k).

Section Handlers.
Context `{Env}.
Abbreviation runs m := (within store_run (m : M (Core V) VnidropError _)).

Lemma runs_exec (op : StoreOp) : runs (in_tables (exec op)).
Proof.
  intros k n. apply wp_in_tables. unfold wp. destruct (exec op (k_tables k) n) as [[r t] n'] eqn:E.
  apply rtc_once. exists _, op, n. by rewrite E.
Qed.

Lemma runs_store (op : StoreOp) {A} (m : M Tables VnidropError A) :
  discard m = exec op → runs (in_tables m).
Proof.
  intros E k n. pose proof (runs_exec op k n) as Hr. rewrite <- E in Hr. revert Hr.
  unfold wp, in_tables, zoom, discard, mbind, M_bind.
  by destruct (m (k_tables k) n) as [[[a|e] t] n'].
Qed.

(** Statements that only read the tables, and operations of the other parts. *)
Lemma runs_read {A} (m : M Tables VnidropError A) : within eq m → runs (in_tables m).
Proof. intros Hm. apply (within_zoom k_tables set_tables eq); [|done]. intros k t <-. apply rtc_refl. Qed.

Lemma runs_idle {E A} (m : M (Core V) E A) :
  (∀ k n, wp m k n (λ _ k' _, k_tables k' = k_tables k)) → within store_run m.
Proof. intros Hm k n. eapply wp_mono; [apply Hm|]. intros r k' n' Ht. unfold store_run. by rewrite Ht. Qed.

Lemma runs_domain {A} (m : M (Domain V) VnidropError A) : runs (in_domain m).
Proof. apply runs_idle. intros k n. apply wp_in_domain. unfold wp. by destruct (m _ n) as [[??]?]. Qed.

Lemma runs_access {A} (m : M AccessPolicy VnidropError A) : runs (in_access m).
Proof. apply runs_idle. intros k n. apply wp_in_access. unfold wp. by destruct (m _ n) as [[??]?]. Qed.

Lemma runs_inbox {A} (m : M TargetedOfferInbox string A) : runs (in_inbox m).
Proof.
  apply within_map_err, runs_idle. intros k n. apply wp_zoom. unfold wp. by destruct (m _ n) as [[??]?].
Qed.

Lemma within_eq_query {A} (f : Tables → A) : within eq (query f).
Proof. apply within_sql; [apply _|]. by intros t a t' [= _ <-]. Qed.

Lemma runs_pause : runs pause.
Proof. intros k n. apply between_runs. Qed.

Lemma runs_call {A R} (reply : nat → string → A → RpcOutcome R) peer message : runs (call reply peer message).
Proof. intros k n. apply between_runs. Qed.

Lemma runs_receive_payload : runs receive_payload.
Proof. intros k n. apply between_runs. Qed.

Lemma runs_patient : runs patient.
Proof. intros k n. apply rtc_refl. Qed.

Lemma runs_neighbours : runs neighbours.
Proof. intros k n. apply rtc_refl. Qed.

Lemma runs_tag tag : runs (delete_tag tag).
Proof. intros k n. unfold wp, delete_tag. destruct (tag_fault n); apply rtc_refl. Qed.

Lemma runs_set_tag tag : runs (set_tag tag).
Proof. intros k n. unfold wp, set_tag. destruct (set_tag_fault n); apply rtc_refl. Qed.

Lemma runs_list_tags prefix : runs (list_tags prefix).
Proof. intros k n. unfold wp, list_tags. destruct (list_tags_fault n); apply rtc_refl. Qed.

(** *** Handlers, by the operations they are made of *)

Ltac runs_tables := match goal with
  | |- within _ (in_tables ?m) => lazymatch m with
    | clear_authorization ?id => apply (runs_exec (OpClearAuthorization id))
    | clear_accepted_offer_intent ?id => apply (runs_exec (OpClearIntent id))
    | clear_accepted_intent_if_sender ?id ?s => apply (runs_exec (OpClearIntentIfSender id s))
    | persist_accepted_offer_intent ?o => apply (runs_exec (OpPersistIntent o))
    | insert ?row => apply (runs_exec (OpInsert row))
    | set_state ?id ?x ?y => apply (runs_exec (OpSetState id x y))
    | set_state_from_any ?id ?x => apply (runs_exec (OpSetStateFromAny id x))
    | complete_receiver_and_enqueue ?id ?b => apply (runs_exec (OpCompleteReceiver id b))
    | finalize_sender_authorization_and_enqueue ?id ?t ?h => apply (runs_exec (OpFinalize id t h))
    | clear_pending_completion ?id => apply (runs_exec (OpClearCompletion id))
    | defer_pending_completion ?id ?x => apply (runs_exec (OpDeferCompletion id x))
    | clear_pending_authorization_delivery ?id => apply (runs_exec (OpClearDelivery id))
    | defer_pending_authorization_delivery ?id ?x => apply (runs_exec (OpDeferDelivery id x))
    | clear_pending_payload_release ?id => apply (runs_exec (OpClearRelease id))
    | transition_terminal ?id ?s ?c => by apply (runs_store (OpTransitionTerminal id s c))
    | abandon_sender_preapproval ?id => by apply (runs_store (OpAbandon id))
    | mark_sender_completed ?id => by apply (runs_store (OpMarkSenderCompleted id))
    | fail_resumable_and_clear_delivery ?id => by apply (runs_store (OpFailResumable id))
    | cancel_by_peer ?p => by apply (runs_store (OpCancelByPeer p))
    | mark_interrupted_in_flight => by apply (runs_store OpMarkInterrupted)
    | fail_sender_preapproval_on_restart => by apply (runs_store OpFailPreapproval)
    | persist_receiver_authorization_and_consume_intent ?a ?h => by apply (runs_store (OpPersistReceiver a h))
    | _ => apply runs_read; unfold get_row, TargetedStore.get, contains_protocol_id, ids_for_peer, list_resumable_sender_rows, list_resumable_rows,
             list_accepted_intent_senders, authorization_rows, list_pending_completions,
             list_pending_authorization_deliveries, list_completed_sender_rows;
           repeat first [apply within_eq_query | within_step]; fail
    end
  end.

Create HintDb runs discriminated.

Ltac runs_steps := repeat first
  [ assumption
  | solve [auto 1 with runs nocore]
  | runs_tables
  | apply runs_domain | apply runs_access | apply runs_inbox | apply runs_pause | apply runs_call
  | apply runs_receive_payload | apply runs_patient | apply runs_neighbours | apply runs_tag | apply runs_set_tag | apply runs_list_tags
  | match goal with
    | |- within _ (modify _) => apply within_modify; intros; apply rtc_refl
    | |- within _ (in_repository _) => apply within_map_err, runs_idle; intros; apply wp_zoom; unfold wp;
        match goal with |- context [let '(_, _) := ?x in _] => by destruct x as [[??]?] end
    end
  | within_step ].

Lemma runs_inbox_call fuel waits task : runs (inbox_call authority fuel waits task).
Proof.
  revert waits task. induction fuel as [|fuel IH]; intros waits task; simpl; [runs_steps|].
  apply within_bind; [apply _|unfold inbox_section; runs_steps|]. intros [next|]; apply IH.
Qed.

Lemma runs_discard id : runs (inbox_discard id).
Proof. unfold inbox_discard, inbox_discard_section. runs_steps. Qed.

Lemma runs_cleanup row : runs (cleanup authority row).
Proof. unfold cleanup, in_custody_of. runs_steps. Qed.

#[local] Hint Resolve runs_inbox_call runs_discard runs_cleanup : runs.

Lemma runs_replayed row auth : runs (replayed_delivery row auth).
Proof. unfold replayed_delivery, in_custody_of. runs_steps. Qed.

Lemma runs_load row : runs (load_authorization (ta_protected authority) row).
Proof. unfold load_authorization, require_custody, in_custody_of. runs_steps. Qed.

Lemma runs_teardown pid id : runs (try_teardown_targeted_payload pid id).
Proof. unfold try_teardown_targeted_payload, unregister_transfer_hashes. runs_steps. Qed.

Lemma runs_saved peer : runs (is_saved peer).
Proof. unfold is_saved. runs_steps. Qed.

Lemma runs_blocked peer : runs (is_blocked_peer peer).
Proof. unfold is_blocked_peer. runs_steps. Qed.

Lemma runs_terminate_peer peer : runs (terminate_peer authority peer).
Proof. unfold terminate_peer, inbox_discard_from, collect_row. runs_steps. Qed.

Lemma runs_tell peer message : runs (tell_peer peer message).
Proof. unfold tell_peer. runs_steps. Qed.

Lemma runs_acknowledge auth : runs (acknowledge_targeted_completion auth).
Proof. unfold acknowledge_targeted_completion. runs_steps. Qed.
#[local] Hint Resolve runs_replayed runs_load runs_teardown runs_saved runs_blocked runs_terminate_peer
  runs_tell runs_acknowledge : runs.

Lemma runs_restore_row active row : runs (restore_row active row).
Proof.
  unfold restore_row, restore_payload, register_share_hashes, teardown_targeted_payload, logged. runs_steps.
Qed.

Lemma runs_restore : runs (restore_targeted_transfer_access authority).
Proof.
  pose proof runs_restore_row as Hrow. unfold restore_targeted_transfer_access, drop_lost_consent,
    revoke_lost_peer, cancel_targeted_transfers_for_peer, clear_dead_authorization, in_custody_of,
    restore_shares, drop_stale_tag. repeat (runs_steps; try apply Hrow).
Qed.

Lemma runs_receive auth : runs (run_targeted_receive auth).
Proof.
  unfold run_targeted_receive, run_registered_targeted_receive, begin_receive, finish_receive, abandon_receive,
    complete_receiver, interrupt_receive, logged. runs_steps.
Qed.

Lemma runs_load_receiver id : runs (load_receiver_authorization authority id).
Proof. unfold load_receiver_authorization. runs_steps. Qed.

Lemma runs_respond id accepted : runs (respond_to_targeted_offer authority id accepted).
Proof. unfold respond_to_targeted_offer, record_consent, inbox_respond, finish_response. runs_steps. Qed.

Lemma runs_tick : runs (reconciliation_tick authority).
Proof.
  unfold reconciliation_tick, release_completed_targeted_payloads, release_payload,
    retry_targeted_authorization_deliveries, retry_targeted_completions, first_listed, retry_delivery,
    retry_completion, deliver_stored_targeted_authorization, defer_targeted_completion_with_log, logged.
  runs_steps.
Qed.
#[local] Hint Resolve runs_restore runs_receive runs_load_receiver runs_respond runs_tick : runs.

(** *** Creating a transfer *)

Lemma runs_find fuel : runs (find_ids fuel).
Proof. induction fuel as [|fuel IH]; simpl; runs_steps. Qed.

Lemma runs_protect auth : runs (protect_sender (ta_protected authority) auth).
Proof. unfold protect_sender, require_custody, roll_back, in_custody_of. runs_steps. Qed.

Lemma runs_withdraw {A} p id error : runs (withdraw p id error : M _ _ A).
Proof. unfold withdraw, teardown_targeted_payload, logged. runs_steps. Qed.
#[local] Hint Resolve runs_find runs_protect runs_withdraw : runs.

Lemma runs_prepare receiver sources name gate :
  runs (prepare_targeted_transfer authority receiver sources name gate).
Proof.
  unfold prepare_targeted_transfer, allocate_ids, new_blob_ticket, keep_payload, register_share_hashes,
    register_prepared, register_sender.
  repeat first [apply (import_within store_run); exact between_runs | progress runs_steps
               | apply runs_idle; intros; exact eq_refl].
Qed.

Lemma runs_abandon_offer {A} prepared from to error : runs (abandon_offer prepared from to error : M _ _ A).
Proof. unfold abandon_offer. runs_steps. Qed.
#[local] Hint Resolve runs_prepare runs_abandon_offer : runs.

Lemma runs_continue prepared : runs (continue_targeted_transfer authority prepared).
Proof.
  unfold continue_targeted_transfer, meet_receiver, submit_offer, authorize_receiver, issue. runs_steps.
Qed.
#[local] Hint Resolve runs_continue : runs.

(** *** The handlers of peers' messages *)

Lemma runs_persist auth : runs (persist_receiver (ta_protected authority) auth).
Proof. unfold persist_receiver, require_custody, in_custody_of, roll_back, in_custody_of. runs_steps. Qed.
#[local] Hint Resolve runs_persist : runs.

Lemma runs_offer remote challenge offer : runs (handle_offer authority remote challenge offer).
Proof. unfold handle_offer, cooling, malformed, new_offer, inbox_submit, malformed. runs_steps. Qed.

Lemma runs_authorization remote delivery : runs (handle_authorization authority remote delivery).
Proof. unfold handle_authorization, persist_authorization, inbox_deliver_authorization. runs_steps. Qed.

Lemma runs_cancel remote cancel : runs (handle_cancel authority remote cancel).
Proof. unfold handle_cancel, cancel_from_peer. runs_steps. Qed.

Lemma runs_completion remote completion : runs (handle_completion authority remote completion).
Proof. unfold handle_completion. runs_steps. Qed.

Lemma runs_terminate id state : runs (terminate_local authority id state).
Proof. unfold terminate_local. runs_steps. Qed.

Lemma runs_stop id : runs (stop_preparation authority id).
Proof. unfold stop_preparation. runs_steps. Qed.
#[local] Hint Resolve runs_offer runs_authorization runs_cancel runs_completion runs_terminate runs_stop : runs.

Lemma runs_runtime op : runs (exec_runtime op).
Proof.
  destruct op; cbn [exec_runtime]; unfold discard, register_sender, protect_sender, require_custody, roll_back,
    in_custody_of, cancel_targeted_transfer, delete_targeted_transfer, stop_targeted_preparation,
    cancel_targeted_transfers_for_peer, recover_in_flight, receive_targeted_to_target,
    resume_targeted_to_target; runs_steps.
Qed.
Lemma store_run_ok k k' : store_run k k' → tables_ok (k_tables k) → tables_ok (k_tables k').
Proof. unfold store_run. induction 1; eauto using store_step_keeps. Qed.

(** *** Access stays shut until the shares are restored *)

Section Shut.
Variable ours : Z → Prop.
Hypothesis others_open_none : ∀ n k, closed ours k → closed ours (between n k).

Definition stays_shut k k' : Prop := closed ours k → closed ours k'.

#[local] Instance stays_shut_preorder : PreOrder stays_shut.
Proof. split; [by intros k|]. intros k1 k2 k3 Hk1 Hk2 Hk. auto. Qed.

Abbreviation shuts m := (within stays_shut (m : M (Core V) VnidropError _)).

Lemma shuts_idle {E A} (m : M (Core V) E A) :
  (∀ k n, wp m k n (λ _ k' _, k_access k' = k_access k)) → within stays_shut m.
Proof. intros Hm k n. eapply wp_mono; [apply Hm|]. intros r k' n' Ha Hc p e. rewrite Ha. apply Hc. Qed.

Lemma shuts_domain {A} (m : M (Domain V) VnidropError A) : shuts (in_domain m).
Proof. apply shuts_idle. intros k n. apply wp_in_domain. unfold wp. by destruct (m _ n) as [[??]?]. Qed.

Lemma shuts_tables {A} (m : M Tables VnidropError A) : shuts (in_tables m).
Proof. apply shuts_idle. intros k n. apply wp_in_tables. unfold wp. by destruct (m _ n) as [[??]?]. Qed.

Lemma shuts_inbox {A} (m : M TargetedOfferInbox string A) : shuts (in_inbox m).
Proof.
  apply within_map_err, shuts_idle. intros k n. apply wp_zoom. unfold wp. by destruct (m _ n) as [[??]?].
Qed.

Lemma shuts_pause : shuts pause.
Proof. intros k n. exact (others_open_none n k). Qed.

Lemma shuts_neighbours : shuts neighbours.
Proof. intros k n Hc. exact Hc. Qed.

Lemma shuts_tag tag : shuts (delete_tag tag).
Proof. intros k n. unfold wp, delete_tag. destruct (tag_fault n); intros Hc; exact Hc. Qed.

Lemma shuts_removed p : shuts (in_access (remove_transfer p)).
Proof.
  intros k n. apply wp_in_access, wp_bind, wp_modify, wp_modify. intros Hc p' e Ho. simpl. apply map_lookup_filter_None.
  left. by apply Hc.
Qed.

Ltac shuts_steps := repeat first
  [ assumption | apply shuts_domain | apply shuts_tables | apply shuts_inbox | apply shuts_pause
  | apply shuts_neighbours | apply shuts_tag | apply shuts_removed
  | match goal with |- within _ (modify _) => apply within_modify; intros; by intros ? end
  | within_step ].

Lemma shuts_terminate_peer peer : shuts (terminate_peer authority peer).
Proof.
  unfold terminate_peer, inbox_discard_from, inbox_discard, inbox_discard_section, collect_row, cleanup,
    in_custody_of. shuts_steps.
Qed.

(** One step of a handler that keeps the tables sound and the access shut. *)
Lemma wp_shut_bind {A B} (m : M (Core V) VnidropError A) (f : A → M (Core V) VnidropError B) k n Q :
  within store_run m → within stays_shut m → tables_ok (k_tables k) → closed ours k →
  (∀ e k' n', Q (Err e) k' n') →
  (∀ a k' n', tables_ok (k_tables k') → closed ours k' → wp (f a) k' n' Q) → wp (m ≫= f) k n Q.
Proof.
  intros Hm Hs Hok Hc He Hf. apply wp_bind. specialize (Hm k n). specialize (Hs k n). unfold wp in *.
  destruct (m k n) as [[[a|e] k'] n']; [|apply He]. apply Hf; [by apply (store_run_ok k)|auto].
Qed.

End Shut.

End Handlers.

Lemma runtime_step_runs k k' : runtime_step k k' → store_run k k'.
Proof. intros (env & op & n & ->). apply (wp_final _ k n (store_run k)), runs_runtime. Qed.

(** The runtime drives the store only through the store's operations.
    However peers, the user, the blob store and failing statements interleave, the tables a
    run of commands and handlers leaves are reached from those it started on by operations of
    the store: no handler changes a row in a way the store does not offer. *)
Lemma runtime_refines_store k k' :
  rtc runtime_step k k' → rtc store_step (k_tables k) (k_tables k').
Proof.
  induction 1 as [k|k1 k2 k3 Hs _ IH]; [apply rtc_refl|]. etrans; [exact (runtime_step_runs _ _ Hs)|exact IH].
Qed.
End Database.

(** ** Witnesses *)

Section Witnesses.
#[local] Existing Instances device_env device_text device_host device_blake3 device_network.
#[local] Existing Instances demo_base64 demo_urls demo_addressing demo_ticket_codec auth_codec alone.

(** Peers cannot be reached; every payload is in the store. *)
#[local] Instance silent_peers : Remote := {|
  cancel_reply _ _ _ := RpcTimedOut; completion_reply _ _ _ := RpcTimedOut; delivery_reply _ _ _ := RpcTimedOut |}.
#[local] Instance full_store : Blobs := {|
  hash_text_len := 4; parse_hash text := Ok text; load_collection _ _ := Ok ["file"%string];
  set_tag_fault _ := None; list_tags_fault _ := None; fetch_fault _ := None |}.

(** One photo, that imports well; receivers accept what they are offered. *)
#[local] Instance plain_hash : Blake3Hash := {| blake3_hash s := s; hash_to_hex s := s |}.
#[local] Instance one_photo : Files := {|
  fs_is_dir _ _ := false; fs_walk _ _ := []; fs_len _ _ := Ok 10;
  fd_dup _ _ _ := Err (anyhow_msg "closed"); fd_mode _ _ := Err (anyhow_msg "closed") |}.
#[local] Instance plain_importer : Importer := {|
  open_fds _ := ∅; open_fault _ _ := None; add_items _ _ := [ASize 10; ADone "hash of a photo"];
  Share.arrive _ _ l := l; store_collection _ _ := Ok "root"%string;
  blob_ticket_new _ hash := {| da_id := hash; da_relays := []; da_ips := [] |} |}.
#[local] Instance accepting : OfferRemote := {|
  challenge_reply _ _ _ := RpcReplied demo_secret; offer_reply _ _ _ := RpcReplied WireAccepted |}.

Lemma alone_runs : ∀ n (k : Core FaultInjectingSecretStore), store_run k (between n k).
Proof. intros n k. apply rtc_refl. Qed.

Lemma alone_opens_none : ∀ n (k : Core FaultInjectingSecretStore),
  closed (λ _, True) k → closed (λ _, True) (between n k).
Proof. by intros n k. Qed.

(** One approved transfer to Bob, who is saved, and a stale tag. *)
Definition demo_shared : TransferColumns := set_columns "approved" 0 (Some "ticket"%string) (Some "h"%string) 5 demo_awaiting.
Definition demo_restarted : Core FaultInjectingSecretStore :=
  on_tags (λ _, {["vnidrop/targeted/old"%string; "vnidrop/other"%string]})
    (with_domain (demo_end "bob" demo_relationship) inbox_new
      (on_transfers (λ _, {[ "t1"%string := demo_shared ]}) empty_tables)).

Lemma single_row_ok id r : row_typed r → tables_ok (on_transfers (λ _, {[ id := r ]}) empty_tables).
Proof.
  intros Hr. split; cbn.
  - intros id' r' Hr'. apply lookup_singleton_Some in Hr' as [_ <-]. exact Hr.
  - intros id1 id2 r1 r2 H1 H2 _. apply lookup_singleton_Some in H1 as [<- _], H2 as [<- _]. reflexivity.
  - intros id' [o Ho]. discriminate Ho.
  - intros id' [o Ho]. discriminate Ho.
  - intros id' [o Ho]. discriminate Ho.
Qed.


(** Alice offers a photo to Bob, who accepts, and takes it back. *)
Definition demo_after (k : Core FaultInjectingSecretStore) (op : RuntimeOp) : Core FaultInjectingSecretStore :=
  (exec_runtime (demo_authority "alice") op k 0%nat).1.2.
Definition demo_sending : Core FaultInjectingSecretStore :=
  with_domain (demo_end "bob" demo_holding) inbox_new empty_tables.
Definition demo_photo : ShareSource :=
  {| ss_kind := SourcePath; ss_value := "/a.jpg"; ss_display_name := None; ss_is_directory := false |}.
Definition demo_prepared : PreparedTargetedTransfer := {|
  pp_transfer_uuid := "uuid"; pp_protocol_transfer_id := allocate_protocol_transfer_id "uuid";
  pp_sender_endpoint_id := "alice"; pp_receiver_endpoint_id := "bob";
  pp_blob_ticket := {| da_id := "root"; da_relays := []; da_ips := [] |}; pp_payload_name := "a.jpg";
  pp_file_count := 1; pp_total_size := 10 |}.
Definition demo_offered : list (Core FaultInjectingSecretStore) :=
  let k1 := demo_after demo_sending (PrepareTransfer "bob" [demo_photo] None None) in
  let k2 := demo_after k1 (ContinueTransfer demo_prepared) in
  [k1; k2; demo_after k2 (CancelTransfer "uuid")].

Lemma runtime_refines_store_witness :
  (λ k, c_state <$> targeted_transfers (k_tables k) !! "uuid"%string) <$> demo_offered =
    [Some "offering"; Some "approved"; Some "cancelled"]%string ∧
  Forall (λ k, rtc store_step (k_tables demo_sending) (k_tables k)) demo_offered.
Proof.
  split; [vm_compute; reflexivity|].
  repeat apply Forall_cons_2; [..|apply Forall_nil_2]; apply (runtime_refines_store (demo_authority "alice") alone_runs);
    repeat first [apply rtc_refl
                 | eapply rtc_r; [|eexists device_env, _, 0%nat; reflexivity]].
Defined.
End Witnesses.
