(* ===== verification/TargetedCreateSpec.v ===== *)
(** * What creating a targeted transfer guarantees

    Properties of [TargetedCreate.v]: while a transfer is prepared nobody can read its payload;
    and however an offer ends, either the payload is withdrawn or the receiver has accepted, its
    access is recorded and the capability is in custody and owed to it. *)

From S2P Require Import Share Prelude Sql Async ControlPlane Errors States Api Ticket Filesystem TargetedStore Access Invitation Inbox SecureSecret Relationship Pairing Devices DevicesSpec Core Approval Authorization TargetedModule TargetedModuleSpec TargetedRuntime TargetedCreate TargetedRuntimeSpec.

Section Create.
Context `{Env} `{ForeignText} `{Host} `{Blake3} `{Blake3Hash} `{!Base64} `{Codec} `{Urls} `{Addressing}
  `{!TicketCodec} {V : Type} `{SecureSecretStore V} `{!SecureSecretStoreLaws V} `{!Network V}
  `{!Neighbours V} `{Remote} `{Blobs} `{Files} `{!Importer} `{OfferRemote}.
Variable authority : TargetedProtocolAuthority.
Implicit Types (k : Core V).

(** ** The pieces *)

Lemma wp_withdraw {A} p id error k n (Q : result A VnidropError → Core V → nat → Prop) :
  (∀ k' n', touches id p k k' → k_tables k' = k_tables k → unserved k' p → Q (Err error) k' n') →
  wp (withdraw p id error) k n Q.
Proof. intros HQ. apply wp_bind, wp_teardown. intros. apply wp_fail. by apply HQ. Qed.

Lemma wp_abandon_offer {A} prepared from to error k n (Q : result A VnidropError → Core V → nat → Prop) :
  (∀ k' n', unserved k' (pp_protocol_transfer_id prepared) → Q (Err error) k' n') →
  wp (abandon_offer prepared from to error) k n Q.
Proof.
  intros HQ. apply wp_bind, wp_try, wp_any. intros r k1 n1. apply wp_withdraw. intros. by apply HQ.
Qed.

(** [protect_sender] either leaves the tables alone, or approves the row with a capability that
    custody holds and that is owed to the receiver. *)
Lemma wp_protect_sender auth k n (Q : result unit VnidropError → Core V → nat → Prop) :
  (∀ e w n', Q (Err e) (put_vault w k) n') →
  (∀ r h w now n', targeted_transfers (k_tables k) !! au_transfer_id auth = Some r → c_role r = "sender"%string →
     is_Some (contents (secret_store w) !! h) →
     Q (Ok tt) (set_tables
       (on_deliveries <[au_transfer_id auth := {| o_created_at := now; o_next_attempt_at := now |}]>
         (on_transfers <[au_transfer_id auth := set_columns "approved" (c_verified_bytes r)
            (Some (au_blob_ticket auth)) (Some h) now r]> (k_tables k))) (put_vault w k)) n') →
  wp (protect_sender (ta_protected authority) auth) k n Q.
Proof.
  intros He Ho. assert (∀ e n', Q (Err e) k n') as He'.
  { intros e n'. rewrite <- (put_vault_id k). apply He. }
  apply wp_bind, wp_require_custody; [done|]. intros _.
  apply wp_bind, wp_of_result. destruct (auth_secret_material auth) as [material|]; [|done].
  apply wp_bind, wp_custody_protect; [done|]. intros h w n1 _ Hm.
  apply wp_bind, wp_try, wp_in_tables, wp_finalize_sender.
  - intros e n2. apply wp_roll_back. intros w' n3. apply He.
  - intros r now n2 Hr Hrole _. apply wp_ret, Ho; [done|done|by eexists].
Qed.

(** ** The offer *)

Section Offer.
Variable prepared : PreparedTargetedTransfer.
Abbreviation id := (pp_transfer_uuid prepared).
Abbreviation receiver := (pp_receiver_endpoint_id prepared).
Abbreviation pid := (pp_protocol_transfer_id prepared).

(** The receiver was asked for this transfer, and said yes. *)
Definition offer_accepted : Prop := ∃ n proof generation version,
  offer_reply n receiver (offer_of authority prepared proof generation version) = RpcReplied WireAccepted.

(** The receiver may read the payload; its capability is in custody and owed to it. *)
Record offer_granted k : Prop := {
  og_row : ∃ c h, targeted_transfers (k_tables k) !! id = Some c ∧ c_role c = "sender"%string ∧
    c_state c = "approved"%string ∧ c_blob_ticket c = Some (blob_ticket_text (pp_blob_ticket prepared)) ∧
    c_authorization_secret_handle c = Some h ∧ is_Some (contents (secret_store (vault (k_domain k))) !! h);
  og_owed : is_Some (authorization_delivery_outbox (k_tables k) !! id);
  og_session : approved_sessions (k_access k) !! (pid, receiver) = Some {| expires_at := None |}
}.

Lemma wp_meet_receiver k n (Q : result (WireProof * Z * Z) VnidropError → Core V → nat → Prop) :
  (∀ e k' n', unserved k' pid → Q (Err e) k' n') → (∀ proof k' n', Q (Ok proof) k' n') →
  wp (meet_receiver authority prepared) k n Q.
Proof.
  intros He Ho. apply wp_bind, wp_try, wp_any. intros [[]|e] k1 n1; [|by apply wp_abandon_offer; auto].
  apply wp_bind. unfold wp at 1, call. destruct (challenge_reply _ _ _) as [|rendered|challenge];
    [by apply wp_abandon_offer; auto..|].
  apply wp_bind, wp_try, wp_any. intros [proof|e] k2 n2; [by apply wp_ret|by apply wp_abandon_offer; auto].
Qed.

Lemma wp_submit_offer proof generation version k n (Q : result unit VnidropError → Core V → nat → Prop) :
  (∀ e k' n', unserved k' pid → Q (Err e) k' n') → (∀ k' n', offer_accepted → Q (Ok tt) k' n') →
  wp (submit_offer prepared (offer_of authority prepared proof generation version)) k n Q.
Proof.
  intros He Ho. apply wp_bind, wp_try, wp_any. intros [[]|e] k1 n1; [|by apply wp_withdraw; auto].
  apply wp_bind. unfold wp at 1, call.
  destruct (offer_reply n1 _ _) as [|rendered|[|reason|reason]] eqn:E; try (by apply wp_abandon_offer; auto).
  apply wp_ret, Ho. by exists n1, proof, generation, version.
Qed.

Lemma wp_authorize_receiver k n (Q : result unit VnidropError → Core V → nat → Prop) :
  (∀ e k' n', unserved k' pid → Q (Err e) k' n') → (∀ k' n', offer_granted k' → Q (Ok tt) k' n') →
  wp (authorize_receiver authority prepared) k n Q.
Proof.
  intros He Ho. apply wp_bind, wp_in_access, wp_modify. set (k1 := set_access _ k).
  assert (∀ e k' n', wp (match Err e : result unit VnidropError with
    | Ok _ => ret tt
    | Err error => try (E:=VnidropError) (in_tables (set_state_from_any id TFailed));; withdraw pid id error
    end) k' n' Q) as Hfail.
  { intros e k' n'. apply wp_bind, wp_try, wp_any. intros. apply wp_withdraw. auto. }
  apply wp_bind, wp_try, wp_bind, wp_bind. unfold wp at 1, in_domain, zoom, random. rewrite set_domain_id.
  apply wp_of_result. destruct (sign _) as [auth|e] eqn:Hs; [|apply Hfail].
  apply sign_Ok in Hs as (mac & _ & Ea). apply wp_protect_sender; [intros; apply Hfail|].
  intros r h w now n1 Hr Hrole Hh. apply wp_ret, Ho. subst auth. split; simpl.
  - eexists _, h. rewrite lookup_insert_eq. split_and!; try done.
  - rewrite lookup_insert_eq. eauto.
  - by rewrite lookup_insert_eq.
Qed.

(** C12: an offer ends with the payload withdrawn or with access properly granted. Whatever
    peers answer, whatever fails and whatever other handlers do meanwhile, [continue_targeted_transfer]
    returns success only if the receiver accepted an offer of exactly this transfer, its row is
    approved, the capability is in custody and still owed to the receiver, and the receiver has
    access until it is revoked. If it returns an error, either nobody can be served this
    transfer, or all of that holds and only reading the row back failed. *)
Theorem offer_ends_granted_or_withdrawn k n :
  wp (continue_targeted_transfer authority prepared) k n (λ r k' _,
    match r with
    | Ok transfer => tt_id transfer = id ∧ tt_state transfer = Approved ∧ offer_accepted ∧ offer_granted k'
    | Err _ => unserved k' pid ∨ offer_accepted ∧ offer_granted k'
    end).
Proof.
  apply wp_bind, wp_meet_receiver; [by auto|]. intros [[proof generation] version] k1 n1.
  apply wp_bind, wp_submit_offer; [by auto|]. intros k2 n2 Hacc.
  apply wp_bind, wp_authorize_receiver; [by auto|]. intros k3 n3 Hg. 
  pose proof (og_row _ Hg) as (c & h & Hc & _ & Hst & _).
  apply wp_bind, wp_in_tables, wp_bind, wp_query; [intros e; rewrite set_tables_id; by right|].
  apply wp_of_result. rewrite set_tables_id, Hc. simpl. rewrite Hst. simpl.
  destruct (parse_role (c_role c)) as [role|e]; simpl; [|by right].
  apply wp_ret. by split_and!.
Qed.
End Offer.

(** ** The preparation *)

(** Kept, but nobody has been let in. *)
Record reserved k (p : Z) (root : string) : Prop := {
  rv_mode : modes (k_access k) !! p = Some ApprovalRequired;
  rv_sessions e : approved_sessions (k_access k) !! (p, e) = None;
  rv_payload : owns k p root
}.

(** [decide] refuses everybody. *)
Definition nobody_admitted k (p : Z) : Prop := ∀ endpoint n,
  wp (decide_access (E:=VnidropError) p endpoint) (k_access k) n (λ r _ _, ∃ why, r = Ok (Deny why)).

Lemma unadmitted k p :
  modes (k_access k) !! p ≠ Some Public → (∀ e, approved_sessions (k_access k) !! (p, e) = None) →
  nobody_admitted k p.
Proof.
  intros Hm Hs endpoint n. apply wp_bind, wp_get. cbv zeta.
  destruct (modes (k_access k) !! p) as [[]|]; [done| |apply wp_ret; eauto].
  destruct endpoint as [e|]; [rewrite Hs|]; apply wp_ret; eauto.
Qed.

(** The row that is recorded for a prepared transfer. *)
Definition offering_row (prepared : PreparedTargetedTransfer) (c : TransferColumns) : Prop :=
  c_role c = "sender"%string ∧ c_state c = "offering"%string ∧
  c_sender_endpoint_id c = pp_sender_endpoint_id prepared ∧
  c_receiver_endpoint_id c = pp_receiver_endpoint_id prepared ∧
  c_protocol_transfer_id c = as_i64 (pp_protocol_transfer_id prepared) ∧
  c_content_hash c = blob_ticket_hash (pp_blob_ticket prepared) ∧
  c_transfer_name c = pp_payload_name prepared ∧ c_file_count c = as_i64 (pp_file_count prepared) ∧
  c_total_size c = as_i64 (pp_total_size prepared) ∧ c_verified_bytes c = 0 ∧
  c_blob_ticket c = None ∧ c_authorization_secret_handle c = None.

Lemma wp_register_sender row k n (Q : result unit VnidropError → Core V → nat → Prop) :
  tr_state row = Preparing →
  (∀ e t n', Q (Err e) (set_tables t k) n') →
  (∀ t now n', targeted_transfers t !! tr_id row = Some (set_state_columns "offering" now (row_columns row)) →
     Q (Ok tt) (set_tables t k) n') →
  wp (register_sender row) k n Q.
Proof.
  intros Hst He Ho. apply wp_bind, wp_in_tables, wp_insert_transfer_row; [intros; apply He|].
  intros _. apply wp_in_tables, wp_bind, wp_of_result. simpl. apply wp_bind, wp_now_ms, wp_bind.
  apply (wp_update_key (tr_id row)); [by intros; bool_simpl|intros; apply He| |].
  - intros Hno. apply wp_fail, He.
  - intros r Hr _. apply wp_ret, (Ho _ (clock (S n))). simpl in *. rewrite lookup_insert_eq in Hr.
    simplify_eq. by rewrite lookup_insert_eq.
Qed.

Lemma wp_keep_payload id p import k n (Q : result unit VnidropError → Core V → nat → Prop) :
  (∀ e n', Q (Err e) k n') →
  (∀ k' n', k_domain k' = k_domain k → targeted_tag_name id ∈ k_tags k' →
     modes (k_access k') = <[p := ApprovalRequired]> (modes (k_access k)) →
     approved_sessions (k_access k') = approved_sessions (k_access k) →
     owns k' p (ti_root_hash import) → (∀ q h, q ≠ p → owns k' q h ↔ owns k q h) → Q (Ok tt) k' n') →
  wp (keep_payload id p import) k n Q.
Proof.
  intros He Ho. apply wp_bind. unfold wp at 1, set_tag. destruct (set_tag_fault n); [apply He|].
  set (k1 := on_tags _ k).
  destruct (register_touches id p (ti_root_hash import :: ti_member_hashes import) k1) as [Ht Hown].
  apply wp_bind, wp_modify, wp_in_access, wp_modify. apply Ho; [done|set_solver|done|done|apply Hown; by left|].
  intros q h Hq. by apply (tc_owners _ _ _ _ Ht).
Qed.

(** From the kept payload to the row that is read back. *)
Lemma wp_register_prepared p root gate row k n (Q : result TargetedTransfer VnidropError → Core V → nat → Prop) :
  let pid := tr_protocol_transfer_id row in
  tr_state row = Preparing → (pid = p → reserved k p root) → (pid ≠ p → unserved k p) →
  (∀ e k' n', unserved k' p → Q (Err e) k' n') →
  (∀ r t c n', targeted_transfers t !! tr_id row = Some c →
     (∃ now, c = set_state_columns "offering" now (row_columns row)) →
     (∀ transfer, r = Ok transfer → tt_id transfer = tr_id row) → Q r (set_tables t k) n') →
  wp (register_prepared gate row) k n Q.
Proof.
  intros pid Hst Hr Hu He Ho. unfold register_prepared.
  assert (∀ t error n', wp (withdraw (A:=TargetedTransfer) (tr_protocol_transfer_id row) (tr_id row) error)
    (set_tables t k) n' Q) as Hout.
  { intros t error n'. apply wp_withdraw. intros k' n'' Ht _ Hw. apply He.
    destruct (decide (pid = p)) as [<-|Hne]; [done|]. eapply withheld_touches; [exact Ht|by intros E; apply Hne|].
    by destruct (Hu Hne). }
  case_bool_decide; [rewrite <- (set_tables_id k); apply Hout|].
  apply wp_bind, wp_try, wp_register_sender; [done|intros; apply Hout|]. intros t now n1 Hc.
  assert (∃ now', set_state_columns "offering" now (row_columns row) =
                  set_state_columns "offering" now' (row_columns row)) as Hnow by eauto.
  revert Hc Hnow. generalize (set_state_columns "offering" now (row_columns row)). intros c Hc Hnow.
  apply wp_bind, wp_in_tables, wp_bind, wp_query; [by intros e; eapply Ho|].
  apply wp_of_result. cbn [k_tables set_tables]. rewrite Hc. simpl.
  destruct (parse_role _) as [role|e]; simpl; [|by eapply Ho].
  destruct (parse_targeted_state _) as [state|e]; simpl; [|by eapply Ho].
  apply wp_ret. eapply Ho; [exact Hc|done|]. by intros ? [= <-].
Qed.

(** C11: preparing a transfer lets nobody in. Take any number [p] under which nothing is
    served, and that the other handlers leave so. However [prepare_targeted_transfer] ends,
    nobody who asks for the content of transfer [p] is admitted. If it returns, the receiver was
    a saved device, the number of sources, the name that was given and the total size were within
    the limits, the row of exactly this transfer is waiting to be offered with no capability, and
    the payload is kept by its tag and reserved under the number of the transfer. If it fails,
    nothing is registered under [p], or its row was recorded and only reading it back failed. *)
Theorem preparation_admits_nobody p receiver sources name gate k n
  (Hothers : ∀ n k, unserved k p → unserved (between n k) p) (Hp : unserved k p) :
  wp (prepare_targeted_transfer authority receiver sources name gate) k n (λ r k' _,
    nobody_admitted k' p ∧
    match r with
    | Ok (transfer, prepared) =>
        saved_peer k receiver ∧ pp_receiver_endpoint_id prepared = receiver ∧
        pp_sender_endpoint_id prepared = ta_local_endpoint_id authority ∧
        0 < Z.of_nat (length sources) ≤ max_sources (ta_limits authority) ∧
        (∀ text, name = Some text → str_len text ≤ max_metadata_bytes (ta_limits authority)) ∧
        pp_total_size prepared ≤ max_total_bytes (ta_limits authority) ∧
        tt_id transfer = pp_transfer_uuid prepared ∧
        (∃ c, targeted_transfers (k_tables k') !! pp_transfer_uuid prepared = Some c ∧ offering_row prepared c) ∧
        targeted_tag_name (pp_transfer_uuid prepared) ∈ k_tags k' ∧
        (pp_protocol_transfer_id prepared = p → ∃ root, reserved k' p root)
    | Err _ => unserved k' p ∨
        ∃ id c, targeted_transfers (k_tables k') !! id = Some c ∧ c_state c = "offering"%string ∧
          c_protocol_transfer_id c = as_i64 p
    end).
Proof.
  set (Q := λ r k' (_ : nat), _).
  assert (∀ e k' n', unserved k' p → Q (Err e) k' n') as He.
  { intros e k' n' Hu. split; [|by left]. destruct Hu. apply unadmitted; congruence. }
  apply wp_bind, wp_require_saved; [by auto|]. intros n1 Hsaved.
  apply wp_bind, wp_allocate_ids; [by auto|]. intros uuid n2. set (pid := allocate_protocol_transfer_id uuid).
  apply wp_bind, wp_now_ms, wp_bind, wp_of_result. unfold check_sources.
  case_bool_decide as Hempty; [by apply He|].
  destruct (Z.ltb_spec (max_sources (ta_limits authority)) (Z.of_nat (length sources))); [by apply He|].
  destruct (result_map_err _ (validate_metadata_text _ _ _)) as [[]|e] eqn:Hname; [|by apply He].
  apply wp_bind, (wp_import (λ k, unserved k p)); [done|done|by auto|]. intros import k1 n3 Hu1 Hsize.
  apply wp_bind. unfold wp at 1, new_blob_ticket.
  apply wp_bind, wp_keep_payload; [by auto|]. intros k2 n4 _ Htag Hmodes Hsessions Hown Hothers2.
  set (row := sender_row _ _ _ _ _ _ _ _).
  assert (∀ e, approved_sessions (k_access k2) !! (p, e) = None) as Hs2.
  { intros e. rewrite Hsessions. apply Hu1. }
  assert (pid = p → reserved k2 p (ti_root_hash import)) as Hres.
  { intros <-. split; [by rewrite Hmodes, lookup_insert_eq|done|done]. }
  assert (pid ≠ p → unserved k2 p) as Hun.
  { intros Hne. destruct Hu1 as [U1 U2 U3]. split; [by rewrite Hmodes, lookup_insert_ne|done|].
    intros h Ho. by apply (U3 h), Hothers2. }
  assert (modes (k_access k2) !! p ≠ Some Public) as Hm2.
  { destruct (decide (pid = p)) as [E|E]; [by rewrite (rv_mode _ _ _ (Hres E))|by rewrite (wh_mode _ _ (Hun E))]. }
  apply wp_bind, (wp_register_prepared p (ti_root_hash import)); [done|exact Hres|exact Hun|by auto|].
  intros [transfer|e] t c n5 Hc (now & Ec) Hid; [apply wp_ret|]; (split; [by apply unadmitted|]).
  - split_and!; try done; try (simpl; lia).
    + destruct sources; [done|simpl; lia].
    + intros text ->. simpl in Hname. destruct (Z.ltb_spec (max_metadata_bytes (ta_limits authority)) (str_len text)); [done|lia].
    + by apply Hid.
    + exists c. split; [exact Hc|]. subst c. by split_and!.
    + intros E. destruct (Hres E). by eexists.
  - destruct (decide (pid = p)) as [E|E]; [right|left; by destruct (Hun E)].
    exists uuid, c. subst c. split_and!; [exact Hc|done|]. simpl. by rewrite <- E.
Qed.
End Create.

(** ** Witnesses *)

Section Witnesses.
#[local] Existing Instances device_env device_text device_host device_blake3 device_network.
#[local] Existing Instances demo_base64 demo_urls demo_addressing demo_ticket_codec auth_codec alone.
#[local] Existing Instances silent_peers full_store plain_hash one_photo plain_importer accepting.

Definition demo_prepare := prepare_targeted_transfer (demo_authority "alice") "bob" [demo_photo] None None.
Definition demo_continue := continue_targeted_transfer (demo_authority "alice") demo_prepared.

Lemma preparation_admits_nobody_witness :
  let p := allocate_protocol_transfer_id "uuid" in
  match Sql.run demo_prepare demo_sending with
  | (Ok (transfer, prepared), k') =>
      pp_protocol_transfer_id prepared = p ∧ pp_total_size prepared = 10 ∧ nobody_admitted k' p
  | _ => False
  end.
Proof.
  intros p. pose proof (preparation_admits_nobody (demo_authority "alice") p "bob" [demo_photo] None None
    demo_sending 0 (λ _ _ Hu, Hu)) as Hprep. unfold wp in Hprep. unfold Sql.run, demo_prepare.
  assert (match (prepare_targeted_transfer (demo_authority "alice") "bob" [demo_photo] None None demo_sending 0%nat).1.1 with
          | Ok (_, prepared) => pp_protocol_transfer_id prepared = p ∧ pp_total_size prepared = 10
          | Err _ => False end) as E by (vm_compute; by split).
  revert E Hprep. destruct (prepare_targeted_transfer _ _ _ _ _ _ _) as [[[[transfer prepared]|e] k'] n']; simpl; [|done].
  intros [E1 E2] Hprep. split_and!; [done|done|]. apply Hprep. split; [done|done|].
  by intros h (o & Ho & _).
Defined.

(** Bob accepts; or he cannot be told. *)
Definition demo_granted := Sql.run demo_continue (demo_after demo_sending (PrepareTransfer "bob" [demo_photo] None None)).

Lemma offer_ends_granted_or_withdrawn_witness :
  (∃ transfer, demo_granted.1 = Ok transfer) ∧ offer_granted demo_prepared demo_granted.2.
Proof.
  pose proof (run_wp demo_continue _ (λ r k', match r with Ok _ => _ | Err _ => _ end)
    (offer_ends_granted_or_withdrawn (demo_authority "alice") demo_prepared
       (demo_after demo_sending (PrepareTransfer "bob" [demo_photo] None None)) 0)) as Hend.
  fold demo_granted in Hend.
  assert (∃ transfer, demo_granted.1 = Ok transfer) as [transfer E] by (vm_compute; eauto).
  split; [eauto|]. cbn beta in Hend. rewrite E in Hend. apply Hend.
Defined.
End Witnesses.

Section Numbers.
#[local] Existing Instances device_text device_host device_blake3 device_network.
#[local] Existing Instances demo_base64 demo_urls demo_addressing demo_ticket_codec auth_codec alone plain_hash.
#[local] Instance many_uuids : Env := quiet_env 1000 (λ n, if Nat.eqb n 0 then "a" else if Nat.eqb n 1 then "b" else "c")%string.

Lemma find_ids_enough_witness :
  (find_ids 1 demo_sending 0%nat).1.1 ≠ Ok None ∧ (find_ids 1 demo_sending 0%nat).1.2 = demo_sending.
Proof.
  assert (distinct_numbers 0 3) as Hd.
  { intros i j Hi Hj. assert (i = 0 ∨ i = 1 ∨ i = 2)%nat as Hi' by lia.
    assert (j = 0 ∨ j = 1 ∨ j = 2)%nat as Hj' by lia.
    destruct Hi' as [->|[->| ->]], Hj' as [->|[->| ->]]; vm_compute; done. }
  pose proof (find_ids_enough demo_sending 0 Hd) as Hids. unfold wp in Hids.
  assert (S (size (transfers (k_history demo_sending)) + size (targeted_transfers (k_tables demo_sending))) = 1%nat)
    as Esize by (vm_compute; reflexivity).
  rewrite Esize in Hids. destruct (find_ids 1 demo_sending 0%nat) as [[r k'] n']. simpl.
  by destruct Hids as (-> & Hr & _).
Defined.
End Numbers.
