(* ===== verification/IdentityRecovery.v ===== *)
(** * [identity_recovery.rs], [runtime/identity_recovery.rs]: giving up a lost identity

    When the protected identity of the endpoint is missing or corrupted the user may ask for a
    new one. One transaction over the tables of every component revokes whatever was bound to
    the old identity and keeps the finished history; then the credential store is emptied of the
    secrets the tables knew, and the core starts again ([start_endpoint_identity] of [SecureSecret.v]). *)

From S2P Require Import Prelude Sql ControlPlane Errors States Api TargetedStore Access Invitation Inbox SecureSecret Relationship Pairing Core.

Section IdentityRecovery.
Context `{Env} `{ForeignText} `{Host} {V : Type} `{SecureSecretStore V}.

Abbreviation IO := (M (Core V) VnidropError).

(** *** The statements *)

Definition select_core {A} (f : Core V → A) : IO A := sql (λ k, Ok (f k, k)).
Definition update_core (f : Core V → Core V) : IO unit := sql (λ k, Ok (tt, f k)).

Definition live_statuses : list string := ["sharing"; "importing"; "receiving"]%string.

Definition reset_transfer (now : Z) (r : TransferRow) : TransferRow := {|
  t_local_id := t_local_id r; t_protocol_transfer_id := t_protocol_transfer_id r;
  t_peer_id := t_peer_id r; t_direction := t_direction r;
  t_status := if str_eqb (t_status r) "sharing" then "stopped"
              else if str_in (t_status r) ["importing"; "receiving"] then "cancelled" else t_status r;
  t_transfer_name := t_transfer_name r; t_sender_name := t_sender_name r;
  t_content_hash := t_content_hash r;
  t_ticket := if str_in (t_status r) live_statuses then None else t_ticket r;
  t_file_count := t_file_count r; t_total_size := t_total_size r; t_access_mode := t_access_mode r;
  t_created_at := t_created_at r;
  t_updated_at := if str_in (t_status r) live_statuses then now else t_updated_at r |}%string.

Definition reset_request (now : Z) (q : RequestRow) : RequestRow :=
  set_request (if str_eqb (q_status q) "requested" then "expired" else "failed")%string
    (Some "device identity reset"%string) (Some (default now (q_responded_at q)))
    (q_receipt_token_hash q) (q_completed_at q) q.

Definition unfinished_texts : list string := preapproval_texts ++ resumable_texts.

Definition reset_targeted (now : Z) (r : TransferColumns) : TransferColumns :=
  let unfinished := str_in (c_state r) unfinished_texts in
  set_columns (if unfinished then "cancelled" else c_state r)%string (c_verified_bytes r) None None
    (if unfinished || bool_decide (c_blob_ticket r ≠ None) ||
        bool_decide (c_authorization_secret_handle r ≠ None)
     then now else c_updated_at r) r.

Definition on_k_history (f : History → History) (k : Core V) : Core V := set_history (f (k_history k)) k.
Definition on_k_tables (f : Tables → Tables) (k : Core V) : Core V := set_tables (f (k_tables k)) k.
Definition on_k_domain (f : Domain V → Domain V) (k : Core V) : Core V := set_domain (f (k_domain k)) k.

(** [DELETE FROM t], for each of the tables. *)
Definition clear_outboxes : IO unit :=
  for_each [on_intents (λ _, ∅); on_deliveries (λ _, ∅); on_completions (λ _, ∅); on_releases (λ _, ∅)]
    (λ f, update_core (on_k_tables f)).

Definition clear_trust : IO unit :=
  for_each
    [(λ d, {| devices := devices d; eligibilities := ∅; blocked := blocked d; vault := vault d |});
     (λ d, set_devices {| relationships := ∅; tombstones := tombstones (devices d) |} d);
     (λ d, set_devices {| relationships := relationships (devices d); tombstones := ∅ |} d);
     (λ d, set_vault (on_refs (λ _, ∅) (vault d)) d)]
    (λ f, update_core (on_k_domain f)).

Definition reset_identity_bound_state : IO (list SecretHandle) :=
  now ← now_ms;
  sql_tx (
    handles ← select_core (λ k, (order_by by_handle (map_to_list (secret_refs (vault (k_domain k))))).*1);
    update_core (on_k_history (on_history
      (update_where (λ _ r, str_in (t_status r) live_statuses) (λ _, reset_transfer now))));;
    update_core (on_k_history (on_requests
      (update_where (λ _ q, str_in (q_status q) ["requested"; "accepted"]%string) (λ _, reset_request now))));;
    update_core (on_k_history (on_receipts (λ _, ∅)));;
    clear_outboxes;;
    update_core (on_k_tables (on_transfers (update_where (λ _ _, true) (λ _, reset_targeted now))));;
    clear_trust;;
    ret handles).

(** *** [reset_unrecoverable_identity_with_store] *)

Definition reset_unrecoverable_identity : IO unit :=
  in_custody_of require_unrecoverable_endpoint_identity;;
  handles ← reset_identity_bound_state;
  in_custody_of (delete_reset_handles handles).
End IdentityRecovery.

(** ** What a reset does *)

(** Nothing is left with which this device, or a peer, could go on under the old identity. *)
Record identity_forgotten {V} (k : Core V) : Prop := {
  if_relationships : relationships (devices (k_domain k)) = ∅;
  if_tombstones : tombstones (devices (k_domain k)) = ∅;
  if_eligibilities : eligibilities (k_domain k) = ∅;
  if_refs : secret_refs (vault (k_domain k)) = ∅;
  if_intents : accepted_offer_intents (k_tables k) = ∅;
  if_deliveries : authorization_delivery_outbox (k_tables k) = ∅;
  if_completions : completion_outbox (k_tables k) = ∅;
  if_releases : payload_release_outbox (k_tables k) = ∅;
  if_receipts : pending_delivery_receipts (k_history k) = ∅;
  if_targeted id c : targeted_transfers (k_tables k) !! id = Some c →
    (c_state c ∉ unfinished_texts) ∧ c_blob_ticket c = None ∧ c_authorization_secret_handle c = None;
  if_transfers id r : transfers (k_history k) !! id = Some r → t_status r ∉ live_statuses;
  if_requests id q : receiver_requests (k_history k) !! id = Some q →
    q_status q ∉ ["requested"; "accepted"]%string
}.

(** What is finished stays, and what was not moves along its lifecycle. *)
Record history_kept {V} (k k' : Core V) : Prop := {
  hk_blocked : blocked (k_domain k') = blocked (k_domain k);
  hk_artifacts : received_artifacts (k_history k') = received_artifacts (k_history k);
  hk_events : transfer_events (k_history k') = transfer_events (k_history k);
  hk_lifecycle : history_evolves false (k_history k) (k_history k');
  hk_finished id r : transfers (k_history k) !! id = Some r → t_status r ∉ live_statuses →
    transfers (k_history k') !! id = Some r;
  hk_targeted : rows_lift row_evolves (k_tables k) (k_tables k');
  hk_done id c : targeted_transfers (k_tables k) !! id = Some c → c_state c ∉ unfinished_texts →
    ∃ c', targeted_transfers (k_tables k') !! id = Some c' ∧ c_state c' = c_state c ∧
      c_verified_bytes c' = c_verified_bytes c
}.

(** *** The rows *)

Lemma reset_transfer_evolves now r :
  str_in (t_status r) live_statuses = true → transfer_evolves false r (reset_transfer now r).
Proof.
  intros Hl. apply str_in_elem in Hl. split; [done|]. intros s Hs.
  assert (∃ s', t_status (reset_transfer now r) = status_as_str s' ∧ can_transition_to s s' = true)
    as (s' & E & Hc).
  { unfold reset_transfer. cbn [t_status]. rewrite Hs in *. unfold live_statuses in Hl.
    rewrite !elem_of_cons, elem_of_nil in Hl.
    destruct Hl as [Hl|[Hl|[Hl|[]]]]; rewrite Hl; simpl.
    - exists Stopped. split; [done|]. by rewrite (status_as_str_inj s Sharing Hl).
    - exists StatusCancelled. split; [done|]. by rewrite (status_as_str_inj s Importing Hl).
    - exists StatusCancelled. split; [done|]. by rewrite (status_as_str_inj s Receiving Hl). }
  exists s'. split; [done|]. apply rtc_once. by left.
Qed.

Lemma reset_request_evolves now q :
  str_in (q_status q) ["requested"; "accepted"]%string = true → request_evolves q (reset_request now q).
Proof.
  intros Hl%str_in_elem. rewrite !elem_of_cons, elem_of_nil in Hl. unfold reset_request.
  destruct Hl as [Hl|[Hl|[]]]; rewrite Hl; simpl; [by apply requested_evolves|].
  apply accepted_evolves; [done|set_solver].
Qed.

Lemma unfinished_not_terminal state : str_in state unfinished_texts = true → str_in state terminal_texts = false.
Proof.
  intros Hu%str_in_elem. unfold unfinished_texts, preapproval_texts, resumable_texts in Hu. simpl in Hu.
  repeat (apply elem_of_cons in Hu as [->|Hu]; [done|]). by apply elem_of_nil in Hu.
Qed.

Lemma reset_targeted_evolves now c : row_evolves c (reset_targeted now c).
Proof.
  unfold reset_targeted. destruct (str_in (c_state c) unfinished_texts) eqn:E.
  - by apply row_set_cancelled, unfinished_not_terminal.
  - apply row_evolves_set. intros s Hs. exists s. split; [done|reflexivity].
Qed.

(** *** The transaction *)

Section Reset.
Context `{Env} `{ForeignText} `{Host} {V : Type} `{!SecureSecretStore V} `{!SecureSecretStoreLaws V}.
Implicit Types (k : Core V).

Lemma wp_update_core (f : Core V → Core V) k n Q :
  (∀ e n', Q (Err e) k n') → (∀ n', Q (Ok tt) (f k) n') → wp (update_core f) k n Q.
Proof. intros He Ho. apply wp_sql; [done|]. by intros _ [] k' [= <-]. Qed.

Lemma wp_select_core {A} (f : Core V → A) k n Q :
  (∀ e n', Q (Err e) k n') → (∀ n', Q (Ok (f k)) k n') → wp (select_core f) k n Q.
Proof. intros He Ho. apply wp_sql; [done|]. by intros _ a k' [= <- <-]. Qed.

Lemma live_updated now (t : gmap Z TransferRow) id r :
  update_where (λ _ r, str_in (t_status r) live_statuses) (λ _, reset_transfer now) t !! id = Some r →
  t_status r ∉ live_statuses.
Proof.
  rewrite lookup_update_where. intros (r0 & _ & ->)%fmap_Some.
  destruct (str_in (t_status r0) live_statuses) eqn:E; [|by rewrite <- str_in_elem, E].
  apply str_in_elem in E. unfold live_statuses in *. rewrite !elem_of_cons, elem_of_nil in E.
  unfold reset_transfer. cbn [t_status]. destruct E as [->|[->|[->|[]]]]; simpl; set_solver.
Qed.

Lemma asked_updated now (t : gmap string RequestRow) id q :
  update_where (λ _ q, str_in (q_status q) ["requested"; "accepted"]%string) (λ _, reset_request now) t !! id = Some q →
  q_status q ∉ ["requested"; "accepted"]%string.
Proof.
  rewrite lookup_update_where. intros (q0 & _ & ->)%fmap_Some.
  destruct (str_in (q_status q0) _) eqn:E; [|by rewrite <- str_in_elem, E].
  apply str_in_elem in E. rewrite !elem_of_cons, elem_of_nil in E.
  unfold reset_request. destruct E as [->|[->|[]]]; simpl; set_solver.
Qed.

Lemma targeted_updated now (t : gmap string TransferColumns) id c :
  update_where (λ _ _, true) (λ _, reset_targeted now) t !! id = Some c →
  (c_state c ∉ unfinished_texts) ∧ c_blob_ticket c = None ∧ c_authorization_secret_handle c = None.
Proof.
  rewrite lookup_update_where. intros (c0 & _ & ->)%fmap_Some. split; [|done].
  unfold reset_targeted. simpl. destruct (str_in (c_state c0) unfinished_texts) eqn:E.
  - unfold unfinished_texts. simpl. set_solver.
  - by rewrite <- str_in_elem, E.
Qed.

(** The whole transaction, or nothing of it. *)
Lemma wp_reset_state k n :
  wp reset_identity_bound_state k n (λ r k' _,
    match r with
    | Ok handles => identity_forgotten k' ∧ history_kept k k' ∧
        secret_store (vault (k_domain k')) = secret_store (vault (k_domain k)) ∧
        legacy_identity (vault (k_domain k')) = legacy_identity (vault (k_domain k)) ∧
        ∀ h, h ∈ handles ↔ is_Some (secret_refs (vault (k_domain k)) !! h)
    | Err _ => k' = k
    end).
Proof.
  apply wp_bind, wp_now_ms, wp_sql_tx; [done|]. set (now := clock n).
  apply wp_bind, wp_select_core; [done|]. intros n1. do 3 (apply wp_bind, wp_update_core; [done|]; intros ?).
  apply wp_bind. do 4 (apply wp_bind, wp_update_core; [done|]; intros ?). apply wp_ret.
  apply wp_bind, wp_update_core; [done|]. intros n9.
  apply wp_bind. do 4 (apply wp_bind, wp_update_core; [done|]; intros ?). apply wp_ret, wp_ret.
  split; [|split; [|split_and!; [done|done|]]].
  - split; simpl; try done; [apply targeted_updated|apply live_updated|apply asked_updated].
  - split; simpl; try done.
    + split; (apply map_lift_update; [apply _|]); intros ? ? ?;
        [by apply reset_transfer_evolves|by apply reset_request_evolves].
    + intros id r Hr Hn. rewrite lookup_update_where, Hr. simpl.
      destruct (str_in (t_status r) live_statuses) eqn:E; [|done]. by apply str_in_elem in E.
    + apply map_lift_update; [apply _|]. intros id c _. apply reset_targeted_evolves.
    + intros id c Hc Hn. eexists. rewrite lookup_update_where, Hc. split; [done|]. split; [|done].
      unfold reset_targeted. simpl. destruct (str_in (c_state c) unfinished_texts) eqn:E; [|done].
      by apply str_in_elem in E.
  - intros h. rewrite list_elem_of_fmap. split.
    + intros ([h' r] & -> & Hin). apply elem_of_order_by, elem_of_map_to_list in Hin. by eexists.
    + intros [r Hr]. exists (h, r). by rewrite elem_of_order_by, elem_of_map_to_list.
Qed.

(** *** Custody *)

Abbreviation secrets k := (contents (secret_store (vault (k_domain k)))).

(** The identity can still be read: the store hands out its material, which is valid. The index
    of the table admits one live identity. *)
Definition identity_usable k : Prop :=
  (count_where live_endpoint (secret_refs (vault (k_domain k))) ≤ 1)%nat ∧
  ∃ h r material, secret_refs (vault (k_domain k)) !! h = Some r ∧ live_endpoint h r = true ∧
    (get_secret h (secret_store (vault (k_domain k)))).1 = Returned (Ok material) ∧
    validate_material EndpointIdentity material (rf_expected_identity r) = Ok tt.

(** Only the credential store was asked. *)
Definition asked (w w' : Vault V) : Prop :=
  ∃ v, contents v = contents (secret_store w) ∧ w' = set_store v w.

#[local] Instance asked_preorder : PreOrder asked.
Proof.
  split.
  - intros w. exists (secret_store w). split; [done|]. by destruct w.
  - intros w1 w2 w3 (v & Ev & ->) (v' & Ev' & ->). exists v'. by rewrite Ev', <- Ev.
Qed.

Lemma within_require_asked : within asked require_unrecoverable_endpoint_identity.
Proof.
  intros w n. apply wp_bind, wp_list_metadata; [done|]. intros entries n1 _ _ _.
  apply (within_for_each asked). intros entry w1 n2. apply wp_bind, wp_store_get_raw.
  intros v Hv. assert (asked w1 (set_store v w1)) as Ha by (by exists v).
  split; [done|]. split; [intros []; by apply wp_ret || by apply wp_fail|].
  intros m _. destruct (is_ok _); [by apply wp_fail|by apply wp_ret].
Qed.

Lemma live_unique (refs : gmap SecretHandle RefRow) h h' r r' :
  (count_where live_endpoint refs ≤ 1)%nat → refs !! h = Some r → live_endpoint h r = true →
  refs !! h' = Some r' → live_endpoint h' r' = true → h' = h.
Proof.
  intros Hc Hr Hl Hr' Hl'. destruct (decide (h' = h)) as [|Hne]; [done|exfalso].
  assert (rows_where live_endpoint refs !! h = Some r) as Hw by (by apply lookup_rows_where).
  assert (is_Some (rows_where live_endpoint refs !! h)) as Hsome by eauto.
  pose proof (map_size_delete_Some h (rows_where live_endpoint refs) Hsome) as Hs. unfold count_where in Hc.
  assert (delete h (rows_where live_endpoint refs) = ∅) as Hd by (apply map_size_empty_iff; lia).
  apply (f_equal (lookup h')) in Hd. rewrite lookup_delete_ne, lookup_empty in Hd by done.
  assert (rows_where live_endpoint refs !! h' = Some r') as Hw' by (by apply lookup_rows_where). congruence.
Qed.

(** The check refuses while the identity can be read. *)
Lemma wp_require_refuses k n :
  identity_usable k →
  wp require_unrecoverable_endpoint_identity (vault (k_domain k)) n (λ r _ _, ∃ e, r = Err e).
Proof.
  intros (Hone & h & r & m & Hr & Hl & Hm & Hvalid). set (w := vault (k_domain k)) in *.
  pose proof Hl as [Hkind Hlive]%live_endpoint_true.
  apply wp_bind, wp_list_metadata; [by eauto|]. intros entries n1 _ Hall Hd.
  assert (∀ x, x ∈ filter (λ entry, sm_kind entry = EndpointIdentity ∧ sm_state entry ≠ Disabled) entries →
    sm_handle x = h ∧ sm_expected_identity x = rf_expected_identity r) as Honly.
  { intros x [[Hxk Hxs] Hx]%list_elem_of_filter. destruct (Hd x Hx) as (r' & Hr' & Hrow).
    apply row_to_metadata_Ok in Hrow as (_ & Ek & Es & Ei).
    assert (sm_handle x = h) as Eh.
    { apply (live_unique (secret_refs w) h (sm_handle x) r r'); [done..|].
      apply live_endpoint_true. rewrite Ek, Es, Hxk. split; [done|]. by destruct (sm_state x). }
    split; [done|]. rewrite Eh, Hr in Hr'. congruence. }
  assert (∃ x, x ∈ filter (λ entry, sm_kind entry = EndpointIdentity ∧ sm_state entry ≠ Disabled) entries) as [x0 Hx0].
  { assert (h ∈ sm_handle <$> entries) as (entry & Eh & Hin)%list_elem_of_fmap by (apply Hall; eauto).
    exists entry. apply list_elem_of_filter. split; [|done]. destruct (Hd entry Hin) as (r' & Hr' & Hrow).
    apply row_to_metadata_Ok in Hrow as (_ & Ek & Es & _). rewrite <- Eh, Hr in Hr'. simplify_eq.
    rewrite Hkind in Ek. split; [by destruct (sm_kind entry)|]. intros E. apply Hlive. by rewrite Es, E. }
  destruct (filter _ entries) as [|x rest]; [by apply elem_of_nil in Hx0|].
  destruct (Honly x) as [Eh Ei]; [by left|]. cbn [for_each]. apply wp_bind, wp_bind, wp_spawn_blocking; [|eauto].
  rewrite Eh, Hm. intros res [= <-]. rewrite Ei, Hvalid. apply wp_fail. eauto.
Qed.

(** Deleting takes secrets away, and after a success those of the handles are gone. *)
Lemma wp_delete_handles handles w n :
  wp (delete_reset_handles handles) w n (λ r w' _, secret_refs w' = secret_refs w ∧
    (r = Ok tt → ∀ h, h ∈ handles → contents (secret_store w') !! h = None)).
Proof.
  apply (wp_for_each (λ rest w', secret_refs w' = secret_refs w ∧
    ∀ h, h ∈ handles → h ∉ rest → contents (secret_store w') !! h = None)).
  - split; [done|]. by intros h Hin Hn.
  - intros h rest w1 n1 [E Hgone]. apply wp_delete_if_present. intros v Hother Honly. split; [by split|].
    intros Hnone. split; [done|]. intros h' Hin Hn. simpl. destruct (decide (h' = h)) as [->|Hne]; [done|].
    rewrite Hother by done. apply Hgone; [done|]. by apply not_elem_of_cons.
  - intros w1 n1 [E Hgone]. split; [done|]. intros _ h Hin. apply Hgone; [done|apply not_elem_of_nil].
Qed.

(** At the next start the store is emptied of what a crash left behind. *)
Lemma wp_reconcile_forgotten k n :
  identity_forgotten k →
  wp (in_custody_of reconcile) k n (λ r k' _, is_ok r = true →
    identity_forgotten k' ∧ ∀ h, secrets k' !! h = None).
Proof.
  intros Hf. apply wp_in_custody_of. eapply wp_mono; [apply wp_reconcile|].
  intros [summary|e] w n' [_ Hok] ?; [|done]. destruct (Hok summary eq_refl) as (Hdom & _ & Hrow & _).
  assert (secret_refs w = ∅) as Ew.
  { apply (dom_empty_iff_L (D:=gset SecretHandle)). by rewrite Hdom, (if_refs _ Hf), dom_empty_L. }
  split; [by destruct Hf|]. intros h. simpl. apply eq_None_not_Some. intros [r Hr]%Hrow.
  by rewrite Ew, lookup_empty in Hr.
Qed.

(** C13: giving up a lost identity is all or nothing, and complete. Whatever fails or
    crashes, [reset_unrecoverable_identity] either changed no table at all, or it revoked every
    relationship, pairing, capability, outbox and unfinished transfer in one transaction and
    kept the deny list, the artifacts, the events and whatever was finished. If it returns, the
    credential store holds none of the secrets the tables knew; if it was interrupted before
    that, the reconciliation of the next start removes them. An identity that the credential
    store still hands out is never given up. *)
Theorem identity_reset_forgets k n :
  wp reset_unrecoverable_identity k n (λ r k' _,
    (r = Ok tt → identity_forgotten k' ∧ history_kept k k' ∧
       ∀ h, is_Some (secret_refs (vault (k_domain k)) !! h) → secrets k' !! h = None) ∧
    (identity_forgotten k' ∧ history_kept k k' ∨ ∃ w, asked (vault (k_domain k)) w ∧ k' = put_vault w k) ∧
    (identity_usable k →
       r ≠ Ok tt ∧ ∃ w, asked (vault (k_domain k)) w ∧ k' = put_vault w k) ∧
    (identity_forgotten k' → ∀ n', wp (in_custody_of reconcile) k' n' (λ r2 k2 _, is_ok r2 = true →
       identity_forgotten k2 ∧ ∀ h, secrets k2 !! h = None))).
Proof.
  eapply wp_mono with (Q := λ r k' _, _ ∧ _ ∧ _).
  2:{ intros r k' n' (A1 & A2 & A3). split; [exact A1|]. split; [exact A2|]. split; [exact A3|].
      intros Hf n2. by apply wp_reconcile_forgotten. }
  apply wp_bind, wp_in_custody_of. unfold wp at 1.
  pose proof (within_require_asked (vault (k_domain k)) n) as Hasked.
  assert (identity_usable k →
    ∃ e, (require_unrecoverable_endpoint_identity (vault (k_domain k)) n).1.1 = Err e) as Href.
  { intros Hu. pose proof (wp_require_refuses k n Hu) as Hw. unfold wp in Hw.
    by destruct (require_unrecoverable_endpoint_identity _ _) as [[??]?]. }
  unfold wp in Hasked. destruct (require_unrecoverable_endpoint_identity _ _) as [[r w] n1]. simpl in Href.
  set (k1 := put_vault w k) in *. destruct r as [[]|e].
  2:{ split; [done|]. split; [right; by exists w|]. intros _. split; [done|]. by exists w. }
  assert (identity_usable k → False) as Hno by (intros Hu; destruct (Href Hu); done).
  assert (∀ k', history_kept k1 k' → history_kept k k') as Hkept by (intros k' []; by split).
  assert (secret_refs w = secret_refs (vault (k_domain k))) as Erefs by (by destruct Hasked as (v & _ & ->)).
  apply wp_bind. eapply wp_mono; [apply wp_reset_state|]. intros [handles|e] k2 n2.
  2:{ intros ->. split; [done|]. split; [right; by exists w|]. intros; exfalso; eauto. }
  intros (Hf & Hk & _ & _ & Hhandles). apply wp_in_custody_of. eapply wp_mono; [apply wp_delete_handles|].
  intros r w' n3 [Ew Hgone]. set (k3 := put_vault w' k2).
  assert (identity_forgotten k3) as Hf3.
  { destruct Hf as [F1 F2 F3 F4 F5 F6 F7 F8 F9 F10 F11 F12]. split; try done. simpl. by rewrite Ew. }
  assert (history_kept k k3) as Hk3 by (apply Hkept; destruct Hk; by split).
  split; [|split; [by left|intros; exfalso; eauto]].
  intros E. split; [done|]. split; [done|]. intros h Hh. apply Hgone; [done|]. apply Hhandles.
  simpl. by rewrite Erefs.
Qed.
End Reset.

(** ** Witness *)

Section Witness.
#[local] Instance lost_env : Env := quiet_env 1000 (λ _, "uuid"%string).
#[local] Existing Instance demo_text.
#[local] Instance lost_host : Host := {|
  public_id b := ("id-" +:+ b)%string; fresh_key _ := "0123456789abcdef0123456789abcdef"%string;
  hexlower_decode _ := None; fs_fault _ := None; polls _ := 3%nat; others _ rows := rows |}.

(** The key of the identity is gone; the grant of a saved device and a share that is running are
    still there. *)
Definition lost_share : TransferRow := {|
  t_local_id := "l"; t_protocol_transfer_id := 7; t_peer_id := None; t_direction := "send"; t_status := "sharing";
  t_transfer_name := None; t_sender_name := None; t_content_hash := Some "h"%string; t_ticket := Some "t"%string;
  t_file_count := 1; t_total_size := 10; t_access_mode := "public"; t_created_at := 1; t_updated_at := 1 |}.
Definition lost_core : Core FaultInjectingSecretStore := {|
  k_domain := {| devices := {| relationships := ∅; tombstones := ∅ |}; eligibilities := ∅; blocked := ∅;
    vault := {| secret_refs := {[ "i"%string := demo_ref "active";
                  "g"%string := {| rf_kind := kind_as_str RelationshipGrant; rf_state := "active";
                    rf_expected_identity := None; rf_created_at := 1; rf_updated_at := 1 |} ]};
                secret_store := on_values (λ _, {[ "g"%string := demo_material ]}) empty_store;
                legacy_identity := None |} |};
  k_tables := {| targeted_transfers := ∅; accepted_offer_intents := ∅; authorization_delivery_outbox := ∅;
                 completion_outbox := ∅; payload_release_outbox := ∅; schema_migrations := ∅ |};
  k_history := {| transfers := {[ 7 := lost_share ]}; received_artifacts := ∅; transfer_events := ∅;
                  receiver_requests := ∅; pending_delivery_receipts := ∅ |};
  k_inbox := inbox_new; k_access := access_policy_new; k_active := ∅; k_hashes := ∅; k_tags := ∅ |}.

Lemma identity_reset_forgets_witness :
  let k' := (Sql.run reset_unrecoverable_identity lost_core).2 in
  (t_status <$> transfers (k_history k') !! 7) = Some "stopped"%string ∧
  identity_forgotten k' ∧ contents (secret_store (vault (k_domain k'))) !! "g"%string = None.
Proof.
  intros k'. split; [vm_compute; reflexivity|].
  assert ((Sql.run reset_unrecoverable_identity lost_core).1 = Ok tt) as E by (vm_compute; reflexivity).
  pose proof (run_wp reset_unrecoverable_identity lost_core (λ r k, (r = Ok tt → _) ∧ _)
    (wp_mono _ _ _ _ _ (identity_reset_forgets lost_core 0) (λ r k n H, conj (proj1 H) I))) as [Hok _].
  destruct (Hok E) as (Hf & _ & Hgone). split; [exact Hf|]. apply Hgone. vm_compute. eauto.
Defined.
End Witness.
