(* ===== verification/Startup.v ===== *)
(** * [CoreInner::start] ([runtime/mod.rs]): the services a core starts with

    What the process held in memory is gone, and the rows, the secrets and the tags of the blob
    store are as they were left. Before the router answers anyone, transfers that were cut short
    are settled, and every share that can still be served is offered again; then the targeted
    transfers, the eligibilities and the relationships are reconciled. Binding the endpoint,
    waiting for a relay, the events and the tasks that are spawned are left out. *)

From S2P Require Import Prelude Sql ControlPlane Errors States Api Ticket TargetedStore Access Invitation Inbox SecureSecret Relationship Pairing Devices DevicesSpec Core Authorization TargetedModule TargetedModuleSpec TargetedRuntime Share TargetedRuntimeSpec.

(** [store.blobs().has(hash)]. *)
Class BlobPresence : Type := { has_blob : nat → string → result bool AnyhowError }.

(** [Result::unwrap_or]. *)
Definition unwrap_or {A E} (d : A) (r : result A E) : A := match r with Ok a => a | Err _ => d end.

Section Startup.
Context `{Env} `{ForeignText} `{Host} `{Blake3} `{!Base64} `{Codec} `{Urls} `{Addressing} `{!TicketCodec}
  {V : Type} `{SecureSecretStore V} `{!Network V} `{!Neighbours V} `{Remote} `{Blobs} `{BlobPresence}.
Variable authority : TargetedProtocolAuthority.
Variable limits : CoreLimits.
Variable relay_mode : CoreRelayMode.
Variable custom_relay_urls : list RelayUrl.

Abbreviation IO := (M (Core V) AnyhowError).
Abbreviation protected := (ta_protected authority).

(** The policy, the inbox, the registry and the owners of content are made anew. *)
Definition rebooted (k : Core V) : Core V := {|
  k_domain := k_domain k; k_tables := k_tables k; k_history := k_history k;
  k_inbox := inbox_new; k_access := access_policy_new; k_active := ∅; k_hashes := ∅;
  k_tags := k_tags k |}.

Definition stored {A} (m : M History AnyhowError A) : IO A := zoom k_history set_history m.
Definition in_access_policy (m : M AccessPolicy AnyhowError unit) : IO unit := zoom k_access set_access m.

Definition keep_tag (tag : string) : IO unit := λ k n,
  match set_tag_fault n with
  | Some e => (Err e, k, S n)
  | None => (Ok tt, on_tags (λ tags, {[tag]} ∪ tags) k, S n)
  end.
Definition drop_tag (tag : string) : IO unit := λ k n,
  match tag_fault n with
  | Some e => (Err e, k, S n)
  | None => (Ok tt, on_tags (λ tags, tags ∖ {[tag]}) k, S n)
  end.
Definition list_prefix (prefix : string) : IO (list string) := λ k n,
  match list_tags_fault n with
  | Some e => (Err e, k, S n)
  | None => (Ok (filter (λ tag, String.prefix prefix tag = true) (elements (k_tags k))), k, S n)
  end.

(** The collection of a share, if its root is a hash, is in the store, and loads. *)
Definition load_share (share : PersistedShare) : IO (option (string * list string)) := λ k n,
  (Ok (match parse_hash (ps_content_hash share) with
       | Ok root_hash =>
           if (unwrap_or false (has_blob n root_hash) : bool)
           then match load_collection n root_hash with
                | Ok collection => Some (root_hash, collection)
                | Err _ => None
                end
           else None
       | Err _ => None
       end), k, S n).

Definition relay_profile_matches (share : PersistedShare) : bool :=
  match ps_ticket share with
  | Some ticket =>
      unwrap_or false (ticket_matches_relay_profile ticket limits relay_mode custom_relay_urls)
  | None => false
  end.

Definition serve_hashes (transfer_id : Z) (hashes : list string) : IO unit :=
  modify (on_hashes (λ served, fold_left (λ served hash,
    <[hash := {[transfer_id]} ∪ default ∅ (served !! hash)]> served) hashes served)).

(** The body of the loop: the shares restored so far, and the tags that stay. *)
Definition restore_share (restored : gset Z * gset string) (share : PersistedShare) :
    IO (gset Z * gset string) :=
  let transfer_id := ps_transfer_id share in
  content ← load_share share;
  match content with
  | None =>
      stored (transition_transfer_status transfer_id Sharing Failed);;
      ret restored
  | Some (root_hash, collection) =>
      if negb (relay_profile_matches share) then
        stored (transition_transfer_status transfer_id Sharing Stopped);;
        ret restored
      else
        let tag_name := share_tag_name (ps_local_id share) in
        keep_tag tag_name;;
        serve_hashes transfer_id (root_hash :: collection);;
        in_access_policy (set_mode transfer_id (mode_from_storage (ps_access_mode share)));;
        ret ({[transfer_id]} ∪ restored.1, {[tag_name]} ∪ restored.2)
  end.

Definition drop_unused_tag (active_tag_names : gset string) (name : string) : IO unit :=
  when (bool_decide (name ∉ active_tag_names)) (drop_tag name).

Definition remove_orphans : IO unit :=
  map_err anyhow_vnidrop (
    referenced ← in_tables authorization_secret_handles;
    in_custody_of (remove_orphaned_targeted_authorizations referenced);;
    ret tt).

(** Transfers that were running, and prompts that were open, when the process ended. *)
Definition settle_history : IO unit :=
  stored recover_interrupted_transfers;;
  stored (expire_pending_receiver_requests "application restarted before approval");;
  ret tt.

(** Tags of shares that are not active. *)
Definition purge_share_tags (active_tag_names : gset string) : IO unit :=
  tags ← list_prefix "vnidrop/share/";
  for_each tags (drop_unused_tag active_tag_names).

(** Up to the router: the shares that are active again. *)
Definition restore_services : IO (gset Z) :=
  modify rebooted;;
  settle_history;;
  shares ← stored list_active_shares;
  restored ← fold_each restore_share shares (∅, ∅);
  purge_share_tags restored.2;;
  when protected remove_orphans;;
  ret restored.1.

(** What follows is reported, and does not keep the core from starting. *)
Definition start_core : IO (gset Z) :=
  active_shares ← restore_services;
  map_err anyhow_vnidrop (
    logged (recover_in_flight authority);;
    logged (restore_targeted_transfer_access authority);;
    logged (in_domain (reconcile_eligibilities protected));;
    logged (in_domain (reconcile_devices protected)));;
  ret active_shares.

(** ** What has been restored *)

Implicit Types (k : Core V).

(** A share that was active when the process ended. *)
Definition offered (r : TransferRow) : Prop :=
  t_direction r = "send"%string ∧ t_status r = "sharing"%string ∧ t_content_hash r ≠ None.

(** Its content is served under the mode it was stored with, and kept by its tag; its ticket
    leads to relays that are in use. *)
Record share_restored k (id : Z) (r : TransferRow) : Prop := {
  sh_mode : modes (k_access k) !! id = Some (mode_from_storage (t_access_mode r));
  sh_content : ∃ n text root collection, t_content_hash r = Some text ∧ parse_hash text = Ok root ∧
    has_blob n root = Ok true ∧ load_collection n root = Ok collection ∧
    ∀ h, h ∈ root :: collection → owns k id h;
  sh_tag : share_tag_name (t_local_id r) ∈ k_tags k;
  sh_profile : ∃ ticket, t_ticket r = Some ticket ∧
    ticket_matches_relay_profile ticket limits relay_mode custom_relay_urls = Ok true
}.

(** No import or receive runs, and nobody waits for approval. *)
Definition quiet (h : History) : Prop :=
  (∀ id r, transfers h !! id = Some r → interrupted id r = false) ∧
  (∀ id q, receiver_requests h !! id = Some q → q_status q ≠ "requested"%string).

(** The active shares are the rows still offered, all of them can be read, and nothing else can. *)
Record services_restored (active : gset Z) k : Prop := {
  sv_active id : id ∈ active ↔ ∃ r, transfers (k_history k) !! id = Some r ∧ offered r;
  sv_share id r : transfers (k_history k) !! id = Some r → offered r → share_restored k id r;
  sv_owners id h : owns k id h → id ∈ active;
  sv_modes id : is_Some (modes (k_access k) !! id) → id ∈ active;
  sv_sessions : approved_sessions (k_access k) = ∅;
  sv_tags tag : String.prefix "vnidrop/share/" tag = true → tag ∈ k_tags k →
    ∃ id r, tag = share_tag_name (t_local_id r) ∧ transfers (k_history k) !! id = Some r ∧ offered r;
  sv_quiet : quiet (k_history k)
}.

(** [INTEGER] columns hold what [to_db_id] let in. *)
Definition ids_ok (h : History) : Prop := ∀ id r, transfers h !! id = Some r → 0 ≤ id ≤ I64_MAX.

(** ** The loop over the shares *)

Definition persists (share : PersistedShare) (r : TransferRow) : Prop :=
  ps_local_id share = t_local_id r ∧ t_content_hash r = Some (ps_content_hash share) ∧
  ps_ticket share = t_ticket r ∧ ps_access_mode share = t_access_mode r.

Record restoring (restored : gset Z * gset string) (todo : list PersistedShare) k : Prop := {
  re_todo share : share ∈ todo → (ps_transfer_id share ∉ restored.1) ∧
    ∃ r, transfers (k_history k) !! ps_transfer_id share = Some r ∧ offered r ∧ persists share r;
  re_fresh : NoDup (ps_transfer_id <$> todo);
  re_rows id r : transfers (k_history k) !! id = Some r → offered r →
    id ∈ ps_transfer_id <$> todo ∨
    (id ∈ restored.1 ∧ share_restored k id r ∧ share_tag_name (t_local_id r) ∈ restored.2);
  re_active id : id ∈ restored.1 → ∃ r, transfers (k_history k) !! id = Some r ∧ offered r;
  re_tags tag : tag ∈ restored.2 → ∃ id r, id ∈ restored.1 ∧
    tag = share_tag_name (t_local_id r) ∧ transfers (k_history k) !! id = Some r ∧ offered r;
  re_owners id h : owns k id h → id ∈ restored.1;
  re_modes id : is_Some (modes (k_access k) !! id) → id ∈ restored.1;
  re_sessions : approved_sessions (k_access k) = ∅;
  re_quiet : quiet (k_history k);
  re_ids : ids_ok (k_history k)
}.

(** What an offered row is moved to when it cannot be served. *)
Lemma wp_give_back id r to h n Q :
  transfers h !! id = Some r → t_status r = "sharing"%string → 0 ≤ id ≤ I64_MAX → to = Failed ∨ to = Stopped →
  (∀ e n', Q (Err e) h n') →
  (∀ now n', Q (Ok tt) (on_history <[id := set_status (status_as_str to) now r]> h) n') →
  wp (transition_transfer_status id Sharing to) h n Q.
Proof.
  intros Hr Hs Hid Hto He Ho. unfold transition_transfer_status.
  replace (can_transition_to Sharing to) with true by (by destruct Hto; subst). simpl negb. cbv iota.
  apply wp_bind, wp_now_ms, wp_bind, wp_to_db_id; [done|]. intros _.
  apply wp_bind, (wp_update_history_key id); [by intros; bool_simpl|done|..].
  - intros Hno. specialize (Hno r Hr). rewrite Z.eqb_refl, Hs in Hno. done.
  - intros r' Hr' _. simplify_eq. simpl. apply wp_bind, wp_ret, wp_of_result. apply Ho.
Qed.

(** One row is no longer offered. *)
Lemma restoring_given_back restored share todo k id r to now :
  restoring restored (share :: todo) k → id = ps_transfer_id share →
  transfers (k_history k) !! id = Some r → to = Failed ∨ to = Stopped →
  restoring restored todo
    (set_history (on_history <[id := set_status (status_as_str to) now r]> (k_history k)) k).
Proof.
  intros [I1 I2 I3 I4 I5 I6 I7 I8 [I9 I10] I11] Eid Hr Hto. rewrite fmap_cons in I2.
  apply NoDup_cons in I2 as [Hnew Hnd]. rewrite <- Eid in Hnew.
  destruct (I1 share) as [Hout _]; [by left|]. rewrite <- Eid in Hout.
  set (r' := set_status _ now r).
  assert (¬ offered r') as Hno by (intros (_ & Es & _); simpl in Es; by destruct Hto; subst to).
  assert (∀ id' c, transfers (on_history <[id := r']> (k_history k)) !! id' = Some c → offered c →
            id' ≠ id ∧ transfers (k_history k) !! id' = Some c) as Hrow.
  { intros id' c Hc Ho. simpl in Hc. destruct (decide (id' = id)) as [->|Hne].
    - rewrite lookup_insert_eq in Hc. by simplify_eq.
    - by rewrite lookup_insert_ne in Hc. }
  assert (∀ id' c, id' ≠ id → transfers (k_history k) !! id' = Some c →
            transfers (on_history <[id := r']> (k_history k)) !! id' = Some c) as Hsame.
  { intros id' c Hne Hc. simpl. by rewrite lookup_insert_ne. }
  split; try done.
  - intros s Hin. destruct (I1 s) as (Hns & c & Hc & Hco & Hp); [by right|]. split; [done|]. exists c.
    split_and!; [|done..]. apply Hsame; [|done]. intros E. apply Hnew. rewrite <- E. by apply list_elem_of_fmap_2.
  - intros id' c Hc Ho. destruct (Hrow id' c Hc Ho) as [Hne Hc']. destruct (I3 id' c Hc' Ho) as [Hin|Hd]; [|right].
    + left. rewrite fmap_cons in Hin. apply elem_of_cons in Hin as [?|Hin]; [congruence|done].
    + by destruct Hd as (Hin & [] & Ht).
  - intros id' Hin. destruct (I4 id' Hin) as (c & Hc & Ho). exists c. split; [|done]. apply Hsame; [|done].
    by intros ->.
  - intros tag Hin. destruct (I5 tag Hin) as (id' & c & Hin' & -> & Hc & Ho). exists id', c.
    split_and!; [done..| |done]. apply Hsame; [|done]. by intros ->.
  - split; [|done]. intros id' c. simpl. rewrite lookup_insert. case_decide as E.
    + intros [= <-]. by destruct Hto; subst to.
    + apply I9.
  - intros id' c. simpl. rewrite lookup_insert. case_decide as E; [|apply I11]. intros _. subst. by eapply I11.
Qed.

(** One share is served again. *)
Lemma restoring_served restored share todo k k' r n root collection ticket :
  restoring restored (share :: todo) k →
  transfers (k_history k) !! ps_transfer_id share = Some r → offered r → persists share r →
  parse_hash (ps_content_hash share) = Ok root → has_blob n root = Ok true →
  load_collection n root = Ok collection → ps_ticket share = Some ticket →
  ticket_matches_relay_profile ticket limits relay_mode custom_relay_urls = Ok true →
  k_history k' = k_history k → k_tags k' = {[share_tag_name (ps_local_id share)]} ∪ k_tags k →
  k_access k' = {| modes := <[ps_transfer_id share := mode_from_storage (ps_access_mode share)]> (modes (k_access k));
                   approved_sessions := approved_sessions (k_access k) |} →
  (∀ id h, id ≠ ps_transfer_id share → owns k' id h ↔ owns k id h) →
  (∀ h, h ∈ root :: collection → owns k' (ps_transfer_id share) h) →
  restoring ({[ps_transfer_id share]} ∪ restored.1, {[share_tag_name (ps_local_id share)]} ∪ restored.2) todo k'.
Proof.
  intros [I1 I2 I3 I4 I5 I6 I7 I8 I9 I10] Hr Ho (P1 & P2 & P3 & P4) Hroot Hhas Hload Ht Hm Eh Eg Ea Eo Ew.
  set (id := ps_transfer_id share) in *. rewrite fmap_cons in I2. apply NoDup_cons in I2 as [Hnew Hnd].
  split; rewrite ?Eh; simpl; try done.
  - intros s Hin. destruct (I1 s) as (Hns & c); [by right|]. split; [|done].
    apply not_elem_of_union. split; [|done]. apply not_elem_of_singleton. intros E. apply Hnew.
    fold id. rewrite <- E. by apply list_elem_of_fmap_2.
  - intros id' c Hc Hco. destruct (decide (id' = id)) as [->|Hne].
    + right. simplify_eq. rewrite <- P1. split; [set_solver|]. split; [|set_solver]. split.
      * rewrite Ea, <- P4. simpl. apply lookup_insert_eq.
      * exists n, (ps_content_hash share), root, collection. split_and!; done.
      * rewrite Eg, <- P1. set_solver.
      * exists ticket. by rewrite <- P3.
    + destruct (I3 id' c Hc Hco) as [Hin|(Hin & [S1 S2 S3 S4] & Htag)].
      * left. rewrite fmap_cons in Hin. apply elem_of_cons in Hin as [?|Hin]; [done|done].
      * right. split; [set_solver|]. split; [|set_solver]. split; [|..|done].
        -- rewrite Ea. simpl. by rewrite lookup_insert_ne.
        -- destruct S2 as (n0 & text & root0 & coll & Q1 & Q2 & Q3 & Q4 & Q5).
           exists n0, text, root0, coll. split_and!; try done. intros h Hh. apply Eo; [done|]. by apply Q5.
        -- rewrite Eg. set_solver.
  - intros id' [->%elem_of_singleton|Hin]%elem_of_union; [by exists r|by apply I4].
  - intros tag [->%elem_of_singleton|Hin]%elem_of_union.
    + exists id, r. split_and!; [set_solver|by rewrite P1|done|done].
    + destruct (I5 tag Hin) as (id' & c & Hin' & E). exists id', c. split; [set_solver|done].
  - intros id' h Hh. destruct (decide (id' = id)) as [->|Hne]; [set_solver|].
    apply Eo, I6 in Hh; [set_solver|done].
  - intros id'. rewrite Ea. simpl. rewrite lookup_insert. case_decide as E; [set_solver|]. intros Hs%I7. set_solver.
  - by rewrite Ea.
Qed.

Lemma wp_load_share share k n Q :
  Q (Ok None) k (S n) →
  (∀ root collection, parse_hash (ps_content_hash share) = Ok root → has_blob n root = Ok true →
     load_collection n root = Ok collection → Q (Ok (Some (root, collection))) k (S n)) →
  wp (load_share share) k n Q.
Proof.
  intros Hn Hs. unfold wp, load_share. destruct (parse_hash _) as [root|]; [|done].
  destruct (has_blob n root) as [[]|] eqn:Eb; simpl; [|done..].
  destruct (load_collection n root) as [collection|] eqn:Ec; [by apply Hs|done].
Qed.

Lemma wp_restore_share restored share todo k n :
  restoring restored (share :: todo) k →
  wp (restore_share restored share) k n (λ r k' _, ∀ restored', r = Ok restored' → restoring restored' todo k').
Proof.
  intros HI. destruct (re_todo _ _ _ HI share) as (Hout & r & Hr & Ho & Hp); [by left|].
  assert (0 ≤ ps_transfer_id share ≤ I64_MAX) as Hid by by eapply (re_ids _ _ _ HI).
  assert (∀ to n0, to = Failed ∨ to = Stopped →
    wp (stored (transition_transfer_status (ps_transfer_id share) Sharing to);; ret restored) k n0
      (λ r k' _, ∀ restored', r = Ok restored' → restoring restored' todo k')) as Hback.
  { intros to n0 Hto. apply wp_bind, wp_zoom, (wp_give_back _ r); [done|by destruct Ho as (_ & ? & _)|done|done|done|].
    intros now n1. apply wp_ret. intros ? [= <-]. by eapply restoring_given_back. }
  unfold restore_share. apply wp_bind, wp_load_share; [by apply Hback; left|].
  intros root collection Hroot Hhas Hload. destruct (negb _) eqn:Ep; [by apply Hback; right|]. clear Hback.
  apply negb_false_iff in Ep. unfold relay_profile_matches in Ep. destruct (ps_ticket share) as [ticket|] eqn:Et; [|done].
  destruct (ticket_matches_relay_profile _ _ _ _) as [[]|] eqn:Em; try done.
  apply wp_bind. unfold wp at 1, keep_tag. destruct (set_tag_fault _); [done|].
  apply wp_bind, wp_modify. set (k1 := on_tags _ k).
  destruct (register_touches "" (ps_transfer_id share) (root :: collection) k1) as [Hreg Hown].
  apply wp_bind, wp_zoom, wp_modify, wp_ret. intros ? [= <-].
  eapply (restoring_served restored share todo k _ r n root collection ticket); try done.
  intros id h Hne. by apply (tc_owners _ _ _ _ Hreg).
Qed.

(** ** The whole *)

Lemma as_u64_id z : 0 ≤ z ≤ I64_MAX → as_u64 z = z.
Proof. unfold as_u64, I64_MAX, U64_MOD. intros. apply Z.mod_small. lia. Qed.

Lemma omap_ids_NoDup (f : Z * TransferRow → option PersistedShare) rows :
  (∀ kr share, kr ∈ rows → f kr = Some share → ps_transfer_id share = kr.1) →
  NoDup rows.*1 → NoDup (ps_transfer_id <$> omap f rows) ∧ ∀ id, id ∈ ps_transfer_id <$> omap f rows → id ∈ rows.*1.
Proof.
  induction rows as [|kr rows IH]; intros Hf Hnd; [split; [constructor|done]|].
  rewrite fmap_cons in Hnd. apply NoDup_cons in Hnd as [Hnew Hnd].
  destruct IH as [IH1 IH2]; [intros; apply Hf; [by right|done]|done|].
  simpl. destruct (f kr) as [share|] eqn:E; rewrite ?fmap_cons.
  - rewrite (Hf kr share) by (by left || done). split; [|set_solver].
    apply NoDup_cons. split; [|done]. intros Hin. by apply Hnew, IH2.
  - split; [done|]. intros id Hin. right. by apply IH2.
Qed.

Lemma wp_list_offered k n Q :
  ids_ok (k_history k) → k_access k = access_policy_new → k_hashes k = ∅ → quiet (k_history k) →
  (∀ e n', Q (Err e) k n') →
  (∀ shares n', restoring (∅, ∅) shares k → Q (Ok shares) k n') →
  wp (stored list_active_shares) k n Q.
Proof.
  intros Hids Ea Eh Hq He Ho. assert (set_history (k_history k) k = k) as Ek by apply set_history_id.
  apply wp_zoom, wp_select; [intros; simpl; rewrite Ek; apply He|]. rewrite Ek. apply Ho. clear He Ho Ek.
  set (rows := select_where _ _). set (f := λ kr : Z * TransferRow, _).
  assert (∀ id r, (id, r) ∈ rows ↔ transfers (k_history k) !! id = Some r ∧ offered r) as Hrows.
  { intros id r. unfold rows, offered. rewrite elem_of_select_where, !andb_true_iff, !str_eqb_eq, bool_decide_eq_true. tauto. }
  assert (∀ id r share, (id, r) ∈ rows → f (id, r) = Some share → ps_transfer_id share = id ∧ persists share r) as Hf.
  { intros id r share [Hr _]%Hrows. unfold f, persists. simpl. destruct (t_content_hash r); [|done].
    intros [= <-]. simpl. split; [|done]. apply as_u64_id. by eapply Hids. }
  destruct (omap_ids_NoDup f rows) as [Hnd _].
  { intros [id r] share Hin E. by apply (Hf id r share). }
  { unfold rows, select_where. apply NoDup_fst_map_to_list. }
  assert (∀ id h, owns k id h → False) as Hown.
  { intros id h (o & Ho & _). rewrite Eh in Ho. by rewrite lookup_empty in Ho. }
  split; try done.
  - intros share Hin. split; [apply not_elem_of_empty|]. apply list_elem_of_omap in Hin as ([id r] & Hin & E).
    destruct (Hf id r share Hin E) as [-> Hp]. apply Hrows in Hin as [Hr Ho]. by exists r.
  - intros id r Hr Ho. left. assert ((id, r) ∈ rows) as Hin by by apply Hrows.
    destruct (f (id, r)) as [share|] eqn:E.
    + destruct (Hf id r share Hin E) as [<- _]. apply list_elem_of_fmap_2, list_elem_of_omap. by exists (ps_transfer_id share, r).
    + destruct Ho as (_ & _ & Hc). unfold f in E. simpl in E. by destruct (t_content_hash r).
  - by intros id h ?%Hown.
  - intros id. rewrite Ea. simpl. rewrite lookup_empty. by intros [? [=]].
  - by rewrite Ea.
Qed.

(** Cut-short transfers and open requests are settled first. *)
Definition same_ids (h h' : History) : Prop := dom (transfers h') = dom (transfers h).
#[local] Instance same_ids_preorder : PreOrder same_ids.
Proof. split; [by intros h|]. unfold same_ids. intros h1 h2 h3 E1 E2. congruence. Qed.

Lemma same_ids_ok h h' : same_ids h h' → ids_ok h → ids_ok h'.
Proof.
  intros E Hids id r Hr. assert (id ∈ dom (transfers h)) as [r0 Hr0]%elem_of_dom; [|by eapply Hids].
  rewrite <- E. by apply elem_of_dom_2 in Hr.
Qed.

Lemma within_recover_ids : within same_ids recover_interrupted_transfers.
Proof.
  apply within_asql_tx; [apply _|]. unfold select, update_history.
  repeat first [ within_step | apply within_asql; [apply _|] ].
  all: match goal with E : Ok _ = Ok _ |- _ => injection E as <- <- end.
  - done.
  - unfold same_ids. simpl. apply dom_update_where.
Qed.

Lemma wp_and_within {S E A} (R : S → S → Prop) (m : M S E A) s n Q :
  wp m s n Q → within R m → wp m s n (λ r s' n', Q r s' n' ∧ R s s').
Proof. intros Hm HR. specialize (HR s n). unfold wp in *. by destruct (m s n) as [[r s'] n']. Qed.

Lemma wp_settle k n (Q : result unit AnyhowError → Core V → nat → Prop) :
  ids_ok (k_history k) → (∀ e k' n', Q (Err e) k' n') →
  (∀ h n', ids_ok h → quiet h → Q (Ok tt) (set_history h k) n') →
  wp settle_history k n Q.
Proof.
  intros Hids He Ho. apply wp_bind, wp_zoom.
  eapply wp_mono; [apply wp_and_within; [apply recover_fails_interrupted|apply within_recover_ids]|].
  intros [recovered|e] h n1 [Hrec Hsame]; [|apply He]. destruct Hrec as [Hint _].
  apply wp_bind, wp_zoom. unfold expire_pending_receiver_requests, update_requests.
  apply wp_bind, wp_now_ms, wp_bind, wp_asql; [intros; apply He|]. intros _ cnt h2 [= _ <-].
  apply wp_ret, wp_ret, Ho; [by eapply same_ids_ok|]. split; [exact Hint|]. intros id q. simpl.
  rewrite lookup_update_where. destruct (receiver_requests h !! id) as [q0|]; [|done]. simpl. intros [= <-].
  destruct (str_eqb (q_status q0) "requested") eqn:E; [done|]. intros Es. by rewrite Es in E.
Qed.

(** Only tags that no share uses go. *)
Record purging (active : gset string) k (todo : list string) k' : Prop := {
  pg_rest : k' = on_tags (λ _, k_tags k') k;
  pg_active tag : tag ∈ active → tag ∈ k_tags k → tag ∈ k_tags k';
  pg_todo tag : String.prefix "vnidrop/share/" tag = true → tag ∈ k_tags k' → tag ∈ active ∨ tag ∈ todo
}.

Lemma wp_purge (active : gset string) k n (Q : result unit AnyhowError → Core V → nat → Prop) :
  (∀ e k' n', Q (Err e) k' n') →
  (∀ k' n', purging active k [] k' → Q (Ok tt) k' n') →
  wp (purge_share_tags active) k n Q.
Proof.
  intros He Ho. apply wp_bind. unfold wp at 1, list_prefix. destruct (list_tags_fault n); [apply He|].
  apply (wp_for_each (purging active k)); [| |by auto].
  - split; [by destruct k|done|]. intros tag Hp Hin. right. apply list_elem_of_filter.
    split; [done|by apply elem_of_elements].
  - clear n. intros tag todo k' n [I1 I2 I3]. unfold drop_unused_tag, when.
    destruct (bool_decide _) eqn:Htag; bool_simpl.
    + unfold wp, drop_tag. destruct (tag_fault n); [apply He|]. split; simpl.
      * by rewrite I1.
      * intros tag' Ha Hin. apply elem_of_difference. split; [by apply I2|set_solver].
      * intros tag' Hp [Hin Hne]%elem_of_difference. specialize (I3 tag' Hp Hin). set_solver.
    + apply wp_ret. split; [done..|]. intros tag' Hp Hin. destruct (I3 tag' Hp Hin) as [|[->|]%elem_of_cons]; auto.
      left. by apply dec_stable.
Qed.

Lemma restored_all restored k k' :
  restoring restored [] k → purging restored.2 k [] k' → services_restored restored.1 k'.
Proof.
  intros [_ _ I3 I4 I5 I6 I7 I8 I9 _] [P1 P2 P3].
  assert (∀ id r, transfers (k_history k) !! id = Some r → offered r → id ∈ restored.1 ∧ share_restored k' id r) as Hd.
  { intros id r Hr Ho. destruct (I3 id r Hr Ho) as [[]%elem_of_nil|(Hin & [S1 S2 S3 S4] & Ht)]. split; [done|].
    split; [by rewrite P1| |by apply P2|done].
    destruct S2 as (n & text & root & coll & S2). exists n, text, root, coll. by rewrite P1. }
  split; try (by rewrite P1).
  - intros id. rewrite P1. split; [apply I4|]. intros (r & Hr & Ho). by eapply Hd.
  - intros id r. rewrite P1 at 1. intros Hr Ho. by apply Hd.
  - intros tag Hp Hin. destruct (P3 tag Hp Hin) as [Ha|[]%elem_of_nil].
    destruct (I5 tag Ha) as (id & r & _ & -> & Hr & Ho). exists id, r. by rewrite P1.
Qed.

(** Orphaned secrets are no concern of the shares. *)
Lemma wp_remove_orphans k n (Q : result unit AnyhowError → Core V → nat → Prop) :
  (∀ r d n', Q r (set_domain d k) n') → wp remove_orphans k n Q.
Proof.
  intros HQ. assert (set_domain (k_domain k) k = k) as Ek by apply set_domain_id.
  apply wp_map_err, wp_bind, wp_in_tables, wp_query; rewrite set_tables_id; [intros; rewrite <- Ek; apply HQ|].
  apply wp_bind, wp_in_custody_any. intros [removed|e] w n'; apply wp_ret || idtac; apply HQ.
Qed.

Lemma services_restored_domain active d k : services_restored active k → services_restored active (set_domain d k).
Proof.
  intros [V1 V2 V3 V4 V5 V6 V7]. split; try done.
  intros id r Hr Ho. by destruct (V2 id r Hr Ho).
Qed.

(** C14: what a core offers after it has started is what it offered when it stopped. If
    the preparation up to the router succeeds, the active shares are exactly the rows still
    recorded as shared; each is served under its stored mode with its whole collection, is kept
    by its tag, and its ticket leads to the relays in use. No other content of a share is owned,
    kept or open, no approval outlives the process, no import or receive is recorded as running
    and no receiver as waiting. *)
Theorem startup_restores_shares k n (Hids : ids_ok (k_history k)) :
  wp restore_services k n (λ r k' _, ∀ active, r = Ok active → services_restored active k').
Proof.
  apply wp_bind, wp_modify. set (k0 := rebooted k).
  apply wp_bind, wp_settle; [done|done|]. intros h n1 Hh Hq.
  apply wp_bind, wp_list_offered; [done|done|done|done|done|]. intros shares n2 HI.
  apply wp_bind, (wp_fold_each restoring); [done| |].
  - clear. intros restored share todo k n HI. eapply wp_mono; [by apply wp_restore_share|].
    intros [restored'|e] k' n' Hr; [by apply Hr|done].
  - intros restored k1 n3 HR. apply wp_bind, wp_purge; [done|]. intros k2 n4 HP.
    pose proof (restored_all _ _ _ HR HP) as Hs. unfold when. apply wp_bind. destruct protected.
    + apply wp_remove_orphans. intros [[]|e] d n5; [|done]. apply wp_ret. intros ? [= <-].
      by apply services_restored_domain.
    + apply wp_ret, wp_ret. by intros ? [= <-].
Qed.
End Startup.

(** ** Witness *)

Section Witness.
#[local] Existing Instances device_env device_text device_host device_blake3 device_network.
#[local] Existing Instances demo_base64 demo_urls demo_addressing demo_ticket_codec auth_codec alone silent_peers full_store.
#[local] Instance one_root : BlobPresence := {| has_blob _ root := Ok (str_eqb root "root") |}.

Definition left_share (hash : string) (ticket : option string) (local_id : string) : TransferRow := {|
  t_local_id := local_id; t_protocol_transfer_id := 1; t_peer_id := None; t_direction := "send";
  t_status := "sharing"; t_transfer_name := None; t_sender_name := None; t_content_hash := Some hash;
  t_ticket := ticket; t_file_count := 1; t_total_size := 10; t_access_mode := "public";
  t_created_at := 1; t_updated_at := 1 |}.
Definition left_request : RequestRow := {|
  q_transfer_id := 7; q_remote_endpoint_id := "bob"; q_transfer_name := "photos"; q_receiver_name := None;
  q_receiver_device_name := None; q_app_version := "1"; q_status := "requested"; q_reason := None;
  q_requested_at := 1; q_responded_at := None; q_receipt_token_hash := None; q_completed_at := None |}.

(** Three shares were active, one of which lost its content and one its ticket; an import ran,
    Bob waited for an answer, and Eve was approved. *)
Definition left_history : History := {|
  transfers := {[ 7 := left_share "root" (Some "vnd1:he"%string) "a";
                  8 := left_share "lost" (Some "vnd1:he"%string) "b";
                  9 := left_share "root" None "c";
                  10 := set_status "importing" 1 (left_share "root" None "d") ]};
  received_artifacts := ∅; transfer_events := ∅; receiver_requests := {[ "q"%string := left_request ]};
  pending_delivery_receipts := ∅ |}.
Definition left_core : Core FaultInjectingSecretStore :=
  set_access {| modes := {[ 9 := Public ]}; approved_sessions := {[ (7, "eve"%string) := {| expires_at := None |} ]} |}
    (on_tags (λ _, {["vnidrop/share/old"%string; "vnidrop/targeted/t"%string]})
      (set_history left_history demo_restarted)).

Lemma left_ids : ids_ok left_history.
Proof.
  apply (bool_decide_eq_true_1 (map_Forall (λ id (_ : TransferRow), 0 ≤ id ≤ I64_MAX) (transfers left_history))).
  vm_compute. reflexivity.
Qed.

Lemma startup_restores_shares_witness :
  let started := Sql.run (restore_services (demo_authority "alice") default_core_limits StrictCustom [demo_relay]) left_core in
  started.1 = Ok {[7]} ∧
  (t_status <$> transfers (k_history started.2)) = {[ 7 := "sharing"; 8 := "failed"; 9 := "stopped"; 10 := "failed" ]}%string ∧
  elements (k_tags started.2) = ["vnidrop/share/a"; "vnidrop/targeted/t"]%string ∧
  services_restored default_core_limits StrictCustom [demo_relay] {[7]} started.2.
Proof.
  intros started. assert (started.1 = Ok {[7]}) as E by (vm_compute; reflexivity).
  split; [exact E|]. split; [vm_compute; reflexivity|]. split; [vm_compute; reflexivity|].
  refine (run_wp _ _ (λ r k, ∀ active, r = Ok active → _)
    (startup_restores_shares (demo_authority "alice") default_core_limits StrictCustom [demo_relay] left_core 0 _) _ E).
  exact left_ids.
Defined.
End Witness.
