(* ===== verification/EventHub.v ===== *)
(** * [event_hub.rs]: events for the user interface and for the history

    Threads emit events; each is shown to the application at once and handed to a worker
    through a bounded channel, which writes it to the history. [flush] and [shutdown] send the
    worker a message and wait for its answer. A call goes from one atomic action to the next
    ([hub_advance]), the worker does so on its own ([worker]), and [hub_step] lets any of them, a new
    call, a dropped call or anyone who changes the history go next. Rendering JSON and hashing
    are parameters. *)

From stdpp Require Import pretty.
From S2P Require Import Prelude Sql ControlPlane Errors States Api Invitation.
Import Redaction.

(** ** What an event is *)

Inductive EventScope : Type := Endpoint | Transfer.
Definition scope_as_str (scope : EventScope) : string :=
  match scope with Endpoint => "endpoint" | Transfer => "transfer" end.

Module Phase.
Inductive EventPhase : Type :=
| Startup | Recovery | Shutdown | Provider | Error | Import | Ticket | Lifecycle | Network
| Download | Export | Access | Handshake | Approval | Transfer | Delivery | Pairing
| TargetedTransfer | RuntimeObligation.
End Phase.
Abbreviation EventPhase := Phase.EventPhase.

Definition phase_parse (value : string) : option EventPhase :=
  if str_eqb value "startup" then Some Phase.Startup
  else if str_eqb value "recovery" then Some Phase.Recovery
  else if str_eqb value "shutdown" then Some Phase.Shutdown
  else if str_eqb value "provider" then Some Phase.Provider
  else if str_eqb value "error" then Some Phase.Error
  else if str_eqb value "import" then Some Phase.Import
  else if str_eqb value "ticket" then Some Phase.Ticket
  else if str_eqb value "lifecycle" then Some Phase.Lifecycle
  else if str_eqb value "network" then Some Phase.Network
  else if str_eqb value "download" then Some Phase.Download
  else if str_eqb value "export" then Some Phase.Export
  else if str_eqb value "access" then Some Phase.Access
  else if str_eqb value "handshake" then Some Phase.Handshake
  else if str_eqb value "approval" then Some Phase.Approval
  else if str_eqb value "transfer" then Some Phase.Transfer
  else if str_eqb value "delivery" then Some Phase.Delivery
  else if str_eqb value "pairing" then Some Phase.Pairing
  else if str_eqb value "targeted_transfer" then Some Phase.TargetedTransfer
  else if str_eqb value "runtime_obligation" then Some Phase.RuntimeObligation
  else None.

Definition phase_as_str (phase : EventPhase) : string :=
  match phase with
  | Phase.Startup => "startup" | Phase.Recovery => "recovery" | Phase.Shutdown => "shutdown" | Phase.Provider => "provider"
  | Phase.Error => "error" | Phase.Import => "import" | Phase.Ticket => "ticket" | Phase.Lifecycle => "lifecycle"
  | Phase.Network => "network" | Phase.Download => "download" | Phase.Export => "export" | Phase.Access => "access"
  | Phase.Handshake => "handshake" | Phase.Approval => "approval" | Phase.Transfer => "transfer"
  | Phase.Delivery => "delivery" | Phase.Pairing => "pairing" | Phase.TargetedTransfer => "targeted_transfer"
  | Phase.RuntimeObligation => "runtime_obligation"
  end.

Definition kind_byte (a : ascii) : bool :=
  let n := Ascii.nat_of_ascii a in
  ((97 <=? n) && (n <=? 122) || (48 <=? n) && (n <=? 57) || (n =? 45))%nat.

(** [EventKind::parse]; the text is kept. *)
Definition event_kind_parse (value : string) : option string :=
  if negb (str_is_empty value) && (str_len value <=? 64) && forallb kind_byte (String.list_ascii_of_string value)
  then Some value else None.

(** The arguments of [emit]. *)
Record Draft : Type := {
  dr_scope : EventScope;
  dr_transfer_id : option Z;
  dr_direction : option TransferDirection;
  dr_phase : EventPhase;
  dr_kind : string;
  dr_data : Value
}.

(** [None] if the event is dropped with a warning. *)
Definition emit_endpoint (phase kind : string) (data : Value) : option Draft :=
  match phase_parse phase, event_kind_parse kind with
  | Some phase, Some kind =>
      Some {| dr_scope := Endpoint; dr_transfer_id := None; dr_direction := None; dr_phase := phase;
              dr_kind := kind; dr_data := data |}
  | _, _ => None
  end.

Definition emit_transfer (transfer_id : Z) (direction phase kind : string) (data : Value) : option Draft :=
  match direction_try_from direction, phase_parse phase, event_kind_parse kind with
  | Ok direction, Some phase, Some kind =>
      Some {| dr_scope := Transfer; dr_transfer_id := Some transfer_id; dr_direction := Some direction;
              dr_phase := phase; dr_kind := kind; dr_data := data |}
  | _, _, _ => None
  end.

(** ** The hub *)

(** [done] is the sending end of a one-shot channel. *)
Inductive EventCommand : Type :=
| Persist (event : CoreEvent)
| Flush (done : nat)
| Shutdown (done : nat).

(** The channel with the command the worker has taken out, whether its receiving end lives, the
    counter, the handle of the worker behind its lock, the one-shots made and those answered or
    dropped, and what the application has been shown. [eh_sent] and [eh_handled] are auxiliary:
    all commands ever sent, and all the worker has dealt with. *)
Record EventHub : Type := {
  eh_history : History;
  eh_queue : list EventCommand;
  eh_in_hand : option EventCommand;
  eh_open : bool;
  eh_sequence : Z;
  eh_join : bool;
  eh_join_lock : bool;
  eh_oneshots : nat;
  eh_resolved : gset nat;
  eh_seen : list CoreEvent;
  eh_sent : list EventCommand;
  eh_handled : list EventCommand
}.

Definition hub_start (history : History) : EventHub := {|
  eh_history := history; eh_queue := []; eh_in_hand := None; eh_open := true; eh_sequence := 1;
  eh_join := true; eh_join_lock := false; eh_oneshots := 0; eh_resolved := ∅; eh_seen := [];
  eh_sent := []; eh_handled := [] |}.

Definition done_of (c : EventCommand) : option nat :=
  match c with Persist _ => None | Flush d | Shutdown d => Some d end.
Definition dones (l : list EventCommand) : gset nat := list_to_set (omap done_of l).

Section Hub.
Context `{Env}.
Variable blake3_hex : string → string.
Variable json_text : Value → string.
Variable queue_capacity : nat.
Variable max_history : Z.

(** A command goes to the end of the channel. *)
Definition push (c : EventCommand) (h : EventHub) : EventHub := {|
  eh_history := eh_history h; eh_queue := eh_queue h ++ [c]; eh_in_hand := eh_in_hand h;
  eh_open := eh_open h; eh_sequence := eh_sequence h; eh_join := eh_join h; eh_join_lock := eh_join_lock h;
  eh_oneshots := eh_oneshots h; eh_resolved := eh_resolved h; eh_seen := eh_seen h;
  eh_sent := eh_sent h ++ [c]; eh_handled := eh_handled h |}.

Definition has_room (h : EventHub) : bool := (length (eh_queue h) <? queue_capacity)%nat.

(** [tx.try_send(..)]: dropped if the channel is full or closed. *)
Definition try_send (c : EventCommand) (h : EventHub) : EventHub :=
  if eh_open h && has_room h then push c h else h.

Definition next_revision (h : EventHub) : EventHub := {|
  eh_history := eh_history h; eh_queue := eh_queue h; eh_in_hand := eh_in_hand h; eh_open := eh_open h;
  eh_sequence := Z.min U64_MAX (eh_sequence h + 1); eh_join := eh_join h; eh_join_lock := eh_join_lock h;
  eh_oneshots := eh_oneshots h; eh_resolved := eh_resolved h; eh_seen := eh_seen h;
  eh_sent := eh_sent h; eh_handled := eh_handled h |}.

Definition on_event (event : CoreEvent) (h : EventHub) : EventHub := {|
  eh_history := eh_history h; eh_queue := eh_queue h; eh_in_hand := eh_in_hand h; eh_open := eh_open h;
  eh_sequence := eh_sequence h; eh_join := eh_join h; eh_join_lock := eh_join_lock h;
  eh_oneshots := eh_oneshots h; eh_resolved := eh_resolved h; eh_seen := eh_seen h ++ [event];
  eh_sent := eh_sent h; eh_handled := eh_handled h |}.

(** [oneshot::channel()]. *)
Definition new_oneshot (h : EventHub) : EventHub := {|
  eh_history := eh_history h; eh_queue := eh_queue h; eh_in_hand := eh_in_hand h; eh_open := eh_open h;
  eh_sequence := eh_sequence h; eh_join := eh_join h; eh_join_lock := eh_join_lock h;
  eh_oneshots := S (eh_oneshots h); eh_resolved := eh_resolved h; eh_seen := eh_seen h;
  eh_sent := eh_sent h; eh_handled := eh_handled h |}.

Definition set_join (join lock : bool) (h : EventHub) : EventHub := {|
  eh_history := eh_history h; eh_queue := eh_queue h; eh_in_hand := eh_in_hand h; eh_open := eh_open h;
  eh_sequence := eh_sequence h; eh_join := join; eh_join_lock := lock;
  eh_oneshots := eh_oneshots h; eh_resolved := eh_resolved h; eh_seen := eh_seen h;
  eh_sent := eh_sent h; eh_handled := eh_handled h |}.

(** The event that [emit] builds. *)
Definition event_of (d : Draft) (timestamp revision : Z) : CoreEvent := {|
  ce_id := pretty timestamp +:+ "-" +:+ pretty revision; ce_revision := revision;
  ce_timestamp := timestamp; ce_scope := scope_as_str (dr_scope d); ce_transfer_id := dr_transfer_id d;
  ce_direction := direction_as_str <$> dr_direction d; ce_phase := phase_as_str (dr_phase d);
  ce_kind := dr_kind d; ce_data_json := json_text (redact_json blake3_hex (dr_data d)) |}.

(** ** The worker *)

Definition set_in_hand (queue : list EventCommand) (c : option EventCommand) (h : EventHub) : EventHub := {|
  eh_history := eh_history h; eh_queue := queue; eh_in_hand := c; eh_open := eh_open h;
  eh_sequence := eh_sequence h; eh_join := eh_join h; eh_join_lock := eh_join_lock h;
  eh_oneshots := eh_oneshots h; eh_resolved := eh_resolved h; eh_seen := eh_seen h;
  eh_sent := eh_sent h; eh_handled := eh_handled h |}.

(** The command in hand is dealt with: the history it leaves, the one-shots that end, what is
    left in the channel and whether the loop goes on. *)
Definition settle_command (c : EventCommand) (history : History) (ended : gset nat) (queue : list EventCommand)
    (on : bool) (h : EventHub) : EventHub := {|
  eh_history := history; eh_queue := queue; eh_in_hand := None; eh_open := on;
  eh_sequence := eh_sequence h; eh_join := eh_join h; eh_join_lock := eh_join_lock h;
  eh_oneshots := eh_oneshots h; eh_resolved := ended ∪ eh_resolved h; eh_seen := eh_seen h;
  eh_sent := eh_sent h; eh_handled := eh_handled h ++ [c] |}.

(** The body of the loop: [rx.recv().await], and the arm of the command. With the loop the
    receiving end goes, and every one-shot that still waits in the channel. *)
Definition worker (h : EventHub) (n : nat) : option (EventHub * nat) :=
  match eh_in_hand h with
  | None =>
      match eh_queue h with
      | c :: queue => Some (set_in_hand queue (Some c) h, n)
      | [] => None
      end
  | Some (Persist event) =>
      match insert_event event max_history (eh_history h) n with
      | (_, history, n') => Some (settle_command (Persist event) history ∅ (eh_queue h) (eh_open h) h, n')
      end
  | Some (Flush d) => Some (settle_command (Flush d) (eh_history h) {[d]} (eh_queue h) (eh_open h) h, n)
  | Some (Shutdown d) =>
      Some (settle_command (Shutdown d) (eh_history h) ({[d]} ∪ dones (eh_queue h)) [] false h, n)
  end.

(** ** The calls *)

Inductive Call : Type :=
| Emitting (d : Draft)
| Stamped (d : Draft) (timestamp : Z)
| Queueing (event : CoreEvent)
| Showing (event : CoreEvent)
| Emitted (event : CoreEvent)
| FlushSend | FlushWait (done : nat) | Flushed
| ShutSend | ShutWait (done : nat) | ShutTake | ShutJoin | ShutDone
| Dropped.

(** [tx.send(..).await]: [None] while the channel is full; otherwise whether it was sent. *)
Definition send (make : nat → EventCommand) (h : EventHub) : option (bool * nat * EventHub) :=
  let d := eh_oneshots h in
  if negb (eh_open h) then Some (false, d, new_oneshot h)
  else if has_room h then Some (true, d, push (make d) (new_oneshot h)) else None.

(** The next action of a call, if it can go on. *)
Definition hub_advance (c : Call) (h : EventHub) (n : nat) : option (Call * EventHub * nat) :=
  match c with
  | Emitting d => Some (Stamped d (clock n), h, S n)
  | Stamped d timestamp => Some (Queueing (event_of d timestamp (eh_sequence h)), next_revision h, n)
  | Queueing event => Some (Showing event, try_send (Persist event) h, n)
  | Showing event => Some (Emitted event, on_event event h, n)
  | FlushSend =>
      '(sent, d, h) ← send Flush h;
      Some (if sent : bool then FlushWait d else Flushed, h, n)
  | FlushWait d => if bool_decide (d ∈ eh_resolved h) then Some (Flushed, h, n) else None
  | ShutSend =>
      '(sent, d, h) ← send Shutdown h;
      Some (if sent : bool then ShutWait d else ShutTake, h, n)
  | ShutWait d => if bool_decide (d ∈ eh_resolved h) then Some (ShutTake, h, n) else None
  | ShutTake =>
      if eh_join_lock h then None
      else if eh_join h then Some (ShutJoin, set_join false true h, n) else Some (ShutDone, h, n)
  | ShutJoin => if eh_open h then None else Some (ShutDone, set_join false false h, n)
  | Emitted _ | Flushed | ShutDone | Dropped => None
  end.

(** Futures can be dropped where they wait; [emit] is not one. *)
Definition waits (c : Call) : bool :=
  match c with FlushSend | FlushWait _ | ShutSend | ShutWait _ | ShutTake | ShutJoin => true | _ => false end.
Definition dropped (c : Call) (h : EventHub) : EventHub :=
  match c with ShutJoin => set_join false false h | _ => h end.

Definition called (c : Call) : bool := match c with Emitting _ | FlushSend | ShutSend => true | _ => false end.

Definition set_hub_history (history : History) (h : EventHub) : EventHub := {|
  eh_history := history; eh_queue := eh_queue h; eh_in_hand := eh_in_hand h; eh_open := eh_open h;
  eh_sequence := eh_sequence h; eh_join := eh_join h; eh_join_lock := eh_join_lock h;
  eh_oneshots := eh_oneshots h; eh_resolved := eh_resolved h; eh_seen := eh_seen h;
  eh_sent := eh_sent h; eh_handled := eh_handled h |}.

(** A step of the program ([true]), or one from outside. *)
Inductive hub_step : bool → EventHub * list Call → EventHub * list Call → Prop :=
| call_runs h calls i c n c' h' n' :
    calls !! i = Some c → hub_advance c h n = Some (c', h', n') →
    hub_step true (h, calls) (h', <[i := c']> calls)
| worker_runs h calls n h' n' :
    worker h n = Some (h', n') → hub_step true (h, calls) (h', calls)
| call_comes h calls c :
    called c = true → hub_step false (h, calls) (h, calls ++ [c])
| call_dropped h calls i c :
    calls !! i = Some c → waits c = true → hub_step false (h, calls) (dropped c h, <[i := Dropped]> calls)
| history_moves h calls history :
    hub_step false (h, calls) (set_hub_history history h, calls).

(** [m] steps of the program, among [e] from outside. *)
Inductive hub_steps (w : EventHub * list Call) : nat → nat → EventHub * list Call → Prop :=
| steps_none : hub_steps w 0 0 w
| steps_more m e w1 b w2 :
    hub_steps w m e w1 → hub_step b w1 w2 →
    hub_steps w (m + if b then 1 else 0) (e + if b then 0 else 1) w2.

(** ** The channel *)

Definition not_shutdown (c : EventCommand) : Prop := match c with Shutdown _ => False | _ => True end.

(** The worker takes the commands in order, each once, up to the first request to stop; whoever
    waits for an answer has it once the worker got there. *)
Record log_ok (h : EventHub) : Prop := {
  lo_open : eh_open h = true →
    eh_sent h = eh_handled h ++ option_list (eh_in_hand h) ++ eh_queue h ∧ Forall not_shutdown (eh_handled h);
  lo_closed : eh_open h = false → eh_queue h = [] ∧ eh_in_hand h = None ∧ eh_handled h `prefix_of` eh_sent h ∧
    ∃ l d, eh_handled h = l ++ [Shutdown d] ∧ Forall not_shutdown l;
  lo_room : (length (eh_queue h) ≤ queue_capacity)%nat;
  lo_resolved d : d ∈ eh_resolved h → eh_open h = false ∨ Flush d ∈ eh_handled h;
  lo_answered d : d ∈ dones (eh_handled h) ∨ eh_open h = false ∧ d ∈ dones (eh_sent h) → d ∈ eh_resolved h;
  lo_fresh d : d ∈ dones (eh_sent h) → (d < eh_oneshots h)%nat;
  lo_kind d : Flush d ∈ eh_sent h → Shutdown d ∈ eh_sent h → False
}.

Lemma elem_of_dones d l : d ∈ dones l ↔ Flush d ∈ l ∨ Shutdown d ∈ l.
Proof.
  unfold dones. rewrite elem_of_list_to_set, list_elem_of_omap. split.
  - intros ([e|d'|d'] & Hin & E); simplify_eq/=; auto.
  - intros [Hin|Hin]; [by exists (Flush d)|by exists (Shutdown d)].
Qed.

Lemma dones_app l l' : dones (l ++ l') = dones l ∪ dones l'.
Proof. unfold dones. by rewrite omap_app, list_to_set_app_L. Qed.

Lemma dones_prefix l l' : l `prefix_of` l' → dones l ⊆ dones l'.
Proof. intros [k ->]. rewrite dones_app. set_solver. Qed.

Lemma log_start history : log_ok (hub_start history).
Proof. split; simpl; try done; try (intros ? []%elem_of_nil); set_solver || lia. Qed.

(** What is no concern of the channel. *)
Lemma log_ok_frame h h' :
  log_ok h → eh_queue h' = eh_queue h → eh_in_hand h' = eh_in_hand h → eh_open h' = eh_open h →
  eh_resolved h' = eh_resolved h → eh_sent h' = eh_sent h → eh_handled h' = eh_handled h →
  (eh_oneshots h ≤ eh_oneshots h')%nat → log_ok h'.
Proof.
  intros [L1 L2 L3 L4 L5 L6 L7] E1 E2 E3 E4 E5 E6 Hle. split; rewrite ?E1, ?E2, ?E3, ?E4, ?E5, ?E6; try done.
  intros d Hd. specialize (L6 d Hd). lia.
Qed.

Lemma log_push c h :
  log_ok h → eh_open h = true → has_room h = true →
  (∀ d, done_of c = Some d → (d ∉ dones (eh_sent h)) ∧ (d < eh_oneshots h)%nat) → log_ok (push c h).
Proof.
  intros [L1 L2 L3 L4 L5 L6 L7] Ho Hr Hd. destruct (L1 Ho) as [Es Hn].
  unfold has_room in Hr. apply Nat.ltb_lt in Hr.
  split; simpl; try (by intros; congruence).
  - intros _. rewrite Es. by rewrite <- !app_assoc.
  - rewrite length_app. simpl. lia.
  - done.
  - intros d [Hin|[? _]]; [|congruence]. apply L5. by left.
  - intros d. rewrite dones_app. intros [Hin|Hin]%elem_of_union; [by apply L6|].
    apply Hd. unfold dones in Hin. simpl in Hin. destruct (done_of c); set_solver.
  - intros d H1 H2. apply elem_of_app in H1, H2. rewrite !list_elem_of_singleton in H1, H2.
    assert (∀ d', done_of c = Some d' → (Flush d' ∉ eh_sent h) ∧ Shutdown d' ∉ eh_sent h) as Hnew.
    { intros d' E. destruct (Hd d' E) as [Hni _]. rewrite elem_of_dones in Hni. tauto. }
    destruct H1 as [H1|H1], H2 as [H2|H2]; subst; try (by apply (L7 d)); try done.
    + by destruct (Hnew d eq_refl).
    + by destruct (Hnew d eq_refl).
Qed.

Lemma log_worker h n h' n' : log_ok h → worker h n = Some (h', n') → log_ok h'.
Proof.
  intros [L1 L2 L3 L4 L5 L6 L7] Hw.
  assert (eh_open h = true) as Ho.
  { destruct (eh_open h) eqn:Ho; [done|]. destruct (L2 eq_refl) as (Eq & Ei & _). unfold worker in Hw.
    by rewrite Eq, Ei in Hw. }
  destruct (L1 Ho) as [Es Hn]. unfold worker in Hw. destruct (eh_in_hand h) as [c|] eqn:Ec.
  - assert (∃ history ended queue on, h' = settle_command c history ended queue on h ∧
      (queue = eh_queue h ∧ on = true ∧ ended = dones [c] ∧ not_shutdown c ∨
       queue = [] ∧ on = false ∧ ended = dones (c :: eh_queue h) ∧ ∃ d, c = Shutdown d)) as (hi & en & q & on & -> & Hcase).
    { destruct c as [e|d|d].
      - destruct (insert_event _ _ _ _) as [[? hi] ?]. simplify_eq. exists hi, ∅, (eh_queue h), true.
        rewrite Ho. split; [done|left]. by split_and!.
      - simplify_eq. eexists _, _, _, _. rewrite Ho. split; [done|left]. split_and!; [done..| |done].
        unfold dones. simpl. set_solver.
      - simplify_eq. eexists _, _, _, _. split; [done|right]. split_and!; [done..| |eauto].
        unfold dones. simpl. set_solver. }
    simpl in Es. destruct Hcase as [(-> & -> & -> & Hc)|(-> & -> & -> & d0 & ->)].
    + split; simpl; try done.
      * intros _. rewrite Es, <- app_assoc. split; [done|]. apply Forall_app. split; [done|]. by constructor.
      * intros d [Hd|Hd]%elem_of_union; right; apply elem_of_app.
        -- right. apply elem_of_dones in Hd. rewrite !list_elem_of_singleton in *. by destruct Hd as [<-|<-].
        -- left. destruct (L4 d Hd); congruence.
      * intros d [Hd|[? _]]; [|done]. rewrite dones_app in Hd.
        apply elem_of_union in Hd as [Hd|Hd]; [|set_solver]. apply elem_of_union_r, L5. by left.
    + split; simpl; try done.
      * intros _. split_and!; [done..| |eauto]. exists (eh_queue h). by rewrite Es, <- app_assoc.
      * lia.
      * by left.
      * intros d Hd. assert (d ∈ dones (eh_handled h) ∪ dones (Shutdown d0 :: eh_queue h)) as Hd'.
        { rewrite <- dones_app, <- Es. destruct Hd as [Hd|[_ Hd]]; [|done]. rewrite dones_app in Hd.
          rewrite Es, dones_app. unfold dones in *. simpl in *. set_solver. }
        apply elem_of_union in Hd' as [Hd'|Hd']; [apply elem_of_union_r, L5; by left|set_solver].
  - destruct (eh_queue h) as [|c q] eqn:Eq; simplify_eq. split; simpl; try done.
    + intros. congruence.
    + simpl in L3. lia.
Qed.

(** ** Steps *)

Record grows (h h' : EventHub) : Prop := {
  gr_sent : eh_sent h `prefix_of` eh_sent h';
  gr_handled : eh_handled h `prefix_of` eh_handled h';
  gr_oneshots : (eh_oneshots h ≤ eh_oneshots h')%nat;
  gr_resolved : eh_resolved h ⊆ eh_resolved h';
  gr_open : eh_open h = false → eh_open h' = false
}.

#[global] Instance grows_preorder : PreOrder grows.
Proof.
  split; [by intros h|]. intros h1 h2 h3 [A1 A2 A3 A4 A5] [B1 B2 B3 B4 B5].
  split; [by etrans..|lia|by etrans|auto].
Qed.

Lemma send_spec make h b d h' :
  log_ok h → (∀ d, done_of (make d) = Some d) → send make h = Some (b, d, h') →
  log_ok h' ∧ grows h h' ∧ d = eh_oneshots h ∧
  (b = true ∧ h' = push (make d) (new_oneshot h) ∧ make d ∈ eh_sent h' ∨
   b = false ∧ h' = new_oneshot h ∧ eh_open h' = false).
Proof.
  intros Hl Hm Hs. unfold send in Hs.
  assert (log_ok (new_oneshot h)) as Hl'.
  { eapply log_ok_frame; [exact Hl|done..|]. simpl. lia. }
  destruct (eh_open h) eqn:Ho; simpl in Hs; [|simplify_eq; split_and!; [done| |done|by right]].
  - destruct (has_room h) eqn:Hr; simplify_eq. split_and!; [| |done|left; split_and!; [done|done|]].
    + apply log_push; [done..|]. intros d Hd. rewrite Hm in Hd. simplify_eq. simpl. split; [|lia].
      intros Hin%(lo_fresh _ Hl). lia.
    + split; simpl; try done; [by exists [make (eh_oneshots h)]|lia].
    + simpl. apply elem_of_app. right. by left.
  - split; simpl; try done. lia.
Qed.

Lemma try_send_spec event h :
  log_ok h → log_ok (try_send (Persist event) h) ∧ grows h (try_send (Persist event) h) ∧
  (eh_sent (try_send (Persist event) h) = eh_sent h ++ [Persist event] ∨
   eh_sent (try_send (Persist event) h) = eh_sent h).
Proof.
  intros Hl. unfold try_send. destruct (eh_open h) eqn:Ho, (has_room h) eqn:Hr; simpl; try (split_and!; [done|done|by right]).
  split_and!; [by apply log_push| |by left]. split; simpl; try done. by exists [Persist event].
Qed.

(** What a call knows. *)
Definition call_ok (h : EventHub) (c : Call) : Prop :=
  match c with
  | FlushWait d => Flush d ∈ eh_sent h
  | ShutWait d => Shutdown d ∈ eh_sent h
  | ShutTake | ShutJoin | ShutDone => eh_open h = false
  | _ => True
  end.

Lemma call_ok_grows h h' c : grows h h' → call_ok h c → call_ok h' c.
Proof.
  intros [G1 G2 G3 G4 G5]. destruct c; simpl; auto; intros Hin; destruct G1 as [k ->]; apply elem_of_app; by left.
Qed.

Lemma advance_spec c h n c' h' n' :
  log_ok h → call_ok h c → hub_advance c h n = Some (c', h', n') → log_ok h' ∧ grows h h' ∧ call_ok h' c'.
Proof.
  intros Hl Hc Ha.
  assert (∀ g, eh_queue g = eh_queue h → eh_in_hand g = eh_in_hand h → eh_open g = eh_open h →
    eh_resolved g = eh_resolved h → eh_sent g = eh_sent h → eh_handled g = eh_handled h →
    eh_oneshots g = eh_oneshots h → log_ok g ∧ grows h g) as Hsame.
  { intros g E1 E2 E3 E4 E5 E6 E7. split; [eapply log_ok_frame; [exact Hl|done..|lia]|].
    split; [by rewrite E5|by rewrite E6|lia|by rewrite E4|congruence]. }
  destruct c; simpl in Ha; try (by injection Ha as <- <- <-; destruct (Hsame h)); try done.
  - injection Ha as <- <- <-. by destruct (Hsame (next_revision h)).
  - injection Ha as <- <- <-. by destruct (try_send_spec event h Hl) as (? & ? & _).
  - injection Ha as <- <- <-. by destruct (Hsame (on_event event h)).
  - destruct (send Flush h) as [[[b d] h1]|] eqn:Es; simplify_eq/=.
    destruct (send_spec Flush h b d h' Hl (λ _, eq_refl) Es) as (? & ? & _ & [(-> & _ & ?)|(-> & _)]); done.
  - case_bool_decide; simplify_eq. by destruct (Hsame h').
  - destruct (send Shutdown h) as [[[b d] h1]|] eqn:Es; simplify_eq/=.
    destruct (send_spec Shutdown h b d h' Hl (λ _, eq_refl) Es) as (? & ? & _ & [(-> & _ & ?)|(-> & _ & ?)]); done.
  - case_bool_decide as Hd; simplify_eq. destruct (Hsame h') as [? ?]; try done. split_and!; [done..|]. simpl in *.
    destruct (lo_resolved _ Hl _ Hd) as [|Hf]; [done|]. exfalso. destruct (eh_open h') eqn:Ho.
    + apply (lo_kind _ Hl done); [|done]. destruct (lo_open _ Hl Ho) as [-> _]. apply elem_of_app. by left.
    + destruct (lo_closed _ Hl Ho) as (_ & _ & [k Ek] & _). apply (lo_kind _ Hl done); [|done]. rewrite Ek.
      apply elem_of_app. by left.
  - destruct (eh_join_lock h); [done|]. destruct (eh_join h); simplify_eq; [by destruct (Hsame (set_join false true h))|by destruct (Hsame h')].
  - destruct (eh_open h) eqn:Ho; simplify_eq. destruct (Hsame (set_join false false h)); try done.
Qed.

Lemma worker_grows h n h' n' : worker h n = Some (h', n') → grows h h'.
Proof.
  unfold worker. destruct (eh_in_hand h) as [[e|d|d]|].
  - destruct (insert_event _ _ _ _) as [[? hi] ?]. intros [= <- _]. split; simpl; try done; [by eexists|set_solver].
  - intros [= <- _]. split; simpl; try done; [by eexists|set_solver].
  - intros [= <- _]. split; simpl; try done; [by eexists|set_solver].
  - destruct (eh_queue h); [done|]. intros [= <- _]. by split.
Qed.

(** *** The invariant of channel and calls *)
Definition hub_ok (w : EventHub * list Call) : Prop := log_ok w.1 ∧ Forall (call_ok w.1) w.2.

Lemma dropped_same c h : log_ok h → log_ok (dropped c h) ∧ grows h (dropped c h).
Proof. intros Hl. destruct c; try done. split; [by eapply log_ok_frame|by split]. Qed.

Lemma step_ok b w w' : hub_step b w w' → hub_ok w → hub_ok w' ∧ grows w.1 w'.1.
Proof.
  intros Hs [Hl Hc].
  assert (∀ h calls, grows w.1 h → log_ok h → Forall (call_ok h) calls → hub_ok (h, calls) ∧ grows w.1 (h, calls).1) as Hdone.
  { intros h calls Hg Hl' Hc'. by split; [split|]. }
  assert (∀ h, grows w.1 h → Forall (call_ok h) w.2) as Hall.
  { intros h Hg. eapply Forall_impl; [exact Hc|]. intros c. by apply call_ok_grows. }
  destruct Hs as [h calls i c n c' h' n' Hi Ha|h calls n h' n' Hw|h calls c Hcd|h calls i c Hi Hw|h calls history]; simpl in *.
  - destruct (advance_spec c h n c' h' n' Hl) as (Hl' & Hg & Hc'); [by eapply Forall_lookup_1|done|].
    apply Hdone; [done..|]. by apply Forall_insert; [apply Hall|].
  - pose proof (worker_grows _ _ _ _ Hw). apply Hdone; [done|by eapply log_worker|by apply Hall].
  - apply Hdone; [done..|]. apply Forall_app. split; [done|]. constructor; [by destruct c|done].
  - destruct (dropped_same c h Hl). apply Hdone; [done..|]. by apply Forall_insert; [apply Hall|].
  - apply Hdone; [by split|by eapply log_ok_frame|by apply Hall; split].
Qed.

(** ** The events *)

Definition issued (c : Call) : option CoreEvent :=
  match c with Queueing e | Showing e | Emitted e => Some e | _ => None end.
Definition queued (c : Call) : option CoreEvent :=
  match c with Showing e | Emitted e => Some e | _ => None end.
Definition shown (c : Call) : option CoreEvent := match c with Emitted e => Some e | _ => None end.
Definition persisted (c : EventCommand) : option CoreEvent := match c with Persist e => Some e | _ => None end.

(** Every call that has emitted showed its event once; what was sent to the history was emitted,
    at most once each; revisions count up, and repeat only where the counter saturates. *)
Record events_ok (w : EventHub * list Call) : Prop := {
  ev_seen : eh_seen w.1 ≡ₚ omap shown w.2;
  ev_sent : omap persisted (eh_sent w.1) ⊆+ omap queued w.2;
  ev_sequence : 1 ≤ eh_sequence w.1 ≤ U64_MAX;
  ev_unique : eh_sequence w.1 < U64_MAX →
    NoDup (ce_revision <$> omap issued w.2) ∧
    ∀ e, e ∈ omap issued w.2 → 1 ≤ ce_revision e < eh_sequence w.1
}.

Lemma omap_update {A B} (f : A → option B) (l : list A) i a :
  l !! i = Some a → ∃ rest, omap f l ≡ₚ option_list (f a) ++ rest ∧
    ∀ a', omap f (<[i := a']> l) ≡ₚ option_list (f a') ++ rest.
Proof.
  intros Hi. exists (omap f (take i l) ++ omap f (drop (S i) l)).
  assert (i < length l)%nat as Hlt by by eapply lookup_lt_Some.
  assert (∀ a' (k : list A), omap f (a' :: k) = option_list (f a') ++ omap f k) as Hcons.
  { intros a' k. simpl. by destruct (f a'). }
  split.
  - rewrite <- (take_drop_middle l i a Hi) at 1. rewrite omap_app, Hcons. apply Permutation_app_swap_app.
  - intros a'. rewrite insert_take_drop by done. rewrite omap_app, Hcons. apply Permutation_app_swap_app.
Qed.

Lemma omap_keep {A B} (f : A → option B) (l : list A) i a a' :
  l !! i = Some a → f a' = f a → omap f (<[i := a']> l) ≡ₚ omap f l.
Proof. intros Hi E. destruct (omap_update f l i a Hi) as (rest & E1 & E2). by rewrite E1, E2, E. Qed.

Lemma omap_gain {A B} (f : A → option B) (l : list A) i a a' b :
  l !! i = Some a → f a = None → f a' = Some b → omap f (<[i := a']> l) ≡ₚ b :: omap f l.
Proof. intros Hi E E'. destruct (omap_update f l i a Hi) as (rest & E1 & E2). by rewrite E1, E2, E, E'. Qed.

(** An action that adds nothing. *)
Lemma events_keep h calls i c c' h' :
  events_ok (h, calls) → calls !! i = Some c → issued c' = issued c → queued c' = queued c → shown c' = shown c →
  eh_seen h' = eh_seen h → omap persisted (eh_sent h') = omap persisted (eh_sent h) → eh_sequence h' = eh_sequence h →
  events_ok (h', <[i := c']> calls).
Proof.
  intros [V1 V2 V3 V4] Hi E1 E2 E3 F1 F2 F3. simpl in *. split; simpl.
  - by rewrite F1, (omap_keep shown calls i c c').
  - by rewrite F2, (omap_keep queued calls i c c').
  - by rewrite F3.
  - rewrite F3, (omap_keep issued calls i c c') by done. intros Hlt. destruct (V4 Hlt) as [H1 H2]. split; [done|].
    intros e. rewrite (omap_keep issued calls i c c') by done. apply H2.
Qed.

Lemma send_events make h b d h' :
  (∀ d, persisted (make d) = None) → send make h = Some (b, d, h') →
  eh_seen h' = eh_seen h ∧ omap persisted (eh_sent h') = omap persisted (eh_sent h) ∧ eh_sequence h' = eh_sequence h.
Proof.
  intros Hm Hs. unfold send in Hs. destruct (eh_open h); simpl in Hs; [|by simplify_eq].
  destruct (has_room h); simplify_eq. split_and!; [done| |done]. simpl. rewrite omap_app. simpl. rewrite Hm.
  apply app_nil_r.
Qed.

Lemma advance_events h calls i c n c' h' n' :
  events_ok (h, calls) → calls !! i = Some c → hub_advance c h n = Some (c', h', n') →
  events_ok (h', <[i := c']> calls).
Proof.
  intros HV Hi Ha.
  destruct c; simpl in Ha; try (by injection Ha as <- <- <-; eapply events_keep); try done.
  - injection Ha as <- <- <-. destruct HV as [V1 V2 V3 V4]. simpl in *. set (e := event_of _ _ _).
    split; simpl.
    + by rewrite (omap_keep shown calls i (Stamped d timestamp)).
    + by rewrite (omap_keep queued calls i (Stamped d timestamp)).
    + lia.
    + intros Hlt. destruct V4 as [H1 H2]; [lia|].
      assert (omap issued (<[i := Queueing e]> calls) ≡ₚ e :: omap issued calls) as Ei by by eapply omap_gain.
      split.
      * rewrite Ei, fmap_cons. apply NoDup_cons. split; [|done]. intros (e' & E & Hin)%list_elem_of_fmap.
        destruct (H2 e' Hin). simpl in E. lia.
      * intros e'. rewrite Ei. intros [->|Hin]%elem_of_cons; [simpl; lia|]. destruct (H2 e' Hin). lia.
  - injection Ha as <- <- <-. destruct HV as [V1 V2 V3 V4]. simpl in *.
    assert (omap queued (<[i := Showing event]> calls) ≡ₚ event :: omap queued calls) as Eq by by eapply omap_gain.
    assert (eh_seen (try_send (Persist event) h) = eh_seen h ∧ eh_sequence (try_send (Persist event) h) = eh_sequence h)
      as [F1 F3] by (unfold try_send; by destruct (_ && _)).
    split; simpl.
    + by rewrite F1, (omap_keep shown calls i (Queueing event)).
    + rewrite Eq. unfold try_send. destruct (_ && _); simpl.
      * rewrite omap_app. simpl. rewrite <- Permutation_cons_append. by apply submseteq_skip.
      * by apply submseteq_cons.
    + by rewrite F3.
    + rewrite F3, (omap_keep issued calls i (Queueing event)) by done. intros Hlt. destruct (V4 Hlt) as [H1 H2].
      split; [done|]. intros e. rewrite (omap_keep issued calls i (Queueing event)) by done. apply H2.
  - injection Ha as <- <- <-. destruct HV as [V1 V2 V3 V4]. simpl in *. split; simpl.
    + rewrite (omap_gain shown calls i (Showing event) (Emitted event) event), <- V1 by done.
      by rewrite <- Permutation_cons_append.
    + by rewrite (omap_keep queued calls i (Showing event)).
    + done.
    + rewrite (omap_keep issued calls i (Showing event)) by done. intros Hlt. destruct (V4 Hlt) as [H1 H2].
      split; [done|]. intros e. rewrite (omap_keep issued calls i (Showing event)) by done. apply H2.
  - destruct (send Flush h) as [[[b d] h1]|] eqn:Es; simplify_eq/=.
    destruct (send_events Flush h b d h' (λ _, eq_refl) Es) as (F1 & F2 & F3). by destruct b; eapply events_keep.
  - case_bool_decide; simplify_eq. by eapply events_keep.
  - destruct (send Shutdown h) as [[[b d] h1]|] eqn:Es; simplify_eq/=.
    destruct (send_events Shutdown h b d h' (λ _, eq_refl) Es) as (F1 & F2 & F3). by destruct b; eapply events_keep.
  - case_bool_decide; simplify_eq. by eapply events_keep.
  - destruct (eh_join_lock h); [done|]. destruct (eh_join h); simplify_eq; by eapply events_keep.
  - destruct (eh_open h); simplify_eq. by eapply events_keep.
Qed.

Lemma step_events b w w' : hub_step b w w' → events_ok w → events_ok w'.
Proof.
  intros Hs HV. destruct Hs as [h calls i c n c' h' n' Hi Ha|h calls n h' n' Hw|h calls c Hcd|h calls i c Hi Hw|h calls history].
  - by eapply advance_events.
  - assert (eh_seen h' = eh_seen h ∧ eh_sent h' = eh_sent h ∧ eh_sequence h' = eh_sequence h) as (E1 & E2 & E3).
    { unfold worker in Hw. destruct (eh_in_hand h) as [[e|d|d]|]; [|by simplify_eq|by simplify_eq|by destruct (eh_queue h); simplify_eq].
      destruct (insert_event _ _ _ _) as [[? hi] ?]. by simplify_eq. }
    destruct HV as [V1 V2 V3 V4]. split; simpl in *; by rewrite ?E1, ?E2, ?E3.
  - destruct HV as [V1 V2 V3 V4]. simpl in *. split; simpl; rewrite ?omap_app; simpl; destruct c; rewrite ?app_nil_r; done.
  - assert (eh_seen (dropped c h) = eh_seen h ∧ eh_sent (dropped c h) = eh_sent h ∧ eh_sequence (dropped c h) = eh_sequence h)
      as (E1 & E2 & E3) by by destruct c.
    eapply events_keep; try done; [by destruct c..|by rewrite E2].
  - by destruct HV.
Qed.

(** ** What reachable states satisfy *)

Lemma steps_ok w m e w' : hub_steps w m e w' → hub_ok w → hub_ok w' ∧ grows w.1 w'.1.
Proof.
  intros Hs Hok. induction Hs as [|m e w1 b w2 _ [IH Hg] Hs]; [by split|].
  destruct (step_ok _ _ _ Hs IH) as [H1 H2]. split; [done|by etrans].
Qed.

Lemma start_ok history : hub_ok (hub_start history, []).
Proof. split; [apply log_start|constructor]. Qed.

Lemma start_events history : events_ok (hub_start history, []).
Proof. split; simpl; [done..|unfold U64_MAX; lia|]. intros _. split; [constructor|by intros ? []%elem_of_nil]. Qed.

Lemma steps_events w m e w' : hub_steps w m e w' → events_ok w → events_ok w'.
Proof. intros Hs. induction Hs; [done|]. intros. eapply step_events; eauto. Qed.

(** *** A message and what was sent before it *)

Lemma closed_handled h l :
  log_ok h → eh_open h = false → l `prefix_of` eh_sent h → Forall not_shutdown l → l `prefix_of` eh_handled h.
Proof.
  intros Hl Ho Hp Hn. destruct (lo_closed _ Hl Ho) as (_ & _ & Hh & l0 & d & El & _).
  destruct (prefix_weak_total l (eh_handled h) (eh_sent h) Hp Hh) as [|Hle]; [done|]. exfalso.
  assert (Shutdown d ∈ l) as Hin.
  { destruct Hle as [k ->]. rewrite El. apply elem_of_app. left. apply elem_of_app. right. by left. }
  by apply (proj1 (Forall_forall _ _) Hn) in Hin.
Qed.

Lemma answered_handled h l d oneshots :
  log_ok h → l `prefix_of` eh_sent h → Forall not_shutdown l →
  (∀ d', d' ∈ dones l → (d' < oneshots)%nat) → (oneshots ≤ d)%nat → d ∈ eh_resolved h → l `prefix_of` eh_handled h.
Proof.
  intros Hl Hp Hn Hd Hle [Ho|Hf]%(lo_resolved _ Hl); [by apply closed_handled|].
  destruct (eh_open h) eqn:Ho; [|by apply closed_handled].
  assert (eh_handled h `prefix_of` eh_sent h) as Hh by (eexists; by destruct (lo_open _ Hl Ho)).
  destruct (prefix_weak_total l (eh_handled h) (eh_sent h) Hp Hh) as [|Hlt]; [done|]. exfalso.
  assert (d ∈ dones l) as Hin%Hd; [|lia]. apply (dones_prefix _ _ Hlt), elem_of_dones. by left.
Qed.

(** Where a call stands that was made when the commands [l] had been sent. *)
Definition behind (oneshots : nat) (l : list EventCommand) (h : EventHub) (c : Call) : Prop :=
  match c with
  | FlushSend | ShutSend | Dropped => True
  | FlushWait d | ShutWait d => (oneshots ≤ d)%nat
  | Flushed | ShutTake | ShutJoin | ShutDone => l `prefix_of` eh_handled h
  | _ => False
  end.

Lemma behind_grows o l h h' c : grows h h' → behind o l h c → behind o l h' c.
Proof. intros [_ G _ _ _]. destruct c; simpl; auto; intros Hp; by etrans. Qed.

Lemma advance_behind o l h c n c' h' n' :
  log_ok h → call_ok h c → (o ≤ eh_oneshots h)%nat → l `prefix_of` eh_sent h → Forall not_shutdown l →
  (∀ d', d' ∈ dones l → (d' < o)%nat) →
  behind o l h c → hub_advance c h n = Some (c', h', n') → behind o l h' c'.
Proof.
  intros Hl Hc Ho Hp Hn Hd Hb Ha. destruct (advance_spec _ _ _ _ _ _ Hl Hc Ha) as (Hl' & Hg & Hc').
  destruct c; simpl in Ha, Hb; try done.
  - destruct (send Flush h) as [[[b d] h1]|] eqn:Es; simplify_eq/=.
    destruct (send_spec Flush h b d h' Hl (λ _, eq_refl) Es) as (_ & _ & -> & [(-> & _)|(-> & -> & Hcl)]); [done|].
    by apply closed_handled.
  - case_bool_decide; simplify_eq. by eapply answered_handled.
  - destruct (send Shutdown h) as [[[b d] h1]|] eqn:Es; simplify_eq/=.
    destruct (send_spec Shutdown h b d h' Hl (λ _, eq_refl) Es) as (_ & _ & -> & [(-> & _)|(-> & -> & Hcl)]); [done|].
    by apply closed_handled.
  - case_bool_decide; simplify_eq. by eapply answered_handled.
  - destruct (eh_join_lock h); [done|]. by destruct (eh_join h); simplify_eq.
  - by destruct (eh_open h); simplify_eq.
Qed.

Lemma steps_behind w m e w' i l :
  hub_ok w → hub_steps w m e w' → l `prefix_of` eh_sent w.1 → Forall not_shutdown l →
  (∃ c, w.2 !! i = Some c ∧ behind (eh_oneshots w.1) l w.1 c) →
  ∃ c, w'.2 !! i = Some c ∧ behind (eh_oneshots w.1) l w'.1 c.
Proof.
  intros Hok Hs Hp Hn H0. induction Hs as [|m e w1 b w2 Hs IH Hstep]; [done|].
  destruct IH as (c & Hc & Hb). destruct (steps_ok _ _ _ _ Hs Hok) as [[Hl1 Hc1] Hg].
  destruct (step_ok _ _ _ Hstep (conj Hl1 Hc1)) as [_ Hg'].
  assert (∃ c0, w2.2 !! i = Some c0 ∧ (c0 = c ∨ c0 = Dropped ∨ ∃ n n', hub_advance c w1.1 n = Some (c0, w2.1, n')))
    as (c0 & Hc0 & Hcase).
  { destruct Hstep as [h calls j d n d' h' n' Hj Ha|h calls n h' n' Hw|h calls d Hd|h calls j d Hj Hw|h calls history];
      simpl in *; try (by exists c; auto).
    - destruct (decide (i = j)) as [->|Hne]; [|exists c; rewrite list_lookup_insert_ne by done; auto].
      simplify_eq. exists d'. split; [by apply list_lookup_insert_eq; eapply lookup_lt_Some|]. eauto.
    - exists c. split; [by apply lookup_app_l_Some|auto].
    - destruct (decide (i = j)) as [->|Hne]; [|exists c; rewrite list_lookup_insert_ne by done; auto].
      exists Dropped. split; [by apply list_lookup_insert_eq; eapply lookup_lt_Some|auto]. }
  exists c0. split; [done|]. destruct Hcase as [->|[->|(n & n' & Ha)]]; [by eapply behind_grows|done|].
  eapply (advance_behind _ l w1.1 c); [done|by eapply Forall_lookup_1|apply Hg| |done| |done|exact Ha].
  - etrans; [exact Hp|apply Hg].
  - intros d Hd. apply (lo_fresh _ (proj1 Hok)). by apply (dones_prefix _ _ Hp).
Qed.

(** *** Progress *)

Definition load (c : Call) : nat :=
  match c with
  | Emitting _ => 6 | Stamped _ _ => 5 | Queueing _ => 4 | Showing _ => 1 | Emitted _ => 0
  | FlushSend => 4 | FlushWait _ => 1 | Flushed => 0
  | ShutSend => 6 | ShutWait _ => 3 | ShutTake => 2 | ShutJoin => 1 | ShutDone => 0 | Dropped => 0
  end.
Definition over (c : Call) : bool := (load c =? 0)%nat.
Definition backlog (h : EventHub) : nat := 2 * length (eh_queue h) + length (option_list (eh_in_hand h)).
Definition work_left (w : EventHub * list Call) : nat := sum_list_with load w.2 + backlog w.1.

Lemma load_insert calls i c c' :
  calls !! i = Some c →
  (sum_list_with load (<[i := c']> calls) + load c = sum_list_with load calls + load c')%nat.
Proof.
  revert i. induction calls as [|d calls IH]; intros [|i] Hi; simplify_eq/=; [lia|]. specialize (IH i Hi). lia.
Qed.

Lemma send_backlog make h b d h' :
  send make h = Some (b, d, h') → backlog h' = (backlog h + if b then 2 else 0)%nat.
Proof.
  unfold send. destruct (eh_open h); simpl; [|intros; simplify_eq; unfold backlog; simpl; lia].
  destruct (has_room h); intros; simplify_eq. unfold backlog. simpl. rewrite length_app. simpl. lia.
Qed.

Lemma advance_load c h n c' h' n' :
  hub_advance c h n = Some (c', h', n') → (load c' + backlog h' < load c + backlog h)%nat.
Proof.
  intros Ha. destruct c; simpl in Ha; try (by injection Ha as <- <- <-; unfold backlog; simpl; lia); try done.
  - injection Ha as <- <- <-. unfold try_send. destruct (_ && _); unfold backlog; simpl; rewrite ?length_app; simpl; lia.
  - destruct (send Flush h) as [[[[] d] h1]|] eqn:Es; simplify_eq/=; rewrite (send_backlog _ _ _ _ _ Es); lia.
  - case_bool_decide; simplify_eq. simpl. lia.
  - destruct (send Shutdown h) as [[[[] d] h1]|] eqn:Es; simplify_eq/=; rewrite (send_backlog _ _ _ _ _ Es); lia.
  - case_bool_decide; simplify_eq. simpl. lia.
  - destruct (eh_join_lock h); [done|]. destruct (eh_join h); simplify_eq; unfold backlog; simpl; lia.
  - destruct (eh_open h); simplify_eq; unfold backlog; simpl; lia.
Qed.

Lemma worker_load h n h' n' : worker h n = Some (h', n') → (backlog h' < backlog h)%nat.
Proof.
  unfold worker, backlog. destruct (eh_in_hand h) as [[e|d|d]|]; [|by intros [= <- _]; simpl; lia..|].
  - destruct (insert_event _ _ _ _) as [[? hi] ?]. intros [= <- _]. simpl. lia.
  - destruct (eh_queue h); [done|]. intros [= <- _]. simpl. lia.
Qed.

Lemma step_work b w w' :
  hub_step b w w' → (work_left w' + (if b then 1 else 0) ≤ work_left w + (if b then 0 else 6))%nat.
Proof.
  unfold work_left. intros [h calls i c n c' h' n' Hi Ha|h calls n h' n' Hw|h calls c Hcd|h calls i c Hi Hw|h calls history]; simpl.
  - pose proof (load_insert calls i c c' Hi). pose proof (advance_load _ _ _ _ _ _ Ha). lia.
  - pose proof (worker_load _ _ _ _ Hw). lia.
  - rewrite sum_list_with_app. simpl. destruct c; simpl in *; try done; lia.
  - pose proof (load_insert calls i c Dropped Hi).
    assert (backlog (dropped c h) = backlog h) as -> by by destruct c. simpl in *. lia.
  - unfold backlog. simpl. lia.
Qed.

Lemma steps_work w m e w' : hub_steps w m e w' → (work_left w' + m ≤ work_left w + 6 * e)%nat.
Proof.
  induction 1 as [|m e w1 b w2 _ IH Hs]; [lia|]. pose proof (step_work _ _ _ Hs). destruct b; lia.
Qed.

(** The lock on the worker's handle is held by a call that waits for the worker. *)
Definition lock_ok (w : EventHub * list Call) : Prop :=
  eh_join_lock w.1 = true → ∃ i, w.2 !! i = Some ShutJoin.

Lemma step_lock b w w' : hub_step b w w' → lock_ok w → lock_ok w'.
Proof.
  intros Hs Hl. unfold lock_ok in *.
  destruct Hs as [h calls i c n c' h' n' Hi Ha|h calls n h' n' Hw|h calls c Hcd|h calls i c Hi Hw|h calls history]; simpl in *.
  - intros Hk. assert (c' = ShutJoin ∨ c ≠ ShutJoin ∧ eh_join_lock h = true) as [->|[Hne Hk']].
    { destruct c; simpl in Ha; try (by injection Ha as <- <- <-; right); try done.
      - injection Ha as <- <- <-. right. revert Hk. unfold try_send. by destruct (_ && _).
      - destruct (send Flush h) as [[[b0 d] h1]|] eqn:Es; simplify_eq/=. unfold send in Es. right.
        destruct (eh_open h); simpl in Es; [destruct (has_room h)|]; by simplify_eq.
      - case_bool_decide; simplify_eq. by right.
      - destruct (send Shutdown h) as [[[b0 d] h1]|] eqn:Es; simplify_eq/=. unfold send in Es. right.
        destruct (eh_open h); simpl in Es; [destruct (has_room h)|]; by simplify_eq.
      - case_bool_decide; simplify_eq. by right.
      - destruct (eh_join_lock h) eqn:E; [done|]. destruct (eh_join h); simplify_eq; [by left|congruence].
      - by destruct (eh_open h); simplify_eq. }
    + exists i. apply list_lookup_insert_eq. by eapply lookup_lt_Some.
    + destruct (Hl Hk') as [j Hj]. exists j. rewrite list_lookup_insert_ne; [done|]. intros ->. by simplify_eq.
  - intros Hk. apply Hl. revert Hk. unfold worker in Hw.
    destruct (eh_in_hand h) as [[e|d|d]|]; [|by simplify_eq..|by destruct (eh_queue h); simplify_eq].
    destruct (insert_event _ _ _ _) as [[? hi] ?]. by simplify_eq.
  - intros Hk. destruct (Hl Hk) as [j Hj]. exists j. by apply lookup_app_l_Some.
  - intros Hk. assert (c ≠ ShutJoin ∧ eh_join_lock h = true) as [Hne Hk'] by by destruct c.
    destruct (Hl Hk') as [j Hj]. exists j. rewrite list_lookup_insert_ne; [done|]. intros ->. by simplify_eq.
  - done.
Qed.

Lemma steps_lock w m e w' : hub_steps w m e w' → lock_ok w → lock_ok w'.
Proof. intros Hs. induction Hs; [done|]. intros. eapply step_lock; eauto. Qed.

(** With the worker idle, every call that has not returned can go on. *)
Lemma idle_advances h calls c :
  (0 < queue_capacity)%nat → hub_ok (h, calls) → worker h 0 = None → c ∈ calls → over c = false →
  is_Some (hub_advance c h 0) ∨ c = ShutTake ∧ eh_join_lock h = true ∧ eh_open h = false.
Proof.
  intros Hcap [Hl Hc] Hw Hin Hov. simpl in *. pose proof (proj1 (Forall_forall _ _) Hc c Hin) as Hk.
  assert (eh_queue h = [] ∧ eh_in_hand h = None) as [Eq Ei].
  { unfold worker in Hw. destruct (eh_in_hand h) as [[e|d|d]|]; [by destruct (insert_event _ _ _ _) as [[]]|done..|].
    by destruct (eh_queue h). }
  assert (∀ d, d ∈ dones (eh_sent h) → bool_decide (d ∈ eh_resolved h) = true) as Hres.
  { intros d Hd. apply bool_decide_eq_true, (lo_answered _ Hl). destruct (eh_open h) eqn:Ho; [left|by right].
    destruct (lo_open _ Hl Ho) as [Es _]. rewrite Ei, Eq in Es. simpl in Es. by rewrite Es, app_nil_r in Hd. }
  assert (has_room h = true) as Hroom by (unfold has_room; rewrite Eq; by apply Nat.ltb_lt).
  destruct c; simpl in *; try done; try (by left).
  - left. unfold send. rewrite Hroom. by destruct (eh_open h).
  - left. rewrite Hres; [done|]. apply elem_of_dones. by left.
  - left. unfold send. rewrite Hroom. by destruct (eh_open h).
  - left. rewrite Hres; [done|]. apply elem_of_dones. by right.
  - destruct (eh_join_lock h) eqn:E; [by right|left]. by destruct (eh_join h).
  - left. by rewrite Hk.
Qed.

(** *** What the worker writes *)

Definition event_row (event : CoreEvent) : EventRow := {|
  e_revision := ce_revision event; e_timestamp := ce_timestamp event; e_scope := ce_scope event;
  e_transfer_id := ce_transfer_id event; e_direction := ce_direction event; e_phase := ce_phase event;
  e_kind := ce_kind event; e_data_json := ce_data_json event |}.

(** The numbers fit the columns. *)
Definition storable (event : CoreEvent) : Prop :=
  ce_revision event ≤ I64_MAX ∧ (∀ t, ce_transfer_id event = Some t → t ≤ I64_MAX) ∧ max_history ≤ I64_MAX.

#[local] Instance storable_dec event : Decision (storable event).
Proof.
  assert (Decision (∀ t, ce_transfer_id event = Some t → t ≤ I64_MAX)).
  { destruct (ce_transfer_id event) as [t|]; [|by left].
    destruct (decide (t ≤ I64_MAX)) as [?|Hn]; [left; by intros ? [= <-]|right; intros Ht; by apply Hn, Ht]. }
  unfold storable. apply _.
Defined.

(** The event is in the history, which keeps the newest [max_history]; or it could not be
    written, and the history is as it was. *)
Definition written (event : CoreEvent) (history history' : History) : Prop :=
  history' = on_events (λ events, retained (<[ce_id event := event_row event]> events) max_history) history ∨
  history' = history ∧ ((∃ i why, io_fault i = Some why) ∨ ¬ storable event).

Lemma insert_event_written event history n :
  wp (insert_event event max_history) history n (λ _ history' _, written event history history').
Proof.
  assert (∀ i why, io_fault i = Some why → written event history history) as Hfault.
  { intros i why E. right. split; [done|]. left. eauto. }
  assert (¬ storable event → written event history history) as Hstore by (intros; right; split; [done|by right]).
  assert (∀ v, v ≤ I64_MAX → to_db_id v = Ok v) as Hid by (intros v Hv; unfold to_db_id; by apply Z.leb_le in Hv as ->).
  destruct (decide (storable event)) as [(Hr & Ht & Hm)|Hn].
  - assert (option_transpose to_db_id (ce_transfer_id event) = Ok (ce_transfer_id event)) as Et.
    { destruct (ce_transfer_id event) as [t|]; [|done]. simpl. by rewrite Hid by by apply Ht. }
    unfold wp, insert_event, asql_tx, transaction, mbind, M_bind, of_result. rewrite Et, !Hid by done.
    unfold asql, map_err, stmt.
    destruct (io_fault n) eqn:E0; [by eapply Hfault|]. destruct (io_fault (S n)) eqn:E1; [by eapply Hfault|]. simpl.
    destruct (io_fault (S (S n))) eqn:E2; [by eapply Hfault|]. simpl.
    destruct (io_fault (S (S (S n)))) eqn:E3; [by eapply Hfault|]. by left.
  - apply wp_asql_tx; [by intros; apply Hstore|]. apply wp_bind, wp_to_db_id; [done|]. intros Hr.
    apply wp_bind, wp_of_result. destruct (option_transpose _ _) as [t|e] eqn:Et; [|done].
    apply wp_bind, wp_asql; [done|]. intros _ [] h1 _. apply wp_bind, wp_to_db_id; [done|]. intros Hm.
    exfalso. apply Hn. split_and!; [done| |done]. intros t' E. rewrite E in Et. simpl in Et. unfold to_db_id in Et.
    by destruct (Z.leb_spec t' I64_MAX).
Qed.

(** A step of the program writes an event when it deals with it, and never otherwise. *)
Definition records (h h' : EventHub) : Prop :=
  (∃ event, eh_in_hand h = Some (Persist event) ∧ eh_handled h' = eh_handled h ++ [Persist event] ∧
     written event (eh_history h) (eh_history h')) ∨
  eh_history h' = eh_history h ∧ omap persisted (eh_handled h') = omap persisted (eh_handled h).

Lemma step_records w w' : hub_step true w w' → records w.1 w'.1.
Proof.
  intros Hs. remember true as b eqn:Eb.
  destruct Hs as [h calls i c n c' h' n' Hi Ha|h calls n h' n' Hw|h calls c Hcd|h calls i c Hi Hw|h calls history]; try done.
  - right. simpl. assert (eh_history h' = eh_history h ∧ eh_handled h' = eh_handled h) as [-> ->]; [|done].
    destruct c; simpl in Ha; try (by injection Ha as <- <- <-); try done.
    + injection Ha as <- <- <-. unfold try_send. by destruct (_ && _).
    + destruct (send Flush h) as [[[b0 d] h1]|] eqn:Es; simplify_eq/=. unfold send in Es.
      destruct (eh_open h); simpl in Es; [destruct (has_room h)|]; by simplify_eq.
    + case_bool_decide; by simplify_eq.
    + destruct (send Shutdown h) as [[[b0 d] h1]|] eqn:Es; simplify_eq/=. unfold send in Es.
      destruct (eh_open h); simpl in Es; [destruct (has_room h)|]; by simplify_eq.
    + case_bool_decide; by simplify_eq.
    + destruct (eh_join_lock h); [done|]. destruct (eh_join h); by simplify_eq.
    + by destruct (eh_open h); simplify_eq.
  - simpl. unfold worker in Hw. destruct (eh_in_hand h) as [[e|d|d]|] eqn:Ei.
    + pose proof (insert_event_written e (eh_history h) n) as Hins. unfold wp in Hins.
      destruct (insert_event _ _ _ _) as [[res hi] n1]. simplify_eq. left. by exists e.
    + simplify_eq. right. simpl. rewrite omap_app. simpl. by rewrite app_nil_r.
    + simplify_eq. right. simpl. rewrite omap_app. simpl. by rewrite app_nil_r.
    + destruct (eh_queue h); [done|]. simplify_eq. by right.
Qed.

(** ** Properties *)

(** The calls that have come back. *)
Definition came_back (c : Call) : bool := match c with Flushed | ShutDone => true | _ => false end.
Definition asks (c : Call) : bool := match c with FlushSend | ShutSend => true | _ => false end.

(** C15: however threads and the worker interleave, the application is shown every event once,
    and what goes to the history is a part of that, in the order of the channel, each event at
    most once; as long as the counter does not saturate no two events share a revision. The
    channel never holds more than its capacity. The worker writes each event that it deals with:
    afterwards the event is in the history, cut to its newest rows, unless a statement failed or
    a number does not fit its column, and then the history is as it was; no other step of the
    program changes it. When [flush] or [shutdown] comes back, the worker has dealt with everything
    that was sent before the call, provided that this holds no earlier request to stop, after
    which the worker deals with nothing. *)
Theorem events_pass_in_order history m e w (Hs : hub_steps (hub_start history, []) m e w) :
  eh_seen w.1 ≡ₚ omap shown w.2 ∧
  omap persisted (eh_sent w.1) ⊆+ omap queued w.2 ∧
  eh_handled w.1 `prefix_of` eh_sent w.1 ∧
  (length (eh_queue w.1) ≤ queue_capacity)%nat ∧
  (eh_sequence w.1 < U64_MAX → NoDup (ce_revision <$> omap issued w.2)) ∧
  (∀ w', hub_step true w w' → records w.1 w'.1) ∧
  (∀ m' e' w' i c c' l, hub_steps w m' e' w' → w.2 !! i = Some c → asks c = true →
     l `prefix_of` eh_sent w.1 → Forall not_shutdown l →
     w'.2 !! i = Some c' → came_back c' = true → l `prefix_of` eh_handled w'.1).
Proof.
  destruct (steps_ok _ _ _ _ Hs (start_ok history)) as [[Hl Hc] _].
  destruct (steps_events _ _ _ _ Hs (start_events history)) as [V1 V2 V3 V4].
  split_and!; [done|done| |apply Hl| |by intros w'; apply step_records|].
  - destruct (eh_open w.1) eqn:Ho; [|by destruct (lo_closed _ Hl Ho) as (_ & _ & ? & _)].
    eexists. by destruct (lo_open _ Hl Ho).
  - intros Hlt. by destruct (V4 Hlt).
  - intros m' e' w' i c c' l Hs' Hi Ha Hp Hn Hi' Hb.
    destruct (steps_behind w m' e' w' i l) as (c0 & Hi0 & Hb0); [by split|done..| |].
    + exists c. split; [done|]. by destruct c.
    + simplify_eq. by destruct c'.
Qed.

(** C16: every emit, [flush] and [shutdown] returns: after [e] calls and other events from
    outside, the calls and the worker take at most [6e] steps, and until every call has returned
    or was dropped one of them can go on. *)
Theorem hub_calls_return history m e w (Hcap : (0 < queue_capacity)%nat)
    (Hs : hub_steps (hub_start history, []) m e w) :
  (m ≤ 6 * e)%nat ∧ (Forall (λ c, over c = true) w.2 ∨ ∃ w', hub_step true w w').
Proof.
  split; [pose proof (steps_work _ _ _ _ Hs) as Hm; unfold work_left, backlog in Hm; simpl in Hm; lia|].
  destruct (decide (Forall (λ c, over c = true) w.2)) as [|Hn]; [by left|right].
  destruct (steps_ok _ _ _ _ Hs (start_ok history)) as [Hok _].
  assert (lock_ok w) as Hlock by by eapply steps_lock.
  destruct w as [h calls]. destruct (worker h 0) as [[h' n']|] eqn:Hw; [eexists; by eapply worker_runs|].
  apply not_Forall_Exists in Hn; [|apply _]. apply Exists_exists in Hn as (c & Hin & Hov).
  apply not_true_is_false in Hov.
  destruct (idle_advances h calls c Hcap Hok Hw Hin Hov) as [[[[c' h'] n'] Ha]|(-> & Hlk & Ho)].
  - apply list_elem_of_lookup in Hin as [i Hi]. eexists. by eapply call_runs.
  - destruct (Hlock Hlk) as [j Hj]. eexists. eapply (call_runs h calls j ShutJoin 0); [done|]. simpl in *. by rewrite Ho.
Qed.
End Hub.

(** Phases go back and forth between their texts and their constructors. *)
Lemma phase_roundtrip phase : phase_parse (phase_as_str phase) = Some phase.
Proof. by destruct phase. Qed.

Lemma phase_parse_sound value phase : phase_parse value = Some phase → phase_as_str phase = value.
Proof. unfold phase_parse. intros. repeat case_match; simplify_eq; bool_simpl; done. Qed.

(** The history keeps the events whose ids come last as texts, not those with the highest
    revisions: of two events of one millisecond, the ninth outlives the tenth. *)
Definition hub_row (revision : Z) : EventRow := {|
  e_revision := revision; e_timestamp := 5; e_scope := "endpoint"; e_transfer_id := None; e_direction := None;
  e_phase := "network"; e_kind := "k"; e_data_json := "{}" |}.
Lemma retention_compares_texts :
  retained_ids {[ "5-9"%string := hub_row 9; "5-10"%string := hub_row 10 ]} 1 = ["5-9"]%string.
Proof. vm_compute. reflexivity. Qed.

(** ** Witnesses *)

Section Witness.
#[local] Instance hub_env : Env := quiet_env 5 (λ _, "uuid"%string).

Definition hub_draft (kind : string) : option Draft := emit_endpoint "network" kind VNull.
Definition demo_draft : Draft := default {| dr_scope := Endpoint; dr_transfer_id := None; dr_direction := None;
  dr_phase := Phase.Network; dr_kind := ""; dr_data := VNull |} (hub_draft "relay-status").
Definition empty_history : History := {|
  transfers := ∅; received_artifacts := ∅; transfer_events := ∅; receiver_requests := ∅; pending_delivery_receipts := ∅ |}.

(** The turns of calls ([Some i]) and of the worker ([None]). *)
Fixpoint hub_play (turns : list (option nat)) (w : EventHub * list Call) : option (EventHub * list Call) :=
  match turns with
  | [] => Some w
  | Some i :: turns =>
      match w.2 !! i ≫= λ c, hub_advance id (λ _, "{}"%string) 1 c w.1 0 with
      | Some (c, h, _) => hub_play turns (h, <[i := c]> w.2)
      | None => None
      end
  | None :: turns =>
      match worker 10 w.1 0 with Some (h, _) => hub_play turns (h, w.2) | None => None end
  end.

Lemma hub_play_steps turns w0 m e w w' :
  hub_steps id (λ _, "{}"%string) 1 10 w0 m e w → hub_play turns w = Some w' →
  ∃ m', hub_steps id (λ _, "{}"%string) 1 10 w0 m' e w'.
Proof.
  revert m w. induction turns as [|[i|] turns IH]; intros m [h calls] Hs Hp; simplify_eq/=; [eauto|..].
  - destruct (calls !! i) as [c|] eqn:Hi; simpl in Hp; [|done].
    destruct (hub_advance _ _ _ _ _ _) as [[[c' h'] n']|] eqn:Ha; [|done]. eapply IH; [|exact Hp].
    pose proof (steps_more _ _ _ _ _ _ _ _ _ _ Hs (call_runs _ _ _ _ _ _ _ _ _ _ _ _ Hi Ha)) as Hm.
    simpl in Hm. rewrite Nat.add_0_r in Hm. exact Hm.
  - destruct (worker _ _ _) as [[h' n']|] eqn:Hw; [|done]. eapply IH; [|exact Hp].
    pose proof (steps_more _ _ _ _ _ _ _ _ _ _ Hs (worker_runs _ _ _ _ _ calls _ _ _ Hw)) as Hm.
    simpl in Hm. rewrite Nat.add_0_r in Hm. exact Hm.
Qed.

(** Two events are emitted, the second one while the channel is full; a flush waits for the first. *)
Definition hub_called : EventHub * list Call :=
  (hub_start empty_history, [Emitting demo_draft; Emitting demo_draft; FlushSend]).
Definition turns_sent : list (option nat) := [Some 0; Some 1; Some 1; Some 0; Some 1; Some 0; Some 0; Some 1]%nat.
Definition turns_flushed : list (option nat) := [None; Some 2; None; None; None; Some 2]%nat.
Definition hub_sent : EventHub * list Call := default hub_called (hub_play turns_sent hub_called).
Definition hub_flushed : EventHub * list Call := default hub_called (hub_play turns_flushed hub_sent).

Lemma hub_sent_played : hub_play turns_sent hub_called = Some hub_sent.
Proof. vm_compute. reflexivity. Qed.
Lemma hub_flushed_played : hub_play turns_flushed hub_sent = Some hub_flushed.
Proof. vm_compute. reflexivity. Qed.

Lemma hub_calls_steps : hub_steps id (λ _, "{}"%string) 1 10 (hub_start empty_history, []) 0 3 hub_called.
Proof.
  pose proof (steps_none id (λ _, "{}"%string) 1 10 (hub_start empty_history, [])) as H0.
  pose proof (steps_more _ _ _ _ _ _ _ _ _ _ H0 (call_comes _ _ _ _ _ _ (Emitting demo_draft) eq_refl)) as H1.
  pose proof (steps_more _ _ _ _ _ _ _ _ _ _ H1 (call_comes _ _ _ _ _ _ (Emitting demo_draft) eq_refl)) as H2.
  exact (steps_more _ _ _ _ _ _ _ _ _ _ H2 (call_comes _ _ _ _ _ _ FlushSend eq_refl)).
Qed.

Lemma events_pass_in_order_witness :
  (ce_revision <$> eh_seen hub_sent.1) = [2; 1] ∧ (done_of <$> eh_sent hub_sent.1) = [None] ∧
  hub_flushed.2 !! 2%nat = Some Flushed ∧ eh_sent hub_sent.1 `prefix_of` eh_handled hub_flushed.1.
Proof.
  assert (hub_flushed.2 !! 2%nat = Some Flushed) as Ef by (vm_compute; reflexivity).
  split; [vm_compute; reflexivity|]. split; [vm_compute; reflexivity|]. split; [exact Ef|].
  destruct (hub_play_steps _ _ _ _ _ _ hub_calls_steps hub_sent_played) as [m Hs].
  destruct (hub_play_steps _ _ 0 0 _ _ (steps_none _ _ _ _ _) hub_flushed_played) as [m' Hs'].
  destruct (events_pass_in_order id (λ _, "{}"%string) 1 10 empty_history m 3 hub_sent Hs) as (_ & _ & _ & _ & _ & _ & Hb).
  apply (Hb m' 0%nat hub_flushed 2%nat FlushSend Flushed);
    [exact Hs'|vm_compute; reflexivity|reflexivity|reflexivity| |exact Ef|reflexivity].
  assert (Forall not_shutdown (take 1 (eh_sent hub_sent.1)) ∧ take 1 (eh_sent hub_sent.1) = eh_sent hub_sent.1) as [Hn E];
    [split; [by vm_compute; constructor|vm_compute; reflexivity]|].
  rewrite <- E. exact Hn.
Defined.

Lemma hub_calls_return_witness :
  hub_sent.2 !! 2%nat = Some FlushSend ∧ ∃ w', hub_step id (λ _, "{}"%string) 1 10 true hub_sent w'.
Proof.
  assert (hub_sent.2 !! 2%nat = Some FlushSend) as Ef by (vm_compute; reflexivity). split; [exact Ef|].
  destruct (hub_play_steps _ _ _ _ _ _ hub_calls_steps hub_sent_played) as [m Hs].
  destruct (hub_calls_return id (λ _, "{}"%string) 1 10 empty_history m 3 hub_sent) as [_ [Hall|Hw]];
    [lia|exact Hs| |exact Hw].
  pose proof (Forall_lookup_1 _ _ _ _ Hall Ef) as Hov. discriminate Hov.
Defined.
End Witness.
