(* ===== verification/LinuxState.v ===== *)
(** * [src/linux/src]: the state behind the Linux application

    [composer.rs]: what the user puts together before a transfer; [draft.rs]: the files picked
    for it; [events.rs]: the bounded history of events the views read; [devices.rs]: what is
    shown of each device, and which decisions reach the core; [targeted.rs]: which actions a
    targeted transfer offers. Widgets and translations are left out; JSON is a parameter. *)

From S2P Require Import Prelude Sql ControlPlane Errors States Api Filesystem TargetedStore Access Invitation Relationship Pairing.

(** [crate::error::Result]: the key of a message. *)
Abbreviation Shown A := (result A string).

(** ** [composer.rs] *)

Module Composer.

Inductive SelectionMode : Type := Replace | Add.
#[global] Instance SelectionMode_eq_dec : EqDecision SelectionMode.
Proof. solve_decision. Defined.

Inductive Phase : Type :=
| Editing
| Picking (request : Z) (mode : SelectionMode)
| Submitting
| Closed.
#[global] Instance Phase_eq_dec : EqDecision Phase.
Proof. solve_decision. Defined.

Record DraftSource : Type := { ds_id : Z; ds_source : ShareSource }.

Record Submission : Type := {
  sub_sources : list ShareSource;
  sub_transfer_name : string;
  sub_sender_name : string;
  sub_access_mode : TransferAccessMode
}.

Record TransferDraft : Type := {
  sources : list DraftSource;
  transfer_name : string;
  sender_name : string;
  access_mode : TransferAccessMode;
  automatic_name : bool;
  phase : Phase;
  next_request : Z;
  next_source : Z
}.

Definition new (sender_name : string) : TransferDraft := {|
  sources := []; transfer_name := ""; sender_name := sender_name; access_mode := ApprovalRequired;
  automatic_name := true; phase := Editing; next_request := 1; next_source := 1 |}.

Definition with_sources (s : list DraftSource) (next : Z) (d : TransferDraft) : TransferDraft := {|
  sources := s; transfer_name := transfer_name d; sender_name := sender_name d; access_mode := access_mode d;
  automatic_name := automatic_name d; phase := phase d; next_request := next_request d; next_source := next |}.
Definition with_name (automatic : bool) (name : string) (d : TransferDraft) : TransferDraft := {|
  sources := sources d; transfer_name := name; sender_name := sender_name d; access_mode := access_mode d;
  automatic_name := automatic; phase := phase d; next_request := next_request d; next_source := next_source d |}.
Definition with_sender (name : string) (mode : TransferAccessMode) (d : TransferDraft) : TransferDraft := {|
  sources := sources d; transfer_name := transfer_name d; sender_name := name; access_mode := mode;
  automatic_name := automatic_name d; phase := phase d; next_request := next_request d; next_source := next_source d |}.
Definition with_phase (p : Phase) (d : TransferDraft) : TransferDraft := {|
  sources := sources d; transfer_name := transfer_name d; sender_name := sender_name d; access_mode := access_mode d;
  automatic_name := automatic_name d; phase := p; next_request := next_request d; next_source := next_source d |}.
Definition with_request (d : TransferDraft) : TransferDraft := {|
  sources := sources d; transfer_name := transfer_name d; sender_name := sender_name d; access_mode := access_mode d;
  automatic_name := automatic_name d; phase := phase d; next_request := next_request d + 1;
  next_source := next_source d |}.

Definition editable (d : TransferDraft) : bool := bool_decide (phase d = Editing).
Definition is_submitting (d : TransferDraft) : bool := bool_decide (phase d = Submitting).

Definition can_submit (d : TransferDraft) : bool :=
  editable d && negb (bool_decide (sources d = [])) && negb (str_is_empty (trim (transfer_name d))).

Definition change_transfer_name (value : string) (d : TransferDraft) : TransferDraft :=
  if editable d then with_name false value d else d.
Definition change_sender_name (value : string) (d : TransferDraft) : TransferDraft :=
  if editable d then with_sender value (access_mode d) d else d.
Definition change_access_mode (value : TransferAccessMode) (d : TransferDraft) : TransferDraft :=
  if editable d then with_sender (sender_name d) value d else d.

Definition begin_pick (mode : SelectionMode) (d : TransferDraft) : TransferDraft * option Z :=
  if negb (editable d) then (d, None)
  else (with_phase (Picking (next_request d) mode) (with_request d), Some (next_request d)).

Section Names.
Variable multiple_files_name : nat → string.

Definition name_of (s : list DraftSource) : string :=
  match s with
  | [] => ""
  | [item] => default "" (ss_display_name (ds_source item))
  | items => multiple_files_name (length items)
  end.
Definition update_name (d : TransferDraft) : TransferDraft :=
  if automatic_name d then with_name true (name_of (sources d)) d else d.

(** The loop over the picked sources: the selection and the next id. *)
Definition select_source (acc : list DraftSource * Z) (source : ShareSource) : list DraftSource * Z :=
  if existsb (λ item, str_eqb (ss_value (ds_source item)) (ss_value source)) acc.1 then acc
  else (acc.1 ++ [{| ds_id := acc.2; ds_source := source |}], acc.2 + 1).

Definition has_directory (s : list DraftSource) : bool := existsb (λ item, ss_is_directory (ds_source item)) s.

Definition complete_pick (request : Z) (picked : Shown (list ShareSource)) (d : TransferDraft) :
    TransferDraft * Shown unit :=
  match phase d with
  | Picking current mode =>
      if negb (request =? current) then (d, Ok tt)
      else
        let d := with_phase Editing d in
        match picked with
        | Err e => (d, Err e)
        | Ok [] => (d, Ok tt)
        | Ok picked =>
            let selected := match mode with Replace => [] | Add => sources d end in
            let '(selected, next) := fold_left select_source picked (selected, next_source d) in
            if (1 <? length selected)%nat && has_directory selected
            then (with_sources (sources d) next d, Err "linux_invalid_selection"%string)
            else
              let d := with_sources selected next d in
              let d := match mode with Replace => with_name true (transfer_name d) d | Add => d end in
              (update_name d, Ok tt)
        end
  | _ => (d, Ok tt)
  end.

Definition remove_source (id : Z) (d : TransferDraft) : TransferDraft :=
  if negb (editable d) then d
  else update_name (with_sources (filter (λ item, ds_id item ≠ id) (sources d)) (next_source d) d).

Definition clear_sources (d : TransferDraft) : TransferDraft :=
  if editable d then with_name true "" (with_sources [] (next_source d) d) else d.

Definition begin_submission (d : TransferDraft) : TransferDraft * option Submission :=
  if negb (can_submit d) then (d, None)
  else (with_phase Submitting d,
        Some {| sub_sources := ds_source <$> sources d; sub_transfer_name := trim (transfer_name d);
                sub_sender_name := trim (sender_name d); sub_access_mode := access_mode d |}).

Definition dismiss (d : TransferDraft) : TransferDraft * bool :=
  if is_submitting d then (d, false) else (with_sources [] (next_source d) (with_phase Closed d), true).

Definition finish_submission (succeeded : bool) (d : TransferDraft) : TransferDraft :=
  if is_submitting d then
    let d := with_phase Editing d in
    if succeeded then (dismiss d).1 else d
  else d.

(** What the user and the pickers do. *)
Inductive DraftOp : Type :=
| ChangeTransferName (value : string)
| ChangeSenderName (value : string)
| ChangeAccessMode (value : TransferAccessMode)
| BeginPick (mode : SelectionMode)
| CompletePick (request : Z) (picked : Shown (list ShareSource))
| RemoveSource (id : Z)
| ClearSources
| BeginSubmission
| FinishSubmission (succeeded : bool)
| Dismiss.

Definition draft_step (d : TransferDraft) (op : DraftOp) : TransferDraft :=
  match op with
  | ChangeTransferName value => change_transfer_name value d
  | ChangeSenderName value => change_sender_name value d
  | ChangeAccessMode value => change_access_mode value d
  | BeginPick mode => (begin_pick mode d).1
  | CompletePick request picked => (complete_pick request picked d).1
  | RemoveSource id => remove_source id d
  | ClearSources => clear_sources d
  | BeginSubmission => (begin_submission d).1
  | FinishSubmission succeeded => finish_submission succeeded d
  | Dismiss => (dismiss d).1
  end.

(** *** The invariant of a draft *)

Definition values (s : list DraftSource) : list string := (λ item, ss_value (ds_source item)) <$> s.

Record selection_ok (s : list DraftSource) (next : Z) : Prop := {
  so_values : NoDup (values s);
  so_ids : NoDup (ds_id <$> s);
  so_fresh item : item ∈ s → ds_id item < next
}.

Record draft_ok (d : TransferDraft) : Prop := {
  do_selection : selection_ok (sources d) (next_source d);
  do_directory : (1 < length (sources d))%nat → has_directory (sources d) = false;
  do_name : phase d ≠ Closed → automatic_name d = true → transfer_name d = name_of (sources d);
  do_request request mode : phase d = Picking request mode → request < next_request d
}.

Lemma nothing_ok next : selection_ok [] next.
Proof. split; simpl; [constructor..|by intros ? ?%elem_of_nil]. Qed.

Lemma select_source_ok acc source : selection_ok acc.1 acc.2 →
  selection_ok (select_source acc source).1 (select_source acc source).2 ∧ acc.2 ≤ (select_source acc source).2.
Proof.
  intros [S1 S2 S3]. unfold select_source. destruct (existsb _ _) eqn:E; [by split|]. simpl. split; [|lia].
  assert (ss_value source ∉ values acc.1) as Hv.
  { intros (item & Ev & Hin)%list_elem_of_fmap. apply not_true_iff_false in E. apply E, existsb_exists.
    exists item. split; [by apply list_elem_of_In|]. rewrite Ev. apply str_eqb_refl. }
  split; simpl.
  - unfold values. rewrite fmap_app. simpl. apply NoDup_app. split_and!; [done| |apply NoDup_singleton].
    intros v Hin ->%list_elem_of_singleton. done.
  - rewrite fmap_app. simpl. apply NoDup_app. split_and!; [done| |apply NoDup_singleton].
    intros id (item & -> & Hin)%list_elem_of_fmap E'%list_elem_of_singleton. specialize (S3 item Hin). lia.
  - intros item [Hin|Hin]%elem_of_app; [specialize (S3 item Hin); lia|]. apply list_elem_of_singleton in Hin as ->. simpl. lia.
Qed.

Lemma select_sources_ok picked acc : selection_ok acc.1 acc.2 →
  selection_ok (fold_left select_source picked acc).1 (fold_left select_source picked acc).2 ∧
  acc.2 ≤ (fold_left select_source picked acc).2.
Proof.
  revert acc. induction picked as [|source picked IH]; intros acc Hs; simpl; [by split|].
  destruct (select_source_ok acc source Hs) as [H1 H2]. destruct (IH _ H1) as [H3 H4]. split; [done|lia].
Qed.

Lemma selection_later s next next' : selection_ok s next → next ≤ next' → selection_ok s next'.
Proof. intros [S1 S2 S3] Hle. split; [done..|]. intros item Hin. specialize (S3 item Hin). lia. Qed.

Lemma fmap_sublist {A B} (f : A → B) l l' : l `sublist_of` l' → (f <$> l) `sublist_of` (f <$> l').
Proof. induction 1; rewrite ?fmap_cons; by constructor. Qed.

Lemma selection_sub s s' next : s' `sublist_of` s → selection_ok s next → selection_ok s' next.
Proof.
  intros Hs [S1 S2 S3]. split.
  - eapply sublist_NoDup; [exact S1|]. by apply fmap_sublist.
  - eapply sublist_NoDup; [exact S2|]. by apply fmap_sublist.
  - intros item Hin. apply S3. by eapply elem_of_sublist.
Qed.

Lemma update_name_ok d :
  selection_ok (sources d) (next_source d) → ((1 < length (sources d))%nat → has_directory (sources d) = false) →
  (∀ request mode, phase d = Picking request mode → request < next_request d) → draft_ok (update_name d).
Proof.
  intros Hs Hd Hr. unfold update_name. destruct (automatic_name d) eqn:E; split; simpl; try done.
  intros. congruence.
Qed.

Lemma complete_pick_ok request picked d : draft_ok d → draft_ok (complete_pick request picked d).1.
Proof.
  intros Hd. pose proof Hd as [D1 D2 D3 D4]. unfold complete_pick.
  destruct (phase d) as [|current mode| |] eqn:Ep; try done. destruct (negb _); [done|].
  assert (draft_ok (with_phase Editing d)) as Hback by (split; simpl; [done|done| |done]; intros _; by apply D3).
  destruct picked as [[|source picked]|e]; [done| |done].
  set (acc := (match mode with Replace => [] | Add => sources (with_phase Editing d) end, next_source (with_phase Editing d))).
  destruct (select_sources_ok (source :: picked) acc) as [Hsel Hle].
  { destruct mode; [apply nothing_ok|done]. }
  destruct (fold_left select_source (source :: picked) acc) as [selected next]. simpl in Hsel, Hle.
  destruct ((1 <? length selected)%nat && _) eqn:Edir.
  - split; simpl; [|done| |done]; [by eapply selection_later|]. intros _. by apply D3.
  - assert ((1 < length selected)%nat → has_directory selected = false) as Hdir.
    { intros Hlen. apply andb_false_iff in Edir as [E|E]; [|done]. apply Nat.ltb_ge in E. lia. }
    destruct mode; by apply update_name_ok.
Qed.

Lemma draft_step_ok d op : draft_ok d → draft_ok (draft_step d op).
Proof.
  intros Hd. pose proof Hd as [D1 D2 D3 D4]. destruct op; simpl; [..|by apply complete_pick_ok| | | | |].
  - unfold change_transfer_name. destruct (editable d); [|done]. by split.
  - unfold change_sender_name. destruct (editable d); [|done]. by split.
  - unfold change_access_mode. destruct (editable d); [|done]. by split.
  - unfold begin_pick. destruct (editable d) eqn:E; simpl; [|done]. apply bool_decide_eq_true in E.
    split; simpl; [done|done|intros _; apply D3; by rewrite E|intros r m [= <- _]; lia].
  - unfold remove_source. destruct (negb _) eqn:E; [done|]. set (kept := filter _ _).
    assert (kept `sublist_of` sources d) as Hsub by apply sublist_filter.
    apply update_name_ok; simpl; [by eapply selection_sub| |].
    + intros Hlen. apply sublist_length in Hsub as Hl. destruct (has_directory kept) eqn:Edir; [|done].
      assert (has_directory (sources d) = true) as Htrue; [|by rewrite D2 in Htrue by lia].
      apply existsb_exists in Edir as (item & Hin & Ei). apply existsb_exists. exists item. split; [|done].
      apply list_elem_of_In. apply list_elem_of_In in Hin. by eapply elem_of_sublist.
    + done.
  - unfold clear_sources. destruct (editable d); [|done]. split; simpl; try (done || apply nothing_ok).
  - unfold begin_submission. destruct (can_submit d) eqn:E; simpl; [|done]. unfold can_submit, editable in E.
    split; simpl; try done. intros _. apply D3. intros Ep. by rewrite Ep in E.
  - unfold finish_submission. destruct (is_submitting d) eqn:E; [|done]. apply bool_decide_eq_true in E.
    destruct succeeded; simpl; split; simpl; try (done || apply nothing_ok).
    intros _. apply D3. by rewrite E.
  - unfold dismiss. destruct (is_submitting d); simpl; [done|]. split; simpl; try (done || apply nothing_ok).
Qed.

Lemma draft_new_ok sender : draft_ok (new sender).
Proof. split; simpl; try (done || apply nothing_ok). Qed.

Lemma draft_runs_ok ops d : draft_ok d → draft_ok (fold_left draft_step ops d).
Proof. revert d. induction ops as [|op ops IH]; intros d Hd; [done|]. by apply IH, draft_step_ok. Qed.

(** Nothing but its end changes a draft that is being submitted. *)
Lemma submitting_frozen d op : phase d = Submitting → (∀ succeeded, op ≠ FinishSubmission succeeded) → draft_step d op = d.
Proof.
  intros Ep Hop. destruct op; simpl; try (by destruct (Hop succeeded));
    unfold change_transfer_name, change_sender_name, change_access_mode, begin_pick, complete_pick, remove_source,
      clear_sources, begin_submission, can_submit, dismiss, is_submitting, editable; by rewrite Ep.
Qed.

(** Whatever the user and the file pickers do, a submission takes at least one source,
    no place twice, a directory only alone, and a name that is not blank; as long as the user has
    not typed one, the name is that of what is selected. A picker that answers late changes
    nothing, and until a submission ends nothing else changes the draft. *)
Theorem drafts_submit_what_is_selected ops sender :
  let d := fold_left draft_step ops (new sender) in
  draft_ok d ∧
  (∀ d' s, begin_submission d = (d', Some s) →
     sub_sources s ≠ [] ∧ NoDup (ss_value <$> sub_sources s) ∧
     ((1 < length (sub_sources s))%nat → ∀ source, source ∈ sub_sources s → ss_is_directory source = false) ∧
     sub_transfer_name s ≠ ""%string ∧ sub_transfer_name s = trim (transfer_name d) ∧
     ∀ ops', Forall (λ op, ∀ succeeded, op ≠ FinishSubmission succeeded) ops' → fold_left draft_step ops' d' = d') ∧
  (∀ request picked, (∀ mode, phase d ≠ Picking request mode) → complete_pick request picked d = (d, Ok tt)).
Proof.
  intros d. assert (draft_ok d) as Hd by apply draft_runs_ok, draft_new_ok. clearbody d. split; [done|]. split.
  - intros d' s Hb. unfold begin_submission in Hb. destruct (can_submit d) eqn:E; [|done]. simpl in Hb. injection Hb as <- <-.
    unfold can_submit in E. apply andb_true_iff in E as [E E3]. apply andb_true_iff in E as [E1 E2].
    apply negb_true_iff, bool_decide_eq_false in E2. apply negb_true_iff in E3. destruct Hd as [[D1 _ _] D2 _ _]. simpl.
    split_and!; [by destruct (sources d)| | | |done|].
    + by rewrite <- list_fmap_compose.
    + rewrite length_fmap. intros Hlen source (item & -> & Hin)%list_elem_of_fmap.
      specialize (D2 Hlen). unfold has_directory in D2. apply not_true_iff_false in D2.
      destruct (ss_is_directory (ds_source item)) eqn:Ei; [|done]. exfalso. apply D2, existsb_exists.
      exists item. split; [by apply list_elem_of_In|done].
    + intros Et. by rewrite Et in E3.
    + intros ops' Hops. induction Hops as [|op ops' Hop Hops IH]; simpl; [done|]. rewrite submitting_frozen; done.
  - intros request picked Hn. unfold complete_pick. destruct (phase d) as [|current mode| |]; try done.
    destruct (request =? current) eqn:E; [|done]. apply Z.eqb_eq in E as ->. by destruct (Hn mode).
Qed.
End Names.
End Composer.

(** ** [draft.rs]: what may be picked *)

Module Draft.

(** A path: what the file system says of it (a file, a directory), its text and that of its last
    part; both are absent if they are not UTF-8. *)
Record LocalPath : Type := {
  lp_metadata : option (bool * bool);
  lp_str : option string;
  lp_file_name : option string
}.

Definition source_of (path : LocalPath) : Shown ShareSource :=
  match lp_metadata path with
  | None => Err "error_filesystem"%string
  | Some (is_file, is_dir) =>
      if negb is_file && negb is_dir then Err "linux_local_files_only"%string
      else
        match lp_str path with
        | None => Err "linux_local_files_only"%string
        | Some value => Ok {| ss_kind := SourcePath; ss_value := value; ss_display_name := lp_file_name path; ss_is_directory := is_dir |}
        end
  end.

(** The loop; a path that was picked before needs no name. *)
Fixpoint sources_loop (paths : list LocalPath) (result : list ShareSource) : Shown (list ShareSource) :=
  match paths with
  | [] => Ok result
  | path :: paths =>
      let? source := source_of path in
      if existsb (λ held, str_eqb (ss_value held) (ss_value source)) result then sources_loop paths result
      else
        match ss_display_name source with
        | None => Err "linux_local_files_only"%string
        | Some _ => sources_loop paths (result ++ [source])
        end
  end.

Definition sources (paths : list LocalPath) : Shown (list ShareSource) :=
  match paths with
  | [] => Err "error_share_empty"%string
  | _ =>
      let? result := sources_loop paths [] in
      if (1 <? length result)%nat && existsb ss_is_directory result then Err "linux_invalid_selection"%string
      else Ok result
  end.

Lemma sources_loop_ok paths : ∀ result out,
  sources_loop paths result = Ok out → NoDup (ss_value <$> result) →
  NoDup (ss_value <$> out) ∧ (paths ≠ [] ∨ result ≠ [] → out ≠ []).
Proof.
  induction paths as [|path paths IH]; intros result out; cbn; [intros [= <-]; naive_solver|].
  destruct (source_of path) as [source|]; cbn; [|done]. destruct (existsb _ _) eqn:E.
  - intros Hl Hn. destruct (IH _ _ Hl Hn) as [H1 H2]. split; [done|]. intros _. apply H2. right. by intros ->.
  - destruct (ss_display_name source); [|done]. intros Hl Hn. destruct (IH _ _ Hl) as [H1 H2].
    + rewrite fmap_app. apply NoDup_app. split_and!; [done| |apply NoDup_singleton].
      intros v (held & -> & Hin)%list_elem_of_fmap Ev%list_elem_of_singleton. apply not_true_iff_false in E.
      apply E, existsb_exists. exists held. split; [by apply list_elem_of_In|by apply str_eqb_eq].
    + split; [done|]. intros _. apply H2. right. by destruct result.
Qed.

(** Taken one by one, places that are all different are all selected. *)
Lemma select_all picked : ∀ acc, NoDup (Composer.values acc.1 ++ (ss_value <$> picked)) →
  Composer.ds_source <$> (fold_left Composer.select_source picked acc).1 = (Composer.ds_source <$> acc.1) ++ picked.
Proof.
  induction picked as [|source picked IH]; intros acc Hn; cbn; [by rewrite app_nil_r|].
  assert (Composer.select_source acc source =
          (acc.1 ++ [{| Composer.ds_id := acc.2; Composer.ds_source := source |}], acc.2 + 1)) as ->.
  { unfold Composer.select_source. destruct (existsb _ _) eqn:E; [exfalso|done]. revert E.
    intros (item & Hin%list_elem_of_In & Ev%str_eqb_eq)%existsb_exists.
    apply NoDup_app in Hn as (_ & Hn & _). apply (Hn (ss_value source)); [|by left].
    unfold Composer.values. rewrite <- Ev. by apply (list_elem_of_fmap_2 (λ item, ss_value (Composer.ds_source item))). }
  rewrite IH; cbn.
  - rewrite fmap_app, <- app_assoc. done.
  - unfold Composer.values. rewrite fmap_app, <- app_assoc. exact Hn.
Qed.

(** What [sources] accepts is a selection the draft takes as a whole. *)
Lemma picked_sources_are_taken paths picked names request d :
  sources paths = Ok picked → Composer.phase d = Composer.Picking request Composer.Replace →
  picked ≠ [] ∧ (Composer.complete_pick names request (Ok picked) d).2 = Ok tt ∧
  Composer.ds_source <$> Composer.sources (Composer.complete_pick names request (Ok picked) d).1 = picked.
Proof.
  intros Hs Hp. unfold sources in Hs. destruct paths as [|path paths]; [done|].
  destruct (sources_loop _ []) as [out|] eqn:El; cbn [result_bind] in Hs; [|done].
  destruct (_ && _) eqn:Ed; [done|]. injection Hs as ->.
  destruct (sources_loop_ok _ _ _ El) as [Hn He]; [constructor|].
  assert (picked ≠ []) as Hne by (apply He; by left).
  split; [done|]. unfold Composer.complete_pick. rewrite Hp, Z.eqb_refl. cbn [negb].
  destruct picked as [|source picked]; [done|].
  pose proof (select_all (source :: picked) ([], Composer.next_source d) Hn) as Ha.
  change (Composer.next_source (Composer.with_phase Composer.Editing d)) with (Composer.next_source d).
  destruct (fold_left _ (source :: picked) _) as [selected next]. cbn [fst fmap list_fmap app] in Ha.
  assert ((1 <? length selected)%nat && Composer.has_directory selected = false) as ->.
  { rewrite <- Ed. rewrite <- Ha, length_fmap. f_equal. unfold Composer.has_directory. clear.
    induction selected as [|item selected IH]; [done|]. cbn. by rewrite IH. }
  by split.
Qed.
End Draft.

(** ** [events.rs] *)

Module Events.

(** Each event with its progress key, newest first. *)
Record EventHistory : Type := {
  events : list (CoreEvent * option string);
  capacity : nat
}.

Definition new (capacity : nat) : EventHistory := {| events := []; capacity := capacity |}.

Section Merge.
(** [json!([..]).to_string()] of the transfer, the direction, the phase, the kind, and the
    connection and request of the event's data. *)
Variable key_text : CoreEvent → string.

Definition progress_key (e : CoreEvent) : option string :=
  if str_in (ce_kind e) ["progress"; "copy-progress"; "outboard-progress"]%string then Some (key_text e) else None.

(** [(a.timestamp, a.revision) >= (b.timestamp, b.revision)]. *)
Definition stamp_ge (a b : CoreEvent) : bool :=
  (ce_timestamp b <? ce_timestamp a) || ((ce_timestamp b =? ce_timestamp a) && (ce_revision b <=? ce_revision a)).

(** The order of the list: timestamp, revision, id. *)
Definition event_ge (a b : CoreEvent) : bool :=
  (ce_timestamp b <? ce_timestamp a) ||
  ((ce_timestamp b =? ce_timestamp a) &&
   ((ce_revision b <? ce_revision a) || ((ce_revision b =? ce_revision a) && String.leb (ce_id b) (ce_id a)))).
Definition newest_first (x y : CoreEvent * option string) : Prop := event_ge x.1 y.1 = true.
#[global] Instance newest_first_dec : RelDecision newest_first.
Proof. intros x y. unfold newest_first. apply _. Defined.

(** The body of the loop. *)
Definition merge_one (held : list (CoreEvent * option string)) (event : CoreEvent) :
    list (CoreEvent * option string) :=
  if existsb (λ h : CoreEvent * option string, str_eqb (ce_id h.1) (ce_id event)) held then held
  else
    match progress_key event with
    | None => held ++ [(event, None)]
    | Some key =>
        if existsb (λ h : CoreEvent * option string, opt_eqb h.2 key && stamp_ge h.1 event) held then held
        else filter (λ h : CoreEvent * option string, h.2 ≠ Some key) held ++ [(event, Some key)]
    end.

Definition merge (batch : list CoreEvent) (h : EventHistory) : EventHistory := {|
  events := take (capacity h) (order_by newest_first (fold_left merge_one batch (events h)));
  capacity := capacity h |}.

Definition snapshot (h : EventHistory) : list CoreEvent := (events h).*1.

(** *** What a merge keeps *)

#[global] Instance newest_first_total : Total newest_first.
Proof.
  intros x y. unfold newest_first, event_ge. destruct (String.leb_total (ce_id x.1) (ce_id y.1)) as [E|E]; rewrite E;
    destruct (Z.lt_trichotomy (ce_timestamp x.1) (ce_timestamp y.1)) as [|[|]],
      (Z.lt_trichotomy (ce_revision x.1) (ce_revision y.1)) as [|[|]]; lia.
Qed.

#[global] Instance newest_first_trans : Transitive newest_first.
Proof.
  intros x y z. unfold newest_first, event_ge. intros Hxy Hyz.
  destruct (String.leb (ce_id y.1) (ce_id x.1)) eqn:E1, (String.leb (ce_id z.1) (ce_id y.1)) eqn:E2; try lia.
  assert (String.leb (ce_id z.1) (ce_id x.1) = true) as -> by (by eapply str_leb_trans). lia.
Qed.

Lemma newest_stamp x y : newest_first x y → stamp_ge x.1 y.1 = true.
Proof. unfold newest_first, event_ge, stamp_ge. lia. Qed.

Lemma stamp_ge_trans a b c : stamp_ge a b = true → stamp_ge b c = true → stamp_ge a c = true.
Proof. unfold stamp_ge. lia. Qed.

Record held_ok (held : list (CoreEvent * option string)) : Prop := {
  he_ids : NoDup ((λ x : CoreEvent * option string, ce_id x.1) <$> held);
  he_keys : NoDup (omap snd held);
  he_key x : x ∈ held → x.2 = progress_key x.1
}.

Record history_ok (h : EventHistory) : Prop := {
  hy_held : held_ok (events h);
  hy_sorted : Sorted newest_first (events h);
  hy_bound : (length (events h) ≤ capacity h)%nat
}.

(** [e] is in the list, or a progress event with the same key that is at least as new. *)
Definition held_or_newer (held : list (CoreEvent * option string)) (e : CoreEvent) : Prop :=
  ∃ x, x ∈ held ∧ (x.1 = e ∨ x.2 ≠ None ∧ x.2 = progress_key e ∧ stamp_ge x.1 e = true).

Lemma held_ok_add held x :
  held_ok held → x.2 = progress_key x.1 → (∀ y, y ∈ held → ce_id y.1 ≠ ce_id x.1) →
  (∀ y, y ∈ held → y.2 = x.2 → x.2 = None) → held_ok (held ++ [x]).
Proof.
  intros [H1 H2 H3] Hk Hid Hkey. split.
  - rewrite fmap_app. apply NoDup_app. split_and!; [done| |apply NoDup_singleton].
    intros i (y & -> & Hy)%list_elem_of_fmap E%list_elem_of_singleton. by apply (Hid y).
  - rewrite omap_app. apply NoDup_app. split_and!; [done| |].
    + intros k (y & Hy & Ey)%list_elem_of_omap Hin. simpl in Hin. destruct (x.2) as [k'|] eqn:Ex; [|by apply elem_of_nil in Hin].
      apply list_elem_of_singleton in Hin as ->. specialize (Hkey y Hy). rewrite Ey in Hkey. by specialize (Hkey eq_refl).
    + simpl. destruct (x.2); [apply NoDup_singleton|constructor].
  - intros y [Hy|Hy]%elem_of_app; [by apply H3|]. by apply list_elem_of_singleton in Hy as ->.
Qed.

Lemma held_ok_sub held held' : held' `sublist_of` held → held_ok held → held_ok held'.
Proof.
  intros Hs [H1 H2 H3]. split.
  - eapply sublist_NoDup; [exact H1|]. by apply Composer.fmap_sublist.
  - eapply sublist_NoDup; [exact H2|]. clear -Hs. induction Hs as [|x l l' _ IH|x l l' _ IH]; simpl; [constructor|..];
      destruct (x.2); try done; by constructor.
  - intros x Hx. apply H3. by eapply elem_of_sublist.
Qed.

Lemma merge_one_ok held e (known : ∀ x, x ∈ held → ce_id x.1 = ce_id e → x.1 = e) :
  held_ok held → held_ok (merge_one held e) ∧ held_or_newer (merge_one held e) e ∧
  ∀ e', held_or_newer held e' → held_or_newer (merge_one held e) e'.
Proof.
  intros Hok. unfold merge_one. destruct (existsb _ held) eqn:Ei.
  { split_and!; [done| |done]. apply existsb_exists in Ei as (x & Hx%list_elem_of_In & E%str_eqb_eq).
    exists x. split; [done|]. left. by apply known. }
  assert (∀ y, y ∈ held → ce_id y.1 ≠ ce_id e) as Hid.
  { intros y Hy E. apply not_true_iff_false in Ei. apply Ei, existsb_exists. exists y.
    split; [by apply list_elem_of_In|]. by apply str_eqb_eq. }
  destruct (progress_key e) as [key|] eqn:Ek.
  - destruct (existsb (λ h : CoreEvent * option string, opt_eqb h.2 key && stamp_ge h.1 e) held) eqn:En.
    { split_and!; [done| |done]. apply existsb_exists in En as (x & Hx%list_elem_of_In & E). apply andb_true_iff in E as [E1%opt_eqb_eq E2].
      exists x. split; [done|]. right. by rewrite E1, Ek. }
    set (kept := filter _ held). assert (kept `sublist_of` held) as Hsub by apply sublist_filter.
    split_and!.
    + apply held_ok_add; [by eapply held_ok_sub|done| |].
      * intros y Hy. apply Hid. by eapply elem_of_sublist.
      * intros y [Hy _]%list_elem_of_filter E. done.
    + exists (e, Some key). split; [apply elem_of_app; right; by left|by left].
    + intros e' (x & Hx & Hc). destruct (decide (x.2 = Some key)) as [Exk|Hne].
      * exists (e, Some key). split; [apply elem_of_app; right; by left|]. right. simpl.
        assert (stamp_ge e x.1 = true) as Hnew.
        { apply not_true_iff_false in En. destruct (stamp_ge x.1 e) eqn:Es; [|unfold stamp_ge in *; lia].
          destruct En. apply existsb_exists. exists x. split; [by apply list_elem_of_In|]. by rewrite Exk, Es, bool_decide_true || rewrite Es, andb_true_r; apply opt_eqb_eq. }
        destruct Hc as [<-|(_ & E & Es)]; [split_and!; [done| |done]|split_and!; [done|congruence|by eapply stamp_ge_trans]].
        by rewrite <- (he_key _ Hok x Hx).
      * exists x. split; [|done]. apply elem_of_app. left. by apply list_elem_of_filter.
  - split_and!.
    + apply held_ok_add; done.
    + exists (e, None). split; [apply elem_of_app; right; by left|by left].
    + intros e' (x & Hx & Hc). exists x. split; [|done]. apply elem_of_app. by left.
Qed.

Lemma merge_one_from held e x : x ∈ merge_one held e → x ∈ held ∨ x.1 = e.
Proof.
  unfold merge_one. destruct (existsb _ held); [by left|]. destruct (progress_key e).
  - destruct (existsb _ _); [by left|]. intros [[_ Hx]%list_elem_of_filter|Hx]%elem_of_app; [by left|].
    right. by apply list_elem_of_singleton in Hx as ->.
  - intros [Hx|Hx]%elem_of_app; [by left|]. right. by apply list_elem_of_singleton in Hx as ->.
Qed.

Lemma fold_merge_ok (U : CoreEvent → Prop) batch held
    (Hids : ∀ e e', U e → U e' → ce_id e = ce_id e' → e = e') :
  held_ok held → (∀ x, x ∈ held → U x.1) → (∀ e, e ∈ batch → U e) →
  held_ok (fold_left merge_one batch held) ∧
  (∀ e, e ∈ batch → held_or_newer (fold_left merge_one batch held) e) ∧
  (∀ e, held_or_newer held e → held_or_newer (fold_left merge_one batch held) e).
Proof.
  revert held. induction batch as [|e batch IH]; intros held Hok Hheld Hbatch; simpl.
  { split_and!; [done|by intros ? []%elem_of_nil|done]. }
  assert (U e) as He by (apply Hbatch; by left).
  destruct (merge_one_ok held e) as (Hok1 & Hnew & Hkeep); [|done|].
  { intros x Hx E. by apply Hids; [apply Hheld| |]. }
  destruct (IH (merge_one held e)) as (Hok2 & Hall & Hkeep2); [done| |by intros; apply Hbatch; right|].
  { intros x [Hx| ->]%merge_one_from; [by apply Hheld|done]. }
  split_and!; [done| |by auto]. intros e' [->|He']%elem_of_cons; [by apply Hkeep2|by apply Hall].
Qed.

(** After any batch the history is sorted newest first, within its capacity, holds no
    id twice and at most one entry per progress key. An event, new or old, is only missing if a
    progress event with its key that is at least as new is there, or if the history is full of
    events that are at least as new. *)
Theorem merge_keeps_newest batch h (Hok : history_ok h)
    (Hids : ∀ e e', e ∈ batch ++ snapshot h → e' ∈ batch ++ snapshot h → ce_id e = ce_id e' → e = e') :
  history_ok (merge batch h) ∧
  ∀ e, e ∈ batch ++ snapshot h →
    held_or_newer (events (merge batch h)) e ∨
    length (events (merge batch h)) = capacity h ∧ ∀ x, x ∈ events (merge batch h) → stamp_ge x.1 e = true.
Proof.
  destruct Hok as [Hheld Hsort Hlen].
  destruct (fold_merge_ok (λ e, e ∈ batch ++ snapshot h) batch (events h) Hids) as (Hok & Hnew & Hkeep); [done| | |].
  { intros x Hx. apply elem_of_app. right. by apply list_elem_of_fmap_2. }
  { intros e He. apply elem_of_app. by left. }
  set (all := fold_left merge_one batch (events h)) in *. set (sorted := order_by newest_first all).
  assert (sorted ≡ₚ all) as Hp by apply order_by_permutation.
  assert (held_ok sorted) as Hsok.
  { destruct Hok as [H1 H2 H3]. split; [by rewrite Hp|by rewrite Hp|]. intros x. rewrite Hp. apply H3. }
  assert (StronglySorted newest_first sorted) as Hss by (apply StronglySorted_merge_sort; apply _).
  split.
  - split; unfold merge; simpl; fold all sorted.
    + eapply held_ok_sub; [|exact Hsok]. rewrite <- (take_drop (capacity h) sorted) at 2. apply sublist_inserts_r. done.
    + apply StronglySorted_Sorted. rewrite <- (take_drop (capacity h) sorted) in Hss.
      by apply StronglySorted_app_1_l in Hss.
    + rewrite length_take. lia.
  - intros e He. assert (held_or_newer all e) as (x & Hx & Hc).
    { apply elem_of_app in He as [He|He]; [by apply Hnew|]. apply Hkeep.
      apply list_elem_of_fmap in He as (x & -> & Hx). exists x. split; [done|by left]. }
    unfold merge. simpl. fold all sorted. rewrite <- Hp in Hx. rewrite <- (take_drop (capacity h) sorted) in Hx.
    apply elem_of_app in Hx as [Hx|Hx]; [left; by exists x|right]. split.
    + rewrite length_take. apply list_elem_of_lookup in Hx as [i Hi]. rewrite lookup_drop in Hi.
      apply lookup_lt_Some in Hi. lia.
    + intros y Hy. assert (newest_first y x) as Hyx.
      { rewrite <- (take_drop (capacity h) sorted) in Hss. by eapply StronglySorted_app_1_elem_of. }
      apply newest_stamp in Hyx. destruct Hc as [<-|(_ & _ & Hs)]; [done|by eapply stamp_ge_trans].
Qed.
End Merge.
End Events.

(** ** [devices.rs] *)

Module DeviceView.

Record Devices : Type := {
  saved : list SavedDevice;
  relationships : list DeviceRelationship;
  eligible : list PairingEligibilitySummary;
  blocked : list string;
  history_peers : list string
}.

Inductive DeviceState : Type :=
| Eligible (session : string)
| Incoming (generation : Z)
| Outgoing (generation : Z)
| Saved (generation : Z)
| Blocked
| Unavailable.
#[global] Instance DeviceState_eq_dec : EqDecision DeviceState.
Proof. solve_decision. Defined.

Record Device : Type := {
  peer : string;
  name : option string;
  remote_name : option string;
  label : option string;
  state : DeviceState
}.

Inductive DeviceAction : Type :=
| Remember | Decline | Accept | Label (label : string) | Forget | Block | Unblock.

(** [value.map(str::trim).filter(..)]. *)
Definition nonblank (value : option string) : option string :=
  value ≫= λ text, let text := trim text in if str_is_empty text then None else Some text.

(** [DeviceState], or [None] if the peer is not shown. *)
Definition state_of (d : Devices) (p : string) (relationship : option DeviceRelationship)
    (entry : option PairingEligibilitySummary) (is_saved : bool) : option DeviceState :=
  if str_in p (blocked d) then Some Blocked
  else
    match relationship with
    | Some r =>
        match dr_state r with
        | PendingIncoming => Some (Incoming (dr_generation r))
        | PendingOutgoing => Some (Outgoing (dr_generation r))
        | States.Saved => Some (Saved (dr_generation r))
        | States.Blocked => Some Blocked
        | Revoked =>
            match entry with
            | Some e => Some (Eligible (pv_session_id e))
            | None => if str_in p (history_peers d) then Some Unavailable else None
            end
        end
    | None =>
        if bool_decide (entry = None) && str_in p (history_peers d) then Some Unavailable
        else if is_saved then None
        else (λ e, Eligible (pv_session_id e)) <$> entry
    end.

Definition describe (d : Devices) (now : Z) (p : string) : option Device :=
  let device := find (λ s, str_eqb (sd_endpoint_id s) p) (saved d) in
  let relationship := find (λ r, str_eqb (dr_remote_endpoint_id r) p) (relationships d) in
  let entry := find (λ e, str_eqb (pv_peer_endpoint_id e) p && (now <? pv_expires_at e)) (eligible d) in
  st ← state_of d p relationship entry (bool_decide (device ≠ None));
  let label := nonblank (device ≫= sd_local_label) in
  let remote_name := match nonblank (device ≫= sd_remote_display_name) with
                     | Some name => Some name
                     | None => nonblank (entry ≫= pv_remote_display_name)
                     end in
  Some {| peer := p; name := match label with Some l => Some l | None => remote_name end;
          remote_name := remote_name; label := label; state := st |}.

Definition priority (d : Device) : Z :=
  match state d with
  | Incoming _ => 0 | Eligible _ => 1 | Outgoing _ => 2 | Saved _ => 3 | Blocked => 4 | Unavailable => 5
  end.

(** [a.name.cmp(&b.name)] on options, and the comparison of the final sort. *)
Definition name_lt (a b : option string) : bool :=
  match a, b with
  | None, Some _ => true
  | Some a, Some b => String.leb a b && negb (str_eqb a b)
  | _, None => false
  end.
Definition device_le (a b : Device) : bool :=
  (priority a <? priority b) ||
  ((priority a =? priority b) &&
   (name_lt (name a) (name b) || (bool_decide (name a = name b) && String.leb (peer a) (peer b)))).
Definition shown_before (a b : Device) : Prop := device_le a b = true.
#[global] Instance shown_before_dec : RelDecision shown_before.
Proof. intros a b. unfold shown_before. apply _. Defined.

(** [BTreeSet] of every peer that is named anywhere. *)
Definition text_order (a b : string) : Prop := String.leb a b = true.
#[global] Instance text_order_dec : RelDecision text_order.
Proof. intros a b. unfold text_order. apply _. Defined.
Definition peers (d : Devices) : list string :=
  order_by text_order (remove_dups ((sd_endpoint_id <$> saved d) ++ (dr_remote_endpoint_id <$> relationships d) ++
    (pv_peer_endpoint_id <$> eligible d) ++ blocked d ++ history_peers d)).

Definition list_devices (d : Devices) (now : Z) : list Device :=
  order_by shown_before (omap (describe d now) (peers d)).

Definition needs_attention (d : Device) : bool :=
  match state d with Incoming _ | Eligible _ => true | _ => false end.

(** *** [execute] *)

Inductive CoreCall : Type :=
| RequestPairing (peer : string)
| DeclineEligibility (peer : string)
| RespondPairing (peer : string) (accepted : bool)
| SetLabel (peer : string) (label : option string)
| ForgetDevice (peer : string)
| BlockDevice (peer : string)
| UnblockDevice (peer : string).

Definition changed : string := "linux_device_changed".

(** The arms of the last [match]. *)
Definition call_for (p : string) (current : DeviceState) (action : DeviceAction) : option CoreCall :=
  match current, action with
  | Eligible _, Remember => Some (RequestPairing p)
  | Eligible _, Decline => Some (DeclineEligibility p)
  | Incoming _, Accept => Some (RespondPairing p true)
  | Incoming _, Decline => Some (RespondPairing p false)
  | Saved _, Label text => Some (SetLabel p (nonblank (Some text)))
  | Saved _, Forget => Some (ForgetDevice p)
  | Saved _, Block => Some (BlockDevice p)
  | Blocked, Unblock => Some (UnblockDevice p)
  | _, _ => None
  end.

(** [.then_some(()).ok_or(..)] where the core reports whether it acted. *)
Definition reports (c : CoreCall) : bool :=
  match c with RequestPairing _ | RespondPairing _ _ => true | _ => false end.

(** The core is read again before the decision is applied: what was read, the answer to a call,
    and the call that is made. *)
Definition execute (reread : Shown Devices) (answer : CoreCall → Shown bool) (target : Device)
    (action : DeviceAction) (now : Z) : option CoreCall * Shown unit :=
  match reread with
  | Err e => (None, Err e)
  | Ok d =>
      match find (λ device, str_eqb (peer device) (peer target)) (list_devices d now) with
      | None => (None, Err changed)
      | Some current =>
          if negb (bool_decide (state current = state target)) then (None, Err changed)
          else
            match call_for (peer target) (state current) action with
            | None => (None, Err changed)
            | Some c =>
                (Some c, match answer c with
                         | Err e => Err e
                         | Ok acted => if reports c && negb acted then Err changed else Ok tt
                         end)
            end
      end
  end.

(** *** What is shown *)

Lemma describe_peer d now p device : describe d now p = Some device → peer device = p.
Proof. unfold describe. destruct (state_of _ _ _ _ _); simpl; [|done]. by intros [= <-]. Qed.

Lemma omap_describe_NoDup d now ps : NoDup ps → NoDup (peer <$> omap (describe d now) ps).
Proof.
  induction 1 as [|p ps Hn _ IH]; simpl; [constructor|]. destruct (describe d now p) as [device|] eqn:E; [|done].
  rewrite fmap_cons, (describe_peer _ _ _ _ E). apply NoDup_cons. split; [|done].
  intros (device' & E' & Hin)%list_elem_of_fmap. apply Hn.
  apply list_elem_of_omap in Hin as (p' & Hp' & Ed). apply describe_peer in Ed. by rewrite E', Ed.
Qed.

Lemma peers_NoDup d : NoDup (peers d).
Proof. unfold peers. rewrite order_by_permutation. apply NoDup_remove_dups. Qed.

Lemma elem_of_list_devices d now device :
  device ∈ list_devices d now ↔ describe d now (peer device) = Some device ∧ peer device ∈ peers d.
Proof.
  unfold list_devices. rewrite elem_of_order_by, list_elem_of_omap. split.
  - intros (p & Hp & E). pose proof (describe_peer _ _ _ _ E) as <-. done.
  - intros [E Hp]. by exists (peer device).
Qed.

Lemma elem_of_peers d p : p ∈ peers d ↔
  p ∈ sd_endpoint_id <$> saved d ∨ p ∈ dr_remote_endpoint_id <$> relationships d ∨
  p ∈ pv_peer_endpoint_id <$> eligible d ∨ p ∈ blocked d ∨ p ∈ history_peers d.
Proof. unfold peers. rewrite elem_of_order_by, elem_of_remove_dups, !elem_of_app. tauto. Qed.

(** Every device is shown at most once; one that is blocked is shown as blocked and
    nothing else, and one shown as saved has a saved relationship of just that generation. A
    decision reaches the core only if the device is still in the state the user decided on, only
    for that device, and only if the decision belongs to that state. *)
Theorem decisions_are_current d now :
  NoDup (peer <$> list_devices d now) ∧
  (∀ p, p ∈ blocked d → ∃ device, device ∈ list_devices d now ∧ peer device = p ∧ state device = Blocked) ∧
  (∀ device generation, device ∈ list_devices d now → state device = Saved generation →
     (peer device ∉ blocked d) ∧ ∃ r, r ∈ relationships d ∧ dr_remote_endpoint_id r = peer device ∧
       dr_state r = States.Saved ∧ dr_generation r = generation) ∧
  (∀ answer target action c shown, execute (Ok d) answer target action now = (Some c, shown) →
     (∃ device, device ∈ list_devices d now ∧ peer device = peer target ∧ state device = state target) ∧
     call_for (peer target) (state target) action = Some c).
Proof.
  split; [unfold list_devices; rewrite order_by_permutation; apply omap_describe_NoDup, peers_NoDup|]. split_and!.
  - intros p Hp. destruct (describe d now p) as [device|] eqn:E.
    + exists device. pose proof (describe_peer _ _ _ _ E) as Ep. split_and!; [|done|].
      * apply elem_of_list_devices. rewrite Ep. split; [done|]. apply elem_of_peers. auto.
      * unfold describe, state_of in E. apply str_in_elem in Hp. rewrite Hp in E. simpl in E. by injection E as <-.
    + unfold describe, state_of in E. apply str_in_elem in Hp. by rewrite Hp in E.
  - intros device generation [E _]%elem_of_list_devices Hs. unfold describe in E.
    destruct (state_of _ _ _ _ _) as [st|] eqn:Est; simpl in E; [|done].
    assert (state device = st) as Eq by by injection E as <-. rewrite Hs in Eq. subst st. clear E Hs.
    unfold state_of in Est. destruct (str_in (peer device) (blocked d)) eqn:Eb; [done|]. split.
    { intros Hin%str_in_elem. congruence. }
    destruct (find _ (relationships d)) as [r|] eqn:Er.
    + apply find_some in Er as [Hin%list_elem_of_In Ep%str_eqb_eq]. exists r. split_and!; [done|done|..];
        destruct (dr_state r); repeat case_match; congruence.
    + repeat case_match; try done. by destruct (find _ (eligible d)).
  - intros answer target action c shown He. unfold execute in He.
    destruct (find _ (list_devices d now)) as [current|] eqn:Ef; [|done].
    apply find_some in Ef as [Hin%list_elem_of_In Ep%str_eqb_eq].
    destruct (negb _) eqn:Es; [done|]. apply negb_false_iff, bool_decide_eq_true in Es.
    destruct (call_for _ _ _) as [c'|] eqn:Ec; [|done]. injection He as <- _. split; [by exists current|]. by rewrite <- Es.
Qed.
End DeviceView.

(** ** [targeted.rs]: what a targeted transfer offers *)

Module Actions.

Inductive Action : Type := Receive | Resume | Cancel | Delete.
#[global] Instance Action_eq_dec : EqDecision Action.
Proof. solve_decision. Defined.

Definition actions (t : TargetedTransfer) : list Action :=
  (match tt_role t, tt_state t with
   | Receiver, Approved => [Receive]
   | Receiver, Interrupted => [Resume]
   | _, _ => []
   end) ++
  match tt_state t with
  | Preparing | Offering | AwaitingApproval | Approved | Connecting | Transferring | Interrupted => [Cancel]
  | Completed | Declined | Cancelled | TFailed => [Delete]
  | Deleted => []
  end.

(** The state of the core an action moves the transfer to. *)
Definition leads_to (a : Action) : TargetedTransferState :=
  match a with Receive | Resume => Connecting | Cancel => Cancelled | Delete => Deleted end.

(** Nothing is offered that the state machine of the core refuses, and a transfer that is not
    deleted offers exactly one way to end it. *)
Lemma actions_are_possible t :
  (∀ a, a ∈ actions t → transition_allowed (tt_state t) (leads_to a) = true) ∧
  (tt_state t ≠ Deleted → (Cancel ∈ actions t ∧ Delete ∉ actions t) ∨ (Delete ∈ actions t ∧ Cancel ∉ actions t)).
Proof.
  split.
  - intros a Ha. unfold actions in Ha. destruct (tt_role t), (tt_state t); simpl in Ha;
      repeat (apply elem_of_cons in Ha as [->|Ha]; [reflexivity|]); by apply elem_of_nil in Ha.
  - intros Hd. unfold actions. destruct (tt_role t), (tt_state t); simpl; try done;
      (left; split; [by repeat first [by left|right]|set_solver]) || (right; split; [by repeat first [by left|right]|set_solver]).
Qed.
End Actions.
