(* ===== verification/LinuxSession.v ===== *)
(** * [src/linux/src]: sessions with the core

    [session.rs]: calls into the core from any thread, and closing while they run;
    [targeted.rs]: preparing a targeted transfer that may be cancelled before the core knows of
    it; [draft.rs]: an import that may be cancelled; [reconfiguration.rs]: replacing the session
    when the preferences change. Threads take turns at their atomic actions; what the core
    answers, and what fails, is the environment's choice. *)

From S2P Require Import Prelude Share Sql.

(** ** [session.rs] *)

Module Session.

(** [State]; whether the core was told to shut down is auxiliary. *)
Record State : Type := {
  core : bool;
  closing : bool;
  calls : nat;
  core_shut : bool
}.

Definition opened : State := {| core := true; closing := false; calls := 0; core_shut := false |}.

Definition set_calls (n : nat) (s : State) : State :=
  {| core := core s; closing := closing s; calls := n; core_shut := core_shut s |}.

(** Threads inside of [call] and of [close]. *)
Inductive Task : Type :=
| CallEnter | CallRefused (key : string) | CallOperating | CallReturned
| CloseMark | CloseShutdown | CloseDrain | CloseReturned.
#[global] Instance Task_eq_dec : EqDecision Task.
Proof. solve_decision. Defined.

(** The next action of a thread under the lock; a drain waits on the condition. *)
Definition act (t : Task) (s : State) : option (Task * State) :=
  match t with
  | CallEnter =>
      if closing s then Some (CallRefused "linux_session_closed", s)
      else if core s then Some (CallOperating, set_calls (calls s + 1) s)
      else Some (CallRefused "error_starting_up", s)
  | CallOperating => Some (CallReturned, set_calls (calls s - 1) s)
  | CloseMark =>
      Some (if core s then CloseShutdown else CloseDrain,
            {| core := core s; closing := true; calls := calls s; core_shut := core_shut s |})
  | CloseShutdown =>
      Some (CloseDrain, {| core := core s; closing := closing s; calls := calls s; core_shut := true |})
  | CloseDrain =>
      if (calls s =? 0)%nat
      then Some (CloseReturned, {| core := false; closing := closing s; calls := calls s; core_shut := core_shut s |})
      else None
  | CallRefused _ | CallReturned | CloseReturned => None
  end.

Definition entering (t : Task) : bool := match t with CallEnter | CloseMark => true | _ => false end.
Definition over (t : Task) : bool := match t with CallRefused _ | CallReturned | CloseReturned => true | _ => false end.

Inductive session_step : State * list Task → State * list Task → Prop :=
| task_acts s tasks i t t' s' :
    tasks !! i = Some t → act t s = Some (t', s') → session_step (s, tasks) (s', <[i := t']> tasks)
| task_enters s tasks t : entering t = true → session_step (s, tasks) (s, tasks ++ [t]).

(** *** Who is inside *)

Fixpoint count (P : Task → bool) (tasks : list Task) : nat :=
  match tasks with [] => 0 | t :: tasks => Nat.b2n (P t) + count P tasks end.
Definition operating (t : Task) : bool := bool_decide (t = CallOperating).

Lemma count_update P tasks i t t' :
  tasks !! i = Some t → (count P (<[i := t']> tasks) + Nat.b2n (P t) = count P tasks + Nat.b2n (P t'))%nat.
Proof.
  revert i. induction tasks as [|d tasks IH]; intros [|i] Hi; simplify_eq/=; [lia|]. specialize (IH i Hi). lia.
Qed.

Lemma count_app P tasks tasks' : count P (tasks ++ tasks') = (count P tasks + count P tasks')%nat.
Proof. induction tasks; simpl; lia. Qed.

Lemma count_elem P t tasks : t ∈ tasks → P t = true → (1 ≤ count P tasks)%nat.
Proof. induction 1 as [|u t' tasks _ IH]; simpl; intros E; [rewrite E; simpl; lia|]. specialize (IH E). lia. Qed.

(** What a thread that closes knows. *)
Definition closer_ok (s : State) (t : Task) : Prop :=
  match t with
  | CloseShutdown => closing s = true
  | CloseDrain => closing s = true ∧ (core s = true → core_shut s = true)
  | CloseReturned => closing s = true ∧ core s = false ∧ calls s = 0%nat
  | _ => True
  end.

Record session_ok (w : State * list Task) : Prop := {
  sk_calls : calls w.1 = count operating w.2;
  sk_core : core w.1 = false → calls w.1 = 0%nat ∧ closing w.1 = true ∧ core_shut w.1 = true;
  sk_closers : Forall (closer_ok w.1) w.2
}.

Lemma opened_ok : session_ok (opened, []).
Proof. split; [done|done|constructor]. Qed.

(** What may have changed for a thread that closes. *)
Lemma closer_ok_later s s' t :
  closer_ok s t → (closing s = true → closing s' = true) → (core s' = true → core s = true) →
  (core_shut s = true → core_shut s' = true) → (core s = false → calls s' = 0%nat) → closer_ok s' t.
Proof.
  intros Ht H1 H2 H3 H4. destruct t; simpl in *; try done; [auto|naive_solver|].
  destruct Ht as (E1 & E2 & E3). split_and!; [auto|destruct (core s'); [by rewrite H2 in E2|done]|auto].
Qed.

Lemma act_ok s tasks i t t' s' :
  session_ok (s, tasks) → tasks !! i = Some t → act t s = Some (t', s') → session_ok (s', <[i := t']> tasks).
Proof.
  intros [K1 K2 K3] Hi Ha. simpl in *.
  pose proof (count_update operating tasks i t t' Hi) as Hc.
  pose proof (Forall_lookup_1 _ _ _ _ K3 Hi) as Ht.
  assert (∀ (s1 : State) (t1 : Task), closer_ok s1 t1 → (closing s = true → closing s1 = true) → (core s1 = true → core s = true) →
    (core_shut s = true → core_shut s1 = true) → (core s = false → calls s1 = 0%nat) →
    Forall (closer_ok s1) (<[i := t1]> tasks)) as Hall.
  { intros s1 t1 Hn H1 H2 H3 H4. apply Forall_insert; [|done]. eapply Forall_impl; [exact K3|].
    intros u Hu. by eapply closer_ok_later. }
  destruct t; simpl in Ha; try done.
  - destruct (closing s) eqn:Ec; simplify_eq/=; [split; simpl; [lia|naive_solver|by apply Hall; [|tauto..|intros E; apply K2]]|].
    destruct (core s) eqn:Eo; [|by destruct (K2 eq_refl) as (_ & ? & _)]. injection Ha as <- <-.
    split; simpl; [simpl in Hc; lia|congruence|by apply Hall].
  - simplify_eq/=. assert (0 < calls s)%nat as Hpos.
    { rewrite K1. by apply (count_elem _ CallOperating); [eapply list_elem_of_lookup_2|]. }
    assert (core s = true) as Ec by (destruct (core s); [done|]; destruct (K2 eq_refl); lia).
    split; simpl; [simpl in Hc; lia|congruence|].
    apply Hall; simpl; try done. congruence.
  - simplify_eq/=. split; simpl; [destruct (core s); simpl in Hc; lia|naive_solver|].
    apply Hall; simpl; try done; [|naive_solver]. by destruct (core s) eqn:E; simpl; [|split; [|congruence]].
  - simplify_eq/=. split; simpl; [lia|naive_solver|]. apply Hall; simpl; try done. naive_solver.
  - destruct (calls s =? 0)%nat eqn:E0; simplify_eq/=. apply Nat.eqb_eq in E0. destruct Ht as [Hcl Hsh].
    split; simpl; [lia|intros _; split_and!; [done|done|destruct (core s); [by apply Hsh|by apply K2]]|]. by apply Hall.
Qed.

Lemma session_step_ok w w' : session_step w w' → session_ok w → session_ok w'.
Proof.
  intros [s tasks i t t' s' Hi Ha|s tasks t Ht] Hok; [by eapply act_ok|]. destruct Hok as [K1 K2 K3]. simpl in *.
  split; simpl; [|done|].
  - rewrite count_app, K1. destruct t; simpl in *; try done; lia.
  - apply Forall_app. split; [done|]. constructor; [by destruct t|done].
Qed.

(** How many actions a thread has left. *)
Definition actions_left (t : Task) : nat :=
  match t with CallEnter => 2 | CallOperating => 1 | CloseMark => 3 | CloseShutdown => 2 | CloseDrain => 1 | _ => 0 end.

Lemma act_left t s t' s' : act t s = Some (t', s') → (actions_left t' < actions_left t)%nat.
Proof. destruct t; simpl; intros Ha; repeat case_match; simplify_eq/=; lia. Qed.

(** Any number of threads call into the core and close the session. The count of
    calls is exactly that of the threads inside; the core lives as long as one is. Once any
    [close] has returned, the core was told to shut down and is gone, nobody is inside and nobody
    gets in. No thread takes more than three actions, and until all have returned one can act:
    a close waits for the calls that are inside and for nothing else. *)
Theorem close_waits_for_calls w (Hs : rtc session_step (opened, []) w) :
  calls w.1 = count operating w.2 ∧
  (CallOperating ∈ w.2 → core w.1 = true) ∧
  (CloseReturned ∈ w.2 → core w.1 = false ∧ core_shut w.1 = true ∧ (CallOperating ∉ w.2) ∧
     ∀ t s, act CallEnter w.1 = Some (t, s) → over t = true) ∧
  (∀ t s t' s', act t s = Some (t', s') → (actions_left t' < actions_left t ≤ 3)%nat) ∧
  (Forall (λ t, over t = true) w.2 ∨ ∃ i t t' s', w.2 !! i = Some t ∧ act t w.1 = Some (t', s')).
Proof.
  assert (session_ok w) as [K1 K2 K3].
  { clear -Hs. remember (opened, []) as w0 eqn:E. assert (session_ok w0) as H0 by (subst; apply opened_ok). clear E.
    induction Hs as [w|w1 w2 w3 H12 _ IH]; [done|]. apply IH. by eapply session_step_ok. }
  assert (CallOperating ∈ w.2 → core w.1 = true) as Hlive.
  { intros Hin. destruct (core w.1) eqn:Ec; [done|]. destruct (K2 eq_refl) as (E0 & _).
    pose proof (count_elem operating CallOperating w.2 Hin eq_refl). lia. }
  split_and!; [done|done| | |].
  - intros Hin. pose proof (proj1 (Forall_forall _ _) K3 _ Hin) as (Hcl & Hc & H0). simpl in *.
    split_and!; [done|by apply K2|by intros ?%Hlive; congruence|]. intros t s. rewrite Hcl. by intros [= <- <-].
  - intros t s t' s' Ha. split; [by eapply act_left|]. destruct t; simpl; lia.
  - destruct (decide (Forall (λ t, over t = true) w.2)) as [|Hn]; [by left|right].
    destruct (decide (CallOperating ∈ w.2)) as [Hin|Hno].
    { apply list_elem_of_lookup in Hin as [i Hi]. by exists i, CallOperating; eexists _, _. }
    assert (calls w.1 = 0%nat) as H0.
    { rewrite K1. clear -Hno. induction w.2 as [|t tasks IH]; [done|]. apply not_elem_of_cons in Hno as [Hne Hno].
      simpl. rewrite IH by done. unfold operating. by rewrite bool_decide_false. }
    apply not_Forall_Exists in Hn; [|apply _]. apply Exists_exists in Hn as (t & Hin & Ht).
    apply list_elem_of_lookup in Hin as [i Hi]. exists i, t.
    assert (is_Some (act t w.1)) as [[t' s'] Ha]; [|by exists t', s'].
    destruct t; simpl in *; try done; [repeat case_match; done| by rewrite H0].
Qed.

(** One thread is inside while another closes the session; a third comes too late. *)
Definition demo_tasks : list Task := [CallReturned; CloseReturned; CallRefused "linux_session_closed"].
Lemma close_waits_for_calls_witness :
  ∃ s, rtc session_step (opened, []) (s, demo_tasks) ∧ core s = false ∧ core_shut s = true.
Proof.
  assert (∃ s, rtc session_step (opened, []) (s, demo_tasks)) as [s Hs].
  { eexists.
    eapply rtc_l; [by apply (task_enters _ [] CallEnter)|]. eapply rtc_l; [by apply (task_enters _ _ CloseMark)|].
    eapply rtc_l; [by apply (task_enters _ _ CallEnter)|]. simpl.
    eapply rtc_l; [by apply (task_acts _ _ 0%nat CallEnter)|]. eapply rtc_l; [by apply (task_acts _ _ 1%nat CloseMark)|].
    eapply rtc_l; [by apply (task_acts _ _ 2%nat CallEnter)|]. eapply rtc_l; [by apply (task_acts _ _ 1%nat CloseShutdown)|].
    eapply rtc_l; [by apply (task_acts _ _ 0%nat CallOperating)|]. eapply rtc_l; [by apply (task_acts _ _ 1%nat CloseDrain)|].
    apply rtc_refl. }
  exists s. split; [exact Hs|]. destruct (close_waits_for_calls (s, demo_tasks) Hs) as (_ & _ & Hc & _).
  destruct Hc as (H1 & H2 & _); [right; left|]. split; [exact H1|exact H2].
Defined.
End Session.

(** ** [targeted.rs]: a preparation that can be cancelled at any time *)

Module Preparation.

(** [cancelled], and whether the core's handle is there; whether the core was told to stop, and
    to send, is auxiliary. *)
Record Preparation : Type := {
  cancelled : bool;
  handle : bool;
  stopped : bool;
  sent : bool
}.
Definition new : Preparation := {| cancelled := false; handle := false; stopped := false; sent := false |}.

Definition cancel (p : Preparation) : Preparation :=
  {| cancelled := true; handle := handle p; stopped := stopped p; sent := sent p |}.
Definition publish (p : Preparation) : Preparation :=
  {| cancelled := cancelled p; handle := true; stopped := stopped p; sent := sent p |}.
Definition tell (p : Preparation) : Preparation :=
  {| cancelled := cancelled p; handle := handle p; stopped := true; sent := sent p |}.
Definition submit (p : Preparation) : Preparation :=
  {| cancelled := cancelled p; handle := handle p; stopped := stopped p; sent := true |}.

(** The thread in [run], between its atomic actions. *)
Inductive Run : Type :=
| RunStart | RunCreate | RunPublish | RunCheck | RunSend
| RunLast (result : result unit string)
| RunStop
| RunOver (result : result unit string).

Definition progress_cancelled : string := "progress_cancelled".

(** [answer] is what the core answers to the call the action makes, if it makes one. *)
Definition run (answer : result unit string) (t : Run) (p : Preparation) : option (Run * Preparation) :=
  match t with
  | RunStart => Some (if cancelled p then RunOver (Err progress_cancelled) else RunCreate, p)
  | RunCreate => Some (match answer with Ok _ => RunPublish | Err key => RunOver (Err key) end, p)
  | RunPublish => Some (RunCheck, publish p)
  | RunCheck => Some (if cancelled p then RunStop else RunSend, p)
  | RunSend => Some (RunLast answer, submit p)
  | RunLast result => Some (if cancelled p then RunStop else RunOver result, p)
  | RunStop => Some (RunOver (match answer with Ok _ => Err progress_cancelled | Err key => Err key end), tell (cancel p))
  | RunOver _ => None
  end.

(** Threads in [stop]; [told] says whether there was a handle to stop. *)
Inductive Stop : Type := StopMark | StopRead | StopTell | StopOver (told : bool).

Definition stop (t : Stop) (p : Preparation) : option (Stop * Preparation) :=
  match t with
  | StopMark => Some (StopRead, cancel p)
  | StopRead => Some (if handle p then StopTell else StopOver false, p)
  | StopTell => Some (StopOver true, tell p)
  | StopOver _ => None
  end.

Record World : Type := { preparation : Preparation; runner : Run; stops : list Stop }.

Inductive step (w : World) : World → Prop :=
| run_acts answer t p :
    run answer (runner w) (preparation w) = Some (t, p) →
    step w {| preparation := p; runner := t; stops := stops w |}
| stop_acts i u t p :
    stops w !! i = Some u → stop u (preparation w) = Some (t, p) →
    step w {| preparation := p; runner := runner w; stops := <[i := t]> (stops w) |}
| stop_comes : step w {| preparation := preparation w; runner := runner w; stops := stops w ++ [StopMark] |}
| cancel_comes : step w {| preparation := cancel (preparation w); runner := runner w; stops := stops w |}.

Definition start : World := {| preparation := new; runner := RunStart; stops := [] |}.

(** Before the handle is published, after that, and on the way to a stop. *)
Definition early (t : Run) : bool := match t with RunStart | RunCreate | RunPublish => true | _ => false end.
Definition turning (t : Run) : bool := match t with RunCheck | RunStop => true | _ => false end.

(** What a run leaves to a stop that found no handle. *)
Definition minded (p : Preparation) (t : Run) : Prop :=
  early t = true ∨ turning t = true ∨ (handle p = true → stopped p = true).

(** A stop that found no handle leaves its request to the run. *)
Definition stop_ok (p : Preparation) (t : Run) (u : Stop) : Prop :=
  match u with
  | StopMark => True
  | StopRead | StopTell => cancelled p = true
  | StopOver true => cancelled p = true ∧ stopped p = true
  | StopOver false => cancelled p = true ∧ minded p t
  end.

Record prep_ok (w : World) : Prop := {
  po_stops : Forall (stop_ok (preparation w) (runner w)) (stops w);
  po_early : early (runner w) = true → handle (preparation w) = false ∧ sent (preparation w) = false
}.

Lemma prep_start_ok : prep_ok start.
Proof. split; [constructor|done]. Qed.

Lemma run_minds answer t p t' p' :
  (early t = true → handle p = false) → run answer t p = Some (t', p') →
  (cancelled p = true → cancelled p' = true) ∧ (stopped p = true → stopped p' = true) ∧
  (cancelled p = true → minded p t → minded p' t').
Proof.
  intros Hh Hr. destruct t; simpl in Hr; try done; injection Hr as <- <-; (split_and!; [done|done|]); intros Hc Hm;
    rewrite ?Hc; unfold minded in *; simpl; auto.
  all: try (destruct answer; simpl; auto); right; right; by rewrite Hh.
Qed.

Lemma stop_ok_later p t p' t' :
  (cancelled p = true → cancelled p' = true) → (stopped p = true → stopped p' = true) →
  (cancelled p = true → minded p t → minded p' t') → ∀ u, stop_ok p t u → stop_ok p' t' u.
Proof. intros H1 H2 H3 [| | |[]]; simpl; [done|auto..| |]; intros [Hc Hu]; auto. Qed.

Lemma prep_step_ok w w' : step w w' → prep_ok w → prep_ok w'.
Proof.
  intros Hs [P1 P2]. destruct w as [p t stops]. simpl in *.
  destruct Hs as [answer t' p' Hr|i u t' p' Hi Hst| |]; simpl in *.
  - assert (∀ u, stop_ok p t u → stop_ok p' t' u) as Hall.
    { destruct (run_minds answer t p t' p') as (G1 & G2 & G3); [intros E; exact (proj1 (P2 E))|done|].
      apply stop_ok_later; auto. }
    split; simpl; [by eapply Forall_impl; [exact P1|]|].
    intros E. destruct t; simpl in Hr; try done; injection Hr as <- <-; try (by apply P2); try done;
      by destruct (cancelled p) || destruct result.
  - assert (∀ v, stop_ok p t v → stop_ok p' t v) as Hall.
    { apply stop_ok_later; destruct u; simpl in Hst; try done; injection Hst as <- <-; simpl; auto.
      unfold minded. simpl. auto. }
    pose proof (Forall_lookup_1 _ _ _ _ P1 Hi) as Hu. split; simpl.
    + apply Forall_insert; [by eapply Forall_impl; [exact P1|]|].
      destruct u; simpl in Hst; simplify_eq/=; [done| |by split].
      destruct (handle p') eqn:Eh; simpl; [done|]. split; [done|]. right. right. congruence.
    + intros E. destruct u; simpl in Hst; simplify_eq/=; by apply P2.
  - split; simpl; [|done]. apply Forall_app. split; [done|by constructor].
  - split; simpl; [|done]. eapply Forall_impl; [exact P1|]. by apply stop_ok_later.
Qed.

Lemma prep_steps_ok w w' : rtc step w w' → prep_ok w → prep_ok w'.
Proof. induction 1; [done|]. intros. by apply IHrtc, (prep_step_ok x). Qed.

(** Once it is cancelled, a run that is not over does not succeed, and sends no more than it has. *)
Definition doomed (w : World) : Prop :=
  cancelled (preparation w) = true ∧ ∀ u, runner w ≠ RunOver (Ok u).

Lemma step_doomed w w' : step w w' → doomed w → doomed w'.
Proof.
  intros Hs [D1 D2]. destruct w as [p t stops]. simpl in *.
  destruct Hs as [answer t' p' Hr|i u t' p' Hi Hst| |]; simpl in *.
  - destruct t; simpl in Hr; simplify_eq; rewrite ?D1; split; simpl; try done; by destruct answer.
  - split; simpl; [|done]. destruct u; simpl in Hst; by simplify_eq/=.
  - by split.
  - by split.
Qed.

(** A cancellation is never lost. When a stop has come back and the run is over, the
    core was told to stop if it ever knew of the preparation; and however early or late the
    request came, a run that was not over yet ends with an error. *)
Theorem cancellation_is_not_lost w (Hw : rtc step start w) :
  (∀ told result, StopOver told ∈ stops w → runner w = RunOver result → handle (preparation w) = true →
     stopped (preparation w) = true) ∧
  (∀ w' u, cancelled (preparation w) = true → (∀ result, runner w ≠ RunOver result) → rtc step w w' →
     runner w' ≠ RunOver (Ok u)).
Proof.
  destruct (prep_steps_ok _ _ Hw prep_start_ok) as [P1 P2]. split.
  - intros told result Hin Hr Hh. pose proof (proj1 (Forall_forall _ _) P1 _ Hin) as Hu. rewrite Hr in Hu.
    destruct told; simpl in Hu; [by destruct Hu|]. destruct Hu as [_ [|[|Hu]]]; [done|done|by apply Hu].
  - intros w' u Hc Hr Hs. assert (doomed w) as Hd by (split; [done|intros v; apply Hr]).
    assert (doomed w') as [_ Hn]; [|apply Hn]. clear -Hs Hd. induction Hs as [|w1 w2 w3 H12 _ IH]; [done|].
    by apply IH, (step_doomed w1).
Qed.

(** The user cancels before the core knows of the preparation; the run notices when it does. *)
Lemma cancellation_is_not_lost_witness :
  ∃ p, rtc step start {| preparation := p; runner := RunOver (Err progress_cancelled); stops := [StopOver false] |} ∧
    handle p = true ∧ sent p = false ∧ stopped p = true.
Proof.
  set (p := {| cancelled := true; handle := true; stopped := true; sent := false |}).
  assert (rtc step start {| preparation := p; runner := RunOver (Err progress_cancelled); stops := [StopOver false] |}) as Hs.
  { eapply rtc_l; [by eapply (run_acts _ (Ok tt))|]. eapply rtc_l; [by eapply (run_acts _ (Ok tt))|].
    eapply rtc_l; [apply stop_comes|]. eapply rtc_l; [by eapply (stop_acts _ 0%nat)|].
    eapply rtc_l; [by eapply (stop_acts _ 0%nat)|]. eapply rtc_l; [by eapply (run_acts _ (Ok tt))|].
    eapply rtc_l; [by eapply (run_acts _ (Ok tt))|]. eapply rtc_l; [by eapply (run_acts _ (Ok tt))|]. apply rtc_refl. }
  exists p. split; [exact Hs|]. split; [reflexivity|]. split; [reflexivity|].
  destruct (cancellation_is_not_lost _ Hs) as [Hc _].
  apply (Hc false (Err progress_cancelled)); [left|reflexivity|reflexivity].
Defined.
End Preparation.

(** ** [draft.rs]: an import that can be cancelled at any time *)

Module Importing.

(** The share of the preparation in the core ([Share.v]); a signalled import does not publish. *)
Inductive CoreShare : Type := Absent | Importing (signalled : bool) | Live | Gone.
#[global] Instance CoreShare_eq_dec : EqDecision CoreShare.
Proof. solve_decision. Defined.

(** [cancelled] and [finished]; whether a cancellation of a live share was refused is auxiliary. *)
Record Preparation : Type := {
  cancelled : bool;
  finished : bool;
  share : CoreShare;
  refused : bool
}.
Definition new : Preparation := {| cancelled := false; finished := false; share := Absent; refused := false |}.

Definition request_cancel (p : Preparation) : Preparation :=
  {| cancelled := true; finished := finished p; share := share p; refused := refused p |}.
Definition set_share (c : CoreShare) (p : Preparation) : Preparation :=
  {| cancelled := cancelled p; finished := finished p; share := c; refused := refused p |}.
Definition finish (p : Preparation) : Preparation :=
  {| cancelled := cancelled p; finished := true; share := share p; refused := refused p |}.

(** [core.cancel_transfer(self.id)]; [works] is false if the core, or the closed session, refuses. *)
Definition cancel_transfer (works : bool) (p : Preparation) : Preparation :=
  if works then
    match share p with
    | Importing _ => set_share (Importing true) p
    | Live => set_share Gone p
    | Absent | Gone => p
    end
  else {| cancelled := cancelled p; finished := finished p; share := share p;
          refused := refused p || bool_decide (share p = Live) |}.

(** The thread in [run]; the drop of [Finished] is its last action. *)
Inductive Run : Type :=
| RunStart | RunShare | RunImport | RunCheck (result : result unit string) | RunWithdraw
| RunDrop (result : result unit string) | RunOver (result : result unit string).

Definition progress_cancelled : string := "progress_cancelled".

(** [works] and [answer] are what the core does. *)
Definition run (works : bool) (answer : result unit string) (t : Run) (p : Preparation) : option (Run * Preparation) :=
  match t with
  | RunStart => Some (if cancelled p then RunDrop (Err progress_cancelled) else RunShare, p)
  | RunShare =>
      Some (match answer with
            | Ok _ => (RunImport, set_share (Importing false) p)
            | Err key => (RunCheck (Err key), p)
            end)
  | RunImport =>
      Some (match share p, answer with
            | Importing false, Ok _ => (RunCheck (Ok tt), set_share Live p)
            | _, Ok _ => (RunCheck (Err progress_cancelled), set_share Gone p)
            | _, Err key => (RunCheck (Err key), set_share Gone p)
            end)
  | RunCheck result => Some (if cancelled p then RunWithdraw else RunDrop result, p)
  | RunWithdraw => Some (RunDrop (Err progress_cancelled), cancel_transfer works p)
  | RunDrop result => Some (RunOver result, finish p)
  | RunOver _ => None
  end.

(** A thread in [cancel]; [closed] says that it gave up on a closed session. *)
Inductive Cancel : Type := CancelMark | CancelCall | CancelRead (closed : bool) | CancelOver (closed : bool).

(** [closed] means that the call is answered [linux_session_closed]. *)
Definition cancel (works closed : bool) (t : Cancel) (p : Preparation) : option (Cancel * Preparation) :=
  match t with
  | CancelMark => Some (CancelCall, request_cancel p)
  | CancelCall => Some (CancelRead closed, cancel_transfer (works && negb closed) p)
  | CancelRead closed => Some (if finished p then CancelOver false else if closed then CancelOver true else CancelCall, p)
  | CancelOver _ => None
  end.

Record World : Type := { preparation : Preparation; runner : Run; cancels : list Cancel }.

Inductive step (w : World) : World → Prop :=
| run_acts works answer t p :
    run works answer (runner w) (preparation w) = Some (t, p) →
    step w {| preparation := p; runner := t; cancels := cancels w |}
| cancel_acts works closed i u t p :
    cancels w !! i = Some u → cancel works closed u (preparation w) = Some (t, p) →
    step w {| preparation := p; runner := runner w; cancels := <[i := t]> (cancels w) |}
| cancel_comes : step w {| preparation := preparation w; runner := runner w; cancels := cancels w ++ [CancelMark] |}.

Definition start : World := {| preparation := new; runner := RunStart; cancels := [] |}.

(** The run has not read [cancelled] for the last time, or acts on it. *)
Definition undecided (t : Run) : bool := match t with RunDrop _ | RunOver _ => false | _ => true end.

Definition share_fits (t : Run) (c : CoreShare) : bool :=
  match t, c with
  | (RunStart | RunShare), Absent | RunImport, Importing _ => true
  | (RunStart | RunShare | RunImport), _ => false
  | _, Importing _ => false
  | _, _ => true
  end.

Definition cancel_ok (p : Preparation) (t : Run) (u : Cancel) : Prop :=
  match u with
  | CancelMark => True
  | CancelCall => cancelled p = true
  | CancelRead _ => cancelled p = true ∧ (undecided t = true ∨ share p ≠ Live ∨ refused p = true)
  | CancelOver closed =>
      cancelled p = true ∧ (undecided t = true ∨ share p ≠ Live ∨ refused p = true) ∧ (closed = false → finished p = true)
  end.

Record import_ok (w : World) : Prop := {
  io_share : share_fits (runner w) (share (preparation w)) = true;
  io_finished : finished (preparation w) = true ↔ ∃ result, runner w = RunOver result;
  io_cancels : Forall (cancel_ok (preparation w) (runner w)) (cancels w)
}.

Lemma import_start_ok : import_ok start.
Proof. split; simpl; [done|split; [done|by intros []]|constructor]. Qed.

(** What a cancellation knows stays true. *)
Lemma cancel_ok_later p t p' t' :
  (cancelled p = true → cancelled p' = true) → (finished p = true → finished p' = true) →
  (cancelled p = true → undecided t = true ∨ share p ≠ Live ∨ refused p = true →
   undecided t' = true ∨ share p' ≠ Live ∨ refused p' = true) →
  ∀ u, cancel_ok p t u → cancel_ok p' t' u.
Proof. intros H1 H2 H3 [| | |]; simpl; naive_solver. Qed.

Lemma cancel_transfer_spec works p :
  let p' := cancel_transfer works p in
  cancelled p' = cancelled p ∧ finished p' = finished p ∧ (share p' ≠ Live ∨ refused p' = true) ∧
  (share p ≠ Live → share p' ≠ Live) ∧ (refused p = true → refused p' = true) ∧
  (∀ t, share_fits t (share p) = true → share_fits t (share p') = true).
Proof.
  unfold cancel_transfer. destruct works; [|simpl].
  - destruct (share p) as [|[]| |] eqn:E; simpl; rewrite ?E; split_and!; auto; by intros [].
  - split_and!; auto; [|by intros ->]. destruct (decide (share p = Live)) as [E|]; [right|by left].
    by rewrite (bool_decide_true _ E), orb_true_r.
Qed.

(** What a cancellation leaves to the run, or has settled. *)
Definition handled (p : Preparation) (t : Run) : Prop :=
  undecided t = true ∨ share p ≠ Live ∨ refused p = true.

Lemma run_keeps works answer t p t' p' :
  share_fits t (share p) = true → run works answer t p = Some (t', p') →
  share_fits t' (share p') = true ∧
  (cancelled p' = cancelled p ∧ finished p' = finished p || bool_decide (undecided t = false)) ∧
  (bool_decide (undecided t = false) = true ↔ ∃ result, t' = RunOver result) ∧
  (cancelled p = true → handled p t → handled p' t').
Proof.
  intros Hf Hr. destruct (cancel_transfer_spec works p) as (C1 & C2 & C3 & C4 & C5 & C6). unfold handled in *.
  destruct t; simpl in Hr; simplify_eq/=.
  - destruct (cancelled p'), (share p'); simplify_eq/=; split_and!; auto; try (by rewrite orb_false_r); naive_solver.
  - destruct answer; simplify_eq/=; [destruct (share p) eqn:E|destruct (share p') eqn:E]; simplify_eq/=;
      split_and!; auto; try (by rewrite orb_false_r); naive_solver.
  - destruct (share p) as [|[]| |], answer; simplify_eq/=; split_and!; auto; try (by rewrite orb_false_r); naive_solver.
  - destruct (cancelled p') eqn:Ec, (share p'); simplify_eq/=;
      (split_and!; [done|done|by rewrite orb_false_r|by split; [|intros []]|first [congruence|by left]]).
  - split_and!; auto; try (by rewrite orb_false_r); [|naive_solver].
    apply (C6 (RunDrop (Ok tt))). by destruct (share p).
  - destruct (share p); simplify_eq/=; split_and!; auto; try (by rewrite orb_true_r); naive_solver.
Qed.

Lemma import_step_ok w w' : step w w' → import_ok w → import_ok w'.
Proof.
  intros Hs [I1 I2 I3]. destruct w as [p t cs]. simpl in *.
  destruct Hs as [works answer t' p' Hr|works closed i u u' p' Hi Hu|]; simpl in *.
  - destruct (run_keeps _ _ _ _ _ _ I1 Hr) as (R1 & (R2 & R3) & R4 & R5).
    assert (finished p = false) as Hno.
    { apply not_true_iff_false. intros E%I2. destruct E as [result ->]. done. }
    split; simpl; [done|by rewrite R3, Hno|].
    eapply Forall_impl; [exact I3|]. apply cancel_ok_later; [congruence|congruence|exact R5].
  - destruct (cancel_transfer_spec (works && negb closed) p) as (C1 & C2 & C3 & C4 & C5 & C6).
    pose proof (Forall_lookup_1 _ _ _ _ I3 Hi) as Hok.
    assert (share_fits t (share p') = true ∧ finished p' = finished p ∧ (cancelled p = true → cancelled p' = true) ∧
            (handled p t → handled p' t) ∧ cancel_ok p' t u') as (R1 & R2 & R3 & R4 & R5).
    { unfold handled. destruct u; simpl in Hu; simplify_eq/=.
      - by split_and!.
      - split_and!; [by apply C6|done|congruence|naive_solver|congruence|naive_solver].
      - split_and!; auto. repeat case_match; simplify_eq/=; naive_solver. }
    split; simpl; [done|by rewrite R2|]. apply Forall_insert; [|done].
    eapply Forall_impl; [exact I3|]. apply cancel_ok_later; [done|congruence|auto].
  - split; simpl; [done|done|]. apply Forall_app. split; [done|by constructor].
Qed.

Lemma import_steps_ok w w' : rtc step w w' → import_ok w → import_ok w'.
Proof. induction 1; [done|]. intros. by apply IHrtc, (import_step_ok x). Qed.

(** A run that is cancelled before its last look does not succeed. *)
Definition bound_to_fail (w : World) : Prop :=
  cancelled (preparation w) = true ∧ ∀ u, runner w ≠ RunDrop (Ok u) ∧ runner w ≠ RunOver (Ok u).

Lemma step_bound w w' : step w w' → bound_to_fail w → bound_to_fail w'.
Proof.
  intros Hs [D1 D2]. destruct w as [p t cs]. simpl in *.
  destruct Hs as [works answer t' p' Hr|works closed i u u' p' Hi Hu|]; simpl in *; split; simpl; try done.
  - destruct (cancel_transfer_spec works p) as (C1 & _).
    destruct t; simpl in Hr; repeat case_match; simplify_eq/=; congruence.
  - intros u. destruct (D2 u) as [N1 N2]. destruct t; simpl in Hr; repeat case_match; simplify_eq/=; split; congruence.
  - destruct (cancel_transfer_spec (works && negb closed) p) as (C1 & _).
    destruct u; simpl in Hu; simplify_eq/=; congruence.
Qed.

(** However early or late the user cancels an import, when [cancel] comes back and the session is
    open, the run is over, and its share is not live unless the core refused to cancel it. A run
    that is cancelled before it last looks never reports a share. *)
Theorem cancelled_import_is_withdrawn w (Hw : rtc step start w) :
  (CancelOver false ∈ cancels w →
     (∃ result, runner w = RunOver result) ∧ (share (preparation w) = Live → refused (preparation w) = true)) ∧
  (∀ w' u, cancelled (preparation w) = true → undecided (runner w) = true → rtc step w w' → runner w' ≠ RunOver (Ok u)).
Proof.
  destruct (import_steps_ok _ _ Hw import_start_ok) as [I1 I2 I3]. split.
  - intros Hin. pose proof (proj1 (Forall_forall _ _) I3 _ Hin) as (_ & Hh & Hf). specialize (Hf eq_refl).
    apply I2 in Hf as [result Hr]. split; [by exists result|]. rewrite Hr in Hh. naive_solver.
  - intros w' u Hc Hu Hs. assert (bound_to_fail w) as Hb by (split; [done|by destruct (runner w)]).
    assert (bound_to_fail w') as [_ Hn]; [|apply Hn]. clear -Hs Hb. induction Hs as [|w1 w2 w3 H12 _ IH]; [done|].
    by apply IH, (step_bound w1).
Qed.

(** The cancellation finds no share yet, and the run withdraws the one it then makes. *)
Lemma cancelled_import_is_withdrawn_witness :
  ∃ w, rtc step start w ∧ CancelOver false ∈ cancels w ∧ share (preparation w) ≠ Live.
Proof.
  set (w := {| preparation := {| cancelled := true; finished := true; share := Gone; refused := false |};
               runner := RunOver (Err progress_cancelled); cancels := [CancelOver false] |}).
  assert (rtc step start w) as Hs.
  { eapply rtc_l; [by eapply (run_acts _ true (Ok tt))|]. eapply rtc_l; [by eapply cancel_comes|].
    eapply rtc_l; [by eapply (cancel_acts _ true false 0%nat)|]. eapply rtc_l; [by eapply (cancel_acts _ true false 0%nat)|].
    eapply rtc_l; [by eapply (run_acts _ true (Ok tt))|]. eapply rtc_l; [by eapply (run_acts _ true (Ok tt))|].
    eapply rtc_l; [by eapply (run_acts _ true (Ok tt))|]. eapply rtc_l; [by eapply (run_acts _ true (Ok tt))|].
    eapply rtc_l; [by eapply (run_acts _ true (Ok tt))|]. eapply rtc_l; [by eapply (cancel_acts _ true false 0%nat)|].
    apply rtc_refl. }
  exists w. split; [exact Hs|]. assert (CancelOver false ∈ cancels w) as Hin by left. split; [exact Hin|].
  destruct (cancelled_import_is_withdrawn w Hs) as [Hc _]. destruct (Hc Hin) as [_ Hr]. intros E. discriminate (Hr E).
Defined.
End Importing.

(** ** [reconfiguration.rs]: another session for other preferences *)

Module Reconfiguration.

Inductive Maintenance : Type := NoMaintenance | Cache | Temporary.

(** Preferences are compared as a whole; the profile has at most one live session, which runs
    with some preferences, and a file that holds some. *)
Record Profile (P : Type) : Type := { live : option P; disk : P }.
Arguments live {P} _.
Arguments disk {P} _.

Record Reconfigured (P : Type) : Type := {
  session : option P;             (* the session, by the preferences it runs with *)
  preferences : P;
  error : option string
}.
Arguments session {P} _.
Arguments preferences {P} _.
Arguments error {P} _.

(** Saving fails before the new file is in place, or after that, when the directory cannot be
    written through ([preferences.rs]). *)
Inductive SaveOutcome : Type := Saved | FailedBefore | FailedAfter.

Class Surroundings : Type := {
  obligations : nat → result RuntimeObligationFacts string;      (* [old.snapshot()] *)
  maintain : nat → Maintenance → result unit string;
  open_fault : nat → option string;
  save_outcome : nat → SaveOutcome
}.

Section Apply.
Context `{Surroundings} {P : Type}.
Abbreviation IO := (M (Profile P) string).

(** [Snapshot::has_obligations] ([session.rs]). *)
Definition has_obligations (facts : RuntimeObligationFacts) : bool :=
  negb (active_invitation_transfers facts =? 0) || negb (invitation_provider_availability facts =? 0) ||
  negb (targeted_preparations facts =? 0) || negb (active_targeted_transfers facts =? 0) ||
  negb (targeted_provider_availability facts =? 0).

Definition snapshot_obliges : IO bool := λ s n, (result_map has_obligations (obligations n), s, S n).

Definition close : IO unit := modify (λ s, {| live := None; disk := disk s |}).

(** [Session::open]: the profile is locked while a session lives. *)
Definition open (p : P) : IO P := λ s n,
  match live s, open_fault n with
  | Some _, _ => (Err "profile in use"%string, s, S n)
  | None, Some key => (Err key, s, S n)
  | None, None => (Ok p, {| live := Some p; disk := disk s |}, S n)
  end.

Definition save (p : P) : IO unit := λ s n,
  match save_outcome n with
  | Saved => (Ok tt, {| live := live s; disk := p |}, S n)
  | FailedBefore => (Err "error_filesystem"%string, s, S n)
  | FailedAfter => (Err "error_filesystem"%string, {| live := live s; disk := p |}, S n)
  end.

Definition cleanup (m : Maintenance) : IO unit :=
  match m with NoMaintenance => ret tt | _ => λ s n, (maintain n m, s, S n) end.

Definition open_and_save (next : P) : IO P :=
  p ← open next;
  saved ← try (E:=string) (save next);
  match saved with
  | Err key => close;; fail key
  | Ok _ => ret p
  end.

Definition apply_with (previous next : P) (m : Maintenance) : IO (Reconfigured P) :=
  found ← try (E:=string) snapshot_obliges;
  match found with
  | Err key => ret {| session := Some previous; preferences := previous; error := Some key |}
  | Ok true => ret {| session := Some previous; preferences := previous; error := Some "relay_apply_active_transfers"%string |}
  | Ok false =>
      close;;
      changed ← try (E:=string) (cleanup m;; open_and_save next);
      match changed with
      | Ok p => ret {| session := Some p; preferences := next; error := None |}
      | Err _ =>
          reopened ← try (E:=string) (open previous);
          match reopened with
          | Ok p => ret {| session := Some p; preferences := previous; error := Some "relay_apply_failed"%string |}
          | Err _ => ret {| session := None; preferences := previous; error := Some "relay_restore_failed"%string |}
          end
      end
  end.

(** What [apply_with] leaves behind: the session it returns is the one that lives, and it runs
    with the preferences it returns. *)
Record settled (previous next : P) (s : Profile P) (r : Reconfigured P) : Prop := {
  se_live : live s = session r;
  se_session p : session r = Some p → p = preferences r;
  se_done : error r = None → session r = Some next ∧ preferences r = next ∧ disk s = next;
  se_back : error r ≠ None → preferences r = previous ∧ (disk s = previous ∨ disk s = next ∧ ∃ n, save_outcome n = FailedAfter);
  se_gone : session r = None ↔ error r = Some "relay_restore_failed"%string
}.

(** Nothing goes wrong. *)
Definition faultless (m : Maintenance) : Prop :=
  ∀ i, maintain i m = Ok tt ∧ open_fault i = None ∧ save_outcome i = Saved.

Lemma wp_open p s n (Q : result P string → Profile P → nat → Prop) :
  live s = None →
  (∀ key, open_fault n = Some key → Q (Err key) s (S n)) →
  Q (Ok p) {| live := Some p; disk := disk s |} (S n) →
  wp (open p) s n Q.
Proof. intros Hl He Ho. unfold wp, open. rewrite Hl. destruct (open_fault n); auto. Qed.

Lemma wp_change previous next m n :
  wp (cleanup m;; open_and_save next) {| live := None; disk := previous |} n (λ r s _,
    match r with
    | Ok p => p = next ∧ s = {| live := Some next; disk := next |}
    | Err _ => live s = None ∧ (disk s = previous ∨ disk s = next ∧ ∃ n, save_outcome n = FailedAfter) ∧ ¬ faultless m
    end).
Proof.
  apply wp_bind.
  assert (∀ Q : result unit string → Profile P → nat → Prop,
    (∀ n', Q (Ok tt) {| live := None; disk := previous |} n') →
    (∀ key n', (¬ faultless m) → Q (Err key) {| live := None; disk := previous |} n') →
    wp (cleanup m) {| live := None; disk := previous |} n Q) as Hclean.
  { intros Q Ho He. assert (∀ key, maintain n m = Err key → ¬ faultless m) as Hf.
    { intros key E F. destruct (F n) as [E' _]. congruence. }
    destruct m; simpl; [by apply wp_ret| |]; unfold wp; destruct (maintain n _) as [[]|key] eqn:E; eauto. }
  apply Hclean; [|by intros; split_and!; [|left|]]. intros n1. apply wp_bind, wp_open; [done| |].
  { intros key E. split_and!; [done|by left|]. intros F. destruct (F n1) as (_ & E' & _). congruence. }
  simpl. apply wp_bind, wp_try. unfold wp at 1, save. destruct (save_outcome (S n1)) eqn:E; simpl.
  - by apply wp_ret.
  - apply wp_bind, wp_modify, wp_fail. split_and!; [done|by left|]. intros F. destruct (F (S n1)) as (_ & _ & E'). congruence.
  - apply wp_bind, wp_modify, wp_fail. split_and!; [done|right; eauto|]. intros F. destruct (F (S n1)) as (_ & _ & E'). congruence.
Qed.

(** C34: applying preferences always ends with a result. It either succeeds, and then
    the session, the preferences and the file are the new ones; or it goes back to the old
    preferences with an error, with a session unless even the old one cannot be opened again, and
    with the old file, unless saving failed after the new one was in place. Never do two sessions
    use the profile, and while there are obligations nothing changes. *)
Theorem reconfiguration_settles previous next m n
    (Hkeys : ∀ i, obligations i ≠ Err "relay_restore_failed"%string) :
  wp (apply_with previous next m) {| live := Some previous; disk := previous |} n (λ r s _,
    ∃ result, r = Ok result ∧ settled previous next s result ∧
      (result_map has_obligations (obligations n) ≠ Ok false → s = {| live := Some previous; disk := previous |}) ∧
      (result_map has_obligations (obligations n) = Ok false → (∀ i, maintain i m = Ok tt ∧ open_fault i = None ∧ save_outcome i = Saved) →
         error result = None)).
Proof.
  unfold apply_with. apply wp_bind, wp_try. unfold wp at 1, snapshot_obliges.
  destruct (obligations n) as [facts|key] eqn:Eo; simpl; [destruct (has_obligations facts)|].
  - apply wp_ret. eexists. split; [done|]. split_and!; [|done|done].
    split; simpl; try done; [by intros p [= <-]|by split; [|left]].
  - apply wp_bind, wp_modify. simpl. apply wp_bind, wp_try. eapply wp_mono; [apply wp_change|].
    intros [p|key] s n1; simpl.
    + intros [-> ->]. apply wp_ret. eexists. split; [done|]. split_and!; [|done|done].
      split; simpl; try done. by intros p [= <-].
    + intros (Hl & Hd & Hf). apply wp_bind, wp_try, wp_open; [done|intros key' E|]; apply wp_ret;
        (eexists; split; [done|]; split_and!; [|done|by intros _ F; destruct Hf]); split; simpl; try done.
      by intros p [= <-].
  - apply wp_ret. eexists. split; [done|]. split_and!; [|done|done].
    split; simpl; try done; [by intros p [= <-]|by split; [|left]|].
    split; [done|]. intros [= ->]. by destruct (Hkeys n).
Qed.
End Apply.

(** The new preferences cannot be used; the old session comes back. *)
#[local] Instance second_open_works : Surroundings := {|
  obligations _ := Ok {| active_invitation_transfers := 0; invitation_provider_availability := 0;
                         targeted_preparations := 0; active_targeted_transfers := 0;
                         targeted_provider_availability := 0 |};
  maintain _ _ := Ok tt; open_fault n := if (n =? 1)%nat then Some "relay"%string else None;
  save_outcome _ := Saved |}.
Lemma reconfiguration_settles_witness :
  let applied := Sql.run (apply_with 1 2 NoMaintenance) {| live := Some 1; disk := 1 |} in
  applied = (Ok {| session := Some 1; preferences := 1; error := Some "relay_apply_failed"%string |},
             {| live := Some 1; disk := 1 |}) ∧
  ∃ r, applied.1 = Ok r ∧ settled 1 2 applied.2 r.
Proof.
  intros applied. split; [reflexivity|].
  assert (∀ i, obligations i ≠ Err "relay_restore_failed"%string) as Hkeys by (intros i E; discriminate E).
  pose proof (run_wp (apply_with 1 2 NoMaintenance) {| live := Some 1; disk := 1 |}
    (λ r s, ∃ result, r = Ok result ∧ settled 1 2 s result ∧ _ ∧ _)
    (reconfiguration_settles 1 2 NoMaintenance 0 Hkeys)) as (r & Hr & Hs & _).
  exists r. split; [exact Hr|exact Hs].
Defined.
End Reconfiguration.
