(* ===== verification/LinuxPreferences.v ===== *)
(** * [src/linux/src/preferences.rs]: the preferences of the Linux application

    The preferences an older application left behind are a map in the wire format of protocol
    buffers; [Proto] reads it and [import_legacy] takes over what it knows. Bytes are characters,
    and whether bytes are UTF-8 is a parameter. Loops take fuel; [import_total] shows that the
    length of the input is enough. *)

From Stdlib Require Import Wf_nat.
From S2P Require Import Prelude Sql ControlPlane Errors Ticket.

Definition INVALID : string := "linux_preferences_invalid".
Abbreviation Shown A := (result A string).

Record Preferences : Type := {
  username : string;
  receive_directory : string;
  theme : string;
  network : CoreNetworkConfig;
  notifications : bool;
  diagnostics_install_id : string
}.

(** [Preferences::defaults]. *)
Definition preferences_defaults (downloads name : string) : Preferences := {|
  username := name; receive_directory := downloads; theme := "System"; network := default_core_network_config;
  notifications := false; diagnostics_install_id := EmptyString |}.

Definition network_config (p : Preferences) : CoreNetworkConfig := {|
  nc_mode := nc_mode (network p);
  nc_relay_urls := match nc_mode (network p) with
                   | Automatic | LocalOnly => []
                   | StrictCustom | CustomWithDirectFallback => nc_relay_urls (network p)
                   end |}.

(** [Path::is_absolute]. *)
Definition is_absolute (path : string) : bool := String.prefix "/" path.

Definition validate_preferences (p : Preferences) : Shown Preferences :=
  if str_is_empty (trim (username p)) || negb (is_absolute (receive_directory p)) ||
     negb (str_in (theme p) ["System"; "Light"; "Dark"]%string)
  then Err INVALID else Ok p.

(** ** [Proto] *)

Definition Bytes : Type := list ascii.
Definition byte_value (a : ascii) : Z := Z.of_N (Ascii.N_of_ascii a).

(** [(0..64).step_by(7)]. *)
Definition shifts : list Z := [0; 7; 14; 21; 28; 35; 42; 49; 56; 63].

Fixpoint varint_loop (shifts : list Z) (result : Z) (bs : Bytes) : Shown (Z * Bytes) :=
  match shifts with
  | [] => Err INVALID
  | shift :: shifts =>
      match bs with
      | [] => Err INVALID
      | a :: remaining =>
          let byte := byte_value a in
          if (shift =? 63) && (1 <? byte) then Err INVALID
          else
            let result := Z.lor result (Z.shiftl (Z.land byte 127) shift) in
            if byte <? 128 then Ok (result, remaining) else varint_loop shifts result remaining
      end
  end.
Definition varint (bs : Bytes) : Shown (Z * Bytes) := varint_loop shifts 0 bs.

Definition take_bytes (length : Z) (bs : Bytes) : Shown (Bytes * Bytes) :=
  if Z.of_nat (List.length bs) <? length then Err INVALID
  else Ok (take (Z.to_nat length) bs, drop (Z.to_nat length) bs).

Definition bytes (bs : Bytes) : Shown (Bytes * Bytes) :=
  let? '(size, bs) := varint bs in take_bytes size bs.

Definition skip (tag : Z) (bs : Bytes) : Shown Bytes :=
  if Z.shiftr tag 3 =? 0 then Err INVALID
  else
    match Z.land tag 7 with
    | 0 => let? '(_, bs) := varint bs in Ok bs
    | 1 => let? '(_, bs) := take_bytes 8 bs in Ok bs
    | 2 => let? '(_, bs) := bytes bs in Ok bs
    | 5 => let? '(_, bs) := take_bytes 4 bs in Ok bs
    | _ => Err INVALID
    end.

(** ** [import_legacy] *)

(** [serde_json::Value], as far as it is made here. *)
Inductive Legacy : Type := Text (s : string) | Flag (b : bool).

Section Takeover.
Variable utf8 : string → bool.

Definition text_of (bs : Bytes) : Shown string :=
  let s := String.string_of_list_ascii bs in if utf8 s then Ok s else Err INVALID.

(** The loops; [None] if the fuel runs out. *)
Fixpoint item_loop (fuel : nat) (value : option Legacy) (item : Bytes) : option (Shown (option Legacy)) :=
  match fuel with
  | O => None
  | S fuel =>
      match item with
      | [] => Some (Ok value)
      | _ =>
          match varint item with
          | Err e => Some (Err e)
          | Ok (tag, item) =>
              if tag =? 42 then
                match (let? '(text, item) := bytes item in let? text := text_of text in Ok (text, item)) with
                | Err e => Some (Err e)
                | Ok (text, item) => item_loop fuel (Some (Text text)) item
                end
              else if tag =? 8 then
                match varint item with
                | Err e => Some (Err e)
                | Ok (n, item) => item_loop fuel (Some (Flag (negb (n =? 0)))) item
                end
              else
                match skip tag item with
                | Err e => Some (Err e)
                | Ok item => item_loop fuel value item
                end
          end
      end
  end.

Fixpoint entry_loop (fuel : nat) (key : option string) (value : option Legacy) (entry : Bytes) :
    option (Shown (option string * option Legacy)) :=
  match fuel with
  | O => None
  | S fuel =>
      match entry with
      | [] => Some (Ok (key, value))
      | _ =>
          match varint entry with
          | Err e => Some (Err e)
          | Ok (tag, entry) =>
              if tag =? 10 then
                match (let? '(text, entry) := bytes entry in let? text := text_of text in Ok (text, entry)) with
                | Err e => Some (Err e)
                | Ok (text, entry) => entry_loop fuel (Some text) value entry
                end
              else if tag =? 18 then
                match bytes entry with
                | Err e => Some (Err e)
                | Ok (item, entry) =>
                    match item_loop (S (length item)) value item with
                    | None => None
                    | Some (Err e) => Some (Err e)
                    | Some (Ok value) => entry_loop fuel key value entry
                    end
                end
              else
                match skip tag entry with
                | Err e => Some (Err e)
                | Ok entry => entry_loop fuel key value entry
                end
          end
      end
  end.

Fixpoint map_loop (fuel : nat) (values : gmap string Legacy) (map : Bytes) : option (Shown (gmap string Legacy)) :=
  match fuel with
  | O => None
  | S fuel =>
      match map with
      | [] => Some (Ok values)
      | _ =>
          match varint map with
          | Err e => Some (Err e)
          | Ok (tag, map) =>
              if negb (tag =? 10) then
                match skip tag map with
                | Err e => Some (Err e)
                | Ok map => map_loop fuel values map
                end
              else
                match bytes map with
                | Err e => Some (Err e)
                | Ok (entry, map) =>
                    match entry_loop (S (length entry)) None None entry with
                    | None => None
                    | Some (Err e) => Some (Err e)
                    | Some (Ok (Some key, Some value)) => map_loop fuel (<[key := value]> values) map
                    | Some (Ok (Some key, None)) => Some (Err INVALID)
                    | Some (Ok (None, _)) => map_loop fuel values map
                    end
                end
          end
      end
  end.

Definition read_map (map : Bytes) : option (Shown (gmap string Legacy)) := map_loop (S (length map)) ∅ map.

(** [text(key)?]. *)
Definition text (values : gmap string Legacy) (key : string) : Shown (option string) :=
  match values !! key with
  | None => Ok None
  | Some (Text s) => Ok (Some s)
  | Some (Flag _) => Err INVALID
  end.

(** [value.lines()]; the carriage returns go with [trim]. *)
Fixpoint lines (line : string) (s : string) : list string :=
  match s with
  | EmptyString => [line]
  | String a s => if Ascii.eqb a "010"%char then line :: lines EmptyString s else lines (line +:+ String a EmptyString) s
  end.
Definition relay_lines (value : string) : list string :=
  filter (λ s, str_is_empty s = false) (trim <$> lines EmptyString value).

Definition relay_mode_of (value : string) : Shown CoreRelayMode :=
  if str_eqb value "Automatic" then Ok Automatic
  else if str_eqb value "StrictCustom" then Ok StrictCustom
  else if str_eqb value "CustomWithDirectFallback" then Ok CustomWithDirectFallback
  else if str_eqb value "LocalOnly" then Ok LocalOnly
  else Err INVALID.

Definition apply_values (values : gmap string Legacy) (p : Preferences) : Shown Preferences :=
  let? name := text values "username" in
  let? folder := text values "receive_folder_value" in
  let? kind := text values "receive_folder_kind" in
  let? _ := match kind with
            | Some kind => if str_eqb kind "FileSystemPath" then Ok tt else Err INVALID
            | None => Ok tt
            end in
  let? theme_mode := text values "theme_mode" in
  let? install := text values "diagnostics_install_id" in
  let? mode := text values "relay_mode" in
  let? mode := match mode with Some value => relay_mode_of value | None => Ok (nc_mode (network p)) end in
  let? urls := text values "relay_urls" in
  let? notify := match values !! "notifications_enabled"%string with
                 | Some (Flag b) => Ok b
                 | Some (Text _) => Err INVALID
                 | None => Ok (notifications p)
                 end in
  validate_preferences {|
    username := default (username p) name; receive_directory := default (receive_directory p) folder;
    theme := default (theme p) theme_mode;
    network := {| nc_mode := mode;
                  nc_relay_urls := match urls with Some value => relay_lines value | None => nc_relay_urls (network p) end |};
    notifications := notify; diagnostics_install_id := default (diagnostics_install_id p) install |}.

Definition import_legacy (map : Bytes) (p : Preferences) : option (Shown Preferences) :=
  match read_map map with
  | None => None
  | Some (Err e) => Some (Err e)
  | Some (Ok values) => Some (apply_values values p)
  end.

(** ** The files *)

(** The profile directory: our own file, the one of the older application, and the temporary
    file of a [save]. *)
Record Profile : Type := {
  native : option Bytes;
  legacy : option Bytes;
  temporary : option Bytes
}.

(** [readable] says whether the file system lets the file be read. *)
Definition read_bounded (readable : bool) (content : Bytes) : Shown Bytes :=
  if negb readable || (1024 * 1024 <? Z.of_nat (length content)) then Err INVALID else Ok content.

(** Which of the calls of [load_preferences] succeed: the two [try_exists] and the reading. *)
Record Reads : Type := { native_checked : bool; legacy_checked : bool; readable : bool }.
Definition all_read : Reads := {| native_checked := true; legacy_checked := true; readable := true |}.

(** What [serde_json] makes of preferences; a path that is not UTF-8 has no JSON. *)
Variable from_json : Bytes → Shown Preferences.
Variable to_json : Preferences → option Bytes.

Definition load_preferences (io : Reads) (d : Profile) (defaults : Preferences) : option (Shown Preferences) :=
  if negb (native_checked io) then Some (Err INVALID)
  else
    match native d with
    | Some content =>
        Some (let? content := read_bounded (readable io) content in
              let? p := from_json content in validate_preferences p)
    | None =>
        if negb (legacy_checked io) then Some (Err INVALID)
        else
          match legacy d with
          | Some content =>
              match read_bounded (readable io) content with
              | Err e => Some (Err e)
              | Ok content => import_legacy content defaults
              end
          | None => Some (validate_preferences defaults)
          end
    end.

(** The call of the file system at which [save] fails. *)
Inductive SaveFault : Type :=
| CreateDirFails | OpenFails | WriteFails (written : nat) | SyncFails | RenameFails | SyncDirFails.

(** The closure of [save]: the profile it leaves, and whether it succeeded. *)
Definition write_and_rename (fault : option SaveFault) (p : Preferences) (d : Profile) : Profile * bool :=
  let holding content := {| native := native d; legacy := legacy d; temporary := Some content |} in
  match fault with
  | Some OpenFails => (d, false)
  | _ =>
      match to_json p with
      | None => (holding [], false)
      | Some content =>
          match fault with
          | Some (WriteFails written) => (holding (take written content), false)
          | Some SyncFails | Some RenameFails => (holding content, false)
          | _ =>
              let renamed := {| native := Some content; legacy := legacy d; temporary := None |} in
              (renamed, match fault with Some SyncDirFails => false | _ => true end)
          end
      end
  end.

Definition save (fault : option SaveFault) (removed : bool) (p : Preferences) (d : Profile) : Profile * Shown unit :=
  match validate_preferences p with
  | Err e => (d, Err e)
  | Ok _ =>
      match fault with
      | Some CreateDirFails => (d, Err "error_filesystem")
      | _ =>
          let '(d, ok) := write_and_rename fault p d in
          ({| native := native d; legacy := legacy d;
              temporary := if removed then None else temporary d |},
           if ok then Ok tt else Err "error_filesystem")
      end
  end.
End Takeover.

(** ** A reference writer

    The older application writes [map<string, Value>] with [string] as field 5 and [bool] as
    field 1 of [Value]; a length is a varint. *)
Definition byte_of (z : Z) : ascii := Ascii.ascii_of_N (Z.to_N z).

Fixpoint write_varint (fuel : nat) (n : Z) : Bytes :=
  match fuel with
  | O => []
  | S fuel => if n <? 128 then [byte_of n] else byte_of (n mod 128 + 128) :: write_varint fuel (n / 128)
  end.
Definition varint_bytes (n : Z) : Bytes := write_varint 10 n.

Definition write_bytes (bs : Bytes) : Bytes := varint_bytes (Z.of_nat (length bs)) ++ bs.
Definition write_text (s : string) : Bytes := write_bytes (String.list_ascii_of_string s).
Definition write_value (v : Legacy) : Bytes :=
  match v with
  | Text s => byte_of 42 :: write_text s
  | Flag b => [byte_of 8; byte_of (if b then 1 else 0)]
  end.
Definition write_entry (kv : string * Legacy) : Bytes :=
  byte_of 10 :: write_text kv.1 ++ byte_of 18 :: write_bytes (write_value kv.2).
Definition write_map (l : list (string * Legacy)) : Bytes :=
  l ≫= λ kv, byte_of 10 :: write_bytes (write_entry kv).

Definition writable (utf8 : string → bool) (kv : string * Legacy) : Prop :=
  utf8 kv.1 = true ∧ match kv.2 with Text s => utf8 s = true | Flag _ => True end ∧
  Z.of_nat (length (write_entry kv)) < 2 ^ 64.

(** ** Varints *)

Lemma byte_value_of z : 0 ≤ z < 256 → byte_value (byte_of z) = z.
Proof.
  intros Hz. unfold byte_value, byte_of. rewrite Ascii.N_ascii_embedding by lia. lia.
Qed.

Lemma lor_shiftl_add result b k :
  0 ≤ k → 0 ≤ result < 2 ^ k → 0 ≤ b → Z.lor result (Z.shiftl b k) = result + b * 2 ^ k.
Proof.
  intros Hk Hr Hb. rewrite <- Z.add_nocarry_lor; [by rewrite Z.shiftl_mul_pow2|].
  apply Z.bits_inj'. intros i Hi. rewrite Z.land_spec, Z.bits_0.
  destruct (Z.ltb_spec i k).
  - by rewrite Z.shiftl_spec_low, andb_false_r by lia.
  - destruct (Z.eq_dec result 0) as [->|]; [by rewrite Z.bits_0|].
    rewrite Z.bits_above_log2; [done|lia|].
    apply Z.lt_le_trans with k; [|done]. apply Z.log2_lt_pow2; lia.
Qed.

Lemma land_127 a : Z.land a 127 = a mod 128.
Proof. change 127 with (Z.ones 7). by rewrite Z.land_ones by lia. Qed.

(** From the [k]-th of the ten bytes on. *)
Lemma varint_loop_write fuel : ∀ k n result rest,
  (k + fuel)%nat = 10%nat → (0 < fuel)%nat →
  0 ≤ n < 2 ^ (64 - 7 * Z.of_nat k) → 0 ≤ result < 2 ^ (7 * Z.of_nat k) →
  varint_loop (drop k shifts) result (write_varint fuel n ++ rest) =
    Ok (result + n * 2 ^ (7 * Z.of_nat k), rest).
Proof.
  induction fuel as [|fuel IH]; intros k n result rest Hk Hf Hn Hr; [lia|].
  assert (drop k shifts = 7 * Z.of_nat k :: drop (S k) shifts) as ->.
  { do 10 (destruct k as [|k]; [done|]). lia. }
  cbn [write_varint]. destruct (Z.ltb_spec n 128) as [Hs|Hs].
  - cbn [app varint_loop]. rewrite byte_value_of by lia.
    assert ((7 * Z.of_nat k =? 63) && (1 <? n) = false) as ->.
    { destruct (Z.eqb_spec (7 * Z.of_nat k) 63) as [E|]; [|done]. rewrite E in Hn. cbn. apply Z.ltb_ge. lia. }
    rewrite (proj2 (Z.ltb_lt n 128)) by lia. rewrite land_127, Z.mod_small by lia.
    by rewrite lor_shiftl_add by lia.
  - pose proof (Z.mod_pos_bound n 128). cbn [app varint_loop]. rewrite byte_value_of by lia.
    assert (0 < fuel)%nat as Hf'.
    { destruct fuel; [|lia]. assert (k = 9%nat) as -> by lia. cbn in Hn. lia. }
    assert ((7 * Z.of_nat k =? 63) = false) as -> by (apply Z.eqb_neq; lia). cbn [andb].
    rewrite (proj2 (Z.ltb_ge _ 128)) by lia.
    assert (Z.land (n mod 128 + 128) 127 = n mod 128) as ->.
    { rewrite land_127. replace (n mod 128 + 128) with (n mod 128 + 1 * 128) by lia.
      rewrite Z_mod_plus_full, Z.mod_mod; lia. }
    rewrite lor_shiftl_add by lia.
    assert (2 ^ (7 * Z.of_nat (S k)) = 128 * 2 ^ (7 * Z.of_nat k)) as Hp.
    { rewrite Nat2Z.inj_succ, <- (Z.pow_add_r 2 7) by lia. f_equal. lia. }
    pose proof (Z.div_mod n 128 ltac:(lia)) as Hd.
    pose proof (Z.pow_pos_nonneg 2 (7 * Z.of_nat k) ltac:(lia) ltac:(lia)).
    rewrite IH; [|lia|lia| |rewrite Hp; nia].
    + rewrite Hp. do 2 f_equal. nia.
    + split; [apply Z.div_pos; lia|]. apply Z.div_lt_upper_bound; [lia|].
      change 128 with (2 ^ 7). rewrite <- Z.pow_add_r by lia.
      replace (7 + (64 - 7 * Z.of_nat (S k))) with (64 - 7 * Z.of_nat k) by lia. lia.
Qed.

Lemma varint_written n rest : 0 ≤ n < 2 ^ 64 → varint (varint_bytes n ++ rest) = Ok (n, rest).
Proof.
  intros Hn. unfold varint, varint_bytes. change shifts with (drop 0 shifts).
  rewrite varint_loop_write by (cbn; lia). cbn. do 2 f_equal. lia.
Qed.

(** Tags are single bytes. *)
Lemma varint_tag t rest : 0 ≤ t < 128 → varint (byte_of t :: rest) = Ok (t, rest).
Proof.
  intros Ht. rewrite <- (varint_written t rest) by lia. unfold varint_bytes. cbn.
  by rewrite (proj2 (Z.ltb_lt t 128)) by lia.
Qed.

Lemma bytes_written bs rest :
  Z.of_nat (length bs) < 2 ^ 64 → bytes (write_bytes bs ++ rest) = Ok (bs, rest).
Proof.
  intros Hl. unfold bytes, write_bytes. rewrite <- app_assoc, varint_written by lia.
  cbn [result_bind]. unfold take_bytes. rewrite length_app, (proj2 (Z.ltb_ge _ _)) by lia.
  by rewrite Nat2Z.id, take_app_length, drop_app_length.
Qed.

(** ** The loops end *)

Section Loops.
Variable utf8 : string → bool.

Lemma varint_loop_shrinks shifts : ∀ result bs n rest,
  varint_loop shifts result bs = Ok (n, rest) → (length rest < length bs)%nat.
Proof.
  induction shifts as [|shift shifts IH]; intros result [|a bs] n rest; cbn; try done.
  destruct (_ && _); [done|]. destruct (_ <? 128); [intros [= _ <-]; lia|]. intros H%IH. lia.
Qed.

Lemma varint_shrinks bs n rest : varint bs = Ok (n, rest) → (length rest < length bs)%nat.
Proof. apply varint_loop_shrinks. Qed.

Lemma take_bytes_shrinks n bs v rest : take_bytes n bs = Ok (v, rest) → (length rest ≤ length bs)%nat.
Proof. unfold take_bytes. destruct (_ <? _); [done|]. intros [= _ <-]. rewrite length_drop. lia. Qed.

Lemma bytes_shrinks bs v rest : bytes bs = Ok (v, rest) → (length rest < length bs)%nat.
Proof.
  unfold bytes. destruct (varint bs) as [[n bs']|] eqn:E; [|done]. apply varint_shrinks in E.
  intros H%take_bytes_shrinks. lia.
Qed.

Lemma skip_shrinks tag bs rest : skip tag bs = Ok rest → (length rest ≤ length bs)%nat.
Proof.
  unfold skip. destruct (_ =? 0); [done|].
  repeat match goal with
         | |- context [let? '(_, _) := ?m in _] => destruct m as [[]|] eqn:?; cbn [result_bind]
         | |- context [match ?x with _ => _ end] => destruct x eqn:?
         end; intros [= <-];
  repeat match goal with
         | H : varint _ = _ |- _ => apply varint_shrinks in H
         | H : take_bytes _ _ = _ |- _ => apply take_bytes_shrinks in H
         | H : bytes _ = _ |- _ => apply bytes_shrinks in H
         end; lia.
Qed.

Lemma text_shrinks bs v rest :
  (let? '(text, bs) := bytes bs in let? text := text_of utf8 text in Ok (text, bs)) = Ok (v, rest) →
  (length rest < length bs)%nat.
Proof.
  destruct (bytes bs) as [[t bs']|] eqn:E; [|done]. apply bytes_shrinks in E. cbn.
  by destruct (text_of utf8 t); [intros [= _ <-]|].
Qed.

(** Goes through the ways of one turn of a loop, with what each reading has consumed. *)
Ltac turn_of_loop :=
  repeat match goal with
         | |- ∃ r, Some ?x = Some r => by eexists
         | |- context [if ?b then _ else _] => destruct b
         | |- context [varint ?b] => let H := fresh in destruct (varint b) as [[]|] eqn:H; [apply varint_shrinks in H|]
         | |- context [result_bind ?f (bytes ?b)] =>
             let H := fresh in destruct (result_bind f (bytes b)) as [[]|] eqn:H; [apply text_shrinks in H|]
         | |- context [bytes ?b] => let H := fresh in destruct (bytes b) as [[]|] eqn:H; [apply bytes_shrinks in H|]
         | |- context [skip ?t ?b] => let H := fresh in destruct (skip t b) eqn:H; [apply skip_shrinks in H|]
         end.

Lemma item_loop_total fuel : ∀ value item,
  (length item < fuel)%nat → ∃ r, item_loop utf8 fuel value item = Some r.
Proof.
  induction fuel as [|fuel IH]; intros value [|a item] Hf; cbn in Hf; [lia|lia|by eexists|].
  cbn [item_loop]. turn_of_loop; apply IH; cbn in *; lia.
Qed.

Lemma entry_loop_total fuel : ∀ key value entry,
  (length entry < fuel)%nat → ∃ r, entry_loop utf8 fuel key value entry = Some r.
Proof.
  induction fuel as [|fuel IH]; intros key value [|a entry] Hf; cbn in Hf; [lia|lia|by eexists|].
  cbn [entry_loop]. turn_of_loop; try (apply IH; cbn in *; lia).
  edestruct item_loop_total as [[]  ->]; [|apply IH; cbn in *; lia|by eexists]. lia.
Qed.

Lemma map_loop_total fuel : ∀ values map,
  (length map < fuel)%nat → ∃ r, map_loop utf8 fuel values map = Some r.
Proof.
  induction fuel as [|fuel IH]; intros values [|a map] Hf; cbn in Hf; [lia|lia|by eexists|].
  cbn [map_loop]. turn_of_loop; try (apply IH; cbn in *; lia).
  edestruct entry_loop_total as [[[[] []]|] ->]; try (apply IH; cbn in *; lia); try by eexists. lia.
Qed.

Lemma import_total map p : ∃ r, import_legacy utf8 map p = Some r.
Proof.
  unfold import_legacy, read_map. destruct (map_loop_total (S (length map)) ∅ map) as [[] ->]; [lia|by eexists..].
Qed.

(** ** What was written is read *)

Lemma text_written s rest :
  utf8 s = true → Z.of_nat (length (write_text s)) < 2 ^ 64 →
  (let? '(text, bs) := bytes (write_text s ++ rest) in let? text := text_of utf8 text in Ok (text, bs)) = Ok (s, rest).
Proof.
  unfold write_text. intros Hs Hl. rewrite bytes_written.
  - cbn. unfold text_of. by rewrite String.string_of_list_ascii_of_string, Hs.
  - revert Hl. unfold write_bytes. rewrite length_app. lia.
Qed.

Lemma item_written fuel v :
  (match v with Text s => utf8 s = true ∧ Z.of_nat (length (write_text s)) < 2 ^ 64 | Flag _ => True end) →
  item_loop utf8 (S (S fuel)) None (write_value v) = Some (Ok (Some v)).
Proof.
  destruct v as [s|b]; [intros [Hs Hl]|intros _; by destruct b].
  cbn [write_value item_loop]. rewrite varint_tag by lia.
  rewrite <- (app_nil_r (write_text s)).
  by rewrite text_written.
Qed.

Lemma entry_written fuel kv :
  writable utf8 kv → entry_loop utf8 (S (S (S fuel))) None None (write_entry kv) = Some (Ok (Some kv.1, Some kv.2)).
Proof.
  destruct kv as [k v]. unfold writable, write_entry. cbn [fst snd]. intros (Hk & Hv & Hl).
  cbn [length] in Hl. rewrite length_app in Hl. cbn [length] in Hl.
  assert (Z.of_nat (length (write_value v)) < 2 ^ 64) as Hv'.
  { revert Hl. unfold write_bytes. rewrite length_app. lia. }
  cbn [entry_loop]. rewrite varint_tag by lia. cbn [Z.eqb Pos.eqb].
  rewrite text_written by (done || lia).
  rewrite varint_tag by lia. cbn [Z.eqb Pos.eqb].
  rewrite <- (app_nil_r (write_bytes _)), bytes_written by done.
  assert (∃ n, length (write_value v) = S n) as [n Hn] by (destruct v; cbn; eauto).
  rewrite Hn, item_written; [done|]. destruct v; [|done]. split; [done|]. cbn [write_value length] in Hv'. lia.
Qed.

Lemma map_written l : ∀ values fuel,
  Forall (writable utf8) l → (length l < fuel)%nat →
  map_loop utf8 fuel values (write_map l) = Some (Ok (foldl (λ m kv, <[kv.1 := kv.2]> m) values l)).
Proof.
  induction l as [|kv l IH]; intros values [|fuel] Hw Hf; cbn in Hf; try lia; [done|].
  inversion_clear Hw as [|?? Hkv Hl].
  change (write_map (kv :: l)) with (byte_of 10 :: write_bytes (write_entry kv) ++ write_map l).
  cbn [map_loop]. rewrite varint_tag by lia. cbn [negb Z.eqb Pos.eqb].
  rewrite bytes_written by apply Hkv.
  assert (∃ n, length (write_entry kv) = S (S n)) as [n ->].
  { unfold write_entry. cbn. rewrite length_app. cbn. eexists. rewrite Nat.add_succ_r. reflexivity. }
  rewrite entry_written by done. cbn [foldl]. apply IH; [done|lia].
Qed.

Lemma length_write_map l : (length l ≤ length (write_map l))%nat.
Proof.
  induction l as [|kv l IH]; [done|].
  change (write_map (kv :: l)) with (byte_of 10 :: write_bytes (write_entry kv) ++ write_map l).
  cbn. rewrite length_app. lia.
Qed.

Lemma read_map_written l :
  Forall (writable utf8) l → read_map utf8 (write_map l) = Some (Ok (foldl (λ m kv, <[kv.1 := kv.2]> m) ∅ l)).
Proof. intros Hl. apply map_written; [done|]. pose proof (length_write_map l). lia. Qed.
End Loops.

(** ** What is kept *)

Lemma inserts_list l : ∀ m : gmap string Legacy,
  NoDup l.*1 → foldl (λ m kv, <[kv.1 := kv.2]> m) m l = list_to_map l ∪ m.
Proof.
  induction l as [|[k v] l IH]; intros m; cbn; [by rewrite (left_id_L ∅ (∪))|].
  intros [Hk Hl]%NoDup_cons. rewrite IH by done.
  rewrite <- insert_union_l, insert_union_r; [done|]. by apply not_elem_of_list_to_map.
Qed.

Lemma text_invalid values key e : text values key = Err e → e = INVALID.
Proof. unfold text. destruct (values !! key) as [[]|]; congruence. Qed.

Lemma relay_mode_invalid value e : relay_mode_of value = Err e → e = INVALID.
Proof. unfold relay_mode_of. repeat destruct (str_eqb _ _); congruence. Qed.

Lemma validate_cases p : validate_preferences p = Ok p ∨ validate_preferences p = Err INVALID.
Proof. unfold validate_preferences. destruct (_ || _ || _); auto. Qed.

(** What [apply_values] makes of the values. *)
Record Applied (values : gmap string Legacy) (defaults p : Preferences) : Prop := {
  ap_username : text values "username" = Ok (Some (username p)) ∨
                text values "username" = Ok None ∧ username p = username defaults;
  ap_folder : text values "receive_folder_value" = Ok (Some (receive_directory p)) ∨
              text values "receive_folder_value" = Ok None ∧ receive_directory p = receive_directory defaults;
  ap_mode : (∃ v, text values "relay_mode" = Ok (Some v) ∧ relay_mode_of v = Ok (nc_mode (network p))) ∨
            text values "relay_mode" = Ok None ∧ nc_mode (network p) = nc_mode (network defaults);
  ap_urls : (∃ v, text values "relay_urls" = Ok (Some v) ∧ nc_relay_urls (network p) = relay_lines v) ∨
            text values "relay_urls" = Ok None ∧ nc_relay_urls (network p) = nc_relay_urls (network defaults);
  ap_notifications : values !! "notifications_enabled"%string = Some (Flag (notifications p)) ∨
                     values !! "notifications_enabled"%string = None ∧ notifications p = notifications defaults;
  ap_valid : validate_preferences p = Ok p
}.

Lemma apply_values_spec values defaults :
  match apply_values values defaults with
  | Ok p => Applied values defaults p
  | Err e => e = INVALID
  end.
Proof.
  unfold apply_values.
  destruct (text values "username") as [name|e] eqn:Hn; cbn [result_bind]; [|by apply text_invalid in Hn].
  destruct (text values "receive_folder_value") as [folder|e] eqn:Hf; cbn [result_bind]; [|by apply text_invalid in Hf].
  destruct (text values "receive_folder_kind") as [kind|e] eqn:Hk; cbn [result_bind]; [|by apply text_invalid in Hk].
  destruct (match kind with Some kind => _ | None => _ end) as [u|e] eqn:Hk'; cbn [result_bind];
    [|destruct kind as [s|]; [destruct (str_eqb s _)|]; congruence].
  destruct (text values "theme_mode") as [theme_mode|e] eqn:Ht; cbn [result_bind]; [|by apply text_invalid in Ht].
  destruct (text values "diagnostics_install_id") as [install|e] eqn:Hi; cbn [result_bind]; [|by apply text_invalid in Hi].
  destruct (text values "relay_mode") as [mode|e] eqn:Hm; cbn [result_bind]; [|by apply text_invalid in Hm].
  destruct (match mode with Some value => _ | None => _ end) as [cm|e] eqn:Hm'; cbn [result_bind];
    [|destruct mode; [by apply relay_mode_invalid in Hm'|done]].
  destruct (text values "relay_urls") as [urls|e] eqn:Hu; cbn [result_bind]; [|by apply text_invalid in Hu].
  destruct (values !! "notifications_enabled"%string) as [[]|] eqn:Hb; cbn [result_bind]; try done;
    match goal with |- context [validate_preferences ?p] => destruct (validate_cases p) as [Hv|Hv] end;
    rewrite Hv; [|done| |done];
    (split; cbn; [destruct name|destruct folder|destruct mode|destruct urls| |exact Hv]; cbn; eauto;
     injection Hm' as ->; eauto).
Qed.

Lemma text_of_list l key s :
  NoDup l.*1 → (key, Text s) ∈ l → text (list_to_map l) key = Ok (Some s).
Proof. intros Hl Hk. unfold text. by rewrite (elem_of_list_to_map_1 l key (Text s)). Qed.

(** Reads a known entry of [l] in a fact about the values. *)
Ltac known_entry Hl := erewrite text_of_list in * by first [exact Hl | eassumption]; naive_solver.

(** The names of the policies in the older application. *)
Definition stored_policies : list (string * CoreRelayMode) :=
  [("Automatic", Automatic); ("StrictCustom", StrictCustom); ("CustomWithDirectFallback", CustomWithDirectFallback);
   ("LocalOnly", LocalOnly)]%string.

(** A list of relays as the older application wrote it, one on a line. *)
Definition relay_line_ok (relay : string) : Prop :=
  relay ≠ EmptyString ∧ trim relay = relay ∧ Forall (λ a, Ascii.eqb a "010"%char = false) (String.list_ascii_of_string relay).
Fixpoint written_relays (relays : list string) : string :=
  match relays with
  | [] => EmptyString
  | relay :: relays => relay +:+ String "010" (written_relays relays)
  end.

Lemma lines_of_line line relay rest :
  Forall (λ a, Ascii.eqb a "010"%char = false) (String.list_ascii_of_string relay) →
  lines line (relay +:+ String "010" rest) = (line +:+ relay) :: lines EmptyString rest.
Proof.
  revert line. induction relay as [|a relay IH]; intros line; [intros _; by rewrite str_app_empty_r|].
  cbn [String.list_ascii_of_string]. rewrite str_app_cons. cbn [lines]. intros [Ha Hr]%Forall_cons. rewrite Ha, IH by done. by rewrite str_app_assoc.
Qed.
Lemma relay_lines_written relays : Forall relay_line_ok relays → relay_lines (written_relays relays) = relays.
Proof.
  unfold relay_lines. induction 1 as [|relay relays (Hne & Ht & Hc) _ IH]; [done|].
  cbn [written_relays]. rewrite lines_of_line by done. rewrite fmap_cons. change (EmptyString +:+ relay) with relay.
  rewrite Ht, filter_cons_True, IH; [done|by destruct relay].
Qed.

(** The entries are of the kinds the older application wrote, and what they say can be used. *)
Record takable (l : list (string * Legacy)) (defaults : Preferences) : Prop := {
  tk_texts key b : key ∈ ["username"; "receive_folder_value"; "receive_folder_kind"; "theme_mode"; "diagnostics_install_id";
                          "relay_urls"]%string → (key, Flag b) ∉ l;
  tk_flag s : ("notifications_enabled"%string, Text s) ∉ l;
  tk_kind s : ("receive_folder_kind"%string, Text s) ∈ l → s = "FileSystemPath"%string;
  tk_name s : ("username"%string, Text s) ∈ l → trim s ≠ EmptyString;
  tk_folder s : ("receive_folder_value"%string, Text s) ∈ l → is_absolute s = true;
  tk_theme s : ("theme_mode"%string, Text s) ∈ l → s ∈ ["System"; "Light"; "Dark"]%string;
  tk_defaults : validate_preferences defaults = Ok defaults
}.

Lemma text_takable l defaults key :
  takable l defaults → key ∈ ["username"; "receive_folder_value"; "receive_folder_kind"; "theme_mode";
    "diagnostics_install_id"; "relay_urls"]%string →
  ∃ o, text (list_to_map l) key = Ok o ∧ ∀ s, o = Some s → (key, Text s) ∈ l.
Proof.
  intros Ht Hk. unfold text. destruct (list_to_map l !! key) as [[s|b]|] eqn:E; [| |by exists None].
  - apply elem_of_list_to_map_2 in E. exists (Some s). split; [done|]. by intros ? [= <-].
  - apply elem_of_list_to_map_2 in E. by destruct (tk_texts _ _ Ht key b Hk).
Qed.

Lemma validate_Ok p :
  trim (username p) ≠ EmptyString → is_absolute (receive_directory p) = true → str_in (theme p) ["System"; "Light"; "Dark"]%string = true →
  validate_preferences p = Ok p.
Proof.
  intros Hu Hf Ht. unfold validate_preferences. rewrite Hf, Ht.
  destruct (str_is_empty _) eqn:E; [|done]. by destruct (trim (username p)).
Qed.
Lemma validated p : validate_preferences p = Ok p →
  trim (username p) ≠ EmptyString ∧ is_absolute (receive_directory p) = true ∧ str_in (theme p) ["System"; "Light"; "Dark"]%string = true.
Proof.
  unfold validate_preferences. destruct (str_is_empty (trim _)) eqn:Eu, (is_absolute _), (str_in _ _); try done. intros _.
  split_and!; [|done..]. intros E. by rewrite E in Eu.
Qed.

Lemma apply_takable l defaults v mode :
  NoDup l.*1 → takable l defaults → ("relay_mode"%string, Text v) ∈ l → relay_mode_of v = Ok mode →
  ∃ p, apply_values (list_to_map l) defaults = Ok p.
Proof.
  intros Hl Ht Hv Hm. unfold apply_values.
  destruct (text_takable l defaults "username" Ht) as (name & -> & Hname); [by left|].
  destruct (text_takable l defaults "receive_folder_value" Ht) as (folder & -> & Hfolder); [by right; left|].
  destruct (text_takable l defaults "receive_folder_kind" Ht) as (kind & -> & Hkind); [by do 2 right; left|].
  destruct (text_takable l defaults "theme_mode" Ht) as (th & -> & Hth); [by do 3 right; left|].
  destruct (text_takable l defaults "diagnostics_install_id" Ht) as (install & -> & _); [by do 4 right; left|].
  destruct (text_takable l defaults "relay_urls" Ht) as (urls & -> & _); [by do 5 right; left|].
  rewrite (text_of_list l "relay_mode" v) by done. cbn [result_bind]. rewrite Hm.
  assert ((match kind with Some kind => if str_eqb kind "FileSystemPath" then Ok tt else Err INVALID | None => Ok tt end) = Ok tt) as ->.
  { destruct kind as [k|]; [|done]. by rewrite (tk_kind _ _ Ht k) by auto. }
  cbn [result_bind]. destruct (validated _ (tk_defaults _ _ Ht)) as (Hd1 & Hd2 & Hd3).
  destruct (list_to_map l !! "notifications_enabled"%string) as [[s|b]|] eqn:En.
  { apply elem_of_list_to_map_2 in En. by destruct (tk_flag _ _ Ht s). }
  all: eexists; apply validate_Ok; cbn.
  1,4: destruct name; cbn; [by eapply (tk_name _ _ Ht); auto|done].
  1,3: destruct folder; cbn; [by eapply (tk_folder _ _ Ht); auto|done].
  all: destruct th; cbn; [apply str_in_elem; by eapply (tk_theme _ _ Ht); auto|done].
Qed.

(** The parser knows these names and no other. *)
Lemma relay_mode_known v :
  (v ∈ stored_policies.*1 → ∃ mode, relay_mode_of v = Ok mode) ∧
  (∀ mode, relay_mode_of v = Ok mode → (v, mode) ∈ stored_policies).
Proof.
  split.
  - cbn. rewrite !elem_of_cons, elem_of_nil. intros [->|[->|[->|[->|[]]]]]; by eexists.
  - intros mode. unfold relay_mode_of.
    repeat (destruct (str_eqb v _) eqn:E; [apply str_eqb_eq in E as ->; intros [= <-]; unfold stored_policies; rewrite !elem_of_cons; auto 6|clear E]). done.
Qed.

(** C35: an older application's preferences are taken over as they were written. If they are, the
    relay policy of the core is the one the file names, its relays are those the file lists where
    the policy is a custom one and none otherwise, and the name, the folder and the consent to
    notifications are the file's. A readable file of at most a megabyte, whose entries are of the
    right kinds and whose policy has a known name, is taken over; an unknown policy, an unreadable
    file or a larger one is an error: in no case does another policy take the place of the stored
    one. *)
Theorem legacy_preferences_are_kept utf8 from_json io d defaults (l : list (string * Legacy)) v :
  native d = None → legacy d = Some (write_map l) →
  Forall (writable utf8) l → NoDup l.*1 → ("relay_mode"%string, Text v) ∈ l →
  ∃ r, load_preferences utf8 from_json io d defaults = Some r ∧
    (io = all_read → Z.of_nat (length (write_map l)) ≤ 1024 * 1024 → takable l defaults → v ∈ stored_policies.*1 → ∃ p, r = Ok p) ∧
    (v ∉ stored_policies.*1 → r = Err INVALID) ∧
    match r with
    | Err e => e = INVALID
    | Ok p =>
        (v, nc_mode (network_config p)) ∈ stored_policies ∧
        (∀ relays, ("relay_urls"%string, Text (written_relays relays)) ∈ l → Forall relay_line_ok relays →
           nc_relay_urls (network_config p) =
             if str_in v ["StrictCustom"; "CustomWithDirectFallback"]%string then relays else []) ∧
        (∀ name, ("username"%string, Text name) ∈ l → username p = name) ∧
        (∀ folder, ("receive_folder_value"%string, Text folder) ∈ l → receive_directory p = folder) ∧
        (∀ b, ("notifications_enabled"%string, Flag b) ∈ l → notifications p = b)
    end.
Proof.
  intros Hn Hg Hw Hl Hv. unfold load_preferences. rewrite Hn, Hg.
  destruct io as [[] [] readable]; cbn [negb native_checked legacy_checked LinuxPreferences.readable];
    try (eexists; split; [done|]; by split; [unfold all_read; congruence|]).
  unfold read_bounded. destruct (negb readable || _) eqn:Hs; cbv iota.
  { eexists; split; [done|]; split; [|done]. intros [= ->] Hsize. cbn in Hs. by apply Z.ltb_lt in Hs; lia. }
  unfold import_legacy. rewrite read_map_written, inserts_list, (right_id_L ∅ (∪)) by done.
  eexists; split; [done|]; split; [intros _ _ Ht Hknown|].
  { destruct (relay_mode_known v) as [Hm _]. destruct (Hm Hknown) as [mode Hmode]. by eapply apply_takable. }
  pose proof (apply_values_spec (list_to_map l) defaults) as Ha.
  destruct (apply_values _ _) as [p|e]; [|by subst e]. destruct Ha as [Huser Hfolder Hmode Hurls Hnotify _].
  assert (relay_mode_of v = Ok (nc_mode (network p))) as Hm by known_entry Hl.
  apply relay_mode_known in Hm as Hin. split; [intros []; apply list_elem_of_fmap; by exists (v, nc_mode (network p))|].
  split; [done|]. repeat split.
  - intros relays Hin' Hr. assert (nc_relay_urls (network p) = relays) as E.
    { rewrite <- (relay_lines_written relays) by done. known_entry Hl. }
    clear -Hin E. unfold network_config. cbn [nc_mode nc_relay_urls]. rewrite E.
    unfold stored_policies in Hin. rewrite !elem_of_cons, elem_of_nil in Hin.
    by destruct Hin as [[= -> ->]|[[= -> ->]|[[= -> ->]|[[= -> ->]|[]]]]].
  - intros name Hin'. known_entry Hl.
  - intros folder Hin'. known_entry Hl.
  - intros b Hin'. apply (elem_of_list_to_map_1 l) in Hin'; [|done]. rewrite Hin' in Hnotify. naive_solver.
Qed.

(** Saving preferences replaces the file as a whole or leaves it as it was, whichever
    call of the file system fails, and never touches the older application's file. A save that
    succeeds has validated the preferences, and the next [load_preferences] gives them back unless they take
    more than the 1 MiB it reads. A save that fails and has replaced the file all the same is one
    whose last call, the one that makes the directory durable, failed. *)
Theorem saves_are_all_or_nothing utf8 from_json to_json fault removed p d :
  (∀ content, to_json p = Some content → from_json content = Ok p) →
  let '(d', r) := save to_json fault removed p d in
  legacy d' = legacy d ∧
  match r with
  | Err e =>
      e = INVALID ∧ d' = d ∨
      e = "error_filesystem"%string ∧ (native d' = native d ∨ fault = Some SyncDirFails ∧ native d' = to_json p)
  | Ok _ =>
      validate_preferences p = Ok p ∧
      ∃ content, to_json p = Some content ∧ native d' = Some content ∧
        ∀ defaults, load_preferences utf8 from_json all_read d' defaults =
          Some (if 1024 * 1024 <? Z.of_nat (length content) then Err INVALID else Ok p)
  end.
Proof.
  intros Hj. unfold save. destruct (validate_cases p) as [Hv|Hv]; rewrite Hv; [|by auto].
  unfold write_and_rename. destruct fault as [[]|]; cbn; auto;
    destruct (to_json p) as [content|] eqn:Hc; cbn; auto 10.
  split; [done|]. split; [done|]. eexists; split; [done|]; split; [done|]. intros defaults.
  unfold load_preferences, read_bounded. cbn [native native_checked all_read readable negb orb].
  destruct (_ <? _); cbn; [done|]. by rewrite Hj by done; cbn; rewrite Hv.
Qed.

(** ** Witnesses *)

Definition sample_defaults : Preferences := preferences_defaults "/home/me/Downloads" "Laptop".
Definition sample_legacy : list (string * Legacy) :=
  [("username", Text "Me"); ("relay_mode", Text "StrictCustom"); ("relay_urls", Text (written_relays ["https://relay.example"; "https://other.example"]));
   ("notifications_enabled", Flag true)]%string.
Definition sample_profile : Profile :=
  {| native := None; legacy := Some (write_map sample_legacy); temporary := None |}.

(** The strict policy with its relays, read out of the bytes; an unknown policy is refused. *)
Lemma legacy_preferences_are_kept_witness :
  (∃ r, load_preferences (λ _, true) (λ _, Err INVALID) all_read sample_profile sample_defaults = Some r ∧
    (all_read = all_read → Z.of_nat (length (write_map sample_legacy)) ≤ 1024 * 1024 → takable sample_legacy sample_defaults →
     "StrictCustom"%string ∈ stored_policies.*1 → ∃ p, r = Ok p) ∧
    ("StrictCustom"%string ∉ stored_policies.*1 → r = Err INVALID) ∧
    match r with
    | Err e => e = INVALID
    | Ok p =>
        ("StrictCustom"%string, nc_mode (network_config p)) ∈ stored_policies ∧
        (∀ relays, ("relay_urls"%string, Text (written_relays relays)) ∈ sample_legacy → Forall relay_line_ok relays →
           nc_relay_urls (network_config p) =
             if str_in "StrictCustom" ["StrictCustom"; "CustomWithDirectFallback"]%string then relays else []) ∧
        (∀ name, ("username"%string, Text name) ∈ sample_legacy → username p = name) ∧
        (∀ folder, ("receive_folder_value"%string, Text folder) ∈ sample_legacy → receive_directory p = folder) ∧
        (∀ b, ("notifications_enabled"%string, Flag b) ∈ sample_legacy → notifications p = b)
    end) ∧
  takable sample_legacy sample_defaults ∧
  (network_config <$> match load_preferences (λ _, true) (λ _, Err INVALID) all_read sample_profile sample_defaults with
                      | Some (Ok p) => Some p
                      | _ => None
                      end) =
    Some {| nc_mode := StrictCustom; nc_relay_urls := ["https://relay.example"; "https://other.example"]%string |} ∧
  load_preferences (λ _, true) (λ _, Err INVALID) all_read
    {| native := None; legacy := Some (write_map [("relay_mode", Text "Public")]%string); temporary := None |} sample_defaults =
    Some (Err INVALID).
Proof.
  split; [|split; [|split; vm_compute; reflexivity]].
  - apply (legacy_preferences_are_kept (λ _, true) (λ _, Err INVALID) all_read sample_profile sample_defaults sample_legacy).
    + reflexivity.
    + reflexivity.
    + repeat constructor.
    + vm_compute. repeat (apply NoDup_cons; split; [by rewrite ?elem_of_cons, ?elem_of_nil; naive_solver|]). constructor.
    + right. left.
  - split; [..|reflexivity]; unfold sample_legacy.
    + intros key b Hk Hin. rewrite !elem_of_cons, elem_of_nil in Hin. rewrite !elem_of_cons, elem_of_nil in Hk. naive_solver.
    + intros text Hin. rewrite !elem_of_cons, elem_of_nil in Hin. naive_solver.
    + intros text Hin. rewrite !elem_of_cons, elem_of_nil in Hin. naive_solver.
    + intros text. rewrite !elem_of_cons, elem_of_nil.
      intros [[= ->]|[?|[?|[?|[]]]]]; [|discriminate..]. vm_compute. discriminate.
    + intros text Hin. rewrite !elem_of_cons, elem_of_nil in Hin. naive_solver.
    + intros text Hin. rewrite !elem_of_cons, elem_of_nil in Hin. naive_solver.
Defined.

Definition sample_to_json (p : Preferences) : option Bytes := Some (String.list_ascii_of_string (username p)).
Definition sample_from_json (bs : Bytes) : Shown Preferences :=
  let p := sample_defaults in
  Ok {| username := String.string_of_list_ascii bs; receive_directory := receive_directory p; theme := theme p;
        network := network p; notifications := notifications p; diagnostics_install_id := diagnostics_install_id p |}.

Lemma saves_are_all_or_nothing_witness :
  legacy (save sample_to_json None true sample_defaults sample_profile).1 = legacy sample_profile ∧
  load_preferences (λ _, true) sample_from_json all_read (save sample_to_json None true sample_defaults sample_profile).1 sample_defaults =
    Some (Ok sample_defaults).
Proof.
  pose proof (saves_are_all_or_nothing (λ _, true) sample_from_json sample_to_json None true sample_defaults sample_profile) as H.
  destruct H as [Hl H]; [intros content [= <-]; reflexivity|]. split; [exact Hl|]. cbn in H.
  destruct H as (_ & content & [= <-] & _ & H). exact (H sample_defaults).
Defined.
