(* ===== verification/ReconciliationSpec.v ===== *)
(** * What is owed to peers

    Properties of the background task of [TargetedRuntime.v]
    ([runtime/targeted_reconciliation.rs]): a tick never fails, nothing that is owed is dropped
    before the peer has it, and an unreachable peer does not keep the others waiting. *)

From S2P Require Import Prelude Sql ControlPlane Errors States Api Ticket TargetedStore Access Invitation Inbox SecureSecret Relationship Pairing Devices DevicesSpec Core Authorization TargetedModule TargetedModuleSpec Approval TargetedRuntime TargetedRuntimeSpec.

Section Owed.
Context `{Env} `{ForeignText} `{Host} `{Blake3} `{!Base64} `{Codec} `{Urls} `{Addressing} `{!TicketCodec}
  {V : Type} `{SecureSecretStore V} `{!Network V} `{!Neighbours V} `{Remote} `{Blobs}.
Context `{!Base64Laws} `{!CodecLaws}.
Variable authority : TargetedProtocolAuthority.
Implicit Types (k : Core V) (row : TargetedTransferRow).
Hypothesis hex_roundtrip : ∀ b, hexlower_decode (hexlower_encode b) = Some b.

(** While a peer is asked nobody else works on the tables. *)
Hypothesis tables_rest : ∀ n k, k_tables (between n k) = k_tables k.

Definition same_tables k k' : Prop := k_tables k' = k_tables k.
#[local] Instance same_tables_preorder : PreOrder same_tables.
Proof. split; [done|]. intros k1 k2 k3 E1 E2. unfold same_tables in *. congruence. Qed.

(** *** Single calls *)

Lemma wp_domain_rest {A} (m : M (Domain V) VnidropError A) k n (Q : result A VnidropError → Core V → nat → Prop) :
  (∀ r k' n', same_tables k k' → Q r k' n') → wp (in_domain m) k n Q.
Proof. intros HQ. apply wp_in_domain. unfold wp. destruct (m _ n) as [[r d] n']. by apply HQ. Qed.

(** What is rebuilt from a row speaks of the transfer of the row. *)
Lemma wp_load_authorization row k n Q :
  (∀ e k' n', same_tables k k' → Q (Err e) k' n') →
  (∀ k' n', same_tables k k' → Q (Ok None) k' n') →
  (∀ encoded auth k' n', same_tables k k' → decode_authorization encoded = Ok auth →
     au_transfer_id auth = tr_id row → Q (Ok (Some encoded)) k' n') →
  wp (load_authorization (ta_protected authority) row) k n Q.
Proof.
  intros He Hn Hs. unfold load_authorization. destruct (tr_authorization_secret_handle row) as [handle|];
    [|by apply wp_ret, Hn]. destruct (tr_blob_ticket row) as [blob_ticket|]; [|by apply wp_ret, Hn].
  apply wp_bind, wp_require_custody; [by intros; apply He|intros _].
  apply wp_bind, wp_domain_rest. intros [material|e] k' n' Hk; [|by apply He].
  apply wp_bind, wp_of_result. destruct (reconstruct_authorization _ _) as [auth|e] eqn:Ea; [|by apply He].
  apply wp_bind, wp_of_result. destruct (encode_authorization auth) as [encoded|e] eqn:Ee; [|by apply He].
  apply wp_ret, (Hs _ auth); [done| |].
  - apply decode_encode; [done|]. by eapply signed_verifies.
  - by apply sign_Ok in Ea as (mac & _ & ->).
Qed.

(** The sender has said that it recorded the completion of [id]. *)
Definition recorded (id : string) : Prop := ∃ n peer message,
  completion_reply n peer message = RpcReplied Recorded ∧ cp_transfer_id message = id.

Lemma wp_acknowledge auth k n Q :
  (∀ e k' n', same_tables k k' → Q (Err e) k' n') →
  (∀ k' n', same_tables k k' → recorded (au_transfer_id auth) → Q (Ok tt) k' n') →
  wp (acknowledge_targeted_completion auth) k n Q.
Proof.
  intros He Ho. apply wp_bind, wp_domain_rest. intros [addr|e] k1 n1 E1; [|by apply He].
  apply wp_bind, wp_of_result. destruct (encode_authorization auth) as [encoded|e]; [|by apply He].
  apply wp_bind. unfold wp at 1, call. set (message := {| cp_transfer_id := _ |}).
  assert (same_tables k (between n1 k1)) as E2 by (unfold same_tables; by rewrite tables_rest).
  destruct (completion_reply n1 _ message) as [|rendered|[]] eqn:Er; try by apply wp_fail, He.
  apply wp_ret, Ho; [done|]. by exists n1, (au_sender_endpoint_id auth), message.
Qed.

(** *** One report *)

Abbreviation deferred id at_ t := (on_completions (defer id at_) t).
Abbreviation settled id t := (on_completions (delete id) t).

(** The receiver's report is settled, put off for at least five seconds, or left as it is
    because a statement failed. *)
Definition reported row (t t' : Tables) : Prop :=
  t' = settled (tr_id row) t ∧ recorded (tr_id row) ∨
  (∃ n delay, 5000 ≤ delay ∧ t' = deferred (tr_id row) (clock n + delay) t) ∨
  (∃ n, io_fault n ≠ None) ∧ t' = t.

Lemma wp_defer_completion id delay k n Q :
  (∀ k' n' n0, k_tables k' = deferred id (clock n0 + delay) (k_tables k) → Q (Ok tt) k' n') →
  (∀ k' n', (∃ m, io_fault m ≠ None) → same_tables k k' → Q (Ok tt) k' n') →
  wp (defer_targeted_completion_with_log id delay) k n Q.
Proof.
  intros Ho He. apply wp_bind, wp_now_ms, wp_bind, wp_try, wp_in_tables, wp_map_err, wp_stmt.
  - intros m Hm. apply wp_ret, He; [|done]. by exists (S n); rewrite Hm.
  - intros _. by eapply wp_ret, Ho.
Qed.

Lemma wp_settle_completion id k n Q :
  (∀ k' n', k_tables k' = settled id (k_tables k) → Q (Ok tt) k' n') →
  (∀ k' n', (∃ m, io_fault m ≠ None) → same_tables k k' → Q (Ok tt) k' n') →
  wp (logged (in_tables (clear_pending_completion id))) k n Q.
Proof.
  intros Ho He. apply wp_bind, wp_try, wp_in_tables, wp_map_err, wp_stmt.
  - intros m Hm. apply wp_ret, He; [|done]. by exists n; rewrite Hm.
  - intros _. apply wp_ret, Ho. simpl. unfold on_completions. by rewrite delete_where_str.
Qed.

Lemma wp_retry_completion row k n Q :
  (∀ k' n', reported row (k_tables k) (k_tables k') → Q (Ok tt) k' n') →
  wp (retry_completion authority row) k n Q.
Proof.
  intros HQ. assert (∀ delay k1 n1, 5000 ≤ delay → same_tables k k1 →
    wp (defer_targeted_completion_with_log (tr_id row) delay) k1 n1 Q) as Hdefer.
  { intros delay k1 n1 Hd E1. apply wp_defer_completion.
    - intros k' n' n0 E. apply HQ. right; left. exists n0, delay. split; [done|]. by rewrite E, E1.
    - intros k' n' Hf E. apply HQ. right; right. split; [done|]. by rewrite E, E1. }
  apply wp_bind, wp_try, wp_load_authorization; [intros; by apply Hdefer..|].
  intros encoded auth k1 n1 E1 Hdec Hid. rewrite Hdec. apply wp_bind, wp_try, wp_acknowledge.
  - intros e k2 n2 E2. apply Hdefer; [done|]. by etrans.
  - intros k2 n2 E2 Hrec. assert (same_tables k k2) as E by by etrans. apply wp_settle_completion.
    + intros k' n' Hk'. apply HQ. left. split; [by rewrite Hk', E|congruence].
    + intros k' n' Hf E'. apply HQ. right; right. split; [done|]. by rewrite E', E.
Qed.

(** *** One delivery *)

(** The receiver has said that it stored the authorization of [id]. *)
Definition stored_by_receiver (id : string) : Prop := ∃ n peer message,
  delivery_reply n peer message = RpcReplied Stored ∧ da_transfer_id message = id.

Lemma wp_deliver row k n Q :
  (∀ e k' n', same_tables k k' → Q (Err e) k' n') →
  (∀ b k' n', same_tables k k' → (b = true → stored_by_receiver (tr_id row)) → Q (Ok b) k' n') →
  wp (deliver_stored_targeted_authorization authority row) k n Q.
Proof.
  intros He Ho. apply wp_bind, wp_load_authorization; [by intros; apply He|intros; by apply wp_fail, He|].
  intros encoded auth k1 n1 E1 _ _. apply wp_bind, wp_domain_rest. intros [addr|e] k2 n2 E2;
    [|apply He; by etrans].
  assert (same_tables k (between n2 k2)) as E3.
  { etrans; [exact E1|]. etrans; [exact E2|]. by unfold same_tables; rewrite tables_rest. }
  apply wp_bind. unfold wp at 1, call. set (message := {| da_transfer_id := _ |}).
  destruct (delivery_reply n2 _ message) as [|rendered|[]] eqn:Er; try by apply wp_fail, He.
  - apply wp_ret, Ho; [done|]. intros _. by exists n2, (tr_receiver_endpoint_id row), message.
  - by apply wp_ret, Ho.
Qed.

(** *** A tick *)

(** What is still owed: an obligation stays, as old as it was, or the peer has it. *)
Record still_owed (t t' : Tables) : Prop := {
  so_completions id o : completion_outbox t !! id = Some o →
    (∃ o', completion_outbox t' !! id = Some o' ∧ o_created_at o' = o_created_at o) ∨ recorded id;
  so_deliveries id o : authorization_delivery_outbox t !! id = Some o →
    (∃ o', authorization_delivery_outbox t' !! id = Some o' ∧ o_created_at o' = o_created_at o) ∨
    stored_by_receiver id;
  so_transfers : targeted_transfers t' = targeted_transfers t
}.

#[local] Instance still_owed_preorder : PreOrder still_owed.
Proof.
  split; [by split; eauto|]. intros t1 t2 t3 [A1 A2 A3] [B1 B2 B3]. split; [..|congruence].
  - intros id o Ho. destruct (A1 id o Ho) as [(o' & Ho' & E)|]; [|by right].
    destruct (B1 id o' Ho') as [(o'' & Ho'' & E')|]; [left|by right]. exists o''. split; [done|congruence].
  - intros id o Ho. destruct (A2 id o Ho) as [(o' & Ho' & E)|]; [|by right].
    destruct (B2 id o' Ho') as [(o'' & Ho'' & E')|]; [left|by right]. exists o''. split; [done|congruence].
Qed.

Lemma lookup_defer id at_ (m : gmap string OutboxColumns) id' o :
  m !! id' = Some o → ∃ o', defer id at_ m !! id' = Some o' ∧ o_created_at o' = o_created_at o.
Proof.
  intros Ho. unfold defer. rewrite lookup_update_where, Ho. simpl. eexists. split; [done|].
  by destruct (str_eqb id' id).
Qed.

Lemma reported_owed row t t' : reported row t t' → still_owed t t'.
Proof.
  intros [[-> Hrec]|[(n & d & _ & ->)|[_ ->]]]; [| |done]; split; simpl; eauto.
  - intros id o Ho. destruct (decide (id = tr_id row)) as [->|Hne]; [by right|].
    left. exists o. by rewrite lookup_delete_ne.
  - intros id o Ho. left. by apply lookup_defer.
Qed.

Definition tick_keeps (m : M (Core V) VnidropError unit) : Prop :=
  ∀ k n, wp m k n (λ r k' _, r = Ok tt ∧ still_owed (k_tables k) (k_tables k')).

Lemma tick_keeps_logged {A} (m : M Tables VnidropError A) :
  (∀ t n, wp m t n (λ _ t' _, still_owed t t')) → tick_keeps (logged (in_tables m)).
Proof.
  intros Hm k n. apply wp_bind, wp_try, wp_in_tables. eapply wp_mono; [apply Hm|].
  intros r t' n' Ht. by apply wp_ret.
Qed.

Lemma tick_keeps_bind m f :
  tick_keeps m → (∀ u, tick_keeps (f u)) → tick_keeps (m ≫= f).
Proof.
  intros Hm Hf k n. apply wp_bind. eapply wp_mono; [apply Hm|]. intros r k1 n1 [-> E1].
  eapply wp_mono; [apply Hf|]. intros r k2 n2 [-> E2]. split; [done|by etrans].
Qed.

Lemma tick_keeps_each {A} (l : list A) work :
  (∀ x, tick_keeps (work x)) → tick_keeps (for_each l work).
Proof.
  intros Hw. induction l as [|x l IH]; simpl; [by intros k n; apply wp_ret|]. by apply tick_keeps_bind.
Qed.

Lemma tick_keeps_listed {A} (listing : M Tables VnidropError A) (work : A → M (Core V) VnidropError unit) :
  within eq listing → (∀ x, tick_keeps (work x)) →
  tick_keeps (listed ← try (E:=VnidropError) (in_tables listing);
              match listed with Ok x => work x | Err _ => ret tt end).
Proof.
  intros Hl Hw k n. apply wp_bind, wp_try, wp_in_tables. eapply wp_mono; [apply Hl|].
  intros [x|e] t n' <-; rewrite set_tables_id; [apply Hw|by apply wp_ret].
Qed.

Lemma tick_keeps_delivery row : tick_keeps (retry_delivery authority row).
Proof.
  intros k n. assert (∀ k1 n1, same_tables k k1 → wp (now ← now_ms;
    logged (in_tables (defer_pending_authorization_delivery (tr_id row) (now + 5000)))) k1 n1
      (λ r k' _, r = Ok tt ∧ still_owed (k_tables k) (k_tables k'))) as Hdefer.
  { intros k1 n1 E1. apply wp_bind, wp_now_ms. rewrite <- E1. apply tick_keeps_logged.
    intros t n2. apply wp_sql; [done|]. intros _ [] t' [= <-]. split; simpl; eauto using lookup_defer. }
  apply wp_bind, wp_try, wp_deliver; [intros; by apply Hdefer|].
  intros [] k1 n1 E1 Hstored; [|by apply Hdefer]. rewrite <- E1. apply tick_keeps_logged.
  intros t n2. apply wp_sql; [done|]. intros _ [] t' [= <-]. split; simpl; eauto. 
  intros id o Ho. rewrite delete_where_str. destruct (decide (id = tr_id row)) as [->|Hne]; [right; auto|].
  left. exists o. by rewrite lookup_delete_ne.
Qed.

Lemma tick_keeps_release row : tick_keeps (release_payload row).
Proof.
  intros k n. unfold release_payload, try_teardown_targeted_payload. apply wp_bind, wp_try.
  apply wp_bind, wp_modify, wp_bind, wp_in_access, wp_bind, wp_modify, wp_modify. cbn beta iota.
  unfold wp at 1, delete_tag. destruct (tag_fault _); [by apply wp_ret|].
  match goal with |- wp _ ?k1 _ _ => change (k_tables k) with (k_tables k1) end.
  apply tick_keeps_logged. intros t n2. apply wp_sql; [done|]. intros _ [] t' [= <-]. split; simpl; eauto.
Qed.

Ltac listing_reads := repeat first [ apply within_eq_query | within_step ].

(** What is owed to a peer stays owed until the peer has it. A tick of the background
    task always ends normally, whatever the database, custody, the blob store and the peers do;
    afterwards a completion is still queued, with its age, unless the sender answered that it
    recorded it; an authorization is still queued unless the receiver answered that it stored
    it; and no transfer has changed. (The tables rest while a peer is asked.) *)
Theorem tick_keeps_what_is_owed k n :
  wp (reconciliation_tick authority) k n (λ r k' _, r = Ok tt ∧ still_owed (k_tables k) (k_tables k')).
Proof.
  revert k n. unfold reconciliation_tick, release_completed_targeted_payloads,
    retry_targeted_authorization_deliveries, retry_targeted_completions, first_listed.
  apply tick_keeps_bind; [|intros _; apply tick_keeps_bind; [|intros _]]; apply tick_keeps_listed;
    try (intros rows; apply tick_keeps_each).
  - unfold list_completed_sender_rows. listing_reads.
  - apply tick_keeps_release.
  - unfold list_pending_authorization_deliveries. listing_reads.
  - apply tick_keeps_delivery.
  - unfold list_pending_completions. listing_reads.
  - intros row k n. apply wp_retry_completion. intros k' n' Hr%reported_owed. done.
Qed.

(** ** No report waits for ever

    One report is tried per tick, the one that is due for the longest time; a report that fails
    is put off, so that it does not stand in the way of the others. *)

#[local] Instance due_first_total : Total due_first.
Proof. intros x y. unfold due_first. lia. Qed.
#[local] Instance due_first_trans : Transitive due_first.
Proof. intros x y z. unfold due_first. lia. Qed.

(** The reports that are due at [now]. *)
Definition due_reports (now : Z) (t : Tables) : gset string :=
  list_to_set (due_rows "receiver" "completed" now completion_outbox t).*1.

Definition due_report (now : Z) (id : string) (t : Tables) : Prop :=
  ∃ r o, targeted_transfers t !! id = Some r ∧ completion_outbox t !! id = Some o ∧
    c_role r = "receiver"%string ∧ c_state r = "completed"%string ∧ o_next_attempt_at o ≤ now.

Lemma elem_of_join {O} (t : gmap string TransferColumns) (outbox : gmap string O) id r o :
  (id, r, o) ∈ join_outbox t outbox ↔ t !! id = Some r ∧ outbox !! id = Some o.
Proof.
  unfold join_outbox. rewrite list_elem_of_bind. split.
  - intros ([id' [r' o']] & Heq & Hin).
    apply list_elem_of_singleton in Heq. simplify_eq/=.
    apply elem_of_map_to_list, map_lookup_zip_Some in Hin. done.
  - intros Hro. exists (id, (r, o)). split; [by apply list_elem_of_singleton|].
    by apply elem_of_map_to_list, map_lookup_zip_Some.
Qed.

Lemma due_reports_elem now id t : id ∈ due_reports now t ↔ due_report now id t.
Proof.
  unfold due_reports, due_rows, due_report. rewrite elem_of_list_to_set, list_elem_of_fmap. split.
  - intros ([id' r] & -> & Hin). apply list_elem_of_fmap in Hin as ([[id'' r'] o] & [= <- <-] & Hin).
    apply elem_of_order_by, list_elem_of_filter in Hin as [Hp Hin]. apply elem_of_join in Hin as [Hr Ho].
    simpl in *. bool_simpl. by exists r, o.
  - intros (r & o & Hr & Ho & Hrole & Hst & Hd). exists (id, r). split; [done|].
    apply list_elem_of_fmap. exists (id, r, o). split; [done|]. apply elem_of_order_by, list_elem_of_filter.
    split; [|by apply elem_of_join]. simpl. rewrite Hrole, Hst, !str_eqb_refl. by apply Z.leb_le.
Qed.

(** The report a tick tries has been due for at least as long as any other. *)
Lemma due_rows_head now past t id0 r0 l :
  due_rows "receiver" "completed" now completion_outbox t = (id0, r0) :: l →
  past ≤ now → due_reports past t ≠ ∅ → id0 ∈ due_reports past t.
Proof.
  unfold due_rows. set (queue := order_by due_first _). intros E Hpast Hne.
  assert (StronglySorted due_first queue) as Hs by (apply StronglySorted_merge_sort; apply _).
  assert (∀ id r o, (id, r, o) ∈ queue ↔
    due_report now id t ∧ targeted_transfers t !! id = Some r ∧ completion_outbox t !! id = Some o) as Hq.
  { intros id r o. unfold queue, due_report. rewrite elem_of_order_by, list_elem_of_filter, elem_of_join. simpl.
    rewrite !andb_true_iff, !str_eqb_eq, Z.leb_le. naive_solver. }
  destruct queue as [|[[id r] o0] queue]; [done|]. simpl in E. injection E as -> -> _.
  apply StronglySorted_inv in Hs as [_ Hs]. rewrite Forall_forall in Hs.
  destruct (Hq id0 r0 o0) as [[Hdue [Hr0 Ho0]] _]; [by left|].
  apply set_choose_L in Hne as [id (r & o & Hr & Ho & Hrole & Hst & Hd)%due_reports_elem].
  apply due_reports_elem. destruct Hdue as (r1 & o1 & Hr1 & Ho1 & ? & ? & ?).
  assert (r1 = r0) as -> by congruence. exists r0, o0. split_and!; try done.
  assert ((id, r, o) ∈ (id0, r0, o0) :: queue) as [Heq|Hin]%elem_of_cons.
  { apply Hq. split_and!; [|done|done]. exists r, o. split_and!; try done. lia. }
  - by simplify_eq.
  - specialize (Hs _ Hin). unfold due_first in Hs. simpl in Hs. lia.
Qed.

Hypothesis no_faults : ∀ n, io_fault n = None.

Lemma row_to_full_typed id r : row_typed r → is_ok (row_to_full (id, r)) = true.
Proof.
  intros ([st Hst] & [ro Hro] & _). simpl. by rewrite Hro, Hst, role_roundtrip, targeted_state_roundtrip.
Qed.

Lemma due_reports_mono past now t : past ≤ now → due_reports past t ⊆ due_reports now t.
Proof.
  intros Hle id (r & o & Hr & Ho & Hrole & Hst & Hd)%due_reports_elem. apply due_reports_elem.
  exists r, o. split_and!; try done. lia.
Qed.

Lemma due_rows_full now k :
  tables_ok (k_tables k) → Forall (λ kr, is_ok (row_to_full kr) = true)
    (due_rows "receiver" "completed" now completion_outbox (k_tables k)).
Proof.
  intros Hok. apply Forall_forall. intros [id r] Hin. apply row_to_full_typed. unfold due_rows in Hin.
  apply list_elem_of_fmap in Hin as ([[id' r'] o] & [= <- <-] & Hin).
  apply elem_of_order_by, list_elem_of_filter in Hin as [_ Hin]. apply elem_of_join in Hin as [Hr _].
  by eapply ok_typed.
Qed.

(** One tick tries the report that is due for the longest time. *)
Lemma wp_retry_completions past k n Q :
  tables_ok (k_tables k) → past ≤ clock n →
  (∀ k' n', due_reports past (k_tables k) = ∅ → k_tables k' = k_tables k → Q (Ok tt) k' n') →
  (∀ row k' n', (due_reports past (k_tables k) ≠ ∅ → tr_id row ∈ due_reports past (k_tables k)) →
     reported row (k_tables k) (k_tables k') → Q (Ok tt) k' n') →
  wp (retry_targeted_completions authority) k n Q.
Proof.
  intros Hok Hpast Hnone Hone. unfold retry_targeted_completions, first_listed, list_pending_completions.
  apply wp_bind, wp_try, wp_in_tables, wp_bind, wp_now_ms, wp_bind, wp_map_err, wp_stmt;
    [intros m; by rewrite no_faults|intros _].
  apply wp_of_result. simpl. rewrite set_tables_id.
  pose proof (due_rows_full (clock n) k Hok) as Hfull%collect_results_total.
  destruct (collect_results _ _) as [rows|e] eqn:Er; [|done]. apply collect_results_Ok in Er.
  destruct (due_rows "receiver" _ _ _ _) as [|[id r] queue] eqn:Eq.
  - apply Forall2_nil_inv_l in Er as ->. simpl. apply wp_ret, Hnone; [|done].
    apply (anti_symm (⊆)); [|set_solver]. etrans; [by apply due_reports_mono|]. unfold due_reports.
    rewrite Eq. set_solver.
  - apply Forall2_cons_inv_l in Er as (row & rows' & Hrow & _ & ->). simpl.
    apply wp_bind, wp_retry_completion. intros k' n' Hr. apply wp_ret, (Hone row); [|done].
    apply row_to_full_fields in Hrow as [-> _]. by eapply due_rows_head.
Qed.

(** The clock does not run before [past]. *)
Variable past : Z.
Hypothesis clock_runs : ∀ n, past ≤ clock n.

Lemma reported_no_longer_due row t t' :
  reported row t t' → due_reports past t' = due_reports past t ∖ {[tr_id row]}.
Proof.
  intros Hr. apply set_eq. intros id. rewrite elem_of_difference, elem_of_singleton, !due_reports_elem.
  unfold due_report. destruct Hr as [[-> _]|[(n & d & Hd & ->)|[[n []] _]]]; [..|apply no_faults]; simpl.
  - destruct (decide (id = tr_id row)) as [->|Hne].
    + rewrite lookup_delete_eq. naive_solver.
    + rewrite lookup_delete_ne by done. naive_solver.
  - unfold defer. rewrite lookup_update_where. specialize (clock_runs n).
    destruct (decide (id = tr_id row)) as [->|Hne].
    + rewrite str_eqb_refl. split; [|by intros [_ []]]. intros (r & o & _ & Ho & _ & _ & Hle).
      apply fmap_Some in Ho as (o1 & _ & ->). simpl in Hle. lia.
    + assert (str_eqb id (tr_id row) = false) as -> by (by apply not_true_iff_false; rewrite str_eqb_eq).
      destruct (completion_outbox t !! id); naive_solver.
Qed.

Lemma reported_sheds row t t' : reported row t t' → sheds t t'.
Proof.
  intros [[-> _]|[(n & d & _ & ->)|[_ ->]]]; split_and!; simpl; try done; intros id.
  - by intros [o [_ Ho]%lookup_delete_Some].
  - unfold defer. rewrite lookup_update_where. by destruct (completion_outbox t !! id); [|intros []].
Qed.

(** *** Every report is tried *)

(** To report a completion: what is rebuilt from the row goes to the sender, who answers that it
    recorded it. *)
Definition attempt row : M (Core V) VnidropError unit :=
  loaded ← load_authorization (ta_protected authority) row;
  match loaded with
  | Some encoded => auth ← of_result (decode_authorization encoded); acknowledge_targeted_completion auth
  | None => fail (Internal "no capability")
  end.

(** The tick at [k] tries the report of [id]: if the attempt succeeds nothing is owed any more,
    and otherwise the report is put off. *)
Definition tried (id : string) k n : Prop :=
  ∃ row rows k1 m, in_tables list_pending_completions k n = (Ok (row :: rows), k1, m) ∧ tr_id row = id ∧
    let k' := (retry_targeted_completions authority k n).1.2 in
    match attempt row k1 m with
    | (Ok _, _, _) => recorded id ∧ completion_outbox (k_tables k') !! id = None
    | (Err _, _, _) => ∃ o now, completion_outbox (k_tables k') !! id = Some o ∧
        clock now + 5000 ≤ o_next_attempt_at o
    end.

Lemma attempt_decides row k n :
  is_Some (completion_outbox (k_tables k) !! tr_id row) →
  let k' := (retry_completion authority row k n).1.2 in
  match attempt row k n with
  | (Ok _, _, _) => recorded (tr_id row) ∧ completion_outbox (k_tables k') !! tr_id row = None
  | (Err _, _, _) => ∃ o now, completion_outbox (k_tables k') !! tr_id row = Some o ∧
      clock now + 5000 ≤ o_next_attempt_at o
  end.
Proof.
  intros [o Ho]. cbv zeta.
  assert (∀ delay k1 n1, 5000 ≤ delay → same_tables k k1 →
    ∃ o' now, completion_outbox (k_tables (defer_targeted_completion_with_log (tr_id row) delay k1 n1).1.2)
      !! tr_id row = Some o' ∧ clock now + 5000 ≤ o_next_attempt_at o') as Hdefer.
  { intros delay k1 n1 Hd E1. apply (wp_final (defer_targeted_completion_with_log (tr_id row) delay) k1 n1 (λ k',
      ∃ o' now, completion_outbox (k_tables k') !! tr_id row = Some o' ∧ clock now + 5000 ≤ o_next_attempt_at o')).
    apply wp_defer_completion; [|by intros k' n' [m Hm]; rewrite no_faults in Hm].
    intros k' n' n0 E. rewrite E, E1. unfold defer. simpl. rewrite lookup_update_where, Ho. simpl.
    rewrite str_eqb_refl. eexists _, n0. split; [done|]. simpl. lia. }
  unfold attempt, retry_completion, mbind, M_bind, try.
  pose proof (wp_load_authorization row k n (λ r k1 _, same_tables k k1 ∧ ∀ encoded auth, r = Ok (Some encoded) →
    decode_authorization encoded = Ok auth → au_transfer_id auth = tr_id row)) as Hload. unfold wp in Hload.
  destruct (load_authorization (ta_protected authority) row k n) as [[[[encoded|]|e] k1] n1];
    (destruct Hload as [E1 Hauth]; [by intros|by intros|
      intros ? auth' ? ? ? Hdec Hid; split; [done|]; intros ? ? [= <-] Hdec'; congruence|]); try by apply Hdefer.
  unfold of_result. destruct (decode_authorization encoded) as [auth|e] eqn:Edec; [|by apply Hdefer].
  pose proof (wp_acknowledge auth k1 n1 (λ r k2 _, same_tables k1 k2 ∧ (r = Ok tt → recorded (au_transfer_id auth)))) as Hack.
  unfold wp in Hack. destruct (acknowledge_targeted_completion auth k1 n1) as [[[[]|e] k2] n2];
    (destruct Hack as [E2 Hrec]; [by intros|by intros|]); [|apply Hdefer; [done|by etrans]].
  rewrite <- (Hauth encoded auth) by done. split; [by apply Hrec|]. rewrite (Hauth encoded auth) by done.
  apply (wp_final (logged (in_tables (clear_pending_completion (tr_id row)))) k2 n2 (λ k',
    completion_outbox (k_tables k') !! tr_id row = None)).
  apply wp_settle_completion; [|by intros k' n' [m Hm]; rewrite no_faults in Hm].
  intros k' n' E. rewrite E. simpl. apply lookup_delete_eq.
Qed.

(** While reports are due the tick tries one of them. *)
Lemma tick_tries k n :
  tables_ok (k_tables k) → due_reports past (k_tables k) ≠ ∅ →
  ∃ id k' n', retry_targeted_completions authority k n = (Ok tt, k', n') ∧ tables_ok (k_tables k') ∧
    id ∈ due_reports past (k_tables k) ∧ tried id k n ∧
    due_reports past (k_tables k') = due_reports past (k_tables k) ∖ {[id]}.
Proof.
  intros Hok Hdue.
  assert (∃ rows, in_tables list_pending_completions k n = (Ok rows, k, S (S n)) ∧
    collect_results row_to_full (due_rows "receiver" "completed" (clock n) completion_outbox (k_tables k)) = Ok rows)
    as (rows & Hlist & Hrows).
  { pose proof (due_rows_full (clock n) k Hok) as Hfull%collect_results_total.
    destruct (collect_results row_to_full (due_rows _ _ _ _ _)) as [rows|e] eqn:Er; [|done]. exists rows. split; [|done].
    unfold in_tables, zoom, list_pending_completions, mbind, M_bind, now_ms, query, sql, map_err, stmt, of_result.
    rewrite no_faults. simpl. rewrite Er. by rewrite set_tables_id. }
  apply collect_results_Ok in Hrows.
  destruct (due_rows "receiver" _ _ _ _) as [|[id r] queue] eqn:Eq.
  { exfalso. apply Hdue, (anti_symm (⊆)); [|set_solver]. etrans; [by apply (due_reports_mono past (clock n))|].
    unfold due_reports. rewrite Eq. set_solver. }
  apply Forall2_cons_inv_l in Hrows as (row & rows' & Hrow & _ & ->).
  assert (tr_id row = id) as Hid by (by apply row_to_full_fields in Hrow as [-> _]).
  assert (id ∈ due_reports past (k_tables k)) as Hin by by eapply due_rows_head.
  destruct (retry_completion authority row k (S (S n))) as [[r0 k'] n'] eqn:Erun.
  pose proof (wp_retry_completion row k (S (S n)) (λ r k' _, r = Ok tt ∧ reported row (k_tables k) (k_tables k'))) as Hr.
  unfold wp in Hr. rewrite Erun in Hr. destruct Hr as [-> Hr]; [by intros|].
  assert (retry_targeted_completions authority k n = (Ok tt, k', n')) as Htick.
  { unfold retry_targeted_completions, first_listed, mbind, M_bind, try. rewrite Hlist. simpl.
    unfold mbind, M_bind. by rewrite Erun. }
  exists id, k', n'. split_and!; [done|by eapply sheds_keeps, Hok; eapply reported_sheds|done| |].
  - exists row, rows', k, (S (S n)). split_and!; [done|done|]. rewrite Htick. cbv zeta.
    pose proof (attempt_decides row k (S (S n))) as Hd. cbv zeta in Hd. rewrite Erun, Hid in Hd. apply Hd.
    apply due_reports_elem in Hin as (? & o & _ & Ho & _). by exists o.
  - rewrite (reported_no_longer_due row (k_tables k)) by done. by rewrite Hid.
Qed.

Lemma each_is_tried ticks k n id :
  tables_ok (k_tables k) → (size (due_reports past (k_tables k)) ≤ ticks)%nat → id ∈ due_reports past (k_tables k) →
  ∃ i ki ni, (i < ticks)%nat ∧ for_each (replicate i tt) (λ _, retry_targeted_completions authority) k n = (Ok tt, ki, ni) ∧
    tried id ki ni.
Proof.
  revert k n. induction ticks as [|ticks IH]; intros k n Hok Hsize Hid.
  { apply Nat.le_0_r, size_empty_inv in Hsize. set_solver. }
  destruct (tick_tries k n) as (id0 & k' & n' & Hrun & Hok' & Hin & Htried & Hdue); [done|set_solver|].
  destruct (decide (id = id0)) as [->|Hne]; [exists 0%nat, k, n; split_and!; [lia|done|done]|].
  destruct (IH k' n') as (i & ki & ni & Hi & Hruns & Ht); [done| |rewrite Hdue; set_solver|].
  { rewrite Hdue, size_difference, size_singleton by set_solver. lia. }
  exists (S i), ki, ni. split_and!; [lia| |done]. simpl. unfold mbind, M_bind. by rewrite Hrun.
Qed.

End Owed.

(** ** Witnesses *)

Section Witnesses.
#[local] Existing Instances device_env device_text device_host device_blake3 device_network.
#[local] Existing Instances demo_base64 demo_base64_laws demo_urls demo_addressing demo_ticket_codec auth_codec
  auth_codec_laws alone silent_peers full_store.

(** Two completed receives whose senders cannot be reached. *)
Definition demo_owed : OutboxColumns := {| o_created_at := 5; o_next_attempt_at := 5 |}.
Definition demo_other : TransferColumns := {|
  c_protocol_transfer_id := 7; c_sender_endpoint_id := "carol"; c_receiver_endpoint_id := "bob";
  c_manifest_id := "hash"; c_content_hash := "hash"; c_transfer_name := "notes"; c_file_count := 1; c_total_size := 9;
  c_verified_bytes := 9; c_blob_ticket := Some "ticket"%string; c_authorization_secret_handle := Some "g"%string;
  c_role := "receiver"; c_state := "completed"; c_created_at := 2; c_updated_at := 2 |}.
Definition demo_backlog : Core FaultInjectingSecretStore :=
  with_domain (demo_end "alice" demo_relationship) inbox_new
    (on_completions (λ _, <["t1"%string := demo_owed]> {[ "t2"%string := demo_owed ]})
       (on_transfers (λ _, <["t1"%string := demo_completed]> {[ "t2"%string := demo_other ]}) empty_tables)).

Lemma demo_backlog_ok : tables_ok (k_tables demo_backlog).
Proof.
  split; cbn.
  - intros id r [[_ <-]|[_ [_ <-]%lookup_singleton_Some]]%lookup_insert_Some;
      (split; [by exists States.Completed|]; split; [by exists Receiver|];
       repeat match goal with |- _ ∧ _ => split end; split; vm_compute; discriminate).
  - intros id id' r r' [[<- <-]|[_ [<- <-]%lookup_singleton_Some]]%lookup_insert_Some
      [[<- <-]|[_ [<- <-]%lookup_singleton_Some]]%lookup_insert_Some; try done; vm_compute; discriminate.
  - intros id [o Ho]. discriminate Ho.
  - intros id [o [[<- _]|[_ [<- _]%lookup_singleton_Some]]%lookup_insert_Some].
    + exists demo_completed. split; [done|]. split; [done|]. exists States.Completed. split; [done|]. by left.
    + exists demo_other. split; [done|]. split; [done|]. exists States.Completed. split; [done|]. by left.
  - intros id [o Ho]. discriminate Ho.
Qed.

Lemma demo_roundtrip : ∀ b, hexlower_decode (hexlower_encode b) = Some b.
Proof. done. Qed.
Lemma demo_rest : ∀ n (k : Core FaultInjectingSecretStore), k_tables (between n k) = k_tables k.
Proof. done. Qed.

Lemma tick_keeps_what_is_owed_witness :
  completion_outbox (k_tables demo_backlog) !! "t1"%string = Some demo_owed ∧
  still_owed (k_tables demo_backlog)
    (k_tables (Sql.run (reconciliation_tick (demo_authority "bob")) demo_backlog).2).
Proof.
  split; [reflexivity|].
  exact (proj2 (run_wp _ _ (λ r k', r = Ok tt ∧ still_owed (k_tables demo_backlog) (k_tables k'))
    (tick_keeps_what_is_owed (demo_authority "bob") demo_roundtrip demo_rest demo_backlog 0))).
Defined.

End Witnesses.
