(* ===== verification/TargetedReceiveSpec.v ===== *)
(** * Answers and receives

    Properties of the receiving side of [TargetedRuntime.v] ([runtime/targeted.rs],
    [runtime/targeted_receive.rs]): what an approved answer guarantees, one receive of a
    transfer at a time, and what a receive leaves behind. *)

From S2P Require Import Prelude Sql ControlPlane Errors States Api Ticket TargetedStore Access Invitation Inbox SecureSecret Relationship Pairing Devices DevicesSpec Core Authorization TargetedModule TargetedModuleSpec Approval TargetedRuntime TargetedRuntimeSpec ReconciliationSpec.

(** ** Received transfers *)

(** The payload of the transfer has arrived. *)
Definition arrived (id : string) (t : Tables) : Prop :=
  ∃ c, targeted_transfers t !! id = Some c ∧ c_role c = "receiver"%string ∧
    (c_state c = "completed"%string ∨ c_state c = "deleted"%string).

Lemma store_step_arrived `{ForeignText} id t t' : store_step t t' → arrived id t → arrived id t'.
Proof.
  intros (env & op & n & ->) (c & Hc & Hrole & Hst).
  apply (wp_final (exec op) t n (arrived id)).
  assert ((∃ id', op = OpAbandon id') ∨ ∀ id', op ≠ OpAbandon id') as [[id' ->]|Hop] by (destruct op; eauto).
  - apply wp_bind, wp_bind, wp_sql; [by exists c|]. intros _ a t' [= _ <-]. do 2 apply wp_ret. exists c.
    split; [|done]. apply lookup_delete_where. split; [done|]. by rewrite Hrole, andb_comm, andb_assoc, andb_comm.
  - eapply wp_mono; [by apply exec_evolves|].
    intros res t' n' Hlift. cbn beta in Hlift. destruct (Hlift id c Hc) as (c' & Hc' & Him & Hev). exists c'. split; [done|].
    split; [unfold immutable_columns in Him; congruence|].
    assert (∃ s, c_state c = targeted_as_str s ∧ terminal s = true ∧ (s = States.Completed ∨ s = Deleted)) as (s & Es & Ht & Hs).
    { destruct Hst as [E|E]; [exists States.Completed|exists Deleted]; auto. }
    destruct (Hev s Es) as (s' & Es' & Hr). rewrite Es'.
    destruct (terminal_reaches _ _ Ht Hr) as [->| ->]; [|by right]. destruct Hs as [->| ->]; auto.
Qed.

Section Receive.
Context `{Env} `{ForeignText} `{Host} `{Blake3} `{!Base64} `{Codec} `{Urls} `{Addressing} `{!TicketCodec}
  {V : Type} `{SecureSecretStore V} `{!Network V} `{!Neighbours V} `{Remote} `{Blobs}.
Variable authority : TargetedProtocolAuthority.
Implicit Types (k : Core V) (auth : TargetedAuthorization).

(** Meanwhile the tables move by operations of the store. *)
Hypothesis between_runs : ∀ n k, store_run k (between n k).

Lemma store_run_arrived id k k' : store_run k k' → arrived id (k_tables k) → arrived id (k_tables k').
Proof. unfold store_run. induction 1; eauto using store_step_arrived. Qed.

Lemma wp_complete_receiver id bytes k n Q :
  (∀ e n', Q (Err e) k n') →
  (∀ k' n', arrived id (k_tables k') → Q (Ok tt) k' n') →
  wp (complete_receiver id bytes) k n Q.
Proof.
  intros He Ho. apply wp_in_tables, wp_sql_tx; [intros; rewrite set_tables_id; apply He|].
  apply wp_bind, wp_now_ms, wp_bind.
  apply (wp_update_key id); [by unfold receiver_transferring; intros; bool_simpl | done | done |].
  intros r Hr HP. simpl. apply wp_bind, wp_now_ms, wp_sql; [done|]. intros _ [] t' Ht.
  apply references_transfer_transfers in Ht as [-> _]. apply Ho. eexists. split; [apply lookup_insert_eq|].
  unfold receiver_transferring in HP. bool_simpl. split; [done|by left].
Qed.

Lemma wp_finish_receive auth k n Q :
  (∀ e k' n', Q (Err e) k' n') →
  (∀ k' n', arrived (au_transfer_id auth) (k_tables k') → Q (Ok tt) k' n') →
  wp (finish_receive auth) k n Q.
Proof.
  intros He Ho. apply wp_bind, wp_get_row; [intros; apply He|intros; by apply wp_fail|].
  intros c row n1 _ _. apply wp_bind, wp_complete_receiver; [done|]. intros k1 n2 Ha.
  apply wp_bind, wp_try. eapply wp_mono; [apply (runs_acknowledge between_runs)|].
  intros r k2 n3 Hr%(store_run_arrived (au_transfer_id auth)); [|done]. unfold when.
  destruct (is_ok r); [|by apply wp_ret, Ho].
  eapply wp_mono; [apply (runs_exec (OpClearCompletion (au_transfer_id auth)))|].
  intros [[]|e] k3 n4 Hr3; [|apply He]. by apply Ho, (store_run_arrived _ k2).
Qed.


Lemma registered_receive_arrives auth k n :
  wp (run_registered_targeted_receive auth) k n (λ r k' _,
    r = Ok tt → arrived (au_transfer_id auth) (k_tables k')).
Proof.
  assert (∀ k2 n2, wp (of_result (result_map_err ticket (blob_ticket_from_str (au_blob_ticket auth)));;
    received ← receive_payload;
    match received with
    | Ok _ => finish_receive auth
    | Err error => abandon_receive (au_transfer_id auth);; fail (Errors.transfer error)
    end) k2 n2 (λ r k' _, r = Ok tt → arrived (au_transfer_id auth) (k_tables k'))) as Hrest.
  { intros k2 n2. apply wp_bind, wp_of_result. destruct (result_map_err _ _); [|done].
    apply wp_bind. unfold wp at 1, receive_payload. destruct (fetch_fault _); [|by apply wp_finish_receive].
    apply wp_bind. apply wp_any. intros [[]|e'] k3 n3; [by apply wp_fail|done]. }
  apply wp_bind, wp_get_row; [done|by intros; apply wp_bind, wp_ret|].
  intros c row n1 _ _. apply wp_bind. apply wp_any. intros [[]|e] k2 n2; [apply Hrest|done].
Qed.

(** One receive of a transfer at a time, and it is over when it returns. A receive
    of a transfer that is being received is refused and changes nothing; any other is no longer
    registered when it returns, however it ends, and when it succeeds the transfer is durably
    completed (or deleted since), whatever other handlers did meanwhile. *)
Theorem receive_is_exclusive auth k n :
  wp (run_targeted_receive auth) k n (λ r k' _,
    (au_transfer_id auth ∈ k_active k → r = Err already_active ∧ k' = k) ∧
    (au_transfer_id auth ∉ k_active k → (au_transfer_id auth ∉ k_active k') ∧
       (r = Ok tt → arrived (au_transfer_id auth) (k_tables k')))).
Proof.
  apply wp_bind, wp_get. destruct (bool_decide _) eqn:Ha; bool_simpl; [by apply wp_fail|].
  apply wp_bind, wp_modify, wp_bind, wp_try. cbn beta iota.
  eapply wp_mono; [apply registered_receive_arrives|].
  intros r k' n' Hr. apply wp_bind, wp_modify, wp_of_result.
  split; [done|]. intros _. split; [|exact Hr].
  cbn. apply not_elem_of_difference. right. by apply elem_of_singleton.
Qed.

(** *** A receive that is stranded *)

(** A receive that fails between the arrival of its payload and its completion
    cannot be resumed before the next start. While a row says [connecting] or [transferring],
    every receive of it is refused as already active and the row stays as it is, although the
    registry shows that nobody receives it: nothing takes the row back to [interrupted] when a
    statement fails after the payload arrived. *)
Theorem stranded_receive_is_refused auth c k n
  (Hrow : targeted_transfers (k_tables k) !! au_transfer_id auth = Some c)
  (Hstate : c_state c = "connecting"%string ∨ c_state c = "transferring"%string) :
  wp (run_targeted_receive auth) k n (λ r k' _,
    (∃ e, r = Err e) ∧ targeted_transfers (k_tables k') !! au_transfer_id auth = Some c).
Proof.
  apply wp_bind, wp_get. destruct (bool_decide _); [apply wp_fail; eauto|].
  apply wp_bind, wp_modify, wp_bind, wp_try, wp_bind, wp_get_row.
  - intros e n'. apply wp_bind, wp_modify, wp_of_result. eauto.
  - intros n' Hn. cbn in Hn. congruence.
  - intros c' row n' Hc' (_ & _ & _ & _ & _ & _ & Hst & _)%row_to_full_fields. cbn in Hc'.
    assert (c' = c) as -> by congruence.
    assert (tr_state row = Connecting ∨ tr_state row = Transferring) as Hrow'.
    { destruct Hstate as [E|E]; rewrite E in Hst; [left|right];
        [rewrite (targeted_state_roundtrip Connecting) in Hst | rewrite (targeted_state_roundtrip Transferring) in Hst];
        congruence. }
    apply wp_bind. destruct Hrow' as [-> | ->]; apply wp_fail, wp_bind, wp_modify, wp_of_result; eauto.
Qed.

(** *** Answers to offers *)

Definition answer_settled (id : string) (r : result TargetedOfferResponse VnidropError) k : Prop :=
  match r with
  | Ok (OfferApproved id') => id' = id ∧ ∃ c handle, targeted_transfers (k_tables k) !! id = Some c ∧
      c_role c = "receiver"%string ∧ c_state c = "approved"%string ∧ c_authorization_secret_handle c = Some handle
  | Ok OfferResponseDeclined => accepted_offer_intents (k_tables k) !! id = None
  | _ => True
  end.

Lemma wp_finish_response id outcome k n :
  wp (finish_response id outcome) k n (λ r k' _, answer_settled id r k').
Proof.
  destruct outcome as [[authorization|]|[]]; try by apply wp_fail.
  - apply wp_bind, wp_get_row; [done|by intros; apply wp_fail|]. intros c row n1 Hc Hrow.
    destruct (_ && _ && _) eqn:Hb; [|by apply wp_fail]. bool_simpl. apply wp_ret. split; [done|].
    pose proof Hrow as (_ & _ & _ & _ & Eh & Er & Es & _)%row_to_full_fields.
    destruct (tr_authorization_secret_handle row) as [handle|] eqn:Ehandle; [|done]. exists c, handle.
    split_and!; [done| | |done].
    + apply parse_role_Ok in Er as ->. by match goal with E : tr_role row = _ |- _ => rewrite E end.
    + apply parse_targeted_state_Ok in Es as ->. by match goal with E : tr_state row = _ |- _ => rewrite E end.
  - apply wp_bind, wp_in_tables, wp_sql; [done|]. intros _ [] t' [= <-]. apply wp_ret.
    cbn. rewrite delete_where_str. apply lookup_delete_eq.
Qed.

(** An answer to the user is durable. If approving an offer returns [Approved], the
    database holds the approved receiver row of that very transfer with a handle of its
    capability in custody: the transfer can be received after a restart. If it returns
    [Declined], no consent to the offer is left that a later authorization could use. *)
Theorem answer_is_durable id accepted k n :
  wp (respond_to_targeted_offer authority id accepted) k n (λ r k' _, answer_settled id r k').
Proof.
  assert (∀ {A} (m : M (Core V) VnidropError A) f k1 n1,
    (∀ a k2 n2, wp (f a) k2 n2 (λ r k' _, answer_settled id r k')) →
    wp (m ≫= f) k1 n1 (λ r k' _, answer_settled id r k')) as Hthen.
  { intros A m f k1 n1 Hf. apply wp_bind. apply wp_any. intros [a|e] k2 n2; [apply Hf|done]. }
  apply Hthen. intros _ k1 n1. apply Hthen. intros [] k2 n2; [by apply wp_ret|].
  apply Hthen. intros found k3 n3. apply Hthen. intros [] k4 n4; [by apply wp_ret|].
  apply Hthen. intros _ k5 n5. apply Hthen. intros outcome k6 n6. apply wp_finish_response.
Qed.
End Receive.

(** ** Witnesses *)

Section Witnesses.
#[local] Existing Instances device_text auth_host auth_blake3 auth_network.
#[local] Existing Instances demo_base64 demo_urls demo_addressing demo_ticket_codec auth_codec alone silent_peers
  full_store.

(** The third statement of a receive after its payload arrived cannot be written. *)
Definition receiving_env (fault : option nat) : Env := {|
  clock _ := 1000; new_uuid _ := "uuid"%string;
  io_fault n := if bool_decide (Some n = fault) then Some "disk full"%string else None |}.

Definition demo_receivable : Core FaultInjectingSecretStore :=
  with_domain (demo_end "alice" demo_relationship) inbox_new
    (on_transfers (λ _, {[ "t1"%string := receiver_columns demo_auth "h" 1 ]}) empty_tables).

(** A receive in which one statement fails. *)
Definition demo_receive (fault : option nat) : result unit VnidropError * Core FaultInjectingSecretStore * nat :=
  let disk := receiving_env fault in run_targeted_receive demo_auth demo_receivable 0%nat.

Lemma quiet_runs : ∀ n (k : Core FaultInjectingSecretStore), store_run k (between n k).
Proof. intros n k. apply rtc_refl. Qed.

(** A receive without faults; it ends completed and unregistered. *)
Lemma receive_is_exclusive_witness :
  (demo_receive None).1.1 = Ok tt ∧
  ("t1"%string ∉ k_active (demo_receive None).1.2) ∧ arrived "t1" (k_tables (demo_receive None).1.2).
Proof.
  set (disk := receiving_env None).
  assert ((demo_receive None).1.1 = Ok tt) as E by by vm_compute. split; [exact E|].
  destruct (run_wp _ _ (λ r k', _) (receive_is_exclusive (H:=disk) quiet_runs demo_auth demo_receivable 0)) as [_ Hfree].
  destruct Hfree as [Hout Harr]; [vm_compute; discriminate|]. split; [exact Hout|]. apply Harr. exact E.
Defined.

(** The statement that completes the transfer fails: nobody receives it any more, and it can
    not be received again. *)
Lemma stranded_receive_is_refused_witness :
  let k := (demo_receive (Some 9%nat)).1.2 in
  is_ok (demo_receive (Some 9%nat)).1.1 = false ∧ k_active k = ∅ ∧
  (c_state <$> targeted_transfers (k_tables k) !! "t1"%string) = Some "transferring"%string ∧
  ∃ e, (let disk := receiving_env None in run_targeted_receive demo_auth k 0%nat).1.1 = Err e.
Proof.
  intros k. split; [vm_compute; reflexivity|]. split; [vm_compute; reflexivity|].
  split; [vm_compute; reflexivity|]. set (disk := receiving_env None).
  destruct (targeted_transfers (k_tables k) !! "t1"%string) as [c|] eqn:Ec; [|vm_compute in Ec; discriminate].
  refine (proj1 (run_wp _ _ (λ r k', (∃ e, r = Err e) ∧ _)
    (stranded_receive_is_refused (H:=disk) demo_auth c k 0 Ec _))).
  right. vm_compute in Ec. injection Ec as <-. reflexivity.
Defined.
End Witnesses.
