(* ===== verification/SavedDevices.v ===== *)
(** * [runtime/saved_devices.rs]: forgetting and blocking a device

    The commands of the user that end a relationship, over everything that must end with it:
    the deny list, the relationship with its grants and eligibilities, the transfers with the
    device and the notice to it. Commands that only forward to [Devices.v] and [Pairing.v] are
    the operations there. *)

From S2P Require Import Prelude Sql ControlPlane Errors States Api Ticket TargetedStore Access Invitation Inbox SecureSecret Relationship Pairing Devices DevicesSpec Core Authorization TargetedModule TargetedModuleSpec Approval TargetedRuntime TargetedRuntimeSpec.

Record RevokeNotice : Type := { rn_generation : Z; rn_issued_grant_id : option string }.
Inductive RevokeNoticeResponse : Type := RevokeAcknowledged | RevokeRejected.

(** What a device answers to the notice. *)
Class Revokees : Type := { revoke_reply : nat → string → RevokeNotice → RpcOutcome RevokeNoticeResponse }.

Section SavedDevices.
Context `{Env} `{ForeignText} `{Host} `{Blake3} `{!Base64} `{Codec} `{Urls} `{Addressing} `{!TicketCodec}
  {V : Type} `{SecureSecretStore V} `{!Network V} `{!Neighbours V} `{Revokees}.
Variable authority : TargetedProtocolAuthority.

Abbreviation IO := (M (Core V) VnidropError).
Abbreviation protected := (ta_protected authority).
Abbreviation local_id := (ta_local_endpoint_id authority).

(** [notify_remote_revoke]: best effort. *)
Definition notify_remote_revoke (peer : string) (generation : Z) (issued_grant_id : option string) : IO unit :=
  addr ← try (E:=VnidropError) (in_domain (peer_addr peer));
  match addr with
  | Err _ => ret tt
  | Ok _ =>
      call revoke_reply peer {| rn_generation := generation; rn_issued_grant_id := issued_grant_id |};;
      ret tt
  end.

Definition notify_outcome (peer : string) (outcome : ForgetOutcome) : IO unit :=
  match fo_generation outcome with
  | Some generation => notify_remote_revoke peer generation (fo_issued_grant_id outcome)
  | None => ret tt
  end.

Definition respond_to_device_pairing (peer : string) (accepted : bool) : IO bool :=
  barred ← in_domain (is_blocked_or_unknown peer);
  if barred : bool then ret false
  else in_domain (respond_to_pairing protected local_id peer accepted).

Definition forget_saved_device (peer : string) : IO unit :=
  outcome ← in_domain (forget protected peer);
  cancel_targeted_transfers_for_peer authority peer;;
  when (fo_had_relationship outcome) (notify_outcome peer outcome).

(** [self.blocked_devices.*().map_err(VnidropError::repository)]. *)
Definition in_block_list {A} (m : M Blocked AnyhowError A) : IO A :=
  in_domain (map_err repository (zoom blocked set_blocked m)).

Definition block_device (peer : string) : IO unit :=
  now ← now_ms;
  in_block_list (block_endpoint peer now);;
  outcome ← in_domain (revoke_for_block protected peer);
  cancel_targeted_transfers_for_peer authority peer;;
  notify_outcome peer outcome.

Definition unblock_device (peer : string) : IO unit := in_block_list (unblock_endpoint peer).
Definition list_blocked_devices : IO (list string) := in_block_list list_blocked.
End SavedDevices.

(** ** What is left of a device *)

Section Properties.
Context `{Env} `{ForeignText} `{Host} `{Blake3} `{!Base64} `{Codec} `{Urls} `{Addressing} `{!TicketCodec}
  {V : Type} `{SecureSecretStore V} `{!SecureSecretStoreLaws V} `{!Network V} `{!Neighbours V} `{Revokees}.
Variable authority : TargetedProtocolAuthority.
Implicit Types (k : Core V) (d : Domain V).

(** No relationship with the device is left. *)
Definition unrelated (peer : string) d : Prop := relationships (devices d) !! peer = None.
(** … and it is on the deny list. *)
Definition barred (peer : string) d : Prop := unrelated peer d ∧ is_Some (blocked d !! peer).

Section Keeping.
Variable (peer : string) (fact : Domain V → Prop).
(** A fact about relationships and the deny list. *)
Hypothesis fact_vault : ∀ w d, fact d → fact (set_vault w d).
Hypothesis fact_between : ∀ n k, fact (k_domain k) → fact (k_domain (between n k)).

Definition keeps_fact k k' : Prop := fact (k_domain k) → fact (k_domain k').
#[local] Instance keeps_fact_preorder : PreOrder keeps_fact.
Proof. split; [by intros k|]. intros k1 k2 k3 E1 E2 Hf. by apply E2, E1. Qed.

Lemma keeps_fact_idle {E A} (m : M (Core V) E A) :
  (∀ k n, wp m k n (λ _ k' _, k_domain k' = k_domain k)) → within keeps_fact m.
Proof. intros Hm k n. eapply wp_mono; [apply Hm|]. intros r k' n' Ek Hf. by rewrite Ek. Qed.

Lemma keeps_fact_tables {A} (m : M Tables VnidropError A) : within keeps_fact (in_tables m).
Proof. apply keeps_fact_idle. intros k n. apply wp_in_tables. unfold wp. by destruct (m _ n) as [[??]?]. Qed.

Lemma keeps_fact_access {A} (m : M AccessPolicy VnidropError A) : within keeps_fact (in_access m).
Proof. apply keeps_fact_idle. intros k n. apply wp_in_access. unfold wp. by destruct (m _ n) as [[??]?]. Qed.

Lemma keeps_fact_inbox {A} (m : M TargetedOfferInbox string A) : within keeps_fact (in_inbox m).
Proof.
  apply within_map_err, keeps_fact_idle. intros k n. apply wp_zoom. unfold wp. by destruct (m _ n) as [[??]?].
Qed.

Lemma keeps_fact_pause : within keeps_fact pause.
Proof. intros k n. exact (fact_between n k). Qed.

Lemma keeps_fact_neighbours : within keeps_fact neighbours.
Proof. intros k n. exact (λ Hf, Hf). Qed.

Lemma keeps_fact_tag tag : within keeps_fact (delete_tag tag).
Proof. intros k n. unfold wp, delete_tag. destruct (tag_fault n); exact (λ Hf, Hf). Qed.

Lemma keeps_fact_custody {A} (m : M (Vault V) VnidropError A) : within keeps_fact (in_custody_of m).
Proof. intros k n. apply wp_in_custody_any. intros r w n' Hf. by apply fact_vault. Qed.

Lemma keeps_fact_terminate : within keeps_fact (terminate_peer authority peer).
Proof.
  unfold terminate_peer, inbox_discard_from, inbox_discard, inbox_discard_section, collect_row, cleanup.
  repeat first
    [ apply keeps_fact_tables | apply keeps_fact_access | apply keeps_fact_inbox | apply keeps_fact_pause
    | apply keeps_fact_neighbours | apply keeps_fact_tag | apply keeps_fact_custody
    | match goal with |- within _ (modify _) => apply within_modify; intros k; exact (λ Hf, Hf) end
    | within_step ].
Qed.

(** Ending the transfers with the device keeps the fact and leaves nothing going on. *)
Lemma wp_end_transfers k n (Q : result Z VnidropError → Core V → nat → Prop) :
  fact (k_domain k) → (∀ e k' n', Q (Err e) k' n') →
  (∀ c k' n', fact (k_domain k') → peer_over peer k' → Q (Ok c) k' n') →
  wp (cancel_targeted_transfers_for_peer authority peer) k n Q.
Proof.
  intros Hf He Ho. unfold cancel_targeted_transfers_for_peer.
  pose proof (keeps_fact_terminate k n) as Hk. pose proof (wp_terminate_peer authority peer k n) as Ht.
  unfold wp in *. destruct (terminate_peer authority peer k n) as [[[c|e] k'] n']; [|apply He].
  by apply Ho; [apply Hk | apply Ht].
Qed.
End Keeping.

Variable peer : string.
(** What other handlers do meanwhile starts nothing with a device that was forgotten, and does
    not take a device off the deny list. *)
Hypothesis between_unrelated : ∀ n k, unrelated peer (k_domain k) → unrelated peer (k_domain (between n k)).
Hypothesis between_barred : ∀ n k, barred peer (k_domain k) → barred peer (k_domain (between n k)).
Hypothesis between_over : ∀ n k,
  unrelated peer (k_domain k) → peer_over peer k → peer_over peer (between n k).

Lemma wp_notify_outcome outcome k n (P : Domain V → Prop) :
  (∀ d, P d → unrelated peer d) → (∀ n k, P (k_domain k) → P (k_domain (between n k))) →
  P (k_domain k) → peer_over peer k →
  wp (notify_outcome peer outcome) k n (λ r k' _, r = Ok tt ∧ P (k_domain k') ∧ peer_over peer k').
Proof.
  intros HP Hb Hd Hover. unfold notify_outcome. destruct (fo_generation outcome); [|by apply wp_ret].
  apply wp_bind, wp_try, wp_in_domain. unfold wp at 1, peer_addr.
  destruct (peer_addr_error _ _); rewrite set_domain_id; [by apply wp_ret|].
  apply wp_bind. unfold wp at 1, call. apply wp_ret. split; [done|]. split; [by apply Hb|].
  by apply between_over; [apply HP|].
Qed.

Lemma wp_in_block_list {A} (f : Blocked → result (A * Blocked) SqlxError) k n Q :
  (∀ e n', Q (Err e) k n') →
  (∀ a b n', f (blocked (k_domain k)) = Ok (a, b) → Q (Ok a) (set_domain (set_blocked b (k_domain k)) k) n') →
  wp (in_block_list (asql f)) k n Q.
Proof.
  intros He Ho. assert (set_domain (set_blocked (blocked (k_domain k)) (k_domain k)) k = k) as Eid.
  { destruct k as [[] ? ? ? ? ? ? ?]. done. }
  apply wp_in_domain, wp_map_err, wp_zoom, wp_asql; [intros; simpl; rewrite Eid; apply He|].
  intros _ a b Eb. by apply Ho.
Qed.

(** C21: blocking a device ends everything with it. When [block_device] returns, the device
    is on the deny list, no relationship with it is left, every transfer with it is over –
    without capability, owed delivery, running work, served content or access – and no consent
    given to it remains, whatever the device answers to the notice, if it can be reached at all. *)
Theorem block_device_complete k n :
  wp (block_device authority peer) k n (λ r k' _, r = Ok tt → barred peer (k_domain k') ∧ peer_over peer k').
Proof.
  apply wp_bind, wp_now_ms, wp_bind, wp_in_block_list; [done|]. intros [] b n1 [= <-].
  apply wp_bind, wp_in_domain. eapply wp_mono; [apply wp_revoke_for_block|].
  intros [out|e] d n2 Hd; [|done]. destruct (Hd out eq_refl) as [Er Eb].
  apply wp_bind, (wp_end_transfers peer (barred peer)); [done|done| |done|].
  - split; [unfold unrelated; cbn; rewrite Er; apply lookup_delete_eq|]. cbn. rewrite Eb. cbn.
    unfold insert_or_ignore. destruct (blocked (k_domain k) !! peer) eqn:E; [by eexists|].
    rewrite lookup_insert_eq. by eexists.
  - intros c k' n3 Hbar Hover. eapply wp_mono; [apply (wp_notify_outcome _ _ _ (barred peer)); [by intros ? []|done..]|].
    intros r k'' n4 (_ & Hb & Ho) _. done.
Qed.

(** Forgetting a device ends everything with it but the deny list. When
    [forget_saved_device] returns, no relationship is left and every transfer with the device
    is over, whatever the device answers to the notice. *)
Theorem forget_saved_device_complete k n :
  wp (forget_saved_device authority peer) k n (λ r k' _, r = Ok tt →
    unrelated peer (k_domain k') ∧ peer_over peer k').
Proof.
  apply wp_bind, wp_in_domain. eapply wp_mono; [apply wp_forget|].
  intros [out|e] d n1 Hd; [|done]. destruct (Hd out eq_refl) as [Er _].
  apply wp_bind, (wp_end_transfers peer (unrelated peer)); [done|done| |done|].
  - unfold unrelated. cbn. rewrite Er. apply lookup_delete_eq.
  - intros c k' n2 Hun Hover. unfold when. destruct (fo_had_relationship out); [|by apply wp_ret].
    eapply wp_mono; [apply (wp_notify_outcome _ _ _ (unrelated peer)); done|]. by intros r k'' n3 (_ & Hu & Ho) _.
Qed.

(** Unblocking removes the deny record and gives nothing back. *)
Theorem unblock_only_lifts_the_bar k n :
  wp (unblock_device peer) k n (λ r k' _, r = Ok tt → blocked (k_domain k') !! peer = None ∧
    k' = set_domain (set_blocked (delete peer (blocked (k_domain k))) (k_domain k)) k).
Proof.
  apply wp_in_block_list; [done|]. intros [] b n' [= <-] _. rewrite delete_where_str. cbn.
  split; [apply lookup_delete_eq|done].
Qed.
End Properties.

(** ** Witnesses *)

Section Witnesses.
#[local] Existing Instances device_env device_text device_host device_blake3 device_network.
#[local] Existing Instances demo_base64 demo_urls demo_addressing demo_ticket_codec auth_codec alone
  silent_peers full_store.
#[local] Instance deaf : Revokees := {| revoke_reply _ _ _ := RpcTimedOut |}.

(** Bob is saved, and a transfer to him is being served. *)
Definition demo_related : Core FaultInjectingSecretStore :=
  (restore_targeted_transfer_access (demo_authority "alice") demo_restarted 0%nat).1.2.

Lemma block_device_complete_witness :
  (Sql.run (block_device (demo_authority "alice") "bob") demo_related).1 = Ok tt ∧
  is_Some (approved_sessions (k_access demo_related) !! (2 ^ 63, "bob"%string)) ∧
  barred "bob" (k_domain (Sql.run (block_device (demo_authority "alice") "bob") demo_related).2).
Proof.
  assert ((Sql.run (block_device (demo_authority "alice") "bob") demo_related).1 = Ok tt) as E by by vm_compute.
  split; [exact E|]. split; [vm_compute; by eexists|].
  refine (proj1 (run_wp _ _ (λ r k', r = Ok tt → barred "bob" (k_domain k') ∧ peer_over "bob" k')
    (block_device_complete (demo_authority "alice") "bob" _ _ demo_related 0) E)); by intros.
Defined.

Lemma forget_saved_device_complete_witness :
  (Sql.run (forget_saved_device (demo_authority "alice") "bob") demo_related).1 = Ok tt ∧
  unrelated "bob" (k_domain (Sql.run (forget_saved_device (demo_authority "alice") "bob") demo_related).2).
Proof.
  assert ((Sql.run (forget_saved_device (demo_authority "alice") "bob") demo_related).1 = Ok tt) as E by by vm_compute.
  split; [exact E|].
  refine (proj1 (run_wp _ _ (λ r k', r = Ok tt → unrelated "bob" (k_domain k') ∧ peer_over "bob" k')
    (forget_saved_device_complete (demo_authority "alice") "bob" _ _ demo_related 0) E)); by intros.
Defined.
End Witnesses.
