(* ===== verification/Provider.v ===== *)
(** * [runtime/provider.rs]: serving blobs

    Every request for a blob passes here before the blob store answers it. The provider task
    handles one message at a time; the shares and the access policy it consults are changed by
    the rest of the core meanwhile ([between]). *)

From S2P Require Import Prelude Sql ControlPlane Errors States Api TargetedStore Access Invitation Inbox SecureSecret Relationship Pairing Devices Core TargetedModule.

(** ** Messages and answers *)

(** The messages of [iroh_blobs::provider::events], with what the handler reads of them. *)
Inductive ProviderMessage : Type :=
| ClientConnected (connection_id : Z) (endpoint_id : option string)
| ClientConnectedNotify (connection_id : Z) (endpoint_id : option string)
| ConnectionClosed (connection_id : Z)
| GetRequestReceived (connection_id request_id : Z) (hash : string)
| GetRequestReceivedNotify (connection_id request_id : Z) (hash : string)
| GetManyRequestReceived (connection_id request_id : Z) (hashes : list string)
| GetManyRequestReceivedNotify (connection_id request_id : Z) (hashes : list string)
| ObserveRequestReceived (connection_id request_id : Z) (hash : string)
| ObserveRequestReceivedNotify (connection_id request_id : Z)
| Throttle (connection_id request_id size : Z)
| OtherMessage.

(** What is sent back, if the message has a channel for it; and the stream whose progress is
    followed: the transfer it is attributed to, the connection and the request. *)
Inductive ProviderReply : Type := Go | Permission.
Record Handled : Type := {
  hd_reply : option ProviderReply;
  hd_tracked : option (Z * Z * Z)
}.
Definition handled (reply : option ProviderReply) (tracked : option (Z * Z * Z)) : Handled :=
  {| hd_reply := reply; hd_tracked := tracked |}.

(** [RequestUpdate]s of a stream, and how following it ends. *)
Inductive RequestUpdate : Type := Started | Progress (end_offset : Z) | Completed | Aborted.
Inductive RequestStreamOutcome : Type := TerminalUpdateReceived | StreamAborted.

Definition terminal_update (update : RequestUpdate) : bool :=
  match update with Completed | Aborted => true | _ => false end.
Definition consume_request_updates (updates : list RequestUpdate) : RequestStreamOutcome :=
  if existsb terminal_update updates then TerminalUpdateReceived else StreamAborted.

(** The events of [track_request_updates], by their kind. *)
Definition update_kind (update : RequestUpdate) : string :=
  match update with
  | Started => "started"
  | Progress _ => "progress"
  | Completed => "completed"
  | Aborted => "aborted"
  end.
Definition track_request_updates (updates : list RequestUpdate) : list string :=
  map update_kind updates ++
  match consume_request_updates updates with
  | TerminalUpdateReceived => []
  | StreamAborted => ["aborted"%string]
  end.

(** ** State *)

Record Provider (V : Type) : Type := {
  pv_core : Core V;
  connection_endpoints : gmap Z string
}.
Arguments pv_core {V} _.
Arguments connection_endpoints {V} _.

Definition set_pv_core {V} (k : Core V) (p : Provider V) : Provider V :=
  {| pv_core := k; connection_endpoints := connection_endpoints p |}.
Definition on_connections {V} (f : gmap Z string → gmap Z string) (p : Provider V) : Provider V :=
  {| pv_core := pv_core p; connection_endpoints := f (connection_endpoints p) |}.

(** The order in which a [HashSet] of the standard library is iterated is not specified. *)
Class SetOrder : Type := { set_iter : nat → gset Z → list Z }.
Class SetOrderLaws `{SetOrder} : Prop := { set_iter_elem n s x : x ∈ set_iter n s ↔ x ∈ s }.

Section Provider.
Context `{Env} `{SetOrder} {V : Type} `{!Neighbours V}.

Abbreviation IO := (M (Provider V) string).

Definition meantime : IO unit := λ p n, (Ok tt, set_pv_core (between n (pv_core p)) p, S n).

Definition transfer_ids_for_hash (hash : string) : IO (list Z) := λ p n,
  (Ok (set_iter n (default ∅ (k_hashes (pv_core p) !! hash))), p, n).

Definition access_decision (transfer_id : Z) (endpoint_id : option string) : IO AccessDecision :=
  zoom pv_core set_pv_core (zoom k_access set_access (decide_access transfer_id endpoint_id)).

Fixpoint first_allowed (endpoint_id : option string) (transfer_ids : list Z) (last_reason : string) :
    IO (result Z string) :=
  match transfer_ids with
  | [] => ret (Err last_reason)
  | transfer_id :: rest =>
      meantime;;
      decision ← access_decision transfer_id endpoint_id;
      match decision with
      | Allow => ret (Ok transfer_id)
      | Deny reason => first_allowed endpoint_id rest reason
      end
  end.

Definition allow_any_transfer (transfer_ids : list Z) (connection_id : Z) : IO (result Z string) :=
  p ← Sql.get;
  first_allowed (connection_endpoints p !! connection_id) transfer_ids "approval-required".

Definition authorize_hash (hash : string) (connection_id : Z) : IO (result Z string) :=
  transfer_ids ← transfer_ids_for_hash hash;
  match transfer_ids with
  | [] => ret (Err "unknown-hash"%string)
  | _ => allow_any_transfer transfer_ids connection_id
  end.

(** The loop of [authorize_hashes]: the first refusal ends it. *)
Fixpoint authorize_each (connection_id : Z) (hashes : list string) (attributed : option Z) :
    IO (result Z string) :=
  match hashes with
  | [] => ret (match attributed with Some id => Ok id | None => Err "empty-request"%string end)
  | hash :: rest =>
      allowed ← authorize_hash hash connection_id;
      match allowed with
      | Err reason => ret (Err reason)
      | Ok id => meantime;;
                 authorize_each connection_id rest (Some (default id attributed))
      end
  end.

Definition authorize_hashes (hashes : list string) (connection_id : Z) : IO (result Z string) :=
  if bool_decide (hashes = []) then ret (Err "empty-request"%string)
  else authorize_each connection_id hashes None.

(** The answer to a request that was decided, and what is followed. *)
Definition answer (connection_id request_id : Z) (allowed : result Z string) : Handled :=
  match allowed with
  | Ok transfer_id => handled (Some Go) (Some (transfer_id, connection_id, request_id))
  | Err _ => handled (Some Permission) None
  end.
Definition notice (connection_id request_id : Z) (allowed : result Z string) : Handled :=
  match allowed with
  | Ok transfer_id => handled None (Some (transfer_id, connection_id, request_id))
  | Err _ => handled None None
  end.

Definition connect (connection_id : Z) (endpoint_id : option string) : IO unit :=
  match endpoint_id with
  | Some endpoint_id => modify (on_connections <[connection_id := endpoint_id]>)
  | None => ret tt
  end.

Definition handle_provider_message (message : ProviderMessage) : IO Handled :=
  match message with
  | ClientConnected connection_id endpoint_id =>
      connect connection_id endpoint_id;; ret (handled (Some Go) None)
  | ClientConnectedNotify connection_id endpoint_id =>
      connect connection_id endpoint_id;; ret (handled None None)
  | ConnectionClosed connection_id =>
      modify (on_connections (delete connection_id));; ret (handled None None)
  | GetRequestReceived connection_id request_id hash =>
      allowed ← authorize_hash hash connection_id;
      ret (answer connection_id request_id allowed)
  | GetRequestReceivedNotify connection_id request_id hash =>
      allowed ← authorize_hash hash connection_id;
      ret (notice connection_id request_id allowed)
  | GetManyRequestReceived connection_id request_id hashes =>
      allowed ← authorize_hashes hashes connection_id;
      ret (answer connection_id request_id allowed)
  | GetManyRequestReceivedNotify connection_id request_id hashes =>
      allowed ← authorize_hashes hashes connection_id;
      ret (notice connection_id request_id allowed)
  | ObserveRequestReceived connection_id request_id hash =>
      allowed ← authorize_hash hash connection_id;
      ret (handled (Some (if is_ok allowed then Go else Permission)) None)
  | Throttle _ _ _ => ret (handled (Some Go) None)
  | ObserveRequestReceivedNotify _ _ | OtherMessage => ret (handled None None)
  end.

(** The provider task: between two messages the core goes on. *)
Definition serve (messages : list ProviderMessage) : IO unit :=
  for_each messages (λ message, handle_provider_message message;; meantime).
End Provider.

(** ** Properties *)

Section Access.
Context `{Env} `{SetOrder} `{!SetOrderLaws} {V : Type} `{!Neighbours V}.
Implicit Types (k : Core V) (p : Provider V).

(** How the core moves while a request is decided: other handlers, and expired sessions that
    the decision itself removes. *)
Inductive drift : Core V → Core V → Prop :=
| drift_between n k : drift k (between n k)
| drift_expire pol k : modes pol = modes (k_access k) →
    approved_sessions pol ⊆ approved_sessions (k_access k) → drift k (set_access pol k).

Definition moved p p' : Prop :=
  connection_endpoints p' = connection_endpoints p ∧ rtc drift (pv_core p) (pv_core p').

#[local] Instance moved_preorder : PreOrder moved.
Proof.
  split; [by intros p; split|]. intros p1 p2 p3 [E1 D1] [E2 D2]. split; [congruence|by etrans].
Qed.

(** While the request was decided, the hash belonged to a share, and the policy admitted the
    endpoint to that share. *)
Definition readable k (endpoint : option string) (hash : string) (id : Z) : Prop :=
  ∃ k1 k2 owners m, rtc drift k k1 ∧ k_hashes k1 !! hash = Some owners ∧ id ∈ owners ∧
    rtc drift k1 k2 ∧ grants (k_access k2) id endpoint (clock m).

Lemma readable_moved p p' endpoint hash id :
  moved p p' → readable (pv_core p') endpoint hash id → readable (pv_core p) endpoint hash id.
Proof. intros [_ Hd] (k1 & k2 & owners & m & Hd1 & Hr). exists k1, k2, owners, m. split; [by etrans|done]. Qed.

Lemma wp_meantime p n Q :
  (∀ p' n', moved p p' → Q (Ok tt) p' n') → wp meantime p n Q.
Proof. intros HQ. apply HQ. split; [done|]. apply rtc_once. constructor. Qed.

Lemma wp_access_decision id endpoint p n Q :
  (∀ n', grants (k_access (pv_core p)) id endpoint (clock n) → Q (Ok Allow) p n') →
  (∀ reason p' n', moved p p' → Q (Ok (Deny reason)) p' n') →
  wp (access_decision id endpoint) p n Q.
Proof.
  assert (set_pv_core (set_access (k_access (pv_core p)) (pv_core p)) p = p) as Eid.
  { destruct p as [[] conns]. done. }
  intros Ha Hd. apply wp_zoom, wp_zoom, wp_decide_access.
  - intros n' Hg. rewrite Eid. by apply Ha.
  - intros reason n' _ _. rewrite Eid. by apply Hd.
  - intros reason e session n' _ _ _ _. apply Hd. split; [done|]. apply rtc_once.
    constructor; [done|]. apply delete_subseteq.
Qed.

Lemma wp_first_allowed endpoint ids reason p n Q :
  (∀ reason' p' n', moved p p' → Q (Ok (Err reason')) p' n') →
  (∀ id p' n' m, id ∈ ids → moved p p' → grants (k_access (pv_core p')) id endpoint (clock m) →
     Q (Ok (Ok id)) p' n') →
  wp (first_allowed endpoint ids reason) p n Q.
Proof.
  revert reason p n. induction ids as [|id ids IH]; intros reason p n Hd Ha; simpl.
  - by apply wp_ret, Hd.
  - apply wp_bind, wp_meantime. intros p1 n1 M1. apply wp_bind, wp_access_decision.
    + intros n2 Hg. apply wp_ret. eapply Ha; [by left|done|exact Hg].
    + intros reason' p2 n2 M2. assert (moved p p2) as M by by etrans. apply IH.
      * intros reason'' p' n' M'. apply Hd. by etrans.
      * intros id' p' n' m Hin M' Hg. eapply Ha; [by right|by etrans|exact Hg].
Qed.

Lemma wp_authorize_hash hash c p n Q :
  (∀ reason p' n', moved p p' → Q (Ok (Err reason)) p' n') →
  (∀ id p' n', moved p p' → readable (pv_core p) (connection_endpoints p !! c) hash id → Q (Ok (Ok id)) p' n') →
  wp (authorize_hash hash c) p n Q.
Proof.
  intros Hd Ha. apply wp_bind. unfold wp at 1, transfer_ids_for_hash.
  destruct (set_iter n _) as [|id0 ids] eqn:Eiter; [by apply wp_ret, Hd|].
  apply wp_bind, wp_get, wp_first_allowed; [done|]. intros id p' n' m Hin M Hg. apply Ha; [done|].
  rewrite <- Eiter in Hin. apply set_iter_elem in Hin.
  destruct (k_hashes (pv_core p) !! hash) as [owners|] eqn:Eh; [|by apply not_elem_of_empty in Hin].
  exists (pv_core p), (pv_core p'), owners, m. destruct M as [_ M]. by split_and!.
Qed.

Lemma wp_authorize_each c hashes attributed p n Q :
  (∀ reason p' n', moved p p' → Q (Ok (Err reason)) p' n') →
  (∀ id p' n', moved p p' → (attributed = None → hashes ≠ []) →
     (∀ hash, hash ∈ hashes → ∃ id', readable (pv_core p) (connection_endpoints p !! c) hash id') →
     Q (Ok (Ok id)) p' n') →
  wp (authorize_each c hashes attributed) p n Q.
Proof.
  revert attributed p n. induction hashes as [|hash hashes IH]; intros attributed p n Hd Ha; simpl.
  - destruct attributed as [id|]; apply wp_ret; [apply Ha|by apply Hd]; [done..|].
    intros hash Hin. by apply not_elem_of_nil in Hin.
  - apply wp_bind, wp_authorize_hash; [intros; by apply wp_ret, Hd|]. intros id p1 n1 M1 Hr.
    apply wp_bind, wp_meantime. intros p2 n2 M2. assert (moved p p2) as M by by etrans. apply IH.
    + intros reason p' n' M'. apply Hd. by etrans.
    + intros id' p' n' M' _ Hall. apply Ha; [by etrans|done|].
      intros hash' [->|Hin]%elem_of_cons; [by exists id|].
      destruct (Hall hash' Hin) as [id'' Hr'']. exists id''. destruct M as [E _]. rewrite <- E.
      eapply readable_moved; [|exact Hr'']. by etrans.
Qed.

(** The connection and the hashes that a request is for. *)
Definition requested (message : ProviderMessage) : option (Z * list string) :=
  match message with
  | GetRequestReceived c _ hash | GetRequestReceivedNotify c _ hash | ObserveRequestReceived c _ hash =>
      Some (c, [hash])
  | GetManyRequestReceived c _ hashes | GetManyRequestReceivedNotify c _ hashes => Some (c, hashes)
  | _ => None
  end.

(** The request is let through: answered with a go, or followed as a transfer. *)
Definition let_through (h : Handled) : Prop := hd_reply h = Some Go ∨ hd_tracked h ≠ None.

Definition request_checked p (message : ProviderMessage) (h : Handled) : Prop :=
  ∀ c hashes, requested message = Some (c, hashes) → let_through h → hashes ≠ [] ∧
    ∀ hash, hash ∈ hashes → ∃ id, readable (pv_core p) (connection_endpoints p !! c) hash id.

(** Who is at the other end of each connection, by the messages so far. *)
Definition connected (endpoints : gmap Z string) (message : ProviderMessage) : gmap Z string :=
  match message with
  | ClientConnected c (Some e) | ClientConnectedNotify c (Some e) => <[c := e]> endpoints
  | ConnectionClosed c => delete c endpoints
  | _ => endpoints
  end.

Definition checked p (message : ProviderMessage) (r : result Handled string) p' : Prop :=
  ∃ h, r = Ok h ∧ request_checked p message h ∧
    connection_endpoints p' = connected (connection_endpoints p) message.

Lemma wp_decided message c hashes allow f p n :
  requested message = Some (c, hashes) →
  (∀ reason, ¬ let_through (f (Err reason))) →
  (allow = authorize_hashes hashes c ∨ ∃ hash, hashes = [hash] ∧ allow = authorize_hash hash c) →
  wp (allowed ← allow; ret (f allowed)) p n (λ r p' _, checked p message r p').
Proof.
  intros Hreq Hf Hallow. assert (∀ E : gmap Z string, connected E message = E) as Hidle by by destruct message.
  assert (∀ reason p' n', moved p p' → wp (ret (f (Err reason))) p' n' (λ r p' _, checked p message r p')) as Hdenied.
  { intros reason p' n' [E _]. apply wp_ret. eexists. split; [done|]. split; [|by rewrite Hidle].
    intros c' hashes' _ Hl. by destruct (Hf reason). }
  apply wp_bind. destruct Hallow as [-> |(hash & -> & ->)].
  - unfold authorize_hashes. case_bool_decide as Hempty; [by apply wp_ret, Hdenied|].
    apply wp_authorize_each; [by intros; apply Hdenied|]. intros id p' n' [E _] _ Hall. apply wp_ret.
    eexists. split; [done|]. split; [|by rewrite Hidle]. intros c' hashes' Hreq' _. by simplify_eq.
  - apply wp_authorize_hash; [by intros; apply Hdenied|]. intros id p' n' [E _] Hr. apply wp_ret.
    eexists. split; [done|]. split; [|by rewrite Hidle]. intros c' hashes' Hreq' _. simplify_eq.
    split; [done|]. intros hash' ->%list_elem_of_singleton. by exists id.
Qed.

Lemma wp_handle_request message p n :
  wp (handle_provider_message message) p n (λ r p' _, checked p message r p').
Proof.
  assert (∀ c r reason, ¬ let_through (answer c r (Err reason)) ∧ ¬ let_through (notice c r (Err reason))) as Hf.
  { intros c r reason. by split; intros [?|[]]. }
  destruct message as [c e|c e|c|c r hash|c r hash|c r hashes|c r hashes|c r hash|c r|c r size|];
    cbn [handle_provider_message].
  1, 2: apply wp_bind; unfold connect; destruct e; [apply wp_modify|]; apply wp_ret; by eexists.
  1: by apply wp_bind, wp_modify, wp_ret; eexists.
  6, 7, 8: by apply wp_ret; eexists.
  1: apply (wp_decided _ c [hash] _ (answer c r)); [done|apply Hf|by right; exists hash].
  1: apply (wp_decided _ c [hash] _ (notice c r)); [done|apply Hf|by right; exists hash].
  1: apply (wp_decided _ c hashes _ (answer c r)); [done|apply Hf|by left].
  1: apply (wp_decided _ c hashes _ (notice c r)); [done|apply Hf|by left].
  apply (wp_decided _ c [hash] _ (λ allowed, handled (Some (if is_ok allowed then Go else Permission)) None));
    [done| |by right; exists hash].
  intros reason [?|[]]; done.
Qed.

(** C4: no blob is read without access. Whatever connections came and went before,
    and whatever other handlers do while a request is decided, a request for a blob, for
    several or about one is let through only if each of its hashes belonged to a share and the
    policy admitted the endpoint of the connection to that share: the endpoint last reported
    for the connection, and nobody once it was closed or if none was reported. Every message
    is handled to its end. *)
Theorem requests_need_access messages message k n :
  wp (serve messages) {| pv_core := k; connection_endpoints := ∅ |} n (λ r p n1, r = Ok tt ∧
    wp (handle_provider_message message) p n1 (λ res _ _, ∃ h, res = Ok h ∧
      ∀ c hashes, requested message = Some (c, hashes) → let_through h → hashes ≠ [] ∧
        ∀ hash, hash ∈ hashes → ∃ id,
          readable (pv_core p) (fold_left connected messages ∅ !! c) hash id)).
Proof.
  apply (wp_for_each (λ left p, fold_left connected left (connection_endpoints p) = fold_left connected messages ∅)).
  - done.
  - clear n. intros x left p n E. apply wp_bind. eapply wp_mono; [apply wp_handle_request|].
    intros r p1 n1 (h & -> & _ & E1). apply wp_meantime. intros p2 n2 [E2 _].
    by rewrite E2, E1.
  - intros p n' E. split; [done|]. simpl in E. eapply wp_mono; [apply wp_handle_request|].
    intros r p' n'' (h & -> & Hc & _). exists h. split; [done|]. by rewrite <- E.
Qed.
End Access.

(** ** Witness *)

Section Witnesses.
#[local] Instance provider_env : Env := quiet_env 1000 (λ _, "uuid"%string).
#[local] Instance any_order : SetOrder := {| set_iter _ s := elements s |}.
#[local] Instance any_order_laws : SetOrderLaws.
Proof. split. intros n s x. apply elem_of_elements. Qed.
#[local] Instance nobody_else : Neighbours unit := {|
  neighbour_tasks _ := []; between _ k := k; patience _ := 0%nat; tag_fault _ := None |}.

(** Share 7 was opened to Bob; its payload is one blob. *)
Definition demo_serving : Core unit := {|
  k_domain := {| devices := {| relationships := ∅; tombstones := ∅ |}; eligibilities := ∅; blocked := ∅;
                 vault := {| secret_refs := ∅; secret_store := tt; legacy_identity := None |} |};
  k_tables := {| targeted_transfers := ∅; accepted_offer_intents := ∅; authorization_delivery_outbox := ∅;
                 completion_outbox := ∅; payload_release_outbox := ∅; schema_migrations := ∅ |};
  k_history := {| transfers := ∅; received_artifacts := ∅; transfer_events := ∅; receiver_requests := ∅;
                  pending_delivery_receipts := ∅ |};
  k_inbox := inbox_new;
  k_access := {| modes := {[ 7 := ApprovalRequired ]};
                 approved_sessions := {[ (7, "bob"%string) := {| expires_at := Some 2000 |} ]} |};
  k_active := ∅; k_hashes := {[ "blob"%string := {[ 7 ]} ]}; k_tags := ∅ |}.
Definition demo_provider : Provider unit := {| pv_core := demo_serving; connection_endpoints := ∅ |}.
Definition demo_reply (messages : list ProviderMessage) (message : ProviderMessage) : option ProviderReply :=
  match (handle_provider_message message (Sql.run (serve messages) demo_provider).2 0%nat).1.1 with
  | Ok h => hd_reply h
  | Err _ => None
  end.

(** Bob may read; Carol, an unknown connection and Bob after he left may not. *)
Example bob_reads : demo_reply [ClientConnected 1 (Some "bob"%string)] (GetRequestReceived 1 1 "blob") = Some Go.
Proof. vm_compute. reflexivity. Qed.
Example carol_is_refused :
  demo_reply [ClientConnected 2 (Some "carol"%string)] (GetRequestReceived 2 1 "blob") = Some Permission.
Proof. vm_compute. reflexivity. Qed.
Example closed_is_refused :
  demo_reply [ClientConnected 1 (Some "bob"%string); ConnectionClosed 1] (GetManyRequestReceived 1 1 ["blob"%string])
  = Some Permission.
Proof. vm_compute. reflexivity. Qed.

Lemma requests_need_access_witness :
  (set_iter 0 {[ 7 ]} = [7]) ∧
  wp (serve [ClientConnected 1 (Some "bob"%string)]) demo_provider 0 (λ r p n1, r = Ok tt ∧
    wp (handle_provider_message (GetRequestReceived 1 1 "blob")) p n1 (λ res _ _, ∃ h, res = Ok h ∧
      ∀ c hashes, Some (1, ["blob"%string]) = Some (c, hashes) → let_through h → hashes ≠ [] ∧
        ∀ hash, hash ∈ hashes → ∃ id,
          readable (pv_core p) (fold_left connected [ClientConnected 1 (Some "bob"%string)] ∅ !! c) hash id)).
Proof.
  split; [vm_compute; reflexivity|].
  exact (requests_need_access [ClientConnected 1 (Some "bob"%string)] (GetRequestReceived 1 1 "blob") demo_serving 0).
Defined.
End Witnesses.
