(* ===== verification/OutputFile.v ===== *)
(** * Published files: [AtomicOutputFile] of [filesystem.rs] and the exports of [runtime/receive.rs]

    Received content goes to a temporary file beside its destination and is published under its
    name only once all of it is on disk, without replacing what another process put there; or
    it goes to a sink of the user interface, which is called back file by file. The volume is a
    map from places to nodes that other processes may change between two system calls; any
    system call may fail. *)

From stdpp Require Import pretty.
From S2P Require Import Prelude Sql Errors States Api Ticket Invitation Filesystem.
#[local] Open Scope Z_scope.

(** ** The volume *)

Inductive Node : Type :=
| NFile (data : string)
| NDirectory
| NLink.

#[global] Instance Node_eq_dec : EqDecision Node.
Proof. solve_decision. Defined.

#[global] Instance Component_countable : Countable Component.
Proof.
  apply (inj_countable'
    (λ c, match c with RootDir => None | CurDir => Some None | ParentDir => Some (Some None)
                     | Normal x => Some (Some (Some x)) end)
    (λ o : option (option (option string)), match o with None => RootDir | Some None => CurDir
       | Some (Some None) => ParentDir | Some (Some (Some x)) => Normal x end)).
  by intros [].
Defined.

(** A place is what a path denotes: its components, however it is spelled. *)
Abbreviation Disk := (@gmap (list Component) (list_eq_dec (A:=Component)) (list_countable (A:=Component)) Node).

(** The error codes that the code tells apart. *)
Inductive Errno : Type :=
| EPERM | EACCES | EOPNOTSUPP | ENOTSUP | EXDEV | EINVAL | ENOSYS | EEXIST | ENOENT | OtherErrno.

Inductive ErrorKind : Type := KUnsupported | KPermissionDenied | KAlreadyExists | KNotFound | KStorageFull | KOther.

(** [std::io::Error]. *)
Record IoError : Type := { raw_os_error : option Errno; io_kind : ErrorKind; io_text : string }.

Definition os_error (code : Errno) : IoError := {|
  raw_os_error := Some code;
  io_kind := match code with
             | EPERM | EACCES => KPermissionDenied
             | EOPNOTSUPP | ENOTSUP | ENOSYS => KUnsupported
             | EEXIST => KAlreadyExists | ENOENT => KNotFound
             | EXDEV | EINVAL | OtherErrno => KOther
             end;
  io_text := "os error" |}.

(** The conversion of an [io::Error] by [?]. *)
Definition anyhow_io (e : IoError) : AnyhowError := {|
  head_cause := CIo (match io_kind e with
                     | KAlreadyExists => AlreadyExists | KPermissionDenied => PermissionDenied
                     | KStorageFull => IoStorageFull | KNotFound => NotFound
                     | KUnsupported | KOther => IoOther
                     end) (io_text e);
  source_chain := [] |}.

Inductive Syscall : Type :=
| CreateDirAll | Canonicalize | ReadDir | Lstat | CreateNew | WriteAll | SyncAll
| HardLink | RenameNoReplace | Rename | RemoveFile.

(** One entry of a directory: its name, and, where they can be read, its age in seconds ([0]
    without a time of modification) and whether it is a regular file. *)
Definition DirEntry : Type := result (string * result (Z * bool) IoError) IoError.

Class Volume : Type := {
  others : nat → Disk → Disk;
  sys_fault : nat → Syscall → option IoError;
  canonical : nat → string → string;
  entries : nat → string → list DirEntry;
  part_uuid : nat → string
}.

(** Other processes leave alone what is there, and add files only at places of theirs; names in a
    directory and the text of an identifier have no separator. *)
Class VolumeLaws `{Volume} (foreign : list Component → Prop) : Prop := {
  others_keep n d place node : d !! place = Some node → others n d !! place = Some node;
  others_add n d place node : d !! place = None → others n d !! place = Some node → foreign place;
  entry_name n dir name metadata : Ok (name, metadata) ∈ entries n dir → components name = [Normal name];
  uuid_name n : slash ∉ String.list_ascii_of_string (part_uuid n)
}.

Section Volume.
Context `{Volume}.

Abbreviation FS := (M Disk IoError).

(** A system call: others may go first; it fails without an effect, or acts. *)
Definition sys {A} (call : Syscall) (f : nat → Disk → result (A * Disk) IoError) : FS A := λ d n,
  let d := others n d in
  match sys_fault n call with
  | Some e => (Err e, d, S n)
  | None => match f n d with
            | Ok (a, d') => (Ok a, d', S n)
            | Err e => (Err e, d, S n)
            end
  end.

Definition hard_link (from to : string) : FS unit := sys HardLink (λ _ d,
  match d !! components to, d !! components from with
  | Some _, _ => Err (os_error EEXIST)
  | None, Some node => Ok (tt, <[components to := node]> d)
  | None, None => Err (os_error ENOENT)
  end).

Definition remove_file (path : string) : FS unit := sys RemoveFile (λ _ d,
  match d !! components path with
  | None => Err (os_error ENOENT)
  | Some NDirectory => Err (os_error OtherErrno)
  | Some _ => Ok (tt, delete (components path) d)
  end).

Definition renameat2_noreplace (from to : string) : FS unit := sys RenameNoReplace (λ _ d,
  match d !! components to, d !! components from with
  | Some _, _ => Err (os_error EEXIST)
  | None, Some node => Ok (tt, <[components to := node]> (delete (components from) d))
  | None, None => Err (os_error ENOENT)
  end).

Definition rename (from to : string) : FS unit := sys Rename (λ _ d,
  match d !! components from with
  | None => Err (os_error ENOENT)
  | Some node => if decide (d !! components to = Some NDirectory) then Err (os_error OtherErrno)
                 else Ok (tt, <[components to := node]> (delete (components from) d))
  end).

(** [std::fs::symlink_metadata(path).is_ok()]. *)
Definition lstat_ok (path : string) : FS bool := λ d n,
  let d := others n d in
  (Ok (match sys_fault n Lstat with Some _ => false | None => bool_decide (d !! components path ≠ None) end), d, S n).

Definition create_dir_all (path : string) : FS unit := sys CreateDirAll (λ _ d,
  match d !! components path with
  | None => Ok (tt, <[components path := NDirectory]> d)
  | Some (NDirectory | NLink) => Ok (tt, d)
  | Some (NFile _) => Err (os_error EEXIST)
  end).

Definition canonicalize (path : string) : FS string := sys Canonicalize (λ n d, Ok (canonical n path, d)).

Definition read_dir (path : string) : FS (list DirEntry) := sys ReadDir (λ n d, Ok (entries n path, d)).

(** [OpenOptions::new().write(true).create_new(true)] with [O_NOFOLLOW]. *)
Definition create_new (path : string) : FS unit := sys CreateNew (λ _ d,
  match d !! components path with
  | Some _ => Err (os_error EEXIST)
  | None => Ok (tt, <[components path := NFile EmptyString]> d)
  end).

(** [writer.write_all(&bytes)] on the temporary file. *)
Definition write_all (path bytes : string) : FS unit := sys WriteAll (λ _ d,
  match d !! components path with
  | Some (NFile data) => Ok (tt, <[components path := NFile (data +:+ bytes)]> d)
  | _ => Ok (tt, d)
  end).

Definition sync_all : FS unit := sys SyncAll (λ _ d, Ok (tt, d)).

(** ** Publishing ([publish_temp_as_final]) *)

Definition is_hard_link_unsupported (error : IoError) : bool :=
  match raw_os_error error with
  | Some (EPERM | EACCES | EOPNOTSUPP | ENOTSUP | EXDEV | EINVAL | ENOSYS) => true
  | _ => match io_kind error with KUnsupported | KPermissionDenied => true | _ => false end
  end.

Definition already_exists (path : string) : IoError :=
  {| raw_os_error := None; io_kind := KAlreadyExists; io_text := "destination already exists: " +:+ path |}.

(** The last resort: what exists is refused, then the file is renamed. *)
Definition rename_after_check (from to : string) : FS unit :=
  exists_ ← lstat_ok to;
  if exists_ : bool then fail (already_exists to) else rename from to.

Definition rename_no_replace (from to : string) : FS unit :=
  renamed ← try (E:=IoError) (renameat2_noreplace from to);
  match renamed with
  | Ok _ => ret tt
  | Err error =>
      match raw_os_error error with
      | Some (ENOSYS | EINVAL) => rename_after_check from to
      | _ => fail error
      end
  end.

Definition publish_temp_as_final (temporary target : string) : FS unit :=
  linked ← try (E:=IoError) (hard_link temporary target);
  match linked with
  | Ok _ => try (E:=IoError) (remove_file temporary);; ret tt
  | Err error => if is_hard_link_unsupported error then rename_no_replace temporary target else fail error
  end.

(** ** Stale parts *)

(** [str::ends_with]. *)
Fixpoint ends_with (suffix s : string) : bool :=
  str_eqb s suffix || match s with EmptyString => false | String _ s => ends_with suffix s end.

Definition is_part_name (name : string) : bool :=
  starts_with "." name && str_contains ".vnidrop-" name && ends_with ".part" name.

Definition STALE_PART_AGE : Z := 24 * 60 * 60.

Definition cleanup_entry (directory : string) (minimum_age : Z) (removed : Z) (entry : DirEntry) : FS Z :=
  entry ← of_result entry;
  let '(name, metadata) := entry in
  if negb (is_part_name name) then ret removed
  else
    metadata ← of_result metadata;
    let '(age, is_file) := metadata in
    if (minimum_age <=? age) && is_file
    then remove_file (path_join directory name);; ret (removed + 1)
    else ret removed.

Definition cleanup_stale_temporary_files (directory : string) (minimum_age : Z) : FS Z :=
  listed ← read_dir directory;
  fold_each (cleanup_entry directory minimum_age) listed 0.

(** ** Creating the temporary file *)

Record AtomicOutputFile : Type := { ao_target : string; ao_temporary : string }.

Abbreviation OF := (M Disk AnyhowError).

Definition io {A} (m : FS A) : OF A := map_err anyhow_io m.

(** The path of some components. *)
Definition path_of (cs : list Component) : string :=
  let names := omap (λ c, match c with
    | RootDir => None | CurDir => Some "." | ParentDir => Some ".." | Normal x => Some x end%string) cs in
  match cs with RootDir :: _ => "/" +:+ join "/" names | _ => join "/" names end.

(** [Path::parent] and [Path::starts_with] work on components. *)
Definition parent (path : string) : option string :=
  match last (components path) with
  | None | Some RootDir => None
  | Some _ => Some (path_of (removelast (components path)))
  end.
Definition path_starts_with (path base : string) : bool :=
  bool_decide (components base = take (length (components base)) (components path)).

Definition new_uuid_part : OF string := λ d n, (Ok (part_uuid n), d, S n).

Definition create (output_dir relative_path : string) : OF AtomicOutputFile :=
  target ← of_result (safe_output_path output_dir relative_path);
  match parent target with
  | None => fail (anyhow_msg "output file must have a parent directory")
  | Some parent =>
      io (create_dir_all parent);;
      canonical_root ← io (canonicalize output_dir);
      canonical_parent ← io (canonicalize parent);
      if negb (path_starts_with canonical_parent canonical_root)
      then fail (anyhow_msg "output path escapes the selected directory")
      else
        io (cleanup_stale_temporary_files parent STALE_PART_AGE);;
        exists_ ← io (lstat_ok target);
        if exists_ : bool then fail (anyhow_io (already_exists target))
        else
          match file_name target with
          | None => fail (anyhow_msg "output filename is not valid UTF-8")
          | Some final_name =>
              if negb (utf8 final_name) then fail (anyhow_msg "output filename is not valid UTF-8")
              else
                uuid ← new_uuid_part;
                let temporary := path_join parent ("." +:+ final_name +:+ ".vnidrop-" +:+ uuid +:+ ".part") in
                map_err (with_context ("failed to create " +:+ temporary)) (io (create_new temporary));;
                again ← io (canonicalize parent);
                if negb (str_eqb again canonical_parent)
                then try (E:=AnyhowError) (io (remove_file temporary));;
                     fail (anyhow_msg "output directory changed while opening destination")
                else ret {| ao_target := target; ao_temporary := temporary |}
          end
  end.

Definition commit (file : AtomicOutputFile) : OF unit :=
  map_err (with_context ("failed to commit " +:+ ao_target file))
    (io (publish_temp_as_final (ao_temporary file) (ao_target file))).

(** [Drop]: what was not committed is removed. *)
Definition drop_output (file : AtomicOutputFile) : OF unit :=
  try (E:=AnyhowError) (io (remove_file (ao_temporary file)));; ret tt.
End Volume.

(** ** Exports ([runtime/receive.rs]) *)

(** What the blob store yields for a blob; the receive may be cancelled while it waits. *)
Inductive ExportRangesItem : Type :=
| ISize (size : Z)
| IData (offset : Z) (data : string)
| IError (rendered : string)
| ICancelled.

(** A callback of a sink: what a writer thread panics with, whether a sender already sees that
    the writer is gone, the items of a blob, and what the sinks answer. *)
Class Exports : Type := {
  export_items : nat → string → list ExportRangesItem;
  writer_gone : nat → bool;
  join_fault : nat → option AnyhowError;
  sink_fault : nat → option VnidropError;
  published_output : nat → string → ReceivedLocatorKind * string
}.

Record ReceivedTransfer : Type := { rt_protocol_id : Z; rt_local_id : option string }.

(** The volume, the history, and the callbacks made on the sink so far. *)
Inductive SinkCall : Type :=
| StartFile (relative_path : string)
| WriteChunk (relative_path : string) (bytes : string)
| FinishFile (relative_path : string)
| AbortFile (relative_path : string) (reason : string).

Record Outputs : Type := {
  o_disk : Disk;
  o_history : History;
  o_calls : list SinkCall
}.
Definition set_disk (x : Disk) (o : Outputs) : Outputs :=
  {| o_disk := x; o_history := o_history o; o_calls := o_calls o |}.
Definition set_o_history (x : History) (o : Outputs) : Outputs :=
  {| o_disk := o_disk o; o_history := x; o_calls := o_calls o |}.
Definition called_back (call : SinkCall) (o : Outputs) : Outputs :=
  {| o_disk := o_disk o; o_history := o_history o; o_calls := o_calls o ++ [call] |}.

Section Exports.
Context `{Env} `{ForeignText} `{Volume} `{Exports}.

Abbreviation OF := (M Disk AnyhowError).
Abbreviation EX := (M Outputs AnyhowError).

Definition on_disk {A} (m : OF A) : EX A := zoom o_disk set_disk m.
Definition in_o_history {A} (m : M History AnyhowError A) : EX A := zoom o_history set_o_history m.

(** [.map_err(VnidropError::filesystem)?] and the like. *)
Definition as_vnidrop {S A} (f : AnyhowError → VnidropError) (m : M S AnyhowError A) : M S AnyhowError A :=
  map_err (λ e, anyhow_vnidrop (f e)) m.

Definition oracle {S A} (f : nat → A) : M S AnyhowError A := λ s n, (Ok (f n), s, Datatypes.S n).

Definition writer_closed (relative_path : string) : AnyhowError :=
  anyhow_msg ("export writer closed for " +:+ relative_path).
Definition out_of_order (relative_path : string) : AnyhowError :=
  anyhow_msg ("export stream for " +:+ relative_path +:+ " yielded out-of-order data").
Definition export_failed (relative_path rendered : string) : AnyhowError :=
  anyhow_msg ("export failed for " +:+ relative_path +:+ ": " +:+ rendered).
Definition cancelled : AnyhowError := anyhow_vnidrop (Errors.Cancelled "transfer cancelled").

(** [tx.send(..)] to the writer thread, which ends with its first error: a send after that may
    still be buffered, or find the channel closed. *)
Definition send_writer (file : AtomicOutputFile) (relative_path : string) (writer : option IoError)
    (bytes : option string) : OF (option IoError) :=
  match writer with
  | Some e =>
      gone ← oracle writer_gone;
      if gone : bool then fail (writer_closed relative_path) else ret (Some e)
  | None =>
      match bytes with
      | None => ret None
      | Some bytes =>
          written ← try (E:=IoError) (write_all (ao_temporary file) bytes);
          ret (match written with Ok _ => None | Err e => Some e end)
      end
  end.

(** The loop over the stream: the state of the writer and the bytes exported. *)
Fixpoint export_loop (file : AtomicOutputFile) (relative_path : string) (items : list ExportRangesItem)
    (writer : option IoError) (exported : Z) : OF (option IoError * Z) :=
  match items with
  | [] => ret (writer, exported)
  | ISize _ :: items => export_loop file relative_path items writer exported
  | IData offset data :: items =>
      if negb (offset =? exported) then fail (out_of_order relative_path)
      else
        writer ← send_writer file relative_path writer (Some data);
        export_loop file relative_path items writer (exported + str_len data)
  | IError rendered :: _ => fail (export_failed relative_path rendered)
  | ICancelled :: _ => fail cancelled
  end.

(** From the opened file to its durable content. *)
Definition write_blob (file : AtomicOutputFile) (relative_path hash : string) : OF Z :=
  items ← oracle (λ n, export_items n hash);
  streamed ← export_loop file relative_path items None 0;
  writer ← send_writer file relative_path streamed.1 None;
  joined ← oracle join_fault;
  match joined with
  | Some panicked => fail (anyhow_vnidrop (internal panicked))
  | None =>
      match writer with
      | Some e => fail (anyhow_vnidrop (filesystem (anyhow_io e)))
      | None => as_vnidrop filesystem (io sync_all);; ret streamed.2
      end
  end.

(** The file is published if all of it was written, and dropped otherwise. *)
Definition publish_blob (file : AtomicOutputFile) (relative_path hash : string) : OF Z :=
  outcome ← try (E:=AnyhowError) (
    exported ← write_blob file relative_path hash;
    as_vnidrop filesystem (commit file);;
    ret exported);
  match outcome with
  | Ok exported => ret exported
  | Err e => drop_output file;; fail e
  end.

(** What follows a published output, for the transfers that record it. *)
Definition record_artifact (transfer : ReceivedTransfer) (relative_path : string)
    (kind : ReceivedLocatorKind) (locator : string) (exported : Z) : EX unit :=
  match rt_local_id transfer with
  | None => ret tt
  | Some local_id =>
      as_vnidrop repository (in_o_history (record_received_artifact {|
        ai_transfer_local_id := local_id; ai_protocol_transfer_id := rt_protocol_id transfer;
        ai_relative_path := relative_path; ai_locator_kind := kind; ai_locator := locator;
        ai_logical_size := exported |}))
  end.

Definition output_path_too_long (limits : CoreLimits) (relative_path : string) : AnyhowError :=
  anyhow_msg ("output path exceeds " +:+ pretty (max_path_bytes limits) +:+ " bytes: " +:+ relative_path).

Definition export_blob_to_directory (limits : CoreLimits) (transfer : ReceivedTransfer)
    (output_dir relative_path hash : string) : EX unit :=
  if max_path_bytes limits <? str_len relative_path then fail (output_path_too_long limits relative_path)
  else
    pending_file ← on_disk (as_vnidrop filesystem (create output_dir relative_path));
    exported ← on_disk (publish_blob pending_file relative_path hash);
    record_artifact transfer relative_path FilesystemPath (ao_target pending_file) exported.

(** *** Sinks of the user interface *)

(** A callback, and its answer. *)
Definition sink_call (call : SinkCall) : EX unit := λ o n,
  (match sink_fault n with Some e => Err (anyhow_vnidrop e) | None => Ok tt end, called_back call o, Datatypes.S n).

Fixpoint sink_loop (relative_path : string) (items : list ExportRangesItem) (exported : Z) : EX Z :=
  match items with
  | [] => ret exported
  | ISize _ :: items => sink_loop relative_path items exported
  | IData offset data :: items =>
      if negb (offset =? exported) then fail (out_of_order relative_path)
      else
        sink_call (WriteChunk relative_path data);;
        sink_loop relative_path items (exported + str_len data)
  | IError rendered :: _ => fail (export_failed relative_path rendered)
  | ICancelled :: _ => fail cancelled
  end.

(** [OutputSinkFile]: once started it is finished, or aborted when it is dropped. *)
Definition with_sink_file (relative_path : string) (write : EX Z) : EX Z :=
  sink_call (StartFile relative_path);;
  written ← try (E:=AnyhowError) write;
  match written with
  | Ok exported => sink_call (FinishFile relative_path);; ret exported
  | Err e =>
      try (E:=AnyhowError) (sink_call (AbortFile relative_path "transfer interrupted before file completion"));;
      fail e
  end.

Definition write_to_sink (limits : CoreLimits) (relative_path hash : string) : EX (string * Z) :=
  if max_path_bytes limits <? str_len relative_path then fail (output_path_too_long limits relative_path)
  else
    relative_path ← of_result (validated_relative_string relative_path);
    exported ← with_sink_file relative_path (
      items ← oracle (λ n, export_items n hash);
      sink_loop relative_path items 0);
    ret (relative_path, exported).

Definition export_blob_to_sink (limits : CoreLimits) (relative_path hash : string) : EX unit :=
  write_to_sink limits relative_path hash;; ret tt.

Definition export_blob_to_sink_v2 (limits : CoreLimits) (transfer : ReceivedTransfer)
    (relative_path hash : string) : EX unit :=
  written ← write_to_sink limits relative_path hash;
  published ← oracle (λ n, published_output n written.1);
  record_artifact transfer written.1 published.1 published.2 written.2.

(** ** Collections ([export_collection] and [export_collection_untracked]) *)

Inductive ReceiveTarget : Type := Directory (output_dir : string) | OutputSink | OutputSinkV2.

Definition export_file (limits : CoreLimits) (transfer : ReceivedTransfer) (target : ReceiveTarget)
    (file : string * string) : EX unit :=
  match target with
  | Directory output_dir => export_blob_to_directory limits transfer output_dir file.1 file.2
  | OutputSink => export_blob_to_sink limits file.1 file.2
  | OutputSinkV2 => export_blob_to_sink_v2 limits transfer file.1 file.2
  end.

Definition export_collection (limits : CoreLimits) (transfer_id : Z) (target : ReceiveTarget)
    (collection : list (string * string)) : EX unit :=
  local_id ← as_vnidrop repository (in_o_history (transfer_local_id transfer_id));
  for_each collection (export_file limits
    {| rt_protocol_id := transfer_id; rt_local_id := Some local_id |} target).

Definition export_collection_untracked (limits : CoreLimits) (transfer_id : Z) (target : ReceiveTarget)
    (collection : list (string * string)) : EX unit :=
  for_each collection (export_file limits
    {| rt_protocol_id := transfer_id; rt_local_id := None |} target).
End Exports.

(** ** What happens to the volume *)

(** Places that only ever hold temporary files of this program. *)
Definition part_place (place : list Component) : Prop :=
  ∃ name, last place = Some (Normal name) ∧ is_part_name name = true.

(** Apart from temporary files everything stays as it is, and what is new is allowed. *)
Definition adds (allowed : list Component → Node → Prop) (d d' : Disk) : Prop :=
  ∀ place, ¬ part_place place →
    d' !! place = d !! place ∨ (d !! place = None ∧ ∃ node, d' !! place = Some node ∧ allowed place node).

#[global] Instance adds_preorder (allowed : list Component → Node → Prop) : PreOrder (adds allowed).
Proof.
  split; [by left|]. intros d1 d2 d3 H12 H23 q Hq.
  destruct (H12 q Hq) as [E|(E1 & node & E2 & Ha)], (H23 q Hq) as [E'|(E1' & node' & E2' & Ha')].
  - left. congruence.
  - right. split; [congruence|]. by exists node'.
  - right. split; [done|]. exists node. split; [congruence|done].
  - congruence.
Qed.

Lemma adds_mono (allowed allowed' : list Component → Node → Prop) (d d' : Disk) :
  (∀ q node, allowed q node → allowed' q node) → adds allowed d d' → adds allowed' d d'.
Proof. intros Ha H q Hq. destruct (H q Hq) as [?|(? & node & ? & ?)]; [by left|]. right. eauto. Qed.

(** What was there is kept. *)
Lemma adds_keeps (allowed : list Component → Node → Prop) (d d' : Disk) (place : list Component) (node : Node) :
  adds allowed d d' → ¬ part_place place → d !! place = Some node → d' !! place = Some node.
Proof. intros Ha Hp Hd. destruct (Ha place Hp) as [->|(E & _)]; [done|congruence]. Qed.

Lemma adds_insert (allowed : list Component → Node → Prop) (place : list Component) (node : Node) (d : Disk) :
  part_place place ∨ (d !! place = None ∧ allowed place node) → adds allowed d (<[place := node]> d).
Proof.
  intros Hp q Hq. destruct (decide (q = place)) as [->|Hne].
  - rewrite lookup_insert_eq. destruct Hp as [?|[? ?]]; [done|]. right. eauto.
  - left. by rewrite lookup_insert_ne.
Qed.

Lemma adds_delete (allowed : list Component → Node → Prop) (place : list Component) (d : Disk) : part_place place → adds allowed d (delete place d).
Proof. intros Hp q Hq. left. rewrite lookup_delete_ne; [done|]. by intros <-. Qed.


Section VolumeSpec.
Context `{Volume} (foreign : list Component → Prop) `{!VolumeLaws foreign}.

Definition from_others : list Component → Node → Prop := λ q _, foreign q.
Definition from_others_or_dirs : list Component → Node → Prop := λ q node, foreign q ∨ node = NDirectory.

Lemma others_adds allowed n d : (∀ q node, foreign q → allowed q node) → adds allowed d (others n d).
Proof.
  intros Ha q _. destruct (d !! q) as [node|] eqn:E; [left; by apply others_keep|].
  destruct (others n d !! q) as [node|] eqn:E'; [|by left]. right. split; [done|]. exists node.
  split; [done|]. by eapply Ha, others_add.
Qed.

(** A system call, by what it does once others have had their turn. *)
Lemma wp_sys {A} call (f : nat → Disk → result (A * Disk) IoError) d n (Q : result A IoError → Disk → nat → Prop) :
  (∀ e, sys_fault n call = Some e → Q (Err e) (others n d) (S n)) →
  match f n (others n d) with
  | Ok (a, d') => Q (Ok a) d' (S n)
  | Err e => Q (Err e) (others n d) (S n)
  end → wp (sys call f) d n Q.
Proof.
  intros He Ho. unfold wp, sys. destruct (sys_fault n call) as [e|]; [by apply He|].
  destruct (f n (others n d)) as [[a d']|e]; exact Ho.
Qed.

Lemma within_sys {A} allowed call (f : nat → Disk → result (A * Disk) IoError) :
  (∀ q node, foreign q → allowed q node) →
  (∀ n d a d', f n d = Ok (a, d') → adds allowed d d') → within (adds allowed) (sys call f).
Proof.
  intros Ha Hf d n. pose proof (others_adds allowed n d Ha) as Ho. apply wp_sys; [done|].
  destruct (f n (others n d)) as [[a d']|e] eqn:E; [|done]. etrans; [exact Ho|]. by eapply Hf.
Qed.

Lemma within_remove_file allowed path :
  (∀ q node, foreign q → allowed q node) → part_place (components path) →
  within (adds allowed) (remove_file path).
Proof.
  intros Ha Hp. apply within_sys; [done|]. intros n d a d' Hd.
  destruct (d !! components path) as [[]|]; simplify_eq; by apply adds_delete.
Qed.

Lemma within_lstat allowed path :
  (∀ q node, foreign q → allowed q node) → within (adds allowed) (lstat_ok path).
Proof. intros Ha d n. unfold wp, lstat_ok. by apply others_adds. Qed.

(** The temporary file is linked under its name, which was free. *)
Definition exclusive_rename : Prop :=
  ∀ n e, sys_fault n RenameNoReplace = Some e → raw_os_error e ≠ Some ENOSYS ∧ raw_os_error e ≠ Some EINVAL.

Definition may_publish (target : string) (node : Node) : list Component → Node → Prop :=
  λ q x, foreign q ∨ (q = components target ∧ x = node).

Lemma wp_publish temporary target node d n (Q : result unit IoError → Disk → nat → Prop) :
  exclusive_rename → part_place (components temporary) →
  d !! components temporary = Some node →
  (∀ e d' n', adds from_others d d' → Q (Err e) d' n') →
  (∀ d' n', d !! components target = None → adds (may_publish target node) d d' →
     d' !! components target = Some node → Q (Ok tt) d' n') →
  wp (publish_temp_as_final temporary target) d n Q.
Proof.
  intros Hexcl Hpart Htemp He Ho.
  assert (∀ n d, adds from_others d (others n d)) as Hothers by (intros; by apply others_adds).
  assert (∀ n d q, others n d !! q = None → d !! q = None) as Hfree.
  { intros n0 d0 q Hq. destruct (d0 !! q) as [x|] eqn:E; [|done].
    pose proof (others_keep n0 _ _ _ E) as E'. congruence. }
  apply wp_bind, wp_try, wp_sys.
  - intros e _. cbn beta iota. set (d1 := others n d).
    assert (adds from_others d d1) as H1 by apply Hothers.
    destruct (is_hard_link_unsupported e); [|by apply wp_fail, He].
    apply wp_bind, wp_try, wp_sys.
    + intros e' Hf. destruct (Hexcl _ _ Hf). cbn beta iota.
      destruct (raw_os_error e') as [[]|]; try done; apply wp_fail, He; (etrans; [exact H1|apply Hothers]).
    + set (d2 := others (S n) d1). assert (adds from_others d d2) as H2 by (etrans; [exact H1|apply Hothers]).
      assert (d2 !! components temporary = Some node) as Ht by by apply others_keep, others_keep.
      destruct (d2 !! components target) as [x|] eqn:Et; [by apply wp_fail, He|]. rewrite Ht. apply wp_ret, Ho.
      * by apply (Hfree n), (Hfree (S n)).
      * etrans; [eapply adds_mono; [|exact H2]; by left|]. etrans; [by apply adds_delete|]. apply adds_insert.
        right. split; [|by right]. rewrite lookup_delete_ne by congruence. done.
      * by rewrite lookup_insert_eq.
  - set (d1 := others n d). assert (adds from_others d d1) as H1 by apply Hothers.
    assert (d1 !! components temporary = Some node) as Ht by by apply others_keep.
    destruct (d1 !! components target) as [x|] eqn:Et; [by apply wp_fail, He|]. rewrite Ht. cbn beta iota.
    set (d2 := <[components target := node]> d1).
    assert (adds (may_publish target node) d d2) as H2.
    { etrans; [eapply adds_mono; [|exact H1]; by left|]. apply adds_insert. right. split; [done|by right]. }
    apply wp_bind, wp_try.
    assert (d2 !! components target = Some node) as Ht2 by apply lookup_insert_eq.
    assert (components target ≠ components temporary) as Hne by congruence.
    assert (∀ n0, adds (may_publish target node) d (others n0 d2)) as H3.
    { intros n0. etrans; [exact H2|]. apply others_adds. by left. }
    apply wp_sys.
    + intros e _. apply wp_ret, Ho; [by apply (Hfree n)|apply H3|by apply others_keep].
    + destruct (others (S n) d2 !! components temporary) as [[]|];
        apply wp_ret, Ho; try (by apply (Hfree n)); try apply H3; try (by apply others_keep).
      all: try (rewrite lookup_delete_ne by done; by apply others_keep).
      all: (etrans; [apply H3|by apply adds_delete]).
Qed.

Lemma part_entry dir name :
  components name = [Normal name] → is_part_name name = true → part_place (components (path_join dir name)).
Proof.
  intros Hc Hn. rewrite (components_path_join _ _ [name]) by done. exists name. by rewrite last_app.
Qed.

Lemma str_contains_app p a b : str_contains p (a +:+ (p +:+ b)) = true.
Proof.
  induction a as [|c a IH].
  - change (EmptyString +:+ (p +:+ b)) with (p +:+ b). destruct (p +:+ b) eqn:E.
    + cbn -[starts_with]. by rewrite <- E, starts_with_app.
    + cbn -[starts_with]. by rewrite <- E, starts_with_app.
  - rewrite str_app_cons. cbn -[starts_with]. by rewrite IH, orb_true_r.
Qed.

Lemma ends_with_app suffix a : ends_with suffix (a +:+ suffix) = true.
Proof.
  induction a as [|c a IH].
  - change (EmptyString +:+ suffix) with suffix. destruct suffix; cbn [ends_with]; by rewrite str_eqb_refl.
  - rewrite str_app_cons. cbn [ends_with]. by rewrite IH, orb_true_r.
Qed.

Lemma single_name x :
  x ≠ EmptyString → x ≠ "."%string → x ≠ ".."%string → slash ∉ String.list_ascii_of_string x →
  components x = [Normal x].
Proof.
  intros Hx Hdot Hdots Hs. unfold components. rewrite split_on_plain by done. cbn [head].
  rewrite bool_decide_eq_false_2 by congruence.
  assert (starts_with "/" x = false) as ->.
  { destruct x as [|a x]; [done|]. simpl in Hs. apply not_elem_of_cons in Hs as [Hs _].
    unfold starts_with. cbn -[Ascii.eqb]. destruct (Ascii.eqb_spec "/" a); [by subst|done]. }
  cbn [mbind list_bind app]. rewrite app_nil_r. unfold component_of, str_eqb. destruct x as [|a x]; [done|].
  cbn [str_is_empty orb]. by rewrite !bool_decide_eq_false_2.
Qed.

Lemma bytes_app s t : String.list_ascii_of_string (s +:+ t) =
  String.list_ascii_of_string s ++ String.list_ascii_of_string t.
Proof. induction s as [|a s IH]; [done|]. rewrite str_app_cons. simpl. by rewrite IH. Qed.

Lemma file_name_single path name : file_name path = Some name → slash ∉ String.list_ascii_of_string name.
Proof.
  unfold file_name. destruct (last (components path)) as [[| | |x]|] eqn:E; intros; simplify_eq.
  apply last_Some_elem_of in E. unfold components in E. apply elem_of_app in E as [Hc|Hc].
  { repeat case_match; by (apply list_elem_of_singleton in Hc || apply not_elem_of_nil in Hc). }
  apply list_elem_of_bind in Hc as (piece & Hin & Hp). apply component_of_name in Hin as (-> & _).
  by eapply split_on_free.
Qed.

(** The temporary file of an output has a name that no published file needs. *)
Lemma temporary_is_part dir path final n :
  file_name path = Some final →
  part_place (components (path_join dir ("." +:+ final +:+ ".vnidrop-" +:+ part_uuid n +:+ ".part"))).
Proof.
  intros Hfinal%file_name_single. apply part_entry.
  - apply single_name.
    + done.
    + intros E%(f_equal String.length). rewrite !str_length_app in E. simpl in E. lia.
    + intros E%(f_equal String.length). rewrite !str_length_app in E. simpl in E. lia.
    + rewrite !bytes_app. pose proof (uuid_name n). rewrite !elem_of_app.
      intros [Hc|[Hc|[Hc|[Hc|Hc]]]]; try done; by apply (bool_decide_unpack _) in Hc || (revert Hc; apply (bool_decide_unpack _); vm_compute; done).
  - unfold is_part_name. rewrite starts_with_app. cbn [andb]. apply andb_true_intro. split.
    + rewrite <- str_app_assoc. apply str_contains_app.
    + rewrite <- !str_app_assoc. apply ends_with_app.
Qed.

Lemma within_cleanup allowed directory age :
  (∀ q node, foreign q → allowed q node) → within (adds allowed) (cleanup_stale_temporary_files directory age).
Proof.
  intros Ha d n. apply wp_bind, wp_sys; [by intros; apply others_adds|].
  assert (∀ listed removed d1 n1, listed ⊆ entries n directory → adds allowed d d1 →
    wp (fold_each (cleanup_entry directory age) listed removed) d1 n1 (λ _ d2 _, adds allowed d d2)) as Hloop.
  { intros listed. induction listed as [|entry listed IH]; intros removed d1 n1 Hsub Had; [by apply wp_ret|].
    apply wp_bind, wp_bind, wp_of_result. destruct entry as [[name metadata]|e]; [|done].
    assert (listed ⊆ entries n directory) as Hsub' by set_solver.
    destruct (is_part_name name) eqn:Hname; simpl; [|by apply wp_ret, IH].
    apply wp_bind, wp_of_result. destruct metadata as [[age0 is_file]|e] eqn:Em; [|done]. simpl.
    destruct (_ && _); [|by apply wp_ret, IH].
    assert (part_place (components (path_join directory name))) as Hpart.
    { apply part_entry; [|done]. eapply (entry_name n directory name metadata). apply Hsub. subst. by left. }
    apply wp_bind. eapply wp_mono; [by apply (within_remove_file allowed)|].
    intros [[]|e] d2 n2 Had2; [apply wp_ret, IH; [done|]|]; by etrans. }
  apply Hloop; [done|by apply others_adds].
Qed.

Lemma wp_create output_dir relative_path d n (Q : result AtomicOutputFile AnyhowError → Disk → nat → Prop) :
  (∀ e d' n', adds from_others_or_dirs d d' → Q (Err e) d' n') →
  (∀ file d' n', adds from_others_or_dirs d d' →
     safe_output_path output_dir relative_path = Ok (ao_target file) →
     part_place (components (ao_temporary file)) →
     d' !! components (ao_temporary file) = Some (NFile EmptyString) → Q (Ok file) d' n') →
  wp (create output_dir relative_path) d n Q.
Proof.
  intros He Ho. unfold create.
  assert (∀ q (node : Node), foreign q → from_others_or_dirs q node) as Hin by by left.
  assert (∀ {A} (m : M Disk IoError A) (f : A → M Disk AnyhowError AtomicOutputFile) d1 n1,
    adds from_others_or_dirs d d1 → within (adds from_others_or_dirs) m →
    (∀ a d2 n2, adds from_others_or_dirs d d2 → wp (f a) d2 n2 Q) → wp (io m ≫= f) d1 n1 Q) as Hthen.
  { intros A m f d1 n1 H1 Hm Hf. apply wp_bind, wp_map_err. eapply wp_mono; [apply Hm|].
    intros [a|e] d2 n2 H2; simpl; [apply Hf|apply He]; by etrans. }
  apply wp_bind, wp_of_result. destruct (safe_output_path _ _) as [target|] eqn:Et; [|by apply He].
  destruct (parent target) as [dir|]; [|by apply wp_fail, He].
  apply Hthen; [done| |].
  { apply within_sys; [done|]. intros n0 d0 a d1. destruct (d0 !! components dir) as [[]|] eqn:Ed; intros [= _ <-]; [done..|].
    apply adds_insert. right. split; [done|by right]. }
  intros _ d1 n1 H1. apply Hthen; [done| |].
  { apply within_sys; [done|]. by intros ? ? ? ? [= _ <-]. }
  intros root d2 n2 H2. apply Hthen; [done| |].
  { apply within_sys; [done|]. by intros ? ? ? ? [= _ <-]. }
  intros canon d3 n3 H3. destruct (negb (path_starts_with canon root)); [by apply wp_fail, He|].
  apply Hthen; [done|by apply within_cleanup|]. intros _ d4 n4 H4.
  apply Hthen; [done|by apply within_lstat|]. intros [] d5 n5 H5; [by apply wp_fail, He|].
  destruct (file_name target) as [name|] eqn:Ename; [|by apply wp_fail, He].
  destruct (negb (utf8 name)); [by apply wp_fail, He|].
  apply wp_bind. unfold wp at 1, new_uuid_part. cbv zeta.
  set (temporary := path_join dir _).
  assert (part_place (components temporary)) as Hpart by by eapply temporary_is_part.
  apply wp_bind, wp_map_err, wp_map_err, wp_sys.
  { intros e _. apply He. etrans; [exact H5|]. by apply others_adds. }
  destruct (others _ d5 !! components temporary) as [x|] eqn:Ex.
  { apply He. etrans; [exact H5|]. by apply others_adds. }
  cbn [result_map_err]. set (d6 := <[components temporary := NFile EmptyString]> _).
  assert (adds from_others_or_dirs d d6) as H6.
  { etrans; [exact H5|]. etrans; [by apply (others_adds _ (S n5))|]. apply adds_insert. by left. }
  assert (d6 !! components temporary = Some (NFile EmptyString)) as Hd6 by apply lookup_insert_eq.
  apply wp_bind, wp_map_err, wp_sys.
  { intros e _. apply He. etrans; [exact H6|]. by apply others_adds. }
  cbn [result_map_err]. set (d7 := others _ d6).
  assert (adds from_others_or_dirs d d7) as H7 by (etrans; [exact H6|]; by apply others_adds).
  destruct (negb _).
  - apply wp_bind, wp_try, wp_map_err. eapply wp_mono; [by apply within_remove_file|].
    intros r d8 n8 H8. apply wp_fail, He. by etrans.
  - apply wp_ret, Ho; simpl; [done..|]. by apply others_keep.
Qed.
End VolumeSpec.

(** ** Exports *)

(** What a stream yields, if it is whole and in order from [offset] on. *)
Fixpoint whole (offset : Z) (items : list ExportRangesItem) : option string :=
  match items with
  | [] => Some EmptyString
  | ISize _ :: items => whole offset items
  | IData at_ data :: items =>
      if at_ =? offset then rest ← whole (offset + str_len data) items; Some (data +:+ rest) else None
  | IError _ :: _ | ICancelled :: _ => None
  end.

Section ExportSpec.
Context `{Env} `{ForeignText} `{Volume} `{Exports} (foreign : list Component → Prop) `{!VolumeLaws foreign}.

(** Only the temporary file changes, by what is appended. *)
Lemma wp_send file path w bytes d n (Q : result (option IoError) AnyhowError → Disk → nat → Prop) data :
  part_place (components (ao_temporary file)) →
  d !! components (ao_temporary file) = Some (NFile data) →
  (∀ e d' n', adds (from_others foreign) d d' → Q (Err e) d' n') →
  (∀ e d' n', adds (from_others foreign) d d' →
     (∃ data', d' !! components (ao_temporary file) = Some (NFile data')) → Q (Ok (Some e)) d' n') →
  (∀ d' n', w = None → adds (from_others foreign) d d' →
     d' !! components (ao_temporary file) = Some (NFile (data +:+ default EmptyString bytes)) → Q (Ok None) d' n') →
  wp (send_writer file path w bytes) d n Q.
Proof.
  intros Hpart Hd He Hw Ho. unfold send_writer. destruct w as [e|].
  - apply wp_bind. unfold wp at 1, oracle. destruct (writer_gone n); [by apply wp_fail, He|].
    apply wp_ret, Hw; [done|by exists data].
  - destruct bytes as [bytes|]; [|apply wp_ret, Ho; [done|done|by simpl; rewrite str_app_empty_r]].
    apply wp_bind, wp_try, wp_sys.
    + intros e _. apply wp_ret, Hw; [by apply (others_adds foreign)|]. exists data. by apply others_keep.
    + pose proof (others_keep n _ _ _ Hd) as Hd1. rewrite Hd1. apply wp_ret, Ho; [done| |].
      * etrans; [by apply (others_adds foreign _ n)|]. apply adds_insert. by left.
      * by rewrite lookup_insert_eq.
Qed.

Lemma wp_export_loop file path items w exported d n data
    (Q : result (option IoError * Z) AnyhowError → Disk → nat → Prop) :
  part_place (components (ao_temporary file)) →
  d !! components (ao_temporary file) = Some (NFile data) →
  (∀ e d' n', adds (from_others foreign) d d' → Q (Err e) d' n') →
  (∀ e exported' d' n', adds (from_others foreign) d d' →
     (∃ data', d' !! components (ao_temporary file) = Some (NFile data')) → Q (Ok (Some e, exported')) d' n') →
  (∀ rest d' n', w = None → whole exported items = Some rest → adds (from_others foreign) d d' →
     d' !! components (ao_temporary file) = Some (NFile (data +:+ rest)) →
     Q (Ok (None, exported + str_len rest)) d' n') →
  wp (export_loop file path items w exported) d n Q.
Proof.
  intros Hpart. revert w exported d n data Q.
  induction items as [|[size|off bytes|text|] items IH]; intros w exported d n data Q Hd He Hw Ho; simpl.
  - apply wp_ret. destruct w as [e|]; [apply Hw; [done|by exists data]|].
    replace exported with (exported + str_len EmptyString) by (unfold str_len; simpl; lia).
    apply Ho; [done..|]. by rewrite str_app_empty_r.
  - by eapply IH.
  - destruct (Z.eqb_spec off exported) as [->|Hne]; simpl; [|by apply wp_fail, He].
    apply wp_bind. eapply wp_send; [done|exact Hd|done| |].
    + intros e d1 n1 Ha1 [data1 Hd1]. eapply IH; [exact Hd1| | |done].
      * intros. apply He. by etrans.
      * intros. apply Hw; [by etrans|done].
    + intros d1 n1 -> Ha1 Hd1. eapply IH; [exact Hd1| | |].
      * intros. apply He. by etrans.
      * intros. apply Hw; [by etrans|done].
      * intros rest d2 n2 _ Hrest Ha2 Hd2. cbn [default] in Hd2.
        replace (exported + str_len bytes + str_len rest) with (exported + str_len (bytes +:+ rest))
          by (unfold str_len; rewrite str_length_app; lia).
        apply Ho; [done| |by etrans|by rewrite <- str_app_assoc].
        simpl. by rewrite Z.eqb_refl, Hrest.
  - by apply wp_fail, He.
  - by apply wp_fail, He.
Qed.

(** The blob [hash] as the store yielded it, whole. *)
Definition yielded (hash data : string) : Prop := ∃ n, whole 0 (export_items n hash) = Some data.

Lemma wp_write_blob file path hash d n (Q : result Z AnyhowError → Disk → nat → Prop) :
  part_place (components (ao_temporary file)) →
  d !! components (ao_temporary file) = Some (NFile EmptyString) →
  (∀ e d' n', adds (from_others foreign) d d' → Q (Err e) d' n') →
  (∀ data d' n', yielded hash data → adds (from_others foreign) d d' →
     d' !! components (ao_temporary file) = Some (NFile data) → Q (Ok (str_len data)) d' n') →
  wp (write_blob file path hash) d n Q.
Proof.
  intros Hpart Hd He Ho. apply wp_bind. unfold wp at 1, oracle.
  apply wp_bind. eapply wp_export_loop; [done|exact Hd|done| |].
  - intros e exported d1 n1 Ha1 [data1 Hd1]. apply wp_bind. cbn [fst].
    assert (∀ w d2 n2, w ≠ None → adds (from_others foreign) d1 d2 →
      wp (joined ← oracle join_fault;
          match joined with
          | Some panicked => fail (anyhow_vnidrop (internal panicked))
          | None => match w with
                    | Some e => fail (anyhow_vnidrop (filesystem (anyhow_io e)))
                    | None => as_vnidrop filesystem (io sync_all);; ret exported
                    end
          end) d2 n2 Q) as Hfail.
    { intros [w|] d2 n2 Hw Ha2; [|done]. apply wp_bind. unfold wp at 1, oracle.
      destruct (join_fault n2); apply wp_fail, He; by etrans. }
    eapply wp_send; [done|exact Hd1| |intros e0 d2 n2 Hadd _; by apply (Hfail (Some e0))|done].
    intros e' d2 n2 Ha2. apply He. by etrans.
  - intros rest d1 n1 _ Hrest Ha1 Hd1. apply wp_bind. cbn [fst snd].
    eapply (wp_send _ _ None); [done|exact Hd1| | |].
    + intros e' d2 n2 Ha2. apply He. by etrans.
    + intros e' d2 n2 Ha2 _. apply wp_bind. unfold wp at 1, oracle.
      destruct (join_fault n2); apply wp_fail, He; by etrans.
    + intros d2 n2 _ Ha2 Hd2. cbn [default] in Hd2. rewrite str_app_empty_r in Hd2.
      change (EmptyString +:+ rest) with rest in Hd2.
      assert (adds (from_others foreign) d d2) as Ha3 by by etrans.
      apply wp_bind. unfold wp at 1, oracle. destruct (join_fault n2); [by apply wp_fail, He|].
      apply wp_bind, wp_map_err, wp_map_err, wp_sys.
      * intros e _. apply He. etrans; [exact Ha3|by apply (others_adds foreign)].
      * apply wp_ret. replace (0 + str_len rest) with (str_len rest) by lia.
        apply Ho; [by exists n|etrans; [exact Ha3|by apply (others_adds foreign)]|by apply others_keep].
Qed.

Lemma wp_drop_output (allowed : list Component → Node → Prop) file d n (Q : result unit AnyhowError → Disk → nat → Prop) :
  (∀ q node, foreign q → allowed q node) → part_place (components (ao_temporary file)) →
  (∀ d' n', adds allowed d d' → Q (Ok tt) d' n') → wp (drop_output file) d n Q.
Proof.
  intros Ha Hp HQ. apply wp_bind, wp_try, wp_map_err. eapply wp_mono; [by eapply within_remove_file|].
  intros r d' n' Hd. by apply wp_ret, HQ.
Qed.

Lemma wp_publish_blob file path hash d n (Q : result Z AnyhowError → Disk → nat → Prop) :
  exclusive_rename →
  part_place (components (ao_temporary file)) →
  d !! components (ao_temporary file) = Some (NFile EmptyString) →
  (∀ e d' n', adds (from_others foreign) d d' → Q (Err e) d' n') →
  (∀ data d' n', yielded hash data →
     (¬ part_place (components (ao_target file)) → d !! components (ao_target file) = None) →
     adds (may_publish foreign (ao_target file) (NFile data)) d d' →
     d' !! components (ao_target file) = Some (NFile data) → Q (Ok (str_len data)) d' n') →
  wp (publish_blob file path hash) d n Q.
Proof.
  intros Hexcl Hpart Hd He Ho. apply wp_bind, wp_try, wp_bind.
  assert (∀ e d1 n1, adds (from_others foreign) d d1 → wp (drop_output file;; fail e) d1 n1 Q) as Hdrop.
  { intros e d1 n1 Ha1. apply wp_bind. eapply (wp_drop_output (from_others foreign)); [done|done|].
    intros d2 n2 Ha2. apply wp_fail, He. by etrans. }
  apply wp_write_blob; [done|done|by intros; apply Hdrop|]. intros data d1 n1 Hy Ha1 Hd1.
  apply wp_bind, wp_map_err, wp_map_err, wp_map_err. eapply (wp_publish foreign); [done|done|exact Hd1| |].
  - intros e d2 n2 Ha2. cbn [result_map_err]. apply Hdrop. by etrans.
  - intros d2 n2 Hfree Ha2 Hd2. cbn [result_map_err]. apply wp_ret, wp_ret, Ho; [done| | |done].
    + intros Hname. destruct (d !! components (ao_target file)) as [x|] eqn:E; [|done].
      pose proof (adds_keeps _ _ _ _ _ Ha1 Hname E). congruence.
    + etrans; [|exact Ha2]. eapply adds_mono; [|exact Ha1]. by left.
Qed.


(** What a published file adds to the volume, beside what others add and new directories. *)
Definition published (target data : string) : list Component → Node → Prop :=
  λ q x, from_others_or_dirs foreign q x ∨ (q = components target ∧ x = NFile data).

(** The outcome of one export: nothing was published, or one whole file was. *)
Definition exported_or_not (local_id : option string) (output_dir path hash : string) (o : Outputs)
    (r : result unit AnyhowError) (o' : Outputs) : Prop :=
  (r ≠ Ok tt ∧ adds (from_others_or_dirs foreign) (o_disk o) (o_disk o')) ∨
  ∃ target data,
    safe_output_path output_dir path = Ok target ∧ yielded hash data ∧
    (¬ part_place (components target) → o_disk o !! components target = None) ∧
    adds (published target data) (o_disk o) (o_disk o') ∧
    o_disk o' !! components target = Some (NFile data) ∧
    (r = Ok tt → ∀ id, local_id = Some id → ∃ row,
       received_artifacts (o_history o') !! (id, path) = Some row ∧ a_locator row = target).

Lemma wp_record_artifact transfer path kind locator size o n (Q : result unit AnyhowError → Outputs → nat → Prop) :
  (∀ e n', Q (Err e) o n') →
  (∀ h n', (∀ id, rt_local_id transfer = Some id → ∃ row,
      received_artifacts h !! (id, path) = Some row ∧ a_locator row = locator) →
    Q (Ok tt) (set_o_history h o) n') →
  wp (record_artifact transfer path kind locator size) o n Q.
Proof.
  intros He Ho. assert (set_o_history (o_history o) o = o) as Eid by by destruct o.
  unfold record_artifact. destruct (rt_local_id transfer) as [id|].
  2: { apply wp_ret. rewrite <- Eid. by apply Ho. }
  apply wp_map_err, wp_zoom, wp_bind, wp_uuid_v4, wp_bind, wp_of_result.
  destruct (to_db_id _) as [pid|e]; [|rewrite Eid; apply He].
  apply wp_bind, wp_of_result. destruct (to_db_id _) as [bytes|e]; [|rewrite Eid; apply He].
  apply wp_bind, wp_now_ms. cbv zeta. apply wp_asql; [intros; rewrite Eid; apply He|].
  intros _ a h. destruct (received_artifacts (o_history o) !! _) as [old|]; [|destruct (exists_where _ _)];
    intros [= <- <-]; apply Ho; intros id' [= <-]; eexists; (split; [apply lookup_insert_eq|done]).
Qed.

Lemma wp_export_to_directory limits transfer output_dir path hash o n :
  exclusive_rename →
  wp (export_blob_to_directory limits transfer output_dir path hash) o n (λ r o' _,
    exported_or_not (rt_local_id transfer) output_dir path hash o r o').
Proof.
  intros Hexcl. unfold export_blob_to_directory. destruct (_ <? _); [apply wp_fail; by left|].
  apply wp_bind, wp_zoom, wp_map_err, (wp_create foreign); [by left|]. intros file d1 n1 Had1 Htarget Hpart Hd1.
  assert (∀ e d2, adds (from_others foreign) d1 d2 →
    exported_or_not (rt_local_id transfer) output_dir path hash o (Err e) (set_disk d2 (set_disk d1 o))) as Hnone.
  { intros e d2 Had2. left. split; [done|]. simpl. etrans; [exact Had1|]. eapply adds_mono; [|exact Had2]. by left. }
  apply wp_bind, wp_zoom, (wp_publish_blob); [done|done|done|by intros; apply Hnone|].
  intros data d2 n2 Hy Hfree Had2 Hd2. simpl.
  assert (¬ part_place (components (ao_target file)) → o_disk o !! components (ao_target file) = None) as Hfree'.
  { intros Hname. specialize (Hfree Hname). simpl in Hfree. destruct (Had1 _ Hname) as [<-|[? _]]; done. }
  assert (adds (published (ao_target file) data) (o_disk o) d2) as Had3.
  { etrans; [eapply adds_mono; [|exact Had1]; by left|]. eapply adds_mono; [|exact Had2].
    intros q x [?|?]; [by left; left|by right]. }
  apply wp_record_artifact.
  - intros e n3. right. exists (ao_target file), data. by split_and!.
  - intros h n3 Hart. right. exists (ao_target file), data. by split_and!.
Qed.

(** C8: a received file appears at its place whole, as the blob store yielded it, or not at
    all: whether the export succeeds, fails or is cancelled, and whichever system call fails, no
    other file of the volume changes, nothing that was there is replaced, and what appears under
    the name of the file is all of its content. A success is recorded in the history. This speaks
    of the places whose name is not that of a part: parts come and go, and stale ones are swept.
    It rests on other processes only adding files of their own ([VolumeLaws]), and on a file
    system that can rename without replacing, or refuses to ([exclusive_rename]): the last resort
    of the code, to look and then to rename, has a race. *)
Theorem export_is_atomic limits transfer output_dir path hash o n :
  exclusive_rename →
  wp (export_blob_to_directory limits transfer output_dir path hash) o n (λ r o' _,
    exported_or_not (rt_local_id transfer) output_dir path hash o r o').
Proof. apply wp_export_to_directory. Qed.

(** ** Collections *)

Lemma published_adds target data : ∀ q x, from_others_or_dirs foreign q x → published target data q x.
Proof. by left. Qed.

(** The places of a collection are free of names that stale parts have. *)
Definition plain_places (output_dir : string) (collection : list (string * string)) : Prop :=
  Forall (λ file, ∀ target, safe_output_path output_dir file.1 = Ok target → ¬ part_place (components target)) collection.

Definition at_place (output_dir : string) (file : string * string) : list Component :=
  match safe_output_path output_dir file.1 with Ok target => components target | Err _ => [] end.

(** A file of the collection was received. *)
Definition received (output_dir : string) (d : Disk) (file : string * string) : Prop :=
  ∃ target data, safe_output_path output_dir file.1 = Ok target ∧ yielded file.2 data ∧
    d !! components target = Some (NFile data).

Lemma wp_export_each limits transfer output_dir collection o n :
  exclusive_rename → plain_places output_dir collection →
  wp (for_each collection (export_file limits transfer (Directory output_dir))) o n (λ r o' _,
    (∀ q node, ¬ part_place q → o_disk o !! q = Some node → o_disk o' !! q = Some node) ∧
    (r = Ok tt → Forall (received output_dir (o_disk o')) collection ∧
       NoDup (at_place output_dir <$> collection) ∧
       Forall (λ file, o_disk o !! at_place output_dir file = None) collection)).
Proof.
  intros Hexcl. revert o n. induction collection as [|file collection IH]; intros o n Hnames.
  { apply wp_ret. split; [done|]. intros _. split_and!; constructor. }
  inversion Hnames as [|? ? Hname Hnames']; subst. apply wp_bind.
  eapply wp_mono; [by apply wp_export_to_directory|]. intros r o1 n1 Hout.
  assert (∀ q node, ¬ part_place q → o_disk o !! q = Some node → o_disk o1 !! q = Some node) as Hkeep.
  { intros q node Hq Hd. destruct Hout as [[_ Had]|(target & data & _ & _ & _ & Had & _)]; by eapply adds_keeps. }
  destruct r as [[]|e]; [|done]. destruct Hout as [[? _]|(target & data & Ht & Hy & Hfree & _ & Hd1 & _)]; [done|].
  specialize (Hname target Ht). specialize (Hfree Hname).
  eapply wp_mono; [by apply IH|]. intros r o2 n2 [Hkeep2 Hok]. split; [auto|]. intros ->.
  destruct (Hok eq_refl) as (Hrec & Hdup & Hfrees).
  assert (at_place output_dir file = components target) as Eplace by (unfold at_place; by rewrite Ht).
  split_and!; simpl.
  - constructor; [|done]. exists target, data. split_and!; [done..|]. by apply Hkeep2.
  - constructor; [|done]. intros Hin. apply list_elem_of_fmap in Hin as (file' & Ef & Hin).
    rewrite Forall_forall in Hfrees. specialize (Hfrees file' Hin). rewrite <- Ef, Eplace in Hfrees. congruence.
  - constructor; [by rewrite Eplace|]. rewrite Forall_forall in Hfrees, Hnames' |- *. intros file' Hin.
    specialize (Hfrees file' Hin). destruct (o_disk o !! at_place output_dir file') as [node|] eqn:E; [|done].
    unfold at_place in *. destruct (safe_output_path output_dir file'.1) as [t'|] eqn:Et.
    + rewrite (Hkeep _ node) in Hfrees; [done|by eapply Hnames'|done].
    + rewrite (Hkeep _ node) in Hfrees; [done| |done]. by intros (x & Hx & _).
Qed.

(** When a collection was received into a directory, every file of it is there
    under its name with the content that the blob store yielded, at a place that was free, no
    two files at one place, and nothing that was on the volume was replaced. In particular a
    collection in which two names denote one place is never received. *)
Theorem collection_received limits transfer_id output_dir collection o n :
  exclusive_rename → plain_places output_dir collection →
  wp (export_collection limits transfer_id (Directory output_dir) collection) o n (λ r o' _,
    (∀ q node, ¬ part_place q → o_disk o !! q = Some node → o_disk o' !! q = Some node) ∧
    (r = Ok tt → Forall (received output_dir (o_disk o')) collection ∧
       NoDup (at_place output_dir <$> collection) ∧
       Forall (λ file, o_disk o !! at_place output_dir file = None) collection)).
Proof.
  intros Hexcl Hnames. apply wp_bind, wp_map_err, wp_zoom, wp_any. intros [id|e] h n1; [|done].
  eapply wp_mono; [by apply wp_export_each|]. done.
Qed.
End ExportSpec.

(** ** Sinks *)

(** The callbacks for one file: it is started; unless that is refused, chunks follow and then
    exactly one terminal callback. *)
Inductive session (path : string) : list SinkCall → Prop :=
| session_refused : session path [StartFile path]
| session_ended chunks last :
    last = FinishFile path ∨ (∃ why, last = AbortFile path why) →
    session path (StartFile path :: (WriteChunk path <$> chunks) ++ [last]).

(** The callbacks that brought all of [data]. *)
Definition finished_session (path data : string) (calls : list SinkCall) : Prop :=
  ∃ chunks, calls = StartFile path :: (WriteChunk path <$> chunks) ++ [FinishFile path] ∧
    data = String.concat "" chunks.

Lemma concat_cons s l : String.concat "" (s :: l) = s +:+ String.concat "" l.
Proof. destruct l; [by rewrite str_app_empty_r | done]. Qed.

Section SinkSpec.
Context `{Env} `{ForeignText} `{Volume} `{Exports}.

Lemma called_back_calls call o : o_calls (called_back call o) = o_calls o ++ [call].
Proof. done. Qed.

(** The volume and the history stay as they are; callbacks are added. *)
Definition only_calls (o o' : Outputs) : Prop := o_disk o' = o_disk o ∧ o_history o' = o_history o.

Lemma wp_sink_loop path items exported o n (Q : result Z AnyhowError → Outputs → nat → Prop) :
  (∀ e o' n' chunks, only_calls o o' → o_calls o' = o_calls o ++ (WriteChunk path <$> chunks) → Q (Err e) o' n') →
  (∀ o' n' chunks, only_calls o o' → o_calls o' = o_calls o ++ (WriteChunk path <$> chunks) →
     whole exported items = Some (String.concat "" chunks) →
     Q (Ok (exported + str_len (String.concat "" chunks))) o' n') →
  wp (sink_loop path items exported) o n Q.
Proof.
  revert exported o n. induction items as [|[size|off bytes|text|] items IH]; intros exported o n He Ho; simpl.
  - apply wp_ret. replace exported with (exported + str_len (String.concat "" [])) by (unfold str_len; simpl; lia).
    apply Ho; [done| |done]. simpl. by rewrite app_nil_r.
  - by apply IH.
  - destruct (Z.eqb_spec off exported) as [->|]; simpl;
      [|apply wp_fail; apply (He _ o n []); [done|by simpl; rewrite app_nil_r]].
    apply wp_bind. unfold wp at 1, sink_call.
    assert (∀ e, Q (Err e) (called_back (WriteChunk path bytes) o) (S n)) as Hrefused.
    { intros e. by apply (He _ _ _ [bytes]). }
    destruct (sink_fault n); [apply Hrefused|]. apply IH.
    + intros e o' n' chunks Hc Ec. apply (He _ _ _ (bytes :: chunks)); [done|].
      rewrite Ec, called_back_calls. by rewrite <- app_assoc.
    + intros o' n' chunks Hc Ec Hw.
      replace (exported + str_len bytes + str_len (String.concat "" chunks)) with
        (exported + str_len (String.concat "" (bytes :: chunks)))
        by (rewrite concat_cons; unfold str_len; rewrite str_length_app; lia).
      apply Ho; [done| |].
      * rewrite Ec, called_back_calls. by rewrite <- app_assoc.
      * cbn [whole]. by rewrite Z.eqb_refl, Hw, concat_cons.
  - apply wp_fail. apply (He _ _ _ []); [done|by simpl; rewrite app_nil_r].
  - apply wp_fail. apply (He _ _ _ []); [done|by simpl; rewrite app_nil_r].
Qed.

Lemma wp_write_to_sink limits path hash o n (Q : result (string * Z) AnyhowError → Outputs → nat → Prop) :
  (∀ e o' n' calls, only_calls o o' → o_calls o' = o_calls o ++ calls →
     (calls = [] ∨ ∃ p, validated_relative_string path = Ok p ∧ session p calls) → Q (Err e) o' n') →
  (∀ p data o' n' calls, only_calls o o' → o_calls o' = o_calls o ++ calls →
     validated_relative_string path = Ok p → finished_session p data calls → yielded hash data →
     Q (Ok (p, str_len data)) o' n') →
  wp (write_to_sink limits path hash) o n Q.
Proof.
  intros He Ho.
  assert (∀ e n', Q (Err e) o n') as Hnone.
  { intros e n'. apply (He _ _ _ []); [done|by rewrite app_nil_r|by left]. }
  unfold write_to_sink. destruct (_ <? _); [by apply wp_fail|].
  apply wp_bind, wp_of_result. destruct (validated_relative_string path) as [p|e] eqn:Ep; [|apply Hnone].
  apply wp_bind. unfold with_sink_file. apply wp_bind. unfold wp at 1, sink_call.
  destruct (sink_fault n).
  { apply (He _ _ _ [StartFile p]); [done..|]. right. exists p. split; [done|constructor]. }
  set (o1 := called_back (StartFile p) o). apply wp_bind, wp_try, wp_bind. unfold wp at 1, oracle.
  apply wp_sink_loop.
  - intros e o2 n2 chunks Hc Ec. apply wp_bind, wp_try. unfold wp at 1, sink_call. apply wp_fail.
    eapply (He _ _ _ (StartFile p :: (WriteChunk p <$> chunks) ++ [_])); [done| |].
    + rewrite called_back_calls, Ec. unfold o1. rewrite called_back_calls. by rewrite <- !app_assoc.
    + right. exists p. split; [done|]. constructor. right. by eexists.
  - intros o2 n2 chunks Hc Ec Hw. apply wp_bind. unfold wp at 1, sink_call.
    assert (o_calls (called_back (FinishFile p) o2) =
      o_calls o ++ StartFile p :: (WriteChunk p <$> chunks) ++ [FinishFile p]) as Ecalls.
    { rewrite called_back_calls, Ec. unfold o1. rewrite called_back_calls. by rewrite <- !app_assoc. }
    destruct (sink_fault n2).
    + eapply He; [done|exact Ecalls|]. right. exists p. split; [done|]. constructor. by left.
    + apply wp_ret, wp_ret. replace (0 + str_len (String.concat "" chunks)) with
        (str_len (String.concat "" chunks)) by lia. eapply Ho; [done|exact Ecalls|done| |by eexists].
      by exists chunks.
Qed.

(** A sink of the user interface is called back in sessions: a file is started, written
    in chunks and ended by exactly one terminal callback, even if the sink fails, the store fails
    or the receive is cancelled; only a refused start has none. If the export succeeds the file
    was finished with all of its content. Nothing else changes but the record of the artifact. *)
Theorem sink_calls_in_sessions limits transfer target file o n :
  target = OutputSink ∨ target = OutputSinkV2 →
  wp (export_file limits transfer target file) o n (λ r o' _,
    o_disk o' = o_disk o ∧
    ∃ calls, o_calls o' = o_calls o ++ calls ∧
      (calls = [] ∨ ∃ p, validated_relative_string file.1 = Ok p ∧ session p calls) ∧
      (r = Ok tt → ∃ p data, validated_relative_string file.1 = Ok p ∧ finished_session p data calls ∧
         yielded file.2 data)).
Proof.
  assert (∀ p data calls, finished_session p data calls → session p calls) as Hsession.
  { intros p data calls (chunks & -> & _). constructor. by left. }
  intros [-> | ->]; simpl; apply wp_bind, wp_write_to_sink.
  - intros e o' n' calls [Ed _] Ec Hs. split; [done|]. by exists calls.
  - intros p data o' n' calls [Ed _] Ec Hp Hf Hy. apply wp_ret. split; [done|]. exists calls.
    split_and!; [done|right; eauto|eauto].
  - intros e o' n' calls [Ed _] Ec Hs. split; [done|]. by exists calls.
  - intros p data o' n' calls [Ed _] Ec Hp Hf Hy. apply wp_bind. unfold wp at 1, oracle.
    apply wp_record_artifact.
    + intros e n1. split; [done|]. exists calls. split_and!; [done|right; eauto|done].
    + intros h n1 _. split; [done|]. exists calls. split_and!; [done|right; eauto|eauto].
Qed.
End SinkSpec.

(** ** Concrete runs *)

Section Witnesses.
#[local] Instance output_env : Env := quiet_env 1000 (λ n, pretty n).
#[local] Instance output_text : ForeignText := demo_text.

(** A volume of this process alone, on which hard links are refused. *)
#[local] Instance calm_volume : Volume := {|
  others := λ _ d, d;
  sys_fault := λ _ call, match call with HardLink => Some (os_error EPERM) | _ => None end;
  canonical := λ _ path, path;
  entries := λ _ _, [];
  part_uuid := λ _, "u"%string
|}.
#[local] Instance calm_laws : VolumeLaws (λ _, False).
Proof.
  split; simpl; [done|by intros ???? -> | by intros ???? ?%not_elem_of_nil |].
  intros _. apply (bool_decide_unpack _). by vm_compute.
Qed.
#[local] Instance small_exports : Exports := {|
  export_items := λ _ _, [ISize 5; IData 0 "hel"; IData 3 "lo"];
  writer_gone := λ _, false;
  join_fault := λ _, None;
  sink_fault := λ _, None;
  published_output := λ _ path, (AndroidMediaStore, "content://" +:+ path)
|}%string.

Lemma calm_exclusive : exclusive_rename.
Proof. by intros n e [=]. Qed.

Example no_outputs : Outputs := {| o_disk := ∅; o_history := empty_history; o_calls := [] |}.
Example one_transfer : ReceivedTransfer := {| rt_protocol_id := 7; rt_local_id := Some "t"%string |}.

Lemma export_is_atomic_witness :
  (run (export_blob_to_directory default_core_limits one_transfer "/in" "docs//a.txt" "h") no_outputs).1 = Ok tt ∧
  exported_or_not (λ _, False) (Some "t"%string) "/in" "docs//a.txt" "h" no_outputs
    (run (export_blob_to_directory default_core_limits one_transfer "/in" "docs//a.txt" "h") no_outputs).1
    (run (export_blob_to_directory default_core_limits one_transfer "/in" "docs//a.txt" "h") no_outputs).2.
Proof.
  split; [by vm_compute|]. apply (run_wp _ _ (λ r o', exported_or_not _ _ _ _ _ _ r o')).
  apply (export_is_atomic (λ _, False) default_core_limits one_transfer). exact calm_exclusive.
Defined.

(** Two files, and a collection whose second name denotes the place of the first. *)
Example two_files : list (string * string) := [("docs/a.txt", "h"); ("docs/b.txt", "i")]%string.

Lemma two_files_plain : plain_places "/in" two_files.
Proof.
  repeat constructor; intros target [= <-] (name & Hl & Hp); vm_compute in Hl; injection Hl as <-; by vm_compute in Hp.
Qed.

Example outputs_of_known : Outputs := {|
  o_disk := {[components "/in/old" := NFile "kept"]};
  o_history := {| transfers := {[5 := new_transfer_row demo_upsert "receive" "receiving" "t" 0]};
    received_artifacts := ∅; transfer_events := ∅; receiver_requests := ∅; pending_delivery_receipts := ∅ |};
  o_calls := [] |}%string.

Lemma collection_received_witness :
  (run (export_collection default_core_limits 5 (Directory "/in") two_files) outputs_of_known).1 = Ok tt ∧
  Forall (received "/in" (o_disk (run (export_collection default_core_limits 5 (Directory "/in") two_files)
    outputs_of_known).2)) two_files.
Proof.
  assert ((run (export_collection default_core_limits 5 (Directory "/in") two_files) outputs_of_known).1 = Ok tt)
    as E by by vm_compute.
  split; [exact E|].
  apply (run_wp _ _ (λ r o', (∀ q node, ¬ part_place q → o_disk outputs_of_known !! q = Some node →
      o_disk o' !! q = Some node) ∧ (r = Ok tt → Forall (received "/in" (o_disk o')) two_files ∧
      NoDup (at_place "/in" <$> two_files) ∧
      Forall (λ file, o_disk outputs_of_known !! at_place "/in" file = None) two_files))
    (collection_received (λ _, False) default_core_limits 5 "/in" two_files outputs_of_known 0
      calm_exclusive two_files_plain)).
  exact E.
Defined.

Lemma sink_calls_in_sessions_witness :
  (run (export_file default_core_limits one_transfer OutputSinkV2 ("docs/a.txt", "h")) no_outputs).1 = Ok tt ∧
  o_disk (run (export_file default_core_limits one_transfer OutputSinkV2 ("docs/a.txt", "h")) no_outputs).2 = ∅ ∧
  o_calls (run (export_file default_core_limits one_transfer OutputSinkV2 ("docs/a.txt", "h")) no_outputs).2 =
    [StartFile "docs/a.txt"; WriteChunk "docs/a.txt" "hel"; WriteChunk "docs/a.txt" "lo"; FinishFile "docs/a.txt"].
Proof.
  split; [by vm_compute|]. split; [|by vm_compute].
  apply (run_wp _ no_outputs (λ r o', o_disk o' = o_disk no_outputs ∧
    ∃ calls, o_calls o' = o_calls no_outputs ++ calls ∧
      (calls = [] ∨ ∃ p, validated_relative_string "docs/a.txt" = Ok p ∧ session p calls) ∧
      (r = Ok tt → ∃ p data, validated_relative_string "docs/a.txt" = Ok p ∧ finished_session p data calls ∧
         yielded "h" data))
    (sink_calls_in_sessions default_core_limits one_transfer OutputSinkV2 ("docs/a.txt", "h")%string no_outputs 0
      (or_intror eq_refl))).
Defined.
End Witnesses.
