(* ===== verification/TargetedPreparation.v ===== *)
(** * [runtime/targeted_preparation.rs]

    The object a user interface holds while a targeted transfer is prepared. Its [send] and
    [stop] may be called from any thread, any number of times; a mutex guards the phase and a
    condition variable wakes the stops that wait. A call advances one critical section at a
    time, and a waiting stop may also wake up spuriously. Every call is shown to return, and
    all stops to agree. *)

From S2P Require Import Prelude Sql Errors States Api Ticket TargetedStore Access Inbox SecureSecret Relationship Pairing Devices Core Authorization TargetedModule.

(** ** The gate *)

Inductive PreparationPhase : Type :=
| PReady
| PPreparing
| StopRequested
| Registering
| Registered (id : string)
| Stopping
| Stopped
| PFailed
| Finished (outcome : TargetedPreparationStopOutcome).

#[global] Instance TargetedPreparationStopOutcome_eq_dec :
  EqDecision TargetedPreparationStopOutcome.
Proof. solve_decision. Defined.
#[global] Instance PreparationPhase_eq_dec : EqDecision PreparationPhase.
Proof. solve_decision. Defined.

Definition send_only_once `{ForeignText} : VnidropError :=
  invalid_input (anyhow_msg "targeted preparation can send only once").

(** [start]: the new phase and what the caller gets. *)
Definition start `{ForeignText} (phase : PreparationPhase) : PreparationPhase * result unit VnidropError :=
  match phase with
  | PReady => (PPreparing, Ok tt)
  | _ => (phase, Err send_only_once)
  end.

(** [begin_registration]; [None] where its [debug_assert!] fails. *)
Definition begin_registration (phase : PreparationPhase) : option (PreparationPhase * bool) :=
  match phase with
  | StopRequested => Some (phase, false)
  | PPreparing => Some (Registering, true)
  | _ => None
  end.

(** [registered]; likewise. *)
Definition registered (id : string) (phase : PreparationPhase) : option PreparationPhase :=
  match phase with
  | Registering => Some (Registered id)
  | _ => None
  end.

Definition failed (phase : PreparationPhase) : PreparationPhase :=
  match phase with
  | StopRequested => Finished PreparationStopped
  | _ => PFailed
  end.

(** One turn of the loop of [stop_target]: it returns, or waits for [changed]. *)
Inductive StopTurn : Type :=
| TurnReturns (target : result (option string) TargetedPreparationStopOutcome)
| TurnWaits.

Definition stop_target (phase : PreparationPhase) : PreparationPhase * StopTurn :=
  match phase with
  | PReady => (Stopped, TurnReturns (Err PreparationStopped))
  | PPreparing => (StopRequested, TurnWaits)
  | StopRequested => (phase, TurnWaits)
  | Registering => (phase, TurnWaits)
  | Registered id => (Stopping, TurnReturns (Ok (Some id)))
  | Stopping => (phase, TurnWaits)
  | Stopped | PFailed => (phase, TurnReturns (Err PreparationStopped))
  | Finished outcome => (phase, TurnReturns (Err outcome))
  end.

(** ** The calls

    Where a call of [send] or [stop] stands between two accesses to what they share. *)
Inductive PreparationCall : Type :=
| SendCalled
| SendStarted
| SendPreparing
| SendImported
| SendRegistering
| SendPrepared (prepared : result string VnidropError)
| SendCounted (prepared : result string VnidropError)
| SendSpawned (id : string)
| SendReturned (sent : result string VnidropError)
| StopCalled
| StopWaiting
| StopRunning (id : string)
| StopNotifying (stopped : result TargetedPreparationStopOutcome VnidropError)
| StopReturned (stopped : result TargetedPreparationStopOutcome VnidropError).

(** The phase, [active_targeted_preparations], and the negotiations that were spawned. *)
Record TargetedTransferPreparation : Type := {
  tp_phase : PreparationPhase;
  tp_active : Z;
  tp_negotiations : list string
}.

Definition new_preparation : TargetedTransferPreparation :=
  {| tp_phase := PReady; tp_active := 0; tp_negotiations := [] |}.

Definition in_phase (phase : PreparationPhase) (g : TargetedTransferPreparation) :
    TargetedTransferPreparation :=
  {| tp_phase := phase; tp_active := tp_active g; tp_negotiations := tp_negotiations g |}.
Definition count_active (d : Z) (g : TargetedTransferPreparation) : TargetedTransferPreparation :=
  {| tp_phase := tp_phase g; tp_active := tp_active g + d; tp_negotiations := tp_negotiations g |}.
Definition negotiate (id : string) (g : TargetedTransferPreparation) : TargetedTransferPreparation :=
  {| tp_phase := tp_phase g; tp_active := tp_active g;
     tp_negotiations := id :: tp_negotiations g |}.

(** What a stop does after its turn in [stop_target]. *)
Definition after_turn (turn : StopTurn) : option PreparationCall :=
  match turn with
  | TurnWaits => Some StopWaiting
  | TurnReturns (Ok (Some id)) => Some (StopRunning id)
  | TurnReturns (Ok None) => None
  | TurnReturns (Err outcome) => Some (StopReturned (Ok outcome))
  end.

(** One step of one call: [advance g call g' call' notifies]. What [prepare_targeted_transfer]
    and [stop_targeted_preparation] come to is not decided here: a preparation fails before or
    after it passed the gate, or registers an identifier. A stop of a registered transfer never
    answers [PreparationStopped] ([stop_preparation_outcome]). *)
Inductive advance `{ForeignText} (g : TargetedTransferPreparation) :
    PreparationCall → TargetedTransferPreparation → PreparationCall → bool → Prop :=
| send_starts phase :
    start (tp_phase g) = (phase, Ok tt) →
    advance g SendCalled (in_phase phase g) SendStarted false
| send_is_refused phase e :
    start (tp_phase g) = (phase, Err e) →
    advance g SendCalled (in_phase phase g) (SendReturned (Err e)) false
| send_counts_in :
    advance g SendStarted (count_active 1 g) SendPreparing false
| import_fails e :
    advance g SendPreparing g (SendPrepared (Err e)) false
| import_ends :
    advance g SendPreparing g SendImported false
| gate_opens phase :
    begin_registration (tp_phase g) = Some (phase, true) →
    advance g SendImported (in_phase phase g) SendRegistering false
| gate_is_shut phase e :
    begin_registration (tp_phase g) = Some (phase, false) →
    advance g SendImported (in_phase phase g) (SendPrepared (Err e)) false
| registration_ends prepared :
    advance g SendRegistering g (SendPrepared prepared) false
| send_counts_out prepared :
    advance g (SendPrepared prepared) (count_active (-1) g) (SendCounted prepared) false
| send_fails e :
    advance g (SendCounted (Err e)) (in_phase (failed (tp_phase g)) g) (SendReturned (Err e)) true
| send_spawns id :
    advance g (SendCounted (Ok id)) (negotiate id g) (SendSpawned id) false
| send_registers id phase :
    registered id (tp_phase g) = Some phase →
    advance g (SendSpawned id) (in_phase phase g) (SendReturned (Ok id)) true
| stop_turns phase turn call' :
    stop_target (tp_phase g) = (phase, turn) → after_turn turn = Some call' →
    advance g StopCalled (in_phase phase g) call' false
| stop_finishes id outcome :
    outcome ≠ PreparationStopped →
    advance g (StopRunning id) (in_phase (Finished outcome) g) (StopNotifying (Ok outcome)) false
| stop_fails id e :
    advance g (StopRunning id) (in_phase (Registered id) g) (StopNotifying (Err e)) false
| stop_notifies stopped :
    advance g (StopNotifying stopped) g (StopReturned stopped) true.

(** [changed.notify_all()]: what waits takes another turn. *)
Definition wake (call : PreparationCall) : PreparationCall :=
  match call with StopWaiting => StopCalled | _ => call end.

Definition notified (notifies : bool) (calls : list PreparationCall) : list PreparationCall :=
  if notifies then map wake calls else calls.

(** A step of the preparation with all calls on it; [true] marks a spurious wake-up. *)
Inductive prep_step `{ForeignText} : bool →
    TargetedTransferPreparation * list PreparationCall →
    TargetedTransferPreparation * list PreparationCall → Prop :=
| call_advances g calls i call g' call' notifies :
    calls !! i = Some call → advance g call g' call' notifies →
    prep_step false (g, calls) (g', notified notifies (<[i := call']> calls))
| wakes_spuriously g calls i :
    calls !! i = Some StopWaiting → prep_step true (g, calls) (g, <[i := StopCalled]> calls).

(** Runs, with how many steps are the program's and how many are spurious wake-ups. *)
Inductive prep_steps `{ForeignText} (s : TargetedTransferPreparation * list PreparationCall) :
    nat → nat → TargetedTransferPreparation * list PreparationCall → Prop :=
| steps_none : prep_steps s 0 0 s
| steps_more m w s1 spurious s2 :
    prep_steps s m w s1 → prep_step spurious s1 s2 →
    prep_steps s (if spurious then m else S m) (if spurious then S w else w) s2.

Definition called (call : PreparationCall) : bool :=
  match call with SendCalled | StopCalled => true | _ => false end.
Definition returned (call : PreparationCall) : bool :=
  match call with SendReturned _ | StopReturned _ => true | _ => false end.

(** ** Counting calls *)

Fixpoint count (f : PreparationCall → bool) (calls : list PreparationCall) : nat :=
  match calls with [] => 0 | c :: calls => Nat.b2n (f c) + count f calls end.

Lemma count_insert f calls i c c' :
  calls !! i = Some c →
  (count f (<[i := c']> calls) + Nat.b2n (f c) = count f calls + Nat.b2n (f c'))%nat.
Proof.
  revert i. induction calls as [|d calls IH]; intros [|i] Hi; simplify_eq/=; [lia|].
  specialize (IH i Hi). lia.
Qed.

Lemma count_pos f calls i c :
  calls !! i = Some c → f c = true → (0 < count f calls)%nat.
Proof.
  revert i. induction calls as [|d calls IH]; intros [|i] Hi Hc; simplify_eq/=; [rewrite Hc; simpl; lia|].
  specialize (IH i Hi Hc). lia.
Qed.

Lemma count_exists f calls :
  (0 < count f calls)%nat → ∃ i c, calls !! i = Some c ∧ f c = true.
Proof.
  induction calls as [|d calls IH]; simpl; [lia|]. intros Hpos.
  destruct (f d) eqn:Hd; [by exists O, d|].
  destruct IH as (i & c & Hi & Hc); [simpl in Hpos; lia|]. by exists (S i), c.
Qed.

Lemma count_unique f calls i j c d :
  (count f calls ≤ 1)%nat → calls !! i = Some c → calls !! j = Some d → i ≠ j →
  f c = true → f d = true → False.
Proof.
  revert i j. induction calls as [|e calls IH]; intros [|i] [|j] Hle Hi Hj Hne Hc Hd; simplify_eq/=.
  - pose proof (count_pos f calls j d Hj Hd). rewrite Hc in Hle. simpl in Hle. lia.
  - pose proof (count_pos f calls i c Hi Hc). rewrite Hd in Hle. simpl in Hle. lia.
  - apply (IH i j); [lia|done..|congruence|done|done].
Qed.

Lemma count_wake f calls :
  f StopWaiting = f StopCalled → count f (map wake calls) = count f calls.
Proof. intros Hf. induction calls as [|[]]; simpl; congruence. Qed.

Lemma count_notified f notifies calls :
  f StopWaiting = f StopCalled → count f (notified notifies calls) = count f calls.
Proof. intros Hf. destruct notifies; [by apply count_wake | done]. Qed.

(** ** What holds between steps *)

(** A send that passed [start] and still owes a notification. *)
Definition busy (call : PreparationCall) : bool :=
  match call with
  | SendStarted | SendPreparing | SendImported | SendRegistering | SendPrepared _ | SendCounted _
  | SendSpawned _ => true
  | _ => false
  end.
Definition stopping (call : PreparationCall) : bool :=
  match call with StopRunning _ => true | _ => false end.
Definition notifying (call : PreparationCall) : bool :=
  match call with StopNotifying _ => true | _ => false end.
(** What [active_targeted_preparations] counts. *)
Definition counted (call : PreparationCall) : bool :=
  match call with SendPreparing | SendImported | SendRegistering | SendPrepared _ => true | _ => false end.

(** A send whose transfer negotiates. *)
Definition negotiating (call : PreparationCall) : bool :=
  match call with SendSpawned _ | SendReturned (Ok _) => true | _ => false end.

Definition sending_phase (phase : PreparationPhase) : bool :=
  match phase with PPreparing | StopRequested | Registering => true | _ => false end.
Definition stopping_phase (phase : PreparationPhase) : bool :=
  match phase with Stopping => true | _ => false end.

(** What a preparation that has come to its end tells every stop. *)
Definition verdict (phase : PreparationPhase) : option TargetedPreparationStopOutcome :=
  match phase with
  | Stopped | PFailed => Some PreparationStopped
  | Finished outcome => Some outcome
  | _ => None
  end.

(** A call agrees with the phase and with the negotiations. *)
Definition fits (phase : PreparationPhase) (ids : list string) (call : PreparationCall) : Prop :=
  match call with
  | SendStarted | SendPreparing | SendImported => (phase = PPreparing ∨ phase = StopRequested) ∧ ids = []
  | SendRegistering | SendPrepared (Ok _) | SendCounted (Ok _) => phase = Registering ∧ ids = []
  | SendPrepared (Err _) | SendCounted (Err _) => sending_phase phase = true ∧ ids = []
  | SendSpawned id => phase = Registering ∧ ids = [id]
  | SendReturned (Ok id) => sending_phase phase = false ∧ ids = [id]
  | StopRunning id => phase = Stopping ∧ ids = [id]
  | StopNotifying (Ok outcome) | StopReturned (Ok outcome) => verdict phase = Some outcome
  | _ => True
  end.

Definition phase_fits (phase : PreparationPhase) (ids : list string) : Prop :=
  match phase with
  | PReady | PPreparing | StopRequested | Stopped | PFailed => ids = []
  | Registering => (length ids ≤ 1)%nat
  | Registered id => ids = [id]
  | Stopping => length ids = 1%nat
  | Finished outcome => length ids = (if bool_decide (outcome = PreparationStopped) then 0%nat else 1%nat)
  end.

Record consistent (s : TargetedTransferPreparation * list PreparationCall) : Prop := {
  calls_fit i call : s.2 !! i = Some call → fits (tp_phase s.1) (tp_negotiations s.1) call;
  phase_is_fit : phase_fits (tp_phase s.1) (tp_negotiations s.1);
  one_sends : count busy s.2 = Nat.b2n (sending_phase (tp_phase s.1));
  one_stops : count stopping s.2 = Nat.b2n (stopping_phase (tp_phase s.1));
  active_counts : tp_active s.1 = Z.of_nat (count counted s.2);
  sent_counts : length (tp_negotiations s.1) = count negotiating s.2;
  waits_are_served i :
    s.2 !! i = Some StopWaiting →
    sending_phase (tp_phase s.1) = true ∨ stopping_phase (tp_phase s.1) = true ∨
    (0 < count notifying s.2)%nat
}.

Section Gate.
Context `{ForeignText}.

(** Cases of a step, with the operations of the gate evaluated. *)
Ltac step_cases :=
  repeat match goal with
  | H : start _ = _ |- _ => unfold start in H
  | H : begin_registration _ = _ |- _ => unfold begin_registration in H
  | H : registered _ _ = _ |- _ => unfold registered in H
  | H : stop_target _ = _ |- _ => unfold stop_target in H
  | H : after_turn _ = _ |- _ => unfold after_turn in H
  end.

(** Where a step leads. *)
Lemma advance_fits g c g' c' b :
  advance g c g' c' b →
  fits (tp_phase g) (tp_negotiations g) c → phase_fits (tp_phase g) (tp_negotiations g) →
  fits (tp_phase g') (tp_negotiations g') c' ∧ phase_fits (tp_phase g') (tp_negotiations g').
Proof.
  destruct g as [phase active ids]. intros Hadv. inversion Hadv; subst; simpl in *; intros Hfit Hphase;
    step_cases; try (destruct prepared); try (destruct stopped);
    destruct phase; simplify_eq/=; destruct_and?; destruct_or?; simplify_eq/=;
    try rewrite bool_decide_eq_false_2 by done; auto.
  all: try (rewrite bool_decide_eq_true_2 by done; auto).
Qed.

(** Every other call still fits there. *)
Lemma advance_frame g c g' c' b d :
  advance g c g' c' b →
  fits (tp_phase g) (tp_negotiations g) c → phase_fits (tp_phase g) (tp_negotiations g) →
  (busy c = true → busy d = true → False) → (stopping c = true → stopping d = true → False) →
  fits (tp_phase g) (tp_negotiations g) d → fits (tp_phase g') (tp_negotiations g') d.
Proof.
  destruct g as [phase active ids]. intros Hadv. inversion Hadv; subst; simpl in *;
    intros Hfit Hphase Hbusy Hstop;
    step_cases;
    destruct phase; simplify_eq/=; destruct_and?; destruct_or?; simplify_eq/=;
    try (destruct d as [| | | | |[]|[]| |[]| | | |[]|[]]; simpl in *; naive_solver).
Qed.

(** Who is in the middle of what, by the phase. *)
Lemma advance_counts g c g' c' b :
  advance g c g' c' b → fits (tp_phase g) (tp_negotiations g) c →
  Z.of_nat (Nat.b2n (busy c')) - Z.of_nat (Nat.b2n (busy c)) =
    Z.of_nat (Nat.b2n (sending_phase (tp_phase g'))) - Z.of_nat (Nat.b2n (sending_phase (tp_phase g))) ∧
  Z.of_nat (Nat.b2n (stopping c')) - Z.of_nat (Nat.b2n (stopping c)) =
    Z.of_nat (Nat.b2n (stopping_phase (tp_phase g'))) - Z.of_nat (Nat.b2n (stopping_phase (tp_phase g))) ∧
  tp_active g' - tp_active g = Z.of_nat (Nat.b2n (counted c')) - Z.of_nat (Nat.b2n (counted c)) ∧
  Z.of_nat (length (tp_negotiations g')) - Z.of_nat (length (tp_negotiations g)) =
    Z.of_nat (Nat.b2n (negotiating c')) - Z.of_nat (Nat.b2n (negotiating c)).
Proof.
  destruct g as [phase active ids]. intros Hadv. inversion Hadv; subst; simpl in *; intros Hfit;
    step_cases; try (destruct prepared); try (destruct stopped);
    destruct phase; simplify_eq/=; destruct_and?; destruct_or?; simplify_eq/=; lia.
Qed.

(** A step that ends what stops wait for notifies them, or is about to. *)
Lemma advance_serves g c g' c' b :
  advance g c g' c' b → fits (tp_phase g) (tp_negotiations g) c →
  (c' = StopWaiting → sending_phase (tp_phase g') = true ∨ stopping_phase (tp_phase g') = true) ∧
  (b = true ∨ notifying c' = true ∨
   ((sending_phase (tp_phase g) = true → sending_phase (tp_phase g') = true) ∧
    (stopping_phase (tp_phase g) = true → stopping_phase (tp_phase g') = true) ∧
    notifying c = false)).
Proof.
  destruct g as [phase active ids]. intros Hadv. inversion Hadv; subst; simpl in *; intros Hfit;
    step_cases; try (destruct prepared); try (destruct stopped);
    destruct phase; simplify_eq/=; destruct_and?; destruct_or?; simplify_eq/=; naive_solver.
Qed.

Lemma advance_notifies g c g' c' b :
  advance g c g' c' b → notifying c' = true → notifying c = false.
Proof. by destruct 1. Qed.

Lemma lookup_notified notifies calls i d :
  notified notifies calls !! i = Some d →
  ∃ d0, calls !! i = Some d0 ∧ (d = d0 ∨ d = wake d0) ∧ (d = StopWaiting → notifies = false).
Proof.
  destruct notifies; simpl.
  - rewrite list_lookup_fmap. intros (d0 & -> & Hd)%fmap_Some. exists d0.
    split_and!; [done|by right|]. intros ->. by destruct d0.
  - intros Hd. exists d. auto.
Qed.

Lemma fits_wake phase ids d : fits phase ids d → fits phase ids (wake d).
Proof. by destruct d. Qed.

Lemma b2n_le_1 b : (Nat.b2n b ≤ 1)%nat.
Proof. destruct b; simpl; lia. Qed.

Lemma call_advances_consistent g calls i c g' c' b :
  calls !! i = Some c → advance g c g' c' b → consistent (g, calls) →
  consistent (g', notified b (<[i := c']> calls)).
Proof.
  intros Hi Hadv [Hfits Hphase Hsend Hstop Hactive Hsent Hwaits]. simpl in *.
  pose proof (Hfits i c Hi) as Hc.
  destruct (advance_fits _ _ _ _ _ Hadv Hc Hphase) as [Hc' Hphase'].
  destruct (advance_counts _ _ _ _ _ Hadv Hc) as (Eb & Es & Ea & El).
  destruct (advance_serves _ _ _ _ _ Hadv Hc) as [Hserve Hserves].
  assert (Hi' : (i < length calls)%nat) by by eapply lookup_lt_Some.
  pose proof (count_insert busy calls i c c' Hi).
  pose proof (count_insert stopping calls i c c' Hi).
  pose proof (count_insert counted calls i c c' Hi).
  pose proof (count_insert negotiating calls i c c' Hi).
  pose proof (count_insert notifying calls i c c' Hi) as En.
  constructor; simpl.
  - intros j d (d0 & Hd0 & [Hd|Hd] & _)%lookup_notified; subst d; [|apply fits_wake].
    all: apply list_lookup_insert_Some in Hd0 as [(<- & <- & _)|[Hne Hd0]]; [done|].
    all: eapply advance_frame; [exact Hadv|exact Hc|exact Hphase| | |by eapply Hfits].
    all: eapply (count_unique _ calls i j c d0); [|done..].
    all: rewrite ?Hsend, ?Hstop; apply b2n_le_1.
  - done.
  - rewrite count_notified by done. lia.
  - rewrite count_notified by done. lia.
  - rewrite count_notified by done. lia.
  - rewrite count_notified by done. lia.
  - intros j (d0 & Hd0 & Hd & Hb)%lookup_notified. specialize (Hb eq_refl). subst b.
    rewrite count_notified by done.
    assert (d0 = StopWaiting) as -> by (destruct Hd as [->|Hd]; [done|by destruct d0]).
    apply list_lookup_insert_Some in Hd0 as [(_ & -> & _)|[Hne Hd0]].
    + destruct (Hserve eq_refl); auto.
    + destruct Hserves as [?|[Hn|(Hs1 & Hs2 & Hn)]]; [done| |].
      * right; right. rewrite Hn in En. pose proof (b2n_le_1 (notifying c)).
        pose proof (advance_notifies _ _ _ _ _ Hadv Hn) as Hc0. rewrite Hc0 in En. simpl in En. lia.
      * rewrite Hn in En. simpl in En.
        destruct (Hwaits j Hd0) as [?|[?|?]]; [by auto..|]. right; right. lia.
Qed.

Lemma step_consistent b s s' : prep_step b s s' → consistent s → consistent s'.
Proof.
  intros [g calls i c g' c' n Hi Hadv|g calls i Hi].
  - by eapply call_advances_consistent.
  - intros [Hfits Hphase Hsend Hstop Hactive Hsent Hwaits]. simpl in *.
    pose proof (count_insert busy calls i _ StopCalled Hi).
    pose proof (count_insert stopping calls i _ StopCalled Hi).
    pose proof (count_insert counted calls i _ StopCalled Hi).
    pose proof (count_insert negotiating calls i _ StopCalled Hi).
    pose proof (count_insert notifying calls i _ StopCalled Hi).
    constructor; simpl in *; [|done|lia..|].
    + intros j d [(_ & <- & _)|[_ Hd]]%list_lookup_insert_Some; [done|]. by eapply Hfits.
    + intros j [(_ & ? & _)|[_ Hd]]%list_lookup_insert_Some; [done|].
      destruct (Hwaits j Hd) as [?|[?|?]]; auto. right; right. lia.
Qed.

Lemma called_count f calls :
  Forall (λ c, called c = true) calls → (∀ c, called c = true → f c = false) → count f calls = 0%nat.
Proof. intros Hall Hf. induction Hall as [|c calls Hc _ IH]; simpl; [done|]. by rewrite (Hf c Hc), IH. Qed.

Lemma init_consistent calls :
  Forall (λ c, called c = true) calls → consistent (new_preparation, calls).
Proof.
  intros Hall. constructor; simpl; [|done| | | | |].
  - intros i c Hi. pose proof (Forall_lookup_1 _ _ _ _ Hall Hi) as Hc. by destruct c.
  - apply called_count; [done|]. by intros [].
  - apply called_count; [done|]. by intros [].
  - rewrite called_count; [done|done|]. by intros [].
  - rewrite called_count; [done|done|]. by intros [].
  - intros i Hi. by pose proof (Forall_lookup_1 _ _ _ _ Hall Hi).
Qed.

Lemma steps_consistent calls m w s :
  Forall (λ c, called c = true) calls → prep_steps (new_preparation, calls) m w s → consistent s.
Proof.
  intros Hall Hs. induction Hs as [|m w s1 b s2 _ IH Hstep]; [by apply init_consistent|].
  eapply step_consistent; eauto.
Qed.

(** ** Every call returns *)

(** Steps a call has left at most, wake-ups apart; a call that waits is woken for [3] more. *)
Definition steps_left (call : PreparationCall) : nat :=
  match call with
  | SendCalled => 9 | SendStarted => 8 | SendPreparing => 7 | SendImported => 6 | SendRegistering => 5
  | SendPrepared _ => 4 | SendCounted _ => 3 | SendSpawned _ => 2 | SendReturned _ => 0
  | StopCalled => 4 | StopWaiting => 1 | StopRunning _ => 3 | StopNotifying _ => 2
  | StopReturned _ => 0
  end.

Fixpoint total_left (calls : list PreparationCall) : nat :=
  match calls with [] => 0 | c :: calls => steps_left c + total_left calls end.

(** Each call notifies once at most, which wakes every call at most. *)
Definition variant (calls : list PreparationCall) : nat :=
  (3 * length calls + 1) * count (λ c, negb (returned c)) calls + total_left calls.

Lemma total_insert calls i c c' :
  calls !! i = Some c →
  (total_left (<[i := c']> calls) + steps_left c = total_left calls + steps_left c')%nat.
Proof.
  revert i. induction calls as [|d calls IH]; intros [|i] Hi; simplify_eq/=; [lia|].
  specialize (IH i Hi). lia.
Qed.

Lemma total_wake calls : (total_left (map wake calls) ≤ total_left calls + 3 * length calls)%nat.
Proof. induction calls as [|[] calls IH]; simpl in *; lia. Qed.

Lemma length_notified b calls : length (notified b calls) = length calls.
Proof. destruct b; simpl; [by rewrite length_map|done]. Qed.

(** A call that advances has fewer steps left; one that notifies has returned. *)
Lemma advance_left g c g' c' b :
  advance g c g' c' b →
  (steps_left c' < steps_left c)%nat ∧ returned c = false ∧ (b = true → returned c' = true).
Proof.
  destruct g as [phase active ids]. intros Hadv. inversion Hadv; subst; simpl in *;
    step_cases; destruct phase; simplify_eq/=; auto with lia.
Qed.

Lemma step_variant s b s' :
  prep_step b s s' →
  length s'.2 = length s.2 ∧
  (variant s'.2 + (if b then 0 else 1) ≤ variant s.2 + (if b then 3 else 0))%nat.
Proof.
  intros [g calls i c g' c' n Hi Hadv|g calls i Hi]; simpl.
  - rewrite length_notified, length_insert. split; [done|].
    destruct (advance_left _ _ _ _ _ Hadv) as (Hleft & Hret & Hn).
    pose proof (total_insert calls i c c' Hi).
    pose proof (count_insert (λ c, negb (returned c)) calls i c c' Hi) as Eo.
    cbv beta in Eo. rewrite Hret in Eo. simpl in Eo. unfold variant.
    rewrite length_notified, length_insert, count_notified by done.
    destruct n; simpl notified.
    + rewrite (Hn eq_refl) in Eo. simpl in Eo.
      pose proof (total_wake (<[i:=c']> calls)) as Hw. rewrite length_insert in Hw.
      replace (count (λ c, negb (returned c)) calls) with
        (S (count (λ c, negb (returned c)) (<[i:=c']> calls))) by lia.
      rewrite Nat.mul_succ_r. lia.
    + pose proof (b2n_le_1 (negb (returned c'))).
      assert (count (λ c, negb (returned c)) (<[i:=c']> calls) ≤
              count (λ c, negb (returned c)) calls)%nat as Hle by lia.
      pose proof (Nat.mul_le_mono_l _ _ (3 * length calls + 1) Hle). lia.
  - rewrite length_insert. split; [done|].
    pose proof (total_insert calls i _ StopCalled Hi).
    pose proof (count_insert (λ c, negb (returned c)) calls i _ StopCalled Hi) as Eo.
    simpl in *. unfold variant. rewrite length_insert.
    replace (count (λ c, negb (returned c)) (<[i:=StopCalled]> calls)) with
      (count (λ c, negb (returned c)) calls) by lia. lia.
Qed.

Lemma steps_variant s m w s' :
  prep_steps s m w s' → length s'.2 = length s.2 ∧ (variant s'.2 + m ≤ variant s.2 + 3 * w)%nat.
Proof.
  induction 1 as [|m w s1 b s2 _ [IHl IH] Hstep]; [lia|].
  destruct (step_variant _ _ _ Hstep) as [Hl Hv]. split; [congruence|]. destruct b; lia.
Qed.

Lemma variant_called calls :
  Forall (λ c, called c = true) calls → (variant calls ≤ (3 * length calls + 10) * length calls)%nat.
Proof.
  intros Hall. unfold variant.
  assert (count (λ c, negb (returned c)) calls ≤ length calls ∧ total_left calls ≤ 9 * length calls)%nat
    as [Hc Ht].
  { induction Hall as [|c calls Hc _ [IHc IHt]]; simpl; [lia|]. destruct c; simpl in *; lia. }
  pose proof (Nat.mul_le_mono_l _ _ (3 * length calls + 1) Hc). lia.
Qed.

(** A call that neither waits nor has returned can go on: no assertion of the gate fails. *)
Lemma call_can_go_on g c :
  fits (tp_phase g) (tp_negotiations g) c → returned c = false → c ≠ StopWaiting →
  ∃ g' c' b, advance g c g' c' b.
Proof.
  destruct g as [phase active ids]. intros Hfit Hret Hwait.
  destruct c as [| | | | |prepared|[id|e]|id| | | |id|stopped|]; simpl in *; try done.
  - destruct (start phase) as [phase' [[]|e]] eqn:E; eauto using send_starts, send_is_refused.
  - eauto using send_counts_in.
  - eauto using import_ends.
  - destruct Hfit as [[-> | ->] _]; eexists _, _, _; [by eapply gate_opens|].
    by eapply (gate_is_shut _ _ send_only_once).
  - eexists _, _, _. by apply (registration_ends _ (Err send_only_once)).
  - eauto using send_counts_out.
  - eauto using send_spawns.
  - eauto using send_fails.
  - destruct Hfit as [-> _]. eexists _, _, _. by eapply send_registers.
  - destruct phase; eexists _, _, _; by eapply stop_turns.
  - eexists _, _, _. by apply (stop_finishes _ _ AlreadyTerminal).
  - eauto using stop_notifies.
Qed.

(** Whatever a stop waits for is done by a call that can go on. *)
Lemma someone_can_go_on g calls :
  consistent (g, calls) → (∃ i c, calls !! i = Some c ∧ returned c = false) →
  ∃ i c, calls !! i = Some c ∧ returned c = false ∧ c ≠ StopWaiting.
Proof.
  intros [_ _ Hsend Hstop _ _ Hwaits] (i & c & Hi & Hret). simpl in *.
  assert (c = StopWaiting ∨ c ≠ StopWaiting) as [->|] by (destruct c; auto); [|by exists i, c].
  destruct (Hwaits i Hi) as [Hp|[Hp|Hp]].
  - rewrite Hp in Hsend. destruct (count_exists busy calls) as (j & d & Hj & Hd); [simpl in Hsend; lia|].
    exists j, d. by destruct d.
  - rewrite Hp in Hstop. destruct (count_exists stopping calls) as (j & d & Hj & Hd); [simpl in Hstop; lia|].
    exists j, d. by destruct d.
  - destruct (count_exists notifying calls Hp) as (j & d & Hj & Hd). exists j, d. by destruct d.
Qed.

(** C33: whatever threads call [send] and [stop] of a preparation, and however their
    critical sections interleave, every call returns, as long as what [send] prepares and what
    [stop] ends each come to a result: with [n] calls and [w] spurious wake-ups
    at most [(3n + 10)n + 3w] steps are taken, and until all calls have returned one of them can
    go on. No wake-up is lost, and no assertion of the gate fails. *)
Theorem every_call_returns calls m w g calls' :
  Forall (λ c, called c = true) calls → prep_steps (new_preparation, calls) m w (g, calls') →
  (m ≤ (3 * length calls + 10) * length calls + 3 * w)%nat ∧
  (Forall (λ c, returned c = true) calls' ∨ ∃ s', prep_step false (g, calls') s').
Proof.
  intros Hall Hs. split.
  - destruct (steps_variant _ _ _ _ Hs) as [_ Hv]. pose proof (variant_called _ Hall). simpl in *. lia.
  - destruct (decide (Forall (λ c, returned c = true) calls')) as [|Hn]; [by left|right].
    pose proof (steps_consistent _ _ _ _ Hall Hs) as Hc.
    destruct (someone_can_go_on _ _ Hc) as (i & c & Hi & Hret & Hwait).
    { apply not_Forall_Exists in Hn; [|apply _]. apply Exists_exists in Hn as (c & Hc' & Hr).
      apply list_elem_of_lookup in Hc' as [i Hi]. exists i, c. split; [done|]. by apply not_true_is_false. }
    destruct (call_can_go_on g c) as (g' & c' & b & Hadv); [by eapply (calls_fit _ Hc)|done..|].
    eexists. by eapply call_advances.
Qed.

(** At every moment of every interleaving, all stops that succeeded have the same
    outcome. If it is that the preparation was stopped, nothing negotiates and no send has
    returned a transfer; otherwise exactly one transfer was handed to negotiation. At most one
    send ever returns a transfer, which is the one negotiated, and the number of active
    preparations is that of the sends that import or register. *)
Theorem stops_agree calls m w g calls' :
  Forall (λ c, called c = true) calls → prep_steps (new_preparation, calls) m w (g, calls') →
  (∀ o o', StopReturned (Ok o) ∈ calls' → StopReturned (Ok o') ∈ calls' → o = o') ∧
  (StopReturned (Ok PreparationStopped) ∈ calls' →
    tp_negotiations g = [] ∧ count negotiating calls' = 0%nat) ∧
  (∀ o, StopReturned (Ok o) ∈ calls' → o ≠ PreparationStopped →
    ∃ id, tp_negotiations g = [id]) ∧
  (count negotiating calls' ≤ 1)%nat ∧
  (∀ id, SendReturned (Ok id) ∈ calls' → tp_negotiations g = [id]) ∧
  tp_active g = Z.of_nat (count counted calls').
Proof.
  intros Hall Hs. destruct (steps_consistent _ _ _ _ Hall Hs) as [Hfits Hphase _ _ Hactive Hsent _].
  simpl in *.
  assert (Hret : ∀ o, StopReturned (Ok o) ∈ calls' → verdict (tp_phase g) = Some o).
  { intros o [i Hi]%list_elem_of_lookup. apply (Hfits i _ Hi). }
  split_and!; [..|done].
  - intros o o' Ho Ho'. apply Hret in Ho, Ho'. congruence.
  - intros Ho. apply Hret in Ho. rewrite <- Hsent.
    destruct (tp_phase g); simplify_eq/=; [by rewrite Hphase..|].
    by destruct (tp_negotiations g).
  - intros o Ho Hne. apply Hret in Ho. destruct (tp_phase g); simplify_eq/=.
    rewrite bool_decide_eq_false_2 in Hphase by done.
    destruct (tp_negotiations g) as [|id []]; simplify_eq/=. by exists id.
  - rewrite <- Hsent. destruct (tp_phase g); simpl in Hphase; try case_bool_decide;
      try rewrite Hphase; simpl; lia.
  - intros id [i Hi]%list_elem_of_lookup. apply (Hfits i _ Hi).
Qed.
End Gate.

(** A stop that reached the transfer never says that only the preparation was stopped. *)
Lemma stop_preparation_outcome `{Env} `{ForeignText} `{Host} {V} `{SecureSecretStore V}
    `{!Neighbours V} authority id k n :
  wp (stop_preparation authority id) k n (λ r _ _, r ≠ Ok PreparationStopped).
Proof.
  assert (∀ A (m : M (Core V) VnidropError A) f k n,
    (∀ a k n, wp (f a) k n (λ r _ _, r ≠ Ok PreparationStopped)) →
    wp (m ≫= f) k n (λ r _ _, r ≠ Ok PreparationStopped)) as Hbind.
  { intros A m f k1 n1 Hf. apply wp_bind, wp_any. by intros [a|e] k2 n2; [apply Hf|]. }
  unfold stop_preparation. apply Hbind. intros [row|] k1 n1; [|by apply wp_ret].
  destruct (is_terminal _); [by apply wp_ret|]. apply Hbind. intros [] k2 n2.
  - apply Hbind. intros _ k3 n3. by apply wp_ret.
  - apply Hbind. intros [current|] k3 n3; [|by apply wp_ret].
    destruct (is_terminal _); [by apply wp_ret|]. apply Hbind. intros changed k4 n4.
    apply Hbind. intros _ k5 n5. apply wp_ret. by destruct changed.
Qed.

(** ** A run: a stop arrives while the sources are imported *)

Section Witnesses.
#[local] Instance gate_text : ForeignText := demo_text.

Example stopped_calls : list PreparationCall :=
  [SendReturned (Err (Errors.Cancelled "stopped")); StopReturned (Ok PreparationStopped)].
Example stopped_gate : TargetedTransferPreparation :=
  {| tp_phase := Finished PreparationStopped; tp_active := 0; tp_negotiations := [] |}.

(** One step of call [i] in a run. *)
Ltac one i tac :=
  match goal with H : prep_steps _ _ _ (?g, ?calls) |- _ =>
    eapply (steps_more _ _ _ _ false) in H;
      [|eapply (call_advances g calls i); [reflexivity|tac; try reflexivity]]; cbn in H
  end.

Lemma stopped_run :
  prep_steps (new_preparation, [SendCalled; StopCalled]) 9 1 (stopped_gate, stopped_calls).
Proof.
  pose proof (steps_none (new_preparation, [SendCalled; StopCalled])) as Hrun.
  one 0%nat ltac:(eapply send_starts).
  one 0%nat ltac:(eapply send_counts_in).
  one 1%nat ltac:(eapply stop_turns; [reflexivity|]).
  eapply (steps_more _ _ _ _ true) in Hrun; [|by apply (wakes_spuriously _ _ 1%nat)]. cbn in Hrun.
  one 1%nat ltac:(eapply stop_turns; [reflexivity|]).
  one 0%nat ltac:(eapply import_ends).
  one 0%nat ltac:(eapply (gate_is_shut _ _ (Errors.Cancelled "stopped"))).
  one 0%nat ltac:(eapply send_counts_out).
  one 0%nat ltac:(eapply send_fails).
  one 1%nat ltac:(eapply stop_turns; [reflexivity|]).
  exact Hrun.
Qed.

Lemma every_call_returns_witness :
  (9 ≤ 35)%nat ∧ (Forall (λ c, returned c = true) stopped_calls ∨
    ∃ s', prep_step false (stopped_gate, stopped_calls) s').
Proof.
  split; [lia|].
  apply (every_call_returns [SendCalled; StopCalled] 9 1 stopped_gate stopped_calls); [|exact stopped_run].
  by repeat constructor.
Defined.

Lemma stops_agree_witness :
  tp_negotiations stopped_gate = [] ∧ count negotiating stopped_calls = 0%nat.
Proof.
  apply (stops_agree [SendCalled; StopCalled] 9 1 stopped_gate stopped_calls);
    [by repeat constructor | exact stopped_run | right; left].
Defined.
End Witnesses.
