(* ===== verification/ShareSpec.v ===== *)
(** * Shares under interleaving

    Any number of calls that prepare, cancel, change, query or delete shares run at once, while
    the rest of the core moves. The specification follows one transfer [t] that is not deleted:
    what each task may do to it, and hence what the calls on it can rely on. *)

From S2P Require Import Prelude Sql Async ControlPlane Errors States Api Ticket Filesystem TargetedStore Access Invitation Inbox SecureSecret Relationship Pairing Devices Core Approval Authorization TargetedModule TargetedModuleSpec TargetedRuntime TargetedRuntimeSpec Share.

(** ** The life of one share *)

(** Where the row of the transfer stands; a receive under the same id is none of it. *)
Inductive Phase : Type := NoShare | Preparing | Live | Ended | OtherPhase.
#[global] Instance Phase_eq_dec : EqDecision Phase.
Proof. solve_decision. Defined.

Definition ended_texts : list string := ["cancelled"; "stopped"; "failed"]%string.

Definition status_phase (status : string) : Phase :=
  if str_eqb status "importing" then Preparing
  else if str_eqb status "sharing" then Live
  else if str_in status ended_texts then Ended
  else OtherPhase.

Definition row_phase (row : option TransferRow) : Phase :=
  match row with
  | None => NoShare
  | Some r => if str_eqb (t_direction r) "send" then status_phase (t_status r) else NoShare
  end.

Section View.
Context {V : Type} (t : Z).
(** The access modes that the calls on the transfer ask for. *)
Variable asked : TransferAccessMode → Prop.
Implicit Types (x : Runtime V).

Definition hist x : History := k_history (x_core x).
Definition phase x : Phase := row_phase (transfers (hist x) !! t).
Definition owned x (h : string) : Prop := owns (x_core x) t h.
Definition live x : Prop := t ∈ active_shares x.
Definition served x : Prop := live x ∨ ∃ h, owned x h.
Definition policy_mode x : option TransferAccessMode := modes (k_access (x_core x)) !! t.
(** The access policy knows the transfer, under a mode that was asked for. *)
Definition moded x : Prop := ∃ mode, policy_mode x = Some mode ∧ asked mode.

(** What is served was published; a share has the call that prepared it. *)
Record share_inv x : Prop := {
  inv_served : served x → phase x = Live ∨ phase x = Ended;
  inv_importer : importers x !! t ≠ None → phase x ≠ NoShare
}.

(** The rest of the core leaves the transfer alone. *)
Record elsewhere x x' : Prop := {
  el_lock : x_lock x' = x_lock x;
  el_phase : phase x' = phase x;
  el_importer : importers x' !! t = importers x !! t;
  el_owned h : owned x' h ↔ owned x h;
  el_live : live x' ↔ live x;
  el_mode : policy_mode x' = policy_mode x
}.

(** A share is created by the call that prepares it, published by that call alone and under the
    lock, and ends under the lock or before it was published. *)
Inductive phase_step (i : nat) x x' : Prop :=
| phase_same : phase x' = phase x → phase_step i x x'
| phase_created : phase x = NoShare → phase x' = Preparing → importers x' !! t = Some i → phase_step i x x'
| phase_published : phase x = Preparing → phase x' = Live → importers x !! t = Some i →
    x_lock x = Some i → phase_step i x x'
| phase_failed : phase x = Preparing ∨ phase x = OtherPhase → phase x' = Ended → phase_step i x x'
| phase_ended : phase x = Live → phase x' = Ended → x_lock x = Some i → phase_step i x x'.

Record guarantee (i : nat) x x' : Prop := {
  g_lock : x_lock x' = x_lock x ∨ (x_lock x = None ∧ x_lock x' = Some i) ∨
           (x_lock x = Some i ∧ x_lock x' = None);
  g_phase : phase_step i x x';
  g_importer : importers x' !! t = importers x !! t ∨ phase x = NoShare;
  g_gain h : owned x' h → owned x h ∨ (x_lock x = Some i ∧ phase x = Live);
  g_lose h : owned x h → owned x' h ∨ phase x = Ended;
  g_live : live x' → live x ∨ (x_lock x = Some i ∧ phase x = Live);
  g_unlive : live x → live x' ∨ phase x = Ended;
  g_mode : policy_mode x' = policy_mode x ∨ phase x = Ended ∨ moded x'
}.

#[global] Instance elsewhere_preorder : PreOrder elsewhere.
Proof.
  split; [by intros x; split|]. intros x1 x2 x3 [] []. split; try congruence.
  - intros h. by rewrite el_owned1, el_owned0.
  - by rewrite el_live1, el_live0.
Qed.

Lemma elsewhere_guarantee i x x' : elsewhere x x' → guarantee i x x'.
Proof.
  intros []. split; auto using phase_same.
  - intros h Hh. left. by apply el_owned0.
  - intros h Hh. left. by apply el_owned0.
  - intros Hl. left. by apply el_live0.
  - intros Hl. left. by apply el_live0.
Qed.

Lemma elsewhere_inv x x' : elsewhere x x' → share_inv x → share_inv x'.
Proof.
  intros [] []. split.
  - rewrite el_phase0. intros [Hl|[h Hh]]; apply inv_served0; [left; by apply el_live0|].
    right. exists h. by apply el_owned0.
  - by rewrite el_phase0, el_importer0.
Qed.

(** *** What a task may rely on *)

Definition locked (i : nat) x : Prop := x_lock x = Some i.
(** Over, and served no more. *)
Definition withdrawn x : Prop := phase x = Ended ∧ ¬ served x.
(** The row was inserted by task [i] … *)
Definition mine (i : nat) x : Prop := importers x !! t = Some i.
(** … which has not published it. *)
Definition preparing (i : nat) x : Prop :=
  mine i x ∧ (phase x = Preparing ∨ phase x = Ended) ∧ ¬ served x.
(** Live with this content, admitting whom a mode that was asked for admits, unless it was
    withdrawn since. *)
Definition published (hashes : list string) x : Prop :=
  phase x = Ended ∨ (phase x = Live ∧ live x ∧ moded x ∧ ∀ h, h ∈ hashes → owned x h).

Abbreviation others := (rely share_inv guarantee elsewhere).
Abbreviation stays := (stable share_inv guarantee elsewhere).

Lemma others_facts i x x' :
  share_inv x → others i x x' →
  (locked i x → locked i x') ∧
  (phase x = Ended → phase x' = Ended) ∧
  (phase x = Live → phase x' = Live ∨ phase x' = Ended) ∧
  (locked i x → phase x = Live → phase x' = Live) ∧
  (mine i x → mine i x' ∧ (phase x' = Live → phase x = Live)) ∧
  (mine i x → phase x = Preparing → phase x' = Preparing ∨ phase x' = Ended) ∧
  (served x' → served x ∨ (phase x = Live ∧ ¬ locked i x)) ∧
  (phase x = Live → (live x → live x') ∧ (moded x → moded x') ∧ ∀ h, owned x h → owned x' h).
Proof.
  intros Hi [Hi' [[El Ep Em Eo Ev Ed]|(j & Hj & [Gl Gp Gm Gg Gs Gv Gu Gd])]]; unfold locked, mine.
  - rewrite El, Ep, Em. split_and!; auto.
    + intros [Hl|[h Hh]]; left; [left; by apply Ev|right; exists h; by apply Eo].
    + intros _. split_and!; [by apply Ev|unfold moded; by rewrite Ed|]. intros h. by apply Eo.
  - assert (importers x !! t = Some i → importers x' !! t = Some i) as Hm.
    { destruct Gm as [->|Hn]; [done|]. intros E. destruct (inv_importer _ Hi); [congruence|done]. }
    split_and!.
    + intros E. destruct Gl as [->|[[? _]|[? _]]]; congruence.
    + intros E. destruct Gp; naive_solver congruence.
    + intros E. destruct Gp; naive_solver congruence.
    + intros El E. destruct Gp; naive_solver congruence.
    + intros E. split; [by apply Hm|]. intros E'. destruct Gp; naive_solver congruence.
    + intros E E'. destruct Gp; naive_solver congruence.
    + intros [Hl|[h Hh]]; [destruct (Gv Hl) as [?|[? ?]]|destruct (Gg h Hh) as [?|[? ?]]];
        [left; by left|right|left; right; by exists h|right]; split; congruence.
    + intros E. split_and!; [intros Hl; destruct (Gu Hl); [done|congruence]| |].
      { destruct Gd as [Ed|[?|Hd]]; [unfold moded; by rewrite Ed|congruence|by intros _]. }
      intros h Hh. destruct (Gs h Hh); [done|congruence].
Qed.

Lemma stays_locked i : stays i (locked i).
Proof. intros x x' Hi Hl Hr. by apply (others_facts i x x' Hi Hr). Qed.

Lemma stays_ended i : stays i (λ x, phase x = Ended).
Proof. intros x x' Hi Hl Hr. by apply (others_facts i x x' Hi Hr). Qed.

Lemma stays_live_row i : stays i (λ x, locked i x ∧ phase x = Live).
Proof.
  intros x x' Hi [Hl Hp] Hr. destruct (others_facts i x x' Hi Hr) as (H1 & _ & _ & H4 & _).
  split; [by apply H1|by apply H4].
Qed.

Lemma stays_withdrawn i : stays i withdrawn.
Proof.
  intros x x' Hi [Hp Hs] Hr. destruct (others_facts i x x' Hi Hr) as (_ & H2 & _ & _ & _ & _ & H7 & _).
  split; [by apply H2|]. intros Hs'. destruct (H7 Hs') as [?|[? _]]; [done|congruence].
Qed.

Lemma stays_mine i : stays i (mine i).
Proof. intros x x' Hi Hm Hr. by apply (others_facts i x x' Hi Hr). Qed.

Lemma stays_preparing i : stays i (preparing i).
Proof.
  intros x x' Hi (Hm & Hp & Hs) Hr.
  destruct (others_facts i x x' Hi Hr) as (_ & H2 & _ & _ & H5 & H6 & H7 & _). split_and!.
  - by apply H5.
  - destruct Hp as [Hp|Hp]; [by apply H6|right; by apply H2].
  - intros Hs'. destruct (H7 Hs') as [?|[? _]]; [done|]. destruct Hp; congruence.
Qed.

Lemma stays_published i hashes : stays i (published hashes).
Proof.
  intros x x' Hi Hp Hr. destruct (others_facts i x x' Hi Hr) as (_ & H2 & H3 & _ & _ & _ & _ & H8).
  destruct Hp as [Hp|(Hp & Hl & Hd & Hh)]; [left; by apply H2|].
  destruct (H3 Hp) as [Hp'|Hp']; [right|by left]. destruct (H8 Hp) as (H9 & H10 & H11).
  split_and!; [done|by apply H9|by apply H10|]. intros h Hin. by apply H11, Hh.
Qed.
End View.

(** ** What the statements do to the row *)

Section Rows.
Context `{Env} (t : Z).
Implicit Types (h : History).

Definition at_phase h : Phase := row_phase (transfers h !! t).

(** A statement on the row [u]. *)
Lemma wp_row_update u P f h n (Q : result nat AnyhowError → History → nat → Prop) :
  (∀ k r, P k r = true → k = u) →
  (∀ e n', Q (Err e) h n') →
  ((∀ r, transfers h !! u = Some r → P u r = false) → ∀ n', Q (Ok 0%nat) h n') →
  (∀ r h' n', transfers h !! u = Some r → P u r = true → transfers h' !! u = Some (f r) →
     (t ≠ u → at_phase h' = at_phase h) → Q (Ok 1%nat) h' n') →
  wp (update_history P f) h n Q.
Proof.
  intros HP He H0 H1. apply (wp_update_history_key u); [done|by intros; apply He|by intros; apply H0|].
  intros r Hr HPr. eapply H1; [done|done|by apply lookup_insert_eq|].
  intros Hne. unfold at_phase. simpl. by rewrite lookup_insert_ne.
Qed.

(** The row is as it was, or of [u] and moved. *)
Definition moved (u : Z) (from : list Phase) (to : Phase) h h' : Prop :=
  at_phase h' = at_phase h ∨ (t = u ∧ at_phase h ∈ from ∧ at_phase h' = to).

Lemma moved_same u from to h : moved u from to h h.
Proof. by left. Qed.

Lemma row_phase_send r : str_eqb (t_direction r) "send" = true → row_phase (Some r) = status_phase (t_status r).
Proof. intros E. simpl. by rewrite E. Qed.

Lemma wp_complete_share_import u h n :
  wp (complete_share_import u) h n (λ r h' _,
    match r with
    | Ok _ => moved (u_transfer_id u) [Preparing] Live h h' ∧ (t = u_transfer_id u → at_phase h' = Live)
    | Err _ => at_phase h' = at_phase h
    end).
Proof.
  unfold complete_share_import. destruct (_ || _) eqn:E; [by apply wp_fail|].
  apply orb_false_iff in E as [E1%negb_false_iff%bool_decide_eq_true_1 E2%negb_false_iff%bool_decide_eq_true_1].
  apply wp_bind, wp_to_db_id; [done|]. intros _. apply wp_bind, wp_to_db_id; [done|]. intros _.
  apply wp_bind, wp_now_ms, wp_bind, wp_to_db_id; [done|]. intros _. apply wp_bind.
  apply (wp_row_update (u_transfer_id u)).
  - intros k r Hk. apply andb_true_iff in Hk as [Hk _]. apply andb_true_iff in Hk as [Hk _]. lia.
  - done.
  - intros _ n'. by apply wp_of_result.
  - intros r h' n' Hr HP Hr' Hne. apply wp_of_result. simpl.
    apply andb_true_iff in HP as [HP1 HP2]. apply andb_true_iff in HP1 as [_ HP1].
    assert (t = u_transfer_id u → at_phase h = Preparing ∧ at_phase h' = Live) as Ht.
    { intros Et. unfold at_phase. rewrite Et, Hr, Hr', !row_phase_send by done.
      apply str_eqb_eq in HP2. rewrite HP2. split; [done|]. simpl. by rewrite E2. }
    split; [|by apply Ht]. destruct (decide (t = u_transfer_id u)) as [Et|Hn]; [right|by left; apply Hne].
    destruct (Ht Et) as [-> ->]. split_and!; [done|by left|done].
Qed.

(** The row of [u] has ended. *)
Lemma wp_cancel_preparation u h n :
  wp (Invitation.cancel_share_preparation u) h n (λ r h' _,
    moved u [Preparing; Live] Ended h h' ∧ (r = Ok tt → t = u → at_phase h' = Ended)).
Proof.
  unfold Invitation.cancel_share_preparation.
  apply wp_bind, wp_now_ms, wp_bind, wp_to_db_id; [by intros; split; [apply moved_same|]|]. intros Hu.
  apply wp_bind, (wp_row_update u).
  - intros k r Hk. apply andb_true_iff in Hk as [Hk _]. apply andb_true_iff in Hk as [Hk _]. lia.
  - by intros; split; [apply moved_same|].
  - intros _ n'. simpl. apply wp_bind, wp_to_db_id; [by intros; split; [apply moved_same|]|]. intros _.
    apply wp_bind, wp_select; [by intros; split; [apply moved_same|]|].
    destruct (transfers h !! u) as [r|] eqn:Hr; [|by apply wp_fail; split; [apply moved_same|]].
    destruct (str_eqb (t_direction r) "send") eqn:Ed; [|by apply wp_fail; split; [apply moved_same|]].
    destruct (str_in (t_status r) ended_texts) eqn:Es; unfold ended_texts in Es; rewrite Es;
      [|by apply wp_fail; split; [apply moved_same|]].
    apply wp_ret. split; [apply moved_same|]. intros _ Et. unfold at_phase. rewrite Et, Hr, row_phase_send by done.
    apply str_in_elem in Es. rewrite !elem_of_cons, elem_of_nil in Es.
    by destruct Es as [->|[->|[->|[]]]].
  - intros r h' n' Hr HP Hr' Hne. simpl. apply wp_ret.
    apply andb_true_iff in HP as [HP1 HP2]. apply andb_true_iff in HP1 as [_ HP1].
    assert (t = u → at_phase h ∈ [Preparing; Live] ∧ at_phase h' = Ended) as Ht.
    { intros Et. unfold at_phase. rewrite Et, Hr, Hr', !row_phase_send by done.
      apply str_in_elem in HP2. rewrite !elem_of_cons in HP2.
      destruct HP2 as [->|[->|HP2]]; [| |by apply elem_of_nil in HP2]; simpl;
        (split; [rewrite !elem_of_cons; auto|done]). }
    split; [|intros _ Et; by apply Ht].
    destruct (decide (t = u)) as [Et|Hn]; [right|by left; apply Hne]. split; [done|by apply Ht].
Qed.

(** A transition moves a row of that status, and a success leaves the new one. *)
Lemma wp_transition_status u from to h n :
  wp (transition_transfer_status u from to) h n (λ r h' _,
    (at_phase h' = at_phase h ∨ t = u ∧ ∃ row row', transfers h !! u = Some row ∧ t_status row = status_as_str from ∧
       at_phase h' = row_phase (Some row') ∧ t_direction row' = t_direction row ∧ t_status row' = status_as_str to) ∧
    (r = Ok tt → ∃ row, transfers h' !! u = Some row ∧ t_status row = status_as_str to)).
Proof.
  unfold transition_transfer_status. destruct (negb _); [by apply wp_fail; split; [left|]|].
  apply wp_bind, wp_now_ms, wp_bind, wp_to_db_id; [by intros; split; [left|]|]. intros Hu.
  apply wp_bind, (wp_row_update u).
  - intros k r Hk. apply andb_true_iff in Hk as [Hk _]. lia.
  - by intros; split; [left|].
  - intros _ n'. simpl. apply wp_bind, wp_bind, wp_select; [by intros; split; [left|]|].
    apply wp_ret. destruct (opt_eqb _ _) eqn:E; [|by apply wp_of_result; split; [left|]].
    apply wp_ret. split; [by left|]. intros _. apply opt_eqb_eq in E.
    destruct (transfers h !! u) as [row|]; simplify_eq/=. eauto.
  - intros r h' n' Hr HP Hr' Hne. simpl. apply wp_bind, wp_ret, wp_of_result. simpl.
    apply andb_true_iff in HP as [_ HP%str_eqb_eq]. split; [|eauto].
    destruct (decide (t = u)) as [Et|Hn]; [right|by left; apply Hne]. split; [done|].
    exists r, (set_status (status_as_str to) (clock n) r). split_and!; [done|done| |done|done].
    unfold at_phase. by rewrite Et, Hr'.
Qed.

(** … so a share in the phase of the old status goes to that of the new one. *)
Lemma wp_transition_phase u from to h n :
  wp (transition_transfer_status u from to) h n (λ r h' _,
    moved u [status_phase (status_as_str from)] (status_phase (status_as_str to)) h h' ∧
    (r = Ok tt → t = u → at_phase h' = status_phase (status_as_str to) ∨ at_phase h' = NoShare)).
Proof.
  eapply wp_mono; [apply wp_transition_status|]. intros r h' _ [Hm Ho]. split.
  - destruct Hm as [E|(Et & row & row' & Hr & Hs & E & Ed & Es)]; [by left|]. unfold moved. rewrite E.
    unfold at_phase. rewrite Et, Hr. destruct (str_eqb (t_direction row) "send") eqn:Hd.
    + right. split; [done|]. rewrite !row_phase_send by congruence. rewrite Hs, Es. split; [by left|done].
    + left. simpl. by rewrite Ed, Hd.
  - intros -> Et. destruct (Ho eq_refl) as (row & Hr & Hs). unfold at_phase. rewrite Et, Hr. simpl.
    destruct (str_eqb (t_direction row) "send"); [left; by rewrite Hs|by right].
Qed.

(** Statements that leave the phase alone. *)
Lemma wp_update_mode u mode h n :
  wp (update_active_share_access_mode u mode) h n (λ r h' _, at_phase h' = at_phase h).
Proof.
  unfold update_active_share_access_mode. apply wp_bind, wp_now_ms, wp_bind, wp_to_db_id; [done|]. intros _.
  apply wp_bind, (wp_row_update u).
  - intros k r Hk. apply andb_true_iff in Hk as [Hk _]. apply andb_true_iff in Hk as [Hk _]. lia.
  - done.
  - intros _ n'. by apply wp_of_result.
  - intros r h' n' Hr HP Hr' Hne. apply wp_of_result.
    destruct (decide (t = u)) as [Et|Hn]; [|by apply Hne]. unfold at_phase. by rewrite Et, Hr, Hr'.
Qed.

Lemma wp_insert_share_row (upsert : TransferUpsert) h n :
  u_direction upsert = Send → u_status upsert = States.Importing →
  wp (insert_transfer upsert) h n (λ r h' _,
    match r with
    | Ok _ => t ≠ u_transfer_id upsert ∧ at_phase h' = at_phase h ∨
              t = u_transfer_id upsert ∧ at_phase h = NoShare ∧ at_phase h' = Preparing
    | Err _ => h' = h
    end).
Proof.
  intros Ed Es. unfold insert_transfer. apply wp_bind, wp_now_ms, wp_bind, wp_to_db_id; [done|]. intros _.
  apply wp_bind, wp_uuid_v4, wp_bind, wp_to_db_id; [done|]. intros _. apply wp_bind, wp_to_db_id; [done|]. intros _.
  apply wp_asql; [done|]. intros _ [] h'. destruct (local_id_taken _ h); [done|].
  intros [[= ->] Hn]%(insert_row_bind _ _ _ (λ rows, (tt, on_history (λ _, rows) h))).
  destruct (decide (t = u_transfer_id upsert)) as [Et|Hne]; [right|left]; (split; [done|]); unfold at_phase; simpl.
  - rewrite Et, Hn, lookup_insert_eq. split; [done|]. rewrite row_phase_send; simpl; by rewrite ?Ed, ?Es.
  - by rewrite lookup_insert_ne.
Qed.

Lemma wp_delete_other u h n : t ≠ u →
  wp (Invitation.delete_transfer u) h n (λ r h' _, at_phase h' = at_phase h).
Proof.
  intros Hne. unfold Invitation.delete_transfer. apply wp_bind, wp_to_db_id; [done|]. intros _.
  apply wp_asql_tx; [done|]. apply wp_bind, wp_asql; [done|]. intros _ [] h1 [= <-].
  apply wp_bind, wp_asql; [done|]. intros _ [] h2 [= <-].
  apply wp_bind, wp_asql; [done|]. intros _ a h3 [= <- <-]. apply wp_of_result.
  destruct (require_one_changed _ _); [|done]. unfold at_phase. simpl.
  rewrite (delete_where_key _ _ u) by (intros k r Hk; lia).
  destruct (transfers h !! u); [|done]. destruct (u =? u); [|done]. by rewrite lookup_delete_ne.
Qed.

Lemma wp_request_status id status reason h n :
  wp (update_receiver_request_status id status reason) h n (λ r h' _, at_phase h' = at_phase h).
Proof.
  unfold update_receiver_request_status. apply wp_bind, wp_now_ms, wp_bind, wp_asql; [done|].
  intros _ a h' [= <- <-]. by destruct (Nat.eqb _ _).
Qed.

(** Queries. *)
Lemma wp_local_id u h n : wp (transfer_local_id u) h n (λ _ h' _, h' = h).
Proof.
  unfold transfer_local_id. apply wp_bind, wp_to_db_id; [done|]. intros _. apply wp_asql; [done|].
  intros _ a h'. destruct (transfers h !! u); [|done]. by intros [= _ <-].
Qed.

Lemma wp_list_stored h n : wp list_stored_transfers h n (λ _ h' _, h' = h).
Proof. unfold list_stored_transfers. apply wp_bind, wp_select; [done|]. by apply wp_of_result. Qed.

Lemma wp_list_requests u h n : wp (list_receiver_requests u) h n (λ _ h' _, h' = h).
Proof. unfold list_receiver_requests. apply wp_bind, wp_to_db_id; [done|]. intros _. by apply wp_select. Qed.
End Rows.
