(* ===== verification/ShareTasks.v ===== *)
(** * The tasks of a share

    Each call of [Share.v] is run through the rely-guarantee logic against the specification of
    [ShareSpec.v]: whatever the other calls do, a withdrawal that succeeded is final, a share
    that was published stays published until it is withdrawn, and one that failed is not served. *)

From stdpp Require Import pretty.
From S2P Require Import Prelude Sql Async ControlPlane Errors States Api Ticket Filesystem TargetedStore Access Invitation Inbox SecureSecret Relationship Pairing Devices Core Approval Authorization TargetedModule TargetedModuleSpec TargetedRuntime TargetedRuntimeSpec Share ShareSpec.

(** ** What the tasks do *)

Section Tasks.
Context `{Env} `{ForeignText} `{Host} `{Blake3} `{Blake3Hash} `{!Base64} `{Codec} `{Urls} `{Addressing}
  `{!TicketCodec} {V : Type} `{SecureSecretStore V} `{!Network V} `{!Neighbours V} `{Blobs} `{Files}
  `{!Importer} `{Polling}.
Variable t : Z.
Variable asked : TransferAccessMode → Prop.
Implicit Types (x : Runtime V).

Abbreviation inv := (share_inv t).
Abbreviation guar := (guarantee t asked).
Abbreviation aside := (elsewhere t).
Abbreviation stays i := (stable inv guar aside i).
Abbreviation task i := (triple inv guar aside x_lock i).

Definition good (i : nat) x x' : Prop := guar i x x' ∧ inv x'.

Lemma good_of i x x' : inv x → guar i x x' → importers x' = importers x → good i x x'.
Proof.
  intros Hi Hg E. split; [done|]. destruct Hg as [_ Gp _ Gg _ Gv _ _]. split.
  - intros Hs. assert (phase t x = Live ∨ phase t x = Ended) as Hp.
    { destruct Hs as [Hl|[h Hh]]; [destruct (Gv Hl) as [?|[_ ?]]|destruct (Gg h Hh) as [?|[_ ?]]].
      - apply (inv_served t x Hi). by left.
      - by left.
      - apply (inv_served t x Hi). right. by exists h.
      - by left. }
    destruct Gp; naive_solver congruence.
  - rewrite E. intros Hn. pose proof (inv_importer t x Hi Hn). destruct Gp; naive_solver congruence.
Qed.

Lemma good_elsewhere i x x' : inv x → aside x x' → good i x x'.
Proof. intros Hi He. split; [by apply elsewhere_guarantee|by eapply elsewhere_inv]. Qed.

Definition put_history (h : History) x : Runtime V := set_x_core (set_history h (x_core x)) x.

Lemma good_history i x h : inv x → phase_step t i x (put_history h x) → good i x (put_history h x).
Proof. intros Hi Hp. apply good_of; [done| |done]. split; auto. Qed.

Lemma good_moved i u from x h :
  inv x → moved t u from Ended (hist x) h →
  (∀ p, p ∈ from → p = Preparing ∨ p = OtherPhase ∨ p = Live ∧ locked i x) →
  good i x (put_history h x).
Proof.
  intros Hi [E|(Et & Hin & E)] Hfrom; apply good_history; try done; [by apply phase_same|].
  destruct (Hfrom _ Hin) as [E0|[E0|[E0 Hl]]].
  - apply phase_failed; [by left|done].
  - apply phase_failed; [by right|done].
  - by apply phase_ended.
Qed.

(** Any stable fact survives a section that leaves the transfer alone. *)
Lemma stays_elsewhere i P x x' : stays i P → inv x → aside x x' → P x → P x'.
Proof.
  intros HP Hi He Hx. eapply HP; [exact Hi|exact Hx|]. split; [by eapply elsewhere_inv|by left].
Qed.

Lemma task_quiet i D P {E A} (m : M (Runtime V) E A) :
  stays i P → (∀ x, inv x → P x → D x) → (∀ x n, wp m x n (λ _ x' _, aside x x')) →
  task i D P (section m) (λ _, P).
Proof.
  intros HP HD Hm. apply triple_section; [done|done|done|]. intros x n Hi Hx. eapply wp_mono; [apply Hm|].
  intros r x' n' He. destruct (good_elsewhere i x x' Hi He) as [Hg Hi'].
  split_and!; [done|done|by apply (stays_elsewhere i P x x')].
Qed.

Lemma aside_history x h : at_phase t h = phase t x → aside x (put_history h x).
Proof. intros E. split; [done|exact E|done|done|done|done]. Qed.

Lemma task_repo_quiet i D P {A} (m : M History AnyhowError A) :
  stays i P → (∀ x, inv x → P x → D x) →
  (∀ h n, wp m h n (λ _ h' _, at_phase t h' = at_phase t h)) →
  task i D P (repo m) (λ _, P).
Proof.
  intros HP HD Hm. apply task_quiet; [done|done|]. intros x n. apply wp_zoom, wp_zoom.
  eapply wp_mono; [apply Hm|]. intros r h' n' E. by apply aside_history.
Qed.

(** A statement that reads. *)
Lemma task_repo_read i D P {A} (m : M History AnyhowError A) :
  stays i P → (∀ x, inv x → P x → D x) → (∀ h n, wp m h n (λ _ h' _, h' = h)) →
  task i D P (repo m) (λ _, P).
Proof.
  intros HP HD Hm. apply task_repo_quiet; [done|done|]. intros h n. eapply wp_mono; [apply Hm|]. by intros r h' n' ->.
Qed.

(** The access policy. *)
Definition put_access (p : AccessPolicy) x : Runtime V := set_x_core (set_access p (x_core x)) x.

Lemma good_access i x p :
  inv x → modes p !! t = policy_mode t x ∨ phase t x = Ended ∨ moded t asked (put_access p x) →
  good i x (put_access p x).
Proof. intros Hi Hp. apply good_of; [done| |done]. split; auto using phase_same. Qed.

(** An operation of the policy that succeeds with [Q]. *)
Lemma task_policy i (D P Q : Runtime V → Prop) (m : M AccessPolicy AnyhowError unit) :
  stays i P → stays i Q → (∀ x, inv x → P x → D x) →
  (∀ x n, inv x → P x → wp m (k_access (x_core x)) n (λ r p _, r = Ok tt ∧ Q (put_access p x) ∧
     (modes p !! t = policy_mode t x ∨ phase t x = Ended ∨ moded t asked (put_access p x)))) →
  task i D P (in_policy m) (λ r x, match r with Ok _ => Q x | Err _ => False end).
Proof.
  intros HP HQ HD Hm. apply triple_section; [done| |done|].
  { intros r. apply stable_case; [done|intros; apply stable_pure]. }
  intros x n Hi Hx. apply wp_zoom, wp_zoom. eapply wp_mono; [by apply Hm|]. intros r p n' (-> & Hq & Hp).
  destruct (good_access i x p Hi Hp) as [Hg Hi']. by split_and!.
Qed.

(** A transfer that has ended leaves the policy. *)
Lemma task_policy_remove i (D P : Runtime V → Prop) u :
  stays i P → (∀ p x, P x → P (put_access p x)) → (∀ x, P x → u = t → phase t x = Ended) →
  (∀ x, inv x → P x → D x) →
  task i D P (in_policy (remove_transfer u)) (λ r x, match r with Ok _ => P x | Err _ => False end).
Proof.
  intros HP HPp He HD. apply task_policy; [done..|]. intros x n Hi Hx. apply wp_bind, wp_modify, wp_modify.
  split_and!; [done|by apply HPp|]. simpl. destruct (decide (u = t)) as [Eu|Hne]; [right; left; by eapply He|left].
  unfold policy_mode. by rewrite lookup_delete_ne.
Qed.

Lemma task_policy_mode i (D P : Runtime V → Prop) u mode :
  stays i P → (∀ p x, P x → P (put_access p x)) → (∀ x, inv x → P x → D x) → (u = t → asked mode) →
  task i D P (in_policy (set_mode u mode)) (λ r x, match r with Ok _ => P x | Err _ => False end).
Proof.
  intros HP HPp HD Hm. apply task_policy; [done..|]. intros x n Hi Hx. apply wp_modify.
  split_and!; [done|by apply HPp|]. unfold moded, policy_mode. simpl.
  destruct (decide (u = t)) as [->|Hne]; [right; right|left; by rewrite lookup_insert_ne].
  rewrite lookup_insert_eq. eauto.
Qed.

Lemma task_tags_delete i D P tag :
  stays i P → (∀ x, inv x → P x → D x) → task i D P (tags_delete tag) (λ _, P).
Proof.
  intros HP HD. apply task_quiet; [done|done|]. intros x n. unfold wp. by destruct (tag_fault n).
Qed.

Lemma task_tags_set i D P tag :
  stays i P → (∀ x, inv x → P x → D x) → task i D P (tags_set tag) (λ _, P).
Proof.
  intros HP HD. apply task_quiet; [done|done|]. intros x n. unfold wp. by destruct (set_tag_fault n).
Qed.

(** *** The lock *)

Definition idle (i : nat) x : Prop := x_lock x ≠ Some i.

Lemma stays_idle i : stays i (idle i).
Proof.
  intros x x' Hi Hx [_ [[El _ _ _ _ _]|(j & Hj & [Gl _ _ _ _ _ _ _])]]; unfold idle in *.
  - by rewrite El.
  - destruct Gl as [->|[[_ ->]|[_ ->]]]; [done|congruence|done].
Qed.

(** A fact that does not speak of the lock. *)
Definition lock_free (P : Runtime V → Prop) : Prop := ∀ l x, P x → P (set_lock l x).

Lemma set_lock_good i l x :
  inv x → (x_lock x = None ∧ l = Some i) ∨ (x_lock x = Some i ∧ l = None) → good i x (set_lock l x).
Proof.
  intros Hi Hl. apply good_of; [done| |done]. split; auto using phase_same.
Qed.

Lemma free_idle i x : idle i x → x_lock x = Some i ∨ x_lock x = None → free x = true.
Proof. intros Hi [?|E]; [done|]. unfold free. by rewrite E. Qed.

Lemma task_unlock i D P {E} :
  stays i P → lock_free P → (∀ x, inv x → P x ∧ locked i x → D x) →
  task i D (λ x, P x ∧ locked i x) (sync (E:=E) (set_lock None))
    (λ r x, match r with Ok _ => P x ∧ idle i x | Err _ => False end).
Proof.
  intros HP Hl HD. apply triple_section.
  - apply stable_and; [done|apply stays_locked].
  - intros r. apply stable_case; [|intros; apply stable_pure]. intros _. apply stable_and; [done|apply stays_idle].
  - done.
  - intros x n Hi [Hx Hlx]. apply wp_modify. destruct (set_lock_good i None x Hi) as [Hg Hi']; [by right|].
    split_and!; [done|done|by apply Hl|done].
Qed.

Lemma task_with_lock i (D P : Runtime V → Prop) {A} (p : Fut (Runtime V) AnyhowError A)
    (Q : result A AnyhowError → Runtime V → Prop) :
  stays i P → lock_free P → (∀ r, stays i (Q r)) → (∀ r, lock_free (Q r)) →
  (∀ x, inv x → P x → D x) → (∀ r x, inv x → Q r x → D x) →
  task i D (λ x, P x ∧ locked i x) p (λ r x, Q r x ∧ locked i x) →
  task i D (λ x, P x ∧ idle i x) (with_lock i p) (λ r x, Q r x ∧ idle i x).
Proof.
  intros HP HlP HQ HlQ HDP HDQ Hp. unfold with_lock.
  eapply (triple_fbind _ _ _ _ _ _ _ _ _ (λ r x, match r with Ok _ => P x ∧ locked i x | Err _ => False end)).
  - apply triple_waiting.
    + apply stable_and; [done|apply stays_idle].
    + intros r. apply stable_case; [|intros; apply stable_pure]. intros _. apply stable_and; [done|apply stays_locked].
    + intros x Hi [Hx _]. by apply HDP.
    + intros x Hi [_ Hx]. by apply free_idle.
    + intros x n Hi [Hx Hn] Hf%bool_decide_eq_true_1. apply wp_modify.
      destruct (set_lock_good i (Some i) x Hi) as [Hg Hi']; [by left|].
      split_and!; [done|done|by apply HlP|done].
  - intros []. eapply triple_fbind.
    + apply (triple_outcome _ _ _ _ _ _ _ _ (λ r x, match r with Ok r => Q r x ∧ locked i x | Err _ => False end)); [exact Hp|].
      intros r. apply stable_case; [|intros; apply stable_pure]. intros a. apply stable_and; [apply HQ|apply stays_locked].
    + intros r. eapply triple_fbind; [apply task_unlock; [apply HQ|apply HlQ|]| |].
      * intros x Hi [Hx _]. by eapply HDQ.
      * intros []. apply triple_return; [|done]. apply stable_and; [apply HQ|apply stays_idle].
      * intros e. split; [|done]. apply stable_and; [apply HQ|apply stays_idle].
    + intros e. split; [|done]. apply stable_and; [apply HQ|apply stays_idle].
  - intros e. split; [|done]. apply stable_and; [apply HQ|apply stays_idle].
Qed.

(** Ended, and no longer listed as a share. *)
Definition unlisted x : Prop := phase t x = Ended ∧ ¬ live t x.

Lemma stays_unlisted i : stays i unlisted.
Proof.
  intros x x' Hi [Hp Hl] Hr. destruct (others_facts t asked i x x' Hi Hr) as (_ & Hend & _). split; [by apply Hend|].
  destruct Hr as [_ [[_ _ _ _ Ev _]|(j & _ & [_ _ _ _ _ Gv _ _])]]; intros Hl'.
  - by apply Hl, Ev.
  - destruct (Gv Hl') as [?|[_ ?]]; [done|congruence].
Qed.

(** Decompose a stability goal. *)
Ltac stays_tac := repeat first
  [ progress intros
  | apply stays_idle | apply stays_locked | apply stays_withdrawn | apply stays_mine | apply stays_preparing
  | apply stays_published | apply stays_ended | apply stays_live_row | apply stays_unlisted
  | apply stable_and | apply stable_or | apply stable_impl | apply stable_case | apply stable_pure ].

(** Taking a share off the list, and releasing its content. *)
Lemma unlist_good i u x :
  inv x → (u = t → phase t x = Ended) → good i x (on_shares (λ shares, shares ∖ {[u]}) x).
Proof.
  intros Hi Hp. apply good_of; [done| |done]. split; auto using phase_same; unfold live; simpl.
  - intros Hl. left. set_solver.
  - intros Hl. destruct (decide (u = t)) as [->|Hne]; [right; by apply Hp|left; set_solver].
Qed.

Lemma unregister_good i u x :
  inv x → (u = t → phase t x = Ended) → good i x (unregister_hashes u x).
Proof.
  intros Hi Hp. apply good_of; [done| |done]. split; auto using phase_same.
  - intros h Hh. left. unfold owned, unregister_hashes in *. by apply (owns_released u) in Hh as [_ Hh].
  - intros h Hh. destruct (decide (u = t)) as [->|Hne]; [right; by apply Hp|left].
    apply (owns_released u). by split.
Qed.

Lemma unregistered_withdrawn x : unlisted x → withdrawn t (unregister_hashes t x).
Proof.
  intros [Hp Hl]. split; [done|]. intros [Hl'|[h Hh]]; [done|].
  unfold owned, unregister_hashes in Hh. by apply (owns_released t) in Hh as [? _].
Qed.

Lemma task_unlist i D P {E} u :
  (∀ x, inv x → (u = t → phase t x = Ended) ∧ P x → D x) → stays i P →
  (∀ x, P x → P (on_shares (λ shares, shares ∖ {[u]}) x)) →
  task i D (λ x, (u = t → phase t x = Ended) ∧ P x) (sync (E:=E) (on_shares (λ shares, shares ∖ {[u]})))
    (λ r x, r = Ok tt ∧ (u = t → unlisted x) ∧ P x).
Proof.
  intros HD HP HPs. apply triple_section; [stays_tac; apply HP|stays_tac; apply HP|done|].
  intros x n Hi [Hx Hp]. apply wp_modify. destruct (unlist_good i u x Hi Hx) as [Hg Hi'].
  split_and!; [done|done|done| |by apply HPs]. intros ->. split; [by apply Hx|]. unfold live. simpl. set_solver.
Qed.

Lemma task_unregister i D P {E} u :
  (∀ x, inv x → (u = t → unlisted x) ∧ P x → D x) → stays i P → (∀ x, P x → P (unregister_hashes u x)) →
  task i D (λ x, (u = t → unlisted x) ∧ P x) (sync (E:=E) (unregister_hashes u))
    (λ r x, r = Ok tt ∧ (u = t → withdrawn t x) ∧ P x).
Proof.
  intros HD HP HPs. apply triple_section; [stays_tac; apply HP|stays_tac; apply HP|done|].
  intros x n Hi [Hx Hp]. apply wp_modify. destruct (unregister_good i u x Hi) as [Hg Hi'].
  { intros E0. by apply Hx. }
  split_and!; [done|done|done| |by apply HPs]. intros ->. by apply unregistered_withdrawn, Hx.
Qed.

(** *** Withdrawing *)

(** The outcome of a withdrawal. *)
Definition gone (u : Z) {E} (r : result unit E) x : Prop := r = Ok tt → u = t → withdrawn t x.

Lemma task_repo_cancel i D u :
  (∀ x, inv x → locked i x → D x) →
  task i D (locked i) (repo (Invitation.cancel_share_preparation u))
    (λ r x, (r = Ok tt → u = t → phase t x = Ended) ∧ locked i x).
Proof.
  intros HD. apply triple_section; [stays_tac|stays_tac|done|]. intros x n Hi Hl. apply wp_zoom, wp_zoom.
  eapply wp_mono; [apply (wp_cancel_preparation t)|]. intros r h' n' [Hm Ho].
  destruct (good_moved i u [Preparing; Live] x h' Hi Hm) as [Hg Hi'].
  { intros p. rewrite !elem_of_cons. intros [->|[->|[]%elem_of_nil]]; auto. }
  split_and!; [done|done| |done]. intros Er Eu. by apply Ho.
Qed.

Lemma task_cancel_preparation i (D : Runtime V → Prop) u :
  (∀ x, inv x → D x) →
  task i D (idle i) (core_cancel_share_preparation i u) (λ r x, gone u r x ∧ idle i x).
Proof.
  intros HD. assert (∀ r : result unit AnyhowError, stays i (gone u r)) as Hgone by (unfold gone; stays_tac).
  eapply (triple_mono _ _ _ _ _ D _ (λ x, True ∧ idle i x) _ _ (λ r x, gone u r x ∧ idle i x)); [|done|done|done].
  apply task_with_lock; [apply stable_pure|done|done|by intros r l x Hx|auto|auto|].
  eapply triple_step; [by apply task_repo_cancel; auto|by intros x _ []| |].
  { intros e. split; [stays_tac; apply Hgone|]. by intros x _ [_ Hl]. }
  intros []. eapply triple_step; [apply (task_unlist i D (locked i)); [auto|stays_tac|done]| | |].
  { intros x _ [Hx Hl]. split; [by apply Hx|done]. }
  { intros e. split; [stays_tac; apply Hgone|]. by intros x _ [? _]. }
  intros []. eapply triple_step; [apply (task_unregister i D (locked i)); [auto|stays_tac|done]| | |].
  { by intros x _ (_ & Hx & Hl). }
  { intros e. split; [stays_tac; apply Hgone|]. by intros x _ [? _]. }
  set (P := λ x, (u = t → withdrawn t x) ∧ locked i x). assert (stays i P) as HP by (unfold P; stays_tac).
  intros []. eapply (triple_mono _ _ _ _ _ D _ P _ _ (λ _, P)); [|by intros x _ (_ & Hx & Hl)|done|].
  2: { intros r x _ [Hx Hl]. split; [by intros _|done]. }
  eapply triple_fbind; [apply (task_policy_remove i D P); [done|by intros p x Hx| |auto]| |by intros e; split].
  { intros x [Hx _] Eu. by apply Hx. }
  intros [].
  eapply triple_fbind; [apply task_repo_read; [done|auto|intros; apply wp_local_id]| |by intros e; split]. intros local_id.
  apply task_tags_delete; auto.
Qed.

(** A share that is listed is live or ending. *)
Definition listed (u : Z) x : Prop := u = t → phase t x = Live ∨ phase t x = Ended.

Lemma stays_listed i u : stays i (λ x, listed u x ∧ locked i x).
Proof.
  intros x x' Hi [Hx Hl] Hr. destruct (others_facts t asked i x x' Hi Hr) as (Hlk & Hend & Hlive & _).
  split; [|by apply Hlk]. intros Eu. destruct (Hx Eu) as [E|E]; [by apply Hlive|right; by apply Hend].
Qed.

Lemma task_lock_if_shared i (D : Runtime V → Prop) u :
  (∀ x, inv x → D x) →
  task i D (idle i) (lock_if_shared i u) (λ r x, match r with
    | Ok live => if (live : bool) then listed u x ∧ locked i x else idle i x
    | Err _ => idle i x
    end).
Proof.
  intros HD. apply triple_waiting; [stays_tac| |auto| |].
  - intros [[]|e]; [apply stays_listed|stays_tac|stays_tac].
  - intros x Hi Hx. by apply free_idle.
  - intros x n Hi Hx Hf%bool_decide_eq_true_1. apply wp_bind, wp_get.
    destruct (bool_decide (u ∈ active_shares x)) eqn:E.
    + apply bool_decide_eq_true_1 in E. apply wp_bind, wp_modify, wp_ret.
      destruct (set_lock_good i (Some i) x Hi) as [Hg Hi']; [by left|]. split_and!; [done|done| |done].
      intros ->. apply (inv_served t x Hi). by left.
    + apply wp_ret. destruct (good_elsewhere i x x Hi) as [Hg Hi']; [done|]. by split_and!.
Qed.

Lemma task_stop_share i (D : Runtime V → Prop) u :
  (∀ x, inv x → D x) →
  task i D (λ x, listed u x ∧ locked i x) (repo (transition_transfer_status u Sharing Stopped))
    (λ r x, (r = Ok tt → u = t → phase t x = Ended) ∧ locked i x).
Proof.
  intros HD. apply triple_section; [apply stays_listed|stays_tac|auto|].
  intros x n Hi [Hx Hl]. apply wp_zoom, wp_zoom.
  eapply wp_mono; [apply (wp_transition_phase t)|]. intros r h' n' [Hm Ho].
  destruct (good_moved i u [Live] x h' Hi Hm) as [Hg Hi'].
  { intros p. intros ?%list_elem_of_singleton; subst; auto. }
  split_and!; [done|done| |done]. intros Er Eu. destruct (Ho Er) as [E|E]; [done|exact E|].
  assert (status_phase (status_as_str Stopped) = Ended) as Es by done.
  change (at_phase t h' = Ended). assert (at_phase t (k_history (x_core x)) = phase t x) as Ex by done.
  destruct (Hx Eu) as [Ep|Ep], Hm as [Em|(_ & _ & Em)]; congruence.
Qed.

Lemma task_cancel_idle i (D : Runtime V → Prop) u :
  (∀ x, inv x → D x) →
  task i D (idle i) (cancel_idle_or_share i u) (λ r x, gone u r x ∧ idle i x).
Proof.
  intros HD. assert (∀ r : result unit AnyhowError, stays i (gone u r)) as Hgone by (unfold gone; stays_tac).
  eapply triple_step; [by apply task_lock_if_shared|auto| |].
  { intros e. split; [stays_tac; apply Hgone|]. by intros x _ Hx. }
  intros []; [|by apply triple_return; [stays_tac; apply Hgone|intros x _ Hx]].
  eapply triple_step; [| |intros e; split; [stays_tac; apply Hgone|]|].
  - apply (triple_outcome _ _ _ _ _ _ _ _ (λ r x, match r with
      | Ok (Ok _) => (u = t → unlisted x) ∧ locked i x
      | Ok (Err _) => locked i x
      | Err _ => False end)); [|intros [[]|]; stays_tac].
    eapply triple_fbind; [apply task_repo_read; [apply stays_listed|auto|intros; apply wp_local_id]| |].
    2: { intros e. split; [stays_tac|]. by intros x _ [_ Hl]. }
    intros local_id. eapply triple_fbind; [by apply task_stop_share| |].
    2: { intros e. split; [stays_tac|]. by intros x _ [_ Hl]. }
    intros []. eapply triple_step; [apply (task_unlist i D (locked i)); [auto|stays_tac|done]| | |].
    + intros x _ [Hx Hl]. split; [by apply Hx|done].
    + intros e. split; [stays_tac|]. by intros x _ [? _].
    + intros []. apply triple_return; [stays_tac|]. by intros x _ (_ & Hx & Hl).
  - done.
  - done.
  - intros r. eapply triple_step; [apply (task_unlock i D (λ x, match r with Ok _ => u = t → unlisted x | Err _ => True end))| | |].
    + destruct r; stays_tac.
    + by destruct r; intros l x Hx.
    + auto.
    + intros x _ Hx. destruct r; [done|by split].
    + intros e. split; [stays_tac; apply Hgone|done].
    + intros []. destruct r as [local_id|e]; [|by apply triple_return; [stays_tac; apply Hgone|intros x _ [_ Hx]]].
      eapply triple_step; [apply (task_unregister i D (idle i)); [auto|stays_tac|done]|done| |].
      { intros e. split; [stays_tac; apply Hgone|]. by intros x _ [? _]. }
      set (P := λ x, (u = t → withdrawn t x) ∧ idle i x). assert (stays i P) as HP by (unfold P; stays_tac).
      intros []. eapply (triple_mono _ _ _ _ _ D _ P _ _ (λ _, P)); [|by intros x _ (_ & Hx & Hl)|done|].
      2: { intros r x _ [Hx Hl]. split; [by intros _|done]. }
      eapply triple_fbind; [apply (task_policy_remove i D P); [done|by intros p x Hx| |auto]| |by intros e; split].
  { intros x [Hx _] Eu. by apply Hx. }
  intros [].
      apply task_tags_delete; auto.
Qed.

Lemma task_cancel_taken i (D : Runtime V → Prop) u taken :
  (∀ x, inv x → D x) →
  task i D (idle i) (cancel_taken i u taken) (λ r x, (taken ≠ Some Receive → gone u r x) ∧ idle i x).
Proof.
  intros HD. destruct taken as [[]|]; simpl.
  - eapply triple_mono; [by apply task_cancel_preparation|done|done|]. intros r x _ [Hx Hl]. auto.
  - apply triple_section; [stays_tac| |auto|].
    { intros r. unfold gone. stays_tac. }
    intros x n Hi Hx. apply wp_zoom, wp_zoom.
    eapply wp_mono; [apply (wp_transition_phase t)|]. intros r h' n' [Hm _].
    destruct (good_moved i u [OtherPhase] x h' Hi Hm) as [Hg Hi'].
    { intros p. intros ?%list_elem_of_singleton; subst; auto. }
    by split_and!.
  - eapply triple_mono; [by apply task_cancel_idle|done|done|]. intros r x _ [Hx Hl]. auto.
Qed.

(** *** Publishing *)

(** Live under the lock of its own call, with this content. *)
Definition registered (i : nat) (hashes : list string) x : Prop :=
  mine t i x ∧ locked i x ∧ phase t x = Live ∧ ∀ h, h ∈ hashes → owned t x h.
(** … and open to those it admits. *)
Definition opened (i : nat) (hashes : list string) x : Prop := registered i hashes x ∧ moded t asked x.

Lemma stays_registered i hashes : stays i (registered i hashes).
Proof.
  intros x x' Hi (Hm & Hl & Hp & Hh) Hr.
  destruct (others_facts t asked i x x' Hi Hr) as (Hlk & _ & _ & Hlive & Hmine & _ & _ & Hkeep).
  split_and!; [by apply Hmine|by apply Hlk|by apply Hlive|]. intros h Hin. by apply (Hkeep Hp), Hh.
Qed.

Lemma stays_opened i hashes : stays i (opened i hashes).
Proof.
  intros x x' Hi [Hx Hd] Hr. split; [by apply (stays_registered i hashes x)|].
  destruct (others_facts t asked i x x' Hi Hr) as (_ & _ & _ & _ & _ & _ & _ & Hkeep). by apply Hkeep; [apply Hx|].
Qed.

Lemma register_owns p hashes x h :
  owned p (register_hashes p hashes x) h ↔ owned p x h ∨ h ∈ hashes.
Proof.
  unfold owned, owns, register_hashes. simpl. generalize (k_hashes (x_core x)). revert h.
  induction hashes as [|h0 hashes IH]; intros h served; simpl; [set_solver|]. rewrite IH, elem_of_cons.
  destruct (decide (h = h0)) as [->|Hne].
  - rewrite lookup_insert_eq. split; [auto|]. intros _. left. eexists. split; [done|set_solver].
  - rewrite lookup_insert_ne by done. naive_solver.
Qed.

Lemma register_other p u hashes x h : u ≠ p → owned p (register_hashes u hashes x) h ↔ owned p x h.
Proof.
  intros Hne. unfold owned, owns, register_hashes. simpl. generalize (k_hashes (x_core x)). revert h.
  induction hashes as [|h0 hashes IH]; intros h served; simpl; [done|]. rewrite IH.
  destruct (decide (h = h0)) as [->|Hne']; [|by rewrite lookup_insert_ne].
  rewrite lookup_insert_eq. destruct (served !! h0) as [owners|] eqn:E; simpl; split.
  - intros (o & [= <-] & Ho). exists owners. set_solver.
  - intros (o & [= <-] & Ho). eexists. split; [done|set_solver].
  - intros (o & [= <-] & Ho). set_solver.
  - by intros (o & ? & _).
Qed.

Lemma register_good i u hashes x :
  inv x → (u = t → locked i x ∧ phase t x = Live) → good i x (register_hashes u hashes x).
Proof.
  intros Hi Hu. destruct (decide (u = t)) as [->|Hne].
  - destruct Hu as [Hl Hp]; [done|]. apply good_of; [done| |done]. split; auto using phase_same.
    intros h Hh. left. apply register_owns. by left.
  - apply good_elsewhere; [done|]. split; try done. intros h. by apply register_other.
Qed.

Lemma list_good i u x :
  inv x → (u = t → locked i x ∧ phase t x = Live) → good i x (on_shares (λ shares, {[u]} ∪ shares) x).
Proof.
  intros Hi Hu. apply good_of; [done| |done]. split; auto using phase_same; unfold live; simpl.
  - intros Hl. destruct (decide (u = t)) as [Eu|Hne]; [right; by apply Hu|left; set_solver].
  - intros Hl. left. set_solver.
Qed.

(** How the import of a call on [u] stands when it has ended, or is dropped. *)
Definition prepared (i : nat) (u : Z) (hashes : list string) {E A} (r : result A E) x : Prop :=
  u = t → mine t i x ∧ match r with Ok _ => published t asked hashes x | Err _ => preparing t i x end.

Lemma stays_prepared i u hashes {E A} (r : result A E) : stays i (prepared i u hashes r).
Proof. unfold prepared. destruct r; stays_tac. Qed.

Lemma task_complete_import i (D : Runtime V → Prop) metadata name sender ticket import :
  let u := mi_transfer_id metadata in
  (∀ x, inv x → (u = t → preparing t i x) → D x) →
  task i D (λ x, (u = t → preparing t i x) ∧ locked i x)
    (repo (complete_share_import (published_upsert metadata name sender ticket import)))
    (λ r x, match r with
            | Ok _ => u = t → mine t i x ∧ phase t x = Live
            | Err _ => u = t → preparing t i x
            end ∧ locked i x).
Proof.
  intros u HD. apply triple_section.
  - stays_tac.
  - intros [[]|e]; [|stays_tac]. intros x x' Hi [Hx Hl] Hr.
    destruct (others_facts t asked i x x' Hi Hr) as (Hlk & _ & _ & Hlive & Hmine & _).
    split; [|by apply Hlk]. intros Eu. destruct (Hx Eu). split; [by apply Hmine|by apply Hlive].
  - intros x Hi [Hx _]. by apply HD.
  - intros x n Hi [Hx Hl]. apply wp_zoom, wp_zoom.
    eapply wp_mono; [apply (wp_complete_share_import t)|]. intros [[]|e] h' n'; simpl; fold u.
    + intros [Hm Ho]. assert (good i x (put_history h' x)) as [Hg Hi'].
      { destruct Hm as [E|(Et & Hin & E)]; apply good_history; try done; [by apply phase_same|].
        apply list_elem_of_singleton in Hin. destruct (Hx (eq_sym Et)) as (Hmine & _).
        by apply phase_published. }
      split_and!; [done|done| |done]. intros Eu. split; [by apply (Hx Eu)|by apply Ho].
    + intros E. destruct (good_elsewhere i x (put_history h' x) Hi (aside_history x h' E)) as [Hg Hi'].
      split_and!; [done|done| |done]. intros Eu. destruct (Hx Eu) as (Hmine & Hp & Hs).
      split_and!; [done| |done]. unfold phase. simpl. change (at_phase t h' = Preparing ∨ at_phase t h' = Ended).
      by rewrite E.
Qed.

Lemma task_register i (D : Runtime V → Prop) u hashes {E} :
  (∀ x, inv x → (u = t → mine t i x) → D x) →
  task i D (λ x, (u = t → mine t i x ∧ phase t x = Live) ∧ locked i x)
    (sync (E:=E) (register_hashes u hashes)) (λ r x, r = Ok tt ∧ (u = t → registered i hashes x) ∧ locked i x).
Proof.
  intros HD. apply triple_section.
  - intros x x' Hi [Hx Hl] Hr. destruct (others_facts t asked i x x' Hi Hr) as (Hlk & _ & _ & Hlive & Hmine & _).
    split; [|by apply Hlk]. intros Eu. destruct (Hx Eu). split; [by apply Hmine|by apply Hlive].
  - intros r. apply stable_and, stable_and; [apply stable_pure|apply stable_impl, stays_registered|apply stays_locked].
  - intros x Hi [Hx _]. apply HD; [done|]. intros Eu. by apply Hx.
  - intros x n Hi [Hx Hl]. apply wp_modify. destruct (register_good i u hashes x Hi) as [Hg Hi'].
    { intros Eu. split; [done|by apply Hx]. }
    split_and!; [done|done|done| |done]. intros ->. destruct (Hx eq_refl). split_and!; [done|done|done|].
    intros h Hin. apply register_owns. by right.
Qed.

(** Who may fetch the content is set before the share is listed. *)
Lemma task_open i (D : Runtime V → Prop) u mode hashes :
  (∀ x, inv x → (u = t → mine t i x) → D x) → (u = t → asked mode) →
  task i D (λ x, (u = t → registered i hashes x) ∧ locked i x) (in_policy (set_mode u mode))
    (λ r x, match r with Ok _ => (u = t → opened i hashes x) ∧ locked i x | Err _ => False end).
Proof.
  intros HD Hm. apply task_policy.
  - apply stable_and; [apply stable_impl, stays_registered|apply stays_locked].
  - apply stable_and; [apply stable_impl, stays_opened|apply stays_locked].
  - intros x Hi [Hx _]. apply HD; [done|]. intros Eu. by apply Hx.
  - intros x n Hi [Hx Hl]. apply wp_modify. unfold opened, moded, policy_mode. simpl.
    destruct (decide (u = t)) as [->|Hne].
    + rewrite lookup_insert_eq. split_and!; [done|intros Eu|done|right; right; eauto].
      split; [by apply Hx|eauto].
    + rewrite lookup_insert_ne by done. split_and!; [done|done|done|by left].
Qed.

Lemma task_list i (D : Runtime V → Prop) u hashes {E} :
  (∀ x, inv x → (u = t → mine t i x) → D x) →
  task i D (λ x, (u = t → opened i hashes x) ∧ locked i x)
    (sync (E:=E) (on_shares (λ shares, {[u]} ∪ shares)))
    (λ r x, r = Ok tt ∧ prepared i u hashes (E:=unit) (Ok tt) x ∧ locked i x).
Proof.
  intros HD. apply triple_section.
  - apply stable_and; [apply stable_impl, stays_opened|apply stays_locked].
  - intros r. apply stable_and, stable_and; [apply stable_pure|apply stays_prepared|apply stays_locked].
  - intros x Hi [Hx _]. apply HD; [done|]. intros Eu. by apply Hx.
  - intros x n Hi [Hx Hl]. apply wp_modify. destruct (list_good i u x Hi) as [Hg Hi'].
    { intros Eu. split; [done|by apply (Hx Eu)]. }
    split_and!; [done|done|done| |done]. intros ->. destruct (Hx eq_refl) as [(Hm & _ & Hp & Hh) Hd].
    split; [done|]. right. split_and!; [done| |done|done]. unfold live. simpl. set_solver.
Qed.

Lemma task_publish i (D : Runtime V → Prop) metadata name sender ticket tag import :
  let u := mi_transfer_id metadata in
  let hashes := ti_root_hash import :: ti_member_hashes import in
  (∀ x, inv x → (u = t → mine t i x) → D x) → (u = t → asked (mi_access_mode metadata)) →
  task i D (λ x, (u = t → preparing t i x) ∧ idle i x)
    (publish_share i metadata name sender ticket tag import)
    (λ r x, prepared i u hashes r x ∧ idle i x).
Proof.
  intros u hashes HD Hasked. assert (∀ x, (u = t → preparing t i x) → u = t → mine t i x) as Hmine.
  { intros x Hx Eu. by apply Hx. }
  apply (task_with_lock i D (λ x, u = t → preparing t i x)).
  - stays_tac.
  - by intros l x Hx.
  - intros r. apply stays_prepared.
  - intros r l x Hx Eu. by destruct r; apply Hx.
  - auto.
  - intros r x Hi Hx. apply HD; [done|]. intros Eu. by apply Hx.
  - eapply (triple_fbind _ _ _ _ _ _ _ _ _ (λ r x, match r with
      | Ok (Ok _) => (u = t → mine t i x ∧ phase t x = Live) ∧ locked i x
      | Ok (Err _) => (u = t → preparing t i x) ∧ locked i x
      | Err _ => False end)).
    { apply triple_outcome.
      - eapply (triple_mono _ _ _ _ _ D); [apply (task_complete_import i D)|by intros x|done|by intros [] x _ Hx].
        intros x Hi Hx. apply HD; [done|]. intros Eu. by apply Hx.
      - intros [[[]|e]|e]; [|stays_tac|stays_tac].
        intros x x' Hi [Hx Hl] Hr. destruct (others_facts t asked i x x' Hi Hr) as (Hlk & _ & _ & Hlive & Hmy & _).
        split; [|by apply Hlk]. intros Eu. destruct (Hx Eu). split; [by apply Hmy|by apply Hlive]. }
    2: { intros e. split; [|done]. apply stable_and; [apply stays_prepared|apply stays_locked]. }
    intros [[]|e].
    + eapply triple_fbind; [apply (task_register i D u hashes); auto| |].
      2: { intros e. split; [|by intros x _ [? _]]. apply stable_and; [apply stays_prepared|apply stays_locked]. }
      intros [].
      eapply triple_step; [by apply (task_open i D u (mi_access_mode metadata) hashes)|by intros x _ (_ & Hx)| |].
      { intros e. split; [apply stable_and; [apply stays_prepared|apply stays_locked]|]. done. }
      intros []. eapply triple_mono; [by apply (task_list i D u hashes)|done|done|].
      intros r x _ (-> & Hx & Hl). split; [|done]. intros Eu. by apply Hx.
    + eapply triple_step; [apply (triple_outcome _ _ _ _ _ _ _ _ (λ r x, match r with
          | Ok _ => (u = t → preparing t i x) ∧ locked i x | Err _ => False end)); [apply task_tags_delete|]| | |].
      * stays_tac.
      * intros x Hi [Hx _]. auto.
      * intros [[]|]; stays_tac.
      * done.
      * intros e'. split; [|done]. apply stable_and; [apply stays_prepared|apply stays_locked].
      * intros r. apply triple_return; [apply stable_and; [apply stays_prepared|apply stays_locked]|].
        intros x _ [Hx Hl]. split; [|done]. intros Eu. split; [by apply Hx|by apply Hx].
Qed.

(** *** Preparing *)

Variable limits : CoreLimits.
Variable custom_relay_urls : list RelayUrl.

(** A section that leaves everything as it is. *)
Lemma task_still i D P {E A} (m : M (Runtime V) E A) :
  stays i P → (∀ x, inv x → P x → D x) → (∀ x n, wp m x n (λ _ x' _, x' = x)) →
  task i D P (section m) (λ _, P).
Proof.
  intros HP HD Hm. apply task_quiet; [done|done|]. intros x n. eapply wp_mono; [apply Hm|]. by intros r x' n' ->.
Qed.

(** A fact that no task can change is a hypothesis. *)
Lemma triple_when i (D P : Runtime V → Prop) (φ : Prop) {A} (p : Async (Runtime V) A) Q :
  (φ → task i D P p Q) → task i D (λ x, P x ∧ φ) p Q.
Proof. intros Hp x Hi [Hx Hφ]. by apply (Hp Hφ). Qed.

(** … and what it yields is known. *)
Lemma task_value i D P {E A} (m : M (Runtime V) E A) (φ : result A E → Prop) :
  stays i P → (∀ x, inv x → P x → D x) → (∀ x n, wp m x n (λ r x' _, x' = x ∧ φ r)) →
  task i D P (section m) (λ r x, P x ∧ φ r).
Proof.
  intros HP HD Hm. apply triple_section; [done|intros r; by apply stable_and, stable_pure|done|].
  intros x n Hi Hx. eapply wp_mono; [apply Hm|]. intros r x' _ [-> Hr].
  destruct (good_elsewhere i x x Hi) as [Hg Hi']; [done|]. by split_and!.
Qed.

#[local] Existing Instance by_name_dec.

(** What importing the sources comes to: each file they name, added to the store, and the
    collection of them by name. *)
Definition imports (sources : list ShareSource) (import : TransferImport) : Prop :=
  ∃ n1 n2 n3 n4 scratch files imported,
    collect_import_files_with_limits sources limits {| im_open := open_fds n1; im_files := [] |} n2 =
      (Ok files, scratch, n3) ∧
    collect_results id (arrive n4 (imap (λ i file, import_file limits (n4 + i)%nat file) files)) = Ok imported ∧
    (∃ n5, store_collection n5 (order_by by_name imported).*1 = Ok (ti_root_hash import)) ∧
    ti_member_hashes import = (order_by by_name imported).*1.*2 ∧
    ti_file_count import = Z.of_nat (length imported) ∧
    checked_sum 0 (order_by by_name imported).*2 = Some (ti_total_size import).

Lemma task_import_sources i D P sources :
  stays i P → (∀ x, inv x → P x → D x) →
  task i D P (import_sources limits sources)
    (λ r x, P x ∧ ∀ import, r = Ok import → imports sources import).
Proof.
  intros HP HD. set (Q := λ (r : result TransferImport AnyhowError) x, _).
  assert (∀ r, stays i (Q r)) as HQ by (intros r; by apply stable_and, stable_pure).
  assert (∀ e, stays i (Q (Err e)) ∧ ∀ x, inv x → P x → Q (Err e) x) as HE by (intros e; by split).
  eapply (triple_fbind _ _ _ _ _ _ _ _ _ (λ r x, P x ∧ ∀ files, r = Ok files → ∃ n1 n2 n3 scratch,
    collect_import_files_with_limits sources limits {| im_open := open_fds n1; im_files := [] |} n2 =
      (Ok files, scratch, n3))).
  { apply task_value; [done|done|]. intros x n. unfold wp.
    destruct (collect_import_files_with_limits _ _ _ _) as [[r scratch] n'] eqn:E. split; [done|].
    intros files ->. by eexists n, _, _, _. }
  2: { intros e. split; [apply HE|]. intros x Hi [Hx _]. by apply HE. }
  intros files. eapply (triple_mono _ _ _ _ _ D _ (λ x, P x ∧ ∃ n1 n2 n3 scratch,
    collect_import_files_with_limits sources limits {| im_open := open_fds n1; im_files := [] |} n2 =
      (Ok files, scratch, n3))); [|by intros x _ [Hx Hf]; split; [|apply Hf]|done|done].
  apply triple_when. intros (n1 & n2 & n3 & scratch & Hfiles).
  eapply (triple_fbind _ _ _ _ _ _ _ _ _ (λ r x, P x ∧ ∀ imported, r = Ok imported → ∃ n4,
    collect_results id (arrive n4 (imap (λ i file, import_file limits (n4 + i)%nat file) files)) = Ok imported)).
  { apply task_value; [done|done|]. intros x n. split; [done|]. intros imported E. by exists n. }
  2: { intros e. split; [apply HE|]. intros x Hi [Hx _]. by apply HE. }
  intros imported. eapply (triple_mono _ _ _ _ _ D _ (λ x, P x ∧ ∃ n4,
    collect_results id (arrive n4 (imap (λ i file, import_file limits (n4 + i)%nat file) files)) = Ok imported));
    [|by intros x _ [Hx Hf]; split; [|apply Hf]|done|done].
  apply triple_when. intros (n4 & Himported).
  cbv zeta. destruct (checked_sum _ _) as [total|] eqn:Hsum; [|by apply triple_return; [apply HQ|]].
  destruct (max_total_bytes limits <? total); [by apply triple_return; [apply HQ|]|].
  eapply (triple_fbind _ _ _ _ _ _ _ _ _ (λ r x, P x ∧ ∀ root, r = Ok root → ∃ n5,
    store_collection n5 (order_by by_name imported).*1 = Ok root)).
  { apply task_value; [done|done|]. intros x n. split; [done|]. intros root E. by exists n. }
  2: { intros e. split; [apply HE|]. intros x Hi [Hx _]. by apply HE. }
  intros root. apply triple_return; [apply HQ|]. intros x _ [Hx Hroot]. split; [done|]. intros import [= <-].
  exists n1, n2, n3, n4, scratch, files, imported. split_and!; [done|done|by apply Hroot|done| |done].
  simpl. f_equal. by rewrite (order_by_permutation by_name).
Qed.

(** A share that was returned is of the content imported for it. *)
Definition shares_import (sources : list ShareSource) (shared : ShareResult) (import : TransferImport) : Prop :=
  imports sources import ∧ sr_hash shared = ti_root_hash import ∧
  sr_file_count shared = ti_file_count import ∧ sr_total_size shared = ti_total_size import.

(** How the import of the sources of a call on [u] stands. *)
Definition shared_or_not (i : nat) (sources : list ShareSource) (u : Z) {E} (r : result ShareResult E) x : Prop :=
  u = t → mine t i x ∧ match r with
    | Ok shared => ∃ import, shares_import sources shared import ∧
        published t asked (ti_root_hash import :: ti_member_hashes import) x
    | Err _ => preparing t i x
    end.

Lemma stays_some_import i sources shared : stays i (λ x, ∃ import, shares_import sources shared import ∧
  published t asked (ti_root_hash import :: ti_member_hashes import) x).
Proof.
  intros x x' Hi (import & Hs & Hp) Hr. exists import. split; [done|].
  by apply (stays_published t asked i _ x).
Qed.

Lemma stays_shared i sources u {E} (r : result ShareResult E) : stays i (shared_or_not i sources u r).
Proof.
  unfold shared_or_not. apply stable_impl, stable_and; [stays_tac|].
  destruct r; [apply stays_some_import|stays_tac].
Qed.

Lemma task_share_inner i (D : Runtime V → Prop) sources metadata :
  let u := mi_transfer_id metadata in
  (∀ x, inv x → (u = t → mine t i x) → D x) → (u = t → asked (mi_access_mode metadata)) →
  task i D (λ x, (u = t → preparing t i x) ∧ idle i x)
    (share_files_inner limits custom_relay_urls i sources metadata)
    (λ r x, shared_or_not i sources u r x ∧ idle i x).
Proof.
  intros u HD Hasked. set (P := λ x, (u = t → preparing t i x) ∧ idle i x).
  assert (stays i P) as HP by (unfold P; stays_tac).
  assert (∀ x, inv x → P x → D x) as HDP.
  { intros x Hi [Hx _]. apply HD; [done|]. intros Eu. by apply Hx. }
  assert (∀ r : result ShareResult AnyhowError, stays i (λ x, shared_or_not i sources u r x ∧ idle i x)) as HQ.
  { intros r. apply stable_and; [apply stays_shared|apply stays_idle]. }
  assert (∀ e : AnyhowError, stays i (λ x, shared_or_not i sources u (Err e) x ∧ idle i x) ∧
    ∀ x, inv x → P x → shared_or_not i sources u (Err e) x ∧ idle i x) as HE.
  { intros e. split; [apply (HQ (Err e))|]. intros x _ [Hx Hl]. split; [|done]. intros Eu. split; by apply Hx. }
  unfold share_files_inner. eapply triple_fbind; [by apply task_import_sources| |].
  2: { intros e. split; [apply HE|]. intros x Hi [Hx _]. by apply HE. }
  intros import. eapply (triple_mono _ _ _ _ _ D _ (λ x, P x ∧ imports sources import));
    [apply triple_when; intros Himport|by intros x _ [Hx Hi]; split; [|apply Hi]|done|intros r x _ Hq; exact Hq].
  eapply triple_fbind; [by apply task_still| |exact HE]. intros blob_ticket.
  eapply triple_fbind; [by apply task_still| |exact HE]. intros ticket_metadata.
  destruct (encode_ticket _) as [ticket|error]; [|apply triple_return; apply HE].
  eapply (triple_fbind _ _ _ _ _ _ _ _ _ (λ _, P)); [| |exact HE].
  { apply triple_map_err; [|done]. apply task_repo_read; [done|done|]. intros. apply wp_local_id. }
  intros local_id. eapply triple_fbind; [by apply task_tags_set| |exact HE]. intros [].
  eapply triple_fbind; [by apply task_publish| |].
  - intros []. apply triple_return; [apply (HQ (Ok _))|]. intros x _ [Hx Hl]. split; [|done].
    intros Eu. destruct (Hx Eu) as [Hm Hp]. split; [done|]. by exists import.
  - intros e. split; [apply (HQ (Err e))|]. intros x _ [Hx Hl]. split; [|done]. intros Eu. by apply Hx.
Qed.

(** Refused before a row was written, or by the database. *)
Definition refused (e : AnyhowError) : Prop :=
  ∃ c, e = anyhow_vnidrop (repository c) ∨ e = anyhow_vnidrop (invalid_input c).

(** How a call that prepares a share on [u] leaves it. *)
Definition settled (i : nat) (sources : list ShareSource) (u : Z) (r : result ShareResult AnyhowError) x : Prop :=
  u = t → match r with
          | Ok shared => ∃ import, shares_import sources shared import ∧
              published t asked (ti_root_hash import :: ti_member_hashes import) x
          | Err e => preparing t i x ∨ withdrawn t x ∨ refused e
          end.

Lemma stays_settled i sources u r : stays i (settled i sources u r).
Proof.
  unfold settled. apply stable_impl. destruct r; [apply stays_some_import|stays_tac].
Qed.

(** Synchronous code that leaves the transfer alone. *)
Lemma task_sync i D P {E} (f : Runtime V → Runtime V) :
  stays i P → (∀ x, inv x → P x → D x) → (∀ x, aside x (f x)) →
  task i D P (sync (E:=E) f) (λ r x, match r with Ok _ => P x | Err _ => False end).
Proof.
  intros HP HD Hf. apply triple_section; [done| |done|].
  { intros r. apply stable_case; [done|intros; apply stable_pure]. }
  intros x n Hi Hx. apply wp_modify. destruct (good_elsewhere i x (f x) Hi (Hf x)) as [Hg Hi'].
  split_and!; [done|done|]. by apply (stays_elsewhere i P x).
Qed.

Lemma task_fail_preparation i u :
  task i (λ _, True) (λ x, (u = t → preparing t i x) ∧ idle i x)
    (outcome (F:=AnyhowError) (repo (transition_transfer_status u States.Importing Failed)))
    (λ r x, match r with Ok _ => (u = t → preparing t i x) ∧ idle i x | Err _ => False end).
Proof.
  apply triple_outcome; [|intros [r|e]; [stays_tac|apply stable_pure]].
  apply triple_section; [stays_tac|stays_tac|done|]. intros x n Hi [Hx Hl]. apply wp_zoom, wp_zoom.
  eapply wp_mono; [apply (wp_transition_phase t)|]. intros r h' n' [Hm _].
  destruct (good_moved i u [Preparing] x h' Hi Hm) as [Hg Hi'].
  { intros p ->%list_elem_of_singleton. by left. }
  split_and!; [done|done| |done]. intros Eu. destruct (Hx Eu) as (Hmine & Hp & Hs). split_and!; [done| |done].
  change (at_phase t h' = Preparing ∨ at_phase t h' = Ended).
  destruct Hm as [Em|(_ & _ & Em)]; rewrite Em; [exact Hp|by right].
Qed.

Lemma task_import_or_cancel i sources metadata :
  let u := mi_transfer_id metadata in
  (u = t → asked (mi_access_mode metadata)) →
  task i (λ _, True) (λ x, (u = t → preparing t i x) ∧ idle i x)
    (import_or_cancel limits custom_relay_urls i sources metadata)
    (λ r x, settled i sources u r x ∧ idle i x).
Proof.
  intros u Hasked. assert (∀ r, stays i (λ x, settled i sources u r x ∧ idle i x)) as HQ.
  { intros r. apply stable_and; [apply stays_settled|apply stays_idle]. }
  unfold import_or_cancel. eapply triple_step; [| |intros e; split; [apply HQ|]|].
  - apply (task_quiet i _ (λ x, (u = t → preparing t i x) ∧ idle i x)); [stays_tac|done|].
    intros x n. apply wp_modify. by split.
  - done.
  - intros x _ [Hx Hl]. split; [|done]. intros Eu. left. by apply Hx.
  - intros []. eapply (triple_bind _ _ _ _ _ _ _ _ _ (λ raced x, match raced with
      | Some r => shared_or_not i sources u r x
      | None => u = t → mine t i x end ∧ idle i x)).
    + eapply (triple_race _ _ _ _ _ (λ x, u = t → mine t i x)).
      * apply triple_map_err; [|intros r; apply stable_and; [apply stays_shared|apply stays_idle]].
        eapply triple_mono; [by apply (task_share_inner i (λ x, u = t → mine t i x))|done|done|].
        by intros [] x _ Hx.
      * stays_tac.
      * intros x Hi Hx. split; [done|]. intros _. unfold release. destruct (bool_decide_reflect (x_lock x = Some i)) as [E|E].
        -- destruct (set_lock_good i None x Hi) as [Hg Hi']; [by right|]. by split_and!.
        -- destruct (good_elsewhere i x x Hi) as [Hg Hi']; [done|]. by split_and!.
    + intros raced. set (P := λ x, match raced with
        | Some r => shared_or_not i sources u r x
        | None => u = t → mine t i x end ∧ idle i x).
      assert (stays i P) as HP.
      { unfold P. destruct raced; [apply stable_and; [apply stays_shared|apply stays_idle]|stays_tac]. }
      eapply (triple_fbind _ _ _ _ _ _ _ _ _ (λ r x, match r with Ok _ => P x | Err _ => False end)).
      * by apply task_sync.
      * intros []. destruct raced as [[shared|error]|].
        -- apply triple_return; [apply HQ|]. intros x _ [Hx Hl]. split; [|done]. intros Eu. by apply Hx.
        -- eapply triple_step; [apply task_fail_preparation| |intros e; split; [apply HQ|done]|].
           { intros x _ [Hx Hl]. split; [|done]. intros Eu. by apply Hx. }
           intros r. apply triple_return; [apply HQ|]. intros x _ [Hx Hl]. split; [|done]. intros Eu. left. by apply Hx.
        -- eapply (triple_step _ _ _ _ _ _ _ (idle i) _ _ (λ r x, match r with
             | Ok _ => (u = t → withdrawn t x) ∧ idle i x
             | Err e => (∃ c, e = anyhow_vnidrop (repository c)) ∧ idle i x end)).
           { apply triple_map_err; [|intros [[]|e]; stays_tac].
             eapply triple_mono; [by apply (task_cancel_preparation i (λ _, True))|done|done|].
             intros [[]|e] x _ [Hx Hl]; (split; [|done]); [intros Eu; by apply Hx|by eexists]. }
           { by intros x _ [_ Hl]. }
           { intros e. split; [apply HQ|]. intros x _ [[c Hc] Hl]. split; [|done]. intros Eu. right; right. exists c. by left. }
           intros []. apply triple_return; [apply HQ|]. intros x _ [Hx Hl]. split; [|done]. intros Eu. right; left. by apply Hx.
      * intros e. split; [apply HQ|done].
Qed.

Lemma check_share_refused sources metadata e : check_share limits sources metadata = Err e → refused e.
Proof.
  unfold check_share, invalid_share. destruct (bool_decide _); [intros [= <-]; eexists; by right|].
  destruct (_ <? _); [intros [= <-]; eexists; by right|].
  destruct (validate_metadata_text limits "transfer name" _) as [|e1]; simpl; [|intros [= <-]; eexists; by right].
  destruct (validate_metadata_text limits "sender name" _) as [|e1]; simpl; [done|intros [= <-]; eexists; by right].
Qed.

Lemma task_insert_share i metadata :
  let u := mi_transfer_id metadata in
  task i (λ _, True) (idle i) (section (insert_share i (upsert_of metadata)))
    (λ r x, match r with Ok _ => u = t → preparing t i x | Err _ => True end ∧ idle i x).
Proof.
  intros u. apply triple_section; [stays_tac|intros [[]|e]; stays_tac|done|]. intros x n Hi Hl. unfold insert_share.
  assert (wp (in_x_history (insert_transfer (upsert_of metadata))) x n (λ r x' _, ∃ h', x' = put_history h' x ∧
    match r with
    | Ok _ => t ≠ u ∧ at_phase t h' = phase t x ∨ t = u ∧ phase t x = NoShare ∧ at_phase t h' = Preparing
    | Err _ => at_phase t h' = phase t x
    end)) as Hw.
  { apply wp_zoom, wp_zoom. eapply wp_mono; [by apply (wp_insert_share_row t)|].
    intros [[]|e] h' n' Hr; exists h'; (split; [done|]); [exact Hr|by rewrite Hr]. }
  unfold wp in *. destruct (in_x_history _ x n) as [[[[]|e] x'] n']; destruct Hw as (h' & -> & Hr).
  - change (u_transfer_id (upsert_of metadata)) with u. set (x' := on_importers _ _).
    assert (∀ Hs : served t x', served t x) as Hsv by done.
    destruct Hr as [[Hne E]|(Et & E0 & E)].
    + assert (aside x x') as He.
      { split; [done|exact E| |done|done|done]. unfold x'. simpl. by rewrite lookup_insert_ne. }
      destruct (good_elsewhere i x x' Hi He) as [Hg Hi']. split_and!; [done|done| |done]. intros Eu. congruence.
    + assert (importers x' !! t = Some i) as Hm by (unfold x'; simpl; by rewrite Et, lookup_insert_eq).
      assert (phase t x' = Preparing) as Ep by exact E.
      assert (¬ served t x') as Hn.
      { intros Hs. destruct (inv_served t x Hi (Hsv Hs)); congruence. }
      split_and!; [|split|intros _; split_and!; [done|by left|done]|done].
      * split; auto. by apply phase_created.
      * done.
      * intros _. by rewrite Ep.
  - destruct (good_elsewhere i x (put_history h' x) Hi (aside_history x h' Hr)) as [Hg Hi']. by split_and!.
Qed.

Lemma task_share_files i sources metadata :
  (mi_transfer_id metadata = t → asked (mi_access_mode metadata)) →
  task i (λ _, True) (idle i) (share_files limits custom_relay_urls i sources metadata)
    (λ r x, settled i sources (mi_transfer_id metadata) r x ∧ idle i x).
Proof.
  intros Hasked. set (u := mi_transfer_id metadata). assert (∀ r, stays i (λ x, settled i sources u r x ∧ idle i x)) as HQ.
  { intros r. apply stable_and; [apply stays_settled|apply stays_idle]. }
  assert (∀ e x, refused e → idle i x → settled i sources u (Err e) x ∧ idle i x) as Href.
  { intros e x He Hl. split; [|done]. intros _. by right; right. }
  unfold share_files. destruct (check_share limits sources metadata) as [[]|e] eqn:Ec.
  2: { apply triple_return; [apply HQ|]. intros x _ Hl. by eapply Href, Hl; eapply check_share_refused. }
  eapply (triple_step _ _ _ _ _ _ _ (idle i) _ _ (λ r x, match r with Err e => refused e | Ok _ => True end ∧ idle i x)).
  - apply triple_map_err; [|intros [|]; stays_tac].
    apply triple_section; [stays_tac|intros [|]; stays_tac|done|]. intros x n Hi Hl.
    apply wp_zoom, wp_in_tables. unfold contains_protocol_id. apply wp_query.
    + intros e. assert (aside x (set_x_core (set_tables (k_tables (x_core x)) (x_core x)) x)) as He by done.
      destruct (good_elsewhere i x _ Hi He) as [Hg Hi']. split_and!; [done|done| |done]. eexists. by left.
    + assert (aside x (set_x_core (set_tables (k_tables (x_core x)) (x_core x)) x)) as He by done.
      destruct (good_elsewhere i x _ Hi He) as [Hg Hi']. by split_and!.
  - done.
  - intros e. split; [apply HQ|]. intros x _ [He Hl]. by apply Href.
  - intros [].
    { apply triple_return; [apply HQ|]. intros x _ [_ Hl]. apply Href; [|done]. eexists. by right. }
    eapply (triple_step _ _ _ _ _ _ _ (idle i) _ _ (λ r x, match r with
      | Ok _ => u = t → preparing t i x | Err e => refused e end ∧ idle i x)).
    + apply triple_map_err; [|intros [[]|]; stays_tac].
      eapply triple_mono; [apply task_insert_share|done|done|]. intros [[]|e] x _ [Hx Hl]; (split; [|done]); [done|].
      eexists. by left.
    + by intros x _ [_ Hl].
    + intros e. split; [apply HQ|]. intros x _ [He Hl]. by apply Href.
    + intros []. by apply task_import_or_cancel.
Qed.

(** *** The other calls *)

Lemma task_then i D {A B} (p : Async (Runtime V) A) (f : A → Async (Runtime V) B) (R : A → Runtime V → Prop) Q :
  task i D (idle i) p R → (∀ a x, R a x → idle i x) → (∀ a, task i D (idle i) (f a) Q) →
  task i D (idle i) (abind p f) Q.
Proof.
  intros Hp HR Hf. eapply triple_bind; [exact Hp|]. intros a.
  eapply triple_mono; [apply Hf|intros x _; apply HR|done|done].
Qed.

(** A call that changes nothing of the transfer keeps [idle]. *)
Abbreviation keeps i p := (task i (λ _, True) (idle i) p (λ _, idle i)).

Lemma keeps_fbind i {E A B} (p : Fut (Runtime V) E A) (f : A → Fut (Runtime V) E B) :
  keeps i p → (∀ a, keeps i (f a)) → keeps i (fbind p f).
Proof. intros Hp Hf. eapply triple_fbind; [exact Hp|exact Hf|]. intros e. split; [apply stays_idle|done]. Qed.

Lemma keeps_return i {A} (a : A) : keeps i (Return a).
Proof. by apply triple_return; [apply stays_idle|]. Qed.

Lemma keeps_map_err i {E F A} (h : E → F) (p : Fut (Runtime V) E A) : keeps i p → keeps i (fmap_err h p).
Proof. intros Hp. apply triple_map_err; [exact Hp|]. intros r. apply stays_idle. Qed.

Lemma keeps_repo i {A} (m : M History AnyhowError A) :
  (∀ h n, wp m h n (λ _ h' _, at_phase t h' = at_phase t h)) → keeps i (repo m).
Proof. intros Hm. by apply task_repo_quiet; [apply stays_idle|..]. Qed.

Lemma keeps_repo_read i {A} (m : M History AnyhowError A) :
  (∀ h n, wp m h n (λ _ h' _, h' = h)) → keeps i (repo m).
Proof. intros Hm. by apply task_repo_read; [apply stays_idle|..]. Qed.

Lemma keeps_policy i (m : M AccessPolicy AnyhowError unit) :
  (∀ x n, wp m (k_access (x_core x)) n (λ r p _, r = Ok tt ∧
     (modes p !! t = policy_mode t x ∨ phase t x = Ended ∨ moded t asked (put_access p x)))) →
  keeps i (in_policy m).
Proof.
  intros Hm. eapply triple_mono; [apply (task_policy i (λ _, True) (idle i) (idle i)); [apply stays_idle|apply stays_idle|done|]|done|done|by intros []].
  intros x n _ Hx. eapply wp_mono; [apply Hm|]. by intros r p n' [-> Hp].
Qed.

(** A look at the shares while nobody holds the lock. *)
Lemma keeps_waiting i {A} (m : M (Runtime V) AnyhowError A) :
  (∀ x n, wp m x n (λ _ x' _, inv x → good i x x' ∧ x_lock x' = x_lock x)) → keeps i (waiting free m).
Proof.
  intros Hm. apply triple_waiting; [apply stays_idle|intros; apply stays_idle|done| |].
  - intros x _ Hx. by apply free_idle.
  - intros x n Hi Hx _. eapply wp_mono; [apply Hm|]. intros r x' n' Hr. destruct (Hr Hi) as [[Hg Hi'] El].
    split_and!; [done|done|]. unfold idle. by rewrite El.
Qed.

Lemma keeps_facts i preparations : keeps i (runtime_obligation_facts preparations).
Proof.
  assert (∀ x, inv x → good i x x ∧ x_lock x = x_lock x) as Hsame.
  { intros x Hi. split; [|done]. by apply good_elsewhere. }
  apply keeps_fbind; [by apply task_still; [apply stays_idle|..]|]. intros transfers.
  apply keeps_fbind; [apply keeps_waiting|intros shares].
  { intros x n. apply wp_bind, wp_get, wp_ret, Hsame. }
  apply keeps_fbind; [apply keeps_map_err|intros receiving].
  { apply task_quiet; [apply stays_idle|done|]. intros x n. apply wp_zoom, wp_in_tables, wp_any. intros. by split. }
  apply keeps_fbind; [apply keeps_map_err|intros serving; apply keeps_return].
  apply task_quiet; [apply stays_idle|done|]. intros x n. apply wp_zoom, wp_in_tables, wp_any. intros. by split.
Qed.

Lemma keeps_set_mode i u mode : (u = t → asked mode) → keeps i (set_transfer_access_mode u mode).
Proof.
  intros Hm. apply keeps_fbind; [apply keeps_repo; intros; apply wp_update_mode|]. intros _.
  apply keeps_policy. intros x n. apply wp_modify. split; [done|]. unfold moded, policy_mode. simpl.
  destruct (decide (u = t)) as [->|Hne]; [right; right|left; by rewrite lookup_insert_ne].
  rewrite lookup_insert_eq. eauto.
Qed.

Lemma keeps_remove i u : u ≠ t → keeps i (in_policy (remove_transfer u)).
Proof.
  intros Hne. apply keeps_policy. intros x n. apply wp_bind, wp_modify, wp_modify. split; [done|left].
  simpl. by rewrite lookup_delete_ne.
Qed.

Lemma keeps_approve i u endpoint_id : keeps i (approve_endpoint_for_transfer limits u endpoint_id).
Proof.
  unfold approve_endpoint_for_transfer. destruct (str_is_empty _); [apply keeps_return|].
  destruct (_ <? _); [apply keeps_return|]. apply keeps_fbind; [apply keeps_waiting|].
  - intros x n. apply wp_bind, wp_get, wp_ret. intros Hi. split; [|done]. by apply good_elsewhere.
  - intros []; [|apply keeps_return]. apply keeps_policy. intros x n. apply wp_bind, wp_now_ms, wp_modify. by auto.
Qed.

Lemma keeps_response i job : keeps i (section (zoom x_service set_service (step_response job))).
Proof.
  apply task_quiet; [apply stays_idle|done|]. intros x n. apply wp_zoom.
  assert (wp (step_response job) (x_service x) n (λ _ s' _,
    at_phase t (k_history (as_core s')) = phase t x ∧ k_hashes (as_core s') = k_hashes (x_core x) ∧
    k_access (as_core s') = k_access (x_core x))) as Hw.
  { destruct job as [| | | | | | | | | | | | | | | |id accepted reason|id accepted reason sender|]; try (by apply wp_ret).
    apply wp_bind, wp_try, wp_zoom, wp_zoom. eapply wp_mono; [apply (wp_request_status t)|].
    intros r h' n' E. apply wp_bind. destruct r as [|e], sender as [chan|]; simpl;
      [apply wp_modify| | |]; by apply wp_ret. }
  eapply wp_mono; [exact Hw|]. intros r s' n' (Ep & Eh & Ea). split; [done|exact Ep|done| |done|].
  - intros h. unfold owned, owns, x_core in *. simpl. by rewrite Eh.
  - unfold policy_mode, x_core in *. simpl. by rewrite Ea.
Qed.

Lemma keeps_refuse i requests : keeps i (refuse_requests requests).
Proof.
  induction requests as [|request requests IH]; cbn [refuse_requests]; [apply keeps_return|].
  destruct (str_eqb _ _); [|done]. apply keeps_fbind; [apply keeps_response|]. intros [next|]; [|done].
  apply keeps_fbind; [apply keeps_response|]. by intros _.
Qed.

Lemma keeps_delete i u : u ≠ t → keeps i (core_delete_transfer u).
Proof.
  intros Hne. unfold core_delete_transfer.
  apply keeps_fbind; [by apply task_still; [apply stays_idle|..]|]. intros []; [apply keeps_return|].
  apply keeps_fbind; [apply keeps_repo_read; intros; apply wp_list_stored|]. intros stored.
  destruct (stored_transfer u stored) as [transfer|]; [|apply keeps_return].
  apply keeps_fbind; [destruct (str_eqb _ _); [|apply keeps_return]|].
  { apply keeps_repo. intros h n. eapply wp_mono; [apply (wp_transition_phase t)|].
    intros r h' n' [[E|(Et & _)] _]; [done|congruence]. }
  intros _. apply keeps_fbind; [apply keeps_repo_read; intros; apply wp_list_requests|]. intros requests.
  apply keeps_fbind; [apply keeps_refuse|]. intros _. unfold forget_transfer.
  apply keeps_fbind; [apply keeps_waiting|].
  { intros x n. apply wp_modify. intros Hi. split; [|done]. by apply unlist_good. }
  intros _. apply keeps_fbind; [apply triple_section; [apply stays_idle|intros; apply stays_idle|done|]|].
  { intros x n Hi Hx. apply wp_modify. destruct (unregister_good i u x Hi) as [Hg Hi']; [done|]. by split_and!. }
  intros _. apply keeps_fbind; [by apply keeps_remove|]. intros _.
  apply keeps_fbind; [destruct (str_eqb _ _); [by apply task_tags_delete; [apply stays_idle|]|apply keeps_return]|].
  intros _. apply keeps_repo. intros h n. apply wp_delete_other. congruence.
Qed.

(** *** Every call *)

(** Calls that may come in: the transfer that is followed is not deleted, and the calls on it
    ask for those modes. *)
Definition call_ok (call : ShareCall) : Prop :=
  match call with
  | CallShare _ metadata => mi_transfer_id metadata = t → asked (mi_access_mode metadata)
  | CallSetMode u mode => u = t → asked mode
  | CallDelete u => u ≠ t
  | _ => True
  end.

(** What a call leaves when it has returned. *)
Definition returned (i : nat) (o : ShareOutcome) x : Prop :=
  match o with
  | ShareReturned sources metadata r => settled i sources (mi_transfer_id metadata) r x
  | CancelReturned u taken r => taken ≠ Some Receive → gone u r x
  | OtherReturned => True
  end ∧ idle i x.

Lemma stays_returned i o : stays i (returned i o).
Proof.
  unfold returned. apply stable_and; [|apply stays_idle]. destruct o; [apply stays_settled| |apply stable_pure].
  unfold gone. stays_tac.
Qed.

Lemma task_call i call :
  call_ok call → task i (λ _, True) (idle i) (call_program limits custom_relay_urls i call) (returned i).
Proof.
  intros Hok.
  assert (∀ A (p : Fut (Runtime V) AnyhowError A), keeps i p →
    task i (λ _, True) (idle i) (abind p (λ _, Return OtherReturned)) (returned i)) as Hother.
  { intros A p Hp. eapply task_then; [exact Hp|done|]. intros _. apply triple_return; [apply stays_returned|].
    intros x _ Hx. by split. }
  destruct call as [sources metadata|u|u mode|u endpoint_id|u|preparations]; cbn [call_program].
  - eapply triple_bind; [by apply task_share_files|]. intros r. apply triple_return; [apply stays_returned|done].
  - eapply task_then; [apply task_quiet; [apply stays_idle|done|]|done|].
    + intros x n. apply wp_bind, wp_get. destruct (active_transfers x !! u) as [[direction task]|]; [|by apply wp_ret].
      apply wp_bind, wp_modify, wp_ret. by split.
    + intros [taken|e]; [|apply triple_return; [apply stays_returned|]; intros x _ Hx; by split].
      eapply triple_bind; [by apply task_cancel_taken|]. intros r. apply triple_return; [apply stays_returned|done].
  - by apply Hother, keeps_set_mode.
  - apply Hother, keeps_approve.
  - apply Hother. by apply keeps_delete.
  - apply Hother, keeps_facts.
Qed.
End Tasks.

(** ** Any number of calls *)

Section Pool.
Context `{Env} `{ForeignText} `{!Base64} `{Addressing} `{!TicketCodec} {V : Type} `{!Neighbours V} `{Blobs}
  `{Files} `{!Importer} `{Polling}.
Variable limits : CoreLimits.
Variable custom_relay_urls : list RelayUrl.
Variable t : Z.
Variable asked : TransferAccessMode → Prop.
Implicit Types (x : Runtime V).

(** Calls come in, each as the task after the last one. *)
Definition share_entry (i : nat) (p : Async (Runtime V) ShareOutcome) : Prop :=
  ∃ call, call_ok t asked call ∧ p = call_program limits custom_relay_urls i call.

Abbreviation reaches x0 w := (rtc (pool_step share_entry (elsewhere t)) (Build_Pool [] x0) w).

Lemma reached_ok x0 w :
  share_inv t x0 → x_lock x0 = None → reaches x0 w →
  pool_ok (share_inv t) (guarantee t asked) (elsewhere t) x_lock (returned t asked limits) w.
Proof.
  intros Hi Hl. apply pool_safe.
  - intros i x x' [Gl _ _ _ _ _ _ _]. destruct Gl as [?|[[_ ?]|[_ ?]]]; auto.
  - by intros x x' [].
  - intros x x' Hx He. by eapply elsewhere_inv.
  - by intros i o x [_ Hx].
  - intros i p x (call & Hok & ->) Hx Hidle. by apply task_call.
  - split_and!; [done|done|]. simpl. by rewrite Hl.
Qed.


(** C6: Every call on a share returns. Whenever a call has not returned, some task can
    go on – none waits for a lock that is never released – and no schedule goes on for ever
    unless new calls keep coming in. *)
Theorem share_calls_return x0 w :
  share_inv t x0 → x_lock x0 = None → reaches x0 w →
  Acc (λ w2 w1, task_step w1 w2) w ∧
  ∀ i p, pool_tasks w !! i = Some p → is_done p = false → ∃ w', task_step w w'.
Proof.
  intros Hi Hl Hw. split; [apply task_step_acc|]. intros i p Hp Hd.
  eapply pool_progress; [by apply (reached_ok x0)|exact Hp|exact Hd].
Qed.
End Pool.

(** ** Witnesses *)

Section Witnesses.
#[local] Instance share_env : Env := quiet_env 1000 (λ n, pretty n).
#[local] Existing Instances demo_text demo_base64 demo_addressing.
#[local] Instance any_ticket : TicketCodec := {|
  ticket_to_json _ := Ok "ticket"%string; ticket_of_json _ := Err (anyhow_msg "json");
  address_to_json _ := Err (anyhow_msg "json"); address_of_json _ := Err (anyhow_msg "json");
  base64_error := anyhow_msg; BlobTicket := string; blob_ticket_from_str := Ok;
  blob_ticket_text b := b; blob_ticket_hash b := b; blob_ticket_addr b := addr_new b;
  blob_ticket_with_addr _ b := b |}.
#[local] Instance share_alone : Neighbours unit := {|
  neighbour_tasks _ := []; between _ k := k; patience _ := 0%nat; tag_fault _ := None |}.
#[local] Instance share_store : Blobs := {|
  hash_text_len := 4; parse_hash text := Ok text; load_collection _ _ := Ok [];
  set_tag_fault _ := None; list_tags_fault _ := None; fetch_fault _ := None |}.
#[local] Instance two_photos : Files := {|
  fs_is_dir _ _ := false; fs_walk _ _ := []; fs_len _ _ := Ok 10;
  fd_dup _ _ _ := Err (anyhow_msg "closed"); fd_mode _ _ := Err (anyhow_msg "closed") |}.
#[local] Instance photo_importer : Importer := {|
  open_fds _ := ∅; open_fault _ _ := None;
  add_items _ file := match file with
    | FromPath path => [ASize 10; AProgress; ADone ("hash of " +:+ path)]
    | FromDescriptor _ => [] end;
  arrive _ _ l := rev l; store_collection _ _ := Ok "root"%string;
  blob_ticket_new _ hash := hash |}.
#[local] Instance signal_first : Polling := {| cancel_first _ := true |}.

Definition photo (path : string) : ShareSource :=
  {| ss_kind := SourcePath; ss_value := path; ss_display_name := None; ss_is_directory := false |}.
Definition photos : ShareMetadataInput :=
  {| mi_transfer_id := 7; mi_transfer_name := None; mi_sender_name := None; mi_access_mode := ApprovalRequired |}.
Definition empty_runtime : Runtime unit := {|
  x_service := approval_new {|
    k_domain := {| devices := {| relationships := ∅; tombstones := ∅ |}; eligibilities := ∅; blocked := ∅;
                   vault := {| secret_refs := ∅; secret_store := tt; legacy_identity := None |} |};
    k_tables := {| targeted_transfers := ∅; accepted_offer_intents := ∅; authorization_delivery_outbox := ∅;
                   completion_outbox := ∅; payload_release_outbox := ∅; schema_migrations := ∅ |};
    k_history := {| transfers := ∅; received_artifacts := ∅; transfer_events := ∅; receiver_requests := ∅;
                    pending_delivery_receipts := ∅ |};
    k_inbox := inbox_new; k_access := access_policy_new; k_active := ∅; k_hashes := ∅; k_tags := ∅ |};
  active_transfers := ∅; x_signals := ∅; active_shares := ∅; x_lock := None; importers := ∅ |}.

Definition share_and_cancel : list (Async (Runtime unit) ShareOutcome) :=
  [call_program default_core_limits [] 0 (CallShare [photo "/b.jpg"; photo "/a.jpg"] photos);
   call_program default_core_limits [] 1 (CallCancel 7)].

(** The share is being published – its content is registered – when it is cancelled: the signal
    drops it, its call withdraws it, and so does the cancellation. *)
Definition cancelled_late : list nat := repeat 0%nat 13 ++ [1%nat] ++ repeat 0%nat 10 ++ repeat 1%nat 8.
Definition late_end : list (Async (Runtime unit) ShareOutcome) * Runtime unit :=
  default ([], empty_runtime) (take_turns cancelled_late share_and_cancel empty_runtime 0).

Lemma empty_runtime_inv : share_inv 7 empty_runtime.
Proof. split; [|done]. intros [Hl|[h (o & Ho & _)]]; [set_solver|done]. Qed.

Lemma late_end_reached :
  rtc (pool_step (share_entry default_core_limits [] 7 (eq ApprovalRequired)) (elsewhere 7)) (Build_Pool [] empty_runtime)
    (Build_Pool late_end.1 late_end.2).
Proof.
  eapply rtc_l; [apply pool_enters; eexists (CallShare [photo "/b.jpg"; photo "/a.jpg"] photos); by split|].
  eapply rtc_l; [apply pool_enters; eexists (CallCancel 7); by split|].
  apply (turns_steps _ _ cancelled_late _ _ 0%nat). unfold late_end.
  destruct (take_turns cancelled_late share_and_cancel empty_runtime 0) as [[ps x]|] eqn:E; [exact E|].
  exfalso. assert (is_Some (take_turns cancelled_late share_and_cancel empty_runtime 0)) as Hs
    by (vm_compute; eauto). rewrite E in Hs. by destruct Hs.
Qed.


(** Halfway, the call that cancels waits for the lock and the share can go on. *)
Lemma share_calls_return_witness :
  ∃ w', task_step (Build_Pool (share_and_cancel) empty_runtime) w'.
Proof.
  assert (rtc (pool_step (share_entry default_core_limits [] 7 (eq ApprovalRequired)) (elsewhere 7)) (Build_Pool [] empty_runtime)
    (Build_Pool share_and_cancel empty_runtime)) as Hreach.
  { eapply rtc_l; [apply pool_enters; eexists (CallShare [photo "/b.jpg"; photo "/a.jpg"] photos); by split|].
    apply rtc_once. apply (pool_enters _ _ (Build_Pool [_] empty_runtime) (call_program _ _ 1 (CallCancel 7))).
    eexists (CallCancel 7). by split. }
  destruct (share_calls_return default_core_limits [] 7 (eq ApprovalRequired) empty_runtime (Build_Pool share_and_cancel empty_runtime)
    empty_runtime_inv eq_refl Hreach) as [_ Hgo].
  by apply (Hgo 0%nat (call_program default_core_limits [] 0 (CallShare [photo "/b.jpg"; photo "/a.jpg"] photos))).
Defined.
End Witnesses.
