(* ===== verification/Receive.v ===== *)
(** * [runtime/receive.rs], [delivery.rs], [targeted_payload.rs]: receiving, and telling the sender

    A receive asks the sender for approval, downloads the collection, exports it file by file and
    commits that it is done together with the receipt that it owes to the sender; a background
    task delivers the receipts. A receive is a future ([Async.v]) that the signal of its transfer
    drops at any await point. Events and log lines are left out; the semaphore that bounds
    concurrent transfers is never closed and only delays a call. *)

From stdpp Require Import pretty.
From S2P Require Import Prelude Sql Async ControlPlane Errors States Api Ticket Filesystem TargetedStore Access Invitation Inbox SecureSecret Relationship Pairing Devices Core Approval Authorization TargetedModule TargetedRuntime OutputFile Share.

#[global] Instance SqlxError_eq_dec : EqDecision SqlxError.
Proof. solve_decision. Defined.
#[global] Instance IoErrorKind_eq_dec : EqDecision IoErrorKind.
Proof. solve_decision. Defined.
#[global] Instance Cause_eq_dec : EqDecision Cause.
Proof. solve_decision. Defined.
#[global] Instance AnyhowError_eq_dec : EqDecision AnyhowError.
Proof. solve_decision. Defined.

(** ** What a receive meets *)

(** The items of [store.remote().fetch(..).stream()]. *)
Inductive GetProgressItem : Type :=
| GProgress
| GDone
| GError (rendered : string).

(** The answers of the sender and of the blob store: to the request for approval, to a connection,
    the length of the hash sequence with the sizes of its blobs, to a temporary tag, the items of
    a download, the bytes held so far, the names and hashes of a collection; and to a receipt,
    unless it times out. *)
Class Downloads `{TicketCodec} : Type := {
  approval_reply : nat → EndpointAddr → TransferMetadata → option string → result HandshakeResponse string;
  blobs_connect_fault : nat → EndpointAddr → option AnyhowError;
  hash_seq_and_sizes : nat → string → result (Z * list Z) AnyhowError;
  temp_tag_fault : nat → option AnyhowError;
  fetch_items : nat → string → list GetProgressItem;
  local_bytes : nat → string → result Z AnyhowError;
  collection_files : nat → string → result (list (string * string)) AnyhowError;
  receipt_reply : nat → EndpointAddr → PendingDeliveryReceipt → option (result DeliveryReceiptResponse string)
}.

(** The part of [CoreInner] that receives touch: the core with its active transfers, the volume,
    the callbacks made on sinks, the receipt that each receive has in hand
    ([pending_delivery_receipt]), and the permit of [delivery_receipt_notify]. Auxiliary: the
    request under which the sender approved each receive, and the requests whose receipt was
    deleted. *)
Record Inbound (V : Type) : Type := {
  ib_runtime : Runtime V;
  ib_disk : Disk;
  ib_calls : list SinkCall;
  ib_receipts : gmap nat DeliveryReceipt;
  ib_notified : bool;
  ib_approved : gmap nat string;
  ib_settled : gset string
}.
Arguments ib_runtime {V} _.
Arguments ib_disk {V} _.
Arguments ib_calls {V} _.
Arguments ib_receipts {V} _.
Arguments ib_notified {V} _.
Arguments ib_approved {V} _.
Arguments ib_settled {V} _.

Section Setters.
Context {V : Type}.
Implicit Types (x : Inbound V).

Definition set_ib_runtime (r : Runtime V) x : Inbound V :=
  {| ib_runtime := r; ib_disk := ib_disk x; ib_calls := ib_calls x; ib_receipts := ib_receipts x;
     ib_notified := ib_notified x; ib_approved := ib_approved x; ib_settled := ib_settled x |}.
Definition on_ib_receipts f x : Inbound V :=
  {| ib_runtime := ib_runtime x; ib_disk := ib_disk x; ib_calls := ib_calls x; ib_receipts := f (ib_receipts x);
     ib_notified := ib_notified x; ib_approved := ib_approved x; ib_settled := ib_settled x |}.
Definition set_notified b x : Inbound V :=
  {| ib_runtime := ib_runtime x; ib_disk := ib_disk x; ib_calls := ib_calls x; ib_receipts := ib_receipts x;
     ib_notified := b; ib_approved := ib_approved x; ib_settled := ib_settled x |}.
Definition on_approved f x : Inbound V :=
  {| ib_runtime := ib_runtime x; ib_disk := ib_disk x; ib_calls := ib_calls x; ib_receipts := ib_receipts x;
     ib_notified := ib_notified x; ib_approved := f (ib_approved x); ib_settled := ib_settled x |}.
Definition on_settled f x : Inbound V :=
  {| ib_runtime := ib_runtime x; ib_disk := ib_disk x; ib_calls := ib_calls x; ib_receipts := ib_receipts x;
     ib_notified := ib_notified x; ib_approved := ib_approved x; ib_settled := f (ib_settled x) |}.

Definition ib_history x : History := k_history (x_core (ib_runtime x)).
Definition put_ib_history (h : History) x : Inbound V :=
  set_ib_runtime (set_x_core (set_history h (x_core (ib_runtime x))) (ib_runtime x)) x.

(** The outputs of an export. *)
Definition ib_outputs x : Outputs :=
  {| o_disk := ib_disk x; o_history := ib_history x; o_calls := ib_calls x |}.
Definition set_ib_outputs (o : Outputs) x : Inbound V :=
  put_ib_history (o_history o)
    {| ib_runtime := ib_runtime x; ib_disk := o_disk o; ib_calls := o_calls o; ib_receipts := ib_receipts x;
       ib_notified := ib_notified x; ib_approved := ib_approved x; ib_settled := ib_settled x |}.

Definition in_runtime {E A} (m : M (Runtime V) E A) : M (Inbound V) E A := zoom ib_runtime set_ib_runtime m.
Definition in_ib_core {E A} (m : M (Core V) E A) : M (Inbound V) E A := in_runtime (in_x_core m).
Definition in_ib_history {E A} (m : M History E A) : M (Inbound V) E A := zoom ib_history put_ib_history m.
Definition in_outputs {E A} (m : M Outputs E A) : M (Inbound V) E A := zoom ib_outputs set_ib_outputs m.

(** An answer from outside. *)
Definition reply {E A} (f : nat → result A E) : Fut (Inbound V) E A := section (λ x n, (f n, x, S n)).
Definition fault {E} (f : nat → option E) : Fut (Inbound V) E unit :=
  reply (λ n, match f n with Some e => Err e | None => Ok tt end).
End Setters.

(** How the future of a receive stops short: with an error, or dropped in the middle of a file. *)
Inductive Halt : Type := Halted (error : AnyhowError) | Dropped.

Section Receive.
Context `{Env} `{ForeignText} `{Host} `{Blake3} `{!Base64} `{Codec} `{Urls} `{Addressing}
  `{!TicketCodec} {V : Type} `{SecureSecretStore V} `{Volume} `{Exports} `{!Downloads} `{Polling}.
(** The endpoint's own identity; secrets are [protected] where the platform keeps them. *)
Variable protected : bool.
Variable local_endpoint_id : string.
Variable limits : CoreLimits.
Variable relay_mode : CoreRelayMode.
Variable custom_relay_urls : list RelayUrl.
(** The task that runs the call. *)
Variable me : nat.

Abbreviation X := (Inbound V).
Abbreviation FX := (Fut X AnyhowError).
Abbreviation FH := (Fut X Halt).

Definition ib_repo {A} (m : M History AnyhowError A) : FX A := section (in_ib_history m).

(** [.map_err(VnidropError::..)?] in a function of [anyhow]. *)
Definition as_error (f : AnyhowError → VnidropError) {A} (p : FX A) : FX A :=
  fmap_err (λ e, anyhow_vnidrop (f e)) p.

Definition ib_signalled (x : X) : bool := signalled me (ib_runtime x).

(** ** Starting *)

Definition receive_upsert (parsed : ParsedTransferTicket) : TransferUpsert :=
  let metadata := pt_metadata parsed in
  {| u_transfer_id := md_transfer_id metadata;
     u_peer_id := Some (addr_id (blob_ticket_addr (pt_blob_ticket parsed)));
     u_direction := Receive; u_status := Receiving;
     u_transfer_name := Some (md_transfer_name metadata); u_sender_name := md_sender_name metadata;
     u_content_hash := Some (md_content_hash metadata); u_ticket := None;
     u_file_count := md_file_count metadata; u_total_size := md_total_size metadata;
     u_access_mode := mode_to_storage ApprovalRequired |}.

Definition persist_receive_start (parsed : ParsedTransferTicket) : FX unit :=
  as_error repository (ib_repo (start_receive (receive_upsert parsed))).

(** ** The handshake *)

Definition approval_of (metadata : TransferMetadata) (answer : result HandshakeResponse string) :
    result (DeliveryReceipt * option string) AnyhowError :=
  match answer with
  | Err error => Err (anyhow_vnidrop (network (anyhow_msg ("handshake request failed: " +:+ error))))
  | Ok (HandshakeApproved request_id token _ sender_name) =>
      Ok ({| dr_request_id := request_id; dr_transfer_id := md_transfer_id metadata; dr_token := token |},
          sender_name)
  | Ok (HandshakeDenied reason) =>
      Err (anyhow_vnidrop (permission (anyhow_msg ("transfer request was denied by sender: " +:+ reason))))
  end.

(** The receipt is at hand as soon as the approval has arrived; [ib_approved] changes with it. *)
Definition request_transfer_approval (addr : EndpointAddr) (metadata : TransferMetadata)
    (receiver_name : option string) : FX (DeliveryReceipt * option string) :=
  section (λ x n,
    match approval_of metadata (approval_reply n addr metadata receiver_name) with
    | Ok approved => (Ok approved, on_approved <[me := dr_request_id approved.1]> (on_ib_receipts <[me := approved.1]> x), S n)
    | Err e => (Err e, x, S n)
    end).

(** ** The download *)

(** The sizes of the blobs, from which the first is the metadata of the collection. *)
Definition check_collection (sizes : list Z) : result Z AnyhowError :=
  let total_files := Z.max 0 (Z.of_nat (length sizes) - 1) in
  match checked_sum 0 sizes with
  | None => Err (anyhow_msg "remote collection size overflow")
  | Some total_size =>
      if max_collection_files limits <? total_files
      then Err (anyhow_msg ("remote collection has " +:+ pretty total_files +:+ " files, limit is " +:+
                            pretty (max_collection_files limits)))
      else if max_total_bytes limits <? total_size
      then Err (anyhow_msg ("remote collection size " +:+ pretty total_size +:+ " exceeds limit " +:+
                            pretty (max_total_bytes limits)))
      else Ok total_files
  end.

Fixpoint fetch_loop (items : list GetProgressItem) : FX unit :=
  let! _ := reply (λ _, Ok tt) in
  match items with
  | [] => Return (Err (anyhow_msg "download ended without completion"))
  | GProgress :: items => fetch_loop items
  | GDone :: _ => Return (Ok tt)
  | GError error :: _ => Return (Err (anyhow_vnidrop (network (anyhow_msg ("download failed: " +:+ error)))))
  end.

(** ** The export *)

(** An export stops in the middle of a file only if the future is dropped. *)
Definition uncancelled (items : list ExportRangesItem) : list ExportRangesItem :=
  List.filter (λ item, match item with ICancelled => false | _ => true end) items.
Definition exports_until (dropped : bool) : Exports := {|
  export_items n hash := if dropped then export_items n hash else uncancelled (export_items n hash);
  writer_gone := writer_gone; join_fault := join_fault; sink_fault := sink_fault;
  published_output := published_output |}.

Definition halt_of (dropped : bool) (e : AnyhowError) : Halt :=
  if dropped && bool_decide (e = OutputFile.cancelled) then Dropped else Halted e.

(** A file, up to a signal that arrives meanwhile. *)
Definition export_next (transfer : ReceivedTransfer) (target : ReceiveTarget) (file : string * string) :
    M X Halt unit := λ x n,
  let dropped := ib_signalled x in
  map_err (halt_of dropped) (in_outputs (export_file (H2:=exports_until dropped) limits transfer target file)) x n.

Fixpoint export_files (transfer : ReceivedTransfer) (target : ReceiveTarget)
    (files : list (string * string)) : FH unit :=
  match files with
  | [] => Return (Ok tt)
  | file :: files =>
      let! _ := section (export_next transfer target file) in
      export_files transfer target files
  end.

Definition export_tracked (transfer_id : Z) (target : ReceiveTarget) (files : list (string * string)) : FH unit :=
  let! local_id := fmap_err Halted (as_error repository (ib_repo (transfer_local_id transfer_id))) in
  export_files {| rt_protocol_id := transfer_id; rt_local_id := Some local_id |} target files.

Definition open_target (target : ReceiveTarget) : FX unit :=
  match target with
  | Directory output_dir =>
      section (λ x n, match create_dir_all output_dir (ib_disk x) n with (r, d, n') =>
        (result_map_err (λ e, anyhow_vnidrop (filesystem (anyhow_io e))) r,
         set_ib_outputs (set_disk d (ib_outputs x)) x, n') end)
  | _ => Return (Ok tt)
  end.

(** ** The receive *)

Definition success_receipt (transfer_id : Z) (sender : string) (receipt : DeliveryReceipt) :
    PendingDeliveryReceipt := {|
  pd_local_transfer_id := transfer_id; pd_sender_blob_ticket := sender;
  pd_request_id := dr_request_id receipt; pd_sender_transfer_id := dr_transfer_id receipt;
  pd_token := dr_token receipt; pd_failure_reason := None |}.

Definition failure_receipt (transfer_id : Z) (sender : string) (receipt : DeliveryReceipt) (why : string) :
    PendingDeliveryReceipt := {|
  pd_local_transfer_id := transfer_id; pd_sender_blob_ticket := sender;
  pd_request_id := dr_request_id receipt; pd_sender_transfer_id := dr_transfer_id receipt;
  pd_token := dr_token receipt; pd_failure_reason := Some why |}.

(** The last section: a failing activation is only logged, and nothing is waited for after it. *)
Definition settle_receive (sender_addr : EndpointAddr) (sender_name : option string)
    (receipt : DeliveryReceipt) : M X AnyhowError unit :=
  try (E:=VnidropError) (in_ib_core (in_domain (activate_after_completed_transfer protected local_endpoint_id
    (addr_id sender_addr) sender_name (dr_request_id receipt) (dr_token receipt))));;
  modify (on_ib_receipts (delete me));;
  modify (set_notified true).

(** Until the collection is held and its files are known. *)
Definition download_collection (parsed : ParsedTransferTicket) (target : ReceiveTarget)
    (receiver_name : option string) : FX (DeliveryReceipt * option string * list (string * string)) :=
  let sender_addr := blob_ticket_addr (pt_blob_ticket parsed) in
  let hash := blob_ticket_hash (pt_blob_ticket parsed) in
  let! _ := open_target target in
  let! approved := request_transfer_approval sender_addr (pt_metadata parsed) receiver_name in
  let! _ := as_error network (fault (λ n, blobs_connect_fault n sender_addr)) in
  let! sizes := as_error (λ e, network (with_context "failed to get file sizes" e))
                  (reply (λ n, hash_seq_and_sizes n hash)) in
  match check_collection sizes.2 with
  | Err e => Return (Err e)
  | Ok total_files =>
      let! _ := fault temp_tag_fault in
      let! items := reply (λ n, Ok (fetch_items n hash)) in
      let! _ := fetch_loop items in
      let! files := reply (λ n, collection_files n hash) in
      Return (Ok (approved, files))
  end.

Definition receive_inner (transfer_id : Z) (parsed : ParsedTransferTicket) (target : ReceiveTarget)
    (receiver_name : option string) (persisted_sender_address : string) : FH unit :=
  let sender_addr := blob_ticket_addr (pt_blob_ticket parsed) in
  let! downloaded := fmap_err Halted (download_collection parsed target receiver_name) in
  let receipt := downloaded.1.1 in
  let! _ := export_tracked transfer_id target downloaded.2 in
  let! _ := fmap_err Halted (as_error repository (ib_repo (complete_receive_with_pending_receipt
              (success_receipt transfer_id persisted_sender_address receipt)))) in
  fmap_err Halted (section (settle_receive sender_addr downloaded.1.2 receipt)).

(** The failure is owed to a sender that had approved; the task that delivers it is woken. *)
Definition report_failure (transfer_id : Z) (sender : string) (why : string) : FX unit :=
  let! receipt := section (x ← Sql.get; modify (on_ib_receipts (delete me));; ret (ib_receipts x !! me)) in
  match receipt with
  | None => Return (Ok tt)
  | Some receipt =>
      let! queued := outcome (ib_repo (queue_failed_delivery_receipt
                                         (failure_receipt transfer_id sender receipt why))) in
      match queued with
      | Ok _ => section (modify (set_notified true))
      | Err _ => Return (Ok tt)
      end
  end.

(** The select of the receive and its signal, and what follows. *)
Definition receive_or_cancel (transfer_id : Z) (parsed : ParsedTransferTicket) (target : ReceiveTarget)
    (receiver_name : option string) (sender : string) : FX unit :=
  let! _ := section (in_runtime (modify (register_active me transfer_id Receive))) in
  abind (race ib_signalled id (receive_inner transfer_id parsed target receiver_name sender)) (λ raced,
  let! _ := section (in_runtime (modify (remove_active transfer_id))) in
  match raced with
  | Some (Ok _) => Return (Ok tt)
  | Some (Err (Halted error)) =>
      let error := transfer error in
      let! _ := outcome (F:=AnyhowError) (ib_repo (transition_transfer_status transfer_id Receiving Failed)) in
      let! _ := report_failure transfer_id sender (code error) in
      Return (Err (anyhow_vnidrop error))
  | Some (Err Dropped) | None =>
      let! _ := report_failure transfer_id sender "cancelled" in
      Return (Err OutputFile.cancelled)
  end).

(** The ticket with the addresses that the relay mode admits. *)
Definition admitted_ticket (ticket : string) : result ParsedTransferTicket AnyhowError :=
  let? parsed := result_map_err (with_context "failed to parse transfer ticket")
                   (parse_transfer_ticket_with_limits ticket limits) in
  let? sender_addr := result_map_err (λ e, anyhow_vnidrop (network e))
    (filter_peer_addr_for_relay_mode (blob_ticket_addr (pt_blob_ticket parsed)) relay_mode custom_relay_urls) in
  Ok {| pt_blob_ticket := blob_ticket_with_addr sender_addr (pt_blob_ticket parsed);
        pt_metadata := pt_metadata parsed;
        pt_advertised_custom_relay_urls := pt_advertised_custom_relay_urls parsed |}.

Definition receive_to_target (ticket : string) (target : ReceiveTarget) (receiver_name : option string) : FX unit :=
  match admitted_ticket ticket with
  | Err e => Return (Err e)
  | Ok parsed =>
      let transfer_id := md_transfer_id (pt_metadata parsed) in
      let! _ := as_error repository (persist_receive_start parsed) in
      match encode_persisted_sender_address (blob_ticket_addr (pt_blob_ticket parsed)) with
      | Err e => Return (Err (with_context "failed to encode sender address for delivery receipt" e))
      | Ok sender => receive_or_cancel transfer_id parsed target receiver_name sender
      end
  end.

(** [receive], [receive_with_output_sink] and [receive_with_output_sink_v2]. *)
Definition receive (ticket output_dir : string) (receiver_name : option string) : FX unit :=
  receive_to_target ticket (Directory output_dir) receiver_name.
Definition receive_with_output_sink (ticket : string) (receiver_name : option string) : FX unit :=
  receive_to_target ticket OutputSink receiver_name.
Definition receive_with_output_sink_v2 (ticket : string) (receiver_name : option string) : FX unit :=
  receive_to_target ticket OutputSinkV2 receiver_name.
End Receive.

(** ** Delivering receipts ([runtime/delivery.rs]) *)

Definition DELIVERY_RECEIPT_RETRY_INTERVAL : Z := 5 * 1000.
Definition DELIVERY_RECEIPT_MAX_RETRY_INTERVAL : Z := 5 * 60 * 1000.

Section Delivery.
Context `{Env} `{ForeignText} `{!Base64} `{Codec} `{Urls} `{Addressing} `{!TicketCodec} {V : Type} `{!Downloads}.
Variable relay_mode : CoreRelayMode.
Variable custom_relay_urls : list RelayUrl.

Abbreviation X := (Inbound V).
Abbreviation FX := (Fut X AnyhowError).

(** [repository.delete_pending_delivery_receipt]; the auxiliary [ib_settled] changes with it. *)
Definition delete_receipt (request_id : string) : FX unit := section (λ x n,
  match in_ib_history (delete_pending_delivery_receipt request_id) x n with
  | (Ok _, x', n') => (Ok tt, on_settled (λ settled, {[request_id]} ∪ settled) x', n')
  | (Err e, x', n') => (Err e, x', n')
  end).

Definition deliver_pending_receipt (pending : PendingDeliveryReceipt) : FX unit :=
  match parse_persisted_sender_address (pd_sender_blob_ticket pending) with
  | Err _ => let! _ := outcome (F:=AnyhowError) (delete_receipt (pd_request_id pending)) in Return (Ok tt)
  | Ok sender_addr =>
      match filter_peer_addr_for_relay_mode sender_addr relay_mode custom_relay_urls with
      | Err _ => Return (Ok tt)
      | Ok sender_addr =>
          let! response := reply (λ n, Ok (receipt_reply n sender_addr pending)) in
          match response with
          | Some (Ok (ReceiptRecorded | ReceiptRejected _)) =>
              let! _ := outcome (F:=AnyhowError) (delete_receipt (pd_request_id pending)) in Return (Ok tt)
          | Some (Err _) | None => Return (Ok tt)
          end
      end
  end.

Fixpoint deliver_each (receipts : list PendingDeliveryReceipt) : FX unit :=
  match receipts with
  | [] => Return (Ok tt)
  | receipt :: receipts =>
      let! _ := deliver_pending_receipt receipt in
      deliver_each receipts
  end.

(** Whether there were receipts, or they could not be read. *)
Definition deliver_pending_receipts : FX bool :=
  let! listed := outcome (ib_repo list_pending_delivery_receipts) in
  match listed with
  | Err _ => Return (Ok true)
  | Ok receipts =>
      let! _ := deliver_each receipts in
      Return (Ok (negb (bool_decide (receipts = []))))
  end.

Definition next_interval (notified : bool) (interval : Z) : Z :=
  if notified then DELIVERY_RECEIPT_RETRY_INTERVAL
  else Z.min (interval * 2) DELIVERY_RECEIPT_MAX_RETRY_INTERVAL.

(** A turn of the loop: a pass over the receipts, and the wait after it, which takes the permit
    or, while receipts are pending, may time out first; with the interval of the next turn. *)
Definition delivery_turn (times_out : nat → bool) (interval : Z) : FX Z :=
  let! has_pending := deliver_pending_receipts in
  if has_pending : bool then
    section (λ x n,
      if ib_notified x && negb (times_out n) then (Ok (next_interval true interval), set_notified false x, S n)
      else (Ok (next_interval false interval), x, S n))
  else
    waiting ib_notified (modify (set_notified false);; ret DELIVERY_RECEIPT_RETRY_INTERVAL).

(** [spawn_delivery_receipt_task], for as many turns as the core lives. *)
Fixpoint delivery_task (times_out : nat → bool) (turns : nat) (interval : Z) : FX unit :=
  match turns with
  | O => Return (Ok tt)
  | S turns =>
      let! interval := delivery_turn times_out interval in
      delivery_task times_out turns interval
  end.
End Delivery.

(** ** Targeted payloads ([runtime/targeted_payload.rs]) *)

Section Payload.
Context `{Env} `{ForeignText} `{Host} `{!Base64} `{Codec} `{Urls} `{Addressing}
  `{!TicketCodec} {V : Type} `{SecureSecretStore V} `{Volume} `{Exports} `{!Downloads}.
Variable limits : CoreLimits.
Variable relay_mode : CoreRelayMode.
Variable custom_relay_urls : list RelayUrl.
Variable me : nat.

Abbreviation X := (Inbound V).
Abbreviation FX := (Fut X AnyhowError).
Abbreviation FH := (Fut X Halt).

(** What the remote must be: the authorized files of the authorized size, within the limits. *)
Definition check_payload (expected_file_count expected_payload_size : Z) (sizes : list Z) : result unit AnyhowError :=
  match checked_sum 0 sizes with
  | None => Err (anyhow_msg "remote collection size overflow")
  | Some remote_size =>
      let total_files := Z.max 0 (Z.of_nat (length sizes) - 1) in
      if negb (total_files =? expected_file_count)
      then Err (anyhow_msg ("targeted payload file count " +:+ pretty total_files +:+
                            " does not match authorized count " +:+ pretty expected_file_count))
      else
        match checked_sum 0 (tail sizes) with
        | None => Err (anyhow_msg "remote targeted payload size overflow")
        | Some payload_size =>
            if negb (payload_size =? expected_payload_size)
            then Err (anyhow_msg ("targeted payload size " +:+ pretty payload_size +:+
                                  " does not match authorized size " +:+ pretty expected_payload_size))
            else if max_collection_files limits <? total_files
            then Err (anyhow_msg ("remote collection has " +:+ pretty total_files +:+ " files, limit is " +:+
                                  pretty (max_collection_files limits)))
            else if max_total_bytes limits <? remote_size
            then Err (anyhow_msg ("remote collection size " +:+ pretty remote_size +:+ " exceeds limit " +:+
                                  pretty (max_total_bytes limits)))
            else Ok tt
        end
  end.

Definition advance_payload (targeted_transfer_id : string) (verified : Z) : FX unit :=
  let! _ := fmap_err anyhow_vnidrop (section (in_ib_core (in_tables (advance_verified_bytes targeted_transfer_id verified)))) in
  Return (Ok tt).

Fixpoint payload_loop (targeted_transfer_id hash : string) (hash_sequence_bytes collection_metadata_bytes
    payload_size : Z) (items : list GetProgressItem) : FX unit :=
  let verified local := Z.min (Z.max 0 (Z.max 0 (local - hash_sequence_bytes) - collection_metadata_bytes)) payload_size in
  let! _ := reply (λ _, Ok tt) in
  match items with
  | [] => Return (Err (anyhow_msg "targeted download ended without completion"))
  | GProgress :: items =>
      let! local := reply (λ n, local_bytes n hash) in
      let! _ := advance_payload targeted_transfer_id (verified local) in
      payload_loop targeted_transfer_id hash hash_sequence_bytes collection_metadata_bytes payload_size items
  | GDone :: _ =>
      let! local := reply (λ n, local_bytes n hash) in
      if negb (verified local =? payload_size)
      then Return (Err (anyhow_msg ("targeted payload completed with " +:+ pretty (verified local) +:+
                                    " verified bytes, expected " +:+ pretty payload_size)))
      else advance_payload targeted_transfer_id (verified local)
  | GError error :: _ =>
      Return (Err (anyhow_vnidrop (network (anyhow_msg ("targeted download failed: " +:+ error)))))
  end.

Definition download_targeted_payload (targeted_transfer_id : string) (transfer_id : Z)
    (expected_file_count expected_payload_size : Z) (blob_ticket : BlobTicket) (target : ReceiveTarget) : FH unit :=
  let hash := blob_ticket_hash blob_ticket in
  let! files := fmap_err Halted (
    let! _ := open_target target in
    let! _ := as_error network (fault (λ n, blobs_connect_fault n (blob_ticket_addr blob_ticket))) in
    let! sizes := as_error (λ e, network (with_context "failed to get targeted payload sizes" e))
                    (reply (λ n, hash_seq_and_sizes n hash)) in
    match check_payload expected_file_count expected_payload_size sizes.2 with
    | Err e => Return (Err e)
    | Ok _ =>
        let! _ := fault temp_tag_fault in
        let! items := reply (λ n, Ok (fetch_items n hash)) in
        let! _ := payload_loop targeted_transfer_id hash (sizes.1 * 32) (default 0 (head sizes.2))
                    expected_payload_size items in
        reply (λ n, collection_files n hash)
    end) in
  export_files limits me {| rt_protocol_id := transfer_id; rt_local_id := None |} target files.

(** Both selects are biased towards the signal. *)
#[local] Instance biased : Polling := {| cancel_first _ := true |}.

Definition receive_targeted_payload (targeted_transfer_id : string) (transfer_id : Z)
    (expected_file_count expected_payload_size : Z) (blob_ticket : BlobTicket) (target : ReceiveTarget) : FX unit :=
  match filter_peer_addr_for_relay_mode (blob_ticket_addr blob_ticket) relay_mode custom_relay_urls with
  | Err e => Return (Err (anyhow_vnidrop (network e)))
  | Ok sender_addr =>
      abind (race (ib_signalled me) id (
        let! _ := reply (λ _, Ok tt) in
        download_targeted_payload targeted_transfer_id transfer_id expected_file_count expected_payload_size
          (blob_ticket_with_addr sender_addr blob_ticket) target)) (λ raced,
      match raced with
      | Some (Ok _) => Return (Ok tt)
      | Some (Err (Halted error)) => Return (Err error)
      | Some (Err Dropped) | None => Return (Err OutputFile.cancelled)
      end)
  end.
End Payload.
