(* ===== verification/ReceiveSpec.v ===== *)
(** * A receive under interference

    The specification of one receive of [Receive.v] while the rest of the core, which may cancel
    it, delivers receipts and deletes history, moves at every await point. *)

From S2P Require Import Prelude Sql Async ControlPlane Errors States Api Ticket Filesystem TargetedStore Access Invitation Inbox SecureSecret Relationship Pairing Devices Core Approval Authorization TargetedModule TargetedRuntime OutputFile Share Receive.

(** ** The row of a receive *)

Inductive Stage : Type := Absent | Running | Finished | Ended | OtherRow.

Definition row_stage (row : option TransferRow) : Stage :=
  match row with
  | None => Absent
  | Some r =>
      if negb (str_eqb (t_direction r) "receive") then OtherRow
      else if str_eqb (t_status r) "receiving" then Running
      else if str_eqb (t_status r) "done" then Finished
      else if str_in (t_status r) ["failed"; "cancelled"]%string then Ended
      else OtherRow
  end.

Definition at_stage (t : Z) (h : History) : Stage := row_stage (transfers h !! t).

Section Rows.
Context `{Env} `{ForeignText} (t : Z).
Implicit Types (h : History).

(** Some statement of the run failed. *)
Definition db_failed : Prop := ∃ n message, io_fault n = Some message.

Lemma wp_asql_failed {S A} (f : S → result (A * S) SqlxError) s n (Q : result A AnyhowError → S → nat → Prop) :
  (∀ e n', db_failed → Q (Err e) s n') →
  (∀ e e' n', f s = Err e → Q (Err e') s n') →
  (∀ a s' n', f s = Ok (a, s') → Q (Ok a) s' n') →
  wp (asql f) s n Q.
Proof.
  intros Hf He Ho. apply wp_map_err, wp_stmt; [intros m E; apply Hf; by exists n, m|].
  intros _. destruct (f s) as [[a s']|e] eqn:E; [by apply Ho|by eapply He].
Qed.

(** A receive starts on a row that is not running. *)
Lemma wp_start_receive (upsert : TransferUpsert) h n :
  u_transfer_id upsert = t →
  wp (start_receive upsert) h n (λ r h' _,
    match r with
    | Ok _ => at_stage t h' = Running ∧ t ≤ I64_MAX ∧ pending_delivery_receipts h' = pending_delivery_receipts h
    | Err _ => h' = h
    end).
Proof.
  intros <-. unfold start_receive. destruct (_ || _); [by apply wp_fail|].
  apply wp_bind, wp_now_ms, wp_bind, wp_to_db_id; [done|]. intros Hid.
  apply wp_bind, wp_uuid_v4, wp_bind, wp_to_db_id; [done|]. intros _. apply wp_bind, wp_to_db_id; [done|]. intros _.
  apply wp_bind, wp_asql; [done|]. intros _ a h'. unfold upsert_where, at_stage.
  destruct (transfers h !! u_transfer_id upsert) as [old|] eqn:Hold.
  - destruct (restartable old) eqn:Hr; intros [= <- <-]; apply wp_of_result; [|by destruct h].
    simpl. split_and!; [|done|done]. rewrite lookup_insert_eq. simpl.
    apply andb_true_iff in Hr as [Hr _]. by rewrite Hr.
  - destruct (local_id_taken _ h); [done|]. intros [= <- <-]. apply wp_of_result. simpl.
    split_and!; [|done|done]. by rewrite lookup_insert_eq.
Qed.

(** The end of a receive that failed. *)
Lemma wp_fail_receive h n :
  t ≤ I64_MAX →
  wp (transition_transfer_status t Receiving Failed) h n (λ _ h' _,
    (db_failed ∨ at_stage t h' ≠ Running) ∧ (at_stage t h ≠ Running → at_stage t h' = at_stage t h) ∧
    pending_delivery_receipts h' = pending_delivery_receipts h).
Proof.
  intros Hid. unfold transition_transfer_status. simpl.
  apply wp_bind, wp_now_ms, wp_bind, wp_of_result. unfold to_db_id. rewrite (proj2 (Z.leb_le _ _) Hid).
  set (P := λ k r, (k =? t) && str_eqb (t_status r) "receiving").
  assert (∀ k r, P k r = true → k = t) as HP by (intros k r Hk; unfold P in Hk; bool_simpl; lia).
  apply wp_bind, wp_asql_failed; [by auto|done|]. intros m h' n' [= <- <-].
  match goal with |- wp _ ?h' _ _ => assert ((at_stage t h' ≠ Running) ∧
    (at_stage t h ≠ Running → at_stage t h' = at_stage t h)) as [Hs1 Hs2] end.
  { unfold at_stage. simpl. rewrite (update_where_key P _ _ t HP).
    destruct (transfers h !! t) as [r|] eqn:Hr; [|by rewrite Hr]. unfold P. rewrite Z.eqb_refl. simpl.
    destruct (str_eqb (t_status r) "receiving") eqn:Es; [rewrite lookup_insert_eq|rewrite Hr]; unfold row_stage.
    - simpl. by destruct (str_eqb (t_direction r) "receive").
    - rewrite Es. split; [|done]. destruct (negb _); [done|].
      destruct (str_eqb _ "done"); [done|]. by destruct (str_in _ _). }
  apply wp_bind. destruct (Nat.eqb _ 0).
  - apply wp_bind, wp_select; [by auto|]. apply wp_ret.
    destruct (opt_eqb _ _); [apply wp_ret|apply wp_of_result]; auto.
  - apply wp_ret, wp_of_result. auto.
Qed.

(** The success and its receipt are one step. *)
Lemma wp_commit_receive receipt h n :
  pd_local_transfer_id receipt = t →
  wp (complete_receive_with_pending_receipt receipt) h n (λ r h' _,
    match r with
    | Ok _ => at_stage t h' = Finished ∧ ∃ row,
        pending_delivery_receipts h' = <[pd_request_id receipt := row]> (pending_delivery_receipts h) ∧
        p_local_transfer_id row = t ∧ p_failure_reason row = pd_failure_reason receipt
    | Err _ => h' = h
    end).
Proof.
  intros <-. eapply wp_mono; [apply complete_receive_atomic|]. intros [[]|e] h' n'; [|done].
  intros (r & now & row & Hr & Hd & Hs & -> & Hl & _ & _ & Hf). split; [|by exists row].
  unfold at_stage. simpl. rewrite lookup_insert_eq. simpl. by rewrite Hd.
Qed.

(** The report of a failure fails with the database only. *)
Lemma wp_queue_failure receipt h n why :
  pd_failure_reason receipt = Some why → pd_local_transfer_id receipt = t →
  pd_sender_transfer_id receipt = t → t ≤ I64_MAX →
  wp (queue_failed_delivery_receipt receipt) h n (λ r h' _,
    transfers h' = transfers h ∧
    (db_failed ∧ h' = h ∨ r = Ok tt ∧ ∃ row,
        pending_delivery_receipts h' = <[pd_request_id receipt := row]> (pending_delivery_receipts h) ∧
        p_local_transfer_id row = t ∧ p_failure_reason row = Some why)).
Proof.
  intros Ew Hl Hs Hid. unfold queue_failed_delivery_receipt. rewrite Ew. unfold upsert_receipt.
  assert (to_db_id t = Ok t) as Et by (unfold to_db_id; by rewrite (proj2 (Z.leb_le _ _) Hid)).
  apply wp_bind, wp_of_result. rewrite Hl, Et. apply wp_bind, wp_of_result. rewrite Hs, Et.
  apply wp_bind, wp_now_ms, wp_asql_failed; [by auto|done|]. intros [] h' n' [= <-].
  split; [done|]. right. split; [done|]. by eexists.
Qed.

(** Exports record what they published, and nothing else. *)
Lemma wp_record_artifact_rows artifact h n :
  wp (record_received_artifact artifact) h n (λ _ h' _,
    transfers h' = transfers h ∧ pending_delivery_receipts h' = pending_delivery_receipts h).
Proof.
  apply wp_bind, wp_uuid_v4, wp_bind, wp_to_db_id; [done|]. intros _. apply wp_bind, wp_to_db_id; [done|]. intros _.
  apply wp_bind, wp_now_ms. cbv zeta. apply wp_asql; [done|]. intros _ a h'.
  destruct (received_artifacts h !! _); [|destruct (exists_where _ _)]; by intros [= _ <-].
Qed.
End Rows.

(** ** What the rest of the core may do meanwhile *)

Section View.
Context {V : Type} (t : Z) (me : nat).
Implicit Types (x : Inbound V).

Definition stage x : Stage := at_stage t (ib_history x).
Definition pending x : gmap string ReceiptRow := pending_delivery_receipts (ib_history x).
Definition stopped x : Prop := ib_signalled me x = true.

(** It stops the receive, after its signal; forgets rows that are not running; delivers its
    receipt; leaves the files that are there; and calls sinks back for other receives. *)
Record aside x x' : Prop := {
  as_disk q node : ¬ part_place q → ib_disk x !! q = Some node → ib_disk x' !! q = Some node;
  as_slot : ib_receipts x' !! me = ib_receipts x !! me;
  as_approved : ib_approved x' !! me = ib_approved x !! me;
  as_stopped : stopped x → stopped x';
  as_stage : stage x' = stage x ∨ (stage x = Running ∧ stage x' = Ended ∧ stopped x') ∨
             (stage x ≠ Running ∧ stage x' = Absent);
  as_pending request : ib_approved x !! me = Some request →
    pending x' !! request = pending x !! request ∨ request ∈ ib_settled x';
  as_settled request : request ∈ ib_settled x → request ∈ ib_settled x';
  as_calls : ib_calls x `prefix_of` ib_calls x'
}.

Lemma aside_refl x : aside x x.
Proof. split; auto. Qed.

(** The receive is the one task. *)
Abbreviation only := (λ (i : nat) (_ _ : Inbound V), i = me).
Abbreviation anything := (λ _ : Inbound V, True).
Abbreviation unlocked := (λ _ : Inbound V, @None nat).
Abbreviation stays := (stable anything only aside me).
Abbreviation task := (triple anything only aside unlocked me).

Lemma rely_aside x x' : rely anything only aside me x x' → aside x x'.
Proof. by intros [_ [?|(j & ? & ?)]]. Qed.

(** *** Facts that stay *)

(** The request of the approval is answered for: its receipt was delivered, or waits. *)
Definition told (request : string) (success : bool) x : Prop :=
  request ∈ ib_settled x ∨
  ∃ row, pending x !! request = Some row ∧ p_local_transfer_id row = t ∧
    (p_failure_reason row = None ↔ success = true).

Definition fresh x : Prop := ib_receipts x !! me = None ∧ ib_approved x !! me = None.
Definition has (receipt : DeliveryReceipt) x : Prop :=
  ib_receipts x !! me = Some receipt ∧ ib_approved x !! me = Some (dr_request_id receipt) ∧
  dr_transfer_id receipt = t.

(** At every await point: the sender that has approved is in hand. *)
Definition in_hand x : Prop := t ≤ I64_MAX ∧ (fresh x ∨ ∃ receipt, has receipt x).
(** Running, or stopped after the signal. *)
Definition running x : Prop := stage x = Running ∨ (stopped x ∧ (stage x = Ended ∨ stage x = Absent)).
Definition over x : Prop := stage x ≠ Running.
Definition finished x : Prop := stage x = Finished ∨ stage x = Absent.
Definition owes (success : bool) x : Prop :=
  ∃ request, ib_approved x !! me = Some request ∧ told request success x.

Lemma stays_fresh : stays fresh.
Proof. intros x x' _ [H1 H2] [_ As Aa _ _ _ _ _]%rely_aside. split; congruence. Qed.
Lemma stays_has receipt : stays (has receipt).
Proof. intros x x' _ (H1 & H2 & H3) [_ As Aa _ _ _ _ _]%rely_aside. split_and!; congruence. Qed.
Lemma stays_in_hand : stays in_hand.
Proof.
  intros x x' _ [Hid [Hf|[receipt Hr]]] He; split; [done| |done|]; [left; by eapply stays_fresh|].
  right. exists receipt. by eapply stays_has.
Qed.
Lemma stays_stopped : stays stopped.
Proof. intros x x' _ Hs [_ _ _ A _ _ _ _]%rely_aside. auto. Qed.
Lemma stays_running : stays running.
Proof.
  intros x x' _ Hr [_ _ _ Ap As _ _ _]%rely_aside. unfold running in *.
  destruct Hr as [E|[Hp Hs]].
  - destruct As as [->|[(_ & E' & Hp)|[? _]]]; [by left|right; auto|done].
  - right. split; [auto|]. destruct As as [->|[(E & _)|[_ E]]]; [done| |by right]. destruct Hs; congruence.
Qed.
Lemma stays_over : stays over.
Proof.
  intros x x' _ Hr [_ _ _ _ As _ _ _]%rely_aside. unfold over in *.
  destruct As as [->|[(E & _)|[_ ->]]]; done.
Qed.
Lemma stays_finished : stays finished.
Proof.
  intros x x' _ Hr [_ _ _ _ As _ _ _]%rely_aside. unfold finished in *.
  destruct As as [->|[(E & _)|[_ ->]]]; [done|destruct Hr; congruence|by right].
Qed.
Lemma stays_owes success : stays (owes success).
Proof.
  intros x x' _ (request & Ha & Ht) [_ _ Aa _ _ Ap Ae _]%rely_aside. exists request. split; [congruence|].
  destruct Ht as [Hs|(row & Hp & Hrow)]; [left; auto|].
  destruct (Ap request Ha) as [E|Hs]; [|by left]. right. exists row. by rewrite E.
Qed.

(** *** Sections *)

(** A section that leaves the receive alone. *)
Lemma task_untouched D P {E A} (m : M (Inbound V) E A) :
  stays P → (∀ x, P x → D x) → (∀ x n, wp m x n (λ _ x' _, aside x x')) →
  task D P (section m) (λ _, P).
Proof.
  intros HP HD Hm. apply triple_section; [done|done|auto|]. intros x n _ Hx. eapply wp_mono; [apply Hm|].
  intros r x' n' He. split_and!; [done|done|]. eapply HP; [done|exact Hx|]. split; [done|by left].
Qed.

Lemma task_reply D P {E A} (f : nat → result A E) :
  stays P → (∀ x, P x → D x) → task D P (reply f) (λ r x, P x ∧ ∃ n, r = f n).
Proof.
  intros HP HD. apply triple_section; [done| |auto|].
  - intros r. apply stable_and; [done|apply stable_pure].
  - intros x n _ Hx. unfold wp. split_and!; [done|done|done|by exists n].
Qed.

Lemma task_fault D P {E} (f : nat → option E) :
  stays P → (∀ x, P x → D x) → task D P (fault f) (λ _, P).
Proof.
  intros HP HD. eapply triple_mono; [by apply task_reply|done|done|]. by intros r x _ [Hx _].
Qed.

(** The history moves, and the rest stays. *)
Lemma aside_moved h x :
  at_stage t h = stage x → pending_delivery_receipts h = pending x → aside x (put_ib_history h x).
Proof. intros Es Ep. split; [done|done|done|done|by left| |done|done]. intros request _. left. change (pending_delivery_receipts h !! request = pending x !! request). by rewrite Ep. Qed.

(** Giving signals changes nothing else. *)
Lemma aside_signals (f : Runtime V → Runtime V) x :
  x_service (f (ib_runtime x)) = x_service (ib_runtime x) → (stopped x → ib_signalled me (set_ib_runtime (f (ib_runtime x)) x) = true) →
  aside x (set_ib_runtime (f (ib_runtime x)) x).
Proof.
  intros Es Hs. assert (ib_history (set_ib_runtime (f (ib_runtime x)) x) = ib_history x) as Eh.
  { unfold ib_history, x_core. simpl. by rewrite Es. }
  split; [done|done|done|done| | |done|done].
  - left. unfold stage. by rewrite Eh.
  - intros request _. left. unfold pending. by rewrite Eh.
Qed.

Lemma signal_owner_grows u (r : Runtime V) : signalled me r = true → signalled me (signal_owner u r) = true.
Proof.
  unfold signalled, signal_owner. simpl. rewrite !bool_decide_eq_true. intros Hs.
  destruct (active_transfers r !! u) as [[]|]; set_solver.
Qed.

Lemma task_read D P {A} (m : M History AnyhowError A) :
  stays P → (∀ x, P x → D x) → (∀ h n, wp m h n (λ _ h' _, h' = h)) → task D P (ib_repo m) (λ _, P).
Proof.
  intros HP HD Hm. apply task_untouched; [done|done|]. intros x n. apply wp_zoom.
  eapply wp_mono; [apply Hm|]. intros _ h' _ ->. by apply aside_moved.
Qed.

(** One step of a future that goes on in [P] and stops in [Q]. *)
Lemma task_next D P {E A B} (p : Fut (Inbound V) E A) (f : A → Fut (Inbound V) E B) (R : result A E → Inbound V → Prop) Q :
  task D P p R → (∀ e, stays (Q (Err e)) ∧ ∀ x, R (Err e) x → Q (Err e) x) →
  (∀ a, task D (R (Ok a)) (f a) Q) → task D P (fbind p f) Q.
Proof. intros Hp He Hf. eapply triple_fbind; [exact Hp|exact Hf|]. intros e. split; [apply He|]. intros. by apply He. Qed.
End View.

(** ** Exports *)

Lemma wp_both {S E A} (m : M S E A) s n (Q Q' : result A E → S → nat → Prop) :
  wp m s n Q → wp m s n Q' → wp m s n (λ r s' n', Q r s' n' ∧ Q' r s' n').
Proof. unfold wp. by destruct (m s n) as [[??]?]. Qed.

Section Exports.
Context `{Env} `{ForeignText} `{Volume} `{Exports}.

(** The transfers and the receipts stay as they are, and callbacks are only added. *)
Record same_rows (o o' : Outputs) : Prop := {
  sm_transfers : transfers (o_history o') = transfers (o_history o);
  sm_receipts : pending_delivery_receipts (o_history o') = pending_delivery_receipts (o_history o);
  sm_calls : o_calls o `prefix_of` o_calls o'
}.
#[local] Instance same_rows_preorder : PreOrder same_rows.
Proof. split; [done|]. intros o1 o2 o3 [] []. split; [congruence..|by etrans]. Qed.

Lemma within_record transfer path kind locator size :
  within same_rows (record_artifact transfer path kind locator size).
Proof.
  unfold record_artifact. destruct (rt_local_id transfer); [|apply within_ret; apply _].
  apply within_map_err. intros o n. apply wp_zoom.
  eapply wp_mono; [apply wp_record_artifact_rows|]. by intros _ h' _ [].
Qed.

Lemma within_on_disk {A} (m : M Disk AnyhowError A) : within same_rows (on_disk m).
Proof. intros o n. by apply wp_zoom, wp_any. Qed.

Lemma within_sink_call call : within same_rows (sink_call call).
Proof.
  intros o n. unfold wp, sink_call. assert (same_rows o (called_back call o)) as Hs.
  { split; [done|done|]. by exists [call]. }
  by destruct (sink_fault n).
Qed.

Lemma within_oracle {A} (f : nat → A) : within same_rows (oracle f).
Proof. done. Qed.

Lemma within_sink_loop path items exported : within same_rows (sink_loop path items exported).
Proof.
  revert exported. induction items as [|[size|off bytes|text|] items IH]; intros exported; simpl;
    [apply within_ret; apply _|apply IH| |apply within_fail; apply _..].
  destruct (negb _); [apply within_fail; apply _|].
  apply within_bind; [apply _|apply within_sink_call|]. intros []. apply IH.
Qed.

Ltac export_step := intros; lazymatch goal with
  | |- within _ (mbind _ _) => apply within_bind; [apply _| |]
  | |- within _ (sink_call _) => apply within_sink_call
  | |- within _ (sink_loop _ _ _) => apply within_sink_loop
  | |- within _ (oracle _) => apply within_oracle
  | |- within _ (on_disk _) => apply within_on_disk
  | |- within _ (record_artifact _ _ _ _ _) => apply within_record
  | |- within _ (try _) => apply within_try
  | |- within _ (fail _) => apply within_fail; apply _
  | |- within _ (ret _) => apply within_ret; apply _
  | |- within _ (of_result _) => apply within_of_result; apply _
  | |- within _ (match ?r with _ => _ end) => destruct r
  end.

Lemma within_export limits transfer target file : within same_rows (export_file limits transfer target file).
Proof.
  assert (∀ path hash, within same_rows (write_to_sink limits path hash)) as Hsink.
  { intros path hash. unfold write_to_sink. destruct (_ <? _); [export_step|]. unfold with_sink_file. repeat export_step. }
  destruct target; simpl.
  - unfold export_blob_to_directory. destruct (_ <? _); repeat export_step.
  - apply within_bind; [apply _|apply Hsink|]. intros. export_step.
  - unfold export_blob_to_sink_v2. apply within_bind; [apply _|apply Hsink|]. repeat export_step.
Qed.
End Exports.

Lemma whole_uncancelled items : ∀ offset data,
  whole offset items = Some data → whole offset (uncancelled items) = Some data.
Proof.
  induction items as [|[size|off bytes|text|] items IH]; intros offset data Hw; simpl in *; [done|by apply IH| |done..].
  destruct (off =? offset); [|done]. destruct (whole (offset + str_len bytes) items) as [rest|] eqn:Er; [|done].
  by rewrite (IH _ _ Er).
Qed.

(** The content of a blob, in the words of the blob store. *)
Definition content `{Exports} (hash data : string) : Prop :=
  ∃ n, whole 0 (uncancelled (export_items n hash)) = Some data.

Lemma yielded_content `{Exports} dropped hash data : yielded (H2:=exports_until dropped) hash data → content hash data.
Proof.
  intros [n Hw]. exists n. simpl in Hw. destruct dropped; [by apply whole_uncancelled|done].
Qed.

(** A file of the collection is at its place, unless its name is that of a temporary file. *)
Definition placed `{Exports} (output_dir : string) (d : Disk) (file : string * string) : Prop :=
  ∃ target data, safe_output_path output_dir file.1 = Ok target ∧ content file.2 data ∧
    (¬ part_place (components target) → d !! components target = Some (NFile data)).

(** A file of the collection was handed to the sink: started, written in chunks that make up its
    content, and finished. *)
Definition handed `{Exports} (calls : list SinkCall) (file : string * string) : Prop :=
  ∃ path data session before after, validated_relative_string file.1 = Ok path ∧ content file.2 data ∧
    finished_session path data session ∧ calls = before ++ session ++ after.

Lemma handed_later `{Exports} calls calls' file : calls `prefix_of` calls' → handed calls file → handed calls' file.
Proof.
  intros [more ->] (path & data & session & before & after & Hp & Hc & Hf & ->).
  exists path, data, session, before, (after ++ more). split_and!; [done..|]. by rewrite <- !app_assoc.
Qed.
