(* ===== verification/ReceiveTasks.v ===== *)
(** * The tasks of a receive

    The future of [Receive.v] is run through the rely-guarantee logic against the specification of
    [ReceiveSpec.v]: whatever the rest of the core does at its await points, and wherever it is
    dropped, it leaves its row, its files and the receipt for its sender settled. *)

From stdpp Require Import pretty.
From S2P Require Import Prelude Sql Async ControlPlane Errors States Api Ticket Filesystem TargetedStore Access Invitation Inbox SecureSecret Relationship Pairing Devices Core Approval Authorization TargetedModule TargetedRuntime OutputFile Share Receive ReceiveSpec.

(** ** The receive, step by step *)

Section Tasks.
Context `{Env} `{ForeignText} `{Host} `{Blake3} `{!Base64} `{Codec} `{Urls} `{Addressing}
  `{!TicketCodec} {V : Type} `{SecureSecretStore V} `{Volume} (foreign : list Component → Prop)
  `{!VolumeLaws foreign} `{Exports} `{!Downloads} `{Polling}.
Variable protected : bool.
Variable local_endpoint_id : string.
Variable limits : CoreLimits.
Variable relay_mode : CoreRelayMode.
Variable custom_relay_urls : list RelayUrl.
Variables (t : Z) (me : nat).
Implicit Types (x : Inbound V).
Hypothesis exclusive : exclusive_rename.

Abbreviation only := (λ (i : nat) (_ _ : Inbound V), i = me).
Abbreviation anything := (λ _ : Inbound V, True).
Abbreviation unlocked := (λ _ : Inbound V, @None nat).
Abbreviation stays := (stable anything only (aside t me) me).
Abbreviation task := (triple anything only (aside t me) unlocked me).

(** Decompose a stability goal. *)
Ltac stays_tac := repeat first
  [ progress intros
  | apply stays_fresh | apply stays_has | apply stays_in_hand | apply stays_stopped | apply stays_running
  | apply stays_over | apply stays_finished | apply stays_owes
  | apply stable_and | apply stable_or | apply stable_impl | apply stable_case | apply stable_pure ].

(** A volume and a record of callbacks that only grow. *)
Lemma aside_outputs o x :
  same_rows (ib_outputs x) o → (∀ q node, ¬ part_place q → ib_disk x !! q = Some node → o_disk o !! q = Some node) →
  aside t me x (set_ib_outputs o x).
Proof.
  intros [Et Ep Ec] Hd. split; [done|done|done|done| | |done|exact Ec].
  - left. unfold stage, at_stage, ib_history. simpl. by rewrite Et.
  - intros request _. left. change (pending_delivery_receipts (o_history o) !! request = pending x !! request). by rewrite Ep.
Qed.

Lemma within_create_dir_all path : within (adds (from_others_or_dirs foreign)) (create_dir_all path).
Proof.
  apply (within_sys foreign); [by left|]. intros n d a d' Hd.
  destruct (d !! components path) as [[]|] eqn:E; simplify_eq; [done|done|]. apply adds_insert. right. split; [done|by right].
Qed.

Lemma task_open_target D P target :
  stays P → (∀ x, P x → D x) → task D P (open_target target) (λ _, P).
Proof.
  intros HP HD. destruct target as [output_dir| |]; [|by apply triple_return..].
  apply task_untouched; [done|done|]. intros x n. unfold wp.
  pose proof (within_create_dir_all output_dir (ib_disk x) n) as Hwp. unfold wp in Hwp.
  destruct (create_dir_all output_dir (ib_disk x) n) as [[r d] n'].
  apply aside_outputs; [done|]. intros q node Hq Hx. by eapply adds_keeps.
Qed.

(** Every file is at its place, or was handed to the sink. *)
Definition got (target : ReceiveTarget) (files : list (string * string)) x : Prop :=
  match target with
  | Directory output_dir => Forall (placed output_dir (ib_disk x)) files
  | OutputSink | OutputSinkV2 => Forall (handed (ib_calls x)) files
  end.

Lemma stays_got target files : stays (got target files).
Proof.
  intros x x' _ Hx [Ad _ _ _ _ _ _ Ac]%rely_aside.
  destruct target as [output_dir| |]; [|by eapply Forall_impl; [exact Hx|intros file; apply handed_later]..].
  simpl in *. eapply Forall_impl; [exact Hx|]. intros file (place & data & Hs & Hc & Hp).
  exists place, data. split_and!; [done|done|]. auto.
Qed.

(** The end of an export to a sink. *)
Lemma wp_sink_end transfer target file x n dropped :
  target = OutputSink ∨ target = OutputSinkV2 →
  wp (export_file (H2:=exports_until dropped) limits transfer target file) (ib_outputs x) n
    (λ _ o' _, same_rows (ib_outputs x) o') →
  (∀ e, match halt_of dropped e with Dropped => stopped me x | Halted _ => True end) →
  wp (export_file (H2:=exports_until dropped) limits transfer target file) (ib_outputs x) n (λ r o' _,
    aside t me x (set_ib_outputs o' x) ∧
    match result_map_err (halt_of dropped) r with
    | Ok _ => got target [file] (set_ib_outputs o' x)
    | Err Dropped => stopped me x
    | Err (Halted _) => True
    end).
Proof.
  intros Ht Hrows Hhalt.
  eapply wp_mono; [eapply wp_both; [exact Hrows|by apply (sink_calls_in_sessions (H2:=exports_until dropped))]|].
  intros r o n' [Hsame (Hd & calls & Ec & _ & Hok)]. split.
  - apply aside_outputs; [done|]. intros q node _ Hx. by rewrite Hd.
  - destruct r as [[]|e]; simpl; [|apply Hhalt].
    destruct (Hok eq_refl) as (path & data & Hp & Hf & Hy).
    assert (handed (o_calls o) file) as Hh.
    { exists path, data, calls, (ib_calls x), []. split_and!; [done|by eapply yielded_content|done|].
      by rewrite app_nil_r. }
    by destruct Ht as [-> | ->]; constructor.
Qed.

Lemma wp_export_next transfer target file x n :
  wp (export_next limits me transfer target file) x n (λ r x' _,
    aside t me x x' ∧
    match r with
    | Ok _ => got target [file] x'
    | Err Dropped => stopped me x
    | Err (Halted _) => True
    end).
Proof.
  unfold export_next. set (dropped := ib_signalled me x).
  change (wp (map_err (halt_of dropped) (in_outputs (export_file (H2:=exports_until dropped) limits transfer target file)))
    x n (λ r x' _, aside t me x x' ∧ match r with
      | Ok _ => got target [file] x' | Err Dropped => stopped me x | Err (Halted _) => True end)).
  apply wp_map_err, wp_zoom.
  pose proof (within_export (H2:=exports_until dropped) limits transfer target file (ib_outputs x) n) as Hrows.
  assert (∀ e, match halt_of dropped e with Dropped => stopped me x | Halted _ => True end) as Hhalt.
  { intros e. unfold halt_of, stopped. destruct dropped eqn:Ed; [|done]. simpl. by destruct (bool_decide _). }
  destruct target as [output_dir| |].
  - eapply wp_mono; [eapply wp_both; [exact Hrows|]|].
    { by apply (wp_export_to_directory (H2:=exports_until dropped) foreign). }
    intros r o n' [Hsame Hout]. split.
    + apply aside_outputs; [done|]. intros q node Hq Hx.
      destruct Hout as [[_ Had]|(place & data & _ & _ & _ & Had & _)]; by eapply adds_keeps.
    + destruct r as [[]|e]; simpl; [|apply Hhalt]. constructor; [|constructor].
      destruct Hout as [[? _]|(place & data & Hs & Hy & _ & _ & Hp & _)]; [done|].
      exists place, data. split_and!; [done|by eapply yielded_content|done].
  - by eapply wp_sink_end; [left|exact Hrows|exact Hhalt].
  - by eapply wp_sink_end; [right|exact Hrows|exact Hhalt].
Qed.

(** The end of the future of a receive that stopped short. *)
Definition halted (P : Inbound V → Prop) (halt : Halt) x : Prop :=
  match halt with Halted _ => P x | Dropped => P x ∧ stopped me x end.

Lemma stays_halted P halt : stays P → stays (halted P halt).
Proof. intros HP. destruct halt; [done|]. apply stable_and; [done|apply stays_stopped]. Qed.

Lemma task_export_files D P transfer target files :
  stays P → (∀ x, P x → D x) →
  task D P (export_files limits me transfer target files) (λ r x,
    match r with Ok _ => P x ∧ got target files x | Err halt => halted P halt x end).
Proof.
  revert P. induction files as [|file files IH]; intros P HP HD.
  { apply triple_return; [apply stable_and; [done|apply stays_got]|]. intros x _ Hx. split; [done|].
    by destruct target; simpl. }
  cbn [export_files]. eapply (task_next _ _ _ _ _ _ (λ r x,
    match r with Ok _ => P x ∧ got target [file] x | Err halt => halted P halt x end)).
  - apply triple_section; [done| |auto|].
    + intros r. apply stable_case; intros; [apply stable_and; [done|apply stays_got]|by apply stays_halted].
    + intros x n _ Hx. eapply wp_mono; [apply wp_export_next|]. intros r x' n' [Ha Hr].
      assert (P x') as Hx' by (eapply HP; [done|exact Hx|]; split; [done|by left]).
      split_and!; [done|done|]. destruct r as [?|[|]]; simpl; [done|done|]. split; [done|].
      by apply (as_stopped t me x x' Ha).
  - intros halt. split; [by apply stays_halted|done].
  - intros []. eapply triple_mono; [apply (IH (λ x, P x ∧ got target [file] x))|done|done|].
    + apply stable_and; [done|apply stays_got].
    + intros x [Hx _]. auto.
    + intros [[]|[]] x _; [|by intros [? _]|by intros [[? _] ?]]. intros [[Hx Hf] Hfs]. split; [done|].
      destruct target; simpl in *; apply Forall_cons in Hf as [Hf _]; by constructor.
Qed.

(** *** The download *)

(** Before the approval, and since. *)
Definition awaiting x : Prop := in_hand t me x ∧ running t me x.
Definition approved (receipt : DeliveryReceipt) x : Prop :=
  t ≤ I64_MAX ∧ has t me receipt x ∧ running t me x.

Lemma stays_awaiting : stays awaiting.
Proof. unfold awaiting. stays_tac. Qed.
Lemma stays_approved receipt : stays (approved receipt).
Proof. unfold approved. stays_tac. Qed.
Lemma approved_awaiting receipt x : approved receipt x → awaiting x.
Proof. intros (? & ? & ?). split; [|done]. split; [done|]. right. by exists receipt. Qed.

Lemma task_approval D addr metadata receiver_name :
  md_transfer_id metadata = t → (∀ x, awaiting x → D x) →
  task D (λ x, awaiting x ∧ fresh me x) (request_transfer_approval me addr metadata receiver_name)
    (λ r x, match r with Ok (receipt, _) => approved receipt x | Err _ => awaiting x end).
Proof.
  intros Ht HD. apply triple_section.
  - apply stable_and; [apply stays_awaiting|apply stays_fresh].
  - intros [[receipt name]|e]; [apply stays_approved|apply stays_awaiting].
  - intros x _ [Hx _]. auto.
  - intros x n _ [Hx Hf]. unfold wp.
    destruct (approval_of metadata _) as [[receipt name]|e] eqn:E; split_and!; try done.
    destruct Hx as [[Hid _] Hr]. split_and!; [done| |done]. cbn [fst]. unfold has. simpl.
    rewrite !lookup_insert_eq. split_and!; [done|done|].
    unfold approval_of in E. destruct (approval_reply _ _ _ _) as [[]|]; simplify_eq/=; done.
Qed.

Lemma task_fetch_loop D P items :
  stays P → (∀ x, P x → D x) → task D P (fetch_loop (V:=V) items) (λ _, P).
Proof.
  intros HP HD. induction items as [|[] items IH]; cbn [fetch_loop];
    (eapply (task_next _ _ _ _ _ _ (λ _, P));
      [eapply triple_mono; [by apply task_reply|done|done|by intros r x _ [Hx _]]|by intros; split|intros []]);
    try by apply triple_return.
  apply IH.
Qed.

(** The collection of the ticket, as the blob store has it. *)
Definition listed (parsed : ParsedTransferTicket) (files : list (string * string)) : Prop :=
  ∃ n, collection_files n (blob_ticket_hash (pt_blob_ticket parsed)) = Ok files.

Lemma stays_sum {E A} (r : result A E) (P : A → Inbound V → Prop) (P' : Inbound V → Prop) :
  (∀ a, stays (P a)) → stays P' → stays (λ x, match r with Ok a => P a x | Err _ => P' x end).
Proof. intros HP HP'. by destruct r. Qed.

(** A step that keeps [P], whatever its outcome. *)
Lemma task_go_on D P {E A B} (p : Fut (Inbound V) E A) (f : A → Fut (Inbound V) E B) Q :
  task D P p (λ _, P) → (∀ e, stays (Q (Err e)) ∧ ∀ x, P x → Q (Err e) x) →
  (∀ a, task D P (f a) Q) → task D P (fbind p f) Q.
Proof. intros Hp He Hf. by eapply (task_next t me D P p f (λ _, P)). Qed.

Lemma task_as_error D P f {A} (p : Fut (Inbound V) AnyhowError A) :
  stays P → task D P p (λ _, P) → task D P (as_error f p) (λ _, P).
Proof. intros HP Hp. by apply triple_map_err. Qed.

Lemma task_reply_any D P {E A} (f : nat → result A E) :
  stays P → (∀ x, P x → D x) → task D P (reply f) (λ _, P).
Proof. intros HP HD. eapply triple_mono; [by apply task_reply|done|done|]. by intros r x _ [Hx _]. Qed.

Lemma task_download D parsed target receiver_name :
  md_transfer_id (pt_metadata parsed) = t → (∀ x, awaiting x → D x) →
  task D (λ x, awaiting x ∧ fresh me x) (download_collection limits me parsed target receiver_name) (λ r x,
    match r with Ok (receipt, _, files) => approved receipt x ∧ listed parsed files | Err _ => awaiting x end).
Proof.
  intros Ht HD. set (Q := λ (r : result (DeliveryReceipt * option string * list (string * string)) AnyhowError) x,
    match r with Ok (receipt, _, files) => approved receipt x ∧ listed parsed files | Err _ => awaiting x end).
  change (task D (λ x, awaiting x ∧ fresh me x) (download_collection limits me parsed target receiver_name) Q).
  eapply task_go_on; [apply task_open_target; [apply stable_and; [apply stays_awaiting|apply stays_fresh]|by intros x [? _]; auto]| |].
  { intros e. split; [apply stays_awaiting|by intros x [? _]]. }
  intros []. eapply task_next; [by apply task_approval| |].
  { intros e. split; [apply stays_awaiting|done]. }
  intros [receipt name]. cbv beta iota.
  assert (∀ e, stays (Q (Err e)) ∧ ∀ x, approved receipt x → Q (Err e) x) as Herr.
  { intros e. split; [apply stays_awaiting|apply approved_awaiting]. }
  assert (∀ x, approved receipt x → D x) as HD' by (intros x Hx%approved_awaiting; auto).
  pose proof (stays_approved receipt) as Hst.
  eapply task_go_on; [by apply task_as_error; [|apply task_fault]|done|]. intros [].
  eapply task_go_on; [by apply task_as_error; [|apply task_reply_any]|done|]. intros sizes.
  destruct (check_collection limits sizes.2) as [total_files|e]; [|by apply triple_return; [apply Herr|intros x _; apply Herr]].
  eapply task_go_on; [by apply task_fault|done|]. intros [].
  eapply task_go_on; [by apply task_reply_any|done|]. intros items.
  eapply task_go_on; [by apply task_fetch_loop|done|]. intros [].
  eapply task_next; [by apply task_reply|by intros e; split; [apply Herr|intros x [Hx _]; by apply Herr]|].
  intros files. apply triple_return; [apply stable_and; [done|apply stable_pure]|].
  intros x _ [Hx [n Hn]]. split; [done|]. by exists n.
Qed.

(** *** Completion *)

Definition final (parsed : ParsedTransferTicket) (target : ReceiveTarget) x : Prop :=
  finished t x ∧ owes t me true x ∧ ∃ files, listed parsed files ∧ got target files x.

Lemma stays_final parsed target : stays (final parsed target).
Proof.
  unfold final. apply stable_and; [apply stays_finished|]. apply stable_and; [apply stays_owes|].
  intros x x' Hi (files & Hl & Hg) Hr. exists files. split; [done|]. by eapply stays_got.
Qed.

Lemma task_complete D sender receipt (G : Inbound V → Prop) :
  stays G → (∀ h x, G x → G (put_ib_history h x)) → (∀ x, approved receipt x → D x) →
  task D (λ x, approved receipt x ∧ G x)
    (ib_repo (complete_receive_with_pending_receipt (success_receipt t sender receipt))) (λ r x,
    match r with
    | Ok _ => (t ≤ I64_MAX ∧ has t me receipt x) ∧ (finished t x ∧ owes t me true x) ∧ G x
    | Err _ => approved receipt x
    end).
Proof.
  intros HG HGh HD. apply triple_section.
  - apply stable_and; [apply stays_approved|done].
  - intros [?|?]; [|apply stays_approved]. apply stable_and; [stays_tac|]. apply stable_and; [stays_tac|done].
  - intros x _ [Hx _]. auto.
  - intros x n _ [Hx Hg]. apply wp_zoom. eapply wp_mono; [by apply (wp_commit_receive t)|].
    intros [[]|e] h' n' Hh; (split; [done|split; [done|]]).
    + destruct Hh as [Hs (row & Hp & Hl & Hf)]. destruct Hx as (Hid & Hhas & _). split; [by split|].
      split; [|by apply HGh]. split; [by left|]. exists (dr_request_id receipt). split; [apply Hhas|].
      right. exists row. unfold pending, ib_history. simpl. rewrite Hp. split_and!; [apply lookup_insert_eq|done|].
      rewrite Hf. done.
    + subst h'. by destruct x.
Qed.

Lemma task_settle D sender_addr name receipt parsed target :
  (∀ x, t ≤ I64_MAX ∧ has t me receipt x → D x) →
  task D (λ x, (t ≤ I64_MAX ∧ has t me receipt x) ∧ final parsed target x)
    (section (settle_receive protected local_endpoint_id me sender_addr name receipt))
    (λ r x, match r with Ok _ => final parsed target x | Err _ => False end).
Proof.
  intros HD. apply triple_section.
  - apply stable_and; [stays_tac|apply stays_final].
  - intros [?|?]; [apply stays_final|apply stable_pure].
  - intros x _ [Hx _]. auto.
  - intros x n _ [_ Hx]. apply wp_bind, wp_try, wp_zoom, wp_zoom, wp_zoom, wp_any. intros r k n1.
    apply wp_bind, wp_modify, wp_modify. by split_and!.
Qed.

(** *** The whole future *)

(** How the select ends. *)
Definition raced_end (parsed : ParsedTransferTicket) (target : ReceiveTarget)
    (r : option (result unit Halt)) x : Prop :=
  match r with
  | Some (Ok _) => final parsed target x
  | Some (Err (Halted _)) => awaiting x
  | Some (Err Dropped) | None => in_hand t me x ∧ stopped me x
  end.

Lemma stays_raced_end parsed target r : stays (raced_end parsed target r).
Proof.
  destruct r as [[[]|[e|]]|]; simpl; [apply stays_final|apply stays_awaiting|stays_tac|stays_tac].
Qed.

(** A step whose error only changes its form. *)
Lemma task_map_err D P {E F A} (h : E → F) (p : Fut (Inbound V) E A) (P1 : A → Inbound V → Prop) P2 :
  (∀ a, stays (P1 a)) → stays P2 →
  task D P p (λ r x, match r with Ok a => P1 a x | Err _ => P2 x end) →
  task D P (fmap_err h p) (λ r x, match r with Ok a => P1 a x | Err f => (∃ e, f = h e) ∧ P2 x end).
Proof.
  intros H1' H2' Hp. apply triple_map_err.
  - eapply triple_mono; [exact Hp|done|done|]. intros [a|e] x _ Hx; simpl; [done|]. split; [by exists e|done].
  - intros [a|f]; [done|]. apply stable_and; [apply stable_pure|done].
Qed.

Lemma task_commit D sender receipt parsed target files :
  (∀ x, approved receipt x → D x) → listed parsed files →
  task D (λ x, approved receipt x ∧ got target files x)
    (as_error repository (ib_repo (complete_receive_with_pending_receipt (success_receipt t sender receipt)))) (λ r x,
    match r with
    | Ok _ => (t ≤ I64_MAX ∧ has t me receipt x) ∧ final parsed target x
    | Err _ => approved receipt x
    end).
Proof.
  intros HD Hl. eapply (triple_mono _ _ _ _ _ D D (λ x, approved receipt x ∧ got target files x)); [|done|done|].
  { apply (task_map_err _ _ _ _ (λ _ x, (t ≤ I64_MAX ∧ has t me receipt x) ∧ final parsed target x) (approved receipt)).
    - intros _. apply stable_and; [stays_tac|apply stays_final].
    - apply stays_approved.
    - eapply triple_mono; [apply task_complete; [apply (stays_got target files)| |done]|done|done|].
      + intros h x Hx. by destruct target.
      + intros [[]|e] x _ Hx; [|done]. destruct Hx as (Hh & [Hf Ho] & Hg). split; [done|].
        split_and!; [done|done|]. by exists files. }
  intros [?|f] x _; [done|by intros [_ ?]].
Qed.

Lemma task_receive_inner parsed target receiver_name sender :
  md_transfer_id (pt_metadata parsed) = t →
  task (in_hand t me) (λ x, awaiting x ∧ fresh me x)
    (receive_inner protected local_endpoint_id limits me t parsed target receiver_name sender)
    (λ r, raced_end parsed target (Some r)).
Proof.
  intros Ht. unfold receive_inner.
  assert (∀ x, awaiting x → in_hand t me x) as HD by (by intros x [? _]).
  assert (∀ receipt x, approved receipt x → in_hand t me x) as HD' by (intros receipt x Hx%approved_awaiting; auto).
  assert (∀ e : Halt, (∃ e', e = Halted e') → stays (raced_end parsed target (Some (Err e))) ∧
    ∀ x, awaiting x → raced_end parsed target (Some (Err e)) x) as Herr.
  { intros _ [e ->]. split; [apply stays_awaiting|done]. }
  eapply task_next.
  { apply (task_map_err _ _ Halted _ (λ a x, approved a.1.1 x ∧ listed parsed a.2) awaiting).
    - intros a. apply stable_and; [apply stays_approved|apply stable_pure].
    - apply stays_awaiting.
    - eapply triple_mono; [by apply task_download|done|done|]. by intros [[[? ?] ?]|?]. }
  { intros e. split; [apply stays_raced_end|]. intros x [He Hx]. by apply (Herr e He). }
  intros [[receipt name] files]. cbn [fst snd]. set (P := λ x, approved receipt x ∧ listed parsed files).
  assert (stays P) as HP by (apply stable_and; [apply stays_approved|apply stable_pure]).
  assert (∀ x, P x → in_hand t me x) as HPD by (intros x [Hx _]; by eapply HD').
  eapply (task_next _ _ _ _ _ _ (λ r x,
    match r with Ok _ => P x ∧ got target files x | Err halt => halted P halt x end)).
  { unfold export_tracked. eapply (task_next _ _ _ _ _ _ (λ r x, match r with Ok _ => P x | Err f => (∃ e, f = Halted e) ∧ P x end)).
    - apply (task_map_err _ _ Halted _ (λ _, P) P); [done|done|].
      eapply triple_mono; [apply task_as_error; [exact HP|]|done|done|by intros [?|?]].
      apply task_read; [done|done|]. intros h n. unfold transfer_local_id. apply wp_bind, wp_to_db_id; [done|]. intros _.
      apply wp_asql; [done|]. intros _ a h'. destruct (transfers h !! t); [|done]. by intros [= _ <-].
    - intros e. split; [by apply stays_halted|]. by intros x [[e' ->] Hx].
    - intros local_id. by apply task_export_files. }
  { intros e. split; [apply stays_raced_end|]. intros x Hx. destruct e as [e|]; [by eapply approved_awaiting, Hx|].
    destruct Hx as [Hx Hs]. split; [by apply HPD|done]. }
  intros []. eapply (task_next _ _ _ _ _ _ (λ r x,
    match r with Ok _ => (t ≤ I64_MAX ∧ has t me receipt x) ∧ final parsed target x
               | Err f => (∃ e, f = Halted e) ∧ approved receipt x end)).
  { apply (task_map_err _ _ Halted _ (λ _ x, (t ≤ I64_MAX ∧ has t me receipt x) ∧ final parsed target x) (approved receipt)).
    - intros _. apply stable_and; [stays_tac|apply stays_final].
    - apply stays_approved.
    - intros x Hi [[Hx Hl] Hg]. eapply task_commit; [apply HD'|exact Hl|done|by split]. }
  { intros e. split; [apply stays_raced_end|]. intros x [[e' ->] Hx]. by eapply approved_awaiting. }
  intros []. eapply triple_mono.
  - apply (task_map_err _ _ Halted _ (λ _, final parsed target) (λ _, False)); [|apply stable_pure|].
    + intros _. apply stays_final.
    + apply (task_settle (in_hand t me)). intros x [Hid Hh]. split; [done|]. right. by exists receipt.
  - done.
  - done.
  - intros [?|e] x _; [done|by intros [_ ?]].
Qed.

(** *** Reporting a failure *)

(** The database failed, or the sender's address could not be written. *)
Definition outage : Prop := db_failed ∨ ∃ addr e, encode_persisted_sender_address addr = Err e.

(** A receive that returned an error has told so to a sender that had approved … *)
Definition reported x : Prop :=
  ∀ request, ib_approved x !! me = Some request → told t request false x ∨ db_failed.
(** … and its row is running only until the cancellation that stopped it has ended it. *)
Definition not_stranded x : Prop := stage t x = Running → stopped me x ∨ outage.

Lemma stays_not_stranded : stays not_stranded.
Proof.
  intros x x' _ Hx [_ _ _ Ap As _ _ _]%rely_aside Hr.
  destruct As as [E|[(_ & E & _)|[_ E]]]; [|congruence..]. destruct Hx as [?|?]; [congruence|left; auto|by right].
Qed.

Lemma stays_reported : stays reported.
Proof.
  intros x x' _ Hx [_ _ Aa _ _ Ap Ae _]%rely_aside request Hr. rewrite Aa in Hr.
  destruct (Hx request Hr) as [[Hs|(row & Hp & Hrow)]|?]; [left; left; auto| |by right].
  left. destruct (Ap request Hr) as [E|Hs]; [|by left]. right. exists row. by rewrite E.
Qed.

Lemma stays_answered : stays (λ x, reported x ∧ not_stranded x).
Proof. apply stable_and; [apply stays_reported|apply stays_not_stranded]. Qed.

Lemma task_report D sender why :
  (∀ x, D x) →
  task D (λ x, in_hand t me x ∧ not_stranded x) (report_failure me t sender why)
    (λ _ x, reported x ∧ not_stranded x).
Proof.
  intros HD. unfold report_failure.
  eapply (task_next _ _ _ _ _ _ (λ r x, match r with
    | Ok (Some receipt) => (t ≤ I64_MAX ∧ dr_transfer_id receipt = t ∧
        ib_approved x !! me = Some (dr_request_id receipt)) ∧ not_stranded x
    | Ok None => reported x ∧ not_stranded x
    | Err _ => False end)).
  { apply triple_section; [apply stable_and; [stays_tac|apply stays_not_stranded]| |done|].
    - intros [[receipt|]|e]; [|apply stays_answered|apply stable_pure].
      apply stable_and; [|apply stays_not_stranded]. intros x x' _ (H1' & H2' & H3') [_ _ Aa _ _ _ _ _]%rely_aside.
      split_and!; congruence.
    - intros x n _ [[Hid Hx] Hn]. apply wp_bind, wp_get, wp_bind, wp_modify, wp_ret. split; [done|split; [done|]].
      destruct Hx as [[Hs Ha]|(receipt & Hs & Ha & Et)]; rewrite Hs.
      + split; [|done]. intros request Hr. simpl in Hr. congruence.
      + by split_and!. }
  { intros e. by split; [apply stays_answered|]. }
  intros [receipt|]; [|by apply triple_return; [apply stays_answered|]].
  eapply (task_next _ _ _ _ _ _ (λ r x, match r with
    | Ok _ => reported x ∧ not_stranded x | Err _ => False end)).
  { apply triple_outcome.
    - apply triple_section.
      + apply stable_and; [|apply stays_not_stranded]. intros x x' _ (H1' & H2' & H3') [_ _ Aa _ _ _ _ _]%rely_aside.
        split_and!; congruence.
      + intros r. apply stays_answered.
      + done.
      + intros x n _ [(Hid & Et & Ha) Hn]. apply wp_zoom.
        eapply wp_mono; [by apply (wp_queue_failure t _ _ _ why)|]. intros r h' n' [Etr Hq].
        split; [done|split; [done|]]. split.
        * intros request Hr. assert (request = dr_request_id receipt) as -> by (simpl in Hr; congruence).
          destruct Hq as [[Hf _]|[_ (row & Hp & Hl & Hw)]]; [by right|]. left. right. exists row.
          unfold pending, ib_history. simpl. rewrite Hp. split_and!; [apply lookup_insert_eq|done|]. rewrite Hw. done.
        * unfold not_stranded, stage, at_stage, ib_history. simpl. rewrite Etr. exact Hn.
    - intros [?|?]; [apply stays_answered|apply stable_pure]. }
  { intros e. by split; [apply stays_answered|]. }
  intros [[]|e]; [|by apply triple_return; [apply stays_answered|]].
  apply task_untouched; [apply stays_answered|done|].
  intros x n. apply wp_modify. split; auto.
Qed.

(** *** The call *)

(** What a returned receive leaves. *)
Definition receive_end (ticket : string) (target : ReceiveTarget) (r : result unit AnyhowError) x : Prop :=
  match r with
  | Ok _ => ∃ parsed, admitted_ticket limits relay_mode custom_relay_urls ticket = Ok parsed ∧ final parsed target x
  | Err _ => reported x ∧ not_stranded x
  end.

Lemma stays_receive_end ticket target r : stays (receive_end ticket target r).
Proof.
  destruct r; simpl; [|apply stays_answered].
  intros x x' Hi (parsed & Hp & Hf) Hr. exists parsed. split; [done|]. by eapply stays_final.
Qed.

Lemma running_not_stranded x : stopped me x → not_stranded x.
Proof. intros Hs _. by left. Qed.

Lemma fresh_reported x : fresh me x → reported x.
Proof. intros [_ Ha] request Hr. congruence. Qed.

Lemma task_signals {E} D P (f : Runtime V → Runtime V) :
  stays P → (∀ x, P x → D x) → (∀ r, x_service (f r) = x_service r) →
  (∀ r, signalled me r = true → signalled me (f r) = true) →
  task D P (section (E:=E) (in_runtime (modify f))) (λ r x, r = Ok tt ∧ P x).
Proof.
  intros HP HD Hs Hg. apply triple_section; [done| |auto|].
  - intros r. apply stable_and; [apply stable_pure|done].
  - intros x n _ Hx. apply wp_zoom, wp_modify. split; [done|split; [done|]]. split; [done|].
    eapply HP; [done|exact Hx|]. split; [done|left]. apply aside_signals; [apply Hs|apply Hg].
Qed.

(** The outcome of the select, handled. *)
Lemma task_after_race sender parsed target ticket raced :
  admitted_ticket limits relay_mode custom_relay_urls ticket = Ok parsed →
  task (λ _, True) (raced_end parsed target raced)
    (let! _ := section (in_runtime (modify (remove_active t))) in
     match raced with
     | Some (Ok _) => Return (Ok tt)
     | Some (Err (Halted error)) =>
         let error := transfer error in
         let! _ := outcome (F:=AnyhowError) (ib_repo (transition_transfer_status t Receiving Failed)) in
         let! _ := report_failure me t sender (code error) in
         Return (Err (anyhow_vnidrop error))
     | Some (Err Dropped) | None =>
         let! _ := report_failure me t sender "cancelled" in
         Return (Err OutputFile.cancelled)
     end)
    (receive_end ticket target).
Proof.
  intros Hp. assert (∀ e, stays (receive_end ticket target e)) as Hst by apply stays_receive_end.
  eapply task_next.
  { apply task_signals; [apply stays_raced_end|done|done|]. intros r Hr. by apply signal_owner_grows. }
  { intros e. split; [apply Hst|by intros x [? _]]. }
  intros [].
  assert (∀ why error, task (λ _, True) (λ x, in_hand t me x ∧ not_stranded x)
    (let! _ := report_failure me t sender why in Return (Err error)) (receive_end ticket target)) as Hreport.
  { intros why error. eapply task_next; [by apply task_report|by intros e; split|].
    intros []. apply triple_return; [apply Hst|done]. }
  assert (∀ error, task (λ _, True) (λ x, Ok (E:=AnyhowError) tt = Ok tt ∧ in_hand t me x ∧ stopped me x)
    (let! _ := report_failure me t sender "cancelled" in Return (Err error)) (receive_end ticket target)) as Hdropped.
  { intros error. eapply triple_mono; [apply Hreport| |done|done]. intros x _ (_ & Hh & Hs).
    split; [done|by apply running_not_stranded]. }
  destruct raced as [[[]|[error|]]|]; [|clear Hdropped|apply Hdropped..].
  { apply triple_return; [apply Hst|]. intros x _ [_ Hx]. by exists parsed. }
  eapply (task_next _ _ _ _ _ _ (λ r x, match r with Ok _ => in_hand t me x ∧ not_stranded x | Err _ => False end)).
  - apply triple_outcome; [|intros [?|?]; [apply stable_and; [stays_tac|apply stays_not_stranded]|apply stable_pure]].
    apply triple_section.
    + apply stable_and; [apply stable_pure|apply stays_awaiting].
    + intros r. apply stable_and; [stays_tac|apply stays_not_stranded].
    + done.
    + intros x n _ (_ & [Hid Hh] & Hr). apply wp_zoom. eapply wp_mono; [by apply (wp_fail_receive t)|].
      intros r h' n' (Hs & _ & _). split; [done|split; [done|]]. split; [by split|].
      intros Es. destruct Hs as [?|Hs]; [right; by left|]. done.
  - intros e. split; [apply Hst|done].
  - intros r. apply Hreport.
Qed.

Lemma task_receive_or_cancel parsed target receiver_name sender ticket :
  md_transfer_id (pt_metadata parsed) = t →
  admitted_ticket limits relay_mode custom_relay_urls ticket = Ok parsed →
  task (λ _, True) (λ x, awaiting x ∧ fresh me x)
    (receive_or_cancel protected local_endpoint_id limits me t parsed target receiver_name sender)
    (receive_end ticket target).
Proof.
  intros Ht Hp. unfold receive_or_cancel. eapply task_next.
  { apply task_signals; [apply stable_and; [apply stays_awaiting|apply stays_fresh]|done|done|].
    intros r Hr. by apply signal_owner_grows. }
  { intros e. split; [apply stays_receive_end|by intros x [? _]]. }
  intros []. eapply (triple_bind _ _ _ _ _ _ _ _ _ (raced_end parsed target)).
  - apply (triple_race _ _ _ _ _ (in_hand t me)).
    + eapply triple_mono; [by apply task_receive_inner|by intros x _ [_ Hx]|done|done].
    + apply (stays_raced_end parsed target None).
    + intros x _ Hx. split; [done|]. intros Hs. by split_and!.
  - intros raced. by apply task_after_race.
Qed.

(** The receive of one ticket, from its parsing on. *)
Lemma task_receive ticket target receiver_name parsed :
  admitted_ticket limits relay_mode custom_relay_urls ticket = Ok parsed →
  md_transfer_id (pt_metadata parsed) = t →
  task (λ _, True) (λ x, over t x ∧ fresh me x)
    (receive_to_target protected local_endpoint_id limits relay_mode custom_relay_urls me ticket target receiver_name)
    (receive_end ticket target).
Proof.
  intros Hp Ht. unfold receive_to_target. rewrite Hp, Ht.
  assert (∀ e, stays (receive_end ticket target e)) as Hst by apply stays_receive_end.
  assert (∀ e x, over t x → fresh me x → receive_end ticket target (Err e) x) as Hnone.
  { intros e x Hs Hf. split; [by apply fresh_reported|]. intros Hr. by apply Hs in Hr. }
  eapply (task_next _ _ _ _ _ _ (λ r x, match r with
    | Ok _ => awaiting x ∧ fresh me x | Err f => (∃ e : AnyhowError, f = anyhow_vnidrop (repository e)) ∧ over t x ∧ fresh me x end)).
  - apply (task_map_err _ _ _ _ (λ _ x, awaiting x ∧ fresh me x) (λ x, over t x ∧ fresh me x)).
    + intros _. apply stable_and; [apply stays_awaiting|apply stays_fresh].
    + stays_tac.
    + eapply triple_mono; [apply (task_map_err (λ _, True) (λ x, over t x ∧ fresh me x) _ _ (λ _ x, awaiting x ∧ fresh me x) (λ x, over t x ∧ fresh me x))|done|done|].
      * intros _. apply stable_and; [apply stays_awaiting|apply stays_fresh].
      * stays_tac.
      * apply triple_section; [stays_tac| |done|].
        { intros [?|?]; [apply stable_and; [apply stays_awaiting|apply stays_fresh]|stays_tac]. }
        intros x n _ [Hs Hf]. apply wp_zoom. eapply wp_mono; [by apply (wp_start_receive t)|].
        intros [[]|e] h' n' Hh; (split; [done|split; [done|]]).
        -- destruct Hh as (Hr & Hid & _). split; [|done]. split; [|by left]. split; [done|by left].
        -- subst h'. by destruct x.
      * intros [?|f] x _; [done|by intros [_ ?]].
  - intros e. split; [apply Hst|]. intros x (_ & Hs & Hf). by apply Hnone.
  - intros []. destruct (encode_persisted_sender_address _) as [sender|e] eqn:Ee; [by apply task_receive_or_cancel|].
    apply triple_return; [apply Hst|]. intros x _ [_ Hf]. split; [by apply fresh_reported|].
    intros _. right. right. by eexists _, _.
Qed.
End Tasks.

(** ** The receive as a whole *)

Section Receives.
Context `{Env} `{ForeignText} `{Host} `{Blake3} `{!Base64} `{Codec} `{Urls} `{Addressing}
  `{!TicketCodec} {V : Type} `{SecureSecretStore V} `{Volume} (foreign : list Component → Prop)
  `{!VolumeLaws foreign} `{Exports} `{!Downloads} `{Polling}.
Variable protected : bool.
Variable local_endpoint_id : string.
Variable limits : CoreLimits.
Variable relay_mode : CoreRelayMode.
Variable custom_relay_urls : list RelayUrl.
Implicit Types (x : Inbound V).

Abbreviation call ticket target receiver_name :=
  (receive_to_target protected local_endpoint_id limits relay_mode custom_relay_urls 0 ticket target receiver_name).


(** *** What moves meanwhile

    A cancellation, step by step: the signal, and then the row. *)
Lemma take_aside t u x n :
  (∀ direction i, active_transfers (ib_runtime x) !! t = Some (direction, i) → i = 0%nat) →
  wp (in_runtime (take_active_transfer u)) x n (λ r x' _,
    aside t 0 x x' ∧ (∀ direction, r = Ok (Some direction) → u = t → stopped 0 x')).
Proof.
  intros Howner. apply wp_zoom, wp_bind, wp_get.
  destruct (active_transfers (ib_runtime x) !! u) as [[direction task]|] eqn:E; [|apply wp_ret; split; [destruct x; apply aside_refl|by intros ? [=]]].
  apply wp_bind, wp_modify, wp_ret. split.
  - apply (aside_signals t 0 (remove_active u) x); [done|]. apply signal_owner_grows.
  - intros _ _ ->. apply Howner in E as Et. subst task. unfold stopped, ib_signalled, signalled. simpl.
    rewrite E. apply bool_decide_eq_true. set_solver.
Qed.

Lemma cancel_aside t u x n :
  (u = t → stopped 0 x) →
  wp (in_ib_history (transition_transfer_status u Receiving StatusCancelled)) x n (λ _ x' _, aside t 0 x x').
Proof.
  intros Hs. apply wp_zoom. unfold transition_transfer_status. simpl.
  apply wp_bind, wp_now_ms, wp_bind, wp_to_db_id; [by intros; apply aside_moved|]. intros _.
  apply wp_bind, (wp_update_history_key u); [by intros; bool_simpl; lia|by intros; apply aside_moved| |].
  - intros _. apply wp_bind, wp_bind, wp_select; [by intros; apply aside_moved|]. apply wp_ret.
    destruct (opt_eqb _ _); [apply wp_ret|apply wp_of_result]; by apply aside_moved.
  - intros r Hr HP. apply wp_bind, wp_ret, wp_of_result. apply andb_true_iff in HP as [_ Est%str_eqb_eq].
    split; [done|done|done|done| | |done|done]; [|intros request _; by left].
    unfold stage, at_stage. simpl. destruct (decide (u = t)) as [->|Hne]; [|left; by rewrite lookup_insert_ne].
    rewrite Hr, lookup_insert_eq. unfold row_stage. simpl.
    destruct (str_eqb (t_direction r) "receive"); [|by left]. right. left. simpl.
    split_and!; [|done|by apply Hs]. by rewrite Est.
Qed.
End Receives.

(** ** Concrete runs *)

Section Witnesses.
#[local] Instance receive_env : Env := quiet_env 1000 (λ n, pretty n).
#[local] Existing Instances demo_text demo_base64 demo_addressing demo_urls auth_host auth_blake3 calm_volume calm_laws small_exports.
#[local] Instance receive_codec : TicketCodec := {|
  ticket_to_json _ := bail "json";
  ticket_of_json s := if str_eqb s "t" then Ok demo_ticket else bail "json";
  address_to_json a := Ok (da_id a); address_of_json s := Ok (addr_new s);
  base64_error s := anyhow_msg s;
  BlobTicket := DemoAddr;
  blob_ticket_from_str s := Ok (addr_new s);
  blob_ticket_text := da_id; blob_ticket_hash _ := "hash"%string;
  blob_ticket_addr b := b; blob_ticket_with_addr a _ := a |}.
#[local] Instance two_photos : Downloads := {|
  approval_reply _ _ _ _ := Ok (HandshakeApproved "request" "token" 9000 (Some "Ann"));
  blobs_connect_fault _ _ := None;
  hash_seq_and_sizes _ _ := Ok (3, [70; 5; 5]);
  temp_tag_fault _ := None;
  fetch_items _ _ := [GProgress; GDone];
  local_bytes _ _ := Ok 0;
  collection_files _ _ := Ok [("docs/a.txt", "h"); ("docs/b.txt", "i")];
  receipt_reply _ _ _ := None |}%string.
#[local] Instance signal_first : Polling := {| cancel_first _ := true |}.

Definition receiver_start : Inbound FaultInjectingSecretStore := {|
  ib_runtime := {| x_service := approval_new (demo_core empty_tables); active_transfers := ∅; x_signals := ∅;
                   active_shares := ∅; x_lock := None; importers := ∅ |};
  ib_disk := ∅; ib_calls := []; ib_receipts := ∅; ib_notified := false; ib_approved := ∅; ib_settled := ∅ |}.

Definition receiving (me : nat) : Fut (Inbound FaultInjectingSecretStore) AnyhowError unit :=
  receive_to_target false "ann" default_core_limits Automatic [] me demo_wrapped (Directory "/in") None.

Definition received_end : list (Async (Inbound FaultInjectingSecretStore) (result unit AnyhowError)) *
    Inbound FaultInjectingSecretStore :=
  default ([], receiver_start) (take_turns (repeat 0%nat 17) [receiving 0] receiver_start 0).

Lemma received_reached :
  rtc (pool_step (λ _ _, False) (aside 7 0)) (Build_Pool [receiving 0] receiver_start)
    (Build_Pool received_end.1 received_end.2).
Proof.
  apply (turns_steps _ _ (repeat 0%nat 17) _ _ 0%nat). unfold received_end.
  destruct (take_turns _ _ _ _) as [[ps x]|] eqn:E; [reflexivity|]. exfalso.
  assert (is_Some (take_turns (repeat 0%nat 17) [receiving 0] receiver_start 0)) as Hs by (vm_compute; eauto).
  rewrite E in Hs. by destruct Hs.
Qed.


(** *** Cancellations that come late *)

Abbreviation Outcome := (option (result unit AnyhowError)).
Definition receive_call (me : nat) : Async (Inbound FaultInjectingSecretStore) Outcome :=
  abind (receiving me) (λ r, Return (Some r)).
(** What [cancel_transfer] does to a receive. *)
Definition cancel_call : Async (Inbound FaultInjectingSecretStore) Outcome :=
  abind (section (E:=AnyhowError) (in_runtime (take_active_transfer 7))) (λ _,
  abind (ib_repo (transition_transfer_status 7 Receiving StatusCancelled)) (λ _, Return None)).

(** The completion is committed, and the receive is cancelled before it has gone on: the transfer
    is done and stays done, and its sender is told that it was cancelled. *)
Lemma completed_receive_can_report_failure :
  ∃ ps x row, take_turns (repeat 0%nat 15 ++ [1%nat] ++ repeat 0%nat 5 ++ [1%nat]) [receive_call 0; cancel_call] receiver_start 0 =
      Some (ps, x) ∧
    ps !! 0%nat = Some (Return (Some (Err OutputFile.cancelled))) ∧ stage 7 x = Finished ∧
    pending x !! "request"%string = Some row ∧ p_failure_reason row = Some "cancelled"%string.
Proof. eexists _, _, _. split; [vm_compute; reflexivity|]. by vm_compute. Qed.

(** The first receive is downloading when it is cancelled; the second starts before the first has
    cleaned up; a third comes after both have returned. *)
Definition stranding : list nat :=
  repeat 0%nat 9 ++ repeat 1%nat 2 ++ repeat 2%nat 4 ++ repeat 0%nat 5 ++ repeat 2%nat 5 ++ [3%nat].

(** The first receive removes the entry of the second, which takes this for a
    cancellation: it returns as cancelled, nothing receives the transfer any more, and yet its
    row goes on to say that it is running, so that every later receive of it is refused. *)
Lemma second_receive_is_stranded :
  ∃ ps x e, take_turns stranding [receive_call 0; cancel_call; receive_call 2; receive_call 3] receiver_start 0 = Some (ps, x) ∧
    ps = Return <$> [Some (Err OutputFile.cancelled); None; Some (Err OutputFile.cancelled); Some (Err e)] ∧
    stage 7 x = Running ∧ active_transfers (ib_runtime x) = ∅.
Proof. eexists _, _, _. split; [vm_compute; reflexivity|]. by vm_compute. Qed.
End Witnesses.
