(* ===== verification/DeliverySpec.v ===== *)
(** * Delivering receipts, and targeted payloads

    The background task of [Receive.v] that tells senders how their transfers ended, and the
    download of a targeted payload, under interference. *)

From stdpp Require Import pretty.
From S2P Require Import Prelude Sql Async ControlPlane Errors States Api Ticket Filesystem TargetedStore Access Invitation Inbox SecureSecret Relationship Pairing Devices Core Approval Authorization TargetedModule TargetedRuntime OutputFile Share Receive ReceiveSpec ReceiveTasks.

(** ** Receipts *)

Lemma next_interval_bounds notified interval :
  DELIVERY_RECEIPT_RETRY_INTERVAL ≤ interval ≤ DELIVERY_RECEIPT_MAX_RETRY_INTERVAL →
  DELIVERY_RECEIPT_RETRY_INTERVAL ≤ next_interval notified interval ≤ DELIVERY_RECEIPT_MAX_RETRY_INTERVAL.
Proof.
  unfold next_interval, DELIVERY_RECEIPT_RETRY_INTERVAL, DELIVERY_RECEIPT_MAX_RETRY_INTERVAL.
  destruct notified; lia.
Qed.

Section Receipts.
Context `{Env} `{ForeignText} `{!Base64} `{Codec} `{Urls} `{Addressing} `{!TicketCodec} {V : Type} `{!Downloads}.
Variable relay_mode : CoreRelayMode.
Variable custom_relay_urls : list RelayUrl.
Implicit Types (x : Inbound V).

(** The sender has answered a receipt of the request, or one of its receipts has no address. *)
Definition answered (request : string) : Prop :=
  (∃ n addr pending answer, pd_request_id pending = request ∧ receipt_reply n addr pending = Some (Ok answer)) ∨
  (∃ pending e, pd_request_id pending = request ∧
     parse_persisted_sender_address (pd_sender_blob_ticket pending) = Err e).

(** Of the receipts of [x0], none is lost. *)
Definition kept x0 x : Prop :=
  ∀ request, is_Some (pending x0 !! request) → is_Some (pending x !! request) ∨ answered request.

(** The rest of the core adds receipts, and replaces them. *)
Definition adds_receipts x x' : Prop := ∀ request, is_Some (pending x !! request) → is_Some (pending x' !! request).

Section Kept.
Variable x0 : Inbound V.
Abbreviation any_step := (λ (i : nat) (_ _ : Inbound V), True).
Abbreviation task i := (triple (kept x0) any_step adds_receipts (λ _, None) i (λ _, True) (λ _, True)).

Lemma stays_true i : stable (kept x0) any_step adds_receipts i (λ _, True).
Proof. by intros x x' _ _ _. Qed.

Lemma task_quiet_receipts i {E A} ready (m : M (Inbound V) E A) :
  (∀ x, ready x = true) → (∀ x n, wp m x n (λ _ x' _, kept x0 x → kept x0 x')) →
  task i (waiting ready m) (λ _ _, True).
Proof.
  intros Hready Hm. apply triple_waiting; [apply stays_true|intros; apply stays_true|done|done|].
  intros x n Hx _ _. eapply wp_mono; [apply Hm|]. auto.
Qed.

Lemma task_seq i {E A B} (p : Fut (Inbound V) E A) (f : A → Fut (Inbound V) E B) :
  task i p (λ _ _, True) → (∀ a, task i (f a) (λ _ _, True)) → task i (fbind p f) (λ _ _, True).
Proof. intros Hp Hf. eapply triple_fbind; [exact Hp|exact Hf|]. intros e. split; [apply stays_true|done]. Qed.

Lemma task_any_return i {A} (a : A) : task i (Return a) (λ _ _, True).
Proof. apply triple_return; [apply stays_true|done]. Qed.

Lemma task_any_outcome i {E F A} (p : Fut (Inbound V) E A) :
  task i p (λ _ _, True) → task i (outcome (F:=F) p) (λ _ _, True).
Proof. intros Hp. apply (triple_outcome _ _ _ _ _ _ _ p (λ _ _, True)); [exact Hp|intros; apply stays_true]. Qed.

Lemma task_delete_receipt i request : answered request → task i (delete_receipt request) (λ _ _, True).
Proof.
  intros Ha. apply task_quiet_receipts; [done|]. intros x n. unfold wp.
  assert (wp (in_ib_history (delete_pending_delivery_receipt request)) x n (λ _ x' _, kept x0 x → kept x0 x')) as Hwp.
  { apply wp_zoom, wp_asql; [intros e Hx; by destruct x|]. intros _ [] h [= <-] Hx request' Hr.
    destruct (decide (request' = request)) as [->|Hne]; [by right|].
    destruct (Hx request' Hr) as [Hs|?]; [left|by right]. unfold pending, ib_history in *. simpl.
    rewrite delete_where_str, lookup_delete_ne; done. }
  unfold wp in Hwp. by destruct (in_ib_history _ x n) as [[[]?]?].
Qed.

Lemma task_deliver i receipt : task i (deliver_pending_receipt relay_mode custom_relay_urls receipt) (λ _ _, True).
Proof.
  unfold deliver_pending_receipt. destruct (parse_persisted_sender_address _) as [addr|e] eqn:Ep.
  - destruct (filter_peer_addr_for_relay_mode _ _ _) as [addr'|]; [|apply task_any_return].
    eapply triple_fbind.
    + apply (triple_section _ _ _ _ _ _ _ _ (λ r x, ∃ n, r = Ok (receipt_reply n addr' receipt))); [apply stays_true| |done|].
      * intros r. apply stable_pure.
      * intros x n Hx _. unfold wp. split; [done|split; [done|by exists n]].
    + intros answer x Hx [n Hn]. injection Hn as Hn.
      assert (∀ a, answer = Some (Ok a) → answered (pd_request_id receipt)) as Ha.
      { intros a ->. left. exists n, addr', receipt, a. by split. }
      assert (task i (match answer with
        | Some (Ok (ReceiptRecorded | ReceiptRejected _)) =>
            let! _ := outcome (F:=AnyhowError) (delete_receipt (pd_request_id receipt)) in Return (Ok tt)
        | Some (Err _) | None => Return (Ok tt)
        end) (λ _ _, True)) as Htask; [|by apply Htask].
      destruct answer as [[[|reason]|]|]; try apply task_any_return;
        (apply task_seq; [|intros; apply task_any_return]; apply task_any_outcome, task_delete_receipt; by eapply Ha).
    + intros e. split; [apply stays_true|done].
  - apply task_seq; [|intros; apply task_any_return]. apply task_any_outcome, task_delete_receipt. right. by eexists _, _.
Qed.

Lemma task_deliver_each i receipts : task i (deliver_each relay_mode custom_relay_urls receipts) (λ _ _, True).
Proof.
  induction receipts as [|receipt receipts IH]; [apply task_any_return|].
  apply task_seq; [apply task_deliver|by intros []].
Qed.

Lemma task_pass i :
  task i (deliver_pending_receipts relay_mode custom_relay_urls) (λ _ _, True).
Proof.
  unfold deliver_pending_receipts. apply task_seq.
  - apply task_any_outcome, task_quiet_receipts; [done|]. intros x n. apply wp_zoom, wp_select; intros; by destruct x.
  - intros [receipts|e]; [|apply task_any_return]. apply task_seq; [apply task_deliver_each|].
    intros []. apply task_any_return.
Qed.
End Kept.

(** A receipt that is owed waits for an answer. Whatever the peers and the rest of the
    core do, and however often receipts are delivered, one disappears from the table only if its
    sender has answered it, or its address cannot be read. *)
Theorem receipts_wait_for_answer x0 w :
  rtc (pool_step (λ _ p, p = deliver_pending_receipts relay_mode custom_relay_urls) adds_receipts)
    (Build_Pool [] x0) w →
  ∀ request, is_Some (pending x0 !! request) → is_Some (pending (pool_state w) !! request) ∨ answered request.
Proof.
  intros Hw. assert (pool_ok (kept x0) (λ _ _ _, True) adds_receipts (λ _, None) (λ _ (_ : result bool AnyhowError) _, True) w) as [Hk _].
  { eapply (pool_safe _ _ _ _ (λ _ _ _, True)); [by auto|done| |done| | |exact Hw].
    - intros x x' Hx Ha request Hr. destruct (Hx request Hr) as [Hs|?]; [left; by apply Ha|by right].
    - intros i p x -> Hx _. by apply (task_pass x0 i).
    - split_and!; [|done|done]. intros request Hr. by left. }
  exact Hk.
Qed.
End Receipts.

(** *** A pass by itself *)

(** A future run to its end with nothing in between. *)
Fixpoint alone {S A} (p : Async S A) (s : S) (n : nat) : option (A * S * nat) :=
  match p with
  | Return a => Some (a, s, n)
  | Await ready m k =>
      if ready s then match m s n with (r, s', n') => alone (k r) s' n' end else None
  end.

Definition ends {S A} (p : Async S A) (s : S) (n : nat) (Q : A → S → nat → Prop) : Prop :=
  match alone p s n with Some (a, s', n') => Q a s' n' | None => False end.

Section Ends.
Context {S : Type}.

Lemma ends_bind {A B} (p : Async S A) (f : A → Async S B) s n Q :
  ends p s n (λ a s' n', ends (f a) s' n' Q) → ends (abind p f) s n Q.
Proof.
  unfold ends. revert s n. induction p as [a|E X ready m k IH]; intros s n; simpl; [done|].
  destruct (ready s); [|done]. destruct (m s n) as [[r s'] n']. apply IH.
Qed.

Lemma ends_fbind {E A B} (p : Fut S E A) (f : A → Fut S E B) s n Q :
  ends p s n (λ r s' n', match r with Ok a => ends (f a) s' n' Q | Err e => Q (Err e) s' n' end) →
  ends (fbind p f) s n Q.
Proof.
  intros Hp. apply ends_bind. unfold ends in *. destruct (alone p s n) as [[[[a|e] s'] n']|]; done.
Qed.

Lemma ends_section {E A} (m : M S E A) s n Q : wp m s n Q → ends (section m) s n Q.
Proof. unfold ends, wp. simpl. by destruct (m s n) as [[r s'] n']. Qed.

Lemma ends_outcome {E F A} (p : Fut S E A) s n (Q : result (result A E) F → S → nat → Prop) :
  ends p s n (λ r, Q (Ok r)) → ends (outcome p) s n Q.
Proof. intros Hp. apply ends_bind. unfold ends in *. by destruct (alone p s n) as [[[r s'] n']|]. Qed.
End Ends.

Section Pass.
Context `{Env} `{ForeignText} `{!Base64} `{Codec} `{Urls} `{Addressing} `{!TicketCodec} {V : Type} `{!Downloads}.
Variable relay_mode : CoreRelayMode.
Variable custom_relay_urls : list RelayUrl.
Implicit Types (x : Inbound V).

(** The database works, and the sender can be reached and answers. *)
Hypothesis no_faults : ∀ n, io_fault n = None.

Definition reachable (receipt : PendingDeliveryReceipt) : Prop :=
  ∃ addr addr', parse_persisted_sender_address (pd_sender_blob_ticket receipt) = Ok addr ∧
    filter_peer_addr_for_relay_mode addr relay_mode custom_relay_urls = Ok addr' ∧
    ∀ n, ∃ answer, receipt_reply n addr' receipt = Some (Ok answer).

Lemma ends_delete_receipt request x n :
  ends (delete_receipt request) x n (λ r x' _, r = Ok tt ∧ pending x' = delete request (pending x)).
Proof.
  apply ends_section. unfold wp.
  assert (wp (in_ib_history (delete_pending_delivery_receipt request)) x n (λ r x' _,
    r = Ok tt ∧ pending x' = delete request (pending x))) as Hwp.
  { apply wp_zoom. unfold delete_pending_delivery_receipt, wp, asql, map_err, stmt. rewrite no_faults. simpl.
    split; [done|]. unfold pending, ib_history. simpl. by rewrite delete_where_str. }
  unfold wp in Hwp. destruct (in_ib_history _ x n) as [[r x'] n']. by destruct Hwp as [-> Hp].
Qed.

Lemma ends_deliver receipt x n :
  reachable receipt →
  ends (deliver_pending_receipt relay_mode custom_relay_urls receipt) x n (λ r x' _,
    r = Ok tt ∧ pending x' = delete (pd_request_id receipt) (pending x)).
Proof.
  intros (addr & addr' & Hp & Hf & Hr). unfold deliver_pending_receipt. rewrite Hp, Hf.
  apply ends_fbind, ends_section. unfold wp. destruct (Hr n) as [answer ->].
  destruct answer; (apply ends_fbind, ends_outcome; pose proof (ends_delete_receipt (pd_request_id receipt) x (S n)) as Hd;
    unfold ends in Hd |- *; destruct (alone (delete_receipt _) x (S n)) as [[[r x'] n']|]; [|done]; simpl; by destruct Hd as [_ Hd]).
Qed.

Lemma ends_deliver_each receipts x n :
  Forall reachable receipts →
  ends (deliver_each relay_mode custom_relay_urls receipts) x n (λ r x' _,
    r = Ok tt ∧ ∀ request, pending x' !! request =
      if decide (request ∈ pd_request_id <$> receipts) then None else pending x !! request).
Proof.
  intros Hall. revert x n. induction Hall as [|receipt receipts Hr Hall IH]; intros x n.
  { split; [done|]. intros request. by rewrite decide_False by (by intros ?%elem_of_nil). }
  cbn [deliver_each]. apply ends_fbind. pose proof (ends_deliver receipt x n Hr) as Hd. unfold ends in Hd |- *.
  destruct (alone (deliver_pending_receipt _ _ receipt) x n) as [[[r x1] n1]|]; [|done]. destruct Hd as [-> Hd].
  specialize (IH x1 n1). unfold ends in IH. destruct (alone (deliver_each _ _ receipts) x1 n1) as [[[r x2] n2]|]; [|done].
  destruct IH as [-> Hp]. split; [done|]. intros request. rewrite Hp, Hd. rewrite fmap_cons.
  destruct (decide (request ∈ pd_request_id <$> receipts)) as [Hin|Hin].
  - by rewrite decide_True by by right.
  - destruct (decide (request = pd_request_id receipt)) as [->|Hne].
    + rewrite decide_True by by left. apply lookup_delete_eq.
    + rewrite decide_False by (by intros [?|?]%elem_of_cons). by rewrite lookup_delete_ne.
Qed.

(** The receipts of the table, as they are listed. *)
Definition listed_receipts x : list PendingDeliveryReceipt :=
  (λ kr : string * ReceiptRow,
    {| pd_local_transfer_id := as_u64 (p_local_transfer_id kr.2);
       pd_sender_blob_ticket := p_sender_blob_ticket kr.2; pd_request_id := kr.1;
       pd_sender_transfer_id := as_u64 (p_sender_transfer_id kr.2); pd_token := p_token kr.2;
       pd_failure_reason := p_failure_reason kr.2 |}) <$>
    order_by first_created (map_to_list (pending x)).

Lemma listed_all x request : is_Some (pending x !! request) → request ∈ pd_request_id <$> listed_receipts x.
Proof.
  intros [row Hrow]. unfold listed_receipts. rewrite <- list_fmap_compose. apply list_elem_of_fmap.
  exists (request, row). split; [done|]. by apply elem_of_order_by, elem_of_map_to_list.
Qed.

(** When the senders of all receipts can be reached and answer, one pass delivers
    them all: it ends, and nothing is owed any more. *)
Theorem a_pass_delivers_everything x n :
  (∀ receipt, receipt ∈ listed_receipts x → reachable receipt) →
  ∃ some x' n', alone (deliver_pending_receipts relay_mode custom_relay_urls) x n = Some (Ok some, x', n') ∧
    pending x' = ∅.
Proof.
  intros Hr. assert (ends (deliver_pending_receipts relay_mode custom_relay_urls) x n (λ r x' _,
    (∃ some, r = Ok some) ∧ pending x' = ∅)) as He.
  { unfold deliver_pending_receipts. apply ends_fbind, ends_outcome, ends_section, wp_zoom.
    unfold list_pending_delivery_receipts, select, wp, asql, map_err, stmt. rewrite no_faults. simpl.
    change (_ <$> order_by first_created _) with (listed_receipts x).
    apply ends_fbind. set (x1 := put_ib_history _ x).
    assert (pending x1 = pending x) as Ex by by destruct x.
    pose proof (ends_deliver_each (listed_receipts x) x1 (S n)) as Hd.
    unfold ends in Hd |- *. destruct (alone (deliver_each _ _ _) x1 (S n)) as [[[r x'] n']|].
    - destruct Hd as [-> Hp]; [by apply Forall_forall|]. split; [eauto|]. apply map_empty. intros request. rewrite Hp, Ex.
      case_decide as Hin; [done|]. destruct (pending x !! request) as [row|] eqn:E; [|done].
      exfalso. apply Hin, listed_all. eauto.
    - apply Hd. by apply Forall_forall. }
  unfold ends in He. destruct (alone _ x n) as [[[r x'] n']|]; [|done]. destruct He as [[some ->] Hp].
  by exists some, x', n'.
Qed.
End Pass.

(** ** Targeted payloads *)

Lemma checked_sum_total total sizes r : checked_sum total sizes = Some r → r = total + foldr Z.add 0 sizes.
Proof.
  revert total. induction sizes as [|size sizes IH]; intros total; simpl; [intros [= <-]; lia|].
  destruct (_ <? _); [done|]. intros E%IH. lia.
Qed.

(** What a remote that passed the check has: the authorized files, of the authorized size. *)
Lemma check_payload_sound limits count size sizes :
  check_payload limits count size sizes = Ok tt →
  Z.max 0 (Z.of_nat (length sizes) - 1) = count ∧ foldr Z.add 0 (tail sizes) = size ∧
  count ≤ max_collection_files limits ∧ foldr Z.add 0 sizes ≤ max_total_bytes limits.
Proof.
  unfold check_payload. destruct (checked_sum 0 sizes) as [remote|] eqn:Er; [|done]. cbv zeta.
  destruct (Z.eqb_spec (Z.max 0 (Z.of_nat (length sizes) - 1)) count) as [E1|]; [|done].
  destruct (checked_sum 0 (tail sizes)) as [payload|] eqn:Ep; [|done]. simpl.
  destruct (Z.eqb_spec payload size) as [E2|]; [|done]. simpl.
  destruct (Z.ltb_spec (max_collection_files limits) (Z.max 0 (Z.of_nat (length sizes) - 1))); [done|].
  destruct (Z.ltb_spec (max_total_bytes limits) remote); [done|]. intros _.
  apply checked_sum_total in Er, Ep. lia.
Qed.

Section Payload.
Context `{Env} `{ForeignText} `{Host} `{!Base64} `{Codec} `{Urls} `{Addressing}
  `{!TicketCodec} {V : Type} `{SecureSecretStore V} `{Volume} (foreign : list Component → Prop)
  `{!VolumeLaws foreign} `{Exports} `{!Downloads}.
Variable limits : CoreLimits.
Variable relay_mode : CoreRelayMode.
Variable custom_relay_urls : list RelayUrl.
Variables (t : Z) (me : nat).
Implicit Types (x : Inbound V).
Hypothesis exclusive : exclusive_rename.

Abbreviation only := (λ (i : nat) (_ _ : Inbound V), i = me).
Abbreviation task := (triple (λ _, True) only (aside t me) (λ _ : Inbound V, None) me (λ _, True)).

(** What was learnt of the world on the way. *)
Abbreviation known φ := (λ _ : Inbound V, φ : Prop).

Lemma task_known (φ : Prop) {A} (p : Async (Inbound V) A) Q :
  (φ → task (known True) p Q) → task (known φ) p Q.
Proof. intros Hp x Hi Hφ. by apply Hp. Qed.

Lemma task_ok {E A} (f : nat → result A E) :
  task (known True) (reply f) (λ r _, ∃ n, r = f n).
Proof.
  apply triple_section; [apply stable_pure|intros; apply stable_pure|done|].
  intros x n _ _. unfold wp. split; [done|split; [done|by exists n]].
Qed.

(** The sum of what was verified is the payload. *)
Definition held (hash : string) (hash_sequence_bytes metadata_bytes payload_size : Z) : Prop :=
  ∃ n local, local_bytes n hash = Ok local ∧
    Z.min (Z.max 0 (Z.max 0 (local - hash_sequence_bytes) - metadata_bytes)) payload_size = payload_size.

Lemma task_advance id verified : task (known True) (advance_payload (V:=V) id verified) (λ _ _, True).
Proof.
  unfold advance_payload. eapply (task_next t me _ _ _ _ (λ _ _, True)).
  - apply triple_map_err; [|intros; apply stable_pure]. apply task_untouched; [apply stable_pure|done|].
    intros x n. apply wp_zoom, wp_zoom, wp_zoom, wp_any. intros. split; auto.
  - intros e. split; [apply stable_pure|done].
  - intros moved. apply triple_return; [apply stable_pure|done].
Qed.

(** Postconditions that are trivial for errors. *)
Definition if_ok {E A} (φ : A → Inbound V → Prop) (r : result A E) x : Prop :=
  match r with Ok a => φ a x | Err _ => True end.

Lemma task_err {E A} φ (e : E) : task (known True) (Return (Err e)) (if_ok (A:=A) φ).
Proof. apply triple_return; [apply stable_pure|done]. Qed.

Lemma task_and_then {E A B} (p : Fut (Inbound V) E A) (f : A → Fut (Inbound V) E B) (ψ : A → Prop) φ :
  task (known True) p (if_ok (λ a _, ψ a)) → (∀ a, ψ a → task (known True) (f a) (if_ok φ)) →
  task (known True) (fbind p f) (if_ok φ).
Proof.
  intros Hp Hf. eapply task_next; [exact Hp|intros e; split; [apply stable_pure|done]|].
  intros a. apply (task_known (ψ a)), Hf.
Qed.

Lemma task_learn {E A B} (g : nat → result A E) (f : A → Fut (Inbound V) E B) φ :
  (∀ n a, g n = Ok a → task (known True) (f a) (if_ok φ)) → task (known True) (fbind (reply g) f) (if_ok φ).
Proof.
  intros Hf. apply (task_and_then _ _ (λ a, ∃ n, g n = Ok a)); [|intros a [n Hn]; by eapply Hf].
  eapply triple_mono; [apply task_ok|done|done|]. intros [a|e] x _ [n Hn]; [by exists n|done].
Qed.

Lemma task_payload_loop id hash sequence metadata size items :
  task (known True) (payload_loop (V:=V) id hash sequence metadata size items)
    (if_ok (λ _ _, held hash sequence metadata size)).
Proof.
  assert (∀ verified, task (known True) (advance_payload (V:=V) id verified) (if_ok (λ _ _, True))) as Hadvance.
  { intros verified. eapply triple_mono; [apply task_advance|done|done|]. by intros [?|?]. }
  induction items as [|item items IH]; cbn [payload_loop]; apply task_learn; intros _ [] _; [apply task_err|].
  destruct item as [| |text]; [| |apply task_err].
  - apply task_learn. intros _ local _. apply (task_and_then _ _ (λ _, True)); [apply Hadvance|]. by intros [] _.
  - apply task_learn. intros n local Hn.
    destruct (Z.eqb_spec (Z.min (Z.max 0 (Z.max 0 (local - sequence) - metadata)) size) size) as [Es|]; [|apply task_err].
    simpl. eapply triple_mono; [apply Hadvance|done|done|]. intros [[]|e] x _ _; [|done]. exists n, local. by split.
Qed.

(** The sizes that the remote declared, and the files that were received. *)
Definition authorized (hash : string) (count size : Z) : Prop :=
  ∃ n sizes, hash_seq_and_sizes n hash = Ok sizes ∧
    Z.max 0 (Z.of_nat (length sizes.2) - 1) = count ∧ foldr Z.add 0 (tail sizes.2) = size ∧
    count ≤ max_collection_files limits ∧ foldr Z.add 0 sizes.2 ≤ max_total_bytes limits ∧
    held hash (sizes.1 * 32) (default 0 (head sizes.2)) size.

Definition payload_here (hash : string) (count size : Z) (target : ReceiveTarget) x : Prop :=
  authorized hash count size ∧ ∃ n files, collection_files n hash = Ok files ∧ got target files x.

(** The form of an error does not matter. *)
Lemma task_form {E F A} (h : E → F) (p : Fut (Inbound V) E A) (ψ : A → Prop) :
  task (known True) p (if_ok (λ a _, ψ a)) → task (known True) (fmap_err h p) (if_ok (λ a _, ψ a)).
Proof.
  intros Hp. apply triple_map_err; [|intros [?|?]; apply stable_pure].
  eapply triple_mono; [exact Hp|done|done|]. by intros [?|?].
Qed.

Lemma task_trivial {E A} (p : Fut (Inbound V) E A) :
  task (known True) p (λ _, known True) → task (known True) p (if_ok (λ _ _, True)).
Proof. intros Hp. eapply triple_mono; [exact Hp|done|done|]. by intros [?|?]. Qed.

Lemma task_download_payload id transfer_id count size blob_ticket target :
  task (known True) (download_targeted_payload limits me id transfer_id count size blob_ticket target)
    (if_ok (λ _, payload_here (blob_ticket_hash blob_ticket) count size target)).
Proof.
  set (hash := blob_ticket_hash blob_ticket). unfold download_targeted_payload. fold hash.
  apply (task_and_then _ _ (λ files, authorized hash count size ∧ ∃ n, collection_files n hash = Ok files)).
  - apply task_form. apply (task_and_then _ _ (λ _, True)).
    { apply task_trivial, (task_open_target foreign t me); [apply stable_pure|done]. }
    intros [] _. apply (task_and_then _ _ (λ _, True)).
    { apply task_form, task_trivial. apply task_fault; [apply stable_pure|done]. }
    intros [] _. apply (task_and_then _ _ (λ sizes, ∃ n, hash_seq_and_sizes n hash = Ok sizes)).
    { apply task_form. eapply triple_mono; [apply task_ok|done|done|]. intros [a|e] x _ [n Hn]; [by exists n|done]. }
    intros sizes [n Hsizes]. destruct (check_payload limits count size sizes.2) as [[]|e] eqn:Ec; [|apply task_err].
    apply check_payload_sound in Ec as (H1' & H2' & H3' & H4').
    apply (task_and_then _ _ (λ _, True)).
    { apply task_trivial. apply task_fault; [apply stable_pure|done]. }
    intros [] _. apply task_learn. intros _ items _.
    apply (task_and_then _ _ (λ _, held hash (sizes.1 * 32) (default 0 (head sizes.2)) size)); [apply task_payload_loop|].
    intros [] Hheld. eapply triple_mono; [apply task_ok|done|done|]. intros [files|e] x _ [m Hm]; [|done].
    split; [|by exists m]. exists n, sizes. by split_and!.
  - intros files [Ha [m Hm]]. eapply triple_mono; [apply (task_export_files foreign limits t me exclusive (known True) (known True)); [apply stable_pure|done]|done|done|].
    intros [[]|halt] x _ Hx; [|done]. destruct Hx as [_ Hg]. split; [done|]. by exists m, files.
Qed.

(** The receive of the payload, under its signal. *)
Lemma task_receive_payload id transfer_id count size blob_ticket target addr :
  filter_peer_addr_for_relay_mode (blob_ticket_addr blob_ticket) relay_mode custom_relay_urls = Ok addr →
  task (known True) (receive_targeted_payload limits relay_mode custom_relay_urls me id transfer_id count size blob_ticket target)
    (if_ok (λ _, payload_here (blob_ticket_hash (blob_ticket_with_addr addr blob_ticket)) count size target)).
Proof.
  intros Hf. unfold receive_targeted_payload. rewrite Hf.
  set (here := payload_here (blob_ticket_hash (blob_ticket_with_addr addr blob_ticket)) count size target).
  assert (stable (λ _, True) only (aside t me) me here) as Hhere.
  { intros x x' Hi (Ha & m & files & Hm & Hg) Hr. split; [done|]. exists m, files. split; [done|]. by eapply stays_got. }
  eapply (triple_bind _ _ _ _ _ _ _ _ _ (λ raced x, match raced with Some (Ok _) => here x | _ => True end)).
  - apply (triple_race _ _ _ _ _ (λ _, True)); [|apply stable_pure|done].
    eapply (triple_mono _ _ _ _ _ _ _ (known True)); [|done|done|].
    + apply (task_and_then (E:=Halt) _ _ (λ _, True)); [|intros [] _; apply task_download_payload].
      apply task_trivial. by eapply triple_mono; [apply task_ok|..].
    + by intros [?|?].
  - intros [[[]|[e|]]|]; try apply task_err. apply triple_return; [exact Hhere|done].
Qed.
End Payload.

Section Payloads.
Context `{Env} `{ForeignText} `{Host} `{!Base64} `{Codec} `{Urls} `{Addressing}
  `{!TicketCodec} {V : Type} `{SecureSecretStore V} `{Volume} (foreign : list Component → Prop)
  `{!VolumeLaws foreign} `{Exports} `{!Downloads}.
Variable limits : CoreLimits.
Variable relay_mode : CoreRelayMode.
Variable custom_relay_urls : list RelayUrl.

(** C24: When the payload of a targeted transfer was received, whatever happened meanwhile,
    the remote declared exactly the authorized number of files and the authorized size, within
    the limits; the blob store held all of these bytes when the download ended; and every file
    of the collection, with its content, was handed to the sink – started, written and finished
    there – or is at its place in the directory, unless its own name is that of a part, which
    the sweep of stale parts may take. *)
Theorem payload_received id transfer_id count size blob_ticket target addr (x0 : Inbound V) w :
  exclusive_rename →
  filter_peer_addr_for_relay_mode (blob_ticket_addr blob_ticket) relay_mode custom_relay_urls = Ok addr →
  rtc (pool_step (λ _ _, False) (aside transfer_id 0))
    (Build_Pool [receive_targeted_payload limits relay_mode custom_relay_urls 0 id transfer_id count size blob_ticket target] x0) w →
  pool_tasks w !! 0%nat = Some (Return (Ok tt)) →
  let hash := blob_ticket_hash (blob_ticket_with_addr addr blob_ticket) in
  authorized limits hash count size ∧
  ∃ n files, collection_files n hash = Ok files ∧ got target files (pool_state w).
Proof.
  intros Hexcl Hf Hw Hr hash.
  set (end_ := λ (i : nat) (o : result unit AnyhowError) (x : Inbound V), i = 0%nat →
    if_ok (λ _, payload_here limits hash count size target) o x).
  assert (pool_ok (λ _, True) (λ i _ _, i = 0%nat) (aside transfer_id 0) (λ _, None) end_ w) as (_ & Htasks & _).
  { eapply (pool_safe _ _ _ _ end_); [by auto|done|done|done| | |exact Hw]; [by intros i p s Hentry|].
    split_and!; [done| |done]. intros i p Hi. apply list_lookup_singleton_Some in Hi as [-> <-]. simpl.
    eapply rg_mono; [by apply (task_receive_payload foreign limits relay_mode custom_relay_urls transfer_id 0 Hexcl
      id transfer_id count size blob_ticket target addr Hf)|done|]. by intros a x _ Hx _. }
  specialize (Htasks 0%nat _ Hr (pool_state w)). simpl in Htasks. by apply Htasks.
Qed.
End Payloads.

(** ** Concrete runs *)

Section Witnesses.
#[local] Existing Instances demo_text demo_base64 demo_addressing demo_urls auth_host auth_blake3 calm_volume calm_laws small_exports receive_env receive_codec.
#[local] Instance answering : Downloads := {|
  approval_reply _ _ _ _ := Err "unused";
  blobs_connect_fault _ _ := None;
  hash_seq_and_sizes _ _ := Ok (3, [70; 5; 5]);
  temp_tag_fault _ := None;
  fetch_items _ _ := [GProgress; GDone];
  local_bytes _ _ := Ok 176;
  collection_files _ _ := Ok [("docs/a.txt", "h"); ("docs/b.txt", "i")];
  receipt_reply _ _ _ := Some (Ok ReceiptRecorded) |}%string.

(** After a receive: its receipt is owed. *)
Definition owing : Inbound FaultInjectingSecretStore := received_end.2.

Lemma owing_receipt : is_Some (pending owing !! "request"%string).
Proof. vm_compute. eauto. Qed.

Definition pass_ (n : nat) := take_turns (repeat 0%nat n) [deliver_pending_receipts (V:=FaultInjectingSecretStore) Automatic []] owing 0.

Lemma receipts_wait_for_answer_witness :
  ∃ ps x, pass_ 3 = Some (ps, x) ∧ (is_Some (pending x !! "request"%string) ∨ answered "request"%string).
Proof.
  destruct (pass_ 3) as [[ps x]|] eqn:E; [|by vm_compute in E]. exists ps, x. split; [done|].
  apply (receipts_wait_for_answer Automatic [] owing (Build_Pool ps x)); [|exact owing_receipt].
  eapply rtc_l; [by apply (pool_enters _ _ (Build_Pool [] owing))|]. by apply (turns_steps _ _ (repeat 0%nat 3) _ _ 0%nat).
Defined.

Lemma a_pass_delivers_everything_witness :
  pending owing ≠ ∅ ∧
  ∃ some x' n', alone (deliver_pending_receipts Automatic []) owing 0 = Some (Ok some, x', n') ∧ pending x' = ∅.
Proof.
  split; [intros E; pose proof owing_receipt as [row Hrow]; by rewrite E in Hrow|].
  apply (a_pass_delivers_everything Automatic []); [by vm_compute|].
  intros receipt Hin. assert (listed_receipts owing = [{| pd_local_transfer_id := 7; pd_sender_blob_ticket := pd_sender_blob_ticket (hd receipt (listed_receipts owing));
    pd_request_id := "request"; pd_sender_transfer_id := 7; pd_token := "token"; pd_failure_reason := None |}%string]) as E by (by vm_compute).
  rewrite E in Hin. apply list_elem_of_singleton in Hin as ->. eexists _, _. split; [by vm_compute|]. split; [by vm_compute|].
  intros n. by eexists.
Defined.

Definition photo_blob : BlobTicket (TicketCodec:=receive_codec) := {| da_id := "ann"; da_relays := []; da_ips := [] |}.
Definition payload_call : Fut (Inbound FaultInjectingSecretStore) AnyhowError unit :=
  receive_targeted_payload default_core_limits Automatic [] 0 "t1" 7 2 10 photo_blob (Directory "/in").
Definition payload_end : list (Async (Inbound FaultInjectingSecretStore) (result unit AnyhowError)) *
    Inbound FaultInjectingSecretStore :=
  default ([], receiver_start) (take_turns (repeat 0%nat 15) [payload_call] receiver_start 0).

Lemma payload_reached :
  rtc (pool_step (λ _ _, False) (aside 7 0)) (Build_Pool [payload_call] receiver_start) (Build_Pool payload_end.1 payload_end.2).
Proof.
  apply (turns_steps _ _ (repeat 0%nat 15) _ _ 0%nat). unfold payload_end.
  destruct (take_turns _ _ _ _) as [[ps x]|] eqn:E; [reflexivity|]. exfalso.
  assert (is_Some (take_turns (repeat 0%nat 15) [payload_call] receiver_start 0)) as Hs by (vm_compute; eauto).
  rewrite E in Hs. by destruct Hs.
Qed.

Lemma payload_received_witness :
  payload_end.1 !! 0%nat = Some (Return (Ok tt)) ∧ authorized default_core_limits "hash" 2 10 ∧
  ∃ n files, collection_files n "hash" = Ok files ∧ got (Directory "/in") files payload_end.2.
Proof.
  assert (payload_end.1 !! 0%nat = Some (Return (Ok tt))) as E by (vm_compute; reflexivity). split; [exact E|].
  exact (payload_received (λ _, False) default_core_limits Automatic [] "t1" 7 2 10 photo_blob (Directory "/in") photo_blob
    receiver_start (Build_Pool payload_end.1 payload_end.2) calm_exclusive eq_refl payload_reached E).
Defined.
End Witnesses.
